(* ===== verification/_CoqProject ===== *)
-Q . S2P
Prelude.v
KError.v
SysTypes.v
Register.v
Syscall.v
Pod.v
PageAlloc.v
Addr.v
Pages.v
Pte.v
PteSpec.v
PageTable.v
PtSpec.v
PtMap.v
PtIter.v
PtUnmap.v
PtCow.v
PtFixed.v
VmWorld.v
VmFork.v
PtWalk.v
PtEntries.v
PtDrop.v
VmView.v
VmOps.v
VmSystem.v
VmClaims.v
VmUser.v
VmHeap.v
VmCopy.v
VmExample.v
VmValidate.v
Proc.v
ProcSpec.v
ProcLife.v
ProcInv.v
ProcClaims.v
ProcExample.v
FsTypes.v
Mkfs.v
Lru.v
BlockIo.v
BlockSpec.v
Store.v
Log.v
LogStore.v
Recovery.v
DataBlock.v
Inode.v
InodeSpec.v
Content.v
Truncate.v
Itable.v
Directory.v
Path.v
FsOps.v
FsSpec.v
Slab.v
Ring.v
Monitor.v
SpinLock.v
SleepLock.v
Pipe.v
File.v
Console.v
Uart.v
ShToken.v
ShParser.v
ShGrammar.v
ShClaims.v
Slots.v
E1000.v
Packet.v
Net.v
NetOk.v
BufIo.v
BufReader.v
Malloc.v
Virtio.v
VirtioOk.v
