(* ===== verification/Prelude.v ===== *)
(** * Verification of the ov6 kernel and userland

    ov6 is a small Unix-like operating system for RISC-V, written in Rust. This library models the kernel's memory management,
    processes, synchronization, file system, devices and network stack, the system call interface, and the I/O library, the allocator
    and the shell of the user programs, and proves what makes them correct. File names below are relative to [src/crates]; [kernel]
    stands for [kernel/ov6_kernel/src] and [user_lib] for [user/ov6_user_lib/src].

    ** How the code is modelled

    A function of the sources is a Rocq function of the same name. Code that changes state is in the monad [M S A] of this file, a
    function from a state to a value and a new state ([Ret]) or to [Panic]; a [Result] is a value of type [result]. [Panic] stands for
    a Rust panic and, where a comment says so, for an access that the unsafe code must not make. [wp m Q s] says that [m] run from
    [s] returns and establishes [Q]; [wlp] says the same for runs that do not panic. Integers are [Z], kept in their width by [wrap]
    and checked operations: the release profile of the build wraps around. Bytes are [Byte.byte], structures are records,
    enumerations are inductive types with the source's constructors, and views of structures in byte buffers are codecs ([Pod.v]).
    Structures whose derive macros come from outside of the repository ([Pod], [thiserror]) are modelled as these document it.

    Concurrency is modelled at the granularity that fits the component. [SpinLock.v] has single memory accesses of several CPUs and
    shows that a lock excludes the others; on that ground [Monitor.v], [Proc.v] and the components above run the code between taking
    and releasing a lock as one step, and interleave these steps in every order. Reachable states are inductive relations, and their
    invariants are proved by induction on the steps.

    ** Parts and files

    - System call interface: [KError.v] (error values and their numbers), [SysTypes.v] (values that cross the boundary),
      [Register.v] (their encoding in registers), [Syscall.v] (dispatch in [kernel/syscall/mod.rs] and the calls in
      [user_lib/os/ov6/syscall/ffi.rs]; the handlers are a parameter), [Pod.v] (views of structures).
    - Memory: [PageAlloc.v] (page frames), [Addr.v] (addresses and ranges), [Pages.v] (counted pages), [Pte.v] and [PteSpec.v]
      (entries), [PageTable.v] (page tables and their iterator), [PtSpec.v] to [PtFixed.v], [PtWalk.v], [PtEntries.v] and [PtDrop.v] (each
      operation against an abstract table), [VmWorld.v] to [VmSystem.v] (all page tables of the system together), [VmUser.v],
      [VmHeap.v] and [VmCopy.v] (address spaces, the heap, copies between kernel and user and between users),
      [VmValidate.v] (validated references, [fetch_path] of [kernel/syscall/file.rs]), [VmClaims.v] and [VmExample.v].
    - Processes: [Proc.v] (table, fork, exit, wait, kill, sleep, wakeup, scheduler), [ProcSpec.v], [ProcLife.v] (the step relation),
      [ProcInv.v], [ProcClaims.v] and [ProcExample.v]. Files are reached through the interface [FileLayer], which [File.v] implements.
    - Disk and file system: [FsTypes.v] and [Mkfs.v] (layout), [Lru.v], [BlockIo.v] and [BlockSpec.v] (block cache), [Log.v],
      [LogStore.v] and [Recovery.v] (write-ahead log), [Store.v] (the interface of transactions, which the log implements),
      [DataBlock.v], [Inode.v], [InodeSpec.v], [Content.v], [Truncate.v], [Itable.v], [Directory.v], [Path.v], [FsOps.v], [FsSpec.v];
      [Virtio.v] ([kernel/fs/virtio_disk.rs] and [virtio.rs]) and [VirtioOk.v] (driver, interrupt handler and device together).
    - Synchronization and allocation: [Slab.v], [Ring.v], [Monitor.v], [SpinLock.v], [SleepLock.v].
    - Files and devices: [Pipe.v], [File.v] (the table of open files; inodes through the interface [InodeLayer]), [Console.v] (input
      from the console), [Uart.v] (serial port and output to the console), [Slots.v] and [E1000.v] (network card), [Packet.v],
      [Net.v] and [NetOk.v] (protocols).
    - User programs: [ShToken.v], [ShParser.v], [ShGrammar.v] and [ShClaims.v] (shell), [BufIo.v] and [BufReader.v] (buffered output
      and input, over the interfaces [Writer] and [Reader]), [Malloc.v] (allocator, over the interface [Break]).

    ** What the theorems show

    - Memory. The steps of [VmSystem.vm_step] are the operations on page tables with all their results, each with an event that says
      whether a copy on write or a clone ran out of memory; mapping and cloning are to addresses where nothing is mapped. As long as
      no copy on write did ([vm_reachable]), a page that user code can write is reached through no other entry, a store changes
      nothing that anyone else loads, fork shares pages, and a write fault gives write access without changing what is loaded; when no
      clone did either, no page is lost. Copies between kernel and user, over shared pages as long as there are free ones, and growing
      and shrinking the heap are round trips. A path that a program passes is fetched as the program sees it, and no slice it can pass
      makes the fetch panic. Page counters equal the number of owners.
    - Processes. The process table is well formed under every interleaving of the processes and CPUs, forks that fail for want of
      memory included: these leave private data behind in a free slot, which the ghost field [g_left] records; a process that sleeps in wait
      has nothing to reap; wait returns what exit left.
    - File system. The block cache refines a map of blocks; a commit installs what was logged when the cache has a
      buffer to spare, and the log keeps within the reservations as long as no operation logs more different blocks than it may;
      reads and writes of a file act on its content and on nothing else; truncation frees exactly the blocks of the file; path
      resolution is the walk over the directories on disk; inode cells and LRU entries live as long as they are held. The disk driver
      performs each request once between call and return, never panics with a device that reports success, and loses no wakeup.
    - Synchronization. Spin locks exclude; pipes are bounded queues; no wakeup of a pipe is lost; the console is a line editor, and
      what is written to it is not interleaved.
    - Open files. Slots, counters and pipes of the file table fit the references that processes hold.
    - Network. No packet makes the kernel panic; what is sent is what arrives; the rings of the card keep packets in order.
    - System calls. What a handler returns for the decoded argument is what the user's call returns.
    - User programs. The parser of the shell decides its grammar, ends on every line and reads back what is printed; output is
      delivered in order and complete; lines are read as they are in the stream; allocated blocks are disjoint and freed memory is
      joined again.

    Some theorems state where the code falls short of what it means to do, with the run that shows it: recovery after a crash
    ([Recovery.crash_after_commit_point]), a full log, copy on write and fork without free pages ([VmExample.v],
    [VmValidate.v], [ProcExample.v]), failed device reads, a full send ring, a checksum that panics, a port table that
    panics, a print that is cut, an echo that is not what was typed.

    ** Bounds and fuel

    Loops that are not structural run on a binary fuel ([while_]); [while_wp] asks for a variant below the fuel, so the theorems
    that use it also show that the loop ends. [FUEL] of [PageTable.v] is 2^40, above the number of pages of an address space;
    [SLICE_FUEL] of [Pipe.v] and [IO_FUEL] of [BufIo.v] are 2^64, above the length of any slice; a chain of descriptors of the
    disk has at most 8 entries and its completion ring at most 8 new ones, below the fuel 256 and 2^17 of [Virtio.v]; [parse_fuel]
    of [ShParser.v] is linear in the line and [ShClaims.parse_terminates] shows that it is enough; [chunk_fuel] of [Pte.v] is the
    number of pages of a range. Constants of the code (numbers of processes, buffers, files, ports, ring sizes) are those of the
    sources; numbers of CPUs, of pages and of blocks are arbitrary unless a theorem says otherwise.

    ** Hypotheses about the outside

    The device of the block cache may fail and does what was asked otherwise. The disk follows the chains it finds in the request
    ring, completes them in any order and reports success ([VirtioOk.v]); on a failure the driver panics by an assertion. The card
    moves through its rings as its manual says ([E1000.v]), and the interrupt controller delivers one interrupt of a device at a
    time. System calls that programs use for output and input take or deliver a prefix ([WriterOk], [ReaderOk]), and the program
    break grows by what was asked ([BreakOk]). Each of these interfaces has a concrete instance in the file that uses it.

    ** Not modelled

    - Assembly and boot: trampoline, trap vectors, context switch, start code, writes to control registers, [satp] and the accessed
      and dirty bits that hardware sets. A context switch is a change of the running process.
    - The interrupt controllers, PCI configuration, and the registers of the serial port beyond its transmit side: the components above
      are proved against the interface of the device. The memory barriers between the disk and its driver: the steps of [VirtioOk.v]
      are turns under the lock of the driver and whole actions of the device.
    - [exec] and ELF loading, the handlers of system calls that only fetch arguments and call modelled operations, and the kernel's
      own address space, a fixed sequence of mappings. The steps of the process table allow any change by them that keeps states,
      parents and CPUs. Pages that the kernel takes for its own use are not steps of the virtual memory system of [VmSystem.v].
    - Waiting for a sleep lock inside of file system operations: [FsOps.v] runs an operation alone, and a lock that is held would
      block it. Weak memory orderings: the accesses of [SpinLock.v] are sequentially consistent.
    - Formatting and printing, the owned string and path types, the once cells, the wrappers of the user library around single
      system calls, the utilities, the interpreter of the shell, the part of the image builder that copies files, and tests. *)

From stdpp Require Export base tactics list gmap.
From Corelib Require Export ssreflect.
From Stdlib Require Export ZArith Lia.
From coqutil Require Export Byte Word.LittleEndianList.
From Stdlib Require Import Strings.Byte.

#[global] Open Scope general_if_scope.
#[global] Open Scope Z_scope.

Declare Scope ov6_scope.
Delimit Scope ov6_scope with ov6.
#[global] Open Scope ov6_scope.

(** ** Automation *)

Create HintDb ov6.
Create Rewrite HintDb ov6_len.

(** Splits every conjunction and existential of the context. *)
Ltac destruct_all :=
  repeat match goal with
    | H : _ ∧ _ |- _ => destruct H
    | H : ∃ _, _ |- _ => destruct H
    end.

(** Splits every [match] of the goal. *)
Ltac split_goal := repeat (case_match; simplify_eq/=).

(** Length side conditions. *)
Ltac len := autorewrite with ov6_len in *; simpl in *; try lia.

#[export] Hint Rewrite @length_app @length_take @length_drop @length_replicate
  @length_insert @length_map @length_fmap @length_seqZ @length_seq : ov6_len.

(** ** Results and effects

    [result] is Rust's [Result]; [outcome] is what running a function does: it
    returns a value in a new state or panics.  A Rust function that takes
    [&mut self] and returns [Result<T, E>] is an [M S (result E T)]: the state
    survives the error path, as it does in Rust. *)

Inductive result (E A : Type) : Type :=
  | Ok (a : A)
  | Err (e : E).
Arguments Ok {E A} a.
Arguments Err {E A} e.

Inductive outcome (S A : Type) : Type :=
  | Ret (a : A) (s : S)
  | Panic.
Arguments Ret {S A} a s.
Arguments Panic {S A}.

Definition M (S A : Type) : Type := S → outcome S A.

#[export] Instance M_ret {S} : MRet (M S) := λ A a s, Ret a s.
#[export] Instance M_bind {S} : MBind (M S) := λ A B f m s,
  match m s with
  | Ret a s' => f a s'
  | Panic => Panic
  end.

Definition panic {S A} : M S A := λ _, Panic.
Definition get {S} : M S S := λ s, Ret s s.
Definition gets {S A} (f : S → A) : M S A := λ s, Ret (f s) s.
Definition put {S} (s : S) : M S unit := λ _, Ret tt s.
Definition modify {S} (f : S → S) : M S unit := λ s, Ret tt (f s).

(** Rust's [assert!]: the boolean is the asserted condition. *)
Definition assert_ {S} (b : bool) : M S unit := if b then mret tt else panic.

(** [Option::unwrap]. *)
Definition unwrap {S A} (o : option A) : M S A :=
  match o with
  | Some a => mret a
  | None => panic
  end.

(** [Result::unwrap]. *)
Definition unwrap_ok {S E A} (r : result E A) : M S A :=
  match r with
  | Ok a => mret a
  | Err _ => panic
  end.

(** The [?] operator. *)
Definition try_bind {S E A B} (m : M S (result E A))
    (k : A → M S (result E B)) : M S (result E B) :=
  m ≫= λ r,
    match r with
    | Ok a => k a
    | Err e => mret (Err e)
    end.
Notation "x ←? m ; k" := (try_bind m (λ x, k))
  (at level 20, m at level 100, k at level 200, only parsing) : ov6_scope.

(** [for x in l { f(x) }]. *)
Fixpoint for_each {S A} (l : list A) (f : A → M S unit) : M S unit :=
  match l with
  | [] => mret tt
  | x :: l' => f x;; for_each l' f
  end.

(** [loop]: runs [body] until it returns [inr], at most [fuel] times.  The fuel is a binary
    number, so that a bound that covers every run costs nothing to evaluate. *)
Fixpoint iter_body {S A B} (fuel : positive) (body : A → M S (A + B)) (a : A) : M S (A + B) :=
  match fuel with
  | xH => body a
  | xO f =>
      r ← iter_body f body a;
      match r with
      | inl a => iter_body f body a
      | inr b => mret (inr b)
      end
  | xI f =>
      r ← body a;
      match r with
      | inl a =>
          r ← iter_body f body a;
          match r with
          | inl a => iter_body f body a
          | inr b => mret (inr b)
          end
      | inr b => mret (inr b)
      end
  end.
Definition while_ {S A B} (fuel : positive) (body : A → M S (A + B)) (a : A) : M S B :=
  r ← iter_body fuel body a;
  match r with
  | inr b => mret b
  | inl _ => panic
  end.

(** Running an operation on a part of the state. *)
Definition zoom {S T A} (view : S → T) (set : T → S → S) (m : M T A) : M S A :=
  λ s, match m (view s) with
       | Ret a t => Ret a (set t s)
       | Panic => Panic
       end.

(** ** Weakest preconditions

    [wp m Q s]: run from [s], [m] returns (it does not panic) and the returned
    value and state satisfy [Q].  [wlp] also admits panics. *)

Definition wp {S A} (m : M S A) (Q : A → S → Prop) (s : S) : Prop :=
  match m s with
  | Ret a s' => Q a s'
  | Panic => False
  end.
Definition wlp {S A} (m : M S A) (Q : A → S → Prop) (s : S) : Prop :=
  match m s with
  | Ret a s' => Q a s'
  | Panic => True
  end.

Section wp_laws.
Context {S : Type}.
Implicit Types (s : S).

Lemma wp_ret {A} (a : A) (Q : A → S → Prop) s : Q a s → wp (mret a) Q s.
Proof. done. Qed.

Lemma wp_bind {A B} (m : M S A) (f : A → M S B) Q s :
  wp m (λ a, wp (f a) Q) s → wp (m ≫= f) Q s.
Proof. rw /wp /mbind /M_bind. by destruct (m s). Qed.

Lemma wp_try_bind {E A B} (m : M S (result E A)) (f : A → M S (result E B)) Q s :
  wp m (λ r, match r with Ok a => wp (f a) Q | Err e => Q (Err e) end) s →
  wp (try_bind m f) Q s.
Proof.
  intros H. apply wp_bind. revert H. rw /wp.
  destruct (m s) as [[a|e] s'|]; done.
Qed.

Lemma wp_mono {A} (m : M S A) (Q Q' : A → S → Prop) s :
  wp m Q s → (∀ a s', Q a s' → Q' a s') → wp m Q' s.
Proof. rw /wp. destruct (m s); naive_solver. Qed.

Lemma wp_gets {A} (f : S → A) (Q : A → S → Prop) s : Q (f s) s → wp (gets f) Q s.
Proof. done. Qed.

Lemma wp_get (Q : S → S → Prop) s : Q s s → wp get Q s.
Proof. done. Qed.

Lemma wp_put (t : S) (Q : unit → S → Prop) s : Q tt t → wp (put t) Q s.
Proof. done. Qed.

Lemma wp_modify (f : S → S) (Q : unit → S → Prop) s : Q tt (f s) → wp (modify f) Q s.
Proof. done. Qed.

Lemma wp_assert (b : bool) (Q : unit → S → Prop) s :
  b = true → Q tt s → wp (assert_ b) Q s.
Proof. by intros ->. Qed.

Lemma wp_unwrap {A} (o : option A) a (Q : A → S → Prop) s :
  o = Some a → Q a s → wp (unwrap o) Q s.
Proof. by intros ->. Qed.

Lemma wp_run {A} (m : M S A) (Q : A → S → Prop) s :
  wp m Q s → ∃ a s', m s = Ret a s' ∧ Q a s'.
Proof. rw /wp. destruct (m s); naive_solver. Qed.

Lemma wp_ret_inv {A} (m : M S A) (Q : A → S → Prop) s a s' : wp m Q s → m s = Ret a s' → Q a s'.
Proof. intros (a' & s'' & E & HQ)%wp_run E'. congruence. Qed.

Lemma wp_of_run {A} (m : M S A) (Q : A → S → Prop) s a s' :
  m s = Ret a s' → Q a s' → wp m Q s.
Proof. by rw /wp => ->. Qed.

Lemma bind_Ret {A B} (m : M S A) (f : A → M S B) s a s' :
  m s = Ret a s' → (m ≫= f) s = f a s'.
Proof. by rw /mbind /M_bind => ->. Qed.

Lemma bind_Panic {A B} (m : M S A) (f : A → M S B) s :
  m s = Panic → (m ≫= f) s = Panic.
Proof. by rw /mbind /M_bind => ->. Qed.

Lemma bind_inv {A B} (m : M S A) (f : A → M S B) s b s' :
  (m ≫= f) s = Ret b s' → ∃ a s1, m s = Ret a s1 ∧ f a s1 = Ret b s'.
Proof. rw /mbind /M_bind. destruct (m s); naive_solver. Qed.

Lemma for_each_wp {A} (f : A → M S unit) (I : list A → S → Prop) l s :
  (∀ x r s, I (x :: r) s → wp (f x) (λ _, I r) s) →
  I l s → wp (for_each l f) (λ _, I []) s.
Proof.
  intros Hstep. revert s. induction l as [|x l IH]; intros s HI; [done|].
  apply wp_bind. eapply wp_mono; [eapply Hstep, HI|]. intros ???. by apply IH.
Qed.

Lemma assert_inv (b : bool) s u s' : assert_ b s = Ret u s' → b = true ∧ s = s'.
Proof. by destruct b; intros [=]. Qed.

(** A loop whose rank decreases ends within its fuel. *)
Lemma iter_body_rank {A B} (fuel : positive) (body : A → M S (A + B)) (I : Z → A → S → Prop) (Q : B → S → Prop) n a s :
  (∀ n a s, I n a s → wp (body a) (λ r s', match r with
    | inl a' => ∃ n', n' < n ∧ I n' a' s'
    | inr b => Q b s'
    end) s) →
  I n a s → wp (iter_body fuel body a) (λ r s', match r with
    | inl a' => ∃ n', n' + Zpos fuel ≤ n ∧ I n' a' s'
    | inr b => Q b s'
    end) s.
Proof.
  intros Hbody. revert n a s. induction fuel as [f IH|f IH|]; intros n a s HI; simpl.
  - apply wp_bind. eapply wp_mono; [by apply (Hbody n)|]. intros [a1|b] s1; [intros (n1 & Hn1 & H1)|done]. apply wp_bind.
    eapply wp_mono; [by apply (IH n1)|]. intros [a2|b] s2; [intros (n2 & Hn2 & H2)|done]. eapply wp_mono; [by apply (IH n2)|].
    intros [a3|b] s3; [intros (n3 & Hn3 & H3)|done]. exists n3. split; [lia|done].
  - apply wp_bind. eapply wp_mono; [by apply (IH n)|]. intros [a2|b] s2; [intros (n2 & Hn2 & H2)|done].
    eapply wp_mono; [by apply (IH n2)|]. intros [a3|b] s3; [intros (n3 & Hn3 & H3)|done]. exists n3. split; [lia|done].
  - eapply wp_mono; [by apply (Hbody n)|]. intros [a1|b] s1; [intros (n1 & Hn1 & H1)|done]. exists n1. split; [lia|done].
Qed.

Lemma while_wp_rank {A B} (fuel : positive) (body : A → M S (A + B)) (I : Z → A → S → Prop) (Q : B → S → Prop) n a s :
  (∀ n a s, I n a s → 0 ≤ n ∧ wp (body a) (λ r s', match r with
    | inl a' => ∃ n', n' < n ∧ I n' a' s'
    | inr b => Q b s'
    end) s) →
  n < Zpos fuel → I n a s → wp (while_ fuel body a) Q s.
Proof.
  intros Hbody Hv HI. apply wp_bind. eapply wp_mono; [apply (iter_body_rank fuel body I Q n); [by intros; apply Hbody|done]|].
  intros [a'|b] s' H; [|done]. destruct H as (n' & Hle & H). destruct (Hbody n' a' s' H). lia.
Qed.

(** The same with the rank a function of the loop's state. *)
Lemma while_wp {A B} (fuel : positive) (body : A → M S (A + B)) (I : A → S → Prop) (v : A → S → Z) (Q : B → S → Prop) a s :
  (∀ a s, I a s → 0 ≤ v a s ∧ wp (body a) (λ r s', match r with
    | inl a' => I a' s' ∧ v a' s' < v a s
    | inr b => Q b s'
    end) s) →
  v a s < Zpos fuel → I a s → wp (while_ fuel body a) Q s.
Proof.
  intros Hbody Hv HI. apply (while_wp_rank fuel body (λ n a s, I a s ∧ n = v a s) Q (v a s)); [|done|done].
  intros n a1 s1 [H1 ->]. destruct (Hbody a1 s1 H1) as [Hpos H]. split; [done|]. eapply wp_mono; [exact H|].
  intros [a2|b] s2; [|done]. intros [H2 Hlt]. by exists (v a2 s2).
Qed.

(** The same for runs that may panic. *)
Lemma wlp_of_wp {A} (m : M S A) (Q : A → S → Prop) s : wp m Q s → wlp m Q s.
Proof. rw /wp /wlp. by destruct (m s). Qed.
Lemma wlp_intro {A} (m : M S A) (Q : A → S → Prop) s : (∀ a s', m s = Ret a s' → Q a s') → wlp m Q s.
Proof. rw /wlp. destruct (m s); auto. Qed.
Lemma wlp_ret_inv {A} (m : M S A) (Q : A → S → Prop) s a s' : wlp m Q s → m s = Ret a s' → Q a s'.
Proof. by rw /wlp => H E; rw E in H. Qed.
Lemma wlp_mono {A} (m : M S A) (Q Q' : A → S → Prop) s : wlp m Q s → (∀ a s', Q a s' → Q' a s') → wlp m Q' s.
Proof. rw /wlp. destruct (m s); naive_solver. Qed.
Lemma wlp_ret {A} (a : A) (Q : A → S → Prop) s : Q a s → wlp (mret a) Q s.
Proof. done. Qed.
Lemma wlp_bind {A B} (m : M S A) (f : A → M S B) Q s : wlp m (λ a, wlp (f a) Q) s → wlp (m ≫= f) Q s.
Proof. rw /wlp /mbind /M_bind. by destruct (m s). Qed.
Lemma wlp_try_bind {E A B} (m : M S (result E A)) (f : A → M S (result E B)) Q s :
  wlp m (λ r, match r with Ok a => wlp (f a) Q | Err e => Q (Err e) end) s → wlp (try_bind m f) Q s.
Proof. intros H. apply wlp_bind. revert H. rw /wlp. by destruct (m s) as [[a|e] s'|]. Qed.
Lemma wlp_gets {A} (f : S → A) (Q : A → S → Prop) s : Q (f s) s → wlp (gets f) Q s.
Proof. done. Qed.
Lemma wlp_modify (f : S → S) (Q : unit → S → Prop) s : Q tt (f s) → wlp (modify f) Q s.
Proof. done. Qed.
Lemma wlp_assert (b : bool) (Q : unit → S → Prop) s : (b = true → Q tt s) → wlp (assert_ b) Q s.
Proof. destruct b; [|done]. intros H. by apply H. Qed.
Lemma wlp_unwrap {A} (o : option A) (Q : A → S → Prop) s : (∀ a, o = Some a → Q a s) → wlp (unwrap o) Q s.
Proof. destruct o; [|done]. intros H. by apply H. Qed.
Lemma wlp_unwrap_ok {E A} (r : result E A) (Q : A → S → Prop) s : (∀ a, r = Ok a → Q a s) → wlp (unwrap_ok r) Q s.
Proof. destruct r; [|done]. intros H. by apply H. Qed.
Lemma wlp_zoom {T A} (view : S → T) (set : T → S → S) (m : M T A) (Q : A → S → Prop) s :
  (∀ a t, Q a (set t s)) → wlp (zoom view set m) Q s.
Proof. intros H. rw /wlp /zoom. by destruct (m (view s)). Qed.
Lemma iter_body_wlp {A B} (fuel : positive) (body : A → M S (A + B)) (I : A → S → Prop) (Q : B → S → Prop) a s :
  (∀ a s, I a s → wlp (body a) (λ r s', match r with inl a' => I a' s' | inr b => Q b s' end) s) →
  I a s → wlp (iter_body fuel body a) (λ r s', match r with inl a' => I a' s' | inr b => Q b s' end) s.
Proof.
  intros Hbody. revert a s. induction fuel as [fuel IH|fuel IH|]; intros a s HI; simpl; [| |by apply Hbody].
  - apply wlp_bind. eapply wlp_mono; [by apply Hbody|]. intros [a'|b] s' HI'; [|done].
    apply wlp_bind. eapply wlp_mono; [by apply IH|]. intros [a''|b] s'' HI''; [by apply IH|done].
  - apply wlp_bind. eapply wlp_mono; [by apply IH|]. intros [a''|b] s'' HI''; [by apply IH|done].
Qed.
Lemma while_wlp {A B} (fuel : positive) (body : A → M S (A + B)) (I : A → S → Prop) (Q : B → S → Prop) a s :
  (∀ a s, I a s → wlp (body a) (λ r s', match r with inl a' => I a' s' | inr b => Q b s' end) s) →
  I a s → wlp (while_ fuel body a) Q s.
Proof. intros Hbody HI. apply wlp_bind. eapply wlp_mono; [by apply (iter_body_wlp fuel body I Q)|]. by intros [a'|b]. Qed.
Lemma for_each_wlp {A} (f : A → M S unit) (I : S → Prop) l s :
  (∀ x s, I s → wlp (f x) (λ _, I) s) → I s → wlp (for_each l f) (λ _, I) s.
Proof.
  intros Hstep. revert s. induction l as [|x l IH]; intros s HI; [done|].
  apply wlp_bind. eapply wlp_mono; [by apply Hstep|]. intros ???. by apply IH.
Qed.

End wp_laws.

(** Symbolic execution of a monadic goal. *)
Ltac wp_step :=
  match goal with
  | |- wp (mbind _ _) _ _ => apply wp_bind
  | |- wp (mret _) _ _ => apply wp_ret
  | |- wp (try_bind _ _) _ _ => apply wp_try_bind
  | |- wp get _ _ => apply wp_get
  | |- wp (gets _) _ _ => apply wp_gets
  | |- wp (put _) _ _ => apply wp_put
  | |- wp (modify _) _ _ => apply wp_modify
  end.
Ltac wp_steps := repeat (wp_step; simpl).
Ltac wlp_step :=
  match goal with
  | |- wlp (mbind _ _) _ _ => apply wlp_bind
  | |- wlp (mret _) _ _ => apply wlp_ret
  | |- wlp (try_bind _ _) _ _ => apply wlp_try_bind
  | |- wlp (gets _) _ _ => apply wlp_gets
  | |- wlp (modify _) _ _ => apply wlp_modify
  | |- wlp (assert_ _) _ _ => apply wlp_assert; intros ?
  | |- wlp (unwrap _) _ _ => apply wlp_unwrap; intros ? ?
  | |- wlp (unwrap_ok _) _ _ => apply wlp_unwrap_ok; intros ? ?
  end.

(** ** Machine integers

    A [w]-bit unsigned integer is a [Z] in [[0, 2^w)]. *)

Definition fits (w : Z) (x : Z) : bool := bool_decide (0 ≤ x < 2 ^ w).
Definition wrap (w x : Z) : Z := x mod 2 ^ w.

Definition U16_MAX : Z := 2 ^ 16 - 1.
Definition U32_MAX : Z := 2 ^ 32 - 1.
Definition U64_MAX : Z := 2 ^ 64 - 1.

(** [usize::checked_add] and friends ([usize] is 64 bits wide on the target). *)
Definition checked_add (a b : Z) : option Z :=
  if a + b <=? U64_MAX then Some (a + b) else None.
Definition checked_sub (a b : Z) : option Z :=
  if b <=? a then Some (a - b) else None.
Definition checked_mul (a b : Z) : option Z :=
  if a * b <=? U64_MAX then Some (a * b) else None.
(** [u32::try_from], [u16::try_from]. *)
Definition try_from (w x : Z) : option Z :=
  if x <? 2 ^ w then Some x else None.
Lemma try_from_run {S} w x (s : S) : x < 2 ^ w → unwrap (try_from w x) s = Ret x s.
Proof. intros H. by rewrite /try_from (proj2 (Z.ltb_lt _ _) H). Qed.

Lemma fits_spec w x : fits w x = true ↔ 0 ≤ x < 2 ^ w.
Proof. apply bool_decide_eq_true. Qed.

Lemma wrap_small w x : 0 ≤ x < 2 ^ w → wrap w x = x.
Proof. apply Z.mod_small. Qed.

Lemma wrap_bound w x : 0 ≤ w → 0 ≤ wrap w x < 2 ^ w.
Proof. intros. apply Z.mod_pos_bound. by apply Z.pow_pos_nonneg. Qed.

(** Testing a bit after setting or clearing one. *)
Lemma testbit_lor_bit x i j :
  0 ≤ i → 0 ≤ j →
  Z.testbit (Z.lor x (Z.shiftl 1 i)) j = if decide (i = j) then true else Z.testbit x j.
Proof.
  intros. rw Z.lor_spec Z.shiftl_1_l Z.pow2_bits_eqb //.
  case_decide; [subst; by rw Z.eqb_refl orb_true_r|].
  rw (proj2 (Z.eqb_neq i j)) // orb_false_r //.
Qed.

Lemma testbit_ldiff_bit x i j :
  0 ≤ i → 0 ≤ j →
  Z.testbit (Z.ldiff x (Z.shiftl 1 i)) j = if decide (i = j) then false else Z.testbit x j.
Proof.
  intros. rw Z.ldiff_spec Z.shiftl_1_l Z.pow2_bits_eqb //.
  case_decide; [subst; by rw Z.eqb_refl andb_false_r|].
  rw (proj2 (Z.eqb_neq i j)) // andb_true_r //.
Qed.

Lemma land_bit_nonzero x i :
  0 ≤ i → negb (Z.land x (Z.shiftl 1 i) =? 0) = Z.testbit x i.
Proof.
  intros. rw Z.shiftl_1_l. destruct (Z.testbit x i) eqn:E.
  - apply negb_true_iff, Z.eqb_neq. intros H0.
    apply (f_equal (λ z, Z.testbit z i)) in H0.
    rw Z.land_spec E Z.pow2_bits_true // Z.bits_0 in H0. done.
  - apply negb_false_iff, Z.eqb_eq, Z.bits_inj'. intros n Hn.
    rw Z.land_spec Z.bits_0 Z.pow2_bits_eqb //.
    destruct (Z.eqb_spec i n); [subst; by rw E|apply andb_false_r].
Qed.

(** ** Bytes *)

Abbreviation byte := Init.Byte.byte.

#[export] Instance byte_eq_dec : EqDecision byte := Strings.Byte.byte_eq_dec.

Abbreviation b2z := byte.unsigned.
Abbreviation z2b := byte.of_Z.

(** An array of [n] zero bytes. *)
Definition zeroes (n : nat) : list byte := replicate n Byte.x00.

Lemma zeroes_length n : length (zeroes n) = n.
Proof. apply length_replicate. Qed.
#[export] Hint Rewrite zeroes_length : ov6_len.

(** [dst[off..][..src.len()].copy_from_slice(src)]; the callers stay in range. *)
Definition splice {A} (off : nat) (src dst : list A) : list A :=
  take off dst ++ src ++ drop (off + length src) dst.
(** [&l[off..][..n]]. *)
Definition slice {A} (off n : nat) (l : list A) : list A := take n (drop off l).

Section splice.
Context {A : Type}.
Implicit Types (l src dst : list A).

Lemma splice_length off src dst :
  (off + length src ≤ length dst)%nat → length (splice off src dst) = length dst.
Proof. intros. rw /splice. len. Qed.

Lemma slice_length off n l :
  (off + n ≤ length l)%nat → length (slice off n l) = n.
Proof. intros. rw /slice. len. Qed.

Lemma slice_splice off src dst :
  (off + length src ≤ length dst)%nat → slice off (length src) (splice off src dst) = src.
Proof.
  intros. rw /slice /splice drop_app_length'; [len|].
  by rw take_app_length.
Qed.

Lemma splice_slice off n l :
  (off + n ≤ length l)%nat → splice off (slice off n l) l = l.
Proof.
  intros. rw /splice slice_length // /slice.
  rw -(drop_drop l n off) take_drop take_drop //.
Qed.

(** Disjoint slices are not affected by a splice. *)
Lemma slice_splice_ne off src dst off' n :
  (off + length src ≤ length dst)%nat →
  (off' + n ≤ off ∨ off + length src ≤ off')%nat →
  slice off' n (splice off src dst) = slice off' n dst.
Proof.
  intros Hl Hd. apply list_eq. intros i. rw /slice.
  destruct (decide (i < n)%nat) as [Hi|Hi]; last first.
  { rw !lookup_take_ge //; lia. }
  rw !lookup_take_lt // !lookup_drop /splice. destruct Hd.
  - rw lookup_app_l; [len|]. rw lookup_take_lt //. lia.
  - rw lookup_app_r; [len|]. rw lookup_app_r; [len|].
    rw lookup_drop. f_equal. len.
Qed.

(** Splicing element by element. *)
Lemma splice_cons off x src dst :
  (off < length dst)%nat → splice (S off) src (<[off := x]> dst) = splice off (x :: src) dst.
Proof.
  intros Hl. rw /splice (take_S_r _ _ x); [by apply list_lookup_insert_eq|].
  rw take_insert_ge //. rw drop_insert_lt; [lia|]. simpl.
  by rw -app_assoc Nat.add_succ_r.
Qed.

End splice.

Lemma elem_of_insert_inv {A} (l : list A) i x y : y ∈ <[i := x]> l → y = x ∨ y ∈ l.
Proof.
  intros [j Hj]%list_elem_of_lookup. apply list_lookup_insert_Some in Hj as [(_ & -> & _)|[_ Hj]].
  - by left.
  - right. by apply list_elem_of_lookup_2 in Hj.
Qed.

Lemma size_list_to_set_le `{Countable A} (l : list A) : (size (list_to_set l : gset A) ≤ length l)%nat.
Proof.
  induction l as [|x l IH]; [done|]. simpl. rw size_union_alt size_singleton.
  pose proof (subseteq_size (list_to_set l ∖ {[x]} : gset A) (list_to_set l)). set_solver by lia.
Qed.

(** ** Ranges *)

#[global] Arguments seqZ : simpl never.

(** [(start..stop).step_by(step)]. *)
Definition step_by (start stop step : Z) : list Z :=
  (λ i, start + i * step) <$> seqZ 0 ((stop - start + step - 1) / step).

Lemma step_by_in start stop step x :
  0 < step → x ∈ step_by start stop step → ∃ i, 0 ≤ i ∧ x = start + i * step ∧ x < stop.
Proof.
  intros Hs (i & -> & Hi)%list_elem_of_fmap. apply elem_of_seqZ in Hi.
  exists i. split_and!; [lia|done|].
  pose proof (Z.mul_div_le (stop - start + step - 1) step Hs). nia.
Qed.

(** ** Filtering *)

Section filter.
Context {A : Type} (P Q : A → Prop) `{!∀ x, Decision (P x)} `{!∀ x, Decision (Q x)}.

Lemma filter_ext_in (l : list A) : (∀ x, x ∈ l → P x ↔ Q x) → filter P l = filter Q l.
Proof.
  induction l as [|x l IH]; intros Hpq; [done|]. rw !filter_cons IH; [set_solver|].
  assert (P x ↔ Q x) as Hx by (apply Hpq; left). repeat case_decide; tauto.
Qed.

Lemma filter_none (l : list A) : (∀ x, x ∈ l → ¬ P x) → filter P l = [].
Proof.
  induction l as [|x l IH]; intros Hp; [done|]. rw filter_cons decide_False; [apply Hp; left|].
  apply IH. set_solver.
Qed.
End filter.

(** ** Distinct elements *)

Lemma elem_of_take_in {A} (x : A) n (xs : list A) : x ∈ take n xs → x ∈ xs.
Proof. intros (j & Hj & _)%elem_of_take. by apply list_elem_of_lookup_2 in Hj. Qed.

Lemma NoDup_omap_inj {A B} (f : A → option B) (xs : list A) :
  NoDup xs → (∀ x y b, x ∈ xs → y ∈ xs → f x = Some b → f y = Some b → x = y) → NoDup (omap f xs).
Proof.
  induction 1 as [|x xs Hx Hnd IH]; intros Hf; simpl; [constructor|].
  assert (NoDup (omap f xs)) as Hn by (apply IH; intros y z b Hy Hz; apply Hf; by right).
  destruct (f x) as [b|] eqn:Eb; [|done]. constructor; [|done].
  intros (y & Hy & Hb)%list_elem_of_omap. apply Hx. assert (x = y) as -> by (apply (Hf x y b); [left|by right|done|done]). done.
Qed.

(** The entries are distinct when their positions determine the block. *)
Lemma NoDup_omap_id {B} (xs : list (option B)) :
  (∀ (i j : nat) b, xs !! i = Some (Some b) → xs !! j = Some (Some b) → i = j) → NoDup (omap id xs).
Proof.
  induction xs as [|o xs IH]; intros Hf; simpl; [constructor|].
  assert (NoDup (omap id xs)) as Hn.
  { apply IH. intros i j b Hi Hj. by injection (Hf (S i) (S j) b Hi Hj). }
  destruct o as [b|]; simpl; [|done]. constructor; [|done].
  intros (o & (n & Hn')%list_elem_of_lookup_1 & Ho)%list_elem_of_omap. simpl in Ho. subst o.
  by pose proof (Hf 0%nat (S n) b eq_refl Hn').
Qed.

Lemma omap_length_le {A B} (f : A → option B) (xs : list A) : (length (omap f xs) ≤ length xs)%nat.
Proof. induction xs as [|x xs IH]; csimpl; [done|]. destruct (f x); simpl; lia. Qed.

Lemma omap_length_lt {A B} (f : A → option B) (xs : list A) i x :
  xs !! i = Some x → f x = None → (length (omap f xs) < length xs)%nat.
Proof.
  revert i. induction xs as [|y xs IH]; intros [|i] Hi Hx; simplify_eq/=; csimpl.
  - rw Hx. pose proof (omap_length_le f xs). lia.
  - specialize (IH i Hi Hx). destruct (f y); simpl; lia.
Qed.

Lemma omap_length_eq {A B} (f : A → option B) (xs : list A) :
  Forall (λ x, is_Some (f x)) xs → length (omap f xs) = length xs.
Proof. induction 1 as [|x xs [y Hy] _ IH]; csimpl; [done|]. rw Hy /=. by rw IH. Qed.

(** Distinct results come from distinct positions. *)
Lemma NoDup_omap_lookup {A B} (f : A → option B) (xs : list A) :
  (∀ i j x y b, xs !! i = Some x → xs !! j = Some y → f x = Some b → f y = Some b → i = j) →
  NoDup (omap f xs).
Proof.
  induction xs as [|x xs IH]; intros Hf; simpl; [constructor|].
  assert (NoDup (omap f xs)) as Hn.
  { apply IH. intros i j y z b Hi Hj Hy Hz. by injection (Hf (S i) (S j) y z b Hi Hj Hy Hz). }
  destruct (f x) as [b|] eqn:Eb; [|done]. constructor; [|done].
  intros (y & (n & Hn')%list_elem_of_lookup_1 & Hy)%list_elem_of_omap.
  by pose proof (Hf 0%nat (S n) x y b eq_refl Hn' Eb Hy).
Qed.
