(* ===== verification/KError.v ===== *)
(** * Error values

    Model of [crates/kernel/ov6_kernel/src/error.rs] and of
    [crates/common/ov6_syscall/src/error.rs]: the errors of the kernel, the error
    numbers of the system call interface and the conversion between them. *)

From S2P Require Import Prelude.

(** [RegisterDecodeError] of [crates/common/ov6_syscall/src/lib.rs]. *)
Inductive RegisterDecodeError :=
  | IntConversion
  | InvalidSyscallErrorNo (n : Z)
  | InvalidOpenFlags (n : Z)
  | InvalidDesignator (n : Z)
  | UnexpectedZero.

(** [KernelError]. *)
Inductive KernelError :=
  | NoFreeProc
  | NoFreePage
  | NoWaitTarget
  | ProcessNotFound (a : Z)
  | DeviceNotFound (a : Z)
  | TooLargeVirtualAddress (a : Z)
  | VirtualAddressUnderflow
  | VirtualPageNotMapped (a : Z)
  | InaccessiblePage (a : Z)
  | VirtualAddressWithUnexpectedPerm (a b c : Z)
  | HeapSizeOverflow
  | HeapSizeUnderflow
  | FileDescriptorNotFound (a b : Z)
  | FileDescriptorNotReadable
  | FileDescriptorNotWritable
  | PathTooLong
  | NullInPath
  | NonDirectoryPathComponent
  | FsEntryNotFound
  | DirectoryNotEmpty
  | WriteOffsetTooLarge
  | UnlinkRootDir
  | UnlinkDots
  | CreateRootDir
  | CreateAlreadyExists
  | LinkRootDir
  | LinkCrossDevices
  | LinkToNonDirectory
  | LinkAlreadyExists
  | StatOnNonFsEntry
  | BrokenPipe
  | FileTooLarge
  | NoFreeFileTableEntry
  | NoFreeFileDescriptorTableEntry
  | NoFreeInodeInMemoryTableEntry
  | NoFreeInodeDataInMemoryTableEntry
  | CorruptedInodeType (a b : Z)
  | StorageOutOfBlocks
  | StorageOutOfInodes
  | OpenDirAsWritable
  | ChdirNotDir
  | ArgumentListTooLarge
  | InvalidExecutable
  | SyscallDecode (e : RegisterDecodeError)
  | CallerProcessAlreadyKilled
  | NotInSignalHandler
  | TooLargeUdpPacket
  | NoSendBuffer
  | PortAlreadyBound
  | NoFreePort
  | PortNotBound.

(** [SyscallError]; the names that [KernelError] has too carry a prefix. *)
Inductive SyscallError :=
  | SysNotPermitted
  | SysFsEntryNotFound
  | SysProcessNotFound
  | SysIo
  | SysDeviceNotFound
  | SysArgumentListTooLong
  | SysExecFormat
  | SysBadFileDescriptor
  | SysNoChildProcess
  | SysResourceTempolaryUnavailable
  | SysOutOfMemory
  | SysPermissionDenied
  | SysBadAddress
  | SysResourceBusy
  | SysAlreadyExists
  | SysCrossesDevices
  | SysNoSuchDevice
  | SysNotADirectory
  | SysIsADirectory
  | SysInvalidInput
  | SysTooManyOpenFilesSystem
  | SysTooManyOpenFiles
  | SysExecutableFileBusy
  | SysFileTooLarge
  | SysStorageFull
  | SysNotSeekable
  | SysReadOnlyFilesystem
  | SysTooManyLinks
  | SysBrokenPipe
  | SysInvalidFilename
  | SysDirectoryNotEmpty
  | SysMessageTooLong
  | SysAddrInUse
  | SysUnknown.

(** The discriminants ([repr(isize)]). *)
Definition syscall_error_no (e : SyscallError) : Z :=
  match e with
  | SysNotPermitted => 1
  | SysFsEntryNotFound => 2
  | SysProcessNotFound => 3
  | SysIo => 5
  | SysDeviceNotFound => 6
  | SysArgumentListTooLong => 7
  | SysExecFormat => 8
  | SysBadFileDescriptor => 9
  | SysNoChildProcess => 10
  | SysResourceTempolaryUnavailable => 11
  | SysOutOfMemory => 12
  | SysPermissionDenied => 13
  | SysBadAddress => 14
  | SysResourceBusy => 16
  | SysAlreadyExists => 17
  | SysCrossesDevices => 18
  | SysNoSuchDevice => 19
  | SysNotADirectory => 20
  | SysIsADirectory => 21
  | SysInvalidInput => 22
  | SysTooManyOpenFilesSystem => 23
  | SysTooManyOpenFiles => 24
  | SysExecutableFileBusy => 26
  | SysFileTooLarge => 27
  | SysStorageFull => 28
  | SysNotSeekable => 29
  | SysReadOnlyFilesystem => 30
  | SysTooManyLinks => 31
  | SysBrokenPipe => 32
  | SysInvalidFilename => 36
  | SysDirectoryNotEmpty => 39
  | SysMessageTooLong => 90
  | SysAddrInUse => 98
  | SysUnknown => -1
  end.

(** [SyscallError::from_repr]. *)
Definition syscall_error_of (n : Z) : option SyscallError :=
  if n =? 1 then Some SysNotPermitted
  else if n =? 2 then Some SysFsEntryNotFound
  else if n =? 3 then Some SysProcessNotFound
  else if n =? 5 then Some SysIo
  else if n =? 6 then Some SysDeviceNotFound
  else if n =? 7 then Some SysArgumentListTooLong
  else if n =? 8 then Some SysExecFormat
  else if n =? 9 then Some SysBadFileDescriptor
  else if n =? 10 then Some SysNoChildProcess
  else if n =? 11 then Some SysResourceTempolaryUnavailable
  else if n =? 12 then Some SysOutOfMemory
  else if n =? 13 then Some SysPermissionDenied
  else if n =? 14 then Some SysBadAddress
  else if n =? 16 then Some SysResourceBusy
  else if n =? 17 then Some SysAlreadyExists
  else if n =? 18 then Some SysCrossesDevices
  else if n =? 19 then Some SysNoSuchDevice
  else if n =? 20 then Some SysNotADirectory
  else if n =? 21 then Some SysIsADirectory
  else if n =? 22 then Some SysInvalidInput
  else if n =? 23 then Some SysTooManyOpenFilesSystem
  else if n =? 24 then Some SysTooManyOpenFiles
  else if n =? 26 then Some SysExecutableFileBusy
  else if n =? 27 then Some SysFileTooLarge
  else if n =? 28 then Some SysStorageFull
  else if n =? 29 then Some SysNotSeekable
  else if n =? 30 then Some SysReadOnlyFilesystem
  else if n =? 31 then Some SysTooManyLinks
  else if n =? 32 then Some SysBrokenPipe
  else if n =? 36 then Some SysInvalidFilename
  else if n =? 39 then Some SysDirectoryNotEmpty
  else if n =? 90 then Some SysMessageTooLong
  else if n =? 98 then Some SysAddrInUse
  else if n =? -1 then Some SysUnknown
  else None.

(** [impl From<KernelError> for SyscallError]. *)
Definition syscall_error (e : KernelError) : SyscallError :=
  match e with
  | NoFreeProc | NoSendBuffer | NoFreePort => SysResourceTempolaryUnavailable
  | NoFreePage => SysOutOfMemory
  | ProcessNotFound _ => SysProcessNotFound
  | DeviceNotFound _ => SysDeviceNotFound
  | NoWaitTarget => SysNoChildProcess
  | TooLargeVirtualAddress _ | VirtualAddressUnderflow | VirtualPageNotMapped _
  | InaccessiblePage _ | VirtualAddressWithUnexpectedPerm _ _ _ => SysBadAddress
  | FileDescriptorNotFound _ _ | FileDescriptorNotReadable | FileDescriptorNotWritable
  | StatOnNonFsEntry => SysBadFileDescriptor
  | PathTooLong => SysInvalidFilename
  | NonDirectoryPathComponent | ChdirNotDir | LinkToNonDirectory => SysNotADirectory
  | FsEntryNotFound => SysFsEntryNotFound
  | DirectoryNotEmpty => SysDirectoryNotEmpty
  | WriteOffsetTooLarge => SysNotSeekable
  | UnlinkRootDir => SysResourceBusy
  | HeapSizeOverflow | HeapSizeUnderflow | UnlinkDots | NullInPath | PortNotBound => SysInvalidInput
  | CreateRootDir | CreateAlreadyExists | LinkRootDir | LinkAlreadyExists => SysAlreadyExists
  | LinkCrossDevices => SysCrossesDevices
  | BrokenPipe => SysBrokenPipe
  | FileTooLarge => SysFileTooLarge
  | NoFreeFileTableEntry | NoFreeInodeInMemoryTableEntry
  | NoFreeInodeDataInMemoryTableEntry => SysTooManyOpenFilesSystem
  | NoFreeFileDescriptorTableEntry => SysTooManyOpenFiles
  | CorruptedInodeType _ _ => SysIo
  | StorageOutOfBlocks | StorageOutOfInodes => SysStorageFull
  | OpenDirAsWritable => SysIsADirectory
  | ArgumentListTooLarge => SysArgumentListTooLong
  | InvalidExecutable => SysExecFormat
  | TooLargeUdpPacket => SysMessageTooLong
  | PortAlreadyBound => SysAddrInUse
  | NotInSignalHandler | SyscallDecode _ | CallerProcessAlreadyKilled => SysUnknown
  end.

#[export] Instance RegisterDecodeError_eq_dec : EqDecision RegisterDecodeError.
Proof. solve_decision. Defined.
#[export] Instance SyscallError_eq_dec : EqDecision SyscallError.
Proof. solve_decision. Defined.

(** Error numbers identify the errors. *)
Lemma syscall_error_of_no e : syscall_error_of (syscall_error_no e) = Some e.
Proof. by destruct e. Qed.

Lemma syscall_error_no_of n e : syscall_error_of n = Some e → syscall_error_no e = n.
Proof.
  rw /syscall_error_of.
  repeat (case: Z.eqb_spec => [->|_]; [by intros [= <-]|]). done.
Qed.
