(* ===== verification/SysTypes.v ===== *)
(** * Types of the system call interface

    Model of [crates/common/ov6_syscall/src/lib.rs], of [ProcId] and [RawFd] in
    [crates/common/ov6_types] and of [crates/common/safe_cast]: the values that cross
    the boundary between a user program and the kernel.  Rust's integer types become
    one family [int], indexed by the type; [valid] is what the Rust type guarantees
    about its values. *)

From S2P Require Import Prelude KError.

(** ** Integer types *)

Inductive IntTy := U8 | U16 | U32 | U64 | Usize | I8 | I16 | I32 | I64 | Isize.

Definition int_bits (t : IntTy) : Z :=
  match t with
  | U8 | I8 => 8
  | U16 | I16 => 16
  | U32 | I32 => 32
  | U64 | I64 | Usize | Isize => 64
  end.
Definition int_signed (t : IntTy) : bool :=
  match t with
  | U8 | U16 | U32 | U64 | Usize => false
  | I8 | I16 | I32 | I64 | Isize => true
  end.
Definition int_min (t : IntTy) : Z := if int_signed t then - 2 ^ (int_bits t - 1) else 0.
Definition int_max (t : IntTy) : Z := (if int_signed t then 2 ^ (int_bits t - 1) else 2 ^ int_bits t) - 1.

Record int (t : IntTy) := Int { ival : Z }.
Arguments Int {t} ival.
Arguments ival {t} _.

Definition in_range (t : IntTy) (n : Z) : Prop := int_min t ≤ n ≤ int_max t.
#[export] Instance in_range_dec t n : Decision (in_range t n).
Proof. apply and_dec; apply _. Defined.

(** [TryInto] between integer types; [None] is [TryFromIntError]. *)
Definition try_into {t u : IntTy} (n : int t) : option (int u) :=
  if decide (in_range u (ival n)) then Some (Int (ival n)) else None.

#[global] Arguments in_range : simpl never.
#[global] Arguments try_into : simpl never.

(** [cast_signed], [cast_unsigned] and the reinterpretation of the bytes. *)
Definition bits_of (n : Z) : Z := wrap 64 n.
Definition signed_of (b : Z) : Z := if b <? 2 ^ 63 then b else b - 2 ^ 64.

(** ** [safe_cast] *)

(** [SafeFrom]: a conversion that keeps every value; [None] is the panic of the
    [unwrap]. *)
Definition safe_from {t u : IntTy} (n : int t) : option (int u) := try_into n.

(** The implementations: the source type of each target type. *)
Definition safe_from_impls : list (IntTy * IntTy) :=
  [(U8, Usize); (U16, Usize); (U32, Usize); (U64, Usize); (Usize, U64);
   (I8, Isize); (I16, Isize); (I32, Isize); (I64, Isize); (Isize, I64)].

(** [to_u8], [to_u16], [to_u32] and [to_u64]: a checked conversion from [usize]. *)
Definition to_uint (u : IntTy) (n : int Usize) : option (int u) :=
  if ival n <=? int_max u then Some (Int (wrap (int_bits u) (ival n))) else None.

(** ** Values that Rust types can hold *)

Class RustType (T : Type) := valid : T → Prop.
#[export] Hint Mode RustType + : typeclass_instances.

#[export] Instance int_type t : RustType (int t) := λ n, in_range t (ival n).
#[export] Instance unit_type : RustType unit := λ _, True.
#[export] Instance infallible_type : RustType Empty_set := λ _, True.
#[export] Instance option_type `{RustType T} : RustType (option T) := λ o, ∀ x, o = Some x → valid x.
#[export] Instance result_type `{RustType T} `{RustType E} : RustType (result E T) := λ r,
  match r with
  | Ok x => valid x
  | Err e => valid e
  end.
#[export] Instance pair_type `{RustType T} `{RustType U} : RustType (T * U) := λ p, valid p.1 ∧ valid p.2.

(** The one-element tuples [(T,)]. *)
Record tuple1 (T : Type) := Tup1 { tup1 : T }.
Arguments Tup1 {T} tup1.
Arguments tup1 {T} _.
#[export] Instance tuple1_type `{RustType T} : RustType (tuple1 T) := λ p, valid (tup1 p).

(** [NonZero<T>]. *)
Record NonZero (t : IntTy) := NZ { nz : Z }.
Arguments NZ {t} nz.
Arguments nz {t} _.
#[export] Instance nonzero_type t : RustType (NonZero t) := λ n, in_range t (nz n) ∧ nz n ≠ 0.
Definition nonzero_new {t} (n : int t) : option (NonZero t) :=
  if ival n =? 0 then None else Some (NZ (ival n)).

(** ** Values of the interface *)

Record ProcId := Pid { pid_get : NonZero U32 }.
#[export] Instance procid_type : RustType ProcId := λ p, valid (pid_get p).

Record RawFd := Fd { fd_get : int Usize }.
#[export] Instance rawfd_type : RustType RawFd := λ f, valid (fd_get f).

Inductive WaitTarget :=
  | AnyProcess
  | Process (pid : ProcId).
#[export] Instance waittarget_type : RustType WaitTarget := λ t,
  match t with
  | AnyProcess => True
  | Process pid => valid pid
  end.

#[export] Instance syscallerror_type : RustType SyscallError := λ _, True.

Module OpenFlags.
Record t := Flags { bits : int Usize }.
Definition READ_ONLY : Z := 0x000.
Definition WRITE_ONLY : Z := 0x001.
Definition READ_WRITE : Z := 0x002.
Definition CREATE : Z := 0x200.
Definition TRUNC : Z := 0x400.
Definition all_bits : Z := Z.lor READ_ONLY (Z.lor WRITE_ONLY (Z.lor READ_WRITE (Z.lor CREATE TRUNC))).
(** [from_bits]: no bit outside the declared flags. *)
Definition from_bits (n : int Usize) : option t :=
  if Z.ldiff (ival n) all_bits =? 0 then Some (Flags n) else None.
Definition contains (f : t) (m : Z) : bool := Z.land (ival (bits f)) m =? m.
End OpenFlags.
#[export] Instance openflags_type : RustType OpenFlags.t := λ f,
  valid (OpenFlags.bits f) ∧ Z.ldiff (ival (OpenFlags.bits f)) OpenFlags.all_bits = 0.

(** [Ipv4Addr] as its bits, [SocketAddrV4]. *)
Record Ipv4Addr := Ipv4 { ip_bits : int U32 }.
#[export] Instance ipv4_type : RustType Ipv4Addr := λ a, valid (ip_bits a).
Record SocketAddrV4 := SockAddr { sa_ip : Ipv4Addr; sa_port : int U16 }.
#[export] Instance socketaddr_type : RustType SocketAddrV4 := λ a, valid (sa_ip a) ∧ valid (sa_port a).

(** [Duration]: [Duration::new] carries whole seconds out of the nanoseconds and
    panics when the seconds overflow. *)
Definition NANOS_PER_SEC : Z := 1_000_000_000.
Record Duration := Dur { as_secs : int U64; subsec_nanos : int U32 }.
#[export] Instance duration_type : RustType Duration := λ d,
  valid (as_secs d) ∧ 0 ≤ ival (subsec_nanos d) < NANOS_PER_SEC.
Definition duration_new (secs : int U64) (nanos : int U32) : option Duration :=
  let s := ival secs + ival nanos / NANOS_PER_SEC in
  if s <=? U64_MAX then Some (Dur (Int s) (Int (ival nanos mod NANOS_PER_SEC))) else None.

(** ** References to user memory *)

Record UserRef (T : Type) := URef { uref_addr : int Usize }.
Record UserMutRef (T : Type) := UMutRef { umref_addr : int Usize }.
Record UserSlice (T : Type) := USlice { us_addr : int Usize; us_len : int Usize }.
Record UserMutSlice (T : Type) := UMutSlice { ums_addr : int Usize; ums_len : int Usize }.
Arguments URef {T} uref_addr.
Arguments UMutRef {T} umref_addr.
Arguments USlice {T} us_addr us_len.
Arguments UMutSlice {T} ums_addr ums_len.
Arguments uref_addr {T} _.
Arguments umref_addr {T} _.
Arguments us_addr {T} _.
Arguments us_len {T} _.
Arguments ums_addr {T} _.
Arguments ums_len {T} _.
#[export] Instance userref_type T : RustType (UserRef T) := λ r, valid (uref_addr r).
#[export] Instance usermutref_type T : RustType (UserMutRef T) := λ r, valid (umref_addr r).
#[export] Instance userslice_type T : RustType (UserSlice T) := λ s, valid (us_addr s) ∧ valid (us_len s).
#[export] Instance usermutslice_type T : RustType (UserMutSlice T) := λ s, valid (ums_addr s) ∧ valid (ums_len s).

(** [size_of] and [align_of]. *)
Class Layout (T : Type) := { size_of : Z; align_of : Z }.
Arguments size_of T {_}.
Arguments align_of T {_}.

(** Arithmetic on [usize] wraps around in the release profile. *)
Definition usize (n : Z) : int Usize := Int (wrap 64 n).

Section user_slice.
Context {T : Type} `{Layout T}.

(** [UserRef::as_bytes]. *)
Definition as_bytes (r : UserRef T) : UserSlice (int U8) := USlice (uref_addr r) (Int (size_of T)).
Definition as_bytes_mut (r : UserMutRef T) : UserMutSlice (int U8) := UMutSlice (umref_addr r) (Int (size_of T)).

Definition slice_size (s : UserSlice T) : option Z := checked_mul (size_of T) (ival (us_len s)).

(** [UserSlice::cast]; [None] is a panic. *)
Definition slice_cast (U : Type) `{Layout U} (s : UserSlice T) : option (UserSlice U) :=
  if ival (us_addr s) mod align_of U =? 0 then
    n ← slice_size s;
    if n mod size_of U =? 0 then Some (USlice (us_addr s) (Int (n / size_of U))) else None
  else None.

(** [UserSlice::nth]. *)
Definition slice_nth (s : UserSlice T) (n : Z) : option (UserRef T) :=
  if n <? ival (us_len s) then
    Some (URef (usize (ival (us_addr s) + n * size_of T)))
  else None.

(** [UserSlice::skip]. *)
Definition slice_skip (s : UserSlice T) (amt : Z) : option (UserSlice T) :=
  if amt <=? ival (us_len s) then
    Some (USlice (usize (ival (us_addr s) + amt * size_of T)) (Int (ival (us_len s) - amt)))
  else None.

(** [UserSlice::take]. *)
Definition slice_take (s : UserSlice T) (amt : Z) : option (UserSlice T) :=
  if amt <=? ival (us_len s) then Some (USlice (us_addr s) (Int amt)) else None.

(** The same operations on [UserMutSlice]. *)
Definition shared_of (s : UserMutSlice T) : UserSlice T := USlice (ums_addr s) (ums_len s).
Definition mut_of {U} (s : UserSlice U) : UserMutSlice U := UMutSlice (us_addr s) (us_len s).
Definition slice_cast_mut (U : Type) `{Layout U} (s : UserMutSlice T) : option (UserMutSlice U) :=
  mut_of <$> slice_cast U (shared_of s).
Definition slice_nth_mut (s : UserMutSlice T) (n : Z) : option (UserMutRef T) :=
  (λ r, UMutRef (uref_addr r)) <$> slice_nth (shared_of s) n.
Definition slice_skip_mut (s : UserMutSlice T) (amt : Z) : option (UserMutSlice T) :=
  mut_of <$> slice_skip (shared_of s) amt.
Definition slice_take_mut (s : UserMutSlice T) (amt : Z) : option (UserMutSlice T) :=
  mut_of <$> slice_take (shared_of s) amt.
End user_slice.

(** ** Facts *)

Lemma safe_from_total t u n : (t, u) ∈ safe_from_impls → valid n → safe_from (t := t) (u := u) n = Some (Int (ival n)).
Proof.
  intros Hin Hv. rw /safe_from /try_into decide_True //. revert Hv.
  rw /valid /int_type /in_range /int_min /int_max.
  rw /safe_from_impls !elem_of_cons elem_of_nil in Hin. naive_solver lia.
Qed.

Lemma usize_bounds (n : int Usize) : valid n ↔ 0 ≤ ival n < 2 ^ 64.
Proof. rw /valid /int_type /in_range /int_min /int_max /=. lia. Qed.

Lemma try_into_valid {t u} (n : int t) (m : int u) : try_into n = Some m → valid m.
Proof. rw /try_into. by case_decide => // [= <-]. Qed.

Lemma signed_bits n : in_range Isize n → signed_of (bits_of n) = n.
Proof.
  rw /in_range /int_min /int_max /= => H. rw /signed_of /bits_of /wrap. destruct (decide (0 ≤ n)).
  - rw Z.mod_small; [lia|]. case: Z.ltb_spec; lia.
  - rw -(Z.mod_add n 1 (2 ^ 64)) // Z.mod_small; [lia|]. case: Z.ltb_spec; lia.
Qed.

Lemma bits_signed b : 0 ≤ b < 2 ^ 64 → bits_of (signed_of b) = b ∧ in_range Isize (signed_of b).
Proof.
  rw /in_range /int_min /int_max /= /signed_of /bits_of /wrap => H. case: Z.ltb_spec => ?.
  - rw Z.mod_small; lia.
  - rw -(Z.mod_add _ 1 (2 ^ 64)) // Z.mod_small; lia.
Qed.
