(* ===== verification/Register.v ===== *)
(** * Values in registers

    Model of [crates/common/ov6_syscall/src/register.rs]: how arguments and results of
    system calls are put into registers and taken out again.  [None] is a panic, in
    the direction that a type never takes too ([unreachable!]). *)

From stdpp Require Import vector.
From S2P Require Import Prelude KError SysTypes.

(** ** The [RegisterValue] trait

    [Register<T, N>] is a vector of [N] words. *)

Abbreviation Infallible := Empty_set.

Class From (A B : Type) := from : A → B.
#[export] Instance from_same A : From A A := id.
#[export] Instance from_infallible : From Infallible RegisterDecodeError := λ e, match e with end.

(** The [?] operator with its conversion. *)
Definition and_then {E F A B} `{From E F} (m : option (result E A)) (k : A → option (result F B))
    : option (result F B) :=
  match m with
  | Some (Ok a) => k a
  | Some (Err e) => Some (Err (from e))
  | None => None
  end.
Notation "x ←! m ; k" := (and_then m (λ x, k))
  (at level 20, m at level 100, k at level 200, only parsing) : ov6_scope.

Class RegisterValue (T E : Type) (n : nat) := {
  encode : T → option (vec Z n);
  try_decode : vec Z n → option (result E T);
}.
#[export] Hint Mode RegisterValue + - - : typeclass_instances.
Arguments encode {T E n _} _.
Arguments try_decode {T E n _} _.

(** [let [a0, a1] = repr.a]. *)
Definition words1 (r : vec Z 1) : Z := Vector.hd r.
Definition words2 (r : vec Z 2) : Z * Z := (Vector.hd r, words1 (Vector.tl r)).
Definition words3 (r : vec Z 3) : Z * (Z * Z) := (Vector.hd r, words2 (Vector.tl r)).
Definition words4 (r : vec Z 4) : Z * (Z * (Z * Z)) := (Vector.hd r, words3 (Vector.tl r)).

(** ** Basic values *)

#[export] Instance rv_infallible : RegisterValue Infallible Infallible 0 := {|
  encode (v : Infallible) := match v with end;
  try_decode _ := None;
|}.
#[export] Instance rv_unit : RegisterValue unit Infallible 0 := {|
  encode _ := Some [#];
  try_decode _ := Some (Ok tt);
|}.
#[export] Instance rv_usize : RegisterValue (int Usize) Infallible 1 := {|
  encode n := Some [# ival n];
  try_decode r := let a0 := words1 r in Some (Ok (Int a0));
|}.
#[export] Instance rv_isize : RegisterValue (int Isize) Infallible 1 := {|
  encode n := Some [# bits_of (ival n)];
  try_decode r := let a0 := words1 r in Some (Ok (Int (signed_of a0)));
|}.
#[export] Instance rv_u64 : RegisterValue (int U64) Infallible 1 := {|
  encode n := encode (T := int Usize) (Int (ival n));
  try_decode r := let a0 := words1 r in Some (Ok (Int a0));
|}.
#[export] Instance rv_i64 : RegisterValue (int I64) Infallible 1 := {|
  encode n := encode (T := int Usize) (Int (bits_of (ival n)));
  try_decode r := let a0 := words1 r in Some (Ok (Int (signed_of a0)));
|}.

(** The macro [impl_number]. *)
Definition impl_number (base t : IntTy) `{!RegisterValue (int base) Infallible 1}
    : RegisterValue (int t) RegisterDecodeError 1 := {|
  encode n := m ← safe_from (u := base) n; encode m;
  try_decode r :=
    m ←! try_decode (T := int base) r;
    Some match try_into m with Some n => Ok n | None => Err IntConversion end;
|}.
#[export] Instance rv_u8 : RegisterValue (int U8) RegisterDecodeError 1 := impl_number Usize U8.
#[export] Instance rv_u16 : RegisterValue (int U16) RegisterDecodeError 1 := impl_number Usize U16.
#[export] Instance rv_u32 : RegisterValue (int U32) RegisterDecodeError 1 := impl_number Usize U32.
#[export] Instance rv_i8 : RegisterValue (int I8) RegisterDecodeError 1 := impl_number Isize I8.
#[export] Instance rv_i16 : RegisterValue (int I16) RegisterDecodeError 1 := impl_number Isize I16.
#[export] Instance rv_i32 : RegisterValue (int I32) RegisterDecodeError 1 := impl_number Isize I32.

(** The macro [impl_nonzero]. *)
Definition impl_nonzero (t : IntTy) {E} `{!RegisterValue (int t) E 1} `{!From E RegisterDecodeError}
    : RegisterValue (option (NonZero t)) RegisterDecodeError 1 := {|
  encode o := encode (T := int t) (match o with Some n => Int (nz n) | None => Int 0 end);
  try_decode r :=
    n ←! try_decode (T := int t) r;
    Some (Ok (nonzero_new n));
|}.
#[export] Instance rv_nz_u8 : RegisterValue (option (NonZero U8)) RegisterDecodeError 1 := impl_nonzero U8.
#[export] Instance rv_nz_u16 : RegisterValue (option (NonZero U16)) RegisterDecodeError 1 := impl_nonzero U16.
#[export] Instance rv_nz_u32 : RegisterValue (option (NonZero U32)) RegisterDecodeError 1 := impl_nonzero U32.
#[export] Instance rv_nz_u64 : RegisterValue (option (NonZero U64)) RegisterDecodeError 1 := impl_nonzero U64.
#[export] Instance rv_nz_i8 : RegisterValue (option (NonZero I8)) RegisterDecodeError 1 := impl_nonzero I8.
#[export] Instance rv_nz_i16 : RegisterValue (option (NonZero I16)) RegisterDecodeError 1 := impl_nonzero I16.
#[export] Instance rv_nz_i32 : RegisterValue (option (NonZero I32)) RegisterDecodeError 1 := impl_nonzero I32.
#[export] Instance rv_nz_i64 : RegisterValue (option (NonZero I64)) RegisterDecodeError 1 := impl_nonzero I64.

(** ** Values of the interface *)

#[export] Instance rv_syscall_error : RegisterValue SyscallError RegisterDecodeError 1 := {|
  encode e := encode (T := int Isize) (Int (syscall_error_no e));
  try_decode r :=
    n ←! try_decode (T := int Isize) r;
    Some match syscall_error_of (ival n) with
         | Some e => Ok e
         | None => Err (InvalidSyscallErrorNo (ival n))
         end;
|}.
#[export] Instance rv_option_pid : RegisterValue (option ProcId) RegisterDecodeError 1 := {|
  encode o := encode (pid_get <$> o);
  try_decode r :=
    n ←! try_decode (T := option (NonZero U32)) r;
    Some (Ok (Pid <$> n));
|}.
#[export] Instance rv_pid : RegisterValue ProcId RegisterDecodeError 1 := {|
  encode p := encode (Some p);
  try_decode r :=
    o ←! try_decode (T := option ProcId) r;
    Some match o with Some p => Ok p | None => Err UnexpectedZero end;
|}.
#[export] Instance rv_wait_target : RegisterValue WaitTarget RegisterDecodeError 2 := {|
  encode t :=
    match t with
    | AnyProcess => Some [# 0; 0]
    | Process pid => r ← encode pid; let a1 := words1 r in Some [# 1; a1]
    end;
  try_decode r :=
    let '(a0, a1) := words2 r in
    if (a0 =? 0) && (a1 =? 0) then Some (Ok AnyProcess)
    else if a0 =? 1 then
      v1 ←! try_decode (T := ProcId) [# a1];
      Some (Ok (Process v1))
    else Some (Err (InvalidDesignator a0));
|}.
#[export] Instance rv_rawfd : RegisterValue RawFd Infallible 1 := {|
  encode f := encode (fd_get f);
  try_decode r :=
    n ←! try_decode (T := int Usize) r;
    Some (Ok (Fd n));
|}.
#[export] Instance rv_open_flags : RegisterValue OpenFlags.t RegisterDecodeError 1 := {|
  encode f := encode (OpenFlags.bits f);
  try_decode r :=
    n ←! try_decode (T := int Usize) r;
    Some match OpenFlags.from_bits n with
         | Some f => Ok f
         | None => Err (InvalidOpenFlags (ival n))
         end;
|}.
#[export] Instance rv_ipv4 : RegisterValue Ipv4Addr RegisterDecodeError 1 := {|
  encode a := encode (ip_bits a);
  try_decode r :=
    b ←! try_decode (T := int U32) r;
    Some (Ok (Ipv4 b));
|}.
#[export] Instance rv_socket_addr : RegisterValue SocketAddrV4 RegisterDecodeError 1 := {|
  encode a :=
    let hi := ival (ip_bits (sa_ip a)) in
    let lo := ival (sa_port a) in
    encode (T := int U64) (Int (Z.lor (wrap 64 (Z.shiftl hi 32)) lo));
  try_decode r :=
    v ←! try_decode (T := int U64) r;
    hi ← try_into (t := U64) (u := U32) (Int (Z.shiftr (ival v) 32));
    let lo : int U64 := Int (Z.land (ival v) 0xffff_ffff) in
    Some match try_into lo with
         | Some port => Ok (SockAddr (Ipv4 hi) port)
         | None => Err IntConversion
         end;
|}.
#[export] Instance rv_duration : RegisterValue Duration RegisterDecodeError 2 := {|
  encode d :=
    r0 ← encode (as_secs d);
    r1 ← encode (subsec_nanos d);
    let a0 := words1 r0 in
    let a1 := words1 r1 in
    Some [# a0; a1];
  try_decode r :=
    let '(a0, a1) := words2 r in
    secs ←! try_decode (T := int U64) [# a0];
    nanos ←! try_decode (T := int U32) [# a1];
    d ← duration_new secs nanos;
    Some (Ok d);
|}.
#[export] Instance rv_user_ref T : RegisterValue (UserRef T) Infallible 1 := {|
  encode r := encode (uref_addr r);
  try_decode r := a ←! try_decode (T := int Usize) r; Some (Ok (URef a));
|}.
#[export] Instance rv_user_mut_ref T : RegisterValue (UserMutRef T) Infallible 1 := {|
  encode r := encode (umref_addr r);
  try_decode r := a ←! try_decode (T := int Usize) r; Some (Ok (UMutRef a));
|}.
#[export] Instance rv_user_slice T : RegisterValue (UserSlice T) Infallible 2 := {|
  encode s :=
    r0 ← encode (us_addr s);
    r1 ← encode (us_len s);
    let a0 := words1 r0 in
    let a1 := words1 r1 in
    Some [# a0; a1];
  try_decode r :=
    let '(a0, a1) := words2 r in
    addr ←! try_decode (T := int Usize) [# a0];
    len ←! try_decode (T := int Usize) [# a1];
    Some (Ok (USlice addr len));
|}.
#[export] Instance rv_user_mut_slice T : RegisterValue (UserMutSlice T) Infallible 2 := {|
  encode s :=
    r0 ← encode (ums_addr s);
    r1 ← encode (ums_len s);
    let a0 := words1 r0 in
    let a1 := words1 r1 in
    Some [# a0; a1];
  try_decode r :=
    let '(a0, a1) := words2 r in
    addr ←! try_decode (T := int Usize) [# a0];
    len ←! try_decode (T := int Usize) [# a1];
    Some (Ok (UMutSlice addr len));
|}.

(** ** Results *)

Definition USIZE_MAX : Z := U64_MAX.

Lemma usize_max_ok : 0 ≤ USIZE_MAX < 2 ^ 64.
Proof. done. Qed.
#[export] Hint Resolve usize_max_ok : ov6.

Section results.
Context {T E ET EE : Type} `{!RegisterValue E EE 1} `{!From ET RegisterDecodeError} `{!From EE RegisterDecodeError}.

Definition result_encode_01 `{!RegisterValue T ET 0} (res : result E T) : option (vec Z 2) :=
  match res with
  | Ok v1 => _ ← encode v1; Some [# 0; 0]
  | Err v1 => r ← encode v1; let a1 := words1 r in Some [# USIZE_MAX; a1]
  end.
Definition result_decode_01 `{!RegisterValue T ET 0} (r : vec Z 2) : option (result RegisterDecodeError (result E T)) :=
  let '(a0, a1) := words2 r in
  if a0 =? 0 then v1 ←! try_decode (T := T) [#]; Some (Ok (Ok v1))
  else if a0 =? USIZE_MAX then v1 ←! try_decode (T := E) [# a1]; Some (Ok (Err v1))
  else Some (Err (InvalidDesignator a0)).

Definition result_encode_11 `{!RegisterValue T ET 1} (res : result E T) : option (vec Z 2) :=
  match res with
  | Ok v1 => r ← encode v1; let a1 := words1 r in Some [# 0; a1]
  | Err v1 => r ← encode v1; let a1 := words1 r in Some [# USIZE_MAX; a1]
  end.
Definition result_decode_11 `{!RegisterValue T ET 1} (r : vec Z 2) : option (result RegisterDecodeError (result E T)) :=
  let '(a0, a1) := words2 r in
  if a0 =? 0 then v1 ←! try_decode (T := T) [# a1]; Some (Ok (Ok v1))
  else if a0 =? USIZE_MAX then v1 ←! try_decode (T := E) [# a1]; Some (Ok (Err v1))
  else Some (Err (InvalidDesignator a0)).
End results.

(** The macro [impl_value]. *)
Definition impl_value {T E n} (enc : T → option (vec Z n)) (dec : vec Z n → option (result E T))
    : RegisterValue T E n := {| encode := enc; try_decode := dec |}.

#[export] Instance rv_res_unit : RegisterValue (result SyscallError unit) RegisterDecodeError 2 :=
  impl_value result_encode_01 result_decode_01.
#[export] Instance rv_res_infallible : RegisterValue (result SyscallError Infallible) RegisterDecodeError 2 :=
  impl_value result_encode_01 result_decode_01.
#[export] Instance rv_res_usize : RegisterValue (result SyscallError (int Usize)) RegisterDecodeError 2 :=
  impl_value result_encode_11 result_decode_11.
#[export] Instance rv_res_option_pid : RegisterValue (result SyscallError (option ProcId)) RegisterDecodeError 2 :=
  impl_value result_encode_11 result_decode_11.
#[export] Instance rv_res_pid : RegisterValue (result SyscallError ProcId) RegisterDecodeError 2 :=
  impl_value result_encode_11 result_decode_11.
#[export] Instance rv_res_rawfd : RegisterValue (result SyscallError RawFd) RegisterDecodeError 2 :=
  impl_value result_encode_11 result_decode_11.

(** ** Tuples *)

Section tuple1.
Context {T ET : Type} {n : nat} `{!RegisterValue T ET n}.
Definition tuple1_encode (v : tuple1 T) : option (vec Z n) := encode (tup1 v).
Definition tuple1_decode (r : vec Z n) : option (result ET (tuple1 T)) :=
  v0 ←! try_decode (T := T) r;
  Some (Ok (Tup1 v0)).
End tuple1.

Section tuple2.
Context {T U ET EU E : Type} `{!From ET E} `{!From EU E}.

Definition tuple_encode_11 `{!RegisterValue T ET 1} `{!RegisterValue U EU 1} (v : T * U) : option (vec Z 2) :=
  r0 ← encode v.1;
  r1 ← encode v.2;
  let a0 := words1 r0 in
  let a1 := words1 r1 in
  Some [# a0; a1].
Definition tuple_decode_11 `{!RegisterValue T ET 1} `{!RegisterValue U EU 1} (r : vec Z 2) : option (result E (T * U)) :=
  let '(a0, a1) := words2 r in
  v0 ←! try_decode (T := T) [# a0];
  v1 ←! try_decode (T := U) [# a1];
  Some (Ok (v0, v1)).

Definition tuple_encode_12 `{!RegisterValue T ET 1} `{!RegisterValue U EU 2} (v : T * U) : option (vec Z 3) :=
  r0 ← encode v.1;
  r1 ← encode v.2;
  let a0 := words1 r0 in
  let '(a1, a2) := words2 r1 in
  Some [# a0; a1; a2].
Definition tuple_decode_12 `{!RegisterValue T ET 1} `{!RegisterValue U EU 2} (r : vec Z 3) : option (result E (T * U)) :=
  let '(a0, (a1, a2)) := words3 r in
  v0 ←! try_decode (T := T) [# a0];
  v1 ←! try_decode (T := U) [# a1; a2];
  Some (Ok (v0, v1)).

Definition tuple_encode_21 `{!RegisterValue T ET 2} `{!RegisterValue U EU 1} (v : T * U) : option (vec Z 3) :=
  r0 ← encode v.1;
  r1 ← encode v.2;
  let '(a0, a1) := words2 r0 in
  let a2 := words1 r1 in
  Some [# a0; a1; a2].
Definition tuple_decode_21 `{!RegisterValue T ET 2} `{!RegisterValue U EU 1} (r : vec Z 3) : option (result E (T * U)) :=
  let '(a0, (a1, a2)) := words3 r in
  v0 ←! try_decode (T := T) [# a0; a1];
  v1 ←! try_decode (T := U) [# a2];
  Some (Ok (v0, v1)).

Definition tuple_encode_22 `{!RegisterValue T ET 2} `{!RegisterValue U EU 2} (v : T * U) : option (vec Z 4) :=
  r0 ← encode v.1;
  r1 ← encode v.2;
  let '(a0, a1) := words2 r0 in
  let '(a2, a3) := words2 r1 in
  Some [# a0; a1; a2; a3].
Definition tuple_decode_22 `{!RegisterValue T ET 2} `{!RegisterValue U EU 2} (r : vec Z 4) : option (result E (T * U)) :=
  let '(a0, (a1, (a2, a3))) := words4 r in
  v0 ←! try_decode (T := T) [# a0; a1];
  v1 ←! try_decode (T := U) [# a2; a3];
  Some (Ok (v0, v1)).
End tuple2.

Section tuple3.
Context {T U V ET EU EV E : Type} `{!From ET E} `{!From EU E} `{!From EV E}.

Definition tuple_encode_211 `{!RegisterValue T ET 2} `{!RegisterValue U EU 1} `{!RegisterValue V EV 1}
    (v : T * U * V) : option (vec Z 4) :=
  r0 ← encode v.1.1;
  r1 ← encode v.1.2;
  r2 ← encode v.2;
  let '(a0, a1) := words2 r0 in
  let a2 := words1 r1 in
  let a3 := words1 r2 in
  Some [# a0; a1; a2; a3].
Definition tuple_decode_211 `{!RegisterValue T ET 2} `{!RegisterValue U EU 1} `{!RegisterValue V EV 1}
    (r : vec Z 4) : option (result E (T * U * V)) :=
  let '(a0, (a1, (a2, a3))) := words4 r in
  v0 ←! try_decode (T := T) [# a0; a1];
  v1 ←! try_decode (T := U) [# a2];
  v2 ←! try_decode (T := V) [# a3];
  Some (Ok (v0, v1, v2)).

Definition tuple_encode_112 `{!RegisterValue T ET 1} `{!RegisterValue U EU 1} `{!RegisterValue V EV 2}
    (v : T * U * V) : option (vec Z 4) :=
  r0 ← encode v.1.1;
  r1 ← encode v.1.2;
  r2 ← encode v.2;
  let a0 := words1 r0 in
  let a1 := words1 r1 in
  let '(a2, a3) := words2 r2 in
  Some [# a0; a1; a2; a3].
Definition tuple_decode_112 `{!RegisterValue T ET 1} `{!RegisterValue U EU 1} `{!RegisterValue V EV 2}
    (r : vec Z 4) : option (result E (T * U * V)) :=
  let '(a0, (a1, (a2, a3))) := words4 r in
  v0 ←! try_decode (T := T) [# a0];
  v1 ←! try_decode (T := U) [# a1];
  v2 ←! try_decode (T := V) [# a2; a3];
  Some (Ok (v0, v1, v2)).
End tuple3.

Abbreviation rv1 T E n := (RegisterValue (tuple1 T) E n).
#[export] Instance rv1_u16 : rv1 (int U16) RegisterDecodeError 1 := impl_value tuple1_encode tuple1_decode.
#[export] Instance rv1_i32 : rv1 (int I32) RegisterDecodeError 1 := impl_value tuple1_encode tuple1_decode.
#[export] Instance rv1_u64 : rv1 (int U64) Infallible 1 := impl_value tuple1_encode tuple1_decode.
#[export] Instance rv1_isize : rv1 (int Isize) Infallible 1 := impl_value tuple1_encode tuple1_decode.
#[export] Instance rv1_duration : rv1 Duration RegisterDecodeError 2 := impl_value tuple1_encode tuple1_decode.
#[export] Instance rv1_rawfd : rv1 RawFd Infallible 1 := impl_value tuple1_encode tuple1_decode.
#[export] Instance rv1_pid : rv1 ProcId RegisterDecodeError 1 := impl_value tuple1_encode tuple1_decode.
#[export] Instance rv1_user_ref T : rv1 (UserRef T) Infallible 1 := impl_value tuple1_encode tuple1_decode.
#[export] Instance rv1_user_mut_ref T : rv1 (UserMutRef T) Infallible 1 := impl_value tuple1_encode tuple1_decode.
#[export] Instance rv1_user_slice T : rv1 (UserSlice T) Infallible 2 := impl_value tuple1_encode tuple1_decode.
#[export] Instance rv1_user_mut_slice T : rv1 (UserMutSlice T) Infallible 2 := impl_value tuple1_encode tuple1_decode.

#[export] Instance rv_fd_mut_ref T : RegisterValue (RawFd * UserMutRef T) Infallible 2 :=
  impl_value tuple_encode_11 tuple_decode_11.
#[export] Instance rv_fd_ref T : RegisterValue (RawFd * UserRef T) Infallible 2 :=
  impl_value tuple_encode_11 tuple_decode_11.
#[export] Instance rv_slice_flags T : RegisterValue (UserSlice T * OpenFlags.t) RegisterDecodeError 3 :=
  impl_value tuple_encode_21 tuple_decode_21.
#[export] Instance rv_target_mut_ref T : RegisterValue (WaitTarget * UserMutRef T) RegisterDecodeError 3 :=
  impl_value tuple_encode_21 tuple_decode_21.
#[export] Instance rv_duration_ref T : RegisterValue (Duration * UserRef T) RegisterDecodeError 3 :=
  impl_value tuple_encode_21 tuple_decode_21.
#[export] Instance rv_slice_slice T U : RegisterValue (UserSlice T * UserSlice U) Infallible 4 :=
  impl_value tuple_encode_22 tuple_decode_22.
#[export] Instance rv_fd_slice T : RegisterValue (RawFd * UserSlice T) Infallible 3 :=
  impl_value tuple_encode_12 tuple_decode_12.
#[export] Instance rv_fd_mut_slice T : RegisterValue (RawFd * UserMutSlice T) Infallible 3 :=
  impl_value tuple_encode_12 tuple_decode_12.
#[export] Instance rv_ref_slice T U : RegisterValue (UserRef T * UserSlice U) Infallible 3 :=
  impl_value tuple_encode_12 tuple_decode_12.
#[export] Instance rv_slice_u32_u16 T : RegisterValue (UserSlice T * int U32 * int U16) RegisterDecodeError 4 :=
  impl_value tuple_encode_211 tuple_decode_211.
#[export] Instance rv_u16_mut_ref_mut_slice T U : RegisterValue (int U16 * UserMutRef T * UserMutSlice U) RegisterDecodeError 4 :=
  impl_value tuple_encode_112 tuple_decode_112.
#[export] Instance rv_u16_addr_slice T : RegisterValue (int U16 * SocketAddrV4 * UserSlice T) RegisterDecodeError 4 :=
  impl_value tuple_encode_112 tuple_decode_112.

(** ** Laws

    A value that is put into registers fills them with words and is taken out
    unchanged; and only values of the type come out of registers. *)

Definition regs_ok {n} (r : vec Z n) : Prop := Forall (λ a, 0 ≤ a < 2 ^ 64) (vec_to_list r).

Lemma regs_nil : regs_ok [#].
Proof. constructor. Qed.
Lemma regs_cons n a (r : vec Z n) : 0 ≤ a < 2 ^ 64 → regs_ok r → regs_ok (a ::: r).
Proof. by constructor. Qed.
Lemma regs_cons_inv n a (r : vec Z n) : regs_ok (a ::: r) → 0 ≤ a < 2 ^ 64 ∧ regs_ok r.
Proof. by intros [??]%Forall_cons. Qed.
#[export] Hint Resolve regs_nil regs_cons : ov6.

Class RegisterLaws (T E : Type) (n : nat) `{!RegisterValue T E n} `{!RustType T} : Prop := {
  encode_decode (x : T) : valid x → ∃ r : vec Z n, encode x = Some r ∧ regs_ok r ∧ try_decode (E := E) r = Some (Ok x);
  decode_valid (r : vec Z n) (x : T) : regs_ok r → try_decode (E := E) r = Some (Ok x) → valid x;
}.

Lemma and_then_ret {E F A B} `{From E F} a (k : A → option (result F B)) : and_then (Some (Ok (E := E) a)) k = k a.
Proof. done. Qed.
Lemma bind_some {A B} (a : A) (k : A → option B) : Some a ≫= k = k a.
Proof. done. Qed.

Lemma and_then_Ok {E F A B} `{From E F} (m : option (result E A)) (k : A → option (result F B)) b :
  and_then m k = Some (Ok b) → ∃ a, m = Some (Ok a) ∧ k a = Some (Ok b).
Proof. destruct m as [[a|e]|]; [|done..]. eauto. Qed.

(** Takes a vector of known length apart. *)
Ltac split_words :=
  repeat match goal with
    | r : vec Z (S _) |- _ => inv_vec r; intros
    | r : vec Z 0 |- _ => inv_vec r
    end.
Ltac words := split_words; simpl in *.

(** Takes a decoder apart. *)
Ltac decoded :=
  repeat match goal with
    | H : regs_ok (_ ::: _) |- _ => apply regs_cons_inv in H as [??]
    | H : and_then _ _ = Some (Ok _) |- _ => apply and_then_Ok in H as (? & ? & H)
    | H : context [if ?b then _ else _] |- _ => destruct b eqn:?
    | H : Some (Ok _) = Some (Ok _) |- _ => injection H as <-
    | H : Some (Ok _) = Some (Err _) |- _ => discriminate H
    | H : Some (Err _) = Some (Ok _) |- _ => discriminate H
    end.

(** The decoded components are values of their types. *)
Ltac decoded_valid :=
  split_words; decoded;
  repeat match goal with
    | H : try_decode _ = Some (Ok _) |- _ => apply decode_valid in H; [|by auto with ov6]
    end.

(** The encoders of the components. *)
Lemma encode1 {T E} `{!RegisterValue T E 1} `{!RustType T} `{!RegisterLaws T E 1} (x : T) :
  valid x → ∃ a, encode x = Some [# a] ∧ 0 ≤ a < 2 ^ 64 ∧ try_decode [# a] = Some (Ok x).
Proof. intros (r & E1 & Hr & D)%encode_decode. words. decoded. naive_solver. Qed.

Lemma encode2 {T E} `{!RegisterValue T E 2} `{!RustType T} `{!RegisterLaws T E 2} (x : T) :
  valid x → ∃ a b, encode x = Some [# a; b] ∧ 0 ≤ a < 2 ^ 64 ∧ 0 ≤ b < 2 ^ 64 ∧ try_decode [# a; b] = Some (Ok x).
Proof. intros (r & E1 & Hr & D)%encode_decode. words. decoded. naive_solver. Qed.

#[export] Instance laws_infallible : RegisterLaws Infallible Infallible 0.
Proof. split; [intros []|done]. Qed.
#[export] Instance laws_unit : RegisterLaws unit Infallible 0.
Proof. split; [intros []; exists [#]; auto with ov6|done]. Qed.

Lemma usize_range a : in_range Usize a ↔ 0 ≤ a < 2 ^ 64.
Proof. rw /in_range /int_min /int_max /=. lia. Qed.

Lemma u32_range a : in_range U32 a ↔ 0 ≤ a < 2 ^ 32.
Proof. rw /in_range /int_min /int_max /=. lia. Qed.
Lemma u16_range a : in_range U16 a ↔ 0 ≤ a < 2 ^ 16.
Proof. rw /in_range /int_min /int_max /=. lia. Qed.

#[export] Instance laws_usize : RegisterLaws (int Usize) Infallible 1.
Proof.
  split.
  - intros [n] Hn%usize_range. exists [# n]. auto with ov6.
  - intros r x Hr H. words. decoded. by apply usize_range.
Qed.
#[export] Instance laws_isize : RegisterLaws (int Isize) Infallible 1.
Proof.
  split.
  - intros [n] Hn. exists [# bits_of n]. split_and!; [done| |by rw /= signed_bits].
    pose proof (wrap_bound 64 n). auto with ov6 lia.
  - intros r x Hr H. words. decoded. by apply bits_signed.
Qed.
#[export] Instance laws_u64 : RegisterLaws (int U64) Infallible 1.
Proof.
  split.
  - intros [n] Hn%usize_range. exists [# n]. auto with ov6.
  - intros r x Hr H. words. decoded. by apply usize_range.
Qed.
#[export] Instance laws_i64 : RegisterLaws (int I64) Infallible 1.
Proof.
  split.
  - intros [n] Hn. exists [# bits_of n]. split_and!; [done| |by rw /= signed_bits].
    pose proof (wrap_bound 64 n). auto with ov6 lia.
  - intros r x Hr H. words. decoded. by apply bits_signed.
Qed.

Lemma number_laws base t `{!RegisterValue (int base) Infallible 1} `{!RegisterLaws (int base) Infallible 1} :
  (t, base) ∈ safe_from_impls → @RegisterLaws (int t) RegisterDecodeError 1 (impl_number base t) _.
Proof.
  intros Hin. split.
  { intros n Hn. pose proof (safe_from_total t base n Hin Hn) as E.
    rw /safe_from /try_into in E. case_decide as Hb; [|done].
    destruct (encode_decode (Int (t := base) (ival n)) Hb) as (r & Er & Hr & D). exists r.
    simpl. rw (safe_from_total t base n Hin Hn) /=. split_and!; [done..|]. rw D /= /try_into decide_True //. by destruct n. }
  intros r x Hr H. simpl in H. decoded. rw /try_into in H. case_decide as Hd; [|done]. by injection H as <-.
Qed.
#[export] Instance laws_u8 : RegisterLaws (int U8) RegisterDecodeError 1.
Proof. apply number_laws; [apply _|set_solver]. Qed.
#[export] Instance laws_u16 : RegisterLaws (int U16) RegisterDecodeError 1.
Proof. apply number_laws; [apply _|set_solver]. Qed.
#[export] Instance laws_u32 : RegisterLaws (int U32) RegisterDecodeError 1.
Proof. apply number_laws; [apply _|set_solver]. Qed.
#[export] Instance laws_i8 : RegisterLaws (int I8) RegisterDecodeError 1.
Proof. apply number_laws; [apply _|set_solver]. Qed.
#[export] Instance laws_i16 : RegisterLaws (int I16) RegisterDecodeError 1.
Proof. apply number_laws; [apply _|set_solver]. Qed.
#[export] Instance laws_i32 : RegisterLaws (int I32) RegisterDecodeError 1.
Proof. apply number_laws; [apply _|set_solver]. Qed.

(** A type that is encoded as another one. *)
Lemma wrapper_laws {T U E F n} `{!RustType T} `{!RustType U} `{!RegisterValue U E n} `{!RegisterLaws U E n} `{!From E F}
    (to : T → U) (back : U → result F T) :
  (∀ x, valid x → valid (to x) ∧ back (to x) = Ok x) → (∀ u x, valid u → back u = Ok x → valid x) →
  @RegisterLaws T F n (impl_value (λ x, encode (to x)) (λ r, u ←! try_decode (T := U) r; Some (back u))) _.
Proof.
  intros Hto Hback. split.
  - intros x [Hv Ex]%Hto. destruct (encode_decode (to x) Hv) as (r & E1 & Hr & D). exists r.
    split_and!; [exact E1|done|]. by rw /= D /= Ex.
  - intros r x Hr (u & Hu & [= Hx])%and_then_Ok. apply (Hback u); [|done]. by apply decode_valid in Hu.
Qed.

Lemma nonzero_laws t {E} `{!RegisterValue (int t) E 1} `{!From E RegisterDecodeError} `{!RegisterLaws (int t) E 1} :
  @RegisterLaws (option (NonZero t)) RegisterDecodeError 1 (impl_nonzero t) _.
Proof.
  apply (wrapper_laws (λ o, match o with Some n => Int (nz n) | None => Int 0 end : int t) (λ n, Ok (nonzero_new n))).
  - intros [n|] Ho; [|split; [by destruct t|done]]. destruct (Ho n eq_refl) as [Hr Hz]. split; [done|].
    rw /nonzero_new /=. case: Z.eqb_spec => // _. by destruct n.
  - intros n o Hn [= <-] y. rw /nonzero_new. by case: Z.eqb_spec => // ? [= <-].
Qed.
#[export] Instance laws_nz_u8 : RegisterLaws (option (NonZero U8)) RegisterDecodeError 1 := nonzero_laws U8.
#[export] Instance laws_nz_u16 : RegisterLaws (option (NonZero U16)) RegisterDecodeError 1 := nonzero_laws U16.
#[export] Instance laws_nz_u32 : RegisterLaws (option (NonZero U32)) RegisterDecodeError 1 := nonzero_laws U32.
#[export] Instance laws_nz_u64 : RegisterLaws (option (NonZero U64)) RegisterDecodeError 1 := nonzero_laws U64.
#[export] Instance laws_nz_i8 : RegisterLaws (option (NonZero I8)) RegisterDecodeError 1 := nonzero_laws I8.
#[export] Instance laws_nz_i16 : RegisterLaws (option (NonZero I16)) RegisterDecodeError 1 := nonzero_laws I16.
#[export] Instance laws_nz_i32 : RegisterLaws (option (NonZero I32)) RegisterDecodeError 1 := nonzero_laws I32.
#[export] Instance laws_nz_i64 : RegisterLaws (option (NonZero I64)) RegisterDecodeError 1 := nonzero_laws I64.

#[export] Instance laws_syscall_error : RegisterLaws SyscallError RegisterDecodeError 1.
Proof.
  apply (wrapper_laws (λ e, Int (syscall_error_no e) : int Isize) (λ n, match syscall_error_of (ival n) with
    Some e => Ok e | None => Err (InvalidSyscallErrorNo (ival n)) end)); [|done].
  intros e _. rw /= syscall_error_of_no. split; [|done]. by destruct e; vm_compute.
Qed.
#[export] Instance laws_option_pid : RegisterLaws (option ProcId) RegisterDecodeError 1.
Proof.
  apply (wrapper_laws (λ o, pid_get <$> o) (λ n, Ok (Pid <$> n))).
  - intros o Ho. split; [|by destruct o as [[]|]]. intros n (p & -> & ->)%fmap_Some. by apply (Ho p).
  - intros o p Ho [= <-] q (n & -> & ->)%fmap_Some. by apply (Ho n).
Qed.
#[export] Instance laws_pid : RegisterLaws ProcId RegisterDecodeError 1.
Proof.
  apply (wrapper_laws Some (λ o, match o with Some p => Ok p | None => Err UnexpectedZero end)).
  - intros p Hp. split; [by intros ? [= <-]|done].
  - intros [p|] q Ho [= <-]. by apply Ho.
Qed.
#[export] Instance laws_rawfd : RegisterLaws RawFd Infallible 1.
Proof. apply (wrapper_laws fd_get (λ n, Ok (Fd n))); [by intros []|by intros ?? ? [= <-]]. Qed.
#[export] Instance laws_open_flags : RegisterLaws OpenFlags.t RegisterDecodeError 1.
Proof.
  apply (wrapper_laws OpenFlags.bits (λ n, match OpenFlags.from_bits n with
    Some f => Ok f | None => Err (InvalidOpenFlags (ival n)) end)); rw /OpenFlags.from_bits.
  - intros [n] [Hn Hb]. split; [done|]. simpl in *. by rw Hb.
  - intros n f Hn. by case: Z.eqb_spec => // Hb [= <-].
Qed.
#[export] Instance laws_ipv4 : RegisterLaws Ipv4Addr RegisterDecodeError 1.
Proof. apply (wrapper_laws ip_bits (λ n, Ok (Ipv4 n))); [by intros []|by intros ?? ? [= <-]]. Qed.
#[export] Instance laws_user_ref T : RegisterLaws (UserRef T) Infallible 1.
Proof. apply (wrapper_laws uref_addr (λ n, Ok (URef n))); [by intros []|by intros ?? ? [= <-]]. Qed.
#[export] Instance laws_user_mut_ref T : RegisterLaws (UserMutRef T) Infallible 1.
Proof. apply (wrapper_laws umref_addr (λ n, Ok (UMutRef n))); [by intros []|by intros ?? ? [= <-]]. Qed.

(** The two halves of a packed socket address. *)
Lemma pack_halves hi lo :
  0 ≤ hi < 2 ^ 32 → 0 ≤ lo < 2 ^ 32 →
  let v := Z.lor (wrap 64 (Z.shiftl hi 32)) lo in
  0 ≤ v < 2 ^ 64 ∧ Z.shiftr v 32 = hi ∧ Z.land v 0xffff_ffff = lo.
Proof.
  intros Hh Hl v. assert (v = hi * 2 ^ 32 + lo) as ->.
  { subst v. rw /wrap Z.shiftl_mul_pow2 // Z.mod_small; [lia|]. symmetry. apply Z.add_nocarry_lor.
    apply Z.bits_inj'. intros n Hn. rw Z.land_spec Z.bits_0. destruct (decide (n < 32)).
    - by rw Z.mul_pow2_bits_low.
    - rw (Z.bits_above_log2 lo) ?andb_false_r //; [lia|].
      destruct (decide (lo = 0)) as [->|]; [simpl; lia|]. apply (Z.lt_le_trans _ 32); [|lia]. apply Z.log2_lt_pow2; lia. }
  rw Z.shiftr_div_pow2 // (Z.land_ones _ 32) //. split; [lia|]. split.
  - rw Z.div_add_l // Z.div_small; lia.
  - rw Z.add_comm Z.mod_add // Z.mod_small; lia.
Qed.

Lemma decode_socket_addr v :
  try_decode (T := SocketAddrV4) [# v] =
    hi ← try_into (t := U64) (u := U32) (Int (Z.shiftr v 32));
    Some match try_into (t := U64) (Int (Z.land v 0xffff_ffff)) with
         | Some port => Ok (SockAddr (Ipv4 hi) port)
         | None => Err IntConversion
         end.
Proof. reflexivity. Qed.

#[export] Instance laws_socket_addr : RegisterLaws SocketAddrV4 RegisterDecodeError 1.
Proof.
  split.
  - intros [[[hi]] [lo]] [Hh Hl]. pose proof (proj1 (u32_range hi) Hh). pose proof (proj1 (u16_range lo) Hl).
    destruct (pack_halves hi lo) as (Hv & E1 & E2); [lia..|].
    exists [# Z.lor (wrap 64 (Z.shiftl hi 32)) lo]. split_and!; [done|by auto with ov6|].
    by rw decode_socket_addr E1 E2 /try_into !decide_True.
  - intros r x Hr. split_words. revert H. rw decode_socket_addr.
    destruct (try_into (t := U64) (u := U32) _) as [hi|] eqn:E1; [|by intros H]. apply try_into_valid in E1. cbn [mbind option_bind].
    destruct (try_into _) as [lo|] eqn:E2; [|by intros H]. apply try_into_valid in E2. by intros [= <-].
Qed.

#[global] Arguments encode : simpl never.
#[global] Arguments try_decode : simpl never.

Lemma encode_process p : encode (Process p) = r ← encode p; Some [# 1; words1 r].
Proof. reflexivity. Qed.
Lemma decode_wait_target a0 a1 :
  try_decode (T := WaitTarget) [# a0; a1] =
    if (a0 =? 0) && (a1 =? 0) then Some (Ok AnyProcess)
    else if a0 =? 1 then v1 ←! try_decode (T := ProcId) [# a1]; Some (Ok (Process v1))
    else Some (Err (InvalidDesignator a0)).
Proof. reflexivity. Qed.

#[export] Instance laws_wait_target : RegisterLaws WaitTarget RegisterDecodeError 2.
Proof.
  split.
  - intros [|p] Ht; [exists [# 0; 0]; auto with ov6 lia|].
    destruct (encode1 p Ht) as (a & E & Ha & D). exists [# 1; a]. rw encode_process E decode_wait_target.
    split_and!; [done|by auto with ov6 lia|]. by rw D.
  - intros r x Hr H. split_words. rw decode_wait_target in H. by decoded_valid.
Qed.

Lemma encode_duration d :
  encode d = r0 ← encode (as_secs d); r1 ← encode (subsec_nanos d); Some [# words1 r0; words1 r1].
Proof. reflexivity. Qed.
Lemma decode_duration a0 a1 :
  try_decode (T := Duration) [# a0; a1] =
    secs ←! try_decode (T := int U64) [# a0];
    nanos ←! try_decode (T := int U32) [# a1];
    d ← duration_new secs nanos;
    Some (Ok d).
Proof. reflexivity. Qed.

Lemma duration_new_small secs nanos :
  valid secs → 0 ≤ ival nanos < NANOS_PER_SEC → duration_new secs nanos = Some (Dur secs nanos).
Proof.
  intros Hs%usize_range Hn. rw /duration_new Z.div_small // Z.mod_small // Z.add_0_r.
  case: Z.leb_spec => [_|]; [by destruct secs, nanos|]. rw /U64_MAX. lia.
Qed.

Lemma duration_new_valid secs nanos d :
  valid secs → valid nanos → duration_new secs nanos = Some d → valid d.
Proof.
  intros Hs%usize_range Hn%u32_range. rw /duration_new. case: Z.leb_spec => // Hle [= <-].
  split; [apply usize_range|]; simpl.
  - assert (0 ≤ ival nanos / NANOS_PER_SEC) by (apply Z.div_pos; [lia|done]). rw /U64_MAX in Hle. lia.
  - by apply Z.mod_pos_bound.
Qed.

#[export] Instance laws_duration : RegisterLaws Duration RegisterDecodeError 2.
Proof.
  split.
  - intros [secs nanos] [Hs Hn]. simpl in *. assert (valid nanos) as Hn' by (apply u32_range; rw /NANOS_PER_SEC in Hn; lia).
    destruct (encode1 secs Hs) as (a & E1 & Ha & D1), (encode1 nanos Hn') as (b & E2 & Hb & D2).
    exists [# a; b]. rw encode_duration E1 bind_some E2 decode_duration D1 and_then_ret D2 and_then_ret duration_new_small //. auto with ov6.
  - intros r x Hr H. split_words. rw decode_duration in H. decoded_valid.
    destruct (duration_new _ _) eqn:E; [|done]. injection H as <-. by apply duration_new_valid in E.
Qed.

Lemma decode_user_slice T a0 a1 : try_decode (T := UserSlice T) [# a0; a1] = Some (Ok (USlice (Int a0) (Int a1))).
Proof. reflexivity. Qed.
Lemma decode_user_mut_slice T a0 a1 : try_decode (T := UserMutSlice T) [# a0; a1] = Some (Ok (UMutSlice (Int a0) (Int a1))).
Proof. reflexivity. Qed.
#[export] Instance laws_user_slice T : RegisterLaws (UserSlice T) Infallible 2.
Proof.
  split.
  - intros [[a] [b]] [Ha%usize_range Hb%usize_range]. exists [# a; b]. auto with ov6.
  - intros r x Hr H. split_words. rw decode_user_slice in H. decoded. by split; apply usize_range.
Qed.
#[export] Instance laws_user_mut_slice T : RegisterLaws (UserMutSlice T) Infallible 2.
Proof.
  split.
  - intros [[a] [b]] [Ha%usize_range Hb%usize_range]. exists [# a; b]. auto with ov6.
  - intros r x Hr H. split_words. rw decode_user_mut_slice in H. decoded. by split; apply usize_range.
Qed.

(** Results and tuples. *)
Lemma impl_encode {T E n} (enc : T → option (vec Z n)) (dec : vec Z n → option (result E T)) x :
  @encode T E n (impl_value enc dec) x = enc x.
Proof. reflexivity. Qed.
Lemma impl_decode {T E n} (enc : T → option (vec Z n)) (dec : vec Z n → option (result E T)) r :
  @try_decode T E n (impl_value enc dec) r = dec r.
Proof. reflexivity. Qed.

Section result_laws.
Context {T E ET EE : Type} `{!RustType T} `{!RustType E} `{!RegisterValue E EE 1} `{!RegisterLaws E EE 1}.
Context `{!From ET RegisterDecodeError} `{!From EE RegisterDecodeError}.

Lemma result01_laws `{!RegisterValue T ET 0} `{!RegisterLaws T ET 0} :
  @RegisterLaws (result E T) RegisterDecodeError 2 (impl_value result_encode_01 result_decode_01) _.
Proof.
  split.
  - intros [x|e] Hx; setoid_rewrite impl_encode; setoid_rewrite impl_decode; rw /result_encode_01 /result_decode_01.
    + destruct (encode_decode x Hx) as (r & -> & Hr & D). exists [# 0; 0].
      assert (r = [#]) as -> by by inv_vec r. split_and!; [done|by auto with ov6 lia|]. by rw /= D.
    + destruct (encode1 e Hx) as (a & -> & Ha & D). exists [# USIZE_MAX; a].
      split_and!; [done|by auto with ov6 lia|]. by rw /= D.
  - intros r x Hr H. rw impl_decode /result_decode_01 in H. words. by decoded_valid.
Qed.

Lemma result11_laws `{!RegisterValue T ET 1} `{!RegisterLaws T ET 1} :
  @RegisterLaws (result E T) RegisterDecodeError 2 (impl_value result_encode_11 result_decode_11) _.
Proof.
  split.
  - intros [x|e] Hx; setoid_rewrite impl_encode; setoid_rewrite impl_decode; rw /result_encode_11 /result_decode_11;
      [destruct (encode1 x Hx) as (a & -> & Ha & D); exists [# 0; a]
      |destruct (encode1 e Hx) as (a & -> & Ha & D); exists [# USIZE_MAX; a]];
      (split_and!; [done|by auto with ov6 lia|by rw /= D]).
  - intros r x Hr H. rw impl_decode /result_decode_11 in H. words. by decoded_valid.
Qed.
End result_laws.

Lemma tuple1_laws {T ET n} `{!RustType T} `{!RegisterValue T ET n} `{!RegisterLaws T ET n} :
  @RegisterLaws (tuple1 T) ET n (impl_value tuple1_encode tuple1_decode) _.
Proof. apply (wrapper_laws tup1 (λ x, Ok (Tup1 x))); [by intros []|by intros ?? ? [= <-]]. Qed.

Section tuple_laws.
Context {T U V ET EU EV E : Type} `{!RustType T} `{!RustType U} `{!RustType V}.
Context `{!From ET E} `{!From EU E} `{!From EV E}.

Lemma tuple11_laws `{!RegisterValue T ET 1} `{!RegisterLaws T ET 1} `{!RegisterValue U EU 1} `{!RegisterLaws U EU 1} :
  @RegisterLaws (T * U) E 2 (impl_value tuple_encode_11 tuple_decode_11) _.
Proof.
  split; setoid_rewrite impl_decode; rw /tuple_decode_11.
  - intros [x y] [Hx Hy].
    destruct (encode1 x Hx) as (a & Ex & ? & Dx), (encode1 y Hy) as (b & Ey & ? & Dy).
    exists [# a; b]. rw impl_encode /tuple_encode_11 Ex bind_some Ey /= Dx /= Dy. auto 10 with ov6.
  - intros r x Hr H. words. by decoded_valid.
Qed.

Lemma tuple12_laws `{!RegisterValue T ET 1} `{!RegisterLaws T ET 1} `{!RegisterValue U EU 2} `{!RegisterLaws U EU 2} :
  @RegisterLaws (T * U) E 3 (impl_value tuple_encode_12 tuple_decode_12) _.
Proof.
  split; setoid_rewrite impl_decode; rw /tuple_decode_12.
  - intros [x y] [Hx Hy].
    destruct (encode1 x Hx) as (a & Ex & ? & Dx), (encode2 y Hy) as (b & c & Ey & ? & ? & Dy).
    exists [# a; b; c]. rw impl_encode /tuple_encode_12 Ex bind_some Ey /= Dx /= Dy. auto 10 with ov6.
  - intros r x Hr H. words. by decoded_valid.
Qed.

Lemma tuple21_laws `{!RegisterValue T ET 2} `{!RegisterLaws T ET 2} `{!RegisterValue U EU 1} `{!RegisterLaws U EU 1} :
  @RegisterLaws (T * U) E 3 (impl_value tuple_encode_21 tuple_decode_21) _.
Proof.
  split; setoid_rewrite impl_decode; rw /tuple_decode_21.
  - intros [x y] [Hx Hy].
    destruct (encode2 x Hx) as (a & b & Ex & ? & ? & Dx), (encode1 y Hy) as (c & Ey & ? & Dy).
    exists [# a; b; c]. rw impl_encode /tuple_encode_21 Ex bind_some Ey /= Dx /= Dy. auto 10 with ov6.
  - intros r x Hr H. words. by decoded_valid.
Qed.

Lemma tuple22_laws `{!RegisterValue T ET 2} `{!RegisterLaws T ET 2} `{!RegisterValue U EU 2} `{!RegisterLaws U EU 2} :
  @RegisterLaws (T * U) E 4 (impl_value tuple_encode_22 tuple_decode_22) _.
Proof.
  split; setoid_rewrite impl_decode; rw /tuple_decode_22.
  - intros [x y] [Hx Hy].
    destruct (encode2 x Hx) as (a & b & Ex & ? & ? & Dx), (encode2 y Hy) as (c & d & Ey & ? & ? & Dy).
    exists [# a; b; c; d]. rw impl_encode /tuple_encode_22 Ex bind_some Ey /= Dx /= Dy. auto 10 with ov6.
  - intros r x Hr H. words. by decoded_valid.
Qed.

Lemma tuple211_laws `{!RegisterValue T ET 2} `{!RegisterLaws T ET 2} `{!RegisterValue U EU 1} `{!RegisterLaws U EU 1}
    `{!RegisterValue V EV 1} `{!RegisterLaws V EV 1} :
  @RegisterLaws (T * U * V) E 4 (impl_value tuple_encode_211 tuple_decode_211) _.
Proof.
  split; setoid_rewrite impl_decode; rw /tuple_decode_211.
  - intros [[x y] z] [[Hx Hy] Hz].
    destruct (encode2 x Hx) as (a & b & Ex & ? & ? & Dx), (encode1 y Hy) as (c & Ey & ? & Dy),
      (encode1 z Hz) as (d & Ez & ? & Dz).
    exists [# a; b; c; d]. rw impl_encode /tuple_encode_211 Ex bind_some Ey bind_some Ez /= Dx /= Dy /= Dz. auto 10 with ov6.
  - intros r x Hr H. words. by decoded_valid.
Qed.

Lemma tuple112_laws `{!RegisterValue T ET 1} `{!RegisterLaws T ET 1} `{!RegisterValue U EU 1} `{!RegisterLaws U EU 1}
    `{!RegisterValue V EV 2} `{!RegisterLaws V EV 2} :
  @RegisterLaws (T * U * V) E 4 (impl_value tuple_encode_112 tuple_decode_112) _.
Proof.
  split; setoid_rewrite impl_decode; rw /tuple_decode_112.
  - intros [[x y] z] [[Hx Hy] Hz].
    destruct (encode1 x Hx) as (a & Ex & ? & Dx), (encode1 y Hy) as (b & Ey & ? & Dy),
      (encode2 z Hz) as (c & d & Ez & ? & ? & Dz).
    exists [# a; b; c; d]. rw impl_encode /tuple_encode_112 Ex bind_some Ey bind_some Ez /= Dx /= Dy /= Dz. auto 10 with ov6.
  - intros r x Hr H. words. by decoded_valid.
Qed.
End tuple_laws.

#[export] Instance laws_res_unit : RegisterLaws (result SyscallError unit) RegisterDecodeError 2 := result01_laws.
#[export] Instance laws_res_infallible : RegisterLaws (result SyscallError Infallible) RegisterDecodeError 2 := result01_laws.
#[export] Instance laws_res_usize : RegisterLaws (result SyscallError (int Usize)) RegisterDecodeError 2 := result11_laws.
#[export] Instance laws_res_option_pid : RegisterLaws (result SyscallError (option ProcId)) RegisterDecodeError 2 := result11_laws.
#[export] Instance laws_res_pid : RegisterLaws (result SyscallError ProcId) RegisterDecodeError 2 := result11_laws.
#[export] Instance laws_res_rawfd : RegisterLaws (result SyscallError RawFd) RegisterDecodeError 2 := result11_laws.
#[export] Instance laws1_u16 : RegisterLaws (tuple1 (int U16)) RegisterDecodeError 1 := tuple1_laws.
#[export] Instance laws1_i32 : RegisterLaws (tuple1 (int I32)) RegisterDecodeError 1 := tuple1_laws.
#[export] Instance laws1_u64 : RegisterLaws (tuple1 (int U64)) Infallible 1 := tuple1_laws.
#[export] Instance laws1_isize : RegisterLaws (tuple1 (int Isize)) Infallible 1 := tuple1_laws.
#[export] Instance laws1_duration : RegisterLaws (tuple1 Duration) RegisterDecodeError 2 := tuple1_laws.
#[export] Instance laws1_rawfd : RegisterLaws (tuple1 RawFd) Infallible 1 := tuple1_laws.
#[export] Instance laws1_pid : RegisterLaws (tuple1 ProcId) RegisterDecodeError 1 := tuple1_laws.
#[export] Instance laws1_user_ref T : RegisterLaws (tuple1 (UserRef T)) Infallible 1 := tuple1_laws.
#[export] Instance laws1_user_mut_ref T : RegisterLaws (tuple1 (UserMutRef T)) Infallible 1 := tuple1_laws.
#[export] Instance laws1_user_slice T : RegisterLaws (tuple1 (UserSlice T)) Infallible 2 := tuple1_laws.
#[export] Instance laws1_user_mut_slice T : RegisterLaws (tuple1 (UserMutSlice T)) Infallible 2 := tuple1_laws.
#[export] Instance laws_fd_mut_ref T : RegisterLaws (RawFd * UserMutRef T) Infallible 2 := tuple11_laws.
#[export] Instance laws_fd_ref T : RegisterLaws (RawFd * UserRef T) Infallible 2 := tuple11_laws.
#[export] Instance laws_slice_flags T : RegisterLaws (UserSlice T * OpenFlags.t) RegisterDecodeError 3 := tuple21_laws.
#[export] Instance laws_target_mut_ref T : RegisterLaws (WaitTarget * UserMutRef T) RegisterDecodeError 3 := tuple21_laws.
#[export] Instance laws_duration_ref T : RegisterLaws (Duration * UserRef T) RegisterDecodeError 3 := tuple21_laws.
#[export] Instance laws_slice_slice T U : RegisterLaws (UserSlice T * UserSlice U) Infallible 4 := tuple22_laws.
#[export] Instance laws_fd_slice T : RegisterLaws (RawFd * UserSlice T) Infallible 3 := tuple12_laws.
#[export] Instance laws_fd_mut_slice T : RegisterLaws (RawFd * UserMutSlice T) Infallible 3 := tuple12_laws.
#[export] Instance laws_ref_slice T U : RegisterLaws (UserRef T * UserSlice U) Infallible 3 := tuple12_laws.
#[export] Instance laws_slice_u32_u16 T : RegisterLaws (UserSlice T * int U32 * int U16) RegisterDecodeError 4 := tuple211_laws.
#[export] Instance laws_u16_mut_ref_mut_slice T U : RegisterLaws (int U16 * UserMutRef T * UserMutSlice U) RegisterDecodeError 4 := tuple112_laws.
#[export] Instance laws_u16_addr_slice T : RegisterLaws (int U16 * SocketAddrV4 * UserSlice T) RegisterDecodeError 4 := tuple112_laws.

(** ** Decoding without panics *)

Class DecodeTotal (T E : Type) (n : nat) `{!RegisterValue T E n} : Prop :=
  decode_total : ∀ r : vec Z n, regs_ok r → is_Some (try_decode (T := T) r).

Lemma and_then_total {E F A B} `{From E F} (m : option (result E A)) (k : A → option (result F B)) :
  is_Some m → (∀ a, is_Some (k a)) → is_Some (and_then m k).
Proof. intros [[a|e] ->] Hk; [apply Hk|done]. Qed.

(** Decodes component by component. *)
Ltac total :=
  intros r Hr; rw ?impl_decode; split_words;
  repeat match goal with H : regs_ok (_ ::: _) |- _ => apply regs_cons_inv in H as [??] end;
  repeat (apply and_then_total; [apply decode_total; by auto with ov6|]; intros);
  simpl; repeat case_match; done.

#[export] Instance total_usize : DecodeTotal (int Usize) Infallible 1.
Proof. by total. Qed.
#[export] Instance total_isize : DecodeTotal (int Isize) Infallible 1.
Proof. by total. Qed.
#[export] Instance total_u64 : DecodeTotal (int U64) Infallible 1.
Proof. by total. Qed.
#[export] Instance total_u16 : DecodeTotal (int U16) RegisterDecodeError 1.
Proof. by total. Qed.
#[export] Instance total_u32 : DecodeTotal (int U32) RegisterDecodeError 1.
Proof. by total. Qed.
#[export] Instance total_i32 : DecodeTotal (int I32) RegisterDecodeError 1.
Proof. by total. Qed.
#[export] Instance total_pid : DecodeTotal ProcId RegisterDecodeError 1.
Proof. by total. Qed.
#[export] Instance total_rawfd : DecodeTotal RawFd Infallible 1.
Proof. by total. Qed.
#[export] Instance total_open_flags : DecodeTotal OpenFlags.t RegisterDecodeError 1.
Proof. by total. Qed.
#[export] Instance total_user_ref T : DecodeTotal (UserRef T) Infallible 1.
Proof. by total. Qed.
#[export] Instance total_user_mut_ref T : DecodeTotal (UserMutRef T) Infallible 1.
Proof. by total. Qed.
#[export] Instance total_user_slice T : DecodeTotal (UserSlice T) Infallible 2.
Proof. by total. Qed.
#[export] Instance total_user_mut_slice T : DecodeTotal (UserMutSlice T) Infallible 2.
Proof. by total. Qed.
#[export] Instance total_wait_target : DecodeTotal WaitTarget RegisterDecodeError 2.
Proof.
  intros r Hr. split_words. apply regs_cons_inv in Hr as [? Hr]. rw decode_wait_target.
  repeat case_match; [done| |done]. apply and_then_total; [by apply decode_total|done].
Qed.
(** The unwrapped conversion of the upper half cannot fail. *)
#[export] Instance total_socket_addr : DecodeTotal SocketAddrV4 RegisterDecodeError 1.
Proof.
  intros r Hr. split_words. apply regs_cons_inv in Hr as [Hv _]. rw decode_socket_addr.
  assert (try_into (t := U64) (u := U32) (Int (Z.shiftr x 32)) = Some (Int (Z.shiftr x 32))) as ->; [|done].
  rw /try_into decide_True //. apply u32_range. cbn [ival]. rw Z.shiftr_div_pow2 //.
  split; [apply Z.div_pos; lia|]. apply Z.div_lt_upper_bound; lia.
Qed.
#[export] Instance total_unit : DecodeTotal unit Infallible 0.
Proof. by total. Qed.

Lemma tuple1_total {T ET n} `{!RegisterValue T ET n} `{!DecodeTotal T ET n} :
  @DecodeTotal (tuple1 T) ET n (impl_value tuple1_encode tuple1_decode).
Proof. intros r Hr. apply and_then_total; [by apply decode_total|done]. Qed.

Section tuple_total.
Context {T U V ET EU EV E : Type} `{!From ET E} `{!From EU E} `{!From EV E}.

Lemma tuple11_total `{!RegisterValue T ET 1} `{!DecodeTotal T ET 1} `{!RegisterValue U EU 1} `{!DecodeTotal U EU 1} :
  @DecodeTotal (T * U) E 2 (impl_value tuple_encode_11 tuple_decode_11).
Proof. rw /tuple_decode_11. by total. Qed.
Lemma tuple12_total `{!RegisterValue T ET 1} `{!DecodeTotal T ET 1} `{!RegisterValue U EU 2} `{!DecodeTotal U EU 2} :
  @DecodeTotal (T * U) E 3 (impl_value tuple_encode_12 tuple_decode_12).
Proof. rw /tuple_decode_12. by total. Qed.
Lemma tuple21_total `{!RegisterValue T ET 2} `{!DecodeTotal T ET 2} `{!RegisterValue U EU 1} `{!DecodeTotal U EU 1} :
  @DecodeTotal (T * U) E 3 (impl_value tuple_encode_21 tuple_decode_21).
Proof. rw /tuple_decode_21. by total. Qed.
Lemma tuple22_total `{!RegisterValue T ET 2} `{!DecodeTotal T ET 2} `{!RegisterValue U EU 2} `{!DecodeTotal U EU 2} :
  @DecodeTotal (T * U) E 4 (impl_value tuple_encode_22 tuple_decode_22).
Proof. rw /tuple_decode_22. by total. Qed.
Lemma tuple211_total `{!RegisterValue T ET 2} `{!DecodeTotal T ET 2} `{!RegisterValue U EU 1} `{!DecodeTotal U EU 1}
    `{!RegisterValue V EV 1} `{!DecodeTotal V EV 1} :
  @DecodeTotal (T * U * V) E 4 (impl_value tuple_encode_211 tuple_decode_211).
Proof. rw /tuple_decode_211. by total. Qed.
Lemma tuple112_total `{!RegisterValue T ET 1} `{!DecodeTotal T ET 1} `{!RegisterValue U EU 1} `{!DecodeTotal U EU 1}
    `{!RegisterValue V EV 2} `{!DecodeTotal V EV 2} :
  @DecodeTotal (T * U * V) E 4 (impl_value tuple_encode_112 tuple_decode_112).
Proof. rw /tuple_decode_112. by total. Qed.
End tuple_total.

#[export] Instance total1_u16 : DecodeTotal (tuple1 (int U16)) RegisterDecodeError 1 := tuple1_total.
#[export] Instance total1_i32 : DecodeTotal (tuple1 (int I32)) RegisterDecodeError 1 := tuple1_total.
#[export] Instance total1_u64 : DecodeTotal (tuple1 (int U64)) Infallible 1 := tuple1_total.
#[export] Instance total1_isize : DecodeTotal (tuple1 (int Isize)) Infallible 1 := tuple1_total.
#[export] Instance total1_rawfd : DecodeTotal (tuple1 RawFd) Infallible 1 := tuple1_total.
#[export] Instance total1_pid : DecodeTotal (tuple1 ProcId) RegisterDecodeError 1 := tuple1_total.
#[export] Instance total1_user_ref T : DecodeTotal (tuple1 (UserRef T)) Infallible 1 := tuple1_total.
#[export] Instance total1_user_mut_ref T : DecodeTotal (tuple1 (UserMutRef T)) Infallible 1 := tuple1_total.
#[export] Instance total1_user_slice T : DecodeTotal (tuple1 (UserSlice T)) Infallible 2 := tuple1_total.
#[export] Instance total1_user_mut_slice T : DecodeTotal (tuple1 (UserMutSlice T)) Infallible 2 := tuple1_total.
#[export] Instance total_fd_mut_ref T : DecodeTotal (RawFd * UserMutRef T) Infallible 2 := tuple11_total.
#[export] Instance total_fd_ref T : DecodeTotal (RawFd * UserRef T) Infallible 2 := tuple11_total.
#[export] Instance total_slice_flags T : DecodeTotal (UserSlice T * OpenFlags.t) RegisterDecodeError 3 := tuple21_total.
#[export] Instance total_target_mut_ref T : DecodeTotal (WaitTarget * UserMutRef T) RegisterDecodeError 3 := tuple21_total.
#[export] Instance total_slice_slice T U : DecodeTotal (UserSlice T * UserSlice U) Infallible 4 := tuple22_total.
#[export] Instance total_fd_slice T : DecodeTotal (RawFd * UserSlice T) Infallible 3 := tuple12_total.
#[export] Instance total_fd_mut_slice T : DecodeTotal (RawFd * UserMutSlice T) Infallible 3 := tuple12_total.
#[export] Instance total_ref_slice T U : DecodeTotal (UserRef T * UserSlice U) Infallible 3 := tuple12_total.
#[export] Instance total_slice_u32_u16 T : DecodeTotal (UserSlice T * int U32 * int U16) RegisterDecodeError 4 := tuple211_total.
#[export] Instance total_u16_mut_ref_mut_slice T U : DecodeTotal (int U16 * UserMutRef T * UserMutSlice U) RegisterDecodeError 4 := tuple112_total.
#[export] Instance total_u16_addr_slice T : DecodeTotal (int U16 * SocketAddrV4 * UserSlice T) RegisterDecodeError 4 := tuple112_total.
