(* ===== verification/Syscall.v ===== *)
(** * System calls

    Model of [crates/kernel/ov6_kernel/src/syscall/mod.rs], of
    [crates/common/ov6_syscall/src/syscall.rs] and of the user side in
    [crates/user/ov6_user_lib/src/os/ov6/syscall/ffi.rs]: which types the arguments and
    the result of each system call have, how the kernel decodes the arguments, runs
    the handler and stores the result, and how the user library calls.  The handlers
    are a parameter, as they are for the trait's [handle]; the printing of traced
    calls is left out, the decoding it does is not. *)

From stdpp Require Import vector.
From S2P Require Import Prelude KError SysTypes Register.

(** ** Registers of a user program *)

Record UserRegisters := {
  r_ra : Z;
  r_sp : Z;
  r_gp : Z;
  r_tp : Z;
  r_t0 : Z;
  r_t1 : Z;
  r_t2 : Z;
  r_s0 : Z;
  r_s1 : Z;
  r_a0 : Z;
  r_a1 : Z;
  r_a2 : Z;
  r_a3 : Z;
  r_a4 : Z;
  r_a5 : Z;
  r_a6 : Z;
  r_a7 : Z;
  r_s2 : Z;
  r_s3 : Z;
  r_s4 : Z;
  r_s5 : Z;
  r_s6 : Z;
  r_s7 : Z;
  r_s8 : Z;
  r_s9 : Z;
  r_s10 : Z;
  r_s11 : Z;
  r_t3 : Z;
  r_t4 : Z;
  r_t5 : Z;
  r_t6 : Z;
}.

Definition set_a0 (v : Z) (r : UserRegisters) : UserRegisters := {|
  r_ra := r_ra r; r_sp := r_sp r; r_gp := r_gp r; r_tp := r_tp r; r_t0 := r_t0 r; r_t1 := r_t1 r;
  r_t2 := r_t2 r; r_s0 := r_s0 r; r_s1 := r_s1 r; r_a0 := v; r_a1 := r_a1 r; r_a2 := r_a2 r;
  r_a3 := r_a3 r; r_a4 := r_a4 r; r_a5 := r_a5 r; r_a6 := r_a6 r; r_a7 := r_a7 r; r_s2 := r_s2 r;
  r_s3 := r_s3 r; r_s4 := r_s4 r; r_s5 := r_s5 r; r_s6 := r_s6 r; r_s7 := r_s7 r; r_s8 := r_s8 r;
  r_s9 := r_s9 r; r_s10 := r_s10 r; r_s11 := r_s11 r; r_t3 := r_t3 r; r_t4 := r_t4 r; r_t5 := r_t5 r;
  r_t6 := r_t6 r;
|}.
Definition set_a1 (v : Z) (r : UserRegisters) : UserRegisters := {|
  r_ra := r_ra r; r_sp := r_sp r; r_gp := r_gp r; r_tp := r_tp r; r_t0 := r_t0 r; r_t1 := r_t1 r;
  r_t2 := r_t2 r; r_s0 := r_s0 r; r_s1 := r_s1 r; r_a0 := r_a0 r; r_a1 := v; r_a2 := r_a2 r;
  r_a3 := r_a3 r; r_a4 := r_a4 r; r_a5 := r_a5 r; r_a6 := r_a6 r; r_a7 := r_a7 r; r_s2 := r_s2 r;
  r_s3 := r_s3 r; r_s4 := r_s4 r; r_s5 := r_s5 r; r_s6 := r_s6 r; r_s7 := r_s7 r; r_s8 := r_s8 r;
  r_s9 := r_s9 r; r_s10 := r_s10 r; r_s11 := r_s11 r; r_t3 := r_t3 r; r_t4 := r_t4 r; r_t5 := r_t5 r;
  r_t6 := r_t6 r;
|}.
(** The registers at an [ecall]: arguments and code. *)
Definition set_args (v0 v1 v2 v3 v4 code : Z) (r : UserRegisters) : UserRegisters := {|
  r_ra := r_ra r; r_sp := r_sp r; r_gp := r_gp r; r_tp := r_tp r; r_t0 := r_t0 r; r_t1 := r_t1 r;
  r_t2 := r_t2 r; r_s0 := r_s0 r; r_s1 := r_s1 r; r_a0 := v0; r_a1 := v1; r_a2 := v2;
  r_a3 := v3; r_a4 := v4; r_a5 := r_a5 r; r_a6 := r_a6 r; r_a7 := code; r_s2 := r_s2 r;
  r_s3 := r_s3 r; r_s4 := r_s4 r; r_s5 := r_s5 r; r_s6 := r_s6 r; r_s7 := r_s7 r; r_s8 := r_s8 r;
  r_s9 := r_s9 r; r_s10 := r_s10 r; r_s11 := r_s11 r; r_t3 := r_t3 r; r_t4 := r_t4 r; r_t5 := r_t5 r;
  r_t6 := r_t6 r;
|}.

(** ** The system calls *)

Module SyscallCode.
Inductive t :=
  | Fork | Exit | Wait | Pipe | Read | Kill
  | Exec | Fstat | Chdir | Dup | Sbrk | Sleep
  | Open | Write | Mknod | Unlink | Link | Mkdir
  | Close | AlarmSet | AlarmClear | SignalReturn | Bind | Unbind
  | Recv | Send | GetSystemInfo | Reboot | Halt | Abort
  | Trace | DumpKernelPageTable | DumpUserPageTable.
Definition code (c : t) : Z :=
  match c with
  | Fork => 1 | Exit => 2 | Wait => 3 | Pipe => 4
  | Read => 5 | Kill => 6 | Exec => 7 | Fstat => 8
  | Chdir => 9 | Dup => 10 | Sbrk => 11 | Sleep => 12
  | Open => 13 | Write => 14 | Mknod => 15 | Unlink => 16
  | Link => 17 | Mkdir => 18 | Close => 19 | AlarmSet => 20
  | AlarmClear => 21 | SignalReturn => 22 | Bind => 23 | Unbind => 24
  | Recv => 25 | Send => 26 | GetSystemInfo => 27 | Reboot => 28
  | Halt => 29 | Abort => 30 | Trace => 31 | DumpKernelPageTable => 32
  | DumpUserPageTable => 33
  end.
Definition all : list t :=
  [Fork; Exit; Wait; Pipe; Read; Kill; Exec; Fstat;
   Chdir; Dup; Sbrk; Sleep; Open; Write; Mknod; Unlink;
   Link; Mkdir; Close; AlarmSet; AlarmClear; SignalReturn; Bind; Unbind;
   Recv; Send; GetSystemInfo; Reboot; Halt; Abort; Trace; DumpKernelPageTable;
   DumpUserPageTable].
(** [from_repr]. *)
Definition from_repr (n : Z) : option t := if 1 <=? n then all !! Z.to_nat (n - 1) else None.
#[export] Instance t_eq_dec : EqDecision t.
Proof. solve_decision. Defined.
End SyscallCode.
Import SyscallCode.

(** A type with its representation in registers. *)
Record regty := {
  rt_T : Type;
  rt_E : Type;
  rt_n : nat;
  rt_value :: RegisterValue rt_T rt_E rt_n;
  rt_valid :: RustType rt_T;
}.
Definition reg (T : Type) {E n} `{!RegisterValue T E n} `{!RustType T} : regty := {| rt_T := T |}.

(** Types that only occur behind pointers. *)
Record Stat := { st_dev : Z; st_ino : Z; st_ty : Z; st_nlink : Z; st_size : Z }.
Record SystemInfo := { free_pages : Z; total_pages : Z; page_size : Z }.
Record SocketAddrV4Pod := { sap_addr : list byte; sap_port : list byte }.

(** [Syscall::Arg] and [Syscall::Return]. *)
Definition Arg (c : t) : regty :=
  match c with
  | Fork | AlarmClear | SignalReturn | Reboot | DumpKernelPageTable | DumpUserPageTable => reg unit
  | Exit => reg (tuple1 (int I32))
  | Wait => reg (WaitTarget * UserMutRef (int I32))
  | Pipe => reg (tuple1 (UserMutRef (RawFd * RawFd)))
  | Read => reg (RawFd * UserMutSlice (int U8))
  | Kill => reg (tuple1 ProcId)
  | Exec => reg (UserSlice (int U8) * UserSlice (UserSlice (int U8)))
  | Fstat => reg (RawFd * UserMutRef Stat)
  | Chdir | Unlink | Mkdir => reg (tuple1 (UserSlice (int U8)))
  | Dup | Close => reg (tuple1 RawFd)
  | Sbrk => reg (tuple1 (int Isize))
  | Sleep => reg (tuple1 Duration)
  | Open => reg (UserSlice (int U8) * OpenFlags.t)
  | Write => reg (RawFd * UserSlice (int U8))
  | Mknod => reg (UserSlice (int U8) * int U32 * int U16)
  | Link => reg (UserSlice (int U8) * UserSlice (int U8))
  | AlarmSet => reg (Duration * UserRef unit)
  | Bind | Unbind | Halt | Abort => reg (tuple1 (int U16))
  | Recv => reg (int U16 * UserMutRef SocketAddrV4Pod * UserMutSlice (int U8))
  | Send => reg (int U16 * SocketAddrV4 * UserSlice (int U8))
  | GetSystemInfo => reg (tuple1 (UserMutRef SystemInfo))
  | Trace => reg (tuple1 (int U64))
  end.
Definition Return (c : t) : regty :=
  match c with
  | Fork => reg (result SyscallError (option ProcId))
  | Exit => reg Infallible
  | Wait => reg (result SyscallError ProcId)
  | Pipe | Kill | Fstat | Chdir | Sleep | Mknod | Unlink | Link | Mkdir | Close | AlarmSet | AlarmClear | Bind
  | Unbind | GetSystemInfo => reg (result SyscallError unit)
  | Read | Sbrk | Write | Recv | Send => reg (result SyscallError (int Usize))
  | Exec | SignalReturn | Reboot | Halt | Abort => reg (result SyscallError Infallible)
  | Dup | Open => reg (result SyscallError RawFd)
  | Trace | DumpKernelPageTable | DumpUserPageTable => reg unit
  end.

(** ** The types of the kernel side *)

(** [ExitArg]. *)
Record ExitArg := ExitStatus { exit_status : int I32 }.
#[export] Instance exitarg_type : RustType ExitArg := λ a, valid (exit_status a).
#[export] Instance rv_exit_arg : RegisterValue ExitArg Infallible 1 := {|
  encode _ := None;
  try_decode r :=
    match try_decode (T := int I32) r with
    | Some (Ok n) => Some (Ok (ExitStatus n))
    | Some (Err _) => Some (Ok (ExitStatus (Int (-1))))
    | None => None
    end;
|}.

(** [ExecReturn] and [SignalReturn]: the registers of the new program, respectively of
    the interrupted one. *)
Inductive RegsReturn :=
  | RegsOk (a0 a1 : int Usize)
  | RegsErr (e : SyscallError).
#[export] Instance regsreturn_type : RustType RegsReturn := λ r,
  match r with
  | RegsOk a0 a1 => valid a0 ∧ valid a1
  | RegsErr _ => True
  end.
#[export] Instance rv_regs_return : RegisterValue RegsReturn Infallible 2 := {|
  encode r :=
    match r with
    | RegsOk a0 a1 => Some [# ival a0; ival a1]
    | RegsErr e => encode (Err e : result SyscallError Infallible)
    end;
  try_decode _ := None;
|}.

(** [SyscallExt::KernelArg] and [SyscallExt::KernelReturn]. *)
Definition KernelArg (c : t) : regty :=
  match c with
  | Exit => reg ExitArg
  | _ => Arg c
  end.
Definition KernelReturn (c : t) : regty :=
  match c with
  | Exec | SignalReturn => reg RegsReturn
  | _ => Return c
  end.

(** [IntoReturn]: the result when the arguments cannot be decoded. *)
Definition decode_failed {T} (e : RegisterDecodeError) : result SyscallError T :=
  Err (syscall_error (SyscallDecode e)).
Definition into_return (c : t) : rt_E (KernelArg c) → rt_T (KernelReturn c) :=
  match c with
  | Wait | Kill | Sleep | Open | Mknod | AlarmSet | Bind | Unbind | Recv | Send | Halt | Abort => decode_failed
  | _ => λ e, match e with end
  end.

(** ** Kernel side *)

(** [Arg::decode_arg]: which registers a representation of [n] words is taken from. *)
Definition arg_regs (n : nat) (ur : UserRegisters) : option (vec Z n) :=
  match n with
  | 0 => Some [#]
  | 1 => Some [# r_a0 ur]
  | 2 => Some [# r_a0 ur; r_a1 ur]
  | 3 => Some [# r_a0 ur; r_a1 ur; r_a2 ur]
  | 4 => Some [# r_a0 ur; r_a1 ur; r_a2 ur; r_a3 ur]
  | 5 => Some [# r_a0 ur; r_a1 ur; r_a2 ur; r_a3 ur; r_a4 ur]
  | _ => None
  end%nat.
Definition decode_arg (c : t) (ur : UserRegisters) : option (result (rt_E (KernelArg c)) (rt_T (KernelArg c))) :=
  arg_regs (rt_n (KernelArg c)) ur ≫= try_decode.

#[global] Arguments decode_arg : simpl never.

Inductive ReturnValue :=
  | Ret0
  | Ret1 (a0 : Z)
  | Ret2 (a0 a1 : Z).
(** [From<Register<T, N>> for ReturnValue]. *)
Definition return_value (n : nat) : vec Z n → option ReturnValue :=
  match n with
  | 0 => λ _, Some Ret0
  | 1 => λ r, Some (Ret1 (words1 r))
  | 2 => λ r, let '(a0, a1) := words2 r in Some (Ret2 a0 a1)
  | _ => λ _, None
  end%nat.
(** [ReturnValue::store]. *)
Definition store_return (rv : ReturnValue) (ur : UserRegisters) : UserRegisters :=
  let '(a0, a1) := match rv with Ret0 => (0, None) | Ret1 a0 => (a0, None) | Ret2 a0 a1 => (a0, Some a1) end in
  let ur := set_a0 a0 ur in
  match a1 with
  | Some a1 => set_a1 a1 ur
  | None => ur
  end.

(** The private data of the process, as far as the dispatcher sees it, and the rest of
    the kernel. *)
Record ProcPrivate := {
  pp_regs : UserRegisters;
  pp_trace_mask : Z;
}.
Record KState (W : Type) := KS {
  ks_private : option ProcPrivate;
  ks_world : W;
}.
Arguments KS {W} ks_private ks_world.
Arguments ks_private {W} _.
Arguments ks_world {W} _.

Section kernel.
Context {W : Type} (call : ∀ c : t, rt_T (KernelArg c) → M (KState W) (rt_T (KernelReturn c))).

Definition get_private : M (KState W) ProcPrivate :=
  o ← gets ks_private;
  unwrap o.
Definition set_regs (f : UserRegisters → UserRegisters) : M (KState W) unit :=
  p ← get_private;
  modify (λ s, KS (Some {| pp_regs := f (pp_regs p); pp_trace_mask := pp_trace_mask p |}) (ks_world s)).

Definition traced (c : t) (mask : Z) : bool := negb (Z.land mask (Z.shiftl 1 (code c)) =? 0).

(** [SyscallExt::handle]. *)
Definition handle (c : t) : M (KState W) ReturnValue :=
  p ← get_private;
  (match c with
   | Exit => if traced c (pp_trace_mask p) then unwrap (decode_arg c (pp_regs p));; mret tt else mret tt
   | _ => mret tt
   end);;
  arg ← unwrap (decode_arg c (pp_regs p));
  ret ← match arg with
        | Ok arg => call c arg
        | Err e => mret (into_return c e)
        end;
  p ← get_private;
  (if traced c (pp_trace_mask p) then unwrap (decode_arg c (pp_regs p));; mret tt else mret tt);;
  r ← unwrap (encode ret);
  unwrap (return_value _ r).

(** [syscall]. *)
Definition syscall : M (KState W) unit :=
  p ← get_private;
  match from_repr (r_a7 (pp_regs p)) with
  | None => set_regs (set_a0 USIZE_MAX)
  | Some c =>
      ret ← handle c;
      set_regs (store_return ret)
  end.

(** ** User side *)

(** [CallWithArg::call_with_arg]: the arguments and the code are in their registers,
    the others hold what they held. *)
Definition call_regs (c : t) (n : nat) : vec Z n → option (UserRegisters → UserRegisters) :=
  match n with
  | 0 => λ _, Some (λ ur, set_args (r_a0 ur) (r_a1 ur) (r_a2 ur) (r_a3 ur) (r_a4 ur) (code c) ur)
  | 1 => λ r, Some (λ ur, set_args (words1 r) (r_a1 ur) (r_a2 ur) (r_a3 ur) (r_a4 ur) (code c) ur)
  | 2 => λ r, let '(a0, a1) := words2 r in
      Some (λ ur, set_args a0 a1 (r_a2 ur) (r_a3 ur) (r_a4 ur) (code c) ur)
  | 3 => λ r, let '(a0, (a1, a2)) := words3 r in
      Some (λ ur, set_args a0 a1 a2 (r_a3 ur) (r_a4 ur) (code c) ur)
  | 4 => λ r, let '(a0, (a1, (a2, a3))) := words4 r in
      Some (λ ur, set_args a0 a1 a2 a3 (r_a4 ur) (code c) ur)
  | 5 => λ r, Some (λ ur, set_args (r !!! 0%fin) (r !!! 1%fin) (r !!! 2%fin) (r !!! 3%fin) (r !!! 4%fin) (code c) ur)
  | _ => λ _, None
  end%nat.

(** [FromArray::from_array]. *)
Definition from_array (n : nat) (a0 a1 : Z) : option (vec Z n) :=
  match n with
  | 0 => Some [#]
  | 1 => Some [# a0]
  | 2 => Some [# a0; a1]
  | _ => None
  end%nat.

(** [SyscallExt::try_call]. *)
Definition try_call (c : t) (arg : rt_T (Arg c)) : M (KState W) (result (rt_E (Return c)) (rt_T (Return c))) :=
  r ← unwrap (encode arg);
  f ← unwrap (call_regs c _ r);
  set_regs f;;
  syscall;;
  p ← get_private;
  r ← unwrap (from_array _ (r_a0 (pp_regs p)) (r_a1 (pp_regs p)));
  unwrap (try_decode r).
End kernel.

(** ** Facts about the interface *)

#[export] Instance arg_laws c : RegisterLaws (rt_T (Arg c)) (rt_E (Arg c)) (rt_n (Arg c)).
Proof. destruct c; exact _. Qed.
#[export] Instance return_laws c : RegisterLaws (rt_T (Return c)) (rt_E (Return c)) (rt_n (Return c)).
Proof. destruct c; exact _. Qed.

Lemma from_repr_code c : from_repr (code c) = Some c.
Proof. by destruct c. Qed.

(** What the user library puts into registers is what the kernel looks at. *)
Lemma call_regs_arg c n (r : vec Z n) :
  (n ≤ 5)%nat → ∃ f, call_regs c n r = Some f ∧ ∀ ur, arg_regs n (f ur) = Some r ∧ r_a7 (f ur) = code c.
Proof.
  intros Hn. do 6 (destruct n as [|n]; [inv_all_vec_fin; by eexists|]). lia.
Qed.

Lemma return_regs n (r : vec Z n) :
  (n ≤ 2)%nat → ∃ rv, return_value n r = Some rv ∧
    ∀ ur, from_array n (r_a0 (store_return rv ur)) (r_a1 (store_return rv ur)) = Some r.
Proof. intros Hn. do 3 (destruct n as [|n]; [inv_all_vec_fin; by eexists|]). lia. Qed.

Lemma arg_count c : (rt_n (Arg c) ≤ 5)%nat.
Proof. destruct c; simpl; lia. Qed.
Lemma return_count c : (rt_n (Return c) ≤ 2)%nat.
Proof. destruct c; simpl; lia. Qed.

(** The argument and the results of the kernel side that correspond to those of the
    user side. *)
Definition kernel_arg_of (c : t) : rt_T (Arg c) → rt_T (KernelArg c) :=
  match c with
  | Exit => λ x, ExitStatus (tup1 x)
  | _ => id
  end.
Definition returns (c : t) : rt_T (KernelReturn c) → rt_T (Return c) → Prop :=
  match c with
  | Exec | SignalReturn => λ k v, ∃ e, k = RegsErr e ∧ v = Err e
  | _ => eq
  end.

Lemma decode_exit_arg_eq (r : vec Z 1) :
  try_decode (T := ExitArg) r =
    match try_decode (T := int I32) r with
    | Some (Ok n) => Some (Ok (ExitStatus n))
    | Some (Err _) => Some (Ok (ExitStatus (Int (-1))))
    | None => None
    end.
Proof. reflexivity. Qed.

Lemma decode_exit_arg (r : vec Z 1) (x : tuple1 (int I32)) :
  try_decode r = Some (Ok x) → try_decode (T := ExitArg) r = Some (Ok (ExitStatus (tup1 x))).
Proof. rw decode_exit_arg_eq impl_decode /tuple1_decode. intros (n & Hn & [= <-])%and_then_Ok. by rw Hn. Qed.

Lemma decode_arg_call c x :
  valid x → ∃ r f, encode x = Some r ∧ call_regs c _ r = Some f ∧
    ∀ ur, decode_arg c (f ur) = Some (Ok (kernel_arg_of c x)) ∧ r_a7 (f ur) = code c.
Proof.
  intros Hx. destruct (encode_decode x Hx) as (r & Er & _ & Dr).
  destruct (call_regs_arg c _ r (arg_count c)) as (f & Ef & Hf). exists r, f. split_and!; [done..|].
  intros ur. destruct (Hf ur) as [Ha Hc]. split; [|done]. rw /decode_arg.
  destruct c; try by rw Ha bind_some. 
  change (arg_regs 1 (f ur) = Some r) in Ha.
  change (arg_regs 1 (f ur) ≫= try_decode (T := ExitArg) = Some (Ok (ExitStatus (tup1 x)))).
  rw Ha bind_some. by apply decode_exit_arg.
Qed.

Lemma returns_regs c k v :
  returns c k v → valid v → ∃ r rv, encode k = Some r ∧ return_value _ r = Some rv ∧
    ∀ ur, ∃ r', from_array (rt_n (Return c)) (r_a0 (store_return rv ur)) (r_a1 (store_return rv ur)) = Some r' ∧
      try_decode r' = Some (Ok v).
Proof.
  intros Hk Hv. destruct (encode_decode v Hv) as (r & Er & _ & Dr).
  destruct (return_regs _ r (return_count c)) as (rv & Ev & Hf).
  assert (∃ r0, encode k = Some r0 ∧ return_value _ r0 = Some rv) as (r0 & E0 & Ev0).
  { destruct c; try (simpl in Hk; subst k; by exists r); by destruct Hk as (e & -> & ->); exists r. }
  exists r0, rv. split_and!; [done..|]. intros ur. by exists r.
Qed.

(** The registers of a user program are words. *)
Definition regs_words (ur : UserRegisters) : Prop :=
  ∀ x, x ∈ [r_a0 ur; r_a1 ur; r_a2 ur; r_a3 ur; r_a4 ur] → 0 ≤ x < 2 ^ 64.

Lemma arg_regs_words n ur r : regs_words ur → arg_regs n ur = Some r → regs_ok r.
Proof.
  intros Hw. do 6 (destruct n as [|n]; [intros [= <-]; repeat (apply regs_cons; [apply Hw; set_solver|]); apply regs_nil|]). done.
Qed.

#[export] Instance total_exit_arg : DecodeTotal ExitArg Infallible 1.
Proof. intros r Hr. rw decode_exit_arg_eq. by destruct (decode_total (T := int I32) r Hr) as [[n|e] ->]. Qed.

(** The arguments whose decoder has no panic. *)
Lemma decode_arg_total c ur :
  regs_words ur → c ≠ Sleep → c ≠ AlarmSet → is_Some (decode_arg c ur).
Proof.
  intros Hw H1 H2. rw /decode_arg.
  assert (∃ r, arg_regs (rt_n (KernelArg c)) ur = Some r ∧ regs_ok r) as (r & Er & Hr).
  { assert (is_Some (arg_regs (rt_n (KernelArg c)) ur)) as [r Er] by (destruct c; by eexists).
    exists r. split; [done|]. exact (arg_regs_words _ _ _ Hw Er). }
  rw Er bind_some. destruct c; try done; by apply decode_total.
Qed.

(** The only argument whose decoder can panic. *)
Definition carry_overflow (c : t) (ur : UserRegisters) : Prop :=
  (c = Sleep ∨ c = AlarmSet) ∧ r_a1 ur < 2 ^ 32 ∧ 2 ^ 64 ≤ r_a0 ur + r_a1 ur / NANOS_PER_SEC.

Lemma decode_duration_panics a0 a1 :
  0 ≤ a0 < 2 ^ 64 → 0 ≤ a1 < 2 ^ 64 →
  try_decode (T := Duration) [# a0; a1] = None ↔ a1 < 2 ^ 32 ∧ 2 ^ 64 ≤ a0 + a1 / NANOS_PER_SEC.
Proof.
  intros H0 H1. rw decode_duration.
  change (try_decode (T := int U64) [# a0]) with (Some (Ok (E := Infallible) (Int (t := U64) a0))). rw and_then_ret.
  change (try_decode (T := int U32) [# a1]) with
    (Some match try_into (Int (t := Usize) a1) with Some n => Ok n | None => Err IntConversion end : option (result _ (int U32))).
  rw /try_into. case_decide as Hr; [apply u32_range in Hr|].
  - rw and_then_ret /duration_new /= /U64_MAX. case: Z.leb_spec => Hle; split; intros; simpl in *; lia || done.
  - split; [done|]. intros [Hlt _]. destruct Hr. apply u32_range. simpl. lia.
Qed.

Lemma decode_arg_duration c ur :
  c = Sleep ∨ c = AlarmSet → decode_arg c ur = None ↔ try_decode (T := Duration) [# r_a0 ur; r_a1 ur] = None.
Proof.
  intros [->| ->].
  - change (decode_arg Sleep ur) with (v0 ←! try_decode (T := Duration) [# r_a0 ur; r_a1 ur];
      Some (Ok (E := RegisterDecodeError) (Tup1 v0))). by destruct (try_decode _) as [[]|].
  - change (decode_arg AlarmSet ur) with (v0 ←! try_decode (T := Duration) [# r_a0 ur; r_a1 ur];
      Some (Ok (E := RegisterDecodeError) (v0, URef (T := unit) (Int (r_a2 ur))))). by destruct (try_decode _) as [[]|].
Qed.

Lemma decode_arg_none c ur : regs_words ur → decode_arg c ur = None ↔ carry_overflow c ur.
Proof.
  intros Hw. destruct (decide (c = Sleep ∨ c = AlarmSet)) as [Hc|Hc]; last first.
  { destruct (decode_arg_total c ur Hw) as [d ->]; [tauto..|]. split; [done|]. by intros [??]. }
  rw (decode_arg_duration c ur Hc) decode_duration_panics; [apply Hw; set_solver..|].
  rw /carry_overflow. tauto.
Qed.

Lemma from_repr_inv n c : from_repr n = Some c → n = code c.
Proof.
  rw /from_repr. case: Z.leb_spec => // Hn. intros H. replace n with (Z.of_nat (Z.to_nat (n - 1)) + 1) by lia.
  revert H. generalize (Z.to_nat (n - 1)). intros k. do 33 (destruct k as [|k]; [by intros [= <-]|]). done.
Qed.

Section dispatch.
Context {W : Type} (call : ∀ c : t, rt_T (KernelArg c) → M (KState W) (rt_T (KernelReturn c))).

Lemma wp_private (Q : ProcPrivate → KState W → Prop) s p : ks_private s = Some p → Q p s → wp get_private Q s.
Proof. intros Hp HQ. rw /get_private. wp_steps. by apply (wp_unwrap _ p). Qed.

Lemma wp_set_regs f (Q : unit → KState W → Prop) s p :
  ks_private s = Some p →
  Q tt (KS (Some {| pp_regs := f (pp_regs p); pp_trace_mask := pp_trace_mask p |}) (ks_world s)) →
  wp (set_regs f) Q s.
Proof. intros Hp HQ. rw /set_regs. wp_step. apply (wp_private _ _ p); [done|]. by wp_step. Qed.

Lemma wp_untraced c mask ur (Q : unit → KState W → Prop) s :
  (traced c mask = false ∨ is_Some (decode_arg c ur)) → Q tt s →
  wp (if traced c mask then unwrap (decode_arg c ur);; mret tt else mret tt) Q s.
Proof. intros [->|[d Hd]] HQ; [done|]. case_match; [|done]. wp_step. by apply (wp_unwrap _ d). Qed.

(** What a handler needs for its result to reach the user: it keeps the private data,
    and the registers of the call when it is traced. *)
Definition keeps_private (c : t) (s s' : KState W) : Prop :=
  ∃ p p', ks_private s = Some p ∧ ks_private s' = Some p' ∧
    (traced c (pp_trace_mask p') = false ∨ pp_regs p' = pp_regs p).

Lemma handle_wp c arg (Q : ReturnValue → KState W → Prop) s p :
  ks_private s = Some p → decode_arg c (pp_regs p) = Some (Ok arg) →
  wp (call c arg) (λ k s', keeps_private c s s' ∧ ∃ r rv, encode k = Some r ∧ return_value _ r = Some rv ∧ Q rv s') s →
  wp (handle call c) Q s.
Proof.
  intros Hp Hd Hc. rw /handle. wp_step. apply (wp_private _ _ p); [done|]. wp_step.
  assert (∀ Q, Q tt s → wp (match c with
    | Exit => if traced c (pp_trace_mask p) then unwrap (decode_arg c (pp_regs p));; mret tt else mret tt
    | _ => mret tt end) Q s) as H0.
  { intros Q' HQ'. destruct c; try done. apply wp_untraced; [|done]. right. by rw Hd. }
  apply H0. clear H0. wp_step. apply (wp_unwrap _ (Ok arg)); [done|]. wp_step.
  eapply wp_mono; [exact Hc|]. intros k s' [(p0 & p' & E0 & Hp' & Ht) (r & rv & Er & Ev & HQ)].
  assert (p0 = p) as -> by congruence. wp_step.
  apply (wp_private _ _ p'); [done|]. wp_step. apply wp_untraced.
  { destruct Ht as [Ht|Ht]; [by left|right]. by rw Ht Hd. }
  wp_step. apply (wp_unwrap _ r); [done|]. by apply (wp_unwrap _ rv).
Qed.

(** C12: A system call as the user library makes it: if the handler, run on the argument
    of the call, returns a result that satisfies [Q], the call returns such a result to
    the user, whichever of the system calls it is, and the rest of the kernel is as the
    handler leaves it. *)
Theorem syscall_roundtrip c (x : rt_T (Arg c)) (Q : rt_T (Return c) → W → Prop) s p :
  valid x → ks_private s = Some p →
  (∀ s1, ks_world s1 = ks_world s → is_Some (ks_private s1) →
    wp (call c (kernel_arg_of c x)) (λ k s2, keeps_private c s1 s2 ∧
      ∃ v, returns c k v ∧ valid v ∧ Q v (ks_world s2)) s1) →
  wp (try_call call c x) (λ r s', ∃ v, r = Ok v ∧ Q v (ks_world s')) s.
Proof.
  intros Hx Hp Hcall. destruct (decode_arg_call c x Hx) as (r & f & Er & Ef & Hf).
  destruct (Hf (pp_regs p)) as [Hd Ha7]. rw /try_call.
  wp_step. apply (wp_unwrap _ r); [done|]. wp_step. apply (wp_unwrap _ f); [done|]. wp_step.
  apply (wp_set_regs _ _ _ p); [done|]. wp_step. rw /syscall. wp_step. eapply wp_private; [done|]. simpl.
  rw Ha7 from_repr_code. wp_step. eapply handle_wp; [done|exact Hd|].
  eapply wp_mono; [apply Hcall; [done|by eexists]|]. intros k s2 [Hk (v & Hret & Hv & HQ)].
  destruct (returns_regs c k v Hret Hv) as (r0 & rv & Er0 & Erv & Hrv). split; [done|]. exists r0, rv. split_and!; [done..|].
  destruct Hk as (p1 & p2 & _ & Hp2 & _). apply (wp_set_regs _ _ _ p2); [done|]. wp_step.
  eapply wp_private; [done|]. simpl. destruct (Hrv (pp_regs p2)) as (r' & Er' & Dr').
  wp_step. apply (wp_unwrap _ r'); [done|]. apply (wp_unwrap _ (Ok v)); [done|]. eauto.
Qed.

Lemma get_private_run (s : KState W) p : ks_private s = Some p → get_private s = Ret p s.
Proof. intros Hp. by rw /get_private /mbind /M_bind /gets Hp. Qed.
Lemma set_regs_run f (s : KState W) p :
  ks_private s = Some p →
  set_regs f s = Ret tt (KS (Some {| pp_regs := f (pp_regs p); pp_trace_mask := pp_trace_mask p |}) (ks_world s)).
Proof. intros Hp. by rw /set_regs (bind_Ret _ _ _ _ _ (get_private_run s p Hp)). Qed.

Lemma syscall_run c s p :
  ks_private s = Some p → r_a7 (pp_regs p) = code c →
  syscall call s = (ret ← handle call c; set_regs (store_return ret)) s.
Proof. intros Hp Ha7. by rw /syscall (bind_Ret _ _ _ _ _ (get_private_run s p Hp)) Ha7 from_repr_code. Qed.

Lemma syscall_panics c s p :
  ks_private s = Some p → r_a7 (pp_regs p) = code c → decode_arg c (pp_regs p) = None → syscall call s = Panic.
Proof.
  intros Hp Ha7 Hn. rw (syscall_run c s p) //. apply bind_Panic. rw /handle (bind_Ret _ _ _ _ _ (get_private_run s p Hp)) Hn.
  destruct c; try done. by case_match.
Qed.

(** Decoding the arguments of a system call panics in exactly one case: [sleep] and
    [alarm_set] with a number of nanoseconds that carries the number of seconds over
    the end of [u64].  In that case the whole kernel panics, whatever the handlers do. *)
Theorem decode_arg_panics c s p :
  ks_private s = Some p → regs_words (pp_regs p) → r_a7 (pp_regs p) = code c →
  (decode_arg c (pp_regs p) = None ↔ carry_overflow c (pp_regs p)) ∧
  (carry_overflow c (pp_regs p) → syscall call s = Panic).
Proof.
  intros Hp Hw Ha7. pose proof (decode_arg_none c (pp_regs p) Hw) as Hiff. split; [done|].
  intros Ho%Hiff. by apply (syscall_panics c s p).
Qed.

(** Arguments that cannot be decoded do not reach the handler: the call fails with
    [SyscallError::Unknown] in the registers, and nothing else changes. *)
Theorem bad_arguments c s p e :
  ks_private s = Some p → r_a7 (pp_regs p) = code c → decode_arg c (pp_regs p) = Some (Err e) →
  syscall call s = Ret tt (KS (Some {| pp_regs := set_a1 (bits_of (syscall_error_no SysUnknown)) (set_a0 USIZE_MAX (pp_regs p));
    pp_trace_mask := pp_trace_mask p |}) (ks_world s)).
Proof.
  intros Hp Ha7 Hd. rw (syscall_run c s p) //.
  assert (wp (handle call c) (λ rv s', rv = Ret2 USIZE_MAX (bits_of (syscall_error_no SysUnknown)) ∧ s' = s) s)
    as (rv & ? & Hh & -> & ->)%wp_run; [|by rw (bind_Ret _ _ _ _ _ Hh) (set_regs_run _ _ p)].
  rw /handle. wp_step. apply (wp_private _ _ p); [done|]. wp_step. destruct c; try by destruct e.
  all: wp_step; wp_step; apply (wp_unwrap _ (Err e)); [done|]; wp_step; wp_step; wp_step.
  all: apply (wp_private _ _ p); [done|]; wp_step; apply wp_untraced; [right; by rw Hd|].
  all: wp_step; by apply (wp_unwrap _ [# USIZE_MAX; bits_of (syscall_error_no SysUnknown)]).
Qed.

(** An unknown code changes [a0] only, to the mark of an error. *)
Theorem unknown_syscall s p :
  ks_private s = Some p → (∀ c, r_a7 (pp_regs p) ≠ code c) →
  syscall call s = Ret tt (KS (Some {| pp_regs := set_a0 USIZE_MAX (pp_regs p);
    pp_trace_mask := pp_trace_mask p |}) (ks_world s)).
Proof.
  intros Hp Hc. assert (from_repr (r_a7 (pp_regs p)) = None) as E.
  { destruct (from_repr _) as [c|] eqn:E; [|done]. apply from_repr_inv in E. by destruct (Hc c). }
  by rw /syscall (bind_Ret _ _ _ _ _ (get_private_run s p Hp)) E (set_regs_run _ _ p).
Qed.
End dispatch.


(** ** Examples *)

Module Example.
(** A kernel whose [sbrk] returns the break at 4096. *)
Definition sbrk_only (c : t) : rt_T (KernelArg c) → M (KState unit) (rt_T (KernelReturn c)) :=
  match c return rt_T (KernelArg c) → M (KState unit) (rt_T (KernelReturn c)) with
  | Sbrk => λ _ s, Ret (Ok (Int 4096)) s
  | _ => λ _, panic
  end.
Definition regs0 : UserRegisters := {|
  r_ra := 0; r_sp := 0; r_gp := 0; r_tp := 0; r_t0 := 0; r_t1 := 0; r_t2 := 0; r_s0 := 0; r_s1 := 0;
  r_a0 := 7; r_a1 := 7; r_a2 := 7; r_a3 := 7; r_a4 := 7; r_a5 := 7; r_a6 := 7; r_a7 := 7; r_s2 := 0; r_s3 := 0;
  r_s4 := 0; r_s5 := 0; r_s6 := 0; r_s7 := 0; r_s8 := 0; r_s9 := 0; r_s10 := 0; r_s11 := 0; r_t3 := 0; r_t4 := 0;
  r_t5 := 0; r_t6 := 0 |}.
Definition with_regs (f : UserRegisters → UserRegisters) : KState unit :=
  KS (Some {| pp_regs := f regs0; pp_trace_mask := 0 |}) tt.

Lemma syscall_roundtrip_witness :
  wp (try_call sbrk_only Sbrk (Tup1 (Int (-16)))) (λ r _, ∃ v, r = Ok v ∧ v = Ok (Int 4096)) (with_regs id).
Proof.
  apply (syscall_roundtrip sbrk_only Sbrk (Tup1 (Int (-16))) (λ v _, v = Ok (Int 4096)) (with_regs id)
    {| pp_regs := regs0; pp_trace_mask := 0 |}); [vm_compute; intuition discriminate|done|].
  intros s1 _ [p Hp]. apply wp_ret. split; [exists p, p; tauto|]. exists (Ok (Int 4096)).
  split; [done|]. split; [vm_compute; intuition discriminate|done].
Defined.

(** [sleep] with the last second and a nanosecond count of one second. *)
Definition sleep_overflow : UserRegisters → UserRegisters := 
  set_args U64_MAX NANOS_PER_SEC 0 0 0 (code Sleep).

Lemma decode_arg_panics_witness :
  carry_overflow Sleep (sleep_overflow regs0) ∧ syscall sbrk_only (with_regs sleep_overflow) = Panic.
Proof.
  assert (carry_overflow Sleep (sleep_overflow regs0)) as Ho by (split; [by left|vm_compute; intuition discriminate]).
  split; [done|].
  apply (decode_arg_panics sbrk_only Sleep (with_regs sleep_overflow)
    {| pp_regs := sleep_overflow regs0; pp_trace_mask := 0 |}); [done| |done|done].
  intros x Hx. rw !elem_of_cons elem_of_nil /= /U64_MAX /NANOS_PER_SEC in Hx. lia.
Defined.

(** A user identifier that does not fit into the number of a process. *)
Definition kill_large : UserRegisters → UserRegisters := set_args (2 ^ 40) 0 0 0 0 (code Kill).

Lemma bad_arguments_witness :
  syscall sbrk_only (with_regs kill_large) =
    Ret tt (with_regs (λ r, set_a1 (2 ^ 64 - 1) (set_a0 USIZE_MAX (kill_large r)))).
Proof.
  exact (bad_arguments sbrk_only Kill (with_regs kill_large)
    {| pp_regs := kill_large regs0; pp_trace_mask := 0 |} IntConversion eq_refl eq_refl eq_refl).
Defined.

Lemma unknown_syscall_witness :
  syscall sbrk_only (with_regs (set_args 0 0 0 0 0 99)) =
    Ret tt (with_regs (λ r, set_a0 USIZE_MAX (set_args 0 0 0 0 0 99 r))).
Proof.
  apply (unknown_syscall sbrk_only (with_regs (set_args 0 0 0 0 0 99))
    {| pp_regs := set_args 0 0 0 0 0 99 regs0; pp_trace_mask := 0 |}); [done|]. by intros [].
Defined.
End Example.
