(* ===== verification/Pod.v ===== *)
(** * Plain-old-data views of byte buffers

    The on-disk and over-the-wire structures of ov6 are [#[repr(C)]] structs of
    integers that the code reads and writes in place through [dataview::Pod]
    ([BlockGuard::data::<T>()], [read_as::<T>()], ...).  On the RISC-V target
    those views are little-endian and, for the structs of the sources, without
    padding.  A [pod A] packs the two directions of such a view with the laws
    the rest of the development uses; the combinators build the codec of a
    struct or of an array from those of its fields. *)

From S2P Require Import Prelude.

Record pod (A : Type) : Type := Pod {
  psize : nat;
  pwf : A → Prop;
  pto : A → list byte;
  pof : list byte → A;
  pto_length : ∀ a, pwf a → length (pto a) = psize;
  pof_wf : ∀ l, length l = psize → pwf (pof l);
  pof_pto : ∀ a, pwf a → pof (pto a) = a;
  pto_pof : ∀ l, length l = psize → pto (pof l) = l;
}.
Arguments Pod {A} _ _ _ _ _ _ _ _.
Arguments psize {A} _.
Arguments pwf {A} _ _.
Arguments pto {A} _ _.
Arguments pof {A} _ _.
Arguments pto_length {A} _ _ _.
Arguments pof_wf {A} _ _ _.
Arguments pof_pto {A} _ _ _.
Arguments pto_pof {A} _ _ _.

#[global] Arguments psize {A} _ : simpl never.
#[global] Arguments pto {A} _ _ : simpl never.
#[global] Arguments pof {A} _ _ : simpl never.

(** ** Integers *)

Section uint.
Context (n : nat).

Definition uint_wf (x : Z) : Prop := 0 ≤ x < 2 ^ (8 * Z.of_nat n).

Lemma uint_to_length x : uint_wf x → length (le_split n x) = n.
Proof. intros _. apply length_le_split. Qed.

Lemma uint_of_wf l : length l = n → uint_wf (le_combine l).
Proof. intros Hl. rw /uint_wf -Hl. apply le_combine_bound. Qed.

Lemma uint_of_to x : uint_wf x → le_combine (le_split n x) = x.
Proof.
  rw /uint_wf => Hx. rw le_combine_split Z.mod_small //.
  by rw Z.mul_comm.
Qed.

Lemma uint_to_of l : length l = n → le_split n (le_combine l) = l.
Proof. apply split_le_combine'. Qed.

(** The little-endian view of an [n]-byte unsigned integer. *)
Definition pod_uint : pod Z :=
  Pod n uint_wf (le_split n) le_combine
    uint_to_length uint_of_wf uint_of_to uint_to_of.
End uint.

Abbreviation pod_u8 := (pod_uint 1).
Abbreviation pod_u16 := (pod_uint 2).
Abbreviation pod_u32 := (pod_uint 4).
Abbreviation pod_u64 := (pod_uint 8).

(** ** Raw bytes: [[u8; n]] *)

Program Definition pod_bytes (n : nat) : pod (list byte) :=
  Pod n (λ l, length l = n) id id _ _ _ _.
Solve All Obligations with done.

(** ** Consecutive fields *)

Section pair.
Context {A B : Type} (p : pod A) (q : pod B).

Definition pair_wf (ab : A * B) : Prop := pwf p ab.1 ∧ pwf q ab.2.
Definition pair_to (ab : A * B) : list byte := pto p ab.1 ++ pto q ab.2.
Definition pair_of (l : list byte) : A * B :=
  (pof p (take (psize p) l), pof q (drop (psize p) l)).

Lemma pair_to_length ab : pair_wf ab → length (pair_to ab) = (psize p + psize q)%nat.
Proof. intros []. rw /pair_to length_app !pto_length //. Qed.

Lemma pair_of_wf l : length l = (psize p + psize q)%nat → pair_wf (pair_of l).
Proof. intros Hl. split; apply pof_wf; len. Qed.

Lemma pair_of_to ab : pair_wf ab → pair_of (pair_to ab) = ab.
Proof.
  destruct ab as [a b]. intros [Ha Hb]. rw /pair_of /pair_to /=.
  rw take_app_length' ?pto_length // drop_app_length' ?pto_length //.
  by rw !pof_pto.
Qed.

Lemma pair_to_of l : length l = (psize p + psize q)%nat → pair_to (pair_of l) = l.
Proof.
  intros Hl. rw /pair_to /pair_of /= !pto_pof; [len|len|].
  apply take_drop.
Qed.

Definition pod_pair : pod (A * B) :=
  Pod (psize p + psize q) pair_wf pair_to pair_of
    pair_to_length pair_of_wf pair_of_to pair_to_of.
End pair.

(** ** Arrays: [[T; n]] *)

Section array.
Context {A : Type} (p : pod A).

Fixpoint array_of (n : nat) (l : list byte) : list A :=
  match n with
  | O => []
  | S n' => pof p (take (psize p) l) :: array_of n' (drop (psize p) l)
  end.
Definition array_to (xs : list A) : list byte := mjoin (pto p <$> xs).
Definition array_wf (n : nat) (xs : list A) : Prop := length xs = n ∧ Forall (pwf p) xs.

Lemma array_to_length n xs : array_wf n xs → length (array_to xs) = (n * psize p)%nat.
Proof.
  intros [<- Hxs]. induction Hxs as [|x xs Hx _ IH]; [done|].
  rw /array_to /= length_app pto_length // [length _ in X in (_ + X)%nat]IH. lia.
Qed.

Lemma array_of_length n l : length (array_of n l) = n.
Proof. revert l. induction n; intros; simpl; auto. Qed.

Lemma array_of_wf n l : length l = (n * psize p)%nat → array_wf n (array_of n l).
Proof.
  intros Hl. split; [apply array_of_length|].
  revert l Hl. induction n as [|n IH]; intros l Hl; simpl; constructor.
  - apply pof_wf. len.
  - apply IH. len.
Qed.

Lemma array_of_to n xs : array_wf n xs → array_of n (array_to xs) = xs.
Proof.
  intros [<- Hxs]. induction Hxs as [|x xs Hx _ IH]; [done|]; simpl.
  rw take_app_length' ?pto_length // drop_app_length' ?pto_length //.
  by rw pof_pto // IH.
Qed.

Lemma array_to_of n l : length l = (n * psize p)%nat → array_to (array_of n l) = l.
Proof.
  revert l. induction n as [|n IH]; intros l Hl.
  - by destruct l.
  - rw /array_to /= pto_pof; [len|].
    rw [mjoin _]IH; [len|]. apply take_drop.
Qed.

Definition pod_array (n : nat) : pod (list A) :=
  Pod (n * psize p) (array_wf n) array_to (array_of n)
    (array_to_length n) (array_of_wf n) (array_of_to n) (array_to_of n).

(** Indexing an array view is reading the element's bytes. *)
Lemma array_of_lookup n l i :
  (i < n)%nat → array_of n l !! i = Some (pof p (slice (i * psize p) (psize p) l)).
Proof.
  revert l i. induction n as [|n IH]; intros l i Hi; [lia|].
  destruct i as [|i]; simpl; [by rw /slice|].
  rw IH; [lia|]. by rw /slice drop_drop Nat.add_comm.
Qed.

(** Updating an element of an array view is splicing the element's bytes. *)
Lemma array_to_insert n xs i x :
  array_wf n xs → (i < n)%nat → pwf p x →
  array_to (<[i := x]> xs) = splice (i * psize p) (pto p x) (array_to xs).
Proof.
  intros [<- Hxs] Hi Hx. revert i Hi. rw /splice pto_length //.
  induction Hxs as [|y xs Hy Hxs IH]; intros i Hi; [simpl in Hi; lia|].
  destruct i as [|i].
  - simpl. rw /array_to /= drop_app_length' ?pto_length //; lia.
  - rw /array_to /= -/(array_to xs) -/(array_to (<[i:=x]> xs)).
    rw IH; [simpl in Hi; lia|].
    rw take_app_ge pto_length //; [lia|]. rw drop_app_ge pto_length //; [lia|].
    rw app_assoc -!app_assoc. do 2 f_equal; [f_equal; lia|].
    do 2 f_equal. lia.
Qed.
End array.

(** ** Structs: a codec transported along a bijection *)

Section iso.
Context {A B : Type} (p : pod A) (f : A → B) (g : B → A).
Context (gf : ∀ a, g (f a) = a) (fg : ∀ b, f (g b) = b).

Program Definition pod_iso : pod B :=
  Pod (psize p) (λ b, pwf p (g b)) (λ b, pto p (g b)) (λ l, f (pof p l)) _ _ _ _.
Next Obligation. intros. by apply pto_length. Qed.
Next Obligation. intros. simpl. rw gf. by apply pof_wf. Qed.
Next Obligation. intros. simpl. by rw pof_pto. Qed.
Next Obligation. intros. simpl. rw gf. by apply pto_pof. Qed.
End iso.

(** ** In-place access to a field of a larger buffer *)

(** [buf.as_data_view().get::<T>(off)]. *)
Definition pod_get {A} (p : pod A) (off : nat) (buf : list byte) : A :=
  pof p (slice off (psize p) buf).
(** [*buf.as_data_view_mut().get_mut::<T>(off) = x]. *)
Definition pod_set {A} (p : pod A) (off : nat) (x : A) (buf : list byte) : list byte :=
  splice off (pto p x) buf.

Section access.
Context {A : Type} (p : pod A).
Implicit Types (buf : list byte) (x : A).

Lemma pod_set_length off x buf :
  pwf p x → (off + psize p ≤ length buf)%nat → length (pod_set p off x buf) = length buf.
Proof. intros. apply splice_length. by rw pto_length. Qed.

Lemma pod_get_set off x buf :
  pwf p x → (off + psize p ≤ length buf)%nat → pod_get p off (pod_set p off x buf) = x.
Proof.
  intros Hx Hl. rw /pod_get /pod_set -{1}(pto_length p x) //.
  rw slice_splice ?pto_length //. by apply pof_pto.
Qed.

Lemma pod_get_wf off buf :
  (off + psize p ≤ length buf)%nat → pwf p (pod_get p off buf).
Proof. intros. apply pof_wf. by apply slice_length. Qed.

Lemma pod_set_get off buf :
  (off + psize p ≤ length buf)%nat → pod_set p off (pod_get p off buf) buf = buf.
Proof.
  intros. rw /pod_get /pod_set pto_pof; [by apply slice_length|].
  by apply splice_slice.
Qed.

Lemma pod_get_set_ne {B} (q : pod B) off x buf off' :
  pwf p x → (off + psize p ≤ length buf)%nat →
  (off' + psize q ≤ off ∨ off + psize p ≤ off')%nat →
  pod_get q off' (pod_set p off x buf) = pod_get q off' buf.
Proof.
  intros. rw /pod_get /pod_set slice_splice_ne ?pto_length //.
Qed.
End access.

#[export] Hint Resolve pto_length pof_wf pod_get_wf : ov6.
