(* ===== verification/PageAlloc.v ===== *)
(** * Page frames

    Model of [crates/kernel/page_alloc/src/page_frame_allocator.rs] and of
    [crates/kernel/ov6_kernel/src/memory/page_allocator.rs].

    Physical memory is a map from the address of a page to its bytes.  The free list
    lives in the free pages themselves: the first word of a free page is the address of
    the next one, and zero at the end, as [Option<NonNull<Run>>] is laid out.  The
    theorems relate the linked list to a list of pages. *)

From S2P Require Import Prelude Pod.

Section page_frames.
Context (PAGE_SIZE : Z).

(** [PageFrameAllocator] with the memory it manages. *)
Record Frames := {
  heap_start : Z;
  heap_end : Z;
  free_list : option Z;
  total_pages : Z;
  free_pages : Z;
  memory : gmap Z (list byte);
}.

Definition set_free_list (o : option Z) (f : Frames) : Frames :=
  {| heap_start := heap_start f; heap_end := heap_end f; free_list := o; total_pages := total_pages f;
     free_pages := free_pages f; memory := memory f |}.
Definition add_free_pages (n : Z) (f : Frames) : Frames :=
  {| heap_start := heap_start f; heap_end := heap_end f; free_list := free_list f; total_pages := total_pages f;
     free_pages := wrap 64 (free_pages f + n); memory := memory f |}.
Definition set_memory (m : gmap Z (list byte)) (f : Frames) : Frames :=
  {| heap_start := heap_start f; heap_end := heap_end f; free_list := free_list f; total_pages := total_pages f;
     free_pages := free_pages f; memory := m |}.

(** [Option<NonNull<Run>>] as a word. *)
Definition run_word (o : option Z) : list byte := pto pod_u64 (default 0 o).
Definition run_of (b : list byte) : option Z :=
  let a := pof pod_u64 (take 8 b) in
  if a =? 0 then None else Some a.

(** [run.as_ref().next] and [run.as_mut().next = o]; memory outside of the pages is not
    accessible. *)
Definition read_next (p : Z) : M Frames (option Z) :=
  b ← gets (λ f, memory f !! p);
  b ← unwrap b;
  mret (run_of b).
Definition write_page (p : Z) (g : list byte → list byte) : M Frames unit :=
  f ← get;
  b ← unwrap (memory f !! p);
  put (set_memory (<[p := g b]> (memory f)) f).
Definition write_next (p : Z) (o : option Z) : M Frames unit := write_page p (splice 0 (run_word o)).
(** [write_bytes]. *)
Definition fill_page (p : Z) (x : byte) : M Frames unit :=
  write_page p (λ _, replicate (Z.to_nat PAGE_SIZE) x).

(** The loop of [new]. *)
Fixpoint new_loop (fuel : nat) (p : Z) : M Frames unit :=
  f ← get;
  if p >? heap_start f then
    match fuel with
    | O => panic
    | S fuel' =>
        let p := p - PAGE_SIZE in
        write_next p (free_list f);;
        modify (λ f, {| heap_start := heap_start f; heap_end := heap_end f; free_list := Some p;
          total_pages := total_pages f + 1; free_pages := free_pages f; memory := memory f |});;
        new_loop fuel' p
    end
  else mret tt.

Definition frames_new (start stop : Z) : M Frames unit :=
  assert_ (start mod PAGE_SIZE =? 0);;
  assert_ (stop mod PAGE_SIZE =? 0);;
  modify (λ f, {| heap_start := start; heap_end := stop; free_list := None; total_pages := 0; free_pages := 0;
    memory := memory f |});;
  new_loop (Z.to_nat ((stop - start) / PAGE_SIZE)) stop;;
  modify (λ f, {| heap_start := heap_start f; heap_end := heap_end f; free_list := free_list f;
    total_pages := total_pages f; free_pages := total_pages f; memory := memory f |}).

(** [is_allocated_pointer]. *)
Definition in_heap (p : Z) (f : Frames) : bool := (heap_start f <=? p) && (p <? heap_end f).
Definition is_allocated_pointer (p : Z) (f : Frames) : bool := (p mod PAGE_SIZE =? 0) && in_heap p f.

(** [alloc]. *)
Definition frame_alloc : M Frames (option Z) :=
  o ← gets free_list;
  match o with
  | None => mret None
  | Some p =>
      modify (set_free_list None);;
      next ← read_next p;
      modify (set_free_list next);;
      modify (add_free_pages (-1));;
      mret (Some p)
  end.

(** [alloc_zeroed]. *)
Definition frame_alloc_zeroed : M Frames (option Z) :=
  o ← frame_alloc;
  match o with
  | None => mret None
  | Some p => fill_page p Byte.x00;; mret (Some p)
  end.

(** [free]. *)
Definition frame_free (p : Z) : M Frames unit :=
  f ← get;
  assert_ (in_heap p f);;
  assert_ (p mod PAGE_SIZE =? 0);;
  write_next p (free_list f);;
  modify (set_free_list (Some p));;
  modify (add_free_pages 1).
End page_frames.

(** ** The free list *)

(** The pages of a linked list. *)
Fixpoint chain (m : gmap Z (list byte)) (o : option Z) (l : list Z) : Prop :=
  match l with
  | [] => o = None
  | p :: l' => o = Some p ∧ ∃ b, m !! p = Some b ∧ chain m (run_of b) l'
  end.

Lemma chain_frame m m' o l : (∀ p, p ∈ l → m' !! p = m !! p) → chain m o l → chain m' o l.
Proof.
  revert o. induction l as [|p l IH]; intros o Hm; [done|]. intros (-> & b & Hb & Hc). split; [done|].
  exists b. rw Hm; [left|]. split; [done|]. apply IH; [|done]. intros q Hq. apply Hm. by right.
Qed.

Lemma chain_head m o l : chain m o l → o = head l.
Proof. destruct l; simpl; naive_solver. Qed.

Lemma run_word_length o : (∀ p, o = Some p → 0 < p < 2 ^ 64) → length (run_word o) = 8%nat.
Proof.
  intros Ho. apply (pto_length pod_u64). destruct o as [p|]; [|done]. destruct (Ho p eq_refl). split; simpl; lia.
Qed.

Lemma run_of_word o b :
  (∀ p, o = Some p → 0 < p < 2 ^ 64) → (8 ≤ length b)%nat → run_of (splice 0 (run_word o) b) = o.
Proof.
  intros Ho Hb. assert (0 ≤ default 0 o < 2 ^ 64) as Hd.
  { destruct o as [p|]; simpl; [|lia]. pose proof (Ho p eq_refl). lia. }
  pose proof (run_word_length o Ho) as Hl.
  rw /run_of. pose proof (slice_splice 0 (run_word o) b ltac:(lia)) as Hs. rw /slice drop_0 Hl in Hs. rw Hs.
  rw /run_word (pof_pto pod_u64 _ Hd). destruct o as [p|]; [|done]. simpl.
  pose proof (Ho p eq_refl). case: Z.eqb_spec; [lia|done].
Qed.

Section frames_inv.
Context (PAGE_SIZE : Z) (HP : 8 ≤ PAGE_SIZE).

Definition heap_page (f : Frames) (p : Z) : Prop := heap_start f ≤ p < heap_end f ∧ p mod PAGE_SIZE = 0.
#[export] Instance heap_page_dec f p : Decision (heap_page f p).
Proof. apply and_dec; apply _. Defined.

(** [l] are the free pages. *)
Record frames_inv (l : list Z) (f : Frames) : Prop := {
  fi_range : 0 < heap_start f ∧ heap_start f ≤ heap_end f < 2 ^ 64;
  fi_aligned : heap_start f mod PAGE_SIZE = 0 ∧ heap_end f mod PAGE_SIZE = 0;
  fi_pages : ∀ p, heap_page f p → ∃ b, memory f !! p = Some b ∧ length b = Z.to_nat PAGE_SIZE;
  fi_free : ∀ p, p ∈ l → heap_page f p;
  fi_nodup : NoDup l;
  fi_chain : chain (memory f) (free_list f) l;
  fi_count : free_pages f = Z.of_nat (length l);
  fi_total : total_pages f = (heap_end f - heap_start f) / PAGE_SIZE;
}.

Lemma heap_page_addr l f p : frames_inv l f → heap_page f p → 0 < p < 2 ^ 64.
Proof. intros Hf [Hp _]. destruct (fi_range _ _ Hf). lia. Qed.

(** The number of pages in the heap bounds every set of them. *)
Lemma heap_pages_bound f l :
  0 < heap_start f ≤ heap_end f → heap_start f mod PAGE_SIZE = 0 → heap_end f mod PAGE_SIZE = 0 →
  NoDup l → (∀ p, p ∈ l → heap_page f p) → Z.of_nat (length l) ≤ (heap_end f - heap_start f) / PAGE_SIZE.
Proof.
  intros Hr Ea Eb Hnd Hl. set (n := (heap_end f - heap_start f) / PAGE_SIZE).
  assert (0 ≤ n) as Hn by (apply Z.div_pos; lia).
  assert (∀ p, p mod PAGE_SIZE = 0 → p - heap_start f = PAGE_SIZE * ((p - heap_start f) / PAGE_SIZE)) as Hdiv.
  { intros p Ep. apply Z_div_exact_full_2; [lia|]. by rw Zminus_mod Ep Ea. }
  assert ((λ p, (p - heap_start f) / PAGE_SIZE) <$> l ⊆+ seqZ 0 n) as Hsub.
  { apply NoDup_submseteq.
    - apply (NoDup_fmap_2_strong _ l); [|done]. intros p q Hp%Hl Hq%Hl E.
      destruct Hp as [_ Hp%Hdiv], Hq as [_ Hq%Hdiv]. nia.
    - intros x (p & -> & Hp%Hl)%list_elem_of_fmap. apply elem_of_seqZ. destruct Hp as [Hp _].
      split; [apply Z.div_pos; lia|]. apply Z.div_lt_upper_bound; [lia|]. pose proof (Hdiv _ Eb) as Hd. fold n in Hd. lia. }
  apply submseteq_length in Hsub. rw length_fmap length_seqZ in Hsub. lia.
Qed.

(** Counting pages stays below the end of [usize]. *)
Lemma frames_count l f l' :
  frames_inv l f → NoDup l' → (∀ p, p ∈ l' → heap_page f p) → Z.of_nat (length l') < 2 ^ 64.
Proof.
  intros Hf Hnd Hl. destruct (fi_range _ _ Hf) as [Hs He], (fi_aligned _ _ Hf) as [Ea Eb].
  pose proof (heap_pages_bound f l' ltac:(lia) Ea Eb Hnd Hl) as Hb.
  assert ((heap_end f - heap_start f) / PAGE_SIZE < 2 ^ 64); [|lia]. apply Z.div_lt_upper_bound; lia.
Qed.

(** Memory outside of the free list can change freely. *)
Lemma frames_memory l f m :
  frames_inv l f → (∀ p, p ∈ l → m !! p = memory f !! p) →
  (∀ p, heap_page f p → ∃ b, m !! p = Some b ∧ length b = Z.to_nat PAGE_SIZE) →
  frames_inv l (set_memory m f).
Proof. intros [] Hm Hp. split; try done. by apply (chain_frame (memory f)). Qed.

Lemma write_page_wp p g b (Q : unit → Frames → Prop) f :
  memory f !! p = Some b → Q tt (set_memory (<[p := g b]> (memory f)) f) → wp (write_page p g) Q f.
Proof. intros Hb HQ. rw /write_page. wp_steps. by apply (wp_unwrap _ b). Qed.

Lemma alloc_wp l f :
  frames_inv l f → wp frame_alloc (λ o f', o = head l ∧ frames_inv (tail l) f' ∧ memory f' = memory f ∧
    heap_start f' = heap_start f ∧ heap_end f' = heap_end f) f.
Proof.
  intros Hf. rw /frame_alloc. wp_steps. pose proof (fi_chain _ _ Hf) as Hc.
  destruct l as [|p l]; simpl in Hc; [by rw Hc; wp_step|]. destruct Hc as (-> & b & Hb & Hc).
  wp_steps. rw /read_next. wp_steps. apply (wp_unwrap _ b); [done|]. wp_steps. split_and!; [done| |done..].
  pose proof (frames_count _ _ _ Hf (fi_nodup _ _ Hf) (fi_free _ _ Hf)) as Hbound.
  destruct Hf as [????? _ Hn Htot]. apply NoDup_cons in fi_nodup0 as [Hnin Hnd]. split; simpl; try done.
  - intros q Hq. apply fi_free0. by right.
  - simpl in *. rw Hn wrap_small /=; lia.
Qed.

Lemma fill_page_wp l f p x :
  frames_inv l f → heap_page f p → p ∉ l →
  wp (fill_page PAGE_SIZE p x) (λ _ f', frames_inv l f' ∧ heap_start f' = heap_start f ∧ heap_end f' = heap_end f ∧
    memory f' = <[p := replicate (Z.to_nat PAGE_SIZE) x]> (memory f)) f.
Proof.
  intros Hf Hp Hn. destruct (fi_pages _ _ Hf p Hp) as (b & Hb & _). rw /fill_page.
  apply (write_page_wp _ _ b); [done|]. split_and!; [|done..]. apply frames_memory; [done| |].
  - intros q Hq. rw lookup_insert_ne //. congruence.
  - intros q Hq. destruct (decide (p = q)) as [->|Hne]; [rw lookup_insert_eq|rw lookup_insert_ne //; by apply Hf].
    eexists. split; [done|]. by len.
Qed.

Lemma free_wp l f p :
  frames_inv l f → heap_page f p → p ∉ l →
  wp (frame_free PAGE_SIZE p) (λ _ f', frames_inv (p :: l) f' ∧ heap_start f' = heap_start f ∧ heap_end f' = heap_end f ∧
    ∃ b, memory f' = <[p := b]> (memory f)) f.
Proof.
  intros Hf Hp Hn. destruct (fi_pages _ _ Hf p Hp) as (b & Hb & Hl). rw /frame_free. wp_step. wp_step. wp_step.
  destruct Hp as [Hp1 Hp2]. apply wp_assert; [rw /in_heap; lia|]. wp_step. apply wp_assert; [lia|]. wp_step.
  apply (write_page_wp _ _ b); [done|]. wp_steps.
  assert (∀ q, free_list f = Some q → 0 < q < 2 ^ 64) as Hfl.
  { intros q Hq. apply (heap_page_addr l f); [done|]. apply (fi_free _ _ Hf). pose proof (fi_chain _ _ Hf) as Hc.
    apply chain_head in Hc. rw Hc in Hq. by apply head_Some_elem_of in Hq. }
  assert (length (splice 0 (run_word (free_list f)) b) = Z.to_nat PAGE_SIZE) as Hlen.
  { rw splice_length // run_word_length //. lia. }
  split_and!; [|done..|by eexists].
  assert (NoDup (p :: l)) as Hnd' by by apply NoDup_cons; split; [|apply Hf].
  assert (∀ q, q ∈ p :: l → heap_page f q) as Hfree' by by intros q [->|Hq]%elem_of_cons; [|apply (fi_free _ _ Hf)].
  pose proof (frames_count _ _ _ Hf Hnd' Hfree') as Hbound.
  destruct Hf as [??? Hfree Hnd Hc Hcnt Htot]. split; simpl; try done.
  - intros q Hq. destruct (decide (p = q)) as [->|Hne]; [rw lookup_insert_eq; by eexists|rw lookup_insert_ne //; by apply fi_pages0].
  - split; [done|]. eexists. rw lookup_insert_eq. split; [done|]. rw run_of_word; [done|lia|].
    apply (chain_frame (memory f)); [|done]. intros q Hq. rw lookup_insert_ne //. congruence.
  - simpl in *. rw Hcnt wrap_small; lia.
Qed.

(** ** Construction *)

(** The pages from [start] on. *)
Definition pages_from (start : Z) (n : nat) : list Z := (λ i, start + Z.of_nat i * PAGE_SIZE) <$> seq 0 n.

Lemma pages_from_S start n : pages_from start (S n) = start :: pages_from (start + PAGE_SIZE) n.
Proof.
  rw /pages_from. change (seq 0 (S n)) with (0%nat :: seq 1 n). rw fmap_cons -fmap_S_seq -list_fmap_compose. f_equal; [lia|]. apply list_fmap_ext. intros i x _. simpl. lia.
Qed.

Lemma elem_of_pages_from start n p : p ∈ pages_from start n → ∃ i, (i < n)%nat ∧ p = start + Z.of_nat i * PAGE_SIZE.
Proof. intros (i & -> & Hi%elem_of_seq)%list_elem_of_fmap. exists i. split; [lia|done]. Qed.

Lemma pages_from_nodup start n : NoDup (pages_from start n).
Proof. apply NoDup_fmap_2; [|apply NoDup_seq]. intros i j. nia. Qed.

(** The pages above [p] are linked. *)
Record building (p : Z) (f : Frames) : Prop := {
  bl_range : 0 < heap_start f ∧ heap_start f ≤ p ≤ heap_end f ∧ heap_end f < 2 ^ 64;
  bl_pages : ∀ q, heap_page f q → ∃ b, memory f !! q = Some b ∧ length b = Z.to_nat PAGE_SIZE;
  bl_chain : ∃ n, chain (memory f) (free_list f) (pages_from p n) ∧ p + Z.of_nat n * PAGE_SIZE = heap_end f ∧
    total_pages f = Z.of_nat n;
}.

Lemma aligned_in start i : start mod PAGE_SIZE = 0 → (start + i * PAGE_SIZE) mod PAGE_SIZE = 0.
Proof. intros E. by rw Z_mod_plus_full. Qed.

Lemma new_loop_wp fuel p f :
  building p f → heap_start f mod PAGE_SIZE = 0 → p = heap_start f + Z.of_nat fuel * PAGE_SIZE →
  wp (new_loop PAGE_SIZE fuel p) (λ _ f', building (heap_start f') f' ∧ heap_start f' = heap_start f ∧ heap_end f' = heap_end f) f.
Proof.
  revert p f. induction fuel as [|fuel IH]; intros p f Hb Ha ->; simpl.
  - wp_step. wp_step. case: Z.gtb_spec => ?; [lia|].
    wp_step. rw Z.add_0_r in Hb. done.
  - wp_step. wp_step. case: Z.gtb_spec => ?; [|nia].
    destruct (bl_range _ _ Hb) as (H0 & H1 & H2).
    replace (heap_start f + Z.of_nat (S fuel) * PAGE_SIZE - PAGE_SIZE) with (heap_start f + Z.of_nat fuel * PAGE_SIZE) by lia.
    set (q := heap_start f + Z.of_nat fuel * PAGE_SIZE).
    assert (heap_page f q) as Hq by (split; [nia|by apply aligned_in]).
    destruct (bl_pages _ _ Hb q Hq) as (b & Hmb & Hlb), (bl_chain _ _ Hb) as (n & Hc & He & Ht).
    assert (∀ r, free_list f = Some r → 0 < r < 2 ^ 64) as Hfl.
    { intros r Hr. rw (chain_head _ _ _ Hc) in Hr. apply head_Some_elem_of, elem_of_pages_from in Hr as (i & Hi & ->). nia. }
    wp_step. apply (write_page_wp _ _ b); [exact Hmb|]. wp_steps. eapply wp_mono; [apply IH; [|done..]|done]. split; simpl; [nia| |].
    + intros r Hr. destruct (decide (q = r)) as [<-|Hne]; [rw lookup_insert_eq|rw lookup_insert_ne //; by apply (bl_pages _ _ Hb)].
      eexists. split; [done|]. rw splice_length // run_word_length //. lia.
    + exists (S n). rw pages_from_S. split_and!; [|lia..]. split; [done|]. eexists. rw lookup_insert_eq. split; [done|].
      rw run_of_word //; [lia|]. apply (chain_frame (memory f)).
      { intros r (i & Hi & ->)%elem_of_pages_from. rw lookup_insert_ne //. subst q. nia. }
      by replace (q + PAGE_SIZE) with (heap_start f + Z.of_nat (S fuel) * PAGE_SIZE) by lia.
Qed.

Lemma new_wp start stop f :
  0 < start ≤ stop → stop < 2 ^ 64 → start mod PAGE_SIZE = 0 → stop mod PAGE_SIZE = 0 →
  (∀ p, start ≤ p < stop → p mod PAGE_SIZE = 0 → ∃ b, memory f !! p = Some b ∧ length b = Z.to_nat PAGE_SIZE) →
  wp (frames_new PAGE_SIZE start stop) (λ _ f', heap_start f' = start ∧ heap_end f' = stop ∧
    frames_inv (pages_from start (Z.to_nat ((stop - start) / PAGE_SIZE))) f') f.
Proof.
  intros Hr Hs Ea Eb Hm. rw /frames_new. wp_step. apply wp_assert; [lia|]. wp_step. apply wp_assert; [lia|].
  wp_steps. set (n := Z.to_nat ((stop - start) / PAGE_SIZE)).
  assert (stop = start + Z.of_nat n * PAGE_SIZE) as Estop.
  { subst n. rw Z2Nat.id; [apply Z.div_pos; lia|]. pose proof (Z_div_exact_full_2 (stop - start) PAGE_SIZE ltac:(lia)) as Hd.
    rw Zminus_mod Ea Eb // in Hd. specialize (Hd eq_refl). lia. }
  eapply wp_mono; [apply new_loop_wp; [|done..]; split; simpl; [lia| |]|].
  - intros q [??]. by apply Hm.
  - exists 0%nat. split_and!; [done|lia|done].
  - intros _ f' (Hb & E1 & E2). simpl in *. wp_steps. split_and!; [done..|].
    destruct (bl_chain _ _ Hb) as (n' & Hc & He & Ht). assert (n' = n) as -> by nia. rw E1 in Hc. rw E1 E2 in He.
    destruct (bl_range _ _ Hb) as (H0 & H1 & H2). split; simpl.
    + split; [done|lia].
    + by rw E1 E2.
    + apply (bl_pages _ _ Hb).
    + intros p (k & Hk & ->)%elem_of_pages_from. rw /heap_page /= E1 E2. split; [nia|by apply aligned_in].
    + apply pages_from_nodup.
    + done.
    + rw Ht /pages_from length_fmap length_seq //.
    + rw Ht E1 E2. rw [in RHS]Estop. replace (start + Z.of_nat n * PAGE_SIZE - start) with (Z.of_nat n * PAGE_SIZE) by lia. rw Z.div_mul //. lia.
Qed.

(** ** Exclusive pages

    The clients of the allocator hold pages and write to them; the abstract state is
    the contents of the pages that are held. *)

Abbreviation Held := (gmap Z (list byte)).

Inductive fstep : Held * Frames → Held * Frames → Prop :=
  | step_alloc held f p b f' :
      frame_alloc f = Ret (Some p) f' → memory f !! p = Some b → fstep (held, f) (<[p := b]> held, f')
  | step_alloc_zeroed held f p f' :
      frame_alloc_zeroed PAGE_SIZE f = Ret (Some p) f' → fstep (held, f) (<[p := zeroes (Z.to_nat PAGE_SIZE)]> held, f')
  | step_free held f p b f' :
      held !! p = Some b → frame_free PAGE_SIZE p f = Ret tt f' → fstep (held, f) (delete p held, f')
  | step_write held f p b g f' :
      held !! p = Some b → length (g b) = Z.to_nat PAGE_SIZE → write_page p g f = Ret tt f' →
      fstep (held, f) (<[p := g b]> held, f').

Record held_inv (held : Held) (f : Frames) (l : list Z) : Prop := {
  hi_frames : frames_inv l f;
  hi_free : ∀ p, p ∈ l → held !! p = None;
  hi_held : ∀ p b, held !! p = Some b → heap_page f p ∧ memory f !! p = Some b;
  hi_all : ∀ p, heap_page f p → p ∈ l ∨ is_Some (held !! p);
}.

Lemma held_alloc held f l :
  held_inv held f l →
  wp frame_alloc (λ o f', heap_start f' = heap_start f ∧ heap_end f' = heap_end f ∧ match o with
    | Some p => held !! p = None ∧ heap_page f p ∧ ∀ b, memory f !! p = Some b → held_inv (<[p := b]> held) f' (tail l)
    | None => (∀ p, heap_page f p → is_Some (held !! p)) ∧ held_inv held f' l
    end) f.
Proof.
  intros Hi. eapply wp_mono; [apply (alloc_wp l), Hi|]. intros o f' (-> & Hf' & Em & Es & Ee).
  split; [done|]. split; [done|]. destruct l as [|p l]; simpl in *.
  - split; [intros p Hp; destruct (hi_all _ _ _ Hi p Hp); set_solver|].
    split; [done|set_solver| |]; intros p; rw /heap_page Es Ee ?Em; apply Hi.
  - pose proof (fi_nodup _ _ (hi_frames _ _ _ Hi)) as [Hn _]%NoDup_cons.
    split; [apply (hi_free _ _ _ Hi); left|]. split; [apply (hi_frames _ _ _ Hi); left|].
    intros b Hb. split; [done| | |].
    + intros q Hq. rw lookup_insert_ne; [congruence|]. apply (hi_free _ _ _ Hi). by right.
    + intros q c [[<- <-]|[_ Hc]]%lookup_insert_Some; rw /heap_page Es Ee Em.
      * split; [|done]. apply (fi_free _ _ (hi_frames _ _ _ Hi)). left.
      * by apply (hi_held _ _ _ Hi).
    + intros q Hq. rw lookup_insert_is_Some'. rw /heap_page Es Ee in Hq.
      destruct (hi_all _ _ _ Hi q Hq) as [[->|?]%elem_of_cons|?]; [right; by left|by left|right; by right].
Qed.

(** Writing to a page that is held. *)
Lemma held_update held f l p b b' :
  held_inv held f l → held !! p = Some b → length b' = Z.to_nat PAGE_SIZE →
  held_inv (<[p := b']> held) (set_memory (<[p := b']> (memory f)) f) l.
Proof.
  intros Hi Hb Hl. assert (p ∉ l) as Hn by (intros Hp%(hi_free _ _ _ Hi); congruence). split.
  - apply frames_memory; [apply Hi| |].
    + intros q Hq. rw lookup_insert_ne //. congruence.
    + intros q Hq. destruct (decide (p = q)) as [->|?]; [rw lookup_insert_eq; by eexists|].
      rw lookup_insert_ne //. by apply (hi_frames _ _ _ Hi).
  - intros q Hq. rw lookup_insert_ne; [congruence|]. by apply (hi_free _ _ _ Hi).
  - intros q c [[<- <-]|[Hne Hc]]%lookup_insert_Some; simpl.
    + rw lookup_insert_eq. split; [|done]. by apply (hi_held _ _ _ Hi p b).
    + rw lookup_insert_ne //. by apply (hi_held _ _ _ Hi).
  - intros q Hq. rw lookup_insert_is_Some'. destruct (hi_all _ _ _ Hi q Hq); [by left|right; by right].
Qed.

Lemma held_alloc_zeroed held f l :
  held_inv held f l →
  wp (frame_alloc_zeroed PAGE_SIZE) (λ o f', heap_start f' = heap_start f ∧ heap_end f' = heap_end f ∧ match o with
    | Some p => held !! p = None ∧ heap_page f p ∧ held_inv (<[p := zeroes (Z.to_nat PAGE_SIZE)]> held) f' (tail l)
    | None => (∀ p, heap_page f p → is_Some (held !! p)) ∧ held_inv held f' l
    end) f.
Proof.
  intros Hi. rw /frame_alloc_zeroed. wp_step. eapply wp_mono; [apply (held_alloc _ _ _ Hi)|].
  intros [p|] f' (Es & Ee & H); [|by wp_step]. destruct H as (Hn & Hp & H).
  destruct (fi_pages _ _ (hi_frames _ _ _ Hi) p Hp) as (b & Hb & Hl). specialize (H b Hb).
  assert ((<[p := b]> held : Held) !! p = Some b) as Hpb by apply lookup_insert_eq.
  destruct (hi_held _ _ _ H p b Hpb) as [_ Hm].
  wp_step. apply (write_page_wp _ _ b); [done|]. wp_step. split_and!; [done..|].
  rw -(insert_insert_eq held p (zeroes _) b). apply (held_update _ _ _ p b); [done..|by rw zeroes_length].
Qed.

Lemma held_free held f l p b :
  held_inv held f l → held !! p = Some b →
  wp (frame_free PAGE_SIZE p) (λ _ f', heap_start f' = heap_start f ∧ heap_end f' = heap_end f ∧
    held_inv (delete p held) f' (p :: l)) f.
Proof.
  intros Hi Hb. assert (p ∉ l) as Hn by (intros Hp%(hi_free _ _ _ Hi); congruence).
  destruct (hi_held _ _ _ Hi p b Hb) as [Hp _].
  eapply wp_mono; [by apply (free_wp l); [apply Hi|..]|]. intros _ f' (Hf & Es & Ee & c & Em).
  split; [done|]. split; [done|]. split; [done| | |].
  - intros q [->|Hq]%elem_of_cons; [apply lookup_delete_eq|]. rw lookup_delete_ne; [congruence|]. by apply (hi_free _ _ _ Hi).
  - intros q d [Hne Hd]%lookup_delete_Some. rw /heap_page Es Ee Em lookup_insert_ne //. by apply (hi_held _ _ _ Hi).
  - intros q Hq. rw /heap_page Es Ee in Hq. destruct (decide (p = q)) as [->|Hne]; [left; left|]. rw lookup_delete_ne //.
    destruct (hi_all _ _ _ Hi q Hq); [left; by right|by right].
Qed.

(** The states after [new]. *)
Definition freachable (held : Held) (f : Frames) : Prop :=
  ∃ start stop f0 f1, 0 < start ≤ stop ∧ stop < 2 ^ 64 ∧
    (∀ p, start ≤ p < stop → p mod PAGE_SIZE = 0 → ∃ b, memory f0 !! p = Some b ∧ length b = Z.to_nat PAGE_SIZE) ∧
    frames_new PAGE_SIZE start stop f0 = Ret tt f1 ∧ rtc fstep (∅, f1) (held, f).

Lemma fstep_inv held f held' f' l :
  held_inv held f l → fstep (held, f) (held', f') → ∃ l', held_inv held' f' l'.
Proof.
  intros Hi Hs. inversion Hs as [? ? p b ? Ha Hb|? ? p ? Ha|? ? p b ? Hb Ha|? ? p b g ? Hb Hl Ha]; subst.
  - pose proof (wp_ret_inv _ _ _ _ _ (held_alloc _ _ _ Hi) Ha) as (_ & _ & _ & _ & H). exists (tail l). by apply H.
  - pose proof (wp_ret_inv _ _ _ _ _ (held_alloc_zeroed _ _ _ Hi) Ha) as (_ & _ & _ & _ & H). by exists (tail l).
  - pose proof (wp_ret_inv _ _ _ _ _ (held_free _ _ _ _ _ Hi Hb) Ha) as (_ & _ & ?). by exists (p :: l).
  - destruct (hi_held _ _ _ Hi p b Hb) as [_ Hm]. exists l.
    assert (f' = set_memory (<[p := g b]> (memory f)) f) as ->.
    { revert Ha. rw /write_page /mbind /M_bind /get Hm /=. by intros [= <-]. }
    by apply (held_update _ _ _ p b).
Qed.

Lemma elem_of_heap_pages l f p :
  frames_inv l f → p ∈ pages_from (heap_start f) (Z.to_nat (total_pages f)) ↔ heap_page f p.
Proof.
  intros Hf. destruct (fi_range _ _ Hf) as [Hs He], (fi_aligned _ _ Hf) as [Ea Eb]. rw (fi_total _ _ Hf).
  pose proof (Z_div_exact_full_2 (heap_end f - heap_start f) PAGE_SIZE ltac:(lia) ltac:(by rw Zminus_mod Eb Ea)) as Hd.
  assert (0 ≤ (heap_end f - heap_start f) / PAGE_SIZE) by (apply Z.div_pos; lia). split.
  - intros (i & Hi & ->)%elem_of_pages_from. split; [nia|by apply aligned_in].
  - intros [Hp Ep]. assert (0 ≤ (p - heap_start f) / PAGE_SIZE) by (apply Z.div_pos; lia).
    pose proof (Z_div_exact_full_2 (p - heap_start f) PAGE_SIZE ltac:(lia) ltac:(by rw Zminus_mod Ep Ea)) as Hd'.
    apply list_elem_of_fmap. exists (Z.to_nat ((p - heap_start f) / PAGE_SIZE)). split; [rw Z2Nat.id //; lia|].
    apply elem_of_seq. nia.
Qed.

Lemma freachable_inv held f : freachable held f → ∃ l, held_inv held f l.
Proof.
  intros (start & stop & f0 & f1 & Hr & Hs & Hm & Hn & Hsteps).
  assert (start mod PAGE_SIZE = 0 ∧ stop mod PAGE_SIZE = 0) as [Ea Eb].
  { revert Hn. rw /frames_new /mbind /M_bind /assert_. do 2 (case: Z.eqb_spec => // ?). }
  pose proof (wp_ret_inv _ _ _ _ _ (new_wp start stop f0 Hr Hs Ea Eb Hm) Hn) as (E1 & E2 & Hf).
  assert (∃ l, held_inv ∅ f1 l) as Hinit.
  { eexists. split; [exact Hf|set_solver|set_solver|]. intros p Hp%(elem_of_heap_pages _ _ _ Hf). left.
    by rw (fi_total _ _ Hf) E1 E2 in Hp. }
  revert Hinit. refine (rtc_ind_r (λ s, (∃ l, held_inv ∅ f1 l) → ∃ l, held_inv s.1 s.2 l) (∅, f1) id _ (held, f) Hsteps).
  intros [h g] [h' g'] _ Hst IH [l Hl]%IH. by apply (fstep_inv h g h' g' l).
Qed.

Lemma held_count held f l : held_inv held f l → Z.of_nat (length l) + Z.of_nat (size held) = total_pages f.
Proof.
  intros Hi. pose proof (hi_frames _ _ _ Hi) as Hf.
  assert (0 ≤ total_pages f) by (rw (fi_total _ _ Hf); pose proof (fi_range _ _ Hf); apply Z.div_pos; lia).
  assert (l ++ (map_to_list held).*1 ≡ₚ pages_from (heap_start f) (Z.to_nat (total_pages f))) as Hp.
  { apply NoDup_Permutation; [|apply pages_from_nodup|].
    - apply NoDup_app. split_and!; [apply Hf| |apply NoDup_fst_map_to_list].
      intros p Hp ([q b] & -> & Hb)%list_elem_of_fmap. apply elem_of_map_to_list in Hb.
      apply (hi_free _ _ _ Hi) in Hp. simpl in *. congruence.
    - intros p. rw (elem_of_heap_pages l f p Hf) elem_of_app. split.
      + intros [Hp|([q b] & -> & Hb)%list_elem_of_fmap]; [by apply Hf|]. apply elem_of_map_to_list in Hb. by apply (hi_held _ _ _ Hi q b).
      + intros [Hp|[b Hb]]%(hi_all _ _ _ Hi); [by left|right]. apply list_elem_of_fmap. exists (p, b).
        split; [done|]. by apply elem_of_map_to_list. }
  apply Permutation_length in Hp. rw length_app !length_fmap length_map_to_list length_seq in Hp. lia.
Qed.

(** Whatever the sequence of allocations, releases and writes to pages that are held:
    the pages that are held keep what was written to them, an allocation never panics,
    hands out a page that nobody holds, and fails only when every page of the heap is
    held; releasing a page that is held never panics, and the counter of free pages is
    the number of pages that are not held. *)
Theorem frames_exclusive held f :
  freachable held f →
  (∀ p b, held !! p = Some b → heap_page f p ∧ memory f !! p = Some b) ∧
  free_pages f = total_pages f - Z.of_nat (size held) ∧
  wp frame_alloc (λ o _, match o with
    | Some p => heap_page f p ∧ held !! p = None
    | None => Z.of_nat (size held) = total_pages f
    end) f ∧
  (∀ p, is_Some (held !! p) → wp (frame_free PAGE_SIZE p) (λ _ f', heap_page f' p) f).
Proof.
  intros [l Hi]%freachable_inv. split; [apply Hi|].
  pose proof (held_count _ _ _ Hi) as Hc. split; [rw (fi_count _ _ (hi_frames _ _ _ Hi)); lia|]. split.
  - eapply wp_mono; [apply (held_alloc _ _ _ Hi)|]. intros [p|] f' (_ & _ & H); [by destruct H as (? & ? & _)|]. destruct H as [Hall _].
    destruct l as [|p l]; [simpl in Hc; lia|]. exfalso.
    assert (held !! p = None) as Hp by (apply (hi_free _ _ _ Hi); left).
    destruct (Hall p) as [b ?]; [|congruence]. apply (hi_frames _ _ _ Hi). left.
  - intros p [b Hb]. eapply wp_mono; [apply (held_free _ _ _ _ _ Hi Hb)|]. intros [] f' (_ & _ & Hi').
    apply (hi_frames _ _ _ Hi'). left.
Qed.
End frames_inv.

Module Example.
(** Two pages of sixteen bytes, one of them allocated. *)
Definition raw : Frames := {|
  heap_start := 0; heap_end := 0; free_list := None; total_pages := 0; free_pages := 0;
  memory := {[16 := zeroes 16; 32 := zeroes 16]} |}.
Definition state_of {A} (o : outcome Frames A) : Frames := match o with Ret _ f => f | Panic => raw end.
Definition fresh : Frames := Eval vm_compute in state_of (frames_new 16 16 48 raw).
Definition one_held : Frames := Eval vm_compute in state_of (frame_alloc fresh).

Lemma frames_exclusive_witness :
  ∃ held : gmap Z (list byte), size held = 1%nat ∧ free_pages one_held = total_pages one_held - 1 ∧
    wp frame_alloc (λ o _, o = Some 32) one_held.
Proof.
  exists {[16 := pto pod_u64 32 ++ zeroes 8]}. split; [done|].
  destruct (frames_exclusive 16 ltac:(lia) {[16 := pto pod_u64 32 ++ zeroes 8]} one_held) as (_ & Hf & _ & _); [|split; [exact Hf|vm_compute; done]].
  exists 16, 48, raw, fresh. split_and!; [lia..| |vm_compute; done|].
  - intros p Hp Hm. pose proof (Z_div_mod_eq_full p 16). assert (p = 16 ∨ p = 32) as [->| ->] by lia; by eexists.
  - apply rtc_once, (step_alloc 16 ∅ fresh 16); vm_compute; done.
Defined.
End Example.
