(* ===== verification/Addr.v ===== *)
(** * Addresses

    Model of [crates/kernel/ov6_kernel/src/memory/mod.rs] and [memory/addr.rs]: pages,
    virtual and physical addresses, and the address ranges of references that come from
    user programs.  An address is a [usize]; a [VirtAddr] is at most [VA_MAX]. *)

From S2P Require Import Prelude KError SysTypes.

(** ** Pages *)

Definition PAGE_SIZE : Z := 4096.
Definition PAGE_SHIFT : Z := 12.

(** [level_page_size]; the levels of a page table are 0, 1 and 2. *)
Definition level_page_size (level : nat) : Z := wrap 64 (Z.shiftl PAGE_SIZE (Z.of_nat level * 9)).

Definition page_roundup (addr : Z) : Z := Z.ldiff (wrap 64 (addr + PAGE_SIZE - 1)) (PAGE_SIZE - 1).
Definition page_rounddown (addr : Z) : Z := Z.ldiff addr (PAGE_SIZE - 1).
Definition is_page_aligned (addr : Z) : bool := addr mod PAGE_SIZE =? 0.
Definition level_page_roundup (addr : Z) (level : nat) : Z :=
  let page_size := level_page_size level in
  Z.ldiff (wrap 64 (addr + page_size - 1)) (page_size - 1).
Definition level_page_rounddown (addr : Z) (level : nat) : Z :=
  let page_size := level_page_size level in
  Z.ldiff addr (page_size - 1).
Definition is_level_page_aligned (addr : Z) (level : nat) : bool := addr mod level_page_size level =? 0.

(** ** Virtual addresses *)

Definition VA_MAX : Z := Z.shiftl 1 (9 * 3 + PAGE_SHIFT - 1).
Definition MIN_AVA : Z := 4096.

Definition va_new (addr : Z) : result KernelError Z :=
  if addr >? VA_MAX then Err (TooLargeVirtualAddress addr) else Ok addr.

(** [PageRound] for [VirtAddr]; [None] is the panic of [from_addr]. *)
Definition va_from_addr (addr : Z) : option Z :=
  match va_new addr with
  | Ok va => Some va
  | Err _ => None
  end.

Definition level_shift (level : nat) : Z := 9 * Z.of_nat level + PAGE_SHIFT.
Definition with_level_idx (va : Z) (level : nat) (idx : Z) : Z :=
  let shift := level_shift level in
  let mask := Z.shiftl 0x1ff shift in
  Z.lor (Z.ldiff va mask) (Z.shiftl idx shift).
Definition level_idx (va : Z) (level : nat) : Z := Z.land (Z.shiftr va (level_shift level)) 0x1ff.

Definition va_byte_add (va offset : Z) : result KernelError Z :=
  match checked_add va offset with
  | Some addr => va_new addr
  | None => Err (TooLargeVirtualAddress U64_MAX)
  end.
Definition va_byte_sub (va offset : Z) : result KernelError Z :=
  match checked_sub va offset with
  | Some addr => va_new addr
  | None => Err VirtualAddressUnderflow
  end.

(** [RangeBounds]. *)
Inductive Bound := Included (va : Z) | Excluded (va : Z) | Unbounded.

Definition ok {E A} (r : result E A) : option A :=
  match r with
  | Ok a => Some a
  | Err _ => None
  end.

(** [VirtAddr::range_inclusive]. *)
Definition range_inclusive (start stop : Bound) : option (Z * Z) :=
  min_va ← match start with
           | Included va => Some va
           | Excluded va => ok (va_byte_add va 1)
           | Unbounded => Some 0
           end;
  max_va ← match stop with
           | Included va => Some va
           | Excluded va => ok (va_byte_sub va 1)
           | Unbounded => ok (va_byte_sub VA_MAX 1)
           end;
  if min_va >? max_va then None else Some (min_va, max_va).

(** ** Physical addresses *)

(** [PhysPageNum::phys_addr], [PhysAddr::phys_page_num] and [PhysAddr::byte_add]. *)
Definition ppn_addr (ppn : Z) : Z := wrap 64 (Z.shiftl ppn PAGE_SHIFT).
Definition phys_page_num (pa : Z) : Z := Z.shiftr pa PAGE_SHIFT.
Definition pa_byte_add (pa n : Z) : option Z := checked_add pa n.

(** ** Ranges of user references

    [TryAsVirtAddrRange]: the range of addresses, as start and end. *)

Definition va_range (addr size : Z) : result KernelError (Z * Z) :=
  match va_new addr with
  | Err e => Err e
  | Ok start =>
      match va_byte_add start size with
      | Err e => Err e
      | Ok stop => Ok (start, stop)
      end
  end.

Section user_ranges.
Context {T : Type} `{Layout T}.

Definition ref_va_range (r : UserRef T) : result KernelError (Z * Z) := va_range (ival (uref_addr r)) (size_of T).
Definition mut_ref_va_range (r : UserMutRef T) : result KernelError (Z * Z) := va_range (ival (umref_addr r)) (size_of T).
Definition slice_va_range (s : UserSlice T) : result KernelError (Z * Z) :=
  match slice_size s with
  | None => Err (TooLargeVirtualAddress U64_MAX)
  | Some size => va_range (ival (us_addr s)) size
  end.
Definition mut_slice_va_range (s : UserMutSlice T) : result KernelError (Z * Z) := slice_va_range (shared_of s).
End user_ranges.

(** ** Facts *)

Lemma ldiff_ones a n : 0 ≤ n → 0 ≤ a → Z.ldiff a (2 ^ n - 1) = a - a mod 2 ^ n.
Proof.
  intros Hn Ha. replace (2 ^ n - 1) with (Z.ones n) by (rw Z.ones_equiv; lia).
  rw Z.ldiff_ones_r // Z.shiftr_div_pow2 // Z.shiftl_mul_pow2 //.
  pose proof (Z_div_mod_eq_full a (2 ^ n)). lia.
Qed.

Lemma level_page_size_eq level : (level ≤ 2)%nat → level_page_size level = 2 ^ level_shift level.
Proof. intros Hl. by do 3 (destruct level as [|level]; [done|]); lia. Qed.

Lemma page_rounddown_eq a : 0 ≤ a → page_rounddown a = a - a mod PAGE_SIZE.
Proof. intros Ha. by apply (ldiff_ones a 12). Qed.

Lemma page_roundup_eq a : 0 ≤ a ≤ 2 ^ 64 - PAGE_SIZE → page_roundup a = (a + PAGE_SIZE - 1) / PAGE_SIZE * PAGE_SIZE.
Proof.
  intros Ha. change PAGE_SIZE with 4096 in *. rw /page_roundup wrap_small; [change PAGE_SIZE with 4096; lia|].
  change (PAGE_SIZE - 1) with (2 ^ 12 - 1). rw ldiff_ones //; [change PAGE_SIZE with 4096; lia|].
  change (2 ^ 12) with 4096. change PAGE_SIZE with 4096. pose proof (Z_div_mod_eq_full (a + 4096 - 1) 4096). lia.
Qed.

(** Rounding up gives the next multiple of the page size. *)
Lemma page_roundup_spec a :
  0 ≤ a ≤ 2 ^ 64 - PAGE_SIZE → page_roundup a mod PAGE_SIZE = 0 ∧ a ≤ page_roundup a < a + PAGE_SIZE.
Proof.
  intros Ha. rw page_roundup_eq //. change PAGE_SIZE with 4096 in *. rw Z_mod_mult. split; [done|].
  pose proof (Z_div_mod_eq_full (a + 4096 - 1) 4096). pose proof (Z.mod_pos_bound (a + 4096 - 1) 4096). lia.
Qed.

Lemma page_roundup_aligned a : 0 ≤ a ≤ 2 ^ 64 - PAGE_SIZE → a mod PAGE_SIZE = 0 → page_roundup a = a.
Proof.
  intros Ha Hm. destruct (page_roundup_spec a Ha) as [Hr Hb]. change PAGE_SIZE with 4096 in *.
  pose proof (Z_div_mod_eq_full a 4096). pose proof (Z_div_mod_eq_full (page_roundup a) 4096). lia.
Qed.

Lemma level_idx_eq va level : 0 ≤ va → level_idx va level = va / 2 ^ level_shift level mod 512.
Proof.
  intros Hv. rw /level_idx. change 0x1ff with (Z.ones 9). rw Z.land_ones // Z.shiftr_div_pow2 //. rw /level_shift /PAGE_SHIFT. lia.
Qed.

Lemma level_idx_bound va level : 0 ≤ va → 0 ≤ level_idx va level < 512.
Proof. intros Hv. rw level_idx_eq //. by apply Z.mod_pos_bound. Qed.

(** The indices of the three levels and the offset make up an address. *)
Lemma va_split va :
  0 ≤ va < 2 ^ 39 → va = level_idx va 2 * 2 ^ 30 + level_idx va 1 * 2 ^ 21 + level_idx va 0 * 2 ^ 12 + va mod PAGE_SIZE.
Proof.
  intros Hv. rw !level_idx_eq; [lia..|]. rw /level_shift /PAGE_SHIFT /PAGE_SIZE /=.
  change (2 ^ 30) with 1073741824. change (2 ^ 21) with 2097152. change (2 ^ 12) with 4096.
  Z.div_mod_to_equations. lia.
Qed.

Lemma va_new_Ok a va : va_new a = Ok va ↔ va = a ∧ a ≤ VA_MAX.
Proof. rw /va_new. case: Z.gtb_spec => ?; split; [done|lia|intros [= <-]; lia|by intros [-> _]]. Qed.

Lemma va_byte_add_Ok a n va :
  0 ≤ a → 0 ≤ n → va_byte_add a n = Ok va ↔ va = a + n ∧ a + n ≤ VA_MAX.
Proof.
  intros Ha Hn. rw /va_byte_add /checked_add. change VA_MAX with 274877906944. change U64_MAX with 18446744073709551615.
  case: Z.leb_spec => ?; [rw va_new_Ok; change VA_MAX with 274877906944; lia|]. split; [done|lia].
Qed.

Lemma va_range_Ok a n r :
  0 ≤ a → 0 ≤ n → va_range a n = Ok r ↔ r = (a, a + n) ∧ a + n ≤ VA_MAX.
Proof.
  intros Ha Hn. rw /va_range. destruct (va_new a) as [va|e] eqn:E.
  - apply va_new_Ok in E as [-> Hle]. destruct (va_byte_add a n) as [vb|e] eqn:E2.
    + apply va_byte_add_Ok in E2 as [-> Hb]; [|done..]. naive_solver.
    + split; [done|]. intros [-> Hb]. assert (va_byte_add a n = Ok (a + n)) by by apply va_byte_add_Ok. congruence.
  - split; [done|]. intros [-> Hb]. assert (va_new a = Ok a) by (apply va_new_Ok; lia). congruence.
Qed.

Section slices.
Context {T : Type} `{Layout T} (Hsize : 0 ≤ size_of T).
Implicit Types (s : UserSlice T).

Lemma slice_va_range_Ok s r :
  valid s → slice_va_range s = Ok r ↔
    r = (ival (us_addr s), ival (us_addr s) + ival (us_len s) * size_of T) ∧
    ival (us_addr s) + ival (us_len s) * size_of T ≤ VA_MAX.
Proof.
  intros [Ha%usize_bounds Hl%usize_bounds]. rw /slice_va_range /slice_size /checked_mul (Z.mul_comm (size_of T)).
  case: Z.leb_spec => Hle; [rw va_range_Ok //; [lia|nia]|]. split; [done|]. intros [_ Hb].
  change VA_MAX with 274877906944 in Hb. rw /U64_MAX in Hle. nia.
Qed.

Lemma slice_nth_range s a b n :
  valid s → slice_va_range s = Ok (a, b) → 0 ≤ n < ival (us_len s) →
  ∃ r, slice_nth s n = Some r ∧ ref_va_range r = Ok (a + n * size_of T, a + (n + 1) * size_of T).
Proof.
  intros Hv [[= -> ->] Hb]%slice_va_range_Ok Hn; [|done]. destruct Hv as [Ha%usize_bounds _].
  rw /slice_nth. case: Z.ltb_spec => ?; [|lia]. eexists. split; [done|]. rw /ref_va_range /usize /=.
  change VA_MAX with 274877906944 in Hb. rw wrap_small; [nia|]. apply va_range_Ok; [nia|done|].
  change VA_MAX with 274877906944. split; [f_equal; lia|nia].
Qed.

Lemma slice_skip_range s a b n :
  valid s → slice_va_range s = Ok (a, b) → 0 ≤ n ≤ ival (us_len s) →
  ∃ s', slice_skip s n = Some s' ∧ valid s' ∧ slice_va_range s' = Ok (a + n * size_of T, b).
Proof.
  intros Hv [[= -> ->] Hb]%slice_va_range_Ok Hn; [|done]. destruct Hv as [Ha%usize_bounds Hl%usize_bounds].
  rw /slice_skip. case: Z.leb_spec => ?; [|lia]. eexists. split; [done|].
  change VA_MAX with 274877906944 in Hb.
  assert (valid (USlice (usize (ival (us_addr s) + n * size_of T)) (Int (ival (us_len s) - n)) : UserSlice T)) as Hv'.
  { rw /usize wrap_small; [nia|]. split; apply usize_bounds; simpl; nia. }
  split; [done|]. apply slice_va_range_Ok; [done|]. rw /usize /= wrap_small; [nia|].
  change VA_MAX with 274877906944. split; [f_equal; lia|nia].
Qed.

Lemma slice_take_range s a b n :
  valid s → slice_va_range s = Ok (a, b) → 0 ≤ n ≤ ival (us_len s) →
  ∃ s', slice_take s n = Some s' ∧ valid s' ∧ slice_va_range s' = Ok (a, a + n * size_of T).
Proof.
  intros Hv [[= -> ->] Hb]%slice_va_range_Ok Hn; [|done]. destruct Hv as [Ha%usize_bounds Hl%usize_bounds].
  rw /slice_take. case: Z.leb_spec => ?; [|lia]. eexists. split; [done|].
  assert (valid (USlice (us_addr s) (Int n) : UserSlice T)) as Hv' by (split; apply usize_bounds; simpl; lia).
  split; [done|]. apply slice_va_range_Ok; [done|]. simpl. split; [done|nia].
Qed.

(** Arithmetic on a slice of user memory whose range of addresses was accepted never
    wraps around and never leaves the range: the elements are the consecutive pieces of
    it, and splitting the slice splits the range. *)
Theorem slice_in_range s a b n :
  valid s → slice_va_range s = Ok (a, b) → 0 ≤ n ≤ ival (us_len s) →
  0 ≤ a ≤ b ∧ b ≤ VA_MAX ∧ b = a + ival (us_len s) * size_of T ∧
  (∃ s1 s2, slice_take s n = Some s1 ∧ slice_va_range s1 = Ok (a, a + n * size_of T) ∧
     slice_skip s n = Some s2 ∧ slice_va_range s2 = Ok (a + n * size_of T, b)) ∧
  (n < ival (us_len s) →
     ∃ r, slice_nth s n = Some r ∧ ref_va_range r = Ok (a + n * size_of T, a + (n + 1) * size_of T)).
Proof.
  intros Hv Hr Hn. pose proof Hr as [[= -> ->] Hb]%slice_va_range_Ok; [|done].
  destruct (slice_take_range s _ _ n Hv Hr Hn) as (s1 & E1 & _ & R1), (slice_skip_range s _ _ n Hv Hr Hn) as (s2 & E2 & _ & R2).
  destruct Hv as [Ha%usize_bounds Hl%usize_bounds].
  split; [nia|]. split; [done|]. split; [done|]. split; [eauto 10|]. intros Hlt.
  eapply slice_nth_range; [by split; apply usize_bounds|exact Hr|lia].
Qed.
End slices.

Module Example.
#[local] Instance u32_layout : Layout (int U32) := {| size_of := 4; align_of := 4 |}.
Lemma slice_in_range_witness :
  ∃ r, slice_nth (USlice (Int 4096) (Int 10) : UserSlice (int U32)) 3 = Some r ∧ ref_va_range r = Ok (4108, 4112).
Proof.
  destruct (slice_in_range (T := int U32) (H := u32_layout) ltac:(vm_compute; discriminate) (USlice (Int 4096) (Int 10)) 4096 4136 3) as (_ & _ & _ & _ & H);
    [vm_compute; intuition discriminate|done|simpl; lia|]. apply H. simpl. lia.
Defined.
End Example.
