(* ===== verification/Pages.v ===== *)
(** * Reference counted pages

    Model of [crates/kernel/ov6_kernel/src/memory/page_manager.rs] and of
    [memory/page_allocator.rs] on top of the page frames: every page of the heap has a
    counter of its owners; [u32::MAX] marks a page that cannot be shared. *)

From S2P Require Import Prelude KError PageAlloc SysTypes Addr.

(** [PageManager]: the counters and the allocator. *)
Record Pages := {
  pg_refs : list Z;
  pg_frames : Frames;
}.
Definition set_refs (l : list Z) (s : Pages) : Pages := {| pg_refs := l; pg_frames := pg_frames s |}.
Definition on_frames {A} (m : M Frames A) : M Pages A :=
  zoom pg_frames (λ f s, {| pg_refs := pg_refs s; pg_frames := f |}) m.

(** ** [PageAllocator] *)

Definition free_page (pa : Z) : M Pages unit :=
  on_frames (fill_page PAGE_SIZE pa Byte.x01);;
  on_frames (frame_free PAGE_SIZE pa).
Definition alloc_page : M Pages (result KernelError Z) :=
  o ← on_frames frame_alloc;
  match o with
  | None => mret (Err NoFreePage)
  | Some p => on_frames (fill_page PAGE_SIZE p Byte.x05);; mret (Ok p)
  end.
Definition alloc_zeroed_page : M Pages (result KernelError Z) :=
  o ← on_frames (frame_alloc_zeroed PAGE_SIZE);
  mret match o with
       | None => Err NoFreePage
       | Some p => Ok p
       end.

(** ** [PageState] *)

Definition U32MAX : Z := U32_MAX.

Definition get_ref (i : nat) : M Pages Z :=
  l ← gets pg_refs;
  unwrap (l !! i).
Definition put_ref (i : nat) (n : Z) : M Pages unit := modify (λ s, set_refs (<[i := n]> (pg_refs s)) s).

Definition state_increment_ref (i : nat) : M Pages Z :=
  n ← get_ref i;
  assert_ (negb (n =? U32MAX));;
  put_ref i (n + 1);;
  mret n.
Definition state_decrement_ref (i : nat) : M Pages Z :=
  n ← get_ref i;
  assert_ (negb (n =? U32MAX));;
  assert_ (0 <? n);;
  put_ref i (n - 1);;
  mret n.
Definition mark_non_shareable (i : nat) : M Pages unit :=
  n ← get_ref i;
  assert_ (n =? 0);;
  put_ref i U32MAX.
(** [true] is [Ok]. *)
Definition try_unmark_non_shareable (i : nat) : M Pages bool :=
  n ← get_ref i;
  if n =? U32MAX then put_ref i 0;; mret true else mret false.

(** ** [PageManager] *)

Definition page_index (pa : Z) : M Pages nat :=
  f ← gets pg_frames;
  assert_ ((heap_start f <=? pa) && (pa <? heap_end f));;
  assert_ (is_page_aligned pa);;
  mret (Z.to_nat ((pa - heap_start f) / PAGE_SIZE)).
(** [get_page]: the index of the state of the page, which must exist. *)
Definition get_page (pa : Z) : M Pages nat :=
  i ← page_index pa;
  get_ref i;;
  mret i.
Definition is_heap_addr (pa : Z) : M Pages bool :=
  f ← gets pg_frames;
  mret (is_allocated_pointer PAGE_SIZE pa f).

(** [PageManager::new]: the states in front of the heap. *)
Definition ALIGN_STATE : Z := 4.
Definition SIZE_STATE : Z := 4.
Definition next_multiple_of (a n : Z) : Z := (a + n - 1) / n * n.
Definition manager_new (start stop : Z) : M Pages unit :=
  assert_ (start <=? stop);;
  let possible_heap_start := page_roundup start in
  let heap_end := page_rounddown stop in
  let max_pages := wrap 64 (heap_end - possible_heap_start) / PAGE_SIZE in
  assert_ (0 <? max_pages);;
  let state_pages := (max_pages + SIZE_STATE - 1) / SIZE_STATE in
  assert_ (state_pages <=? max_pages);;
  let state_start := next_multiple_of start ALIGN_STATE in
  modify (set_refs (replicate (Z.to_nat max_pages) 0));;
  let state_end := state_start + SIZE_STATE * max_pages in
  let heap_start := page_roundup state_end in
  assert_ (state_start <=? state_end);;
  assert_ (state_end <=? heap_start);;
  assert_ (heap_start <=? heap_end);;
  assert_ ((heap_end - heap_start) / PAGE_SIZE <=? max_pages);;
  on_frames (frames_new PAGE_SIZE heap_start heap_end).

(** ** [Page] *)

(** [Page::alloc], [alloc_zeroed] and [alloc_non_shareable_page]: the address of the page,
    which [into_raw] gives out. *)
Definition page_alloc : M Pages (result KernelError Z) :=
  pa ←? alloc_page;
  i ← get_page pa;
  n ← state_increment_ref i;
  assert_ (n =? 0);;
  mret (Ok pa).
Definition page_alloc_zeroed : M Pages (result KernelError Z) :=
  pa ←? alloc_zeroed_page;
  i ← get_page pa;
  n ← state_increment_ref i;
  assert_ (n =? 0);;
  mret (Ok pa).
Definition alloc_non_shareable_page : M Pages (result KernelError Z) :=
  pa ←? alloc_page;
  i ← get_page pa;
  mark_non_shareable i;;
  mret (Ok pa).

(** [ref_count] and [increment_ref]. *)
Definition ref_count (pa : Z) : M Pages Z :=
  i ← get_page pa;
  get_ref i.
Definition increment_ref (pa : Z) : M Pages Z :=
  i ← get_page pa;
  state_increment_ref i.

(** The destructor of [Page]. *)
Definition release_ref (i : nat) : M Pages bool :=
  unmarked ← try_unmark_non_shareable i;
  if (unmarked : bool) then mret true
  else
    prev_cnt ← state_decrement_ref i;
    mret (prev_cnt <=? 1).
Definition page_drop (pa : Z) : M Pages unit :=
  i ← get_page pa;
  free ← release_ref i;
  if (free : bool) then free_page pa else mret tt.

(** [Allocator for PageFrameAllocator], for the one-page objects of the kernel. *)
Definition allocate (size align : Z) : M Pages (option Z) :=
  assert_ (size <=? PAGE_SIZE);;
  assert_ (PAGE_SIZE mod align =? 0);;
  r ← alloc_non_shareable_page;
  mret (ok r).
Definition deallocate (pa size align : Z) : M Pages unit :=
  assert_ (size <=? PAGE_SIZE);;
  assert_ (PAGE_SIZE mod align =? 0);;
  assert_ (pa mod PAGE_SIZE =? 0);;
  page_drop pa.

(** ** Owners

    The abstract state: who owns which page, and what the owned pages contain. *)

Inductive Owner :=
  | Shared (n : Z)
  | Exclusive.

Definition owner_count (o : option Owner) : Z :=
  match o with
  | None => 0
  | Some (Shared n) => n
  | Some Exclusive => U32MAX
  end.
Definition owner_wf (o : Owner) : Prop :=
  match o with
  | Shared n => 0 < n < U32MAX
  | Exclusive => True
  end.

Definition index_of (f : Frames) (p : Z) : nat := Z.to_nat ((p - heap_start f) / PAGE_SIZE).

Abbreviation Contents := (gmap Z (list byte)).
Abbreviation heap_frame f := (heap_page PAGE_SIZE f).

(** The counters agree with the owners. *)
Record refs_ok (own : gmap Z Owner) (s : Pages) : Prop := {
  ro_start : heap_start (pg_frames s) mod PAGE_SIZE = 0;
  ro_wf : ∀ p o, own !! p = Some o → owner_wf o;
  ro_refs : ∀ p, heap_frame (pg_frames s) p → pg_refs s !! index_of (pg_frames s) p = Some (owner_count (own !! p));
}.

Record pages_ok (own : gmap Z Owner) (held : Contents) (s : Pages) : Prop := {
  po_frames : ∃ l, held_inv PAGE_SIZE held (pg_frames s) l;
  po_held : ∀ p, is_Some (held !! p) ↔ is_Some (own !! p);
  po_refs : refs_ok own s;
}.

(** The heap does not move. *)
Definition same_heap (s s' : Pages) : Prop :=
  heap_start (pg_frames s') = heap_start (pg_frames s) ∧ heap_end (pg_frames s') = heap_end (pg_frames s).

Lemma same_heap_frame s s' p : same_heap s s' → heap_frame (pg_frames s') p ↔ heap_frame (pg_frames s) p.
Proof. intros [E1 E2]. by rw /heap_page E1 E2. Qed.
Lemma same_heap_index s s' p : same_heap s s' → index_of (pg_frames s') p = index_of (pg_frames s) p.
Proof. intros [E1 _]. by rw /index_of E1. Qed.

Lemma page_size_ok : 8 ≤ PAGE_SIZE.
Proof. done. Qed.

Section pages.
Implicit Types (s : Pages) (own : gmap Z Owner) (held : Contents).

Lemma owned_frame own held s p : pages_ok own held s → is_Some (own !! p) → heap_frame (pg_frames s) p.
Proof.
  intros Hp [b Hb]%(po_held _ _ _ Hp). destruct (po_frames _ _ _ Hp) as [l Hl]. by apply (hi_held _ _ _ _ Hl p b).
Qed.

(** Pages have different indices. *)
Lemma index_inj s p q :
  heap_start (pg_frames s) mod PAGE_SIZE = 0 → heap_frame (pg_frames s) p → heap_frame (pg_frames s) q →
  index_of (pg_frames s) p = index_of (pg_frames s) q → p = q.
Proof.
  intros Ea [Hp Ep] [Hq Eq] E. rw /index_of in E. change PAGE_SIZE with 4096 in *.
  pose proof (Z_div_mod_eq_full (p - heap_start (pg_frames s)) 4096). pose proof (Z_div_mod_eq_full (q - heap_start (pg_frames s)) 4096).
  rw Zminus_mod Ep Ea in H. rw Zminus_mod Eq Ea in H0.
  assert (0 ≤ (p - heap_start (pg_frames s)) / 4096) by (apply Z.div_pos; lia).
  assert (0 ≤ (q - heap_start (pg_frames s)) / 4096) by (apply Z.div_pos; lia). simpl in *. lia.
Qed.

Lemma wp_on_frames {A} (m : M Frames A) (Q : A → Pages → Prop) s :
  wp m (λ a f, Q a {| pg_refs := pg_refs s; pg_frames := f |}) (pg_frames s) → wp (on_frames m) Q s.
Proof. rw /wp /on_frames /zoom. by destruct (m (pg_frames s)). Qed.

Lemma get_ref_wp own s p (Q : Z → Pages → Prop) :
  refs_ok own s → heap_frame (pg_frames s) p → Q (owner_count (own !! p)) s → wp (get_ref (index_of (pg_frames s) p)) Q s.
Proof. intros Hok Hp HQ. rw /get_ref. wp_steps. eapply wp_unwrap; [by apply (ro_refs _ _ Hok)|]. done. Qed.

Lemma get_page_wp own s p (Q : nat → Pages → Prop) :
  refs_ok own s → heap_frame (pg_frames s) p → Q (index_of (pg_frames s) p) s → wp (get_page p) Q s.
Proof.
  intros Hok Hp HQ. rw /get_page /page_index. wp_steps. destruct Hp as [Hp1 Hp2].
  apply wp_assert; [lia|]. wp_step. apply wp_assert; [by rw /is_page_aligned Hp2|]. wp_steps.
  by apply (get_ref_wp own).
Qed.

(** Changing the counter of a page together with its owner. *)
Lemma put_ref_ok own s p o :
  refs_ok own s → heap_frame (pg_frames s) p → (∀ x, o = Some x → owner_wf x) →
  refs_ok (partial_alter (λ _, o) p own) (set_refs (<[index_of (pg_frames s) p := owner_count o]> (pg_refs s)) s).
Proof.
  intros Hok Hp Hw. split; simpl; [apply Hok| |].
  - intros q x. destruct (decide (p = q)) as [<-|Hne]; [rw lookup_partial_alter_eq; apply Hw|].
    rw lookup_partial_alter_ne //. apply Hok.
  - intros q Hq. destruct (decide (p = q)) as [<-|Hne].
    + rw lookup_partial_alter_eq list_lookup_insert_eq //. apply lookup_lt_is_Some. eexists. by apply (ro_refs _ _ Hok).
    + rw lookup_partial_alter_ne // list_lookup_insert_ne; [|by apply Hok].
      intros E. apply (index_inj s) in E; [done|apply Hok|done..].
Qed.

(** The frames can change under the counters. *)
Lemma refs_frames own s s' : refs_ok own s → pg_refs s' = pg_refs s → same_heap s s' → refs_ok own s'.
Proof.
  intros Hok Er Hh. split; [destruct Hh as [-> _]; apply Hok|apply Hok|].
  intros p. rw (same_heap_frame _ _ _ Hh) Er (same_heap_index _ _ _ Hh). apply Hok.
Qed.

(** ** Allocation *)

Lemma first_ref_wp own s p (Q : result KernelError Z → Pages → Prop) :
  refs_ok own s → heap_frame (pg_frames s) p → own !! p = None →
  (∀ s', refs_ok (<[p := Shared 1]> own) s' → pg_frames s' = pg_frames s → Q (Ok p) s') →
  wp (i ← get_page p; n ← state_increment_ref i; assert_ (n =? 0);; mret (Ok p)) Q s.
Proof.
  intros Hok Hp Ho HQ. wp_step. apply (get_page_wp own); [done..|]. wp_step. rw /state_increment_ref. wp_step.
  apply (get_ref_wp own); [done..|]. rw Ho /=. wp_steps. apply HQ; [|done].
  by apply (put_ref_ok own s p (Some (Shared 1))); [..|intros ? [= <-]].
Qed.

(** What an allocation of a raw page does. *)
Definition raw_alloc own held s (x : byte) (r : result KernelError Z) s' : Prop :=
  same_heap s s' ∧ refs_ok own s' ∧
  match r with
  | Ok p => heap_frame (pg_frames s') p ∧ own !! p = None ∧
      ∃ l, held_inv PAGE_SIZE (<[p := replicate (Z.to_nat PAGE_SIZE) x]> held) (pg_frames s') l
  | Err e => e = NoFreePage ∧ (∀ p, heap_frame (pg_frames s') p → is_Some (own !! p)) ∧ pages_ok own held s'
  end.

Lemma not_owned own held s p : pages_ok own held s → held !! p = None → own !! p = None.
Proof. intros Hok Hp. apply eq_None_not_Some. intros H%(po_held _ _ _ Hok). rw Hp in H. by destruct H. Qed.

Lemma alloc_failed own held s s' l :
  pages_ok own held s → same_heap s s' → pg_refs s' = pg_refs s → held_inv PAGE_SIZE held (pg_frames s') l →
  (∀ p, heap_frame (pg_frames s) p → is_Some (held !! p)) → raw_alloc own held s Byte.x00 (Err NoFreePage) s'.
Proof.
  intros Hok Hh Er Hl Hall. assert (refs_ok own s') as Hr by (eapply refs_frames; [apply Hok|done..]).
  split_and!; [done..| |].
  - intros p Hp%(same_heap_frame _ _ _ Hh). by apply (po_held _ _ _ Hok), Hall.
  - split; [by exists l|apply Hok|done].
Qed.

Lemma alloc_page_wp own held s : pages_ok own held s → wp alloc_page (raw_alloc own held s Byte.x05) s.
Proof.
  intros Hok. destruct (po_frames _ _ _ Hok) as [l Hl]. rw /alloc_page. wp_step. apply wp_on_frames.
  eapply wp_mono; [apply (held_alloc _ page_size_ok _ _ _ Hl)|]. intros [p|] f' (Es & Ee & H).
  - destruct H as (Hn & Hp & H).
    destruct (fi_pages _ _ _ (hi_frames _ _ _ _ Hl) p Hp) as (b & Hb & _). specialize (H b Hb).
    destruct (hi_held _ _ _ _ H p b (lookup_insert_eq _ _ _)) as [Hp' Hb'].
    wp_step. apply wp_on_frames. apply (write_page_wp _ _ b); [done|]. wp_step.
    assert (same_heap s {| pg_refs := pg_refs s; pg_frames := set_memory (<[p := replicate (Z.to_nat PAGE_SIZE) Byte.x05]> (memory f')) f' |})
      as Hh by done.
    split_and!; [done|by apply (refs_frames own s); [apply Hok|..]|done|exact (not_owned _ _ _ _ Hok Hn)|].
    exists (tail l). rw -(insert_insert_eq held p (replicate _ _) b). apply (held_update _ _ _ _ p b); [done|apply lookup_insert_eq|by len].
  - destruct H as [Hall Hl']. wp_step. by apply (alloc_failed own held s _ l).
Qed.

Lemma alloc_zeroed_page_wp own held s : pages_ok own held s → wp alloc_zeroed_page (raw_alloc own held s Byte.x00) s.
Proof.
  intros Hok. destruct (po_frames _ _ _ Hok) as [l Hl]. rw /alloc_zeroed_page. wp_step. apply wp_on_frames.
  eapply wp_mono; [apply (held_alloc_zeroed _ page_size_ok _ _ _ Hl)|]. intros [p|] f' (Es & Ee & H); wp_step.
  - destruct H as (Hn & Hp & H). split_and!; [done|by apply (refs_frames own s); [apply Hok|..]| |exact (not_owned _ _ _ _ Hok Hn)|by exists (tail l)].
    by apply (hi_held _ _ _ _ H p _ (lookup_insert_eq _ _ _)).
  - destruct H as [Hall Hl']. by apply (alloc_failed own held s _ l).
Qed.

(** The result of an allocation of a page. *)
Definition allocated own held s (o : Owner) (x : byte) (r : result KernelError Z) s' : Prop :=
  same_heap s s' ∧
  match r with
  | Ok p => heap_frame (pg_frames s') p ∧ own !! p = None ∧
      pages_ok (<[p := o]> own) (<[p := replicate (Z.to_nat PAGE_SIZE) x]> held) s'
  | Err e => e = NoFreePage ∧ (∀ p, heap_frame (pg_frames s') p → is_Some (own !! p)) ∧ pages_ok own held s'
  end.

Lemma pages_insert own held s p o b l :
  pages_ok own held s → ∀ s', held_inv PAGE_SIZE (<[p := b]> held) (pg_frames s') l → refs_ok (<[p := o]> own) s' →
  pages_ok (<[p := o]> own) (<[p := b]> held) s'.
Proof.
  intros Hok s' Hl Hr. split; [by exists l| |done]. intros q. rw !lookup_insert_is_Some'. by rw (po_held _ _ _ Hok q).
Qed.

Lemma first_owner_wp own held s s' x p :
  pages_ok own held s → raw_alloc own held s x (Ok p) s' →
  wp (i ← get_page p; n ← state_increment_ref i; assert_ (n =? 0);; mret (Ok p)) (allocated own held s (Shared 1) x) s'.
Proof.
  intros Hok (Hh & Hr & Hp & Ho & l & Hl). apply (first_ref_wp own); [done..|]. intros s2 Hr2 E2.
  rw /allocated /same_heap E2. split; [done|]. split; [done|]. split; [done|].
  apply (pages_insert own held s p _ _ l); [done| |done]. by rw E2.
Qed.

Lemma page_alloc_wp own held s : pages_ok own held s → wp page_alloc (allocated own held s (Shared 1) Byte.x05) s.
Proof.
  intros Hok. rw /page_alloc. wp_step. eapply wp_mono; [exact (alloc_page_wp own held s Hok)|].
  intros [p|e] s' H; [exact (first_owner_wp own held s s' _ p Hok H)|]. by destruct H as (? & _ & ?).
Qed.

Lemma page_alloc_zeroed_wp own held s : pages_ok own held s → wp page_alloc_zeroed (allocated own held s (Shared 1) Byte.x00) s.
Proof.
  intros Hok. rw /page_alloc_zeroed. wp_step. eapply wp_mono; [exact (alloc_zeroed_page_wp own held s Hok)|].
  intros [p|e] s' H; [exact (first_owner_wp own held s s' _ p Hok H)|]. by destruct H as (? & _ & ?).
Qed.

Lemma alloc_non_shareable_wp own held s :
  pages_ok own held s → wp alloc_non_shareable_page (allocated own held s Exclusive Byte.x05) s.
Proof.
  intros Hok. rw /alloc_non_shareable_page. wp_step. eapply wp_mono; [exact (alloc_page_wp own held s Hok)|].
  intros [p|e] s' H; [|by destruct H as (? & _ & ?)]. destruct H as (Hh & Hr & Hp & Ho & l & Hl).
  wp_step. apply (get_page_wp own); [done..|]. wp_step. rw /mark_non_shareable. wp_step. apply (get_ref_wp own); [done..|].
  rw Ho /=. wp_steps. split; [done|]. split; [done|]. split; [done|].
  apply (pages_insert own held s p _ _ l); [done..|]. by apply (put_ref_ok own s' p (Some Exclusive)); [..|intros ? [= <-]].
Qed.

(** ** Sharing and releasing *)

Lemma ref_count_wp own held s p o :
  pages_ok own held s → own !! p = Some o → wp (ref_count p) (λ n s', n = owner_count (Some o) ∧ s' = s) s.
Proof.
  intros Hok Ho. pose proof (owned_frame _ _ _ _ Hok (mk_is_Some _ _ Ho)) as Hp.
  rw /ref_count. wp_step. apply (get_page_wp own); [apply Hok|done|]. apply (get_ref_wp own); [apply Hok|done|]. by rw Ho.
Qed.

(** The owner of a page changes, the contents do not. *)
Lemma pages_owner own held s s' p o o' :
  pages_ok own held s → own !! p = Some o → refs_ok (<[p := o']> own) s' → pg_frames s' = pg_frames s →
  pages_ok (<[p := o']> own) held s'.
Proof.
  intros Hok Ho Hr E. split; [rw E; apply Hok| |done]. intros q. rw lookup_insert_is_Some' (po_held _ _ _ Hok q).
  split; [by right|]. intros [<-|?]; [by rw Ho|done].
Qed.

Lemma increment_ref_wp own held s p n :
  pages_ok own held s → own !! p = Some (Shared n) → n + 1 < U32MAX →
  wp (increment_ref p) (λ r s', r = n ∧ pages_ok (<[p := Shared (n + 1)]> own) held s' ∧ pg_frames s' = pg_frames s) s.
Proof.
  intros Hok Ho Hn. pose proof (owned_frame _ _ _ _ Hok (mk_is_Some _ _ Ho)) as Hp.
  pose proof (ro_wf _ _ (po_refs _ _ _ Hok) p _ Ho) as Hw. simpl in Hw.
  rw /increment_ref. wp_step. apply (get_page_wp own); [apply Hok|done|]. rw /state_increment_ref. wp_step.
  apply (get_ref_wp own); [apply Hok|done|]. rw Ho /=. wp_step.
  apply wp_assert; [case: Z.eqb_spec; [lia|done]|]. wp_steps. split_and!; [done| |done].
  apply (pages_owner own held s _ p (Shared n)); [done..| |done].
  apply (put_ref_ok own s p (Some (Shared (n + 1)))); [apply Hok|done|]. intros ? [= <-]. simpl. lia.
Qed.

Lemma free_page_wp held s p b l :
  held_inv PAGE_SIZE held (pg_frames s) l → held !! p = Some b →
  wp (free_page p) (λ _ s2, pg_refs s2 = pg_refs s ∧ same_heap s s2 ∧
    ∃ l', held_inv PAGE_SIZE (delete p held) (pg_frames s2) l') s.
Proof.
  intros Hl Hb. destruct (hi_held _ _ _ _ Hl p b Hb) as [Hp Hm]. rw /free_page. wp_step. apply wp_on_frames.
  apply (write_page_wp _ _ b); [done|]. apply wp_on_frames. set (c := replicate (Z.to_nat PAGE_SIZE) Byte.x01).
  assert (held_inv PAGE_SIZE (<[p := c]> held) (set_memory (<[p := c]> (memory (pg_frames s))) (pg_frames s)) l) as Hc
    by (by apply (held_update _ _ _ _ p b); [..|len]).
  eapply wp_mono; [exact (held_free _ page_size_ok _ _ l p c Hc (lookup_insert_eq _ _ _))|].
  intros [] f (Es & Ee & Hf). split_and!; [done..|]. exists (p :: l). by rw delete_insert_eq in Hf.
Qed.

(** The page goes back to the allocator. *)
Lemma release_page_wp own held s s' p :
  pages_ok own held s → is_Some (own !! p) → pg_frames s' = pg_frames s → refs_ok (delete p own) s' →
  wp (free_page p) (λ _ s2, pages_ok (delete p own) (delete p held) s2 ∧ same_heap s s2) s'.
Proof.
  intros Hok [b Hb]%(po_held _ _ _ Hok) E Hr. destruct (po_frames _ _ _ Hok) as [l Hl]. rw -E in Hl.
  eapply wp_mono; [exact (free_page_wp held s' p b l Hl Hb)|]. intros [] s2 (Er & Hh & Hl2).
  rw /same_heap -E. split; [|done]. split; [done| |by apply (refs_frames _ s')].
  intros q. rw !lookup_delete_is_Some. by rw (po_held _ _ _ Hok q).
Qed.

(** What the destructor leaves: one owner less, or a free page. *)
Definition drop_owner (o : Owner) : option Owner :=
  match o with
  | Shared n => if 1 <? n then Some (Shared (n - 1)) else None
  | Exclusive => None
  end.
Definition drop_own (p : Z) (own : gmap Z Owner) : gmap Z Owner := partial_alter (λ o, o ≫= drop_owner) p own.
Definition drop_held (p : Z) own held : Contents :=
  match own !! p ≫= drop_owner with
  | Some _ => held
  | None => delete p held
  end.

Lemma drop_own_eq own p o : own !! p = Some o → drop_own p own = partial_alter (λ _, drop_owner o) p own.
Proof. intros Ho. apply partial_alter_ext. intros x Hx. by rw Ho in Hx; subst. Qed.

Lemma release_ref_wp own held s p o :
  pages_ok own held s → own !! p = Some o →
  wp (release_ref (index_of (pg_frames s) p)) (λ b s', b = bool_decide (drop_owner o = None) ∧
    refs_ok (drop_own p own) s' ∧ pg_frames s' = pg_frames s) s.
Proof.
  intros Hok Ho. pose proof (owned_frame _ _ _ _ Hok (mk_is_Some _ _ Ho)) as Hp.
  pose proof (ro_wf _ _ (po_refs _ _ _ Hok) p _ Ho) as Hw.
  assert (∀ s' o', (∀ x, o' = Some x → owner_wf x) → o' = drop_owner o →
    s' = set_refs (<[index_of (pg_frames s) p := owner_count o']> (pg_refs s)) s → refs_ok (drop_own p own) s') as Hput.
  { intros s' o' Hx -> ->. rw (drop_own_eq _ _ _ Ho). apply put_ref_ok; [apply Hok|done..]. }
  rw /release_ref /try_unmark_non_shareable. do 2 wp_step. apply (get_ref_wp own); [apply Hok|done|]. rw Ho.
  destruct o as [n|]; simpl owner_count; simpl in Hw.
  - case: Z.eqb_spec => [?|_]; [lia|]. wp_steps. rw /state_decrement_ref. wp_step.
    apply (get_ref_wp own); [apply Hok|done|]. rw Ho. simpl owner_count. wp_step.
    apply wp_assert; [case: Z.eqb_spec; [lia|done]|]. wp_step. apply wp_assert; [lia|]. wp_steps.
    simpl. case: Z.ltb_spec => Hn; split_and!; [by case: Z.leb_spec; [lia|]| |done|by case: Z.leb_spec; [|lia]| |done].
    + apply (Hput _ (Some (Shared (n - 1)))); [intros ? [= <-]; simpl; lia| |done]. simpl. by case: Z.ltb_spec; [|lia].
    + apply (Hput _ None); [done| |simpl; repeat f_equal; lia]. simpl. by case: Z.ltb_spec; [lia|].
  - wp_steps. split_and!; [done| |done]. by apply (Hput _ None).
Qed.

Lemma page_drop_wp own held s p o :
  pages_ok own held s → own !! p = Some o →
  wp (page_drop p) (λ _ s', pages_ok (drop_own p own) (drop_held p own held) s' ∧ same_heap s s') s.
Proof.
  intros Hok Ho. pose proof (owned_frame _ _ _ _ Hok (mk_is_Some _ _ Ho)) as Hp. rw /page_drop. wp_step.
  apply (get_page_wp own); [apply Hok|done|]. wp_step. eapply wp_mono; [exact (release_ref_wp own held s p o Hok Ho)|].
  intros b s' (-> & Hr & E). rw /drop_held Ho /=. rw (drop_own_eq _ _ _ Ho) in Hr |- *.
  destruct (drop_owner o) as [o'|]; simpl.
  - wp_step. rw /same_heap E. split; [|done]. by apply (pages_owner own held s _ p o).
  - by apply release_page_wp.
Qed.

(** ** Start *)

(** The heap that [manager_new] leaves to the allocator. *)
Definition heap_of (start stop : Z) : Z * Z :=
  let n := (page_rounddown stop - page_roundup start) / PAGE_SIZE in
  (page_roundup (next_multiple_of start ALIGN_STATE + SIZE_STATE * n), page_rounddown stop).

Lemma heap_of_spec start stop n :
  0 < start ≤ stop → stop ≤ 2 ^ 56 → n = (page_rounddown stop - page_roundup start) / PAGE_SIZE → 0 < n →
  (heap_of start stop).2 = page_roundup start + n * PAGE_SIZE ∧
  (heap_of start stop).1 mod PAGE_SIZE = 0 ∧ (heap_of start stop).2 mod PAGE_SIZE = 0 ∧
  start ≤ page_roundup start ≤ (heap_of start stop).1 ∧ (heap_of start stop).1 ≤ (heap_of start stop).2 ≤ stop ∧
  0 ≤ next_multiple_of start ALIGN_STATE + SIZE_STATE * n ≤ (heap_of start stop).1 ∧ n ≤ 2 ^ 56.
Proof.
  intros Hs Hb En Hn. rw /heap_of -En. simpl. rw page_rounddown_eq in En |- *; [lia..|].
  assert (start ≤ next_multiple_of start ALIGN_STATE ≤ start + 3) as Hst.
  { rw /next_multiple_of /ALIGN_STATE. pose proof (Z_div_mod_eq_full (start + 4 - 1) 4). pose proof (Z.mod_pos_bound (start + 4 - 1) 4). lia. }
  destruct (page_roundup_spec start) as [Ep Hp]; [change PAGE_SIZE with 4096; lia|]. rw /SIZE_STATE.
  set (x := next_multiple_of _ _ + _). set (q := page_roundup start) in *. change PAGE_SIZE with 4096 in *.
  assert (0 ≤ n ≤ 2 ^ 56) as Hn' by (pose proof (Z.mod_pos_bound stop 4096); split; [lia|]; subst n; apply Z.div_le_upper_bound; lia).
  destruct (page_roundup_spec x) as [Ex Hx]; [subst x; change PAGE_SIZE with 4096; lia|]. change PAGE_SIZE with 4096 in *.
  set (y := page_roundup x) in *. pose proof (Z.mod_pos_bound stop 4096). pose proof (Z_div_mod_eq_full stop 4096).
  pose proof (Z_div_mod_eq_full q 4096). pose proof (Z_div_mod_eq_full y 4096).
  assert (stop - stop mod 4096 - q = 4096 * n) as Hq.
  { subst n. apply Z_div_exact_full_2; [lia|]. rw Zminus_mod Ep. replace (stop - stop mod 4096) with (stop / 4096 * 4096) by lia. by rw Z_mod_mult. }
  split_and!; try (subst x; lia). replace (stop - stop mod 4096) with (stop / 4096 * 4096) by lia. apply Z_mod_mult.
Qed.

Lemma manager_new_wp start stop s :
  0 < start ≤ stop → stop ≤ 2 ^ 56 → page_roundup start < page_rounddown stop →
  (∀ p, start ≤ p < stop → p mod PAGE_SIZE = 0 → ∃ b, memory (pg_frames s) !! p = Some b ∧ length b = Z.to_nat PAGE_SIZE) →
  wp (manager_new start stop) (λ _ s', pages_ok ∅ ∅ s' ∧
    (heap_start (pg_frames s'), heap_end (pg_frames s')) = heap_of start stop) s.
Proof.
  intros Hs Hb Hlt Hm. set (n := (page_rounddown stop - page_roundup start) / PAGE_SIZE).
  assert (0 < n) as Hn.
  { rw /n page_rounddown_eq in Hlt |- *; [lia..|]. destruct (page_roundup_spec start) as [Ep Hp]; [change PAGE_SIZE with 4096; lia|].
    change PAGE_SIZE with 4096 in *. apply Z.div_str_pos. pose proof (Z_div_mod_eq_full stop 4096). pose proof (Z_div_mod_eq_full (page_roundup start) 4096). lia. }
  destruct (heap_of_spec start stop n Hs Hb eq_refl Hn) as (E2 & A1 & A2 & H1 & H2 & H3 & H4).
  assert (PAGE_SIZE = 4096) as EP by done. destruct (heap_of start stop) as [a z] eqn:Eh. rw /heap_of -/n in Eh. injection Eh as Ea Ez. simpl in *.
  rw /manager_new Ez wrap_small; [lia|].
  rw -Ez -/n Ea. wp_step. apply wp_assert; [lia|]. wp_step. apply wp_assert; [lia|]. wp_step.
  rw /SIZE_STATE in Ea H3 |- *. apply wp_assert; [apply Z.leb_le; pose proof (Z_div_mod_eq_full (n + 4 - 1) 4); pose proof (Z.mod_pos_bound (n + 4 - 1) 4); lia|].
  do 3 wp_step. apply wp_assert; [lia|]. wp_step. apply wp_assert; [lia|]. wp_step. apply wp_assert; [lia|].
  wp_step. apply wp_assert; [|].
  { apply Z.leb_le, Z.div_le_upper_bound; lia. }
  apply wp_on_frames. rw Ez. eapply wp_mono; [apply (new_wp _ page_size_ok a z); [lia|lia|done|done|]|].
  - intros p Hp. apply Hm. lia.
  - intros [] f (E3 & E4 & Hf). simpl. split; [|congruence]. split; [|by intros p; split; intros [? ?%lookup_empty_Some]|].
    + eexists. split; [exact Hf|done|done|]. intros p Hp%(elem_of_heap_pages _ page_size_ok _ _ _ Hf). left.
      by rw (fi_total _ _ _ Hf) E3 E4 in Hp.
    + split; simpl; [congruence|done|]. intros p [Hp Ep]. rw lookup_empty /=. apply lookup_replicate_2.
      rw /index_of E3. rw E3 E4 in Hp. assert ((p - a) / PAGE_SIZE < n); [|lia].
      apply Z.div_lt_upper_bound; lia.
Qed.

(** ** Steps *)

Definition filled (x : byte) : list byte := replicate (Z.to_nat PAGE_SIZE) x.

(** What the owners of pages do. The owners and the contents are what the model tracks. *)
Inductive pstep : gmap Z Owner * Contents * Pages → gmap Z Owner * Contents * Pages → Prop :=
  | pstep_alloc own held s p s' :
      page_alloc s = Ret (Ok p) s' → pstep (own, held, s) (<[p := Shared 1]> own, <[p := filled Byte.x05]> held, s')
  | pstep_alloc_zeroed own held s p s' :
      page_alloc_zeroed s = Ret (Ok p) s' → pstep (own, held, s) (<[p := Shared 1]> own, <[p := filled Byte.x00]> held, s')
  | pstep_allocate own held s size align p s' :
      allocate size align s = Ret (Some p) s' → pstep (own, held, s) (<[p := Exclusive]> own, <[p := filled Byte.x05]> held, s')
  | pstep_share own held s p n n' s' :
      own !! p = Some (Shared n) → n + 1 < U32MAX → increment_ref p s = Ret n' s' →
      pstep (own, held, s) (<[p := Shared (n + 1)]> own, held, s')
  | pstep_drop own held s p s' :
      is_Some (own !! p) → page_drop p s = Ret tt s' → pstep (own, held, s) (drop_own p own, drop_held p own held, s')
  | pstep_write own held s p b g s' :
      held !! p = Some b → length (g b) = length b → on_frames (write_page p g) s = Ret tt s' →
      pstep (own, held, s) (own, <[p := g b]> held, s').

(** The states after [PageManager::new]. *)
Definition preachable own held s : Prop :=
  ∃ start stop s0 s1, 0 < start ≤ stop ∧ stop ≤ 2 ^ 56 ∧ page_roundup start < page_rounddown stop ∧
    (∀ p, start ≤ p < stop → p mod PAGE_SIZE = 0 → ∃ b, memory (pg_frames s0) !! p = Some b ∧ length b = Z.to_nat PAGE_SIZE) ∧
    manager_new start stop s0 = Ret tt s1 ∧ rtc pstep (∅, ∅, s1) (own, held, s).

Lemma write_owned_wp own held s p b g :
  pages_ok own held s → held !! p = Some b → length (g b) = length b →
  wp (on_frames (write_page p g)) (λ _ s', pages_ok own (<[p := g b]> held) s') s.
Proof.
  intros Hok Hb Hg. destruct (po_frames _ _ _ Hok) as [l Hl]. destruct (hi_held _ _ _ _ Hl p b Hb) as [Hp Hm].
  apply wp_on_frames, (write_page_wp _ _ b); [done|]. split; simpl.
  - exists l. apply (held_update _ _ _ _ p b); [done..|]. destruct (fi_pages _ _ _ (hi_frames _ _ _ _ Hl) p Hp) as (c & Hc & <-). congruence.
  - intros q. rw lookup_insert_is_Some' (po_held _ _ _ Hok q). split; [|by right]. intros [<-|?]; [|done].
    by apply (po_held _ _ _ Hok).
  - apply (refs_frames own s); [apply Hok|done..].
Qed.

Lemma allocate_wp own held s size align :
  pages_ok own held s → size ≤ PAGE_SIZE → PAGE_SIZE mod align = 0 →
  wp (allocate size align) (λ o s', ∃ r, o = ok r ∧ allocated own held s Exclusive Byte.x05 r s') s.
Proof.
  intros Hok Hs Ha. rw /allocate. wp_step. apply wp_assert; [lia|]. wp_step. apply wp_assert; [lia|]. wp_step.
  eapply wp_mono; [exact (alloc_non_shareable_wp own held s Hok)|]. intros r s' H. wp_step. by exists r.
Qed.

Lemma pstep_ok own held s own' held' s' :
  pages_ok own held s → pstep (own, held, s) (own', held', s') → pages_ok own' held' s'.
Proof.
  intros Hok Hs. inversion Hs as [? ? ? p ? E|? ? ? p ? E|? ? ? sz al p ? E|? ? ? p n n' ? Ho Hn E|? ? ? p ? [o Ho] E|? ? ? p b g ? Hb Hg E]; subst.
  - by destruct (wp_ret_inv _ _ _ _ _ (page_alloc_wp _ _ _ Hok) E) as (? & ? & ? & ?).
  - by destruct (wp_ret_inv _ _ _ _ _ (page_alloc_zeroed_wp _ _ _ Hok) E) as (? & ? & ? & ?).
  - revert E. rw /allocate. intros ([] & s1 & [Hsz <-]%assert_inv & ([] & s2 & [Hal <-]%assert_inv & (r & s3 & E & Er)%bind_inv)%bind_inv)%bind_inv.
    destruct r as [q|e]; [|done]. injection Er as -> ->. by destruct (wp_ret_inv _ _ _ _ _ (alloc_non_shareable_wp _ _ _ Hok) E) as (? & ? & ? & ?).
  - by apply (wp_ret_inv _ _ _ _ _ (increment_ref_wp _ _ _ _ _ Hok Ho Hn) E).
  - by apply (wp_ret_inv _ _ _ _ _ (page_drop_wp _ _ _ _ _ Hok Ho) E).
  - by apply (wp_ret_inv _ _ _ _ _ (write_owned_wp _ _ _ _ _ _ Hok Hb Hg) E).
Qed.

Lemma preachable_ok own held s : preachable own held s → pages_ok own held s.
Proof.
  intros (start & stop & s0 & s1 & Hr & Hs & Hlt & Hm & Hn & Hsteps).
  pose proof (wp_ret_inv _ _ _ _ _ (manager_new_wp start stop s0 Hr Hs Hlt Hm) Hn) as [Hok _]. revert Hok.
  refine (rtc_ind_r (λ x, pages_ok ∅ ∅ s1 → pages_ok x.1.1 x.1.2 x.2) (∅, ∅, s1) id _ (own, held, s) Hsteps).
  intros [[o h] g] [[o' h'] g'] _ Hst IH Hok. exact (pstep_ok o h g o' h' g' (IH Hok) Hst).
Qed.

Lemma drop_free_panics own held s p :
  pages_ok own held s → heap_frame (pg_frames s) p → own !! p = None → page_drop p s = Panic.
Proof.
  intros Hok Hp Ho. pose proof (ro_refs _ _ (po_refs _ _ _ Hok) p Hp) as Hr. rw Ho /= in Hr. destruct Hp as [Hp1 Hp2].
  rw /page_drop /get_page /page_index /release_ref /try_unmark_non_shareable /state_decrement_ref /get_ref.
  rw /index_of in Hr. assert ((heap_start (pg_frames s) <=? p) && (p <? heap_end (pg_frames s)) = true) as Hb by lia.
  rw /mbind /M_bind /gets /assert_ /is_page_aligned Hp2 Hb /=. by rw Hr /= Hr /= Hr.
Qed.

Lemma owners_size own held s : pages_ok own held s → size held = size own.
Proof.
  intros Hok. rw -!size_dom. f_equal. apply set_eq. intros p. rw !elem_of_dom. apply (po_held _ _ _ Hok).
Qed.

Lemma owners_count own held s :
  pages_ok own held s → free_pages (pg_frames s) = total_pages (pg_frames s) - Z.of_nat (size own).
Proof.
  intros Hok. destruct (po_frames _ _ _ Hok) as [l Hl]. pose proof (held_count _ page_size_ok _ _ _ Hl) as Hc.
  rw (fi_count _ _ _ (hi_frames _ _ _ _ Hl)) -(owners_size _ _ _ Hok). lia.
Qed.

(** When every page has an owner, none is free. *)
Lemma all_owned own held s :
  pages_ok own held s → (∀ p, heap_frame (pg_frames s) p → is_Some (own !! p)) → free_pages (pg_frames s) = 0.
Proof.
  intros Hok Hall. destruct (po_frames _ _ _ Hok) as [l Hl]. pose proof (hi_frames _ _ _ _ Hl) as Hf. rw (fi_count _ _ _ Hf).
  destruct l as [|p l]; [done|exfalso]. assert (p ∈ p :: l) as Hp by left. pose proof (fi_free _ _ _ Hf p Hp) as Hhp.
  destruct (proj2 (po_held _ _ _ Hok p) (Hall p Hhp)) as [b Hb].
  by rw (hi_free _ _ _ _ Hl p Hp) in Hb.
Qed.

Lemma allocated_fresh own held s s' o x r :
  allocated own held s o x r s' → match r with
    | Ok p => own !! p = None ∧ memory (pg_frames s') !! p = Some (filled x)
    | Err e => e = NoFreePage ∧ ∀ p, heap_frame (pg_frames s) p → is_Some (own !! p)
    end.
Proof.
  intros (Hh & H). destruct r as [p|e].
  - destruct H as (_ & Ho & Hok). split; [done|]. destruct (po_frames _ _ _ Hok) as [l Hl]. by apply (hi_held _ _ _ _ Hl p _ (lookup_insert_eq _ _ _)).
  - destruct H as (-> & Hall & _). split; [done|]. intros p Hp. by apply Hall, (same_heap_frame _ _ _ Hh).
Qed.

(** C16: In every state that allocating, sharing, releasing and writing pages can reach: a
    page that has owners keeps what they wrote to it, its counter is the number of its
    owners, and the free pages are those without owner; allocating never panics, gives a
    page without owner, zeroed when zeroes are asked for, and fails only when every page
    has one; releasing a page never panics and gives it back exactly when its last owner
    lets it go; releasing a page without owner panics. *)
Theorem pages_sound own held s :
  preachable own held s →
  (∀ p b, held !! p = Some b → memory (pg_frames s) !! p = Some b) ∧
  (∀ p o, own !! p = Some o → wp (ref_count p) (λ n s', n = owner_count (Some o) ∧ s' = s) s) ∧
  free_pages (pg_frames s) = total_pages (pg_frames s) - Z.of_nat (size own) ∧
  wp page_alloc_zeroed (λ r s', match r with
    | Ok p => own !! p = None ∧ memory (pg_frames s') !! p = Some (filled Byte.x00)
    | Err e => e = NoFreePage ∧ ∀ p, heap_frame (pg_frames s) p → is_Some (own !! p)
    end) s ∧
  (∀ p o, own !! p = Some o → wp (page_drop p) (λ _ s', free_pages (pg_frames s') =
    total_pages (pg_frames s') - Z.of_nat (size (drop_own p own))) s) ∧
  (∀ p, heap_frame (pg_frames s) p → own !! p = None → page_drop p s = Panic).
Proof.
  intros Hok%preachable_ok. destruct (po_frames _ _ _ Hok) as [l Hl]. split_and!.
  - intros p b Hb. by apply (hi_held _ _ _ _ Hl p b).
  - intros p o Ho. by apply (ref_count_wp own held).
  - by apply (owners_count own held).
  - eapply wp_mono; [exact (page_alloc_zeroed_wp own held s Hok)|]. intros r s' H. exact (allocated_fresh _ _ _ _ _ _ _ H).
  - intros p o Ho. eapply wp_mono; [exact (page_drop_wp _ _ _ _ _ Hok Ho)|]. intros [] s' [H _]. exact (owners_count _ _ _ H).
  - intros p. exact (drop_free_panics own held s p Hok).
Qed.
End pages.

Module Example.
(** Three pages of memory; the counters take the first of them. *)
Definition raw : Pages := {|
  pg_refs := [];
  pg_frames := {|
    heap_start := 0; heap_end := 0; free_list := None; total_pages := 0; free_pages := 0;
    memory := {[4096 := zeroes 4096; 8192 := zeroes 4096; 12288 := zeroes 4096]} |} |}.
Definition state_of {A} (o : outcome Pages A) : Pages := match o with Ret _ s => s | Panic => raw end.
Definition fresh : Pages := state_of (manager_new 4096 16384 raw).
Definition one : Pages := state_of (page_alloc_zeroed fresh).
Definition shared : Pages := state_of (increment_ref 8192 one).

Lemma shared_reachable : preachable {[8192 := Shared 2]} {[8192 := filled Byte.x00]} shared.
Proof.
  exists 4096, 16384, raw, fresh. split_and!; [lia..|done| |vm_compute; reflexivity|].
  - intros p Hp Hm. pose proof (Z_div_mod_eq_full p PAGE_SIZE) as E. rw Hm in E. change PAGE_SIZE with 4096 in E.
    assert (p = 4096 ∨ p = 8192 ∨ p = 12288) as [->|[->| ->]] by lia; by exists (zeroes 4096).
  - apply (rtc_l _ _ ({[8192 := Shared 1]}, {[8192 := filled Byte.x00]}, one)).
    { apply (pstep_alloc_zeroed ∅ ∅ fresh 8192). vm_compute. reflexivity. }
    apply rtc_once. assert (<[8192 := Shared (1 + 1)]> {[8192 := Shared 1]} = {[8192 := Shared 2]} :> gmap Z Owner) as <- by done.
    apply (pstep_share _ _ one 8192 1 1); [done..|]. vm_compute. reflexivity.
Qed.

Lemma shared_heap : heap_start (pg_frames shared) = 8192 ∧ heap_end (pg_frames shared) = 16384.
Proof. split; vm_compute; reflexivity. Qed.

Lemma pages_sound_witness :
  free_pages (pg_frames shared) = total_pages (pg_frames shared) - 1 ∧ page_drop 12288 shared = Panic ∧
  wp (page_drop 8192) (λ _ s', free_pages (pg_frames s') = total_pages (pg_frames s') - 1) shared.
Proof.
  destruct (pages_sound _ _ _ shared_reachable) as (_ & _ & Hf & _ & Hd & Hp). split_and!; [exact Hf| |].
  - apply Hp; [|done]. rw /heap_page !(proj1 shared_heap) (proj2 shared_heap). split; [|done]. simpl. lia.
  - exact (Hd 8192 (Shared 2) eq_refl).
Defined.
End Example.
