(* ===== verification/Pte.v ===== *)
(** * Page table entries

    Model of [crates/kernel/ov6_kernel/src/memory/page_table/entry.rs].

    A page table is a page of physical memory with 512 words.  An entry is named by the
    address of its table and its index; its operations read and write the word in
    memory. *)

From S2P Require Import Prelude KError Pod SysTypes Addr PageAlloc Pages.

(** ** [PtEntryFlags] *)

Module PtEntryFlags.
Definition V : Z := Z.shiftl 1 0.
Definition R : Z := Z.shiftl 1 1.
Definition W : Z := Z.shiftl 1 2.
Definition X : Z := Z.shiftl 1 3.
Definition U : Z := Z.shiftl 1 4.
Definition G : Z := Z.shiftl 1 5.
Definition A : Z := Z.shiftl 1 6.
Definition D : Z := Z.shiftl 1 7.
Definition C : Z := Z.shiftl 1 8.
Definition RW : Z := Z.lor R W.
Definition RX : Z := Z.lor R X.
Definition RWX : Z := Z.lor (Z.lor R W) X.
Definition UR : Z := Z.lor U R.
Definition UW : Z := Z.lor U W.
Definition URW : Z := Z.lor U RW.
Definition URX : Z := Z.lor U RX.
Definition URWX : Z := Z.lor U RWX.
End PtEntryFlags.
Abbreviation FV := PtEntryFlags.V.
Abbreviation FW := PtEntryFlags.W.
Abbreviation FU := PtEntryFlags.U.
Abbreviation FC := PtEntryFlags.C.
Abbreviation FRWX := PtEntryFlags.RWX.
Abbreviation FURWX := PtEntryFlags.URWX.

(** The set operations of [bitflags]. *)
Definition contains (flags other : Z) : bool := Z.land flags other =? other.
Definition intersects (flags other : Z) : bool := negb (Z.land flags other =? 0).
Definition insert_flags (flags other : Z) : Z := Z.lor flags other.
Definition remove_flags (flags other : Z) : Z := Z.ldiff flags other.

(** ** The word of an entry *)

Definition FLAGS_MASK : Z := 0x3FF.

Definition pte_new {S} (ppn flags : Z) : M S Z :=
  assert_ (Z.land flags FLAGS_MASK =? flags);;
  mret (Z.lor (wrap 64 (Z.shiftl ppn 10)) (Z.land flags 0x3FF)).
Definition pte_flags (w : Z) : Z := Z.land w FLAGS_MASK.
Definition pte_ppn (w : Z) : Z := Z.shiftr w 10.
Definition pte_addr (w : Z) : Z := ppn_addr (pte_ppn w).
Definition is_valid (w : Z) : bool := contains (pte_flags w) FV.
Definition is_leaf (w : Z) : bool := is_valid w && intersects (pte_flags w) FRWX.
Definition is_non_leaf (w : Z) : bool := is_valid w && negb (is_leaf w).
(** [get_page_table]: the address of the table below. *)
Definition get_page_table (w : Z) : option Z := if is_non_leaf w then Some (pte_addr w) else None.

(** A slice of physical memory. *)
Record Chunk := {
  ck_addr : Z;
  ck_len : Z;
}.
(** [get_page_bytes], [get_page_bytes_mut]. *)
Definition get_page_bytes (w : Z) (level : nat) : option Chunk :=
  if is_leaf w then Some {| ck_addr := pte_addr w; ck_len := level_page_size level |} else None.

(** ** Physical memory *)

Definition read_page (p : Z) : M Pages (list byte) :=
  b ← gets (λ s, memory (pg_frames s) !! p);
  unwrap b.

Fixpoint read_phys (fuel : nat) (pa n : Z) : M Pages (list byte) :=
  if n <=? 0 then mret []
  else
    match fuel with
    | O => panic
    | S fuel =>
        let base := page_rounddown pa in
        let k := Z.min n (base + PAGE_SIZE - pa) in
        b ← read_page base;
        rest ← read_phys fuel (pa + k) (n - k);
        mret (slice (Z.to_nat (pa - base)) (Z.to_nat k) b ++ rest)
    end.
Fixpoint write_phys (fuel : nat) (pa : Z) (b : list byte) : M Pages unit :=
  if bool_decide (b = []) then mret tt
  else
    match fuel with
    | O => panic
    | S fuel =>
        let base := page_rounddown pa in
        let k := Z.min (Z.of_nat (length b)) (base + PAGE_SIZE - pa) in
        on_frames (write_page base (splice (Z.to_nat (pa - base)) (take (Z.to_nat k) b)));;
        write_phys fuel (pa + k) (drop (Z.to_nat k) b)
    end.
Definition chunk_fuel (n : Z) : nat := Z.to_nat (n / PAGE_SIZE + 2).
(** [slice\[..n\]] and [slice\[..n\].copy_from_slice(b)]. *)
Definition read_chunk (c : Chunk) (n : Z) : M Pages (list byte) :=
  assert_ (n <=? ck_len c);;
  read_phys (chunk_fuel n) (ck_addr c) n.
Definition write_chunk (c : Chunk) (b : list byte) : M Pages unit :=
  assert_ (Z.of_nat (length b) <=? ck_len c);;
  write_phys (chunk_fuel (Z.of_nat (length b))) (ck_addr c) b.
(** [slice\[off..\]]. *)
Definition chunk_from (c : Chunk) (off : Z) : M Pages Chunk :=
  assert_ (off <=? ck_len c);;
  mret {| ck_addr := ck_addr c + off; ck_len := ck_len c - off |}.

(** ** Entries in memory *)

Record PtEntry := {
  pe_table : Z;
  pe_idx : Z;
}.

Definition entry_off (e : PtEntry) : nat := (8 * Z.to_nat (pe_idx e))%nat.
Definition read_pte (e : PtEntry) : M Pages Z :=
  b ← read_page (pe_table e);
  mret (pof pod_u64 (slice (entry_off e) 8 b)).
Definition write_pte (e : PtEntry) (w : Z) : M Pages unit :=
  on_frames (write_page (pe_table e) (splice (entry_off e) (pto pod_u64 w))).

Definition set_page_table (e : PtEntry) (pt : Z) : M Pages unit :=
  w ← read_pte e;
  assert_ (negb (is_valid w));;
  w ← pte_new (phys_page_num pt) FV;
  write_pte e w.

Definition set_phys_page_num (e : PtEntry) (ppn flags : Z) : M Pages unit :=
  w ← read_pte e;
  assert_ (negb (is_valid w));;
  assert_ (contains flags FV);;
  w ← pte_new ppn flags;
  write_pte e w.

Definition make_copy_on_write (e : PtEntry) : M Pages unit :=
  w ← read_pte e;
  let flags := pte_flags w in
  if contains flags FW then
    let flags := insert_flags (remove_flags flags FW) FC in
    w' ← pte_new (pte_ppn w) flags;
    write_pte e w'
  else mret tt.

(** [request_user_write]: [page] is dropped on the error of [Page::alloc] too. *)
Definition copy_shared (e : PtEntry) (level : nat) (flags pa : Z) : M Pages (result KernelError unit) :=
  r ← page_alloc;
  match r with
  | Err err => page_drop pa;; mret (Err err)
  | Ok new_pa =>
      b ← read_phys (chunk_fuel (level_page_size level)) pa (level_page_size level);
      write_phys (chunk_fuel (level_page_size level)) new_pa b;;
      w ← pte_new (phys_page_num new_pa) flags;
      write_pte e w;;
      page_drop pa;;
      mret (Ok tt)
  end.
Definition request_user_write (e : PtEntry) (level : nat) (va : Z) : M Pages (result KernelError unit) :=
  w ← read_pte e;
  let flags := pte_flags w in
  if contains flags PtEntryFlags.UW then mret (Ok tt)
  else if negb (contains flags (Z.lor FU FC)) then mret (Err (InaccessiblePage va))
  else
    let flags := insert_flags (remove_flags flags FC) FW in
    assert_ (level =? 0)%nat;;
    n ← ref_count (pte_addr w);
    if n =? 1 then
      w' ← pte_new (phys_page_num (pte_addr w)) flags;
      write_pte e w';;
      mret (Ok tt)
    else copy_shared e level flags (pte_addr w).

(** ** Tables *)

(** [PageTableEntries::try_allocate]; a table is 4096 bytes, aligned to 8. *)
Definition TABLE_SIZE : Z := 4096.
Definition TABLE_ALIGN : Z := 8.
Definition try_allocate : M Pages (result KernelError Z) :=
  o ← allocate TABLE_SIZE TABLE_ALIGN;
  match o with
  | None => mret (Err NoFreePage)
  | Some pt => on_frames (fill_page PAGE_SIZE pt Byte.x00);; mret (Ok pt)
  end.

Definition indices : list Z := seqZ 0 512.

(** [PtEntry::free] and [PageTableEntries::free]. *)
Fixpoint entry_free (level : nat) (e : PtEntry) : M Pages unit :=
  w ← read_pte e;
  if negb (is_valid w) then mret tt
  else
    let pa := pte_addr w in
    write_pte e 0;;
    if is_non_leaf w then
      match level with
      | O => panic
      | S l =>
          for_each indices (λ i, entry_free l {| pe_table := pa; pe_idx := i |});;
          deallocate pa TABLE_SIZE TABLE_ALIGN
      end
    else
      assert_ (level =? 0)%nat;;
      h ← is_heap_addr pa;
      if (h : bool) then page_drop pa else mret tt.
Definition entries_free (level : nat) (pt : Z) : M Pages unit :=
  for_each indices (λ i, entry_free level {| pe_table := pt; pe_idx := i |}).
