(* ===== verification/PteSpec.v ===== *)
(** * Facts about page table entries

    The words of entries as page number and flags, the bytes of a table as 512 words, and
    the operations on entries in terms of the owners and contents of pages. *)

From S2P Require Import Prelude KError Pod SysTypes Addr PageAlloc Pages Pte.

(** ** Flags *)

Lemma contains_spec f g : contains f g = true ↔ ∀ n, 0 ≤ n → Z.testbit g n = true → Z.testbit f n = true.
Proof.
  rw /contains Z.eqb_eq. split.
  - intros E n Hn Hg. rw -E Z.land_spec in Hg. by apply andb_prop in Hg as [? _].
  - intros H. apply Z.bits_inj'. intros n Hn. rw Z.land_spec. destruct (Z.testbit g n) eqn:Eg; [|apply andb_false_r].
    by rw (H n Hn Eg).
Qed.

Lemma contains_bit f k : 0 ≤ k → contains f (Z.shiftl 1 k) = Z.testbit f k.
Proof.
  intros Hk. apply eq_true_iff_eq. rw contains_spec Z.shiftl_1_l. split.
  - intros H. apply H; [done|]. by apply Z.pow2_bits_true.
  - intros H n Hn. rw Z.pow2_bits_eqb //. by intros <-%Z.eqb_eq.
Qed.

Lemma contains_lor f g h : contains f (Z.lor g h) = contains f g && contains f h.
Proof.
  apply eq_true_iff_eq. rw andb_true_iff !contains_spec. split.
  - intros H. split; intros n Hn E; apply H; rewrite ?Z.lor_spec ?E ?orb_true_r //.
  - intros [Hg Hh] n Hn. rw Z.lor_spec. intros [E|E]%orb_prop; [by apply Hg|by apply Hh].
Qed.

Lemma intersects_spec f g : intersects f g = true ↔ ∃ n, 0 ≤ n ∧ Z.testbit f n = true ∧ Z.testbit g n = true.
Proof.
  rw /intersects negb_true_iff Z.eqb_neq. split.
  - intros H. destruct (Z.eq_dec (Z.land f g) 0) as [?|Hne]; [done|].
    assert (∃ n, 0 ≤ n ∧ Z.testbit (Z.land f g) n = true) as (n & Hn & E).
    { destruct (Z.lt_total (Z.land f g) 0) as [Hl|[?|Hl]]; [|done|].
      - exists (Z.log2 (Z.pred (- Z.land f g)) + 1). split; [pose proof (Z.log2_nonneg (Z.pred (- Z.land f g))); lia|].
        apply Z.bits_above_log2_neg; lia.
      - exists (Z.log2 (Z.land f g)). split; [apply Z.log2_nonneg|]. by apply Z.bit_log2. }
    rw Z.land_spec in E. apply andb_prop in E as [??]. by exists n.
  - intros (n & Hn & Ef & Eg) H. assert (Z.testbit (Z.land f g) n = true) as E by by rw Z.land_spec Ef Eg.
    by rw H Z.bits_0 in E.
Qed.

Lemma intersects_bit f k : 0 ≤ k → intersects f (Z.shiftl 1 k) = Z.testbit f k.
Proof.
  intros Hk. apply eq_true_iff_eq. rw intersects_spec Z.shiftl_1_l. split.
  - intros (n & Hn & Ef & E). rw Z.pow2_bits_eqb // in E. by apply Z.eqb_eq in E as <-.
  - intros H. exists k. by rw Z.pow2_bits_true.
Qed.

Lemma intersects_lor f g h : intersects f (Z.lor g h) = intersects f g || intersects f h.
Proof.
  apply eq_true_iff_eq. rw orb_true_iff !intersects_spec. split.
  - intros (n & Hn & Ef & E). rw Z.lor_spec in E. apply orb_prop in E as [E|E]; [left|right]; by exists n.
  - intros [(n & Hn & Ef & E)|(n & Hn & Ef & E)]; exists n; rw Z.lor_spec E ?orb_true_r //.
Qed.

(** ** Words *)

Lemma pte_flags_eq w : pte_flags w = w mod 1024.
Proof. rw /pte_flags. change FLAGS_MASK with (Z.ones 10). by rw Z.land_ones. Qed.
Lemma pte_ppn_eq w : pte_ppn w = w / 1024.
Proof. by rw /pte_ppn Z.shiftr_div_pow2. Qed.

Lemma flags_testbit w n : 0 ≤ n < 10 → Z.testbit (pte_flags w) n = Z.testbit w n.
Proof. intros Hn. rw pte_flags_eq. change 1024 with (2 ^ 10). by rw Z.mod_pow2_bits_low; [lia|]. Qed.

Lemma is_valid_bit w : is_valid w = Z.testbit w 0.
Proof. rw /is_valid contains_bit // flags_testbit //. Qed.
Lemma is_leaf_bits w : is_leaf w = Z.testbit w 0 && (Z.testbit w 1 || Z.testbit w 2 || Z.testbit w 3).
Proof. rw /is_leaf is_valid_bit /PtEntryFlags.RWX !intersects_lor !intersects_bit // !flags_testbit //. Qed.
Lemma is_non_leaf_bits w : is_non_leaf w = Z.testbit w 0 && negb (Z.testbit w 1 || Z.testbit w 2 || Z.testbit w 3).
Proof. rw /is_non_leaf is_valid_bit is_leaf_bits. by destruct (Z.testbit w 0). Qed.

Lemma zero_invalid : is_valid 0 = false.
Proof. done. Qed.
Lemma leaf_valid w : is_leaf w = true → is_valid w = true.
Proof. by rw /is_leaf => /andb_prop []. Qed.
Lemma non_leaf_valid w : is_non_leaf w = true → is_valid w = true.
Proof. by rw /is_non_leaf => /andb_prop []. Qed.
Lemma non_leaf_not_leaf w : is_non_leaf w = true → is_leaf w = false.
Proof. rw /is_non_leaf. destruct (is_leaf w); [|done]. by rw andb_false_r. Qed.
Lemma not_leaf_non_leaf w : is_valid w = true → is_leaf w = false → is_non_leaf w = true.
Proof. by rw /is_non_leaf => -> ->. Qed.

(** The word of a page number and flags. *)
Definition word (ppn flags : Z) : Z := ppn * 1024 + flags.

Lemma pte_new_word {S} ppn flags (Q : Z → S → Prop) s :
  0 ≤ ppn < 2 ^ 54 → 0 ≤ flags < 1024 → Q (word ppn flags) s → wp (pte_new ppn flags) Q s.
Proof.
  intros Hp Hf HQ. rw /pte_new. change FLAGS_MASK with (Z.ones 10). change 0x3FF with (Z.ones 10). rw !Z.land_ones //.
  rw Z.mod_small; [lia|]. wp_step. apply wp_assert; [lia|]. wp_step.
  rw Z.shiftl_mul_pow2 // wrap_small; [lia|]. assert (Z.lor (ppn * 2 ^ 10) flags = word ppn flags) as ->; [|done].
  rw /word -Z.add_lor_land. rw (_ : Z.land (ppn * 2 ^ 10) flags = 0); [|change 1024 with (2 ^ 10); lia].
  apply Z.bits_inj'. intros n Hn. rw Z.land_spec Z.bits_0. destruct (decide (n < 10)) as [Hlt|Hge].
  - by rw Z.mul_pow2_bits_low.
  - rw -(Z.mod_small flags (2 ^ 10)) // Z.mod_pow2_bits_high; [lia|]. by rw andb_false_r.
Qed.

Lemma word_flags ppn flags : 0 ≤ flags < 1024 → pte_flags (word ppn flags) = flags.
Proof. intros Hf. by rw pte_flags_eq /word Z.add_comm Z_mod_plus_full Z.mod_small. Qed.
Lemma word_ppn ppn flags : 0 ≤ flags < 1024 → pte_ppn (word ppn flags) = ppn.
Proof. intros Hf. rw pte_ppn_eq /word Z.div_add_l // Z.div_small //. lia. Qed.

Lemma ppn_addr_eq ppn : 0 ≤ ppn < 2 ^ 52 → ppn_addr ppn = ppn * PAGE_SIZE.
Proof. intros Hp. rw /ppn_addr Z.shiftl_mul_pow2 // wrap_small; [|done]. rw /PAGE_SHIFT. lia. Qed.
Lemma phys_page_num_eq pa : phys_page_num pa = pa / PAGE_SIZE.
Proof. by rw /phys_page_num Z.shiftr_div_pow2. Qed.

Lemma word_addr pa flags :
  0 ≤ pa < 2 ^ 64 → pa mod PAGE_SIZE = 0 → 0 ≤ flags < 1024 → pte_addr (word (phys_page_num pa) flags) = pa.
Proof.
  intros Hp Ha Hf. rw /pte_addr word_ppn // phys_page_num_eq. change PAGE_SIZE with 4096 in *.
  rw ppn_addr_eq; [split; [apply Z.div_pos; lia|apply Z.div_lt_upper_bound; lia]|]. change PAGE_SIZE with 4096.
  pose proof (Z_div_mod_eq_full pa 4096). lia.
Qed.

(** ** The bytes of a table *)

#[global] Arguments filled : simpl never.

Definition pte_in (b : list byte) (i : Z) : Z := pof pod_u64 (slice (8 * Z.to_nat i) 8 b).
Definition set_pte (b : list byte) (i w : Z) : list byte := splice (8 * Z.to_nat i) (pto pod_u64 w) b.

#[global] Arguments pte_in : simpl never.
#[global] Arguments set_pte : simpl never.

Abbreviation TABLE_BYTES := (Z.to_nat PAGE_SIZE).

Lemma pto_u64_length w : length (pto pod_u64 w) = 8%nat.
Proof. apply length_le_split. Qed.

Lemma set_pte_length b i w : length b = TABLE_BYTES → 0 ≤ i < 512 → length (set_pte b i w) = TABLE_BYTES.
Proof. intros Hb Hi. change TABLE_BYTES with 4096%nat in *. rw /set_pte splice_length //. rw pto_u64_length. lia. Qed.

Lemma pte_in_set b i j w :
  length b = TABLE_BYTES → 0 ≤ i < 512 → 0 ≤ j < 512 → 0 ≤ w < 2 ^ 64 →
  pte_in (set_pte b i w) j = if decide (i = j) then w else pte_in b j.
Proof.
  intros Hb Hi Hj Hw. change TABLE_BYTES with 4096%nat in Hb. rw /pte_in /set_pte. case_decide as Hij.
  - subst j. rw -(pto_u64_length w) slice_splice; [rw pto_u64_length; lia|]. by apply (pof_pto pod_u64).
  - rw slice_splice_ne // pto_u64_length; lia.
Qed.

Lemma filled_length x : length (filled x) = TABLE_BYTES.
Proof. apply length_replicate. Qed.

Lemma pte_in_zero i : 0 ≤ i < 512 → pte_in (filled Byte.x00) i = 0.
Proof.
  intros Hi. rw /pte_in /filled (_ : slice _ 8 _ = replicate 8 Byte.x00) //. rw /slice drop_replicate take_replicate.
  change TABLE_BYTES with 4096%nat. f_equal. lia.
Qed.

Lemma pte_in_bound b i : length b = TABLE_BYTES → 0 ≤ i < 512 → 0 ≤ pte_in b i < 2 ^ 64.
Proof.
  intros Hb Hi. change TABLE_BYTES with 4096%nat in Hb. rw /pte_in. apply (pof_wf pod_u64). simpl. rw slice_length //. lia.
Qed.

(** ** The state of the memory

    The heap lies between [hs] and [he]; pages have owners and contents. *)

Section vm.
Context (hs he : Z).
Implicit Types (s : Pages) (own : gmap Z Owner) (held : Contents).

Definition hpage (p : Z) : Prop := hs ≤ p < he ∧ p mod PAGE_SIZE = 0.
#[export] Instance hpage_dec p : Decision (hpage p).
Proof. apply and_dec; apply _. Defined.

Record vm_ok own held s : Prop := {
  vo_pages : pages_ok own held s;
  vo_start : heap_start (pg_frames s) = hs;
  vo_end : heap_end (pg_frames s) = he;
}.

Lemma vm_frame own held s p : vm_ok own held s → heap_frame (pg_frames s) p ↔ hpage p.
Proof. intros [_ E1 E2]. by rw /heap_page /hpage E1 E2. Qed.
Lemma vm_owned own held s p o : vm_ok own held s → own !! p = Some o → hpage p.
Proof. intros Hv Ho. apply (vm_frame own held s); [done|]. eapply owned_frame; [apply Hv|by rw Ho]. Qed.
Lemma vm_same own held s own' held' s' :
  vm_ok own held s → pages_ok own' held' s' → same_heap s s' → vm_ok own' held' s'.
Proof. intros [_ E1 E2] Hp [E3 E4]. split; [done|congruence..]. Qed.
Lemma vm_memory own held s p b : vm_ok own held s → held !! p = Some b → memory (pg_frames s) !! p = Some b ∧ length b = TABLE_BYTES.
Proof.
  intros Hv Hb. destruct (po_frames _ _ _ (vo_pages _ _ _ Hv)) as [l Hl], (hi_held _ _ _ _ Hl p b Hb) as [Hp Hm].
  split; [done|]. destruct (fi_pages _ _ _ (hi_frames _ _ _ _ Hl) p Hp) as (c & Hc & <-). congruence.
Qed.
Lemma vm_bounds own held s p : vm_ok own held s → hpage p → 0 < p < 2 ^ 64.
Proof.
  intros Hv [Hp _]. destruct (po_frames _ _ _ (vo_pages _ _ _ Hv)) as [l Hl]. pose proof (fi_range _ _ _ (hi_frames _ _ _ _ Hl)) as Hr.
  rw (vo_start _ _ _ Hv) (vo_end _ _ _ Hv) in Hr. lia.
Qed.

Lemma read_page_wp own held s p b (Q : list byte → Pages → Prop) :
  vm_ok own held s → held !! p = Some b → Q b s → wp (read_page p) Q s.
Proof. intros Hv Hb HQ. rw /read_page. wp_steps. eapply wp_unwrap; [exact (proj1 (vm_memory _ _ _ _ _ Hv Hb))|done]. Qed.

Lemma read_pte_wp own held s t i b (Q : Z → Pages → Prop) :
  vm_ok own held s → held !! t = Some b → Q (pte_in b i) s → wp (read_pte {| pe_table := t; pe_idx := i |}) Q s.
Proof. intros Hv Hb HQ. rw /read_pte. wp_step. apply (read_page_wp own held s t b); [done..|]. by wp_step. Qed.

Lemma write_vm_wp own held s p b g :
  vm_ok own held s → held !! p = Some b → length (g b) = length b →
  wp (on_frames (write_page p g)) (λ _ s', vm_ok own (<[p := g b]> held) s') s.
Proof.
  intros Hv Hb Hg. destruct (vm_memory _ _ _ _ _ Hv Hb) as [Hm _].
  pose proof (write_owned_wp own held s p b g (vo_pages _ _ _ Hv) Hb Hg) as Hw. revert Hw.
  rw /wp /on_frames /zoom /write_page /mbind /M_bind /= Hm /=. intros Hw. split; [done|apply Hv..].
Qed.

Lemma write_pte_wp own held s t i b w :
  vm_ok own held s → held !! t = Some b → 0 ≤ i < 512 →
  wp (write_pte {| pe_table := t; pe_idx := i |} w) (λ _ s', vm_ok own (<[t := set_pte b i w]> held) s') s.
Proof.
  intros Hv Hb Hi. destruct (vm_memory _ _ _ _ _ Hv Hb) as [_ Hl]. apply (write_vm_wp own held s t b); [done..|].
  by rw (set_pte_length b i w) // Hl.
Qed.

(** The result of an allocation. *)
Definition vm_alloc own held (o : Owner) (x : byte) (r : result KernelError Z) s : Prop :=
  match r with
  | Ok p => hpage p ∧ own !! p = None ∧ vm_ok (<[p := o]> own) (<[p := filled x]> held) s
  | Err e => e = NoFreePage ∧ (∀ p, hpage p → is_Some (own !! p)) ∧ vm_ok own held s
  end.

(** The number of pages without an owner. *)
Definition unowned own : Z := (he - hs) / PAGE_SIZE - Z.of_nat (size own).
Lemma vm_unowned own held s : vm_ok own held s → free_pages (pg_frames s) = unowned own.
Proof.
  intros [Hok E1 E2]. rw (owners_count _ _ _ Hok). destruct (po_frames _ _ _ Hok) as [l Hl].
  by rw (fi_total _ _ _ (hi_frames _ _ _ _ Hl)) E1 E2.
Qed.
Lemma vm_full own held s : vm_ok own held s → (∀ p, hpage p → is_Some (own !! p)) → unowned own = 0.
Proof.
  intros Hv Hall. rw -(vm_unowned own held s Hv). apply (all_owned own held); [apply Hv|]. intros p Hp. by apply Hall, (vm_frame own held s).
Qed.

Lemma allocated_vm own held s o x r s' :
  vm_ok own held s → allocated own held s o x r s' → vm_alloc own held o x r s'.
Proof.
  intros Hv [Hh H]. destruct r as [p|e]; simpl.
  - destruct H as (Hp & Ho & Hok). pose proof (vm_same _ _ _ _ _ _ Hv Hok Hh) as Hv'. split_and!; [|done..].
    by apply (vm_frame _ _ _ _ Hv').
  - destruct H as (-> & Hall & Hok). pose proof (vm_same _ _ _ _ _ _ Hv Hok Hh) as Hv'. split_and!; [done| |done].
    intros p Hp. by apply Hall, (vm_frame _ _ _ _ Hv').
Qed.

Lemma vm_page_alloc own held s : vm_ok own held s → wp page_alloc (vm_alloc own held (Shared 1) Byte.x05) s.
Proof. intros Hv. eapply wp_mono; [exact (page_alloc_wp own held s (vo_pages _ _ _ Hv))|]. intros r s'. by apply allocated_vm. Qed.
Lemma vm_page_alloc_zeroed own held s : vm_ok own held s → wp page_alloc_zeroed (vm_alloc own held (Shared 1) Byte.x00) s.
Proof. intros Hv. eapply wp_mono; [exact (page_alloc_zeroed_wp own held s (vo_pages _ _ _ Hv))|]. intros r s'. by apply allocated_vm. Qed.

Lemma try_allocate_wp own held s : vm_ok own held s → wp try_allocate (vm_alloc own held Exclusive Byte.x00) s.
Proof.
  intros Hv. rw /try_allocate. wp_step.
  eapply wp_mono; [apply (allocate_wp own held s); [apply Hv|done..]|]. intros o s' (r & -> & H%(allocated_vm _ _ s)); [|done].
  destruct r as [p|e]; simpl in *; [|wp_step; by destruct H as (-> & ?)]. destruct H as (Hp & Ho & Hv'). wp_step.
  eapply wp_mono; [apply (write_vm_wp _ _ s' p (filled Byte.x05) _ Hv'); [apply lookup_insert_eq|by rw filled_length length_replicate]|].
  intros [] s2 Hv2. wp_step. split_and!; [done..|]. by rw insert_insert_eq in Hv2.
Qed.

Lemma vm_page_drop own held s p o :
  vm_ok own held s → own !! p = Some o → wp (page_drop p) (λ _ s', vm_ok (drop_own p own) (drop_held p own held) s') s.
Proof.
  intros Hv Ho. eapply wp_mono; [exact (page_drop_wp own held s p o (vo_pages _ _ _ Hv) Ho)|]. intros [] s' [Hok Hh].
  by apply (vm_same own held s).
Qed.

Lemma vm_increment_ref own held s p n :
  vm_ok own held s → own !! p = Some (Shared n) → n + 1 < U32MAX →
  wp (increment_ref p) (λ _ s', vm_ok (<[p := Shared (n + 1)]> own) held s') s.
Proof.
  intros Hv Ho Hn. eapply wp_mono; [exact (increment_ref_wp own held s p n (vo_pages _ _ _ Hv) Ho Hn)|].
  intros m s' (_ & Hok & E). apply (vm_same own held s); [done..|]. by rw /same_heap E.
Qed.

Lemma vm_ref_count own held s p o :
  vm_ok own held s → own !! p = Some o → wp (ref_count p) (λ n s', n = owner_count (Some o) ∧ s' = s) s.
Proof. intros Hv Ho. exact (ref_count_wp own held s p o (vo_pages _ _ _ Hv) Ho). Qed.

Lemma vm_is_heap own held s p : vm_ok own held s → wp (is_heap_addr p) (λ h s', h = bool_decide (hpage p) ∧ s' = s) s.
Proof.
  intros [_ E1 E2]. rw /is_heap_addr. wp_steps. split; [|done]. apply eq_true_iff_eq.
  rw bool_decide_eq_true /is_allocated_pointer /in_heap /hpage E1 E2. lia.
Qed.

Lemma vm_deallocate own held s p :
  vm_ok own held s → own !! p = Some Exclusive →
  wp (deallocate p TABLE_SIZE TABLE_ALIGN) (λ _ s', vm_ok (delete p own) (delete p held) s') s.
Proof.
  intros Hv Ho. destruct (vm_owned _ _ _ _ _ Hv Ho) as [_ Hp]. rw /deallocate. wp_step. apply wp_assert; [done|]. wp_step.
  apply wp_assert; [done|]. wp_step. apply wp_assert; [lia|].
  eapply wp_mono; [exact (vm_page_drop own held s p _ Hv Ho)|]. intros [] s'. rw (drop_own_eq _ _ _ Ho) /drop_held Ho //.
Qed.
End vm.
