(* ===== verification/PageTable.v ===== *)
(** * Page tables

    Model of [crates/kernel/ov6_kernel/src/memory/page_table/mod.rs] and
    [page_table/iter.rs].  A page table is the physical address of its root. *)

From S2P Require Import Prelude KError Pod SysTypes Addr PageAlloc Pages Pte.

(** The root of a page table is at level 2. *)
Definition ROOT : nat := 2.

(** ** [MapTarget] *)

Inductive MapTarget :=
  | AllocatedAddr (zeroed allocate_new : bool)
  | FixedAddr (addr : Z).

Definition allocate_new_zeroed : MapTarget := AllocatedAddr true true.

Definition target_is_page_aligned (t : MapTarget) : bool :=
  match t with
  | AllocatedAddr _ _ => true
  | FixedAddr addr => is_page_aligned addr
  end.
Definition target_is_level_page_aligned (t : MapTarget) (level : nat) : bool :=
  match t with
  | AllocatedAddr _ _ => true
  | FixedAddr addr => is_level_page_aligned addr level
  end.
Definition level_offset (t : MapTarget) (level : nat) : Z :=
  match t with
  | AllocatedAddr _ _ => 0
  | FixedAddr addr => addr mod level_page_size level
  end.
Definition target_byte_add (t : MapTarget) (bytes : Z) : option MapTarget :=
  match t with
  | AllocatedAddr _ _ => Some t
  | FixedAddr addr => addr ← pa_byte_add addr bytes; Some (FixedAddr addr)
  end.
Definition allocate_new (t : MapTarget) : bool :=
  match t with
  | AllocatedAddr _ create_new => create_new
  | FixedAddr _ => true
  end.
Definition get_or_allocate (t : MapTarget) (level : nat) : M Pages (result KernelError Z) :=
  match t with
  | AllocatedAddr zeroed _ =>
      assert_ (level =? 0)%nat;;
      if zeroed then page_alloc_zeroed else page_alloc
  | FixedAddr addr => mret (Ok addr)
  end.

(** ** Finding entries *)

Definition entry (pt : Z) (i : Z) : PtEntry := {| pe_table := pt; pe_idx := i |}.

(** [find_leaf_entry], [find_leaf_entry_mut] below a table of [level]. *)
Fixpoint find_leaf (level : nat) (pt va : Z) : M Pages (result KernelError (nat * PtEntry)) :=
  let e := entry pt (level_idx va level) in
  w ← read_pte e;
  if negb (is_valid w) then mret (Err (VirtualPageNotMapped va))
  else if is_leaf w then mret (Ok (level, e))
  else
    assert_ (is_non_leaf w);;
    pt ← unwrap (get_page_table w);
    match level with
    | O => panic
    | S level => find_leaf level pt va
    end.
Definition find_leaf_entry (pt va : Z) : M Pages (result KernelError (nat * PtEntry)) := find_leaf ROOT pt va.

(** The table below an entry, created when there is none. *)
Definition ensure_table (e : PtEntry) : M Pages (result KernelError Z) :=
  w ← read_pte e;
  _ ←? (if negb (is_valid w)
        then new_pt ←? try_allocate; set_page_table e new_pt;; mret (Ok tt)
        else mret (Ok tt));
  w ← read_pte e;
  pt ← unwrap (get_page_table w);
  mret (Ok pt).
(** [find_or_create_leaf], [n] levels above [level]. *)
Fixpoint find_or_create (n level : nat) (pt va : Z) : M Pages (result KernelError PtEntry) :=
  match n with
  | O => mret (Ok (entry pt (level_idx va level)))
  | S n =>
      pt ←? ensure_table (entry pt (level_idx va (level + S n)));
      find_or_create n level pt va
  end.
Definition find_or_create_leaf (pt : Z) (level : nat) (va : Z) : M Pages (result KernelError PtEntry) :=
  assert_ (level <=? 2)%nat;;
  find_or_create (2 - level) level pt va.

(** ** Mapping *)

Definition map_page (pt : Z) (level : nat) (va : Z) (pa : MapTarget) (perm : Z) : M Pages (result KernelError unit) :=
  assert_ (intersects perm FRWX);;
  pte ←? find_or_create_leaf pt level va;
  w ← read_pte pte;
  if is_valid w then
    assert_ (negb (allocate_new pa));;
    let pte_perm := Z.land (pte_flags w) FURWX in
    if negb (perm =? pte_perm) then mret (Err (VirtualAddressWithUnexpectedPerm va perm pte_perm))
    else mret (Ok tt)
  else
    pa ←? get_or_allocate pa level;
    set_phys_page_num pte (phys_page_num pa) (Z.lor perm FV);;
    mret (Ok tt).

(** The number of steps a loop over the pages of an address space can take. *)
Definition FUEL : positive := 2 ^ 40.

Definition map_step (pt : Z) (level : nat) (va_end perm : Z) (st : Z * MapTarget) :
    M Pages (Z * MapTarget + result KernelError (Z * MapTarget)) :=
  let '(va, pa) := st in
  if va <? va_end then
    r ← map_page pt level va pa perm;
    match r with
    | Err e => mret (inr (Err e))
    | Ok _ =>
        va ← unwrap_ok (va_byte_add va (level_page_size level));
        pa ← unwrap (target_byte_add pa (level_page_size level));
        mret (inl (va, pa))
    end
  else mret (inr (Ok (va, pa))).
(** [map_addrs_level]: the result is the address behind the mapping. *)
Definition map_addrs_level (pt : Z) (level : nat) (va : Z) (pa : MapTarget) (size perm : Z) :
    M Pages (result KernelError (Z * MapTarget)) :=
  let page_size := level_page_size level in
  assert_ (is_level_page_aligned va level);;
  assert_ (target_is_level_page_aligned pa level);;
  assert_ (size mod page_size =? 0);;
  assert_ (intersects perm FRWX);;
  va_end ←? mret (va_byte_add va size);
  while_ FUEL (map_step pt level va_end perm) (va, pa).

(** [map_addrs]; the super pages are between [lv1_start_va] and [lv1_end_va]. *)
Definition map_super (pt va : Z) (pa : MapTarget) (va_end lv1_start_va lv1_end_va perm : Z) :
    M Pages (result KernelError unit) :=
  p ←? (if va <? lv1_start_va
        then map_addrs_level pt 0 va pa (lv1_start_va - va) perm
        else mret (Ok (va, pa)));
  p ←? (if lv1_start_va <? lv1_end_va
        then map_addrs_level pt 1 p.1 p.2 (lv1_end_va - p.1) perm
        else mret (Ok p));
  p ←? (if p.1 <? va_end
        then map_addrs_level pt 0 p.1 p.2 (va_end - p.1) perm
        else mret (Ok p));
  assert_ (p.1 =? va_end);;
  mret (Ok tt).
Definition map_addrs (pt va : Z) (pa : MapTarget) (size perm : Z) : M Pages (result KernelError unit) :=
  assert_ (is_page_aligned va);;
  assert_ (target_is_page_aligned pa);;
  assert_ (size mod PAGE_SIZE =? 0);;
  assert_ (intersects perm FRWX);;
  let small := (_ ←? map_addrs_level pt 0 va pa size perm; mret (Ok tt)) in
  match pa with
  | AllocatedAddr _ _ => small
  | FixedAddr _ =>
      if negb (va mod level_page_size 1 =? level_offset pa 1) then small
      else
        va_end ←? mret (va_byte_add va size);
        lv1_start_va ← unwrap (va_from_addr (level_page_roundup va 1));
        lv1_end_va ← unwrap (va_from_addr (level_page_rounddown va_end 1));
        if lv1_end_va <=? lv1_start_va then small
        else map_super pt va pa va_end lv1_start_va lv1_end_va perm
  end.

(** ** Iterators

    A frame of the stack of an iterator: the level and the address of a table, and what is
    left of the range of its indices. *)

Record ItFrame := {
  it_level : nat;
  it_base : Z;
  it_table : Z;
  it_next : Z;
  it_last : Z;
}.
Definition advance (fr : ItFrame) : ItFrame :=
  {| it_level := it_level fr; it_base := it_base fr; it_table := it_table fr; it_next := it_next fr + 1;
     it_last := it_last fr |}.

(** [(lo..=hi).zip(&pt.0\[lo..=hi\])], pushed on the stack. *)
Definition push_table (level : nat) (base pt lo hi : Z) (stack : list ItFrame) : M Pages (list ItFrame) :=
  assert_ ((lo <=? hi + 1) && (hi <? 512));;
  assert_ (length stack <? 3)%nat;;
  mret ({| it_level := level; it_base := base; it_table := pt; it_next := lo; it_last := hi |} :: stack).
(** The table below an entry of a table of level [l + 1] that starts at [level_min_va]. *)
Definition push_below (l : nat) (min_va max_va level_min_va pt : Z) (stack : list ItFrame) : M Pages (list ItFrame) :=
  let level_max_va := with_level_idx level_min_va l 511 in
  let level_min_idx := level_idx (Z.max min_va level_min_va) l in
  let level_max_idx := level_idx (Z.min max_va level_max_va) l in
  push_table l level_min_va pt level_min_idx level_max_idx stack.

(** [LeavesMut]: one turn of the loop of [next]; [inr] is what [next] returns, with the
    stack it leaves. *)
Abbreviation Item := (nat * Z * PtEntry)%type.

Definition leaves_step (min_va max_va : Z) (stack : list ItFrame) :
    M Pages (list ItFrame + option Item * list ItFrame) :=
  match stack with
  | [] => mret (inr (None, []))
  | fr :: rest =>
      if it_last fr <? it_next fr then mret (inl rest)
      else
        let e := entry (it_table fr) (it_next fr) in
        let stack := advance fr :: rest in
        w ← read_pte e;
        let level_min_va := with_level_idx (it_base fr) (it_level fr) (it_next fr) in
        assert_ (negb (is_leaf w) || ((min_va <=? level_min_va) && (level_min_va <=? max_va)));;
        if negb (is_valid w) then mret (inl stack)
        else if is_leaf w then mret (inr (Some (it_level fr, level_min_va, e), stack))
        else
          match it_level fr with
          | O => panic
          | S l =>
              pt ← unwrap (get_page_table w);
              stack ← push_below l min_va max_va level_min_va pt stack;
              mret (inl stack)
          end
  end.
Definition leaves_next (min_va max_va : Z) (stack : list ItFrame) : M Pages (option Item * list ItFrame) :=
  while_ FUEL (leaves_step min_va max_va) stack.

(** [for (level, va, pte) in pt.leaves_mut(range) { body }], left by an error. *)
Definition leaves_turn (min_va max_va : Z) (body : Item → M Pages (result KernelError unit)) (stack : list ItFrame) :
    M Pages (list ItFrame + result KernelError unit) :=
  p ← leaves_next min_va max_va stack;
  match p with
  | (None, _) => mret (inr (Ok tt))
  | (Some item, stack) =>
      r ← body item;
      match r with
      | Err e => mret (inr (Err e))
      | Ok _ => mret (inl stack)
      end
  end.
Definition for_leaves (pt : Z) (range : Bound * Bound) (body : Item → M Pages (result KernelError unit)) :
    M Pages (result KernelError unit) :=
  match range_inclusive range.1 range.2 with
  | None => mret (Ok tt)
  | Some (min_va, max_va) =>
      stack ← push_table 2 0 pt (level_idx min_va 2) (level_idx max_va 2) [];
      while_ FUEL (leaves_turn min_va max_va body) stack
  end.

(** [Entries]: all entries of a range, a table before what is below it.  The flag says
    that the entry given last has a table to be entered. *)
Definition entries_enter (min_va max_va : Z) (stack : list ItFrame) : M Pages (list ItFrame) :=
  match stack with
  | [] => panic
  | fr :: rest =>
      assert_ (it_next fr <=? it_last fr);;
      let level_va := with_level_idx (it_base fr) (it_level fr) (it_next fr) in
      w ← read_pte (entry (it_table fr) (it_next fr));
      match it_level fr with
      | O => panic
      | S l =>
          assert_ (level_idx level_va l =? 0);;
          pt ← unwrap (get_page_table w);
          push_below l min_va max_va (with_level_idx level_va l 0) pt (advance fr :: rest)
      end
  end.
Definition entries_step (stack : list ItFrame) :
    M Pages (list ItFrame + option (nat * Z * Z) * list ItFrame * bool) :=
  match stack with
  | [] => mret (inr (None, [], false))
  | fr :: rest =>
      if it_last fr <? it_next fr then mret (inl rest)
      else
        w ← read_pte (entry (it_table fr) (it_next fr));
        let level_min_va := with_level_idx (it_base fr) (it_level fr) (it_next fr) in
        let item := Some (it_level fr, level_min_va, w) in
        if negb (is_valid w) || is_leaf w then mret (inr (item, advance fr :: rest, false))
        else mret (inr (item, fr :: rest, true))
  end.
Definition entries_next (min_va max_va : Z) (stack : list ItFrame) (last_item_is_non_leaf : bool) :
    M Pages (option (nat * Z * Z) * list ItFrame * bool) :=
  stack ← (if last_item_is_non_leaf then entries_enter min_va max_va stack else mret stack);
  while_ FUEL entries_step stack.

(** [pt.entries(range).try_for_each(f)]. *)
Definition entries_turn (min_va max_va : Z) (f : nat → Z → Z → result KernelError unit) (st : list ItFrame * bool) :
    M Pages (list ItFrame * bool + result KernelError unit) :=
  p ← entries_next min_va max_va st.1 st.2;
  match p with
  | (None, _, _) => mret (inr (Ok tt))
  | (Some (level, va, w), stack, flag) =>
      match f level va w with
      | Err e => mret (inr (Err e))
      | Ok _ => mret (inl (stack, flag))
      end
  end.
Definition try_for_each (pt : Z) (range : Bound * Bound) (f : nat → Z → Z → result KernelError unit) :
    M Pages (result KernelError unit) :=
  match range_inclusive range.1 range.2 with
  | None => mret (Ok tt)
  | Some (min_va, max_va) =>
      stack ← push_table 2 0 pt (level_idx min_va 2) (level_idx max_va 2) [];
      while_ FUEL (entries_turn min_va max_va f) (stack, false)
  end.

(** ** [PageTable] *)

Definition Range (start stop : Z) : Bound * Bound := (Included start, Excluded stop).

Definition validate_entry (flags : Z) (level : nat) (va w : Z) : result KernelError unit :=
  if negb (is_valid w) then Err (VirtualPageNotMapped va)
  else if is_leaf w then
    let pte_flags := if contains (pte_flags w) FC then insert_flags (pte_flags w) FW else pte_flags w in
    if negb (contains pte_flags flags) then Err (InaccessiblePage va) else Ok tt
  else Ok tt.
Definition validate (pt : Z) (range : Bound * Bound) (flags : Z) : M Pages (result KernelError unit) :=
  try_for_each pt range (validate_entry flags).

(** [clone_pages_from]: the leaf is made copy-on-write, shared, and mapped in [self]. *)
Definition clone_leaf (self flags : Z) (item : Item) : M Pages (result KernelError unit) :=
  let '(level, va, src_pte) := item in
  w ← read_pte src_pte;
  if negb (is_leaf w) then mret (Ok tt)
  else if negb (contains (pte_flags w) flags) then mret (Err (InaccessiblePage va))
  else
    let page_size := level_page_size level in
    make_copy_on_write src_pte;;
    w ← read_pte src_pte;
    let pa := pte_addr w in
    increment_ref pa;;
    _ ←? map_addrs_level self level va (FixedAddr pa) page_size (pte_flags w);
    mret (Ok tt).
Definition clone_pages_from (self other : Z) (range : Bound * Bound) (flags : Z) : M Pages (result KernelError unit) :=
  for_leaves other range (clone_leaf self flags).

Definition unmap_range (pt : Z) (range : Bound * Bound) : M Pages unit :=
  for_leaves pt range (λ '(level, _, pte), entry_free level pte;; mret (Ok tt));;
  mret tt.
Definition unmap_addrs (pt va size : Z) : M Pages (result KernelError unit) :=
  stop ←? mret (va_byte_add va size);
  unmap_range pt (Range va stop);;
  mret (Ok tt).

Definition fetch_chunk (pt va flags : Z) : M Pages (result KernelError Chunk) :=
  p ←? find_leaf_entry pt va;
  w ← read_pte p.2;
  assert_ (is_valid w && is_leaf w);;
  if negb (contains (pte_flags w) flags) then mret (Err (InaccessiblePage va))
  else
    page ← unwrap (get_page_bytes w p.1);
    c ← chunk_from page (va mod ck_len page);
    mret (Ok c).
Definition fetch_chunk_mut (pt va flags : Z) : M Pages (result KernelError Chunk) :=
  p ←? find_leaf_entry pt va;
  w ← read_pte p.2;
  assert_ (is_valid w && is_leaf w);;
  _ ←? (if contains (pte_flags w) FC then request_user_write p.2 p.1 va else mret (Ok tt));
  w ← read_pte p.2;
  if negb (contains (pte_flags w) flags) then mret (Err (InaccessiblePage va))
  else
    page ← unwrap (get_page_bytes w p.1);
    c ← chunk_from page (va mod ck_len page);
    mret (Ok c).

(** [PageTable::request_user_write]. *)
Definition table_request_user_write (pt va : Z) : M Pages (result KernelError unit) :=
  p ←? find_leaf_entry pt va;
  _ ←? request_user_write p.2 p.1 va;
  w ← read_pte p.2;
  assert_ (contains (pte_flags w) FW);;
  mret (Ok tt).

(** The destructor: the entries, then the box of the root. *)
Definition table_drop (pt : Z) : M Pages unit :=
  entries_free 2 pt;;
  deallocate pt TABLE_SIZE TABLE_ALIGN.
