(* ===== verification/PtSpec.v ===== *)
(** * The abstract view of a page table

    A page table that maps single pages is the set of its tables, each under its level and
    the first address it covers, and a map from the addresses of mapped pages to the words
    of their entries.  [pt_inv] says that the memory holds such a table, that its entries
    are accounted for in the counters of the pages, that a page that can be written is
    mapped once and that the pages of the user are pages of the heap.  [ext] are the references from other page tables. *)

From S2P Require Import Prelude KError Pod SysTypes Addr PageAlloc Pages Pte PteSpec PageTable.

(** ** Addresses *)

(** The size of a page of a level; a table of the level covers 512 of them. *)
Definition psz (l : nat) : Z := PAGE_SIZE * 512 ^ Z.of_nat l.
(** The first address of the table of a level that covers an address. *)
Definition tb (l : nat) (va : Z) : Z := va - va mod psz (S l).

Lemma psz_0 : psz 0 = 4096.
Proof. done. Qed.
Lemma psz_1 : psz 1 = 2097152.
Proof. done. Qed.
Lemma psz_2 : psz 2 = 1073741824.
Proof. done. Qed.
Lemma psz_3 : psz 3 = 549755813888.
Proof. done. Qed.
Lemma psz_S l : psz (S l) = 512 * psz l.
Proof. rw /psz Nat2Z.inj_succ Z.pow_succ_r; lia. Qed.
Lemma psz_pos l : 0 < psz l.
Proof. rw /psz. change PAGE_SIZE with 4096. pose proof (Z.pow_pos_nonneg 512 (Z.of_nat l)). lia. Qed.

Lemma level_idx_psz va l : 0 ≤ va → (l ≤ 2)%nat → level_idx va l = va / psz l mod 512.
Proof. intros Hv Hl. rw level_idx_eq //. by do 3 (destruct l as [|l]; [done|]); lia. Qed.

(** The entry for an address in its table. *)
Lemma tb_idx va l : 0 ≤ va → (l ≤ 2)%nat → tb l va + level_idx va l * psz l = va - va mod psz l.
Proof.
  intros Hv Hl. rw level_idx_psz // /tb psz_S. pose proof (psz_pos l). rw (Z.mul_comm 512) Z.rem_mul_r; [lia..|]. lia.
Qed.
Lemma tb_child va l : 0 ≤ va → (l < 2)%nat → tb (S l) va + level_idx va (S l) * psz (S l) = tb l va.
Proof. intros Hv Hl. by rw tb_idx. Qed.

Lemma tb_aligned l va : tb l va mod psz (S l) = 0.
Proof.
  rw /tb. pose proof (psz_pos (S l)). pose proof (Z_div_mod_eq_full va (psz (S l))).
  replace (va - va mod psz (S l)) with (va / psz (S l) * psz (S l)) by lia. by apply Z_mod_mult.
Qed.

(** The parts of a table. *)
Lemma tb_part l base i x :
  base mod psz (S l) = 0 → 0 ≤ i < 512 → 0 ≤ x < psz l → tb l (base + i * psz l + x) = base.
Proof.
  intros Hb Hi Hx. rw /tb psz_S in Hb |- *. pose proof (psz_pos l).
  apply Z.mod_divide in Hb as [k ->]; [|lia]. rw -Z.add_assoc Z.add_comm Z_mod_plus_full Z.mod_small; nia.
Qed.
Lemma idx_part l base i x :
  (l ≤ 2)%nat → 0 ≤ base → base mod psz (S l) = 0 → 0 ≤ i < 512 → 0 ≤ x < psz l → level_idx (base + i * psz l + x) l = i.
Proof.
  intros Hl Hb0 Hb Hi Hx. pose proof (psz_pos l). rw level_idx_psz //; [nia|]. rw psz_S in Hb.
  apply Z.mod_divide in Hb as [k ->]; [|lia]. replace (k * (512 * psz l) + i * psz l + x) with ((k * 512 + i) * psz l + x) by lia.
  rw Z.div_add_l; [lia|]. rw (Z.div_small x) // Z.add_0_r Z.add_comm Z_mod_plus_full Z.mod_small //.
Qed.

Lemma part_aligned l base i : base mod psz (S l) = 0 → (base + i * psz l) mod psz l = 0.
Proof.
  rw psz_S. pose proof (psz_pos l). intros [k ->]%Z.mod_divide; [|lia]. apply Z.mod_divide; [lia|]. exists (512 * k + i). ring.
Qed.

Lemma with_idx l base i :
  (l ≤ 2)%nat → 0 ≤ base → base mod psz (S l) = 0 → 0 ≤ i < 512 → with_level_idx base l i = base + i * psz l.
Proof.
  intros Hl Hb0 Hb Hi. rw /with_level_idx. set (sh := level_shift l).
  assert (0 ≤ sh) as Hsh by (subst sh; rw /level_shift /PAGE_SHIFT; lia).
  assert (psz l = 2 ^ sh) as Ep by (subst sh; by do 3 (destruct l as [|l]; [done|]); lia).
  rw psz_S Ep in Hb. apply Z.mod_divide in Hb as [k ->]; [|pose proof (Z.pow_pos_nonneg 2 sh); lia].
  rw Ep !Z.shiftl_mul_pow2 //. replace (k * (512 * 2 ^ sh)) with (k * 2 ^ (9 + sh)) by (rw Z.pow_add_r; lia).
  assert (Z.ldiff (k * 2 ^ (9 + sh)) (0x1ff * 2 ^ sh) = k * 2 ^ (9 + sh)) as ->.
  { apply Z.bits_inj'. intros n Hn. rw Z.ldiff_spec. destruct (decide (n < 9 + sh)); [by rw Z.mul_pow2_bits_low|].
    assert (Z.testbit (0x1ff * 2 ^ sh) n = false) as ->; [|by rw andb_true_r].
    rw Z.mul_pow2_bits; [lia|]. change 0x1ff with (Z.ones 9). rw Z.ones_spec_high //. lia. }
  pose proof (Z.add_lor_land (k * 2 ^ (9 + sh)) (i * 2 ^ sh)) as Ha.
  assert (Z.land (k * 2 ^ (9 + sh)) (i * 2 ^ sh) = 0) as Hl0; [|rw Hl0 in Ha; lia].
  apply Z.bits_inj'. intros n Hn. rw Z.land_spec Z.bits_0. destruct (decide (n < 9 + sh)); [by rw Z.mul_pow2_bits_low|].
  rw andb_comm Z.mul_pow2_bits; [lia|]. rw -(Z.mod_small i (2 ^ 9)) // Z.mod_pow2_bits_high //. lia.
Qed.

(** ** Abstract page tables *)

Record PT := {
  tabs : gmap (nat * Z) Z;
  lvs : gmap Z Z;
}.
Definition add_tab (k : nat * Z) (t : Z) (pt : PT) : PT := {| tabs := <[k := t]> (tabs pt); lvs := lvs pt |}.
Definition set_lvs (m : gmap Z Z) (pt : PT) : PT := {| tabs := tabs pt; lvs := m |}.

(** The entry of a table that starts at [base]. *)
Definition entry_ok (pt : PT) (l : nat) (base i w : Z) : Prop :=
  match l with
  | O =>
      match lvs pt !! (base + i * psz l) with
      | Some w' => w = w' ∧ is_leaf w = true
      | None => is_valid w = false
      end
  | S l' =>
      match tabs pt !! (l', base + i * psz l) with
      | Some t => is_non_leaf w = true ∧ pte_addr w = t
      | None => is_valid w = false
      end
  end.

(** The address space is that of three levels. *)
Definition VA_SIZE : Z := psz 3.

Record pt_wf (root : Z) (pt : PT) : Prop := {
  pw_root : tabs pt !! (2%nat, 0) = Some root;
  pw_tabs : ∀ l base t, tabs pt !! (l, base) = Some t →
    (l ≤ 2)%nat ∧ 0 ≤ base < VA_SIZE ∧ base mod psz (S l) = 0 ∧ ((l < 2)%nat → is_Some (tabs pt !! (S l, tb (S l) base)));
  pw_lvs : ∀ a w, lvs pt !! a = Some w → 0 ≤ a < VA_SIZE ∧ a mod PAGE_SIZE = 0 ∧ is_Some (tabs pt !! (0%nat, tb 0 a));
  pw_inj : ∀ k k' t, tabs pt !! k = Some t → tabs pt !! k' = Some t → k = k';
}.

Definition pt_mem (own : gmap Z Owner) (held : Contents) (pt : PT) : Prop :=
  ∀ l base t, tabs pt !! (l, base) = Some t → own !! t = Some Exclusive ∧
    ∃ b, held !! t = Some b ∧ ∀ i, 0 ≤ i < 512 → entry_ok pt l base i (pte_in b i).

(** The references of a page table to a page, and those the counter of the page knows. *)
Definition refs (pt : PT) (p : Z) : Z := Z.of_nat (size (filter (λ x : Z * Z, pte_addr x.2 = p) (lvs pt))).
Definition share (own : gmap Z Owner) (p : Z) : Z :=
  match own !! p with
  | Some (Shared n) => n
  | _ => 0
  end.

Lemma size_filter_insert (m : gmap Z Z) (P : Z * Z → Prop) `{∀ x, Decision (P x)} a w :
  m !! a = None → size (filter P (<[a := w]> m)) = ((if decide (P (a, w)) then 1 else 0) + size (filter P m))%nat.
Proof.
  intros Ha. case_decide as HP.
  - rw map_filter_insert_True // map_size_insert_None //. apply map_lookup_filter_None. by left.
  - rw map_filter_insert_False // delete_id //.
Qed.

Lemma refs_insert pt a w p :
  lvs pt !! a = None → refs (set_lvs (<[a := w]> (lvs pt)) pt) p = refs pt p + (if decide (pte_addr w = p) then 1 else 0).
Proof. intros Ha. rw /refs /= size_filter_insert // /=. repeat case_decide; lia. Qed.

Lemma refs_delete pt a w p :
  lvs pt !! a = Some w → refs (set_lvs (delete a (lvs pt)) pt) p = refs pt p - (if decide (pte_addr w = p) then 1 else 0).
Proof.
  intros Ha. assert (refs pt p = refs (set_lvs (<[a := w]> (delete a (lvs pt))) pt) p) as ->.
  { rw insert_delete_id //. }
  rw /refs /= size_filter_insert; [apply lookup_delete_eq|]. simpl. repeat case_decide; lia.
Qed.

Lemma refs_replace pt a w w' p :
  lvs pt !! a = Some w →
  refs (set_lvs (<[a := w']> (lvs pt)) pt) p =
    refs pt p - (if decide (pte_addr w = p) then 1 else 0) + (if decide (pte_addr w' = p) then 1 else 0).
Proof.
  intros Ha. pose proof (refs_delete pt a w p Ha) as Hd. set (pt' := set_lvs (delete a (lvs pt)) pt) in *.
  rw -Hd -(refs_insert pt' a w') //; [apply lookup_delete_eq|]. rw /refs /= insert_delete_eq //.
Qed.

Lemma pt_refs_nonneg pt p : 0 ≤ refs pt p.
Proof. rw /refs. lia. Qed.

Lemma pt_refs_pos pt a w : lvs pt !! a = Some w → 1 ≤ refs pt (pte_addr w).
Proof. intros Ha. pose proof (refs_delete pt a w (pte_addr w) Ha) as H. rw decide_True // in H. pose proof (pt_refs_nonneg (set_lvs (delete a (lvs pt)) pt) (pte_addr w)). lia. Qed.

(** Two entries for the same page. *)
Lemma refs_two pt a a' w w' :
  a ≠ a' → lvs pt !! a = Some w → lvs pt !! a' = Some w' → pte_addr w = pte_addr w' → 2 ≤ refs pt (pte_addr w).
Proof.
  intros Hne Ha Ha' E. pose proof (refs_delete pt a w (pte_addr w) Ha) as H. rw decide_True // in H.
  assert (lvs (set_lvs (delete a (lvs pt)) pt) !! a' = Some w') as Hd by (simpl; by rw lookup_delete_ne).
  apply pt_refs_pos in Hd. rw -E in Hd. lia.
Qed.

Section pt_inv.
Context (hs he : Z) (ext : Z → Z) (Hext : ∀ p, 0 ≤ ext p) (root : Z).
Implicit Types (s : Pages) (own : gmap Z Owner) (held : Contents) (pt : PT).
Abbreviation vm_ok := (vm_ok hs he).
Abbreviation hpage := (hpage hs he).

Record pt_inv own held pt : Prop := {
  pi_wf : pt_wf root pt;
  pi_mem : pt_mem own held pt;
  pi_count : ∀ p, hpage p → share own p = refs pt p + ext p;
  pi_write : ∀ a w, lvs pt !! a = Some w → Z.testbit w 2 = true → hpage (pte_addr w) → share own (pte_addr w) = 1;
  pi_user : ∀ a w, lvs pt !! a = Some w → Z.testbit w 4 = true → hpage (pte_addr w);
}.

(** What an operation on one page table leaves to the others: their tables, the pages they
    map, and their right to write. *)
Definition is_tab pt (t : Z) : Prop := map_Exists (λ _ x, x = t) (tabs pt).
#[local] Instance is_tab_dec pt t : Decision (is_tab pt t).
Proof. apply _. Defined.
Lemma is_tab_spec pt t : is_tab pt t ↔ ∃ k, tabs pt !! k = Some t.
Proof. split; [intros (k & x & Hk & ->); by exists k|intros [k Hk]; by exists k, t]. Qed.

Record vstep own held pt own' held' pt' : Prop := {
  vs_excl : ∀ p, own !! p = Some Exclusive → ¬ is_tab pt p → own' !! p = Some Exclusive ∧ held' !! p = held !! p;
  vs_fresh : ∀ t, is_tab pt' t → own !! t = Some Exclusive → is_tab pt t;
  vs_data : ∀ p, hpage p → 0 < ext p → held' !! p = held !! p;
  vs_refs : ∀ p, hpage p → 0 < ext p → refs pt' p ≤ refs pt p;
  vs_new : ∀ q, own' !! q = Some Exclusive → own !! q = Some Exclusive ∨ is_tab pt' q;
  vs_keep : tabs pt ⊆ tabs pt';
}.
Lemma is_tab_mono pt pt' t : tabs pt ⊆ tabs pt' → is_tab pt t → is_tab pt' t.
Proof. intros Hs [k Hk]%is_tab_spec. apply is_tab_spec. exists k. by apply (lookup_weaken _ _ _ _ Hk). Qed.

Lemma vstep_refl own held pt : vstep own held pt own held pt.
Proof. split; [done..|intros; lia|by left|done]. Qed.

Lemma vstep_trans own held pt own1 held1 pt1 own2 held2 pt2 :
  vstep own held pt own1 held1 pt1 → vstep own1 held1 pt1 own2 held2 pt2 → vstep own held pt own2 held2 pt2.
Proof.
  intros [E1 F1 D1 R1 N1 K1] [E2 F2 D2 R2 N2 K2]. split.
  - intros p Hp Ht. destruct (E1 p Hp Ht) as [Ho1 Hh1]. rw -Hh1. apply E2; [done|].
    intros H. by apply Ht, F1.
  - intros t H Ho. destruct (decide (is_tab pt t)) as [|Ht]; [done|]. destruct (E1 t Ho Ht) as [Ho1 _].
    by apply F1, Ho; apply F2.
  - intros p Hp He. by rw D2 // D1.
  - intros p Hp He. etrans; [by apply R2|by apply R1].
  - intros q [Hq|?]%N2; [|by right]. destruct (N1 q Hq); [by left|right]. by apply (is_tab_mono pt1).
  - exact (transitivity K1 K2).
Qed.

(** ** Entries in memory *)

(** The table for an address. *)
Lemma tab_index l base t a pt :
  pt_wf root pt → tabs pt !! (l, base) = Some t → tb l a = base → 0 ≤ a → (l ≤ 2)%nat ∧ 0 ≤ level_idx a l < 512.
Proof. intros Hw Ht _ Ha. destruct (pw_tabs _ _ Hw _ _ _ Ht) as (Hl & _). split; [done|by apply level_idx_bound]. Qed.

(** The entry with the address [a] is no other entry of its level. *)
Lemma entry_unique l base base' i i' :
  base mod psz (S l) = 0 → base' mod psz (S l) = 0 → 0 ≤ i < 512 → 0 ≤ i' < 512 →
  base + i * psz l = base' + i' * psz l → base = base' ∧ i = i'.
Proof.
  intros Hb Hb' Hi Hi' E. pose proof (psz_pos l). pose proof (tb_part l base i 0 Hb Hi ltac:(lia)) as E1.
  pose proof (tb_part l base' i' 0 Hb' Hi' ltac:(lia)) as E2. rw E E2 in E1. subst base'. split; [done|]. nia.
Qed.

(** Writing the entry of a page. *)
Lemma pt_mem_leaf own held pt t b a m w :
  pt_wf root pt → pt_mem own held pt → tabs pt !! (0%nat, tb 0 a) = Some t → held !! t = Some b → length b = TABLE_BYTES →
  0 ≤ a → a mod PAGE_SIZE = 0 → 0 ≤ w < 2 ^ 64 → (∀ a', a' ≠ a → m !! a' = lvs pt !! a') →
  match m !! a with Some w' => w = w' ∧ is_leaf w = true | None => is_valid w = false end →
  pt_mem own (<[t := set_pte b (level_idx a 0) w]> held) (set_lvs m pt).
Proof.
  intros Hw Hm Ht Hb Hlen Ha Hal Hwr Hne Hent l base t' Ht'. simpl in Ht'. destruct (Hm _ _ _ Ht') as (Ho & c & Hc & Hents).
  split; [done|]. destruct (pw_tabs _ _ Hw _ _ _ Ht') as (Hl & Hb0 & Hbm & _).
  pose proof (level_idx_bound a 0 Ha) as Hi. pose proof (tb_idx a 0 Ha ltac:(lia)) as Ei.
  change (psz 0) with PAGE_SIZE in Ei. rw Hal Z.sub_0_r in Ei.
  destruct (decide (t' = t)) as [->|Hnt].
  - pose proof (pw_inj _ _ Hw _ _ _ Ht Ht') as [= <- <-]. rw Hc in Hb. injection Hb as ->.
    eexists. rw lookup_insert_eq. split; [done|]. intros i Hi'. rw pte_in_set //. rw /entry_ok /=. case_decide as Hij.
    + subst i. change (psz 0) with PAGE_SIZE. by rw Ei.
    + rw Hne; [|by apply Hents]. intros E. apply Hij. change (psz 0) with PAGE_SIZE in E. change PAGE_SIZE with 4096 in *. lia.
  - exists c. rw lookup_insert_ne; [congruence|]. split; [done|]. intros i Hi'. specialize (Hents i Hi'). destruct l as [|l]; [|done].
    rw /entry_ok /= Hne; [|done]. intros E. apply Hnt. rw -Ei in E.
    apply (entry_unique 0) in E as [E _]; [|done|apply tb_aligned|done..]. congruence.
Qed.

(** A new table below the entry [i]. *)
Lemma pt_mem_table own held pt l base t b i t' w :
  pt_wf root pt → pt_mem own held pt → tabs pt !! (S l, base) = Some t → held !! t = Some b → length b = TABLE_BYTES →
  0 ≤ i < 512 → own !! t' = None → tabs pt !! (l, base + i * psz (S l)) = None → (∀ a w, lvs pt !! a = Some w → l = O → tb 0 a ≠ base + i * psz (S l)) →
  0 ≤ w < 2 ^ 64 → is_non_leaf w = true → pte_addr w = t' →
  pt_mem (<[t' := Exclusive]> own) (<[t := set_pte b i w]> (<[t' := filled Byte.x00]> held)) (add_tab (l, base + i * psz (S l)) t' pt).
Proof.
  intros Hw Hm Ht Hb Hlen Hi Hn Hnt Hlv Hwr Hnl Hpa l1 base1 t1 Ht1. simpl in Ht1.
  destruct (pw_tabs _ _ Hw _ _ _ Ht) as (Hl & Hb0 & Hbm & _). destruct (Hm _ _ _ Ht) as (Hot & _).
  assert (t' ≠ t) as Hne by congruence.
  apply lookup_insert_Some in Ht1 as [[[= <- <-] <-]|[Hk Ht1]].
  - rw lookup_insert_eq. split; [done|]. rw lookup_insert_ne; [congruence|]. rw lookup_insert_eq. eexists. split; [done|].
    intros j Hj. rw pte_in_zero // /entry_ok. destruct l as [|l]; simpl.
    + destruct (lvs pt !! _) as [w'|] eqn:E; [|done]. exfalso. eapply (Hlv _ _ E); [done|].
      pose proof (tb_part 0 (base + i * psz 1) j 0) as Hp. rw Z.add_0_r in Hp. apply Hp; [by apply part_aligned|done|change (psz 0) with 4096; lia].
    + rw lookup_insert_ne; [intros [= ?]; lia|]. destruct (tabs pt !! (l, base + i * psz (S (S l)) + j * psz (S l))) as [t2|] eqn:E; [|done].
      exfalso. destruct (pw_tabs _ _ Hw _ _ _ E) as (_ & _ & _ & Hp). destruct Hp as [t3 Hp]; [lia|].
      pose proof (tb_part (S l) (base + i * psz (S (S l))) j 0) as Htb. rw Z.add_0_r in Htb.
      rw Htb in Hp; [by apply part_aligned|done|pose proof (psz_pos (S l)); lia|congruence].
  - destruct (Hm _ _ _ Ht1) as (Ho1 & c & Hc & Hents). assert (t' ≠ t1) as Hne1 by congruence.
    rw lookup_insert_ne; [congruence|]. split; [done|]. destruct (pw_tabs _ _ Hw _ _ _ Ht1) as (Hl1 & _ & Hbm1 & _).
    assert (∀ j w', 0 ≤ j < 512 → (l1, base1, j) ≠ (S l, base, i) → entry_ok pt l1 base1 j w' →
      entry_ok (add_tab (l, base + i * psz (S l)) t' pt) l1 base1 j w') as Hpres.
    { intros j w' Hj Hk'. destruct l1 as [|l1]; [done|]. rw /entry_ok /= lookup_insert_ne //. intros [= -> E].
      apply (entry_unique (S l1)) in E as [-> ->]; [|done..]. done. }
    destruct (decide (t = t1)) as [<-|Hnt1].
    + pose proof (pw_inj _ _ Hw _ _ _ Ht Ht1) as [= <- <-]. rw Hc in Hb. injection Hb as ->.
      rw lookup_insert_eq. eexists. split; [done|]. intros j Hj. rw pte_in_set //. case_decide as Hij.
      * subst j. rw /entry_ok /= lookup_insert_eq //.
      * apply Hpres; [done|congruence|by apply Hents].
    + rw lookup_insert_ne; [congruence|]. rw lookup_insert_ne; [congruence|]. exists c. split; [done|]. intros j Hj. apply Hpres; [done| |by apply Hents].
      intros [= -> -> ->]. congruence.
Qed.

(** ** Creating tables *)

Lemma share_fresh own p t o : own !! t = None → (∀ n, o ≠ Shared n) → share (<[t := o]> own) p = share own p.
Proof.
  intros Ht Ho. rw /share. destruct (decide (t = p)) as [->|Hne]; [|by rw lookup_insert_ne].
  rw lookup_insert_eq Ht. destruct o; [by destruct (Ho n)|done].
Qed.

Lemma tab_bytes own held s pt l base t :
  vm_ok own held s → pt_mem own held pt → tabs pt !! (l, base) = Some t →
  ∃ b, held !! t = Some b ∧ length b = TABLE_BYTES ∧ ∀ i, 0 ≤ i < 512 → entry_ok pt l base i (pte_in b i).
Proof.
  intros Hv Hm Ht. destruct (Hm _ _ _ Ht) as (_ & b & Hb & He). exists b. split_and!; [done| |done].
  by destruct (vm_memory _ _ _ _ _ _ _ Hv Hb).
Qed.

Lemma pt_inv_table own held pt l base t b i t' w :
  pt_inv own held pt → tabs pt !! (S l, base) = Some t → held !! t = Some b → length b = TABLE_BYTES →
  0 ≤ i < 512 → own !! t' = None → tabs pt !! (l, base + i * psz (S l)) = None →
  0 ≤ w < 2 ^ 64 → is_non_leaf w = true → pte_addr w = t' →
  pt_inv (<[t' := Exclusive]> own) (<[t := set_pte b i w]> (<[t' := filled Byte.x00]> held)) (add_tab (l, base + i * psz (S l)) t' pt).
Proof.
  intros [Hw Hm Hc Hwr Hus] Ht Hb Hlen Hi Hn Hnt Hwb Hnl Hpa. destruct (pw_tabs _ _ Hw _ _ _ Ht) as (Hl & Hb0 & Hbm & _).
  pose proof (psz_pos (S l)) as Hpos. set (a := base + i * psz (S l)) in *.
  assert (tb (S l) a = base) as Htb by (rw -(tb_part (S l) base i 0) ?Z.add_0_r //; lia).
  assert (0 ≤ a < VA_SIZE) as Ha.
  { split; [subst a; nia|]. destruct (decide (S l = 2%nat)) as [E|]; [|assert (l = O) as E by lia].
    - injection E as ->. rw /VA_SIZE /a in Hb0 |- *. rw psz_3 in Hbm Hb0 |- *. rw psz_2. rw Z.mod_small // in Hbm. lia.
    - subst l. rw /VA_SIZE /a in Hb0 |- *. rw psz_3 in Hb0 |- *. rw psz_2 in Hbm. rw psz_1.
      apply Z.mod_divide in Hbm as [k ->]; [|done]. nia. }
  split.
  - split; simpl.
    + rw lookup_insert_ne; [intros [= ? ?]; lia|]. apply Hw.
    + intros l1 base1 t1. rw lookup_insert_Some. intros [[[= <- <-] <-]|[Hk Ht1]].
      * split_and!; [lia|lia..|by apply part_aligned|]. intros _. rw Htb. rw lookup_insert_ne; [intros [= ? ?]; lia|]. by rw Ht.
      * destruct (pw_tabs _ _ Hw _ _ _ Ht1) as (? & ? & ? & Hp). do 3 (split; [done|]). intros Hlt.
        rw lookup_insert_is_Some'. right. by apply Hp.
    + intros a1 w1 Ha1. destruct (pw_lvs _ _ Hw _ _ Ha1) as (? & ? & ?). split_and!; [lia..|done|]. rw lookup_insert_is_Some'. by right.
    + intros k k' t1. rw !lookup_insert_Some. intros [[<- <-]|[Hk1 Ht1]] [[<- E]|[Hk2 Ht2]]; [done|..].
      * destruct k' as [l' b']. destruct (Hm _ _ _ Ht2) as [? _]. congruence.
      * subst t1. destruct k as [l' b']. destruct (Hm _ _ _ Ht1) as [? _]. congruence.
      * by apply (pw_inj _ _ Hw _ _ t1).
  - apply pt_mem_table; try done. intros a1 w1 Ha1 -> E. destruct (pw_lvs _ _ Hw _ _ Ha1) as (_ & _ & Hs). rw E Hnt in Hs. by destruct Hs.
  - intros p Hp. rw share_fresh //. by apply Hc.
  - intros a1 w1 Ha1 Hw1 Hp. rw share_fresh //. by apply (Hwr a1).
  - done.
Qed.

(** What mapping can change: tables and pages are added. *)
Record grows own held pt own' held' pt' : Prop := {
  gr_step : vstep own held pt own' held' pt';
  gr_tabs : tabs pt ⊆ tabs pt';
  gr_own : own ⊆ own';
  gr_data : ∀ p n, own !! p = Some (Shared n) → held' !! p = held !! p;
}.

Lemma grows_refl own held pt : grows own held pt own held pt.
Proof. split; [apply vstep_refl|done..]. Qed.
Lemma grows_trans own held pt own1 held1 pt1 own2 held2 pt2 :
  grows own held pt own1 held1 pt1 → grows own1 held1 pt1 own2 held2 pt2 → grows own held pt own2 held2 pt2.
Proof.
  intros [S1 T1 O1 D1] [S2 T2 O2 D2]. split; [exact (vstep_trans _ _ _ _ _ _ _ _ _ S1 S2)|exact (transitivity T1 T2)|exact (transitivity O1 O2)|].
  intros p n Hp. rw -(D1 p n) //. apply (D2 p n). by apply (lookup_weaken _ _ _ _ Hp).
Qed.

Lemma grows_table own held pt l base t b i t' w :
  pt_inv own held pt → tabs pt !! (S l, base) = Some t → own !! t' = None → tabs pt !! (l, base + i * psz (S l)) = None →
  grows own held pt (<[t' := Exclusive]> own) (<[t := set_pte b i w]> (<[t' := filled Byte.x00]> held)) (add_tab (l, base + i * psz (S l)) t' pt).
Proof.
  intros [Hw Hm Hc _ _] Ht Hn Hnt. destruct (Hm _ _ _ Ht) as [Hot _].
  assert (∀ p, p ≠ t → own !! p ≠ None → (<[t := set_pte b i w]> (<[t' := filled Byte.x00]> held) : Contents) !! p = held !! p) as Hne.
  { intros p Hp Hop. by rw !lookup_insert_ne; [congruence..|]. }
  split; [split| | |].
  - intros p Hp Htab. assert (p ≠ t) by (intros ->; apply Htab, is_tab_spec; by exists (S l, base)).
    split; [by rw lookup_insert_ne; [congruence|]|]. apply Hne; congruence.
  - intros t1 [k Hk]%is_tab_spec Ho. simpl in Hk. apply lookup_insert_Some in Hk as [[_ <-]|[_ Hk]]; [congruence|].
    apply is_tab_spec. by exists k.
  - intros p Hp He. assert (0 < share own p) as Hs by (rw Hc //; pose proof (pt_refs_nonneg pt p); lia).
    apply Hne; [intros ->|intros E]; by rw /share ?Hot ?E in Hs.
  - intros p Hp He. rw /refs /=. lia.
  - intros q. rw lookup_insert_Some. intros [[<- _]|[_ ?]]; [right|by left]. apply is_tab_spec. exists (l, base + i * psz (S l)). apply lookup_insert_eq.
  - by apply insert_subseteq.
  - by apply insert_subseteq.
  - by apply insert_subseteq.
  - intros p n Hp. apply Hne; congruence.
Qed.

Definition VWORD (t : Z) : Z := word (phys_page_num t) FV.
Lemma vword_ok t : 0 < t < 2 ^ 64 → t mod PAGE_SIZE = 0 →
  0 ≤ phys_page_num t < 2 ^ 54 ∧ 0 ≤ VWORD t < 2 ^ 64 ∧ is_non_leaf (VWORD t) = true ∧ pte_addr (VWORD t) = t.
Proof.
  intros Ht Ha. rw /VWORD. change FV with 1. split_and!; [| | | | |apply word_addr; [lia|done..]].
  1-4: rw ?/word phys_page_num_eq; change PAGE_SIZE with 4096; Z.div_mod_to_equations; lia.
  rw is_non_leaf_bits /word. rw -!(flags_testbit (_ * 1024 + 1)) //. by rw pte_flags_eq Z.add_comm Z_mod_plus_full.
Qed.

Lemma set_page_table_wp own held s t b i t' :
  vm_ok own held s → held !! t = Some b → 0 ≤ i < 512 → is_valid (pte_in b i) = false → 0 < t' < 2 ^ 64 → t' mod PAGE_SIZE = 0 →
  wp (set_page_table (entry t i) t') (λ _ s', vm_ok own (<[t := set_pte b i (VWORD t')]> held) s') s.
Proof.
  intros Hv Hb Hi Hinv Ht Ha. rw /set_page_table. wp_step. apply (read_pte_wp hs he own held s t i b); [done..|]. wp_step.
  apply wp_assert; [by rw Hinv|]. wp_step. destruct (vword_ok t' Ht Ha) as (Hp & _ & _ & _).
  apply pte_new_word; [done..|]. by apply (write_pte_wp hs he own held s t i b).
Qed.

Lemma ensure_table_wp own held s pt l base t i :
  vm_ok own held s → pt_inv own held pt → tabs pt !! (S l, base) = Some t → 0 ≤ i < 512 →
  wp (ensure_table (entry t i)) (λ r s', ∃ own' held' pt', vm_ok own' held' s' ∧ pt_inv own' held' pt' ∧
    grows own held pt own' held' pt' ∧ lvs pt' = lvs pt ∧
    match r with
    | Ok t' => tabs pt' !! (l, base + i * psz (S l)) = Some t'
    | Err e => e = NoFreePage
    end) s.
Proof.
  intros Hv Hi Ht Hix. destruct (tab_bytes own held s pt _ _ _ Hv (pi_mem _ _ _ Hi) Ht) as (b & Hb & Hlen & He).
  specialize (He i Hix). rw /entry_ok in He. rw /ensure_table. wp_step. apply (read_pte_wp hs he own held s t i b); [done..|].
  destruct (tabs pt !! (l, base + i * psz (S l))) as [t'|] eqn:Et.
  - destruct He as [Hnl Hpa]. rw (non_leaf_valid _ Hnl). wp_step. cbn [negb]. wp_step. wp_step.
    apply (read_pte_wp hs he own held s t i b); [done..|]. rw /get_page_table Hnl. wp_steps.
    exists own, held, pt. split_and!; [done..|apply grows_refl|done|congruence].
  - rw He. wp_step. cbn [negb]. wp_step. eapply wp_mono; [exact (try_allocate_wp hs he own held s Hv)|]. intros [t'|e] s1 Ha; simpl in Ha.
    2: { wp_steps. exists own, held, pt. destruct Ha as (-> & _ & ?). split_and!; [done..|apply grows_refl|done|done]. }
    destruct Ha as (Hp & Hn & Hv1). destruct (vword_ok t' ltac:(by apply (vm_bounds hs he own held s)) ltac:(apply Hp)) as (_ & Hwb & Hwn & Hwa).
    assert (t' ≠ t) as Hne by (destruct (pi_mem _ _ _ Hi _ _ _ Ht); congruence).
    wp_step. eapply wp_mono; [apply (set_page_table_wp _ _ s1 t b i t' Hv1); [rw lookup_insert_ne //|done|done|by apply (vm_bounds hs he own held s)|apply Hp]|].
    intros [] s2 Hv2. do 2 wp_step. apply (read_pte_wp hs he _ _ s2 t i (set_pte b i (VWORD t')) _ Hv2); [apply lookup_insert_eq|].
    rw pte_in_set; [done..|]. rw decide_True; [done|]. rw /get_page_table Hwn. wp_step. apply (wp_unwrap _ (pte_addr (VWORD t'))); [done|]. wp_step. eexists _, _, (add_tab (l, base + i * psz (S l)) t' pt).
    split_and!; [exact Hv2|by apply pt_inv_table|by apply grows_table|done|]. simpl. by rw lookup_insert_eq Hwa.
Qed.

Lemma find_or_create_wp n va own held s pt t :
  (n ≤ 2)%nat → 0 ≤ va → vm_ok own held s → pt_inv own held pt → tabs pt !! (n, tb n va) = Some t →
  wp (find_or_create n 0 t va) (λ r s', ∃ own' held' pt', vm_ok own' held' s' ∧ pt_inv own' held' pt' ∧
    grows own held pt own' held' pt' ∧ lvs pt' = lvs pt ∧
    match r with
    | Ok e => ∃ t', e = entry t' (level_idx va 0) ∧ tabs pt' !! (0%nat, tb 0 va) = Some t'
    | Err e => e = NoFreePage
    end) s.
Proof.
  revert own held s pt t. induction n as [|n IH]; intros own held s pt t Hn Hva Hv Hi Ht; cbn [find_or_create].
  - wp_step. exists own, held, pt. split_and!; [done..|apply grows_refl|done|]. by exists t.
  - wp_step. cbn [Nat.add]. eapply wp_mono; [apply (ensure_table_wp own held s pt n (tb (S n) va) t); [done..|by apply level_idx_bound]|].
    intros [t'|e] s1 (own1 & held1 & pt1 & Hv1 & Hi1 & Hg1 & El1 & Hr).
    + rw tb_child // in Hr. eapply wp_mono; [apply (IH own1 held1 s1 pt1 t'); [lia|done..]|].
      intros r s2 (own2 & held2 & pt2 & Hv2 & Hi2 & Hg2 & El2 & Hr2). exists own2, held2, pt2.
      split_and!; [done..|exact (grows_trans _ _ _ _ _ _ _ _ _ Hg1 Hg2)|congruence|done].
    + exists own1, held1, pt1. by split_and!.
Qed.

(** ** Leaves *)

(** Changing the entry of a page, with the owners that come with it. *)
Lemma pt_inv_leaf own held pt own' held' t b a m w :
  pt_wf root pt → pt_mem own held pt → (∀ t, is_tab pt t → own' !! t = own !! t ∧ held' !! t = held !! t) →
  tabs pt !! (0%nat, tb 0 a) = Some t → held !! t = Some b → length b = TABLE_BYTES →
  0 ≤ a < VA_SIZE → a mod PAGE_SIZE = 0 → 0 ≤ w < 2 ^ 64 → (∀ a', a' ≠ a → m !! a' = lvs pt !! a') →
  match m !! a with Some w' => w = w' ∧ is_leaf w = true | None => is_valid w = false end →
  (∀ p, hpage p → share own' p = refs (set_lvs m pt) p + ext p) →
  (∀ a w, m !! a = Some w → Z.testbit w 2 = true → hpage (pte_addr w) → share own' (pte_addr w) = 1) →
  (∀ a w, m !! a = Some w → Z.testbit w 4 = true → hpage (pte_addr w)) →
  pt_inv own' (<[t := set_pte b (level_idx a 0) w]> held') (set_lvs m pt).
Proof.
  intros Hw Hm Htabs Ht Hb Hlen Ha Hal Hwb Hne Hent Hc Hwr Hus. split; [|..|done|done|done].
  - destruct Hw as [R T L I]. split; [done..| |done]. simpl. intros a' w' Ha'. destruct (decide (a' = a)) as [->|Hn].
    + split_and!; [lia..|done|by rw Ht].
    + rw Hne // in Ha'. by apply L in Ha'.
  - apply pt_mem_leaf; [done| |done| |done|lia|done..].
    + intros l base t1 Ht1. destruct (Htabs t1) as [-> ->]; [apply is_tab_spec; by exists (l, base)|]. by apply Hm.
    + destruct (Htabs t) as [_ ->]; [apply is_tab_spec; by exists (0%nat, tb 0 a)|]. done.
Qed.
End pt_inv.
