(* ===== verification/PtMap.v ===== *)
(** * Mapping pages

    The operations that map pages in a page table, in terms of its abstract view. *)

From S2P Require Import Prelude KError Pod SysTypes Addr PageAlloc Pages Pte PteSpec PageTable PtSpec.

(** The word of a new leaf. *)
Definition leaf_word (p perm : Z) : Z := word (phys_page_num p) (Z.lor perm FV).

Lemma lor_flags a b : 0 ≤ a < 1024 → 0 ≤ b < 1024 → 0 ≤ Z.lor a b < 1024.
Proof.
  intros Ha Hb. split; [by apply Z.lor_nonneg; lia|]. change 1024 with (2 ^ 10). destruct (decide (Z.lor a b = 0)) as [->|Hn]; [done|].
  assert (0 < Z.lor a b) as Hp by (pose proof (Z.lor_nonneg a b); lia). apply Z.log2_lt_pow2; [done|]. rw Z.log2_lor; [lia..|].
  assert (∀ x, 0 ≤ x < 1024 → Z.log2 x < 10) as Hl.
  { intros x Hx. destruct (decide (x = 0)) as [->|]; [done|]. apply Z.log2_lt_pow2; lia. }
  apply Z.max_lub_lt; by apply Hl.
Qed.

Lemma leaf_ppn p : 0 ≤ p < 2 ^ 64 → 0 ≤ phys_page_num p < 2 ^ 52.
Proof. intros Hp. rw phys_page_num_eq. change PAGE_SIZE with 4096. Z.div_mod_to_equations. lia. Qed.

Section leaf_word.
Context (p perm : Z) (Hp : 0 ≤ p < 2 ^ 64) (Hal : p mod PAGE_SIZE = 0) (Hperm : 0 ≤ perm < 1024).

Lemma leaf_flags : 0 ≤ Z.lor perm FV < 1024.
Proof. by apply lor_flags. Qed.
Lemma leaf_word_bound : 0 ≤ leaf_word p perm < 2 ^ 64.
Proof. pose proof leaf_flags. pose proof (leaf_ppn p Hp). rw /leaf_word /word. lia. Qed.
Lemma leaf_word_addr : pte_addr (leaf_word p perm) = p.
Proof. apply word_addr; [done..|apply leaf_flags]. Qed.
Lemma leaf_word_flags : pte_flags (leaf_word p perm) = Z.lor perm FV.
Proof. apply word_flags, leaf_flags. Qed.
Lemma leaf_word_bit n : 0 < n < 10 → Z.testbit (leaf_word p perm) n = Z.testbit perm n.
Proof.
  intros Hn. rw -flags_testbit; [lia|]. rw leaf_word_flags Z.lor_spec. change FV with (2 ^ 0). rw Z.pow2_bits_false; [lia|]. apply orb_false_r.
Qed.
Lemma leaf_word_leaf : intersects perm FRWX = true → is_leaf (leaf_word p perm) = true.
Proof.
  intros Hx. rw is_leaf_bits (leaf_word_bit 1) // (leaf_word_bit 2) // (leaf_word_bit 3) //. rw /PtEntryFlags.RWX !intersects_lor !intersects_bit // in Hx.
  rw Hx -flags_testbit // leaf_word_flags Z.lor_spec. change (Z.testbit FV 0) with true. by rw orb_true_r.
Qed.
End leaf_word.

Section pt_map.
Context (hs he : Z) (ext : Z → Z) (Hext : ∀ p, 0 ≤ ext p) (root : Z).
Implicit Types (s : Pages) (own : gmap Z Owner) (held : Contents) (pt : PT).
Abbreviation vm_ok := (vm_ok hs he).
Abbreviation hpage := (hpage hs he).
Abbreviation pt_inv := (pt_inv hs he ext root).
Abbreviation grows := (grows hs he ext).

Lemma share_new own p q : own !! p = None → share (<[p := Shared 1]> own) q = share own q + (if decide (p = q) then 1 else 0).
Proof.
  intros Hp. rw /share. case_decide as E; [subst q; by rw lookup_insert_eq Hp|]. rw lookup_insert_ne //. lia.
Qed.

(** Mapping a page that was just allocated. *)
Lemma pt_inv_new own held pt t b a p c perm :
  pt_inv own held pt → tabs pt !! (0%nat, tb 0 a) = Some t → held !! t = Some b → length b = TABLE_BYTES →
  0 ≤ a < VA_SIZE → a mod PAGE_SIZE = 0 → lvs pt !! a = None → own !! p = None → 0 ≤ p < 2 ^ 64 → p mod PAGE_SIZE = 0 →
  0 ≤ perm < 1024 → intersects perm FRWX = true → hpage p →
  pt_inv (<[p := Shared 1]> own) (<[t := set_pte b (level_idx a 0) (leaf_word p perm)]> (<[p := c]> held))
    (set_lvs (<[a := leaf_word p perm]> (lvs pt)) pt) ∧
  grows own held pt (<[p := Shared 1]> own) (<[t := set_pte b (level_idx a 0) (leaf_word p perm)]> (<[p := c]> held))
    (set_lvs (<[a := leaf_word p perm]> (lvs pt)) pt).
Proof.
  intros Hi Ht Hb Hlen Ha Hal Hna Hn Hp Hpal Hperm Hx Hhp. pose proof Hi as [Hw Hm Hc Hwr Hus].
  assert (∀ q, own !! q ≠ None → p ≠ q) as Hpq by congruence.
  assert (∀ q, refs (set_lvs (<[a := leaf_word p perm]> (lvs pt)) pt) q = refs pt q + (if decide (p = q) then 1 else 0)) as Hrefs.
  { intros q. rw refs_insert // leaf_word_addr //. }
  assert (share own p = 0) as Hs0 by by rw /share Hn.
  assert (∀ q, own !! q ≠ None → q ≠ t → (<[t := set_pte b (level_idx a 0) (leaf_word p perm)]> (<[p := c]> held) : Contents) !! q = held !! q) as Hheld.
  { intros q Hq Hqt. rw lookup_insert_ne; [congruence|]. rw lookup_insert_ne //. by apply Hpq. }
  destruct (Hm _ _ _ Ht) as [Hot _]. split.
  - apply (pt_inv_leaf hs he ext root own held pt); [done..| |done|done|done|lia|done| | | | | |].
    + intros t1 [k Hk]%is_tab_spec. destruct k as [l1 b1]. destruct (Hm _ _ _ Hk) as [Ho1 _].
      assert (p ≠ t1) by (apply Hpq; by rw Ho1). by rw !lookup_insert_ne.
    + by apply leaf_word_bound.
    + intros a' Ha'. by rw lookup_insert_ne; [congruence|].
    + rw lookup_insert_eq. split; [done|]. by apply leaf_word_leaf.
    + intros q Hq. rw share_new // Hrefs Hc //. lia.
    + intros a' w' Ha' Hb2 Hpa. rw share_new //. apply lookup_insert_Some in Ha' as [[_ <-]|[Hne Ha']].
      * rw leaf_word_addr // decide_True //. lia.
      * rw decide_False; [|rw (Hwr _ _ Ha' Hb2 Hpa); lia]. intros E. pose proof (pt_refs_pos _ _ _ Ha'). rw -E in H.
        rw -E in Hpa. pose proof (Hc _ Hpa). pose proof (Hext p). lia.
    + intros a' w' [[_ <-]|[_ Ha']]%lookup_insert_Some; [by rw leaf_word_addr|by apply (Hus a')].
  - split; [split| | |].
    + intros q Hq Htab. split; [rw lookup_insert_ne; [apply Hpq; by rw Hq|done]|]. apply Hheld; [by rw Hq|].
      intros ->. apply Htab, is_tab_spec. by exists (0%nat, tb 0 a).
    + done.
    + intros q Hq He. assert (0 < share own q) as Hs by (rw Hc //; pose proof (pt_refs_nonneg pt q); lia).
      apply Hheld; [intros E; by rw /share E in Hs|intros ->; by rw /share Hot in Hs].
    + intros q Hq He. rw Hrefs decide_False; [|lia]. intros <-. pose proof (Hc _ Hq). pose proof (pt_refs_nonneg pt p). lia.
    + intros q. rw lookup_insert_Some. intros [[_ [=]]|[_ ?]]. by left.
    + done.
    + done.
    + by apply insert_subseteq.
    + intros q n Hq. apply Hheld; congruence.
Qed.

(** The entry of an address in a table of level 0. *)
Lemma leaf_entry own held s pt a t :
  vm_ok own held s → pt_inv own held pt → tabs pt !! (0%nat, tb 0 a) = Some t → 0 ≤ a → a mod PAGE_SIZE = 0 →
  ∃ b, held !! t = Some b ∧ length b = TABLE_BYTES ∧
    match lvs pt !! a with
    | Some w => pte_in b (level_idx a 0) = w ∧ is_leaf w = true
    | None => is_valid (pte_in b (level_idx a 0)) = false
    end.
Proof.
  intros Hv Hi Ht Ha Hal. destruct (tab_bytes hs he own held s pt _ _ _ Hv (pi_mem _ _ _ _ _ _ _ Hi) Ht) as (b & Hb & Hl & He).
  exists b. split; [done|]. split; [done|]. specialize (He (level_idx a 0) (level_idx_bound a 0 Ha)). rw /entry_ok in He.
  rw tb_idx // in He; [lia|]. change (psz 0) with PAGE_SIZE in He. rw Hal Z.sub_0_r in He.
  destruct (lvs pt !! a); [|done]. destruct He as [-> ?]. done.
Qed.

Lemma set_phys_page_num_wp own held s t b i p perm :
  vm_ok own held s → held !! t = Some b → 0 ≤ i < 512 → is_valid (pte_in b i) = false → 0 ≤ p < 2 ^ 64 → 0 ≤ perm < 1024 →
  wp (set_phys_page_num (entry t i) (phys_page_num p) (Z.lor perm FV))
    (λ _ s', vm_ok own (<[t := set_pte b i (leaf_word p perm)]> held) s') s.
Proof.
  intros Hv Hb Hi Hinv Hp Hperm. rw /set_phys_page_num. wp_step. apply (read_pte_wp hs he own held s t i b); [done..|]. wp_step.
  apply wp_assert; [by rw Hinv|]. wp_step. apply wp_assert.
  { apply contains_spec. intros n Hn Hb1. rw Z.lor_spec Hb1. apply orb_true_r. }
  wp_step. pose proof (leaf_ppn p Hp). apply pte_new_word; [lia|by apply lor_flags|]. by apply (write_pte_wp hs he own held s t i b).
Qed.

Definition fill_of (zeroed : bool) : byte := if zeroed then Byte.x00 else Byte.x05.

Lemma get_or_allocate_wp own held s zeroed new :
  vm_ok own held s → wp (get_or_allocate (AllocatedAddr zeroed new) 0) (vm_alloc hs he own held (Shared 1) (fill_of zeroed)) s.
Proof.
  intros Hv. rw /get_or_allocate. wp_step. apply wp_assert; [done|]. destruct zeroed; [by apply vm_page_alloc_zeroed|by apply vm_page_alloc].
Qed.

(** What mapping one page does to the leaves. *)
Definition page_mapped own own' held' (m m' : gmap Z Z) (a perm : Z) (x : byte) : Prop :=
  match m !! a with
  | Some w => m' = m ∧ perm = Z.land (pte_flags w) FURWX
  | None => ∃ p, hpage p ∧ own !! p = None ∧ own' !! p = Some (Shared 1) ∧ held' !! p = Some (filled x) ∧ m' = <[a := leaf_word p perm]> m
  end.

Lemma map_page_wp own held s pt a zeroed new perm :
  vm_ok own held s → pt_inv own held pt → 0 ≤ a < VA_SIZE → a mod PAGE_SIZE = 0 → 0 ≤ perm < 1024 →
  intersects perm FRWX = true → (new = true → lvs pt !! a = None) →
  wp (map_page root 0 a (AllocatedAddr zeroed new) perm) (λ r s', ∃ own' held' pt', vm_ok own' held' s' ∧ pt_inv own' held' pt' ∧
    grows own held pt own' held' pt' ∧
    match r with
    | Ok _ => page_mapped own own' held' (lvs pt) (lvs pt') a perm (fill_of zeroed)
    | Err e => lvs pt' = lvs pt ∧ (e = NoFreePage ∨ ∃ w, lvs pt !! a = Some w ∧
        e = VirtualAddressWithUnexpectedPerm a perm (Z.land (pte_flags w) FURWX))
    end) s.
Proof.
  intros Hv Hi Ha Hal Hperm Hx Hnew. rw /map_page. wp_step. apply wp_assert; [done|]. rw /find_or_create_leaf. wp_step. wp_step.
  apply wp_assert; [done|]. assert (tb 2 a = 0) as E2 by (rw /tb; change (psz 3) with VA_SIZE; rw Z.mod_small //; lia).
  eapply wp_mono; [apply (find_or_create_wp hs he ext root 2 a own held s pt root); [done|lia|done..|rw E2; apply Hi]|].
  intros [e|e] s1 (own1 & held1 & pt1 & Hv1 & Hi1 & Hg1 & El & Hr).
  2: { exists own1, held1, pt1. split_and!; [done..|by left]. }
  destruct Hr as (t & -> & Ht). destruct (leaf_entry own1 held1 s1 pt1 a t Hv1 Hi1 Ht ltac:(lia) Hal) as (b & Hb & Hlen & Hent).
  wp_step. apply (read_pte_wp hs he own1 held1 s1 t (level_idx a 0) b); [done..|]. rw El in Hent.
  rw /page_mapped. destruct (lvs pt !! a) as [w|] eqn:Ea.
  - destruct Hent as [-> Hlf]. rw (leaf_valid _ Hlf). cbn iota. wp_step. apply wp_assert; [destruct new; [by specialize (Hnew eq_refl)|done]|].
    case: Z.eqb_spec => Hpe; cbn [negb]; wp_step; exists own1, held1, pt1; split_and!; try done. right. by exists w.
  - rw Hent. cbn iota. wp_step. eapply wp_mono; [exact (get_or_allocate_wp own1 held1 s1 zeroed new Hv1)|]. intros [p|e] s2 Hal2; simpl in Hal2.
    2: { destruct Hal2 as (-> & _ & Hv2). exists own1, held1, pt1. split_and!; [done..|by left]. }
    destruct Hal2 as (Hp & Hn & Hv2). pose proof (vm_bounds hs he _ _ _ p Hv1 Hp) as Hpb. destruct (Hp) as [_ Hpal].
    assert (p ≠ t) as Hpt by (destruct (pi_mem _ _ _ _ _ _ _ Hi1 _ _ _ Ht); congruence). wp_step.
    eapply wp_mono; [apply (set_phys_page_num_wp _ _ s2 t b (level_idx a 0) p perm Hv2); [by rw lookup_insert_ne|apply level_idx_bound; lia|done|lia|done]|].
    intros [] s3 Hv3. wp_step. rw -El in Ea.
    destruct (pt_inv_new own1 held1 pt1 t b a p (filled (fill_of zeroed)) perm Hi1 Ht Hb Hlen Ha Hal Ea Hn ltac:(lia) Hpal Hperm Hx Hp) as [Hi3 Hg3].
    eexists _, _, _. split; [exact Hv3|]. split; [exact Hi3|]. split; [exact (grows_trans _ _ _ _ _ _ _ _ _ _ _ _ Hg1 Hg3)|].
    exists p. split; [done|]. split; [|split; [apply lookup_insert_eq|split]].
    + destruct (own !! p) eqn:Eo; [|done]. apply (lookup_weaken _ own1) in Eo; [congruence|apply Hg1].
    + rw lookup_insert_ne; [congruence|]. by rw lookup_insert_eq.
    + simpl. by rw El.
Qed.

Lemma page_pos : 0 < PAGE_SIZE.
Proof. done. Qed.
Lemma page_below y c : y mod PAGE_SIZE = 0 → c mod PAGE_SIZE = 0 → y < c + PAGE_SIZE → y ≠ c → y < c.
Proof. change PAGE_SIZE with 4096. intros. Z.div_mod_to_equations. lia. Qed.
Lemma page_next c d : c mod PAGE_SIZE = 0 → d mod PAGE_SIZE = 0 → c < d → c + PAGE_SIZE ≤ d ∧ (c + PAGE_SIZE) mod PAGE_SIZE = 0.
Proof. change PAGE_SIZE with 4096. intros. Z.div_mod_to_equations. lia. Qed.

(** What mapping the pages from [a] to [c] does. *)
Definition range_mapped own own' held' (m m' : gmap Z Z) (a c perm : Z) (x : byte) : Prop :=
  (∀ y, a ≤ y < c → y mod PAGE_SIZE = 0 →
     match m !! y with
     | Some w => m' !! y = Some w ∧ perm = Z.land (pte_flags w) FURWX
     | None => ∃ p, hpage p ∧ own !! p = None ∧ own' !! p = Some (Shared 1) ∧ held' !! p = Some (filled x) ∧ m' !! y = Some (leaf_word p perm)
     end) ∧
  (∀ y, ¬ (a ≤ y < c ∧ y mod PAGE_SIZE = 0) → m' !! y = m !! y).

Lemma range_nil own held m a perm x : range_mapped own own held m m a a perm x.
Proof. split; [intros; lia|done]. Qed.

Lemma range_grow own own1 held1 pt1 own2 held2 pt2 m m' a c perm x :
  grows own1 held1 pt1 own2 held2 pt2 → range_mapped own own1 held1 m m' a c perm x → range_mapped own own2 held2 m m' a c perm x.
Proof.
  intros G [Hin Hout]. split; [|done]. intros y Hy Hym. specialize (Hin y Hy Hym). destruct (m !! y) as [w|]; [done|].
  destruct Hin as (p & Hhp & Hn & Ho & Hh & Hl). exists p. split_and!; [done..| | |done].
  - apply (lookup_weaken _ _ _ _ Ho), G.
  - by rw (gr_data _ _ _ _ _ _ _ _ _ G p 1 Ho).
Qed.

Lemma range_step own held pt own1 held1 pt1 own2 held2 pt2 a c perm x :
  a ≤ c → c mod PAGE_SIZE = 0 → grows own held pt own1 held1 pt1 → grows own1 held1 pt1 own2 held2 pt2 →
  range_mapped own own1 held1 (lvs pt) (lvs pt1) a c perm x → page_mapped own1 own2 held2 (lvs pt1) (lvs pt2) c perm x →
  range_mapped own own2 held2 (lvs pt) (lvs pt2) a (c + PAGE_SIZE) perm x.
Proof.
  intros Hac Hc G1 G2 [Hin Hout] Hp. assert (lvs pt1 !! c = lvs pt !! c) as Ec by (apply Hout; lia). rw /page_mapped Ec in Hp.
  assert (∀ y, y ≠ c → lvs pt2 !! y = lvs pt1 !! y) as Hne.
  { intros y Hy. destruct (lvs pt !! c); [by destruct Hp as [-> _]|]. destruct Hp as (p & _ & _ & _ & _ & ->). by rw lookup_insert_ne; [congruence|]. }
  split.
  - intros y Hy Hym. destruct (decide (y = c)) as [->|Hyc].
    + destruct (lvs pt !! c) as [w|] eqn:E; [destruct Hp as [-> ?]; by rw Ec|]. destruct Hp as (p & Hhp & Hn & Ho & Hh & ->).
      exists p. split_and!; [done..| |done|done|by rw lookup_insert_eq].
      destruct (own !! p) eqn:Eo; [|done]. apply (lookup_weaken _ own1) in Eo; [congruence|apply G1].
    + rw Hne //. destruct (range_grow own own1 held1 pt1 own2 held2 pt2 (lvs pt) (lvs pt1) a c perm x G2 (conj Hin Hout)) as [Hin2 _].
      apply Hin2; [|done]. split; [lia|]. apply page_below; [done..|lia|done].
  - intros y Hy. pose proof page_pos. rw Hne; [intros ->; apply Hy; lia|]. apply Hout. intros [? ?]. apply Hy. lia.
Qed.

Lemma psz_level : level_page_size 0 = PAGE_SIZE.
Proof. done. Qed.

Lemma map_level_wp own held s pt a zeroed new size perm :
  vm_ok own held s → pt_inv own held pt → 0 ≤ a → a mod PAGE_SIZE = 0 → 0 ≤ size → size mod PAGE_SIZE = 0 →
  a + size ≤ VA_MAX → 0 ≤ perm < 1024 → intersects perm FRWX = true →
  (new = true → ∀ y, a ≤ y < a + size → lvs pt !! y = None) →
  wp (map_addrs_level root 0 a (AllocatedAddr zeroed new) size perm) (λ r s', ∃ own' held' pt', vm_ok own' held' s' ∧
    pt_inv own' held' pt' ∧ grows own held pt own' held' pt' ∧
    match r with
    | Ok p => p.1 = a + size ∧ range_mapped own own' held' (lvs pt) (lvs pt') a (a + size) perm (fill_of zeroed)
    | Err e => ∃ c, a ≤ c < a + size ∧ range_mapped own own' held' (lvs pt) (lvs pt') a c perm (fill_of zeroed) ∧
        (e = NoFreePage ∨ ∃ w, lvs pt !! c = Some w ∧ e = VirtualAddressWithUnexpectedPerm c perm (Z.land (pte_flags w) FURWX))
    end) s.
Proof.
  intros Hv Hi Ha Hal Hs Hsal Hmax Hperm Hx Hnew.
  assert ((a + size) mod PAGE_SIZE = 0) as Heal by by rw Zplus_mod Hal Hsal. rw /map_addrs_level. wp_step. apply wp_assert.
  { rw /is_level_page_aligned psz_level. lia. }
  wp_step. apply wp_assert; [done|]. wp_step. apply wp_assert; [rw psz_level; lia|]. wp_step. apply wp_assert; [done|]. wp_step.
  rw (proj2 (va_byte_add_Ok a size (a + size) Ha Hs)) //. wp_step. change VA_MAX with 274877906944 in Hmax.
  set (I := λ (st : Z * MapTarget) s', a ≤ st.1 ≤ a + size ∧ st.1 mod PAGE_SIZE = 0 ∧ st.2 = AllocatedAddr zeroed new ∧
    ∃ own' held' pt', vm_ok own' held' s' ∧ pt_inv own' held' pt' ∧ grows own held pt own' held' pt' ∧
      range_mapped own own' held' (lvs pt) (lvs pt') a st.1 perm (fill_of zeroed)).
  apply (while_wp FUEL _ I (λ st _, a + size - st.1)).
  - intros [c tgt] s1 (Hc & Hcal & Etgt & own1 & held1 & pt1 & Hv1 & Hi1 & G1 & R1). simpl in Hc, Hcal, Etgt, R1. subst tgt.
    split; [simpl; lia|]. rw /map_step. case: Z.ltb_spec => Hlt.
    + destruct (page_next c (a + size) Hcal Heal Hlt) as [Hnx Hnal]. wp_step. eapply wp_mono; [apply (map_page_wp own1 held1 s1 pt1 c zeroed new perm); [done..| |done|done|done|]|].
      * change VA_SIZE with 549755813888. lia.
      * intros Hn. rw (proj2 R1); [lia|]. apply Hnew; [done|lia].
      * intros [[]|e] s2 (own2 & held2 & pt2 & Hv2 & Hi2 & G2 & R2).
        -- wp_step. rw psz_level (proj2 (va_byte_add_Ok c PAGE_SIZE (c + PAGE_SIZE) ltac:(lia) ltac:(done))).
           { split; [done|]. change VA_MAX with 274877906944. lia. }
           rw /unwrap_ok. do 2 wp_step. apply (wp_unwrap _ (AllocatedAddr zeroed new)); [done|]. wp_step.
           cbn [fst snd]. split; [|pose proof page_pos; lia]. split; cbn [fst snd].
           { pose proof page_pos. lia. }
           split; [done|]. split; [done|]. exists own2, held2, pt2.
           split; [done|]. split; [done|]. split; [exact (grows_trans _ _ _ _ _ _ _ _ _ _ _ _ G1 G2)|].
           exact (range_step own held pt own1 held1 pt1 own2 held2 pt2 a c perm _ ltac:(lia) Hcal G1 G2 R1 R2).
        -- wp_step. destruct R2 as [El He]. exists own2, held2, pt2.
           split; [done|]. split; [done|]. split; [exact (grows_trans _ _ _ _ _ _ _ _ _ _ _ _ G1 G2)|]. exists c. split; [lia|].
           rw El. split; [exact (range_grow _ _ _ _ _ _ _ _ _ _ _ _ _ G2 R1)|]. destruct He as [->|(w & Hw & ->)]; [by left|right].
           rw (proj2 R1) in Hw; [lia|]. by exists w.
    + wp_step. cbn [fst snd]. assert (c = a + size) as -> by lia. exists own1, held1, pt1. by split_and!.
  - simpl. change (Z.pos FUEL) with (2 ^ 40). lia.
  - split; simpl; [lia|]. split; [done|]. split; [done|]. exists own, held, pt. split; [done|]. split; [done|]. split; [apply grows_refl|by apply range_nil].
Qed.
End pt_map.
