(* ===== verification/PtIter.v ===== *)
(** * The iterator over the leaves

    [LeavesMut] visits the mapped pages of a range in the order of their addresses: a rule
    for loops over it.  The loop may change the leaves behind the current one. *)

From S2P Require Import Prelude KError Pod SysTypes Addr PageAlloc Pages Pte PteSpec PageTable PtSpec PtMap.

(** ** Indices of a range *)

Lemma idx_in l base x :
  (l ≤ 2)%nat → 0 ≤ base → base mod psz (S l) = 0 → base ≤ x < base + psz (S l) →
  level_idx x l = (x - base) / psz l ∧ 0 ≤ level_idx x l < 512.
Proof.
  intros Hl Hb0 Hb Hx. pose proof (psz_pos l). rw psz_S in Hx. pose proof (Z_div_mod_eq_full (x - base) (psz l)).
  pose proof (Z.mod_pos_bound (x - base) (psz l)). assert (0 ≤ (x - base) / psz l < 512) as Hk.
  { split; [apply Z.div_pos; lia|apply Z.div_lt_upper_bound; lia]. }
  assert (level_idx x l = (x - base) / psz l) as E; [|by rw E].
  rw -(idx_part l base ((x - base) / psz l) ((x - base) mod psz l)) //; [lia|]. f_equal. lia.
Qed.

(** The last index of a table in a range. *)
Lemma hi_spec l base max_va i :
  (l ≤ 2)%nat → 0 ≤ base ≤ max_va → base mod psz (S l) = 0 → 0 ≤ i < 512 →
  i ≤ level_idx (Z.min max_va (with_level_idx base l 511)) l ↔ base + i * psz l ≤ max_va.
Proof.
  intros Hl Hb0 Hb Hi. pose proof (psz_pos l). pose proof (psz_S l). rw with_idx //; [lia|]. set (x := Z.min _ _).
  destruct (idx_in l base x) as [-> _]; [done|lia|done|lia|].
  pose proof (Z_div_mod_eq_full (x - base) (psz l)). pose proof (Z.mod_pos_bound (x - base) (psz l)). split; nia.
Qed.

(** The first one. *)
Lemma lo_spec l base min_va :
  (l ≤ 2)%nat → 0 ≤ base → base mod psz (S l) = 0 → min_va < base + psz (S l) →
  let lo := level_idx (Z.max min_va base) l in
  0 ≤ lo < 512 ∧ base + lo * psz l ≤ Z.max min_va base < base + lo * psz l + psz l.
Proof.
  intros Hl Hb0 Hb Hm lo. subst lo. pose proof (psz_pos l). pose proof (psz_S l).
  destruct (idx_in l base (Z.max min_va base)) as [E ?]; [done..|lia|]. split; [done|]. rw E.
  pose proof (Z_div_mod_eq_full (Z.max min_va base - base) (psz l)). pose proof (Z.mod_pos_bound (Z.max min_va base - base) (psz l)). lia.
Qed.

Lemma range_inclusive_Range a c : 0 ≤ a < c → c ≤ VA_MAX → range_inclusive (Range a c).1 (Range a c).2 = Some (a, c - 1).
Proof.
  intros Ha Hc. change VA_MAX with 274877906944 in Hc. rw /range_inclusive. cbn [fst snd Range]. rw /va_byte_sub /checked_sub. case: Z.leb_spec => ?; [|lia].
  rw /mbind /option_bind /va_new. change VA_MAX with 274877906944. case: Z.gtb_spec => ?; [lia|]. cbn [ok]. case: Z.gtb_spec => ?; [lia|done].
Qed.

Section iter.
Context (hs he root : Z) (T : gmap (nat * Z) Z) (L0 : gmap Z Z) (min_va max_va : Z).
Context (Hmin : 0 ≤ min_va ≤ max_va) (Hmax : max_va < VA_SIZE) (Hal : min_va mod PAGE_SIZE = 0).
Implicit Types (s : Pages) (own : gmap Z Owner) (held : Contents) (pt : PT).
Abbreviation vm_ok := (vm_ok hs he).

(** What the stack of the iterator means: the address it has got to. *)
Inductive stk : nat → list ItFrame → Z → Prop :=
  | stk_nil c : max_va < c → stk 3 [] c
  | stk_cons l fr rest :
      it_level fr = l → (l ≤ 2)%nat → T !! (l, it_base fr) = Some (it_table fr) → 0 ≤ it_base fr ≤ max_va →
      it_base fr mod psz (S l) = 0 → 0 ≤ it_next fr → it_next fr ≤ it_last fr + 1 → it_last fr < 512 →
      (∀ i, 0 ≤ i < 512 → i ≤ it_last fr ↔ it_base fr + i * psz l ≤ max_va) →
      min_va < it_base fr + it_next fr * psz l + psz l →
      stk (S l) rest (it_base fr + psz (S l)) →
      stk l (fr :: rest) (it_base fr + it_next fr * psz l).

(** The steps that are left. *)
Fixpoint weight (l : nat) : Z :=
  match l with
  | O => 2
  | S l => 512 * weight l + 2
  end.
Definition frame_weight (fr : ItFrame) : Z := (it_last fr + 1 - it_next fr) * weight (it_level fr) + 1.
Fixpoint measure (stack : list ItFrame) : Z :=
  match stack with
  | [] => 0
  | fr :: rest => frame_weight fr + measure rest
  end.

Lemma weight_pos l : 0 < weight l.
Proof. induction l; simpl; lia. Qed.
Lemma frame_weight_pos l fr rest c : stk l (fr :: rest) c → 0 < frame_weight fr.
Proof. inversion 1; subst. rw /frame_weight. pose proof (weight_pos (it_level fr)). nia. Qed.
Lemma measure_nonneg l stack c : stk l stack c → 0 ≤ measure stack.
Proof.
  revert l c. induction stack as [|fr rest IH]; intros l c H; simpl; [lia|]. pose proof (frame_weight_pos _ _ _ _ H).
  inversion H; subst. specialize (IH _ _ ltac:(eassumption)). lia.
Qed.
Lemma stk_length l stack c : stk l stack c → (l + length stack = 3)%nat.
Proof. induction 1; simpl; lia. Qed.

(** Advancing by an entry. *)
Lemma stk_advance l fr rest :
  stk l (fr :: rest) (it_base fr + it_next fr * psz l) → it_next fr ≤ it_last fr →
  stk l (advance fr :: rest) (it_base fr + it_next fr * psz l + psz l) ∧
  measure (advance fr :: rest) = measure (fr :: rest) - weight l.
Proof.
  intros H Hn. inversion H; subst. pose proof (psz_pos (it_level fr)). split; [|simpl; rw /frame_weight /=; lia].
  replace (it_base fr + it_next fr * psz (it_level fr) + psz (it_level fr))
    with (it_base (advance fr) + it_next (advance fr) * psz (it_level fr)) by (simpl; lia).
  apply stk_cons; simpl; try done; lia.
Qed.

(** Entering a table. *)
Lemma stk_push l fr rest (pt : Z) (Q : list ItFrame → Pages → Prop) s :
  stk (S l) (fr :: rest) (it_base fr + it_next fr * psz (S l)) → it_next fr ≤ it_last fr →
  T !! (l, it_base fr + it_next fr * psz (S l)) = Some pt →
  (∀ stack, ∀ c, stk l stack c → it_base fr + it_next fr * psz (S l) ≤ c → c ≤ Z.max min_va (it_base fr + it_next fr * psz (S l)) →
    measure stack < measure (fr :: rest) → Q stack s) →
  wp (push_below l min_va max_va (it_base fr + it_next fr * psz (S l)) pt (advance fr :: rest)) Q s.
Proof.
  intros H Hn Ht HQ. pose proof (stk_length _ _ _ H) as Hlen. destruct (stk_advance _ _ _ H Hn) as [Hadv Em].
  inversion H as [|? ? ? Hl1 Hl2 Ht1 Hb1 Hbm1 Hn0 Hn1 Hlast Hhi Hm1 Hrest]; subst.
  pose proof (psz_pos l) as Hpl. pose proof (psz_S l) as HpS. set (a := it_base fr + it_next fr * psz (S l)) in *.
  assert (a ≤ max_va) as Ha by (apply Hhi; lia). assert (0 ≤ a) as Ha0 by (subst a; pose proof (psz_pos (S l)); nia).
  assert (a mod psz (S l) = 0) as Ham by by apply part_aligned.
  destruct (lo_spec l a min_va) as [Hlo Hlo2]; [lia|done..|]. set (lo := level_idx (Z.max min_va a) l) in *.
  pose proof (hi_spec l a max_va) as Hhi2. rw /push_below. fold lo. set (hi := level_idx (Z.min _ _) l) in *.
  assert (0 ≤ hi < 512) as Hhb by (apply level_idx_bound; rw with_idx; [lia|lia|done|lia|]; lia).
  assert (lo ≤ hi) as Hle by (apply Hhi2; [lia|lia|done|lia|]; lia).
  rw /push_table. wp_step. apply wp_assert; [lia|]. wp_step. apply wp_assert; [simpl in Hlen |- *; apply Nat.ltb_lt; lia|]. wp_step.
  apply (HQ _ (a + lo * psz l)); [|nia|lia|].
  - apply (stk_cons l {| it_level := l; it_base := a; it_table := pt; it_next := lo; it_last := hi |}); simpl; try done; try lia.
    + intros i Hi. apply Hhi2; [lia|lia|done..].
  - simpl. rw /frame_weight /=. simpl in Em. rw /frame_weight /= in Em. pose proof (weight_pos l).
    assert ((hi + 1 - lo) * weight l ≤ 512 * weight l) by nia. lia.
Qed.

(** [J c s]: the pages below [c] are done. *)
Context (J : Z → Pages → Prop).
Hypothesis J_table : ∀ c s, J c s → ∃ own held pt, vm_ok own held s ∧ pt_wf root pt ∧ pt_mem own held pt ∧ tabs pt = T ∧
  ∀ a, c ≤ a → lvs pt !! a = L0 !! a.
Hypothesis J_mono : ∀ c c' s, J c s → min_va ≤ c ≤ c' → (∀ a, c ≤ a < c' → a ≤ max_va → L0 !! a = None) → J c' s.

(** Between two addresses without leaves nothing has to be done. *)
Lemma J_skip c c' s :
  J (Z.max c min_va) s → c ≤ c' → (∀ a, c ≤ a < c' → min_va ≤ a ≤ max_va → L0 !! a = None) → J (Z.max c' min_va) s.
Proof. intros HJ Hc Ha. apply (J_mono (Z.max c min_va)); [done|lia|]. intros a H1 H2. apply Ha; lia. Qed.

(** The leaves below an entry. *)
Lemma leaf_below own held pt l base t i a w :
  pt_wf root pt → pt_mem own held pt → tabs pt = T → T !! (l, base) = Some t → 0 ≤ i < 512 → base mod psz (S l) = 0 → (l ≤ 2)%nat →
  lvs pt !! a = Some w → base + i * psz l ≤ a < base + i * psz l + psz l →
  match l with O => a = base + i * psz l | S l' => is_Some (T !! (l', base + i * psz l)) end.
Proof.
  intros Hw Hm ET Ht Hi Hb Hl Ha Hr. destruct (pw_lvs _ _ Hw _ _ Ha) as (Hab & Haal & Ht0). rw ET in Ht0.
  destruct l as [|l].
  - change (psz 0) with PAGE_SIZE in *. pose proof (part_aligned 0 base i Hb) as Hpa. change (psz 0) with PAGE_SIZE in Hpa.
    change PAGE_SIZE with 4096 in *. Z.div_mod_to_equations. lia.
  - set (e := base + i * psz (S l)) in *. assert (e mod psz (S l) = 0) as He by by apply part_aligned.
    assert (tb l a = e) as Etb.
    { rw /tb. pose proof (psz_pos (S l)). apply Z.mod_divide in He as [k Hk]; [|lia]. rw Hk in Hr |- *.
      replace a with (k * psz (S l) + (a - k * psz (S l))) by lia. rw Z.add_comm Z_mod_plus_full Z.mod_small; lia. }
    rw -Etb. destruct l as [|l]; [done|]. assert (l = O) as -> by lia.
    destruct Ht0 as [t0 Ht0]. rw -ET in Ht0. destruct (pw_tabs _ _ Hw _ _ _ Ht0) as (_ & _ & _ & Hp). rw ET in Hp.
    rw (_ : tb 1 a = tb 1 (tb 0 a)); [|exact (Hp ltac:(lia))].
    rw /tb. rw !psz_S. pose proof (psz_pos 0). change (psz 0) with 4096. Z.div_mod_to_equations. lia.
Qed.

(** A leaf that the iterator gives. *)
Definition gives (m : Z) (item : Item) (stack' : list ItFrame) (s' : Pages) : Prop :=
  ∃ l' c' t w, item = (0%nat, c', entry t (level_idx c' 0)) ∧ min_va ≤ c' ≤ max_va ∧
    L0 !! c' = Some w ∧ T !! (0%nat, tb 0 c') = Some t ∧ J c' s' ∧ stk l' stack' (c' + PAGE_SIZE) ∧ measure stack' < m.

Lemma leaves_step_wp l stack c s :
  stk l stack c → J (Z.max c min_va) s →
  wp (leaves_step min_va max_va stack) (λ r s', match r with
    | inl stack' => ∃ l' c', stk l' stack' c' ∧ J (Z.max c' min_va) s' ∧ measure stack' < measure stack
    | inr (None, _) => ∃ c', max_va < c' ∧ J c' s'
    | inr (Some item, stack') => gives (measure stack) item stack' s'
    end) s.
Proof.
  intros Hs HJ. destruct stack as [|fr rest]; cbn [leaves_step].
  { wp_step. inversion Hs; subst. exists (Z.max c min_va). split; [lia|done]. }
  inversion Hs as [|? ? ? Hl1 Hl2 Ht1 Hb1 Hbm1 Hn0 Hn1 Hlast Hhi Hm1 Hrest]; subst. set (l := it_level fr) in *.
  pose proof (psz_pos l) as Hpos. pose proof (psz_S l) as HpS. case: Z.ltb_spec => Hlt.
  - (* the table is done *)
    wp_step. exists (S l), (it_base fr + psz (S l)). split; [done|]. split; [|simpl; pose proof (frame_weight_pos _ _ _ _ Hs); lia].
    apply (J_skip (it_base fr + it_next fr * psz l)); [done|nia|]. intros a Ha1 Ha2. exfalso.
    assert (it_last fr + 1 < 512) as Hl' by nia. pose proof (proj2 (Hhi (it_last fr + 1) ltac:(lia))) as Hx. nia.
  - destruct (J_table _ _ HJ) as (own & held & pt & Hv & Hw & Hm & ET & HL). set (e := it_base fr + it_next fr * psz l) in *.
    assert (0 ≤ it_next fr < 512) as Hni by lia. assert (e ≤ max_va) as He by (apply Hhi; lia).
    assert (tabs pt !! (l, it_base fr) = Some (it_table fr)) as Ht2 by by rw ET.
    destruct (tab_bytes hs he own held s pt _ _ _ Hv Hm Ht2) as (b & Hb & _ & Hent). specialize (Hent _ Hni).
    destruct (stk_advance l fr rest Hs Hlt) as [Hadv Em]. pose proof (weight_pos l) as Hwp.
    wp_step. apply (read_pte_wp hs he own held s (it_table fr) (it_next fr) b); [done..|]. set (w := pte_in b (it_next fr)) in *.
    fold l. rw with_idx //; [lia|]. fold e. rw /entry_ok in Hent. fold e in Hent.
    assert (is_valid w = false → ∀ a, e ≤ a < e + psz l → min_va ≤ a ≤ max_va → L0 !! a = None) as Hnone.
    { intros Hinv a Ha1 Ha2. rw -HL; [lia|]. destruct (lvs pt !! a) as [w'|] eqn:Ea; [|done]. exfalso.
      pose proof (leaf_below own held pt l _ _ _ a w' Hw Hm ET Ht1 Hni Hbm1 Hl2 Ea Ha1) as Hbel. fold e in Hbel.
      destruct l as [|l']; [subst a|].
      - rw Ea in Hent. destruct Hent as [-> Hlf]. by rw (leaf_valid _ Hlf) in Hinv.
      - rw -ET in Hbel. destruct Hbel as [t' Ht']. rw Ht' in Hent. destruct Hent as [Hnl _]. by rw (non_leaf_valid _ Hnl) in Hinv. }
    destruct (is_valid w) eqn:Hval.
    + destruct (is_leaf w) eqn:Hlf.
      * (* a leaf *)
        destruct l as [|l'] eqn:El; [|by destruct (tabs pt !! (l', e)); [destruct Hent as [Hnl%non_leaf_not_leaf _]; congruence|]].
        change (psz 0) with PAGE_SIZE in *.
        assert (e mod PAGE_SIZE = 0) as Heal by by apply (part_aligned 0).
        assert (min_va ≤ e) as Hme by (change PAGE_SIZE with 4096 in *; Z.div_mod_to_equations; lia).
        destruct (lvs pt !! e) as [w'|] eqn:Ee; [|congruence]. destruct Hent as [<- _].
        wp_step. apply wp_assert; [cbn [negb orb]; lia|]. cbn [negb]. wp_step.
        exists 0%nat, e, (it_table fr), w. split_and!; [|lia..| | | |done|lia].
        -- pose proof (idx_part 0 (it_base fr) (it_next fr) 0 ltac:(lia) ltac:(lia) Hbm1 Hni ltac:(done)) as Ei.
           rw Z.add_0_r in Ei. by rw /e Ei.
        -- rw -HL; [lia|done].
        -- assert (tb 0 e = it_base fr) as ->; [|done]. rw -(tb_part 0 (it_base fr) (it_next fr) 0) ?Z.add_0_r //.
        -- by rw Z.max_l in HJ.
      * (* a table below *)
        pose proof (not_leaf_non_leaf w Hval Hlf) as Hnl.
        wp_step. apply wp_assert; [done|]. cbn [negb]. destruct l as [|l'] eqn:El.
        { destruct (lvs pt !! e); [destruct Hent; congruence|congruence]. }
        rw /get_page_table Hnl. wp_step. apply (wp_unwrap _ (pte_addr w)); [done|]. wp_step.
        destruct (tabs pt !! (l', e)) as [t'|] eqn:Et; [|congruence]. destruct Hent as [_ ->].
        apply (stk_push l' fr rest t'); [done..|by rw -ET|]. intros stack' c' Hst' Hc1 Hc2 Hm'. wp_step.
        exists l', c'. split; [done|]. split; [|done]. apply (J_skip e); [done|lia|]. intros a Ha1 Ha2. exfalso. lia.
    + (* nothing *)
      wp_step. assert (is_leaf w = false) as Hlf by by rw /is_leaf Hval. rw Hlf. apply wp_assert; [done|]. cbn [negb]. wp_step.
      exists l, (e + psz l). split; [done|]. split; [|lia]. apply (J_skip e); [done|lia|]. by apply Hnone.
Qed.

Lemma leaves_next_wp l stack c s :
  stk l stack c → J (Z.max c min_va) s → measure stack < Zpos FUEL →
  wp (leaves_next min_va max_va stack) (λ p s', match p with
    | (None, _) => ∃ c', max_va < c' ∧ J c' s'
    | (Some item, stack') => gives (measure stack) item stack' s'
    end) s.
Proof.
  intros Hs HJ Hf. set (m0 := measure stack) in *.
  set (I := λ stack s', ∃ l c, stk l stack c ∧ J (Z.max c min_va) s' ∧ measure stack ≤ m0).
  apply (while_wp FUEL _ I (λ stack _, measure stack)); [|done|exists l, c; split_and!; [done..|lia]].
  intros st s1 (l1 & c1 & H1 & J1 & M1). split; [exact (measure_nonneg _ _ _ H1)|].
  eapply wp_mono; [exact (leaves_step_wp l1 st c1 s1 H1 J1)|]. intros [st'|[[item|] st']] s2; [|..|done].
  - intros (l2 & c2 & H2 & J2 & M2). split; [|done]. exists l2, c2. split; [done|]. split; [done|lia].
  - intros (l2 & c2 & t & w & E & R & E0 & Ht & HJ2 & Hst & M2). exists l2, c2, t, w. do 6 (split; [done|]). lia.
Qed.

(** The loop. *)
Context (body : Item → M Pages (result KernelError unit)) (Q : result KernelError unit → Pages → Prop).
Hypothesis Hbody : ∀ c s w t, J c s → min_va ≤ c ≤ max_va → c mod PAGE_SIZE = 0 → L0 !! c = Some w → T !! (0%nat, tb 0 c) = Some t →
  wp (body (0%nat, c, entry t (level_idx c 0))) (λ r s', match r with
    | Ok _ => J (c + PAGE_SIZE) s'
    | Err e => Q (Err e) s'
    end) s.
Hypothesis Hend : ∀ c s, J c s → max_va < c → Q (Ok tt) s.

Lemma for_leaves_wp start stop s :
  range_inclusive start stop = Some (min_va, max_va) → J min_va s → wp (for_leaves root (start, stop) body) Q s.
Proof.
  intros Er HJ. rw /for_leaves. cbn [fst snd]. rw Er. destruct (J_table _ _ HJ) as (own & held & pt & Hv & Hw & Hm & ET & HL).
  pose proof (pw_root _ _ Hw) as Hroot. rw ET in Hroot. change VA_SIZE with 549755813888 in Hmax.
  assert (level_idx min_va 2 = min_va / 1073741824) as E1.
  { rw level_idx_psz; [lia|done|]. rw psz_2. apply Z.mod_small. Z.div_mod_to_equations. lia. }
  assert (level_idx max_va 2 = max_va / 1073741824) as E2.
  { rw level_idx_psz; [lia|done|]. rw psz_2. apply Z.mod_small. Z.div_mod_to_equations. lia. }
  rw /push_table E1 E2. wp_step. wp_step. apply wp_assert; [Z.div_mod_to_equations; lia|]. wp_step. apply wp_assert; [done|]. wp_step.
  set (fr := {| it_level := 2; it_base := 0; it_table := root; it_next := min_va / 1073741824; it_last := max_va / 1073741824 |}).
  assert (stk 2 [fr] (it_base fr + it_next fr * psz 2)) as Hst.
  { apply stk_cons; simpl; try done; rw ?psz_2 ?psz_3; try (Z.div_mod_to_equations; lia). constructor. lia. }
  assert (J (Z.max (it_base fr + it_next fr * psz 2) min_va) s) as HJ0.
  { simpl. rw psz_2 Z.max_r //. Z.div_mod_to_equations. lia. }
  set (I := λ stack s', ∃ l c, stk l stack c ∧ J (Z.max c min_va) s' ∧ measure stack < Zpos FUEL).
  apply (while_wp FUEL _ I (λ stack _, measure stack)).
  - intros st s1 (l1 & c1 & H1 & J1 & M1). split; [exact (measure_nonneg _ _ _ H1)|]. rw /leaves_turn. wp_step.
    eapply wp_mono; [exact (leaves_next_wp l1 st c1 s1 H1 J1 M1)|]. intros [[item|] st'] s2.
    + intros (l2 & c2 & t & w & -> & R & E0 & Ht & HJ2 & Hst2 & M2).
      assert (c2 mod PAGE_SIZE = 0) as Hc2.
      { destruct (J_table _ _ HJ2) as (own2 & held2 & pt2 & _ & Hw2 & _ & _ & HL2). rw -HL2 in E0; [lia|].
        by destruct (pw_lvs _ _ Hw2 _ _ E0) as (_ & ? & _). }
      wp_step. eapply wp_mono; [exact (Hbody c2 s2 w t HJ2 R Hc2 E0 Ht)|]. intros [[]|e] s3 H3; wp_step; [|done].
      split; [|done]. exists l2, (c2 + PAGE_SIZE). split; [done|]. rw Z.max_l; [pose proof page_pos; lia|]. split; [done|lia].
    + intros (c' & Hc' & HJ'). wp_step. by apply (Hend c').
  - simpl. rw /frame_weight. simpl. change (Z.pos FUEL) with (2 ^ 40). Z.div_mod_to_equations. lia.
  - exists 2%nat, (it_base fr + it_next fr * psz 2). split; [done|]. split; [done|].
    simpl. rw /frame_weight. simpl. change (Z.pos FUEL) with (2 ^ 40). Z.div_mod_to_equations. lia.
Qed.
End iter.
