(* ===== verification/PtUnmap.v ===== *)
(** * Unmapping pages

    Removing leaves gives the pages back whose last reference they were; dropping a page
    table gives back everything. *)

From S2P Require Import Prelude KError Pod SysTypes Addr PageAlloc Pages Pte PteSpec PageTable PtSpec PtMap PtIter.

Lemma share_drop own p n q :
  own !! p = Some (Shared n) → 0 < n → share (drop_own p own) q = share own q - (if decide (p = q) then 1 else 0).
Proof.
  intros Hp Hn. rw (drop_own_eq _ _ _ Hp) /share. case_decide as E.
  - subst q. rw lookup_partial_alter_eq Hp /=. case: Z.ltb_spec => ?; lia.
  - rw lookup_partial_alter_ne //. lia.
Qed.

Lemma drop_own_ne own p q : p ≠ q → drop_own p own !! q = own !! q.
Proof. intros Hq. by rw /drop_own lookup_partial_alter_ne. Qed.
Lemma drop_own_Exclusive own p q n : own !! p = Some (Shared n) → drop_own p own !! q = Some Exclusive → own !! q = Some Exclusive.
Proof.
  intros Hp Hq. destruct (decide (p = q)) as [<-|]; [|by rw drop_own_ne in Hq]. rw (drop_own_eq _ _ _ Hp) lookup_partial_alter_eq /= in Hq. by case_match.
Qed.
Lemma drop_held_ne own held p q : p ≠ q → drop_held p own held !! q = held !! q.
Proof. intros Hq. rw /drop_held. case_match; [done|]. by rw lookup_delete_ne. Qed.
Lemma drop_held_some own held p o : own !! p ≫= drop_owner = Some o → drop_held p own held = held.
Proof. by rw /drop_held => ->. Qed.

Section pt_unmap.
Context (hs he : Z) (ext : Z → Z) (Hext : ∀ p, 0 ≤ ext p) (root : Z).
Implicit Types (s : Pages) (own : gmap Z Owner) (held : Contents) (pt : PT).
Abbreviation vm_ok := (vm_ok hs he).
Abbreviation hpage := (hpage hs he).
Abbreviation pt_inv := (pt_inv hs he ext root).
Abbreviation vstep := (vstep hs he ext).

(** What unmapping can change: pages that are not referenced any more are given back. *)
Record shrinks own held pt own' held' pt' : Prop := {
  sh_step : vstep own held pt own' held' pt';
  sh_tabs : tabs pt' = tabs pt;
  sh_own : ∀ p n, own' !! p = Some (Shared n) → ∃ m, own !! p = Some (Shared m) ∧ n ≤ m;
  sh_data : ∀ p n, own' !! p = Some (Shared n) → held' !! p = held !! p;
}.

Lemma shrinks_refl own held pt : shrinks own held pt own held pt.
Proof. split; [apply vstep_refl|done| |done]. intros p n Hp. exists n. split; [done|lia]. Qed.
Lemma shrinks_trans own held pt own1 held1 pt1 own2 held2 pt2 :
  shrinks own held pt own1 held1 pt1 → shrinks own1 held1 pt1 own2 held2 pt2 → shrinks own held pt own2 held2 pt2.
Proof.
  intros [S1 T1 O1 D1] [S2 T2 O2 D2]. split; [exact (vstep_trans _ _ _ _ _ _ _ _ _ _ _ _ S1 S2)|congruence|..].
  - intros p n (m & Hm & ?)%O2. destruct (O1 p m Hm) as (k & Hk & ?). exists k. split; [done|lia].
  - intros p n Hp. destruct (O2 p n Hp) as (m & Hm & _). by rw (D2 p n Hp) (D1 p m Hm).
Qed.

(** A leaf of the heap is counted. *)
Lemma leaf_owner own held pt a w :
  pt_inv own held pt → lvs pt !! a = Some w → hpage (pte_addr w) →
  ∃ n, own !! pte_addr w = Some (Shared n) ∧ n = refs pt (pte_addr w) + ext (pte_addr w) ∧ 0 < n.
Proof.
  intros Hi Ha Hp. pose proof (pi_count _ _ _ _ _ _ _ Hi _ Hp) as Hc. pose proof (pt_refs_pos _ _ _ Ha). pose proof (Hext (pte_addr w)).
  rw /share in Hc. destruct (own !! pte_addr w) as [[n|]|]; [|lia..]. exists n. split; [done|lia].
Qed.

(** The owners after one reference is gone. *)
Definition unref (p : Z) own : gmap Z Owner := if decide (hpage p) then drop_own p own else own.
Definition unref_held (p : Z) own held : Contents := if decide (hpage p) then drop_held p own held else held.

Lemma unref_tab own held pt p t :
  pt_mem own held pt → is_tab pt t → (hpage p → ∃ n, own !! p = Some (Shared n)) → unref p own !! t = own !! t ∧ ∀ h, unref_held p own h !! t = h !! t.
Proof.
  intros Hm [k Hk]%is_tab_spec Hp. destruct k as [l b]. destruct (Hm _ _ _ Hk) as [Ho _]. rw /unref /unref_held. case_decide as Hh; [|done].
  destruct (Hp Hh) as [n Hn]. assert (p ≠ t) by congruence. rw drop_own_ne //. split; [done|]. intros h. by rw drop_held_ne.
Qed.

Lemma unmap_leaf own held pt t b a w :
  pt_inv own held pt → tabs pt !! (0%nat, tb 0 a) = Some t → held !! t = Some b → length b = TABLE_BYTES → lvs pt !! a = Some w →
  let p := pte_addr w in
  let held' := unref_held p own (<[t := set_pte b (level_idx a 0) 0]> held) in
  pt_inv (unref p own) held' (set_lvs (delete a (lvs pt)) pt) ∧
  shrinks own held pt (unref p own) held' (set_lvs (delete a (lvs pt)) pt).
Proof.
  intros Hi Ht Hb Hlen Ha p held'. pose proof Hi as [Hw Hm Hc Hwr Hus]. destruct (pw_lvs _ _ Hw _ _ Ha) as (Hab & Haal & _).
  assert (hpage p → ∃ n, own !! p = Some (Shared n) ∧ n = refs pt p + ext p ∧ 0 < n) as Hown by by apply (leaf_owner own held pt a).
  assert (hpage p → ∃ n, own !! p = Some (Shared n)) as Hown' by (intros (n & ? & _)%Hown; by exists n).
  assert (∀ q, hpage q → share (unref p own) q = share own q - (if decide (p = q) then 1 else 0)) as Hshare.
  { intros q Hq. rw /unref. case_decide as Hp; [|rw decide_False; [congruence|lia]]. destruct (Hown Hp) as (n & Hn & _ & Hn0).
    by apply (share_drop own p n). }
  assert (∀ q, refs (set_lvs (delete a (lvs pt)) pt) q = refs pt q - (if decide (p = q) then 1 else 0)) as Hrefs
    by (intros q; by apply refs_delete).
  destruct (Hm _ _ _ Ht) as [Hot _]. assert (∀ h, unref_held p own h !! t = h !! t) as Htt.
  { apply (unref_tab own held pt p t Hm); [apply is_tab_spec; by exists (0%nat, tb 0 a)|done]. }
  assert (hpage p → p ≠ t) as Hpt by (intros [n ?]%Hown'; congruence).
  assert (held' = <[t := set_pte b (level_idx a 0) 0]> (unref_held p own held)) as Eheld.
  { subst held'. rw /unref_held. case_decide as Hp; [|done]. rw /drop_held. case_match; [done|]. rw delete_insert_ne //. by apply Hpt. }
  split.
  - rw Eheld. apply (pt_inv_leaf hs he ext root own held pt); [done..| |done|done|done|done|done|done| | | | |].
    + intros t1 Ht1. destruct (unref_tab own held pt p t1 Hm Ht1 Hown') as [-> Hh]. by rw Hh.
    + intros a' Ha'. by rw lookup_delete_ne; [congruence|].
    + by rw lookup_delete_eq.
    + intros q Hq. rw Hshare // Hrefs Hc //. lia.
    + intros a' w' [Hne Ha']%lookup_delete_Some Hb2 Hp'. rw Hshare // (Hwr _ _ Ha' Hb2 Hp'). case_decide as E; [|lia]. exfalso.
      pose proof (refs_two pt a a' w w' Hne Ha Ha' E) as H2. fold p in H2. rw E in H2. pose proof (Hc _ Hp'). rw (Hwr _ _ Ha' Hb2 Hp') in H.
      pose proof (Hext (pte_addr w')). lia.
    + intros a' w' [_ Ha']%lookup_delete_Some. by apply (Hus a').
  - assert (∀ q, q ≠ t → q ≠ p → held' !! q = held !! q) as Hne.
    { intros q Hq1 Hq2. rw Eheld lookup_insert_ne; [congruence|]. rw /unref_held. case_decide; [|done]. apply drop_held_ne. congruence. }
    assert (∀ q n, unref p own !! q = Some (Shared n) → held' !! q = held !! q) as Hdata.
    { intros q n Hq. assert (q ≠ t) as Hqt.
      { intros ->. destruct (unref_tab own held pt p t Hm) as [E _]; [apply is_tab_spec; by exists (0%nat, tb 0 a)|done|]. congruence. }
      destruct (decide (q = p)) as [->|Hqp]; [|by apply Hne]. subst held'. rw /unref_held /unref in Hq |- *. case_decide as Hp.
      - rw (drop_held_some _ _ _ (Shared n)); [by rw /drop_own lookup_partial_alter_eq in Hq|]. by rw lookup_insert_ne; [congruence|].
      - by rw lookup_insert_ne; [congruence|]. }
    split; [split|done| |done].
    + intros q Hq Htab. assert (q ≠ t) by (intros ->; apply Htab, is_tab_spec; by exists (0%nat, tb 0 a)).
      assert (q = p → ¬ hpage p) as Hqp by (intros -> (n & ?)%Hown'; congruence). rw /unref.
      destruct (decide (hpage p)) as [Hp|Hp].
      * assert (p ≠ q) by (intros ->; by apply Hqp). rw drop_own_ne //. split; [done|]. apply Hne; congruence.
      * split; [done|]. subst held'. rw /unref_held decide_False //. by rw lookup_insert_ne; [congruence|].
    + done.
    + intros q Hq He. pose proof (Hc q Hq) as Hcq. pose proof (pt_refs_nonneg (set_lvs (delete a (lvs pt)) pt) q) as H0. rw Hrefs in H0.
      assert (0 < share (unref p own) q) as Hs by (rw Hshare //; lia). rw /share in Hs.
      destruct (unref p own !! q) as [[n|]|] eqn:Eq; [|lia..]. by apply (Hdata q n).
    + intros q Hq He. rw Hrefs. case_decide; lia.
    + intros q Hq. left. rw /unref in Hq. destruct (decide (hpage p)) as [Hp|]; [|done].
      destruct (Hown Hp) as (m & Hm' & _). by apply (drop_own_Exclusive own p q m).
    + done.
    + intros q n Hq. rw /unref in Hq. destruct (decide (hpage p)) as [Hp|Hp]; [|exists n; split; [done|lia]].
      destruct (decide (p = q)) as [<-|Hpq]; [|rw drop_own_ne // in Hq; exists n; split; [done|lia]].
      destruct (Hown Hp) as (m & Hm' & _ & Hm0). exists m. split; [done|].
      rw (drop_own_eq _ _ _ Hm') lookup_partial_alter_eq /= in Hq. revert Hq. case: Z.ltb_spec => // ? [= <-]. lia.
Qed.

Lemma leaf_bytes own held s pt a w t :
  vm_ok own held s → pt_inv own held pt → lvs pt !! a = Some w → tabs pt !! (0%nat, tb 0 a) = Some t →
  0 ≤ a ∧ a mod PAGE_SIZE = 0 ∧ ∃ b, held !! t = Some b ∧ length b = TABLE_BYTES ∧ pte_in b (level_idx a 0) = w ∧ is_leaf w = true.
Proof.
  intros Hv Hi Ha Ht. destruct (pw_lvs _ _ (pi_wf _ _ _ _ _ _ _ Hi) _ _ Ha) as (Hab & Haal & _). split; [lia|]. split; [done|].
  destruct (leaf_entry hs he ext root own held s pt a t Hv Hi Ht ltac:(lia) Haal) as (b & Hb & Hl & He). rw Ha in He. by exists b.
Qed.

Lemma free_leaf_wp own held s pt a w t :
  vm_ok own held s → pt_inv own held pt → lvs pt !! a = Some w → tabs pt !! (0%nat, tb 0 a) = Some t →
  wp (entry_free 0 (entry t (level_idx a 0))) (λ _ s', ∃ own' held', vm_ok own' held' s' ∧
    pt_inv own' held' (set_lvs (delete a (lvs pt)) pt) ∧ shrinks own held pt own' held' (set_lvs (delete a (lvs pt)) pt)) s.
Proof.
  intros Hv Hi Ha Ht. destruct (leaf_bytes own held s pt a w t Hv Hi Ha Ht) as (Ha0 & Haal & b & Hb & Hlen & Hw & Hlf).
  destruct (unmap_leaf own held pt t b a w Hi Ht Hb Hlen Ha) as [Hi' Hs'].
  cbn [entry_free]. wp_step. apply (read_pte_wp hs he own held s t (level_idx a 0) b); [done..|]. rw Hw (leaf_valid _ Hlf). cbn [negb].
  wp_step. eapply wp_mono; [exact (write_pte_wp hs he own held s t (level_idx a 0) b 0 Hv Hb (level_idx_bound a 0 Ha0))|].
  intros [] s1 Hv1. assert (is_non_leaf w = false) as -> by by rw /is_non_leaf Hlf andb_false_r.
  wp_step. apply wp_assert; [done|]. wp_step. eapply wp_mono; [exact (vm_is_heap hs he _ _ s1 (pte_addr w) Hv1)|].
  intros h s2 [-> ->]. rw /unref /unref_held in Hi' Hs'. case_bool_decide as Hp.
  - rw !decide_True // in Hi' Hs'. destruct (leaf_owner own held pt a w Hi Ha Hp) as (n & Hn & _ & _).
    eapply wp_mono; [exact (vm_page_drop hs he _ _ s1 (pte_addr w) _ Hv1 Hn)|]. intros [] s3 Hv3. eexists _, _. split; [exact Hv3|done].
  - rw !decide_False // in Hi' Hs'. wp_step. eexists _, _. split; [exact Hv1|done].
Qed.

(** The leaves that are left. *)
Definition cut (m : gmap Z Z) (a c : Z) : gmap Z Z := filter (λ x, ¬ (a ≤ x.1 < c)) m.
Lemma cut_lookup m a c y : cut m a c !! y = if decide (a ≤ y < c) then None else m !! y.
Proof.
  rw /cut. destruct (m !! y) as [w|] eqn:E; case_decide as Hd.
  - apply map_lookup_filter_None. right. intros w' _ Hn. by apply Hn.
  - by apply map_lookup_filter_Some.
  - apply map_lookup_filter_None. by left.
  - apply map_lookup_filter_None. by left.
Qed.

Lemma unmap_range_wp own held s pt a c :
  vm_ok own held s → pt_inv own held pt → 0 ≤ a < c → a mod PAGE_SIZE = 0 → c ≤ VA_MAX →
  wp (unmap_range root (Range a c)) (λ _ s', ∃ own' held', vm_ok own' held' s' ∧
    pt_inv own' held' (set_lvs (cut (lvs pt) a c) pt) ∧ shrinks own held pt own' held' (set_lvs (cut (lvs pt) a c) pt)) s.
Proof.
  intros Hv Hi Ha Hal Hc. change VA_MAX with 274877906944 in Hc. rw /unmap_range. wp_step.
  set (Post := λ (r : result KernelError unit) s', ∃ own' held', vm_ok own' held' s' ∧
    pt_inv own' held' (set_lvs (cut (lvs pt) a c) pt) ∧ shrinks own held pt own' held' (set_lvs (cut (lvs pt) a c) pt)).
  eapply (wp_mono _ Post); [|intros r s' H; by wp_step].
  set (J := λ y s', ∃ own' held' m, vm_ok own' held' s' ∧ pt_inv own' held' (set_lvs m pt) ∧
    shrinks own held pt own' held' (set_lvs m pt) ∧ ∀ x, m !! x = if decide (a ≤ x < y ∧ x < c) then None else lvs pt !! x).
  apply (for_leaves_wp hs he root (tabs pt) (lvs pt) a (c - 1) ltac:(lia) ltac:(change VA_SIZE with 549755813888; lia) Hal J).
  - intros y s1 (own1 & held1 & m & Hv1 & Hi1 & Hs1 & Hm). exists own1, held1, (set_lvs m pt). split_and!; [done|apply Hi1..|done|].
    intros x Hx. simpl. rw Hm decide_False //. lia.
  - intros y y' s1 (own1 & held1 & m & Hv1 & Hi1 & Hs1 & Hm) Hy Hnone. exists own1, held1, m. split_and!; [done..|].
    intros x. rw Hm. repeat case_decide; try lia; try done. apply Hnone; lia.
  - intros y s1 w t (own1 & held1 & m & Hv1 & Hi1 & Hs1 & Hm) Hy Hyal Hl Ht.
    assert (lvs (set_lvs m pt) !! y = Some w) as Hly by (simpl; rw Hm decide_False //; lia).
    wp_step. eapply wp_mono; [exact (free_leaf_wp own1 held1 s1 (set_lvs m pt) y w t Hv1 Hi1 Hly Ht)|].
    intros [] s2 (own2 & held2 & Hv2 & Hi2 & Hs2). wp_step. simpl in Hi2, Hs2. exists own2, held2, (delete y m).
    split; [done|]. split; [done|]. split; [exact (shrinks_trans _ _ _ _ _ _ _ _ _ Hs1 Hs2)|]. intros x.
    assert (∀ w', lvs pt !! x = Some w' → x mod PAGE_SIZE = 0) as Hxal.
    { intros w' Hx. by destruct (pw_lvs _ _ (pi_wf _ _ _ _ _ _ _ Hi) _ _ Hx) as (_ & ? & _). }
    destruct (decide (x = y)) as [->|Hxy]; [rw lookup_delete_eq decide_True //; pose proof page_pos; lia|].
    rw lookup_delete_ne; [congruence|]. rw Hm. destruct (lvs pt !! x) as [w'|]; [|by repeat case_decide].
    specialize (Hxal _ eq_refl). repeat case_decide; try done; exfalso; [pose proof page_pos; lia|].
    assert (x < y + PAGE_SIZE) as Hxlt by lia. pose proof (page_below x y Hxal Hyal Hxlt Hxy). lia.
  - intros y s1 (own1 & held1 & m & Hv1 & Hi1 & Hs1 & Hm) Hy. assert (m = cut (lvs pt) a c) as ->.
    { apply map_eq. intros x. rw Hm cut_lookup. repeat case_decide; try done; lia. }
    by exists own1, held1.
  - by apply range_inclusive_Range.
  - exists own, held, (lvs pt). split; [done|]. split; [by destruct pt|]. split; [destruct pt; apply shrinks_refl|].
    intros x. by rw decide_False; [lia|].
Qed.
End pt_unmap.
