(* ===== verification/PtCow.v ===== *)
(** * Copy on write

    Sharing pages between page tables, and giving a page table a page of its own when it
    writes to a shared one. *)

From S2P Require Import Prelude KError Pod SysTypes Addr PageAlloc Pages Pte PteSpec PageTable PtSpec PtMap PtIter PtUnmap.

(** ** Reading and writing within a page *)

Lemma rounddown_in p off : 0 ≤ p → p mod PAGE_SIZE = 0 → 0 ≤ off < PAGE_SIZE → page_rounddown (p + off) = p.
Proof.
  intros Hp Hal Ho. rw page_rounddown_eq; [lia|]. change PAGE_SIZE with 4096 in *. Z.div_mod_to_equations. lia.
Qed.

Lemma splice_all {A} (b c : list A) : length b = length c → splice 0 b c = b.
Proof. intros H. rw /splice take_0 /=. by rw H drop_all app_nil_r. Qed.
Lemma slice_all {A} (b : list A) n : n = length b → slice 0 n b = b.
Proof. intros ->. by rw /slice drop_0 take_ge. Qed.

Section phys.
Context (hs he : Z).
Abbreviation vm_ok := (vm_ok hs he).

Lemma read_phys_wp own held s p off n b fuel (Q : list byte → Pages → Prop) :
  vm_ok own held s → held !! p = Some b → p mod PAGE_SIZE = 0 → 0 ≤ off → 0 ≤ n → off + n ≤ PAGE_SIZE → off < PAGE_SIZE →
  Q (slice (Z.to_nat off) (Z.to_nat n) b) s → wp (read_phys (S fuel) (p + off) n) Q s.
Proof.
  intros Hv Hb Hal Ho Hn Hon Hlt HQ. cbn [read_phys]. case: Z.leb_spec => Hle.
  { wp_step. assert (n = 0) as -> by lia. by rw /slice take_0 in HQ. }
  assert (0 < p) as Hp.
  { destruct (proj1 (po_held _ _ _ (vo_pages _ _ _ _ _ Hv) p)) as [o Ho']; [by rw Hb|]. apply (vm_bounds hs he own held s p Hv).
    by apply (vm_owned hs he own held s p o). }
  rw rounddown_in //; [lia..|]. assert (Z.min n (p + PAGE_SIZE - (p + off)) = n) as -> by lia. replace (p + off - p) with off by lia.
  wp_step. apply (read_page_wp hs he own held s p b); [done..|]. wp_step.
  assert (read_phys fuel (p + off + n) (n - n) = mret []) as ->.
  { destruct fuel; cbn [read_phys]; case: Z.leb_spec => ?; by [|lia]. }
  do 2 wp_step. by rw app_nil_r.
Qed.

Lemma write_phys_wp own held s p off b c fuel :
  vm_ok own held s → held !! p = Some b → p mod PAGE_SIZE = 0 → 0 ≤ off → off + Z.of_nat (length c) ≤ PAGE_SIZE → off < PAGE_SIZE →
  wp (write_phys (S fuel) (p + off) c) (λ _ s', vm_ok own (<[p := splice (Z.to_nat off) c b]> held) s') s.
Proof.
  intros Hv Hb Hal Ho Hon Hlt. cbn [write_phys]. destruct (vm_memory hs he own held s p b Hv Hb) as [_ Hlen].
  case_bool_decide as Hc.
  { subst c. wp_step. rw /splice /= Nat.add_0_r take_drop. by rw insert_id. }
  assert (0 < p) as Hp.
  { destruct (proj1 (po_held _ _ _ (vo_pages _ _ _ _ _ Hv) p)) as [o Ho']; [by rw Hb|]. apply (vm_bounds hs he own held s p Hv).
    by apply (vm_owned hs he own held s p o). }
  rw rounddown_in //; [lia..|]. set (k := Z.min _ _). assert (k = Z.of_nat (length c)) as -> by lia. replace (p + off - p) with off by lia.
  rw !Nat2Z.id. rw take_ge // drop_ge //. wp_step.
  eapply wp_mono; [apply (write_vm_wp hs he own held s p b _ Hv Hb)|].
  - rw splice_length //. rw Hlen. lia.
  - intros [] s' Hv'. by destruct fuel; cbn [write_phys]; (rw bool_decide_true; [done|]); wp_step.
Qed.

Lemma read_whole own held s p b (Q : list byte → Pages → Prop) :
  vm_ok own held s → held !! p = Some b → p mod PAGE_SIZE = 0 → Q b s →
  wp (read_phys (chunk_fuel (level_page_size 0)) p (level_page_size 0)) Q s.
Proof.
  intros Hv Hb Hal HQ. destruct (vm_memory hs he own held s p b Hv Hb) as [_ Hlen]. rw psz_level. rw -{1}(Z.add_0_r p).
  change (chunk_fuel PAGE_SIZE) with 3%nat. apply (read_phys_wp own held s p 0 PAGE_SIZE b); [done..|]. by rw slice_all.
Qed.
Lemma write_whole own held s p b c :
  vm_ok own held s → held !! p = Some b → p mod PAGE_SIZE = 0 → length c = TABLE_BYTES →
  wp (write_phys (chunk_fuel (level_page_size 0)) p c) (λ _ s', vm_ok own (<[p := c]> held) s') s.
Proof.
  intros Hv Hb Hal Hc. destruct (vm_memory hs he own held s p b Hv Hb) as [_ Hlen]. rw psz_level. rw -{1}(Z.add_0_r p).
  change (chunk_fuel PAGE_SIZE) with 3%nat. eapply wp_mono; [apply (write_phys_wp own held s p 0 b c); try done|].
  - rw Hc. done.
  - intros [] s'. rw splice_all //. by rw Hc Hlen.
Qed.
End phys.

(** ** Flags of copy-on-write entries *)

(** The flags of a page that may be written again. *)
Definition cow_flags (f : Z) : Z := insert_flags (remove_flags f FC) FW.

Lemma cow_flags_bit f n : 0 ≤ n → Z.testbit (cow_flags f) n = (Z.testbit f n && negb (n =? 8)) || (n =? 2).
Proof.
  intros Hn. rw /cow_flags /insert_flags /remove_flags Z.lor_spec Z.ldiff_spec. change FC with (2 ^ 8). change FW with (2 ^ 2).
  rw !Z.pow2_bits_eqb // (Z.eqb_sym 8) (Z.eqb_sym 2) //.
Qed.

Lemma flags_range w : 0 ≤ pte_flags w < 1024.
Proof. rw pte_flags_eq. by apply Z.mod_pos_bound. Qed.

Lemma ldiff_flags f g : 0 ≤ f < 1024 → 0 ≤ g → 0 ≤ Z.ldiff f g < 1024.
Proof.
  intros Hf Hg. assert (Z.ldiff f g = Z.ldiff f g mod 2 ^ 10) as ->; [|by apply Z.mod_pos_bound].
  apply Z.bits_inj'. intros n Hn. destruct (decide (n < 10)); [by rw Z.mod_pow2_bits_low|].
  rw Z.mod_pow2_bits_high; [lia|]. rw Z.ldiff_spec -(Z.mod_small f (2 ^ 10)) // Z.mod_pow2_bits_high //. lia.
Qed.

Lemma cow_flags_range f : 0 ≤ f < 1024 → 0 ≤ cow_flags f < 1024.
Proof. intros Hf. apply lor_flags; [|done]. by apply ldiff_flags. Qed.

(** The word of a page of one's own. *)
Definition own_word (p w : Z) : Z := word (phys_page_num p) (cow_flags (pte_flags w)).

Section own_word.
Context (p w : Z) (Hp : 0 ≤ p < 2 ^ 64) (Hal : p mod PAGE_SIZE = 0).

Lemma own_word_bound : 0 ≤ own_word p w < 2 ^ 64.
Proof. pose proof (cow_flags_range _ (flags_range w)). pose proof (leaf_ppn p Hp). rw /own_word /word. lia. Qed.
Lemma own_word_addr : pte_addr (own_word p w) = p.
Proof. apply word_addr; [done..|]. apply cow_flags_range, flags_range. Qed.
Lemma own_word_flags : pte_flags (own_word p w) = cow_flags (pte_flags w).
Proof. apply word_flags, cow_flags_range, flags_range. Qed.
Lemma own_word_bit n : 0 ≤ n < 10 → Z.testbit (own_word p w) n = (Z.testbit w n && negb (n =? 8)) || (n =? 2).
Proof. intros Hn. rw -flags_testbit // own_word_flags cow_flags_bit; [lia|]. by rw flags_testbit. Qed.
Lemma own_word_leaf : is_leaf w = true → is_leaf (own_word p w) = true.
Proof. intros H%leaf_valid. rw is_valid_bit in H. rw is_leaf_bits !own_word_bit // H. by destruct (Z.testbit w 1), (Z.testbit w 2). Qed.
End own_word.

Lemma pte_addr_bound w : 0 ≤ pte_addr w < 2 ^ 64 ∧ pte_addr w mod PAGE_SIZE = 0.
Proof.
  split; [by apply wrap_bound|]. rw /pte_addr /ppn_addr /wrap Z.shiftl_mul_pow2 //. set (x := pte_ppn w).
  change (2 ^ PAGE_SHIFT) with 4096. change PAGE_SIZE with 4096. rw (_ : 2 ^ 64 = 4096 * 2 ^ 52) //.
  rw (Z.mul_comm x) Zmult_mod_distr_l Z.mul_comm. by apply Z_mod_mult.
Qed.

Section cow.
Context (hs he : Z) (ext : Z → Z) (Hext : ∀ p, 0 ≤ ext p) (root : Z).
Implicit Types (s : Pages) (own : gmap Z Owner) (held : Contents) (pt : PT).
Abbreviation vm_ok := (vm_ok hs he).
Abbreviation hpage := (hpage hs he).
Abbreviation pt_inv := (pt_inv hs he ext root).
Abbreviation vstep := (vstep hs he ext).

(** Changing the flags of an entry. *)
Lemma pt_inv_reflag own held pt t b a w w' :
  pt_inv own held pt → tabs pt !! (0%nat, tb 0 a) = Some t → held !! t = Some b → length b = TABLE_BYTES → lvs pt !! a = Some w →
  pte_addr w' = pte_addr w → is_leaf w' = true → 0 ≤ w' < 2 ^ 64 →
  (Z.testbit w' 2 = true → hpage (pte_addr w) → share own (pte_addr w) = 1) → (Z.testbit w' 4 = true → hpage (pte_addr w)) →
  let held' := <[t := set_pte b (level_idx a 0) w']> held in
  pt_inv own held' (set_lvs (<[a := w']> (lvs pt)) pt) ∧ vstep own held pt own held' (set_lvs (<[a := w']> (lvs pt)) pt).
Proof.
  intros Hi Ht Hb Hlen Ha Ep Hlf Hwb Hw2 Hu held'. pose proof Hi as [Hw Hm Hc Hwr Hus]. destruct (pw_lvs _ _ Hw _ _ Ha) as (Hab & Haal & _).
  assert (∀ q, refs (set_lvs (<[a := w']> (lvs pt)) pt) q = refs pt q) as Hrefs.
  { intros q. rw (refs_replace pt a w w' q Ha) Ep. lia. }
  destruct (Hm _ _ _ Ht) as [Hot _]. split.
  - apply (pt_inv_leaf hs he ext root own held pt); [done..| |done|done|done|done|done|done| | | | |].
    + done.
    + intros a' Ha'. by rw lookup_insert_ne; [congruence|].
    + by rw lookup_insert_eq.
    + intros q Hq. by rw Hrefs Hc.
    + intros a' x [[<- <-]|[_ Hx]]%lookup_insert_Some Hb2 Hp; [rw Ep in Hp |- *; by apply Hw2|by apply (Hwr a')].
    + intros a' x [[<- <-]|[_ Hx]]%lookup_insert_Some; [by rw Ep|by apply (Hus a')].
  - split.
    + intros q Hq Htab. split; [done|]. subst held'. rw lookup_insert_ne //. intros <-. apply Htab, is_tab_spec. by exists (0%nat, tb 0 a).
    + done.
    + intros q Hq He. subst held'. rw lookup_insert_ne //. intros <-. pose proof (Hc _ Hq) as Hct. rw /share Hot in Hct.
      pose proof (pt_refs_nonneg pt t). lia.
    + intros q Hq He. rw Hrefs. lia.
    + by left.
    + done.
Qed.

(** Taking a fresh page [p'] instead of the page of an entry. *)
Lemma pt_inv_copy own held pt t b a w p' c :
  pt_inv own held pt → tabs pt !! (0%nat, tb 0 a) = Some t → held !! t = Some b → length b = TABLE_BYTES → lvs pt !! a = Some w →
  hpage (pte_addr w) → 2 ≤ share own (pte_addr w) → own !! p' = None → hpage p' → 0 ≤ p' < 2 ^ 64 →
  let own' := drop_own (pte_addr w) (<[p' := Shared 1]> own) in
  let held' := <[t := set_pte b (level_idx a 0) (own_word p' w)]> (<[p' := c]> held) in
  let pt' := set_lvs (<[a := own_word p' w]> (lvs pt)) pt in
  pt_inv own' held' pt' ∧ vstep own held pt own' held' pt' ∧ share own' p' = 1 ∧ held' !! p' = Some c ∧
  (∀ q, q ≠ p' → q ≠ t → held' !! q = held !! q).
Proof.
  intros Hi Ht Hb Hlen Ha Hp Hn2 Hn Hp' Hpb own' held' pt'. pose proof Hi as [Hw Hm Hc Hwr Hus]. set (p := pte_addr w) in *.
  destruct (pw_lvs _ _ Hw _ _ Ha) as (Hab & Haal & _). destruct (Hp') as [_ Hpal].
  pose proof (own_word_addr p' w Hpb Hpal) as Epa. destruct (Hm _ _ _ Ht) as [Hot _].
  destruct (leaf_owner hs he ext Hext root own held pt a w Hi Ha Hp) as (n & Hown & En & Hn0). fold p in Hown, En.
  assert (share own p = n) as Esh by by rw /share Hown. rw Esh in Hn2.
  assert (p' ≠ p) as Hpp by congruence. assert (p' ≠ t) as Hpt by congruence. assert (p ≠ t) as Hptt by congruence.
  assert (∀ q, share own' q = share own q + (if decide (p' = q) then 1 else 0) - (if decide (p = q) then 1 else 0)) as Hshare.
  { intros q. subst own'. rw (share_drop _ p n) //; [by rw lookup_insert_ne|]. rw share_new //. }
  assert (∀ q, refs pt' q = refs pt q - (if decide (p = q) then 1 else 0) + (if decide (p' = q) then 1 else 0)) as Hrefs.
  { intros q. subst pt'. rw (refs_replace pt a w _ q Ha) Epa //. }
  assert (share own p' = 0) as Hs0 by by rw /share Hn.
  assert (∀ q, q ≠ p' → q ≠ t → held' !! q = held !! q) as Hne.
  { intros q H1 H2. subst held'. by rw !lookup_insert_ne; [congruence..|]. }
  split_and!; [..|done].
  - apply (pt_inv_leaf hs he ext root own held pt); [done..| |done|done|done|done|done|by apply own_word_bound| | | | |].
    + intros t1 [[l1 b1] Hk]%is_tab_spec. destruct (Hm _ _ _ Hk) as [Ho1 _]. subst own'.
      rw drop_own_ne; [congruence|]. by rw !lookup_insert_ne; [congruence..|].
    + intros a' Ha'. by rw lookup_insert_ne; [congruence|].
    + rw lookup_insert_eq. split; [done|]. apply own_word_leaf. destruct (Hm _ _ _ Ht) as (_ & b' & Hb' & He').
      specialize (He' (level_idx a 0) (level_idx_bound a 0 ltac:(lia))). rw /entry_ok tb_idx in He'; [lia|lia|].
      change (psz 0) with PAGE_SIZE in He'. rw Haal Z.sub_0_r Ha in He'. by destruct He' as [<- ?].
    + intros q Hq. change (set_lvs _ _) with pt'. rw Hshare Hrefs Hc //. lia.
    + intros a' x [[<- <-]|[Hna Hx]]%lookup_insert_Some Hb2 Hpx.
      * rw Epa Hshare. rw decide_True //. rw decide_False; [congruence|]. lia.
      * pose proof (Hwr _ _ Hx Hb2 Hpx) as Hs1. rw Hshare Hs1. rw decide_False; [intros E; rw -E in Hs1; lia|].
        rw decide_False; [intros E; rw -E in Hs1; lia|]. lia.
    + intros a' x [[<- <-]|[_ Hx]]%lookup_insert_Some; [by rw Epa|by apply (Hus a')].
  - split.
    + intros q Hq Htab. assert (q ≠ t) by (intros ->; apply Htab, is_tab_spec; by exists (0%nat, tb 0 a)). split.
      * subst own'. rw drop_own_ne; [congruence|]. by rw lookup_insert_ne; [congruence|].
      * apply Hne; congruence.
    + done.
    + intros q Hq He. pose proof (Hc _ Hq) as Hcq. pose proof (pt_refs_nonneg pt q). apply Hne.
      * intros ->. lia.
      * intros ->. rw /share Hot in Hcq. lia.
    + intros q Hq He. rw Hrefs. rw (decide_False (P := p' = q)); [|case_decide; lia]. intros <-. pose proof (Hc _ Hq). pose proof (pt_refs_nonneg pt p'). lia.
    + intros q Hq. left. apply (drop_own_Exclusive _ p q n) in Hq; [|by rw lookup_insert_ne]. by apply lookup_insert_Some in Hq as [[_ [=]]|[_ ?]].
    + done.
  - rw Hshare decide_True // decide_False; [congruence|]. lia.
  - subst held'. rw lookup_insert_ne; [congruence|]. by rw lookup_insert_eq.
Qed.

(** ** Writing to a shared page *)

(** The page of an entry that may be written is a page of one's own with the old contents. *)
Definition privatized own own' held held' (w w' : Z) : Prop :=
  pte_flags w' = cow_flags (pte_flags w) ∧ hpage (pte_addr w') ∧ share own' (pte_addr w') = 1 ∧
  held' !! pte_addr w' = held !! pte_addr w.

Lemma copy_shared_wp own held s pt a w t :
  vm_ok own held s → pt_inv own held pt → lvs pt !! a = Some w → tabs pt !! (0%nat, tb 0 a) = Some t →
  hpage (pte_addr w) → 2 ≤ share own (pte_addr w) →
  wp (copy_shared (entry t (level_idx a 0)) 0 (cow_flags (pte_flags w)) (pte_addr w)) (λ r s', match r with
    | Ok _ => ∃ own' held' w', vm_ok own' held' s' ∧ pt_inv own' held' (set_lvs (<[a := w']> (lvs pt)) pt) ∧
        vstep own held pt own' held' (set_lvs (<[a := w']> (lvs pt)) pt) ∧ privatized own own' held held' w w' ∧
        (∀ p n, own !! p = Some (Shared n) → held' !! p = held !! p) ∧ size own' = S (size own)
    | Err e => e = NoFreePage ∧ unowned hs he own = 0 ∧ vm_ok (drop_own (pte_addr w) own) held s'
    end) s.
Proof.
  intros Hv Hi Ha Ht Hp Hn2. destruct (leaf_bytes hs he ext root own held s pt a w t Hv Hi Ha Ht) as (Ha0 & Haal & b & Hb & Hlen & Hw & Hlf).
  destruct (leaf_owner hs he ext Hext root own held pt a w Hi Ha Hp) as (n & Hown & En & Hn0). set (p := pte_addr w) in *.
  assert (share own p = n) as Esh by by rw /share Hown. rw Esh in Hn2. destruct (Hp) as [_ Hpal].
  assert (own !! p ≫= drop_owner = Some (Shared (n - 1))) as Hdrop by (rw Hown /=; case: Z.ltb_spec; [done|lia]).
  destruct (proj2 (po_held _ _ _ (vo_pages _ _ _ _ _ Hv) p)) as [c Hc]; [by rw Hown|]. rw /copy_shared. wp_step.
  eapply wp_mono; [exact (vm_page_alloc hs he own held s Hv)|]. intros [p'|e] s1 Hal; simpl in Hal.
  2: { destruct Hal as (-> & Hall & Hv1). wp_step. eapply wp_mono; [exact (vm_page_drop hs he own held s1 p _ Hv1 Hown)|].
       intros [] s2 Hv2. wp_step. split; [done|]. split; [exact (vm_full hs he own held s1 Hv1 Hall)|]. by rw (drop_held_some _ _ _ _ Hdrop) in Hv2. }
  destruct Hal as (Hp' & Hn & Hv1). destruct (Hp') as [_ Hpal']. pose proof (vm_bounds hs he own held s p' Hv Hp') as Hpb.
  assert (p' ≠ p) as Hpp by congruence. assert (p' ≠ t) as Hpt by (destruct (pi_mem _ _ _ _ _ _ _ Hi _ _ _ Ht); congruence).
  destruct (vm_memory hs he own held s p c Hv Hc) as [_ Hcl].
  wp_step. apply (read_whole hs he _ _ s1 p c _ Hv1); [by rw lookup_insert_ne|done|]. wp_step.
  eapply wp_mono; [exact (write_whole hs he _ _ s1 p' _ c Hv1 (lookup_insert_eq _ _ _) Hpal' Hcl)|]. intros [] s2 Hv2. rw insert_insert_eq in Hv2.
  wp_step. pose proof (leaf_ppn p' ltac:(lia)). apply pte_new_word; [lia|apply cow_flags_range, flags_range|]. fold (own_word p' w). wp_step.
  eapply wp_mono; [apply (write_pte_wp hs he _ _ s2 t (level_idx a 0) b (own_word p' w) Hv2); [by rw lookup_insert_ne|by apply level_idx_bound]|].
  intros [] s3 Hv3. wp_step. assert ((<[p' := Shared 1]> own) !! p = Some (Shared n)) as Hown' by by rw lookup_insert_ne.
  eapply wp_mono; [exact (vm_page_drop hs he _ _ s3 p _ Hv3 Hown')|]. intros [] s4 Hv4. wp_step.
  rw (drop_held_some _ _ _ (Shared (n - 1))) in Hv4; [rw Hown'; by rw Hown in Hdrop|].
  destruct (pt_inv_copy own held pt t b a w p' c Hi Ht Hb Hlen Ha Hp ltac:(fold p; lia) Hn Hp' ltac:(lia)) as (Hi' & Hvs & Hs1 & Hh & Hne).
  eexists _, _, (own_word p' w). split; [exact Hv4|]. split; [exact Hi'|]. split; [exact Hvs|]. split.
  - rw /privatized own_word_addr //; [lia|]. rw Hh. split_and!; [apply own_word_flags|done|done|by rw Hc].
  - split; [intros q m Hq; apply Hne; [congruence|]; destruct (pi_mem _ _ _ _ _ _ _ Hi _ _ _ Ht); congruence|].
    rw (drop_own_eq _ _ _ Hown') /=. case: Z.ltb_spec => ?; [|lia].
    change (partial_alter (λ _, Some (Shared (n - 1))) p ?m) with (<[p := Shared (n - 1)]> m). rw map_size_insert Hown' map_size_insert Hn //.
Qed.

Lemma request_user_write_wp own held s pt a w t va :
  vm_ok own held s → pt_inv own held pt → lvs pt !! a = Some w → tabs pt !! (0%nat, tb 0 a) = Some t →
  wp (request_user_write (entry t (level_idx a 0)) 0 va) (λ r s', match r with
    | Ok _ => ∃ own' held' w', vm_ok own' held' s' ∧ pt_inv own' held' (set_lvs (<[a := w']> (lvs pt)) pt) ∧
        vstep own held pt own' held' (set_lvs (<[a := w']> (lvs pt)) pt) ∧
        (contains (pte_flags w) PtEntryFlags.UW = true ∧ w' = w ∧ held' = held ∨
         contains (pte_flags w) PtEntryFlags.UW = false ∧ Z.testbit w 4 = true ∧ privatized own own' held held' w w') ∧
        (∀ p n, own !! p = Some (Shared n) → held' !! p = held !! p) ∧
        (size own' ≤ if contains (pte_flags w) PtEntryFlags.UW then size own else S (size own))%nat
    | Err e => e = InaccessiblePage va ∧ s' = s ∧ contains (pte_flags w) PtEntryFlags.UW = false ∧ contains (pte_flags w) (Z.lor FU FC) = false ∨
        e = NoFreePage ∧ 2 ≤ share own (pte_addr w) ∧ unowned hs he own = 0 ∧ vm_ok (drop_own (pte_addr w) own) held s'
    end) s.
Proof.
  intros Hv Hi Ha Ht. destruct (leaf_bytes hs he ext root own held s pt a w t Hv Hi Ha Ht) as (Ha0 & Haal & b & Hb & Hlen & Hw & Hlf).
  rw /request_user_write. wp_step. apply (read_pte_wp hs he own held s t (level_idx a 0) b); [done..|]. rw Hw.
  destruct (contains (pte_flags w) PtEntryFlags.UW) eqn:Euw.
  { wp_step. exists own, held, w. rw insert_id //. split_and!; [done|by destruct pt|destruct pt; apply vstep_refl|by left|done|done]. }
  destruct (contains (pte_flags w) (Z.lor FU FC)) eqn:Euc; cbn [negb]; [|wp_step; by left].
  rw contains_lor !contains_bit // !flags_testbit // in Euc. apply andb_prop in Euc as [Hu HC].
  pose proof (pi_user _ _ _ _ _ _ _ Hi _ _ Ha Hu) as Hp. destruct (leaf_owner hs he ext Hext root own held pt a w Hi Ha Hp) as (n & Hown & En & Hn0).
  pose proof (ro_wf _ _ (po_refs _ _ _ (vo_pages _ _ _ _ _ Hv)) _ _ Hown) as Hnw. simpl in Hnw.
  destruct (pte_addr_bound w) as [Hpb Hpal].
  wp_step. apply wp_assert; [done|]. wp_step. eapply wp_mono; [exact (vm_ref_count hs he own held s _ _ Hv Hown)|]. intros m s' [-> ->].
  simpl owner_count. case: Z.eqb_spec => E1.
  - wp_step. pose proof (leaf_ppn (pte_addr w) Hpb). apply pte_new_word; [lia|apply cow_flags_range, flags_range|]. fold (cow_flags (pte_flags w)).
    fold (own_word (pte_addr w) w). wp_step.
    eapply wp_mono; [exact (write_pte_wp hs he own held s t (level_idx a 0) b _ Hv Hb (level_idx_bound a 0 Ha0))|]. intros [] s1 Hv1. wp_step.
    pose proof (own_word_addr (pte_addr w) w Hpb Hpal) as Epa. assert (share own (pte_addr w) = 1) as Hs1 by by rw /share Hown.
    destruct (pt_inv_reflag own held pt t b a w (own_word (pte_addr w) w) Hi Ht Hb Hlen Ha Epa) as [Hi' Hvs]; [by apply own_word_leaf|by apply own_word_bound|done..|].
    assert (own !! t = Some Exclusive) as Hot by by destruct (pi_mem _ _ _ _ _ _ _ Hi _ _ _ Ht).
    eexists _, _, (own_word (pte_addr w) w). split; [exact Hv1|]. split; [exact Hi'|]. split; [exact Hvs|]. split.
    + right. rw /privatized Epa. split; [done|]. split; [done|]. split_and!; [by apply own_word_flags|done|done|]. by rw lookup_insert_ne; [congruence|].
    + split; [|lia]. intros q k Hq. by rw lookup_insert_ne; [congruence|].
  - assert (2 ≤ share own (pte_addr w)) as Hs2 by (rw /share Hown; lia).
    eapply wp_mono; [exact (copy_shared_wp own held s pt a w t Hv Hi Ha Ht Hp Hs2)|]. intros [[]|e] s1.
    + intros (own' & held' & w' & H1 & H2 & H3 & H4 & H5 & H6). exists own', held', w'. split_and!; [done..|by right|done|lia].
    + intros (-> & H & H'). by right.
Qed.

(** ** Sharing a page *)

(** The flags of a page that is shared, and the word of its entry. *)
Definition share_flags (f : Z) : Z := insert_flags (remove_flags f FW) FC.
Definition share_word (w : Z) : Z := if Z.testbit w 2 then word (pte_ppn w) (share_flags (pte_flags w)) else w.

Lemma share_flags_range f : 0 ≤ f < 1024 → 0 ≤ share_flags f < 1024.
Proof. intros Hf. apply lor_flags; [|done]. by apply ldiff_flags. Qed.
Lemma share_flags_bit f n : 0 ≤ n → Z.testbit (share_flags f) n = (Z.testbit f n && negb (n =? 2)) || (n =? 8).
Proof.
  intros Hn. rw /share_flags /insert_flags /remove_flags Z.lor_spec Z.ldiff_spec. change FC with (2 ^ 8). change FW with (2 ^ 2).
  rw !Z.pow2_bits_eqb // (Z.eqb_sym 8) (Z.eqb_sym 2) //.
Qed.
Lemma share_word_addr w : pte_addr (share_word w) = pte_addr w.
Proof. rw /share_word. destruct (Z.testbit w 2); [|done]. rw /pte_addr word_ppn //. apply share_flags_range, flags_range. Qed.
Lemma share_word_bit w n : 0 ≤ n < 10 → n ≠ 8 → Z.testbit (share_word w) n = Z.testbit w n && negb (n =? 2).
Proof.
  intros Hn H8. rw /share_word. destruct (Z.testbit w 2) eqn:E2.
  - rw -flags_testbit // word_flags; [apply share_flags_range, flags_range|]. rw share_flags_bit; [lia|]. rw flags_testbit //.
    case: (Z.eqb_spec n 8) => ?; [lia|]. by rw orb_false_r.
  - case: (Z.eqb_spec n 2) => [->|?]; [by rw E2|by rw andb_true_r].
Qed.
Lemma share_word_bound w : 0 ≤ w < 2 ^ 64 → 0 ≤ share_word w < 2 ^ 64.
Proof.
  intros Hw. rw /share_word. destruct (Z.testbit w 2); [|done]. pose proof (share_flags_range _ (flags_range w)). rw /word pte_ppn_eq.
  Z.div_mod_to_equations. lia.
Qed.
Lemma share_word_leaf w : is_leaf w = true → Z.testbit w 1 || Z.testbit w 3 = true → is_leaf (share_word w) = true.
Proof.
  intros H%leaf_valid Hrx. rw is_valid_bit in H. rw is_leaf_bits !share_word_bit // H. by destruct (Z.testbit w 1), (Z.testbit w 2), (Z.testbit w 3).
Qed.

Lemma make_copy_on_write_wp own held s pt a w t :
  vm_ok own held s → pt_inv own held pt → lvs pt !! a = Some w → tabs pt !! (0%nat, tb 0 a) = Some t → Z.testbit w 1 || Z.testbit w 3 = true →
  wp (make_copy_on_write (entry t (level_idx a 0))) (λ _ s', ∃ held', vm_ok own held' s' ∧
    pt_inv own held' (set_lvs (<[a := share_word w]> (lvs pt)) pt) ∧ vstep own held pt own held' (set_lvs (<[a := share_word w]> (lvs pt)) pt) ∧
    (∀ p n, own !! p = Some (Shared n) → held' !! p = held !! p)) s.
Proof.
  intros Hv Hi Ha Ht Hrx. destruct (leaf_bytes hs he ext root own held s pt a w t Hv Hi Ha Ht) as (Ha0 & Haal & b & Hb & Hlen & Hw & Hlf).
  assert (0 ≤ w < 2 ^ 64) as Hwb by (rw -Hw; apply pte_in_bound; [done|by apply level_idx_bound]).
  rw /make_copy_on_write. wp_step. apply (read_pte_wp hs he own held s t (level_idx a 0) b); [done..|]. rw Hw.
  rw contains_bit // flags_testbit //. destruct (Z.testbit w 2) eqn:E2.
  - wp_step. apply pte_new_word; [rw pte_ppn_eq; Z.div_mod_to_equations; lia|apply share_flags_range, flags_range|].
    assert (word (pte_ppn w) (insert_flags (remove_flags (pte_flags w) FW) FC) = share_word w) as -> by by rw /share_word E2.
    eapply wp_mono; [exact (write_pte_wp hs he own held s t (level_idx a 0) b _ Hv Hb (level_idx_bound a 0 Ha0))|]. intros [] s1 Hv1.
    destruct (pt_inv_reflag own held pt t b a w (share_word w) Hi Ht Hb Hlen Ha (share_word_addr w)) as [Hi' Hvs].
    + by apply share_word_leaf.
    + by apply share_word_bound.
    + rw share_word_bit // E2 //.
    + rw share_word_bit // andb_true_r. by apply (pi_user _ _ _ _ _ _ _ Hi _ _ Ha).
    + assert (own !! t = Some Exclusive) as Hot by by destruct (pi_mem _ _ _ _ _ _ _ Hi _ _ _ Ht).
      eexists. split; [exact Hv1|]. split; [done|]. split; [done|]. intros q n Hq. by rw lookup_insert_ne; [congruence|].
  - wp_step. exists held. rw /share_word E2 insert_id //. split; [done|]. split; [by destruct pt|]. split; [destruct pt; apply vstep_refl|done].
Qed.
End cow.
