(* ===== verification/PtFixed.v ===== *)
(** * Mapping given pages

    Mapping a page that exists already: the trampoline, and the pages that [fork] shares.
    The caller has taken a reference to a page of the heap before; it becomes the
    reference of the new entry. *)

From S2P Require Import Prelude KError Pod SysTypes Addr PageAlloc Pages Pte PteSpec PageTable PtSpec PtMap PtIter PtUnmap PtCow.

(** One more reference to a page. *)
Definition ext_add (p : Z) (ext : Z → Z) (q : Z) : Z := ext q + (if decide (p = q) then 1 else 0).

Section fixed.
Context (hs he : Z) (ext : Z → Z) (Hext : ∀ p, 0 ≤ ext p) (root : Z).
Implicit Types (s : Pages) (own : gmap Z Owner) (held : Contents) (pt : PT).
Abbreviation vm_ok := (vm_ok hs he).
Abbreviation hpage := (hpage hs he).

(** The reference that is held becomes one of the page table. *)
Lemma pt_inv_fixed own held pt t b a p perm :
  pt_inv hs he (ext_add p ext) root own held pt → tabs pt !! (0%nat, tb 0 a) = Some t → held !! t = Some b → length b = TABLE_BYTES →
  0 ≤ a < VA_SIZE → a mod PAGE_SIZE = 0 → lvs pt !! a = None → 0 ≤ p < 2 ^ 64 → p mod PAGE_SIZE = 0 →
  0 ≤ perm < 1024 → intersects perm FRWX = true → (Z.testbit perm 2 = true → hpage p → share own p = 1) → (Z.testbit perm 4 = true → hpage p) →
  pt_inv hs he ext root own (<[t := set_pte b (level_idx a 0) (leaf_word p perm)]> held) (set_lvs (<[a := leaf_word p perm]> (lvs pt)) pt).
Proof.
  intros Hi Ht Hb Hlen Ha Hal Hna Hp Hpal Hperm Hx Hw2 Hu. pose proof Hi as [Hw Hm Hc Hwr Hus].
  apply (pt_inv_leaf hs he ext root own held pt); [done..| | | | | |].
  - by apply leaf_word_bound.
  - intros a' Ha'. by rw lookup_insert_ne; [congruence|].
  - rw lookup_insert_eq. split; [done|]. by apply leaf_word_leaf.
  - intros q Hq. rw refs_insert // leaf_word_addr // Hc // /ext_add. lia.
  - intros a' x [[<- <-]|[_ H]]%lookup_insert_Some; [|by apply (Hwr a')]. rw leaf_word_addr // leaf_word_bit //.
  - intros a' x [[<- <-]|[_ H]]%lookup_insert_Some; [|by apply (Hus a')]. rw leaf_word_addr // leaf_word_bit //.
Qed.

Lemma map_page_fixed_wp own held s pt a p perm :
  vm_ok own held s → pt_inv hs he (ext_add p ext) root own held pt → 0 ≤ a < VA_SIZE → a mod PAGE_SIZE = 0 → lvs pt !! a = None →
  0 ≤ p < 2 ^ 64 → p mod PAGE_SIZE = 0 → 0 ≤ perm < 1024 → intersects perm FRWX = true →
  (Z.testbit perm 2 = true → hpage p → share own p = 1) → (Z.testbit perm 4 = true → hpage p) →
  wp (map_page root 0 a (FixedAddr p) perm) (λ r s', ∃ own' held' pt', grows hs he (ext_add p ext) own held pt own' held' pt' ∧ lvs pt' = lvs pt ∧
    match r with
    | Ok _ => ∃ t w, is_tab pt' t ∧ vm_ok own' (<[t := w]> held') s' ∧
        pt_inv hs he ext root own' (<[t := w]> held') (set_lvs (<[a := leaf_word p perm]> (lvs pt)) pt')
    | Err e => e = NoFreePage ∧ vm_ok own' held' s' ∧ pt_inv hs he (ext_add p ext) root own' held' pt'
    end) s.
Proof.
  intros Hv Hi Ha Hal Hna Hp Hpal Hperm Hx Hw2 Hu. rw /map_page. wp_step. apply wp_assert; [done|]. rw /find_or_create_leaf. wp_step. wp_step.
  apply wp_assert; [done|]. assert (tb 2 a = 0) as E2 by (rw /tb; change (psz 3) with VA_SIZE; rw Z.mod_small //; lia).
  eapply wp_mono; [apply (find_or_create_wp hs he (ext_add p ext) root 2 a own held s pt root); [done|lia|done..|rw E2; apply Hi]|].
  intros [e|e] s1 (own1 & held1 & pt1 & Hv1 & Hi1 & Hg1 & El & Hr); [|exists own1, held1, pt1; by split_and!].
  destruct Hr as (t & -> & Ht).
  destruct (leaf_entry hs he _ root own1 held1 s1 pt1 a t Hv1 Hi1 Ht ltac:(lia) Hal) as (b & Hb & Hlen & Hent). rw El Hna in Hent.
  wp_step. apply (read_pte_wp hs he own1 held1 s1 t (level_idx a 0) b); [done..|]. rw Hent. cbn iota. wp_step. cbn [get_or_allocate]. wp_step. wp_step.
  eapply wp_mono; [apply (set_phys_page_num_wp hs he own1 held1 s1 t b (level_idx a 0) p perm Hv1 Hb); [apply level_idx_bound; lia|done..]|].
  intros [] s2 Hv2. wp_step. exists own1, held1, pt1. split; [done|]. split; [done|]. exists t, (set_pte b (level_idx a 0) (leaf_word p perm)).
  split; [apply is_tab_spec; by exists (0%nat, tb 0 a)|]. split; [done|]. rw -El. apply pt_inv_fixed; try done; [by rw El|].
  intros H2 Hh. specialize (Hw2 H2 Hh). rw /share in Hw2 |- *. destruct (own !! p) as [[n|]|] eqn:Eo; [|lia..].
  by rw (lookup_weaken _ own1 _ _ Eo (gr_own _ _ _ _ _ _ _ _ _ Hg1)).
Qed.

(** [map_addrs_level] for one page. *)
Lemma map_level_fixed_wp own held s pt a p perm :
  vm_ok own held s → pt_inv hs he (ext_add p ext) root own held pt → 0 ≤ a → a + PAGE_SIZE ≤ VA_MAX → a mod PAGE_SIZE = 0 → lvs pt !! a = None →
  0 ≤ p < 2 ^ 64 - PAGE_SIZE → p mod PAGE_SIZE = 0 → 0 ≤ perm < 1024 → intersects perm FRWX = true →
  (Z.testbit perm 2 = true → hpage p → share own p = 1) → (Z.testbit perm 4 = true → hpage p) →
  wp (map_addrs_level root 0 a (FixedAddr p) PAGE_SIZE perm) (λ r s', ∃ own' held' pt', grows hs he (ext_add p ext) own held pt own' held' pt' ∧
    lvs pt' = lvs pt ∧
    match r with
    | Ok _ => ∃ t w, is_tab pt' t ∧ vm_ok own' (<[t := w]> held') s' ∧
        pt_inv hs he ext root own' (<[t := w]> held') (set_lvs (<[a := leaf_word p perm]> (lvs pt)) pt')
    | Err e => e = NoFreePage ∧ vm_ok own' held' s' ∧ pt_inv hs he (ext_add p ext) root own' held' pt'
    end) s.
Proof.
  intros Hv Hi Ha Hmax Hal Hna Hp Hpal Hperm Hx Hw2 Hu. rw /map_addrs_level. wp_step.
  apply wp_assert; [rw /is_level_page_aligned psz_level; lia|]. wp_step.
  apply wp_assert; [rw /target_is_level_page_aligned /is_level_page_aligned psz_level; lia|]. wp_step. apply wp_assert; [done|]. wp_step.
  apply wp_assert; [done|]. wp_step. rw (proj2 (va_byte_add_Ok a PAGE_SIZE (a + PAGE_SIZE) Ha ltac:(done))) //. wp_step.
  pose proof page_pos as Hpos. set (Post := λ (r : result KernelError (Z * MapTarget)) s', ∃ own' held' pt', _ ∧ _).
  apply (while_wp FUEL _ (λ st s', st = (a, FixedAddr p) ∧ s' = s ∨ st.1 = a + PAGE_SIZE ∧ Post (Ok st) s') (λ st _, a + PAGE_SIZE - st.1));
    [|cbn [fst]; change (Z.pos FUEL) with (2 ^ 40); change PAGE_SIZE with 4096; lia|by left].
  intros st s1 [[-> ->]|[E HP]].
  - cbn [fst]. split; [lia|]. rw /map_step. case: Z.ltb_spec => ?; [|lia]. wp_step.
    eapply wp_mono; [apply (map_page_fixed_wp own held s pt a p perm); try done; [|lia]|].
    { change VA_SIZE with 549755813888. change VA_MAX with 274877906944 in Hmax. lia. }
    intros [[]|e] s2 (own' & held' & pt' & Hg & El & Hr); [|wp_step; exists own', held', pt'; done].
    rw psz_level (proj2 (va_byte_add_Ok a PAGE_SIZE (a + PAGE_SIZE) Ha ltac:(done))) // /unwrap_ok. do 3 wp_step.
    apply (wp_unwrap _ (FixedAddr (p + PAGE_SIZE))).
    { rw /target_byte_add /pa_byte_add /checked_add. case: Z.leb_spec => ?; [done|]. change U64_MAX with (2 ^ 64 - 1) in *. lia. }
    wp_step. cbn [fst]. split; [|lia]. right. split; [done|]. exists own', held', pt'. done.
  - destruct st as [va tgt]. cbn [fst] in *. subst va. split; [lia|]. rw /map_step. case: Z.ltb_spec => ?; [lia|]. wp_step. done.
Qed.
End fixed.
