(* ===== verification/VmWorld.v ===== *)
(** * All page tables

    The page tables of the system together: every reference to a page of the heap is
    counted, tables are not shared, and a page that can be written through an entry is
    mapped by this entry only.  An operation on one page table keeps this for all. *)

From S2P Require Import Prelude KError Pod SysTypes Addr PageAlloc Pages Pte PteSpec PageTable PtSpec PtMap PtIter PtUnmap PtCow PtFixed.

(** The page tables, by their roots. *)
Abbreviation World := (gmap Z PT).

Definition total (W : World) (p : Z) : Z := map_fold (λ _ pt n, refs pt p + n) 0 W.

Lemma total_empty p : total ∅ p = 0.
Proof. apply map_fold_empty. Qed.
Lemma total_insert W r pt p : W !! r = None → total (<[r := pt]> W) p = refs pt p + total W p.
Proof. intros Hr. rw /total map_fold_insert_L //. intros. lia. Qed.
Lemma total_delete W r pt p : W !! r = Some pt → total W p = refs pt p + total (delete r W) p.
Proof. intros Hr. rw -(total_insert (delete r W) r pt) ?lookup_delete_eq // insert_delete_id //. Qed.
Lemma total_update W r pt pt' p : W !! r = Some pt → total (<[r := pt']> W) p = refs pt' p + total (delete r W) p.
Proof. intros Hr. rw -(insert_delete_eq W) total_insert // lookup_delete_eq //. Qed.
Lemma total_nonneg W p : 0 ≤ total W p.
Proof.
  induction W as [|r pt W Hr IH] using map_ind; [by rw total_empty|]. rw total_insert //. pose proof (pt_refs_nonneg pt p). lia.
Qed.
Lemma total_refs W r pt p : W !! r = Some pt → refs pt p ≤ total W p.
Proof. intros Hr. rw (total_delete W r pt p Hr). pose proof (total_nonneg (delete r W) p). lia. Qed.

(** The references of the other page tables, and those that were leaked. *)
Definition ext_of (W : World) (leak : Z → Z) (r : Z) : Z → Z := λ p, total (delete r W) p + leak p.
Lemma ext_of_update W leak r pt' : ext_of (<[r := pt']> W) leak r = ext_of W leak r.
Proof. by rw /ext_of delete_insert_eq. Qed.
Lemma ext_of_other W leak r r' pt' p : 0 ≤ leak p → r ≠ r' → W !! r' = Some pt' → refs pt' p ≤ ext_of W leak r p.
Proof. intros Hl Hne Hr'. rw /ext_of. assert (refs pt' p ≤ total (delete r W) p); [|lia]. apply (total_refs _ r'). by rw lookup_delete_ne. Qed.

Section world.
Context (hs he : Z).
Implicit Types (s : Pages) (own : gmap Z Owner) (held : Contents) (pt : PT) (W : World) (leak : Z → Z).
Abbreviation vm_ok := (vm_ok hs he).
Abbreviation hpage := (hpage hs he).

Record world_ok W leak own held : Prop := {
  wo_leak : ∀ p, 0 ≤ leak p;
  wo_pt : ∀ r pt, W !! r = Some pt → pt_inv hs he (ext_of W leak r) r own held pt;
  wo_disj : ∀ r r' pt pt' t, W !! r = Some pt → W !! r' = Some pt' → is_tab pt t → is_tab pt' t → r = r';
  wo_count : ∀ p, hpage p → share own p = total W p + leak p;
}.

(** Entries that can write to a page of the heap. *)
Definition writable W (r a p : Z) : Prop :=
  ∃ pt w, W !! r = Some pt ∧ lvs pt !! a = Some w ∧ Z.testbit w 2 = true ∧ pte_addr w = p ∧ hpage p.

(** A page that can be written is mapped once. *)
Lemma writable_once W leak own held r a p : world_ok W leak own held → writable W r a p → total W p = 1 ∧ leak p = 0.
Proof.
  intros Hw (pt & w & Hr & Ha & H2 & <- & Hp). pose proof (wo_count _ _ _ _ Hw _ Hp) as Hc. pose proof (wo_leak _ _ _ _ Hw (pte_addr w)).
  rw (pi_write _ _ _ _ _ _ _ (wo_pt _ _ _ _ Hw _ _ Hr) a) // in Hc. pose proof (pt_refs_pos _ _ _ Ha). pose proof (total_refs W r pt (pte_addr w) Hr). lia.
Qed.
Lemma mapped_once W leak own held r a p r' a' pt' w' :
  world_ok W leak own held → writable W r a p → W !! r' = Some pt' → lvs pt' !! a' = Some w' → pte_addr w' = p → r' = r ∧ a' = a.
Proof.
  intros Hw Hwr Hr' Ha' Ep'. pose proof (writable_once _ _ _ _ _ _ _ Hw Hwr) as [H1 H0]. destruct Hwr as (pt & w & Hr & Ha & H2 & Ep & Hp).
  pose proof (pt_refs_pos _ _ _ Ha) as R1. pose proof (pt_refs_pos _ _ _ Ha') as R2. rw Ep in R1. rw Ep' in R2.
  destruct (decide (r' = r)) as [->|Hne].
  - split; [done|]. assert (pt' = pt) as -> by congruence. destruct (decide (a' = a)) as [|Hna]; [done|]. exfalso.
    pose proof (refs_two pt a' a w' w Hna Ha' Ha ltac:(congruence)) as H22. rw Ep' in H22. pose proof (total_refs W r pt p Hr). lia.
  - exfalso. pose proof (ext_of_other W leak r r' pt' p ltac:(lia) ltac:(congruence) Hr'). rw (total_delete W r pt p Hr) in H1. rw /ext_of in H. lia.
Qed.

(** What an operation on one page table must respect. *)
Lemma world_update W leak leak' own held r pt own' held' pt' :
  world_ok W leak own held → W !! r = Some pt → (∀ p, 0 ≤ leak' p) → pt_inv hs he (ext_of W leak' r) r own' held' pt' →
  (∀ p, own !! p = Some Exclusive → ¬ is_tab pt p → own' !! p = Some Exclusive ∧ held' !! p = held !! p) →
  (∀ t, is_tab pt' t → own !! t = Some Exclusive → is_tab pt t) →
  (∀ r' a p, r' ≠ r → writable W r' a p → refs pt' p + leak' p ≤ refs pt p + leak p) →
  world_ok (<[r := pt']> W) leak' own' held'.
Proof.
  intros Hw Hr Hl' Hi Hex Hfr Hwr. pose proof (wo_pt _ _ _ _ Hw _ _ Hr) as Hi0.
  assert (∀ p, hpage p → share own' p = total (<[r := pt']> W) p + leak' p) as Hcount.
  { intros p Hp. rw (total_update W r pt pt' p Hr) (pi_count _ _ _ _ _ _ _ Hi) // /ext_of. lia. }
  assert (∀ r' pt1 t, r' ≠ r → W !! r' = Some pt1 → is_tab pt1 t → own !! t = Some Exclusive ∧ ¬ is_tab pt t) as Hother.
  { intros r' pt1 t Hne Hr' Ht. split; [|intros Ht'; by apply Hne, (wo_disj _ _ _ _ Hw r' r pt1 pt t)].
    apply is_tab_spec in Ht as [[l b] Hk]. by destruct (pi_mem _ _ _ _ _ _ _ (wo_pt _ _ _ _ Hw _ _ Hr') _ _ _ Hk). }
  split; [done| | |done].
  - intros r' pt1. rw lookup_insert_Some. intros [[<- <-]|[Hne Hr']]; [by rw ext_of_update|].
    pose proof (wo_pt _ _ _ _ Hw _ _ Hr') as [Hw1 Hm1 Hc1 Hwr1 Hus1]. split; [done|..|done].
    + intros l base t Ht. destruct (Hother r' pt1 t) as [Hot Hnt]; [congruence|done|apply is_tab_spec; by exists (l, base)|].
      destruct (Hex t Hot Hnt) as [-> ->]. split; [done|]. by apply Hm1.
    + intros p Hp. rw Hcount // /ext_of (total_delete _ r' pt1 p); [rw lookup_insert_ne //|]. lia.
    + intros a w Ha H2 Hp. rw Hcount // (total_update W r pt pt' _ Hr).
      assert (writable W r' a (pte_addr w)) as Hwa by by exists pt1, w.
      pose proof (writable_once _ _ _ _ _ _ _ Hw Hwa) as [H1 H0]. rw (total_delete W r pt _ Hr) in H1.
      pose proof (Hwr r' a (pte_addr w) ltac:(congruence) Hwa). pose proof (pt_refs_nonneg pt' (pte_addr w)). pose proof (pt_refs_nonneg pt (pte_addr w)).
      pose proof (ext_of_other W leak r r' pt1 (pte_addr w) (wo_leak _ _ _ _ Hw _) Hne Hr') as Ho. rw /ext_of in Ho.
      pose proof (pt_refs_pos _ _ _ Ha). pose proof (Hl' (pte_addr w)). lia.
  - intros r1 r2 pt1 pt2 t. rw !lookup_insert_Some. intros [[<- <-]|[Hne1 Hr1]] [[<- <-]|[Hne2 Hr2]] Ht1 Ht2; [done|..].
    + destruct (Hother r2 pt2 t) as [Hot Hnt]; [congruence|done..|]. by destruct Hnt; apply Hfr.
    + destruct (Hother r1 pt1 t) as [Hot Hnt]; [congruence|done..|]. by destruct Hnt; apply Hfr.
    + by apply (wo_disj _ _ _ _ Hw r1 r2 pt1 pt2 t).
Qed.

Lemma world_step W leak own held r pt own' held' pt' :
  world_ok W leak own held → W !! r = Some pt → pt_inv hs he (ext_of W leak r) r own' held' pt' →
  vstep hs he (ext_of W leak r) own held pt own' held' pt' → world_ok (<[r := pt']> W) leak own' held'.
Proof.
  intros Hw Hr Hi [He Hf Hd Hrf]. apply (world_update W leak leak own held r pt); try done; [apply Hw|].
  intros r' a p Hne (pt1 & w & Hr' & Ha & _ & <- & Hp). apply Zplus_le_compat_r, Hrf; [done|].
  pose proof (ext_of_other W leak r r' pt1 (pte_addr w) (wo_leak _ _ _ _ Hw _) ltac:(congruence) Hr'). pose proof (pt_refs_pos _ _ _ Ha). lia.
Qed.

(** The pages that are not shared and appear are tables, and no table is forgotten. *)
Definition tab_of W (q : Z) : Prop := ∃ r pt, W !! r = Some pt ∧ is_tab pt q.
Record excl_step W own W' own' : Prop := {
  es_new : ∀ q, own' !! q = Some Exclusive → own !! q = Some Exclusive ∨ tab_of W' q;
  es_keep : ∀ q, tab_of W q → tab_of W' q;
}.
Lemma excl_refl W own : excl_step W own W own.
Proof. split; auto. Qed.
Lemma excl_same W own own' : (∀ q, own' !! q = Some Exclusive → own !! q = Some Exclusive) → excl_step W own W own'.
Proof. intros H. split; [|done]. intros q Hq. left. by apply H. Qed.
Lemma excl_update W own held r pt own' held' pt' ext :
  W !! r = Some pt → vstep hs he ext own held pt own' held' pt' → excl_step W own (<[r := pt']> W) own'.
Proof.
  intros Hr [_ _ _ _ Hn Hk]. split.
  - intros q [?|Ht]%Hn; [by left|right]. exists r, pt'. split; [apply lookup_insert_eq|done].
  - intros q (r' & pt1 & Hr' & Ht). destruct (decide (r' = r)) as [->|Hne].
    + exists r, pt'. split; [apply lookup_insert_eq|]. assert (pt1 = pt) as -> by congruence. by apply (is_tab_mono pt).
    + exists r', pt1. by rw lookup_insert_ne; [congruence|].
Qed.
Lemma excl_trans W own W1 own1 W2 own2 : excl_step W own W1 own1 → excl_step W1 own1 W2 own2 → excl_step W own W2 own2.
Proof.
  intros [N1 K1] [N2 K2]. split; [|by auto]. intros q [Hq|?]%N2; [|by right]. apply N1 in Hq as [?|Ht]; [by left|right; by apply K2].
Qed.

(** ** Sharing a page with another page table *)

Lemma share_ref own p q n : own !! p = Some (Shared n) → share (<[p := Shared (n + 1)]> own) q = share own q + (if decide (p = q) then 1 else 0).
Proof. intros Hp. rw /share. case_decide as E; [subst q; by rw lookup_insert_eq Hp|]. rw lookup_insert_ne //. lia. Qed.

Lemma pt_inv_ext ext ext' root own held pt : (∀ p, ext p = ext' p) → pt_inv hs he ext root own held pt → pt_inv hs he ext' root own held pt.
Proof. intros E [Hw Hm Hc Hwr Hus]. split; try done. intros p Hp. by rw -E Hc. Qed.

(** One more reference to a page that no entry of the table can write. *)
Lemma pt_inv_ref ext root own held pt p n :
  pt_inv hs he ext root own held pt → own !! p = Some (Shared n) → (∀ a w, lvs pt !! a = Some w → Z.testbit w 2 = true → pte_addr w ≠ p) →
  pt_inv hs he (ext_add p ext) root (<[p := Shared (n + 1)]> own) held pt.
Proof.
  intros [Hw Hm Hc Hwr Hus] Hp Hno.
  pose proof (λ q, share_ref own p q n Hp) as Hs.
  split; [done|..|done].
  - intros l base t Ht. destruct (Hm _ _ _ Ht) as [Ho Hb]. split; [|done]. by rw lookup_insert_ne; [congruence|].
  - intros q Hq. rw Hs Hc // /ext_add. lia.
  - intros a w Ha H2 Hpa. rw Hs (Hwr _ _ Ha H2 Hpa). rw decide_False; [|lia]. intros E. by apply (Hno a w).
Qed.

(** One more reference to it from nowhere. *)
Lemma world_ref W leak own held p n :
  world_ok W leak own held → own !! p = Some (Shared n) → (∀ r a, ¬ writable W r a p) → hpage p →
  world_ok W (ext_add p leak) (<[p := Shared (n + 1)]> own) held.
Proof.
  intros [Hl Hpt Hd Hc] Hp Hnw Hpp. split; [intros q; rw /ext_add; specialize (Hl q); case_decide; lia| |done|].
  - intros r pt Hr. apply (pt_inv_ext (ext_add p (ext_of W leak r))); [intros q; rw /ext_add /ext_of; lia|].
    apply pt_inv_ref; [by apply Hpt|done|]. intros a w Ha H2 E. apply (Hnw r a). by exists pt, w.
  - intros q Hq. rw share_ref // Hc // /ext_add. lia.
Qed.

Definition child_word (w : Z) : Z := leaf_word (pte_addr w) (pte_flags (share_word w)).
Definition shared_data own held own' held' : Prop :=
  ∀ p n, own !! p = Some (Shared n) → held' !! p = held !! p ∧ ∃ m, own' !! p = Some (Shared m).

Lemma shared_data_refl own held : shared_data own held own held.
Proof. intros p n Hp. split; [done|by exists n]. Qed.
Lemma shared_data_trans own held own1 held1 own2 held2 :
  shared_data own held own1 held1 → shared_data own1 held1 own2 held2 → shared_data own held own2 held2.
Proof.
  intros H1 H2 p n Hp. destruct (H1 p n Hp) as [E1 [m Hm]]. destruct (H2 p m Hm) as [E2 ?]. split; [congruence|done].
Qed.

(** The page with one reference too many is mapped in [r1]. *)
Lemma world_map W leak own held r1 pt1 a p perm own2 held2 pt1' t b :
  world_ok W (ext_add p leak) own held → (∀ q, 0 ≤ leak q) → W !! r1 = Some pt1 → lvs pt1 !! a = None → 0 ≤ p < 2 ^ 64 → p mod PAGE_SIZE = 0 → 0 ≤ perm < 1024 →
  grows hs he (ext_add p (ext_of W leak r1)) own held pt1 own2 held2 pt1' → lvs pt1' = lvs pt1 → is_tab pt1' t →
  pt_inv hs he (ext_of W leak r1) r1 own2 (<[t := b]> held2) (set_lvs (<[a := leaf_word p perm]> (lvs pt1)) pt1') →
  world_ok (<[r1 := set_lvs (<[a := leaf_word p perm]> (lvs pt1)) pt1']> W) leak own2 (<[t := b]> held2) ∧ shared_data own held own2 (<[t := b]> held2).
Proof.
  intros Hw Hl Hr Hna Hpb Hpal Hperm [[He Hf _ _] _ Ho Hd] El Ht Hi.
  assert (own2 !! t = Some Exclusive) as Hot.
  { apply is_tab_spec in Ht as [[l base] Hk]. by destruct (pi_mem _ _ _ _ _ _ _ Hi l base t Hk). }
  split.
  - apply (world_update W (ext_add p leak) leak own held r1 pt1); [done..| | |].
    + intros q Hq Hnt. destruct (He q Hq Hnt) as [Ho2 Hh2]. split; [done|]. rw lookup_insert_ne //. intros <-. by apply Hnt, Hf.
    + intros t' Ht' Hot'. by apply Hf.
    + intros r' a' q Hne Hwa. rw -El refs_insert; [by rw El|]. rw leaf_word_addr // /ext_add /refs El. case_decide; lia.
  - intros q m Hq. pose proof (lookup_weaken _ own2 _ _ Hq Ho) as H2.
    split; [|by exists m]. rw lookup_insert_ne; [congruence|]. by apply (Hd q m).
Qed.
End world.
