(* ===== verification/VmFork.v ===== *)
(** * Sharing an address space

    [clone_pages_from] on all page tables: the pages of a range are shared between two
    page tables, and no entry of either can write to them. *)

From S2P Require Import Prelude KError Pod SysTypes Addr PageAlloc Pages Pte PteSpec PageTable PtSpec PtMap PtIter PtUnmap PtCow PtFixed VmWorld.

Section fork.
Context (hs he : Z).
Implicit Types (s : Pages) (own : gmap Z Owner) (held : Contents) (pt : PT) (W : World) (leak : Z → Z).
Abbreviation vm_ok := (vm_ok hs he).
Abbreviation hpage := (hpage hs he).
Abbreviation world_ok := (world_ok hs he).

Lemma ext_of_nonneg W leak own held r p : world_ok W leak own held → 0 ≤ ext_of W leak r p.
Proof. intros Hw. rw /ext_of. pose proof (total_nonneg (delete r W) p). pose proof (wo_leak _ _ _ _ _ _ Hw p). lia. Qed.

Lemma vm_room own held s p : vm_ok own held s → hpage p → 0 < p ∧ p + PAGE_SIZE < 2 ^ 64.
Proof.
  intros Hv [Hp Hal]. destruct (po_frames _ _ _ (vo_pages _ _ _ _ _ Hv)) as [l Hl]. pose proof (hi_frames _ _ _ _ Hl) as Hf.
  pose proof (fi_range _ _ _ Hf) as Hr. pose proof (fi_aligned _ _ _ Hf) as [_ He]. rw (vo_start _ _ _ _ _ Hv) (vo_end _ _ _ _ _ Hv) in Hr.
  rw (vo_end _ _ _ _ _ Hv) in He. pose proof (page_next p he Hal He ltac:(lia)). lia.
Qed.

(** A user page is shared as often as it is mapped or leaked. *)
Lemma user_shared W leak own held r pt a w :
  world_ok W leak own held → W !! r = Some pt → lvs pt !! a = Some w → Z.testbit w 4 = true →
  hpage (pte_addr w) ∧ own !! pte_addr w = Some (Shared (total W (pte_addr w) + leak (pte_addr w))).
Proof.
  intros Hw Hr Ha H4. pose proof (pi_user _ _ _ _ _ _ _ (wo_pt _ _ _ _ _ _ Hw _ _ Hr) _ _ Ha H4) as Hp. split; [done|].
  pose proof (wo_count _ _ _ _ _ _ Hw _ Hp) as Hc. pose proof (total_refs W r pt (pte_addr w) Hr). pose proof (pt_refs_pos _ _ _ Ha).
  pose proof (wo_leak _ _ _ _ _ _ Hw (pte_addr w)). rw /share in Hc. destruct (own !! pte_addr w) as [[n|]|]; [by rw Hc|lia..].
Qed.

(** The state in which [a] is shared. *)
Definition shared_at W r2 pt2 a w : World := <[r2 := set_lvs (<[a := share_word w]> (lvs pt2)) pt2]> W.

Lemma share_not_writable W leak own held r2 pt2 a w :
  world_ok (shared_at W r2 pt2 a w) leak own held → ∀ r a', ¬ writable hs he (shared_at W r2 pt2 a w) r a' (pte_addr w).
Proof.
  intros Hw r a' Hwa. destruct (mapped_once hs he _ _ _ _ r a' _ r2 a (set_lvs (<[a := share_word w]> (lvs pt2)) pt2) (share_word w) Hw Hwa) as [-> ->].
  - apply lookup_insert_eq.
  - apply lookup_insert_eq.
  - apply share_word_addr.
  - destruct Hwa as (pt & w' & Hr & Ha & H2 & _). rw /shared_at lookup_insert_eq in Hr. injection Hr as <-. rw /= lookup_insert_eq in Ha.
    injection Ha as <-. by rw share_word_bit // andb_false_r in H2.
Qed.

Lemma tab_of_leaves W r m pt q : tab_of (<[r := pt]> W) q → tab_of (<[r := set_lvs m pt]> W) q.
Proof.
  intros (r' & pt' & [[<- <-]|[Hne Hr]]%lookup_insert_Some & Hq).
  - exists r, (set_lvs m pt). split; [apply lookup_insert_eq|done].
  - exists r', pt'. by rw lookup_insert_ne.
Qed.

Lemma clone_leaf_wp W leak own held s r1 r2 pt1 pt2 a w t :
  vm_ok own held s → world_ok W leak own held → r1 ≠ r2 → W !! r1 = Some pt1 → W !! r2 = Some pt2 →
  lvs pt2 !! a = Some w → tabs pt2 !! (0%nat, tb 0 a) = Some t → (Z.testbit w 4 = true → Z.testbit w 1 || Z.testbit w 3 = true) →
  a + PAGE_SIZE ≤ VA_MAX → lvs pt1 !! a = None → (Z.testbit w 4 = true → total W (pte_addr w) + leak (pte_addr w) + 1 < U32MAX) →
  wp (clone_leaf r1 FU (0%nat, a, entry t (level_idx a 0))) (λ r s', match r with
    | Ok _ => Z.testbit w 4 = true ∧ ∃ own' held' pt1', vm_ok own' held' s' ∧
        world_ok (<[r1 := set_lvs (<[a := child_word w]> (lvs pt1)) pt1']> (shared_at W r2 pt2 a w)) leak own' held' ∧
        tabs pt1 ⊆ tabs pt1' ∧ shared_data own held own' held' ∧
        excl_step W own (<[r1 := set_lvs (<[a := child_word w]> (lvs pt1)) pt1']> (shared_at W r2 pt2 a w)) own'
    | Err e => (e = InaccessiblePage a ∧ s' = s ∧ Z.testbit w 4 = false) ∨
        e = NoFreePage ∧ ∃ own' held' pt1', vm_ok own' held' s' ∧ world_ok (<[r1 := pt1']> (shared_at W r2 pt2 a w)) (ext_add (pte_addr w) leak) own' held' ∧
          tabs pt1 ⊆ tabs pt1' ∧ lvs pt1' = lvs pt1 ∧ shared_data own held own' held' ∧
          excl_step W own (<[r1 := pt1']> (shared_at W r2 pt2 a w)) own'
    end) s.
Proof.
  intros Hv Hw Hne Hr1 Hr2 Ha Ht Hrx Hmax Hna Hn. pose proof (wo_pt _ _ _ _ _ _ Hw _ _ Hr2) as Hi2.
  destruct (leaf_bytes hs he _ _ own held s pt2 a w t Hv Hi2 Ha Ht) as (Ha0 & Haal & b & Hb & Hlen & Ew & Hlf).
  rw /clone_leaf. wp_step. apply (read_pte_wp hs he own held s t (level_idx a 0) b); [done..|]. rw Ew Hlf. cbn [negb].
  rw (contains_bit _ 4) // flags_testbit //. destruct (Z.testbit w 4) eqn:E4; cbn [negb]; [|wp_step; by left]. specialize (Hrx eq_refl). specialize (Hn eq_refl).
  destruct (user_shared W leak own held r2 pt2 a w Hw Hr2 Ha E4) as [Hp Hown].
  set (p := pte_addr w) in *. destruct (pte_addr_bound w) as [Hpb Hpal].
  wp_step. eapply wp_mono; [exact (make_copy_on_write_wp hs he (ext_of W leak r2) r2 own held s pt2 a w t Hv Hi2 Ha Ht Hrx)|].
  intros [] s1 (held1 & Hv1 & Hi1 & Hs1 & Hd1). set (pt2' := set_lvs (<[a := share_word w]> (lvs pt2)) pt2) in *.
  pose proof (world_step hs he W leak own held r2 pt2 own held1 pt2' Hw Hr2 Hi1 Hs1) as Hw1. change (<[r2 := pt2']> W) with (shared_at W r2 pt2 a w) in Hw1.
  pose proof (share_not_writable _ _ _ _ _ _ _ _ Hw1) as Hnw. set (W1 := shared_at W r2 pt2 a w) in *.
  assert (W1 !! r1 = Some pt1) as Hr1' by (subst W1; rw /shared_at lookup_insert_ne; [congruence|done]).
  assert (lvs pt2' !! a = Some (share_word w)) as Ha' by apply lookup_insert_eq.
  destruct (leaf_bytes hs he _ _ own held1 s1 pt2' a (share_word w) t Hv1 Hi1 Ha' Ht) as (_ & _ & b1 & Hb1 & Hlen1 & Ew1 & _).
  wp_step. apply (read_pte_wp hs he own held1 s1 t (level_idx a 0) b1); [done..|]. rw Ew1. rw share_word_addr. fold p.
  wp_step. eapply wp_mono; [exact (vm_increment_ref hs he own held1 s1 p _ Hv1 Hown Hn)|]. intros cnt s2 Hv2.
  pose proof (world_ref hs he W1 leak own held1 p _ Hw1 Hown Hnw Hp) as Hw2. set (own1 := <[p := Shared _]> own) in *.
  assert (shared_data own held own1 held1) as Hsd.
  { intros q m Hq. split; [by apply (Hd1 q m)|]. subst own1. destruct (decide (p = q)) as [<-|]; [rw lookup_insert_eq|rw lookup_insert_ne //]; eauto. }
  assert (excl_step W own W1 own1) as Hex1.
  { apply (excl_trans W own W1 own); [exact (excl_update hs he W own held r2 pt2 own held1 pt2' _ Hr2 Hs1)|]. apply excl_same. intros q.
    subst own1. rw lookup_insert_Some. by intros [[_ [=]]|[_ ?]]. }
  assert (∀ q, ext_of W1 (ext_add p leak) r1 q = ext_add p (ext_of W1 leak r1) q) as Eext by (intros q; rw /ext_add /ext_of; lia).
  pose proof (pt_inv_ext hs he _ _ r1 own1 held1 pt1 Eext (wo_pt _ _ _ _ _ _ Hw2 _ _ Hr1')) as Hi3.
  wp_step. eapply wp_mono; [apply (map_level_fixed_wp hs he (ext_of W1 leak r1) r1 own1 held1 s2 pt1 a p (pte_flags (share_word w)) Hv2 Hi3 Ha0 Hmax Haal Hna)|].
  - pose proof (vm_room own held s p Hv Hp). lia.
  - done.
  - apply flags_range.
  - rw /PtEntryFlags.RWX !intersects_lor !intersects_bit // !flags_testbit // !share_word_bit //. move: Hrx. by destruct (Z.testbit w 1), (Z.testbit w 2), (Z.testbit w 3).
  - rw flags_testbit // share_word_bit // andb_false_r //.
  - done.
  - intros r s3 (own2 & held2 & pt1' & Hg & El & Hr). destruct r as [x|e].
    + destruct Hr as (t' & b' & Ht' & Hv3 & Hi4). wp_step. split; [done|].
      destruct (world_map hs he W1 leak own1 held1 r1 pt1 a p _ own2 held2 pt1' t' b' Hw2 (wo_leak _ _ _ _ _ _ Hw1) Hr1' Hna Hpb Hpal (flags_range _) Hg El Ht' Hi4) as [Hw3 Hd3].
      exists own2, (<[t' := b']> held2), pt1'. split; [done|]. split; [done|]. split; [apply Hg|].
      split; [exact (shared_data_trans _ _ _ _ _ _ Hsd Hd3)|]. apply (excl_trans W own W1 own1); [done|].
      destruct (excl_update hs he W1 own1 held1 r1 pt1 own2 held2 pt1' _ Hr1' (gr_step _ _ _ _ _ _ _ _ _ Hg)) as [N1 K1]. split.
      * intros q [?|Hq]%N1; [by left|right]. by apply tab_of_leaves.
      * intros q Hq%K1. by apply tab_of_leaves.
    + destruct Hr as (-> & Hv3 & Hi4). right. split; [done|]. exists own2, held2, pt1'. split; [done|].
      destruct Hg as [Hs3 Hsub Ho3 Hd3]. split; [|split; [done|split; [done|split]]].
      * apply (world_step hs he W1 (ext_add p leak) own1 held1 r1 pt1); [done..| |].
        -- exact (pt_inv_ext hs he _ _ r1 own2 held2 pt1' (λ q, eq_sym (Eext q)) Hi4).
        -- destruct Hs3 as [H1 H2 H3 H4 H5 H6]. by split; [done|done|intros q Hq; rw Eext; apply H3|intros q Hq; rw Eext; apply H4|done|done].
      * apply (shared_data_trans _ _ _ _ _ _ Hsd). intros q m Hq. split; [by apply (Hd3 q m)|]. exists m. by apply (lookup_weaken _ own2 _ _ Hq).
      * apply (excl_trans W own W1 own1); [done|]. exact (excl_update hs he W1 own1 held1 r1 pt1 own2 held2 pt1' _ Hr1' Hs3).
Qed.

(** ** The loop *)

Lemma insert_two W r1 r2 pt1 pt2 pt1' pt2' : r1 ≠ r2 → <[r1 := pt1']> (<[r2 := pt2']> (<[r1 := pt1]> (<[r2 := pt2]> W))) = <[r1 := pt1']> (<[r2 := pt2']> W).
Proof. intros Hne. apply map_eq. intros r. rw !lookup_insert. repeat case_decide; congruence. Qed.

Lemma child_word_addr w : pte_addr (child_word w) = pte_addr w.
Proof. destruct (pte_addr_bound w) as [Hb Ha]. exact (leaf_word_addr _ _ Hb Ha (flags_range _)). Qed.

Lemma refs_set_insert pt' pt a w p : lvs pt !! a = None → refs (set_lvs (<[a := w]> (lvs pt)) pt') p ≤ refs pt p + 1.
Proof.
  intros Ha. assert (refs (set_lvs (<[a := w]> (lvs pt)) pt') p = refs (set_lvs (<[a := w]> (lvs pt)) pt) p) as -> by done.
  rw refs_insert //. case_decide; lia.
Qed.
Lemma refs_share pt a w p : lvs pt !! a = Some w → refs (set_lvs (<[a := share_word w]> (lvs pt)) pt) p = refs pt p.
Proof. intros Ha. rw (refs_replace pt a w (share_word w)) // share_word_addr. lia. Qed.

Lemma clone_total W r1 r2 pt1 pt2 pt1' a w w' p :
  r1 ≠ r2 → W !! r1 = Some pt1 → W !! r2 = Some pt2 → lvs pt2 !! a = Some w → lvs pt1 !! a = None →
  total (<[r1 := set_lvs (<[a := w']> (lvs pt1)) pt1']> (shared_at W r2 pt2 a w)) p ≤ total W p + 1.
Proof.
  intros Hne Hr1 Hr2 Ha Hna. assert (shared_at W r2 pt2 a w !! r1 = Some pt1) as Hr1' by (rw /shared_at lookup_insert_ne; [congruence|done]).
  pose proof (total_delete _ _ _ p Hr1'). rw (total_update _ _ pt1 _ _ Hr1'). pose proof (refs_set_insert pt1' pt1 a w' p Hna).
  assert (total (shared_at W r2 pt2 a w) p = total W p); [|lia].
  rw /shared_at (total_update _ _ pt2 _ _ Hr2) refs_share // (total_delete W r2 pt2 p Hr2). lia.
Qed.

(** The entries of a range replaced by a function of those of another page table. *)
Definition over (a c : Z) (f : Z → Z) (m m' : gmap Z Z) (y : Z) : option Z := if decide (a ≤ y < c) then f <$> m !! y else m' !! y.

Record cloned (W : World) leak (r1 r2 : Z) pt1 pt2 own held (a z z' : Z) leak' own' held' pt1' pt2' : Prop := {
  cl_world : world_ok (<[r1 := pt1']> (<[r2 := pt2']> W)) leak' own' held';
  cl_leak : ∀ p, leak p ≤ leak' p;
  cl_tabs : tabs pt1 ⊆ tabs pt1' ∧ tabs pt2' = tabs pt2;
  cl_child : ∀ y, lvs pt1' !! y = over a z child_word (lvs pt2) (lvs pt1) y;
  cl_parent : ∀ y, lvs pt2' !! y = over a z' share_word (lvs pt2) (lvs pt2) y;
  cl_data : shared_data own held own' held';
  cl_excl : excl_step W own (<[r1 := pt1']> (<[r2 := pt2']> W)) own';
}.

Lemma over_step m m' f a z l y w :
  a ≤ z < l → l ≤ z + PAGE_SIZE → z mod PAGE_SIZE = 0 → m !! z = Some w →
  (∀ y w, m !! y = Some w → y mod PAGE_SIZE = 0) → (∀ y w, m' !! y = Some w → y mod PAGE_SIZE = 0) →
  over a l f m m' y = if decide (z = y) then Some (f w) else over a z f m m' y.
Proof.
  intros Ha Hl Hz Hm Hal Hal'. rw /over. destruct (decide (z = y)) as [<-|E]; [rw decide_True; [lia|]; by rw Hm|].
  destruct (decide (a ≤ y < z)) as [|Hn]; [rw decide_True //; lia|].
  destruct (decide (a ≤ y < l)) as [Hy|]; [|done].
  assert (y mod PAGE_SIZE = 0 → False) as Hno by (intros Hyal; pose proof (page_below y z Hyal Hz ltac:(lia) ltac:(congruence)); lia).
  destruct (m !! y) as [w1|] eqn:E1; [destruct (Hno (Hal _ _ E1))|]. destruct (m' !! y) as [w2|] eqn:E2; [destruct (Hno (Hal' _ _ E2))|done].
Qed.

Lemma over_cut m m' f a z z' y : (∀ x, z ≤ x < z' → m !! x = None ∧ m' !! x = None) → a ≤ z ≤ z' → over a z' f m m' y = over a z f m m' y.
Proof.
  intros Hn Hz. rw /over. repeat case_decide; try done; try lia. destruct (Hn y ltac:(lia)) as [-> ->]. done.
Qed.

Lemma cloned_skip W leak r1 r2 pt1 pt2 own held a z z' leak' own' held' pt1' pt2' :
  cloned W leak r1 r2 pt1 pt2 own held a z z leak' own' held' pt1' pt2' → a ≤ z ≤ z' →
  (∀ x, z ≤ x < z' → lvs pt2 !! x = None ∧ lvs pt1 !! x = None) →
  cloned W leak r1 r2 pt1 pt2 own held a z' z' leak' own' held' pt1' pt2'.
Proof.
  intros [Hw Hl Ht H1 H2 Hd Hex] Hz Hn. split; try done; intros y; [rw H1|rw H2]; symmetry; apply over_cut; try done.
  intros x Hx. by destruct (Hn x Hx).
Qed.

Lemma cloned_refl W leak r1 r2 pt1 pt2 own held a :
  world_ok W leak own held → r1 ≠ r2 → W !! r1 = Some pt1 → W !! r2 = Some pt2 → cloned W leak r1 r2 pt1 pt2 own held a a a leak own held pt1 pt2.
Proof.
  intros Hw Hne Hr1 Hr2. split.
  - rw (insert_id W r2) // (insert_id W r1) //.
  - intros p. lia.
  - done.
  - intros y. rw /over decide_False //. lia.
  - intros y. rw /over decide_False //. lia.
  - apply shared_data_refl.
  - rw (insert_id W r2) // (insert_id W r1) //. apply excl_refl.
Qed.

Section step.
Context (W : World) (leak : Z → Z) (r1 r2 : Z) (pt1 pt2 : PT) (own : gmap Z Owner) (held : Contents) (a z l w : Z).
Context (own1 : gmap Z Owner) (held1 : Contents) (pt1' pt2' : PT).
Context (Hne : r1 ≠ r2) (Hal1 : ∀ y w, lvs pt1 !! y = Some w → y mod PAGE_SIZE = 0) (Hal2 : ∀ y w, lvs pt2 !! y = Some w → y mod PAGE_SIZE = 0).
Context (Hz : a ≤ z < l) (Hlz : l ≤ z + PAGE_SIZE) (Hzal : z mod PAGE_SIZE = 0) (Hzw : lvs pt2 !! z = Some w).
Context (Hc : cloned W leak r1 r2 pt1 pt2 own held a z z leak own1 held1 pt1' pt2').

Lemma parent_step y : (<[z := share_word w]> (lvs pt2') : gmap Z Z) !! y = over a l share_word (lvs pt2) (lvs pt2) y.
Proof. rw (over_step _ _ _ _ z l y w) // lookup_insert (cl_parent _ _ _ _ _ _ _ _ _ _ _ _ _ _ _ _ Hc) //. Qed.

Lemma cloned_step own2 held2 pt1'' :
  world_ok (<[r1 := set_lvs (<[z := child_word w]> (lvs pt1')) pt1'']> (shared_at (<[r1 := pt1']> (<[r2 := pt2']> W)) r2 pt2' z w)) leak own2 held2 →
  tabs pt1' ⊆ tabs pt1'' → shared_data own1 held1 own2 held2 →
  excl_step (<[r1 := pt1']> (<[r2 := pt2']> W)) own1 (<[r1 := set_lvs (<[z := child_word w]> (lvs pt1')) pt1'']> (shared_at (<[r1 := pt1']> (<[r2 := pt2']> W)) r2 pt2' z w)) own2 →
  cloned W leak r1 r2 pt1 pt2 own held a l l leak own2 held2
    (set_lvs (<[z := child_word w]> (lvs pt1')) pt1'') (set_lvs (<[z := share_word w]> (lvs pt2')) pt2').
Proof.
  rw /shared_at insert_two //. intros Hw Hsub Hsd Hex. pose proof Hc as [_ Hl [Ht1 Ht2] H1 H2 Hd Hx]. split; try done.
  - split; [exact (transitivity Ht1 Hsub)|done].
  - intros y. simpl. rw (over_step _ _ _ _ z l y w) // lookup_insert H1 //.
  - apply parent_step.
  - exact (shared_data_trans _ _ _ _ _ _ Hd Hsd).
  - exact (excl_trans _ _ _ _ _ _ Hx Hex).
Qed.

Lemma cloned_leak p own2 held2 pt1'' :
  world_ok (<[r1 := pt1'']> (shared_at (<[r1 := pt1']> (<[r2 := pt2']> W)) r2 pt2' z w)) (ext_add p leak) own2 held2 →
  tabs pt1' ⊆ tabs pt1'' → lvs pt1'' = lvs pt1' → shared_data own1 held1 own2 held2 →
  excl_step (<[r1 := pt1']> (<[r2 := pt2']> W)) own1 (<[r1 := pt1'']> (shared_at (<[r1 := pt1']> (<[r2 := pt2']> W)) r2 pt2' z w)) own2 →
  cloned W leak r1 r2 pt1 pt2 own held a z l (ext_add p leak) own2 held2 pt1'' (set_lvs (<[z := share_word w]> (lvs pt2')) pt2').
Proof.
  rw /shared_at insert_two //. intros Hw Hsub El Hsd Hex. pose proof Hc as [_ Hl [Ht1 Ht2] H1 H2 Hd Hx]. split; try done.
  - intros q. rw /ext_add. case_decide; lia.
  - split; [exact (transitivity Ht1 Hsub)|done].
  - intros y. by rw El H1.
  - apply parent_step.
  - exact (shared_data_trans _ _ _ _ _ _ Hd Hsd).
  - exact (excl_trans _ _ _ _ _ _ Hx Hex).
Qed.
End step.

(** [clone_pages_from] shares the pages of the range. *)
Lemma clone_pages_from_wp W leak own held s r1 r2 pt1 pt2 a c :
  vm_ok own held s → world_ok W leak own held → r1 ≠ r2 → W !! r1 = Some pt1 → W !! r2 = Some pt2 →
  0 ≤ a < c → c ≤ VA_MAX → a mod PAGE_SIZE = 0 →
  (∀ y w, a ≤ y < c → lvs pt2 !! y = Some w → Z.testbit w 4 = true → Z.testbit w 1 || Z.testbit w 3 = true) →
  (∀ y, a ≤ y < c → lvs pt1 !! y = None) →
  (∀ y w, a ≤ y < c → lvs pt2 !! y = Some w → Z.testbit w 4 = true → total W (pte_addr w) + leak (pte_addr w) + 2 ^ 26 < U32MAX) →
  wp (clone_pages_from r1 r2 (Range a c) FU) (λ r s', ∃ z z' leak' own' held' pt1' pt2', vm_ok own' held' s' ∧
    cloned W leak r1 r2 pt1 pt2 own held a z z' leak' own' held' pt1' pt2' ∧ a ≤ z ≤ z' ∧ z' ≤ c ∧
    match r with
    | Ok _ => z = c ∧ (∀ p, leak' p = leak p) ∧ ∀ y w, a ≤ y < c → lvs pt2 !! y = Some w → Z.testbit w 4 = true
    | Err e => z < c ∧ (e = NoFreePage ∨ e = InaccessiblePage z ∧ z' = z ∧ (∀ p, leak' p = leak p) ∧ ∃ w, lvs pt2 !! z = Some w ∧ Z.testbit w 4 = false)
    end) s.
Proof.
  intros Hv Hw Hne Hr1 Hr2 Ha Hc Hal Hrx Hfree Hn. change VA_MAX with 274877906944 in Hc. rw /clone_pages_from.
  assert (∀ y w, lvs pt1 !! y = Some w → y mod PAGE_SIZE = 0) as Hal1 by (intros y w Hy; by destruct (pw_lvs _ _ (pi_wf _ _ _ _ _ _ _ (wo_pt _ _ _ _ _ _ Hw _ _ Hr1)) _ _ Hy) as (_ & ? & _)).
  assert (∀ y w, lvs pt2 !! y = Some w → y mod PAGE_SIZE = 0) as Hal2 by (intros y w Hy; by destruct (pw_lvs _ _ (pi_wf _ _ _ _ _ _ _ (wo_pt _ _ _ _ _ _ Hw _ _ Hr2)) _ _ Hy) as (_ & ? & _)).
  set (Q := λ r s', ∃ z z' leak' own' held' pt1' pt2', _).
  set (J := λ y s', ∃ own' held' pt1' pt2', vm_ok own' held' s' ∧
    cloned W leak r1 r2 pt1 pt2 own held a (Z.min y c) (Z.min y c) leak own' held' pt1' pt2' ∧
    (∀ x w, a ≤ x < Z.min y c → lvs pt2 !! x = Some w → Z.testbit w 4 = true) ∧
    ∀ p, total (<[r1 := pt1']> (<[r2 := pt2']> W)) p * PAGE_SIZE ≤ total W p * PAGE_SIZE + (y - a)).
  apply (for_leaves_wp hs he r2 (tabs pt2) (lvs pt2) a (c - 1) ltac:(lia) ltac:(change VA_SIZE with 549755813888; lia) Hal J).
  - intros y s1 (own1 & held1 & pt1' & pt2' & Hv1 & [Hw1 _ [_ Et] _ Hp1 _ _] & _). exists own1, held1, pt2'.
    assert ((<[r1 := pt1']> (<[r2 := pt2']> W) : World) !! r2 = Some pt2') as Hr2' by (rw lookup_insert_ne // lookup_insert_eq //).
    pose proof (wo_pt _ _ _ _ _ _ Hw1 _ _ Hr2') as Hi. split_and!; [done|apply Hi..|done|]. intros x Hx. rw Hp1 /over decide_False //. lia.
  - intros y y' s1 (own1 & held1 & pt1' & pt2' & Hv1 & Hc1 & HU & Ht1) Hy Hnone. exists own1, held1, pt1', pt2'. split; [done|]. split_and!.
    + apply (cloned_skip _ _ _ _ _ _ _ _ _ (Z.min y c)); [done|lia|]. intros x Hx. split; [apply Hnone; lia|apply Hfree; lia].
    + intros x w Hx Hxw. destruct (decide (x < Z.min y c)); [apply (HU x w); [lia|done]|]. rw Hnone in Hxw; [lia..|done].
    + intros p. specialize (Ht1 p). lia.
  - intros y s1 w t (own1 & held1 & pt1' & pt2' & Hv1 & Hc1 & HU & Ht1) Hy Hyal Hl Ht. rw Z.min_l in Hc1; [lia|]. rw Z.min_l in HU; [lia|].
    pose proof Hc1 as [Hw1 _ [_ Et] HL1 HL2 _ _]. pose proof (Hfree y ltac:(lia)) as Hfy.
    set (W1 := <[r1 := pt1']> (<[r2 := pt2']> W)) in *.
    assert (W1 !! r1 = Some pt1') as Hr1' by apply lookup_insert_eq.
    assert (W1 !! r2 = Some pt2') as Hr2' by (subst W1; rw lookup_insert_ne // lookup_insert_eq //).
    assert (lvs pt2' !! y = Some w) as Hl' by (rw HL2 /over decide_False; [lia|done]).
    assert (lvs pt1' !! y = None) as Hn1 by (rw HL1 /over decide_False; [lia|done]).
    pose proof (Ht1 (pte_addr w)) as Htw. pose proof page_pos. change PAGE_SIZE with 4096 in Htw.
    eapply wp_mono; [apply (clone_leaf_wp W1 leak own1 held1 s1 r1 r2 pt1' pt2' y w t Hv1 Hw1 Hne Hr1' Hr2' Hl')|].
    + by rw Et.
    + intros H4. apply (Hrx y w); [lia|done..].
    + pose proof (page_next y VA_MAX Hyal eq_refl) as Hpn. change VA_MAX with 274877906944 in Hpn |- *. lia.
    + done.
    + intros H4. pose proof (Hn y w ltac:(lia) Hl H4). lia.
    + intros [u|e] s2 Hr.
      * destruct Hr as (H4 & own2 & held2 & pt1'' & Hv2 & Hw2 & Hsub & Hsd & Hex).
        eexists own2, held2, _, _. split; [done|]. split; [|split].
        -- apply (cloned_step _ _ _ _ _ _ _ _ a y (Z.min (y + PAGE_SIZE) c) _ own1 held1 pt1' pt2' Hne Hal1 Hal2 ltac:(lia) ltac:(lia) Hyal Hl Hc1 own2 held2 pt1''); done.
        -- intros x w' Hx Hxw. destruct (decide (x < y)); [apply (HU x w'); [lia|done]|].
           destruct (decide (x = y)) as [->|Hxy]; [congruence|]. pose proof (page_below x y (Hal2 _ _ Hxw) Hyal ltac:(lia) Hxy). lia.
        -- intros p. pose proof (clone_total W1 r1 r2 pt1' pt2' pt1'' y w (child_word w) p Hne Hr1' Hr2' Hl' Hn1) as Hct.
           subst W1. rw /shared_at insert_two // in Hct. specialize (Ht1 p). change PAGE_SIZE with 4096 in Ht1 |- *. lia.
      * destruct Hr as [(-> & -> & H4)|(-> & own2 & held2 & pt1'' & Hv2 & Hw2 & Hsub & El & Hsd & Hex)].
        -- exists y, y, leak, own1, held1, pt1', pt2'. split; [done|]. split; [done|]. split; [lia|]. split; [lia|]. split; [lia|]. right. by eauto 6.
        -- eexists y, (Z.min (y + PAGE_SIZE) c), _, own2, held2, pt1'', _. split; [done|]. split; [|split; [lia|split; [lia|split; [lia|by left]]]].
           apply (cloned_leak _ _ _ _ _ _ _ _ a y (Z.min (y + PAGE_SIZE) c) _ own1 held1 pt1' pt2' Hne Hal2 ltac:(lia) ltac:(lia) Hyal Hl Hc1 (pte_addr w) own2 held2 pt1''); done.
  - intros y s1 (own1 & held1 & pt1' & pt2' & Hv1 & Hc1 & HU & _) Hy. rw Z.min_r in Hc1; [lia|]. rw Z.min_r in HU; [lia|].
    exists c, c, leak, own1, held1, pt1', pt2'. split; [done|]. split; [done|]. split; [lia|]. split; [lia|]. by split_and!.
  - by apply range_inclusive_Range.
  - exists own, held, pt1, pt2. split; [done|]. rw Z.min_l; [lia|]. split; [by apply cloned_refl|]. split; [lia|].
    intros p. rw (insert_id W r2) // (insert_id W r1) //. lia.
Qed.
End fork.
