(* ===== verification/PtWalk.v ===== *)
(** * Translation

    The walk of [find_leaf_entry] finds the entry of the page of an address, and the chunks
    that are read and written through it are the bytes of the page. *)

From S2P Require Import Prelude KError Pod SysTypes Addr PageAlloc Pages Pte PteSpec PageTable PtSpec PtMap PtIter PtUnmap PtCow.

(** The page of an address. *)
Definition page_of (va : Z) : Z := va - va mod PAGE_SIZE.

Lemma page_of_aligned va : page_of va mod PAGE_SIZE = 0.
Proof. rw /page_of. pose proof page_pos. change PAGE_SIZE with 4096. Z.div_mod_to_equations. lia. Qed.
Lemma page_of_range va : page_of va ≤ va < page_of va + PAGE_SIZE.
Proof. rw /page_of. change PAGE_SIZE with 4096. Z.div_mod_to_equations. lia. Qed.
Lemma page_of_id va : va mod PAGE_SIZE = 0 → page_of va = va.
Proof. rw /page_of. lia. Qed.
Lemma page_of_idx va : 0 ≤ va → tb 0 (page_of va) = tb 0 va ∧ level_idx (page_of va) 0 = level_idx va 0.
Proof.
  intros Hva. assert (0 ≤ page_of va) as H0 by (rw /page_of; change PAGE_SIZE with 4096; Z.div_mod_to_equations; lia).
  pose proof (tb_idx va 0 Hva ltac:(lia)) as E. change (psz 0) with PAGE_SIZE in E. change (va - va mod PAGE_SIZE) with (page_of va) in E.
  pose proof (level_idx_bound va 0 Hva) as Hi. pose proof (tb_aligned 0 va) as Ha. pose proof (psz_pos 0).
  assert (0 ≤ tb 0 va) as Ht by (rw /tb; pose proof (Z.mod_le va (psz 1) Hva (psz_pos 1)); lia).
  split.
  - pose proof (tb_part 0 (tb 0 va) (level_idx va 0) 0 Ha Hi ltac:(lia)) as Hp. rw Z.add_0_r in Hp. change (psz 0) with PAGE_SIZE in Hp. by rw E in Hp.
  - pose proof (idx_part 0 (tb 0 va) (level_idx va 0) 0 ltac:(lia) Ht Ha Hi ltac:(lia)) as Hp. rw Z.add_0_r in Hp. change (psz 0) with PAGE_SIZE in Hp. by rw E in Hp.
Qed.

Section walk.
Context (hs he : Z) (ext : Z → Z) (root : Z).
Implicit Types (s : Pages) (own : gmap Z Owner) (held : Contents) (pt : PT).
Abbreviation vm_ok := (vm_ok hs he).
Abbreviation pt_inv := (pt_inv hs he ext root).

(** The tables above a leaf. *)
Lemma tb_above l va : tb (S l) (tb l va) = tb (S l) va.
Proof.
  rw /tb (psz_S (S l)). pose proof (psz_pos (S l)). set (k := psz (S l)) in *. pose proof (Z.rem_mul_r va k 512 ltac:(lia) ltac:(lia)) as E1.
  pose proof (Z.rem_mul_r (va - va mod k) k 512 ltac:(lia) ltac:(lia)) as E2. rw (Z.mul_comm 512 k) E1 E2.
  assert (va - va mod k = va / k * k) as E by (pose proof (Z_div_mod_eq_full va k); lia). rw E Z_mod_mult Z.div_mul; lia.
Qed.
Lemma tables_above pt va l' l :
  pt_wf root pt → is_Some (tabs pt !! (l', tb l' va)) → (l' ≤ l)%nat → (l ≤ 2)%nat → is_Some (tabs pt !! (l, tb l va)).
Proof.
  intros Hw H0 Hle. induction Hle as [|l Hle IH]; intros Hl; [done|]. destruct (IH ltac:(lia)) as [t Ht].
  destruct (pw_tabs _ _ Hw _ _ _ Ht) as (_ & _ & _ & Hp). specialize (Hp ltac:(lia)). by rw tb_above in Hp.
Qed.

Lemma find_leaf_wp own held s pt l t va :
  vm_ok own held s → pt_inv own held pt → 0 ≤ va → tabs pt !! (l, tb l va) = Some t →
  wp (find_leaf l t va) (λ r s', s' = s ∧
    match lvs pt !! page_of va with
    | Some w => ∃ t', tabs pt !! (0%nat, tb 0 va) = Some t' ∧ r = Ok (0%nat, entry t' (level_idx va 0))
    | None => r = Err (VirtualPageNotMapped va)
    end) s.
Proof.
  intros Hv Hi Hva. pose proof (level_idx_bound va l Hva) as Hix. revert t Hix. induction l as [|l IH]; intros t Hix Ht;
    destruct (tab_bytes hs he own held s pt _ _ _ Hv (pi_mem _ _ _ _ _ _ _ Hi) Ht) as (b & Hb & Hlen & He);
    destruct (pw_tabs _ _ (pi_wf _ _ _ _ _ _ _ Hi) _ _ _ Ht) as (Hl & _);
    specialize (He _ Hix); rw /entry_ok in He; cbn [find_leaf]; wp_step; apply (read_pte_wp hs he own held s t _ b); [done..| |done|done|].
  - rw tb_idx in He; [done..|]. change (va - va mod psz 0) with (page_of va) in He. destruct (lvs pt !! page_of va) as [w|].
    + destruct He as [_ Hlf]. rw (leaf_valid _ Hlf) Hlf. cbn [negb]. wp_step. split; [done|]. by exists t.
    + rw He. cbn [negb]. by wp_step.
  - rw tb_child in He; [done..|]. destruct (tabs pt !! (l, tb l va)) as [t'|] eqn:Et.
    + destruct He as [Hnl <-]. rw (non_leaf_valid _ Hnl) (non_leaf_not_leaf _ Hnl) Hnl. cbn [negb]. wp_step. apply wp_assert; [done|]. wp_step.
      apply (wp_unwrap _ (pte_addr (pte_in b (level_idx va (S l))))); [by rw /get_page_table Hnl|]. by apply IH; [apply level_idx_bound|].
    + rw He. cbn [negb]. wp_step. split; [done|]. destruct (lvs pt !! page_of va) as [w|] eqn:Ew; [exfalso|done].
      destruct (pw_lvs _ _ (pi_wf _ _ _ _ _ _ _ Hi) _ _ Ew) as (_ & _ & Hs). destruct (page_of_idx va Hva) as [E _]. rw E in Hs.
      destruct (tables_above pt va 0 l (pi_wf _ _ _ _ _ _ _ Hi) Hs ltac:(lia) ltac:(lia)) as [? ?]. congruence.
Qed.

Lemma find_leaf_entry_wp own held s pt va (Q : result KernelError (nat * PtEntry) → Pages → Prop) :
  vm_ok own held s → pt_inv own held pt → 0 ≤ va < VA_SIZE →
  match lvs pt !! page_of va with
  | Some w => ∀ t b, tabs pt !! (0%nat, tb 0 (page_of va)) = Some t → held !! t = Some b → pte_in b (level_idx (page_of va) 0) = w → is_leaf w = true →
      Q (Ok (0%nat, entry t (level_idx (page_of va) 0))) s
  | None => Q (Err (VirtualPageNotMapped va)) s
  end → wp (find_leaf_entry root va) Q s.
Proof.
  intros Hv Hi Hva HQ. assert (tb ROOT va = 0) as E by (rw /tb Z.mod_small //; lia). pose proof (pw_root _ _ (pi_wf _ _ _ _ _ _ _ Hi)) as Hr.
  eapply wp_mono; [apply (find_leaf_wp own held s pt ROOT root va Hv Hi); [lia|by rw E]|].
  intros r s' [-> Hr']. destruct (lvs pt !! page_of va) as [w|] eqn:Ew; [|by rw Hr'].
  destruct Hr' as (t & Ht & ->). destruct (page_of_idx va ltac:(lia)) as [E1 E2]. rw -E1 in Ht. rw -E2.
  destruct (leaf_bytes hs he ext root own held s pt _ w t Hv Hi Ew Ht) as (_ & _ & b & Hb & _ & Hw & Hl). by apply (HQ t b).
Qed.

(** [fetch_chunk] gives the rest of the page. *)
Definition rest_of (w va : Z) : Chunk := {| ck_addr := pte_addr w + va mod PAGE_SIZE; ck_len := PAGE_SIZE - va mod PAGE_SIZE |}.

Lemma fetch_chunk_wp own held s pt va flags (Q : result KernelError Chunk → Pages → Prop) :
  vm_ok own held s → pt_inv own held pt → 0 ≤ va < VA_SIZE →
  match lvs pt !! page_of va with
  | Some w => if contains (pte_flags w) flags then Q (Ok (rest_of w va)) s else Q (Err (InaccessiblePage va)) s
  | None => Q (Err (VirtualPageNotMapped va)) s
  end → wp (fetch_chunk root va flags) Q s.
Proof.
  intros Hv Hi Hva HQ. rw /fetch_chunk. wp_step. apply (find_leaf_entry_wp own held s pt va); [done..|].
  destruct (lvs pt !! page_of va) as [w|]; [|done]. intros t b Ht Hb Hw Hl. wp_step. apply (read_pte_wp hs he own held s t _ b); [done..|].
  rw Hw (leaf_valid _ Hl) Hl. wp_step. apply wp_assert; [done|]. destruct (contains (pte_flags w) flags); cbn [negb]; [|by wp_step].
  wp_step. apply (wp_unwrap _ {| ck_addr := pte_addr w; ck_len := PAGE_SIZE |}); [by rw /get_page_bytes Hl|]. wp_step. rw /chunk_from.
  cbn [ck_len ck_addr]. wp_step. apply wp_assert; [pose proof (page_of_range va); rw /page_of in H; apply Z.leb_le; lia|]. by do 2 wp_step.
Qed.
End walk.
