(* ===== verification/PtEntries.v ===== *)
(** * Validation of address ranges

    [validate], through the iterator [Entries], accepts a range of addresses exactly when all of its pages are mapped with the
    permissions that are asked for; a page to be copied on write counts as one that can be written. *)

From S2P Require Import Prelude KError Pod SysTypes Addr PageAlloc Pages Pte PteSpec PageTable PtSpec PtMap PtIter PtUnmap PtCow PtWalk.

(** The leaf [w] has the permissions [flags]. *)
Definition permits (flags w : Z) : bool :=
  contains (if contains (pte_flags w) FC then insert_flags (pte_flags w) FW else pte_flags w) flags.
(** The pages of [a, c) are mapped with the permissions [flags]. *)
Definition range_permits (pt : PT) (flags a c : Z) : Prop :=
  ∀ va, a ≤ va < c → ∃ w, lvs pt !! page_of va = Some w ∧ permits flags w = true.

Lemma page_of_le a b : a ≤ b → page_of a ≤ page_of b.
Proof. intros H. rw /page_of. change PAGE_SIZE with 4096. Z.div_mod_to_equations. lia. Qed.
Lemma page_of_mid va y : y mod PAGE_SIZE = 0 → y ≤ va < y + PAGE_SIZE → page_of va = y.
Proof. rw /page_of. change PAGE_SIZE with 4096. intros. Z.div_mod_to_equations. lia. Qed.

Lemma range_inclusive_empty a : 0 ≤ a ≤ VA_MAX → range_inclusive (Range a a).1 (Range a a).2 = None.
Proof.
  intros Ha. rw /range_inclusive /va_byte_sub /checked_sub /=. case: Z.leb_spec => ?; [|done]. rw /va_new. change VA_MAX with 274877906944 in *.
  case: Z.gtb_spec => ?; [done|]. simpl. case: Z.gtb_spec => ?; [done|lia].
Qed.

Section entries.
Context (hs he root : Z) (own : gmap Z Owner) (held : Contents) (s : Pages) (pt : PT) (min_va max_va flags : Z).
Context (Hmin : 0 ≤ min_va ≤ max_va) (Hmax : max_va < VA_SIZE).
Context (Hv : vm_ok hs he own held s) (Hw : pt_wf root pt) (Hm : pt_mem own held pt).
Abbreviation stk := (stk (tabs pt) min_va max_va).

(** The addresses of the range below [c] are fine. *)
Definition checked (c : Z) : Prop := ∀ va, min_va ≤ va ≤ max_va → va < c → ∃ w, lvs pt !! page_of va = Some w ∧ permits flags w = true.

(** Reading the entry that a frame has got to. *)
Lemma frame_read l fr rest (Q : Z → Pages → Prop) :
  stk l (fr :: rest) (it_base fr + it_next fr * psz l) → it_next fr ≤ it_last fr →
  (∀ w, entry_ok pt l (it_base fr) (it_next fr) w → Q w s) → wp (read_pte (entry (it_table fr) (it_next fr))) Q s.
Proof.
  intros Hs Hn HQ. inversion Hs as [|? ? ? Hl1 Hl2 Ht1 Hb1 Hbm1 Hn0 Hn1 Hlast Hhi Hm1 Hrest]; subst.
  destruct (tab_bytes hs he own held s pt _ _ _ Hv Hm Ht1) as (b & Hb & _ & Hent). specialize (Hent (it_next fr) ltac:(lia)).
  apply (read_pte_wp hs he own held s (it_table fr) (it_next fr) b); [done..|]. by apply HQ.
Qed.

(** An entry that is not valid is a page of the range that is not mapped. *)
Lemma frame_invalid l fr rest w :
  stk l (fr :: rest) (it_base fr + it_next fr * psz l) → it_next fr ≤ it_last fr →
  entry_ok pt l (it_base fr) (it_next fr) w → is_valid w = false → ¬ checked (max_va + 1).
Proof.
  intros Hs Hn He Hinv Hc. inversion Hs as [|? ? ? Hl1 Hl2 Ht1 Hb1 Hbm1 Hn0 Hn1 Hlast Hhi Hm1 Hrest]; subst. set (l := it_level fr) in *.
  set (e := it_base fr + it_next fr * psz l) in *. pose proof (psz_pos l) as Hpos. assert (e ≤ max_va) as Hemax by (apply Hhi; lia).
  set (va := Z.max e min_va). destruct (Hc va) as (w' & Hw' & _); [lia|lia|].
  assert (e mod psz l = 0) as Heal by by apply part_aligned.
  assert (e ≤ page_of va < e + psz l) as Hpg.
  { pose proof (page_of_range va) as Hr. split; [|lia]. assert (page_of e = e) as Ee; [|rw -{1}Ee; apply page_of_le; lia].
    apply page_of_id. clear -Heal Hl2. destruct l as [|[|[|]]]; [|..|lia].
    - exact Heal.
    - rw psz_1 in Heal. change PAGE_SIZE with 4096. Z.div_mod_to_equations. lia.
    - rw psz_2 in Heal. change PAGE_SIZE with 4096. Z.div_mod_to_equations. lia. }
  pose proof (leaf_below root (tabs pt) 0 eq_refl own held pt l _ _ (it_next fr) (page_of va) w' Hw Hm eq_refl Ht1 ltac:(lia) Hbm1 Hl2 Hw' Hpg) as Hbel. fold e in Hbel.
  rw /entry_ok in He. fold e in He. destruct l as [|l'].
  - rw Hbel in Hw'. rw Hw' in He. destruct He as [-> Hlf]. by rw (leaf_valid _ Hlf) in Hinv.
  - destruct Hbel as [t Ht]. rw Ht in He. destruct He as [Hnl _]. by rw (non_leaf_valid _ Hnl) in Hinv.
Qed.

(** What the iterator gives: an entry that is not valid, a leaf, or a table to be entered. *)
Definition entries_item (m : Z) (p : option (nat * Z * Z) * list ItFrame * bool) : Prop :=
  match p with
  | (None, _, _) => checked (max_va + 1)
  | (Some (lv, e, w), stack, false) => (is_valid w = false ∧ ¬ checked (max_va + 1)) ∨
      (lvs pt !! e = Some w ∧ is_leaf w = true ∧ e ≤ max_va ∧ min_va < e + PAGE_SIZE ∧ e mod PAGE_SIZE = 0 ∧ checked e ∧
        stk 0 stack (e + PAGE_SIZE) ∧ measure stack < m)
  | (Some (lv, e, w), stack, true) => is_non_leaf w = true ∧ checked e ∧ measure stack ≤ m ∧
      ∃ l fr rest, stack = fr :: rest ∧ e = it_base fr + it_next fr * psz (S l) ∧ stk (S l) stack e ∧ it_next fr ≤ it_last fr ∧
        tabs pt !! (l, e) = Some (pte_addr w)
  end.

Lemma entries_step_wp l stack c :
  stk l stack c → checked c →
  wp (entries_step stack) (λ r s', s' = s ∧ match r with
    | inl stack' => ∃ l' c', stk l' stack' c' ∧ checked c' ∧ measure stack' < measure stack
    | inr p => entries_item (measure stack) p
    end) s.
Proof.
  intros Hs Hc. destruct stack as [|fr rest]; cbn [entries_step].
  { wp_step. split; [done|]. inversion Hs; subst. intros va Hva _. apply Hc; lia. }
  pose proof Hs as Hs0. inversion Hs as [|? ? ? Hl1 Hl2 Ht1 Hb1 Hbm1 Hn0 Hn1 Hlast Hhi Hm1 Hrest]; subst. set (l := it_level fr) in *.
  pose proof (psz_pos l) as Hpos. pose proof (psz_S l) as HpS. case: Z.ltb_spec => Hlt.
  - wp_step. split; [done|]. exists (S l), (it_base fr + psz (S l)). split; [done|]. split; [|simpl; pose proof (frame_weight_pos _ _ _ _ _ _ _ Hs0); lia].
    intros va Hva Hlt'. apply Hc; [done|]. destruct (decide (it_next fr < 512)) as [H5|H5]; [|nia]. pose proof (proj2 (Hhi (it_next fr) ltac:(lia))). lia.
  - set (e := it_base fr + it_next fr * psz l) in *. assert (e ≤ max_va) as Hemax by (apply Hhi; lia).
    destruct (stk_advance _ _ _ l fr rest Hs0 Hlt) as [Hadv Em]. pose proof (weight_pos l) as Hwp.
    wp_step. apply (frame_read l fr rest); [done..|]. intros w Hent. rewrite with_idx; [done|lia|exact Hbm1|lia|]. fold e.
    pose proof (frame_invalid l fr rest w Hs0 Hlt Hent) as Hinv. rw /entry_ok in Hent. fold e in Hent.
    destruct (is_valid w) eqn:Hval; cbn [negb orb].
    2: { wp_step. split; [done|]. left. by split; [|apply Hinv]. }
    destruct (is_leaf w) eqn:Hlf.
    + wp_step. split; [done|]. right. destruct l as [|l'] eqn:El.
      2: { destruct (tabs pt !! (l', e)); [destruct Hent as [Hnl%non_leaf_not_leaf _]; congruence|congruence]. }
      change (psz 0) with PAGE_SIZE in *. destruct (lvs pt !! e) as [w'|] eqn:Ee; [|congruence]. destruct Hent as [<- _].
      split_and!; [done..|lia|lia|by apply (part_aligned 0)|done|done|lia].
    + wp_step. split; [done|]. pose proof (not_leaf_non_leaf w Hval Hlf) as Hnl. split; [done|]. split; [done|]. split; [lia|].
      destruct l as [|l'] eqn:El; [destruct (lvs pt !! e); [destruct Hent; congruence|congruence]|].
      exists l', fr, rest. destruct (tabs pt !! (l', e)) as [t|] eqn:Et; [|congruence]. destruct Hent as [_ ->]. split_and!; done.
Qed.

(** The state of the iterator between two items. *)
Definition entries_state (m : Z) (stack : list ItFrame) (flag : bool) : Prop :=
  ∃ l c, stk l stack c ∧ checked c ∧ measure stack ≤ m ∧
    (flag = true → ∃ l' fr rest w t, l = S l' ∧ stack = fr :: rest ∧ it_next fr ≤ it_last fr ∧ tabs pt !! (l', c) = Some t ∧
      entry_ok pt l (it_base fr) (it_next fr) w).
Lemma entries_enter_wp m stack (Q : list ItFrame → Pages → Prop) :
  entries_state m stack true → (∀ stack', entries_state (m - 1) stack' false → Q stack' s) → wp (entries_enter min_va max_va stack) Q s.
Proof.
  intros (l & c & Hs & Hc & Hms & Hf) HQ. destruct (Hf eq_refl) as (l' & fr & rest & w0 & t & -> & -> & Hn & Ht & _).
  pose proof Hs as Hs0. inversion Hs as [|? ? ? Hl1 Hl2 Ht1 Hb1 Hbm1 Hn0 Hn1 Hlast Hhi Hm1 Hrest]; subst. cbn [entries_enter].
  wp_step. apply wp_assert; [lia|]. wp_step. set (e := it_base fr + it_next fr * psz (S l')) in *.
  apply (frame_read (S l') fr rest); [done..|]. intros w Hent. rw /entry_ok in Hent. fold e in Hent. rw Ht in Hent. destruct Hent as [Hnl Epa].
  rw Hl1. rewrite (with_idx (S l') (it_base fr) (it_next fr)); [lia|lia|exact Hbm1|lia|]. fold e. assert (e mod psz (S l') = 0) as Heal by by apply part_aligned.
  pose proof (psz_pos (S l')). assert (0 ≤ e) as He0 by (subst e; nia).
  wp_step. apply wp_assert.
  { pose proof (idx_part l' e 0 0 ltac:(lia) He0 Heal ltac:(lia) ltac:(pose proof (psz_pos l'); lia)) as E. rw Z.mul_0_l !Z.add_0_r in E. lia. }
  rewrite (with_idx l' e 0); [lia|lia|done|lia|]. rw Z.mul_0_l Z.add_0_r.
  rw /get_page_table Hnl Epa. wp_step. apply (wp_unwrap _ t); [done|].
  apply (stk_push (tabs pt) min_va max_va Hmin l' fr rest t); [done..|]. intros stack' c' Hst Hc1 Hc2 Hm'. fold e in Hc1, Hc2. apply HQ. exists l', c'. split; [done|].
  split; [|split; [lia|done]]. intros va Hva Hlt. apply Hc; [done|]. lia.
Qed.
Lemma entries_next_wp m stack flag :
  entries_state m stack flag → m < Zpos FUEL →
  wp (entries_next min_va max_va stack flag) (λ p s', s' = s ∧ entries_item (if flag then m - 1 else m) p) s.
Proof.
  intros Hst Hf. set (m' := if flag then m - 1 else m).
  assert (∀ stack, entries_state m' stack false → wp (while_ FUEL entries_step stack) (λ p s', s' = s ∧ entries_item m' p) s) as Hloop.
  { clear stack Hst. intros stack (l & c & Hs & Hc & Hm' & _). set (I := λ st s', s' = s ∧ ∃ l c, stk l st c ∧ checked c ∧ measure st ≤ m').
    apply (while_wp FUEL _ I (λ st _, measure st)); [|subst m'; destruct flag; lia|split; [done|by exists l, c]].
    intros st s1 (-> & l1 & c1 & H1 & C1 & M1). split; [exact (measure_nonneg _ _ _ _ _ _ H1)|].
    eapply wp_mono; [exact (entries_step_wp l1 st c1 H1 C1)|]. intros [st'|p] s2 [-> H2].
    - destruct H2 as (l2 & c2 & H2 & C2 & M2). split; [|done]. split; [done|]. exists l2, c2. split; [done|]. split; [done|lia].
    - split; [done|]. rw /entries_item in H2 |- *. destruct p as [[[[[lv e] w]|] st'] [|]]; [..|done|done].
      + destruct H2 as (N & C & M & R). split_and!; [done..|lia|done].
      + destruct H2 as [H2|H2]; [by left|]. right. destruct_and! H2. split_and!; try done. lia. }
  rw /entries_next. subst m'. wp_step. destruct flag.
  - by apply (entries_enter_wp m stack).
  - wp_step. by apply Hloop.
Qed.

(** The pages of [min_va] to [max_va] are checked, whatever is found. *)
Lemma validate_turns_wp stack :
  entries_state (Zpos FUEL / 2 - 1) stack false →
  wp (while_ FUEL (entries_turn min_va max_va (validate_entry flags)) (stack, false)) (λ r s', s' = s ∧
    match r with Ok _ => checked (max_va + 1) | Err _ => ¬ checked (max_va + 1) end) s.
Proof.
  intros Hst. set (I := λ n (st : list ItFrame * bool) s', s' = s ∧ ∃ m, n = 2 * m + (if st.2 then 0 else 1) ∧ 0 ≤ m < Zpos FUEL ∧ entries_state m st.1 st.2).
  change (Zpos FUEL / 2) with 549755813888 in Hst.
  apply (while_wp_rank FUEL _ I _ (2 * 549755813887 + 1)); [|change (Z.pos FUEL) with 1099511627776; lia|].
  2: { split; [done|]. exists 549755813887. split; [done|]. split; [change (Z.pos FUEL) with 1099511627776; lia|exact Hst]. }
  intros n [st flag] s1 (-> & m & -> & Hm0 & Hst1). cbn [fst snd] in *. split; [destruct flag; lia|]. rw /entries_turn. cbn [fst snd]. wp_step.
  eapply wp_mono; [apply (entries_next_wp m st flag Hst1); lia|]. intros [[[[[lv e] w]|] st'] fl] s2 [-> Hit]; [|by wp_step].
  rw /validate_entry. simpl in Hit. destruct fl.
  - destruct Hit as (Hnl & Hc & Hmm & l & fr & rest & -> & -> & Hst' & Hn & Ht). rw (non_leaf_valid _ Hnl) (non_leaf_not_leaf _ Hnl). cbn [negb]. wp_step.
    set (m' := if flag then m - 1 else m) in *. pose proof (measure_nonneg _ _ _ _ _ _ Hst') as Hm1. exists (2 * m'). split; [subst m'; destruct flag; lia|].
    split; [done|]. exists m'. split; [cbn [snd]; lia|]. split; [subst m'; destruct flag; lia|]. cbn [fst snd].
    exists (S l), (it_base fr + it_next fr * psz (S l)). split_and!; [done..|]. intros _. exists l, fr, rest, w, (pte_addr w). split_and!; [done..|].
    by rw /entry_ok Ht.
  - destruct Hit as [[Hinv Hn]|(Hl & Hlf & He & Hlo & Hal & Hc & Hst' & Hmm)]; [rw Hinv; cbn [negb]; by wp_step|].
    rw (leaf_valid _ Hlf) Hlf. cbn [negb]. change (contains _ flags) with (permits flags w). destruct (permits flags w) eqn:Ep; cbn [negb]; wp_step.
    + set (m' := if flag then m - 1 else m) in *. pose proof (measure_nonneg _ _ _ _ _ _ Hst') as Hm1. exists (2 * (m' - 1) + 1).
      split; [subst m'; destruct flag; lia|]. split; [done|]. exists (m' - 1). split; [cbn [snd]; lia|]. split; [subst m'; destruct flag; lia|]. cbn [fst snd].
      exists 0%nat, (e + PAGE_SIZE). split; [done|]. split; [|split; [lia|done]]. intros va Hva Hlt.
      destruct (decide (va < e)) as [?|?]; [by apply Hc|]. exists w. rw (page_of_mid va e) //; lia.
    + split; [done|]. intros Hall. destruct (Hall (Z.max e min_va)) as (w' & Hw' & Hp'); [lia|lia|]. pose proof page_pos. rw (page_of_mid _ e) // in Hw'; [lia|]. congruence.
Qed.
End entries.

(** [validate] changes nothing, never panics, and accepts exactly the ranges whose pages have the permissions. *)
Lemma validate_wp hs he root own held s pt flags a c :
  vm_ok hs he own held s → pt_wf root pt → pt_mem own held pt → 0 ≤ a ≤ c → c ≤ VA_MAX →
  wp (validate root (Range a c) flags) (λ r s', s' = s ∧ match r with Ok _ => range_permits pt flags a c | Err _ => ¬ range_permits pt flags a c end) s.
Proof.
  intros Hv Hw Hm Ha Hc. rw /validate /try_for_each. destruct (decide (a < c)) as [Hlt|Hge].
  2: { assert (a = c) as -> by lia. rw range_inclusive_empty //; [lia|]. wp_step. split; [done|]. intros va Hva. lia. }
  rewrite (range_inclusive_Range a c); [lia|exact Hc|]. change VA_MAX with 274877906944 in Hc. change VA_SIZE with 549755813888.
  assert (level_idx a 2 = a / 1073741824) as E1.
  { rw level_idx_psz; [lia|done|]. rw psz_2. apply Z.mod_small. Z.div_mod_to_equations. lia. }
  assert (level_idx (c - 1) 2 = (c - 1) / 1073741824) as E2.
  { rw level_idx_psz; [lia|done|]. rw psz_2. apply Z.mod_small. Z.div_mod_to_equations. lia. }
  rw /push_table E1 E2. wp_step. wp_step. apply wp_assert; [Z.div_mod_to_equations; lia|]. wp_step. apply wp_assert; [done|]. wp_step.
  set (fr := {| it_level := 2; it_base := 0; it_table := root; it_next := a / 1073741824; it_last := (c - 1) / 1073741824 |}).
  assert (stk (tabs pt) a (c - 1) 2 [fr] (it_base fr + it_next fr * psz 2)) as Hst.
  { apply stk_cons; simpl; try done; rw ?psz_2 ?psz_3; try (Z.div_mod_to_equations; lia); [apply Hw|]. constructor. lia. }
  eapply wp_mono; [apply (validate_turns_wp hs he root own held s pt a (c - 1) flags); [lia|done..|]|].
  - exists 2%nat, (it_base fr + it_next fr * psz 2). split; [done|]. split; [|split; [|done]].
    + intros va Hva Hlt'. simpl in Hlt'. rw psz_2 in Hlt'. Z.div_mod_to_equations. lia.
    + simpl. rw /frame_weight. simpl. change (Z.pos FUEL / 2) with 549755813888. Z.div_mod_to_equations. lia.
  - intros r s' [-> Hr]. split; [done|]. assert (checked pt a (c - 1) flags (c - 1 + 1) ↔ range_permits pt flags a c) as E.
    { split; intros H va; [intros Hva; apply H; lia|intros Hva _; apply H; lia]. }
    destruct r; by rw -E.
Qed.
