(* ===== verification/PtDrop.v ===== *)
(** * Dropping a page table

    The destructor gives back every table and every reference of a page table. *)

From S2P Require Import Prelude KError Pod SysTypes Addr PageAlloc Pages Pte PteSpec PageTable PtSpec PtMap PtIter PtUnmap PtCow PtWalk.

(** The tables below [l] and the references to [p] in the addresses [x, y). *)
Definition tin (pt : PT) (l : nat) (x y t : Z) : Prop := ∃ l' b', (l' < l)%nat ∧ x ≤ b' < y ∧ tabs pt !! (l', b') = Some t.
Definition cnt (pt : PT) (x y p : Z) : Z := Z.of_nat (size (filter (λ e : Z * Z, x ≤ e.1 < y ∧ pte_addr e.2 = p) (lvs pt))).

Lemma cnt_nonneg pt x y p : 0 ≤ cnt pt x y p.
Proof. rw /cnt. lia. Qed.
Lemma cnt_none pt x y p : (∀ a, x ≤ a < y → lvs pt !! a = None) → cnt pt x y p = 0.
Proof.
  intros Hn. rw /cnt. assert (filter (λ e : Z * Z, x ≤ e.1 < y ∧ pte_addr e.2 = p) (lvs pt) = ∅) as ->; [|done].
  apply map_empty. intros a. apply map_lookup_filter_None. destruct (lvs pt !! a) as [w|] eqn:E; [right|by left]. intros w' [= <-] [Hr _].
  simpl in Hr. by rw Hn in E.
Qed.
Lemma cnt_empty pt x p : cnt pt x x p = 0.
Proof. apply cnt_none. lia. Qed.
Lemma cnt_split pt x y z p : x ≤ y ≤ z → cnt pt x z p = cnt pt x y p + cnt pt y z p.
Proof.
  intros Hxy. rw /cnt -Nat2Z.inj_add. f_equal. rw -map_size_disj_union.
  - apply map_disjoint_spec. intros a w1 w2 [_ H1]%map_lookup_filter_Some [_ H2]%map_lookup_filter_Some. simpl in *. lia.
  - f_equal. apply map_eq. intros a. apply option_eq. intros w. rw lookup_union_Some; [|rw !map_lookup_filter_Some /=; split; [|intuition lia]].
    + apply map_disjoint_spec. intros a' w1 w2 [_ H1]%map_lookup_filter_Some [_ H2]%map_lookup_filter_Some. simpl in *. lia.
    + intros [Hl [Hr Hp]]. destruct (decide (a < y)); [left|right]; (split; [done|]; split; [lia|done]).
Qed.
Lemma cnt_one pt x y a w p : x ≤ a < y → lvs pt !! a = Some w → (∀ a', x ≤ a' < y → a' ≠ a → lvs pt !! a' = None) →
  cnt pt x y p = if decide (pte_addr w = p) then 1 else 0.
Proof.
  intros Ha Hl Hn. rw /cnt. assert (filter (λ e : Z * Z, x ≤ e.1 < y ∧ pte_addr e.2 = p) (lvs pt) = if decide (pte_addr w = p) then {[a := w]} else ∅) as ->.
  { apply map_eq. intros a'. apply option_eq. intros w'. rw map_lookup_filter_Some /=. split.
    - intros [Hl' [Hr Hp]]. destruct (decide (a' = a)) as [->|Hne]; [|by rw Hn in Hl']. assert (w' = w) as -> by congruence.
      rw decide_True //. apply lookup_singleton_eq.
    - case_decide as Hp; [|done]. intros [<- <-]%lookup_singleton_Some. done. }
  case_decide; [by rw map_size_singleton|done].
Qed.
Lemma cnt_all pt p : (∀ a w, lvs pt !! a = Some w → 0 ≤ a < VA_SIZE) → cnt pt 0 VA_SIZE p = refs pt p.
Proof.
  intros Hl. rw /cnt /refs. do 2 f_equal. apply map_eq. intros a. apply option_eq. intros w. rw !map_lookup_filter_Some /=. naive_solver.
Qed.

(** What has been given back: the tables [D], and [C p] references to [p]; the table [t]
    has been written. *)
Record freed (D : Z → Prop) (C : Z → Z) (t : Z) (own : gmap Z Owner) (held : Contents) (own' : gmap Z Owner) (held' : Contents) : Prop := {
  fd_tab : ∀ q, D q → own' !! q = None;
  fd_none : ∀ q, own !! q = None → own' !! q = None;
  fd_excl : ∀ q, ¬ D q → own !! q = Some Exclusive → own' !! q = Some Exclusive ∧ (q ≠ t → held' !! q = held !! q);
  fd_new : ∀ q, own' !! q = Some Exclusive → own !! q = Some Exclusive;
  fd_share : ∀ q, share own' q = share own q - C q;
  fd_data : ∀ q n, own' !! q = Some (Shared n) → held' !! q = held !! q ∧ ∃ m, own !! q = Some (Shared m);
}.

Lemma freed_pages_trans (D1 D2 D : Z → Prop) (C1 C2 C : Z → Z) t own held own1 held1 own2 held2 :
  freed D1 C1 t own held own1 held1 → freed D2 C2 t own1 held1 own2 held2 →
  (∀ q, D q ↔ D1 q ∨ D2 q) → (∀ q, C q = C1 q + C2 q) → freed D C t own held own2 held2.
Proof.
  intros [A1 A2 A3 A4 A5 A6] [B1 B2 B3 B4 B5 B6] HD HC. split.
  - intros q [Hq|Hq]%HD; [by apply B2, A1|by apply B1].
  - intros q Hq. by apply B2, A2.
  - intros q Hn Ho. rw HD in Hn. destruct (A3 q ltac:(tauto) Ho) as [Ho1 Hh1], (B3 q ltac:(tauto) Ho1) as [Ho2 Hh2]. split; [done|].
    intros Hne. by rw Hh2 // Hh1.
  - intros q Hq. by apply A4, B4.
  - intros q. rw B5 A5 HC. lia.
  - intros q n Hq. destruct (B6 q n Hq) as [E [m Hm]], (A6 q m Hm) as [E' Hm']. split; [congruence|done].
Qed.

Lemma mult_eq m x y : 0 < m → x mod m = 0 → y mod m = 0 → x ≤ y < x + m → y = x.
Proof.
  intros Hm Hx Hy Hr. apply Z.mod_divide in Hx as [k ->]; [|lia]. apply Z.mod_divide in Hy as [k' ->]; [|lia].
  assert (k ≤ k' < k + 1) by nia. assert (k' = k) as -> by lia. done.
Qed.

Section drop.
Context (hs he root : Z) (pt : PT) (Hwf : pt_wf root pt).
Implicit Types (s : Pages) (own : gmap Z Owner) (held : Contents).
Abbreviation vm_ok := (vm_ok hs he).
Abbreviation hpage := (hpage hs he).

Definition hcnt (x y p : Z) : Z := if decide (hpage p) then cnt pt x y p else 0.
Definition intact own held (l : nat) (x y : Z) : Prop :=
  ∀ l' b' q, (l' < l)%nat → x ≤ b' < y → tabs pt !! (l', b') = Some q → own !! q = Some Exclusive ∧
    ∃ b, held !! q = Some b ∧ ∀ i, 0 ≤ i < 512 → entry_ok pt l' b' i (pte_in b i).

Lemma tin_ne l x y l' b' t : (l ≤ l')%nat → tabs pt !! (l', b') = Some t → ¬ tin pt l x y t.
Proof. intros Hl Ht (l1 & b1 & Hl1 & _ & Ht1). pose proof (pw_inj _ _ Hwf _ _ _ Ht Ht1) as [= ? ?]. lia. Qed.
Lemma tin_out l x y l' b' t : ¬ x ≤ b' < y → tabs pt !! (l', b') = Some t → ¬ tin pt l x y t.
Proof. intros Hn Ht (l1 & b1 & _ & Hb1 & Ht1). pose proof (pw_inj _ _ Hwf _ _ _ Ht Ht1) as [= ? ?]. subst. done. Qed.

(** The table of level [l] over a part of a table of the level above. *)
Lemma part_base l base i b' : base mod psz (S (S l)) = 0 → 0 ≤ i < 512 →
  base + i * psz (S l) ≤ b' < base + i * psz (S l) + psz (S l) → b' mod psz (S l) = 0 → b' = base + i * psz (S l).
Proof.
  intros Hb Hi Hr Hm. pose proof (part_aligned (S l) base i Hb) as Ha. exact (mult_eq _ _ _ (psz_pos (S l)) Ha Hm Hr).
Qed.
Lemma tb_same l b' : b' mod psz (S l) = 0 → tb l b' = b'.
Proof. rw /tb. lia. Qed.
Lemma tb_of_part l base i b' : base mod psz (S (S l)) = 0 → 0 ≤ i < 512 →
  base + i * psz (S l) ≤ b' < base + i * psz (S l) + psz (S l) → tb l b' = base + i * psz (S l).
Proof.
  intros Hb Hi Hr. pose proof (psz_pos (S l)) as Hm.
  pose proof (part_aligned (S l) base i Hb) as Ha. rw /tb. pose proof (Z.mod_pos_bound b' (psz (S l)) Hm).
  assert (b' mod psz (S l) = b' - (base + i * psz (S l))); [|lia]. symmetry. apply Z.mod_divide in Ha as [k Hk]; [|lia].
  apply (Z.mod_unique_pos _ _ k); lia.
Qed.

(** A part without table has neither tables nor leaves. *)
Lemma empty_part l base i t : tabs pt !! (S l, base) = Some t → 0 ≤ i < 512 → tabs pt !! (l, base + i * psz (S l)) = None →
  let x := base + i * psz (S l) in let y := x + psz (S l) in
  (∀ q, ¬ tin pt (S l) x y q) ∧ (∀ p, cnt pt x y p = 0).
Proof.
  intros Ht Hi Hn x y. destruct (pw_tabs _ _ Hwf _ _ _ Ht) as (Hl & _ & Hbm & _).
  assert (∀ b' l', (l' ≤ l)%nat → x ≤ b' < y → is_Some (tabs pt !! (l', tb l' b')) → False) as Hno.
  { intros b' l' Hl' Hr Hs. pose proof (tables_above root pt b' l' l Hwf Hs Hl' ltac:(lia)) as Ha. rw (tb_of_part l base i b') // in Ha. rw Hn in Ha. by destruct Ha. }
  split.
  - intros q (l' & b' & Hl' & Hr & Hq). destruct (pw_tabs _ _ Hwf _ _ _ Hq) as (_ & _ & Hm & _). apply (Hno b' l'); [lia|done|].
    by rw tb_same // Hq.
  - intros p. apply cnt_none. intros a Ha. destruct (lvs pt !! a) as [w|] eqn:E; [exfalso|done].
    destruct (pw_lvs _ _ Hwf _ _ E) as (_ & _ & Hs). by apply (Hno a 0%nat); [lia|..].
Qed.
Lemma leaf_part base i t p : tabs pt !! (0%nat, base) = Some t → 0 ≤ i < 512 →
  let x := base + i * psz 0 in
  cnt pt x (x + psz 0) p = match lvs pt !! x with Some w => if decide (pte_addr w = p) then 1 else 0 | None => 0 end.
Proof.
  intros Ht Hi x. destruct (pw_tabs _ _ Hwf _ _ _ Ht) as (_ & _ & Hbm & _). pose proof (part_aligned 0 base i Hbm) as Hxal. fold x in Hxal.
  assert (∀ a, x ≤ a < x + psz 0 → a ≠ x → lvs pt !! a = None) as Hno.
  { intros a Ha Hne. destruct (lvs pt !! a) as [w|] eqn:E; [exfalso|done]. destruct (pw_lvs _ _ Hwf _ _ E) as (_ & Hal & _).
    change (psz 0) with PAGE_SIZE in *. pose proof (page_below a x Hal Hxal ltac:(lia) Hne). lia. }
  pose proof (psz_pos 0). destruct (lvs pt !! x) as [w|] eqn:E; [by apply (cnt_one pt x _ x w); [lia|..]|].
  apply cnt_none. intros a Ha. destruct (decide (a = x)) as [->|]; [done|by apply Hno].
Qed.

Lemma freed_ext (D D' : Z → Prop) (C C' : Z → Z) t own held own' held' :
  (∀ q, D q ↔ D' q) → (∀ q, C q = C' q) → freed D C t own held own' held' → freed D' C' t own held own' held'.
Proof.
  intros HD HC [A1 A2 A3 A4 A5 A6]. split; try done; intros q; rw -?HD -?HC; [apply A1|apply A3|apply A5].
Qed.

(** Nothing is given back. *)
Lemma freed_nothing D C t own held held' :
  (∀ q, ¬ D q) → (∀ q, C q = 0) → (∀ q, q ≠ t → held' !! q = held !! q) → own !! t = Some Exclusive → freed D C t own held own held'.
Proof.
  intros HD HC Hh Ht. split; try done.
  - intros q Hq. by destruct (HD q).
  - intros q _ Hq. split; [done|]. by apply Hh.
  - intros q. rw HC. lia.
  - intros q n Hq. split; [apply Hh; congruence|by exists n].
Qed.

(** One reference is given back. *)
Lemma freed_leaf t own held held' p n :
  own !! t = Some Exclusive → own !! p = Some (Shared n) → 0 < n → (∀ q, q ≠ t → held' !! q = held !! q) →
  freed (λ _, False) (λ q, if decide (p = q) then 1 else 0) t own held (drop_own p own) (drop_held p own held').
Proof.
  intros Ht Hp Hn Hh. assert (p ≠ t) by congruence.
  assert (∀ q o, drop_own p own !! q = Some o → ∃ o', own !! q = Some o' ∧ (p ≠ q → o' = o)) as Hd.
  { intros q o Hq. destruct (decide (p = q)) as [<-|Hne]; [by exists (Shared n)|]. rw drop_own_ne // in Hq. by exists o. }
  assert (∀ o, drop_own p own !! p = Some o → ∃ m, o = Shared m ∧ drop_held p own held' = held') as Hpp.
  { intros o Ho. rw /drop_own lookup_partial_alter_eq Hp /= in Ho. rw /drop_held Hp /=. destruct (1 <? n); [|done]. injection Ho as <-. by eexists. }
  split; try done.
  - intros q Hq. rw drop_own_ne //. congruence.
  - intros q _ Hq. assert (p ≠ q) by congruence. rw drop_own_ne //. split; [done|]. intros Hqt. rw drop_held_ne //. by apply Hh.
  - intros q Hq. destruct (decide (p = q)) as [<-|Hne]; [|by rw drop_own_ne in Hq]. by destruct (Hpp _ Hq) as (m & ? & _).
  - intros q. by apply (share_drop own p n).
  - intros q m Hq. destruct (Hd _ _ Hq) as (o' & Ho' & Ho). destruct (decide (p = q)) as [<-|Hne].
    + destruct (Hpp _ Hq) as (_ & _ & ->). split; [apply Hh; congruence|by eauto].
    + rw drop_held_ne //. rw Ho // in Ho'. split; [apply Hh; congruence|by eauto].
Qed.

Definition entry_freed (l : nat) (base i t : Z) (b : list byte) own held (s' : Pages) : Prop :=
  let x := base + i * psz l in
  ∃ own' held' b', vm_ok own' held' s' ∧ freed (tin pt l x (x + psz l)) (hcnt x (x + psz l)) t own held own' held' ∧
    held' !! t = Some b' ∧ ∀ j, 0 ≤ j < 512 → j ≠ i → pte_in b' j = pte_in b j.

Lemma set_zero b i j : length b = TABLE_BYTES → 0 ≤ i < 512 → 0 ≤ j < 512 → j ≠ i → pte_in (set_pte b i 0) j = pte_in b j.
Proof. intros Hb Hi Hj Hne. rw pte_in_set; [done..|]. rw decide_False; [congruence|done]. Qed.

Lemma entry_free_leaf own held s base i t b :
  vm_ok own held s → tabs pt !! (0%nat, base) = Some t → own !! t = Some Exclusive → held !! t = Some b → 0 ≤ i < 512 →
  entry_ok pt 0 base i (pte_in b i) → (∀ p, hpage p → cnt pt (base + i * psz 0) (base + i * psz 0 + psz 0) p ≤ share own p) →
  wp (entry_free 0 (entry t i)) (λ _ s', entry_freed 0 base i t b own held s') s.
Proof.
  intros Hv Ht Hot Hb Hi He Hc. destruct (vm_memory hs he own held s t b Hv Hb) as [_ Hlen]. cbn [entry_free]. wp_step.
  apply (read_pte_wp hs he own held s t i b); [done..|]. set (x := base + i * psz 0) in *.
  assert (∀ p, cnt pt x (x + psz 0) p = match lvs pt !! x with Some w => if decide (pte_addr w = p) then 1 else 0 | None => 0 end) as Hcnt by (intros p; by apply (leaf_part base i t)).
  assert (∀ q, ¬ tin pt 0 x (x + psz 0) q) as Hnt by (intros q (l' & b' & ? & _); lia).
  rw /entry_ok in He. fold x in He. destruct (lvs pt !! x) as [w|] eqn:Ew.
  - destruct He as [<- Hlf]. rw (leaf_valid _ Hlf). cbn [negb]. wp_step.
    eapply wp_mono; [exact (write_pte_wp hs he own held s t i b 0 Hv Hb Hi)|]. intros [] s1 Hv1.
    assert (is_non_leaf (pte_in b i) = false) as -> by (destruct (is_non_leaf (pte_in b i)) eqn:E; [by rw (non_leaf_not_leaf _ E) in Hlf|done]).
    wp_step. apply wp_assert; [done|]. wp_step. eapply wp_mono; [exact (vm_is_heap hs he own _ s1 (pte_addr (pte_in b i)) Hv1)|]. intros h s2 [-> ->].
    case_bool_decide as Hp.
    + pose proof (Hc _ Hp) as H1. rw Hcnt decide_True // in H1. rw /share in H1. destruct (own !! pte_addr (pte_in b i)) as [[n|]|] eqn:Eo; [|lia..].
      eapply wp_mono; [exact (vm_page_drop hs he own _ s1 _ _ Hv1 Eo)|]. intros [] s3 Hv3. eexists _, _, (set_pte b i 0). split; [exact Hv3|]. split.
      * apply (freed_ext (λ _, False) _ (λ q, if decide (pte_addr (pte_in b i) = q) then 1 else 0)).
        -- intros q. split; [done|]. apply Hnt.
        -- intros q. rw /hcnt Hcnt. destruct (decide (pte_addr (pte_in b i) = q)) as [<-|]; [by rw decide_True|by case_decide].
        -- apply (freed_leaf t own held _ _ n); [done..|lia|]. intros q Hq. by rw lookup_insert_ne; [congruence|].
      * rw drop_held_ne; [congruence|]. rw lookup_insert_eq. split; [done|]. intros j Hj Hne. by apply set_zero.
    + wp_step. eexists own, _, (set_pte b i 0). split; [exact Hv1|]. split.
      * apply freed_nothing; [done| | |done].
        -- intros q. rw /hcnt Hcnt. destruct (decide (hpage q)); [|done]. rw decide_False; [congruence|done].
        -- intros q Hq. by rw lookup_insert_ne; [congruence|].
      * rw lookup_insert_eq. split; [done|]. intros j Hj Hne. by apply set_zero.
  - rw He. cbn [negb]. wp_step. exists own, held, b. split; [done|]. split; [|done]. apply freed_nothing; [done| |done|done].
    intros q. rw /hcnt Hcnt. by case_decide.
Qed.

(** The entries of a table, one after the other. *)
Definition entry_spec (l : nat) : Prop := ∀ own held s base i t b,
  vm_ok own held s → tabs pt !! (l, base) = Some t → own !! t = Some Exclusive → held !! t = Some b → 0 ≤ i < 512 →
  entry_ok pt l base i (pte_in b i) → intact own held l (base + i * psz l) (base + i * psz l + psz l) →
  (∀ p, hpage p → cnt pt (base + i * psz l) (base + i * psz l + psz l) p ≤ share own p) →
  wp (entry_free l (entry t i)) (λ _ s', entry_freed l base i t b own held s') s.

Lemma tin_split l x y z q : x ≤ y ≤ z → tin pt l x z q ↔ tin pt l x y q ∨ tin pt l y z q.
Proof.
  intros Hr. rw /tin. split; [intros (l' & b' & Hl' & Hb' & Hq)|intros [(l' & b' & Hl' & Hb' & Hq)|(l' & b' & Hl' & Hb' & Hq)]]; cycle 1.
  - exists l', b'. split_and!; [done|lia..|done].
  - exists l', b'. split_and!; [done|lia..|done].
  - destruct (decide (b' < y)); [left|right]; exists l', b'; (split; [done|]; split; [lia|done]).
Qed.
Lemma hcnt_split x y z p : x ≤ y ≤ z → hcnt x z p = hcnt x y p + hcnt y z p.
Proof. intros H. rw /hcnt. case_decide; [by apply cnt_split|done]. Qed.

Lemma entries_free_wp l own held s base t b :
  entry_spec l → vm_ok own held s → tabs pt !! (l, base) = Some t → own !! t = Some Exclusive → held !! t = Some b →
  (∀ i, 0 ≤ i < 512 → entry_ok pt l base i (pte_in b i)) → intact own held l base (base + psz (S l)) →
  (∀ p, hpage p → cnt pt base (base + psz (S l)) p ≤ share own p) →
  wp (for_each indices (λ i, entry_free l (entry t i))) (λ _ s', ∃ own' held', vm_ok own' held' s' ∧
    freed (tin pt l base (base + psz (S l))) (hcnt base (base + psz (S l))) t own held own' held') s.
Proof.
  intros Hspec Hv Ht Hot Hb He Hin Hc. pose proof (psz_S l) as Esz. pose proof (psz_pos l) as Hpos.
  set (I := λ (rest : list Z) s', ∃ k own' held' b', 0 ≤ k ≤ 512 ∧ rest = seqZ k (512 - k) ∧ vm_ok own' held' s' ∧
    freed (tin pt l base (base + k * psz l)) (hcnt base (base + k * psz l)) t own held own' held' ∧ held' !! t = Some b' ∧
    ∀ j, k ≤ j < 512 → pte_in b' j = pte_in b j).
  eapply wp_mono; [apply (for_each_wp _ I)|].
  - intros i rest s1 (k & own1 & held1 & b1 & Hk & Er & Hv1 & Hf1 & Hb1 & Hj1). assert (k < 512) as Hk2.
    { destruct (decide (k < 512)); [done|]. rw seqZ_nil in Er; [lia|done]. }
    rw seqZ_cons in Er; [lia|]. injection Er as -> ->. set (x := base + k * psz l) in *.
    assert (x + psz l = base + (k + 1) * psz l) as Ey by (subst x; lia). assert (x + psz l ≤ base + psz (S l)) as Hyend by nia.
    assert (base ≤ x) as Hbx by nia.
    assert (own1 !! t = Some Exclusive) as Hot1 by (apply (fd_excl _ _ _ _ _ _ _ Hf1); [by apply (tin_ne l _ _ l base)|done]).
    eapply wp_mono; [apply (Hspec own1 held1 s1 base k t b1 Hv1 Ht Hot1 Hb1 ltac:(lia))|].
    + rw Hj1; [lia|]. apply He. lia.
    + intros l' b' q Hl' Hb' Hq. destruct (Hin l' b' q Hl' ltac:(fold x in Hb'; lia) Hq) as [Ho Hbq].
      destruct (fd_excl _ _ _ _ _ _ _ Hf1 q) as [Ho1 Hh1]; [apply (tin_out l base x l' b'); [fold x in Hb'; lia|done]|done|].
      split; [done|]. rw Hh1 //. intros ->. pose proof (pw_inj _ _ Hwf _ _ _ Ht Hq) as [= ? ?]. lia.
    + intros p Hp. fold x. rw (fd_share _ _ _ _ _ _ _ Hf1) /hcnt decide_True //. specialize (Hc p Hp).
      rw (cnt_split pt base x) in Hc; [lia|]. rw (cnt_split pt x (x + psz l)) in Hc; [lia|]. pose proof (cnt_nonneg pt (x + psz l) (base + psz (S l)) p). lia.
    + intros [] s2 (own2 & held2 & b2 & Hv2 & Hf2 & Hb2 & Hj2). fold x in Hf2. exists (k + 1), own2, held2, b2. split; [lia|]. split; [f_equal; lia|]. split; [done|].
      split; [|split; [done|intros j Hj; rw Hj2; [lia..|apply Hj1; lia]]]. rw -Ey. apply (freed_pages_trans _ _ _ _ _ _ _ _ _ _ _ _ _ Hf1 Hf2).
      * intros q. apply tin_split. lia.
      * intros q. apply hcnt_split. lia.
  - exists 0, own, held, b. split; [lia|]. split; [done|]. split; [done|]. rw Z.mul_0_l Z.add_0_r. split; [|done].
    apply freed_nothing; [|intros q; rw /hcnt; case_decide; [apply cnt_empty|done]|done|done]. intros q (l' & b' & _ & ? & _). lia.
  - intros [] s' (k & own' & held' & b' & Hk & Er & Hv' & Hf' & _). assert (k = 512) as ->.
    { destruct (decide (k < 512)); [|lia]. by rw seqZ_cons in Er; [lia|]. }
    exists own', held'. split; [done|]. by rw Esz.
Qed.

(** A table and all below it. *)
Lemma freed_table l x c t own held held1 own' held' :
  tabs pt !! (l, x) = Some c → own !! c = Some Exclusive → x mod psz (S l) = 0 →
  (∀ q, q ≠ t ∨ own !! q ≠ Some Exclusive → held1 !! q = held !! q) →
  freed (tin pt l x (x + psz (S l))) (hcnt x (x + psz (S l))) c own held1 own' held' →
  freed (tin pt (S l) x (x + psz (S l))) (hcnt x (x + psz (S l))) t own held (delete c own') (delete c held').
Proof.
  intros Hc Hoc Hxal Hh [A1 A2 A3 A4 A5 A6].
  assert (∀ q, tin pt (S l) x (x + psz (S l)) q ↔ q = c ∨ tin pt l x (x + psz (S l)) q) as HD.
  { intros q. split.
    - intros (l' & b' & Hl' & Hb' & Hq). destruct (decide (l' = l)) as [->|Hne]; [left|right; exists l', b'; split; [lia|done]].
      destruct (pw_tabs _ _ Hwf _ _ _ Hq) as (_ & _ & Hm & _). rw (mult_eq _ x b' (psz_pos (S l)) Hxal Hm Hb') in Hq. congruence.
    - pose proof (psz_pos (S l)). intros [->|(l' & b' & Hl' & Hb' & Hq)]; [exists l, x; split; [lia|split; [lia|done]]|exists l', b'; split; [lia|done]]. }
  assert (own' !! c = Some Exclusive) as Hoc' by (apply A3; [by apply (tin_ne l _ _ l x)|done]).
  split.
  - intros q Hq. apply HD in Hq as [->|Hq]; [apply lookup_delete_eq|]. rw lookup_delete_None. right. by apply A1.
  - intros q Hq. rw lookup_delete_None. right. by apply A2.
  - intros q Hn Hq. rw HD in Hn. assert (c ≠ q) as Hcq by naive_solver. rw !lookup_delete_ne //. destruct (A3 q ltac:(tauto) Hq) as [Ho' Hh']. split; [done|].
    intros Hqt. rw Hh'; [congruence|]. apply Hh. by left.
  - intros q [_ Hq]%lookup_delete_Some. by apply A4.
  - intros q. rw -A5. rw /share. destruct (decide (c = q)) as [<-|Hne]; [by rw lookup_delete_eq Hoc'|by rw lookup_delete_ne].
  - intros q n [Hne Hq]%lookup_delete_Some. destruct (A6 q n Hq) as [E [m Hm]]. rw lookup_delete_ne //. split; [|by exists m].
    rw E. apply Hh. right. congruence.
Qed.

Lemma entry_free_wp l : (l ≤ 2)%nat → entry_spec l.
Proof.
  induction l as [|l IH]; intros Hl own held s base i t b Hv Ht Hot Hb Hi He Hin Hc; [by apply entry_free_leaf|].
  specialize (IH ltac:(lia)). destruct (vm_memory hs he own held s t b Hv Hb) as [_ Hlen]. destruct (pw_tabs _ _ Hwf _ _ _ Ht) as (_ & _ & Hbm & _).
  cbn [entry_free]. wp_step. apply (read_pte_wp hs he own held s t i b); [done..|]. rw /entry_ok in He. rw /entry_freed.
  pose proof (part_aligned (S l) base i Hbm) as Hxal. set (x := base + i * psz (S l)) in *. destruct (tabs pt !! (l, x)) as [c|] eqn:Et.
  - destruct He as [Hnl Hpa]. rw (non_leaf_valid _ Hnl). cbn [negb]. wp_step.
    eapply wp_mono; [exact (write_pte_wp hs he own held s t i b 0 Hv Hb Hi)|]. intros [] s1 Hv1. rw Hnl Hpa.
    assert (c ≠ t) as Hct by (intros ->; pose proof (pw_inj _ _ Hwf _ _ _ Ht Et) as [= ? ?]; lia). pose proof (psz_pos (S l)) as Hpos.
    destruct (Hin l x c ltac:(lia) ltac:(lia) Et) as (Hoc & bc & Hbc & Hec). wp_step.
    eapply wp_mono; [apply (entries_free_wp l own _ s1 x c bc IH Hv1 Et Hoc)|].
    + by rw lookup_insert_ne; [congruence|].
    + done.
    + intros l' b' q Hl' Hb' Hq. destruct (Hin l' b' q ltac:(lia) Hb' Hq) as [Ho Hbq]. split; [done|]. rw lookup_insert_ne; [|done].
      intros <-. pose proof (pw_inj _ _ Hwf _ _ _ Ht Hq) as [= ? ?]. lia.
    + done.
    + intros [] s2 (own2 & held2 & Hv2 & Hf2). pose proof (fd_excl _ _ _ _ _ _ _ Hf2 c (tin_ne l _ _ l x c ltac:(lia) Et) Hoc) as [Hoc2 _].
      destruct (fd_excl _ _ _ _ _ _ _ Hf2 t (tin_ne l _ _ (S l) base t ltac:(lia) Ht) Hot) as [_ Hht].
      eapply wp_mono; [exact (vm_deallocate hs he own2 held2 s2 c Hv2 Hoc2)|]. intros [] s3 Hv3.
      eexists _, _, (set_pte b i 0). split; [exact Hv3|]. split.
      * apply (freed_table l x c t own held (<[t := set_pte b i 0]> held)); try done. intros q Hq. rw lookup_insert_ne; [|done]. intros <-. by destruct Hq.
      * rw lookup_delete_ne // Hht; [congruence|]. rw lookup_insert_eq. split; [done|]. intros j Hj Hne. by apply set_zero.
  - rw He. cbn [negb]. wp_step. exists own, held, b. split; [done|]. split; [|done]. destruct (empty_part l base i t Ht Hi Et) as [Hnt Hn0].
    apply freed_nothing; [done| |done|done]. intros q. rw /hcnt Hn0. by case_decide.
Qed.

(** The destructor. *)
Lemma table_drop_wp ext own held s :
  (∀ p, 0 ≤ ext p) → vm_ok own held s → pt_inv hs he ext root own held pt →
  wp (table_drop root) (λ _ s', ∃ own' held', vm_ok own' held' s' ∧
    freed (is_tab pt) (λ p, if decide (hpage p) then refs pt p else 0) root own held own' held') s.
Proof.
  intros Hext Hv Hi. pose proof (pw_root _ _ Hwf) as Hr. destruct (pi_mem _ _ _ _ _ _ _ Hi _ _ _ Hr) as (Hor & b & Hb & He).
  assert (∀ p, cnt pt 0 (psz 3) p = refs pt p) as Hcnt.
  { intros p. apply cnt_all. intros a w Ha. by destruct (pw_lvs _ _ Hwf _ _ Ha) as (? & _). }
  rw /table_drop /entries_free. wp_step. eapply wp_mono; [apply (entries_free_wp 2 own held s 0 root b (entry_free_wp 2 ltac:(lia)) Hv Hr Hor Hb He)|].
  - intros l' b' q _ _ Hq. by apply (pi_mem _ _ _ _ _ _ _ Hi).
  - intros p Hp. rw Z.add_0_l Hcnt (pi_count _ _ _ _ _ _ _ Hi p Hp). specialize (Hext p). lia.
  - rw Z.add_0_l. intros [] s1 (own1 & held1 & Hv1 & Hf1).
    assert (own1 !! root = Some Exclusive) as Hor1 by (apply (fd_excl _ _ _ _ _ _ _ Hf1); [by apply (tin_ne 2 _ _ 2 0)|done]).
    eapply wp_mono; [exact (vm_deallocate hs he own1 held1 s1 root Hv1 Hor1)|]. intros [] s2 Hv2. eexists _, _. split; [exact Hv2|].
    apply (freed_ext (tin pt 3 0 (psz 3)) _ (hcnt 0 (psz 3)) _).
    + intros q. rw is_tab_spec. split; [intros (l & b' & _ & _ & Hq); by exists (l, b')|]. intros [[l b'] Hq]. exists l, b'.
      destruct (pw_tabs _ _ Hwf _ _ _ Hq) as (Hl & Hb' & _). split; [lia|done].
    + intros p. rw /hcnt. case_decide; [apply Hcnt|done].
    + apply (freed_table 2 0 root root own held held own1 held1); done.
Qed.
End drop.
