(* ===== verification/VmView.v ===== *)
(** * What user programs see

    The translation of an address by a page table and the byte a user program loads from
    it, in the memory of the machine, and what they are in terms of the page tables. *)

From S2P Require Import Prelude KError Pod SysTypes Addr PageAlloc Pages Pte PteSpec PageTable PtSpec PtMap PtIter PtUnmap PtCow PtFixed VmWorld VmFork PtWalk.

(** The entry that translates an address. *)
Definition translate (s : Pages) (root va : Z) : option Z :=
  match (p ←? find_leaf_entry root va; w ← read_pte p.2; mret (Ok w)) s with
  | Ret (Ok w) _ => Some w
  | _ => None
  end.

(** A load and a store in user mode. *)
Definition user_load (s : Pages) (root va : Z) : option byte :=
  w ← translate s root va;
  if contains (pte_flags w) PtEntryFlags.UR then
    b ← memory (pg_frames s) !! pte_addr w;
    b !! Z.to_nat (va mod PAGE_SIZE)
  else None.
Definition user_writable (s : Pages) (root va : Z) : bool :=
  match translate s root va with
  | Some w => contains (pte_flags w) PtEntryFlags.UW
  | None => false
  end.

(** The same, of the entries and the contents of the pages. *)
Definition load_of (m : gmap Z Z) (held : Contents) (va : Z) : option byte :=
  w ← m !! page_of va;
  if contains (pte_flags w) PtEntryFlags.UR then
    b ← held !! pte_addr w;
    b !! Z.to_nat (va mod PAGE_SIZE)
  else None.

Lemma contains_UR w : contains (pte_flags w) PtEntryFlags.UR = Z.testbit w 4 && Z.testbit w 1.
Proof. rw /PtEntryFlags.UR contains_lor !contains_bit // !flags_testbit //. Qed.
Lemma contains_UW w : contains (pte_flags w) PtEntryFlags.UW = Z.testbit w 4 && Z.testbit w 2.
Proof. rw /PtEntryFlags.UW contains_lor !contains_bit // !flags_testbit //. Qed.

Section view.
Context (hs he : Z).
Implicit Types (s : Pages) (own : gmap Z Owner) (held : Contents) (pt : PT) (W : World) (leak : Z → Z).
Abbreviation vm_ok := (vm_ok hs he).
Abbreviation hpage := (hpage hs he).
Abbreviation world_ok := (world_ok hs he).

Lemma translate_spec ext root own held s pt va :
  vm_ok own held s → pt_inv hs he ext root own held pt → 0 ≤ va < VA_SIZE → translate s root va = lvs pt !! page_of va.
Proof.
  intros Hv Hi Hva. rw /translate.
  assert (wp (p ←? find_leaf_entry root va; w ← read_pte p.2; mret (Ok w))
    (λ r _, match r with Ok w => Some w | Err _ => None end = lvs pt !! page_of va) s) as Hwp.
  { wp_step. apply (find_leaf_entry_wp hs he ext root own held s pt va); [done..|]. destruct (lvs pt !! page_of va) as [w|]; [|done].
    intros t b Ht Hb Hw _. wp_step. apply (read_pte_wp hs he own held s t _ b); [done..|]. wp_step. by rw Hw. }
  apply wp_run in Hwp as (r & s' & -> & E). by destruct r.
Qed.

Lemma user_load_spec ext root own held s pt va :
  (∀ p, 0 ≤ ext p) → vm_ok own held s → pt_inv hs he ext root own held pt → 0 ≤ va < VA_SIZE → user_load s root va = load_of (lvs pt) held va.
Proof.
  intros Hext Hv Hi Hva. rw /user_load /load_of (translate_spec ext root own held s pt) //. destruct (lvs pt !! page_of va) as [w|] eqn:Ew; [|done]. simpl.
  rw contains_UR. destruct (Z.testbit w 4) eqn:E4; [|done]. destruct (Z.testbit w 1); [|done]. simpl.
  pose proof (pi_user _ _ _ _ _ _ _ Hi _ _ Ew E4) as Hp. destruct (leaf_owner hs he ext Hext root own held pt _ w Hi Ew Hp) as (n & Ho & _).
  destruct (proj2 (po_held _ _ _ (vo_pages _ _ _ _ _ Hv) (pte_addr w)) ltac:(by rw Ho)) as [b Hb]. destruct (vm_memory hs he own held s _ b Hv Hb) as [-> _]. by rw Hb.
Qed.

(** ** The machine and its page tables *)

Record vm_inv (s : Pages) W leak own held : Prop := {
  vi_ok : vm_ok own held s;
  vi_world : world_ok W leak own held;
  vi_tabs : ∀ q, own !! q = Some Exclusive → tab_of W q;
}.

Lemma vm_translate s W leak own held r pt va :
  vm_inv s W leak own held → W !! r = Some pt → 0 ≤ va < VA_SIZE → translate s r va = lvs pt !! page_of va.
Proof. intros [Hv Hw _] Hr. apply (translate_spec (ext_of W leak r) r own held s pt va Hv). by apply (wo_pt _ _ _ _ _ _ Hw). Qed.
Lemma vm_load s W leak own held r pt va :
  vm_inv s W leak own held → W !! r = Some pt → 0 ≤ va < VA_SIZE → user_load s r va = load_of (lvs pt) held va.
Proof.
  intros [Hv Hw _] Hr. apply (user_load_spec (ext_of W leak r) r own held s pt va); [intros p; by apply (ext_of_nonneg hs he W leak own held)|done|].
  by apply (wo_pt _ _ _ _ _ _ Hw).
Qed.

(** The same byte is loaded when the entry and the page are the same. *)
Lemma load_of_keep W leak own held r pt m' held' va :
  world_ok W leak own held → W !! r = Some pt → m' !! page_of va = lvs pt !! page_of va →
  (∀ w, lvs pt !! page_of va = Some w → Z.testbit w 4 = true → hpage (pte_addr w) →
     own !! pte_addr w = Some (Shared (total W (pte_addr w) + leak (pte_addr w))) → held' !! pte_addr w = held !! pte_addr w) →
  load_of m' held' va = load_of (lvs pt) held va.
Proof.
  intros Hw Hr Em Hd. rw /load_of Em. destruct (lvs pt !! page_of va) as [w|] eqn:Ew; [|done]. simpl. rw contains_UR.
  destruct (Z.testbit w 4) eqn:E4; [|done]. destruct (user_shared hs he W leak own held r pt _ w Hw Hr Ew E4) as [Hp Ho]. by rw (Hd w).
Qed.

(** An operation on the table [r] does not change what is loaded with another. *)
Lemma load_others W leak own held r pt own' held' pt' r' pt1 va :
  world_ok W leak own held → W !! r = Some pt → vstep hs he (ext_of W leak r) own held pt own' held' pt' → W !! r' = Some pt1 → r' ≠ r →
  load_of (lvs pt1) held' va = load_of (lvs pt1) held va.
Proof.
  intros Hw Hr [_ _ Hd _] Hr1 Hne. apply (load_of_keep W leak own held r' pt1); [done..|]. intros w Hl _ Hp _. apply Hd; [done|].
  pose proof (ext_of_other W leak r r' pt1 (pte_addr w) (wo_leak _ _ _ _ _ _ Hw _) ltac:(congruence) Hr1). pose proof (pt_refs_pos _ _ _ Hl). lia.
Qed.
End view.
