(* ===== verification/VmOps.v ===== *)
(** * Operations on the page tables of the system

    What each operation of the kernel on a page table does to all page tables, and to what
    user programs load. *)

From S2P Require Import Prelude KError Pod SysTypes Addr PageAlloc Pages Pte PteSpec PageTable PtSpec PtMap PtIter PtUnmap PtCow PtFixed VmWorld VmFork PtWalk PtDrop VmView.

(** The page table of [try_allocate]. *)
Definition new_pt (r : Z) : PT := {| tabs := {[(2%nat, 0) := r]}; lvs := ∅ |}.

Section ops.
Context (hs he : Z).
Implicit Types (s : Pages) (own : gmap Z Owner) (held : Contents) (pt : PT) (W : World) (leak : Z → Z).
Abbreviation vm_ok := (vm_ok hs he).
Abbreviation hpage := (hpage hs he).
Abbreviation world_ok := (world_ok hs he).
Abbreviation vm_inv := (vm_inv hs he).

Lemma is_tab_own W leak own held r pt t : world_ok W leak own held → W !! r = Some pt → is_tab pt t → own !! t = Some Exclusive.
Proof.
  intros Hw Hr Ht. apply is_tab_spec in Ht as [[l b] Hk]. by destruct (pi_mem _ _ _ _ _ _ _ (wo_pt _ _ _ _ _ _ Hw _ _ Hr) _ _ _ Hk).
Qed.

Lemma refs_new r p : refs (new_pt r) p = 0.
Proof. by rw /refs /new_pt /= map_filter_empty map_size_empty. Qed.

Lemma new_pt_mem own held r : own !! r = Some Exclusive → held !! r = Some (filled Byte.x00) → pt_mem own held (new_pt r).
Proof.
  intros Ho Hh l base t. rw lookup_singleton_Some. intros [[= <- <-] <-]. split; [done|]. exists (filled Byte.x00). split; [done|].
  intros i Hi. rw /entry_ok /new_pt. cbn [tabs]. rw lookup_singleton_ne; [by intros [=]|]. by rw pte_in_zero.
Qed.
Lemma new_pt_wf r : pt_wf r (new_pt r).
Proof.
  split.
  - apply lookup_singleton_eq.
  - intros l base t. rw lookup_singleton_Some. intros [[= <- <-] <-]. do 3 (split; [done|]). lia.
  - done.
  - intros k k' t. rw !lookup_singleton_Some. intros [<- _] [<- _]. done.
Qed.

(** A new page table. *)
Lemma world_new W leak own held r :
  world_ok W leak own held → own !! r = None → hpage r →
  world_ok (<[r := new_pt r]> W) leak (<[r := Exclusive]> own) (<[r := filled Byte.x00]> held) ∧ W !! r = None.
Proof.
  intros Hw Hn Hp. pose proof Hw as [Hl Hpt Hd Hc].
  assert (∀ r' pt t, W !! r' = Some pt → is_tab pt t → t ≠ r) as Hnt.
  { intros r' pt t Hr' Ht ->. rw (is_tab_own _ _ _ _ _ _ _ Hw Hr' Ht) in Hn. done. }
  assert (W !! r = None) as Hr.
  { destruct (W !! r) as [pt|] eqn:E; [|done]. exfalso. apply (Hnt _ _ r E); [|done]. apply is_tab_spec. exists (2%nat, 0).
    apply (pi_wf _ _ _ _ _ _ _ (Hpt _ _ E)). }
  assert (∀ q, share (<[r := Exclusive]> own) q = share own q) as Hs.
  { intros q. rw /share. destruct (decide (r = q)) as [<-|]; [by rw lookup_insert_eq Hn|by rw lookup_insert_ne]. }
  assert (∀ q, total (<[r := new_pt r]> W) q = total W q) as Ht by (intros q; rw total_insert // refs_new; lia).
  split; [|done]. split; [done|..].
  - intros r' pt. rw lookup_insert_Some. intros [[<- <-]|[Hne Hr']].
    + split; [apply new_pt_wf|apply new_pt_mem; apply lookup_insert_eq| |done..].
      intros q Hq. rw Hs Hc // refs_new /ext_of delete_insert_eq delete_id //.
    + destruct (Hpt _ _ Hr') as [Hwf Hm Hco Hwr Hus]. split; [done|..|done].
      * intros l base t Ht'. destruct (Hm _ _ _ Ht') as [Ho Hb]. pose proof (Hnt _ _ _ Hr' (proj2 (is_tab_spec _ _) (ex_intro _ _ Ht'))) as Htr.
        rw !lookup_insert_ne; [congruence..|]. done.
      * intros q Hq. rw Hs Hco // /ext_of delete_insert_ne; [congruence|]. rw total_insert; [by rw lookup_delete_ne; [congruence|]|]. rw refs_new. lia.
      * intros a w Ha H2 Hq. rw Hs. by apply (Hwr a).
  - intros r1 r2 pt1 pt2 t. rw !lookup_insert_Some. intros [[<- <-]|[Hne1 Hr1]] [[<- <-]|[Hne2 Hr2]] Ht1 Ht2; [done|..].
    + exfalso. apply is_tab_spec in Ht1 as [k Hk]. cbn [new_pt tabs] in Hk. apply lookup_singleton_Some in Hk as [_ <-]. by apply (Hnt _ _ _ Hr2 Ht2).
    + exfalso. apply is_tab_spec in Ht2 as [k Hk]. cbn [new_pt tabs] in Hk. apply lookup_singleton_Some in Hk as [_ <-]. by apply (Hnt _ _ _ Hr1 Ht1).
    + by apply (Hd r1 r2 pt1 pt2 t).
  - intros q Hq. by rw Hs Ht Hc.
Qed.

(** The loads in all page tables, before and after. *)
Definition loads_same (R : gset Z) (P : Z → Z → Prop) (s s' : Pages) : Prop :=
  ∀ r va, r ∈ R → 0 ≤ va < VA_SIZE → P r va → user_load s' r va = user_load s r va.

Lemma try_allocate_vm s W leak own held :
  vm_inv s W leak own held →
  wp try_allocate (λ r s', match r with
    | Ok r => W !! r = None ∧ vm_inv s' (<[r := new_pt r]> W) leak (<[r := Exclusive]> own) (<[r := filled Byte.x00]> held)
    | Err e => e = NoFreePage ∧ vm_inv s' W leak own held
    end) s.
Proof.
  intros [Hv Hw Hx]. eapply wp_mono; [exact (try_allocate_wp hs he own held s Hv)|]. intros [r|e] s' Ha; simpl in Ha.
  - destruct Ha as (Hp & Hn & Hv'). destruct (world_new W leak own held r Hw Hn Hp) as [Hw' Hr]. split; [done|]. split; [done..|].
    intros q [[<- _]|[_ (r' & pt & Hr' & Hq)%Hx]]%lookup_insert_Some.
    + exists r, (new_pt r). split; [apply lookup_insert_eq|]. apply is_tab_spec. exists (2%nat, 0). apply lookup_singleton_eq.
    + exists r', pt. by rw lookup_insert_ne; [congruence|].
  - destruct Ha as (-> & _ & Hv'). done.
Qed.

(** An operation on the table [r] that keeps the data of the entries it keeps. *)
Lemma vm_update s s' W leak own held r pt own' held' pt' (P : Z → Prop) :
  vm_inv s W leak own held → W !! r = Some pt → vm_ok own' held' s' → pt_inv hs he (ext_of W leak r) r own' held' pt' →
  vstep hs he (ext_of W leak r) own held pt own' held' pt' →
  (∀ va, P va → load_of (lvs pt') held' va = load_of (lvs pt) held va) →
  vm_inv s' (<[r := pt']> W) leak own' held' ∧ loads_same (dom W) (λ r' va, r' = r → P va) s s'.
Proof.
  intros Hs Hr Hv' Hi' Hst Hld. pose proof (vi_world _ _ _ _ _ _ _ Hs) as Hw.
  assert (vm_inv s' (<[r := pt']> W) leak own' held') as Hs'.
  { split; [done|by apply (world_step hs he W leak own held r pt)|].
    destruct (excl_update hs he W own held r pt own' held' pt' _ Hr Hst) as [Hn Hk]. intros q [Hq|?]%Hn; [|done]. by apply Hk, Hs. }
  split; [done|]. intros r' va [pt1 Hr1]%elem_of_dom Hva HP. rw (vm_load hs he s W leak own held r' pt1) //. destruct (decide (r' = r)) as [->|Hne].
  - rw (vm_load hs he s' (<[r := pt']> W) leak own' held' r pt') //; [apply lookup_insert_eq|]. assert (pt1 = pt) as -> by congruence. by apply Hld, HP.
  - rw (vm_load hs he s' (<[r := pt']> W) leak own' held' r' pt1) //; [by rw lookup_insert_ne; [congruence|]|].
    exact (load_others hs he W leak own held r pt own' held' pt' r' pt1 va Hw Hr Hst Hr1 Hne).
Qed.

Lemma ext_pos s W leak own held r : vm_inv s W leak own held → ∀ p, 0 ≤ ext_of W leak r p.
Proof. intros Hs p. by apply (ext_of_nonneg hs he W leak own held), Hs. Qed.

(** [map_addrs] of new pages. *)
Lemma map_addrs_vm s W leak own held r pt a size perm :
  vm_inv s W leak own held → W !! r = Some pt → 0 ≤ a → a mod PAGE_SIZE = 0 → 0 ≤ size → size mod PAGE_SIZE = 0 →
  a + size ≤ VA_MAX → 0 ≤ perm < 1024 → intersects perm FRWX = true → (∀ y, a ≤ y < a + size → lvs pt !! y = None) →
  wp (map_addrs r a allocate_new_zeroed size perm) (λ res s', ∃ own' held' pt', vm_inv s' (<[r := pt']> W) leak own' held' ∧
    loads_same (dom W) (λ r' va, r' = r → ¬ a ≤ page_of va < a + size) s s' ∧
    match res with
    | Ok _ => range_mapped hs he own own' held' (lvs pt) (lvs pt') a (a + size) perm Byte.x00
    | Err e => e = NoFreePage ∧ ∃ c, a ≤ c < a + size ∧ range_mapped hs he own own' held' (lvs pt) (lvs pt') a c perm Byte.x00
    end) s.
Proof.
  intros Hs Hr Ha Hal Hsz Hsal Hmax Hperm Hx Hfree. pose proof Hs as [Hv Hw _]. pose proof (wo_pt _ _ _ _ _ _ Hw _ _ Hr) as Hi.
  rw /map_addrs. wp_step. apply wp_assert; [rw /is_page_aligned; lia|]. wp_step. apply wp_assert; [done|]. wp_step.
  apply wp_assert; [lia|]. wp_step. apply wp_assert; [done|]. rw {1}/allocate_new_zeroed. cbn iota. wp_step.
  eapply wp_mono; [exact (map_level_wp hs he _ (ext_pos _ _ _ _ _ r Hs) r own held s pt a true true size perm Hv Hi Ha Hal Hsz Hsal Hmax Hperm Hx (λ _, Hfree))|].
  intros res s' (own' & held' & pt' & Hv' & Hi' & Hg & Hres).
  assert (∃ c, a ≤ c ≤ a + size ∧ range_mapped hs he own own' held' (lvs pt) (lvs pt') a c perm Byte.x00) as (c & Hc & Hrm).
  { destruct res; [exists (a + size); split; [lia|apply Hres]|destruct Hres as (c & Hc & Hrm & _); exists c; split; [lia|done]]. }
  destruct (vm_update s s' W leak own held r pt own' held' pt' (λ va, ¬ a ≤ page_of va < a + size) Hs Hr Hv' Hi' (gr_step _ _ _ _ _ _ _ _ _ Hg)) as [Hs' Hld].
  { intros va Hva. apply (load_of_keep hs he W leak own held r pt); [done..| |].
    - destruct Hrm as [_ Hout]. apply Hout. intros [? _]. lia.
    - intros w _ _ _ Ho. by apply (gr_data _ _ _ _ _ _ _ _ _ Hg _ _ Ho). }
  destruct res as [x|e].
  - wp_step. exists own', held', pt'. split_and!; [done..|apply Hres].
  - exists own', held', pt'. do 2 (split; [done|]). destruct Hres as (c' & Hc' & Hrm' & [->|(w & Hlw & _)]); [by eauto|]. by rw Hfree in Hlw.
Qed.

(** [map_addrs] of one page outside of the heap, as for the trampoline. *)
Lemma map_one_page r a p perm :
  0 ≤ a → a + PAGE_SIZE ≤ VA_MAX → a mod PAGE_SIZE = 0 → p mod PAGE_SIZE = 0 → intersects perm FRWX = true → ∀ Q s,
  wp (_ ←? map_addrs_level r 0 a (FixedAddr p) PAGE_SIZE perm; mret (Ok tt)) Q s → wp (map_addrs r a (FixedAddr p) PAGE_SIZE perm) Q s.
Proof.
  intros Ha Hmax Hal Hp Hx Q s Hsmall. rw /map_addrs. wp_step. apply wp_assert; [rw /is_page_aligned; lia|]. wp_step.
  apply wp_assert; [rw /target_is_page_aligned /is_page_aligned; lia|]. wp_step. apply wp_assert; [done|]. wp_step. apply wp_assert; [done|].
  destruct (negb (a mod level_page_size 1 =? level_offset (FixedAddr p) 1)); [done|]. wp_step.
  change VA_MAX with 274877906944 in Hmax. change PAGE_SIZE with 4096 in *.
  rw (proj2 (va_byte_add_Ok a 4096 (a + 4096) Ha ltac:(done))); [change VA_MAX with 274877906944; lia|]. wp_step.
  assert (level_page_rounddown (a + 4096) 1 = (a + 4096) - (a + 4096) mod 2097152) as E1 by (apply (ldiff_ones (a + 4096) 21); lia).
  assert (level_page_roundup a 1 = (a + 2097151) - (a + 2097151) mod 2097152) as E2.
  { rw /level_page_roundup. change (level_page_size 1) with 2097152. rw wrap_small; [lia|]. replace (a + 2097152 - 1) with (a + 2097151) by lia.
    apply (ldiff_ones (a + 2097151) 21); lia. }
  wp_step. apply (wp_unwrap _ (level_page_roundup a 1)).
  { rw /va_from_addr /va_new E2. change VA_MAX with 274877906944. case: Z.gtb_spec => ?; [Z.div_mod_to_equations; lia|done]. }
  wp_step. apply (wp_unwrap _ (level_page_rounddown (a + 4096) 1)).
  { rw /va_from_addr /va_new E1. change VA_MAX with 274877906944. case: Z.gtb_spec => ?; [Z.div_mod_to_equations; lia|done]. }
  rw E1 E2. case: Z.leb_spec => ?; [done|]. exfalso. Z.div_mod_to_equations. lia.
Qed.

Lemma map_fixed_vm s W leak own held r pt a p perm :
  vm_inv s W leak own held → W !! r = Some pt → 0 ≤ a → a + PAGE_SIZE ≤ VA_MAX → a mod PAGE_SIZE = 0 → lvs pt !! a = None →
  0 ≤ p < 2 ^ 64 - PAGE_SIZE → p mod PAGE_SIZE = 0 → ¬ hpage p → 0 ≤ perm < 1024 → intersects perm FRWX = true → Z.testbit perm 4 = false →
  wp (map_addrs r a (FixedAddr p) PAGE_SIZE perm) (λ res s', ∃ own' held' pt', vm_inv s' (<[r := pt']> W) leak own' held' ∧
    loads_same (dom W) (λ r' va, r' = r → page_of va ≠ a) s s' ∧
    match res with Ok _ => lvs pt' = <[a := leaf_word p perm]> (lvs pt) | Err e => e = NoFreePage ∧ lvs pt' = lvs pt end) s.
Proof.
  intros Hs Hr Ha Hmax Hal Hna Hp Hpal Hnh Hperm Hx H4. pose proof Hs as [Hv Hw _]. pose proof (wo_pt _ _ _ _ _ _ Hw _ _ Hr) as Hi.
  assert (∀ q, hpage q → ext_add p (ext_of W leak r) q = ext_of W leak r q) as Eext by (intros q Hq; rw /ext_add decide_False; [congruence|lia]).
  assert (∀ own' held' pt', pt_inv hs he (ext_add p (ext_of W leak r)) r own' held' pt' ↔ pt_inv hs he (ext_of W leak r) r own' held' pt') as Einv.
  { intros own' held' pt'. split; intros [A1 A2 A3 A4 A5]; split; try done; intros q Hq; rw A3 // Eext //. }
  apply map_one_page; [done..|]. wp_step.
  eapply wp_mono; [apply (map_level_fixed_wp hs he (ext_of W leak r) r own held s pt a p perm Hv); try done; [by apply Einv|congruence]|].
  intros res s' (own' & held' & pt' & Hg & El & Hres).
  pose proof Hg as [[G1 G2 G3 G4 G5 G6] _ Gown Gdata].
  assert (∀ q, hpage q → 0 < ext_of W leak r q → 0 < ext_add p (ext_of W leak r) q) as Hpos by (intros q Hq; by rw Eext).
  assert (∀ q, hpage q → 0 < ext_of W leak r q → ∃ n, own !! q = Some (Shared n)) as Hsh.
  { intros q Hq Hlt. pose proof (pi_count _ _ _ _ _ _ _ Hi q Hq) as Hc. pose proof (pt_refs_nonneg pt q). rw /share in Hc.
    destruct (own !! q) as [[n|]|]; [by exists n|lia..]. }
  destruct res as [x|e].
  - destruct Hres as (t & w & Ht & Hv' & Hi'). wp_step.
    assert (own' !! t = Some Exclusive) as Hot.
    { apply is_tab_spec in Ht as [[l base] Hk]. by destruct (pi_mem _ _ _ _ _ _ _ Hi' l base t Hk). }
    set (pt'' := set_lvs (<[a := leaf_word p perm]> (lvs pt)) pt') in *.
    assert (vstep hs he (ext_of W leak r) own held pt own' (<[t := w]> held') pt'') as Hst.
    { split.
      - intros q Hq Hnt. destruct (G1 q Hq Hnt) as [Ho Hh]. split; [done|]. rw lookup_insert_ne //. intros <-. by apply Hnt, G2.
      - done.
      - intros q Hq Hlt. rw lookup_insert_ne; [|by apply G3, Hpos]. destruct (Hsh q Hq Hlt) as [n Hn]. pose proof (lookup_weaken _ own' _ _ Hn Gown). congruence.
      - intros q Hq Hlt. assert (refs pt'' q = refs (set_lvs (<[a := leaf_word p perm]> (lvs pt)) pt) q) as -> by done.
        pose proof page_pos. rw refs_insert // (leaf_word_addr p perm ltac:(lia) Hpal Hperm). rw decide_False; [congruence|lia].
      - done.
      - done. }
    exists own', (<[t := w]> held'), pt''. rw and_assoc. split; [|done]. apply (vm_update s s' W leak own held r pt); [done..|].
    intros va Hva. apply (load_of_keep hs he W leak own held r pt); [done..|simpl; by rw lookup_insert_ne; [congruence|]|].
    intros w1 _ _ _ Ho1. rw lookup_insert_ne; [|by apply (Gdata _ _ Ho1)]. pose proof (lookup_weaken _ own' _ _ Ho1 Gown). congruence.
  - destruct Hres as (-> & Hv' & Hi'%Einv). exists own', held', pt'. rw and_assoc. split; [|done]. apply (vm_update s s' W leak own held r pt); [done..| |].
    + split; [done..|intros q Hq Hlt; by apply G3, Hpos|intros q Hq Hlt; by apply G4, Hpos|done|done].
    + intros va Hva. apply (load_of_keep hs he W leak own held r pt); [done..|by rw El|]. intros w1 _ _ _ Ho1. by apply (Gdata _ _ Ho1).
Qed.

(** [unmap_addrs]. *)
Lemma unmap_addrs_vm s W leak own held r pt a size :
  vm_inv s W leak own held → W !! r = Some pt → 0 ≤ a → a mod PAGE_SIZE = 0 → 0 < size → a + size ≤ VA_MAX →
  wp (unmap_addrs r a size) (λ res s', res = Ok tt ∧ ∃ own' held',
    vm_inv s' (<[r := set_lvs (cut (lvs pt) a (a + size)) pt]> W) leak own' held' ∧
    loads_same (dom W) (λ r' va, r' = r → ¬ a ≤ page_of va < a + size) s s') s.
Proof.
  intros Hs Hr Ha Hal Hsz Hmax. pose proof Hs as [Hv Hw _]. pose proof (wo_pt _ _ _ _ _ _ Hw _ _ Hr) as Hi.
  rw /unmap_addrs. wp_step. rw (proj2 (va_byte_add_Ok a size (a + size) Ha ltac:(lia))) //. wp_step. wp_step.
  eapply wp_mono; [exact (unmap_range_wp hs he _ (ext_pos _ _ _ _ _ r Hs) r own held s pt a (a + size) Hv Hi ltac:(lia) Hal Hmax)|].
  intros [] s' (own' & held' & Hv' & Hi' & Hsh). wp_step. split; [done|]. exists own', held'.
  apply (vm_update s s' W leak own held r pt own' held' _ (λ va, ¬ a ≤ page_of va < a + size)); [done..|apply Hsh|].
  intros va Hva. assert (cut (lvs pt) a (a + size) !! page_of va = lvs pt !! page_of va) as Ec by (by rw cut_lookup decide_False).
  apply (load_of_keep hs he W leak own held r pt); [done..|]. intros w Hl E4 Hp Ho.
  destruct (leaf_owner hs he _ (ext_pos _ _ _ _ _ r Hs) r own' held' _ (page_of va) w Hi') as (n & Ho' & _); [simpl; by rw Ec|done|].
  by apply (sh_data _ _ _ _ _ _ _ _ _ Hsh _ _ Ho').
Qed.

(** A page fault on a store: [request_user_write]. *)
Lemma request_user_write_vm s W leak own held r pt va w t :
  vm_inv s W leak own held → W !! r = Some pt → lvs pt !! page_of va = Some w → tabs pt !! (0%nat, tb 0 (page_of va)) = Some t →
  wp (request_user_write (entry t (level_idx (page_of va) 0)) 0 va) (λ res s', match res with
    | Ok _ => ∃ own' held' w', vm_inv s' (<[r := set_lvs (<[page_of va := w']> (lvs pt)) pt]> W) leak own' held' ∧
        contains (pte_flags w') PtEntryFlags.UW = true ∧ loads_same (dom W) (λ _ _, True) s s' ∧
        held' !! pte_addr w' = held !! pte_addr w ∧ (contains (pte_flags w) PtEntryFlags.UW = true → w' = w) ∧
        (size own' ≤ if contains (pte_flags w) PtEntryFlags.UW then size own else S (size own))%nat
    | Err e => e = InaccessiblePage va ∧ s' = s ∧ contains (pte_flags w) PtEntryFlags.UW = false ∧ contains (pte_flags w) (Z.lor FU FC) = false ∨
        e = NoFreePage ∧ 2 ≤ share own (pte_addr w) ∧ unowned hs he own = 0
    end) s.
Proof.
  intros Hs Hr Hl Ht. pose proof Hs as [Hv Hw _]. pose proof (wo_pt _ _ _ _ _ _ Hw _ _ Hr) as Hi.
  eapply wp_mono; [exact (request_user_write_wp hs he _ (ext_pos _ _ _ _ _ r Hs) r own held s pt (page_of va) w t va Hv Hi Hl Ht)|].
  intros [x|e] s' Hres; [|destruct Hres as [?|(? & ? & ? & _)]; [by left|by right]].
  destruct Hres as (own' & held' & w' & Hv' & Hi' & Hst & Hcase & Hd & Hsz). exists own', held', w'.
  assert (contains (pte_flags w') PtEntryFlags.UW = true ∧ contains (pte_flags w') PtEntryFlags.UR = contains (pte_flags w) PtEntryFlags.UR ∧
    held' !! pte_addr w' = held !! pte_addr w ∧ (contains (pte_flags w) PtEntryFlags.UW = true → w' = w)) as (Huw & Hur & Hh & Hsame).
  { destruct Hcase as [(E & -> & ->)|(E & E4 & Ef & _ & _ & Hh)]; [done|]. assert (∀ n, 0 ≤ n < 10 → n ≠ 8 → Z.testbit w' n = Z.testbit w n || (n =? 2)) as Hbit.
    { intros n Hn H8. rw -(flags_testbit w' n) // -(flags_testbit w n) // Ef cow_flags_bit; [lia|]. case: (Z.eqb_spec n 8) => ?; [lia|]. by rw andb_true_r. }
    rw !contains_UW !contains_UR in E |- *. rw !Hbit // E4 in E |- *. cbn. split; [apply orb_true_r|]. split; [by rw orb_false_r|]. split; [done|]. simpl in E. by rw E. }
  destruct (vm_update s s' W leak own held r pt own' held' _ (λ _, True) Hs Hr Hv' Hi' Hst) as [Hs' Hld]; [|split_and!; [done..| |done|done|done]].
  - intros va' _. destruct (decide (page_of va' = page_of va)) as [E|Hne].
    + rw /load_of /= E lookup_insert_eq Hl /= Hur Hh. done.
    + apply (load_of_keep hs he W leak own held r pt); [done..|simpl; by rw lookup_insert_ne; [congruence|]|]. intros w1 _ _ _ Ho. by apply (Hd _ _ Ho).
  - intros r' va' Hr' Hva' _. by apply Hld.
Qed.


(** [fetch_chunk_mut]: the rest of the page, which the user can write. *)
Definition fetched s W leak own r pt (va w : Z) (res : result KernelError Chunk) (s' : Pages) : Prop :=
  match res with
  | Ok c => ∃ own' held' w', vm_inv s' (<[r := set_lvs (<[page_of va := w']> (lvs pt)) pt]> W) leak own' held' ∧
      contains (pte_flags w') PtEntryFlags.UW = true ∧ c = rest_of w' va ∧ loads_same (dom W) (λ _ _, True) s s' ∧
      (size own' ≤ if contains (pte_flags w) PtEntryFlags.UW then size own else S (size own))%nat
  | Err e => e = InaccessiblePage va ∧ s' = s ∧ contains (pte_flags w) PtEntryFlags.UW = false ∧ contains (pte_flags w) (Z.lor FU FC) = false ∨
      e = NoFreePage ∧ 2 ≤ share own (pte_addr w) ∧ unowned hs he own = 0
  end.

Lemma fetch_rest s W leak own held r pt va w t w' s' :
  vm_inv s' (<[r := set_lvs (<[page_of va := w']> (lvs pt)) pt]> W) leak own held → contains (pte_flags w') PtEntryFlags.UW = true →
  tabs pt !! (0%nat, tb 0 (page_of va)) = Some t → loads_same (dom W) (λ _ _, True) s s' → ∀ own0,
  (size own ≤ if contains (pte_flags w) PtEntryFlags.UW then size own0 else S (size own0))%nat →
  wp (w ← read_pte (entry t (level_idx (page_of va) 0));
      if negb (contains (pte_flags w) PtEntryFlags.UW) then mret (Err (InaccessiblePage va))
      else page ← unwrap (get_page_bytes w 0); c ← chunk_from page (va mod ck_len page); mret (Ok c)) (fetched s W leak own0 r pt va w) s'.
Proof.
  intros Hs' Huw Ht Hld own0 Hsz. pose proof (wo_pt _ _ _ _ _ _ (vi_world _ _ _ _ _ _ _ Hs') _ _ (lookup_insert_eq W r _)) as Hi'.
  destruct (leaf_bytes hs he _ _ own held s' _ (page_of va) w' t (vi_ok _ _ _ _ _ _ _ Hs') Hi' (lookup_insert_eq _ _ _) Ht) as (_ & _ & b' & Hb' & _ & Hwb' & Hl').
  wp_step. apply (read_pte_wp hs he own held s' t _ b'); [apply Hs'|done|]. rw Hwb' Huw. cbn [negb]. wp_step.
  apply (wp_unwrap _ {| ck_addr := pte_addr w'; ck_len := PAGE_SIZE |}); [by rw /get_page_bytes Hl'|]. wp_step. rw /chunk_from.
  cbn [ck_len ck_addr]. wp_step. apply wp_assert; [pose proof (page_of_range va) as H; rw /page_of in H; apply Z.leb_le; lia|].
  do 2 wp_step. by exists own, held, w'.
Qed.

Lemma fetch_chunk_mut_vm s W leak own held r pt va :
  vm_inv s W leak own held → W !! r = Some pt → 0 ≤ va < VA_SIZE →
  wp (fetch_chunk_mut r va PtEntryFlags.UW) (λ res s', match lvs pt !! page_of va with
    | None => res = Err (VirtualPageNotMapped va) ∧ s' = s
    | Some w => fetched s W leak own r pt va w res s'
    end) s.
Proof.
  intros Hs Hr Hva. pose proof Hs as [Hv Hw _]. pose proof (wo_pt _ _ _ _ _ _ Hw _ _ Hr) as Hi.
  rw /fetch_chunk_mut. wp_step. apply (find_leaf_entry_wp hs he _ r own held s pt va _ Hv Hi Hva).
  destruct (lvs pt !! page_of va) as [w|] eqn:Ew; [|done]. intros t b Ht Hb Hwb Hl.
  cbn [fst snd]. wp_step. apply (read_pte_wp hs he own held s t _ b); [done..|]. rw Hwb (leaf_valid _ Hl) Hl. wp_step. apply wp_assert; [done|]. wp_step.
  destruct (contains (pte_flags w) FC) eqn:EC.
  - eapply wp_mono; [exact (request_user_write_vm s W leak own held r pt va w t Hs Hr Ew Ht)|]. intros [x|e] s' Hres.
    + destruct Hres as (own' & held' & w' & Hs' & Huw & Hld & _ & _ & Hsz). by apply (fetch_rest s W leak own' held' r pt va w t w').
    + destruct Hres as [(-> & -> & Hc & ?)|?]; [by left|by right].
  - wp_step. destruct (contains (pte_flags w) PtEntryFlags.UW) eqn:Euw.
    + apply (fetch_rest s W leak own held r pt va w t w); [|done|done|by intros ? ? ? ?|by rw Euw]. rw (insert_id (lvs pt)) //.
      assert (set_lvs (lvs pt) pt = pt) as -> by by destruct pt. by rw (insert_id W r pt).
    + wp_step. apply (read_pte_wp hs he own held s t _ b); [done..|]. rw Hwb Euw. cbn [negb]. wp_step. left. split_and!; [done..|]. by rw contains_lor EC andb_false_r.
Qed.

(** ** Stores *)

Lemma world_write W leak own held p n b :
  world_ok W leak own held → own !! p = Some (Shared n) → world_ok W leak own (<[p := b]> held).
Proof.
  intros [Hl Hpt Hd Hc] Hp. split; try done. intros r pt Hr. destruct (Hpt _ _ Hr) as [Hwf Hm Hco Hwr Hus]. split; try done.
  intros l base t Ht. destruct (Hm _ _ _ Ht) as [Ho Hb]. split; [done|]. by rw lookup_insert_ne; [congruence|].
Qed.

Lemma splice_lookup (b c : list byte) (off i : nat) :
  (off + length c ≤ length b)%nat → splice off c b !! i = if decide (off ≤ i < off + length c)%nat then c !! (i - off)%nat else b !! i.
Proof.
  intros Hl. rw /splice. case_decide as Hd.
  - rw lookup_app_r length_take; [lia|]. rw Nat.min_l; [lia|]. rw lookup_app_l //. lia.
  - destruct (decide (i < off)%nat).
    + rw lookup_app_l ?length_take; [lia|]. by rw lookup_take_lt.
    + rw lookup_app_r length_take; [lia|]. rw Nat.min_l; [lia|]. rw lookup_app_r; [lia|]. rw lookup_drop. f_equal. lia.
Qed.

(** The bytes a store changes are those of its addresses, in its page table only. *)
Lemma write_chunk_vm s W leak own held r pt va w c :
  vm_inv s W leak own held → W !! r = Some pt → 0 ≤ va < VA_SIZE → lvs pt !! page_of va = Some w → contains (pte_flags w) PtEntryFlags.UW = true →
  va mod PAGE_SIZE + Z.of_nat (length c) ≤ PAGE_SIZE →
  wp (write_chunk (rest_of w va) c) (λ _ s', ∃ held', vm_inv s' W leak own held' ∧
    ∀ r' va', r' ∈ dom W → 0 ≤ va' < VA_SIZE → user_load s' r' va' =
      if decide (r' = r ∧ va ≤ va' < va + Z.of_nat (length c)) then user_load s r' va' ≫= λ _, c !! Z.to_nat (va' - va) else user_load s r' va') s.
Proof.
  intros Hs Hr Hva Hl Huw Hlen. pose proof Hs as [Hv Hw _]. rw contains_UW in Huw. apply andb_prop in Huw as [H4 H2].
  destruct (user_shared hs he W leak own held r pt _ w Hw Hr Hl H4) as [Hp Ho]. set (p := pte_addr w) in *.
  destruct (proj2 (po_held _ _ _ (vo_pages _ _ _ _ _ Hv) p) ltac:(by rw Ho)) as [b Hb]. destruct (vm_memory hs he own held s _ b Hv Hb) as [_ Hlb].
  pose proof (page_of_range va) as Hr1. rw /page_of in Hr1. assert (writable hs he W r (page_of va) p) as Hwa by by exists pt, w.
  rw /write_chunk. cbn [ck_addr ck_len rest_of]. wp_step. apply wp_assert; [lia|]. fold p.
  assert (∃ f, chunk_fuel (Z.of_nat (length c)) = S f) as [f ->].
  { rw /chunk_fuel. exists (Z.to_nat (Z.of_nat (length c) / PAGE_SIZE + 1)). pose proof (Z.div_pos (Z.of_nat (length c)) PAGE_SIZE ltac:(lia) page_pos). lia. }
  eapply wp_mono; [apply (write_phys_wp hs he own held s p (va mod PAGE_SIZE) b c f Hv Hb); [apply Hp|lia..]|].
  intros [] s' Hv'. set (off := Z.to_nat (va mod PAGE_SIZE)) in *. assert (vm_inv s' W leak own (<[p := splice off c b]> held)) as Hs'.
  { split; [done|by apply (world_write _ _ _ _ _ _ _ Hw Ho)|apply Hs]. }
  eexists. split; [exact Hs'|]. intros r' va' Hr' Hva'. destruct (proj1 (elem_of_dom _ _) Hr') as [pt1 Hr1'].
  rw (vm_load _ _ _ _ _ _ _ _ _ _ Hs' Hr1' Hva') (vm_load _ _ _ _ _ _ _ _ _ _ Hs Hr1' Hva'). rw /load_of.
  destruct (lvs pt1 !! page_of va') as [w1|] eqn:Ew1; [|by case_decide]. simpl. destruct (contains (pte_flags w1) PtEntryFlags.UR); [|by case_decide].
  destruct (decide (pte_addr w1 = p)) as [Ep|Hne].
  - destruct (mapped_once hs he W leak own held r (page_of va) p r' (page_of va') pt1 w1 Hw Hwa Hr1' Ew1 Ep) as [-> Epg].
    rw Ep lookup_insert_eq Hb /=. rw splice_lookup; [subst off; rw Hlb; lia|]. rw /page_of in Epg. pose proof (page_of_range va') as Hr2. rw /page_of in Hr2.
    destruct (decide (va ≤ va' < va + Z.of_nat (length c))).
    + rw !decide_True; [subst off; lia|done|]. assert (is_Some (b !! Z.to_nat (va' mod PAGE_SIZE))) as [x ->] by (apply lookup_lt_is_Some; rw Hlb; lia).
      simpl. f_equal. subst off. lia.
    + rw !decide_False //; [subst off; lia|]. by intros [_ ?].
  - rw lookup_insert_ne; [congruence|]. rw decide_False //. intros [-> Hin]. apply Hne. assert (page_of va' = page_of va) as E.
    { rw /page_of. change PAGE_SIZE with 4096 in *. Z.div_mod_to_equations. lia. }
    rw E in Ew1. assert (pt1 = pt) as -> by congruence. subst p. congruence.
Qed.

(** ** Fork *)

Lemma share_word_UR w : contains (pte_flags (share_word w)) PtEntryFlags.UR = contains (pte_flags w) PtEntryFlags.UR.
Proof. rw !contains_UR !share_word_bit //. by rw !andb_true_r. Qed.
Lemma child_word_bit w n : 0 < n < 10 → n ≠ 8 → Z.testbit (child_word w) n = Z.testbit w n && negb (n =? 2).
Proof.
  intros Hn H8. destruct (pte_addr_bound w) as [Hb Ha]. rw /child_word (leaf_word_bit _ _ (flags_range _)); [lia|].
  rw flags_testbit; [lia|]. apply share_word_bit; lia.
Qed.
Lemma child_word_UR w : contains (pte_flags (child_word w)) PtEntryFlags.UR = contains (pte_flags w) PtEntryFlags.UR.
Proof. rw !contains_UR !child_word_bit //. by rw !andb_true_r. Qed.

(** The loads after the pages of a range have been shared: the child's are the parent's. *)
Lemma cloned_loads s s' W leak r1 r2 pt1 pt2 own held a z z' leak' own' held' pt1' pt2' :
  vm_inv s W leak own held → r1 ≠ r2 → W !! r1 = Some pt1 → W !! r2 = Some pt2 → vm_ok own' held' s' →
  cloned hs he W leak r1 r2 pt1 pt2 own held a z z' leak' own' held' pt1' pt2' →
  vm_inv s' (<[r1 := pt1']> (<[r2 := pt2']> W)) leak' own' held' ∧
  loads_same (dom W) (λ r va, r = r1 → ¬ a ≤ page_of va < z) s s' ∧
  ∀ va, 0 ≤ va < VA_SIZE → a ≤ page_of va < z → user_load s' r1 va = user_load s r2 va.
Proof.
  intros Hs Hne Hr1 Hr2 Hv' [Hw' _ _ Hch Hpa Hd [Hxn Hxk]]. pose proof Hs as [Hv Hw _].
  set (W' := <[r1 := pt1']> (<[r2 := pt2']> W)) in *. assert (vm_inv s' W' leak' own' held') as Hs'.
  { split; [done..|]. intros q [Hq|?]%Hxn; [|done]. by apply Hxk, Hs. }
  assert (W' !! r1 = Some pt1') as Hr1' by apply lookup_insert_eq.
  assert (W' !! r2 = Some pt2') as Hr2' by (subst W'; rw lookup_insert_ne // lookup_insert_eq //).
  assert (∀ w, Z.testbit w 4 = true → ∀ va r pt, W !! r = Some pt → lvs pt !! page_of va = Some w → held' !! pte_addr w = held !! pte_addr w) as Hdata.
  { intros w H4 va r pt Hr Hl. destruct (user_shared hs he W leak own held r pt _ w Hw Hr Hl H4) as [_ Ho]. by apply (Hd _ _ Ho). }
  split; [done|]. split.
  - intros r va [pt Hr]%elem_of_dom Hva HP. rw (vm_load _ _ _ _ _ _ _ _ _ _ Hs Hr Hva). destruct (decide (r = r1)) as [->|Hn1]; [|destruct (decide (r = r2)) as [->|Hn2]].
    + assert (pt = pt1) as -> by congruence. rw (vm_load _ _ _ _ _ _ _ _ _ _ Hs' Hr1' Hva).
      apply (load_of_keep hs he W leak own held r1 pt1); [done..| |intros w Hl H4 _ _; by apply (Hdata w H4 va r1 pt1)].
      rw Hch /over decide_False //. by apply HP.
    + assert (pt = pt2) as -> by congruence. rw (vm_load _ _ _ _ _ _ _ _ _ _ Hs' Hr2' Hva). rw /load_of Hpa /over.
      destruct (lvs pt2 !! page_of va) as [w|] eqn:Ew; [|by case_decide].
      assert (if contains (pte_flags w) PtEntryFlags.UR then held' !! pte_addr w = held !! pte_addr w else True) as Hh.
      { destruct (contains (pte_flags w) PtEntryFlags.UR) eqn:EU; [|done]. rw contains_UR in EU. apply andb_prop in EU as [H4 _]. by apply (Hdata w H4 va r2 pt2). }
      case_decide; simpl; rw ?share_word_UR ?share_word_addr; destruct (contains (pte_flags w) PtEntryFlags.UR); rw ?Hh //.
    + assert (W' !! r = Some pt) as Hr' by (subst W'; rw !lookup_insert_ne; [congruence..|done]). rw (vm_load _ _ _ _ _ _ _ _ _ _ Hs' Hr' Hva).
      apply (load_of_keep hs he W leak own held r pt); [done..|intros w Hl H4 _ _; by apply (Hdata w H4 va r pt)].
  - intros va Hva Hin. rw (vm_load _ _ _ _ _ _ _ _ _ _ Hs' Hr1' Hva) (vm_load _ _ _ _ _ _ _ _ _ _ Hs Hr2 Hva). rw /load_of Hch /over decide_True //.
    destruct (lvs pt2 !! page_of va) as [w|] eqn:Ew; [|done]. cbn [fmap option_fmap option_map mbind option_bind]. rw child_word_UR child_word_addr. destruct (contains (pte_flags w) PtEntryFlags.UR) eqn:EU; [|done].
    rw contains_UR in EU. apply andb_prop in EU as [H4 _]. by rw (Hdata w H4 va r2 pt2 Hr2 Ew).
Qed.

(** ** The destructor *)

Lemma table_drop_vm s W leak own held r pt :
  vm_inv s W leak own held → W !! r = Some pt →
  wp (table_drop r) (λ _ s', ∃ own' held', vm_inv s' (delete r W) leak own' held' ∧ loads_same (dom W) (λ r' _, r' ≠ r) s s' ∧
    freed (is_tab pt) (λ p, if decide (hpage p) then refs pt p else 0) r own held own' held') s.
Proof.
  intros Hs Hr. pose proof Hs as [Hv Hw _]. pose proof (wo_pt _ _ _ _ _ _ Hw _ _ Hr) as Hi. pose proof Hw as [Hl Hpt Hd Hc].
  eapply wp_mono; [exact (table_drop_wp hs he r pt (pi_wf _ _ _ _ _ _ _ Hi) _ own held s (ext_pos _ _ _ _ _ r Hs) Hv Hi)|].
  intros [] s' (own' & held' & Hv' & Hf). exists own', held'. pose proof Hf as [A1 A2 A3 A4 A5 A6].
  assert (∀ p, hpage p → share own' p = share own p - refs pt p) as Hsh by (intros p Hp; by rw A5 decide_True).
  assert (∀ r' pt' t, r' ≠ r → W !! r' = Some pt' → is_tab pt' t → own' !! t = Some Exclusive ∧ held' !! t = held !! t) as Htab.
  { intros r' pt' t Hne Hr' Ht. assert (¬ is_tab pt t) as Hnt by (intros Ht'; by apply Hne, (Hd r' r pt' pt t)).
    destruct (A3 t Hnt (is_tab_own _ _ _ _ _ _ _ Hw Hr' Ht)) as [Ho Hh]. split; [done|]. apply Hh. intros ->. apply Hnt, is_tab_spec.
    exists (2%nat, 0). apply (pi_wf _ _ _ _ _ _ _ Hi). }
  assert (∀ p, total W p = refs pt p + total (delete r W) p) as Htot by (intros p; by apply total_delete).
  assert (vm_inv s' (delete r W) leak own' held') as Hs'.
  { split; [done| |].
    2: { intros q Hq. destruct (vi_tabs _ _ _ _ _ _ _ Hs q (A4 q Hq)) as (r' & pt' & Hr' & Ht). exists r', pt'. split; [|done]. rw lookup_delete_ne; [|done].
         intros <-. assert (pt' = pt) as -> by congruence. rw A1 // in Hq. }
    split; [done|..].
    - intros r' pt' [Hne Hr']%lookup_delete_Some. destruct (Hpt _ _ Hr') as [Hwf Hm Hco Hwr Hus].
      assert (∀ p, ext_of W leak r' p = refs pt p + ext_of (delete r W) leak r' p) as Hext.
      { intros p. assert (delete r' W !! r = Some pt) as Hdr by (by rw lookup_delete_ne; [congruence|]). pose proof (total_delete (delete r' W) r pt p Hdr) as E. rw delete_delete in E. rw /ext_of. lia. }
      split; [done|..|done].
      + intros l base t Ht. destruct (Htab r' pt' t) as [-> ->]; [congruence|done|apply is_tab_spec; by exists (l, base)|]. split; [done|]. by apply (Hm l base t).
      + intros p Hp. rw Hsh // Hco // Hext. lia.
      + intros a w Ha H2 Hp. rw Hsh // (Hwr _ _ Ha H2 Hp). destruct (writable_once hs he W leak own held r' a (pte_addr w) Hw) as [H1 _]; [by exists pt', w|].
        rw (Htot (pte_addr w)) in H1. pose proof (total_refs (delete r W) r' pt' (pte_addr w) (proj2 (lookup_delete_Some _ _ _ _) (conj Hne Hr'))).
        pose proof (pt_refs_pos _ _ _ Ha). pose proof (pt_refs_nonneg pt (pte_addr w)). lia.
    - intros r1 r2 pt1 pt2 t [_ H1]%lookup_delete_Some [_ H2]%lookup_delete_Some. by apply (Hd r1 r2 pt1 pt2 t).
    - intros p Hp. rw Hsh // Hc // Htot. lia. }
  split; [done|]. split; [|done]. intros r' va [pt' Hr']%elem_of_dom Hva Hne.
  assert (delete r W !! r' = Some pt') as Hr'' by (by rw lookup_delete_ne; [congruence|]).
  rw (vm_load _ _ _ _ _ _ _ _ _ _ Hs' Hr'' Hva) (vm_load _ _ _ _ _ _ _ _ _ _ Hs Hr' Hva).
  apply (load_of_keep hs he W leak own held r' pt'); [done..|]. intros w Hlw H4 Hp _.
  destruct (user_shared hs he _ leak own' held' r' pt' _ w (vi_world _ _ _ _ _ _ _ Hs') Hr'' Hlw H4) as [_ Ho']. by apply (A6 _ _ Ho').
Qed.
End ops.
