(* ===== verification/VmSystem.v ===== *)
(** * The virtual memory system

    The page tables of a running system are changed by the operations of the kernel only;
    what holds in every state they lead to, and what each of them does. *)

From S2P Require Import Prelude KError Pod SysTypes Addr PageAlloc Pages Pte PteSpec PageTable PtSpec PtMap PtIter PtUnmap PtCow PtFixed VmWorld VmFork PtWalk PtDrop VmView VmOps.

(** A store of the kernel to the memory of a user, within a page. *)
Definition store_chunk (r va : Z) (b : list byte) : M Pages (result KernelError unit) :=
  c ←? fetch_chunk_mut r va PtEntryFlags.UW;
  write_chunk c b;;
  mret (Ok tt).

(** What a run of an operation did to the accounting of the pages. A [clone_pages_from] that runs out of memory leaks a reference.
    A copy on write that runs out of memory gives up the reference of an entry that stays in place. *)
Inductive vm_event := Done | CloneFailed | CopyFailed.
Definition clone_event (res : result KernelError unit) : vm_event := match res with Err NoFreePage => CloneFailed | _ => Done end.
Definition copy_event (res : result KernelError unit) : vm_event := match res with Err NoFreePage => CopyFailed | _ => Done end.

(** The operations on the page tables [R], with every result they can have. The callers map and clone to addresses that are not
    mapped, map fixed addresses, outside of the heap, for the kernel only, and a page has fewer than 2^31 owners. *)
Inductive vm_step : gset Z * Pages → vm_event → gset Z * Pages → Prop :=
  | vm_new R s r s' : try_allocate s = Ret (Ok r) s' → vm_step (R, s) Done ({[r]} ∪ R, s')
  | vm_new_fails R s e s' : try_allocate s = Ret (Err e) s' → vm_step (R, s) Done (R, s')
  | vm_map R s r a size perm res s' :
      r ∈ R → 0 ≤ a → a mod PAGE_SIZE = 0 → 0 ≤ size → size mod PAGE_SIZE = 0 → a + size ≤ VA_MAX → 0 ≤ perm < 1024 →
      intersects perm FRWX = true → (∀ y, a ≤ y < a + size → translate s r y = None) →
      map_addrs r a allocate_new_zeroed size perm s = Ret res s' → vm_step (R, s) Done (R, s')
  | vm_map_fixed R s r a p perm res s' :
      r ∈ R → 0 ≤ a → a mod PAGE_SIZE = 0 → a + PAGE_SIZE ≤ VA_MAX → 0 ≤ p < 2 ^ 64 - PAGE_SIZE → p mod PAGE_SIZE = 0 →
      ¬ heap_frame (pg_frames s) p → 0 ≤ perm < 1024 → intersects perm FRWX = true → Z.testbit perm 4 = false → translate s r a = None →
      map_addrs r a (FixedAddr p) PAGE_SIZE perm s = Ret res s' → vm_step (R, s) Done (R, s')
  | vm_unmap R s r a size res s' :
      r ∈ R → 0 ≤ a → a mod PAGE_SIZE = 0 → 0 < size → a + size ≤ VA_MAX →
      unmap_addrs r a size s = Ret res s' → vm_step (R, s) Done (R, s')
  | vm_clone R s r1 r2 a c res s' :
      r1 ∈ R → r2 ∈ R → r1 ≠ r2 → 0 ≤ a < c → c ≤ VA_MAX → a mod PAGE_SIZE = 0 →
      (∀ y, a ≤ y < c → translate s r1 y = None) →
      (∀ y w, a ≤ y < c → translate s r2 y = Some w → Z.testbit w 4 = true →
         Z.testbit w 1 || Z.testbit w 3 = true ∧ ∀ n s1, ref_count (pte_addr w) s = Ret n s1 → n < 2 ^ 31) →
      clone_pages_from r1 r2 (Range a c) FU s = Ret res s' → vm_step (R, s) (clone_event res) (R, s')
  | vm_fault R s r va res s' :
      r ∈ R → 0 ≤ va < VA_SIZE → table_request_user_write r va s = Ret res s' → vm_step (R, s) (copy_event res) (R, s')
  | vm_store R s r va b res s' :
      r ∈ R → 0 ≤ va < VA_SIZE → va mod PAGE_SIZE + Z.of_nat (length b) ≤ PAGE_SIZE →
      store_chunk r va b s = Ret res s' → vm_step (R, s) (copy_event res) (R, s')
  | vm_drop R s r s' : r ∈ R → table_drop r s = Ret tt s' → vm_step (R, s) Done (R ∖ {[r]}, s').

(** The states after [PageManager::new]. *)
Definition vm_boot (s : Pages) : Prop :=
  ∃ start stop s0, 0 < start ≤ stop ∧ stop ≤ 2 ^ 56 ∧ page_roundup start < page_rounddown stop ∧
    (∀ p, start ≤ p < stop → p mod PAGE_SIZE = 0 → ∃ b, memory (pg_frames s0) !! p = Some b ∧ length b = Z.to_nat PAGE_SIZE) ∧
    manager_new start stop s0 = Ret tt s.
(** The page tables and the state after the events [evs]. *)
Inductive vm_run : list vm_event → gset Z → Pages → Prop :=
  | vm_run_boot s : vm_boot s → vm_run [] ∅ s
  | vm_run_step evs R s ev R' s' : vm_run evs R s → vm_step (R, s) ev (R', s') → vm_run (evs ++ [ev]) R' s'.
(** The states that are reached without a failed copy on write; unless [leaky], without a failed clone either. *)
Definition vm_reachable (leaky : bool) (R : gset Z) (s : Pages) : Prop :=
  ∃ evs, vm_run evs R s ∧ CopyFailed ∉ evs ∧ (leaky = false → CloneFailed ∉ evs).

(** ** The invariant *)

Definition vm_good (leaky : bool) (R : gset Z) (s : Pages) : Prop :=
  ∃ hs he W leak own held, vm_inv hs he s W leak own held ∧ dom W = R ∧ (leaky = false → ∀ p, leak p = 0).

Lemma vm_boot_good leaky s : vm_boot s → vm_good leaky ∅ s.
Proof.
  intros (start & stop & s0 & H1 & H2 & H3 & H4 & E). pose proof (manager_new_wp start stop s0 H1 H2 H3 H4) as Hwp.
  apply (wp_ret_inv _ _ _ _ _ Hwp) in E as [Hok _]. exists (heap_start (pg_frames s)), (heap_end (pg_frames s)), ∅, (λ _, 0), ∅, ∅.
  split; [|split; [by rw dom_empty_L|done]]. by split; [split|split|].
Qed.

Section good.
Context (hs he : Z).
Implicit Types (s : Pages) (own : gmap Z Owner) (held : Contents) (pt : PT) (W : World) (leak : Z → Z).
Abbreviation vm_inv := (vm_inv hs he).

Lemma va_size_max : VA_MAX < VA_SIZE.
Proof. done. Qed.

(** What the translations say about the entries. *)
Lemma entry_translate s W leak own held r pt y w :
  vm_inv s W leak own held → W !! r = Some pt → lvs pt !! y = Some w → 0 ≤ y < VA_SIZE ∧ page_of y = y ∧ translate s r y = Some w.
Proof.
  intros Hs Hr Hl. destruct (pw_lvs _ _ (pi_wf _ _ _ _ _ _ _ (wo_pt _ _ _ _ _ _ (vi_world _ _ _ _ _ _ _ Hs) _ _ Hr)) _ _ Hl) as (Hy & Hal & _).
  pose proof (page_of_id y Hal) as E. split; [done|]. split; [done|]. by rw (vm_translate _ _ _ _ _ _ _ _ _ _ Hs Hr Hy) E.
Qed.
Lemma translate_entry s W leak own held r pt va w :
  vm_inv s W leak own held → W !! r = Some pt → 0 ≤ va < VA_SIZE → translate s r va = Some w → lvs pt !! page_of va = Some w.
Proof. intros Hs Hr Hva Ht. by rw (vm_translate _ _ _ _ _ _ _ _ _ _ Hs Hr Hva) in Ht. Qed.
Lemma free_range s W leak own held r pt a c :
  vm_inv s W leak own held → W !! r = Some pt → (∀ y, a ≤ y < c → translate s r y = None) → ∀ y, a ≤ y < c → lvs pt !! y = None.
Proof.
  intros Hs Hr Hf y Hy. destruct (lvs pt !! y) as [w|] eqn:E; [|done]. destruct (entry_translate _ _ _ _ _ _ _ _ _ Hs Hr E) as (_ & _ & Ht). by rw Hf in Ht.
Qed.

(** The counter of a user page. *)
Lemma count_bound s W leak own held r pt y w m :
  vm_inv s W leak own held → W !! r = Some pt → lvs pt !! y = Some w → Z.testbit w 4 = true →
  (∀ n s1, ref_count (pte_addr w) s = Ret n s1 → n < m) → total W (pte_addr w) + leak (pte_addr w) < m.
Proof.
  intros [Hv Hw _] Hr Hl H4 Hn. destruct (user_shared hs he W leak own held r pt y w Hw Hr Hl H4) as [_ Ho].
  destruct (wp_run _ _ _ (vm_ref_count hs he own held s _ _ Hv Ho)) as (n & s1 & E & -> & ->). by apply (Hn _ _ E).
Qed.

(** The page fault handler. *)
Lemma table_request_vm s W leak own held r pt va :
  vm_inv s W leak own held → W !! r = Some pt → 0 ≤ va < VA_SIZE →
  wp (table_request_user_write r va) (λ res s', match lvs pt !! page_of va with
    | None => res = Err (VirtualPageNotMapped va) ∧ s' = s
    | Some w =>
      match res with
      | Ok _ => ∃ own' held' w', vm_inv s' (<[r := set_lvs (<[page_of va := w']> (lvs pt)) pt]> W) leak own' held' ∧
          contains (pte_flags w') PtEntryFlags.UW = true ∧ loads_same (dom W) (λ _ _, True) s s'
      | Err e => e = InaccessiblePage va ∧ s' = s ∧ contains (pte_flags w) PtEntryFlags.UW = false ∧ contains (pte_flags w) (Z.lor FU FC) = false ∨
          e = NoFreePage ∧ 2 ≤ share own (pte_addr w) ∧ unowned hs he own = 0
      end
    end) s.
Proof.
  intros Hs Hr Hva. pose proof Hs as [Hv Hw _]. pose proof (wo_pt _ _ _ _ _ _ Hw _ _ Hr) as Hi.
  rw /table_request_user_write. wp_step. apply (find_leaf_entry_wp hs he _ r own held s pt va _ Hv Hi Hva).
  destruct (lvs pt !! page_of va) as [w|] eqn:Ew; [|done]. intros t b Ht Hb Hwb Hl. cbn [fst snd]. wp_step.
  eapply wp_mono; [exact (request_user_write_vm hs he s W leak own held r pt va w t Hs Hr Ew Ht)|]. intros [x|e] s' Hres; [|done].
  destruct Hres as (own' & held' & w' & Hs' & Huw & Hld & _).
  pose proof (wo_pt _ _ _ _ _ _ (vi_world _ _ _ _ _ _ _ Hs') _ _ (lookup_insert_eq W r _)) as Hi'.
  destruct (leaf_bytes hs he _ _ own' held' s' _ (page_of va) w' t (vi_ok _ _ _ _ _ _ _ Hs') Hi' (lookup_insert_eq _ _ _) Ht) as (_ & _ & b' & Hb' & _ & Hwb' & Hl').
  wp_step. apply (read_pte_wp hs he own' held' s' t _ b'); [apply Hs'|done|]. rw Hwb'. wp_step. apply wp_assert.
  - rw contains_UW in Huw. apply andb_prop in Huw as [_ H2]. rw (contains_bit _ 2) // flags_testbit //.
  - wp_step. by exists own', held', w'.
Qed.

(** A store. *)
Lemma store_chunk_vm s W leak own held r pt va b :
  vm_inv s W leak own held → W !! r = Some pt → 0 ≤ va < VA_SIZE → va mod PAGE_SIZE + Z.of_nat (length b) ≤ PAGE_SIZE →
  wp (store_chunk r va b) (λ res s', match lvs pt !! page_of va with
    | None => res = Err (VirtualPageNotMapped va) ∧ s' = s
    | Some w =>
      match res with
      | Ok _ => ∃ own' held' pt', vm_inv s' (<[r := pt']> W) leak own' held' ∧
          ∀ r' va', r' ∈ dom W → 0 ≤ va' < VA_SIZE → user_load s' r' va' =
            if decide (r' = r ∧ va ≤ va' < va + Z.of_nat (length b)) then user_load s r' va' ≫= λ _, b !! Z.to_nat (va' - va) else user_load s r' va'
      | Err e => e = InaccessiblePage va ∧ s' = s ∧ contains (pte_flags w) PtEntryFlags.UW = false ∧ contains (pte_flags w) (Z.lor FU FC) = false ∨
          e = NoFreePage ∧ 2 ≤ share own (pte_addr w) ∧ unowned hs he own = 0
      end
    end) s.
Proof.
  intros Hs Hr Hva Hlen. rw /store_chunk. wp_step. eapply wp_mono; [exact (fetch_chunk_mut_vm hs he s W leak own held r pt va Hs Hr Hva)|].
  intros [c|e] s1; destruct (lvs pt !! page_of va) as [w|] eqn:Ew; [|by intros [[=] _]|exact (λ H, H)|by intros [[= ->] ->]].
  intros (own1 & held1 & w' & Hs1 & Huw & -> & Hld & _). set (pt1 := set_lvs (<[page_of va := w']> (lvs pt)) pt) in *. wp_step.
  eapply wp_mono; [apply (write_chunk_vm hs he s1 _ leak own1 held1 r pt1 va w' b Hs1 (lookup_insert_eq _ _ _) Hva (lookup_insert_eq _ _ _) Huw Hlen)|].
  intros [] s2 (held2 & Hs2 & Hl2). wp_step. exists own1, held2, pt1. split; [done|]. intros r' va' Hr' Hva'.
  rw Hl2 //; [rw dom_insert_lookup_L //|]. rw Hld //.
Qed.

(** Sharing the pages of a range. *)
Definition can_share s r1 r2 a c : Prop :=
  (∀ y, a ≤ y < c → translate s r1 y = None) ∧
  (∀ y w, a ≤ y < c → translate s r2 y = Some w → Z.testbit w 4 = true →
     Z.testbit w 1 || Z.testbit w 3 = true ∧ ∀ n s1, ref_count (pte_addr w) s = Ret n s1 → n < 2 ^ 31).

Lemma clone_vm s W leak own held r1 r2 pt1 pt2 a c :
  vm_inv s W leak own held → W !! r1 = Some pt1 → W !! r2 = Some pt2 → r1 ≠ r2 → 0 ≤ a < c → c ≤ VA_MAX → a mod PAGE_SIZE = 0 → can_share s r1 r2 a c →
  wp (clone_pages_from r1 r2 (Range a c) FU) (λ res s', ∃ z leak' own' held' pt1' pt2',
    vm_inv s' (<[r1 := pt1']> (<[r2 := pt2']> W)) leak' own' held' ∧ a ≤ z ≤ c ∧
    loads_same (dom W) (λ r va, r = r1 → ¬ a ≤ page_of va < z) s s' ∧
    (∀ va, 0 ≤ va < VA_SIZE → a ≤ page_of va < z → user_load s' r1 va = user_load s r2 va) ∧
    (res ≠ Err NoFreePage → ∀ p, leak' p = leak p) ∧
    match res with
    | Ok _ => z = c ∧ ∀ y w, a ≤ y < c → lvs pt1' !! y = Some w ∨ lvs pt2' !! y = Some w → Z.testbit w 2 = false
    | Err e => e = NoFreePage ∨ ∃ y w, a ≤ y < c ∧ e = InaccessiblePage y ∧ translate s r2 y = Some w ∧ Z.testbit w 4 = false
    end) s.
Proof.
  intros Hs Hr1 Hr2 Hne Hac Hmax Hal [Hf Hu]. pose proof Hs as [Hv Hw _].
  eapply wp_mono; [apply (clone_pages_from_wp hs he W leak own held s r1 r2 pt1 pt2 a c Hv Hw Hne Hr1 Hr2 Hac Hmax Hal)|].
  - intros y w Hy Hl H4. destruct (entry_translate _ _ _ _ _ _ _ _ _ Hs Hr2 Hl) as (_ & _ & Ht). by apply (Hu y w).
  - exact (free_range _ _ _ _ _ _ _ _ _ Hs Hr1 Hf).
  - intros y w Hy Hl H4. destruct (entry_translate _ _ _ _ _ _ _ _ _ Hs Hr2 Hl) as (_ & _ & Ht). destruct (Hu y w Hy Ht H4) as [_ Hn].
    pose proof (count_bound _ _ _ _ _ _ _ _ _ _ Hs Hr2 Hl H4 Hn). change U32MAX with 4294967295. lia.
  - intros res s' (z & z' & leak' & own' & held' & pt1' & pt2' & Hv' & Hcl & Hz & Hz' & Hres). exists z, leak', own', held', pt1', pt2'.
    destruct (cloned_loads hs he s s' W leak r1 r2 pt1 pt2 own held a z z' leak' own' held' pt1' pt2' Hs Hne Hr1 Hr2 Hv' Hcl) as (Hs' & Hld & Hch).
    do 2 (split; [done || lia|]). do 2 (split; [done|]). split; [destruct res; naive_solver|]. destruct res as [x|e].
    + destruct Hres as (-> & _). assert (z' = c) as -> by lia. split; [done|]. destruct Hcl as [_ _ _ Hc1 Hc2 _].
      intros y w Hy Hyw. rw Hc1 Hc2 /over !decide_True // in Hyw. destruct (lvs pt2 !! y) as [w2|] eqn:E2; [|by destruct Hyw as [[=]|[=]]].
      destruct Hyw as [[= <-]|[= <-]]; [rw child_word_bit //|rw share_word_bit //]; by destruct (Z.testbit w2 2).
    + destruct Hres as (Hzc & [->|(-> & -> & _ & w & Hl & H4)]); [by left|]. right. exists z, w. destruct (entry_translate _ _ _ _ _ _ _ _ _ Hs Hr2 Hl) as (_ & _ & Ht).
      split; [lia|done].
Qed.
End good.

Lemma vm_step_good leaky R s ev R' s' : vm_good leaky R s → vm_step (R, s) ev (R', s') → ev ≠ CopyFailed → (leaky = false → ev ≠ CloneFailed) → vm_good leaky R' s'.
Proof.
  intros (hs & he & W & leak & own & held & Hs & Hdom & Hlk) Hst Hcopy Hclone.
  assert (∀ r, r ∈ R → ∃ pt, W !! r = Some pt) as Hin by (intros r Hr; rw -Hdom in Hr; by apply elem_of_dom in Hr).
  assert (∀ r pt pt', W !! r = Some pt → dom (<[r := pt']> W) = R) as Hup by (intros r pt pt' Hr; by rw dom_insert_lookup_L).
  inversion Hst as [? ? r ? E|? ? e ? E|? ? r a size perm res ? Hr Ha Hal Hsz Hsal Hmax Hperm Hx Hf E|? ? r a p perm res ? Hr Ha Hal Hmax Hp Hpal Hnh Hperm Hx H4 Hf E|
    ? ? r a size res ? Hr Ha Hal Hsz Hmax E|? ? r1 r2 a c res ? Hr1 Hr2 Hne Hac Hmax Hal Hf Hu E|? ? r va res ? Hr Hva E|? ? r va b res ? Hr Hva Hlen E|? ? r ? Hr E]; subst; try (destruct (Hin _ Hr) as [pt Hpt]).
  - pose proof (wp_ret_inv _ _ _ _ _ (try_allocate_vm hs he s W leak own held Hs) E) as [Hnew Hs']. eexists hs, he, _, leak, _, _. split; [exact Hs'|]. split; [by rw dom_insert_L|done].
  - pose proof (wp_ret_inv _ _ _ _ _ (try_allocate_vm hs he s W leak own held Hs) E) as [_ Hs']. by exists hs, he, W, leak, own, held.
  - pose proof (free_range hs he _ _ _ _ _ _ _ _ _ Hs Hpt Hf) as Hf'.
    pose proof (wp_ret_inv _ _ _ _ _ (map_addrs_vm hs he s W leak own held r pt a size perm Hs Hpt Ha Hal Hsz Hsal Hmax Hperm Hx Hf') E) as (own' & held' & pt' & Hs' & _).
    exists hs, he, (<[r := pt']> W), leak, own', held'. split; [done|]. split; [by apply (Hup r pt)|done].
  - assert (lvs pt !! a = None) as Hf'.
    { destruct (lvs pt !! a) as [w|] eqn:El; [|done]. destruct (entry_translate hs he _ _ _ _ _ _ _ _ _ Hs Hpt El) as (_ & _ & Ht). congruence. }
    assert (¬ hpage hs he p) as Hnh' by (intros Hh; apply Hnh; by apply (vm_frame hs he own held s p (vi_ok _ _ _ _ _ _ _ Hs))).
    pose proof (wp_ret_inv _ _ _ _ _ (map_fixed_vm hs he s W leak own held r pt a p perm Hs Hpt Ha Hmax Hal Hf' Hp Hpal Hnh' Hperm Hx H4) E) as (own' & held' & pt' & Hs' & _).
    exists hs, he, (<[r := pt']> W), leak, own', held'. split; [done|]. split; [by apply (Hup r pt)|done].
  - pose proof (wp_ret_inv _ _ _ _ _ (unmap_addrs_vm hs he s W leak own held r pt a size Hs Hpt Ha Hal Hsz Hmax) E) as (_ & own' & held' & Hs' & _).
    eexists hs, he, _, leak, own', held'. split; [exact Hs'|]. split; [by apply (Hup r pt)|done].
  - destruct (Hin _ Hr1) as [pt1 Hp1], (Hin _ Hr2) as [pt2 Hp2].
    pose proof (wp_ret_inv _ _ _ _ _ (clone_vm hs he s W leak own held r1 r2 pt1 pt2 a c Hs Hp1 Hp2 Hne Hac Hmax Hal (conj Hf Hu)) E) as (z & leak' & own' & held' & pt1' & pt2' & Hs' & _ & _ & _ & Hlk' & _).
    eexists hs, he, _, leak', own', held'. split; [exact Hs'|]. assert (<[r2 := pt2']> W !! r1 = Some pt1) as Hp1' by (by rw lookup_insert_ne; [congruence|]).
    split; [|intros Hf0 p; rw Hlk' ?Hlk //; intros ->; by destruct (Hclone Hf0)]. rw (dom_insert_lookup_L (<[r2 := pt2']> W) r1); [by rw Hp1'|]. by apply (Hup r2 pt2).
  - pose proof (wp_ret_inv _ _ _ _ _ (table_request_vm hs he s W leak own held r pt va Hs Hpt Hva) E) as Hr'. destruct (lvs pt !! page_of va) as [w|].
    + destruct res as [x|e]; [destruct Hr' as (own' & held' & w' & Hs' & _)|destruct Hr' as [(_ & -> & _)|[-> _]]; [by exists hs, he, W, leak, own, held|by destruct Hcopy]].
      eexists hs, he, _, leak, own', held'. split; [exact Hs'|]. split; [by apply (Hup r pt)|done].
    + destruct Hr' as [_ ->]. by exists hs, he, W, leak, own, held.
  - pose proof (wp_ret_inv _ _ _ _ _ (store_chunk_vm hs he s W leak own held r pt va b Hs Hpt Hva Hlen) E) as Hr'. destruct (lvs pt !! page_of va) as [w|].
    + destruct res as [x|e]; [destruct Hr' as (own' & held' & pt' & Hs' & _)|destruct Hr' as [(_ & -> & _)|[-> _]]; [by exists hs, he, W, leak, own, held|by destruct Hcopy]].
      eexists hs, he, _, leak, own', held'. split; [exact Hs'|]. split; [by apply (Hup r pt)|done].
    + destruct Hr' as [_ ->]. by exists hs, he, W, leak, own, held.
  - pose proof (wp_ret_inv _ _ _ _ _ (table_drop_vm hs he s W leak own held r pt Hs Hpt) E) as (own' & held' & Hs' & _).
    exists hs, he, (delete r W), leak, own', held'. split; [done|]. split; [by rw dom_delete_L|done].
Qed.

Lemma vm_reachable_good leaky R s : vm_reachable leaky R s → vm_good leaky R s.
Proof.
  intros (evs & Hrun & Hcopy & Hclone). induction Hrun as [s Hb|evs R s ev R' s' Hrun IH Hst]; [by apply vm_boot_good|].
  apply (vm_step_good leaky R s ev R' s'); [apply IH|done| |]; set_solver.
Qed.
Lemma vm_reachable_step leaky R s R' s' : vm_reachable leaky R s → vm_step (R, s) Done (R', s') → vm_reachable leaky R' s'.
Proof.
  intros (evs & Hrun & Hcopy & Hclone) Hst. exists (evs ++ [Done]). split; [exact (vm_run_step _ _ _ _ _ _ Hrun Hst)|]. set_solver.
Qed.
