(* ===== verification/VmClaims.v ===== *)
(** * Properties of virtual memory *)

From S2P Require Import Prelude KError Pod SysTypes Addr PageAlloc Pages Pte PteSpec PageTable PtSpec PtMap PtIter PtUnmap PtCow PtFixed VmWorld VmFork PtWalk PtDrop VmView VmOps VmSystem.

(** The entry of a page that can be written is the only one. *)
Lemma writable_share hs he s W leak own held r pt a w :
  vm_inv hs he s W leak own held → W !! r = Some pt → lvs pt !! a = Some w → contains (pte_flags w) PtEntryFlags.UW = true → share own (pte_addr w) = 1.
Proof.
  intros [Hv Hw _] Hr Hl Huw. rw contains_UW in Huw. apply andb_prop in Huw as [H4 H2]. pose proof (wo_pt _ _ _ _ _ _ Hw _ _ Hr) as Hi.
  apply (pi_write _ _ _ _ _ _ _ Hi _ _ Hl H2). by apply (pi_user _ _ _ _ _ _ _ Hi _ _ Hl).
Qed.
Lemma page_in_range a size va : a mod PAGE_SIZE = 0 → size mod PAGE_SIZE = 0 → a ≤ page_of va < a + size ↔ a ≤ va < a + size.
Proof. rw /page_of. change PAGE_SIZE with 4096. intros Ha Hs. Z.div_mod_to_equations. lia. Qed.

(** What user code sees of new pages. *)
Lemma mapped_loads hs he s W leak own0 own held r pt m a c perm va :
  vm_inv hs he s W leak own held → W !! r = Some pt → 0 ≤ perm < 1024 → a mod PAGE_SIZE = 0 → c mod PAGE_SIZE = 0 → 0 ≤ va < VA_SIZE → a ≤ va < c →
  (∀ y, a ≤ y < c → m !! y = None) → range_mapped hs he own0 own held m (lvs pt) a c perm Byte.x00 →
  user_writable s r va = contains perm PtEntryFlags.UW ∧ user_load s r va = if contains perm PtEntryFlags.UR then Some Byte.x00 else None.
Proof.
  intros Hs Hpt Hperm Hal Hcal Hvs Hva Hf [Hin _]. assert (a ≤ page_of va < c) as Hpg.
  { pose proof (page_in_range a (c - a) va Hal ltac:(by rw Zminus_mod Hal Hcal)) as E. lia. }
  specialize (Hin (page_of va) Hpg (page_of_aligned va)). rw (Hf _ Hpg) in Hin. destruct Hin as (p & Hp & _ & _ & Hh & Hl).
  pose proof (vm_bounds hs he own held s p (vi_ok _ _ _ _ _ _ _ Hs) Hp) as Hpb. destruct Hp as [Hp Hpal].
  rw /user_writable (vm_translate _ _ _ _ _ _ _ _ _ _ Hs Hpt Hvs) (vm_load _ _ _ _ _ _ _ _ _ _ Hs Hpt Hvs). rw /load_of Hl. cbn [mbind option_bind].
  rw contains_UW contains_UR !leaf_word_bit // leaf_word_addr //; [lia|]. rw Hh. rw /PtEntryFlags.UW /PtEntryFlags.UR !contains_lor !contains_bit //.
  split; [done|]. destruct (Z.testbit perm 4 && Z.testbit perm 1); [|done]. cbn [mbind option_bind]. rw /filled. apply lookup_replicate_2.
  pose proof (Z.mod_pos_bound va PAGE_SIZE page_pos). lia.
Qed.

(** The states are those of [vm_reachable]: they are reached from the boot by operations on page tables of which no copy on write has
    run out of memory. One that does gives up the reference of an entry that stays in place, and what follows is not isolated any more
    ([VmExample.failed_copy_breaks_isolation]). *)
Section claims.
Context (leaky : bool) (R : gset Z) (s : Pages) (Hreach : vm_reachable leaky R s).

Lemma roots : ∃ hs he W leak own held, vm_inv hs he s W leak own held ∧ dom W = R ∧ ∀ r, r ∈ R → ∃ pt, W !! r = Some pt.
Proof.
  destruct (vm_reachable_good _ _ _ Hreach) as (hs & he & W & leak & own & held & Hs & Hdom & _). exists hs, he, W, leak, own, held. split_and!; [done..|].
  intros r Hr. rw -Hdom in Hr. by apply elem_of_dom in Hr.
Qed.

(** C1: a page that user code can write through an entry of a page table is mapped by this
    entry only, in all page tables, as long as no copy on write has run out of memory and the
    operations are called as [vm_step] says. *)
Theorem writable_pages_are_private r r' va va' w w' :
  r ∈ R → r' ∈ R → 0 ≤ va < VA_SIZE → 0 ≤ va' < VA_SIZE → translate s r va = Some w → translate s r' va' = Some w' →
  contains (pte_flags w) PtEntryFlags.UW = true → pte_addr w' = pte_addr w → r' = r ∧ page_of va' = page_of va.
Proof.
  destruct roots as (hs & he & W & leak & own & held & Hs & _ & Hin). intros Hr Hr' Hva Hva' Ht Ht' Huw E.
  destruct (Hin _ Hr) as [pt Hpt], (Hin _ Hr') as [pt' Hpt']. rw contains_UW in Huw. apply andb_prop in Huw as [H4 H2].
  pose proof (translate_entry _ _ _ _ _ _ _ _ _ _ _ Hs Hpt Hva Ht) as Hl. pose proof (translate_entry _ _ _ _ _ _ _ _ _ _ _ Hs Hpt' Hva' Ht') as Hl'.
  destruct (user_shared hs he W leak own held r pt _ w (vi_world _ _ _ _ _ _ _ Hs) Hpt Hl H4) as [Hp _].
  apply (mapped_once hs he W leak own held r (page_of va) (pte_addr w) r' (page_of va') pt' w'); [apply Hs|by exists pt, w|done..].
Qed.

(** C2: as long as no copy on write has run out of memory, a store to the memory of a user never
    panics; it changes the bytes at its addresses in its own page table and none else, in no page
    table, and fails only where the page is not mapped, cannot be written, or is shared while no
    page is free for the copy. *)
Theorem stores_are_isolated r va b :
  r ∈ R → 0 ≤ va < VA_SIZE → va mod PAGE_SIZE + Z.of_nat (length b) ≤ PAGE_SIZE →
  wp (store_chunk r va b) (λ res s', match res with
    | Ok _ => ∀ r' va', r' ∈ R → 0 ≤ va' < VA_SIZE → user_load s' r' va' =
        if decide (r' = r ∧ va ≤ va' < va + Z.of_nat (length b)) then user_load s r' va' ≫= λ _, b !! Z.to_nat (va' - va) else user_load s r' va'
    | Err e => e = VirtualPageNotMapped va ∧ s' = s ∧ translate s r va = None ∨
        e = InaccessiblePage va ∧ s' = s ∧ user_writable s r va = false ∨
        e = NoFreePage ∧ user_writable s r va = false ∧ free_pages (pg_frames s) = 0
    end) s.
Proof.
  destruct roots as (hs & he & W & leak & own & held & Hs & Hdom & Hin). intros Hr Hva Hlen. destruct (Hin _ Hr) as [pt Hpt].
  eapply wp_mono; [exact (store_chunk_vm hs he s W leak own held r pt va b Hs Hpt Hva Hlen)|]. intros res s'. simpl.
  rw /user_writable (vm_translate _ _ _ _ _ _ _ _ _ _ Hs Hpt Hva) Hdom. destruct (lvs pt !! page_of va) as [w|] eqn:Ew; [|intros [-> ->]; by left].
  destruct res as [x|e]; [by intros (_ & _ & _ & _ & Hl)|]. intros [(-> & -> & ? & _)|(-> & ? & Hfree)]; right; [by left|right]. rw (vm_unowned hs he own held s (vi_ok _ _ _ _ _ _ _ Hs)). split; [done|]. split; [|done].
  destruct (contains (pte_flags w) PtEntryFlags.UW) eqn:Huw; [exfalso|done]. pose proof (writable_share hs he s W leak own held r pt (page_of va) w Hs Hpt Ew Huw). lia.
Qed.

(** [map_addrs] never panics on addresses that are not mapped; it maps zeroed pages at
    all of them with the permissions asked for, unless the memory is used up, and changes
    nothing that user code loads from other addresses or with other page tables. *)
Theorem map_gives_zeroed_pages r a size perm :
  r ∈ R → 0 ≤ a → a mod PAGE_SIZE = 0 → 0 ≤ size → size mod PAGE_SIZE = 0 → a + size ≤ VA_MAX → 0 ≤ perm < 1024 →
  intersects perm FRWX = true → (∀ y, a ≤ y < a + size → translate s r y = None) →
  wp (map_addrs r a allocate_new_zeroed size perm) (λ res s',
    (∀ r' va, r' ∈ R → 0 ≤ va < VA_SIZE → (r' = r → ¬ a ≤ va < a + size) → user_load s' r' va = user_load s r' va) ∧
    match res with
    | Ok _ => ∀ va, a ≤ va < a + size → user_writable s' r va = contains perm PtEntryFlags.UW ∧
        user_load s' r va = if contains perm PtEntryFlags.UR then Some Byte.x00 else None
    | Err e => e = NoFreePage
    end) s.
Proof.
  destruct roots as (hs & he & W & leak & own & held & Hs & Hdom & Hin). intros Hr Ha Hal Hsz Hsal Hmax Hperm Hx Hf. destruct (Hin _ Hr) as [pt Hpt].
  eapply wp_mono; [exact (map_addrs_vm hs he s W leak own held r pt a size perm Hs Hpt Ha Hal Hsz Hsal Hmax Hperm Hx (free_range _ _ _ _ _ _ _ _ _ _ _ Hs Hpt Hf))|].
  intros res s' (own' & held' & pt' & Hs' & Hld & Hres). split.
  - intros r' va Hr' Hva Hn. rw -Hdom in Hr'. apply Hld; [done..|]. intros ->. rw page_in_range //. by apply Hn.
  - destruct res as [x|e]; [|by destruct Hres]. intros va Hva. pose proof va_size_max. assert (0 ≤ va < VA_SIZE) as Hvs by lia.
    exact (mapped_loads hs he s' _ leak own own' held' r pt' (lvs pt) a (a + size) perm va Hs' (lookup_insert_eq _ _ _) Hperm Hal
      ltac:(by rw Zplus_mod Hal Hsal) Hvs Hva (free_range _ _ _ _ _ _ _ _ _ _ _ Hs Hpt Hf) Hres).
Qed.

(** [unmap_addrs] never panics and never fails; nothing is mapped at its addresses
    afterwards, and user code loads the same from all other addresses and with all other page
    tables. *)
Theorem unmap_removes_pages r a size :
  r ∈ R → 0 ≤ a → a mod PAGE_SIZE = 0 → 0 < size → size mod PAGE_SIZE = 0 → a + size ≤ VA_MAX →
  wp (unmap_addrs r a size) (λ res s', res = Ok tt ∧
    (∀ va, a ≤ va < a + size → translate s' r va = None) ∧
    (∀ va, 0 ≤ va < VA_SIZE → ¬ a ≤ va < a + size → translate s' r va = translate s r va) ∧
    (∀ r' va, r' ∈ R → 0 ≤ va < VA_SIZE → (r' = r → ¬ a ≤ va < a + size) → user_load s' r' va = user_load s r' va)) s.
Proof.
  destruct roots as (hs & he & W & leak & own & held & Hs & Hdom & Hin). intros Hr Ha Hal Hsz Hsal Hmax. destruct (Hin _ Hr) as [pt Hpt].
  eapply wp_mono; [exact (unmap_addrs_vm hs he s W leak own held r pt a size Hs Hpt Ha Hal Hsz Hmax)|].
  intros res s' (-> & own' & held' & Hs' & Hld). split; [done|]. pose proof (lookup_insert_eq W r (set_lvs (cut (lvs pt) a (a + size)) pt)) as Hpt'.
  pose proof va_size_max. split; [|split].
  - intros va Hva. rw (vm_translate _ _ _ _ _ _ _ _ _ _ Hs' Hpt'); [lia|]. simpl. rw cut_lookup decide_True //. by apply page_in_range.
  - intros va Hva Hn. rw (vm_translate _ _ _ _ _ _ _ _ _ _ Hs' Hpt' Hva) (vm_translate _ _ _ _ _ _ _ _ _ _ Hs Hpt Hva). simpl. rw cut_lookup decide_False //.
    by rw page_in_range.
  - intros r' va Hr' Hva Hn. rw -Hdom in Hr'. apply Hld; [done..|]. intros ->. rw page_in_range //. by apply Hn.
Qed.

(** C19: sharing the pages of a range with a page table that has none there never panics;
    afterwards both page tables load the same bytes from the range as the first did before,
    neither can write to them, and all other loads are the same.  When the memory is used
    up, a part of the range is shared. *)
Theorem clone_shares_pages r1 r2 a c :
  r1 ∈ R → r2 ∈ R → r1 ≠ r2 → 0 ≤ a < c → c ≤ VA_MAX → a mod PAGE_SIZE = 0 → can_share s r1 r2 a c →
  wp (clone_pages_from r1 r2 (Range a c) FU) (λ res s', ∃ z, a ≤ z ≤ c ∧
    (∀ va, 0 ≤ va < VA_SIZE → a ≤ page_of va < z → user_load s' r1 va = user_load s r2 va) ∧
    (∀ r va, r ∈ R → 0 ≤ va < VA_SIZE → (r = r1 → ¬ a ≤ page_of va < z) → user_load s' r va = user_load s r va) ∧
    match res with
    | Ok _ => z = c ∧ ∀ va, a ≤ page_of va < c → user_writable s' r1 va = false ∧ user_writable s' r2 va = false
    | Err e => e = NoFreePage ∨ ∃ y w, a ≤ y < c ∧ e = InaccessiblePage y ∧ translate s r2 y = Some w ∧ contains (pte_flags w) FU = false
    end) s.
Proof.
  destruct roots as (hs & he & W & leak & own & held & Hs & Hdom & Hin). intros Hr1 Hr2 Hne Hac Hmax Hal Hsh. destruct (Hin _ Hr1) as [pt1 Hp1], (Hin _ Hr2) as [pt2 Hp2].
  eapply wp_mono; [exact (clone_vm hs he s W leak own held r1 r2 pt1 pt2 a c Hs Hp1 Hp2 Hne Hac Hmax Hal Hsh)|].
  intros res s' (z & leak' & own' & held' & pt1' & pt2' & Hs' & Hz & Hld & Hch & _ & Hres). exists z. split; [done|]. split; [done|]. split.
  - intros r va Hr Hva Hn. rw -Hdom in Hr. by apply Hld.
  - destruct res as [x|e].
    + destruct Hres as [-> Hw2]. split; [done|]. intros va Hva. pose proof va_size_max. change VA_MAX with 274877906944 in *. change VA_SIZE with 549755813888 in *.
      assert (0 ≤ va < 549755813888) as Hvs by (pose proof (page_of_range va); change PAGE_SIZE with 4096 in *; lia).
      set (W' := <[r1 := pt1']> (<[r2 := pt2']> W)) in *. assert (W' !! r1 = Some pt1') as H1 by apply lookup_insert_eq.
      assert (W' !! r2 = Some pt2') as H2 by (subst W'; rw lookup_insert_ne // lookup_insert_eq //).
      rw /user_writable (vm_translate _ _ _ _ _ _ _ _ _ _ Hs' H1 Hvs) (vm_translate _ _ _ _ _ _ _ _ _ _ Hs' H2 Hvs).
      assert (∀ w, lvs pt1' !! page_of va = Some w ∨ lvs pt2' !! page_of va = Some w → contains (pte_flags w) PtEntryFlags.UW = false) as Hno.
      { intros w Hw. rw contains_UW (Hw2 (page_of va) w Hva Hw). apply andb_false_r. }
      split; case_match; try done; apply Hno; auto.
    + destruct Hres as [->|(y & w & Hy & -> & Ht & H4)]; [by left|]. right. exists y, w. split_and!; [lia..|done|done|]. rw (contains_bit _ 4) // flags_testbit //.
Qed.

(** C18: as long as no copy on write has run out of memory, the page fault handler never panics;
    when it succeeds, user code can write to the page and loads the same as before everywhere; it
    fails for pages that are not mapped, for those that cannot be written, and for shared ones when
    no page is free for the copy. *)
Theorem fault_gives_write_access r va :
  r ∈ R → 0 ≤ va < VA_SIZE →
  wp (table_request_user_write r va) (λ res s', match res with
    | Ok _ => user_writable s' r va = true ∧ ∀ r' va', r' ∈ R → 0 ≤ va' < VA_SIZE → user_load s' r' va' = user_load s r' va'
    | Err e => e = VirtualPageNotMapped va ∧ s' = s ∧ translate s r va = None ∨
        e = InaccessiblePage va ∧ s' = s ∧ user_writable s r va = false ∨
        e = NoFreePage ∧ user_writable s r va = false ∧ free_pages (pg_frames s) = 0
    end) s.
Proof.
  destruct roots as (hs & he & W & leak & own & held & Hs & Hdom & Hin). intros Hr Hva. destruct (Hin _ Hr) as [pt Hpt].
  eapply wp_mono; [exact (table_request_vm hs he s W leak own held r pt va Hs Hpt Hva)|]. intros res s'. simpl.
  rw /user_writable (vm_translate _ _ _ _ _ _ _ _ _ _ Hs Hpt Hva). destruct (lvs pt !! page_of va) as [w|] eqn:Ew; [|intros [-> ->]; by left].
  destruct res as [x|e].
  - intros (own' & held' & w' & Hs' & Huw & Hld). rw (vm_translate _ _ _ _ _ _ _ _ _ _ Hs' (lookup_insert_eq _ _ _) Hva). simpl. rw lookup_insert_eq. split; [done|].
    intros r' va' Hr'. rw -Hdom in Hr'. intros Hva'. by apply Hld.
  - intros [(-> & -> & ? & _)|(-> & H2 & Hfree)]; right; [by left|right]. rw (vm_unowned hs he own held s (vi_ok _ _ _ _ _ _ _ Hs)). split; [done|]. split; [|done].
    destruct (contains (pte_flags w) PtEntryFlags.UW) eqn:Huw; [exfalso|done]. pose proof (writable_share hs he s W leak own held r pt (page_of va) w Hs Hpt Ew Huw). lia.
Qed.

(** dropping a page table never panics, and user code loads the same with all others. *)
Theorem drop_keeps_others r :
  r ∈ R → wp (table_drop r) (λ _ s', vm_reachable leaky (R ∖ {[r]}) s' ∧ ∀ r' va, r' ∈ R → 0 ≤ va < VA_SIZE → r' ≠ r → user_load s' r' va = user_load s r' va) s.
Proof.
  destruct roots as (hs & he & W & leak & own & held & Hs & Hdom & Hin). intros Hr. destruct (Hin _ Hr) as [pt Hpt].
  pose proof (table_drop_vm hs he s W leak own held r pt Hs Hpt) as Hwp. apply wp_run in Hwp as ([] & s' & E & own' & held' & Hs' & Hld & _).
  apply (wp_of_run _ _ _ _ _ E). split.
  - apply (vm_reachable_step leaky R s); [done|]. by apply (vm_drop R s r).
  - intros r' va Hr' Hva Hne. rw -Hdom in Hr'. by apply Hld.
Qed.
End claims.

(** C20: once every page table has been dropped, all pages are free, provided that no copy on
    write and no sharing of an address space has run out of memory. *)
Theorem dropped_pages_are_free s :
  vm_reachable false ∅ s → free_pages (pg_frames s) = total_pages (pg_frames s).
Proof.
  intros Hr. destruct (vm_reachable_good _ _ _ Hr) as (hs & he & W & leak & own & held & Hs & Hdom%dom_empty_inv_L & Hlk). subst W. pose proof Hs as [Hv Hw Hx].
  assert (own = ∅) as ->.
  { apply map_empty. intros p. destruct (own !! p) as [[n|]|] eqn:E; [exfalso|exfalso|done].
    - pose proof (wo_count _ _ _ _ _ _ Hw p (vm_owned _ _ _ _ _ _ _ Hv E)) as Hc. rw total_empty Hlk // /share E in Hc.
      pose proof (ro_wf _ _ (po_refs _ _ _ (vo_pages _ _ _ _ _ Hv)) _ _ E) as Hn. simpl in Hn. lia.
    - by destruct (Hx p E) as (r & pt & Hr' & _). }
  rw (owners_count _ _ _ (vo_pages _ _ _ _ _ Hv)) map_size_empty. lia.
Qed.
