(* ===== verification/VmUser.v ===== *)
(** * User address spaces

    Model of [crates/kernel/ov6_kernel/src/memory/vm_user.rs] and of the layout of user
    memory in [memory/layout.rs].  A method on [&mut self] returns the new value of the
    structure with its result. *)

From S2P Require Import Prelude KError Pod SysTypes Addr PageAlloc Pages Pte PageTable.

(** ** Layout *)

Definition USER_STACK_PAGES : Z := 2.
Definition USER_STACK_SIZE : Z := USER_STACK_PAGES * PAGE_SIZE.
Definition USER_STACK_TOP_ADDR : Z := 0x002000000000.
Definition USER_STACK_BOTTOM : Z := USER_STACK_TOP_ADDR - USER_STACK_SIZE.
Definition USYSCALL : Z := 0x2FFFFFF000.
Definition USYSCALL_SIZE : Z := PAGE_SIZE.
Definition TRAMPOLINE_SIZE : Z := PAGE_SIZE.
Definition TRAMPOLINE : Z := VA_MAX - TRAMPOLINE_SIZE.
Definition TRAPFRAME_SIZE : Z := PAGE_SIZE.
Definition TRAPFRAME : Z := TRAMPOLINE - TRAPFRAME_SIZE.

(** ** [UserPageTable] *)

Record UserPageTable := {
  up_pt : Z;
  up_heap_start : Z;
  up_heap_size : Z;
  up_stack_start : Z;
  up_stack_size : Z;
}.
Definition with_heap_size (n : Z) (u : UserPageTable) : UserPageTable :=
  {| up_pt := up_pt u; up_heap_start := up_heap_start u; up_heap_size := n; up_stack_start := up_stack_start u;
     up_stack_size := up_stack_size u |}.
Definition set_heap_start (va : Z) (u : UserPageTable) : UserPageTable :=
  {| up_pt := up_pt u; up_heap_start := va; up_heap_size := up_heap_size u; up_stack_start := up_stack_start u;
     up_stack_size := up_stack_size u |}.

Definition program_break (u : UserPageTable) : M Pages Z := unwrap_ok (va_byte_add (up_heap_start u) (up_heap_size u)).
Definition stack_top (u : UserPageTable) : M Pages Z := unwrap_ok (va_byte_add (up_stack_start u) (up_stack_size u)).

Definition alloc_stack (u : UserPageTable) : M Pages (result KernelError unit) :=
  map_addrs (up_pt u) (up_stack_start u) allocate_new_zeroed (up_stack_size u) PtEntryFlags.URW.

(** [USyscallData] is the process id. *)
Definition SIZE_USYSCALL_DATA : Z := 4.
Definition alloc_usyscall (pt pid : Z) : M Pages (result KernelError unit) :=
  _ ←? map_addrs pt USYSCALL allocate_new_zeroed USYSCALL_SIZE PtEntryFlags.UR;
  c ←? fetch_chunk_mut pt USYSCALL FU;
  assert_ (SIZE_USYSCALL_DATA <=? ck_len c);;
  write_chunk c (pto pod_u32 pid);;
  mret (Ok tt).

(** The page table of a [UserPageTable] that is given up on an error is dropped. *)
Definition or_drop (pt : Z) (m : M Pages (result KernelError unit)) : M Pages (result KernelError unit) :=
  r ← m;
  match r with
  | Ok _ => mret (Ok tt)
  | Err e => table_drop pt;; mret (Err e)
  end.
(** [UserPageTable::new]; [trampoline] is the address of the trampoline in the kernel. *)
Definition user_new (trampoline pid : Z) : M Pages (result KernelError UserPageTable) :=
  pt ←? try_allocate;
  _ ←? or_drop pt (
    _ ←? alloc_usyscall pt pid;
    _ ←? map_addrs pt TRAMPOLINE (FixedAddr trampoline) TRAMPOLINE_SIZE PtEntryFlags.RX;
    map_addrs pt TRAPFRAME allocate_new_zeroed TRAPFRAME_SIZE PtEntryFlags.RW);
  mret (Ok {| up_pt := pt; up_heap_start := MIN_AVA; up_heap_size := 0; up_stack_start := USER_STACK_BOTTOM;
              up_stack_size := USER_STACK_SIZE |}).

(** ** The heap *)

Definition shrink_heap_to_size (u : UserPageTable) (new_size : Z) : M Pages UserPageTable :=
  if up_heap_size u <=? new_size then mret u
  else
    (if page_roundup new_size <? page_roundup (up_heap_size u) then
       let size := page_roundup (up_heap_size u) - page_roundup new_size in
       va ← unwrap_ok (va_byte_add (up_heap_start u) new_size);
       start_va ← unwrap (va_from_addr (page_roundup va));
       r ← unmap_addrs (up_pt u) start_va size;
       unwrap_ok r
     else mret tt);;
    mret (with_heap_size new_size u).

Definition grow_heap_to_size (u : UserPageTable) (new_size xperm : Z) :
    M Pages (result KernelError unit * UserPageTable) :=
  if new_size <? up_heap_size u then mret (Ok tt, u)
  else
    let old_size := up_heap_size u in
    let u := with_heap_size new_size u in
    va ← unwrap_ok (va_byte_add (up_heap_start u) old_size);
    map_start ← unwrap (va_from_addr (page_roundup va));
    match va_byte_add (up_heap_start u) new_size with
    | Err e => mret (Err e, u)
    | Ok map_end =>
        if map_start <? map_end then
          map_stop ← unwrap (va_from_addr (page_roundup map_end));
          map_size ← unwrap (checked_sub map_stop map_start);
          r ← map_addrs (up_pt u) map_start allocate_new_zeroed map_size xperm;
          match r with
          | Ok _ => mret (Ok tt, u)
          | Err e => u ← shrink_heap_to_size u old_size; mret (Err e, u)
          end
        else mret (Ok tt, u)
    end.

Definition grow_heap_by (u : UserPageTable) (increment xperm : Z) : M Pages (result KernelError unit * UserPageTable) :=
  match checked_add (up_heap_size u) increment with
  | None => mret (Err HeapSizeOverflow, u)
  | Some new_size => grow_heap_to_size u new_size xperm
  end.
Definition shrink_heap_by (u : UserPageTable) (decrement : Z) : M Pages (result KernelError unit * UserPageTable) :=
  match checked_sub (up_heap_size u) decrement with
  | None => mret (Err HeapSizeUnderflow, u)
  | Some new_size => u ← shrink_heap_to_size u new_size; mret (Ok tt, u)
  end.

(** ** Fork *)

(** [clone_from]: the pages below the heap, the stack and the heap of [other]. *)
Definition clone_from (u other : UserPageTable) : M Pages (result KernelError unit * UserPageTable) :=
  r ← clone_pages_from (up_pt u) (up_pt other) (Range MIN_AVA (up_heap_start other)) FU;
  match r with
  | Err e => mret (Err e, u)
  | Ok _ =>
      top ← stack_top other;
      r ← clone_pages_from (up_pt u) (up_pt other) (Range (up_stack_start other) top) FU;
      match r with
      | Err e => mret (Err e, u)
      | Ok _ =>
          let u := {| up_pt := up_pt u; up_heap_start := up_heap_start u; up_heap_size := up_heap_size u;
                      up_stack_start := up_stack_start other; up_stack_size := up_stack_size other |} in
          match va_byte_add (up_heap_start other) (up_heap_size other) with
          | Err e => mret (Err e, u)
          | Ok heap_end =>
              r ← clone_pages_from (up_pt u) (up_pt other) (Range (up_heap_start other) heap_end) FU;
              match r with
              | Err e => mret (Err e, u)
              | Ok _ =>
                  mret (Ok tt, {| up_pt := up_pt u; up_heap_start := up_heap_start other; up_heap_size := up_heap_size other;
                                  up_stack_start := up_stack_start u; up_stack_size := up_stack_size u |})
              end
          end
      end
  end.

(** ** Copying *)

#[export] Instance layout_u8 : Layout (int U8) := {| size_of := 1; align_of := 1 |}.
Abbreviation bytes_mut := (UserMutSlice (int U8)).
Abbreviation bytes_ref := (UserSlice (int U8)).

Definition validate_user_read (u : UserPageTable) (range : Z * Z) : M Pages (result KernelError unit) :=
  validate (up_pt u) (Range range.1 range.2) PtEntryFlags.UR.
Definition validate_user_write (u : UserPageTable) (range : Z * Z) : M Pages (result KernelError unit) :=
  validate (up_pt u) (Range range.1 range.2) PtEntryFlags.UW.
(** [Validate] for slices. *)
Definition validate_slice {T} `{Layout T} (s : UserSlice T) (u : UserPageTable) : M Pages (result KernelError (UserSlice T)) :=
  range ←? mret (slice_va_range s);
  _ ←? validate_user_read u range;
  mret (Ok s).
Definition validate_mut_slice {T} `{Layout T} (s : UserMutSlice T) (u : UserPageTable) :
    M Pages (result KernelError (UserMutSlice T)) :=
  range ←? mret (mut_slice_va_range s);
  _ ←? validate_user_write u range;
  mret (Ok s).

Definition k2u_step (pt dst_end : Z) (st : Z * list byte) : M Pages (Z * list byte + Z) :=
  let '(dst_start, src) := st in
  if dst_start <? dst_end then
    r ← fetch_chunk_mut pt dst_start PtEntryFlags.UW;
    dst_chunk ← unwrap_ok r;
    let n := Z.min (Z.of_nat (length src)) (ck_len dst_chunk) in
    write_chunk dst_chunk (take (Z.to_nat n) src);;
    dst_start ← unwrap_ok (va_byte_add dst_start n);
    mret (inl (dst_start, drop (Z.to_nat n) src))
  else mret (inr dst_start).
Definition copy_k2u_bytes (u : UserPageTable) (dst : bytes_mut) (src : list byte) : M Pages unit :=
  assert_ (ival (ums_len dst) =? Z.of_nat (length src));;
  range ← unwrap_ok (mut_slice_va_range dst);
  dst_start ← while_ FUEL (k2u_step (up_pt u) range.2) (range.1, src);
  assert_ (dst_start =? range.2).

(** [copy_u2k_bytes]: [n] bytes are left, [dst] are the bytes so far. *)
Definition u2k_step (pt src_end : Z) (st : Z * Z * list byte) : M Pages (Z * Z * list byte + Z * list byte) :=
  let '(src_start, rest, dst) := st in
  if src_start <? src_end then
    r ← fetch_chunk pt src_start PtEntryFlags.UR;
    src_chunk ← unwrap_ok r;
    let n := Z.min rest (ck_len src_chunk) in
    b ← read_chunk src_chunk n;
    src_start ← unwrap_ok (va_byte_add src_start n);
    mret (inl (src_start, rest - n, dst ++ b))
  else mret (inr (src_start, dst)).
Definition copy_u2k_bytes (u : UserPageTable) (len : Z) (src : bytes_ref) : M Pages (list byte) :=
  assert_ (ival (us_len src) =? len);;
  range ← unwrap_ok (slice_va_range src);
  r ← while_ FUEL (u2k_step (up_pt u) range.2) (range.1, len, []);
  assert_ (r.1 =? range.2);;
  mret r.2.

(** [copy_k2u] and [copy_u2k] of a plain value. *)
Definition copy_k2u {A T} `{Layout T} (p : pod A) (u : UserPageTable) (dst : UserMutRef T) (src : A) : M Pages unit :=
  copy_k2u_bytes u (as_bytes_mut dst) (pto p src).
Definition copy_u2k {A T} `{Layout T} (p : pod A) (u : UserPageTable) (src : UserRef T) : M Pages A :=
  b ← copy_u2k_bytes u (size_of T) (as_bytes src);
  mret (pof p b).

(** [copy_u2u_bytes]: the chunks that are left of the current pages. *)
Record U2U := {
  uu_dst_start : Z;
  uu_dst_bytes : Chunk;
  uu_src_start : Z;
  uu_src_bytes : Chunk;
  uu_total_copied : Z;
}.
Definition empty_chunk : Chunk := {| ck_addr := 0; ck_len := 0 |}.
Definition chunk_take (c : Chunk) (n : Z) : Chunk :=
  if ck_len c >? n then {| ck_addr := ck_addr c; ck_len := n |} else c.
(** The next chunk, when the current one is used up: [fetch] gives the rest of a page. *)
Definition next_chunk (fetch : Z → M Pages (result KernelError Chunk)) (start stop : Z) (c : Chunk) : M Pages (Z * Chunk) :=
  if ck_len c =? 0 then
    assert_ (start <? stop);;
    let rest_len := stop - start in
    r ← fetch start;
    c ← unwrap_ok r;
    let c := chunk_take c rest_len in
    start ← unwrap_ok (va_byte_add start (ck_len c));
    mret (start, c)
  else mret (start, c).
Definition u2u_step (dst_pt src_pt dst_end src_end copy_size : Z) (st : U2U) : M Pages (U2U + U2U) :=
  if uu_total_copied st <? copy_size then
    d ← next_chunk (λ va, fetch_chunk_mut dst_pt va PtEntryFlags.UW) (uu_dst_start st) dst_end (uu_dst_bytes st);
    s ← next_chunk (λ va, fetch_chunk src_pt va PtEntryFlags.UR) (uu_src_start st) src_end (uu_src_bytes st);
    let n := Z.min (ck_len d.2) (ck_len s.2) in
    b ← read_chunk s.2 n;
    write_chunk d.2 b;;
    dst_bytes ← chunk_from d.2 n;
    src_bytes ← chunk_from s.2 n;
    mret (inl {| uu_dst_start := d.1; uu_dst_bytes := dst_bytes; uu_src_start := s.1; uu_src_bytes := src_bytes;
                 uu_total_copied := uu_total_copied st + n |})
  else mret (inr st).
Definition copy_u2u_bytes (dst_pt : UserPageTable) (dst : bytes_mut) (src_pt : UserPageTable) (src : bytes_ref) : M Pages unit :=
  assert_ (ival (us_len src) =? ival (ums_len dst));;
  dst_range ← unwrap_ok (mut_slice_va_range dst);
  src_range ← unwrap_ok (slice_va_range src);
  st ← while_ FUEL (u2u_step (up_pt dst_pt) (up_pt src_pt) dst_range.2 src_range.2 (ival (us_len src)))
         {| uu_dst_start := dst_range.1; uu_dst_bytes := empty_chunk; uu_src_start := src_range.1;
            uu_src_bytes := empty_chunk; uu_total_copied := 0 |};
  assert_ (uu_dst_start st =? dst_range.2);;
  assert_ (uu_src_start st =? src_range.2).

(** [GenericSlice], and the copies from user or kernel memory. *)
Inductive GenericSlice :=
  | GUser (pt : UserPageTable) (s : bytes_ref)
  | GKernel (b : list byte).
Definition generic_len (s : GenericSlice) : Z :=
  match s with
  | GUser _ s => ival (us_len s)
  | GKernel b => Z.of_nat (length b)
  end.
Definition copy_x2k_bytes (len : Z) (src : GenericSlice) : M Pages (list byte) :=
  assert_ (len =? generic_len src);;
  match src with
  | GUser pt src => copy_u2k_bytes pt len src
  | GKernel b => mret b
  end.
Definition copy_x2u_bytes (u : UserPageTable) (dst : bytes_mut) (src : GenericSlice) : M Pages unit :=
  assert_ (ival (ums_len dst) =? generic_len src);;
  match src with
  | GUser src_pt src => copy_u2u_bytes u dst src_pt src
  | GKernel b => copy_k2u_bytes u dst b
  end.

(** [UserPageTable::request_user_write]; the destructor. *)
Definition user_request_write (u : UserPageTable) (va : Z) : M Pages (result KernelError unit) :=
  table_request_user_write (up_pt u) va.
Definition user_drop (u : UserPageTable) : M Pages unit := table_drop (up_pt u).

(** [proc::ops::resize_by] and the handler of [sbrk]; [increment] is an [isize]. *)
Definition saturating_abs (n : Z) : Z := if n =? - 2 ^ 63 then 2 ^ 63 - 1 else Z.abs n.
Definition resize_by (u : UserPageTable) (increment : Z) : M Pages (result KernelError unit * UserPageTable) :=
  let amt := saturating_abs increment in
  match increment ?= 0 with
  | Lt => shrink_heap_by u amt
  | Eq => mret (Ok tt, u)
  | Gt => grow_heap_by u amt PtEntryFlags.URW
  end.
Definition sbrk (u : UserPageTable) (increment : Z) : M Pages (result KernelError Z * UserPageTable) :=
  pb ← program_break u;
  r ← resize_by u increment;
  match r with
  | (Ok _, u) => mret (Ok pb, u)
  | (Err e, u) => mret (Err e, u)
  end.
