(* ===== verification/VmHeap.v ===== *)
(** * The heap of a user

    What [sbrk] does to the memory of a process, when the addresses above its heap are
    free; and what it does when they are not. *)

From S2P Require Import Prelude KError Pod SysTypes Addr PageAlloc Pages Pte PteSpec PageTable PtSpec PtMap PtUnmap PtWalk VmView VmOps VmSystem VmClaims VmUser.

(** The end of the last page of the heap, and the break. *)
Definition brk (u : UserPageTable) : Z := up_heap_start u + up_heap_size u.
Definition heap_ok (u : UserPageTable) : Prop := 0 ≤ up_heap_start u ∧ 0 ≤ up_heap_size u ∧ brk u ≤ VA_MAX ∧ up_heap_start u mod PAGE_SIZE = 0.

Lemma roundup_spec a : 0 ≤ a ≤ VA_MAX → page_roundup a mod PAGE_SIZE = 0 ∧ a ≤ page_roundup a < a + PAGE_SIZE ∧ page_roundup a ≤ VA_MAX ∧ va_from_addr (page_roundup a) = Some (page_roundup a).
Proof.
  intros Ha. change VA_MAX with 274877906944 in *. destruct (page_roundup_spec a) as [Hm Hr]; [change PAGE_SIZE with 4096; lia|].
  assert (page_roundup a ≤ 274877906944) as Hle by (change PAGE_SIZE with 4096 in *; Z.div_mod_to_equations; lia).
  split; [done|]. split; [done|]. split; [done|]. rw /va_from_addr /va_new. change VA_MAX with 274877906944. case: Z.gtb_spec => ?; [lia|done].
Qed.
Lemma roundup_mono a b : 0 ≤ a ≤ b → b ≤ VA_MAX → page_roundup a ≤ page_roundup b.
Proof.
  intros Hab Hb. destruct (roundup_spec a ltac:(lia)) as (Ha & Hra & _), (roundup_spec b ltac:(lia)) as (Hb' & Hrb & _).
  change PAGE_SIZE with 4096 in *. Z.div_mod_to_equations. lia.
Qed.

Lemma roundup_shift a x : 0 ≤ a → a mod PAGE_SIZE = 0 → 0 ≤ x → a + x ≤ VA_MAX → page_roundup (a + x) = a + page_roundup x.
Proof.
  change VA_MAX with 274877906944. change PAGE_SIZE with 4096. intros Ha Hm Hx Hmax. rw !page_roundup_eq; [change PAGE_SIZE with 4096; lia..|].
  change PAGE_SIZE with 4096. Z.div_mod_to_equations. lia.
Qed.

Section heap.
Context (hs he : Z) (leak : Z → Z).
Implicit Types (s : Pages) (u : UserPageTable) (W : gmap Z PT).
Abbreviation vm_inv := (vm_inv hs he).

(** The loads that are the same: all but those of [u] in [a, c). *)
Abbreviation same_but W u a c := (loads_same (dom W) (λ r va, r = up_pt u → ¬ a ≤ va < c)).

Lemma break_wp u (Q : Z → Pages → Prop) s : heap_ok u → Q (brk u) s → wp (program_break u) Q s.
Proof. intros (H1 & H2 & H3 & _) HQ. rw /program_break (proj2 (va_byte_add_Ok _ _ (brk u) H1 H2)) //. Qed.

(** [shrink_heap_to_size] unmaps the pages above the new size. *)
Lemma shrink_wp W s own held u pt n :
  vm_inv s W leak own held → W !! up_pt u = Some pt → heap_ok u → 0 ≤ n ≤ up_heap_size u →
  let a := page_roundup (up_heap_start u + n) in
  wp (shrink_heap_to_size u n) (λ u' s', ∃ own' held' pt', u' = with_heap_size n u ∧ vm_inv s' (<[up_pt u := pt']> W) leak own' held' ∧
    same_but W u a (page_roundup (brk u)) s s' ∧ ∀ va, a ≤ va < page_roundup (brk u) → translate s' (up_pt u) va = None) s.
Proof.
  intros Hs Hpt (H1 & H2 & H3 & H4) Hn a. rw /shrink_heap_to_size. assert (0 ≤ up_heap_start u + n ≤ VA_MAX) as Hb by (rw /brk in H3; lia).
  assert (vm_inv s (<[up_pt u := pt]> W) leak own held) as Hid by by rw insert_id.
  assert (a = up_heap_start u + page_roundup n) as Ea by (apply roundup_shift; [lia|done|lia|lia]).
  assert (page_roundup (brk u) = up_heap_start u + page_roundup (up_heap_size u)) as Eb by (rw /brk; apply roundup_shift; [lia|done|lia|done]).
  case: Z.leb_spec => Hle.
  { assert (n = up_heap_size u) as -> by lia. wp_step. exists own, held, pt. split; [by destruct u|]. split; [done|]. rw /brk. split; [by intros ? ? ? ?|lia]. }
  destruct (roundup_spec _ Hb) as (Hal & Hr & Hrm & Hva). fold a in Hal, Hr, Hrm, Hva. destruct (roundup_spec (brk u)) as (Hbl & Hbr & Hbm & _); [rw /brk in H3 |- *; lia|].
  wp_step. case: Z.ltb_spec => Hlt.
  - wp_step. rw (proj2 (va_byte_add_Ok (up_heap_start u) n (up_heap_start u + n) H1 (proj1 Hn)) (conj eq_refl (proj2 Hb))). rw /unwrap_ok. wp_step. wp_step. fold a.
    apply (wp_unwrap _ a); [done|]. wp_step.
    assert (a + (page_roundup (up_heap_size u) - page_roundup n) = page_roundup (brk u)) as Esz by lia.
    eapply wp_mono; [apply (unmap_addrs_vm hs he s W leak own held (up_pt u) pt a (page_roundup (up_heap_size u) - page_roundup n) Hs Hpt); [lia|done|lia|lia]|].
    intros res s' (-> & own' & held' & Hs' & Hld). rw Esz in Hs', Hld. do 2 wp_step. eexists own', held', _. split; [done|]. split; [exact Hs'|]. split.
    + intros r va Hr' Hva' HP. apply Hld; [done..|]. intros ->. pose proof (page_in_range a (page_roundup (brk u) - a) va Hal ltac:(by rw Zminus_mod Hal Hbl)). naive_solver lia.
    + intros va Hva'. rw (vm_translate _ _ _ _ _ _ _ _ _ _ Hs' (lookup_insert_eq _ _ _)); [pose proof va_size_max; lia|]. simpl. rw cut_lookup decide_True //.
      pose proof (page_in_range a (page_roundup (brk u) - a) va Hal ltac:(by rw Zminus_mod Hal Hbl)). lia.
  - do 2 wp_step. exists own, held, pt. split; [done|]. split; [done|]. split; [by intros ? ? ? ?|lia].
Qed.

(** [grow_heap_to_size], when the addresses above the heap are free. *)
Lemma grow_wp W s own held u pt n perm :
  vm_inv s W leak own held → W !! up_pt u = Some pt → heap_ok u → 0 < n → brk u + n ≤ VA_MAX → 0 ≤ perm < 1024 → intersects perm FRWX = true →
  let a := page_roundup (brk u) in let c := page_roundup (brk u + n) in
  (∀ y, a ≤ y < c → translate s (up_pt u) y = None) →
  wp (grow_heap_by u n perm) (λ r s', ∃ own' held' pt', vm_inv s' (<[up_pt u := pt']> W) leak own' held' ∧ same_but W u a c s s' ∧
    match r with
    | (Ok _, u') => u' = with_heap_size (up_heap_size u + n) u ∧ ∀ va, a ≤ va < c →
        user_writable s' (up_pt u) va = contains perm PtEntryFlags.UW ∧
        user_load s' (up_pt u) va = if contains perm PtEntryFlags.UR then Some Byte.x00 else None
    | (Err e, u') => e = NoFreePage ∧ u' = u ∧ ∀ va, a ≤ va < c → translate s' (up_pt u) va = None
    end) s.
Proof.
  intros Hs Hpt Hh Hn Hmax Hperm Hx a c Hf. pose proof Hh as (H1 & H2 & H3 & H4). rw /grow_heap_by. assert (VA_MAX < 2 ^ 64 - 1) as HVA by done.
  assert (checked_add (up_heap_size u) n = Some (up_heap_size u + n)) as ->.
  { rw /checked_add. change U64_MAX with (2 ^ 64 - 1). rw /brk in Hmax. case: Z.leb_spec => ?; [done|lia]. }
  rw /grow_heap_to_size. case: Z.ltb_spec => ?; [lia|]. cbn [with_heap_size up_heap_start up_heap_size up_pt]. wp_step.
  rw (proj2 (va_byte_add_Ok _ _ (brk u) H1 H2)) //. rw /unwrap_ok. do 2 wp_step. fold a.
  assert (0 ≤ brk u ≤ VA_MAX) as Hb by (rw /brk in H3 |- *; lia). destruct (roundup_spec _ Hb) as (Hal & Har & Ham & Hav). fold a in Hal, Har, Ham, Hav.
  destruct (roundup_spec (brk u + n) ltac:(lia)) as (Hcl & Hcr & Hcm & Hcv). fold c in Hcl, Hcr, Hcm, Hcv.
  apply (wp_unwrap _ a); [done|]. rw (proj2 (va_byte_add_Ok (up_heap_start u) (up_heap_size u + n) (brk u + n) H1 ltac:(lia)) ltac:(rw /brk in Hmax |- *; lia)).
  pose proof (free_range hs he _ _ _ _ _ _ _ a c Hs Hpt Hf) as Hfl.
  case: Z.ltb_spec => Hlt.
  - wp_step. fold c. apply (wp_unwrap _ c); [done|]. wp_step. apply (wp_unwrap _ (c - a)); [rw /checked_sub; case: Z.leb_spec => ?; [done|lia]|]. wp_step.
    assert ((c - a) mod PAGE_SIZE = 0) as Hszl by by rw Zminus_mod Hal Hcl. assert (a + (c - a) = c) as Ec by lia.
    eapply wp_mono; [apply (map_addrs_vm hs he s W leak own held (up_pt u) pt a (c - a) perm Hs Hpt); [lia|done|lia|done|lia|done|done|by rw Ec]|].
    intros res s1 (own1 & held1 & pt1 & Hs1 & Hld1 & Hres). rw Ec in Hld1, Hres.
    assert (∀ va, a ≤ page_of va < c ↔ a ≤ va < c) as Hpg by (intros va; pose proof (page_in_range a (c - a) va Hal Hszl); lia).
    assert (same_but W u a c s s1) as Hsame by (intros r va Hr Hva HP; apply Hld1; [done..|]; intros ->; rw Hpg; by apply HP).
    destruct res as [x|e].
    + wp_step. exists own1, held1, pt1. split; [done|]. split; [done|]. split; [done|]. intros va Hva.
      exact (mapped_loads hs he s1 _ leak own own1 held1 (up_pt u) pt1 (lvs pt) a c perm va Hs1 (lookup_insert_eq _ _ _) Hperm Hal Hcl ltac:(pose proof va_size_max; lia) Hva Hfl Hres).
    + destruct Hres as [-> _]. wp_step. set (u1 := with_heap_size (up_heap_size u + n) u). set (W1 := <[up_pt u := pt1]> W) in *.
      assert (brk u1 = brk u + n) as Eb1 by (subst u1; rw /brk /=; lia).
      eapply wp_mono; [apply (shrink_wp W1 s1 own1 held1 u1 pt1 (up_heap_size u) Hs1 (lookup_insert_eq _ _ _))|].
      * subst u1. rw /heap_ok Eb1 /=. split_and!; [done|lia|lia|done].
      * subst u1. simpl. lia.
      * intros u2 s2 (own2 & held2 & pt2 & -> & Hs2 & Hld2 & Hn2). rw Eb1 in Hld2, Hn2. fold (brk u) a c in Hld2, Hn2. wp_step. exists own2, held2, pt2.
        split; [subst W1; by rw insert_insert_eq in Hs2|]. split; [|split; [done|split; [by destruct u|done]]].
        intros r va Hr Hva HP. rw Hld2 //; [subst W1; by rw dom_insert_lookup_L|]. by apply Hsame.
  - wp_step. assert (c = a) as Eca by (pose proof (roundup_mono (brk u) (brk u + n) ltac:(lia) Hmax) as Hm; fold a c in Hm; change PAGE_SIZE with 4096 in *; Z.div_mod_to_equations; lia).
    exists own, held, pt. split; [by rw insert_id|]. split; [by intros ? ? ? ?|]. split; [done|]. lia.
Qed.
End heap.

(** [resize_by] of positive and negative increments. *)
Lemma sbrk_pos_wp hs he leak W s own held u pt n :
  vm_inv hs he s W leak own held → W !! up_pt u = Some pt → heap_ok u → 0 < n < 2 ^ 63 → brk u + n ≤ VA_MAX →
  let a := page_roundup (brk u) in let c := page_roundup (brk u + n) in
  (∀ y, a ≤ y < c → translate s (up_pt u) y = None) →
  wp (sbrk u n) (λ r s', ∃ own' held' pt', vm_inv hs he s' (<[up_pt u := pt']> W) leak own' held' ∧
    loads_same (dom W) (λ r va, r = up_pt u → ¬ a ≤ va < c) s s' ∧
    match r with
    | (Ok pb, u') => pb = brk u ∧ u' = with_heap_size (up_heap_size u + n) u ∧ ∀ va, a ≤ va < c →
        user_writable s' (up_pt u) va = true ∧ user_load s' (up_pt u) va = Some Byte.x00
    | (Err e, u') => e = NoFreePage ∧ u' = u ∧ ∀ va, a ≤ va < c → translate s' (up_pt u) va = None
    end) s.
Proof.
  intros Hs Hpt Hh Hn Hmax a c Hf. rw /sbrk. wp_step. apply break_wp; [done|]. wp_step. rw /resize_by.
  assert ((n ?= 0) = Gt) as -> by (apply Z.compare_gt_iff; lia). assert (saturating_abs n = n) as -> by (rw /saturating_abs; case: Z.eqb_spec => ?; lia).
  eapply wp_mono; [exact (grow_wp hs he leak W s own held u pt n PtEntryFlags.URW Hs Hpt Hh (proj1 Hn) Hmax ltac:(done) eq_refl Hf)|].
  intros [res u'] s' (own' & held' & pt' & Hs' & Hld & Hres). destruct res as [x|e]; wp_step; exists own', held', pt'; (split; [done|]; split; [done|]); [|done].
  destruct Hres as [-> Hz]. split; [done|]. split; [done|]. intros va Hva. exact (Hz va Hva).
Qed.

Lemma sbrk_neg_wp hs he leak W s own held u pt n :
  vm_inv hs he s W leak own held → W !! up_pt u = Some pt → heap_ok u → 0 < n ≤ up_heap_size u →
  let a := page_roundup (brk u - n) in let c := page_roundup (brk u) in
  wp (sbrk u (- n)) (λ r s', ∃ own' held' pt', vm_inv hs he s' (<[up_pt u := pt']> W) leak own' held' ∧
    r = (Ok (brk u), with_heap_size (up_heap_size u - n) u) ∧
    loads_same (dom W) (λ r va, r = up_pt u → ¬ a ≤ va < c) s s' ∧ ∀ va, a ≤ va < c → translate s' (up_pt u) va = None) s.
Proof.
  intros Hs Hpt Hh Hn a c. pose proof Hh as (H1 & H2 & H3 & _). assert (VA_MAX < 2 ^ 62) as HVA by done. rw /brk in H3.
  rw /sbrk. wp_step. apply break_wp; [done|]. wp_step. rw /resize_by.
  assert ((- n ?= 0) = Lt) as -> by (apply Z.compare_lt_iff; lia). assert (saturating_abs (- n) = n) as -> by (rw /saturating_abs; case: Z.eqb_spec => ?; lia).
  rw /shrink_heap_by /checked_sub. case: Z.leb_spec => Hle; [|lia]. wp_step.
  eapply wp_mono; [exact (shrink_wp hs he leak W s own held u pt (up_heap_size u - n) Hs Hpt Hh ltac:(lia))|].
  intros u' s' (own' & held' & pt' & -> & Hs' & Hld & Hnone). do 2 wp_step. exists own', held', pt'.
  replace (up_heap_start u + (up_heap_size u - n)) with (brk u - n) in Hld, Hnone by (rw /brk; lia). done.
Qed.

Section claims.
Context (leaky : bool) (R : gset Z) (s : Pages) (Hreach : vm_reachable leaky R s) (u : UserPageTable).
Context (Hu : up_pt u ∈ R) (Hheap : heap_ok u).

(** growing the heap with [sbrk] into free addresses never panics; it gives the old
    break, moves the break and gives zeroed pages that the user can write.  Without memory it
    fails and leaves the break and all mappings as they were.  Nothing else that user code
    loads changes. *)
Theorem sbrk_grows n :
  0 < n < 2 ^ 63 → brk u + n ≤ VA_MAX → (∀ y, page_roundup (brk u) ≤ y < page_roundup (brk u + n) → translate s (up_pt u) y = None) →
  wp (sbrk u n) (λ r s',
    (∀ r va, r ∈ R → 0 ≤ va < VA_SIZE → (r = up_pt u → ¬ page_roundup (brk u) ≤ va < page_roundup (brk u + n)) → user_load s' r va = user_load s r va) ∧
    match r with
    | (Ok pb, u') => pb = brk u ∧ brk u' = brk u + n ∧ ∀ va, page_roundup (brk u) ≤ va < page_roundup (brk u + n) →
        user_writable s' (up_pt u) va = true ∧ user_load s' (up_pt u) va = Some Byte.x00
    | (Err e, u') => e = NoFreePage ∧ u' = u ∧ ∀ va, page_roundup (brk u) ≤ va < page_roundup (brk u + n) → translate s' (up_pt u) va = None
    end) s.
Proof.
  intros Hn Hmax Hf. destruct (roots leaky R s Hreach) as (hs & he & W & leak & own & held & Hs & Hdom & Hin). destruct (Hin _ Hu) as [pt Hpt].
  eapply wp_mono; [exact (sbrk_pos_wp hs he leak W s own held u pt n Hs Hpt Hheap Hn Hmax Hf)|].
  intros [res u'] s' (own' & held' & pt' & _ & Hld & Hres). rw Hdom in Hld. split; [exact Hld|]. destruct res; [|done].
  destruct Hres as (-> & -> & Hz). split; [done|]. split; [|done]. rw /brk /=. lia.
Qed.

(** Growing the heap over addresses that are not mapped, with the new break at most [VA_MAX], and shrinking it again leaves what
    every program loads from every address as it was, also when there was not enough memory. *)
Theorem sbrk_roundtrip n :
  0 < n < 2 ^ 63 → brk u + n ≤ VA_MAX → (∀ y, page_roundup (brk u) ≤ y < page_roundup (brk u + n) → translate s (up_pt u) y = None) →
  wp (r ← sbrk u n; match r with (Ok _, u') => sbrk u' (- n) | (Err e, u') => mret (Err e, u') end) (λ r s', r.2 = u ∧
    ∀ r va, r ∈ R → 0 ≤ va < VA_SIZE → user_load s' r va = user_load s r va) s.
Proof.
  intros Hn Hmax Hf. destruct (roots leaky R s Hreach) as (hs & he & W & leak & own & held & Hs & Hdom & Hin). destruct (Hin _ Hu) as [pt Hpt].
  pose proof Hheap as (H1 & H2 & H3 & H4). assert (∀ st r va, translate st r va = None → user_load st r va = None) as Hnone by (intros st r va E; by rw /user_load E).
  set (a := page_roundup (brk u)) in *. set (c := page_roundup (brk u + n)) in *.
  wp_step. eapply wp_mono; [exact (sbrk_pos_wp hs he leak W s own held u pt n Hs Hpt Hheap Hn Hmax Hf)|].
  intros [res u'] s1 (own1 & held1 & pt1 & Hs1 & Hld1 & Hres). rw Hdom in Hld1. fold a c in Hld1, Hres.
  destruct res as [pb|e].
  - destruct Hres as (-> & -> & _). set (u1 := with_heap_size (up_heap_size u + n) u). assert (brk u1 = brk u + n) as Eb1 by (subst u1; rw /brk /=; lia).
    eapply wp_mono; [apply (sbrk_neg_wp hs he leak _ s1 own1 held1 u1 pt1 n Hs1 (lookup_insert_eq _ _ _))|].
    + subst u1. rw /heap_ok Eb1 /=. split_and!; [done|lia|lia|done].
    + subst u1. simpl. lia.
    + intros r s2 (own2 & held2 & pt2 & _ & -> & Hld2 & Hn2). rw Eb1 in Hld2, Hn2. replace (brk u + n - n) with (brk u) in Hld2, Hn2 by lia. fold a c in Hld2, Hn2.
      split; [subst u1; destruct u; rw /with_heap_size /=; f_equal; lia|]. intros r va Hr Hva. rw dom_insert_lookup_L // Hdom in Hld2.
      destruct (decide (r = up_pt u ∧ a ≤ va < c)) as [[-> Hin']|Hout]; [by rw !Hnone; [apply Hn2|apply Hf|]|].
      rw Hld2 //; [naive_solver|]. apply Hld1; [done..|naive_solver].
  - destruct Hres as (-> & -> & Hn1). wp_step. split; [done|]. intros r va Hr Hva.
    destruct (decide (r = up_pt u ∧ a ≤ va < c)) as [[-> Hin']|Hout]; [by rw !Hnone; [apply Hn1|apply Hf|]|]. apply Hld1; [done..|naive_solver].
Qed.
End claims.
