(* ===== verification/VmCopy.v ===== *)
(** * Copying to and from user memory

    [copy_k2u_bytes] and [copy_u2k_bytes] page by page, and what user code and the kernel
    read afterwards; [copy_u2u_bytes], which goes through the pages of two address spaces at once. *)

From S2P Require Import Prelude KError Pod SysTypes Addr PageAlloc Pages Pte PteSpec PageTable PtSpec PtMap PtUnmap PtCow PtFixed VmWorld VmFork PtWalk VmView VmOps VmSystem VmClaims VmUser.

(** The byte at [va] after the bytes [b] were stored from [a] with the page table [r]. *)
Definition stored (s : Pages) (r a : Z) (b : list byte) (r' va : Z) : option byte :=
  if decide (r' = r ∧ a ≤ va < a + Z.of_nat (length b)) then user_load s r' va ≫= λ _, b !! Z.to_nat (va - a) else user_load s r' va.

Lemma stored_app s r a b c r' va :
  (if decide (r' = r ∧ a + Z.of_nat (length b) ≤ va < a + Z.of_nat (length b) + Z.of_nat (length c))
   then stored s r a b r' va ≫= λ _, c !! Z.to_nat (va - (a + Z.of_nat (length b))) else stored s r a b r' va) = stored s r a (b ++ c) r' va.
Proof.
  rw /stored length_app. destruct (decide (r' = r)) as [->|Hne]; [|by rw !decide_False; try by intros [? _]].
  destruct (decide (a ≤ va < a + Z.of_nat (length b))) as [H1|H1].
  - rw decide_False; [lia|]. rw !decide_True; [lia..|]. destruct (user_load s r va); [|done]. simpl. rw lookup_app_l //. lia.
  - destruct (decide (a + Z.of_nat (length b) ≤ va < a + Z.of_nat (length b) + Z.of_nat (length c))) as [H2|H2].
    + rw decide_True //. rw decide_False; [lia|]. rw decide_True; [lia|]. destruct (user_load s r va); [|done]. simpl. rw lookup_app_r; [lia|]. f_equal. lia.
    + rw !decide_False //; lia.
Qed.

Lemma take_drop_middle_take {A} (b : list A) k n : 0 ≤ k → 0 ≤ n → take (Z.to_nat (k + n)) b = take (Z.to_nat k) b ++ take (Z.to_nat n) (drop (Z.to_nat k) b).
Proof. intros Hk Hn. rw Z2Nat.inj_add // -take_take_drop //. Qed.

Section copy.
Context (hs he : Z) (leak : Z → Z) (r : Z).
Implicit Types (s : Pages) (W : gmap Z PT) (pt : PT).
Abbreviation vm_inv := (vm_inv hs he).

(** The entry can be written, at once or after the page has been copied. *)
Definition writable_entry (w : Z) : Prop := contains (pte_flags w) PtEntryFlags.UW = true ∨ contains (pte_flags w) (Z.lor FU FC) = true.

(** The addresses of [A, C) can be written, and there is a free page for each page that has to be copied. *)
Section target.
Context (A C : Z).
Definition to_copy pt : gmap Z Z := filter (λ p, Z.max A p.1 < Z.min C (p.1 + PAGE_SIZE) ∧ contains (pte_flags p.2) PtEntryFlags.UW = false) (lvs pt).
Record target (own : gmap Z Owner) pt : Prop := {
  tg_pages va : A ≤ va < C → ∃ w, lvs pt !! page_of va = Some w ∧ writable_entry w;
  tg_room : Z.of_nat (size (to_copy pt)) ≤ unowned hs he own;
}.
Lemma to_copy_insert pt y w w' :
  lvs pt !! y = Some w → Z.max A y < Z.min C (y + PAGE_SIZE) → contains (pte_flags w') PtEntryFlags.UW = true →
  size (to_copy pt) = ((if contains (pte_flags w) PtEntryFlags.UW then 0 else 1) + size (to_copy (set_lvs (<[y := w']> (lvs pt)) pt)))%nat.
Proof.
  intros Hl Hy Hw'. rw /to_copy /=. rw map_filter_insert decide_False; [by intros [_ ?]; simpl in *; congruence|]. rw map_filter_delete.
  destruct (contains (pte_flags w) PtEntryFlags.UW) eqn:E.
  - rw delete_id //. apply map_lookup_filter_None. right. intros x Hx [_ Hn]. simpl in Hn. congruence.
  - rw map_size_delete_Some; [by exists w; apply map_lookup_filter_Some|]. set (m := filter _ _).
    assert (m !! y = Some w) as Hm by by apply map_lookup_filter_Some. destruct (size m) eqn:Es; [|lia]. by apply map_size_empty_inv in Es as ->.
Qed.
Lemma target_insert own own' pt y w w' :
  target own pt → lvs pt !! y = Some w → Z.max A y < Z.min C (y + PAGE_SIZE) → contains (pte_flags w') PtEntryFlags.UW = true →
  (size own' ≤ if contains (pte_flags w) PtEntryFlags.UW then size own else S (size own))%nat →
  target own' (set_lvs (<[y := w']> (lvs pt)) pt).
Proof.
  intros [Hp Hr] Hl Hy Hw' Hsz. split.
  - intros va Hva. simpl. destruct (decide (page_of va = y)) as [->|Hne]; [exists w'; rw lookup_insert_eq; split; [done|by left]|].
    rw lookup_insert_ne; [congruence|]. by apply Hp.
  - pose proof (to_copy_insert pt y w w' Hl Hy Hw'). rw /unowned in Hr |- *. destruct (contains (pte_flags w) PtEntryFlags.UW); lia.
Qed.

(** A page that can be written is fetched, whether or not it has to be copied. *)
Lemma fetch_target W s own held pt d :
  vm_inv s W leak own held → W !! r = Some pt → target own pt → 0 ≤ d < VA_SIZE → A ≤ d < C →
  wp (fetch_chunk_mut r d PtEntryFlags.UW) (λ res s', ∃ own' held' w', let pt' := set_lvs (<[page_of d := w']> (lvs pt)) pt in
    res = Ok (rest_of w' d) ∧ contains (pte_flags w') PtEntryFlags.UW = true ∧ target own' pt' ∧
    vm_inv s' (<[r := pt']> W) leak own' held' ∧ loads_same (dom W) (λ _ _, True) s s') s.
Proof.
  intros Hs Hr Ht Hd Hdr. destruct (tg_pages _ _ Ht d Hdr) as (w & Hl & Hwe).
  assert (Z.max A (page_of d) < Z.min C (page_of d + PAGE_SIZE)) as Hpd by (pose proof (page_of_range d); lia).
  eapply wp_mono; [exact (fetch_chunk_mut_vm hs he s W leak own held r pt d Hs Hr Hd)|]. intros res s1. simpl. rw Hl. destruct res as [ck|e].
  - intros (own1 & held1 & w' & Hs1 & Huw' & -> & Hld1 & Hsz). exists own1, held1, w'. split_and!; [done..|by apply (target_insert own own1 pt (page_of d) w)|done|done].
  - intros [(_ & _ & E1 & E2)|(_ & H2 & H0)]; [by destruct Hwe; congruence|exfalso].
    destruct (contains (pte_flags w) PtEntryFlags.UW) eqn:Euw; [pose proof (writable_share hs he s W leak own held r pt _ w Hs Hr Hl Euw); lia|].
    pose proof (tg_room _ _ Ht) as Hroom. rw H0 in Hroom. assert (to_copy pt !! page_of d = Some w) as Hm by by apply map_lookup_filter_Some.
    destruct (size (to_copy pt)) eqn:Es; [|lia]. by apply map_size_empty_inv in Es as Es'; rw Es' in Hm.
Qed.

(** One turn of the loop of [copy_k2u_bytes]. *)
Lemma k2u_chunk W s own held pt d c b :
  vm_inv s W leak own held → W !! r = Some pt → target own pt → 0 ≤ d < c → c ≤ VA_MAX → A ≤ d → c ≤ C → Z.of_nat (length b) = c - d →
  let n := Z.min (c - d) (PAGE_SIZE - d mod PAGE_SIZE) in
  wp (k2u_step r c (d, b)) (λ res s', res = inl (d + n, drop (Z.to_nat n) b) ∧ ∃ own' held' pt', vm_inv s' (<[r := pt']> W) leak own' held' ∧
    target own' pt' ∧ ∀ r' va, r' ∈ dom W → 0 ≤ va < VA_SIZE → user_load s' r' va = stored s r d (take (Z.to_nat n) b) r' va) s.
Proof.
  intros Hs Hr Ht Hd Hc HA HC Hlen n. pose proof va_size_max. assert (0 ≤ d < VA_SIZE) as Hdv by lia. pose proof (Z.mod_pos_bound d PAGE_SIZE page_pos) as Hmod.
  rw /k2u_step. case: Z.ltb_spec => ?; [|lia]. wp_step.
  eapply wp_mono; [apply (fetch_target W s own held pt d Hs Hr Ht Hdv); lia|]. intros res s1 (own1 & held1 & w' & -> & Huw' & Ht1 & Hs1 & Hld1).
  rw /unwrap_ok. wp_step. wp_step. rw Hlen. change (ck_len (rest_of w' d)) with (PAGE_SIZE - d mod PAGE_SIZE). fold n. set (pt1 := set_lvs _ pt) in *.
  assert (0 ≤ n) as Hn0 by lia. assert (length (take (Z.to_nat n) b) = Z.to_nat n) as Hlt by (rw length_take; lia). wp_step.
  eapply wp_mono; [apply (write_chunk_vm hs he s1 _ leak own1 held1 r pt1 d w' (take (Z.to_nat n) b) Hs1 (lookup_insert_eq _ _ _) Hdv (lookup_insert_eq _ _ _) Huw'); rw Hlt; lia|].
  intros [] s2 (held2 & Hs2 & Hl2). wp_step. rw (proj2 (va_byte_add_Ok d n (d + n) ltac:(lia) Hn0)); [split; [done|lia]|]. do 2 wp_step.
  split; [done|]. exists own1, held2, pt1. split; [done|]. split; [done|].
  intros r' va Hr' Hva. rw Hl2 //; [by rw dom_insert_lookup_L|]. rw /stored. rw Hld1 //.
Qed.

Lemma copy_k2u_loop W s own held pt a c b :
  vm_inv s W leak own held → W !! r = Some pt → target own pt → 0 ≤ a ≤ c → c ≤ VA_MAX → A ≤ a → c ≤ C → Z.of_nat (length b) = c - a →
  wp (while_ FUEL (k2u_step r c) (a, b)) (λ d s', d = c ∧ ∃ own' held' pt', vm_inv s' (<[r := pt']> W) leak own' held' ∧ target own' pt' ∧
    ∀ r' va, r' ∈ dom W → 0 ≤ va < VA_SIZE → user_load s' r' va = stored s r a b r' va) s.
Proof.
  intros Hs Hr Ht Ha Hc HA HC Hlen. change VA_MAX with 274877906944 in Hc.
  set (I := λ (st : Z * list byte) s', ∃ k own' held' pt', 0 ≤ k ≤ c - a ∧ st = (a + k, drop (Z.to_nat k) b) ∧ vm_inv s' (<[r := pt']> W) leak own' held' ∧
    target own' pt' ∧ ∀ r' va, r' ∈ dom W → 0 ≤ va < VA_SIZE → user_load s' r' va = stored s r a (take (Z.to_nat k) b) r' va).
  apply (while_wp FUEL _ I (λ st _, c - st.1)).
  - intros st s1 (k & own1 & held1 & pt1 & Hk & -> & Hs1 & Ht1 & Hl1). cbn [fst]. split; [lia|]. destruct (decide (k < c - a)) as [Hlt|Hge].
    + assert (Z.of_nat (length (drop (Z.to_nat k) b)) = c - (a + k)) as Hld by (rw length_drop; lia).
      eapply wp_mono; [apply (k2u_chunk (<[r := pt1]> W) s1 own1 held1 pt1 (a + k) c (drop (Z.to_nat k) b) Hs1 (lookup_insert_eq _ _ _) Ht1);
        [lia|change VA_MAX with 274877906944; lia|lia|done|done]|].
      set (n := Z.min _ _). intros res s2 (-> & own2 & held2 & pt2 & Hs2 & Ht2 & Hl2).
      pose proof (Z.mod_pos_bound (a + k) PAGE_SIZE page_pos) as Hm. assert (0 < n ≤ c - (a + k)) as Hn. { subst n. lia. }
      split; [|cbn [fst]; lia]. exists (k + n), own2, held2, pt2. split; [lia|]. split; [rw drop_drop; f_equal; [lia|f_equal; lia]|]. rw insert_insert_eq in Hs2. split; [done|]. split; [done|].
      intros r' va Hr' Hva. rw Hl2 //; [by rw dom_insert_lookup_L|]. rw {1}/stored Hl1 //.
      pose proof (stored_app s r a (take (Z.to_nat k) b) (take (Z.to_nat n) (drop (Z.to_nat k) b)) r' va) as E.
      assert (Z.of_nat (length (take (Z.to_nat k) b)) = k) as Ek by (rw length_take; lia). rw Ek in E. rw E. f_equal.
      rw -(take_drop_middle_take b k n) //; lia.
    + assert (k = c - a) as -> by lia. rw /k2u_step. case: Z.ltb_spec => ?; [lia|]. wp_step. split; [lia|]. exists own1, held1, pt1. split; [done|]. split; [done|].
      intros r' va Hr' Hva. rw Hl1 // take_ge //. lia.
  - cbn [fst]. change (Z.pos FUEL) with (2 ^ 40). lia.
  - exists 0, own, held, pt. split; [lia|]. split; [by rw Z.add_0_r|]. split; [by rw insert_id|]. split; [done|].
    intros r' va Hr' Hva. rw /stored decide_False //. simpl. lia.
Qed.
End target.

(** The bytes of a chunk are those that the user loads. *)
Lemma read_chunk_vm W s own held pt d w n len (f : Z → byte) :
  vm_inv s W leak own held → W !! r = Some pt → lvs pt !! page_of d = Some w → contains (pte_flags w) PtEntryFlags.UR = true →
  0 ≤ d → d + n ≤ VA_MAX → 0 < n ≤ PAGE_SIZE - d mod PAGE_SIZE → n ≤ len → (∀ va, d ≤ va < d + n → user_load s r va = Some (f va)) →
  wp (read_chunk {| ck_addr := pte_addr w + d mod PAGE_SIZE; ck_len := len |} n) (λ b s', s' = s ∧ b = f <$> seqZ d n) s.
Proof.
  intros Hs Hr Ew Eur Hd Hc Hn Hlen Hf. pose proof va_size_max. assert (0 ≤ d < VA_SIZE) as Hdv by lia. pose proof (Z.mod_pos_bound d PAGE_SIZE page_pos) as Hmod.
  pose proof Hs as [Hv Hw _].
  assert (∀ va, d ≤ va < d + n → page_of va = page_of d ∧ va mod PAGE_SIZE = d mod PAGE_SIZE + (va - d)) as Hpg.
  { intros va Hva. rw /page_of. change PAGE_SIZE with 4096 in *. Z.div_mod_to_equations. lia. }
  pose proof (Hf d ltac:(lia)) as Hfd. rw (vm_load _ _ _ _ _ _ _ _ _ _ Hs Hr Hdv) /load_of Ew /= Eur in Hfd.
  destruct (held !! pte_addr w) as [b|] eqn:Eb; [|done]. destruct (vm_memory hs he own held s _ b Hv Eb) as [_ Hlb].
  rw /read_chunk. wp_step. apply wp_assert; [cbn [ck_len]; lia|].
  assert (∃ fu, chunk_fuel n = S fu) as [fu ->].
  { rw /chunk_fuel. exists (Z.to_nat (n / PAGE_SIZE + 1)). pose proof (Z.div_pos n PAGE_SIZE ltac:(lia) page_pos). lia. }
  cbn [ck_addr]. apply (read_phys_wp hs he own held s (pte_addr w) (d mod PAGE_SIZE) n b); [done|done|apply pte_addr_bound|lia..|].
  split; [done|]. apply list_eq. intros i. rw /slice list_lookup_fmap. destruct (decide (Z.of_nat i < n)) as [Hlt|Hge].
  - rw lookup_take_lt; [lia|]. rw lookup_drop lookup_seqZ_lt; [lia|]. simpl. destruct (Hpg (d + Z.of_nat i) ltac:(lia)) as [E1 E2].
    pose proof (Hf (d + Z.of_nat i) ltac:(lia)) as Hfi. rw (vm_load _ _ _ _ _ _ _ _ _ _ Hs Hr) in Hfi; [lia|]. rw /load_of E1 Ew /= Eur Eb /= E2 in Hfi.
    rw -Hfi. f_equal. lia.
  - rw lookup_take_ge; [lia|]. rw lookup_seqZ_ge; [lia|]. done.
Qed.
(** An address that is loaded is readable. *)
Lemma load_readable W s own held pt d x : vm_inv s W leak own held → W !! r = Some pt → 0 ≤ d < VA_SIZE → user_load s r d = Some x →
  ∃ w, lvs pt !! page_of d = Some w ∧ contains (pte_flags w) PtEntryFlags.UR = true.
Proof.
  intros Hs Hr Hd. rw (vm_load _ _ _ _ _ _ _ _ _ _ Hs Hr Hd) /load_of. destruct (lvs pt !! page_of d) as [w|]; [|done]. simpl.
  destruct (contains (pte_flags w) PtEntryFlags.UR) eqn:E; [|done]. by exists w.
Qed.

(** One turn of the loop of [copy_u2k_bytes]. *)
Lemma u2k_chunk W s own held pt d c rest acc (f : Z → byte) :
  vm_inv s W leak own held → W !! r = Some pt → 0 ≤ d < c → c ≤ VA_MAX → rest = c - d → (∀ va, d ≤ va < c → user_load s r va = Some (f va)) →
  let n := Z.min (c - d) (PAGE_SIZE - d mod PAGE_SIZE) in
  wp (u2k_step r c (d, rest, acc)) (λ res s', s' = s ∧ res = inl (d + n, rest - n, acc ++ (f <$> seqZ d n))) s.
Proof.
  intros Hs Hr Hd Hc -> Hf n. pose proof va_size_max. assert (0 ≤ d < VA_SIZE) as Hdv by lia. pose proof (Z.mod_pos_bound d PAGE_SIZE page_pos) as Hmod.
  pose proof Hs as [Hv Hw _]. pose proof (wo_pt _ _ _ _ _ _ Hw _ _ Hr) as Hi.
  destruct (load_readable W s own held pt d _ Hs Hr Hdv (Hf d ltac:(lia))) as (w & Ew & Eur).
  rw /u2k_step. case: Z.ltb_spec => ?; [|lia]. wp_step. apply (fetch_chunk_wp hs he _ r own held s pt d _ _ Hv Hi Hdv). rw Ew Eur. rw /unwrap_ok. do 2 wp_step.
  change (ck_len (rest_of w d)) with (PAGE_SIZE - d mod PAGE_SIZE). fold n. wp_step.
  eapply wp_mono; [apply (read_chunk_vm W s own held pt d w n _ f Hs Hr Ew Eur); [lia|lia|lia|lia|intros va Hva; apply Hf; lia]|]. intros b s' [-> ->].
  wp_step. rw (proj2 (va_byte_add_Ok d n (d + n) ltac:(lia) ltac:(lia))); [split; [done|lia]|]. do 2 wp_step. done.
Qed.

Lemma copy_u2k_loop W s own held pt a c (f : Z → byte) :
  vm_inv s W leak own held → W !! r = Some pt → 0 ≤ a ≤ c → c ≤ VA_MAX → (∀ va, a ≤ va < c → user_load s r va = Some (f va)) →
  wp (while_ FUEL (u2k_step r c) (a, c - a, [])) (λ res s', s' = s ∧ res = (c, f <$> seqZ a (c - a))) s.
Proof.
  intros Hs Hr Ha Hc Hf. change VA_MAX with 274877906944 in Hc.
  set (I := λ (st : Z * Z * list byte) s', s' = s ∧ ∃ k, 0 ≤ k ≤ c - a ∧ st = (a + k, c - (a + k), f <$> seqZ a k)).
  apply (while_wp FUEL _ I (λ st _, c - st.1.1)).
  - intros st s1 (-> & k & Hk & ->). cbn [fst]. split; [lia|]. destruct (decide (k < c - a)) as [Hlt|Hge].
    + eapply wp_mono; [apply (u2k_chunk W s own held pt (a + k) c _ (f <$> seqZ a k) f Hs Hr); [lia|change VA_MAX with 274877906944; lia|done|intros va Hva; apply Hf; lia]|].
      set (n := Z.min _ _). pose proof (Z.mod_pos_bound (a + k) PAGE_SIZE page_pos) as Hm. assert (0 < n ≤ c - (a + k)) as Hn by (subst n; lia).
      intros res s2 (-> & ->). split; [|cbn [fst]; lia]. split; [done|]. exists (k + n). split; [lia|]. rw -fmap_app -seqZ_app; [lia..|].
      replace (a + (k + n)) with (a + k + n) by lia. replace (c - (a + k + n)) with (c - (a + k) - n) by lia. done.
    + assert (k = c - a) as -> by lia. rw /u2k_step. case: Z.ltb_spec => ?; [lia|]. wp_step. split; [done|]. f_equal; lia.
  - cbn [fst]. change (Z.pos FUEL) with (2 ^ 40). lia.
  - split; [done|]. exists 0. split; [lia|]. by rw Z.add_0_r.
Qed.
End copy.

(** The whole of the copies. *)
Definition mut_of (s : bytes_ref) : bytes_mut := UMutSlice (us_addr s) (us_len s).
Lemma range_of (dst : bytes_mut) a c : valid (shared_of dst) → mut_slice_va_range dst = Ok (a, c) → 0 ≤ a ≤ c ∧ c ≤ VA_MAX ∧ c = a + ival (ums_len dst).
Proof.
  intros Hv Hr. pose proof Hv as [Ha%usize_bounds Hl%usize_bounds]. apply slice_va_range_Ok in Hr as [[= -> ->] Hm]; [|done..]. simpl in *. lia.
Qed.

Lemma copy_k2u_bytes_wp hs he leak A C W s own held u pt (dst : bytes_mut) b a c :
  vm_inv hs he s W leak own held → W !! up_pt u = Some pt → target hs he A C own pt → valid (shared_of dst) → mut_slice_va_range dst = Ok (a, c) →
  ival (ums_len dst) = Z.of_nat (length b) → A ≤ a → c ≤ C →
  wp (copy_k2u_bytes u dst b) (λ _ s', ∃ own' held' pt', vm_inv hs he s' (<[up_pt u := pt']> W) leak own' held' ∧ target hs he A C own' pt' ∧
    ∀ r va, r ∈ dom W → 0 ≤ va < VA_SIZE → user_load s' r va = stored s (up_pt u) a b r va) s.
Proof.
  intros Hs Hpt Ht Hv Hrng Hlen HA HC. pose proof (range_of dst a c Hv Hrng) as (Ha & Hc & Ec). rw Hlen in Ec.
  rw /copy_k2u_bytes. wp_step. apply wp_assert; [lia|]. rw Hrng /unwrap_ok. do 3 wp_step. cbn [fst snd].
  eapply wp_mono; [apply (copy_k2u_loop hs he leak (up_pt u) A C W s own held pt a c b Hs Hpt Ht); [lia|done|done|done|lia]|].
  intros d s' (-> & own' & held' & pt' & Hs' & Hw' & Hl'). apply wp_assert; [lia|]. by exists own', held', pt'.
Qed.
Lemma copy_u2k_bytes_wp hs he leak W s own held u pt (src : bytes_ref) a c (f : Z → byte) :
  vm_inv hs he s W leak own held → W !! up_pt u = Some pt → valid src → slice_va_range src = Ok (a, c) → (∀ va, a ≤ va < c → user_load s (up_pt u) va = Some (f va)) →
  wp (copy_u2k_bytes u (ival (us_len src)) src) (λ b s', s' = s ∧ b = f <$> seqZ a (c - a)) s.
Proof.
  intros Hs Hpt Hv Hrng Hf. pose proof (range_of (mut_of src) a c Hv Hrng) as (Ha & Hc & Ec). rw /copy_u2k_bytes. wp_step. apply wp_assert; [lia|].
  rw Hrng /unwrap_ok. do 3 wp_step. cbn [fst snd]. assert (ival (us_len src) = c - a) as -> by (simpl in Ec; lia).
  eapply wp_mono; [apply (copy_u2k_loop hs he leak (up_pt u) W s own held pt a c f Hs Hpt); [lia|done|done]|].
  intros res s' (-> & ->). cbn [fst snd]. wp_step. apply wp_assert; [lia|]. by wp_step.
Qed.

(** The page at the address is copied when it is written. *)
Definition copy_on_write (s : Pages) (r va : Z) : bool :=
  match translate s r va with Some w => contains (pte_flags w) (Z.lor FU FC) | None => false end.
Lemma target_reachable hs he W leak own held s r pt a c (pages : gset Z) :
  vm_inv hs he s W leak own held → W !! r = Some pt → 0 ≤ a → c ≤ VA_MAX →
  (∀ va, a ≤ va < c → user_writable s r va = true ∨ copy_on_write s r va = true ∧ page_of va ∈ pages) →
  Z.of_nat (size pages) ≤ free_pages (pg_frames s) → target hs he a c own pt.
Proof.
  intros Hs Hpt Ha Hc Hok Hfree. pose proof va_size_max. split.
  - intros va Hva. specialize (Hok va Hva). rw /user_writable /copy_on_write (vm_translate _ _ _ _ _ _ _ _ _ _ Hs Hpt) in Hok; [lia|].
    destruct (lvs pt !! page_of va) as [w|]; [|by destruct Hok as [?|[? _]]]. exists w. split; [done|]. destruct Hok as [?|[? _]]; [by left|by right].
  - rw -(vm_unowned hs he own held s (vi_ok _ _ _ _ _ _ _ Hs)). etrans; [|exact Hfree]. apply Nat2Z.inj_le. rw -size_dom. apply subseteq_size.
    intros y (w & (Hl & Hy & Hn)%map_lookup_filter_Some)%elem_of_dom. simpl in *.
    destruct (pw_lvs _ _ (pi_wf _ _ _ _ _ _ _ (wo_pt _ _ _ _ _ _ (vi_world _ _ _ _ _ _ _ Hs) _ _ Hpt)) _ _ Hl) as (_ & Hal & _).
    assert (page_of (Z.max a y) = y) as E.
    { rw /page_of. change PAGE_SIZE with 4096 in *. Z.div_mod_to_equations. lia. }
    destruct (Hok (Z.max a y) ltac:(lia)) as [Hw|[_ ?]]; [|by rw E in H0].
    rw /user_writable (vm_translate _ _ _ _ _ _ _ _ _ _ Hs Hpt) in Hw; [lia|]. rw E Hl in Hw. congruence.
Qed.


(** ** Copying between user programs *)

(** [ck] are bytes of the memory at [d], within one page, and not beyond [c]. *)
Definition chunk_at (pt : PT) (flags d c : Z) (ck : Chunk) : Prop :=
  0 ≤ ck_len ck ∧ d + ck_len ck ≤ c ∧
  (ck_len ck = 0 ∨ ∃ w, lvs pt !! page_of d = Some w ∧ contains (pte_flags w) flags = true ∧ ck_addr ck = pte_addr w + d mod PAGE_SIZE ∧
     ck_len ck ≤ PAGE_SIZE - d mod PAGE_SIZE).

Lemma chunk_at_empty pt flags d c : d ≤ c → chunk_at pt flags d c empty_chunk.
Proof. intros Hd. split; [done|]. split; [simpl; lia|by left]. Qed.
Lemma chunk_at_rest pt flags d c w : lvs pt !! page_of d = Some w → contains (pte_flags w) flags = true → d < c →
  chunk_at pt flags d c (chunk_take (rest_of w d) (c - d)) ∧ 0 < ck_len (chunk_take (rest_of w d) (c - d)).
Proof.
  intros Hl Hf Hd. pose proof (Z.mod_pos_bound d PAGE_SIZE page_pos). rw /chunk_take /rest_of /chunk_at /=. case: Z.gtb_spec => Hgt /=; (split; [|lia]);
    (split; [lia|]); (split; [lia|]); right; exists w; split_and!; done || lia.
Qed.
Lemma chunk_at_step pt flags d c ck n (Q : Chunk → Pages → Prop) s : chunk_at pt flags d c ck → 0 ≤ n ≤ ck_len ck →
  (∀ ck', chunk_at pt flags (d + n) c ck' → ck_len ck' = ck_len ck - n → Q ck' s) → wp (chunk_from ck n) Q s.
Proof.
  intros (H0 & Hc & Hck) Hn HQ. rw /chunk_from. wp_step. apply wp_assert; [lia|]. wp_step. apply HQ; [|done]. split; [simpl; lia|]. split; [simpl; lia|]. simpl.
  destruct Hck as [?|(w & Hl & Hf & Ha & Hlen)]; [left; lia|]. destruct (decide (n = ck_len ck)) as [->|Hne]; [left; lia|]. right. exists w.
  assert (page_of (d + n) = page_of d ∧ (d + n) mod PAGE_SIZE = d mod PAGE_SIZE + n) as [-> ->]; [|split_and!; [done..|lia|lia]].
  rw /page_of. change PAGE_SIZE with 4096 in *. Z.div_mod_to_equations. lia.
Qed.
Lemma chunk_at_mono pt pt' flags d c ck : (∀ w, lvs pt !! page_of d = Some w → lvs pt' !! page_of d = Some w) → chunk_at pt flags d c ck → chunk_at pt' flags d c ck.
Proof. intros H (H0 & Hc & Hck). split; [done|]. split; [done|]. destruct Hck as [?|(w & Hl & ?)]; [by left|]. right. exists w. split; [by apply H|done]. Qed.

(** A write to a prefix of a chunk. *)
Lemma write_chunk_prefix pa l1 l2 b (Q : unit → Pages → Prop) s : Z.of_nat (length b) ≤ l2 →
  wp (write_chunk {| ck_addr := pa; ck_len := l1 |} b) Q s → wp (write_chunk {| ck_addr := pa; ck_len := l2 |} b) Q s.
Proof.
  intros Hl. rw /write_chunk. cbn [ck_len ck_addr]. intros H. apply wp_run in H as (x & s' & E & HQ).
  wp_step. apply wp_assert; [lia|]. rw /assert_ in E. destruct (_ <=? l1); [|done]. by apply (wp_of_run _ _ _ x s').
Qed.

Section u2u.
Context (hs he : Z) (leak : Z → Z) (r r0 : Z) (Hne : r0 ≠ r) (A C : Z).
Implicit Types (s : Pages) (W : gmap Z PT) (pt : PT).
Abbreviation vm_inv := (vm_inv hs he).
Abbreviation target := (target hs he A C).

Lemma dst_next W s own held pt d c ck :
  vm_inv s W leak own held → W !! r = Some pt → target own pt → 0 ≤ d < c → c ≤ VA_MAX → A ≤ d → c ≤ C → chunk_at pt PtEntryFlags.UW d c ck →
  wp (next_chunk (λ va, fetch_chunk_mut r va PtEntryFlags.UW) (d + ck_len ck) c ck) (λ p s', ∃ own' held' pt', vm_inv s' (<[r := pt']> W) leak own' held' ∧
    target own' pt' ∧ loads_same (dom W) (λ _ _, True) s s' ∧ p.1 = d + ck_len p.2 ∧ 0 < ck_len p.2 ∧ chunk_at pt' PtEntryFlags.UW d c p.2) s.
Proof.
  intros Hs Hr Ht Hd Hc HA HC Hck. pose proof va_size_max. rw /next_chunk. case: Z.eqb_spec => E.
  - rw E Z.add_0_r. wp_step. apply wp_assert; [lia|]. wp_step.
    eapply wp_mono; [apply (fetch_target hs he leak r A C W s own held pt d Hs Hr Ht); lia|]. intros res s1 (own1 & held1 & w' & -> & Huw' & Ht1 & Hs1 & Hld).
    rw /unwrap_ok. do 2 wp_step. set (pt1 := set_lvs _ pt) in *. destruct (chunk_at_rest pt1 PtEntryFlags.UW d c w' (lookup_insert_eq _ _ _) Huw' ltac:(lia)) as [Hca Hpos].
    set (ck1 := chunk_take _ _) in *. pose proof Hca as (_ & Hcc & _). wp_step. rw (proj2 (va_byte_add_Ok d (ck_len ck1) (d + ck_len ck1) ltac:(lia) ltac:(lia))); [split; [done|lia]|].
    do 2 wp_step. by exists own1, held1, pt1.
  - wp_step. exists own, held, pt. pose proof Hck as (? & ? & ?). split_and!; [by rw insert_id|done|by intros ? ? ?|done|cbn [snd]; lia|done].
Qed.
Lemma src_next W s own held pt d c ck (f : Z → byte) :
  vm_inv s W leak own held → W !! r0 = Some pt → 0 ≤ d < c → c ≤ VA_MAX → (∀ va, d ≤ va < c → user_load s r0 va = Some (f va)) → chunk_at pt PtEntryFlags.UR d c ck →
  wp (next_chunk (λ va, fetch_chunk r0 va PtEntryFlags.UR) (d + ck_len ck) c ck) (λ p s', s' = s ∧ p.1 = d + ck_len p.2 ∧ 0 < ck_len p.2 ∧ chunk_at pt PtEntryFlags.UR d c p.2) s.
Proof.
  intros Hs Hr Hd Hc Hf Hck. pose proof va_size_max. rw /next_chunk. case: Z.eqb_spec => E.
  - rw E Z.add_0_r. wp_step. apply wp_assert; [lia|]. wp_step. pose proof Hs as [Hv Hw _]. pose proof (wo_pt _ _ _ _ _ _ Hw _ _ Hr) as Hi.
    destruct (load_readable hs he leak r0 W s own held pt d _ Hs Hr ltac:(lia) (Hf d ltac:(lia))) as (w & Ew & Eur).
    apply (fetch_chunk_wp hs he _ r0 own held s pt d _ _ Hv Hi ltac:(lia)). rw Ew Eur. rw /unwrap_ok. do 2 wp_step.
    destruct (chunk_at_rest pt PtEntryFlags.UR d c w Ew Eur ltac:(lia)) as [Hca Hpos]. set (ck1 := chunk_take _ _) in *. pose proof Hca as (_ & Hcc & _).
    wp_step. rw (proj2 (va_byte_add_Ok d (ck_len ck1) (d + ck_len ck1) ltac:(lia) ltac:(lia))); [split; [done|lia]|]. do 2 wp_step. done.
  - wp_step. pose proof Hck as (? & ? & ?). split_and!; [done|done|cbn [snd]; lia|done].
Qed.

(** The loop has copied [k] bytes, from [a0] on to [a] on. *)
Definition u2u_at pt pt0 (a c a0 c0 k : Z) (st : U2U) : Prop :=
  uu_total_copied st = k ∧ uu_dst_start st = a + k + ck_len (uu_dst_bytes st) ∧ uu_src_start st = a0 + k + ck_len (uu_src_bytes st) ∧
  chunk_at pt PtEntryFlags.UW (a + k) c (uu_dst_bytes st) ∧ chunk_at pt0 PtEntryFlags.UR (a0 + k) c0 (uu_src_bytes st).
Lemma u2u_turn W s own held pt pt0 a c a0 c0 k st (f : Z → byte) :
  vm_inv s W leak own held → W !! r = Some pt → W !! r0 = Some pt0 → 0 ≤ a → c ≤ VA_MAX → 0 ≤ a0 → c0 ≤ VA_MAX → c0 - a0 = c - a → 0 ≤ k < c - a →
  target own pt → A ≤ a → c ≤ C → (∀ va, a0 ≤ va < c0 → user_load s r0 va = Some (f va)) → u2u_at pt pt0 a c a0 c0 k st →
  wp (u2u_step r r0 c c0 (c - a) st) (λ res s', ∃ n st' own' held' pt', res = inl st' ∧ 0 < n ≤ c - a - k ∧ vm_inv s' (<[r := pt']> W) leak own' held' ∧
    target own' pt' ∧ u2u_at pt' pt0 a c a0 c0 (k + n) st' ∧
    ∀ r' va, r' ∈ dom W → 0 ≤ va < VA_SIZE → user_load s' r' va = stored s r (a + k) (f <$> seqZ (a0 + k) n) r' va) s.
Proof.
  intros Hs Hr Hr0 Ha Hc Ha0 Hc0 Elen Hk Ht HA HC Hf (Ek & Ed & Es & Hcd & Hcs). pose proof va_size_max. rw /u2u_step Ek. case: Z.ltb_spec => ?; [|lia].
  wp_step. rw Ed.
  eapply wp_mono; [apply (dst_next W s own held pt (a + k) c _ Hs Hr Ht); [lia|done|lia|done|done]|]. intros [d1 ckd] s1 (own1 & held1 & pt1 & Hs1 & Ht1 & Hld & Ed1 & Hpd & Hcd1). cbn [fst snd] in *.
  wp_step. rw Es. assert (<[r := pt1]> W !! r0 = Some pt0) as Hr0' by by rw lookup_insert_ne; [apply not_eq_sym|].
  assert (∀ va, a0 + k ≤ va < c0 → user_load s1 r0 va = Some (f va)) as Hf1.
  { intros va Hva. rw (Hld r0 va) //; [by apply elem_of_dom_2 in Hr0|lia|]. apply Hf. lia. }
  eapply wp_mono; [apply (src_next _ s1 own1 held1 pt0 (a0 + k) c0 _ f Hs1 Hr0'); [lia|done..]|]. intros [d2 cks] s2 (-> & Ed2 & Hps & Hcs1). cbn [fst snd] in *.
  set (n := Z.min (ck_len ckd) (ck_len cks)). assert (0 < n) as Hn by lia. pose proof Hcd1 as (_ & Hcd2 & [?|(wd & Hld1 & Hud & Had & Hlend)]); [lia|].
  pose proof Hcs1 as (_ & Hcs2 & [?|(ws & Hls & Hus & Has & Hlens)]); [lia|].
  wp_step. destruct cks as [pas lens]. cbn [ck_addr ck_len] in Has, Hlens, Hps, Hcs2, Ed2, n. subst pas.
  eapply wp_mono; [apply (read_chunk_vm hs he leak r0 _ s1 own1 held1 pt0 (a0 + k) ws n lens f Hs1 Hr0' Hls Hus); [lia|lia|lia|lia|intros va Hva; apply Hf1; lia]|].
  intros b s2 [-> ->]. set (b := f <$> seqZ (a0 + k) n). assert (Z.of_nat (length b) = n) as Hb by (subst b; rw length_fmap length_seqZ; lia).
  wp_step. destruct ckd as [pad lend]. cbn [ck_addr ck_len] in Had, Hlend, Hpd, Hcd2, Ed1, n. subst pad.
  apply (write_chunk_prefix _ (PAGE_SIZE - (a + k) mod PAGE_SIZE)); [lia|].
  eapply wp_mono; [apply (write_chunk_vm hs he s1 _ leak own1 held1 r pt1 (a + k) wd b Hs1 (lookup_insert_eq _ _ _)); [lia|done|done|lia]|].
  intros [] s2 (held2 & Hs2 & Hl2). wp_step. apply (chunk_at_step pt1 PtEntryFlags.UW (a + k) c _ n); [done|cbn [ck_len]; lia|]. intros ckd' Hcd' Eld. cbn [ck_len] in Eld.
  wp_step. apply (chunk_at_step pt0 PtEntryFlags.UR (a0 + k) c0 _ n); [done|cbn [ck_len]; lia|]. intros cks' Hcs' Els. cbn [ck_len] in Els. wp_step.
  eexists n, _, own1, held2, pt1. split; [done|]. split; [lia|]. split; [done|]. split; [done|]. split.
  - rw /u2u_at. cbn [uu_total_copied uu_dst_start uu_src_start uu_dst_bytes uu_src_bytes]. rw !Z.add_assoc. split_and!; [done|lia|lia|done|done].
  - intros r' va Hr' Hva. rw Hl2 //; [by rw dom_insert_lookup_L|]. rw /stored. by rw (Hld r' va).
Qed.
Lemma copy_u2u_loop W s own held pt pt0 a c a0 c0 (f : Z → byte) :
  vm_inv s W leak own held → W !! r = Some pt → W !! r0 = Some pt0 → 0 ≤ a ≤ c → c ≤ VA_MAX → 0 ≤ a0 ≤ c0 → c0 ≤ VA_MAX → c0 - a0 = c - a →
  target own pt → A ≤ a → c ≤ C → (∀ va, a0 ≤ va < c0 → user_load s r0 va = Some (f va)) →
  wp (while_ FUEL (u2u_step r r0 c c0 (c - a))
       {| uu_dst_start := a; uu_dst_bytes := empty_chunk; uu_src_start := a0; uu_src_bytes := empty_chunk; uu_total_copied := 0 |})
    (λ st s', uu_dst_start st = c ∧ uu_src_start st = c0 ∧ ∃ own' held' pt', vm_inv s' (<[r := pt']> W) leak own' held' ∧ target own' pt' ∧
      ∀ r' va, r' ∈ dom W → 0 ≤ va < VA_SIZE → user_load s' r' va = stored s r a (f <$> seqZ a0 (c - a)) r' va) s.
Proof.
  intros Hs Hr Hr0 Ha Hc Ha0 Hc0 Elen Ht HA HC Hf. pose proof va_size_max.
  set (I := λ n st s', ∃ k own' held' pt', n = c - a - k ∧ 0 ≤ k ≤ c - a ∧ u2u_at pt' pt0 a c a0 c0 k st ∧ vm_inv s' (<[r := pt']> W) leak own' held' ∧ target own' pt' ∧
    ∀ r' va, r' ∈ dom W → 0 ≤ va < VA_SIZE → user_load s' r' va = stored s r a (f <$> seqZ a0 k) r' va).
  apply (while_wp_rank FUEL _ I _ (c - a)); [|change VA_MAX with 274877906944 in Hc; change (Z.pos FUEL) with (2 ^ 40); lia|].
  - intros n st s1 (k & own1 & held1 & pt1 & -> & Hk & Hat & Hs1 & Ht1 & Hl1). split; [lia|]. destruct (decide (k < c - a)) as [Hlt|Hge].
    + assert (<[r := pt1]> W !! r0 = Some pt0) as Hr0' by by rw lookup_insert_ne; [apply not_eq_sym|].
      eapply wp_mono; [apply (u2u_turn _ s1 own1 held1 pt1 pt0 a c a0 c0 k st f Hs1 (lookup_insert_eq _ _ _) Hr0'); [lia|done|lia|done|done|lia|done|done|done| |done]|].
      { intros va Hva. rw Hl1; [by apply elem_of_dom_2 in Hr0|lia|]. rw /stored decide_False; [by intros [? _]|]. by apply Hf. }
      intros res s2 (n & st' & own2 & held2 & pt2 & -> & Hn & Hs2 & Ht2 & Hat2 & Hl2). rw insert_insert_eq in Hs2. exists (c - a - (k + n)). split; [lia|].
      exists (k + n), own2, held2, pt2. split; [done|]. split; [lia|]. split; [done|]. split; [done|]. split; [done|].
      { intros r' va Hr' Hva. rw Hl2 //; [by rw dom_insert_lookup_L|]. rw {1}/stored Hl1 //. rw seqZ_app; [lia..|]. rw fmap_app.
        pose proof (stored_app s r a (f <$> seqZ a0 k) (f <$> seqZ (a0 + k) n) r' va) as E. rw -E.
        assert (Z.of_nat (length (f <$> seqZ a0 k)) = k) as -> by (rw length_fmap length_seqZ; lia). done. }
    + assert (k = c - a) as -> by lia. destruct Hat as (E1 & E2 & E3 & (H4 & H4' & _) & (H5 & H5' & _)). rw /u2u_step E1. case: Z.ltb_spec => ?; [lia|]. wp_step.
      split; [lia|]. split; [lia|]. by exists own1, held1, pt1.
  - exists 0, own, held, pt. split; [lia|]. split; [lia|]. split.
    { rw /u2u_at. cbn. rw !Z.add_0_r. split_and!; [done..|apply chunk_at_empty; lia|apply chunk_at_empty; lia]. }
    split; [by rw insert_id|]. split; [done|]. intros r' va _ _. rw /stored decide_False //. simpl. lia.
Qed.
End u2u.

Lemma copy_u2u_bytes_wp hs he leak A C W s own held u pt u0 pt0 (dst : bytes_mut) (src : bytes_ref) a c a0 c0 (f : Z → byte) :
  vm_inv hs he s W leak own held → W !! up_pt u = Some pt → target hs he A C own pt → W !! up_pt u0 = Some pt0 → up_pt u0 ≠ up_pt u → valid (shared_of dst) → valid src →
  mut_slice_va_range dst = Ok (a, c) → slice_va_range src = Ok (a0, c0) → ival (us_len src) = ival (ums_len dst) → A ≤ a → c ≤ C →
  (∀ va, a0 ≤ va < c0 → user_load s (up_pt u0) va = Some (f va)) →
  wp (copy_u2u_bytes u dst u0 src) (λ _ s', ∃ own' held' pt', vm_inv hs he s' (<[up_pt u := pt']> W) leak own' held' ∧ target hs he A C own' pt' ∧
    ∀ r va, r ∈ dom W → 0 ≤ va < VA_SIZE → user_load s' r va = stored s (up_pt u) a (f <$> seqZ a0 (c - a)) r va) s.
Proof.
  intros Hs Hr Ht Hr0 Hne Hvd Hvs Hrd Hrs Hlen HA HC Hf. pose proof (range_of dst a c Hvd Hrd) as (Ha & Hc & Ec). pose proof (range_of (mut_of src) a0 c0 Hvs Hrs) as (Ha0 & Hc0 & Ec0).
  simpl in Ec0. rw /copy_u2u_bytes. wp_step. apply wp_assert; [lia|]. rw Hrd Hrs /unwrap_ok. do 4 wp_step. cbn [fst snd]. wp_step.
  replace (ival (us_len src)) with (c - a) by lia.
  eapply wp_mono; [apply (copy_u2u_loop hs he leak (up_pt u) (up_pt u0) Hne A C W s own held pt pt0 a c a0 c0 f Hs Hr Hr0); [lia|done|lia|done|lia|done|done|done|done]|].
  intros st s' (E1 & E2 & Hpost). wp_step. apply wp_assert; [lia|]. apply wp_assert; [lia|done].
Qed.
