(* ===== verification/VmExample.v ===== *)
(** * Runs of virtual memory

    A small system in which the properties of virtual memory apply, and runs that show
    what happens at their limits. *)

From S2P Require Import Prelude KError Pod SysTypes Addr PageAlloc Pages Pte PteSpec PageTable PtSpec PtWalk VmView VmOps VmSystem VmClaims VmUser VmHeap VmCopy.

(** [n] pages of memory. *)
Definition raw (n : nat) : Pages :=
  {| pg_refs := []; pg_frames := {| heap_start := 0; heap_end := 0; free_list := None; total_pages := 0; free_pages := 0;
     memory := list_to_map ((λ i, (Z.of_nat i * 4096, zeroes 4096)) <$> seq 16 n) |} |}.
Definition after {A} (o : outcome Pages A) : Pages := match o with Ret _ s => s | Panic => raw 0 end.
Definition result_of {A} (o : outcome Pages A) : option A := match o with Ret a _ => Some a | Panic => None end.
Definition boot (n : nat) : Pages := after (manager_new 65536 (65536 + 4096 * Z.of_nat n) (raw n)).

Lemma run_after {A} (m : M Pages A) s a : result_of (m s) = Some a → m s = Ret a (after (m s)).
Proof. destruct (m s); naive_solver. Qed.

Lemma translate_page leaky R s r y :
  vm_reachable leaky R s → r ∈ R → 0 ≤ y < VA_SIZE → translate s r y = translate s r (page_of y).
Proof.
  intros Hre Hr Hy. destruct (roots leaky R s Hre) as (hs & he & W & leak & own & held & Hs & _ & Hin). destruct (Hin _ Hr) as [pt Hpt].
  assert (0 ≤ page_of y < VA_SIZE) as Hy' by (pose proof (page_of_range y); rw /page_of in H |- *; change PAGE_SIZE with 4096 in *; Z.div_mod_to_equations; lia).
  rw (vm_translate _ _ _ _ _ _ _ _ _ _ Hs Hpt Hy) (vm_translate _ _ _ _ _ _ _ _ _ _ Hs Hpt Hy'). by rw (page_of_id (page_of y)); [apply page_of_aligned|].
Qed.
Lemma page_free leaky R s r a :
  vm_reachable leaky R s → r ∈ R → 0 ≤ a < VA_MAX → a mod PAGE_SIZE = 0 → translate s r a = None → ∀ y, a ≤ y < a + PAGE_SIZE → translate s r y = None.
Proof.
  intros Hre Hr Ha Hal Hn y Hy. pose proof va_size_max. assert (page_of y = a) as E.
  { rw /page_of. change PAGE_SIZE with 4096 in *. Z.div_mod_to_equations. lia. }
  rw (translate_page leaky R) //; [|by rw E]. change VA_MAX with 274877906944 in *. change VA_SIZE with 549755813888. change PAGE_SIZE with 4096 in *. lia.
Qed.

Lemma raw_lookup n (i : nat) : (16 ≤ i < 16 + n)%nat → memory (pg_frames (raw n)) !! (Z.of_nat i * 4096) = Some (zeroes 4096).
Proof.
  intros Hi. simpl. apply elem_of_list_to_map_1.
  - rw -list_fmap_compose. apply NoDup_fmap_2; [|apply NoDup_seq]. intros x y. simpl. lia.
  - apply list_elem_of_fmap. exists i. split; [done|]. by apply elem_of_seq.
Qed.
Lemma vm_boot_ok n : (1 < n < 1000)%nat → result_of (manager_new 65536 (65536 + 4096 * Z.of_nat n) (raw n)) = Some tt → vm_boot (boot n).
Proof.
  intros Hn E. exists 65536, (65536 + 4096 * Z.of_nat n), (raw n). split; [lia|]. split; [lia|]. split; [|split].
  - change (page_roundup 65536) with 65536. rw page_rounddown_eq; [lia|]. change PAGE_SIZE with 4096. Z.div_mod_to_equations. lia.
  - intros p Hp Hal. change PAGE_SIZE with 4096 in Hal. exists (zeroes 4096). split; [|done].
    assert (p = Z.of_nat (Z.to_nat (p / 4096)) * 4096) as -> by (Z.div_mod_to_equations; lia). apply raw_lookup. Z.div_mod_to_equations. lia.
  - rw (run_after _ _ _ E). done.
Qed.

(** ** Two page tables with a shared page *)

Definition s0 : Pages := boot 16.
Definition s1 : Pages := after (try_allocate s0).
Definition s2 : Pages := after (try_allocate s1).
Definition r1 : Z := default 0 (result_of (try_allocate s0) ≫= ok).
Definition r2 : Z := default 0 (result_of (try_allocate s1) ≫= ok).
Definition s3 : Pages := after (map_addrs r1 4096 allocate_new_zeroed 4096 PtEntryFlags.URW s2).
Definition hi : list byte := [Byte.x68; Byte.x69].
Definition s4 : Pages := after (store_chunk r1 4100 hi s3).
Definition s5 : Pages := after (clone_pages_from r2 r1 (Range 4096 8192) FU s4).
Definition two : gset Z := {[r1; r2]}.

Lemma e1 : try_allocate s0 = Ret (Ok r1) s1.
Proof. apply (run_after try_allocate s0). vm_compute. reflexivity. Qed.
Lemma e2 : try_allocate s1 = Ret (Ok r2) s2.
Proof. apply (run_after try_allocate s1). vm_compute. reflexivity. Qed.
Lemma s2_ok : vm_reachable false two s2.
Proof.
  assert (vm_reachable false ∅ s0) as H0.
  { exists []. split; [apply vm_run_boot, vm_boot_ok; [lia|vm_compute; reflexivity]|]. split; [by intros ?%elem_of_nil|by intros _ ?%elem_of_nil]. }
  pose proof (vm_reachable_step _ _ _ _ _ H0 (vm_new ∅ s0 r1 s1 e1)) as H1. pose proof (vm_reachable_step _ _ _ _ _ H1 (vm_new _ s1 r2 s2 e2)) as H2.
  by rw union_empty_r_L (comm_L (∪)) in H2.
Qed.

Lemma r1_in : r1 ∈ two.
Proof. rw /two. set_solver. Qed.
Lemma r2_in : r2 ∈ two.
Proof. rw /two. set_solver. Qed.
Lemma roots_differ : r2 ≠ r1.
Proof. vm_compute. done. Qed.

(** The first page of the user's addresses is free in [s2]. *)
Lemma s2_free y : 4096 ≤ y < 4096 + 4096 → translate s2 r1 y = None.
Proof. apply (page_free false two s2 r1 4096 s2_ok r1_in ltac:(done) eq_refl). vm_compute. reflexivity. Qed.

Lemma e3 : map_addrs r1 4096 allocate_new_zeroed 4096 PtEntryFlags.URW s2 = Ret (Ok tt) s3.
Proof. apply (run_after (map_addrs r1 4096 allocate_new_zeroed 4096 PtEntryFlags.URW) s2). vm_compute. reflexivity. Qed.
Lemma s3_ok : vm_reachable false two s3.
Proof.
  refine (vm_reachable_step false two s2 two s3 s2_ok (vm_map two s2 r1 4096 4096 PtEntryFlags.URW (Ok tt) s3 r1_in _ _ _ _ _ _ _ s2_free e3)); done.
Qed.

Lemma e4 : store_chunk r1 4100 hi s3 = Ret (Ok tt) s4.
Proof. apply (run_after (store_chunk r1 4100 hi) s3). vm_compute. reflexivity. Qed.
Lemma s4_ok : vm_reachable false two s4.
Proof. refine (vm_reachable_step false two s3 two s4 s3_ok (vm_store two s3 r1 4100 hi (Ok tt) s4 r1_in _ _ e4)); done. Qed.

Definition data_pte : Z := default 0 (translate s4 r1 4096).
Lemma data_pte_ok : translate s4 r1 4096 = Some data_pte.
Proof. vm_compute. reflexivity. Qed.

Lemma s4_shared : can_share s4 r2 r1 4096 8192.
Proof.
  split.
  - apply (page_free false two s4 r2 4096 s4_ok r2_in ltac:(done) eq_refl). vm_compute. reflexivity.
  - intros y w Hy. assert (page_of y = 4096) as E by (rw /page_of; change PAGE_SIZE with 4096; Z.div_mod_to_equations; lia).
    rw (translate_page false two s4 r1 y s4_ok r1_in); [change VA_SIZE with 549755813888; lia|]. rw E.
    rw data_pte_ok. intros Ew%(inj Some) _. rw -Ew. split; [vm_compute; reflexivity|]. intros n s1' En.
    assert (result_of (ref_count (pte_addr data_pte) s4) = Some 1) as E1 by (vm_compute; reflexivity).
    rw En in E1. apply (inj Some) in E1. lia.
Qed.
Lemma e5 : clone_pages_from r2 r1 (Range 4096 8192) FU s4 = Ret (Ok tt) s5.
Proof. apply (run_after (clone_pages_from r2 r1 (Range 4096 8192) FU) s4). vm_compute. reflexivity. Qed.
Lemma s5_ok : vm_reachable false two s5.
Proof.
  refine (vm_reachable_step false two s4 two s5 s4_ok (vm_clone two s4 r2 r1 4096 8192 (Ok tt) s5 r2_in r1_in roots_differ _ _ _ (proj1 s4_shared) (proj2 s4_shared) e5)); done.
Qed.

(** ** The properties in this system *)

Lemma rng a v b : (a <=? v) && (v <? b) = true → a ≤ v < b.
Proof. lia. Qed.
Lemma va_in va : (0 <=? va) && (va <? VA_SIZE) = true → 0 ≤ va < VA_SIZE.
Proof. lia. Qed.

Lemma writable_pages_are_private_witness : user_writable s4 r1 4096 = true ∧ r1 = r1 ∧ page_of 8191 = page_of 4096.
Proof.
  split; [vm_compute; reflexivity|].
  apply (writable_pages_are_private false two s4 s4_ok r1 r1 4096 8191 data_pte data_pte r1_in r1_in); try done; vm_compute; reflexivity.
Defined.

Lemma stores_are_isolated_witness : user_load s4 r1 4101 = user_load s3 r1 4101 ≫= (λ _, Some Byte.x69) ∧ user_load s4 r1 4102 = user_load s3 r1 4102.
Proof.
  pose proof (wp_ret_inv _ _ _ _ _ (stores_are_isolated false two s3 s3_ok r1 4100 hi r1_in (va_in 4100 eq_refl) ltac:(done)) e4) as H.
  split; [exact (H r1 4101 r1_in (va_in 4101 eq_refl))|exact (H r1 4102 r1_in (va_in 4102 eq_refl))].
Defined.

Lemma map_gives_zeroed_pages_witness : user_load s3 r1 5000 = Some Byte.x00 ∧ user_load s3 r2 5000 = user_load s2 r2 5000.
Proof.
  pose proof (wp_ret_inv _ _ _ _ _ (map_gives_zeroed_pages false two s2 s2_ok r1 4096 4096 PtEntryFlags.URW r1_in ltac:(done) ltac:(done) ltac:(done) ltac:(done)
    ltac:(done) ltac:(done) ltac:(done) s2_free) e3) as [Ho Hz].
  split; [exact (proj2 (Hz 5000 (rng 4096 5000 (4096 + 4096) eq_refl)))|]. apply (Ho r2 5000 r2_in (va_in 5000 eq_refl)). intros E. by destruct (roots_differ E).
Defined.

Lemma unmap_removes_pages_witness : ∃ s', unmap_addrs r1 4096 4096 s4 = Ret (Ok tt) s' ∧ translate s' r1 4096 = None.
Proof.
  destruct (wp_run _ _ _ (unmap_removes_pages false two s4 s4_ok r1 4096 4096 r1_in ltac:(done) ltac:(done) ltac:(done) ltac:(done) ltac:(done))) as (res & s' & E & -> & H & _).
  exists s'. split; [exact E|]. exact (H 4096 (rng 4096 4096 (4096 + 4096) eq_refl)).
Defined.

Lemma clone_shares_pages_witness : user_load s5 r2 4100 = user_load s4 r1 4100 ∧ user_writable s5 r1 4100 = false.
Proof.
  destruct (wp_ret_inv _ _ _ _ _ (clone_shares_pages false two s4 s4_ok r2 r1 4096 8192 r2_in r1_in roots_differ ltac:(done) ltac:(done) ltac:(done) s4_shared) e5)
    as (z & Hz & Hl & _ & -> & Hw).
  split; [|exact (proj2 (Hw 4100 (rng 4096 (page_of 4100) 8192 eq_refl)))]. exact (Hl 4100 (va_in 4100 eq_refl) (rng 4096 (page_of 4100) 8192 eq_refl)).
Defined.

Definition s6 : Pages := after (table_request_user_write r1 4100 s5).
Lemma e6 : table_request_user_write r1 4100 s5 = Ret (Ok tt) s6.
Proof. apply (run_after (table_request_user_write r1 4100) s5). vm_compute. reflexivity. Qed.
Lemma fault_gives_write_access_witness : user_writable s6 r1 4100 = true ∧ user_load s6 r2 4100 = user_load s5 r2 4100.
Proof.
  destruct (wp_ret_inv _ _ _ _ _ (fault_gives_write_access false two s5 s5_ok r1 4100 r1_in (va_in 4100 eq_refl)) e6) as [Hw Hl].
  split; [exact Hw|exact (Hl r2 4100 r2_in (va_in 4100 eq_refl))].
Defined.

Definition s7 : Pages := after (table_drop r1 s5).
Lemma e7 : table_drop r1 s5 = Ret tt s7.
Proof. apply (run_after (table_drop r1) s5). vm_compute. reflexivity. Qed.
Lemma drop_keeps_others_witness : user_load s7 r2 4100 = user_load s5 r2 4100.
Proof.
  destruct (wp_ret_inv _ _ _ _ _ (drop_keeps_others false two s5 s5_ok r1 r1_in) e7) as [_ H].
  exact (H r2 4100 r2_in (va_in 4100 eq_refl) roots_differ).
Defined.

Definition s8 : Pages := after (table_drop r2 s7).
Lemma e8 : table_drop r2 s7 = Ret tt s8.
Proof. apply (run_after (table_drop r2) s7). vm_compute. reflexivity. Qed.
Lemma s8_ok : vm_reachable false ∅ s8.
Proof.
  assert (∅ = (two ∖ {[r1]}) ∖ {[r2]} :> gset Z) as -> by (rw /two; set_solver).
  refine (vm_reachable_step _ _ _ _ _ (vm_reachable_step _ _ _ _ _ s5_ok (vm_drop two s5 r1 s7 r1_in e7)) (vm_drop _ s7 r2 s8 _ e8)).
  pose proof roots_differ. rw /two. set_solver.
Qed.
Lemma dropped_pages_are_free_witness : free_pages (pg_frames s8) = total_pages (pg_frames s8) ∧ total_pages (pg_frames s8) = 15.
Proof. split; [exact (dropped_pages_are_free s8 s8_ok)|vm_compute; reflexivity]. Defined.

(** The address space of the first table, with an empty heap. *)
Definition u1 : UserPageTable := {| up_pt := r1; up_heap_start := 4096; up_heap_size := 0; up_stack_start := USER_STACK_BOTTOM; up_stack_size := USER_STACK_SIZE |}.
Lemma u1_heap : heap_ok u1.
Proof. done. Qed.
Definition s9 : Pages := after (sbrk u1 100 s2).
Lemma e9 : sbrk u1 100 s2 = Ret (Ok 4096, with_heap_size 100 u1) s9.
Proof. apply (run_after (sbrk u1 100) s2). vm_compute. reflexivity. Qed.
Lemma sbrk_grows_witness : user_writable s9 r1 4195 = true ∧ user_load s9 r1 4195 = Some Byte.x00.
Proof.
  destruct (wp_ret_inv _ _ _ _ _ (sbrk_grows false two s2 s2_ok u1 r1_in u1_heap 100 ltac:(done) ltac:(done) s2_free) e9) as (_ & _ & _ & H).
  exact (H 4195 (rng 4096 4195 8192 eq_refl)).
Defined.
Lemma sbrk_roundtrip_witness : ∃ r s', (r ← sbrk u1 100; match r with (Ok _, u') => sbrk u' (- 100) | (Err e, u') => mret (Err e, u') end) s2 = Ret r s' ∧
  r.2 = u1 ∧ user_load s' r1 4196 = user_load s2 r1 4196.
Proof.
  destruct (wp_run _ _ _ (sbrk_roundtrip false two s2 s2_ok u1 r1_in u1_heap 100 ltac:(done) ltac:(done) s2_free)) as (r & s' & E & Hr & H).
  exists r, s'. split; [exact E|]. split; [exact Hr|]. exact (H r1 4196 r1_in (va_in 4196 eq_refl)).
Defined.

Definition dst1 : bytes_mut := UMutSlice (Int 4100) (Int 2).
(** The page is shared with the second page table. *)
Lemma s5_access va : 4100 ≤ va < 4102 → is_Some (user_load s5 r1 va) ∧ (user_writable s5 r1 va = true ∨ copy_on_write s5 r1 va = true ∧ page_of va ∈ ({[4096]} : gset Z)).
Proof.
  intros Hva. assert (va = 4100 ∨ va = 4101) as [-> | ->] by lia.
  - split; [exists Byte.x68; vm_compute; reflexivity|]. right. split; [vm_compute; reflexivity|]. by apply elem_of_singleton.
  - split; [exists Byte.x69; vm_compute; reflexivity|]. right. split; [vm_compute; reflexivity|]. by apply elem_of_singleton.
Qed.

(** ** Runs at the limits *)

(** What the user loads from a page table. *)
Definition load_at (root va : Z) : M Pages (option byte) := λ s, Ret (user_load s root va) s.

(** Two page tables share a page and no page is free. *)
Definition share_full : M Pages (Z * Z) :=
  r1 ← try_allocate; r1 ← unwrap_ok r1;
  r2 ← try_allocate; r2 ← unwrap_ok r2;
  r ← map_addrs r1 4096 allocate_new_zeroed 4096 PtEntryFlags.URW; unwrap_ok r;;
  r ← clone_pages_from r2 r1 (Range 4096 8192) FU; unwrap_ok r;;
  mret (r1, r2).
Definition full_run : M Pages (result KernelError unit * result KernelError unit * option byte * option byte) :=
  r ← share_full;
  failed ← table_request_user_write r.1 4100;
  before ← load_at r.1 4100;
  stored ← store_chunk r.2 4100 hi;
  loaded ← load_at r.1 4100;
  mret (failed, stored, before, loaded).
(** when the copy on a write fault fails for want of a page, the page table loses its
    reference to the page but keeps its mapping.  The other owner then takes the page to be
    its own, and what it writes there shows in the page table whose fault failed. *)
Theorem failed_copy_breaks_isolation :
  result_of (full_run (boot 8)) = Some (Err NoFreePage, Ok tt, Some Byte.x00, Some Byte.x68).
Proof. vm_compute. reflexivity. Qed.

(** A process with a stack. *)
Definition new_process : M Pages UserPageTable :=
  r ← user_new 0x8000 1; u ← unwrap_ok r;
  r ← alloc_stack u; unwrap_ok r;;
  mret u.
Definition sbrk_run (n : Z) : M Pages (result KernelError Z * option byte * option byte) :=
  u ← new_process;
  before ← load_at (up_pt u) USER_STACK_BOTTOM;
  r ← sbrk u n;
  now ← load_at (up_pt r.2) USER_STACK_BOTTOM;
  mret (r.1, before, now).
(** an [sbrk] that runs out of memory undoes its mappings by unmapping the whole range
    that it was asked for, also where the range covers the stack: the process survives the
    error, its stack does not. *)
Theorem failed_sbrk_unmaps_stack :
  result_of (sbrk_run 0x2000000000 (boot 24)) = Some (Err NoFreePage, Some Byte.x00, None).
Proof. vm_compute. reflexivity. Qed.

(** An [sbrk] past the end of the address space fails and keeps the size that it was asked
    for; the next [sbrk], of any size, then panics. *)
Definition large_sbrk : M Pages (result KernelError Z) :=
  u ← new_process; r ← sbrk u (2 ^ 40); mret r.1.
Definition sbrk_after_large (n : Z) : M Pages (result KernelError Z) :=
  u ← new_process; r ← sbrk u (2 ^ 40); r ← sbrk r.2 n; mret r.1.
Lemma large_sbrk_fails : result_of (large_sbrk (boot 24)) = Some (Err (TooLargeVirtualAddress (4096 + 2 ^ 40))).
Proof. vm_compute. reflexivity. Qed.
Lemma sbrk_panics_after_large : sbrk_after_large 0 (boot 24) = Panic.
Proof. vm_compute. reflexivity. Qed.

(** A clone that fails for want of a table leaves a reference on the page it was sharing:
    when both tables are gone, not all pages are free. *)
Definition failed_clone : M Pages (result KernelError unit) :=
  r1 ← try_allocate; r1 ← unwrap_ok r1;
  r2 ← try_allocate; r2 ← unwrap_ok r2;
  r ← map_addrs r1 4096 allocate_new_zeroed 4096 PtEntryFlags.URW; unwrap_ok r;;
  r ← clone_pages_from r2 r1 (Range 4096 8192) FU;
  table_drop r1;; table_drop r2;; mret r.
Lemma failed_clone_leaks : result_of (failed_clone (boot 7)) = Some (Err NoFreePage) ∧
  free_pages (pg_frames (after (failed_clone (boot 7)))) = total_pages (pg_frames (after (failed_clone (boot 7)))) - 1.
Proof. vm_compute. done. Qed.
