(* ===== verification/VmValidate.v ===== *)
(** * Validated references

    What a system call may rely on after it has validated a reference of a user program. *)

From S2P Require Import Prelude KError Pod SysTypes Addr PageAlloc Pages Pte PteSpec PageTable PtSpec PtMap PtUnmap PtCow PtFixed VmWorld VmFork PtWalk VmView VmOps VmSystem VmClaims VmUser VmHeap VmCopy PtIter PtEntries VmExample.

Lemma permits_UR w : permits PtEntryFlags.UR w = contains (pte_flags w) PtEntryFlags.UR.
Proof.
  rw /permits /PtEntryFlags.UR !contains_lor !contains_bit //. destruct (Z.testbit (pte_flags w) 8); [|done]. rw /insert_flags !Z.lor_spec.
  change (Z.testbit FW 4) with false. change (Z.testbit FW 1) with false. by rw !orb_false_r.
Qed.
Lemma permits_UW w : permits PtEntryFlags.UW w = Z.testbit w 4 && (Z.testbit w 2 || Z.testbit w 8).
Proof.
  rw /permits /PtEntryFlags.UW !contains_lor !contains_bit //. rw -!(flags_testbit w) //. destruct (Z.testbit (pte_flags w) 8).
  - rw /insert_flags !Z.lor_spec. change (Z.testbit FW 4) with false. change (Z.testbit FW 2) with true. by rw orb_false_r !orb_true_r.
  - by rw orb_false_r.
Qed.
Lemma validate_vm hs he s W leak own held r pt flags a c :
  vm_inv hs he s W leak own held → W !! r = Some pt → 0 ≤ a ≤ c → c ≤ VA_MAX →
  wp (validate r (Range a c) flags) (λ res s', s' = s ∧ match res with Ok _ => range_permits pt flags a c | Err _ => ¬ range_permits pt flags a c end) s.
Proof.
  intros [Hv Hw _] Hr Ha Hc. destruct (wo_pt _ _ _ _ _ _ Hw _ _ Hr) as [Hwf Hm _ _ _]. exact (validate_wp hs he r own held s pt flags a c Hv Hwf Hm Ha Hc).
Qed.

(** The validation of an address range never panics and changes nothing, and accepts the range exactly when all of its addresses
    are mapped with the permissions, where a page to be copied on write counts as writable. *)
Theorem validate_exact leaky R s r a c flags :
  vm_reachable leaky R s → r ∈ R → 0 ≤ a ≤ c → c ≤ VA_MAX →
  ∃ res, validate r (Range a c) flags s = Ret res s ∧
    (res = Ok tt ↔ ∀ va, a ≤ va < c → ∃ w, translate s r va = Some w ∧ permits flags w = true).
Proof.
  intros Hreach Hr Ha Hc. destruct (roots leaky R s Hreach) as (hs & he & W & leak & own & held & Hs & Hdom & Hin). destruct (Hin _ Hr) as [pt Hpt].
  pose proof (validate_vm hs he s W leak own held r pt flags a c Hs Hpt Ha Hc) as (res & s' & E & -> & Hres)%wp_run. exists res. split; [done|].
  assert (range_permits pt flags a c ↔ ∀ va, a ≤ va < c → ∃ w, translate s r va = Some w ∧ permits flags w = true) as Hiff.
  { pose proof va_size_max. split; intros H' va Hva; destruct (H' va Hva) as (w & Hw & Hp); exists w; [rw (vm_translate _ _ _ _ _ _ _ _ _ _ Hs Hpt) //; lia|].
    rw (vm_translate _ _ _ _ _ _ _ _ _ _ Hs Hpt) // in Hw. lia. }
  rw -Hiff. destruct res as [[]|e]; [done|]. split; [done|]. by intros ?%Hres.
Qed.

(** The addresses that are readable are those from which a user program loads. *)
Lemma readable_load hs he s W leak own held r pt va :
  vm_inv hs he s W leak own held → W !! r = Some pt → 0 ≤ va < VA_SIZE →
  (∃ w, lvs pt !! page_of va = Some w ∧ permits PtEntryFlags.UR w = true) ↔ is_Some (user_load s r va).
Proof.
  intros Hs Hr Hva. rw (vm_load _ _ _ _ _ _ _ _ _ _ Hs Hr Hva) /load_of. destruct (lvs pt !! page_of va) as [w|] eqn:El; simpl.
  2: { split; [by intros (w & [=] & _)|by intros [? [=]]]. }
  destruct (contains (pte_flags w) PtEntryFlags.UR) eqn:Eur.
  2: { split; [|by intros [? [=]]]. intros (w' & [= <-] & Hp). rw permits_UR in Hp. congruence. }
  split; [intros _|intros _; exists w; by rw permits_UR]. rw contains_UR in Eur. apply andb_prop in Eur as [H4 _]. pose proof Hs as [Hv Hw _].
  destruct (user_shared hs he W leak own held r pt _ w Hw Hr El H4) as [_ Ho].
  destruct (proj2 (po_held _ _ _ (vo_pages _ _ _ _ _ Hv) (pte_addr w)) ltac:(by rw Ho)) as [b Hb]. destruct (vm_memory hs he own held s _ b Hv Hb) as [_ Hlb].
  rw Hb. simpl. apply lookup_lt_is_Some. rw Hlb. pose proof (Z.mod_pos_bound va PAGE_SIZE page_pos). lia.
Qed.
(** A range that is not readable has an address from which nothing is loaded. *)
Lemma not_readable hs he s W leak own held r pt a c :
  vm_inv hs he s W leak own held → W !! r = Some pt → 0 ≤ a ≤ c → c ≤ VA_MAX → ¬ range_permits pt PtEntryFlags.UR a c →
  ∃ va, a ≤ va < c ∧ user_load s r va = None.
Proof.
  intros Hs Hr Ha Hc Hn. pose proof va_size_max. destruct (decide (Exists (λ va, user_load s r va = None) (seqZ a (c - a)))) as [Hex|Hall].
  - apply Exists_exists in Hex as (va & Hva%elem_of_seqZ & Hl). exists va. split; [lia|done].
  - apply not_Exists_Forall in Hall; [|intros va; apply _]. rewrite Forall_forall in Hall. destruct Hn. intros va Hva.
    apply (readable_load hs he s W leak own held r pt va Hs Hr); [lia|]. apply not_eq_None_Some, Hall, elem_of_seqZ. lia.
Qed.
(** ** Paths

    [fetch_path] of [crates/kernel/ov6_kernel/src/syscall/file.rs]. *)

Definition MAX_PATH : Z := 128.
Definition fetch_path (u : UserPageTable) (user_path : bytes_ref) : M Pages (result KernelError (list byte)) :=
  if MAX_PATH <? ival (us_len user_path) then mret (Err PathTooLong)
  else
    user_path ←? validate_slice user_path u;
    path_out ← copy_u2k_bytes u (ival (us_len user_path)) user_path;
    if bool_decide (Byte.x00 ∈ path_out) then mret (Err NullInPath) else mret (Ok path_out).

(** The address of byte [i] of a slice, and what [fetch_path] may answer. *)
Definition byte_at (src : bytes_ref) (i : nat) : Z := ival (us_addr src) + Z.of_nat i.
Definition fetched_path (s : Pages) (r : Z) (src : bytes_ref) (res : result KernelError (list byte)) : Prop :=
  let len := ival (us_len src) in
  match res with
  | Ok b => len ≤ MAX_PATH ∧ Z.of_nat (length b) = len ∧ Byte.x00 ∉ b ∧ ∀ i x, b !! i = Some x → user_load s r (byte_at src i) = Some x
  | Err e =>
      e = PathTooLong ∧ MAX_PATH < len ∨
      slice_va_range src = Err e ∨
      (∃ i, Z.of_nat i < len ∧ user_load s r (byte_at src i) = None) ∨
      e = NullInPath ∧ ∃ i, Z.of_nat i < len ∧ user_load s r (byte_at src i) = Some Byte.x00
  end.


(** ** Runs *)

Module Example.
Lemma validate_exact_witness : ∃ res, validate r1 (Range 4100 8192) PtEntryFlags.UW s5 = Ret res s5 ∧
  (res = Ok tt ↔ ∀ va, 4100 ≤ va < 8192 → ∃ w, translate s5 r1 va = Some w ∧ permits PtEntryFlags.UW w = true).
Proof. exact (validate_exact false two s5 r1 4100 8192 PtEntryFlags.UW s5_ok r1_in ltac:(lia) ltac:(done)). Defined.

(** A page that is shared with another process is accepted for a write. When no page is free, the copy that follows panics. *)
Definition write_run : M Pages (result KernelError bytes_mut) :=
  r ← share_full;
  validate_mut_slice (UMutSlice (Int 4096) (Int 2) : bytes_mut) {| up_pt := r.1; up_heap_start := 4096; up_heap_size := 0; up_stack_start := USER_STACK_BOTTOM; up_stack_size := USER_STACK_SIZE |}.
Definition write_run_copy : M Pages unit :=
  r ← share_full;
  let u := {| up_pt := r.1; up_heap_start := 4096; up_heap_size := 0; up_stack_start := USER_STACK_BOTTOM; up_stack_size := USER_STACK_SIZE |} in
  r ← validate_mut_slice (UMutSlice (Int 4096) (Int 2) : bytes_mut) u;
  dst ← unwrap_ok r;
  copy_k2u_bytes u dst hi.
Theorem validated_write_panics :
  result_of (write_run (boot 8)) = Some (Ok (UMutSlice (Int 4096) (Int 2))) ∧ write_run_copy (boot 8) = Panic.
Proof. split; vm_compute; reflexivity. Qed.
End Example.
