(* ===== verification/Proc.v ===== *)
(** * Processes

    Model of [crates/kernel/ov6_kernel/src/proc/mod.rs], [proc/ops.rs],
    [proc/scheduler.rs] and [proc/wait_lock.rs].

    A process is its index in [PROC].  The lock of a process, [WAIT_LOCK] and the borrow of
    the private data make the sections of code between two scheduling points atomic; the
    definitions below are these sections and the functions that are composed of them. *)

From S2P Require Import Prelude KError Pod SysTypes Register Syscall Addr PageAlloc Pages Pte PageTable VmUser.

Definition NPROC : Z := 64.
Definition NOFILE : Z := 16.

(** ** Files

    What processes need of the file layer: references to open files and to inodes. *)
Class FileLayer (F : Type) := {
  File : Type;
  Inode : Type;
  file_dup : File → M F File;
  file_close : File → M F unit;
  inode_clone : Inode → M F Inode;
  inode_put : Inode → M F unit;
  root_inode : M F Inode;
}.

(** ** The trap frame *)

Record TrapFrame := {
  tf_kernel_satp : Z;
  tf_kernel_sp : Z;
  tf_kernel_trap : Z;
  tf_epc : Z;
  tf_kernel_hartid : Z;
  tf_user_registers : UserRegisters;
}.

(** A trap frame is 36 words. *)
Definition regs_words (r : UserRegisters) : list Z :=
  [r_ra r; r_sp r; r_gp r; r_tp r; r_t0 r; r_t1 r; r_t2 r; r_s0 r; r_s1 r; r_a0 r; r_a1 r; r_a2 r; r_a3 r; r_a4 r; r_a5 r;
   r_a6 r; r_a7 r; r_s2 r; r_s3 r; r_s4 r; r_s5 r; r_s6 r; r_s7 r; r_s8 r; r_s9 r; r_s10 r; r_s11 r; r_t3 r; r_t4 r; r_t5 r;
   r_t6 r].
Definition frame_words (f : TrapFrame) : list Z :=
  [tf_kernel_satp f; tf_kernel_sp f; tf_kernel_trap f; tf_epc f; tf_kernel_hartid f] ++ regs_words (tf_user_registers f).
Definition word (l : list Z) (i : nat) : Z := default 0 (l !! i).
Definition regs_of (l : list Z) : UserRegisters :=
  let w := word l in {|
  r_ra := w 0%nat; r_sp := w 1%nat; r_gp := w 2%nat; r_tp := w 3%nat; r_t0 := w 4%nat; r_t1 := w 5%nat; r_t2 := w 6%nat;
  r_s0 := w 7%nat; r_s1 := w 8%nat; r_a0 := w 9%nat; r_a1 := w 10%nat; r_a2 := w 11%nat; r_a3 := w 12%nat; r_a4 := w 13%nat;
  r_a5 := w 14%nat; r_a6 := w 15%nat; r_a7 := w 16%nat; r_s2 := w 17%nat; r_s3 := w 18%nat; r_s4 := w 19%nat;
  r_s5 := w 20%nat; r_s6 := w 21%nat; r_s7 := w 22%nat; r_s8 := w 23%nat; r_s9 := w 24%nat; r_s10 := w 25%nat;
  r_s11 := w 26%nat; r_t3 := w 27%nat; r_t4 := w 28%nat; r_t5 := w 29%nat; r_t6 := w 30%nat |}.
Definition frame_of (l : list Z) : TrapFrame := {|
  tf_kernel_satp := word l 0; tf_kernel_sp := word l 1; tf_kernel_trap := word l 2; tf_epc := word l 3;
  tf_kernel_hartid := word l 4; tf_user_registers := regs_of (drop 5 l) |}.
Definition frame_pod : pod (list Z) := pod_array pod_u64 36.
Definition SIZE_TRAPFRAME : Z := 288.

Definition set_epc (v : Z) (f : TrapFrame) : TrapFrame := {|
  tf_kernel_satp := tf_kernel_satp f; tf_kernel_sp := tf_kernel_sp f; tf_kernel_trap := tf_kernel_trap f; tf_epc := v;
  tf_kernel_hartid := tf_kernel_hartid f; tf_user_registers := tf_user_registers f |}.
Definition set_user_registers (r : UserRegisters) (f : TrapFrame) : TrapFrame := {|
  tf_kernel_satp := tf_kernel_satp f; tf_kernel_sp := tf_kernel_sp f; tf_kernel_trap := tf_kernel_trap f; tf_epc := tf_epc f;
  tf_kernel_hartid := tf_kernel_hartid f; tf_user_registers := r |}.

(** [UserPageTable::trapframe], and a write through [trapframe_mut]. *)
Definition trapframe (u : UserPageTable) : M Pages TrapFrame :=
  r ← fetch_chunk (up_pt u) TRAPFRAME PtEntryFlags.R;
  c ← unwrap_ok r;
  assert_ (SIZE_TRAPFRAME <=? ck_len c);;
  b ← read_chunk c SIZE_TRAPFRAME;
  mret (frame_of (pof frame_pod b)).
Definition trapframe_write (u : UserPageTable) (f : TrapFrame) : M Pages unit :=
  r ← fetch_chunk_mut (up_pt u) TRAPFRAME PtEntryFlags.RW;
  c ← unwrap_ok r;
  assert_ (SIZE_TRAPFRAME <=? ck_len c);;
  write_chunk c (pto frame_pod (frame_words f)).

(** ** Processes *)

(** The addresses that processes sleep on: condition variables. *)
Inductive Chan :=
  | ChildEnded (i : nat)
  | OtherCond (addr : Z).
#[export] Instance chan_eq_dec : EqDecision Chan.
Proof. solve_decision. Defined.

Inductive ProcState :=
  | Unused
  | Used
  | Sleeping (chan : Chan)
  | Runnable
  | Running
  | Zombie (exit_status : Z).
#[export] Instance procstate_eq_dec : EqDecision ProcState.
Proof. solve_decision. Defined.

(** [Uptime] is in clocks of 100 ns. *)
Definition NANOS_PER_CLOCK : Z := 100.
Definition UPTIME_MAX : Z := U64_MAX.
Definition as_nanos (d : Duration) : Z := ival (as_secs d) * 1000000000 + ival (subsec_nanos d).
Definition uptime_checked_add (time : Z) (dur : Duration) : option Z :=
  clocks ← try_from 64 (as_nanos dur / NANOS_PER_CLOCK);
  checked_add time clocks.
Definition uptime_saturating_add (time : Z) (dur : Duration) : Z := default UPTIME_MAX (uptime_checked_add time dur).

Record AlarmInfo := {
  al_time : Z;
  al_dur : Duration;
  al_handler : Z;
}.
Definition is_expired (a : AlarmInfo) (now : Z) : bool := al_time a <=? now.
Definition alarm_update (a : AlarmInfo) (now : Z) : AlarmInfo :=
  {| al_time := uptime_saturating_add now (al_dur a); al_dur := al_dur a; al_handler := al_handler a |}.

(** Saved registers of a kernel context. *)
Record Context := {
  cx_ra : Z;
  cx_sp : Z;
  cx_s : list Z;
}.
Definition context_zeroed : Context := {| cx_ra := 0; cx_sp := 0; cx_s := replicate 12 0 |}.

Record ProcSharedData := {
  sh_pid : option Z;
  sh_name : list byte;
  sh_state : ProcState;
  sh_killed : bool;
  sh_alarm : option AlarmInfo;
  sh_context : Context;
}.
Definition set_pid (v : option Z) (s : ProcSharedData) := {| sh_pid := v; sh_name := sh_name s; sh_state := sh_state s;
  sh_killed := sh_killed s; sh_alarm := sh_alarm s; sh_context := sh_context s |}.
Definition set_sh_name (v : list byte) (s : ProcSharedData) := {| sh_pid := sh_pid s; sh_name := v; sh_state := sh_state s;
  sh_killed := sh_killed s; sh_alarm := sh_alarm s; sh_context := sh_context s |}.
Definition set_state (v : ProcState) (s : ProcSharedData) := {| sh_pid := sh_pid s; sh_name := sh_name s; sh_state := v;
  sh_killed := sh_killed s; sh_alarm := sh_alarm s; sh_context := sh_context s |}.
Definition set_killed (v : bool) (s : ProcSharedData) := {| sh_pid := sh_pid s; sh_name := sh_name s; sh_state := sh_state s;
  sh_killed := v; sh_alarm := sh_alarm s; sh_context := sh_context s |}.
Definition set_alarm_info (v : option AlarmInfo) (s : ProcSharedData) := {| sh_pid := sh_pid s; sh_name := sh_name s;
  sh_state := sh_state s; sh_killed := sh_killed s; sh_alarm := v; sh_context := sh_context s |}.
Definition set_context (v : Context) (s : ProcSharedData) := {| sh_pid := sh_pid s; sh_name := sh_name s;
  sh_state := sh_state s; sh_killed := sh_killed s; sh_alarm := sh_alarm s; sh_context := v |}.

Definition shared_new : ProcSharedData := {| sh_pid := None; sh_name := []; sh_state := Unused; sh_killed := false;
  sh_alarm := None; sh_context := context_zeroed |}.
(** A name is cut at 16 bytes. *)
Definition proc_set_name (name : list byte) (s : ProcSharedData) : ProcSharedData := set_sh_name (take 16 name) s.
Definition proc_kill (s : ProcSharedData) : ProcSharedData := set_killed true s.
Definition set_alarm (now : Z) (dur : Duration) (handler : Z) (s : ProcSharedData) : ProcSharedData :=
  set_alarm_info (Some {| al_time := uptime_saturating_add now dur; al_dur := dur; al_handler := handler |}) s.
Definition clear_alarm (s : ProcSharedData) : ProcSharedData := set_alarm_info None s.

(** The registers of a program that a signal handler interrupted. *)
Record InterruptedContext := {
  ic_epc : Z;
  ic_user_registers : UserRegisters;
}.

Section proc.
Context {F : Type} `{!FileLayer F}.

Record ProcPrivateData := {
  pd_pid : Z;
  pd_kstack : Z;
  pd_pagetable : UserPageTable;
  pd_ofile : list (option File);
  pd_cwd : option Inode;
  pd_trace_mask : Z;
  pd_signal : option InterruptedContext;
}.
Definition set_pagetable (v : UserPageTable) (d : ProcPrivateData) := {| pd_pid := pd_pid d; pd_kstack := pd_kstack d;
  pd_pagetable := v; pd_ofile := pd_ofile d; pd_cwd := pd_cwd d; pd_trace_mask := pd_trace_mask d; pd_signal := pd_signal d |}.
Definition set_ofile (v : list (option File)) (d : ProcPrivateData) := {| pd_pid := pd_pid d; pd_kstack := pd_kstack d;
  pd_pagetable := pd_pagetable d; pd_ofile := v; pd_cwd := pd_cwd d; pd_trace_mask := pd_trace_mask d; pd_signal := pd_signal d |}.
Definition set_cwd (v : option Inode) (d : ProcPrivateData) := {| pd_pid := pd_pid d; pd_kstack := pd_kstack d;
  pd_pagetable := pd_pagetable d; pd_ofile := pd_ofile d; pd_cwd := v; pd_trace_mask := pd_trace_mask d; pd_signal := pd_signal d |}.
Definition set_trace_mask (v : Z) (d : ProcPrivateData) := {| pd_pid := pd_pid d; pd_kstack := pd_kstack d;
  pd_pagetable := pd_pagetable d; pd_ofile := pd_ofile d; pd_cwd := pd_cwd d; pd_trace_mask := v; pd_signal := pd_signal d |}.
Definition set_signal (v : option InterruptedContext) (d : ProcPrivateData) := {| pd_pid := pd_pid d; pd_kstack := pd_kstack d;
  pd_pagetable := pd_pagetable d; pd_ofile := pd_ofile d; pd_cwd := pd_cwd d; pd_trace_mask := pd_trace_mask d; pd_signal := v |}.

(** [ofile], [add_ofile], [unset_ofile]; [fd] is a [usize]. *)
Definition ofile (d : ProcPrivateData) (fd : Z) : result KernelError File :=
  match pd_ofile d !! Z.to_nat fd with
  | Some (Some f) => Ok f
  | _ => Err (FileDescriptorNotFound fd (pd_pid d))
  end.
Definition add_ofile (f : File) (d : ProcPrivateData) : result KernelError (Z * ProcPrivateData) :=
  match list_find (λ o, o = None) (pd_ofile d) with
  | Some (fd, _) => Ok (Z.of_nat fd, set_ofile (<[fd := Some f]> (pd_ofile d)) d)
  | None => Err NoFreeFileDescriptorTableEntry
  end.
Definition unset_ofile (fd : Z) (d : ProcPrivateData) : result KernelError (File * ProcPrivateData) :=
  match pd_ofile d !! Z.to_nat fd with
  | Some (Some f) => Ok (f, set_ofile (<[Z.to_nat fd := None]> (pd_ofile d)) d)
  | _ => Err (FileDescriptorNotFound fd (pd_pid d))
  end.

Record Proc := {
  pr_shared : ProcSharedData;
  pr_parent : option nat;
  (** The counter of the condition variable [child_ended]. *)
  pr_child_ended : Z;
  pr_private_borrowed : bool;
  pr_private : option ProcPrivateData;
}.
Definition set_shared (v : ProcSharedData) (p : Proc) := {| pr_shared := v; pr_parent := pr_parent p;
  pr_child_ended := pr_child_ended p; pr_private_borrowed := pr_private_borrowed p; pr_private := pr_private p |}.
Definition set_parent (v : option nat) (p : Proc) := {| pr_shared := pr_shared p; pr_parent := v;
  pr_child_ended := pr_child_ended p; pr_private_borrowed := pr_private_borrowed p; pr_private := pr_private p |}.
Definition set_child_ended (v : Z) (p : Proc) := {| pr_shared := pr_shared p; pr_parent := pr_parent p;
  pr_child_ended := v; pr_private_borrowed := pr_private_borrowed p; pr_private := pr_private p |}.
Definition set_borrowed (v : bool) (p : Proc) := {| pr_shared := pr_shared p; pr_parent := pr_parent p;
  pr_child_ended := pr_child_ended p; pr_private_borrowed := v; pr_private := pr_private p |}.
Definition set_private (v : option ProcPrivateData) (p : Proc) := {| pr_shared := pr_shared p; pr_parent := pr_parent p;
  pr_child_ended := pr_child_ended p; pr_private_borrowed := pr_private_borrowed p; pr_private := v |}.

Definition proc_new : Proc := {| pr_shared := shared_new; pr_parent := None; pr_child_ended := 0; pr_private_borrowed := false;
  pr_private := None |}.

(** ** The kernel *)

Record Cpu := {
  cpu_proc : option (Z * nat);
  cpu_idle : bool;
}.
(** [k_msip] are the software interrupts that are pending, [k_init] is [INIT_PROC]. *)
Record Kernel := {
  k_procs : list Proc;
  k_next_pid : Z;
  k_init : option nat;
  k_cpus : list Cpu;
  k_msip : list nat;
  k_pages : Pages;
  k_files : F;
}.
Definition with_procs (v : list Proc) (k : Kernel) := {| k_procs := v; k_next_pid := k_next_pid k; k_init := k_init k;
  k_cpus := k_cpus k; k_msip := k_msip k; k_pages := k_pages k; k_files := k_files k |}.
Definition with_next_pid (v : Z) (k : Kernel) := {| k_procs := k_procs k; k_next_pid := v; k_init := k_init k;
  k_cpus := k_cpus k; k_msip := k_msip k; k_pages := k_pages k; k_files := k_files k |}.
Definition with_init (v : option nat) (k : Kernel) := {| k_procs := k_procs k; k_next_pid := k_next_pid k; k_init := v;
  k_cpus := k_cpus k; k_msip := k_msip k; k_pages := k_pages k; k_files := k_files k |}.
Definition with_cpus (v : list Cpu) (k : Kernel) := {| k_procs := k_procs k; k_next_pid := k_next_pid k; k_init := k_init k;
  k_cpus := v; k_msip := k_msip k; k_pages := k_pages k; k_files := k_files k |}.
Definition with_msip (v : list nat) (k : Kernel) := {| k_procs := k_procs k; k_next_pid := k_next_pid k; k_init := k_init k;
  k_cpus := k_cpus k; k_msip := v; k_pages := k_pages k; k_files := k_files k |}.
Definition with_pages (v : Pages) (k : Kernel) := {| k_procs := k_procs k; k_next_pid := k_next_pid k; k_init := k_init k;
  k_cpus := k_cpus k; k_msip := k_msip k; k_pages := v; k_files := k_files k |}.
Definition with_files (v : F) (k : Kernel) := {| k_procs := k_procs k; k_next_pid := k_next_pid k; k_init := k_init k;
  k_cpus := k_cpus k; k_msip := k_msip k; k_pages := k_pages k; k_files := v |}.

Definition on_pages {A} (m : M Pages A) : M Kernel A := zoom k_pages with_pages m.
Definition on_files {A} (m : M F A) : M Kernel A := zoom k_files with_files m.

Definition get_proc (i : nat) : M Kernel Proc :=
  ps ← gets k_procs;
  unwrap (ps !! i).
Definition upd_proc (i : nat) (f : Proc → Proc) : M Kernel unit :=
  p ← get_proc i;
  modify (λ k, with_procs (<[i := f p]> (k_procs k)) k).
Definition upd_shared (i : nat) (f : ProcSharedData → ProcSharedData) : M Kernel unit :=
  upd_proc i (λ p, set_shared (f (pr_shared p)) p).
Definition get_private (i : nat) : M Kernel ProcPrivateData :=
  p ← get_proc i;
  unwrap (pr_private p).
Definition put_private (i : nat) (d : ProcPrivateData) : M Kernel unit := upd_proc i (set_private (Some d)).

(** ** Allocation *)

(** [borrow_private_raw]: the private data can be borrowed once. *)
Definition borrow_private_raw (i : nat) : M Kernel (option ProcPrivateData) :=
  p ← get_proc i;
  assert_ (negb (pr_private_borrowed p));;
  upd_proc i (set_borrowed true);;
  mret (pr_private p).
Definition init_private (i : nat) (d : ProcPrivateData) : M Kernel unit :=
  private ← borrow_private_raw i;
  assert_ (bool_decide (¬ is_Some private));;
  put_private i d.
(** [borrow_private]; the guard gives the borrow back when it is dropped. *)
Definition borrow_private (i : nat) : M Kernel (option ProcPrivateData) :=
  private ← borrow_private_raw i;
  match private with
  | None => upd_proc i (set_borrowed false);; mret None
  | Some d => mret (Some d)
  end.
Definition guard_drop (i : nat) : M Kernel unit := upd_proc i (set_borrowed false).
(** [remove_private]: the page table goes with the private data. *)
Definition remove_private (i : nat) : M Kernel unit :=
  d ← get_private i;
  upd_proc i (set_private None);;
  assert_ (forallb (λ o, bool_decide (¬ is_Some o)) (pd_ofile d));;
  assert_ (bool_decide (¬ is_Some (pd_cwd d)));;
  upd_proc i (set_borrowed false);;
  on_pages (user_drop (pd_pagetable d)).

Definition allocate_pid : M Kernel Z :=
  pid ← gets k_next_pid;
  modify (with_next_pid (wrap 32 (pid + 1)));;
  assert_ (negb (pid =? 0));;
  mret pid.

Definition lock_unused_proc : M Kernel (result KernelError nat) :=
  ps ← gets k_procs;
  match list_find (λ p, sh_state (pr_shared p) = Unused) ps with
  | Some (i, _) => mret (Ok i)
  | None => mret (Err NoFreeProc)
  end.

Definition KSTACK_PAGES : Z := 2.
Definition KSTACK_GUARD_PAGES : Z := 1.
Definition kstack (p : Z) : M Kernel Z :=
  assert_ (p <? NPROC);;
  unwrap_ok (va_byte_sub TRAPFRAME ((1 + (p + 1) * (KSTACK_GUARD_PAGES + KSTACK_PAGES)) * PAGE_SIZE)).

Definition proc_free (i : nat) : M Kernel unit :=
  upd_proc i (set_parent None);;
  upd_shared i (λ s, set_state Unused (set_killed false (set_sh_name [] (set_pid None s)))).

(** [trampoline] and [forkret] are the addresses of code. *)
Context (trampoline forkret forkret_init : Z).

Definition proc_allocate : M Kernel (result KernelError nat) :=
  i ←? lock_unused_proc;
  pid ← allocate_pid;
  upd_shared i (λ s, set_state Used (set_pid (Some pid) s));;
  ks ← kstack (Z.of_nat i);
  r ← on_pages (user_new trampoline pid);
  match r with
  | Err e => proc_free i;; mret (Err e)
  | Ok pt =>
      sp ← unwrap_ok (va_byte_add ks (KSTACK_PAGES * PAGE_SIZE));
      upd_shared i (set_context {| cx_ra := forkret; cx_sp := sp; cx_s := cx_s context_zeroed |});;
      init_private i {| pd_pid := pid; pd_kstack := ks; pd_pagetable := pt; pd_ofile := replicate (Z.to_nat NOFILE) None;
                        pd_cwd := None; pd_trace_mask := 0; pd_signal := None |};;
      mret (Ok i)
  end.

(** [spawn_init]. *)
Definition spawn_init (name : list byte) : M Kernel unit :=
  r ← proc_allocate;
  i ← unwrap_ok r;
  p ← get_proc i;
  assert_ (bool_decide (sh_pid (pr_shared p) = Some 1));;
  init ← gets k_init;
  assert_ (bool_decide (¬ is_Some init));;
  modify (with_init (Some i));;
  upd_shared i (λ s, set_context {| cx_ra := forkret_init; cx_sp := cx_sp (sh_context s); cx_s := cx_s (sh_context s) |} s);;
  root ← on_files root_inode;
  d ← get_private i;
  put_private i (set_cwd (Some root) d);;
  upd_shared i (λ s, set_state Runnable (proc_set_name name s));;
  guard_drop i.

(** ** Fork *)

(** The result that [fork] has in the child. *)
Definition child_regs (r : UserRegisters) : M Kernel UserRegisters :=
  e ← unwrap (encode (Ok None : result SyscallError (option ProcId)));
  rv ← unwrap (return_value _ e);
  mret (store_return rv r).
(** The open files of the child. *)
Fixpoint dup_files (fs : list (option File)) : M Kernel (list (option File)) :=
  match fs with
  | [] => mret []
  | None :: fs => fs ← dup_files fs; mret (None :: fs)
  | Some f :: fs => f ← on_files (file_dup f); fs ← dup_files fs; mret (Some f :: fs)
  end.
(** Up to the release of the lock of the child: the child and its pid. *)
Definition fork_copy (p : nat) : M Kernel (result KernelError (nat * Z)) :=
  parent ← get_proc p;
  np ←? proc_allocate;
  d ← get_private p;
  nd ← get_private np;
  r ← on_pages (clone_from (pd_pagetable nd) (pd_pagetable d));
  put_private np (set_pagetable r.2 nd);;
  match r.1 with
  | Err e => proc_free np;; guard_drop np;; mret (Err e)
  | Ok _ =>
      tf ← on_pages (trapframe (pd_pagetable d));
      regs ← child_regs (tf_user_registers tf);
      on_pages (trapframe_write r.2 (set_user_registers regs tf));;
      files ← dup_files (pd_ofile d);
      cwd ← match pd_cwd d with
            | Some c => c ← on_files (inode_clone c); mret (Some c)
            | None => mret None
            end;
      put_private np (set_trace_mask (pd_trace_mask d) (set_cwd cwd (set_ofile files (set_pagetable r.2 nd))));;
      upd_shared np (set_sh_name (sh_name (pr_shared parent)));;
      c ← get_proc np;
      pid ← unwrap (sh_pid (pr_shared c));
      mret (Ok (np, pid))
  end.
(** Under [WAIT_LOCK]. *)
Definition fork_parent (p np : nat) : M Kernel unit := upd_proc np (set_parent (Some p)).
Definition fork_start (np : nat) : M Kernel unit :=
  guard_drop np;;
  upd_shared np (set_state Runnable).
Definition fork (p : nat) : M Kernel (result KernelError Z) :=
  r ←? fork_copy p;
  fork_parent p r.1;;
  fork_start r.1;;
  mret (Ok r.2).

(** ** Sleep and wakeup *)

(** The idle CPUs that are interrupted after [n] processes have become runnable. *)
Fixpoint wake_cpus (cpuid n : nat) (i : nat) (cpus : list Cpu) : list nat :=
  match cpus, n with
  | [], _ | _, O => []
  | c :: cpus, S n' =>
      if bool_decide (i = cpuid) || negb (cpu_idle c) then wake_cpus cpuid n (S i) cpus
      else i :: wake_cpus cpuid n' (S i) cpus
  end.
Definition is_sleeping (chan : Chan) (p : Proc) : bool := bool_decide (sh_state (pr_shared p) = Sleeping chan).
Definition wake_proc (chan : Chan) (p : Proc) : Proc :=
  if is_sleeping chan p then set_shared (set_state Runnable (pr_shared p)) p else p.
(** [wakeup], on the CPU [cpuid]. *)
Definition wakeup (cpuid : nat) (chan : Chan) : M Kernel unit :=
  ps ← gets k_procs;
  let n := length (filter (λ p, is_sleeping chan p) ps) in
  modify (with_procs (wake_proc chan <$> ps));;
  modify (λ k, with_msip (wake_cpus cpuid n 0 (k_cpus k) ++ k_msip k) k).
(** [child_ended.notify()]. *)
Definition notify_child_ended (cpuid i : nat) : M Kernel unit :=
  upd_proc i (λ p, set_child_ended (wrap 64 (pr_child_ended p + 1)) p);;
  wakeup cpuid (ChildEnded i).

(** [sleep_common], before and after the switch to the scheduler. *)
Definition sleep_begin (p : nat) (chan : Chan) (continue_if_killed : bool) : M Kernel (result KernelError unit) :=
  pr ← get_proc p;
  if negb continue_if_killed && sh_killed (pr_shared pr) then mret (Err CallerProcessAlreadyKilled)
  else upd_shared p (set_state (Sleeping chan));; mret (Ok tt).
Definition sleep_end (p : nat) (continue_if_killed : bool) : M Kernel (result KernelError unit) :=
  pr ← get_proc p;
  if negb continue_if_killed && sh_killed (pr_shared pr) then mret (Err CallerProcessAlreadyKilled)
  else mret (Ok tt).

(** ** Exit *)

Fixpoint reparent_from (cpuid old new : nat) (slots : list nat) : M Kernel unit :=
  match slots with
  | [] => mret tt
  | i :: slots =>
      pp ← get_proc i;
      (if bool_decide (pr_parent pp = Some old)
       then upd_proc i (set_parent (Some new));; notify_child_ended cpuid new
       else mret tt);;
      reparent_from cpuid old new slots
  end.
Definition reparent (cpuid old new : nat) : M Kernel unit :=
  ps ← gets k_procs;
  reparent_from cpuid old new (seq 0 (length ps)).

Definition close_file (p fd : nat) : M Kernel unit :=
  d ← get_private p;
  match pd_ofile d !! fd with
  | Some (Some f) => put_private p (set_ofile (<[fd := None]> (pd_ofile d)) d);; on_files (file_close f)
  | _ => mret tt
  end.
(** The files and the current directory of the process that exits. *)
Definition exit_files (p : nat) : M Kernel unit :=
  init ← gets k_init;
  init ← unwrap init;
  assert_ (negb (p =? init)%nat);;
  d ← get_private p;
  for_each (seq 0 (length (pd_ofile d))) (close_file p);;
  d ← get_private p;
  cwd ← unwrap (pd_cwd d);
  put_private p (set_cwd None d);;
  on_files (inode_put cwd).
(** Under [WAIT_LOCK]. *)
Definition exit_final (cpuid p : nat) (status : Z) : M Kernel unit :=
  init ← gets k_init;
  init ← unwrap init;
  reparent cpuid p init;;
  pr ← get_proc p;
  (match pr_parent pr with
   | Some parent => notify_child_ended cpuid parent
   | None => mret tt
   end);;
  upd_shared p (set_state (Zombie status));;
  remove_private p.
Definition exit (cpuid p : nat) (status : Z) : M Kernel unit :=
  exit_files p;;
  exit_final cpuid p status.

(** ** Wait *)

(** The loop over the processes; [inl] is whether there is a process to wait for, [inr] is
    the one that has been waited for. *)
Fixpoint wait_scan (p : nat) (target : WaitTarget) (found : bool) (slots : list nat) : M Kernel (bool + Z * Z) :=
  match slots with
  | [] => mret (inl found)
  | i :: slots =>
      pp ← get_proc i;
      if negb (bool_decide (pr_parent pp = Some p)) then wait_scan p target found slots
      else
        wanted ← match target with
                 | AnyProcess => mret true
                 | Process pid => pid' ← unwrap (sh_pid (pr_shared pp)); mret (nz (pid_get pid) =? pid')
                 end;
        if negb wanted then wait_scan p target found slots
        else
          match sh_state (pr_shared pp) with
          | Zombie exit_status =>
              pid ← unwrap (sh_pid (pr_shared pp));
              proc_free i;;
              mret (inr (pid, exit_status))
          | _ =>
              match target with
              | AnyProcess => wait_scan p target true slots
              | Process _ => mret (inl true)
              end
          end
  end.
(** One turn of the loop of [wait], up to the switch to the scheduler: [None] is that the
    process sleeps. *)
Definition wait_turn (p : nat) (target : WaitTarget) : M Kernel (option (result KernelError (Z * Z))) :=
  ps ← gets k_procs;
  r ← wait_scan p target false (seq 0 (length ps));
  match r with
  | inr c => mret (Some (Ok c))
  | inl false => mret (Some (Err NoWaitTarget))
  | inl true =>
      r ← sleep_begin p (ChildEnded p) false;
      match r with
      | Ok _ => mret None
      | Err e => mret (Some (Err e))
      end
  end.

(** ** Kill *)

Fixpoint kill_scan (pid : Z) (slots : list nat) : M Kernel (result KernelError unit) :=
  match slots with
  | [] => mret (Err (ProcessNotFound pid))
  | i :: slots =>
      p ← get_proc i;
      if bool_decide (sh_pid (pr_shared p) = Some pid) then
        upd_shared i (set_killed true);;
        (match sh_state (pr_shared p) with
         | Sleeping _ => upd_shared i (set_state Runnable)
         | _ => mret tt
         end);;
        mret (Ok tt)
      else kill_scan pid slots
  end.
Definition kill (pid : Z) : M Kernel (result KernelError unit) :=
  ps ← gets k_procs;
  kill_scan pid (seq 0 (length ps)).

(** ** The scheduler *)

Definition set_cpu_proc (cpuid : nat) (v : option (Z * nat)) : M Kernel unit :=
  cs ← gets k_cpus;
  c ← unwrap (cs !! cpuid);
  modify (λ k, with_cpus (<[cpuid := {| cpu_proc := v; cpu_idle := cpu_idle c |}]> (k_cpus k)) k).
(** One turn of the loop of [schedule]: whether the CPU switches to the process. *)
Definition schedule_turn (cpuid i : nat) : M Kernel bool :=
  p ← get_proc i;
  if negb (bool_decide (sh_state (pr_shared p) = Runnable)) then mret false
  else
    upd_shared i (set_state Running);;
    pid ← unwrap (sh_pid (pr_shared p));
    set_cpu_proc cpuid (Some (pid, i));;
    mret true.
(** Back in the scheduler. *)
Definition schedule_done (cpuid : nat) : M Kernel unit := set_cpu_proc cpuid None.
(** [sched]; the switch itself is [schedule_done]. *)
Definition sched (cpuid p : nat) : M Kernel unit :=
  pr ← get_proc p;
  assert_ (negb (bool_decide (sh_state (pr_shared pr) = Running)));;
  schedule_done cpuid.
Definition yield_ (cpuid p : nat) : M Kernel unit :=
  pr ← get_proc p;
  assert_ (bool_decide (sh_state (pr_shared pr) = Running));;
  upd_shared p (set_state Runnable);;
  sched cpuid p.

(** ** Signal handlers *)

Definition enter_signal_handler (p : nat) (handler : Z) : M Kernel unit :=
  d ← get_private p;
  match pd_signal d with
  | Some _ => mret tt
  | None =>
      tf ← on_pages (trapframe (pd_pagetable d));
      put_private p (set_signal (Some {| ic_epc := tf_epc tf; ic_user_registers := tf_user_registers tf |}) d);;
      on_pages (trapframe_write (pd_pagetable d) (set_epc handler tf))
  end.
Definition exit_from_signal_handler (p : nat) : M Kernel (result KernelError unit) :=
  d ← get_private p;
  match pd_signal d with
  | None => mret (Err NotInSignalHandler)
  | Some c =>
      put_private p (set_signal None d);;
      tf ← on_pages (trapframe (pd_pagetable d));
      on_pages (trapframe_write (pd_pagetable d) (set_user_registers (ic_user_registers c) (set_epc (ic_epc c) tf)));;
      mret (Ok tt)
  end.
(** The end of [trap_user], for the alarm; [now] is the time. *)
Definition check_alarm (p : nat) (now : Z) : M Kernel unit :=
  pr ← get_proc p;
  match sh_alarm (pr_shared pr) with
  | Some a =>
      if is_expired a now then
        upd_shared p (set_alarm_info (Some (alarm_update a now)));;
        enter_signal_handler p (al_handler a)
      else mret tt
  | None => mret tt
  end.
End proc.
