(* ===== verification/ProcSpec.v ===== *)
(** * Operations on the process table

    What each operation of [Proc] changes of the states, the pids and the parents of the
    processes. *)

From S2P Require Import Prelude KError Pod SysTypes Register Syscall Addr PageAlloc Pages Pte PageTable VmUser Proc.

(** ** What is seen of the process table *)

Record Slot := {
  s_state : ProcState;
  s_pid : option Z;
  s_parent : option nat;
  (** The pid in the private data, when there are any. *)
  s_priv : option Z;
}.
Record View := {
  v_slots : list Slot;
  v_next : Z;
  v_init : option nat;
  v_cpus : list (option (Z * nat));
}.
Definition v_upd (i : nat) (g : Slot → Slot) (v : View) : View :=
  {| v_slots := alter g i (v_slots v); v_next := v_next v; v_init := v_init v; v_cpus := v_cpus v |}.
Definition v_bump (v : View) : View :=
  {| v_slots := v_slots v; v_next := wrap 32 (v_next v + 1); v_init := v_init v; v_cpus := v_cpus v |}.
Definition v_cpu (c : nat) (o : option (Z * nat)) (v : View) : View :=
  {| v_slots := v_slots v; v_next := v_next v; v_init := v_init v; v_cpus := <[c := o]> (v_cpus v) |}.
Definition v_map (f : Slot → Slot) (v : View) : View :=
  {| v_slots := f <$> v_slots v; v_next := v_next v; v_init := v_init v; v_cpus := v_cpus v |}.

Definition to_state (st : ProcState) (s : Slot) : Slot :=
  {| s_state := st; s_pid := s_pid s; s_parent := s_parent s; s_priv := s_priv s |}.
Definition to_parent (o : option nat) (s : Slot) : Slot :=
  {| s_state := s_state s; s_pid := s_pid s; s_parent := o; s_priv := s_priv s |}.
Definition to_priv (o : option Z) (s : Slot) : Slot :=
  {| s_state := s_state s; s_pid := s_pid s; s_parent := s_parent s; s_priv := o |}.
Definition to_used (pid : Z) (s : Slot) : Slot :=
  {| s_state := Used; s_pid := Some pid; s_parent := s_parent s; s_priv := s_priv s |}.
Definition to_free (s : Slot) : Slot :=
  {| s_state := Unused; s_pid := None; s_parent := None; s_priv := s_priv s |}.
Definition woken (chan : Chan) (s : Slot) : Slot :=
  if bool_decide (s_state s = Sleeping chan) then to_state Runnable s else s.

Section view.
Context {F : Type} `{!FileLayer F}.
Abbreviation Proc := (@Proc F _).
Abbreviation Kernel := (@Kernel F _).
Implicit Types (p : Proc) (k : Kernel) (s : Slot) (v : View).

Definition slot_of p : Slot :=
  {| s_state := sh_state (pr_shared p); s_pid := sh_pid (pr_shared p); s_parent := pr_parent p; s_priv := pd_pid <$> pr_private p |}.
Definition view k : View :=
  {| v_slots := slot_of <$> k_procs k; v_next := k_next_pid k; v_init := k_init k; v_cpus := cpu_proc <$> k_cpus k |}.

(** *** Runs of the operations, as far as they are seen *)

Lemma view_upd k i (f : Proc → Proc) g p :
  k_procs k !! i = Some p → slot_of (f p) = g (slot_of p) → view (with_procs (<[i := f p]> (k_procs k)) k) = v_upd i g (view k).
Proof.
  intros Hp Hg. rw /view /v_upd /=. f_equal. rw list_fmap_insert Hg. apply list_eq. intros j.
  destruct (decide (i = j)) as [->|Hne]; [|by rw list_lookup_insert_ne // list_lookup_alter_ne].
  rw list_lookup_insert_eq; [rw length_fmap; by apply lookup_lt_Some in Hp|by rw list_lookup_alter_eq list_lookup_fmap Hp].
Qed.
Lemma v_upd_id i g v s : v_slots v !! i = Some s → g s = s → v_upd i g v = v.
Proof.
  intros Hi Hg. destruct v as [sl nx ini cp]. rw /v_upd /= in Hi |- *. f_equal. apply list_eq. intros j.
  destruct (decide (i = j)) as [->|Hne]; [by rw list_lookup_alter_eq Hi /= Hg|by rw list_lookup_alter_ne].
Qed.
Lemma view_lookup k i p : k_procs k !! i = Some p → v_slots (view k) !! i = Some (slot_of p).
Proof. intros Hp. by rw /= list_lookup_fmap Hp. Qed.
Lemma view_lookup_inv k i s : v_slots (view k) !! i = Some s → ∃ p, k_procs k !! i = Some p ∧ s = slot_of p.
Proof. rw /= list_lookup_fmap. intros (p & -> & Hp)%fmap_Some. eauto. Qed.

Lemma get_proc_wp k i p (Q : Proc → Kernel → Prop) : k_procs k !! i = Some p → Q p k → wp (get_proc i) Q k.
Proof. intros Hp HQ. rw /get_proc. do 2 wp_step. exact (wp_unwrap _ p _ _ Hp HQ). Qed.
Lemma upd_proc_wp k i f p (Q : unit → Kernel → Prop) :
  k_procs k !! i = Some p → Q tt (with_procs (<[i := f p]> (k_procs k)) k) → wp (upd_proc i f) Q k.
Proof. intros Hp HQ. rw /upd_proc. wp_step. apply (get_proc_wp _ _ p); [done|]. by wp_step. Qed.

Lemma get_proc_wlp k i (Q : Proc → Kernel → Prop) : (∀ p, k_procs k !! i = Some p → Q p k) → wlp (get_proc i) Q k.
Proof. intros HQ. rw /get_proc. do 2 wlp_step. apply wlp_unwrap. auto. Qed.
Lemma upd_proc_wlp k i f g (Q : unit → Kernel → Prop) :
  (∀ p, slot_of (f p) = g (slot_of p)) → (∀ p k', k_procs k !! i = Some p → k_procs k' = <[i := f p]> (k_procs k) → view k' = v_upd i g (view k) → Q tt k') → wlp (upd_proc i f) Q k.
Proof.
  intros Hg HQ. rw /upd_proc. wlp_step. apply get_proc_wlp. intros p Hp. wlp_step. apply (HQ p); [done|done|]. by apply view_upd.
Qed.
Lemma upd_same_wlp k i f (Q : unit → Kernel → Prop) :
  (∀ p, slot_of (f p) = slot_of p) → (∀ k', view k' = view k → Q tt k') → wlp (upd_proc i f) Q k.
Proof.
  intros Hg HQ. apply (upd_proc_wlp k i f id); [done|]. intros p k' Hp _ E. apply HQ. rw E.
  apply (v_upd_id _ _ _ (slot_of p)); [by apply view_lookup|done].
Qed.
Lemma get_private_wlp k i (Q : ProcPrivateData → Kernel → Prop) :
  (∀ d s, v_slots (view k) !! i = Some s → s_priv s = Some (pd_pid d) → Q d k) → wlp (get_private i) Q k.
Proof.
  intros HQ. rw /get_private. wlp_step. apply get_proc_wlp. intros p Hp. wlp_step. apply (HQ _ (slot_of p)); [by apply view_lookup|]. simpl. by rw H.
Qed.
Lemma put_private_wlp k i d (Q : unit → Kernel → Prop) :
  (∀ k', view k' = v_upd i (to_priv (Some (pd_pid d))) (view k) → Q tt k') → wlp (put_private i d) Q k.
Proof. intros HQ. apply (upd_proc_wlp _ _ _ (to_priv (Some (pd_pid d)))); [done|]. intros ? ? _ _. apply HQ. Qed.
Lemma put_same_wlp k i d s (Q : unit → Kernel → Prop) :
  v_slots (view k) !! i = Some s → s_priv s = Some (pd_pid d) → (∀ k', view k' = view k → Q tt k') → wlp (put_private i d) Q k.
Proof.
  intros Hi Hs HQ. apply put_private_wlp. intros k' E. apply HQ. rw E. apply (v_upd_id _ _ _ s); [done|]. rw /to_priv -Hs. by destruct s.
Qed.
Lemma on_pages_wlp {A} (m : M Pages A) k (Q : A → Kernel → Prop) : (∀ a k', view k' = view k → Q a k') → wlp (on_pages m) Q k.
Proof. intros HQ. apply wlp_zoom. intros a t. by apply HQ. Qed.
Lemma on_files_wlp {A} (m : M F A) k (Q : A → Kernel → Prop) : (∀ a k', view k' = view k → Q a k') → wlp (on_files m) Q k.
Proof. intros HQ. apply wlp_zoom. intros a t. by apply HQ. Qed.

Lemma wakeup_wp c chan k (Q : unit → Kernel → Prop) : (∀ k', view k' = v_map (woken chan) (view k) → Q tt k') → wp (wakeup c chan) Q k.
Proof.
  intros HQ. rw /wakeup. wp_step. wp_step. wp_step. wp_step. wp_step. apply HQ. rw /view /v_map /=. f_equal.
  rw -!list_fmap_compose. apply list_fmap_ext. intros i p _. rw /= /wake_proc /woken /is_sleeping /=. by case_bool_decide.
Qed.
Lemma notify_wp c i k s (Q : unit → Kernel → Prop) :
  v_slots (view k) !! i = Some s → (∀ k', view k' = v_map (woken (ChildEnded i)) (view k) → Q tt k') → wp (notify_child_ended c i) Q k.
Proof.
  intros (p & Hp & _)%view_lookup_inv HQ. rw /notify_child_ended. wp_step. apply (upd_proc_wp _ _ _ p); [done|].
  apply wakeup_wp. intros k' E. apply HQ. rw E. f_equal. rw (view_upd _ _ (λ p, set_child_ended (wrap 64 (pr_child_ended p + 1)) p) id) //.
  apply (v_upd_id _ _ _ (slot_of p)); [by apply view_lookup|done].
Qed.

(** *** [reparent] *)

Definition adopt (old new : nat) s : Slot := if bool_decide (s_parent s = Some old) then to_parent (Some new) s else s.
Lemma adopt_idemp old new s : adopt old new (adopt old new s) = adopt old new s.
Proof. rw /adopt. repeat (case_bool_decide; simpl in * ); done. Qed.
Lemma woken_idemp chan s : woken chan (woken chan s) = woken chan s.
Proof. rw /woken. by repeat (case_bool_decide; simpl in * ). Qed.
Lemma adopt_woken old new chan s : adopt old new (woken chan s) = woken chan (adopt old new s).
Proof. rw /adopt /woken. by repeat (case_bool_decide; simpl in * ). Qed.

(** The children of [old] in [l] are those of [new]; [b] is whether [new] has been woken. *)
Definition adopted (old new : nat) (l : list nat) (b : bool) (v v' : View) : Prop :=
  v_next v' = v_next v ∧ v_init v' = v_init v ∧ v_cpus v' = v_cpus v ∧
  (∀ i s, i ∈ l → v_slots v !! i = Some s → s_parent s = Some old → b = true) ∧
  ∀ j, v_slots v' !! j = (λ s, (if b then woken (ChildEnded new) else id) (if decide (j ∈ l) then adopt old new s else s)) <$> v_slots v !! j.

Lemma adopted_cons old new i l b v v1 v' si :
  v_slots v !! i = Some si → s_parent si = Some old → v1 = v_map (woken (ChildEnded new)) (v_upd i (to_parent (Some new)) v) →
  adopted old new l b v1 v' → adopted old new (i :: l) true v v'.
Proof.
  intros Hi Hp -> (H1 & H2 & H3 & Hb & Hj). split_and!; [done..|]. intros j. rw Hj /= list_lookup_fmap.
  assert (∀ s, (if b then woken (ChildEnded new) else id) (woken (ChildEnded new) s) = woken (ChildEnded new) s) as Hw by (intros s; destruct b; [apply woken_idemp|done]).
  destruct (decide (i = j)) as [->|Hne].
  - rw list_lookup_alter_eq Hi /= (decide_True (P := j ∈ j :: l)); [set_solver|]. f_equal.
    assert (to_parent (Some new) si = adopt old new si) as -> by by rw /adopt bool_decide_true. case_decide; rw ?adopt_woken ?adopt_idemp; by apply Hw.
  - rw list_lookup_alter_ne //. destruct (v_slots v !! j) as [s|]; [|done]. simpl. f_equal.
    rw (decide_ext (j ∈ i :: l) (j ∈ l)); [set_solver|]. case_decide; rw ?adopt_woken; by apply Hw.
Qed.
Lemma adopted_skip old new i l b v v' si :
  v_slots v !! i = Some si → s_parent si ≠ Some old → adopted old new l b v v' → adopted old new (i :: l) b v v'.
Proof.
  intros Hi Hp (H1 & H2 & H3 & Hb & Hj). split_and!; [done..| |].
  - intros j s [->|Hin]%elem_of_cons Hs Ho; [congruence|by apply (Hb j s)].
  - intros j. rw Hj. destruct (decide (i = j)) as [->|Hne].
    + rw Hi /=. f_equal. assert (adopt old new si = si) as Ea by by rw /adopt bool_decide_false. rw Ea. by repeat case_decide.
    + destruct (v_slots v !! j); [|done]. simpl. rw (decide_ext (j ∈ i :: l) (j ∈ l)) //. set_solver.
Qed.
Lemma reparent_from_wp c old new l k :
  (∀ i, i ∈ new :: l → is_Some (v_slots (view k) !! i)) → wp (reparent_from c old new l) (λ _ k', ∃ b, adopted old new l b (view k) (view k')) k.
Proof.
  revert k. induction l as [|i l IH]; intros k Hl; simpl.
  - wp_step. exists false. split_and!; [done..|set_solver|]. intros j. destruct (v_slots (view k) !! j); done.
  - destruct (Hl i ltac:(set_solver)) as [si Hi]. destruct (view_lookup_inv _ _ _ Hi) as (p & Hp & ->). wp_step. apply (get_proc_wp _ _ p); [done|].
    case_bool_decide as Hpar.
    + wp_step. wp_step. apply (upd_proc_wp _ _ _ p); [done|]. set (k1 := with_procs _ k).
      assert (view k1 = v_upd i (to_parent (Some new)) (view k)) as E1 by by apply view_upd.
      destruct (Hl new ltac:(set_solver)) as [sn Hn]. assert (is_Some (v_slots (view k1) !! new)) as [sn1 Hn1].
      { rw E1 /=. destruct (decide (i = new)) as [->|]; [by rw list_lookup_alter_eq Hn|by rw list_lookup_alter_ne // Hn]. }
      apply (notify_wp _ _ _ sn1); [done|]. intros k2 E2. eapply wp_mono; [apply IH|].
      * intros j Hj. rw E2 E1 /= list_lookup_fmap. destruct (Hl j ltac:(set_solver)) as [sj Hsj].
        destruct (decide (i = j)) as [->|]; [by rw list_lookup_alter_eq Hsj|by rw list_lookup_alter_ne // Hsj].
      * intros _ k' [b Ha]. exists true. apply (adopted_cons _ _ _ _ b _ (view k2) _ _ Hi Hpar); [by rw E2 E1|done].
    + wp_step. wp_step. eapply wp_mono; [apply IH; intros j Hj; apply Hl; set_solver|]. intros _ k' [b Ha]. exists b. by apply (adopted_skip _ _ _ _ _ _ _ _ Hi).
Qed.
Lemma reparent_wp c old new k :
  is_Some (v_slots (view k) !! new) → wp (reparent c old new) (λ _ k', ∃ b, adopted old new (seq 0 (length (v_slots (view k)))) b (view k) (view k')) k.
Proof.
  intros Hn. rw /reparent. do 2 wp_step. rw /= length_fmap. apply reparent_from_wp. intros i [->|Hi]%elem_of_cons; [done|].
  apply lookup_lt_is_Some_2. rw /= length_fmap. apply elem_of_seq in Hi. lia.
Qed.

(** *** [wait] and [kill] *)

Definition matches (t : WaitTarget) s : Prop :=
  match t with
  | AnyProcess => True
  | Process q => s_pid s = Some (nz (pid_get q))
  end.
Definition is_zombie s : Prop := ∃ st, s_state s = Zombie st.
(** The children of [p] that [t] asks for, in the slots [l]. *)
Definition candidate v (p : nat) (t : WaitTarget) (l : list nat) (i : nat) s : Prop :=
  i ∈ l ∧ v_slots v !! i = Some s ∧ s_parent s = Some p ∧ matches t s.

Lemma candidate_skip v (p : nat) t i l si : v_slots v !! i = Some si → ¬ (s_parent si = Some p ∧ matches t si) → ∀ j s, candidate v p t (i :: l) j s ↔ candidate v p t l j s.
Proof.
  intros Hi Hn j s. split; intros (Hl & Hs & Hp & Hm); (split; [|done]); [|set_solver]. apply elem_of_cons in Hl as [->|Hl]; [|done]. simplify_eq. destruct Hn. done.
Qed.

(** What a scan of the slots [l] finds. *)
Definition scanned k (p : nat) t (found : bool) (l : list nat) (r : bool + Z * Z) k' : Prop :=
  match r with
  | inl b => k' = k ∧ (∀ i s, candidate (view k) p t l i s → ¬ is_zombie s) ∧ (b = false → found = false ∧ ∀ i s, ¬ candidate (view k) p t l i s) ∧
      (b = true → found = true ∨ ∃ i s, candidate (view k) p t l i s)
  | inr (pid, st) => ∃ l1 i l2 s, l = l1 ++ i :: l2 ∧ candidate (view k) p t l i s ∧ (∀ j s, candidate (view k) p t l1 j s → ¬ is_zombie s) ∧
      s_state s = Zombie st ∧ s_pid s = Some pid ∧ view k' = v_upd i to_free (view k)
  end.
Lemma scanned_skip k (p : nat) t found i l si r k' :
  v_slots (view k) !! i = Some si → ¬ (s_parent si = Some p ∧ matches t si) → scanned k p t found l r k' → scanned k p t found (i :: l) r k'.
Proof.
  intros Hi Hn. pose proof (λ l0, candidate_skip (view k) p t i l0 si Hi Hn) as Hc. destruct r as [b|[pid st]]; simpl.
  - intros (-> & Hz & Hf & Ht). split; [done|]. split_and!.
    + intros j s. rw Hc. apply Hz.
    + intros [-> Hno]%Hf. split; [done|]. intros j s. by rw Hc.
    + intros [?|(j & s & Hj)]%Ht; [by left|]. right. exists j, s. by rw Hc.
  - intros (l1 & j & l2 & s & -> & Hj & Hl1 & Hst & Hp & E). exists (i :: l1), j, l2, s. split; [done|]. split; [by rw Hc|]. split; [|done].
    intros j' s'. rw Hc. apply Hl1.
Qed.

Lemma proc_free_wp i k s (Q : unit → Kernel → Prop) :
  v_slots (view k) !! i = Some s → (∀ k', view k' = v_upd i to_free (view k) → Q tt k') → wp (proc_free i) Q k.
Proof.
  intros (p & Hp & _)%view_lookup_inv HQ. rw /proc_free. wp_step. apply (upd_proc_wp _ _ _ p); [done|]. rw /upd_shared.
  pose proof (lookup_lt_Some _ _ _ Hp). apply (upd_proc_wp _ _ _ (set_parent None p)); [by rw /= list_lookup_insert_eq|]. apply HQ.
  rw -(view_upd _ _ (λ p, set_shared (set_state Unused (set_killed false (set_sh_name [] (set_pid None (pr_shared p))))) (set_parent None p)) to_free p) //.
  rw /view /=. by rw list_insert_insert_eq.
Qed.

Lemma wait_scan_wp (p : nat) t found l k :
  (∀ i, i ∈ l → is_Some (v_slots (view k) !! i)) →
  (∀ i s, v_slots (view k) !! i = Some s → s_parent s = Some p → is_Some (s_pid s)) →
  (∀ i j si sj pid, v_slots (view k) !! i = Some si → v_slots (view k) !! j = Some sj → s_pid si = Some pid → s_pid sj = Some pid → i = j) →
  wp (wait_scan p t found l) (scanned k p t found l) k.
Proof.
  intros Hl Hpid Hinj. revert found. induction l as [|i l IH]; intros found; simpl.
  { wp_step. split; [done|]. split_and!; [|intros ->|by left]; rw /candidate; set_solver. }
  destruct (Hl i ltac:(set_solver)) as [si Hi]. destruct (view_lookup_inv _ _ _ Hi) as (q & Hq & ->). wp_step. apply (get_proc_wp _ _ q); [done|].
  assert (∀ f, ¬ (s_parent (slot_of q) = Some p ∧ matches t (slot_of q)) → wp (wait_scan p t f l) (scanned k p t f (i :: l)) k) as Hskip.
  { intros f Hn. eapply wp_mono; [apply IH; set_solver|]. intros r k'. by apply (scanned_skip _ _ _ _ _ _ (slot_of q)). }
  case_bool_decide as Hpar; simpl; [|by apply Hskip; naive_solver].
  destruct (Hpid _ _ Hi Hpar) as [pid Hpd]. simpl in Hpd.
  assert (∀ k1, k1 = k → ∀ w : bool, (w = true ↔ matches t (slot_of q)) →
    wp (if negb w then wait_scan p t found l else match sh_state (pr_shared q) with
      | Zombie exit_status => pid ← unwrap (sh_pid (pr_shared q)); proc_free i;; mret (inr (pid, exit_status))
      | _ => match t with AnyProcess => wait_scan p t true l | Process _ => mret (inl true) end end) (scanned k p t found (i :: l)) k1) as Hrest.
  { intros k1 -> w Hw. destruct w; simpl; [|apply Hskip; naive_solver]. assert (matches t (slot_of q)) as Hm by by apply Hw.
    assert (candidate (view k) p t (i :: l) i (slot_of q)) as Hc by (split; [set_solver|done]).
    destruct (sh_state (pr_shared q)) as [| | | | |st] eqn:Est.
    6:{ wp_step. apply (wp_unwrap _ pid); [done|]. wp_step. apply (proc_free_wp _ _ (slot_of q)); [done|]. intros k' E. wp_step.
        exists [], i, l, (slot_of q). split; [done|]. split; [done|]. split; [rw /candidate; set_solver|done]. }
    all: destruct t as [|tp]; [|wp_step; split; [done|]; split_and!; [|done|by right; eauto];
      intros j s (_ & Hs & _ & Hm') [st Hz]; simpl in Hm, Hm'; pose proof (Hinj _ _ _ _ _ Hi Hs Hm Hm') as <-; simplify_eq; simpl in Hz; congruence].
    all: eapply wp_mono; [apply IH; set_solver|]; intros [b|[pid' st']] k' Hs; simpl in Hs |- *.
    all: try (destruct Hs as (l1 & j & l2 & s & -> & (? & Hj) & Hl1 & Hst & ?); exists (i :: l1), j, l2, s; split; [done|]; split; [split; [set_solver|done]|];
      split; [|done]; intros j' s' (Hin & Hs' & Hr); apply elem_of_cons in Hin as [->|Hin]; [simplify_eq; intros [? Hz]; simpl in Hz; congruence|apply (Hl1 j'); split; done]).
    all: destruct Hs as (-> & Hz & Hf & _); split; [done|]; split_and!; [|intros [? _]%Hf; done|by right; eauto].
    all: intros j s (Hin & Hs & Hr); apply elem_of_cons in Hin as [->|Hin]; [simplify_eq; intros [? Hzz]; simpl in Hzz; congruence|apply (Hz j); split; done]. }
  wp_step. destruct t as [|tp]; [wp_step; by apply Hrest|]. wp_step. apply (wp_unwrap _ pid); [done|]. wp_step. apply Hrest; [done|]. simpl. rw Hpd.
  rw Z.eqb_eq. split; [by intros ->|by intros [=]].
Qed.

Definition all_slots v : list nat := seq 0 (length (v_slots v)).
Lemma all_slots_in v i s : v_slots v !! i = Some s → i ∈ all_slots v.
Proof. intros Hi%lookup_lt_Some. apply elem_of_seq. lia. Qed.

(** Waking up a process that has been killed. *)
Definition roused s : Slot := match s_state s with Sleeping _ => to_state Runnable s | _ => s end.
Lemma kill_scan_wp pid l k :
  (∀ i, i ∈ l → is_Some (v_slots (view k) !! i)) →
  wp (kill_scan pid l) (λ r k', match r with
    | Ok _ => ∃ i s, i ∈ l ∧ v_slots (view k) !! i = Some s ∧ s_pid s = Some pid ∧ view k' = v_upd i roused (view k) ∧
        ∃ p, k_procs k' !! i = Some p ∧ sh_killed (pr_shared p) = true
    | Err e => e = ProcessNotFound pid ∧ k' = k ∧ ∀ i s, i ∈ l → v_slots (view k) !! i = Some s → s_pid s ≠ Some pid
    end) k.
Proof.
  induction l as [|i l IH]; intros Hl; simpl; [wp_step; set_solver|].
  destruct (Hl i ltac:(set_solver)) as [si Hi]. destruct (view_lookup_inv _ _ _ Hi) as (q & Hq & ->). wp_step. apply (get_proc_wp _ _ q); [done|].
  case_bool_decide as Hpid.
  - wp_step. rw /upd_shared. apply (upd_proc_wp _ _ _ q); [done|]. set (k1 := with_procs _ k). pose proof (lookup_lt_Some _ _ _ Hq) as Hlt.
    assert (k_procs k1 !! i = Some (set_shared (set_killed true (pr_shared q)) q)) as Hq1 by by rw /= list_lookup_insert_eq.
    assert (view k1 = view k) as E1.
    { rw /k1 (view_upd _ _ (λ q, set_shared (set_killed true (pr_shared q)) q) id) //. by apply (v_upd_id _ _ _ _ Hi). }
    assert (∀ st, sh_state (pr_shared q) = st → (∀ c, st ≠ Sleeping c) → view k1 = v_upd i roused (view k)) as Hsame.
    { intros st Hst Hns. rw E1. symmetry. apply (v_upd_id _ _ _ _ Hi). rw /roused /= Hst. destruct st; naive_solver. }
    destruct (sh_state (pr_shared q)) as [| |ch| | |] eqn:Est; wp_step;
      try (wp_step; wp_step; exists i, (slot_of q); split; [set_solver|]; split_and!; [done|done|by apply (Hsame _ eq_refl)|by eauto]).
    eapply upd_proc_wp; [exact Hq1|]. wp_step. exists i, (slot_of q). split; [set_solver|]. split_and!; [done|done| |].
    + rw (view_upd k1 i (λ p, set_shared (set_state Runnable (pr_shared p)) p) roused _ Hq1); [by rw /roused /slot_of /= Est|by rw E1].
    + eexists. rw /= list_lookup_insert_eq; [by rw length_insert|]. split; [done|done].
  - eapply wp_mono; [apply IH; set_solver|]. intros [[]|e] k'.
    + intros (j & s & Hj & Hrest). exists j, s. split; [set_solver|done].
    + intros (-> & -> & Hno). split_and!; [done|done|]. intros j s [->|Hj]%elem_of_cons Hs; [rw Hi in Hs; injection Hs as <-; exact Hpid|exact (Hno j s Hj Hs)].
Qed.
Lemma kill_wp pid k :
  wp (kill pid) (λ r k', match r with
    | Ok _ => ∃ i s, v_slots (view k) !! i = Some s ∧ s_pid s = Some pid ∧ view k' = v_upd i roused (view k) ∧
        ∃ p, k_procs k' !! i = Some p ∧ sh_killed (pr_shared p) = true
    | Err e => e = ProcessNotFound pid ∧ k' = k ∧ ∀ i s, v_slots (view k) !! i = Some s → s_pid s ≠ Some pid
    end) k.
Proof.
  rw /kill. do 2 wp_step. eapply wp_mono; [apply kill_scan_wp|].
  - intros i Hi%elem_of_seq. apply lookup_lt_is_Some_2. rw /= length_fmap. lia.
  - intros [[]|e] k'; [naive_solver|]. intros (-> & -> & Hno). split_and!; [done|done|]. intros i s Hs. apply (Hno i); [|done].
    apply all_slots_in in Hs. by rw /all_slots /= length_fmap in Hs.
Qed.

(** *** The scheduler *)

Lemma set_cpu_proc_wlp c o k (Q : unit → Kernel → Prop) :
  (∀ k', (c < length (v_cpus (view k)))%nat → view k' = v_cpu c o (view k) → Q tt k') → wlp (set_cpu_proc c o) Q k.
Proof.
  intros HQ. rw /set_cpu_proc. repeat wlp_step. apply HQ; [rw /= length_fmap; by apply lookup_lt_Some in H|].
  rw /view /v_cpu /=. by rw list_fmap_insert.
Qed.
Lemma schedule_turn_wlp c i k :
  wlp (schedule_turn c i) (λ r k', if r
    then ∃ s pid, (c < length (v_cpus (view k)))%nat ∧ v_slots (view k) !! i = Some s ∧ s_state s = Runnable ∧ s_pid s = Some pid ∧ view k' = v_cpu c (Some (pid, i)) (v_upd i (to_state Running) (view k))
    else k' = k) k.
Proof.
  rw /schedule_turn. wlp_step. apply get_proc_wlp. intros p Hp. case_bool_decide as Hst; simpl; [|by wlp_step].
  wlp_step. apply (upd_proc_wlp _ _ _ (to_state Running)); [done|]. intros p' k1 _ _ E1. do 2 wlp_step. wlp_step. apply set_cpu_proc_wlp. intros k2 Hc E2.
  wlp_step. exists (slot_of p), a. split; [by rw E1 in Hc|]. split; [by apply view_lookup|]. split_and!; [done|done|by rw E2 E1].
Qed.
Lemma sched_wlp c (p : nat) k (Q : unit → Kernel → Prop) :
  (∀ k', (c < length (v_cpus (view k)))%nat → view k' = v_cpu c None (view k) → Q tt k') → wlp (sched c p) Q k.
Proof. intros HQ. rw /sched. wlp_step. apply get_proc_wlp. intros q Hq. wlp_step. wlp_step. by apply set_cpu_proc_wlp. Qed.
Lemma yield_wlp c (p : nat) k :
  wlp (yield_ c p) (λ _ k', (c < length (v_cpus (view k)))%nat ∧ ∃ s, v_slots (view k) !! p = Some s ∧ s_state s = Running ∧ view k' = v_cpu c None (v_upd p (to_state Runnable) (view k))) k.
Proof.
  rw /yield_. wlp_step. apply get_proc_wlp. intros q Hq. do 2 wlp_step. apply bool_decide_eq_true in H. wlp_step.
  apply (upd_proc_wlp _ _ _ (to_state Runnable)); [done|]. intros q' k1 _ _ E1. apply sched_wlp. intros k2 Hc E2. rw E1 in Hc, E2. split; [done|].
  exists (slot_of q). split; [by apply view_lookup|]. done.
Qed.

(** *** Allocation, [fork] and [exit] *)

Lemma set_state_wlp i st k (Q : unit → Kernel → Prop) :
  (∀ k', view k' = v_upd i (to_state st) (view k) → Q tt k') → wlp (upd_shared i (set_state st)) Q k.
Proof. intros HQ. apply (upd_proc_wlp _ _ _ (to_state st)); [done|]. intros ? k' _ _ E. by apply HQ. Qed.
Lemma shared_same_wlp i f k (Q : unit → Kernel → Prop) :
  (∀ s : ProcSharedData, sh_state (f s) = sh_state s ∧ sh_pid (f s) = sh_pid s) → (∀ k', view k' = view k → Q tt k') → wlp (upd_shared i f) Q k.
Proof. intros Hf HQ. apply upd_same_wlp; [|done]. intros p. rw /slot_of /=. by destruct (Hf (pr_shared p)) as [-> ->]. Qed.

Context (trampoline forkret forkret_init : Z).

Lemma init_private_wlp i d k :
  wlp (init_private i d) (λ _ k', ∃ s, v_slots (view k) !! i = Some s ∧ s_priv s = None ∧ view k' = v_upd i (to_priv (Some (pd_pid d))) (view k)) k.
Proof.
  rw /init_private /borrow_private_raw. repeat wlp_step. apply get_proc_wlp. intros p Hp. repeat wlp_step. apply upd_same_wlp; [done|]. intros k1 E1. repeat wlp_step.
  apply bool_decide_eq_true in H0. apply put_private_wlp. intros k2 E2. exists (slot_of p). split; [by apply view_lookup|]. rw E2 E1. split; [|done].
  simpl. destruct (pr_private p); [destruct H0; eauto|done].
Qed.
Lemma v_upd_compose i g h v : v_upd i g (v_upd i h v) = v_upd i (λ s, g (h s)) v.
Proof. rw /v_upd /=. f_equal. apply list_eq. intros j. destruct (decide (i = j)) as [->|?]; [by rw !list_lookup_alter_eq -option_fmap_compose|by rw !list_lookup_alter_ne]. Qed.

(** The slot of a new process. *)
Definition to_new (pid : Z) s : Slot := to_priv (Some pid) (to_used pid s).
Definition allocated v (i : nat) v' : Prop :=
  ∃ s, v_slots v !! i = Some s ∧ s_state s = Unused ∧ s_priv s = None ∧ v_next v ≠ 0 ∧ v' = v_upd i (to_new (v_next v)) (v_bump v).
Lemma proc_allocate_wlp k :
  wlp (proc_allocate trampoline forkret) (λ r k', match r with
    | Ok i => allocated (view k) i (view k')
    | Err _ => view k' = view k ∨ ∃ i s, v_slots (view k) !! i = Some s ∧ s_state s = Unused ∧ v_next (view k) ≠ 0 ∧ view k' = v_upd i to_free (v_bump (view k))
    end) k.
Proof.
  rw /proc_allocate. wlp_step. rw /lock_unused_proc. do 2 wlp_step. destruct (list_find _ _) as [[i p]|] eqn:Hfind; wlp_step; [|by left].
  apply list_find_Some in Hfind as (Hp & Hst & _). wlp_step. rw /allocate_pid. do 3 wlp_step. wlp_step. wlp_step. wlp_step. wlp_step.
  set (k1 := with_next_pid _ k). assert (view k1 = v_bump (view k)) as E1 by done. apply negb_true_iff, Z.eqb_neq in H.
  wlp_step. rw /upd_shared. apply (upd_proc_wlp _ _ _ (to_used (v_next (view k)))); [done|]. intros p' k2 _ _ E2.
  wlp_step. rw /kstack. do 2 wlp_step. wlp_step. wlp_step. apply on_pages_wlp. intros r k3 E3. destruct r as [pt|e].
  - wlp_step. wlp_step. wlp_step. apply shared_same_wlp; [done|]. intros k4 E4. wlp_step. eapply wlp_mono; [apply init_private_wlp|].
    intros _ k5 (s & Hs & Hn & E5). wlp_step. exists (slot_of p). split; [by apply view_lookup|]. split; [done|]. rw E4 E3 E2 E1 in Hs, E5.
    rw /= list_lookup_alter_eq list_lookup_fmap Hp in Hs. simplify_eq/=. split_and!; [done|done|]. by rw E5 v_upd_compose.
  - wlp_step. rw /proc_free. wlp_step. apply (upd_proc_wlp _ _ _ (to_parent None)); [done|]. intros ? k4 _ _ E4.
    apply (upd_proc_wlp _ _ _ (λ s, {| s_state := Unused; s_pid := None; s_parent := s_parent s; s_priv := s_priv s |})); [done|]. intros ? k5 _ _ E5. wlp_step.
    right. exists i, (slot_of p). split; [by apply view_lookup|]. split_and!; [done|done|]. rw E5 E4 E3 E2 E1 !v_upd_compose. done.
Qed.

Lemma dup_files_wlp l k (Q : list (option File) → Kernel → Prop) : (∀ r k', view k' = view k → Q r k') → wlp (dup_files l) Q k.
Proof.
  revert k Q. induction l as [|[f|] l IH]; intros k Q HQ; simpl; [by wlp_step; apply HQ| |].
  - wlp_step. apply on_files_wlp. intros f' k1 E1. wlp_step. apply IH. intros r k2 E2. wlp_step. apply HQ. by rw E2.
  - wlp_step. apply IH. intros r k2 E2. wlp_step. by apply HQ.
Qed.

(** The slot of a child that is given up while its memory is copied keeps its private data. *)
Definition given_up v (i : nat) v' : Prop :=
  ∃ s, v_slots v !! i = Some s ∧ s_state s = Unused ∧ v_next v ≠ 0 ∧ v' = v_upd i (λ s, to_free (to_new (v_next v) s)) (v_bump v).
(** Success of [fork_copy], failure before there is a child, and failure of the copy. *)
Lemma fork_copy_wlp (p : nat) k :
  wlp (fork_copy trampoline forkret p) (λ r k', match r with
    | Ok (np, pid) => allocated (view k) np (view k') ∧ pid = v_next (view k)
    | Err _ => match proc_allocate trampoline forkret k with
               | Ret (Ok np) _ => given_up (view k) np (view k')
               | Ret (Err _) k1 => k' = k1
               | Panic => False
               end
    end) k.
Proof.
  rw /fork_copy. wlp_step. apply get_proc_wlp. intros par Hpar. wlp_step. apply wlp_intro. intros r k1 Er. pose proof (wlp_ret_inv _ _ _ _ _ (proc_allocate_wlp k) Er) as Ha. rw Er. destruct r as [np|e]; [|done]. pose proof Ha as (s & Hs & Hst & _ & Hnext & E1).
  assert (v_slots (view k1) !! np = Some (to_new (v_next (view k)) s)) as Hnp by by rw E1 /= list_lookup_alter_eq Hs.
  wlp_step. apply get_private_wlp. intros d sd Hd Hdp. wlp_step. apply get_private_wlp. intros nd sn Hn Hnd. rw Hnp in Hn. injection Hn as <-. simpl in Hnd. injection Hnd as Hnd.
  wlp_step. apply on_pages_wlp. intros [r u'] k2 E2. simpl.
  wlp_step. apply (put_same_wlp _ _ _ (to_new (v_next (view k)) s)); [by rw E2|by rw /= -Hnd|]. intros k3 E3. destruct r as [[]|e].
  2:{ wlp_step. rw /proc_free. wlp_step. apply (upd_proc_wlp _ _ _ (to_parent None)); [done|]. intros ? k4 _ _ E4.
      apply (upd_proc_wlp _ _ _ (λ s, {| s_state := Unused; s_pid := None; s_parent := s_parent s; s_priv := s_priv s |})); [done|]. intros ? k5 _ _ E5.
      wlp_step. apply upd_same_wlp; [done|]. intros k6 E6. wlp_step. exists s. split; [done|]. split; [done|]. split; [done|].
      by rw E6 E5 E4 E3 E2 E1 !v_upd_compose. }
  wlp_step. apply on_pages_wlp. intros tf k4 E4. wlp_step. rw /child_regs. repeat wlp_step. apply on_pages_wlp. intros [] k5 E5.
  wlp_step. apply dup_files_wlp. intros files k6 E6. wlp_step.
  assert (∀ cwd k7, view k7 = view k6 → wlp (put_private np (set_trace_mask (pd_trace_mask d) (set_cwd cwd (set_ofile files (set_pagetable u' nd))));;
    upd_shared np (set_sh_name (sh_name (pr_shared par)));; c ← get_proc np; pid ← unwrap (sh_pid (pr_shared c)); mret (Ok (np, pid) : result KernelError (nat * Z)))
    (λ r k', match r with Ok (np, pid) => allocated (view k) np (view k') ∧ pid = v_next (view k) | Err e => given_up (view k) np (view k') end) k7) as Hrest.
  { intros cwd k7 E7. wlp_step. apply (put_same_wlp _ _ _ (to_new (v_next (view k)) s)); [by rw E7 E6 E5 E4 E3 E2|by rw /= -Hnd|]. intros k8 E8.
    wlp_step. apply shared_same_wlp; [done|]. intros k9 E9. assert (view k9 = view k1) as E by by rw E9 E8 E7 E6 E5 E4 E3 E2. wlp_step. apply get_proc_wlp. intros c Hc. do 2 wlp_step. wlp_step.
    split; [by rw E|]. apply view_lookup in Hc. rw E Hnp in Hc. injection Hc as Hc1 Hc2 _ _. simpl in *; congruence. }
  destruct (pd_cwd d) as [cw|]; [wlp_step; apply on_files_wlp; intros c k7 E7; wlp_step; by apply Hrest|wlp_step; by apply Hrest].
Qed.
Lemma fork_parent_wlp (p np : nat) k (Q : unit → Kernel → Prop) :
  (∀ k', view k' = v_upd np (to_parent (Some p)) (view k) → Q tt k') → wlp (fork_parent p np) Q k.
Proof. intros HQ. apply (upd_proc_wlp _ _ _ (to_parent (Some p))); [done|]. intros ? ? _ _. apply HQ. Qed.
Lemma fork_start_wlp (np : nat) k (Q : unit → Kernel → Prop) :
  (∀ k', view k' = v_upd np (to_state Runnable) (view k) → Q tt k') → wlp (fork_start np) Q k.
Proof. intros HQ. rw /fork_start. wlp_step. apply upd_same_wlp; [done|]. intros k1 E1. apply set_state_wlp. intros k' E. apply HQ. by rw E E1. Qed.
End view.
