(* ===== verification/ProcLife.v ===== *)
(** * The life of processes

    The operations of [Proc] as steps of a system of processes and CPUs, and what is true
    of the process table in every reachable state, whatever the interleaving. *)

From S2P Require Import Prelude KError Pod SysTypes Register Syscall Addr PageAlloc Pages Pte PageTable VmUser Proc ProcSpec.

Section ops.
Context {F : Type} `{!FileLayer F}.
Abbreviation Kernel := (@Kernel F _).
Implicit Types (k : Kernel) (s : Slot) (v : View).

Lemma sleep_begin_wlp p chan force k :
  wlp (sleep_begin p chan force) (λ r k', match r with
    | Ok _ => view k' = v_upd p (to_state (Sleeping chan)) (view k)
    | Err e => e = CallerProcessAlreadyKilled ∧ k' = k
    end) k.
Proof.
  rw /sleep_begin. wlp_step. apply get_proc_wlp. intros q Hq. case_match; [by wlp_step|]. wlp_step. apply set_state_wlp. intros k' E. by wlp_step.
Qed.

(** A process that has been told to wait. *)
Definition waits (v : View) (p : nat) (t : WaitTarget) (r : option (result KernelError (Z * Z))) (v' : View) : Prop :=
  match r with
  | Some (Ok (pid, st)) => ∃ i s, candidate v p t (all_slots v) i s ∧ s_state s = Zombie st ∧ s_pid s = Some pid ∧ v' = v_upd i to_free v ∧
      ∀ j s', (j < i)%nat → candidate v p t (all_slots v) j s' → ¬ is_zombie s'
  | Some (Err NoWaitTarget) => v' = v ∧ ∀ i s, ¬ candidate v p t (all_slots v) i s
  | Some (Err e) => e = CallerProcessAlreadyKilled ∧ v' = v ∧ (∀ i s, candidate v p t (all_slots v) i s → ¬ is_zombie s)
  | None => v' = v_upd p (to_state (Sleeping (ChildEnded p))) v ∧ (∃ i s, candidate v p t (all_slots v) i s) ∧
      (∀ i s, candidate v p t (all_slots v) i s → ¬ is_zombie s)
  end.
Lemma seq_split n l1 i l2 : seq 0 n = l1 ++ i :: l2 → ∀ j, j ∈ l1 ↔ (j < i)%nat.
Proof.
  intros E. assert (i = length l1) as ->.
  { assert (seq 0 n !! length l1 = Some i) as H by (rw E; by apply list_lookup_middle). apply lookup_seq in H. lia. }
  assert (l1 = seq 0 (length l1)) as Hl1.
  { apply (f_equal (take (length l1))) in E. rw take_app_length in E. rw -{1}E. apply list_eq. intros j. destruct (decide (j < length l1)%nat) as [Hj|Hj].
    - rw lookup_take_lt // !lookup_seq_lt //. apply (f_equal length) in E. rw length_take length_seq in E. lia.
    - rw !lookup_ge_None_2 //; rw ?length_take ?length_seq; lia. }
  intros j. rw Hl1 elem_of_seq length_seq. lia.
Qed.
Lemma wait_turn_wp (p : nat) t k sp :
  v_slots (view k) !! p = Some sp →
  (∀ i s, v_slots (view k) !! i = Some s → s_parent s = Some p → is_Some (s_pid s)) →
  (∀ i j si sj pid, v_slots (view k) !! i = Some si → v_slots (view k) !! j = Some sj → s_pid si = Some pid → s_pid sj = Some pid → i = j) →
  wp (wait_turn p t) (λ r k', waits (view k) p t r (view k')) k.
Proof.
  intros Hp Hpid Hinj. rw /wait_turn. do 2 wp_step. wp_step.
  assert (seq 0 (length (k_procs k)) = all_slots (view k)) as -> by by rw /all_slots /= length_fmap.
  eapply wp_mono; [apply wait_scan_wp; [|done|done]|].
  { intros i Hi%elem_of_seq. apply lookup_lt_is_Some_2. lia. }
  intros [b|[pid st]] k' Hr.
  - destruct Hr as (-> & Hz & Hf & Ht). destruct b.
    + destruct (Ht eq_refl) as [?|Hex]; [done|]. wp_step. rw /sleep_begin. wp_step. destruct (view_lookup_inv _ _ _ Hp) as (q & Hq & ->).
      apply (get_proc_wp _ _ q); [done|]. case_match; [by do 2 wp_step|]. wp_step. rw /upd_shared. apply (upd_proc_wp _ _ _ q); [done|]. do 2 wp_step.
      split; [|done]. by apply view_upd.
    + wp_step. destruct (Hf eq_refl) as [_ ?]. done.
  - wp_step. destruct Hr as (l1 & i & l2 & s & El & Hc & Hl1 & Hst & Hpd & E). exists i, s. split_and!; [done..|].
    intros j s' Hj (Hj1 & Hj2). apply (Hl1 j). split; [|done]. by apply (seq_split _ _ _ _ El).
Qed.

Lemma close_file_wlp p fd k (Q : unit → Kernel → Prop) : (∀ k', view k' = view k → Q tt k') → wlp (close_file p fd) Q k.
Proof.
  intros HQ. rw /close_file. wlp_step. apply get_private_wlp. intros d s Hs Hd. destruct (pd_ofile d !! fd) as [[f|]|]; [|wlp_step; by apply HQ..].
  wlp_step. apply (put_same_wlp _ _ _ s); [done..|]. intros k1 E1. apply on_files_wlp. intros [] k2 E2. apply HQ. by rw E2.
Qed.
Lemma exit_files_wlp p k :
  wlp (exit_files p) (λ _ k', view k' = view k ∧ ∃ i, v_init (view k) = Some i ∧ p ≠ i ∧ ∃ s pid, v_slots (view k) !! p = Some s ∧ s_priv s = Some pid) k.
Proof.
  rw /exit_files. do 2 wlp_step. do 2 wlp_step. do 2 wlp_step. wlp_step. apply negb_true_iff, Nat.eqb_neq in H0. apply get_private_wlp. intros d s Hs Hd. wlp_step.
  eapply wlp_mono; [apply (for_each_wlp _ (λ k', view k' = view k)); [|done]|].
  { intros fd k1 E1. apply close_file_wlp. intros k2 E2. by rw E2. }
  intros [] k1 E1. wlp_step. apply get_private_wlp. intros d1 s1 Hs1 Hd1. do 2 wlp_step. wlp_step. apply (put_same_wlp _ _ _ s1); [done..|]. intros k2 E2.
  apply on_files_wlp. intros [] k3 E3. split; [by rw E3 E2 E1|]. exists a. split_and!; [done|done|]. by exists s, (pd_pid d).
Qed.

(** How [exit] changes another process: a sleeping one may have been woken. *)
Definition stirred (s s' : Slot) : Prop :=
  s_pid s' = s_pid s ∧ s_priv s' = s_priv s ∧ (s_state s' = s_state s ∨ ∃ c, s_state s = Sleeping c ∧ s_state s' = Runnable).
Lemma woken_stirred chan s s' : stirred s s' → stirred s (woken chan s').
Proof. intros (H1 & H2 & H3). rw /woken. case_bool_decide as E; [|done]. split_and!; [done..|]. right. simpl. destruct H3 as [H3|(c & Hc & H3)]; [|congruence]. rw -H3. eauto. Qed.
Lemma woken_parent chan s : s_parent (woken chan s) = s_parent s.
Proof. rw /woken. by case_bool_decide. Qed.
Lemma woken_not chan s : s_state (woken chan s) ≠ Sleeping chan.
Proof. rw /woken. by case_bool_decide. Qed.
Lemma woken_not' chan chan' s : s_state s ≠ Sleeping chan → s_state (woken chan' s) ≠ Sleeping chan.
Proof. rw /woken. by case_bool_decide. Qed.

Record exited (p init : nat) (st : Z) (v v' : View) : Prop := {
  ex_next : v_next v' = v_next v;
  ex_init : v_init v' = v_init v;
  ex_cpus : v_cpus v' = v_cpus v;
  ex_slots : ∀ j, v_slots v !! j = None → v_slots v' !! j = None;
  ex_others : ∀ j s, v_slots v !! j = Some s → j ≠ p → ∃ s', v_slots v' !! j = Some s' ∧ stirred s s' ∧ s_parent s' = s_parent (adopt p init s);
  ex_self : ∀ s, v_slots v !! p = Some s → ∃ s', v_slots v' !! p = Some s' ∧ s_pid s' = s_pid s ∧ s_priv s' = None ∧ s_state s' = Zombie st ∧
    s_parent s' = s_parent (adopt p init s) ∧ ∀ q, s_parent s' = Some q → ∀ j sj, v_slots v' !! j = Some sj → s_state sj ≠ Sleeping (ChildEnded q);
  ex_woken : (∃ i s, v_slots v !! i = Some s ∧ s_parent s = Some p) → ∀ j sj, v_slots v' !! j = Some sj → s_state sj ≠ Sleeping (ChildEnded init);
}.

Lemma adopted_stirred p init l b v v' j s :
  adopted p init l b v v' → v_slots v !! j = Some s → j ∈ l → ∃ s', v_slots v' !! j = Some s' ∧ stirred s s' ∧ s_parent s' = s_parent (adopt p init s) ∧ (b = true → s_state s' ≠ Sleeping (ChildEnded init)).
Proof.
  intros (_ & _ & _ & _ & Hj) Hs Hin. eexists. rw Hj Hs /= decide_True //. split; [done|].
  assert (stirred s (adopt p init s)) as Hst by (rw /adopt; case_bool_decide; split_and!; by try left). destruct b; [|done].
  split; [by apply woken_stirred|]. split; [apply woken_parent|]. intros _. apply woken_not.
Qed.

(** The last part of [exit]. *)
Lemma exited_intro p init st b v v1 o v' sp :
  v_slots v !! p = Some sp → adopted p init (all_slots v) b v v1 → o = s_parent (adopt p init sp) →
  v' = v_upd p (λ s, to_priv None (to_state (Zombie st) s)) (match o with Some q => v_map (woken (ChildEnded q)) v1 | None => v1 end) → exited p init st v v'.
Proof.
  intros Hsp Ha Ho ->. pose proof Ha as (H1 & H2 & H3 & Hb & Hlk). set (v2 := match o with Some q => _ | None => v1 end).
  assert (v_next v2 = v_next v ∧ v_init v2 = v_init v ∧ v_cpus v2 = v_cpus v) as (E1 & E2 & E3) by (subst v2; by destruct o).
  assert (∀ j s, v_slots v !! j = Some s → ∃ s', v_slots v2 !! j = Some s' ∧ stirred s s' ∧ s_parent s' = s_parent (adopt p init s) ∧
    (b = true → s_state s' ≠ Sleeping (ChildEnded init)) ∧ (∀ q, o = Some q → s_state s' ≠ Sleeping (ChildEnded q))) as H.
  { intros j s Hs. destruct (adopted_stirred _ _ _ _ _ _ _ _ Ha Hs (all_slots_in _ _ _ Hs)) as (s' & Hs' & Hst & Hpar & Hw). subst v2. destruct o as [q|].
    - exists (woken (ChildEnded q) s'). rw /= list_lookup_fmap Hs'. split; [done|]. split; [by apply woken_stirred|]. rw woken_parent. split; [done|].
      split; [intros ?; apply woken_not'; auto|]. intros ? [= <-]. apply woken_not.
    - exists s'. split_and!; done. }
  assert (∀ j, v_slots v !! j = None → v_slots v2 !! j = None) as Hnone by (intros j Hn; subst v2; destruct o; rw /= ?list_lookup_fmap Hlk Hn //).
  assert (∀ j sj, v_slots (v_upd p (λ s, to_priv None (to_state (Zombie st) s)) v2) !! j = Some sj → ∀ c, s_state sj = Sleeping c → ∃ s s2, v_slots v !! j = Some s ∧ v_slots v2 !! j = Some s2 ∧ s_state s2 = Sleeping c) as Hback.
  { intros j sj Hj c Hc. simpl in Hj. destruct (decide (p = j)) as [->|Hne].
    - rw list_lookup_alter_eq in Hj. apply fmap_Some in Hj as (? & _ & ->). done.
    - rw list_lookup_alter_ne // in Hj. destruct (v_slots v !! j) as [s|] eqn:Es; [|by rw Hnone in Hj]. by exists s, sj. }
  split; [done..| | | |].
  - intros j Hn. simpl. destruct (decide (p = j)) as [->|Hne]; [congruence|]. rw list_lookup_alter_ne //. by apply Hnone.
  - intros j s Hs Hne. destruct (H _ _ Hs) as (s' & Hs' & Hst & Hpar & _). exists s'. split; [rw /= list_lookup_alter_ne; [congruence|done]|done].
  - intros s Hs. destruct (H _ _ Hs) as (s' & Hs' & Hst & Hpar & _). eexists. rw /= list_lookup_alter_eq Hs' /=. split; [done|]. simpl. destruct Hst as (Hp1 & _).
    split_and!; [done|done|done|done|]. intros q Hq j sj Hj Hc. destruct (Hback _ _ Hj _ Hc) as (s0 & s2 & Hs0 & Hs2 & Hc2). destruct (H _ _ Hs0) as (s2' & Hs2' & _ & _ & _ & Hn). simplify_eq.
    by apply (Hn q); [congruence|].
  - intros (i & s & Hs & Hpar) j sj Hj Hc. destruct (Hback _ _ Hj _ Hc) as (s0 & s2 & Hs0 & Hs2 & Hc2). destruct (H _ _ Hs0) as (s2' & Hs2' & _ & _ & Hn & _). simplify_eq.
    apply Hn; [|done]. by apply (Hb i s (all_slots_in _ _ _ Hs)).
Qed.
Lemma exit_final_wlp c p st k init sp :
  v_init (view k) = Some init → is_Some (v_slots (view k) !! init) → v_slots (view k) !! p = Some sp → is_Some (s_parent sp) → (∀ q, s_parent sp = Some q → is_Some (v_slots (view k) !! q)) →
  wlp (exit_final c p st) (λ _ k', exited p init st (view k) (view k')) k.
Proof.
  intros Hi Hin Hsp Hpar Hq. rw /exit_final. do 2 wlp_step. simpl in Hi. rw Hi. do 2 wlp_step. simplify_eq. wlp_step.
  eapply wlp_mono; [apply wlp_of_wp, reparent_wp; done|]. intros [] k1 [b Ha]. fold (all_slots (view k)) in Ha.
  destruct (adopted_stirred _ _ _ _ _ _ _ _ Ha Hsp (all_slots_in _ _ _ Hsp)) as (s1 & Hs1 & _ & Hp1 & _).
  wlp_step. apply get_proc_wlp. intros q Hq1. apply view_lookup in Hq1. rw Hq1 in Hs1. injection Hs1 as <-. wlp_step. simpl in Hp1.
  assert (∀ k2, view k2 = (match pr_parent q with Some r => v_map (woken (ChildEnded r)) (view k1) | None => view k1 end) →
    wlp (upd_shared p (set_state (Zombie st));; remove_private p) (λ _ k', exited p a st (view k) (view k')) k2) as Hrest.
  { intros k2 E2. wlp_step. apply set_state_wlp. intros k3 E3. rw /remove_private. wlp_step. apply get_private_wlp. intros d s Hs Hd. wlp_step.
    apply (upd_proc_wlp _ _ _ (to_priv None)); [done|]. intros ? k4 _ _ E4. repeat wlp_step. apply upd_same_wlp; [done|]. intros k5 E5. apply on_pages_wlp. intros [] k6 E6.
    apply (exited_intro p a st b _ (view k1) (pr_parent q) _ sp); [done|done|done|]. by rw E6 E5 E4 E3 E2 v_upd_compose. }
  destruct (pr_parent q) as [r|] eqn:Er; [|wlp_step; by apply Hrest]. apply wlp_of_wp.
  assert (is_Some (v_slots (view k1) !! r)) as [sr Hsr].
  { destruct Ha as (_ & _ & _ & _ & Hlk). rw Hlk fmap_is_Some. rw /adopt in Hp1. case_bool_decide; simpl in Hp1; [by simplify_eq|by apply Hq]. }
  apply (notify_wp _ _ _ sr); [done|]. intros k2 E2. by apply Hrest.
Qed.
End ops.

(** ** The system *)

(** Where processes are in operations that have more than one step: the child of a process
    in [fork], and whether its parent has been set; what a process in [wait] waits for; the
    processes in [exit].  The slots of the children of forks that failed while they copied. *)
Record Ghost := {
  g_fork : gmap nat (nat * bool);
  g_wait : gmap nat WaitTarget;
  g_exit : gset nat;
  g_left : gset nat;
}.
Definition no_ghost : Ghost := {| g_fork := ∅; g_wait := ∅; g_exit := ∅; g_left := ∅ |}.
Definition with_fork (m : gmap nat (nat * bool)) (g : Ghost) : Ghost := {| g_fork := m; g_wait := g_wait g; g_exit := g_exit g; g_left := g_left g |}.
Definition with_wait (m : gmap nat WaitTarget) (g : Ghost) : Ghost := {| g_fork := g_fork g; g_wait := m; g_exit := g_exit g; g_left := g_left g |}.
Definition with_exit (m : gset nat) (g : Ghost) : Ghost := {| g_fork := g_fork g; g_wait := g_wait g; g_exit := m; g_left := g_left g |}.
Definition with_left (m : gset nat) (g : Ghost) : Ghost := {| g_fork := g_fork g; g_wait := g_wait g; g_exit := g_exit g; g_left := m |}.

(** Process [p] runs on CPU [c]. *)
Definition running (v : View) (c p : nat) : Prop := ∃ pid, v_cpus v !! c = Some (Some (pid, p)).
(** It is not in the middle of another operation. *)
Definition at_rest (g : Ghost) (p : nat) : Prop := g_fork g !! p = None ∧ p ∉ g_exit g.

Section system.
Context {F : Type} `{!FileLayer F} (trampoline forkret forkret_init : Z).
Abbreviation Kernel := (@Kernel F _).
Implicit Types (k : Kernel) (s : Slot) (v : View) (g : Ghost).

Inductive proc_step : Kernel * Ghost → Kernel * Ghost → Prop :=
  | ps_schedule c i k g k' :
      v_cpus (view k) !! c = Some None → schedule_turn c i k = Ret true k' → proc_step (k, g) (k', g)
  | ps_yield c p k g k' :
      running (view k) c p → yield_ c p k = Ret tt k' → proc_step (k, g) (k', g)
  | ps_sleep c p a force k g k1 k' :
      running (view k) c p → sleep_begin p (OtherCond a) force k = Ret (Ok tt) k1 → sched c p k1 = Ret tt k' → proc_step (k, g) (k', g)
  | ps_wakeup c a k g k' :
      wakeup c (OtherCond a) k = Ret tt k' → proc_step (k, g) (k', g)
  | ps_kill pid r k g k' :
      kill pid k = Ret r k' → proc_step (k, g) (k', g)
  | ps_wait c p t r k g k' :
      running (view k) c p → at_rest g p → wait_turn p t k = Ret (Some r) k' → proc_step (k, g) (k', g)
  | ps_wait_sleep c p t k g k1 k' :
      running (view k) c p → at_rest g p → wait_turn p t k = Ret None k1 → sched c p k1 = Ret tt k' →
      proc_step (k, g) (k', with_wait (<[p := t]> (g_wait g)) g)
  | ps_fork c p np pid k g k' :
      running (view k) c p → at_rest g p → fork_copy trampoline forkret p k = Ret (Ok (np, pid)) k' →
      proc_step (k, g) (k', with_fork (<[p := (np, false)]> (g_fork g)) g)
  (** A fork fails before there is a child, or while it copies the memory of the parent to it. *)
  | ps_fork_fails c p e k g k1 k' :
      running (view k) c p → at_rest g p → proc_allocate trampoline forkret k = Ret (Err e) k1 → fork_copy trampoline forkret p k = Ret (Err e) k' →
      proc_step (k, g) (k', g)
  | ps_fork_copy_fails c p np e k g k1 k' :
      running (view k) c p → at_rest g p → proc_allocate trampoline forkret k = Ret (Ok np) k1 → fork_copy trampoline forkret p k = Ret (Err e) k' →
      proc_step (k, g) (k', with_left ({[np]} ∪ g_left g) g)
  | ps_fork_parent c p np k g k' :
      running (view k) c p → g_fork g !! p = Some (np, false) → fork_parent p np k = Ret tt k' →
      proc_step (k, g) (k', with_fork (<[p := (np, true)]> (g_fork g)) g)
  | ps_fork_start c p np k g k' :
      running (view k) c p → g_fork g !! p = Some (np, true) → fork_start np k = Ret tt k' →
      proc_step (k, g) (k', with_fork (delete p (g_fork g)) g)
  | ps_exit_files c p k g k' :
      running (view k) c p → at_rest g p → exit_files p k = Ret tt k' → proc_step (k, g) (k', with_exit ({[p]} ∪ g_exit g) g)
  | ps_exit c p st k g k1 k' :
      running (view k) c p → p ∈ g_exit g → exit_final c p st k = Ret tt k1 → sched c p k1 = Ret tt k' →
      proc_step (k, g) (k', with_exit (g_exit g ∖ {[p]}) g)
  (** What the rest of the kernel does to files, memory, names and alarms. *)
  | ps_other k g k' : view k' = view k → proc_step (k, g) (k', g).

(** The state after [spawn_init], on [n] CPUs. *)
Definition boot_kernel (n : nat) (pages : Pages) (files : F) : Kernel :=
  {| k_procs := replicate (Z.to_nat NPROC) proc_new; k_next_pid := 1; k_init := None;
     k_cpus := replicate n {| cpu_proc := None; cpu_idle := false |}; k_msip := []; k_pages := pages; k_files := files |}.
Definition proc_boot k : Prop :=
  ∃ n pages files name, spawn_init trampoline forkret forkret_init name (boot_kernel n pages files) = Ret tt k.
Definition proc_reachable k g : Prop := ∃ k0, proc_boot k0 ∧ rtc proc_step (k0, no_ghost) (k, g).
End system.

(** ** The invariant *)

Definition runs (st : ProcState) : bool := match st with Sleeping _ | Runnable | Running => true | _ => false end.
Definition alive (v : View) (i : nat) : Prop := ∃ s, v_slots v !! i = Some s ∧ runs (s_state s) = true.
(** Pids grow up to the wrap-around of their counter, which stops the kernel. *)
Definition pid_bound (v : View) : Z := if v_next v =? 0 then 2 ^ 32 else v_next v.

Record slot_ok (v : View) (i : nat) (s : Slot) : Prop := {
  so_pid : s_pid s = None ↔ s_state s = Unused;
  so_bound : ∀ pid, s_pid s = Some pid → 0 < pid < pid_bound v;
  so_priv : match s_state s with Unused => True | Zombie _ => s_priv s = None | _ => s_priv s = s_pid s end;
  so_parent : ∀ q, s_parent s = Some q → alive v q ∧ s_state s ≠ Unused;
  so_orphan : s_parent s = None → s_state s = Unused ∨ s_state s = Used ∨ v_init v = Some i;
}.
Record table_ok (v : View) (g : Ghost) : Prop := {
  to_slots : ∀ i s, v_slots v !! i = Some s → slot_ok v i s;
  to_pids : ∀ i j si sj pid, v_slots v !! i = Some si → v_slots v !! j = Some sj → s_pid si = Some pid → s_pid sj = Some pid → i = j;
  to_init : ∃ i, v_init v = Some i ∧ alive v i;
  to_next : 0 ≤ v_next v < 2 ^ 32;
  to_fork : ∀ p np (b : bool), g_fork g !! p = Some (np, b) → alive v p ∧ p ∉ g_exit g ∧
    ∃ s, v_slots v !! np = Some s ∧ s_state s = Used ∧ s_parent s = (if (b : bool) then Some p else None);
  to_child : ∀ p q np b c, g_fork g !! p = Some (np, b) → g_fork g !! q = Some (np, c) → p = q;
  to_exit : ∀ p, p ∈ g_exit g → alive v p ∧ v_init v ≠ Some p;
  to_left : ∀ i s, v_slots v !! i = Some s → s_state s = Unused → s_priv s = None ∨ i ∈ g_left g;
}.
Record cpus_ok (v : View) : Prop := {
  co_running : ∀ c pid p, v_cpus v !! c = Some (Some (pid, p)) → ∃ s, v_slots v !! p = Some s ∧ s_state s = Running ∧ s_pid s = Some pid;
  co_unique : ∀ c c' p, running v c p → running v c' p → c = c';
  co_cpu : ∀ p s, v_slots v !! p = Some s → s_state s = Running → ∃ c, running v c p;
}.
(** A process that sleeps in [wait] has nothing to wait for that has ended. *)
Definition wakeups_ok (v : View) (g : Ghost) : Prop :=
  ∀ p s q, v_slots v !! p = Some s → s_state s = Sleeping (ChildEnded q) →
  q = p ∧ ∃ t, g_wait g !! p = Some t ∧ ∀ i c, v_slots v !! i = Some c → s_parent c = Some p → matches t c → ¬ is_zombie c.
