(* ===== verification/ProcInv.v ===== *)
(** * The invariant of the process table

    Every step of the system keeps the process table well formed. *)

From S2P Require Import Prelude KError Pod SysTypes Register Syscall Addr PageAlloc Pages Pte PageTable VmUser Proc ProcSpec ProcLife.

Implicit Types (s : Slot) (v : View) (g : Ghost).

(** ** Slots and how they change *)

Lemma lookup_upd i f v j : v_slots (v_upd i f v) !! j = if decide (i = j) then f <$> v_slots v !! j else v_slots v !! j.
Proof. simpl. case_decide as E; [by rw E list_lookup_alter_eq|by rw list_lookup_alter_ne]. Qed.
Lemma lookup_map f v j : v_slots (v_map f v) !! j = f <$> v_slots v !! j.
Proof. apply list_lookup_fmap. Qed.

(** A process keeps its identity; its state may change while it runs. *)
Definition same_life s s' : Prop :=
  s_pid s' = s_pid s ∧ s_parent s' = s_parent s ∧ s_priv s' = s_priv s ∧ (s_state s' = s_state s ∨ runs (s_state s) = true ∧ runs (s_state s') = true).
Definition same_lives v v' : Prop :=
  v_next v' = v_next v ∧ v_init v' = v_init v ∧ ∀ j, option_Forall2 same_life (v_slots v !! j) (v_slots v' !! j).

Lemma same_life_refl s : same_life s s.
Proof. split_and!; [done..|by left]. Qed.
Lemma same_lives_refl v : same_lives v v.
Proof. split_and!; [done..|]. intros j. destruct (v_slots v !! j); constructor. apply same_life_refl. Qed.
Lemma same_lives_upd i f v : (∀ s, v_slots v !! i = Some s → same_life s (f s)) → same_lives v (v_upd i f v).
Proof.
  intros Hf. split_and!; [done..|]. intros j. rw lookup_upd. case_decide as E; [subst|].
  - destruct (v_slots v !! j) eqn:Es; constructor; auto.
  - destruct (v_slots v !! j) eqn:Es; constructor. apply same_life_refl.
Qed.
Lemma same_lives_map f v : (∀ s, same_life s (f s)) → same_lives v (v_map f v).
Proof. intros Hf. split_and!; [done..|]. intros j. rw lookup_map. destruct (v_slots v !! j); constructor; auto. Qed.
Lemma same_lives_cpu c o v v' : same_lives v v' → same_lives v (v_cpu c o v').
Proof. done. Qed.
Lemma same_life_state st s : runs (s_state s) = true → runs st = true → same_life s (to_state st s).
Proof. intros ??. split_and!; [done..|by right]. Qed.
Lemma same_life_woken chan s : same_life s (woken chan s).
Proof. rw /woken. case_bool_decide as E; [apply same_life_state; [by rw E|done]|apply same_life_refl]. Qed.
Lemma same_life_roused s : same_life s (roused s).
Proof. rw /roused. destruct (s_state s) eqn:E; try apply same_life_refl. apply same_life_state; [by rw E|done]. Qed.

Lemma same_lives_fwd v v' j s : same_lives v v' → v_slots v !! j = Some s → ∃ s', v_slots v' !! j = Some s' ∧ same_life s s'.
Proof. intros (_ & _ & H) Hj. specialize (H j). rw Hj in H. inv H. eauto. Qed.
Lemma same_lives_bwd v v' j s' : same_lives v v' → v_slots v' !! j = Some s' → ∃ s, v_slots v !! j = Some s ∧ same_life s s'.
Proof. intros (_ & _ & H) Hj. specialize (H j). rw Hj in H. inv H. eauto. Qed.
Lemma same_lives_alive v v' i : same_lives v v' → alive v i → alive v' i.
Proof.
  intros Hv (s & Hs & Hr). destruct (same_lives_fwd _ _ _ _ Hv Hs) as (s' & Hs' & _ & _ & _ & H). exists s'. split; [done|]. destruct H as [->|[_ ?]]; done.
Qed.
Lemma same_life_const s s' : same_life s s' → runs (s_state s) = false → s_state s' = s_state s.
Proof. intros (_ & _ & _ & [H|[H _]]) Hn; [done|congruence]. Qed.
Lemma same_life_const' s s' : same_life s s' → runs (s_state s') = false → s_state s' = s_state s.
Proof. intros (_ & _ & _ & [H|[_ H]]) Hn; [done|congruence]. Qed.

Lemma table_same v v' g : same_lives v v' → table_ok v g → table_ok v' g.
Proof.
  intros Hv [Hs Hp Hi Hn Hf Hc He Hlf]. pose proof Hv as (En & Ei & _). assert (∀ i, alive v i → alive v' i) as Ha by (intros i; by apply same_lives_alive).
  split; [| | | | |done| |].
  - intros i s' Hs'. destruct (same_lives_bwd _ _ _ _ Hv Hs') as (s & H & Hl). pose proof Hl as (E1 & E2 & E3 & E4). destruct (Hs _ _ H) as [H1 H2 H3 H4 H5].
    assert (∀ st, runs st = false → s_state s' = st ↔ s_state s = st) as Hst.
    { intros st Hr. split; intros E; [rw -E; symmetry; apply same_life_const'; [done|by rw E]|rw -E; apply same_life_const; [done|by rw E]]. }
    split.
    + rw E1 (Hst Unused) //.
    + intros pid. rw E1 /pid_bound En. apply H2.
    + rw E3 E1. destruct E4 as [->|[R1 R2]]; [done|]. destruct (s_state s), (s_state s'); done.
    + intros q. rw E2 (Hst Unused) //. intros [? ?]%H4. auto.
    + rw E2 (Hst Unused) // (Hst Used) // Ei. apply H5.
  - intros i j si sj pid Hi' Hj' Ea Eb. destruct (same_lives_bwd _ _ _ _ Hv Hi') as (s1 & ? & E1 & _), (same_lives_bwd _ _ _ _ Hv Hj') as (s2 & ? & E2 & _).
    apply (Hp i j s1 s2 pid); congruence.
  - rw Ei. destruct Hi as (i & ? & ?). eauto.
  - by rw En.
  - intros p np b (? & ? & s & Hnp & Hu & Hpar)%Hf. split_and!; [auto..|]. destruct (same_lives_fwd _ _ _ _ Hv Hnp) as (s' & ? & Hl). exists s'.
    split_and!; [done|rw (same_life_const _ _ Hl) //; by rw Hu|]. destruct Hl as (_ & -> & _). done.
  - intros p (? & ?)%He. rw Ei. auto.
  - intros i s' Hs' Hu. destruct (same_lives_bwd _ _ _ _ Hv Hs') as (s & H & Hl). pose proof (same_life_const' _ _ Hl) as Est. destruct Hl as (_ & _ & -> & _).
    apply (Hlf i s H). rw -Hu. symmetry. apply Est. by rw Hu.
Qed.

(** ** Processes that come and go *)

(** One slot changes, and nobody who is alive dies. *)
Lemma alive_upd i f v j : (∀ s, v_slots v !! i = Some s → runs (s_state s) = true → runs (s_state (f s)) = true) → alive v j → alive (v_upd i f v) j.
Proof. intros Hf (s & Hs & Hr). rw /alive lookup_upd. case_decide; [subst; rw Hs /=; eauto|eauto]. Qed.
Lemma bound_bump v : 0 ≤ v_next v < 2 ^ 32 → v_next v ≠ 0 → pid_bound v = v_next v ∧ v_next v < pid_bound (v_bump v) ∧ 0 ≤ v_next (v_bump v) < 2 ^ 32.
Proof.
  intros Hn H0. rw /pid_bound /=. case: Z.eqb_spec => [?|_]; [done|]. split; [done|]. rw /wrap.
  destruct (decide (v_next v + 1 = 2 ^ 32)) as [E|E]; [rw E Z_mod_same_full Z.eqb_refl; lia|]. rw Z.mod_small; [lia|]. case: Z.eqb_spec => ?; lia.
Qed.

(** A slot that changes for a process with a state that does not run, next to the old
    slots. *)
Lemma slots_upd v v' i f s0 :
  v_slots v !! i = Some s0 → v_slots v' = v_slots (v_upd i f v) → v_init v' = v_init v → pid_bound v ≤ pid_bound v' → (∀ j, alive v j → alive v' j) →
  (∀ j s, v_slots v !! j = Some s → slot_ok v j s) → slot_ok v' i (f s0) → ∀ j s, v_slots v' !! j = Some s → slot_ok v' j s.
Proof.
  intros Hi Esl Ei Hb Ha Hs Hnew j s. rw Esl lookup_upd. case_decide as E; [subst; rw Hi /=; by intros [= <-]|].
  intros Hj. destruct (Hs _ _ Hj) as [H1 H2 H3 H4 H5]. split; [done| |done| |by rw Ei].
  - intros pid ?%H2. lia.
  - intros q [? ?]%H4. auto.
Qed.
Lemma pids_upd v v' i f s0 :
  v_slots v !! i = Some s0 → v_slots v' = v_slots (v_upd i f v) → (s_pid (f s0) = s_pid s0 ∨ (∀ pid, s_pid (f s0) = Some pid → ∀ j s, v_slots v !! j = Some s → s_pid s ≠ Some pid)) →
  (∀ i j si sj pid, v_slots v !! i = Some si → v_slots v !! j = Some sj → s_pid si = Some pid → s_pid sj = Some pid → i = j) →
  ∀ i j si sj pid, v_slots v' !! i = Some si → v_slots v' !! j = Some sj → s_pid si = Some pid → s_pid sj = Some pid → i = j.
Proof.
  intros Hi Esl Hpid Hp a b sa sb pid. rw Esl !lookup_upd. intros Ha Hb Ea Eb. destruct (decide (i = a)) as [<-|Na], (decide (i = b)) as [<-|Nb]; [done|..].
  - rw Hi /= in Ha. simplify_eq. destruct Hpid as [E|Hn]; [rw E in Ea; by apply (Hp i b s0 sb pid)|]. by destruct (Hn _ Ea _ _ Hb).
  - rw Hi /= in Hb. simplify_eq. destruct Hpid as [E|Hn]; [rw E in Eb; by apply (Hp a i sa s0 pid)|]. by destruct (Hn _ Eb _ _ Ha).
  - by apply (Hp a b sa sb pid).
Qed.
(** The same for the processes in [fork] and in [exit]. *)
Lemma fork_upd v v' i f s0 g :
  v_slots v !! i = Some s0 → v_slots v' = v_slots (v_upd i f v) → s_state s0 ≠ Used → (∀ j, alive v j → alive v' j) → table_ok v g →
  ∀ p np (b : bool), g_fork g !! p = Some (np, b) → alive v' p ∧ p ∉ g_exit g ∧ ∃ s, v_slots v' !! np = Some s ∧ s_state s = Used ∧ s_parent s = (if b then Some p else None).
Proof.
  intros Hi Esl Hu Ha Ht p np b (H1 & H2 & s & Hs & H3)%(to_fork _ _ Ht). split_and!; [auto..|]. exists s. rw Esl lookup_upd decide_False //. intros ->. naive_solver.
Qed.

Lemma left_upd v v' i f s0 g :
  v_slots v !! i = Some s0 → v_slots v' = v_slots (v_upd i f v) → (s_state (f s0) = Unused → s_priv (f s0) = None ∨ i ∈ g_left g) → table_ok v g →
  ∀ j s, v_slots v' !! j = Some s → s_state s = Unused → s_priv s = None ∨ j ∈ g_left g.
Proof.
  intros Hi Esl Hf Ht j s. rw Esl lookup_upd. case_decide as E; [subst; rw Hi /=; intros [= <-]; exact Hf|]. by apply (to_left _ _ Ht).
Qed.

Lemma table_fork v v' g p np :
  table_ok v g → alive v p → at_rest g p → allocated v np v' → table_ok v' (with_fork (<[p := (np, false)]> (g_fork g)) g).
Proof.
  intros Ht Hp [Hf Hx] (s0 & Hs0 & Hst & Hpr & Hn & ->). destruct (bound_bump v (to_next _ _ Ht) Hn) as (Eb & Hb & Hnn).
  pose proof (to_slots _ _ Ht _ _ Hs0) as Hok0. destruct Hok0 as [P1 _ _ P4 _].
  assert (s_parent s0 = None) as Hpar by (destruct (s_parent s0) as [q|] eqn:Eq; [by destruct (P4 q eq_refl)|done]).
  assert (∀ j, alive v j → alive (v_upd np (to_new (v_next v)) (v_bump v)) j) as Ha.
  { intros j (s & Hs & Hr). exists s. rw lookup_upd decide_False; [intros ->; simpl in *; simplify_eq; by rw Hst in Hr|done]. }
  split.
  - eapply (slots_upd v _ np (to_new (v_next v)) s0 Hs0); [done|done|rw /pid_bound /= in Hb Eb |- *; lia|done|apply Ht|]. split; simpl; [done| |done| |by right; left].
    + intros pid [= <-]. rw /pid_bound /= in Hb, Eb |- *. pose proof (to_next _ _ Ht). lia.
    + intros q Hq. congruence.
  - eapply (pids_upd v _ np (to_new (v_next v)) s0 Hs0); [done| |apply Ht]. right. intros pid [= <-] j s Hj Ep. pose proof (so_bound _ _ _ (to_slots _ _ Ht _ _ Hj) _ Ep). lia.
  - destruct (to_init _ _ Ht) as (i & ? & ?). exists i. auto.
  - done.
  - intros q nq b Hq. simpl in Hq. destruct (decide (p = q)) as [->|Hne].
    + rw lookup_insert_eq in Hq. simplify_eq. split_and!; [auto..|]. exists (to_new (v_next v) s0). rw lookup_upd decide_True //= Hs0. done.
    + rw lookup_insert_ne // in Hq. eapply (fork_upd v _ np _ s0 g Hs0); [done|congruence|done|done|done].
  - intros q1 q2 n b c. simpl. destruct (decide (p = q1)) as [<-|N1], (decide (p = q2)) as [<-|N2]; rw ?lookup_insert_eq ?lookup_insert_ne //.
    + intros [= <- <-] (_ & _ & s & Hs & Hu & _)%(to_fork _ _ Ht). simplify_eq. congruence.
    + intros (_ & _ & s & Hs & Hu & _)%(to_fork _ _ Ht) [= <- <-]. simplify_eq. congruence.
    + apply Ht.
  - intros q (? & ?)%(to_exit _ _ Ht). auto.
  - by apply (left_upd v _ np (to_new (v_next v)) s0 g Hs0).
Qed.
Lemma table_fork_fails v g np s0 :
  table_ok v g → v_slots v !! np = Some s0 → s_state s0 = Unused → v_next v ≠ 0 → table_ok (v_upd np to_free (v_bump v)) g.
Proof.
  intros Ht Hs0 Hst Hn. destruct (bound_bump v (to_next _ _ Ht) Hn) as (Eb & Hb & Hnn). destruct (to_slots _ _ Ht _ _ Hs0) as [P1 _ P3 P4 _].
  assert (to_free s0 = s0) as E.
  { destruct s0 as [st pid par pr]. simpl in *. subst. rw /to_free /=. f_equal; [symmetry; by apply P1|]. destruct par; [by destruct (P4 n eq_refl)|done]. }
  rw (v_upd_id np to_free (v_bump v) s0 Hs0 E). destruct Ht as [H1 H2 H3 H4 H5 H6 H7 H8]. split; [|done..].
  intros i s Hs. destruct (H1 _ _ Hs) as [Q1 Q2 Q3 Q4 Q5]. split; [done| |done..]. intros pid ?%Q2. rw Eb in H. lia.
Qed.
Lemma table_given_up v v' g np :
  table_ok v g → given_up v np v' → table_ok v' (with_left ({[np]} ∪ g_left g) g).
Proof.
  intros Ht (s0 & Hs0 & Hst & Hn & ->). destruct (bound_bump v (to_next _ _ Ht) Hn) as (Eb & Hb & Hnn). set (f := λ s, to_free (to_new (v_next v) s)).
  assert (∀ j, alive v j → alive (v_upd np f (v_bump v)) j) as Ha.
  { intros j (s & Hs & Hr). exists s. rw lookup_upd decide_False; [intros ->; simpl in *; simplify_eq; by rw Hst in Hr|done]. }
  split.
  - eapply (slots_upd v _ np f s0 Hs0); [done|done|rw /pid_bound /= in Hb Eb |- *; lia|done|apply Ht|]. split; simpl; [done..|by left].
  - eapply (pids_upd v _ np f s0 Hs0); [done|by right|apply Ht].
  - destruct (to_init _ _ Ht) as (i & ? & ?). exists i. auto.
  - done.
  - eapply (fork_upd v _ np f s0 g Hs0); [done|congruence|done|done].
  - apply Ht.
  - intros q (? & ?)%(to_exit _ _ Ht). auto.
  - simpl. intros j s. rw lookup_upd. case_decide as E; [intros _ _; right; set_solver|]. intros Hj Hu. destruct (to_left _ _ Ht j s Hj Hu); [by left|right; set_solver].
Qed.
Lemma table_fork_parent v g p np :
  table_ok v g → g_fork g !! p = Some (np, false) → table_ok (v_upd np (to_parent (Some p)) v) (with_fork (<[p := (np, true)]> (g_fork g)) g).
Proof.
  intros Ht Hg. destruct (to_fork _ _ Ht _ _ _ Hg) as (Hap & Hx & s0 & Hs0 & Hu & Hpar). destruct (to_slots _ _ Ht _ _ Hs0) as [P1 P2 P3 P4 P5].
  assert (∀ j, alive v j → alive (v_upd np (to_parent (Some p)) v) j) as Ha by (intros j; by apply alive_upd).
  split; [| | |apply Ht| | | |].
  - apply (slots_upd v _ np (to_parent (Some p)) s0 Hs0); [done|done|apply Z.le_refl|done|apply Ht|]. split; simpl; [done|done|done| |done]. intros q [= <-]. split; [auto|congruence].
  - apply (pids_upd v _ np (to_parent (Some p)) s0 Hs0); [done|by left|apply Ht].
  - destruct (to_init _ _ Ht) as (i & ? & ?). exists i. auto.
  - intros q nq b Hq. simpl in Hq. destruct (decide (p = q)) as [<-|Hne].
    + rw lookup_insert_eq in Hq. simplify_eq. split_and!; [auto..|]. exists (to_parent (Some p) s0). rw lookup_upd decide_True //= Hs0. done.
    + rw lookup_insert_ne // in Hq. destruct (to_fork _ _ Ht _ _ _ Hq) as (? & ? & s & Hs & ?). split_and!; [auto..|]. exists s. rw lookup_upd decide_False //.
      intros <-. by apply Hne, (to_child _ _ Ht p q np false b).
  - intros q1 q2 n b c. simpl. destruct (decide (p = q1)) as [<-|N1], (decide (p = q2)) as [<-|N2]; rw ?lookup_insert_eq ?lookup_insert_ne //.
    + intros [= <- <-] ?. by apply (to_child _ _ Ht p q2 np false c).
    + intros ? [= <- <-]. by apply (to_child _ _ Ht q1 p np b false).
    + apply Ht.
  - intros q (? & ?)%(to_exit _ _ Ht). auto.
  - apply (left_upd v _ np (to_parent (Some p)) s0 g Hs0); [done|simpl; congruence|done].
Qed.
Lemma table_fork_start v g p np :
  table_ok v g → g_fork g !! p = Some (np, true) → table_ok (v_upd np (to_state Runnable) v) (with_fork (delete p (g_fork g)) g).
Proof.
  intros Ht Hg. destruct (to_fork _ _ Ht _ _ _ Hg) as (Hap & Hx & s0 & Hs0 & Hu & Hpar). destruct (to_slots _ _ Ht _ _ Hs0) as [P1 P2 P3 P4 P5].
  assert (∀ j, alive v j → alive (v_upd np (to_state Runnable) v) j) as Ha by (intros j; by apply alive_upd).
  split; [| | |apply Ht| | | |].
  - apply (slots_upd v _ np (to_state Runnable) s0 Hs0); [done|done|apply Z.le_refl|done|apply Ht|]. rw Hu in P1, P3. split; simpl; [|done|done| |congruence].
    + split; [by intros ?%P1|done].
    + intros q [? _]%P4. auto.
  - apply (pids_upd v _ np (to_state Runnable) s0 Hs0); [done|by left|apply Ht].
  - destruct (to_init _ _ Ht) as (i & ? & ?). exists i. auto.
  - simpl; intros q nq b [Hne Hq]%lookup_delete_Some. destruct (to_fork _ _ Ht _ _ _ Hq) as (? & ? & s & Hs & ?). split_and!; [auto..|]. exists s. rw lookup_upd decide_False //.
    intros <-. by apply Hne, (to_child _ _ Ht p q np true b).
  - simpl; intros q1 q2 n b c [_ H1]%lookup_delete_Some [_ H2]%lookup_delete_Some. by apply (to_child _ _ Ht q1 q2 n b c).
  - intros q (? & ?)%(to_exit _ _ Ht). auto.
  - apply (left_upd v _ np (to_state Runnable) s0 g Hs0); [done|simpl; congruence|done].
Qed.
Lemma table_reap v g i s0 st : table_ok v g → v_slots v !! i = Some s0 → s_state s0 = Zombie st → table_ok (v_upd i to_free v) g.
Proof.
  intros Ht Hs0 Hz. destruct (to_slots _ _ Ht _ _ Hs0) as [P1 P2 P3 P4 P5]. rw Hz in P3.
  assert (∀ j, alive v j → alive (v_upd i to_free v) j) as Ha by (intros j; apply alive_upd; intros s Hs; simplify_eq; by rw Hz).
  split; [| | |apply Ht| |apply Ht| |].
  - apply (slots_upd v _ i to_free s0 Hs0); [done|done|apply Z.le_refl|done|apply Ht|]. split; simpl; [done..|by left].
  - apply (pids_upd v _ i to_free s0 Hs0); [done|by right|apply Ht].
  - destruct (to_init _ _ Ht) as (j & ? & ?). exists j. auto.
  - apply (fork_upd v _ i to_free s0 g Hs0); [done|congruence|done|done].
  - intros q (? & ?)%(to_exit _ _ Ht). auto.
  - apply (left_upd v _ i to_free s0 g Hs0); [done|by left|done].
Qed.
Lemma table_exit_files v g p i : table_ok v g → alive v p → g_fork g !! p = None → v_init v = Some i → p ≠ i → table_ok v (with_exit ({[p]} ∪ g_exit g) g).
Proof.
  intros Ht Ha Hg Hi Hne. split; [apply Ht..| |apply Ht| |apply Ht].
  - intros q nq b Hq. simpl in Hq. destruct (to_fork _ _ Ht _ _ _ Hq) as (? & ? & ?). split_and!; [done| |done]. simpl. set_solver.
  - simpl. intros q [->%elem_of_singleton|Hq]%elem_of_union; [split; [done|congruence]|by apply (to_exit _ _ Ht)].
Qed.

Lemma table_exit v v' g p init st :
  table_ok v g → p ∈ g_exit g → v_init v = Some init → exited p init st v v' → table_ok v' (with_exit (g_exit g ∖ {[p]}) g).
Proof.
  intros Ht Hx Hi [En Ei _ Hnone Hoth Hself _]. destruct (to_exit _ _ Ht _ Hx) as [(sp & Hsp & Hrp) Hpi]. rw Hi in Hpi.
  destruct (to_init _ _ Ht) as (i & Hi' & Hai). assert (i = init) as -> by congruence.
  destruct (Hself _ Hsp) as (sp' & Hsp' & Ep1 & Ep2 & Ep3 & Ep4 & _).
  assert (∀ j, j ≠ p → alive v j → alive v' j) as Ha.
  { intros j Hj (s & Hs & Hr). destruct (Hoth _ _ Hs Hj) as (s' & Hs' & (_ & _ & Hst) & _). exists s'. split; [done|]. destruct Hst as [->|(c & _ & ->)]; done. }
  assert (alive v' init) as Hainit by (apply Ha; [congruence|done]).
  assert (∀ j s, v_slots v !! j = Some s → ∀ q, s_parent (adopt p init s) = Some q → alive v' q) as Hpar.
  { intros j s Hs q. rw /adopt. case_bool_decide as E; simpl; [by intros [= <-]|]. intros Hq. destruct (so_parent _ _ _ (to_slots _ _ Ht _ _ Hs) _ Hq). apply Ha; [congruence|done]. }
  assert (∀ s, s_parent (adopt p init s) = None → s_parent s = None) as Hadopt by (intros s; rw /adopt; by case_bool_decide).
  assert (∀ j s', v_slots v' !! j = Some s' → ∃ s, v_slots v !! j = Some s) as Hback by (intros j s' Hs'; destruct (v_slots v !! j) eqn:E; [eauto|by rw Hnone in Hs']).
  assert (∀ j s s', v_slots v !! j = Some s → v_slots v' !! j = Some s' → s_pid s' = s_pid s) as Epid.
  { intros j s s' Hs Hs'. destruct (decide (j = p)) as [->|Hne]; [congruence|]. destruct (Hoth _ _ Hs Hne) as (s1 & ? & (? & _) & _). congruence. }
  split; [| |exists init; rw Ei; split; [exact Hi|exact Hainit]|rw En; apply Ht| |apply Ht| |].
  - intros j s' Hs'. destruct (Hback _ _ Hs') as [s Hs]. destruct (to_slots _ _ Ht _ _ Hs) as [P1 P2 P3 P4 P5]. pose proof (Epid _ _ _ Hs Hs') as Epj.
    destruct (decide (j = p)) as [->|Hne].
    + simplify_eq. split; [| |by rw Ep3| |].
      * rw Ep1 Ep3 P1. split; [intros E; by rw E in Hrp|done].
      * intros pid. rw Ep1 /pid_bound En. apply P2.
      * intros q. rw Ep4 Ep3. intros Hq. split; [by apply (Hpar p sp)|done].
      * rw Ep4 Ep3 Ei. intros [E|[E|E]]%Hadopt%P5; [by rw E in Hrp|by rw E in Hrp|congruence].
    + destruct (Hoth _ _ Hs Hne) as (s1 & Hs1 & (_ & Hpr & Hst) & Hp). simplify_eq.
      assert (∀ st, runs st = false → s_state s' = st ↔ s_state s = st) as Hst' by (intros st' Hr; destruct Hst as [->|(c & -> & ->)]; [done|split; by intros <-]).
      split; [by rw Epj Hst'| | | |].
      * intros pid. rw Epj /pid_bound En. apply P2.
      * rw Hpr Epj. destruct Hst as [->|(c & Ec & ->)]; [done|]. by rw Ec in P3.
      * intros q. rw Hp Hst' //. intros Hq. split; [by apply (Hpar j s)|]. rw /adopt in Hq. case_bool_decide as E; [by destruct (P4 _ E)|by destruct (P4 _ Hq)].
      * rw Hp Ei !Hst' //. intros ?%Hadopt. auto.
  - intros a b sa sb pid Ha' Hb' Ea Eb. destruct (Hback _ _ Ha') as [s1 H1], (Hback _ _ Hb') as [s2 H2]. apply (to_pids _ _ Ht a b s1 s2 pid); [done|done| |];
      [by rw -(Epid _ _ _ H1 Ha')|by rw -(Epid _ _ _ H2 Hb')].
  - intros q nq b (Hq1 & Hq2 & s & Hs & Hu & Hp)%(to_fork _ _ Ht). assert (q ≠ p) as Hqp by congruence. split_and!; [by apply Ha|simpl; set_solver|].
    assert (nq ≠ p) as Hnp by (intros ->; simplify_eq; by rw Hu in Hrp). destruct (Hoth _ _ Hs Hnp) as (s' & Hs' & (_ & _ & Hst) & Hp'). exists s'. split_and!; [done| |].
    + destruct Hst as [->|(c & Ec & _)]; [done|congruence].
    + rw Hp' -Hp /adopt. rw bool_decide_false //. rw Hp. destruct b; congruence.
  - simpl. intros q [Hq Hqp]%elem_of_difference. destruct (to_exit _ _ Ht _ Hq) as [? ?]. rw Ei. split; [apply Ha; set_solver|done].
  - simpl. intros j s' Hs' Hu. destruct (Hback _ _ Hs') as [s Hs]. destruct (decide (j = p)) as [->|Hne]; [simplify_eq; congruence|].
    destruct (Hoth _ _ Hs Hne) as (s1 & Hs1 & (_ & Hpr & Hst) & _). simplify_eq. rw Hpr. apply (to_left _ _ Ht j s Hs). destruct Hst as [<-|(c & _ & E)]; congruence.
Qed.

(** ** The CPUs *)

(** Except for [x], the same processes run. *)
Definition same_running (x : option nat) v v' : Prop :=
  (∀ j s, Some j ≠ x → v_slots v !! j = Some s → s_state s = Running → ∃ s', v_slots v' !! j = Some s' ∧ s_state s' = Running ∧ s_pid s' = s_pid s) ∧
  (∀ j s', Some j ≠ x → v_slots v' !! j = Some s' → s_state s' = Running → ∃ s, v_slots v !! j = Some s ∧ s_state s = Running).
Lemma same_running_upd i f v :
  (∀ s, v_slots v !! i = Some s → s_state (f s) = s_state s ∧ s_pid (f s) = s_pid s ∨ s_state s ≠ Running ∧ s_state (f s) ≠ Running) → same_running None v (v_upd i f v).
Proof.
  intros Hf. split; intros j s _; rw lookup_upd; case_decide as E; subst; [|by eauto| |by eauto].
  - intros Hs Hr. rw Hs /=. destruct (Hf _ Hs) as [[E1 E2]|[? _]]; [|done]. eexists. split; [done|]. by rw E1 E2.
  - intros (s0 & Hs & ->)%fmap_Some Hr. exists s0. destruct (Hf _ Hs) as [[E1 E2]|[_ ?]]; [|done]. by rw -E1.
Qed.
Lemma same_running_map f v :
  (∀ s, s_state (f s) = s_state s ∧ s_pid (f s) = s_pid s ∨ s_state s ≠ Running ∧ s_state (f s) ≠ Running) → same_running None v (v_map f v).
Proof.
  intros Hf. split; intros j s _; rw lookup_map.
  - intros Hs Hr. rw Hs /=. destruct (Hf s) as [[E1 E2]|[? _]]; [|done]. eexists. split; [done|]. by rw E1 E2.
  - intros (s0 & Hs & ->)%fmap_Some Hr. exists s0. destruct (Hf s0) as [[E1 E2]|[_ ?]]; [|done]. by rw -E1.
Qed.
Lemma same_running_self i f v : same_running (Some i) v (v_upd i f v).
Proof. split; intros j s Hj; rw lookup_upd; (rw decide_False; [congruence|eauto]). Qed.
Lemma cpus_keep v v' : v_cpus v' = v_cpus v → same_running None v v' → cpus_ok v → cpus_ok v'.
Proof.
  intros E [H1 H2] [C1 C2 C3]. split; rw /running E.
  - intros c pid p (s & Hs & Hr & Hp)%C1. destruct (H1 _ _ ltac:(done) Hs Hr) as (s' & ? & ? & ?). exists s'. split_and!; [done|done|congruence].
  - apply C2.
  - intros p s Hs Hr. destruct (H2 _ _ ltac:(done) Hs Hr) as (s0 & Hs0 & Hr0). by apply (C3 p s0).
Qed.
Lemma cpus_leave v v1 c p :
  cpus_ok v → running v c p → v_cpus v1 = v_cpus v → same_running (Some p) v v1 → (∀ s, v_slots v1 !! p = Some s → s_state s ≠ Running) → cpus_ok (v_cpu c None v1).
Proof.
  intros [C1 C2 C3] Hrun E [H1 H2] Hp. assert (c < length (v_cpus v))%nat as Hlt by (destruct Hrun as [pid Hc]; by apply lookup_lt_Some in Hc).
  assert (∀ c' q, running (v_cpu c None v1) c' q → q ≠ p ∧ running v c' q) as Hback.
  { intros c' q [pid Hc']. simpl in Hc'. rw E in Hc'. destruct (decide (c = c')) as [->|Hne]; [by rw list_lookup_insert_eq in Hc'|]. rw list_lookup_insert_ne // in Hc'.
    split; [|by exists pid]. intros ->. apply Hne, (C2 _ _ p); [done|by exists pid]. }
  split.
  - intros c' pid q Hc'. destruct (Hback c' q) as [Hne _]; [by exists pid|]. simpl in Hc'. rw E in Hc'.
    destruct (decide (c = c')) as [->|Hnc]; [by rw list_lookup_insert_eq in Hc'|]. rw list_lookup_insert_ne // in Hc'.
    destruct (C1 _ _ _ Hc') as (s & Hs & Hr & Hpid). destruct (H1 q s ltac:(congruence) Hs Hr) as (s' & ? & ? & ?). exists s'. split_and!; [done|done|congruence].
  - intros c1 c2 q [_ R1]%Hback [_ R2]%Hback. by apply (C2 _ _ q).
  - intros q s Hs Hr. simpl in Hs. assert (q ≠ p) as Hne by (intros ->; by apply (Hp s)). destruct (H2 q s ltac:(congruence) Hs Hr) as (s0 & Hs0 & Hr0).
    destruct (C3 _ _ Hs0 Hr0) as [c' [pid Hc']]. exists c', pid. rw /= E list_lookup_insert_ne //. intros <-. destruct Hrun as [pid' Hc]. congruence.
Qed.
Lemma cpus_enter v c i s pid :
  cpus_ok v → v_cpus v !! c = Some None → v_slots v !! i = Some s → s_state s = Runnable → s_pid s = Some pid → cpus_ok (v_cpu c (Some (pid, i)) (v_upd i (to_state Running) v)).
Proof.
  intros [C1 C2 C3] Hc Hi Hst Hpid. assert (c < length (v_cpus v))%nat as Hlt by by apply lookup_lt_Some in Hc.
  assert (∀ c', ¬ running v c' i) as Hno by (intros c' [pid' Hc']; destruct (C1 _ _ _ Hc') as (s' & ? & ? & _); congruence).
  assert (∀ c' q, running (v_cpu c (Some (pid, i)) (v_upd i (to_state Running) v)) c' q ↔ c' = c ∧ q = i ∨ c' ≠ c ∧ running v c' q) as Hrun.
  { intros c' q. rw /running /=. destruct (decide (c = c')) as [<-|Hne].
    - rw list_lookup_insert_eq //. split; [intros [? [= -> ->]]; by left|]. intros [[_ ->]|[? _]]; [by exists pid|done].
    - rw list_lookup_insert_ne //. split; [intros ?; right; split; [congruence|done]|]. intros [[? _]|[_ ?]]; [congruence|done]. }
  split.
  - intros c' pid' q Hc'. simpl in Hc'. destruct (decide (c = c')) as [<-|Hne].
    + rw list_lookup_insert_eq // in Hc'. simplify_eq. exists (to_state Running s). simpl. by rw list_lookup_alter_eq Hi.
    + rw list_lookup_insert_ne // in Hc'. destruct (C1 _ _ _ Hc') as (s' & Hs' & ? & ?). exists s'. simpl. rw list_lookup_alter_ne //. intros <-. apply (Hno c'). by exists pid'.
  - intros c1 c2 q [[-> ->]|[N1 R1]]%Hrun [[-> ?]|[N2 R2]]%Hrun; [done|by destruct (Hno c2)|subst; by destruct (Hno c1)|by apply (C2 _ _ q)].
  - intros q s' Hs' Hr. destruct (decide (i = q)) as [<-|Hne]; [exists c; apply Hrun; by left|]. simpl in Hs'. rw list_lookup_alter_ne // in Hs'.
    destruct (C3 _ _ Hs' Hr) as [c' Hc']. exists c'. apply Hrun. right. split; [|done]. intros ->. destruct Hc' as [? ?]. congruence.
Qed.

(** ** Sleeping parents *)

Definition same_waits v v' : Prop :=
  (∀ p s' q, v_slots v' !! p = Some s' → s_state s' = Sleeping (ChildEnded q) → ∃ s, v_slots v !! p = Some s ∧ s_state s = Sleeping (ChildEnded q)) ∧
  (∀ i c' p, v_slots v' !! i = Some c' → s_parent c' = Some p → is_zombie c' → ∃ c, v_slots v !! i = Some c ∧ s_parent c = Some p ∧ is_zombie c ∧ s_pid c = s_pid c').
Lemma waits_keep v v' g g' : same_waits v v' → g_wait g' = g_wait g → wakeups_ok v g → wakeups_ok v' g'.
Proof.
  intros [H1 H2] Eg Hw p s' q Hs' Hst. destruct (H1 _ _ _ Hs' Hst) as (s & Hs & Hst0). destruct (Hw _ _ _ Hs Hst0) as (-> & t & Ht & Hz). split; [done|]. exists t. rw Eg. split; [done|].
  intros i c' Hc' Hp Hm Hzc. destruct (H2 _ _ _ Hc' Hp Hzc) as (c & Hc & Hp0 & Hz0 & Epid). apply (Hz i c); [done|done| |done]. by destruct t; rw /matches ?Epid.
Qed.
Lemma same_waits_upd i f v :
  (∀ s, v_slots v !! i = Some s → (∀ q, s_state (f s) = Sleeping (ChildEnded q) → s_state s = Sleeping (ChildEnded q)) ∧
    (is_zombie (f s) → is_zombie s ∧ s_parent (f s) = s_parent s ∧ s_pid (f s) = s_pid s)) → same_waits v (v_upd i f v).
Proof.
  intros Hf. split; [intros p s' q|intros j c' p]; rw lookup_upd; case_decide as E; subst; [|by eauto| |by eauto 10].
  - intros (s & Hs & ->)%fmap_Some Hst. exists s. split; [done|]. by apply (Hf _ Hs).
  - intros (s & Hs & ->)%fmap_Some Hp Hz. destruct (proj2 (Hf _ Hs) Hz) as (? & E1 & E2). exists s. split_and!; [done|congruence|done|done].
Qed.
Lemma same_waits_map f v :
  (∀ s, (∀ q, s_state (f s) = Sleeping (ChildEnded q) → s_state s = Sleeping (ChildEnded q)) ∧ (is_zombie (f s) → is_zombie s ∧ s_parent (f s) = s_parent s ∧ s_pid (f s) = s_pid s)) →
  same_waits v (v_map f v).
Proof.
  intros Hf. split; [intros p s' q|intros j c' p]; rw lookup_map; intros (s & Hs & ->)%fmap_Some.
  - intros Hst. exists s. split; [done|]. by apply Hf.
  - intros Hp Hz. destruct (proj2 (Hf s) Hz) as (? & E1 & E2). exists s. split_and!; [done|congruence|done|done].
Qed.

(** ** Every reachable state *)

Definition proc_inv v g : Prop := table_ok v g ∧ cpus_ok v ∧ wakeups_ok v g.

Section steps.
Context {F : Type} `{!FileLayer F} (trampoline forkret forkret_init : Z).
Abbreviation Kernel := (@Kernel F _).
Abbreviation proc_step := (proc_step trampoline forkret).
Implicit Types (k : Kernel).

Lemma running_slot v c p : cpus_ok v → running v c p → ∃ s, v_slots v !! p = Some s ∧ s_state s = Running.
Proof. intros Hc [pid H]. destruct (co_running _ Hc _ _ _ H) as (s & ? & ? & _). eauto. Qed.
Lemma running_alive v c p : cpus_ok v → running v c p → alive v p.
Proof. intros Hc H. destruct (running_slot _ _ _ Hc H) as (s & Hs & Hr). exists s. by rw Hr. Qed.

(** A process leaves its CPU in a state in which it does not run, for a reason other than
    [wait]. *)
Lemma inv_leave v g c p st :
  proc_inv v g → running v c p → runs st = true → st ≠ Running → (∀ q, st ≠ Sleeping (ChildEnded q)) → proc_inv (v_cpu c None (v_upd p (to_state st) v)) g.
Proof.
  intros (Ht & Hc & Hw) Hr Hst Hnr Hns. destruct (running_slot _ _ _ Hc Hr) as (s & Hs & Hrs). split; [|split].
  - apply (table_same v); [|done]. apply same_lives_cpu, same_lives_upd. intros s' ?. simplify_eq. apply same_life_state; [by rw Hrs|done].
  - apply (cpus_leave v _ c p); [done|done|done|apply same_running_self|]. intros s'. rw lookup_upd decide_True // Hs. by intros [= <-].
  - apply (waits_keep v _ g); [|done|done]. apply same_waits_upd. intros s' ?. simplify_eq. simpl. split; [naive_solver|]. intros [? E]. simpl in E. by rw E in Hst.
Qed.
Lemma inv_map chan v g : proc_inv v g → proc_inv (v_map (woken chan) v) g.
Proof.
  intros (Ht & Hc & Hw). split; [|split].
  - apply (table_same v); [|done]. apply same_lives_map. intros s. apply same_life_woken.
  - apply (cpus_keep v); [done| |done]. apply same_running_map. intros s. rw /woken. case_bool_decide as E; [right; by rw E|by left].
  - apply (waits_keep v _ g); [|done|done]. apply same_waits_map. intros s. rw /woken. case_bool_decide as E; [|naive_solver]. split; [done|]. by intros [? ?].
Qed.
Lemma inv_roused i v g : proc_inv v g → proc_inv (v_upd i roused v) g.
Proof.
  intros (Ht & Hc & Hw). split; [|split].
  - apply (table_same v); [|done]. apply same_lives_upd. intros s _. apply same_life_roused.
  - apply (cpus_keep v); [done| |done]. apply same_running_upd. intros s _. rw /roused. destruct (s_state s) eqn:E; try (by left). right. by rw ?E.
  - apply (waits_keep v _ g); [|done|done]. apply same_waits_upd. intros s _. rw /roused. destruct (s_state s) eqn:E; rw ?E; try naive_solver. split; [done|]. by intros [? ?].
Qed.
Lemma inv_schedule v g c i s pid :
  proc_inv v g → v_cpus v !! c = Some None → v_slots v !! i = Some s → s_state s = Runnable → s_pid s = Some pid → proc_inv (v_cpu c (Some (pid, i)) (v_upd i (to_state Running) v)) g.
Proof.
  intros (Ht & Hc & Hw) Hci Hi Hst Hpid. split; [|split].
  - apply (table_same v); [|done]. apply same_lives_cpu, same_lives_upd. intros s' ?. simplify_eq. apply same_life_state; [by rw Hst|done].
  - by apply (cpus_enter v c i s pid).
  - apply (waits_keep v _ g); [|done|done]. apply same_waits_upd. intros s' ?. split; [done|]. by intros [? ?].
Qed.
(** A process goes to sleep in [wait]. *)
Lemma inv_wait_sleep v g c p t :
  proc_inv v g → running v c p → (∀ i s, candidate v p t (all_slots v) i s → ¬ is_zombie s) →
  proc_inv (v_cpu c None (v_upd p (to_state (Sleeping (ChildEnded p))) v)) (with_wait (<[p := t]> (g_wait g)) g).
Proof.
  intros (Ht & Hc & Hw) Hr Hz. destruct (running_slot _ _ _ Hc Hr) as (s & Hs & Hrs). split; [|split].
  - assert (table_ok (v_cpu c None (v_upd p (to_state (Sleeping (ChildEnded p))) v)) g) as [] by
      (apply (table_same v); [|done]; apply same_lives_cpu, same_lives_upd; intros s' ?; simplify_eq; apply same_life_state; [by rw Hrs|done]). by split.
  - apply (cpus_leave v _ c p); [done|done|done|apply same_running_self|]. intros s'. rw lookup_upd decide_True // Hs. by intros [= <-].
  - intros j sj q Hj Hst. change (v_slots (v_upd p (to_state (Sleeping (ChildEnded p))) v) !! j = Some sj) in Hj. rw lookup_upd in Hj.
    assert (∀ i c', v_slots (v_upd p (to_state (Sleeping (ChildEnded p))) v) !! i = Some c' → is_zombie c' → v_slots v !! i = Some c') as Hback.
    { intros i c' Hi [st Hzc]. rw lookup_upd in Hi. case_decide; [|done]. apply fmap_Some in Hi as (? & _ & ->). done. }
    simpl. destruct (decide (p = j)) as [<-|Hne].
    + rw Hs in Hj. injection Hj as <-. simpl in Hst. injection Hst as <-. split; [done|]. exists t. rw lookup_insert_eq. split; [done|]. intros i c' Hi Hp Hm Hzc.
      pose proof (Hback _ _ Hi Hzc) as Hi'. apply (Hz i c'); [|done]. split; [by apply (all_slots_in _ _ c')|done].
    + destruct (Hw _ _ _ Hj Hst) as (-> & t' & Ht' & Hz'). split; [done|]. exists t'. rw lookup_insert_ne //. split; [done|]. intros i c' Hi Hp Hm Hzc. by apply (Hz' i c'); [apply Hback|..].
Qed.
Lemma inv_exit v g c p init st v1 :
  proc_inv v g → running v c p → p ∈ g_exit g → v_init v = Some init → exited p init st v v1 → proc_inv (v_cpu c None v1) (with_exit (g_exit g ∖ {[p]}) g).
Proof.
  intros (Ht & Hc & Hw) Hr Hx Hi He. destruct (running_slot _ _ _ Hc Hr) as (sp & Hsp & Hrs). pose proof (table_exit _ _ _ _ _ _ Ht Hx Hi He) as Ht1.
  destruct He as [En Ei Ec Hnone Hoth Hself Hwk]. destruct (Hself _ Hsp) as (sp' & Hsp' & Ep1 & Ep2 & Ep3 & Ep4 & Hns).
  assert (∀ j s', v_slots v1 !! j = Some s' → ∃ s, v_slots v !! j = Some s) as Hback by (intros j s' Hs'; destruct (v_slots v !! j) eqn:E; [eauto|by rw Hnone in Hs']).
  split; [|split].
  - apply (table_same v1); [|done]. apply same_lives_cpu, same_lives_refl.
  - apply (cpus_leave v _ c p); [done..| |by intros s; rw Hsp'; intros [= <-]; rw Ep3]. split.
    + intros j s Hj Hs Hrun. destruct (Hoth _ _ Hs ltac:(congruence)) as (s' & Hs' & (E1 & _ & E2) & _). exists s'. split_and!; [done| |done].
      destruct E2 as [->|(ch & E & _)]; [done|congruence].
    + intros j s' Hj Hs' Hrun. destruct (Hback _ _ Hs') as [s Hs]. exists s. split; [done|]. destruct (Hoth _ _ Hs ltac:(congruence)) as (s1 & Hs1 & (_ & _ & E2) & _). simplify_eq.
      destruct E2 as [<-|(ch & _ & E)]; [done|congruence].
  - intros q s' q' Hs' Hst. change (v_slots v1 !! q = Some s') in Hs'. destruct (Hback _ _ Hs') as [s Hs].
    assert (q ≠ p) as Hqp by congruence. destruct (Hoth _ _ Hs Hqp) as (s1 & Hs1 & (_ & _ & E2) & _). simplify_eq.
    assert (s_state s = Sleeping (ChildEnded q')) as Hst0 by (destruct E2 as [<-|(ch & _ & E)]; [done|congruence]). destruct (Hw _ _ _ Hs Hst0) as (-> & t & Hg & Hz). split; [done|]. exists t.
    split; [done|]. intros i c' Hc' Hp Hm Hzc. change (v_slots v1 !! i = Some c') in Hc'. destruct (decide (i = p)) as [->|Hip].
    + simplify_eq. by apply (Hns q Hp q s').
    + destruct (Hback _ _ Hc') as [c0 Hc0]. destruct (Hoth _ _ Hc0 Hip) as (c1 & Hc1 & (E1 & _ & E3) & Hpa). simplify_eq.
      assert (is_zombie c0) as Hz0 by (destruct E3 as [E|(ch & _ & E)]; [rw /is_zombie -E; done|destruct Hzc as [? Hzc]; congruence]).
      rw Hpa /adopt in Hp. case_bool_decide as Ead; simpl in Hp.
      * injection Hp as <-. apply (Hwk ltac:(eauto) _ _ Hs' Hst).
      * apply (Hz i c0); [done|done| |done]. by destruct t; rw /matches -?E1.
Qed.

(** A slot that changes without anyone starting or ceasing to run, sleep in [wait] or be a
    zombie with a parent. *)
Lemma inv_slot v v' g g' i f s0 :
  proc_inv v g → v_slots v' = v_slots (v_upd i f v) → v_cpus v' = v_cpus v → v_slots v !! i = Some s0 → g_wait g' = g_wait g → table_ok v' g' →
  s_state s0 ≠ Running → s_state (f s0) ≠ Running → (∀ q, s_state (f s0) ≠ Sleeping (ChildEnded q)) → ¬ is_zombie (f s0) → proc_inv v' g'.
Proof.
  intros (Ht & Hc & Hw) Esl Ecp Hi Eg Ht' H1 H2 H3 H4. split; [done|]. split.
  - apply (cpus_keep v); [done| |done]. rw /same_running Esl. apply (same_running_upd i f v). intros s ?. simplify_eq. by right.
  - apply (waits_keep v _ g); [|done|done]. rw /same_waits Esl. apply (same_waits_upd i f v). intros s ?. simplify_eq. split; [intros q E; by destruct (H3 q)|done].
Qed.

Lemma proc_step_inv k g k' g' : proc_inv (view k) g → proc_step (k, g) (k', g') → proc_inv (view k') g'.
Proof.
  intros Hinv Hst. pose proof Hinv as (Ht & Hc & Hw). inversion Hst as [c i ? ? ? Hcp E|c p ? ? ? Hr E|c p a force ? ? k1 ? Hr E1 E2|c a ? ? ? E|pid r ? ? ? E|c p t r ? ? ? Hr Hg E|c p t ? ? k1 ? Hr Hg E1 E2|
    c p np pid ? ? ? Hr Hg E|c p e ? ? k1 ? Hr Hg E1 E2|c p np e ? ? k1 ? Hr Hg E1 E2|c p np ? ? ? Hr Hg E|c p np ? ? ? Hr Hg E|c p ? ? ? Hr Hg E|c p st ? ? k1 ? Hr Hx E1 E2|? ? ? E]; subst; clear Hst.
  - pose proof (wlp_ret_inv _ _ _ _ _ (schedule_turn_wlp c i k) E) as (s & pid & Hlt & Hs & Hrun & Hp & ->). by apply (inv_schedule _ _ _ _ s).
  - pose proof (wlp_ret_inv _ _ _ _ _ (yield_wlp c p k) E) as (Hlt & s & Hs & Hrun & ->). by apply inv_leave.
  - pose proof (wlp_ret_inv _ _ _ _ _ (sleep_begin_wlp p (OtherCond a) force k) E1) as Ev.
    assert (view k' = v_cpu c None (view k1)) as -> by (by apply (wlp_ret_inv _ (λ _ k', view k' = v_cpu c None (view k1)) _ _ _ (sched_wlp c p k1 _ (λ k' _ E, E)) E2)).
    rw Ev. by apply inv_leave.
  - assert (view k' = v_map (woken (OtherCond a)) (view k)) as -> by (by apply (wp_ret_inv _ _ _ _ _ (wakeup_wp c (OtherCond a) k (λ _ k', view k' = _) (λ k' Ev, Ev)) E)). by apply inv_map.
  - pose proof (wp_ret_inv _ _ _ _ _ (kill_wp pid k) E) as Hk. destruct r as [[]|e]; [|by destruct Hk as (_ & -> & _)]. destruct Hk as (i & s & _ & _ & -> & _). by apply inv_roused.
  - destruct (running_slot _ _ _ Hc Hr) as (sp & Hsp & _).
    assert (∀ i s, v_slots (view k) !! i = Some s → s_parent s = Some p → is_Some (s_pid s)) as Hpids.
    { intros i s Hs Hp. destruct (to_slots _ _ Ht _ _ Hs) as [P1 _ _ P4 _]. destruct (P4 _ Hp) as [_ Hu]. destruct (s_pid s); [done|]. by destruct Hu; apply P1. }
    pose proof (wp_ret_inv _ _ _ _ _ (wait_turn_wp p t k sp Hsp Hpids (to_pids _ _ Ht)) E) as Hwt. destruct r as [[pid st]|e]; simpl in Hwt.
    + destruct Hwt as (i & s & (_ & Hs & Hpar & _) & Hz & Hpid & -> & _). apply (inv_slot (view k) _ _ _ i to_free s Hinv); try done; [by apply (table_reap _ _ i s st)|congruence|by intros [? ?]].
    + assert (view k' = view k) as ->; [|done]. by destruct e; destruct_and?.
  - destruct (running_slot _ _ _ Hc Hr) as (sp & Hsp & _).
    assert (∀ i s, v_slots (view k) !! i = Some s → s_parent s = Some p → is_Some (s_pid s)) as Hpids.
    { intros i s Hs Hp. destruct (to_slots _ _ Ht _ _ Hs) as [P1 _ _ P4 _]. destruct (P4 _ Hp) as [_ Hu]. destruct (s_pid s); [done|]. by destruct Hu; apply P1. }
    pose proof (wp_ret_inv _ _ _ _ _ (wait_turn_wp p t k sp Hsp Hpids (to_pids _ _ Ht)) E1) as (Ev & _ & Hz).
    assert (view k' = v_cpu c None (view k1)) as -> by (by apply (wlp_ret_inv _ (λ _ k', view k' = v_cpu c None (view k1)) _ _ _ (sched_wlp c p k1 _ (λ k' _ E, E)) E2)).
    rw Ev. by apply inv_wait_sleep.
  - pose proof (wlp_ret_inv _ _ _ _ _ (fork_copy_wlp trampoline forkret p k) E) as [Ha ->]. pose proof (table_fork _ _ _ p np Ht (running_alive _ _ _ Hc Hr) Hg Ha) as Ht'.
    destruct Ha as (s0 & Hs0 & Hu & _ & _ & Ev). rw Ev in Ht' |- *. apply (inv_slot (view k) _ _ _ np (to_new (v_next (view k))) s0 Hinv); try done; [congruence|by intros [? ?]].
  - pose proof (wlp_ret_inv _ _ _ _ _ (fork_copy_wlp trampoline forkret p k) E2) as Ek. simpl in Ek. rw E1 in Ek. subst k1.
    pose proof (wlp_ret_inv _ _ _ _ _ (proc_allocate_wlp trampoline forkret k) E1) as [->|(i & s & Hs & Hu & Hn & Ev)]; [done|].
    pose proof (table_fork_fails _ _ i s Ht Hs Hu Hn) as Ht'. rw Ev. apply (inv_slot (view k) _ _ _ i to_free s Hinv); try done; [congruence|by intros [? ?]].
  - pose proof (wlp_ret_inv _ _ _ _ _ (fork_copy_wlp trampoline forkret p k) E2) as Hgu. simpl in Hgu. rw E1 in Hgu.
    pose proof (table_given_up _ _ _ np Ht Hgu) as Ht'. destruct Hgu as (s0 & Hs0 & Hu & _ & Ev). rw Ev in Ht' |- *.
    apply (inv_slot (view k) _ _ _ np (λ s, to_free (to_new (v_next (view k)) s)) s0 Hinv); try done; [congruence|by intros [? ?]].
  - assert (view k' = v_upd np (to_parent (Some p)) (view k)) as -> by (by apply (wlp_ret_inv _ _ _ _ _ (fork_parent_wlp p np k (λ _ k', view k' = _) (λ k' Ev, Ev)) E)).
    destruct (to_fork _ _ Ht _ _ _ Hg) as (_ & _ & s0 & Hs0 & Hu & _). apply (inv_slot (view k) _ _ _ np (to_parent (Some p)) s0 Hinv); try done;
      [by apply table_fork_parent|congruence|simpl; congruence|simpl; congruence|intros [? Ez]; simpl in Ez; congruence].
  - assert (view k' = v_upd np (to_state Runnable) (view k)) as -> by (by apply (wlp_ret_inv _ _ _ _ _ (fork_start_wlp np k (λ _ k', view k' = _) (λ k' Ev, Ev)) E)).
    destruct (to_fork _ _ Ht _ _ _ Hg) as (_ & _ & s0 & Hs0 & Hu & _). apply (inv_slot (view k) _ _ _ np (to_state Runnable) s0 Hinv); try done;
      [by apply (table_fork_start _ _ p)|congruence|by intros [? Ez]].
  - pose proof (wlp_ret_inv _ _ _ _ _ (exit_files_wlp p k) E) as (-> & i & Hi & Hne & _). destruct Hg as [Hf _]. split; [|done].
    apply (table_exit_files _ _ p i); [done|by apply (running_alive _ c)|done..].
  - destruct (to_init _ _ Ht) as (i & Hi & (si & Hsi & _)). destruct (running_slot _ _ _ Hc Hr) as (sp & Hsp & Hrs). destruct (to_exit _ _ Ht _ Hx) as [_ Hni].
    destruct (to_slots _ _ Ht _ _ Hsp) as [_ _ _ P4 P5].
    assert (is_Some (s_parent sp)) as Hpar by (destruct (s_parent sp); [done|]; destruct (P5 eq_refl) as [?|[?|?]]; congruence).
    assert (∀ q, s_parent sp = Some q → is_Some (v_slots (view k) !! q)) as Hpq by (intros q Hq; destruct (P4 _ Hq) as [(? & -> & _) _]; done).
    pose proof (wlp_ret_inv _ _ _ _ _ (exit_final_wlp c p st k i sp Hi ltac:(by rw Hsi) Hsp Hpar Hpq) E1) as He.
    assert (view k' = v_cpu c None (view k1)) as -> by (by apply (wlp_ret_inv _ (λ _ k', view k' = v_cpu c None (view k1)) _ _ _ (sched_wlp c p k1 _ (λ k' _ E, E)) E2)).
    by apply (inv_exit (view k) _ _ _ i st).
  - by rw E.
Qed.

(** The first process. *)
Lemma boot_slots n pages files i s : v_slots (view (boot_kernel n pages files : Kernel)) !! i = Some s → s = slot_of (proc_new (F := F)).
Proof. rw list_lookup_fmap. intros (p & Hp & ->)%fmap_Some. apply lookup_replicate in Hp as [-> _]. done. Qed.
Definition first_slot : Slot := {| s_state := Runnable; s_pid := Some 1; s_parent := None; s_priv := Some 1 |}.
Lemma spawn_init_wlp name n pages files (k0 := boot_kernel n pages files : Kernel) :
  wlp (spawn_init trampoline forkret forkret_init name) (λ _ k, ∃ i s0, v_slots (view k0) !! i = Some s0 ∧ v_slots (view k) = alter (λ _, first_slot) i (v_slots (view k0)) ∧
    v_next (view k) = 2 ∧ v_init (view k) = Some i ∧ v_cpus (view k) = v_cpus (view k0)) k0.
Proof.
  rw /spawn_init. wlp_step. eapply wlp_mono; [apply proc_allocate_wlp|].
    intros [i|e] k1 Ha; wlp_step; wlp_step; [|done]. simplify_eq. destruct Ha as (s0 & Hs0 & _ & _ & _ & E1). pose proof (boot_slots _ _ _ _ _ Hs0) as Es0.
    wlp_step. apply get_proc_wlp. intros p Hp. do 2 wlp_step. do 2 wlp_step. do 2 wlp_step. do 2 wlp_step. wlp_step. rename a into j.
    set (k2 := with_init (Some j) k1). assert (view k2 = {| v_slots := v_slots (view k1); v_next := v_next (view k1); v_init := Some j; v_cpus := v_cpus (view k1) |}) as E2 by done.
    apply shared_same_wlp; [done|]. intros k3 E3. wlp_step. apply on_files_wlp. intros root k4 E4. wlp_step. apply get_private_wlp. intros d s Hs Hd. wlp_step.
    apply (put_same_wlp _ _ _ s); [done|done|]. intros k5 E5. wlp_step. apply (upd_proc_wlp _ _ _ (to_state Runnable)); [done|]. intros ? k6 _ _ E6. apply upd_same_wlp; [done|]. intros k7 E7.
    exists j, s0. rw E7 E6 E5 E4 E3 E2. split; [done|]. split_and!; [|change (v_next (view k1) = 2); by rw E1|done|change (v_cpus (view k1) = v_cpus (view k0)); by rw E1].
    change (alter (to_state Runnable) j (v_slots (view k1)) = alter (λ _, first_slot) j (v_slots (view k0))). rw E1 /=. apply list_eq. intros m.
    destruct (decide (j = m)) as [<-|]; [|by rw !list_lookup_alter_ne]. rw !list_lookup_alter_eq Hs0 /=. by rw Es0.
Qed.
Lemma boot_inv k : proc_boot trampoline forkret forkret_init k → proc_inv (view k) no_ghost.
Proof.
  intros (n & pages & files & name & E). set (k0 := boot_kernel n pages files) in E.
  pose proof (wlp_ret_inv _ _ _ _ _ (spawn_init_wlp name n pages files) E) as (i & s0 & Hs0 & Esl & En & Ei & Ec).
  assert (∀ j s, v_slots (view k) !! j = Some s → j = i ∧ s = first_slot ∨ j ≠ i ∧ s = slot_of (proc_new (F := F))) as Hsl.
  { intros j s. rw Esl. destruct (decide (i = j)) as [<-|]; [rw list_lookup_alter_eq Hs0 /=; intros [= <-]; by left|]. rw list_lookup_alter_ne //. intros ?%boot_slots. right. split; [congruence|done]. }
  assert (alive (view k) i) as Hal. { eexists. rw Esl list_lookup_alter_eq Hs0. split; [done|done]. }
  assert (∀ c, v_cpus (view k) !! c = Some None ∨ v_cpus (view k) !! c = None) as Hcp.
  { intros c. rw Ec /= fmap_replicate. destruct (replicate n (cpu_proc _) !! c) eqn:Er; [|by right]. apply lookup_replicate in Er as [-> _]. by left. }
  split; [|split].
  - split; [| |exists i; done|rw En; lia|done|done|done|].
    + intros j s [[-> ->]|[_ ->]]%Hsl; split; simpl; try done; [|by right; right|by left]. intros pid [= <-]. rw /pid_bound En. done.
    + intros a b sa sb pid [[-> ->]|[_ ->]]%Hsl [[-> ->]|[_ ->]]%Hsl; done.
    + intros j s [[-> ->]|[_ ->]]%Hsl; [done|by left].
  - split.
    + intros c pid p Hp. destruct (Hcp c); congruence.
    + intros c c' p [pid Hp]. destruct (Hcp c); congruence.
    + intros p s [[-> ->]|[_ ->]]%Hsl; done.
  - intros p s q [[-> ->]|[_ ->]]%Hsl; done.
Qed.
Lemma proc_reachable_inv k g : proc_reachable trampoline forkret forkret_init k g → proc_inv (view k) g.
Proof.
  intros (k0 & Hb%boot_inv & Hr). remember (k0, no_ghost) as st0 eqn:E0. remember (k, g) as st eqn:E. revert k g E.
  assert (proc_inv (view st0.1) st0.2) as H0 by by rw E0. clear k0 Hb E0. induction Hr as [st|st0 [k1 g1] st Hst Hr IH]; intros k g ->; [done|].
  destruct st0 as [k0 g0]. apply IH; [|done]. by apply (proc_step_inv k0 g0).
Qed.
End steps.
