(* ===== verification/ProcClaims.v ===== *)
(** * Properties of processes

    Well-formedness of the process table in every reachable state, the behaviour of [wait]
    and [exit], and what a failed [fork] leaves behind. *)

From S2P Require Import Prelude KError Pod SysTypes Register Syscall Addr PageAlloc Pages Pte PageTable VmUser VmView VmExample Proc ProcSpec ProcLife ProcInv.

Section claims.
Context {F : Type} `{!FileLayer F} (trampoline forkret forkret_init : Z).
Abbreviation Kernel := (@Kernel F _).
Abbreviation reachable := (proc_reachable trampoline forkret forkret_init).
Context (k : Kernel) (g : Ghost) (Hreach : reachable k g).

(** A process that is neither free nor ended, nor in the making. *)
Definition lives (i : nat) : Prop := ∃ p, k_procs k !! i = Some p ∧ runs (sh_state (pr_shared p)) = true.
(** The processes that [p] can wait for with the target [t]. *)
Definition awaited (p : nat) (t : WaitTarget) (i : nat) (c : Proc) : Prop :=
  k_procs k !! i = Some c ∧ pr_parent c = Some p ∧ match t with AnyProcess => True | Process q => sh_pid (pr_shared c) = Some (nz (pid_get q)) end.
Definition ended (c : Proc) : Prop := ∃ status, sh_state (pr_shared c) = Zombie status.

Lemma lives_alive i : alive (view k) i → lives i.
Proof. intros (s & (p & Hp & ->)%view_lookup_inv & Hr). by exists p. Qed.
Lemma awaited_candidate p t i c : awaited p t i c ↔ k_procs k !! i = Some c ∧ candidate (view k) p t (all_slots (view k)) i (slot_of c).
Proof.
  split; [|by intros (Hc & _ & _ & ? & ?)]. intros (Hc & Hp & Ht). pose proof (view_lookup _ _ _ Hc) as Hs. split; [done|]. split_and!; [by apply (all_slots_in _ _ _ Hs)|done..].
Qed.

(** C15: in every reachable state the process table is well formed, whatever the interleaving
    of forks, exits, waits, kills, sleeps, wakeups and the schedulers of the CPUs, and whether or
    not the forks succeed.  A slot has a pid unless it is free; pids are unique.  A process has
    private data, with its pid, until it has ended; a free slot has none, except when it was the
    slot of a child whose fork ran out of memory while it copied.  Its parent lives; only a new process and init have none.  A process
    is in state [Running] exactly when it is on a CPU, and it is on one CPU only. *)
Theorem process_table_ok i p :
  k_procs k !! i = Some p →
  (sh_pid (pr_shared p) = None ↔ sh_state (pr_shared p) = Unused) ∧
  (∀ j p' pid, k_procs k !! j = Some p' → sh_pid (pr_shared p) = Some pid → sh_pid (pr_shared p') = Some pid → i = j) ∧
  (match sh_state (pr_shared p) with
   | Unused => pr_private p = None ∨ i ∈ g_left g
   | Zombie _ => pr_private p = None
   | _ => ∃ d, pr_private p = Some d ∧ sh_pid (pr_shared p) = Some (pd_pid d)
   end) ∧
  (∀ q, pr_parent p = Some q → lives q) ∧
  (pr_parent p = None → sh_state (pr_shared p) = Unused ∨ sh_state (pr_shared p) = Used ∨ k_init k = Some i) ∧
  (sh_state (pr_shared p) = Running ↔ ∃ c cpu pid, k_cpus k !! c = Some cpu ∧ cpu_proc cpu = Some (pid, i)) ∧
  (∀ c c' cpu cpu' pid pid', k_cpus k !! c = Some cpu → k_cpus k !! c' = Some cpu' → cpu_proc cpu = Some (pid, i) → cpu_proc cpu' = Some (pid', i) → c = c').
Proof.
  intros Hp. destruct (proc_reachable_inv _ _ _ _ _ Hreach) as (Ht & Hc & _). pose proof (view_lookup _ _ _ Hp) as Hs. destruct (to_slots _ _ Ht _ _ Hs) as [P1 _ P3 P4 P5].
  assert (∀ c cpu pid, k_cpus k !! c = Some cpu → cpu_proc cpu = Some (pid, i) → running (view k) c i) as Hrun.
  { intros c cpu pid Hcpu Epr. exists pid. by rw /= list_lookup_fmap Hcpu /= Epr. }
  split_and!; [done| | | |done| |].
  - intros j p' pid Hp' E1 E2. by apply (to_pids _ _ Ht i j _ _ pid Hs (view_lookup _ _ _ Hp')).
  - simpl in P3. assert (∀ d, pr_private p = d → pd_pid <$> d = sh_pid (pr_shared p) → sh_state (pr_shared p) ≠ Unused → ∃ d', pr_private p = Some d' ∧ sh_pid (pr_shared p) = Some (pd_pid d')) as Hd.
    { intros [d|] Ed E Hu; [exists d; by rw Ed -E|]. destruct Hu. by apply P1. }
    pose proof (to_left _ _ Ht i _ Hs) as Hleft. simpl in Hleft.
    destruct (sh_state (pr_shared p)); try (by apply (Hd _ eq_refl)); [|by destruct (pr_private p)]. destruct (Hleft eq_refl); [left; by destruct (pr_private p)|by right].
  - intros q [? _]%P4. by apply lives_alive.
  - split.
    + intros Hst. destruct (co_cpu _ Hc _ _ Hs Hst) as [c [pid Hcp]]. simpl in Hcp. rw list_lookup_fmap in Hcp. apply fmap_Some in Hcp as (cpu & ? & E). by exists c, cpu, pid.
    + intros (c & cpu & pid & Hcpu & Epr). destruct (co_running _ Hc c pid i) as (s' & Hs' & Hr & _); [by rw /= list_lookup_fmap Hcpu /= Epr|]. rw Hs in Hs'. by injection Hs' as <-.
  - intros c c' cpu cpu' pid pid' H1 H2 E1 E2. by apply (co_unique _ Hc _ _ i); [apply (Hrun _ cpu pid)|apply (Hrun _ cpu' pid')].
Qed.

(** C4: no wakeup of [wait] is lost: a process that sleeps until one of its children ends has
    no child that has ended among those it asks for. *)
Theorem wait_misses_no_child p pr :
  k_procs k !! p = Some pr → sh_state (pr_shared pr) = Sleeping (ChildEnded p) → ∃ t, g_wait g !! p = Some t ∧ ∀ i c, awaited p t i c → ¬ ended c.
Proof.
  intros Hp Hst. destruct (proc_reachable_inv _ _ _ _ _ Hreach) as (_ & _ & Hw). destruct (Hw _ _ _ (view_lookup _ _ _ Hp) Hst) as (_ & t & Ht & Hz). exists t. split; [done|].
  intros i c (Hc & Hpar & Hm) He. by apply (Hz i (slot_of c) (view_lookup _ _ _ Hc)).
Qed.

(** C33: [wait] never panics.  It returns the pid and the exit status of the first child in the
    table that has ended and that it was asked for, and frees its slot.  It fails when there is
    no such child at all, or when the caller has been killed; otherwise it sleeps.  Nothing
    else changes in the table. *)
Theorem wait_returns_child p pr t :
  k_procs k !! p = Some pr →
  wp (wait_turn p t) (λ r k', match r with
    | Some (Ok (pid, status)) => ∃ i c, awaited p t i c ∧ sh_pid (pr_shared c) = Some pid ∧ sh_state (pr_shared c) = Zombie status ∧
        (∀ j c', (j < i)%nat → awaited p t j c' → ¬ ended c') ∧ view k' = v_upd i to_free (view k)
    | Some (Err e) => view k' = view k ∧ (∀ i c, awaited p t i c → ¬ ended c) ∧
        (e = NoWaitTarget ∧ (∀ i c, ¬ awaited p t i c) ∨ e = CallerProcessAlreadyKilled)
    | None => (∃ i c, awaited p t i c) ∧ (∀ i c, awaited p t i c → ¬ ended c) ∧ view k' = v_upd p (to_state (Sleeping (ChildEnded p))) (view k)
    end) k.
Proof.
  intros Hp. destruct (proc_reachable_inv _ _ _ _ _ Hreach) as (Ht & _ & _). pose proof (view_lookup _ _ _ Hp) as Hs.
  assert (∀ i s, candidate (view k) p t (all_slots (view k)) i s → ∃ c, awaited p t i c ∧ s = slot_of c) as Hc.
  { intros i s Hc. pose proof Hc as (_ & Hi & _). destruct (view_lookup_inv _ _ _ Hi) as (c & Hci & ->). exists c. split; [by apply awaited_candidate|done]. }
  assert (∀ (P : nat → Proc → Prop), (∀ i s, candidate (view k) p t (all_slots (view k)) i s → ∀ c, s = slot_of c → k_procs k !! i = Some c → P i c) → ∀ i c, awaited p t i c → P i c) as Hall.
  { intros P H i c Ha. apply awaited_candidate in Ha as [Hi Ha]. by apply (H i (slot_of c)). }
  assert (∀ s c, s = slot_of c → ¬ is_zombie s → ¬ ended c) as Hz by (intros s c -> Hn [st E]; apply Hn; by exists st).
  eapply wp_mono; [apply (wait_turn_wp p t k _ Hs)|].
  - intros i s Hi Hpar. destruct (to_slots _ _ Ht _ _ Hi) as [P1 _ _ P4 _]. destruct (P4 _ Hpar) as [_ Hu]. destruct (s_pid s); [done|]. by destruct Hu; apply P1.
  - apply Ht.
  - intros r k' Hw. assert (∀ e, (∀ i s, candidate (view k) p t (all_slots (view k)) i s → ¬ is_zombie s) → view k' = view k → e = CallerProcessAlreadyKilled →
      view k' = view k ∧ (∀ i c, awaited p t i c → ¬ ended c) ∧ (e = NoWaitTarget ∧ (∀ i c, ¬ awaited p t i c) ∨ e = CallerProcessAlreadyKilled)) as Hk.
    { intros e Hn -> ->. split; [done|]. split; [|by right]. apply Hall. intros i s Hcd c Es _. apply (Hz s c Es). by apply (Hn i). }
    destruct r as [[[pid st]|e]|]; simpl in Hw.
    + destruct Hw as (i & s & Hcd & Hst & Hpid & -> & Hmin). destruct (Hc _ _ Hcd) as (c & Ha & ->). exists i, c. split_and!; [done..| |done].
      intros j c' Hj [_ Ha']%awaited_candidate. apply (Hz (slot_of c') c' eq_refl). by apply (Hmin j).
    + destruct e; try (destruct Hw as (? & ? & ?); by apply Hk). destruct Hw as [-> Hn]. split; [done|].
      assert (∀ i c, ¬ awaited p t i c) as Hno by (intros i c [_ Ha]%awaited_candidate; by apply (Hn i (slot_of c))). split; [|by left]. intros i c Ha. by destruct (Hno i c).
    + destruct Hw as (-> & (i & s & Hcd) & Hn). destruct (Hc _ _ Hcd) as (c & Ha & _). split_and!; [by exists i, c| |done]. apply Hall. intros j s' Hcj c' Es _. apply (Hz s' c' Es). by apply (Hn j).
Qed.
End claims.
