(* ===== verification/ProcExample.v ===== *)
(** * Runs of processes

    A small system in which the properties of processes apply, and a run of a [fork] that
    fails. *)

From S2P Require Import Prelude KError Pod SysTypes Register Syscall Addr PageAlloc Pages Pte PageTable VmUser VmView VmExample Proc ProcSpec ProcLife ProcInv ProcClaims.

(** Files and inodes without a state. *)
#[local] Instance no_files : FileLayer unit := {|
  File := nat;
  Inode := nat;
  file_dup f := mret f;
  file_close f := mret tt;
  inode_clone i := mret i;
  inode_put i := mret tt;
  root_inode := mret 1%nat;
|}.
Abbreviation Kernel := (@Kernel unit no_files).
Definition TRAMP : Z := 0x8000.
Abbreviation step := (proc_step (F := unit) TRAMP 1).
Abbreviation reach := (proc_reachable (F := unit) TRAMP 1 2).

Definition k_boot : Kernel := boot_kernel 1 (boot 64) tt.
Definition k_after {A} (o : outcome Kernel A) : Kernel := match o with Ret _ k => k | Panic => k_boot end.
Definition k_result {A} (o : outcome Kernel A) : option A := match o with Ret a _ => Some a | Panic => None end.
Lemma k_run {A} (m : M Kernel A) k a k' : k' = k_after (m k) → k_result (m k) = Some a → m k = Ret a k'.
Proof. intros ->. destruct (m k); naive_solver. Qed.

(** Init runs and forks. *)
Definition k1 : Kernel := k_after (spawn_init TRAMP 1 2 [] k_boot).
Definition k2 : Kernel := k_after (schedule_turn 0 0 k1).
Definition k3 : Kernel := k_after (fork_copy TRAMP 1 0 k2).
Definition k4 : Kernel := k_after (fork_parent 0 1 k3).
Definition k5 : Kernel := k_after (fork_start 1 k4).
(** It waits for its child. *)
Definition k6 : Kernel := k_after (wait_turn 0 AnyProcess k5).
Definition k7 : Kernel := k_after (sched 0 0 k6).
(** The child runs and exits. *)
Definition k8 : Kernel := k_after (schedule_turn 0 1 k7).
Definition k9 : Kernel := k_after (exit_files 1 k8).
Definition k10 : Kernel := k_after (exit_final 0 1 7 k9).
Definition k11 : Kernel := k_after (sched 0 1 k10).
Definition k12 : Kernel := k_after (schedule_turn 0 0 k11).

Definition g3 : Ghost := with_fork (<[0%nat := (1%nat, false)]> ∅) no_ghost.
Definition g4 : Ghost := with_fork (<[0%nat := (1%nat, true)]> (g_fork g3)) g3.
Definition g5 : Ghost := with_fork (delete 0%nat (g_fork g4)) g4.
Definition g7 : Ghost := with_wait (<[0%nat := AnyProcess]> (g_wait g5)) g5.
Definition g9 : Ghost := with_exit ({[1%nat]} ∪ g_exit g7) g7.
Definition g11 : Ghost := with_exit (g_exit g9 ∖ {[1%nat]}) g9.

Ltac run k := refine (k_run _ _ _ _ _ _); [unfold k; reflexivity|vm_compute; reflexivity].
Lemma boot_reach : reach k1 no_ghost.
Proof. exists k1. split; [|apply rtc_refl]. exists 1%nat, (boot 64), tt, []. fold k_boot. run k1. Qed.
Lemma reach_one k g k' g' : reach k g → step (k, g) (k', g') → reach k' g'.
Proof. intros (k0 & Hb & Hr) Hs. exists k0. split; [done|]. exact (rtc_r _ _ _ Hr Hs). Qed.
Lemma on_cpu (k : Kernel) p pid : v_cpus (view k) !! 0%nat = Some (Some (pid, p)) → running (view k) 0 p.
Proof. intros H. by exists pid. Qed.
Ltac on_cpu_1 := (apply (on_cpu _ _ 1); vm_compute; reflexivity).
Ltac on_cpu_2 := (apply (on_cpu _ _ 2); vm_compute; reflexivity).

Lemma k2_reach : reach k2 no_ghost.
Proof. apply (reach_one _ _ _ _ boot_reach). apply (ps_schedule TRAMP 1 0 0); [vm_compute; reflexivity|run k2]. Qed.
Lemma k5_reach : reach k5 g5.
Proof.
  assert (reach k3 g3) as H3.
  { apply (reach_one _ _ _ _ k2_reach). apply (ps_fork TRAMP 1 0 0 1 2); [on_cpu_1|done|run k3]. }
  assert (reach k4 g4) as H4.
  { apply (reach_one _ _ _ _ H3). apply (ps_fork_parent TRAMP 1 0 0 1); [on_cpu_1|done|run k4]. }
  apply (reach_one _ _ _ _ H4). apply (ps_fork_start TRAMP 1 0 0 1); [on_cpu_1|done|run k5].
Qed.
Lemma k7_reach : reach k7 g7.
Proof. apply (reach_one _ _ _ _ k5_reach). apply (ps_wait_sleep TRAMP 1 0 0 AnyProcess _ _ k6); [on_cpu_1|done|run k6|run k7]. Qed.
Lemma k12_reach : reach k12 g11.
Proof.
  assert (reach k8 g7) as H8.
  { apply (reach_one _ _ _ _ k7_reach). apply (ps_schedule TRAMP 1 0 1); [vm_compute; reflexivity|run k8]. }
  assert (reach k9 g9) as H9.
  { apply (reach_one _ _ _ _ H8). apply (ps_exit_files TRAMP 1 0 1); [on_cpu_2|done|run k9]. }
  assert (reach k11 g11) as H11.
  { apply (reach_one _ _ _ _ H9). apply (ps_exit TRAMP 1 0 1 7 _ _ k10); [on_cpu_2|set_solver|run k10|run k11]. }
  apply (reach_one _ _ _ _ H11). apply (ps_schedule TRAMP 1 0 0); [vm_compute; reflexivity|run k12].
Qed.

(** ** The properties in this system *)

Definition proc_at (k : Kernel) (i : nat) : Proc := default proc_new (k_procs k !! i).
Lemma proc_at_ok k i : bool_decide (i < length (k_procs k))%nat = true → k_procs k !! i = Some (proc_at k i).
Proof. rw bool_decide_eq_true /proc_at. intros [p ->]%lookup_lt_is_Some. done. Qed.

Lemma process_table_ok_witness : k_procs k5 !! 1%nat = Some (proc_at k5 1) ∧ ∀ q, pr_parent (proc_at k5 1) = Some q → lives k5 q.
Proof.
  assert (k_procs k5 !! 1%nat = Some (proc_at k5 1)) as H by (apply proc_at_ok; vm_compute; reflexivity).
  split; [exact H|]. destruct (process_table_ok TRAMP 1 2 k5 g5 k5_reach 1 (proc_at k5 1) H) as (_ & _ & _ & Hp & _). exact Hp.
Defined.

Lemma wait_misses_no_child_witness : ∃ t, g_wait g7 !! 0%nat = Some t ∧ ∀ i c, awaited k7 0 t i c → ¬ ended c.
Proof.
  apply (wait_misses_no_child TRAMP 1 2 k7 g7 k7_reach 0 (proc_at k7 0)); [apply proc_at_ok; vm_compute; reflexivity|vm_compute; reflexivity].
Defined.

(** The child that has exited with status 7 is waited for. *)
Definition k13 : Kernel := k_after (wait_turn 0 AnyProcess k12).
Lemma e13 : wait_turn 0 AnyProcess k12 = Ret (Some (Ok (2, 7))) k13.
Proof. run k13. Qed.
Lemma wait_returns_child_witness : ∃ i c, awaited k12 0 AnyProcess i c ∧ sh_pid (pr_shared c) = Some 2 ∧ sh_state (pr_shared c) = Zombie 7.
Proof.
  assert (k_procs k12 !! 0%nat = Some (proc_at k12 0)) as H by (apply proc_at_ok; vm_compute; reflexivity).
  destruct (wp_ret_inv _ _ _ _ _ (wait_returns_child TRAMP 1 2 k12 g11 k12_reach 0 (proc_at k12 0) AnyProcess H) e13) as (i & c & Ha & Hp & Hz & _).
  exists i, c. split; [exact Ha|]. split; [exact Hp|exact Hz].
Defined.

(** ** A fork that fails *)

(** Init has a heap of [n] pages and forks without memory for the page tables of the child;
    then it gives its heap back and forks again. *)
Definition resize_heap (n : Z) : M Kernel (result KernelError Z) :=
  d ← get_private 0;
  r ← on_pages (sbrk (pd_pagetable d) n);
  put_private 0 (set_pagetable r.2 d);;
  mret r.1.
Definition fork_without_memory : M Kernel (result KernelError Z * result KernelError Z) :=
  spawn_init TRAMP 1 2 [];;
  grown ← resize_heap 0x10000;
  forked ← fork TRAMP 1 0;
  mret (grown, forked).
Definition fork_again : M Kernel (result KernelError Z) :=
  fork_without_memory;;
  resize_heap (-0x10000);;
  fork TRAMP 1 0.
Definition small : Kernel := boot_kernel 1 (boot 34) tt.
(** a [fork] that runs out of memory while it shares the memory of the parent frees the
    slot of the child but leaves its private data behind.  The next [fork] that takes the slot,
    with enough memory, panics. *)
Theorem failed_fork_panics_next :
  k_result (fork_without_memory small) = Some (Ok 0x1000, Err NoFreePage) ∧ fork_again small = Panic.
Proof. vm_compute. done. Qed.
