(* ===== verification/FsTypes.v ===== *)
(** * On-disk data types of the file system

    Model of [crates/common/ov6_fs_types/src/lib.rs] and of the constants of
    [crates/common/ov6_kernel_params/src/lib.rs]: the super block geometry, the
    log header, inodes, the block bitmap, indirect blocks and directory entries.
    A disk block is the list of its 1024 bytes; the structs are records with the
    [pod] codec of their [repr(C)] layout.  A method that can panic is an [M];
    integer arithmetic wraps at its width, as in the release build. *)

From S2P Require Import Prelude Pod.

(** ** Constants *)

Definition FS_BLOCK_SIZE : Z := 1024.
Definition NUM_DIRECT_REFS : Z := 12.
Definition NUM_INDIRECT_REFS : Z := FS_BLOCK_SIZE / 4.
Definition MAX_FILE : Z := NUM_DIRECT_REFS + NUM_INDIRECT_REFS.
Definition MAX_LOG_COUNT : Z := FS_BLOCK_SIZE / 4 - 1.
Definition SIZEOF_INODE : Z := 64.
Definition INODE_PER_BLOCK : Z := FS_BLOCK_SIZE / SIZEOF_INODE.
Definition BITS_PER_BLOCK : Z := FS_BLOCK_SIZE * 8.
Definition DIR_SIZE : Z := 14.
Definition SIZEOF_DIRENT : Z := 16.

Definition T_DIR : Z := 1.
Definition T_FILE : Z := 2.
Definition T_DEVICE : Z := 3.

(** [DeviceNo::ROOT] of the kernel and [InodeNo::ROOT]. *)
Definition ROOT_DEV : Z := 0.
Definition ROOT_INO : Z := 1.

Definition NINODE : Z := 50.
Definition MAX_OP_BLOCKS : Z := 10.
Definition LOG_SIZE : Z := MAX_OP_BLOCKS * 3.
Definition NBUF : Z := MAX_OP_BLOCKS * 3.
Definition FS_SIZE : Z := 2000.
Definition NUM_FS_INODES : Z := 200.
Definition FS_LOG_SIZE : Z := MAX_OP_BLOCKS * 3.

(** A block is valid when it is exactly one block long. *)
Definition is_block (b : list byte) : Prop := length b = Z.to_nat FS_BLOCK_SIZE.
Definition zero_block : list byte := zeroes (Z.to_nat FS_BLOCK_SIZE).

Lemma zero_block_is_block : is_block zero_block.
Proof. apply length_replicate. Qed.
#[export] Hint Resolve zero_block_is_block : ov6.

(** ** Super block *)

Record SuperBlock := {
  magic : Z;
  sb_size : Z;
  nblocks : Z;
  ninodes : Z;
  nlog : Z;
  logstart : Z;
  inodestart : Z;
  bmapstart : Z;
}.

Definition FS_MAGIC : Z := 0x10203040.
Definition SUPER_BLOCK_NO : Z := 1.

Definition inode_block (sb : SuperBlock) (inode_no : Z) : Z :=
  wrap 32 (inodestart sb + inode_no / INODE_PER_BLOCK).
Definition bmap_block (sb : SuperBlock) (bn : Z) : Z :=
  wrap 32 (bmapstart sb + bn / BITS_PER_BLOCK).
Definition max_log_len (sb : SuperBlock) : Z := nlog sb.
Definition log_header_block (sb : SuperBlock) : Z := logstart sb.
Definition log_body_block (sb : SuperBlock) (i : Z) : Z := wrap 32 (logstart sb + i).

Definition pod_super_fields :=
  pod_pair pod_u32 (pod_pair pod_u32 (pod_pair pod_u32 (pod_pair pod_u32
    (pod_pair pod_u32 (pod_pair pod_u32 (pod_pair pod_u32 pod_u32)))))).
Definition pod_super : pod SuperBlock :=
  pod_iso pod_super_fields
    (λ '(a, (b, (c, (d, (e, (f, (g, h))))))), Build_SuperBlock a b c d e f g h)
    (λ s, (magic s, (sb_size s, (nblocks s, (ninodes s, (nlog s, (logstart s,
           (inodestart s, bmapstart s))))))))
    ltac:(by intros (?&?&?&?&?&?&?&?)) ltac:(by intros []).

(** ** Log header *)

Record DiskLogHeader := {
  lh_len : Z;
  lh_block_indices : list Z;
}.

Definition pod_log_header : pod DiskLogHeader :=
  pod_iso (pod_pair pod_u32 (pod_array pod_u32 (Z.to_nat MAX_LOG_COUNT)))
    (λ '(n, l), Build_DiskLogHeader n l) (λ h, (lh_len h, lh_block_indices h))
    ltac:(by intros []) ltac:(by intros []).

(** [LogHeader::set_len]: panics when [len] does not fit in a [u32]. *)
Definition lh_set_len {S} (h : DiskLogHeader) (len : Z) : M S DiskLogHeader :=
  n ← unwrap (try_from 32 len);
  mret {| lh_len := n; lh_block_indices := lh_block_indices h |}.
(** [LogHeader::block_indices]: the slice panics past the end of the array. *)
Definition block_indices {S} (h : DiskLogHeader) : M S (list Z) :=
  assert_ (lh_len h <=? Z.of_nat (length (lh_block_indices h)));;
  mret (take (Z.to_nat (lh_len h)) (lh_block_indices h)).
(** [header.block_indices_mut()[i] = bn]. *)
Definition block_indices_mut {S} (h : DiskLogHeader) (i : Z) (bn : Z) : M S DiskLogHeader :=
  l ← block_indices h;
  assert_ (i <? Z.of_nat (length l));;
  mret {| lh_len := lh_len h;
          lh_block_indices := <[Z.to_nat i := bn]> (lh_block_indices h) |}.

(** ** Inodes *)

Record DiskInode := {
  di_ty : Z;
  di_major : Z;
  di_minor : Z;
  di_nlink : Z;
  di_size : Z;
  di_addrs : list Z;
}.

Definition pod_inode_fields :=
  pod_pair pod_u16 (pod_pair pod_u16 (pod_pair pod_u16 (pod_pair pod_u16
    (pod_pair pod_u32 (pod_array pod_u32 (Z.to_nat (NUM_DIRECT_REFS + 1))))))).
Definition pod_inode : pod DiskInode :=
  pod_iso pod_inode_fields
    (λ '(a, (b, (c, (d, (e, f))))), Build_DiskInode a b c d e f)
    (λ i, (di_ty i, (di_major i, (di_minor i, (di_nlink i, (di_size i, di_addrs i))))))
    ltac:(by intros (?&?&?&?&?&?)) ltac:(by intros []).

(** [Inode::zeroed()]. *)
Definition zeroed_inode : DiskInode :=
  {| di_ty := 0; di_major := 0; di_minor := 0; di_nlink := 0; di_size := 0;
     di_addrs := replicate (Z.to_nat (NUM_DIRECT_REFS + 1)) 0 |}.

Definition is_free (i : DiskInode) : bool := di_ty i =? 0.

Definition inode_allocate {S} (i : DiskInode) (ty : Z) : M S DiskInode :=
  assert_ (di_ty i =? 0);;
  mret {| di_ty := ty; di_major := di_major zeroed_inode; di_minor := di_minor zeroed_inode;
          di_nlink := di_nlink zeroed_inode; di_size := di_size zeroed_inode;
          di_addrs := di_addrs zeroed_inode |}.

(** The loop of [Inode::write_addrs] over [self.addrs.iter_mut().zip(addrs)]. *)
Fixpoint write_addrs {S} (dst : list Z) (addrs : list (option Z)) : M S (list Z) :=
  match dst, addrs with
  | _ :: dst', Some bn :: addrs' =>
      assert_ (negb (bn =? 0));;
      rest ← write_addrs dst' addrs';
      mret (bn :: rest)
  | _ :: dst', None :: addrs' =>
      rest ← write_addrs dst' addrs';
      mret (0 :: rest)
  | _, _ => mret dst
  end.

(** [Inode::read_addrs]: zero means no block. *)
Definition read_addr (bn : Z) : option Z := if bn =? 0 then None else Some bn.
Definition read_addrs (addrs : list Z) : list (option Z) := read_addr <$> addrs.

(** [InodeBlock]: the inode of number [ino] is entry [ino % INODE_PER_BLOCK]. *)
Definition inode_slot (ino : Z) : nat :=
  (Z.to_nat (ino mod INODE_PER_BLOCK) * psize pod_inode)%nat.
Definition block_inode (b : list byte) (ino : Z) : DiskInode :=
  pod_get pod_inode (inode_slot ino) b.
Definition block_inode_mut (b : list byte) (ino : Z) (i : DiskInode) : list byte :=
  pod_set pod_inode (inode_slot ino) i b.

(** ** Block bitmap *)

Definition bit_at (b : list byte) (n : Z) : bool :=
  match b !! Z.to_nat (n / 8) with
  | Some c => negb (Z.land (b2z c) (Z.shiftl 1 (n mod 8)) =? 0)
  | None => false
  end.

Definition is_allocated {S} (b : list byte) (n : Z) : M S bool :=
  assert_ (n <? BITS_PER_BLOCK);;
  c ← unwrap (b !! Z.to_nat (n / 8));
  mret (negb (Z.land (b2z c) (Z.shiftl 1 (n mod 8)) =? 0)).

Definition bmap_allocate {S} (b : list byte) (n : Z) : M S (list byte) :=
  assert_ (n <? BITS_PER_BLOCK);;
  c ← unwrap (b !! Z.to_nat (n / 8));
  mret (<[Z.to_nat (n / 8) := z2b (Z.lor (b2z c) (Z.shiftl 1 (n mod 8)))]> b).

(** [x &= !(1 << k)] on a byte is [Z.ldiff]. *)
Definition bmap_free {S} (b : list byte) (n : Z) : M S (list byte) :=
  assert_ (n <? BITS_PER_BLOCK);;
  c ← unwrap (b !! Z.to_nat (n / 8));
  mret (<[Z.to_nat (n / 8) := z2b (Z.ldiff (b2z c) (Z.shiftl 1 (n mod 8)))]> b).

(** ** Indirect blocks *)

Definition pod_indirect : pod (list Z) := pod_array pod_u32 (Z.to_nat NUM_INDIRECT_REFS).

Definition indirect_get {S} (b : list byte) (i : Z) : M S (option Z) :=
  bn ← unwrap (pof pod_indirect b !! Z.to_nat i);
  mret (read_addr bn).
Definition indirect_set {S} (b : list byte) (i : Z) (bn : option Z) : M S (list byte) :=
  v ← match bn with
      | None => mret 0
      | Some bn => assert_ (negb (bn =? 0));; mret bn
      end;
  assert_ (i <? NUM_INDIRECT_REFS);;
  mret (pto pod_indirect (<[Z.to_nat i := v]> (pof pod_indirect b))).
(** [IndirectBlock::drain] run to its end: the old entries and the cleared block. *)
Definition indirect_drain (b : list byte) : list (option Z) * list byte :=
  (read_addr <$> pof pod_indirect b,
   pto pod_indirect (replicate (Z.to_nat NUM_INDIRECT_REFS) 0)).

(** ** Directory entries *)

Record DirEntry := {
  de_ino : Z;
  de_name : list byte;
}.

Definition pod_dirent : pod DirEntry :=
  pod_iso (pod_pair pod_u16 (pod_bytes (Z.to_nat DIR_SIZE)))
    (λ '(i, n), Build_DirEntry i n) (λ d, (de_ino d, de_name d))
    ltac:(by intros []) ltac:(by intros []).

Definition zeroed_dirent : DirEntry :=
  {| de_ino := 0; de_name := zeroes (Z.to_nat DIR_SIZE) |}.

Definition dirent_ino (d : DirEntry) : option Z :=
  if de_ino d =? 0 then None else Some (de_ino d).

Definition set_ino {S} (d : DirEntry) (ino : option Z) : M S DirEntry :=
  match ino with
  | Some ino =>
      assert_ (negb (ino =? 0));;
      v ← unwrap (try_from 16 ino);
      mret {| de_ino := v; de_name := de_name d |}
  | None => mret {| de_ino := 0; de_name := de_name d |}
  end.

(** [name[..position(0).unwrap_or(len)]]. *)
Fixpoint until_nul (l : list byte) : list byte :=
  match l with
  | [] => []
  | c :: l' => if bool_decide (c = Byte.x00) then [] else c :: until_nul l'
  end.
Definition dirent_name (d : DirEntry) : list byte := until_nul (de_name d).

Definition is_same_name (d : DirEntry) (name : list byte) : bool :=
  let len := Nat.min (length name) (Z.to_nat DIR_SIZE) in
  bool_decide (dirent_name d = take len name).

Definition set_name (d : DirEntry) (name : list byte) : DirEntry :=
  let len := Nat.min (length name) (length (de_name d)) in
  {| de_ino := de_ino d;
     de_name := take len name ++ zeroes (length (de_name d) - len) |}.

(** ** Geometry *)

(** The first data block: the log, the inodes and the bitmap come before it. *)
Definition data_start (sb : SuperBlock) : Z := bmapstart sb + sb_size sb / BITS_PER_BLOCK + 1.

(** Well-formed geometry: the fields are [u32]s, the regions the code indexes
    stay below [2^32] and come in order. *)
Record sb_ok (sb : SuperBlock) : Prop := {
  sb_wf : pwf pod_super sb;
  sb_inode_region : inodestart sb + ninodes sb / INODE_PER_BLOCK < 2 ^ 32;
  sb_bmap_region : bmapstart sb + sb_size sb / BITS_PER_BLOCK < 2 ^ 32;
  sb_size_bound : sb_size sb + BITS_PER_BLOCK ≤ 2 ^ 32;
  sb_regions : inodestart sb + ninodes sb / INODE_PER_BLOCK < bmapstart sb;
}.

Lemma psize_inode : psize pod_inode = 64%nat.
Proof. done. Qed.
Lemma psize_dirent : psize pod_dirent = 16%nat.
Proof. done. Qed.
Lemma psize_indirect : psize pod_indirect = 1024%nat.
Proof. done. Qed.
Lemma psize_log_header : psize pod_log_header = 1024%nat.
Proof. done. Qed.

Lemma inode_block_eq sb ino :
  sb_ok sb → 0 ≤ ino < ninodes sb → inode_block sb ino = inodestart sb + ino / INODE_PER_BLOCK.
Proof.
  intros [Hwf Hi _ _ _] Hino. apply wrap_small.
  assert (0 ≤ inodestart sb) by (destruct Hwf as (_&_&_&_&_&_&[]&_); done).
  rw /INODE_PER_BLOCK /FS_BLOCK_SIZE /SIZEOF_INODE in Hi |- *.
  change (1024 / 64) with 16 in *.
  pose proof (Z.div_pos ino 16). pose proof (Z.div_le_mono ino (ninodes sb) 16). lia.
Qed.

Lemma bmap_block_eq sb bn :
  sb_ok sb → 0 ≤ bn < sb_size sb → bmap_block sb bn = bmapstart sb + bn / BITS_PER_BLOCK.
Proof.
  intros [Hwf _ Hi _ _] Hbn. apply wrap_small.
  assert (0 ≤ bmapstart sb) by (destruct Hwf as (_&_&_&_&_&_&_&[]); done).
  rw /BITS_PER_BLOCK /FS_BLOCK_SIZE in Hi |- *. change (1024 * 8) with 8192 in *.
  pose proof (Z.div_pos bn 8192). pose proof (Z.div_le_mono bn (sb_size sb) 8192). lia.
Qed.

Lemma bmap_block_meta sb bn : sb_ok sb → 0 ≤ bn < sb_size sb → bmap_block sb bn < data_start sb.
Proof.
  intros Hsb Hbn. rw bmap_block_eq // /data_start.
  pose proof (Z.div_le_mono bn (sb_size sb) BITS_PER_BLOCK). change BITS_PER_BLOCK with 8192 in *. lia.
Qed.

Lemma inode_block_meta sb ino : sb_ok sb → 0 ≤ ino < ninodes sb → inode_block sb ino < data_start sb.
Proof.
  intros Hsb Hi. rw inode_block_eq // /data_start. pose proof (sb_regions sb Hsb).
  assert (0 ≤ sb_size sb) by (destruct (sb_wf sb Hsb) as (_ & [] & _); done).
  pose proof (Z.div_pos (sb_size sb) BITS_PER_BLOCK).
  pose proof (Z.div_le_mono ino (ninodes sb) INODE_PER_BLOCK).
  change BITS_PER_BLOCK with 8192 in *. change INODE_PER_BLOCK with 16 in *. lia.
Qed.

(** Inode blocks and bitmap blocks are disjoint. *)
Lemma inode_bmap_ne sb ino bn :
  sb_ok sb → 0 ≤ ino < ninodes sb → 0 ≤ bn < sb_size sb → inode_block sb ino ≠ bmap_block sb bn.
Proof.
  intros Hsb Hi Hb. rw inode_block_eq // bmap_block_eq //. pose proof (sb_regions sb Hsb).
  pose proof (Z.div_pos bn BITS_PER_BLOCK). pose proof (Z.div_le_mono ino (ninodes sb) INODE_PER_BLOCK).
  change BITS_PER_BLOCK with 8192 in *. change INODE_PER_BLOCK with 16 in *. lia.
Qed.

(** Two inode numbers in one block have disjoint slots. *)
Lemma inode_slot_disjoint ino ino' :
  0 ≤ ino → 0 ≤ ino' → ino ≠ ino' → ino / INODE_PER_BLOCK = ino' / INODE_PER_BLOCK →
  (inode_slot ino + 64 ≤ inode_slot ino' ∨ inode_slot ino' + 64 ≤ inode_slot ino)%nat.
Proof.
  intros H0 H1 Hne Heq. rw /inode_slot psize_inode.
  assert (ino mod INODE_PER_BLOCK ≠ ino' mod INODE_PER_BLOCK) as Hm.
  { intros Hm. apply Hne.
    rw (Z.div_mod ino INODE_PER_BLOCK) // (Z.div_mod ino' INODE_PER_BLOCK) //. congruence. }
  pose proof (Z.mod_pos_bound ino INODE_PER_BLOCK).
  pose proof (Z.mod_pos_bound ino' INODE_PER_BLOCK).
  assert (0 < INODE_PER_BLOCK) by done. lia.
Qed.

Lemma inode_slot_bound b ino :
  is_block b → 0 ≤ ino → (inode_slot ino + psize pod_inode ≤ length b)%nat.
Proof.
  rw /is_block /inode_slot psize_inode => -> Hi.
  change (Z.to_nat FS_BLOCK_SIZE) with 1024%nat.
  pose proof (Z.mod_pos_bound ino INODE_PER_BLOCK).
  change INODE_PER_BLOCK with 16 in *. lia.
Qed.
#[export] Hint Resolve inode_slot_bound : ov6.

(** ** The block bitmap *)

Lemma bit_at_testbit b n c :
  0 ≤ n → b !! Z.to_nat (n / 8) = Some c → bit_at b n = Z.testbit (b2z c) (n mod 8).
Proof.
  intros Hn Hc. rw /bit_at Hc. apply land_bit_nonzero.
  by apply Z.mod_pos_bound.
Qed.

(** A byte of the bitmap exists for every bit in range. *)
Lemma bmap_byte b n :
  is_block b → 0 ≤ n < BITS_PER_BLOCK → ∃ c, b !! Z.to_nat (n / 8) = Some c.
Proof.
  intros Hb Hn. apply lookup_lt_is_Some. rw Hb.
  change BITS_PER_BLOCK with 8192 in Hn. change (Z.to_nat FS_BLOCK_SIZE) with 1024%nat.
  pose proof (Z.div_lt_upper_bound n 8 1024). pose proof (Z.div_pos n 8). lia.
Qed.

Lemma is_allocated_run {S} b n (s : S) :
  is_block b → 0 ≤ n < BITS_PER_BLOCK → is_allocated b n s = Ret (bit_at b n) s.
Proof.
  intros Hb Hn. destruct (bmap_byte b n) as [c Hc]; [done..|].
  rw /is_allocated /bit_at Hc /assert_ (proj2 (Z.ltb_lt _ _)) //. lia.
Qed.

Lemma testbit_z2b v k : 0 ≤ k < 8 → Z.testbit (b2z (z2b v)) k = Z.testbit v k.
Proof.
  intros. rw byte.unsigned_of_Z /byte.wrap Z.mod_pow2_bits_low //. lia.
Qed.

(** Reading a bit after one byte was rewritten so that exactly bit [n] of the
    bitmap becomes [v]. *)
Lemma bit_at_insert b n m c w v :
  is_block b → 0 ≤ n < BITS_PER_BLOCK → 0 ≤ m < BITS_PER_BLOCK →
  b !! Z.to_nat (n / 8) = Some c →
  (∀ k, 0 ≤ k < 8 → Z.testbit w k = if decide (n mod 8 = k) then v else Z.testbit (b2z c) k) →
  bit_at (<[Z.to_nat (n / 8) := z2b w]> b) m = if decide (n = m) then v else bit_at b m.
Proof.
  intros Hb Hn Hm Hc Hw.
  pose proof (Z.mod_pos_bound n 8). pose proof (Z.mod_pos_bound m 8).
  destruct (bmap_byte b m) as [d Hd]; [done..|].
  assert (0 ≤ n / 8) by (apply Z.div_pos; lia).
  assert (0 ≤ m / 8) by (apply Z.div_pos; lia).
  destruct (decide (n / 8 = m / 8)) as [E|E].
  - rw -E in Hd. simplify_eq.
    rw (bit_at_testbit _ m (z2b w)); [lia| |].
    { rw -E list_lookup_insert_eq //. by apply lookup_lt_Some in Hc. }
    rw testbit_z2b; [lia|]. rw Hw; [lia|].
    rw (bit_at_testbit b m c); [lia|by rw -E|].
    assert (n mod 8 = m mod 8 ↔ n = m) as Hiff.
    { split; [|by intros ->]. intros Hmm.
      rw (Z.div_mod n 8) // (Z.div_mod m 8) //. congruence. }
    repeat case_decide; tauto.
  - rw (bit_at_testbit _ m d); [lia| |].
    { rw list_lookup_insert_ne //. lia. }
    rw (bit_at_testbit b m d) //; [lia|]. rw decide_False //. congruence.
Qed.

Lemma bmap_allocate_run {S} b n (s : S) :
  is_block b → 0 ≤ n < BITS_PER_BLOCK →
  ∃ b', bmap_allocate b n s = Ret b' s ∧ is_block b' ∧
    ∀ m, 0 ≤ m < BITS_PER_BLOCK → bit_at b' m = if decide (n = m) then true else bit_at b m.
Proof.
  intros Hb Hn. destruct (bmap_byte b n) as [c Hc]; [done..|].
  eexists. split; [|split].
  - rw /bmap_allocate /assert_ (proj2 (Z.ltb_lt _ _)); [lia|]. by rw Hc.
  - by rw /is_block length_insert.
  - intros m Hm. apply (bit_at_insert b n m c); [done..|]. intros k Hk.
    apply testbit_lor_bit; [apply Z.mod_pos_bound|]; lia.
Qed.

Lemma bmap_free_run {S} b n (s : S) :
  is_block b → 0 ≤ n < BITS_PER_BLOCK →
  ∃ b', bmap_free b n s = Ret b' s ∧ is_block b' ∧
    ∀ m, 0 ≤ m < BITS_PER_BLOCK → bit_at b' m = if decide (n = m) then false else bit_at b m.
Proof.
  intros Hb Hn. destruct (bmap_byte b n) as [c Hc]; [done..|].
  eexists. split; [|split].
  - rw /bmap_free /assert_ (proj2 (Z.ltb_lt _ _)); [lia|]. by rw Hc.
  - by rw /is_block length_insert.
  - intros m Hm. apply (bit_at_insert b n m c); [done..|]. intros k Hk.
    apply testbit_ldiff_bit; [apply Z.mod_pos_bound|]; lia.
Qed.

(** ** Inodes in their block *)

Lemma block_inode_mut_is_block b ino i :
  is_block b → 0 ≤ ino → pwf pod_inode i → is_block (block_inode_mut b ino i).
Proof.
  intros Hb ??. rw /is_block /block_inode_mut pod_set_length; auto with ov6.
Qed.

Lemma block_inode_mut_eq b ino i :
  is_block b → 0 ≤ ino → pwf pod_inode i → block_inode (block_inode_mut b ino i) ino = i.
Proof. intros. apply pod_get_set; auto with ov6. Qed.

Lemma block_inode_mut_ne b ino ino' i :
  is_block b → 0 ≤ ino → 0 ≤ ino' → ino ≠ ino' →
  ino / INODE_PER_BLOCK = ino' / INODE_PER_BLOCK → pwf pod_inode i →
  block_inode (block_inode_mut b ino i) ino' = block_inode b ino'.
Proof.
  intros. apply pod_get_set_ne; auto with ov6.
  rw psize_inode. destruct (inode_slot_disjoint ino ino'); auto.
Qed.

Lemma block_inode_wf b ino : is_block b → 0 ≤ ino → pwf pod_inode (block_inode b ino).
Proof. intros. apply pod_get_wf; auto with ov6. Qed.

Lemma zeroed_inode_wf : pwf pod_inode zeroed_inode.
Proof.
  do 5 (split; [done|]). split; [done|]. by apply Forall_replicate.
Qed.

(** Block addresses: in memory [None] is "no block", on disk it is [0]. *)
Definition addr_ok (o : option Z) : Prop :=
  match o with Some bn => 0 < bn < 2 ^ 32 | None => True end.
Definition repr_addr (o : option Z) : Z := default 0 o.

Lemma write_addrs_run {S} (dst : list Z) (addrs : list (option Z)) (s : S) :
  length dst = length addrs → Forall addr_ok addrs →
  write_addrs dst addrs s = Ret (repr_addr <$> addrs) s.
Proof.
  intros Hl Ha. revert dst Hl. induction Ha as [|[bn|] addrs Hx Ha IH]; intros dst Hl;
    destruct dst as [|d dst]; simplify_eq/=; [done| |].
  - rw /assert_. destruct (Z.eqb_spec bn 0); [lia|]. simpl.
    rw (bind_Ret _ _ _ tt s) //. by rw (bind_Ret _ _ _ _ _ (IH dst _)).
  - by rw (bind_Ret _ _ _ _ _ (IH dst _)).
Qed.

Lemma read_repr_addr o : addr_ok o → read_addr (repr_addr o) = o.
Proof.
  destruct o as [bn|]; [|done]. rw /= /read_addr => ?.
  destruct (Z.eqb_spec bn 0); [lia|done].
Qed.

Lemma read_addrs_repr addrs : Forall addr_ok addrs → read_addrs (repr_addr <$> addrs) = addrs.
Proof.
  induction 1 as [|o addrs Hx Ha IH]; [done|].
  rw /read_addrs !fmap_cons read_repr_addr //. by f_equal.
Qed.

Lemma repr_read_addr bn : repr_addr (read_addr bn) = bn.
Proof. rw /read_addr. by destruct (Z.eqb_spec bn 0) as [->|]. Qed.

Lemma read_addrs_ok (addrs : list Z) :
  Forall (uint_wf 4) addrs → Forall addr_ok (read_addrs addrs).
Proof.
  intros H. apply Forall_fmap. eapply Forall_impl; [exact H|]. intros bn Hb.
  rw /= /read_addr. destruct (Z.eqb_spec bn 0); [done|].
  destruct Hb. simpl. change (2 ^ (8 * Z.of_nat 4)) with (2 ^ 32) in *. lia.
Qed.

Lemma repr_addrs_wf addrs :
  Forall addr_ok addrs → Forall (uint_wf 4) (repr_addr <$> addrs).
Proof.
  intros H. apply Forall_fmap. eapply Forall_impl; [exact H|].
  intros [bn|] Hb; rw /uint_wf; change (2 ^ (8 * Z.of_nat 4)) with (2 ^ 32);
    simpl in *; lia.
Qed.

(** ** Indirect blocks *)

Lemma indirect_length b : length (pof pod_indirect b) = Z.to_nat NUM_INDIRECT_REFS.
Proof. apply array_of_length. Qed.

(** The entries an indirect block holds. *)
Definition indirect_entries (b : list byte) : list (option Z) := read_addrs (pof pod_indirect b).

Lemma indirect_get_run {S} b i (s : S) :
  0 ≤ i < NUM_INDIRECT_REFS →
  ∃ o, indirect_entries b !! Z.to_nat i = Some o ∧ indirect_get b i s = Ret o s.
Proof.
  intros Hi.
  destruct (lookup_lt_is_Some_2 (pof pod_indirect b) (Z.to_nat i)) as [bn Hbn].
  { rw indirect_length. lia. }
  exists (read_addr bn). split.
  - rw /indirect_entries /read_addrs list_lookup_fmap. by rw Hbn.
  - rw /indirect_get Hbn. done.
Qed.

Lemma indirect_set_run {S} b i bn (s : S) :
  is_block b → 0 ≤ i < NUM_INDIRECT_REFS → addr_ok bn →
  ∃ b', indirect_set b i bn s = Ret b' s ∧ is_block b' ∧
    indirect_entries b' = <[Z.to_nat i := bn]> (indirect_entries b).
Proof.
  intros Hb Hi Hbn.
  assert (pwf pod_indirect (pof pod_indirect b)) as Hwf by by apply pof_wf.
  assert (pwf pod_indirect (<[Z.to_nat i := repr_addr bn]> (pof pod_indirect b))) as Hwf'.
  { destruct Hwf as [Hl Hf]. split; [by rw length_insert|].
    apply Forall_insert; [done|]. pose proof (repr_addrs_wf [bn]) as H.
    by apply Forall_singleton in H; [|apply Forall_singleton]. }
  exists (pto pod_indirect (<[Z.to_nat i := repr_addr bn]> (pof pod_indirect b))).
  split; [|split].
  - rw /indirect_set. destruct bn as [bn|].
    + destruct (Z.eqb_spec bn 0); [simpl in Hbn; lia|]. rw /assert_ /= /mbind /M_bind /=.
      rw (proj2 (Z.ltb_lt _ _)) //; lia.
    + rw /assert_ /mbind /M_bind /=. rw (proj2 (Z.ltb_lt _ _)) //; lia.
  - rw /is_block pto_length //.
  - rw /indirect_entries pof_pto // /read_addrs list_fmap_insert.
    by rw read_repr_addr.
Qed.

(** ** Directory entry names *)

Lemma until_nul_app l k : Byte.x00 ∉ l → until_nul (l ++ Byte.x00 :: k) = l.
Proof.
  induction l as [|c l IH]; intros Hn; [done|]. simpl.
  rw bool_decide_false; [set_solver|]. rw IH //. set_solver.
Qed.

Lemma until_nul_id l : Byte.x00 ∉ l → until_nul l = l.
Proof.
  induction l as [|c l IH]; intros Hn; [done|]. simpl.
  rw bool_decide_false; [set_solver|]. rw IH //. set_solver.
Qed.

Lemma dirent_name_set_name d name :
  length (de_name d) = Z.to_nat DIR_SIZE → Byte.x00 ∉ name →
  dirent_name (set_name d name) = take (Z.to_nat DIR_SIZE) name.
Proof.
  intros Hl Hn. rw /dirent_name /set_name /= Hl.
  assert (Byte.x00 ∉ take (Z.to_nat DIR_SIZE) name) as Hn'.
  { intros H. apply Hn. rw -(take_drop (Z.to_nat DIR_SIZE) name). set_solver. }
  destruct (decide (length name < Z.to_nat DIR_SIZE)%nat) as [Hlt|Hge].
  - rw Nat.min_l; [lia|]. rw firstn_all (take_ge name); [lia|].
    destruct (Z.to_nat DIR_SIZE - length name)%nat eqn:E; [lia|].
    by apply until_nul_app.
  - rw Nat.min_r; [lia|]. rw Nat.sub_diag app_nil_r. by apply until_nul_id.
Qed.

(** A name and an entry written for another name: [is_same_name] decides
    whether the two names agree on their first [DIR_SIZE] bytes. *)
Lemma is_same_name_set_name d name name' :
  length (de_name d) = Z.to_nat DIR_SIZE → Byte.x00 ∉ name →
  is_same_name (set_name d name) name' = true ↔
  take (Z.to_nat DIR_SIZE) name = take (Z.to_nat DIR_SIZE) name'.
Proof.
  intros Hl Hn. rw /is_same_name bool_decide_eq_true dirent_name_set_name //.
  rw -(firstn_all2 (n := Z.to_nat DIR_SIZE) (take _ name')); [len|].
  rw take_take Nat.min_comm -Nat.min_assoc.
  assert (∀ l : list byte, take (Z.to_nat DIR_SIZE) l
            = take (length l `min` Z.to_nat DIR_SIZE) l) as Ht.
  { intros l. destruct (decide (length l ≤ Z.to_nat DIR_SIZE)%nat).
    - rw Nat.min_l // firstn_all take_ge //.
    - rw Nat.min_r //. lia. }
  rw (Ht name'). rw Nat.min_id. by rw Nat.min_comm.
Qed.
