(* ===== verification/Mkfs.v ===== *)
(** * The image builder

    Model of [crates/utils/ov6_fs_utilities/src/bin/mkfs.rs]. *)

From S2P Require Import Prelude Pod FsTypes.

Definition num_bmap_blocks : Z := FS_SIZE / BITS_PER_BLOCK + 1.
Definition num_inode_blocks : Z := NUM_FS_INODES / INODE_PER_BLOCK + 1.
Definition num_log_blocks : Z := FS_LOG_SIZE.
Definition num_meta_blocks : Z := 2 + num_log_blocks + num_inode_blocks + num_bmap_blocks.

(** The super block of [FileSystem::new]. *)
Definition mkfs_sb : SuperBlock :=
  {| magic := FS_MAGIC;
     sb_size := FS_SIZE;
     nblocks := FS_SIZE - num_meta_blocks;
     ninodes := NUM_FS_INODES;
     nlog := num_log_blocks;
     logstart := 2;
     inodestart := 2 + num_log_blocks;
     bmapstart := 2 + num_log_blocks + num_inode_blocks |}.
