(* ===== verification/Lru.v ===== *)
(** * The LRU cache

    Model of [crates/kernel/lru/src/lib.rs].  The map is the linked list of
    [(Option<K>, Arc<V>)] pairs, most recently used first.  A value is the
    identity of its [Arc] allocation, a number; what the allocation holds is
    the business of the client ([BlockIo.v]).  [strong] is the table of strong
    counts: the list itself holds one reference to each value, every
    [LruValue] one more.

    [system] adds the [LruValue]s that exist, so that the interleavings of
    [get], [clone] and of the two halves of [drop] (the [Drop] impl promotes
    the key under the lock, the [Arc] is released after that) are the steps of
    a transition system; its invariant is the correctness of the cache. *)

From S2P Require Import Prelude.

Section lru.
Context {K : Type} `{EqDecision K}.

(** ** Data *)

Record LruMap := {
  list_ : list (option K * nat);
  strong : gmap nat Z;
}.

(** [LruValue]: the key and the [Arc]; the reference to the mutex is implicit. *)
Record LruValue := {
  key : K;
  value : nat;
}.

#[export] Instance LruValue_eq_dec : EqDecision LruValue.
Proof. solve_decision. Defined.

Definition strong_count (m : LruMap) (v : nat) : Z := default 0 (strong m !! v).
(** [Arc::clone] and the drop of an [Arc]. *)
Definition arc_clone (v : nat) (m : LruMap) : LruMap :=
  {| list_ := list_ m; strong := <[v := strong_count m v + 1]> (strong m) |}.
Definition arc_drop (v : nat) (m : LruMap) : LruMap :=
  {| list_ := list_ m; strong := <[v := strong_count m v - 1]> (strong m) |}.

(** ** Operations *)

(** [LruMap::new_in]: [size] unkeyed entries.  Panics when [size] is 0. *)
Definition new_in (size : nat) : option LruMap :=
  match size with
  | O => None
  | _ => Some {| list_ := (λ v, (None, v)) <$> seq 0 size;
                 strong := list_to_map ((λ v, (v, 1)) <$> seq 0 size) |}
  end.

(** The search for the key, front to back. *)
Fixpoint find_key (k : K) (l : list (option K * nat)) : option nat :=
  match l with
  | [] => None
  | (k', v) :: l' => if decide (k' = Some k) then Some v else find_key k l'
  end.

(** The recycling search, back to front: the last entry whose value is only
    referenced by the list takes the key. *)
Fixpoint recycle (cnt : nat → Z) (k : K) (l : list (option K * nat))
    : option (nat * list (option K * nat)) :=
  match l with
  | [] => None
  | (k', v) :: l' =>
      match recycle cnt k l' with
      | Some (v', l'') => Some (v', (k', v) :: l'')
      | None => if cnt v =? 1 then Some (v, (Some k, v) :: l') else None
      end
  end.

(** [LruMap::get]. *)
Definition lru_get (k : K) (m : LruMap) : option LruValue * LruMap :=
  match find_key k (list_ m) with
  | Some v => (Some {| key := k; value := v |}, arc_clone v m)
  | None =>
      match recycle (strong_count m) k (list_ m) with
      | Some (v, l') =>
          (Some {| key := k; value := v |},
           arc_clone v {| list_ := l'; strong := strong m |})
      | None => (None, m)
      end
  end.

(** [list.extract_if(|(k, _)| k == key).next()]. *)
Fixpoint extract_key (k : K) (l : list (option K * nat))
    : option ((option K * nat) * list (option K * nat)) :=
  match l with
  | [] => None
  | e :: l' =>
      if decide (e.1 = Some k) then Some (e, l')
      else match extract_key k l' with
           | Some (e', l'') => Some (e', e :: l'')
           | None => None
           end
  end.

(** [LruMap::promote]. *)
Definition promote (k : K) (m : LruMap) : LruMap :=
  match extract_key k (list_ m) with
  | Some (e, l') => {| list_ := e :: l'; strong := strong m |}
  | None => m
  end.

(** [LruValue::clone]. *)
Definition lru_clone (h : LruValue) (m : LruMap) : LruMap := arc_clone (value h) m.
(** Dropping an [LruValue]: the [Drop] impl, then the release of the [Arc]. *)
Definition lru_drop (h : LruValue) (m : LruMap) : LruMap :=
  arc_drop (value h) (promote (key h) m).

(** ** The search functions *)

Lemma find_key_Some k l v : find_key k l = Some v → (Some k, v) ∈ l.
Proof.
  induction l as [|[k' v'] l IH]; simpl; [done|].
  case_decide; intros; simplify_eq; set_solver.
Qed.

Lemma find_key_None k l : find_key k l = None ↔ Some k ∉ l.*1.
Proof.
  induction l as [|[k' v'] l IH]; simpl; [set_solver|].
  case_decide; [set_solver|]. rw IH. set_solver.
Qed.

(** Keys and values, each at most once. *)
Definition keys (l : list (option K * nat)) : list K := omap fst l.

Lemma elem_of_keys k l : k ∈ keys l ↔ ∃ v, (Some k, v) ∈ l.
Proof.
  rw /keys list_elem_of_omap. split.
  - intros ([[k'|] v] & Hin & Heq); simplify_eq/=. by exists v.
  - intros [v Hv]. by exists (Some k, v).
Qed.

Lemma not_elem_of_keys k l : k ∉ keys l ↔ Some k ∉ l.*1.
Proof.
  rw elem_of_keys list_elem_of_fmap. split; intros H HH; apply H.
  - destruct HH as ([k' v] & ? & ?); simplify_eq/=. by exists v.
  - destruct HH as [v ?]. by exists (Some k, v).
Qed.

Lemma find_key_elem k v l : NoDup (keys l) → (Some k, v) ∈ l → find_key k l = Some v.
Proof.
  induction l as [|[[k'|] v'] l IH]; rw ?/keys /= ?NoDup_cons.
  - set_solver.
  - intros [Hn Hd] [?|Hin]%elem_of_cons; simplify_eq.
    + by rw decide_True.
    + rw decide_False; [|auto]. intros [= ->]. apply Hn. apply elem_of_keys. eauto.
  - intros Hd [?|Hin]%elem_of_cons; simplify_eq/=. by auto.
Qed.

(** What recycling does: one entry, the last one that nobody else references,
    changes its key. *)
Lemma recycle_Some cnt k l v l' :
  recycle cnt k l = Some (v, l') →
  ∃ l1 k0 l2, l = l1 ++ (k0, v) :: l2 ∧ l' = l1 ++ (Some k, v) :: l2 ∧
    cnt v = 1 ∧ Forall (λ e, cnt e.2 ≠ 1) l2.
Proof.
  revert l'. induction l as [|[k' v'] l IH]; intros l'; simpl; [done|].
  destruct (recycle cnt k l) as [[w l'']|] eqn:E.
  - intros [= -> <-]. destruct (IH _ eq_refl) as (l1 & k0 & l2 & -> & -> & Hc & Hf).
    by exists ((k', v') :: l1), k0, l2.
  - destruct (Z.eqb_spec (cnt v') 1) as [Hc|]; [|done]. intros [= <- <-].
    exists [], k', l. split_and!; [done..|].
    clear IH. revert E. clear. induction l as [|[k1 v1] l IH]; simpl; [by constructor|].
    destruct (recycle cnt k l) as [[]|]; [done|].
    destruct (Z.eqb_spec (cnt v1) 1); [done|]. constructor; auto.
Qed.

Lemma recycle_None cnt k l : recycle cnt k l = None ↔ Forall (λ e, cnt e.2 ≠ 1) l.
Proof.
  induction l as [|[k' v'] l IH]; simpl; [split; [by constructor|done]|].
  rw Forall_cons -IH /=. destruct (recycle cnt k l) as [[]|]; [naive_solver|].
  destruct (Z.eqb_spec (cnt v') 1); naive_solver.
Qed.

Lemma extract_key_Some k l e l' :
  extract_key k l = Some (e, l') →
  ∃ l1 l2, l = l1 ++ e :: l2 ∧ l' = l1 ++ l2 ∧ e.1 = Some k.
Proof.
  revert l'. induction l as [|e0 l IH]; intros l'; simpl; [done|]. case_decide.
  - intros [= <- <-]. by exists [], l.
  - destruct (extract_key k l) as [[e1 l1]|] eqn:E; [|done]. intros [= <- <-].
    destruct (IH _ eq_refl) as (a & b & -> & -> & ?). by exists (e0 :: a), b.
Qed.

Lemma promote_perm k m : list_ (promote k m) ≡ₚ list_ m.
Proof.
  rw /promote. destruct (extract_key k (list_ m)) as [[e l']|] eqn:E; [|done].
  apply extract_key_Some in E as (l1 & l2 & -> & -> & _). simpl. by rw Permutation_middle.
Qed.

Lemma promote_strong k m : strong (promote k m) = strong m.
Proof. rw /promote. by destruct (extract_key k (list_ m)) as [[]|]. Qed.

(** ** The invariant *)

(** References to the value [v] among the [LruValue]s [hs]. *)
Definition refs (v : nat) (hs : list LruValue) : Z :=
  Z.of_nat (length (filter (λ h, value h = v) hs)).

Record lru_inv (m : LruMap) (hs : list LruValue) : Prop := {
  inv_values : NoDup (list_ m).*2;
  inv_keys : NoDup (keys (list_ m));
  inv_handles : ∀ h, h ∈ hs → (Some (key h), value h) ∈ list_ m;
  inv_strong : ∀ v, v ∈ (list_ m).*2 → strong_count m v = 1 + refs v hs;
}.

Lemma refs_cons v h hs : refs v (h :: hs) = (if decide (value h = v) then 1 else 0) + refs v hs.
Proof. rw /refs filter_cons. case_decide; simpl; lia. Qed.

Lemma refs_nonneg v hs : 0 ≤ refs v hs.
Proof. rw /refs. lia. Qed.

Lemma refs_elem h hs : h ∈ hs → 1 ≤ refs (value h) hs.
Proof.
  induction hs as [|h' hs IH]; [set_solver|]. rw refs_cons elem_of_cons.
  pose proof (refs_nonneg (value h) hs). intros [->|Hin].
  - rw decide_True //. lia.
  - apply IH in Hin. case_decide; lia.
Qed.

#[export] Instance refs_perm v : Proper ((≡ₚ) ==> eq) (refs v).
Proof. intros hs hs' H. rw /refs. by rw H. Qed.

#[export] Instance lru_inv_perm m : Proper ((≡ₚ) ==> iff) (lru_inv m).
Proof.
  assert (∀ hs hs', hs ≡ₚ hs' → lru_inv m hs → lru_inv m hs') as Himp.
  { intros hs hs' Hp [??? Hs]. split; [done..| |].
    - intros h. rw -Hp. auto.
    - intros v Hv. rw (Hs v Hv). by rw Hp. }
  intros hs hs' Hp. split; apply Himp; [done|by symmetry].
Qed.

(** A value has one key. *)
Lemma inv_value_key m hs k k' v :
  lru_inv m hs → (k, v) ∈ list_ m → (k', v) ∈ list_ m → k = k'.
Proof.
  intros [Hv _ _ _]. generalize (list_ m) Hv. clear. intros l.
  induction l as [|[k0 v0] l IH]; simpl; [set_solver|].
  rw NoDup_cons !elem_of_cons. intros [Hn Hd] [?|H1] [?|H2]; simplify_eq; auto.
  - destruct Hn. apply list_elem_of_fmap. by exists (k', v0).
  - destruct Hn. apply list_elem_of_fmap. by exists (k, v0).
Qed.

(** A key has one value. *)
Lemma inv_key_value m hs k v v' :
  lru_inv m hs → (Some k, v) ∈ list_ m → (Some k, v') ∈ list_ m → v = v'.
Proof.
  intros [_ Hk _ _] H1 H2.
  apply find_key_elem in H1, H2; [congruence|done|done].
Qed.

(** Handles to one key share the value, handles to different keys do not. *)
Lemma inv_handles_agree m hs h h' :
  lru_inv m hs → h ∈ hs → h' ∈ hs → (key h = key h' ↔ value h = value h').
Proof.
  intros Hinv H1 H2.
  pose proof (inv_handles _ _ Hinv _ H1) as E1. pose proof (inv_handles _ _ Hinv _ H2) as E2.
  split; intros E.
  - rw E in E1. exact (inv_key_value _ _ _ _ _ Hinv E1 E2).
  - rw E in E1. pose proof (inv_value_key _ _ _ _ _ Hinv E1 E2). congruence.
Qed.

Lemma keys_app l1 l2 : keys (l1 ++ l2) = keys l1 ++ keys l2.
Proof. apply omap_app. Qed.

Lemma strong_count_insert m v v' n :
  strong_count {| list_ := list_ m; strong := <[v := n]> (strong m) |} v' =
  if decide (v = v') then n else strong_count m v'.
Proof. rw /strong_count /= lookup_insert. by case_decide. Qed.

(** Taking one more reference to a value through a handle that may exist. *)
Lemma arc_clone_inv m hs h :
  lru_inv m hs → (Some (key h), value h) ∈ list_ m → lru_inv (arc_clone (value h) m) (h :: hs).
Proof.
  intros [Hv Hk Hh Hs] Hin. split; [done..| |].
  - intros h' [->|?]%elem_of_cons; simpl; auto.
  - simpl. intros v Hvin. rw strong_count_insert refs_cons.
    case_decide; [subst|]; rw (Hs _ Hvin); lia.
Qed.

Lemma arc_drop_inv m hs h : lru_inv m (h :: hs) → lru_inv (arc_drop (value h) m) hs.
Proof.
  intros [Hv Hk Hh Hs]. split; [done..| |].
  - intros h' ?. apply Hh. set_solver.
  - simpl. intros v Hvin. rw strong_count_insert. pose proof (Hs _ Hvin) as E.
    rw refs_cons in E. case_decide; subst; lia.
Qed.

Lemma promote_inv m hs k : lru_inv m hs → lru_inv (promote k m) hs.
Proof.
  intros [Hv Hk Hh Hs]. pose proof (promote_perm k m) as Hp. split.
  - by rw Hp.
  - rw /keys. by rw Hp.
  - intros. rw Hp. auto.
  - intros v. rw Hp. intros. rw /strong_count promote_strong. by apply Hs.
Qed.

Lemma lru_drop_inv m hs h : lru_inv m (h :: hs) → lru_inv (lru_drop h m) hs.
Proof. intros. by apply arc_drop_inv, promote_inv. Qed.

Lemma lru_clone_inv m hs h : lru_inv m hs → h ∈ hs → lru_inv (lru_clone h m) (h :: hs).
Proof. intros Hi ?. apply arc_clone_inv; [done|]. by apply (inv_handles _ _ Hi). Qed.

(** Changing the key of an unreferenced entry to a fresh one. *)
Lemma recycle_inv m hs k v l' :
  lru_inv m hs → find_key k (list_ m) = None →
  recycle (strong_count m) k (list_ m) = Some (v, l') →
  lru_inv {| list_ := l'; strong := strong m |} hs ∧ (Some k, v) ∈ l' ∧ refs v hs = 0.
Proof.
  intros [Hv Hk Hh Hs] Hf Hr.
  apply recycle_Some in Hr as (l1 & k0 & l2 & E & -> & Hc & _).
  assert (v ∈ (list_ m).*2) as Hvin by (rw E fmap_app; set_solver).
  assert (refs v hs = 0) as Hr0 by (pose proof (Hs v Hvin); lia).
  split_and!; [split; simpl| |done].
  - rw E fmap_app in Hv. rw fmap_app. exact Hv.
  - rw find_key_None -not_elem_of_keys in Hf. rw E in Hk Hf.
    rw keys_app in Hk. rw keys_app in Hf. rw keys_app. destruct k0 as [k0|]; simpl in *.
    + rw -Permutation_middle. rw -Permutation_middle in Hk.
      apply NoDup_cons in Hk as [_ Hk]. apply NoDup_cons. set_solver.
    + rw -Permutation_middle. apply NoDup_cons. set_solver.
  - intros h Hhin. pose proof (Hh h Hhin) as Hin. rw E in Hin.
    assert (value h ≠ v).
    { intros <-. pose proof (refs_elem h hs Hhin). lia. }
    rw elem_of_app elem_of_cons in Hin. rw elem_of_app elem_of_cons. destruct Hin as [?|[[= ? ?]|?]]; auto; done.
  - intros v'. rw fmap_app /=. intros Hv'. rw -(Hs v') //. rw E fmap_app. done.
  - set_solver.
Qed.

Lemma lru_get_inv m hs k h m' :
  lru_inv m hs → lru_get k m = (Some h, m') → lru_inv m' (h :: hs) ∧ key h = k.
Proof.
  intros Hinv. rw /lru_get. destruct (find_key k (list_ m)) as [v|] eqn:Hf.
  - intros [= <- <-]. split; [|done]. apply find_key_Some in Hf.
    by apply (arc_clone_inv _ _ {| key := k; value := v |}).
  - destruct (recycle _ k _) as [[v l']|] eqn:Hr; [|done]. intros [= <- <-].
    destruct (recycle_inv m hs k v l') as (? & ? & ?); [done..|]. split; [|done].
    by apply (arc_clone_inv _ _ {| key := k; value := v |}).
Qed.

(** [get] fails exactly when the key is absent and every value is referenced. *)
Lemma lru_get_None m hs k :
  lru_inv m hs →
  (lru_get k m).1 = None ↔ k ∉ keys (list_ m) ∧ ∀ v, v ∈ (list_ m).*2 → 1 ≤ refs v hs.
Proof.
  intros [Hv Hk Hh Hs]. rw /lru_get not_elem_of_keys -find_key_None.
  destruct (find_key k (list_ m)) as [v|]; [naive_solver|].
  destruct (recycle _ k _) as [[v l']|] eqn:Hr; simpl.
  - split; [done|]. intros [_ Hall].
    apply recycle_Some in Hr as (l1 & k0 & l2 & E & _ & Hc & _).
    assert (v ∈ (list_ m).*2) as Hin by (rw E fmap_app; set_solver).
    pose proof (Hall v Hin). rw Hs // in Hc. lia.
  - split; [|done]. intros _. split; [done|]. intros v Hin.
    apply recycle_None in Hr. rw Forall_forall in Hr.
    pose proof Hin as Hin'. apply list_elem_of_fmap in Hin' as ([k' v'] & -> & He).
    pose proof (Hr _ He) as Hne. simpl in *. rw Hs // in Hne.
    pose proof (refs_nonneg v' hs). lia.
Qed.

(** [promote] moves the entry of the key to the front and keeps the order of
    the others. *)
Lemma promote_front m hs k v :
  lru_inv m hs → (Some k, v) ∈ list_ m →
  ∃ l1 l2, list_ m = l1 ++ (Some k, v) :: l2 ∧ list_ (promote k m) = (Some k, v) :: l1 ++ l2.
Proof.
  intros Hinv Hin. rw /promote.
  destruct (extract_key k (list_ m)) as [[[k' v'] l']|] eqn:E.
  - apply extract_key_Some in E as (l1 & l2 & E & -> & Hk). simpl in Hk. subst.
    exists l1, l2. assert (v' = v) as ->; [|by rw E].
    apply (inv_key_value m hs k); [done| |done]. rw E. set_solver.
  - exfalso. clear Hinv. generalize (list_ m) Hin E. clear.
    intros l. induction l as [|[k0 v0] l IH]; simpl; [set_solver|].
    intros [?|Hin]%elem_of_cons; simplify_eq/=; [by rw decide_True|].
    case_decide; [done|]. destruct (extract_key k l) as [[]|]; [done|]. auto.
Qed.

(** ** Interleavings *)

Record system := System {
  map : LruMap;
  live : list LruValue;
  dropping : list LruValue;
}.

Inductive step : system → system → Prop :=
  | step_get m m' l d k h :
      lru_get k m = (Some h, m') → step (System m l d) (System m' (h :: l) d)
  | step_get_none m l d k :
      (lru_get k m).1 = None → step (System m l d) (System m l d)
  | step_clone m l d h :
      h ∈ l → step (System m l d) (System (lru_clone h m) (h :: l) d)
  | step_drop m l l' d h :
      l ≡ₚ h :: l' → step (System m l d) (System (promote (key h) m) l' (h :: d))
  | step_release m l d d' h :
      d ≡ₚ h :: d' → step (System m l d) (System (arc_drop (value h) m) l d').

Definition sys_inv (size : nat) (s : system) : Prop :=
  lru_inv (map s) (live s ++ dropping s) ∧ length (list_ (map s)) = size.

Lemma list_to_map_ones (l : list nat) v :
  v ∈ l → (list_to_map ((λ v, (v, 1)) <$> l) : gmap nat Z) !! v = Some 1.
Proof.
  induction l as [|x l IH]; [set_solver|]. simpl. intros Hv. rw lookup_insert.
  case_decide; [done|]. apply IH. set_solver.
Qed.

(** The entries of a new map: no keys, one value each. *)
Lemma unkeyed_values (l : list nat) : ((λ v, (None : option K, v)) <$> l).*2 = l.
Proof. induction l as [|x l IH]; [done|]. by rw !fmap_cons IH. Qed.
Lemma unkeyed_keys (l : list nat) : keys ((λ v, (None : option K, v)) <$> l) = [].
Proof. induction l; done. Qed.

Lemma new_in_inv size m : new_in size = Some m → sys_inv size (System m [] []).
Proof.
  rw /new_in. destruct size as [|n]; [done|]. generalize (S n). intros size [= <-].
  split; [split|]; rw /= ?unkeyed_values ?unkeyed_keys.
  - apply NoDup_seq.
  - constructor.
  - set_solver.
  - intros v Hv. by rw /strong_count list_to_map_ones.
  - by rw length_fmap length_seq.
Qed.

Lemma lru_get_length k m : length (list_ (lru_get k m).2) = length (list_ m).
Proof.
  rw /lru_get. destruct (find_key k (list_ m)); [done|].
  destruct (recycle _ k _) as [[v l']|] eqn:Hr; [|done].
  apply recycle_Some in Hr as (l1 & k0 & l2 & E & -> & _). simpl. rw E. len.
Qed.

Lemma step_inv size s s' : step s s' → sys_inv size s → sys_inv size s'.
Proof.
  intros Hs [Hinv Hlen]. destruct Hs; simpl in *.
  - apply lru_get_inv with (k := k) (h := h) (m' := m') in Hinv as [Hinv _]; [|done].
    split; [done|]. pose proof (lru_get_length k m) as E. rw H /= in E. simpl. congruence.
  - done.
  - split; [|done]. apply lru_clone_inv; [done|]. set_solver.
  - split; simpl.
    + apply promote_inv. by rw -Permutation_middle app_comm_cons -H.
    + rw -Hlen. by apply Permutation_length, promote_perm.
  - split; [|done]. apply arc_drop_inv. simpl. by rw Permutation_middle -H.
Qed.

Lemma reachable_inv size m s :
  new_in size = Some m → rtc step (System m [] []) s → sys_inv size s.
Proof.
  intros Hn Hr. apply new_in_inv in Hn. revert Hn. induction Hr; [done|].
  intros. eauto using step_inv.
Qed.

End lru.

#[global] Arguments LruMap K : clear implicits.
#[global] Arguments LruValue K : clear implicits.
#[global] Arguments system K : clear implicits.

(** ** Properties *)

(** C32: in every interleaving of the operations, a live [LruValue] pins its
    value: looking its key up again gives the very same value, and two live
    handles have the same value exactly when they have the same key, so a value
    is never recycled for another key while it is referenced. *)
Theorem lru_pinned {K} `{EqDecision K} size (m0 : LruMap K) s (h : LruValue K) :
  new_in size = Some m0 → rtc step (System m0 [] []) s → h ∈ live s →
  (∃ m', lru_get (key h) (map s) = (Some h, m')) ∧
  ∀ h', h' ∈ live s → (key h' = key h ↔ value h' = value h).
Proof.
  intros Hn Hr Hh. destruct (reachable_inv _ _ _ Hn Hr) as [Hinv _].
  assert (∀ h, h ∈ live s → h ∈ live s ++ dropping s) as Hsub by set_solver.
  split.
  - pose proof (inv_handles _ _ Hinv _ (Hsub _ Hh)) as Hin.
    apply find_key_elem in Hin; [|by apply inv_keys in Hinv].
    rw /lru_get Hin. eexists. by destruct h.
  - intros h' Hh'. by apply (inv_handles_agree _ _ _ _ Hinv); apply Hsub.
Qed.

(** A two-entry cache after [get 7]. *)
Definition lru_example : system Z :=
  let m := default {| list_ := []; strong := ∅ |} (new_in 2) in
  match lru_get 7 m with
  | (Some h, m') => System m' [h] []
  | (None, m') => System m' [] []
  end.

Lemma lru_pinned_witness :
  ∃ h m', h ∈ live lru_example ∧ lru_get (key h) (map lru_example) = (Some h, m').
Proof.
  assert (rtc step (System (default {| list_ := []; strong := ∅ |} (new_in 2)) [] [])
            lru_example) as Hr.
  { apply rtc_once. apply (step_get _ _ _ _ 7). vm_compute. reflexivity. }
  assert ({| key := 7; value := 1%nat |} ∈ live lru_example) as Hh.
  { vm_compute. constructor. }
  destruct (lru_pinned 2 _ lru_example _ eq_refl Hr Hh) as [[m' Hg] _].
  eauto.
Defined.

(** on a miss, [get] takes over the least recently used entry that nobody
    references, keeping all others and their order, and it fails only when every
    entry is referenced. *)
Theorem lru_victim {K} `{EqDecision K} size (m0 : LruMap K) s k :
  new_in size = Some m0 → rtc step (System m0 [] []) s → k ∉ keys (list_ (map s)) →
  let hs := live s ++ dropping s in
  match lru_get k (map s) with
  | (None, m') => m' = map s ∧ Forall (λ e, 1 ≤ refs e.2 hs) (list_ (map s))
  | (Some h, m') =>
      key h = k ∧ refs (value h) hs = 0 ∧
      ∃ l1 k0 l2, list_ (map s) = l1 ++ (k0, value h) :: l2 ∧
        list_ m' = l1 ++ (Some k, value h) :: l2 ∧ Forall (λ e, 1 ≤ refs e.2 hs) l2
  end.
Proof.
  intros Hn Hr Hk hs. destruct (reachable_inv _ _ _ Hn Hr) as [Hinv _].
  assert (∀ l, (∀ e, e ∈ l → e ∈ list_ (map s)) →
    Forall (λ e, strong_count (map s) e.2 ≠ 1) l → Forall (λ e, 1 ≤ refs e.2 hs) l) as Hrefd.
  { intros l Hsub Hf. apply Forall_forall. intros e He. rw Forall_forall in Hf.
    pose proof (Hf e He) as Hne. rw (inv_strong _ _ Hinv) in Hne.
    { apply list_elem_of_fmap. eauto. }
    fold hs in Hne. pose proof (refs_nonneg e.2 hs). lia. }
  rw not_elem_of_keys -find_key_None in Hk. rw /lru_get Hk.
  destruct (recycle _ k _) as [[v l']|] eqn:Hrec.
  - destruct (recycle_inv _ _ _ _ _ Hinv Hk Hrec) as (_ & _ & Hr0).
    apply recycle_Some in Hrec as (l1 & k0 & l2 & E & -> & Hc & Hf).
    split_and!; [done..|]. exists l1, k0, l2. split_and!; [done..|].
    apply Hrefd; [|done]. rw E. set_solver.
  - split; [done|]. apply Hrefd; [done|]. by apply recycle_None in Hrec.
Qed.

Lemma lru_victim_witness :
  ∃ h m', lru_get 8 (map lru_example) = (Some h, m') ∧
          refs (value h) (live lru_example ++ dropping lru_example) = 0.
Proof.
  assert (rtc step (System (default {| list_ := []; strong := ∅ |} (new_in 2)) [] [])
            lru_example) as Hr.
  { apply rtc_once. apply (step_get _ _ _ _ 7). vm_compute. reflexivity. }
  assert (8 ∉ keys (list_ (map lru_example))) as Hk.
  { vm_compute. intros H. apply elem_of_cons in H as [H|H]; [done|]. inversion H. }
  pose proof (lru_victim 2 _ lru_example 8 eq_refl Hr Hk) as H.
  destruct (lru_get 8 (map lru_example)) as [[h|] m'] eqn:E; [|by vm_compute in E].
  exists h, m'. split; [done|]. apply H.
Defined.
