(* ===== verification/BlockIo.v ===== *)
(** * The block I/O cache

    Model of [crates/kernel/block_io/src/lib.rs], on top of [Lru.v].  The
    state of a [BlockIoCache] is the device, the LRU map and, for each value of
    the map, the [BlockData] its mutex protects ([cells]).  A [BlockRef] and a
    [BlockGuard] both hold an [LruValue] whose key is their [index]; they are
    represented by it, and dropping one drops it.  A guard's methods run while
    its block is locked, so they are the atomic operations of the model.

    The abstract content of the cache is [view]: what a reader of a block gets,
    the cached bytes when the block is cached and the device's otherwise.
    [cache_inv] is the invariant under which that abstraction is sound. *)

From S2P Require Import Prelude FsTypes Lru.

(** The trait [BlockDevice]. *)
Class BlockDevice (D E : Type) := {
  dev_read : Z → D → result E (list byte);
  dev_write : Z → list byte → D → result E D;
}.

(** ** Data *)

Record BlockData := {
  index : Z;
  valid : bool;
  dirty : bool;
  data : list byte;
}.

Abbreviation BlockRef := (LruValue Z).
Abbreviation BlockGuard := (LruValue Z).

Section block_io.
Context {D E : Type} `{!BlockDevice D E} (BLOCK_SIZE : nat).

(** [BlockData::default()]. *)
Definition default_data : BlockData :=
  {| index := 0; valid := false; dirty := true; data := zeroes BLOCK_SIZE |}.

Record BlockIoCache := {
  device : D;
  lru : LruMap Z;
  cells : gmap nat BlockData;
}.

Definition cell (c : BlockIoCache) (v : nat) : BlockData := default default_data (cells c !! v).
Definition set_cell (v : nat) (d : BlockData) (c : BlockIoCache) : BlockIoCache :=
  {| device := device c; lru := lru c; cells := <[v := d]> (cells c) |}.
Definition set_lru (l : LruMap Z) (c : BlockIoCache) : BlockIoCache :=
  {| device := device c; lru := l; cells := cells c |}.
Definition set_device (d : D) (c : BlockIoCache) : BlockIoCache :=
  {| device := d; lru := lru c; cells := cells c |}.

(** ** Operations *)

(** [BlockIoCache::new_in]; [None] is the panic of [Lru::new_in] on size 0. *)
Definition cache_new_in (d : D) (num_block : nat) : option BlockIoCache :=
  (λ l, {| device := d; lru := l; cells := ∅ |}) <$> new_in num_block.

Definition try_get (i : Z) : M BlockIoCache (option BlockRef) := λ c,
  let '(h, l) := lru_get i (lru c) in Ret h (set_lru l c).

(** [BlockIoCache::get]: panics when every buffer is referenced. *)
Definition cache_get (i : Z) : M BlockIoCache BlockRef :=
  o ← try_get i;
  unwrap o.

(** [BlockRef::clone], [BlockGuard::block] and the drop of either. *)
Definition ref_clone (h : BlockRef) : M BlockIoCache BlockRef :=
  modify (λ c, set_lru (lru_clone h (lru c)) c);; mret h.
Definition ref_drop (h : BlockRef) : M BlockIoCache unit :=
  modify (λ c, set_lru (lru_drop h (lru c)) c).

(** [BlockRef::lock]: a recycled buffer is invalidated; the guard holds a clone
    of the reference. *)
Definition block_lock (h : BlockRef) : M BlockIoCache BlockGuard :=
  modify (λ c,
    let d := cell c (value h) in
    if index d =? key h then c
    else set_cell (value h)
           {| index := key h; valid := false; dirty := dirty d; data := data d |} c);;
  ref_clone h.

(** The guards returned by the consuming methods clone the reference and drop
    the one of [self]. *)
Definition reguard (g : BlockGuard) : M BlockIoCache BlockGuard :=
  ref_clone g;; ref_drop g;; mret g.

(** [BlockGuard::read]. *)
Definition guard_read (g : BlockGuard) : M BlockIoCache (result (BlockGuard * E) BlockGuard) :=
  d ← gets (λ c, cell c (value g));
  if valid d then g' ← reguard g; mret (Ok g')
  else
    modify (set_cell (value g)
      {| index := index d; valid := true; dirty := false; data := data d |});;
    r ← gets (λ c, dev_read (key g) (device c));
    match r with
    | Err e => mret (Err (g, e))
    | Ok b =>
        modify (set_cell (value g)
          {| index := index d; valid := true; dirty := false; data := b |});;
        g' ← reguard g; mret (Ok g')
    end.

(** [BlockGuard::set_data]: [copy_from_slice] panics on a length mismatch. *)
Definition set_data (g : BlockGuard) (b : list byte) : M BlockIoCache BlockGuard :=
  d ← gets (λ c, cell c (value g));
  assert_ (length (data d) =? length b)%nat;;
  modify (set_cell (value g)
    {| index := index d; valid := true; dirty := true; data := b |});;
  reguard g.

(** [BlockGuard::zeroed]. *)
Definition guard_zeroed (g : BlockGuard) : M BlockIoCache BlockGuard :=
  d ← gets (λ c, cell c (value g));
  modify (set_cell (value g)
    {| index := index d; valid := true; dirty := true; data := zeroes (length (data d)) |});;
  reguard g.

Definition is_dirty (g : BlockGuard) : M BlockIoCache bool :=
  gets (λ c, dirty (cell c (value g))).

(** [BlockGuard::try_validate]. *)
Definition try_validate (g : BlockGuard) : M BlockIoCache (result BlockGuard BlockGuard) :=
  d ← gets (λ c, cell c (value g));
  if valid d then mret (Ok g) else mret (Err g).

Definition guard_bytes (g : BlockGuard) : M BlockIoCache (list byte) :=
  gets (λ c, data (cell c (value g))).

(** A mutation through [BlockGuard::bytes_mut] or [data_mut]. *)
Definition bytes_mut (g : BlockGuard) (f : list byte → list byte) : M BlockIoCache unit :=
  modify (λ c, let d := cell c (value g) in
    set_cell (value g)
      {| index := index d; valid := valid d; dirty := true; data := f (data d) |} c).

(** [BlockGuard::write]: panics when the cached data is not valid. *)
Definition guard_write (g : BlockGuard) : M BlockIoCache (result E unit) :=
  d ← gets (λ c, cell c (value g));
  assert_ (valid d);;
  r ← gets (λ c, dev_write (key g) (data d) (device c));
  match r with
  | Err e => mret (Err e)
  | Ok dev =>
      modify (set_device dev);;
      modify (set_cell (value g)
        {| index := index d; valid := valid d; dirty := false; data := data d |});;
      mret (Ok tt)
  end.

(** ** The abstract content *)

(** The data cached for block [k], if any. *)
Definition cached (c : BlockIoCache) (k : Z) : option BlockData :=
  match find_key k (list_ (lru c)) with
  | Some v =>
      let d := cell c v in
      if (index d =? k) && valid d then Some d else None
  | None => None
  end.

Definition dirty_at (c : BlockIoCache) (k : Z) : bool :=
  match cached c k with
  | Some d => dirty d
  | None => false
  end.
End block_io.
#[global] Arguments default_data : simpl never.

(** What the cache promises its client relies on the device never failing, as
    the kernel's does ([type Error = Infallible]): reads give the content of
    the block and a write changes that block only.  [dev_writes] is the history
    of the writes, for what a crash between two of them leaves. *)
Class DiskDevice (D E : Type) (BLOCK_SIZE : nat) `{!BlockDevice D E} := {
  dev_block : D → Z → list byte;
  dev_writes : D → list (Z * list byte);
  dev_read_ok k d : dev_read k d = Ok (E := E) (dev_block d k);
  dev_block_length k d : length (dev_block d k) = BLOCK_SIZE;
  dev_write_ok k b d :
    length b = BLOCK_SIZE →
    ∃ d', dev_write k b d = Ok (E := E) d' ∧ dev_writes d' = dev_writes d ++ [(k, b)] ∧
      ∀ k', dev_block d' k' = if decide (k = k') then b else dev_block d k';
}.

(** A map from blocks to bytes, with one block changed and after a sequence of
    writes. *)
Definition upd (f : Z → list byte) (k : Z) (b : list byte) : Z → list byte :=
  λ k', if decide (k = k') then b else f k'.
Definition apply_writes (ws : list (Z * list byte)) (f : Z → list byte) : Z → list byte :=
  foldl (λ f w, upd f w.1 w.2) f ws.

Lemma upd_eq f k b : upd f k b k = b.
Proof. rw /upd. by rw decide_True. Qed.
Lemma upd_ne f k b k' : k ≠ k' → upd f k b k' = f k'.
Proof. intros. rw /upd. by rw decide_False. Qed.

Lemma apply_writes_app ws1 ws2 f :
  apply_writes (ws1 ++ ws2) f = apply_writes ws2 (apply_writes ws1 f).
Proof. apply foldl_app. Qed.

Lemma apply_writes_one k b f j :
  apply_writes [(k, b)] f j = if decide (k = j) then b else f j.
Proof. done. Qed.

Lemma apply_writes_ext ws f g k : (∀ k, f k = g k) → apply_writes ws f k = apply_writes ws g k.
Proof.
  revert f g. induction ws as [|w ws IH]; intros f g H; simpl; [done|].
  apply IH. intros j. rw /upd. by case_decide.
Qed.

Lemma apply_writes_notin ws f k : k ∉ ws.*1 → apply_writes ws f k = f k.
Proof.
  revert f. induction ws as [|w ws IH]; intros f Hk; simpl; [done|].
  rw IH; [set_solver|]. rw /upd decide_False //. set_solver.
Qed.

(** Only the last write of a block counts, whatever was there before. *)
Lemma apply_writes_in ws f g k : k ∈ ws.*1 → apply_writes ws f k = apply_writes ws g k.
Proof.
  revert f g. induction ws as [|w ws IH]; intros f g Hk; simpl; [set_solver|].
  destruct (decide (k ∈ ws.*1)) as [|Hn]; [by apply IH|].
  rw !apply_writes_notin // /upd !decide_True //; set_solver.
Qed.

Section refinement.
Context {D E : Type} {BLOCK_SIZE : nat} `{!BlockDevice D E} `{!DiskDevice D E BLOCK_SIZE}.

#[local] Abbreviation cache := (@BlockIoCache D).
#[local] Abbreviation cell := (cell BLOCK_SIZE).
#[local] Abbreviation cached := (cached BLOCK_SIZE).
#[local] Abbreviation dirty_at := (dirty_at BLOCK_SIZE).
#[local] Abbreviation block_lock := (block_lock BLOCK_SIZE).
#[local] Abbreviation guard_read := (guard_read BLOCK_SIZE).
#[local] Abbreviation set_data := (set_data BLOCK_SIZE).
#[local] Abbreviation guard_zeroed := (guard_zeroed BLOCK_SIZE).
#[local] Abbreviation is_dirty := (is_dirty BLOCK_SIZE).
#[local] Abbreviation try_validate := (try_validate BLOCK_SIZE).
#[local] Abbreviation guard_bytes := (guard_bytes BLOCK_SIZE).
#[local] Abbreviation bytes_mut := (bytes_mut BLOCK_SIZE).
#[local] Abbreviation guard_write := (guard_write BLOCK_SIZE).
Implicit Types (c : cache) (h g : LruValue Z) (hs : list (LruValue Z)) (k : Z).

(** What the device holds, and what a reader of the cache sees. *)
Definition disk c k : list byte := dev_block (device c) k.
Definition view c k : list byte :=
  match cached c k with
  | Some d => data d
  | None => disk c k
  end.

(** The buffer behind the handle was locked for its key since it was recycled. *)
Definition synced c h : Prop := index (cell c (value h)) = key h.
(** ... and its data is valid: the state of a [BlockGuard<VALID = true>]. *)
Definition loaded c h : Prop := synced c h ∧ valid (cell c (value h)) = true.

Record cache_inv c hs : Prop := {
  ci_lru : lru_inv (lru c) hs;
  ci_len v : length (data (cell c v)) = BLOCK_SIZE;
  ci_sync k v : (Some k, v) ∈ list_ (lru c) → refs v hs = 0 → index (cell c v) = k;
  ci_unkeyed v : (None, v) ∈ list_ (lru c) → valid (cell c v) = false;
  ci_clean k v : (Some k, v) ∈ list_ (lru c) → index (cell c v) = k →
    valid (cell c v) = true → dirty (cell c v) = false → data (cell c v) = disk c k;
  ci_pinned k v : (Some k, v) ∈ list_ (lru c) → index (cell c v) = k →
    valid (cell c v) = true → dirty (cell c v) = true → 1 ≤ refs v hs;
}.

(** Only the blocks of [P] may have changed. *)
Definition unchanged (P : Z → Prop) c c' : Prop :=
  ∀ k, ¬ P k → view c' k = view c k ∧ dirty_at c' k = dirty_at c k ∧ disk c' k = disk c k.
Definition sync_mono hs c c' : Prop :=
  ∀ h, h ∈ hs → (synced c h → synced c' h) ∧ (loaded c h → loaded c' h).

Lemma cell_set c v d v' :
  cell (set_cell v d c) v' = if decide (v = v') then d else cell c v'.
Proof. rw /cell /= lookup_insert. by case_decide. Qed.

Lemma find_key_perm k (l l' : list (option Z * nat)) :
  l ≡ₚ l' → NoDup (keys l) → find_key k l = find_key k l'.
Proof.
  intros Hp Hn. assert (NoDup (keys l')) as Hn'.
  { rw /keys. by rw -Hp. }
  destruct (find_key k l) as [v|] eqn:E1.
  - symmetry. apply find_key_elem; [done|]. rw -Hp. by apply find_key_Some.
  - symmetry. apply find_key_None. rw -Hp. by apply find_key_None.
Qed.

Lemma cached_elem c hs k v :
  lru_inv (lru c) hs → (Some k, v) ∈ list_ (lru c) →
  cached c k = if (index (cell c v) =? k) && valid (cell c v) then Some (cell c v) else None.
Proof.
  intros Hi Hin. rw /cached. apply find_key_elem in Hin; [by rw Hin|by apply inv_keys in Hi].
Qed.

Lemma view_length c hs k : cache_inv c hs → length (view c k) = BLOCK_SIZE.
Proof.
  intros Hi. rw /view. destruct (cached c k) as [d|] eqn:Ec; [|apply dev_block_length].
  revert Ec. rw /cached. destruct (find_key k (list_ (lru c))) as [v|]; [|done].
  destruct (_ && _); [|done]. intros [= <-]. apply Hi.
Qed.

(** The content depends on the LRU order in no way. *)
Lemma cached_perm c l :
  NoDup (keys (list_ (lru c))) → list_ l ≡ₚ list_ (lru c) →
  ∀ k, cached (set_lru l c) k = cached c k.
Proof.
  intros Hn Hp k. rw /cached /=. rw -(find_key_perm k (list_ (lru c)) (list_ l)) //. by symmetry.
Qed.

Lemma view_ext c c' k : cached c' k = cached c k → disk c' k = disk c k → view c' k = view c k.
Proof. rw /view => -> ->. done. Qed.

Lemma unchanged_ext P c c' :
  (∀ k, ¬ P k → cached c' k = cached c k) → (∀ k, ¬ P k → disk c' k = disk c k) →
  unchanged P c c'.
Proof.
  intros Hc Hd k Hk. specialize (Hc k Hk). specialize (Hd k Hk).
  split_and!; [by apply view_ext| |done]. by rw /dirty_at Hc.
Qed.

Lemma unchanged_trans (P : Z → Prop) c1 c2 c3 :
  unchanged P c1 c2 → unchanged P c2 c3 → unchanged P c1 c3.
Proof.
  intros H1 H2 k Hk. destruct (H1 k Hk) as (?&?&?), (H2 k Hk) as (?&?&?).
  split_and!; congruence.
Qed.

Lemma unchanged_mono (P Q : Z → Prop) c c' :
  (∀ k, P k → Q k) → unchanged P c c' → unchanged Q c c'.
Proof. intros HPQ H k Hk. apply H. auto. Qed.

Lemma unchanged_refl P c : unchanged P c c.
Proof. done. Qed.

Lemma sync_mono_refl hs c : sync_mono hs c c.
Proof. done. Qed.

Lemma sync_mono_trans hs c1 c2 c3 :
  sync_mono hs c1 c2 → sync_mono hs c2 c3 → sync_mono hs c1 c3.
Proof. intros H1 H2 h Hh. destruct (H1 h Hh), (H2 h Hh). split; auto. Qed.

Lemma sync_mono_sub hs hs' c c' :
  (∀ h, h ∈ hs' → h ∈ hs) → sync_mono hs c c' → sync_mono hs' c c'.
Proof. intros Hs H h Hh. apply H. auto. Qed.

Lemma sync_mono_cells hs c c' : (∀ v, cell c' v = cell c v) → sync_mono hs c c'.
Proof. intros H h _. rw /loaded /synced !H. done. Qed.

#[export] Instance cache_inv_perm c : Proper ((≡ₚ) ==> iff) (cache_inv c).
Proof.
  assert (∀ hs hs', hs ≡ₚ hs' → cache_inv c hs → cache_inv c hs') as Himp.
  { intros hs hs' Hp [H1 H2 H3 H4 H5 H6]. split; [by rw -Hp|done| |done|done|];
      intros k v; rw -Hp; eauto. }
  intros hs hs' Hp. split; apply Himp; [done|by symmetry].
Qed.

(** *** Reordering the LRU list and counting references *)

(** Replacing the LRU map by one with the same entries. *)
Lemma cache_inv_lru c hs hs' l :
  cache_inv c hs → lru_inv l hs' → list_ l ≡ₚ list_ (lru c) →
  (∀ k v, (Some k, v) ∈ list_ (lru c) → refs v hs' = 0 →
     refs v hs = 0 ∨ (index (cell c v) = k ∧ (valid (cell c v) = true → dirty (cell c v) = false))) →
  cache_inv (set_lru l c) hs' ∧ unchanged (λ _, False) c (set_lru l c).
Proof.
  intros [H1 H2 H3 H4 H5 H6] Hl Hp Hr. split.
  - split; [done|done| | | |]; simpl.
    + intros k v Hin Hz. rw Hp in Hin.
      destruct (Hr k v Hin Hz) as [?|[??]]; [by apply H3|done].
    + intros v. rw Hp. apply H4.
    + intros k v. rw Hp. apply H5.
    + intros k v Hin Hi Hv Hd. rw Hp in Hin.
      destruct (decide (refs v hs' = 0)) as [Hz|]; [|pose proof (refs_nonneg v hs'); lia].
      destruct (Hr k v Hin Hz) as [Hz'|[_ Hc]].
      * pose proof (H6 k v Hin Hi Hv Hd). lia.
      * rw Hc // in Hd.
  - apply unchanged_ext; intros k _; [|done].
    apply cached_perm; [by apply inv_keys in H1|done].
Qed.

(** The number of buffers. *)
Definition capacity c : nat := length (list_ (lru c)).

(** What every operation guarantees: the invariant for the handles it leaves,
    the content of the other blocks, and the state of the handles. *)
Record preserves (P : Z → Prop) c hs' c' : Prop := {
  pr_inv : cache_inv c' hs';
  pr_unchanged : unchanged P c c';
  pr_sync : sync_mono hs' c c';
  pr_capacity : capacity c' = capacity c;
  pr_device : device c' = device c;
}.

Lemma preserves_trans P c1 hs2 c2 hs3 c3 :
  preserves P c1 hs2 c2 → preserves P c2 hs3 c3 → (∀ h, h ∈ hs3 → h ∈ hs2) →
  preserves P c1 hs3 c3.
Proof.
  intros [_ U1 S1 C1 D1] [I2 U2 S2 C2 D2] Hsub.
  split; [done|exact (unchanged_trans _ _ _ _ U1 U2)| |congruence|congruence].
  apply (sync_mono_trans _ _ c2); [|done]. by apply (sync_mono_sub hs2).
Qed.

Lemma preserves_perm P c hs hs' c' : hs ≡ₚ hs' → preserves P c hs c' → preserves P c hs' c'.
Proof.
  intros Hp [HI HU HS HC HD]. split; [by rw -Hp|done| |done|done].
  apply (sync_mono_sub hs); [|done]. intros h. by rw Hp.
Qed.

Lemma preserves_mono (P Q : Z → Prop) c hs c' :
  (∀ k, P k → Q k) → preserves P c hs c' → preserves Q c hs c'.
Proof. intros HPQ [HI HU HS HC HD]. split; [done|by apply (unchanged_mono P)|done..]. Qed.

Lemma ref_clone_wp c hs h :
  cache_inv c hs → h ∈ hs →
  wp (ref_clone h) (λ h' c', h' = h ∧ preserves (λ _, False) c (h :: hs) c' ∧
    ∀ v, cell c' v = cell c v) c.
Proof.
  intros Hi Hin. rw /ref_clone. wp_steps.
  destruct (cache_inv_lru c hs (h :: hs) (lru_clone h (lru c)) Hi) as [HI HU].
  - apply lru_clone_inv; [apply Hi|done].
  - done.
  - intros k v _. rw refs_cons. pose proof (refs_nonneg v hs). case_decide; lia.
  - split_and!; [done| |done]. split; [done|done|by apply sync_mono_cells|done|done].
Qed.

(** A reference that is not the last one may be dropped at any time, the last
    one when its buffer is synced and not dirty. *)
Definition droppable c hs h : Prop :=
  h ∈ hs ∨ (synced c h ∧ (valid (cell c (value h)) = true → dirty (cell c (value h)) = false)).

Lemma ref_drop_wp c hs h :
  cache_inv c (h :: hs) → droppable c hs h →
  wp (ref_drop h) (λ _ c', preserves (λ _, False) c hs c' ∧ ∀ v, cell c' v = cell c v) c.
Proof.
  intros Hi Hdrop. rw /ref_drop. wp_steps.
  destruct (cache_inv_lru c (h :: hs) hs (lru_drop h (lru c)) Hi) as [HI HU].
  - apply lru_drop_inv, Hi.
  - simpl. apply promote_perm.
  - intros k v Hv Hz. rw refs_cons Hz. case_decide as Hd; [|by left]. subst v.
    right. destruct Hdrop as [Hin|[Hs Hc]].
    + apply refs_elem in Hin. lia.
    + assert (Some k = Some (key h)) as [= ->]; [|done].
      apply (inv_value_key _ _ _ _ _ (ci_lru _ _ Hi) Hv).
      apply (inv_handles _ _ (ci_lru _ _ Hi)). set_solver.
  - split; [|done]. split; [done|done|by apply sync_mono_cells| |done].
    rw /capacity /=. by rw promote_perm.
Qed.

Lemma reguard_wp c hs g :
  cache_inv c hs → g ∈ hs →
  wp (reguard g) (λ g' c', g' = g ∧ preserves (λ _, False) c hs c' ∧
    ∀ v, cell c' v = cell c v) c.
Proof.
  intros Hi Hin. rw /reguard. wp_step.
  eapply wp_mono; [by apply (ref_clone_wp c hs)|]. intros ? c1 (-> & P1 & C1). wp_step.
  eapply wp_mono; [apply (ref_drop_wp c1 hs); [apply P1|by left]|].
  intros [] c2 (P2 & C2). wp_step. split_and!; [done| |].
  - apply (preserves_trans _ _ _ _ _ _ P1 P2). set_solver.
  - intros v. by rw C2.
Qed.

(** *** [get] *)

Lemma lru_get_cases k m hs h m' :
  lru_inv m hs → lru_get k m = (Some h, m') →
  key h = k ∧ lru_inv m' (h :: hs) ∧
  (list_ m' = list_ m ∧ (Some k, value h) ∈ list_ m ∨
   k ∉ keys (list_ m) ∧ refs (value h) hs = 0 ∧
   ∃ l1 (k0 : option Z) l2, list_ m = l1 ++ (k0, value h) :: l2 ∧ list_ m' = l1 ++ (Some k, value h) :: l2).
Proof.
  intros Hi. rw /lru_get. destruct (find_key k (list_ m)) as [v|] eqn:Ef.
  - intros [= <- <-]. apply find_key_Some in Ef. split_and!; [done| |by left].
    by apply (arc_clone_inv m hs {| key := k; value := v |}).
  - destruct (recycle _ k (list_ m)) as [[v l']|] eqn:Er; [|done]. intros [= <- <-].
    destruct (recycle_inv _ _ _ _ _ Hi Ef Er) as (HI & Hin & Hz).
    split_and!; [done|by apply (arc_clone_inv _ hs {| key := k; value := v |})|].
    right. split_and!; [by apply not_elem_of_keys, find_key_None|done|].
    apply recycle_Some in Er as (l1 & k0 & l2 & -> & -> & _). eauto.
Qed.

(** The blocks that are referenced.  [get] finds a buffer as long as they and
    the requested one fit in the cache. *)
Definition hkeys hs : gset Z := list_to_set (key <$> hs).

Lemma elem_of_hkeys k hs : k ∈ hkeys hs ↔ ∃ h, h ∈ hs ∧ key h = k.
Proof. rw /hkeys elem_of_list_to_set list_elem_of_fmap. naive_solver. Qed.

Lemma hkeys_cons h hs : hkeys (h :: hs) = {[key h]} ∪ hkeys hs.
Proof. done. Qed.

Lemma keys_length_all (l : list (option Z * nat)) :
  (∀ v, (None, v) ∉ l) → length (keys l) = length l.
Proof.
  rw /keys. induction l as [|[[k|] v] l IH]; intros Hn; simpl; [done| |].
  - rw IH //. set_solver.
  - destruct (Hn v). set_solver.
Qed.

Lemma lru_get_room k m hs :
  lru_inv m hs → (size ({[k]} ∪ hkeys hs) ≤ length (list_ m))%nat →
  ∃ h m', lru_get k m = (Some h, m').
Proof.
  intros Hi Hroom. destruct (lru_get k m) as [[h|] m'] eqn:Eg; [eauto|].
  destruct (lru_get_None _ _ k Hi) as [Hn _]. rw Eg in Hn.
  destruct Hn as [Hk Hall]; [done|]. exfalso.
  assert (∀ (k' : option Z) v, (k', v) ∈ list_ m → ∃ h, h ∈ hs ∧ k' = Some (key h)) as Hent.
  { intros k' v Hin. assert (1 ≤ refs v hs) as Hr.
    { apply Hall. apply list_elem_of_fmap. by exists (k', v). }
    destruct (filter (λ h, value h = v) hs) as [|h l] eqn:Ef; [rw /refs Ef /= in Hr; lia|].
    assert (h ∈ filter (λ h, value h = v) hs) as Hh by (rw Ef; set_solver).
    apply list_elem_of_filter in Hh as [<- Hh]. exists h. split; [done|].
    apply (inv_value_key _ _ _ _ _ Hi Hin). by apply (inv_handles _ _ Hi). }
  assert (length (keys (list_ m)) = length (list_ m)) as Hlen.
  { apply keys_length_all. intros v Hin. by destruct (Hent _ _ Hin) as (? & _ & ?). }
  assert (list_to_set (keys (list_ m)) ⊆ hkeys hs) as Hsub.
  { intros k'. rw elem_of_list_to_set elem_of_keys elem_of_hkeys. intros [v Hin].
    destruct (Hent _ _ Hin) as (h & ? & [= ->]). eauto. }
  apply subseteq_size in Hsub. rw size_list_to_set in Hsub; [apply Hi|].
  destruct (decide (k ∈ hkeys hs)) as [Hin|Hnin].
  - apply elem_of_hkeys in Hin as (h & Hin & <-). apply Hk, elem_of_keys.
    exists (value h). by apply (inv_handles _ _ Hi).
  - rw size_union in Hroom; [set_solver|]. rw size_singleton in Hroom. lia.
Qed.

(** Recycling: the old key loses a clean buffer, the new one gets a buffer that
    is not its own yet, so the content does not change. *)
Lemma recycle_cached c hs l h (l1 l2 : list (option Z * nat)) (k0 : option Z) :
  cache_inv c hs → lru_inv l (h :: hs) → key h ∉ keys (list_ (lru c)) →
  refs (value h) hs = 0 →
  list_ (lru c) = l1 ++ (k0, value h) :: l2 → list_ l = l1 ++ (Some (key h), value h) :: l2 →
  cached c (key h) = None ∧ cached (set_lru l c) (key h) = None ∧
  (∀ k, k ≠ key h → k0 ≠ Some k → cached (set_lru l c) k = cached c k) ∧
  (∀ k, k0 = Some k → cached (set_lru l c) k = None ∧
    (∀ d, cached c k = Some d → dirty d = false ∧ data d = disk c k)).
Proof.
  intros Hi Hl Hk Hz E1 E2.
  assert ((k0, value h) ∈ list_ (lru c)) as Hin by (rw E1; set_solver).
  assert (∀ k, k0 = Some k → k ≠ key h) as Hne.
  { intros k -> ->. apply Hk, elem_of_keys. eauto. }
  assert (∀ k v, k ≠ key h → (Some k, v) ∈ list_ l → (Some k, v) ∈ list_ (lru c) ∧ k0 ≠ Some k) as Hold.
  { intros k v Hkk Hv. assert (v ≠ value h).
    { intros ->. assert (Some k = Some (key h)); [|naive_solver].
      apply (inv_value_key _ _ _ _ _ Hl Hv). rw E2. set_solver. }
    assert ((Some k, v) ∈ list_ (lru c)) as Hv'.
    { rw E1. rw E2 in Hv. set_solver. }
    split; [done|]. intros ->.
    pose proof (inv_key_value _ _ _ _ _ (ci_lru _ _ Hi) Hin Hv'). congruence. }
  split_and!.
  - rw /cached. apply not_elem_of_keys, find_key_None in Hk. by rw Hk.
  - rw (cached_elem (set_lru l c) (h :: hs) _ (value h)) //; [simpl; rw E2; set_solver|].
    destruct k0 as [k|].
    + pose proof (ci_sync _ _ Hi _ _ Hin Hz) as Hs.
      case: Z.eqb_spec => //= Hx. destruct (Hne k); [done|].
      by rw -Hs.
    + pose proof (ci_unkeyed _ _ Hi _ Hin) as Hs. rw /cell /= in Hs. rw /cell /= Hs.
      by rw andb_false_r.
  - intros k Hkk Hk0. rw /cached /=.
    destruct (find_key k (list_ l)) as [v|] eqn:Ef.
    + apply find_key_Some in Ef. apply Hold in Ef as [Ef _]; [|done].
      apply find_key_elem in Ef; [|apply Hi]. by rw Ef.
    + destruct (find_key k (list_ (lru c))) as [v|] eqn:Ef'; [|done].
      apply find_key_Some in Ef'. apply find_key_None in Ef. destruct Ef.
      apply list_elem_of_fmap. exists (Some k, v). split; [done|].
      rw E2. rw E1 in Ef'. assert (v ≠ value h); [|set_solver].
      intros ->. apply Hk0. apply (inv_value_key _ _ _ _ _ (ci_lru _ _ Hi) Hin). by rw E1.
  - intros k ->. split.
    + rw /cached /=. destruct (find_key k (list_ l)) as [v|] eqn:Ef; [|done].
      apply find_key_Some in Ef. apply Hold in Ef as [_ ?]; [done|by apply Hne].
    + intros d. rw (cached_elem c hs _ (value h)) //; [apply Hi|].
      case: Z.eqb_spec => //= Hx. destruct (valid _) eqn:Hv; [|done]. intros [= <-].
      destruct (dirty (cell c (value h))) eqn:Hd.
      * pose proof (ci_pinned _ _ Hi _ _ Hin Hx Hv Hd). lia.
      * split; [done|]. exact (ci_clean _ _ Hi _ _ Hin Hx Hv Hd).
Qed.

Lemma recycle_unchanged c hs l h (l1 l2 : list (option Z * nat)) (k0 : option Z) :
  cache_inv c hs → lru_inv l (h :: hs) → key h ∉ keys (list_ (lru c)) →
  refs (value h) hs = 0 →
  list_ (lru c) = l1 ++ (k0, value h) :: l2 → list_ l = l1 ++ (Some (key h), value h) :: l2 →
  unchanged (λ _, False) c (set_lru l c).
Proof.
  intros Hi Hl Hk Hz E1 E2 k _.
  destruct (recycle_cached c hs l h l1 l2 k0) as (Ha & Hb & Hc & Hd); [done..|].
  assert (cached (set_lru l c) k = cached c k ∨
    cached (set_lru l c) k = None ∧ ∀ d, cached c k = Some d → dirty d = false ∧ data d = disk c k)
    as [Ec|[Ec Hold]].
  { destruct (decide (k = key h)) as [->|]; [left; congruence|].
    destruct (decide (k0 = Some k)) as [->|]; [right; by apply Hd|left; by apply Hc]. }
  - split_and!; [by apply view_ext| |done]. by rw /dirty_at Ec.
  - rw /view /dirty_at Ec. destruct (cached c k) as [d|]; [|done].
    destruct (Hold d) as [-> ->]; done.
Qed.

Lemma recycle_cache_inv c hs l h (l1 l2 : list (option Z * nat)) (k0 : option Z) :
  cache_inv c hs → lru_inv l (h :: hs) → key h ∉ keys (list_ (lru c)) →
  refs (value h) hs = 0 →
  list_ (lru c) = l1 ++ (k0, value h) :: l2 → list_ l = l1 ++ (Some (key h), value h) :: l2 →
  cache_inv (set_lru l c) (h :: hs).
Proof.
  intros Hi Hl Hk Hz E1 E2.
  assert (∀ (k : option Z) v, (k, v) ∈ list_ l →
    (k, v) ∈ list_ (lru c) ∨ k = Some (key h) ∧ v = value h) as Hent.
  { intros k v. rw E1 E2. set_solver. }
  assert (index (cell c (value h)) = key h → valid (cell c (value h)) = false) as Hnew.
  { intros Hx. assert ((k0, value h) ∈ list_ (lru c)) as Hin by (rw E1; set_solver).
    destruct k0 as [k|]; [|by apply (ci_unkeyed _ _ Hi)]. destruct Hk.
    apply elem_of_keys. exists (value h). rw -Hx. by rw (ci_sync _ _ Hi _ _ Hin Hz). }
  split; [done|apply Hi|..]; simpl.
  - intros k v Hin. rw refs_cons. pose proof (refs_nonneg v hs). case_decide; [lia|].
    intros ?. destruct (Hent _ _ Hin) as [Hin'|[_ ->]]; [|done].
    apply (ci_sync _ _ Hi _ _ Hin'). lia.
  - intros v Hin. destruct (Hent _ _ Hin) as [Hin'|[? _]]; [|done]. by apply (ci_unkeyed _ _ Hi).
  - intros k v Hin Hx Hv Hd. destruct (Hent _ _ Hin) as [Hin'|[[= ->] ->]].
    + by apply (ci_clean _ _ Hi _ _ Hin').
    + rw /cell /= in Hx. rw /cell /= in Hv. rw Hnew // in Hv.
  - intros k v Hin Hx Hv Hd. rw refs_cons. pose proof (refs_nonneg v hs).
    case_decide; [lia|]. destruct (Hent _ _ Hin) as [Hin'|[_ ->]]; [|done].
    pose proof (ci_pinned _ _ Hi _ _ Hin' Hx Hv Hd). lia.
Qed.

Lemma cache_get_wp c hs k :
  cache_inv c hs → (size ({[k]} ∪ hkeys hs) ≤ capacity c)%nat →
  wp (cache_get k) (λ h c', key h = k ∧ preserves (λ _, False) c (h :: hs) c' ∧
    ∀ v, cell c' v = cell c v) c.
Proof.
  intros Hi Hroom. destruct (lru_get_room k (lru c) hs) as (h & l & Eg); [apply Hi|done|].
  apply (wp_of_run _ _ _ h (set_lru l c)).
  { by rw /cache_get /mbind /M_bind /try_get Eg. }
  destruct (lru_get_cases _ _ _ _ _ (ci_lru _ _ Hi) Eg)
    as (<- & Hl & [[El Hin]|(Hk & Hz & l1 & k0 & l2 & E1 & E2)]).
  - destruct (cache_inv_lru c hs (h :: hs) l Hi Hl) as [HI HU]; [by rw El| |].
    + intros k v _. rw refs_cons. pose proof (refs_nonneg v hs). case_decide; lia.
    + split_and!; [done| |done]. split; [done|done|by apply sync_mono_cells| |done].
      by rw /capacity /= El.
  - split_and!; [done| |done]. split.
    + exact (recycle_cache_inv c hs l h l1 l2 k0 Hi Hl Hk Hz E1 E2).
    + exact (recycle_unchanged c hs l h l1 l2 k0 Hi Hl Hk Hz E1 E2).
    + by apply sync_mono_cells.
    + rw /capacity /= E1 E2. len.
    + done.
Qed.

(** *** Updates of the cell of a held buffer *)

Lemma cached_set_cell c hs g d k :
  cache_inv c hs → g ∈ hs →
  cached (set_cell (value g) d c) k =
    if decide (key g = k) then if (index d =? k) && valid d then Some d else None
    else cached c k.
Proof.
  intros Hi Hin. pose proof (inv_handles _ _ (ci_lru _ _ Hi) _ Hin) as Hg. case_decide as Hk.
  - subst k. rw (cached_elem (set_cell (value g) d c) hs (key g) (value g)) //; [apply Hi|].
    rw cell_set. by rw decide_True.
  - rw /cached /=. destruct (find_key k (list_ (lru c))) as [v|] eqn:Ef; [|done].
    rw cell_set. rw decide_False //. intros <-. apply find_key_Some in Ef. apply Hk.
    pose proof (inv_value_key _ _ _ _ _ (ci_lru _ _ Hi) Hg Ef). congruence.
Qed.

Lemma set_cell_preserves c hs g d :
  cache_inv c hs → g ∈ hs → index d = key g → length (data d) = BLOCK_SIZE →
  (loaded c g → valid d = true) →
  (valid d = true → dirty d = false → data d = disk c (key g)) →
  preserves (λ k, k = key g) c hs (set_cell (value g) d c).
Proof.
  intros Hi Hin Hx Hlen Hv Hclean. pose proof (inv_handles _ _ (ci_lru _ _ Hi) _ Hin) as Hg.
  pose proof (refs_elem g hs Hin) as Hr.
  split; [split; [apply Hi|..]|..].
  - intros v. rw cell_set. case_decide; [done|]. apply Hi.
  - intros k v Hkv Hz. rw cell_set. case_decide; [subst; lia|]. by apply (ci_sync _ _ Hi).
  - intros v Hkv. rw cell_set. case_decide; [|by apply (ci_unkeyed _ _ Hi)]. subst v.
    by pose proof (inv_value_key _ _ _ _ _ (ci_lru _ _ Hi) Hg Hkv).
  - intros k v Hkv. rw cell_set. case_decide; [subst v|by apply (ci_clean _ _ Hi)].
    pose proof (inv_value_key _ _ _ _ _ (ci_lru _ _ Hi) Hg Hkv) as [= <-]. intros _. exact Hclean.
  - intros k v Hkv. rw cell_set. case_decide; [by subst v|]. by apply (ci_pinned _ _ Hi).
  - apply unchanged_ext; [|done]. intros k Hk. rw (cached_set_cell c hs) //.
    rw decide_False //. congruence.
  - intros h Hh. rw /loaded /synced cell_set. case_decide as Ev; [|done].
    pose proof (inv_handles_agree _ _ _ _ (ci_lru _ _ Hi) Hin Hh) as [_ Hk].
    rw -(Hk Ev) -Ev. rw Hx. split; [done|]. intros [??]. split; [done|]. by apply Hv.
  - done.
  - done.
Qed.

Lemma loaded_cached c hs g :
  cache_inv c hs → g ∈ hs → loaded c g → cached c (key g) = Some (cell c (value g)).
Proof.
  intros Hi Hin [Hs Hv]. rw (cached_elem c hs _ (value g)); [apply Hi| |].
  - by apply (inv_handles _ _ (ci_lru _ _ Hi)).
  - rw Hs Z.eqb_refl Hv. done.
Qed.

Lemma loaded_view c hs g :
  cache_inv c hs → g ∈ hs → loaded c g → data (cell c (value g)) = view c (key g).
Proof. intros. rw /view (loaded_cached c hs) //. Qed.

Lemma loaded_dirty c hs g :
  cache_inv c hs → g ∈ hs → loaded c g → dirty (cell c (value g)) = dirty_at c (key g).
Proof. intros. rw /dirty_at (loaded_cached c hs) //. Qed.

(** *** The methods of the guards *)

Lemma block_lock_wp c hs h :
  cache_inv c hs → h ∈ hs →
  wp (block_lock h) (λ g c', g = h ∧ preserves (λ _, False) c (h :: hs) c' ∧ synced c' h ∧
    (synced c h → cell c' (value h) = cell c (value h))) c.
Proof.
  intros Hi Hin. rw /block_lock. wp_steps.
  case: Z.eqb_spec => [Hs|Hs]; (eapply wp_mono; [apply (ref_clone_wp _ hs); [|done]|]).
  - done.
  - intros ? c' (-> & HP & HC). split_and!; [done|done| |auto]. by rw /synced HC.
  - apply (set_cell_preserves c hs h); [done..|apply Hi| |done]. by intros [].
  - set (c1 := set_cell _ _ c). assert (preserves (λ _, False) c hs c1) as HP1.
    { destruct (set_cell_preserves c hs h {| index := key h; valid := false;
        dirty := dirty (cell c (value h)); data := data (cell c (value h)) |}) as [HI HU HS HC HD];
        [done..|apply Hi|by intros []|done|].
      split; [done| |done|done|done]. apply unchanged_ext; [|done]. intros k _.
      rw /c1 (cached_set_cell c hs) //. case_decide; [subst k|done]. rw /= andb_false_r.
      rw (cached_elem c hs _ (value h)); [apply Hi|by apply (inv_handles _ _ (ci_lru _ _ Hi))|].
      case: Z.eqb_spec => //. }
    intros ? c' (-> & HP & HC). split_and!; [done| | |done].
    + destruct HP1 as [_ HU1 HS1 HC1 HD1], HP as [HI HU HS HC2 HD2].
      split; [done|exact (unchanged_trans _ _ _ _ HU1 HU)| |congruence|congruence].
      apply (sync_mono_trans _ _ c1); [|done]. apply (sync_mono_sub hs); [|done]. set_solver.
    + rw /synced HC /c1 cell_set. by rw decide_True.
Qed.

Lemma guard_read_wp c hs g :
  cache_inv c hs → g ∈ hs → synced c g →
  wp (guard_read g) (λ r c', r = Ok g ∧ preserves (λ _, False) c hs c' ∧ loaded c' g ∧
    data (cell c' (value g)) = view c (key g)) c.
Proof.
  intros Hi Hin Hs. rw /guard_read. wp_steps. destruct (valid (cell c (value g))) eqn:Hv.
  - wp_step. eapply wp_mono; [by apply (reguard_wp c hs)|]. intros ? c' (-> & HP & HC). wp_steps.
    split_and!; [done|done|by rw /loaded /synced !HC|]. rw HC. by apply (loaded_view c hs).
  - assert (cached c (key g) = None) as Hn.
    { rw (cached_elem c hs _ (value g)); [apply Hi|by apply (inv_handles _ _ (ci_lru _ _ Hi))|].
      by rw Hv andb_false_r. }
    wp_steps. rw dev_read_ok. wp_steps.
    set (d0 := {| index := _; valid := _; dirty := _; data := dev_block _ _ |}).
    assert (set_cell (value g) d0 (set_cell (value g)
      {| index := index (cell c (value g)); valid := true; dirty := false;
         data := data (cell c (value g)) |} c) = set_cell (value g) d0 c) as ->.
    { rw /set_cell /=. by rw insert_insert_eq. }
    destruct (set_cell_preserves c hs g d0) as [HI HU HS HC HD]; [done..|apply dev_block_length|done|done|].
    assert (loaded (set_cell (value g) d0 c) g) as Hl by (by rw /loaded /synced !cell_set !decide_True).
    eapply wp_mono; [by apply (reguard_wp _ hs)|]. intros ? c' (-> & HP & HC'). wp_steps.
    split_and!; [done| |by rw /loaded /synced !HC'|].
    + apply (preserves_trans _ _ hs (set_cell (value g) d0 c)); [|done|done].
      split; [done| |done|done|done]. intros k _. destruct (decide (key g = k)) as [<-|Hk].
      * rw /view /dirty_at (cached_set_cell c hs) // decide_True // Hn /= Hs Z.eqb_refl. done.
      * apply HU. congruence.
    + rw HC' cell_set decide_True //. rw /view Hn. done.
Qed.

(** A mutation of a locked block: from then on readers see the new bytes, the
    block is dirty, and nothing else changes, the device included. *)
Definition mutated g b c c' : Prop :=
  view c' (key g) = b ∧ dirty_at c' (key g) = true ∧ loaded c' g ∧ ∀ k, disk c' k = disk c k.

Lemma set_cell_mutated c hs g b :
  cache_inv c hs → g ∈ hs → length b = BLOCK_SIZE →
  let c' := set_cell (value g) {| index := key g; valid := true; dirty := true; data := b |} c in
  preserves (λ k, k = key g) c hs c' ∧ mutated g b c c'.
Proof.
  intros Hi Hin Hb c'. split; [by apply set_cell_preserves|].
  assert (cached c' (key g) = Some {| index := key g; valid := true; dirty := true; data := b |}) as E1.
  { rw /c' (cached_set_cell c hs) // decide_True //= Z.eqb_refl. done. }
  split_and!; [by rw /view E1|by rw /dirty_at E1| |done].
  by rw /loaded /synced /c' !cell_set !decide_True.
Qed.

Lemma mutated_reguard c hs g b c1 c' :
  mutated g b c c1 → g ∈ hs → (∀ k, disk c' k = disk c1 k) →
  preserves (λ _, False) c1 hs c' → mutated g b c c'.
Proof.
  intros (Hv & Hd & Hl & Hk) Hin Hdk [HI HU HS _ _]. destruct (HU (key g)) as (Ev & Ed & _); [tauto|].
  split_and!; [congruence|congruence|by apply HS|]. intros k. rw Hdk. apply Hk.
Qed.

Lemma set_reguard_wp c hs g b :
  cache_inv c hs → g ∈ hs → length b = BLOCK_SIZE →
  wp (modify (set_cell (value g) {| index := key g; valid := true; dirty := true; data := b |});;
      reguard g)
    (λ g' c', g' = g ∧ preserves (λ k, k = key g) c hs c' ∧ mutated g b c c') c.
Proof.
  intros Hi Hin Hb. wp_steps. destruct (set_cell_mutated c hs g b) as [HP HM]; [done..|].
  eapply wp_mono; [apply (reguard_wp _ hs); [apply HP|done]|]. intros ? c' (-> & HP' & _).
  split_and!; [done| |].
  - eapply (preserves_trans _ _ hs); [exact HP| |done]. destruct HP' as [? HU ???].
    split; [done| |done|done|done]. apply (unchanged_mono (λ _, False)); [done|exact HU].
  - apply (mutated_reguard _ hs _ _ _ _ HM Hin); [|done]. intros k. by apply HP'.
Qed.

Lemma set_data_wp c hs g b :
  cache_inv c hs → g ∈ hs → synced c g → length b = BLOCK_SIZE →
  wp (set_data g b) (λ g' c', g' = g ∧ preserves (λ k, k = key g) c hs c' ∧ mutated g b c c') c.
Proof.
  intros Hi Hin Hs Hb. rw /set_data. wp_steps.
  apply wp_assert; [by rw (ci_len _ _ Hi) Hb Nat.eqb_refl|]. rw Hs. by apply set_reguard_wp.
Qed.

Lemma guard_zeroed_wp c hs g :
  cache_inv c hs → g ∈ hs → synced c g →
  wp (guard_zeroed g) (λ g' c', g' = g ∧ preserves (λ k, k = key g) c hs c' ∧
    mutated g (zeroes BLOCK_SIZE) c c') c.
Proof.
  intros Hi Hin Hs. rw /guard_zeroed. wp_step. wp_step. rw Hs (ci_len _ _ Hi).
  apply set_reguard_wp; [done..|]. by rw zeroes_length.
Qed.

Lemma bytes_mut_wp c hs g f :
  cache_inv c hs → g ∈ hs → loaded c g → length (f (view c (key g))) = BLOCK_SIZE →
  wp (bytes_mut g f) (λ _ c', preserves (λ k, k = key g) c hs c' ∧
    mutated g (f (view c (key g))) c c') c.
Proof.
  intros Hi Hin Hl Hf. rw /bytes_mut. wp_steps. destruct Hl as [Hs Hv].
  rw Hs Hv (loaded_view c hs) //. by apply set_cell_mutated.
Qed.

(** [write] makes the device agree with the cache. *)
Lemma guard_write_wp c hs g :
  cache_inv c hs → g ∈ hs → loaded c g →
  wp (guard_write g) (λ r c', r = Ok tt ∧ cache_inv c' hs ∧ sync_mono hs c c' ∧
    capacity c' = capacity c ∧
    dev_writes (device c') = dev_writes (device c) ++ [(key g, view c (key g))] ∧
    (∀ k, view c' k = view c k) ∧
    (∀ k, dirty_at c' k = if decide (key g = k) then false else dirty_at c k) ∧
    (∀ k, disk c' k = if decide (key g = k) then view c k else disk c k)) c.
Proof.
  intros Hi Hin Hl. rw /guard_write. wp_steps. destruct Hl as [Hs Hv].
  apply wp_assert; [done|]. wp_steps.
  pose proof (loaded_view c hs g Hi Hin (conj Hs Hv)) as Hview.
  pose proof (loaded_cached c hs g Hi Hin (conj Hs Hv)) as Hcach.
  destruct (dev_write_ok (key g) (data (cell c (value g))) (device c)) as (d' & -> & Hw & Hd');
    [apply Hi|]. wp_steps.
  set (d0 := {| index := _; valid := _; dirty := _; data := _ |}).
  set (c' := set_cell (value g) d0 (set_device d' c)).
  assert (∀ k, cached c' k = if decide (key g = k) then Some d0 else cached c k) as Hc'.
  { intros k. trans (cached (set_cell (value g) d0 c) k); [done|].
    rw (cached_set_cell c hs) //. case_decide as Hk; [|done].
    by rw /d0 /= Hs Hv Hk Z.eqb_refl. }
  assert (∀ k, disk c' k = if decide (key g = k) then view c k else disk c k) as Hdisk.
  { intros k. rw /disk /c' /= Hd'. case_decide as Hk; [|done]. by rw -Hk Hview. }
  split_and!; [done| | |done|by rw /= Hw Hview| | |done].
  - pose proof (inv_handles _ _ (ci_lru _ _ Hi) _ Hin) as Hg. pose proof (refs_elem g hs Hin).
    split; [apply Hi|..]; rw /c'.
    + intros v. rw cell_set. case_decide; apply Hi.
    + intros k v Hkv Hz. rw cell_set. case_decide; [subst; lia|]. by apply (ci_sync _ _ Hi).
    + intros v Hkv. rw cell_set. case_decide; [|by apply (ci_unkeyed _ _ Hi)]. subst v.
      by pose proof (inv_value_key _ _ _ _ _ (ci_lru _ _ Hi) Hg Hkv).
    + intros k v Hkv. rw cell_set Hdisk. case_decide as Ev.
      * subst v. pose proof (inv_value_key _ _ _ _ _ (ci_lru _ _ Hi) Hg Hkv) as [= <-].
        intros _ _ _. by rw /d0 /= decide_True.
      * intros. rw decide_False; [|by apply (ci_clean _ _ Hi)]. intros <-. apply Ev.
        exact (inv_key_value _ _ _ _ _ (ci_lru _ _ Hi) Hg Hkv).
    + intros k v Hkv. rw cell_set. case_decide; [by subst v|]. by apply (ci_pinned _ _ Hi).
  - intros h Hh. rw /loaded /synced /c' cell_set. case_decide as Ev; [|done]. by rw /= -Ev.
  - intros k. rw /view Hc'. case_decide as Hk; [|by rw Hdisk decide_False]. subst k.
    by rw Hcach.
  - intros k. rw /dirty_at Hc'. by case_decide.
Qed.

(** *** Flushing *)

(** The blocks [ws] were written, in that order, through the cache. *)
Record flushed c hs' c' (ws : list (Z * list byte)) : Prop := {
  fl_inv : cache_inv c' hs';
  fl_sync : sync_mono hs' c c';
  fl_capacity : capacity c' = capacity c;
  fl_writes : dev_writes (device c') = dev_writes (device c) ++ ws;
  fl_view k : view c' k = apply_writes ws (view c) k;
  fl_disk k : disk c' k = apply_writes ws (disk c) k;
  fl_dirty k : dirty_at c' k = if bool_decide (k ∈ ws.*1) then false else dirty_at c k;
}.

Lemma flushed_trans c1 hs2 c2 hs3 c3 ws1 ws2 :
  flushed c1 hs2 c2 ws1 → flushed c2 hs3 c3 ws2 → (∀ h, h ∈ hs3 → h ∈ hs2) →
  flushed c1 hs3 c3 (ws1 ++ ws2).
Proof.
  intros [I1 S1 C1 W1 V1 D1 Y1] [I2 S2 C2 W2 V2 D2 Y2] Hsub. split.
  - done.
  - apply (sync_mono_trans _ _ c2); [|done]. by apply (sync_mono_sub hs2).
  - congruence.
  - by rw W2 W1 app_assoc.
  - intros k. rw V2 apply_writes_app. by apply apply_writes_ext.
  - intros k. rw D2 apply_writes_app. by apply apply_writes_ext.
  - intros k. rw Y2 Y1 fmap_app. destruct (decide (k ∈ ws2.*1)) as [H2|H2].
    + rw !bool_decide_true //. set_solver.
    + rw bool_decide_false //. by rw (bool_decide_ext (k ∈ ws1.*1) (k ∈ ws1.*1 ++ ws2.*1)); [set_solver|].
Qed.

Lemma preserves_flushed c hs' c' : preserves (λ _, False) c hs' c' → flushed c hs' c' [].
Proof.
  intros [HI HU HS HC HD]. split; try done.
  - by rw HD app_nil_r.
  - intros k. by apply HU.
  - intros k. by apply HU.
  - intros k. simpl. by apply HU.
Qed.

Lemma flushed_preserves c1 hs2 c2 hs3 c3 ws :
  flushed c1 hs2 c2 ws → preserves (λ _, False) c2 hs3 c3 → (∀ h, h ∈ hs3 → h ∈ hs2) →
  flushed c1 hs3 c3 ws.
Proof.
  intros H1 H2 Hsub. rw -(app_nil_r ws). apply (flushed_trans _ hs2 c2); [done| |done].
  by apply preserves_flushed.
Qed.

Lemma preserves_then_flushed c1 hs2 c2 hs3 c3 ws :
  preserves (λ _, False) c1 hs2 c2 → flushed c2 hs3 c3 ws → (∀ h, h ∈ hs3 → h ∈ hs2) →
  flushed c1 hs3 c3 ws.
Proof.
  intros H1 H2 Hsub. change ws with ([] ++ ws). apply (flushed_trans _ hs2 c2); [|done|done].
  by apply preserves_flushed.
Qed.

Lemma guard_write_flushed c hs g :
  cache_inv c hs → g ∈ hs → loaded c g →
  wp (guard_write g) (λ r c', r = Ok tt ∧ flushed c hs c' [(key g, view c (key g))]) c.
Proof.
  intros Hi Hin Hl. eapply wp_mono; [exact (guard_write_wp c hs g Hi Hin Hl)|].
  intros ? c' (-> & HI & HS & HC & HW & HV & HY & HD). split; [done|]. split; try done.
  - intros k. rw HV /= /upd. case_decide as Hk; [by rw Hk|done].
  - intros k. rw HD /= /upd. case_decide as Hk; [by rw Hk|done].
  - intros k. rw HY /=. case_decide as Hk.
    + rw bool_decide_true; [set_solver|done].
    + rw bool_decide_false; [set_solver|done].
Qed.

(** Mutating a block and writing it is one flush. *)
Lemma mutated_flushed c hs c1 hs' c2 g b :
  preserves (λ k, k = key g) c hs c1 → mutated g b c c1 →
  flushed c1 hs' c2 [(key g, view c1 (key g))] → (∀ h, h ∈ hs' → h ∈ hs) →
  flushed c hs' c2 [(key g, b)].
Proof.
  intros [HI HU HS HC HD] (Hv & Hy & Hl & Hd) [I2 S2 C2 W2 V2 D2 Y2] Hsub. rw Hv in W2 V2 D2. split.
  - done.
  - apply (sync_mono_trans _ _ c1); [|done]. by apply (sync_mono_sub hs).
  - congruence.
  - by rw W2 HD.
  - intros k. rw V2 /= /upd. case_decide; [done|]. apply HU. congruence.
  - intros k. rw D2 /= /upd. case_decide; [done|]. apply Hd.
  - intros k. rw Y2 /=. case_bool_decide as Hk; [done|]. apply HU. intros ->. apply Hk. left.
Qed.

(** *** A new cache *)

Lemma new_in_unkeyed n (m : LruMap Z) k v : new_in n = Some m → (Some k, v) ∉ list_ m.
Proof.
  rw /new_in. destruct n as [|n]; [done|]. generalize (S n). intros N [= <-] Hin.
  by apply list_elem_of_fmap in Hin as (? & [=] & _).
Qed.

Lemma cache_new_in_inv d n c :
  cache_new_in d n = Some c →
  cache_inv c [] ∧ (∀ k, cached c k = None) ∧ (∀ k, disk c k = dev_block d k) ∧ capacity c = n.
Proof.
  rw /cache_new_in. destruct (new_in n) as [m|] eqn:Em; [|done]. intros [= <-].
  pose proof (λ k v, new_in_unkeyed n m k v Em) as Hno.
  destruct (new_in_inv n m Em) as [Hlru Hlen]. simpl in Hlru, Hlen.
  assert (∀ v, cell {| device := d; lru := m; cells := ∅ |} v = default_data BLOCK_SIZE) as Hc.
  { intros v. by rw /cell /= lookup_empty. }
  split_and!; [split| |done|done].
  - exact Hlru.
  - intros v. rw Hc. apply zeroes_length.
  - intros k v []%Hno.
  - intros v _. by rw Hc.
  - intros k v []%Hno.
  - intros k v []%Hno.
  - intros k. rw /cached /=. destruct (find_key k _) as [v|] eqn:Ef; [|done].
    by apply find_key_Some, Hno in Ef.
Qed.

End refinement.

(** ** A device in memory *)

Module MemDisk.
Record t := {
  blocks_ : gmap Z (list byte);
  history : list (Z * list byte);
}.
Definition blank : t := {| blocks_ := ∅; history := [] |}.

Section mem.
Context (BLOCK_SIZE : nat).

Definition block (d : t) (k : Z) : list byte := resize BLOCK_SIZE Byte.x00 (default [] (blocks_ d !! k)).

Definition device : BlockDevice t Empty_set := {|
  dev_read k d := Ok (block d k);
  dev_write k b d := Ok {| blocks_ := <[k := b]> (blocks_ d); history := history d ++ [(k, b)] |};
|}.

#[local] Existing Instance device.
Program Definition disk_device : DiskDevice t Empty_set BLOCK_SIZE := {|
  dev_block := block;
  dev_writes := history;
|}.
Next Obligation. done. Qed.
Next Obligation. intros k d. apply length_resize. Qed.
Next Obligation.
  intros k b d Hb. eexists. split_and!; [done|done|]. intros k'. rw /block /= lookup_insert.
  case_decide; [|done]. by rw /= resize_all_alt.
Qed.

Lemma blank_block k : block blank k = zeroes BLOCK_SIZE.
Proof. rw /block /blank /= lookup_empty /=. apply resize_nil. Qed.
End mem.
End MemDisk.
