(* ===== verification/BlockSpec.v ===== *)
(** * What the block cache promises its clients

    The operations of [BlockIo.v] as the commands of a client that holds
    [BlockRef]s and [BlockGuard]s, in the type states the crate's types
    enforce, and the specification they refine: a map from blocks to bytes
    (what readers see) beside the content of the device.  A read observes the
    last mutation of its block, whatever was evicted in between; the device
    changes by [write] only. *)

From S2P Require Import Prelude FsTypes Lru BlockIo.

(** The type states: [BlockRef], [BlockGuard<.., false>], [BlockGuard<.., true>]. *)
Inductive hstate := SRef | SGuard | SValid.

Inductive cmd :=
  | CGet (k : Z)
  | CClone (i : nat)
  | CLock (i : nat)
  | CRead (i : nat)
  | CSetData (i : nat) (b : list byte)
  | CZeroed (i : nat)
  | CBytes (i : nat)
  | CMut (i : nat) (f : list byte → list byte)
  | CWrite (i : nat)
  | CDrop (i : nat).

(** What a command lets its client observe or does to the content. *)
Inductive event :=
  | Saw (k : Z) (b : list byte)
  | Mutated (k : Z) (b : list byte)
  | Wrote (k : Z).

(** ** The specification *)

Record spec := {
  sp_view : Z → list byte;
  sp_disk : Z → list byte;
}.
Definition spec_event (e : event) (σ : spec) : option spec :=
  match e with
  | Saw k b => if decide (sp_view σ k = b) then Some σ else None
  | Mutated k b => Some {| sp_view := upd (sp_view σ) k b; sp_disk := sp_disk σ |}
  | Wrote k => Some {| sp_view := sp_view σ; sp_disk := upd (sp_disk σ) k (sp_view σ k) |}
  end.
Definition spec_run (es : list event) (σ : spec) : option spec :=
  foldl (λ o e, o ≫= spec_event e) (Some σ) es.

Section client.
Context {D E : Type} {BLOCK_SIZE : nat} `{!BlockDevice D E} `{!DiskDevice D E BLOCK_SIZE}.

#[local] Abbreviation cache := (@BlockIoCache D).
#[local] Abbreviation handles := (list (hstate * LruValue Z)).

Record client := {
  cch : cache;
  hdl : handles;
}.

Definition on_cache {A} (m : M cache A) : M client A :=
  zoom cch (λ c s, {| cch := c; hdl := hdl s |}) m.
Definition held (i : nat) : M client (hstate * LruValue Z) :=
  o ← gets (λ s, hdl s !! i); unwrap o.
Definition add_handle (st : hstate) (h : LruValue Z) : M client unit :=
  modify (λ s, {| cch := cch s; hdl := (st, h) :: hdl s |}).
Definition set_handle (i : nat) (st : hstate) (h : LruValue Z) : M client unit :=
  modify (λ s, {| cch := cch s; hdl := <[i := (st, h)]> (hdl s) |}).
Definition drop_handle (i : nat) : M client unit :=
  modify (λ s, {| cch := cch s; hdl := delete i (hdl s) |}).

Definition run_cmd (m : cmd) : M client (list event) :=
  match m with
  | CGet k => h ← on_cache (cache_get k); add_handle SRef h;; mret []
  | CClone i => x ← held i; h ← on_cache (ref_clone x.2); add_handle SRef h;; mret []
  | CLock i => x ← held i; g ← on_cache (block_lock BLOCK_SIZE x.2); add_handle SGuard g;; mret []
  | CRead i =>
      x ← held i; r ← on_cache (guard_read BLOCK_SIZE x.2);
      g ← unwrap_ok r; set_handle i SValid g;; mret []
  | CSetData i b =>
      x ← held i; g ← on_cache (set_data BLOCK_SIZE x.2 b);
      set_handle i SValid g;; mret [Mutated (key g) b]
  | CZeroed i =>
      x ← held i; g ← on_cache (guard_zeroed BLOCK_SIZE x.2);
      set_handle i SValid g;; mret [Mutated (key g) (zeroes BLOCK_SIZE)]
  | CBytes i => x ← held i; b ← on_cache (guard_bytes BLOCK_SIZE x.2); mret [Saw (key x.2) b]
  | CMut i f =>
      x ← held i; on_cache (bytes_mut BLOCK_SIZE x.2 f);;
      b ← on_cache (guard_bytes BLOCK_SIZE x.2); mret [Mutated (key x.2) b]
  | CWrite i =>
      x ← held i; r ← on_cache (guard_write BLOCK_SIZE x.2);
      unwrap_ok r;; mret [Wrote (key x.2)]
  | CDrop i => x ← held i; on_cache (ref_drop x.2);; drop_handle i;; mret []
  end.

Fixpoint run_cmds (ms : list cmd) : M client (list event) :=
  match ms with
  | [] => mret []
  | m :: ms' => es ← run_cmd m; es' ← run_cmds ms'; mret (es ++ es')
  end.

(** What a client has to respect: the type states; room in the cache for the
    blocks it references; a last reference is dropped when its buffer was
    locked and is not dirty. *)
Definition cmd_ok (m : cmd) (s : client) : Prop :=
  match m with
  | CGet k => (size ({[k]} ∪ hkeys (hdl s).*2) ≤ capacity (cch s))%nat
  | CClone i | CLock i => fst <$> hdl s !! i = Some SRef
  | CRead i => fst <$> hdl s !! i = Some SGuard
  | CSetData i b => fst <$> hdl s !! i ∈ [Some SGuard; Some SValid] ∧ length b = BLOCK_SIZE
  | CZeroed i => fst <$> hdl s !! i ∈ [Some SGuard; Some SValid]
  | CBytes i | CWrite i => fst <$> hdl s !! i = Some SValid
  | CMut i f =>
      fst <$> hdl s !! i = Some SValid ∧ ∀ b, length b = BLOCK_SIZE → length (f b) = BLOCK_SIZE
  | CDrop i =>
      match hdl s !! i with
      | Some x => droppable (BLOCK_SIZE := BLOCK_SIZE) (cch s) (delete i (hdl s)).*2 x.2
      | None => False
      end
  end.
Fixpoint cmds_ok (ms : list cmd) (s : client) : Prop :=
  match ms with
  | [] => True
  | m :: ms' => cmd_ok m s ∧
      match run_cmd m s with Ret _ s' => cmds_ok ms' s' | Panic => True end
  end.

(** ** The refinement *)

Definition type_state (c : cache) (x : hstate * LruValue Z) : Prop :=
  match x.1 with
  | SRef => True
  | SGuard => synced (BLOCK_SIZE := BLOCK_SIZE) c x.2
  | SValid => loaded (BLOCK_SIZE := BLOCK_SIZE) c x.2
  end.

Record sim (s : client) (σ : spec) : Prop := {
  sim_inv : cache_inv (BLOCK_SIZE := BLOCK_SIZE) (E := E) (cch s) (hdl s).*2;
  sim_states : Forall (type_state (cch s)) (hdl s);
  sim_view k : view (BLOCK_SIZE := BLOCK_SIZE) (E := E) (cch s) k = sp_view σ k;
  sim_disk k : disk (BLOCK_SIZE := BLOCK_SIZE) (E := E) (cch s) k = sp_disk σ k;
}.

Lemma wp_on_cache {A} (m : M cache A) (Q : A → client → Prop) s :
  wp m (λ a c', Q a {| cch := c'; hdl := hdl s |}) (cch s) → wp (on_cache m) Q s.
Proof. rw /wp /on_cache /zoom. by destruct (m (cch s)). Qed.

Lemma wp_held i x (Q : _ → client → Prop) s : hdl s !! i = Some x → Q x s → wp (held i) Q s.
Proof. intros Hx HQ. rw /held. wp_steps. rw Hx. by wp_steps. Qed.

Lemma held_some i (s : client) st : fst <$> hdl s !! i = Some st → ∃ h, hdl s !! i = Some (st, h).
Proof. destruct (hdl s !! i) as [[st' h]|]; [|done]. intros [= ->]. eauto. Qed.

Lemma held_in i (s : client) x : hdl s !! i = Some x → x.2 ∈ (hdl s).*2.
Proof. intros Hx. apply list_elem_of_fmap. exists x. split; [done|]. by apply list_elem_of_lookup_2 in Hx. Qed.

Lemma held_state i (s : client) σ x : sim s σ → hdl s !! i = Some x → type_state (cch s) x.
Proof. intros Hs Hx. exact (Forall_lookup_1 _ _ _ _ (sim_states _ _ Hs) Hx). Qed.

(** Rebuilding the simulation after a step: handles that were there keep
    their type states. *)
Lemma sim_step P s σ c' hs' σ' :
  sim s σ → preserves (BLOCK_SIZE := BLOCK_SIZE) (E := E) P (cch s) hs'.*2 c' →
  Forall (λ x, x ∈ hdl s ∨ type_state c' x) hs' →
  (∀ k, view c' k = sp_view σ' k) → (∀ k, disk c' k = sp_disk σ' k) →
  sim {| cch := c'; hdl := hs' |} σ'.
Proof.
  intros Hs [HI HU HS _ _] Hh Hv Hd. split; [done| |done|done]. simpl.
  apply Forall_forall. intros [st h] Hin. rw Forall_forall in Hh.
  destruct (Hh _ Hin) as [Hold|]; [|done].
  pose proof (sim_states _ _ Hs) as Hf. rw Forall_forall in Hf. specialize (Hf _ Hold).
  destruct (HS h) as [H1 H2]; [apply list_elem_of_fmap; by exists (st, h)|].
  destruct st; [done|by apply H1|by apply H2].
Qed.

(** A step that changes no content. *)
Lemma sim_step_same s σ c' hs' :
  sim s σ → preserves (BLOCK_SIZE := BLOCK_SIZE) (E := E) (λ _, False) (cch s) hs'.*2 c' →
  Forall (λ x, x ∈ hdl s ∨ type_state c' x) hs' → sim {| cch := c'; hdl := hs' |} σ.
Proof.
  intros Hs HP Hh. apply (sim_step _ s σ _ _ _ Hs HP Hh); intros k;
    destruct (pr_unchanged _ _ _ _ HP k) as (Ev & _ & Ed); [tauto| |tauto|].
  - rw Ev. apply Hs.
  - rw Ed. apply Hs.
Qed.

Lemma sim_step_mut s σ c' hs' h b :
  sim s σ → preserves (BLOCK_SIZE := BLOCK_SIZE) (E := E) (λ k, k = key h) (cch s) hs'.*2 c' →
  mutated (BLOCK_SIZE := BLOCK_SIZE) (E := E) h b (cch s) c' →
  Forall (λ x, x ∈ hdl s ∨ type_state c' x) hs' →
  ∃ σ', spec_run [Mutated (key h) b] σ = Some σ' ∧ sim {| cch := c'; hdl := hs' |} σ'.
Proof.
  intros Hs HP (Hv & _ & _ & Hd) Hh. eexists. split; [reflexivity|].
  apply (sim_step _ s σ _ _ _ Hs HP Hh); intros k; simpl.
  - rw /upd. case_decide as Hk; [by rw -Hk|].
    destruct (pr_unchanged _ _ _ _ HP k) as (-> & _); [congruence|apply Hs].
  - rw Hd. apply Hs.
Qed.

Lemma set_handle_states i st (s : client) (x : hstate * LruValue Z) c' :
  type_state c' (st, x.2) → Forall (λ y, y ∈ hdl s ∨ type_state c' y) (<[i := (st, x.2)]> (hdl s)).
Proof.
  intros Hl. apply Forall_forall. intros y Hy.
  apply elem_of_insert_inv in Hy as [->|]; [by right|by left].
Qed.

Lemma set_handle_snd i st (s : client) (x : hstate * LruValue Z) :
  hdl s !! i = Some x → (<[i := (st, x.2)]> (hdl s)).*2 = (hdl s).*2.
Proof.
  intros Hx. rw list_fmap_insert /=. apply list_insert_id. by rw list_lookup_fmap Hx.
Qed.

Abbreviation refines m s σ :=
  (wp (run_cmd m) (λ es s', ∃ σ', spec_run es σ = Some σ' ∧ sim s' σ') s).

(** A new handle on top of the ones that were there. *)
Lemma sim_add s σ st h c' :
  sim s σ → preserves (BLOCK_SIZE := BLOCK_SIZE) (E := E) (λ _, False) (cch s) (h :: (hdl s).*2) c' →
  type_state c' (st, h) →
  ∃ σ', spec_run [] σ = Some σ' ∧ sim {| cch := c'; hdl := (st, h) :: hdl s |} σ'.
Proof.
  intros Hs HP Hst. exists σ. split; [done|]. apply (sim_step_same s); [done..|].
  constructor; [by right|]. apply Forall_forall. by left.
Qed.

Lemma acquire_refines m s σ :
  sim s σ → cmd_ok m s → match m with CGet _ | CClone _ | CLock _ => True | _ => False end →
  refines m s σ.
Proof.
  intros Hs Hok Hm. pose proof (sim_inv _ _ Hs) as Hi.
  destruct m as [k|i|i|i|i b|i|i|i f|i|i]; try done; simpl in Hok |- *; clear Hm.
  - wp_step. apply wp_on_cache. eapply wp_mono; [by apply (cache_get_wp _ _ k Hi)|].
    intros h c' (<- & HP & _). wp_steps. by apply (sim_add s).
  - apply held_some in Hok as [h Hh]. wp_step. apply (wp_held _ _ _ _ Hh). wp_step. apply wp_on_cache.
    eapply wp_mono; [apply (ref_clone_wp _ _ h Hi); by apply (held_in i _ (SRef, h))|].
    intros ? c' (-> & HP & _). wp_steps. by apply (sim_add s).
  - apply held_some in Hok as [h Hh]. wp_step. apply (wp_held _ _ _ _ Hh). wp_step. apply wp_on_cache.
    eapply wp_mono; [apply (block_lock_wp _ _ h Hi); by apply (held_in i _ (SRef, h))|].
    intros ? c' (-> & HP & Hsy & _). wp_steps. by apply (sim_add s).
Qed.

Lemma guarded_synced i s σ :
  sim s σ → fst <$> hdl s !! i ∈ [Some SGuard; Some SValid] →
  ∃ x, hdl s !! i = Some x ∧ synced (BLOCK_SIZE := BLOCK_SIZE) (cch s) x.2.
Proof.
  intros Hs Hst. destruct (hdl s !! i) as [[st h]|] eqn:Hx; [|set_solver].
  exists (st, h). split; [done|]. pose proof (held_state _ _ _ _ Hs Hx) as Ht.
  destruct st; [set_solver|done|by apply Ht].
Qed.

Lemma transform_refines m s σ :
  sim s σ → cmd_ok m s → match m with CRead _ | CSetData _ _ | CZeroed _ => True | _ => False end →
  refines m s σ.
Proof.
  intros Hs Hok Hm. pose proof (sim_inv _ _ Hs) as Hi.
  destruct m as [k|i|i|i|i b|i|i|i f|i|i]; try done; simpl in Hok |- *; clear Hm.
  - destruct (guarded_synced i s σ Hs) as ([st h] & Hx & Hsy); [rw Hok; set_solver|].
    pose proof (held_in _ _ _ Hx) as Hin. wp_step. apply (wp_held _ _ _ _ Hx). wp_step. apply wp_on_cache.
    eapply wp_mono; [by apply (guard_read_wp _ _ h Hi)|].
    intros ? c' (-> & HP & Hl & _). wp_steps. eexists. split; [done|].
    apply (sim_step_same s); [done| |by apply (set_handle_states i SValid s (st, h))].
    by rw (set_handle_snd i SValid s (st, h)).
  - destruct Hok as [Hst Hb]. destruct (guarded_synced i s σ Hs Hst) as ([st h] & Hx & Hsy).
    pose proof (held_in _ _ _ Hx) as Hin. wp_step. apply (wp_held _ _ _ _ Hx). wp_step. apply wp_on_cache.
    eapply wp_mono; [by apply (set_data_wp _ _ h b Hi)|]. intros ? c' (-> & HP & HM). wp_steps.
    apply (sim_step_mut s); [done| |done|apply (set_handle_states i SValid s (st, h)), HM].
    by rw (set_handle_snd i SValid s (st, h)).
  - destruct (guarded_synced i s σ Hs Hok) as ([st h] & Hx & Hsy).
    pose proof (held_in _ _ _ Hx) as Hin. wp_step. apply (wp_held _ _ _ _ Hx). wp_step. apply wp_on_cache.
    eapply wp_mono; [by apply (guard_zeroed_wp _ _ h Hi)|]. intros ? c' (-> & HP & HM). wp_steps.
    apply (sim_step_mut s); [done| |done|apply (set_handle_states i SValid s (st, h)), HM].
    by rw (set_handle_snd i SValid s (st, h)).
Qed.

Lemma access_refines m s σ :
  sim s σ → cmd_ok m s → match m with CBytes _ | CMut _ _ => True | _ => False end → refines m s σ.
Proof.
  intros Hs Hok Hm. pose proof (sim_inv _ _ Hs) as Hi.
  destruct m as [k|i|i|i|i b|i|i|i f|i|i]; try done; simpl in Hok |- *; clear Hm.
  - apply held_some in Hok as [h Hx]. pose proof (held_state _ _ _ _ Hs Hx) as Hl.
    pose proof (held_in _ _ _ Hx) as Hin. wp_step. apply (wp_held _ _ _ _ Hx). wp_step. apply wp_on_cache.
    rw /guard_bytes. wp_steps. exists σ. rw (loaded_view _ _ _ Hi Hin Hl) (sim_view _ _ Hs).
    rw /spec_run /= decide_True //. split; [done|]. by destruct s.
  - destruct Hok as [Hst Hf]. apply held_some in Hst as [h Hx]. pose proof (held_state _ _ _ _ Hs Hx) as Hl.
    pose proof (held_in _ _ _ Hx) as Hin. wp_step. apply (wp_held _ _ _ _ Hx). wp_step. apply wp_on_cache.
    eapply wp_mono; [apply (bytes_mut_wp _ _ h f Hi Hin Hl)|].
    { apply Hf. rw -(loaded_view _ _ _ Hi Hin Hl). apply Hi. }
    intros ? c' [HP HM]. wp_step. apply wp_on_cache. rw /guard_bytes. wp_steps.
    destruct HM as (Hv & HM). rw (loaded_view c' (hdl s).*2 h); [apply HP|done|apply HM|]. rw Hv.
    apply (sim_step_mut s); [done|done|done|]. apply Forall_forall. by left.
Qed.

Lemma write_refines i s σ : sim s σ → cmd_ok (CWrite i) s → refines (CWrite i) s σ.
Proof.
  intros Hs Hok. pose proof (sim_inv _ _ Hs) as Hi. simpl in Hok |- *.
  apply held_some in Hok as [h Hx]. pose proof (held_state _ _ _ _ Hs Hx) as Hl.
  pose proof (held_in _ _ _ Hx) as Hin. wp_step. apply (wp_held _ _ _ _ Hx). wp_step. apply wp_on_cache.
  eapply wp_mono; [apply (guard_write_wp _ _ h Hi Hin Hl)|].
  intros ? c' (-> & HI & HS & _ & _ & Hv & _ & Hd). wp_steps. eexists. split; [reflexivity|].
  split; simpl; [done| | |].
  - apply Forall_forall. intros [st g] Hg. pose proof (sim_states _ _ Hs) as Hf. rw Forall_forall in Hf.
    specialize (Hf _ Hg). destruct (HS g) as [H1 H2]; [apply list_elem_of_fmap; by exists (st, g)|].
    destruct st; [done|by apply H1|by apply H2].
  - intros k. rw Hv. apply Hs.
  - intros k. rw Hd /upd. case_decide as Hk; [|apply Hs]. rw Hk. apply Hs.
Qed.

Lemma drop_refines i s σ : sim s σ → cmd_ok (CDrop i) s → refines (CDrop i) s σ.
Proof.
  intros Hs Hok. pose proof (sim_inv _ _ Hs) as Hi. simpl in Hok |- *.
  destruct (hdl s !! i) as [x|] eqn:Hx; [rename Hok into Hdr|done].
  pose proof (delete_Permutation _ _ _ Hx) as Hp.
  wp_step. apply (wp_held _ _ _ _ Hx). wp_step. apply wp_on_cache.
  eapply wp_mono; [apply (ref_drop_wp _ (delete i (hdl s)).*2 x.2); [|done]|].
  { by rw Hp in Hi. }
  intros ? c' [HP _]. wp_steps. eexists. split; [done|]. apply (sim_step_same s); [done..|].
  apply Forall_forall. intros y Hy. left. rw Hp. set_solver.
Qed.

(** Each command does what the specification allows, without panicking. *)
Lemma run_cmd_refines m s σ : sim s σ → cmd_ok m s → refines m s σ.
Proof.
  intros Hs Hok. destruct m;
    [apply acquire_refines|apply acquire_refines|apply acquire_refines|apply transform_refines
    |apply transform_refines|apply transform_refines|apply access_refines|apply access_refines
    |apply write_refines|apply drop_refines]; done.
Qed.

(** C3: a client that respects the type states, keeps its blocks within the
    capacity of the cache and drops no last reference to a dirty or unlocked
    buffer never panics, and all it observes is explained by the specification:
    every read gives the bytes of the last mutation of that block (of the
    device, when there was none), and the device holds what was written. *)
Theorem cache_refines ms s σ :
  sim s σ → cmds_ok ms s →
  wp (run_cmds ms) (λ es s', ∃ σ', spec_run es σ = Some σ' ∧ sim s' σ') s.
Proof.
  revert s σ. induction ms as [|m ms IH]; intros s σ Hs Hok; simpl.
  - wp_steps. by exists σ.
  - destruct Hok as [Hm Hms]. wp_step.
    destruct (wp_run _ _ _ (run_cmd_refines m s σ Hs Hm)) as (es & s1 & E1 & σ1 & Hr1 & Hs1).
    rw E1 in Hms. apply (wp_of_run _ _ _ es s1 E1). wp_step.
    eapply wp_mono; [apply (IH s1 σ1 Hs1 Hms)|]. intros es' s2 (σ2 & Hr2 & Hs2). wp_steps.
    exists σ2. split; [|done]. rw /spec_run foldl_app. rw /spec_run in Hr1. by rw Hr1.
Qed.
End client.

(** ** An execution *)

Module Example.
#[local] Instance dev2 : BlockDevice MemDisk.t Empty_set := MemDisk.device 2.
#[local] Instance disk2 : DiskDevice MemDisk.t Empty_set 2 := MemDisk.disk_device 2.

(** Two buffers of two bytes over a blank disk. *)
Definition start : @client (MemDisk.t) :=
  {| cch := default {| device := MemDisk.blank; lru := {| list_ := []; strong := ∅ |}; cells := ∅ |}
       (cache_new_in MemDisk.blank 2);
     hdl := [] |}.
Definition blank_spec : spec :=
  {| sp_view := λ _, zeroes 2; sp_disk := λ _, zeroes 2 |}.
(** Block 5 is mutated and written, evicted by two other blocks, read again. *)
Definition script : list cmd :=
  [CGet 5; CLock 0; CRead 0; CMut 0 (λ _, [Byte.x41; Byte.x42]); CWrite 0; CDrop 0; CDrop 0;
   CGet 6; CLock 0; CZeroed 0; CWrite 0; CDrop 0; CDrop 0;
   CGet 7; CLock 0; CRead 0; CBytes 0; CDrop 0; CDrop 0;
   CGet 5; CLock 0; CRead 0; CBytes 0].

Lemma start_sim : sim (E := Empty_set) (BLOCK_SIZE := 2) start blank_spec.
Proof.
  destruct (cache_new_in_inv (E := Empty_set) (BLOCK_SIZE := 2) MemDisk.blank 2 (cch start)) as (HI & HV & HD & _); [done|].
  split; [done|by apply Forall_nil| |]; intros k.
  - rw /view HV HD. exact (MemDisk.blank_block 2 k).
  - rw HD. exact (MemDisk.blank_block 2 k).
Qed.

Lemma cache_refines_witness :
  cmds_ok (E := Empty_set) (BLOCK_SIZE := 2) script start ∧
  wp (run_cmds (E := Empty_set) (BLOCK_SIZE := 2) script) (λ es s', ∃ σ', spec_run es blank_spec = Some σ' ∧
    sim (E := Empty_set) (BLOCK_SIZE := 2) s' σ') start.
Proof.
  assert (cmds_ok (E := Empty_set) (BLOCK_SIZE := 2) script start) as Hok.
  { vm_compute. repeat split; try lia; try (by left; constructor); try (by right; repeat split). }
  split; [done|]. apply cache_refines; [apply start_sim|done].
Defined.

(** The side condition on drops is needed: block 5 is cached, its buffer is taken
    by a [get 6] that is dropped without a lock, and comes back to block 5 after
    another buffer changed it.  The script respects everything else. *)
Definition read_of (k : Z) : list cmd := [CGet k; CLock 0; CRead 0; CBytes 0; CDrop 0; CDrop 0].
Definition stale_script : list cmd :=
  read_of 5 ++ read_of 8 ++ [CGet 6; CDrop 0] ++
  [CGet 5; CLock 0; CRead 0; CMut 0 (λ _, [Byte.x41; Byte.x42]); CWrite 0; CDrop 0; CDrop 0] ++
  [CGet 7; CGet 9; CDrop 1; CDrop 0] ++ read_of 5.
Definition events (r : outcome (client (D := MemDisk.t)) (list event)) : list event :=
  match r with Ret es _ => es | Panic => [] end.

(** without that condition a read can return old data: after block 5 was
    mutated and written, a reader of block 5 sees its previous content. *)
Theorem unlocked_drop_stale :
  events (run_cmds (E := Empty_set) (BLOCK_SIZE := 2) stale_script start) =
  [Saw 5 (zeroes 2); Saw 8 (zeroes 2); Mutated 5 [Byte.x41; Byte.x42]; Wrote 5; Saw 5 (zeroes 2)].
Proof. vm_compute. reflexivity. Qed.
End Example.

(** ** Failing devices *)

Section failure.
Context {D E : Type} (BLOCK_SIZE : nat) `{!BlockDevice D E}.

(** a read that fails in the device leaves the buffer marked valid, so that
    the next [read] of that guard succeeds, with the bytes the buffer happened
    to hold, whatever the device would answer. *)
Theorem failed_read_poisons (c : @BlockIoCache D) (g : BlockGuard) (e : E) :
  valid (cell BLOCK_SIZE c (value g)) = false → dev_read (key g) (device c) = Err e →
  wp (guard_read (E := E) BLOCK_SIZE g) (λ r c', r = Err (g, e) ∧
    ∀ d : D, wp (guard_read (E := E) BLOCK_SIZE g) (λ r c'', r = Ok g ∧
      data (cell BLOCK_SIZE c'' (value g)) = data (cell BLOCK_SIZE c (value g))) (set_device d c')) c.
Proof.
  intros Hv He. rw /guard_read. wp_step. wp_step. rw Hv. wp_steps. rw He. wp_steps. split; [done|].
  intros d. wp_step. wp_step.
  assert (∀ d0, cell BLOCK_SIZE (set_device d (set_cell (value g) d0 c)) (value g) = d0) as Hc.
  { intros d0. by rw /cell /= lookup_insert_eq. }
  rw Hc. simpl. rw /reguard /ref_clone /ref_drop. wp_steps. split; [done|].
  by rw /cell /= lookup_insert_eq.
Qed.
End failure.

(** A device whose reads fail. *)
Lemma failed_read_poisons_witness :
  let dev := {| dev_read _ _ := Err tt; dev_write _ _ (d : unit) := Ok d |} in
  let c := {| device := tt; lru := {| list_ := [(Some 3, 0%nat)]; strong := {[0%nat := 2]} |};
              cells := {[0%nat := {| index := 3; valid := false; dirty := true; data := [Byte.x07] |}]} |} in
  wp (guard_read (E := unit) 1 {| key := 3; value := 0%nat |}) (λ r c', r = Err ({| key := 3; value := 0%nat |}, tt) ∧
    ∀ d : unit, wp (guard_read (E := unit) 1 {| key := 3; value := 0%nat |}) (λ r c'', r = Ok {| key := 3; value := 0%nat |} ∧
      data (cell 1 c'' 0%nat) = [Byte.x07]) (set_device d c')) c.
Proof.
  intros dev c. apply (failed_read_poisons 1 c {| key := 3; value := 0%nat |} tt); reflexivity.
Defined.
