(* ===== verification/Store.v ===== *)
(** * The block store the file system runs on

    The code above the log ([fs/data_block.rs], [fs/inode/*.rs]) reaches the disk
    through a transaction only: [tx.get_block(dev, bn).lock().read()] followed by
    reads or mutations of the data, and [.zeroed()].  [TxStore] is that interface
    and [TxStoreLaws] what it promises: a map from blocks to bytes, as long as
    the blocks changed are among those the transaction has room for.  [LogStore.v]
    discharges the interface for the log; the plain disk below is its simplest
    instance. *)

From S2P Require Import Prelude FsTypes BlockIo.

Class TxStore (S : Type) := {
  st_read : Z → M S (list byte);
  st_update : Z → (list byte → list byte) → M S unit;
  st_zero : Z → M S unit;
}.

Class TxStoreLaws (S : Type) `{!TxStore S} := {
  st_view : S → Z → list byte;
  (** the transaction may change the blocks of the set *)
  st_ok : gset Z → S → Prop;
  st_view_block bs s k : st_ok bs s → is_block (st_view s k);
  st_read_law bs s k :
    st_ok bs s →
    wp (st_read k) (λ b s', b = st_view s k ∧ st_ok bs s' ∧
      ∀ j, st_view s' j = st_view s j) s;
  st_update_law bs s k f :
    st_ok bs s → k ∈ bs → is_block (f (st_view s k)) →
    wp (st_update k f) (λ _ s', st_ok bs s' ∧
      ∀ j, st_view s' j = upd (st_view s) k (f (st_view s k)) j) s;
  st_zero_law bs s k :
    st_ok bs s → k ∈ bs →
    wp (st_zero k) (λ _ s', st_ok bs s' ∧
      ∀ j, st_view s' j = upd (st_view s) k zero_block j) s;
}.

(** ** The store as a map of blocks *)

Section stored.
Context {S : Type} `{!TxStore S} `{!TxStoreLaws S}.
Implicit Types (v : Z → list byte) (s : S) (bs : gset Z).

Definition stored bs v s : Prop := st_ok bs s ∧ ∀ k, st_view s k = v k.

Lemma stored_block bs v s k : stored bs v s → is_block (v k).
Proof. intros [Hok Hv]. rw -Hv. by apply (st_view_block bs). Qed.

Lemma stored_ext bs v v' s : stored bs v s → (∀ k, v k = v' k) → stored bs v' s.
Proof. intros [Hok Hv] He. split; [done|]. intros k. by rw Hv. Qed.

Lemma stored_read bs v s k :
  stored bs v s → wp (st_read k) (λ b s', b = v k ∧ stored bs v s') s.
Proof.
  intros [Hok Hv]. eapply wp_mono; [by apply (st_read_law bs)|].
  intros b s' (-> & Hok' & Hv'). split; [done|]. split; [done|]. intros j. by rw Hv'.
Qed.

Lemma stored_update bs v s k f :
  stored bs v s → k ∈ bs → is_block (f (v k)) →
  wp (st_update k f) (λ _ s', stored bs (upd v k (f (v k))) s') s.
Proof.
  intros [Hok Hv] Hk Hf. eapply wp_mono; [apply (st_update_law bs _ _ f); [done..|by rw Hv]|].
  intros ? s' (Hok' & Hv'). split; [done|]. intros j. rw Hv' /upd. by case_decide; rw Hv.
Qed.

Lemma stored_zero bs v s k :
  stored bs v s → k ∈ bs → wp (st_zero k) (λ _ s', stored bs (upd v k zero_block) s') s.
Proof.
  intros [Hok Hv] Hk. eapply wp_mono; [by apply (st_zero_law bs)|].
  intros ? s' (Hok' & Hv'). split; [done|]. intros j. rw Hv' /upd. by case_decide.
Qed.
End stored.

(** ** A plain disk *)

Module PlainDisk.
Definition t : Type := gmap Z (list byte).
Definition block (d : t) (k : Z) : list byte := default zero_block (d !! k).

#[export] Instance store : TxStore t := {
  st_read k := gets (λ d, block d k);
  st_update k f := modify (λ d, <[k := f (block d k)]> d);
  st_zero k := modify (<[k := zero_block]>);
}.

Definition wf (d : t) : Prop := ∀ k, is_block (block d k).

Lemma block_insert (d : t) k b j : block (<[k := b]> d) j = upd (block d) k b j.
Proof. rw /block /upd lookup_insert. by case_decide. Qed.

#[export] Program Instance store_laws : TxStoreLaws t := {
  st_view := block;
  st_ok _ := wf;
}.
Next Obligation. done. Qed.
Next Obligation. intros bs s k Hok. wp_steps. done. Qed.
Next Obligation.
  intros bs s k f Hok _ Hf. wp_steps. split; [|apply block_insert].
  intros j. rw block_insert /upd. case_decide; [done|apply Hok].
Qed.
Next Obligation.
  intros bs s k Hok _. wp_steps. split; [|apply block_insert].
  intros j. rw block_insert /upd. case_decide; [auto with ov6|apply Hok].
Qed.
End PlainDisk.
