(* ===== verification/Log.v ===== *)
(** * The log

    Model of [crates/kernel/ov6_kernel/src/fs/log.rs] and of [get] in
    [fs/block_io.rs], on top of [BlockIo.v].  The methods of [LogHeader] work on
    the list of the [BlockRef]s it pins and on the cache; [Log] adds
    [outstanding] and the header, [None] while a commit runs.  The operations
    of a transaction ([Tx], [TxBlockRef], [TxBlockGuard]) are operations on that
    state; the drop of a guard logs its block when it is dirty.

    [log_inv] is the invariant between the operations: every dirty block is
    pinned by the log, within the bounds of the log. *)

From S2P Require Import Prelude Pod FsTypes Lru BlockIo.

Abbreviation BS := (Z.to_nat FS_BLOCK_SIZE).
Abbreviation lock_ := (block_lock BS).

Section log.
Context {D E : Type} `{!BlockDevice D E} (dev : Z) (sb : SuperBlock).

#[local] Abbreviation cache := (@BlockIoCache D).

(** ** [block_io::get] *)
Definition block_io_get (dev k : Z) : M cache BlockRef :=
  if dev =? ROOT_DEV then cache_get k else panic.

(** [let Ok(bg) = g.read()]: the device's error type is [Infallible]. *)
Definition read_ (g : BlockGuard) : M cache BlockGuard :=
  r ← guard_read BS g; unwrap_ok r.
(** [let Ok(()) = g.write()]. *)
Definition write_ (g : BlockGuard) : M cache unit :=
  r ← guard_write BS g; unwrap_ok r.

(** ** [LogHeader] *)

(** [LogHeader::new]. *)
Definition header_new : M cache (list BlockRef) :=
  assert_ (max_log_len sb <=? LOG_SIZE);; mret [].

(** [LogHeader::push]; the push on the [ArrayVec] panics when it is full. *)
Definition push (blocks : list BlockRef) (b : BlockRef) : M cache (list BlockRef) :=
  assert_ (Z.of_nat (length blocks) <? max_log_len sb);;
  if forallb (λ h, negb (key h =? key b)) blocks then
    h ← ref_clone b;
    assert_ (Z.of_nat (length blocks) <? LOG_SIZE);;
    mret (blocks ++ [h])
  else mret blocks.

(** The loop of [LogHeader::read]. *)
Fixpoint push_all (blocks : list BlockRef) (bns : list Z) : M cache (list BlockRef) :=
  match bns with
  | [] => mret blocks
  | bn :: bns' =>
      br ← block_io_get dev bn;
      blocks' ← push blocks br;
      ref_drop br;;
      push_all blocks' bns'
  end.

(** [LogHeader::read]. *)
Definition header_read (blocks : list BlockRef) : M cache (list BlockRef) :=
  assert_ (bool_decide (blocks = []));;
  bh ← block_io_get dev (log_header_block sb);
  bg ← lock_ bh;
  bg ← read_ bg;
  b ← guard_bytes BS bg;
  idx ← block_indices (pof pod_log_header b);
  blocks' ← push_all blocks idx;
  ref_drop bg;;
  ref_drop bh;;
  mret blocks'.

(** [LogHeader::write_log_body], from index [i] on. *)
Fixpoint write_log_body (i : Z) (blocks : list BlockRef) : M cache unit :=
  match blocks with
  | [] => mret tt
  | br :: blocks' =>
      bg ← lock_ br;
      bg ← read_ bg;
      log_br ← block_io_get dev (log_body_block sb i);
      b ← guard_bytes BS bg;
      log_bg ← lock_ log_br;
      log_bg ← set_data BS log_bg b;
      write_ log_bg;;
      ref_drop log_bg;; ref_drop log_br;; ref_drop bg;;
      write_log_body (i + 1) blocks'
  end.

(** The loop of [LogHeader::write_log_head] over the header in the buffer. *)
Fixpoint set_indices (h : DiskLogHeader) (i : Z) (bns : list Z) : M cache DiskLogHeader :=
  match bns with
  | [] => mret h
  | bn :: bns' =>
      v ← unwrap (try_from 32 bn);
      h' ← block_indices_mut h i v;
      set_indices h' (i + 1) bns'
  end.

(** [LogHeader::write_log_head]. *)
Definition write_log_head (blocks : list BlockRef) : M cache unit :=
  br ← block_io_get dev (log_header_block sb);
  bg ← lock_ br;
  bg ← guard_zeroed BS bg;
  b ← guard_bytes BS bg;
  h ← lh_set_len (pof pod_log_header b) (Z.of_nat (length blocks));
  h ← set_indices h 0 (key <$> blocks);
  bytes_mut BS bg (λ _, pto pod_log_header h);;
  write_ bg;;
  ref_drop bg;;
  ref_drop br.

(** [LogHeader::install_transaction]. *)
Fixpoint install_transaction (blocks : list BlockRef) : M cache (list BlockRef) :=
  match blocks with
  | [] => mret []
  | br :: blocks' =>
      bg ← lock_ br;
      bg ← read_ bg;
      write_ bg;;
      ref_drop bg;;
      ref_drop br;;
      install_transaction blocks'
  end.

(** [LogHeader::recover_from_log] and [LogHeader::commit]. *)
Definition recover_from_log (blocks : list BlockRef) : M cache (list BlockRef) :=
  blocks ← header_read blocks;
  blocks ← install_transaction blocks;
  write_log_head blocks;;
  mret blocks.

Definition commit (blocks : list BlockRef) : M cache (list BlockRef) :=
  if bool_decide (blocks = []) then mret blocks
  else
    write_log_body 0 blocks;;
    write_log_head blocks;;
    blocks' ← install_transaction blocks;
    assert_ (bool_decide (blocks' = []));;
    write_log_head blocks';;
    mret blocks'.

(** ** [Log] *)

Record Log := {
  io : cache;
  header : option (list BlockRef);
  outstanding : Z;
}.
Definition on_io {A} (m : M cache A) : M Log A :=
  zoom io (λ c s, {| io := c; header := header s; outstanding := outstanding s |}) m.
Definition set_header (h : option (list BlockRef)) : M Log unit :=
  modify (λ s, {| io := io s; header := h; outstanding := outstanding s |}).
Definition set_outstanding (n : Z) : M Log unit :=
  modify (λ s, {| io := io s; header := header s; outstanding := n |}).

(** [Log::new]. *)
Definition log_new : M cache Log :=
  blocks ← header_new;
  blocks ← recover_from_log blocks;
  c ← get;
  mret {| io := c; header := Some blocks; outstanding := 0 |}.

(** One round of the loops of [begin_op] and [force_begin_op], under the lock:
    whether the operation starts ([true]) or waits on the condition variable. *)
Definition begin_op : M Log bool :=
  s ← get;
  match header s with
  | None => mret false
  | Some blocks =>
      let n := wrap 64 (outstanding s + 1) in
      if LOG_SIZE <? wrap 64 (Z.of_nat (length blocks) + wrap 64 (n * MAX_OP_BLOCKS))
      then mret false
      else set_outstanding n;; mret true
  end.

(** The two critical sections of [end_op]: [end_op] decrements [outstanding] and
    takes the header when it reaches zero; the header is committed without the
    lock and put back by [finish_commit]. *)
Definition end_op : M Log (option (list BlockRef)) :=
  s ← get;
  set_outstanding (wrap 64 (outstanding s - 1));;
  assert_ (bool_decide (is_Some (header s)));;
  if wrap 64 (outstanding s - 1) =? 0
  then set_header None;; mret (header s)
  else mret None.
Definition finish_commit (blocks : list BlockRef) : M Log unit :=
  h ← gets header;
  assert_ (bool_decide (h = None));;
  set_header (Some blocks).
(** [end_op] as a whole. *)
Definition end_op_commit : M Log unit :=
  h ← end_op;
  match h with
  | Some blocks => blocks' ← on_io (commit blocks); finish_commit blocks'
  | None => mret tt
  end.

(** [Log::write]; [b.block()] is a clone that dies with the statement. *)
Definition log_write (g : BlockGuard) : M Log unit :=
  h ← gets header;
  blocks ← unwrap h;
  n ← gets outstanding;
  assert_ (0 <? n);;
  br ← on_io (ref_clone g);
  blocks' ← on_io (push blocks br);
  on_io (ref_drop br);;
  set_header (Some blocks').

(** ** Transactions *)

(** [Tx::get_block] and [TxBlockRef::lock]. *)
Definition get_block (dev bn : Z) : M Log BlockRef := on_io (block_io_get dev bn).
Definition tx_lock (h : BlockRef) : M Log BlockGuard := on_io (lock_ h).
(** [TxBlockGuard::read] and [TxBlockGuard::zeroed]. *)
Definition tx_read (g : BlockGuard) : M Log BlockGuard := on_io (read_ g).
Definition tx_zeroed (g : BlockGuard) : M Log BlockGuard := on_io (guard_zeroed BS g).
(** The drop of a [TxBlockGuard]. *)
Definition tx_guard_drop (read_only : bool) (g : BlockGuard) : M Log unit :=
  d ← on_io (is_dirty BS g);
  (if (d : bool) then
     r ← on_io (try_validate BS g);
     match r : result BlockGuard BlockGuard with
     | Ok g => if read_only then mret tt else log_write g
     | Err _ => mret tt
     end
   else mret tt);;
  on_io (ref_drop g).

(** The life of a block reference in a transaction, as the file system code
    uses it: [tx.get_block(dev, bn).lock().read()] and a look at the data, a
    mutation of the data, or [zeroed()] in place of [read()]. *)
Definition with_block (read_only : bool) (bn : Z) (zero : bool)
    (f : option (list byte → list byte)) : M Log (list byte) :=
  h ← get_block dev bn;
  g ← tx_lock h;
  g ← (if zero then tx_zeroed g else tx_read g);
  (match f with Some f => on_io (bytes_mut BS g f) | None => mret tt end);;
  b ← on_io (guard_bytes BS g);
  tx_guard_drop read_only g;;
  on_io (ref_drop h);;
  mret b.
Definition block_read (bn : Z) : M Log (list byte) := with_block false bn false None.
Definition block_update (bn : Z) (f : list byte → list byte) : M Log unit :=
  with_block false bn false (Some f);; mret tt.
Definition block_zero (bn : Z) : M Log unit := with_block false bn true None;; mret tt.
End log.

(** ** Correctness *)

(** The log area lies in the [u32] range and its length fits the header. *)
Record log_geometry (sb : SuperBlock) : Prop := {
  lg_start : 0 ≤ logstart sb;
  lg_len : 0 < nlog sb ≤ LOG_SIZE;
  lg_end : logstart sb + nlog sb ≤ 2 ^ 32;
}.

Section correct.
Context {D E : Type} `{!BlockDevice D E} `{!DiskDevice D E BS} (sb : SuperBlock).

#[local] Abbreviation cache := (@BlockIoCache D).
#[local] Abbreviation cell := (cell BS).
#[local] Abbreviation dirty_at := (dirty_at BS).
#[local] Abbreviation view := (view (E := E) (BLOCK_SIZE := BS)).
#[local] Abbreviation disk := (disk (E := E) (BLOCK_SIZE := BS)).
#[local] Abbreviation cache_inv := (cache_inv (E := E) (BLOCK_SIZE := BS)).
#[local] Abbreviation flushed := (flushed (E := E) (BLOCK_SIZE := BS)).
#[local] Abbreviation preserves := (preserves (E := E) (BLOCK_SIZE := BS)).
#[local] Abbreviation synced := (synced (BLOCK_SIZE := BS)).
#[local] Abbreviation loaded := (loaded (BLOCK_SIZE := BS)).
#[local] Abbreviation block_io_get := (block_io_get ROOT_DEV).
#[local] Abbreviation same := (preserves (λ _, False)).
#[local] Abbreviation Log := (@Log D).
Implicit Types (c : cache) (h g br : LruValue Z) (hs blocks : list (LruValue Z)) (k : Z).

(** *** Sequences on one block *)

Lemma get_wp c hs k :
  cache_inv c hs → (size ({[k]} ∪ hkeys hs) ≤ capacity c)%nat →
  wp (block_io_get k) (λ h c', key h = k ∧ same c (h :: hs) c') c.
Proof.
  intros Hi Hr. rw /block_io_get /=. eapply wp_mono; [exact (cache_get_wp c hs k Hi Hr)|].
  naive_solver.
Qed.

Lemma lock_wp c hs h :
  cache_inv c hs → h ∈ hs →
  wp (lock_ h) (λ g c', g = h ∧ same c (h :: hs) c' ∧ synced c' h) c.
Proof.
  intros Hi Hin. eapply wp_mono; [exact (block_lock_wp c hs h Hi Hin)|]. naive_solver.
Qed.

Lemma read_wp c hs g :
  cache_inv c hs → g ∈ hs → synced c g →
  wp (read_ (E := E) g) (λ g' c', g' = g ∧ same c hs c' ∧ loaded c' g) c.
Proof.
  intros Hi Hin Hs. rw /read_. wp_step.
  eapply wp_mono; [exact (guard_read_wp c hs g Hi Hin Hs)|].
  intros ? c' (-> & HP & Hl & _). wp_steps. by split_and!.
Qed.

Lemma write_wp c hs g :
  cache_inv c hs → g ∈ hs → loaded c g →
  wp (write_ (E := E) g) (λ _ c', flushed c hs c' [(key g, view c (key g))] ∧ loaded c' g) c.
Proof.
  intros Hi Hin Hl. rw /write_. wp_step.
  eapply wp_mono; [exact (guard_write_flushed c hs g Hi Hin Hl)|].
  intros ? c' [-> HF]. wp_steps. split; [done|]. by apply (fl_sync _ _ _ _ HF).
Qed.

Lemma bytes_wp c hs g :
  cache_inv c hs → g ∈ hs → loaded c g →
  wp (guard_bytes BS g) (λ b c', b = view c (key g) ∧ c' = c) c.
Proof.
  intros Hi Hin Hl. rw /guard_bytes. wp_steps. split; [|done]. exact (loaded_view c hs g Hi Hin Hl).
Qed.

(** Dropping a reference that is not the last one, and the last one. *)
Lemma drop_wp c hs h :
  cache_inv c (h :: hs) → h ∈ hs → wp (ref_drop h) (λ _ c', same c hs c') c.
Proof.
  intros Hi Hin. eapply wp_mono; [apply (ref_drop_wp c hs h Hi); by left|]. naive_solver.
Qed.

Lemma drop_clean_wp c hs h :
  cache_inv c (h :: hs) → loaded c h → dirty_at c (key h) = false →
  wp (ref_drop h) (λ _ c', same c hs c') c.
Proof.
  intros Hi Hl Hd. eapply wp_mono; [apply (ref_drop_wp c hs h Hi)|naive_solver].
  right. split; [apply Hl|]. intros _. rw (loaded_dirty c (h :: hs) h Hi) //. left.
Qed.

(** Dropping the guard and the reference of a block that was just written. *)
Lemma drop_both_wp c hs g :
  cache_inv c (g :: g :: hs) → loaded c g → dirty_at c (key g) = false →
  wp (ref_drop g;; ref_drop g) (λ _ c', same c hs c') c.
Proof.
  intros Hi Hl Hd. wp_step. eapply wp_mono; [apply (drop_wp c (g :: hs) g Hi); left|].
  intros ? c1 HP1. eapply wp_mono; [apply (drop_clean_wp c1 hs g)|].
  - apply HP1.
  - apply (pr_sync _ _ _ _ HP1); [left|done].
  - destruct (pr_unchanged _ _ _ _ HP1 (key g)) as (_ & -> & _); [tauto|done].
  - intros ? c2 HP2. eapply (preserves_trans _ _ _ c1); [exact HP1|exact HP2|]. set_solver.
Qed.

Lemma drop_both_k {A} c hs g (m : M cache A) Q :
  cache_inv c (g :: g :: hs) → loaded c g → dirty_at c (key g) = false →
  (∀ c', same c hs c' → wp m Q c') → wp (ref_drop g;; ref_drop g;; m) Q c.
Proof.
  intros Hi Hl Hd Hm. pose proof (drop_both_wp c hs g Hi Hl Hd) as H. revert H Hm.
  rw /wp /mbind /M_bind. destruct (ref_drop g c) as [? c1|]; [|done].
  destruct (ref_drop g c1) as [? c2|]; [|done]. intros HP Hm. by apply Hm.
Qed.

(** *** Room in the cache *)

Lemma room_any hs k n : (size (hkeys hs) < n)%nat → (size ({[k]} ∪ hkeys hs) ≤ n)%nat.
Proof. intros H. pose proof (size_union_alt {[k]} (hkeys hs)) as E1. rw E1 size_singleton.
  pose proof (subseteq_size (hkeys hs ∖ {[k]}) (hkeys hs)). set_solver by lia. Qed.

Lemma hkeys_absorb h hs : h ∈ hs → hkeys (h :: hs) = hkeys hs.
Proof.
  intros Hin. apply leibniz_equiv. rw hkeys_cons. intros k. rw elem_of_union elem_of_singleton.
  rw elem_of_hkeys. naive_solver.
Qed.

(** *** The phases of a commit *)

(** The blocks of the log body, from index [i] on. *)
Fixpoint body_writes (i : Z) (v : Z → list byte) blocks : list (Z * list byte) :=
  match blocks with
  | [] => []
  | br :: blocks' => (log_body_block sb i, v (key br)) :: body_writes (i + 1) v blocks'
  end.

Lemma body_writes_ext i v v' blocks :
  (∀ br, br ∈ blocks → v (key br) = v' (key br)) → body_writes i v blocks = body_writes i v' blocks.
Proof.
  revert i. induction blocks as [|br blocks IH]; intros i H; simpl; [done|].
  rw H; [left|]. f_equal. apply IH. set_solver.
Qed.

(** The writes of one round. *)
Lemma write_body_block_wp {A} c hs g k (m : M cache A) Q :
  cache_inv c (g :: hs) → g ∈ hs → loaded c g → (size (hkeys hs) < capacity c)%nat →
  (∀ c', flushed c (g :: hs) c' [(k, view c (key g))] → wp m Q c') →
  wp (log_br ← block_io_get k;
      b ← guard_bytes BS g;
      log_bg ← lock_ log_br;
      log_bg ← set_data BS log_bg b;
      write_ (E := E) log_bg;;
      ref_drop log_bg;; ref_drop log_br;; m) Q c.
Proof.
  intros Hi Hin Hl Hroom Hm. wp_step.
  eapply wp_mono; [apply (get_wp c (g :: hs) k Hi)|].
  { rw hkeys_absorb //. by apply room_any. }
  intros h c1 [<- P1]. wp_step.
  eapply wp_mono; [apply (bytes_wp c1 (h :: g :: hs) g); [apply P1|set_solver|]|].
  { apply (pr_sync _ _ _ _ P1); [set_solver|done]. }
  intros b c1' [Hb ->]. wp_step.
  eapply wp_mono; [apply (lock_wp c1 (h :: g :: hs) h); [apply P1|left]|].
  intros ? c2 (-> & P2 & Hs2). wp_step.
  assert (view c1 (key g) = view c (key g)) as Hv by (apply P1; tauto).
  assert (length b = BS) as Hlen.
  { rw Hb Hv -(loaded_view c (g :: hs) g) //; [left|]. apply Hi. }
  eapply wp_mono; [apply (set_data_wp c2 (h :: h :: g :: hs) h b); [apply P2|left|done|done]|].
  intros ? c3 (-> & P3 & M3). wp_step.
  eapply wp_mono; [apply (write_wp c3 (h :: h :: g :: hs) h); [apply P3|left|apply M3]|].
  intros ? c4 [F4 L4].
  pose proof (mutated_flushed _ _ _ _ _ _ _ P3 M3 F4 (λ _ H, H)) as F34.
  apply (drop_both_k c4 (g :: hs) h); [apply F4|done| |].
  { rw (fl_dirty _ _ _ _ F4). rw bool_decide_true //. simpl. left. }
  intros c5 P5. rw Hb Hv in F34. apply Hm.
  apply (preserves_then_flushed _ (h :: g :: hs) c1); [done| |set_solver].
  apply (preserves_then_flushed _ (h :: h :: g :: hs) c2); [done| |set_solver].
  apply (flushed_preserves _ (h :: h :: g :: hs) c4); [done|done|set_solver].
Qed.

Lemma write_log_body_wp blocks c hs i :
  cache_inv c hs → (∀ br, br ∈ blocks → br ∈ hs) → (size (hkeys hs) < capacity c)%nat →
  (∀ br j, br ∈ blocks → i ≤ j < i + Z.of_nat (length blocks) → key br ≠ log_body_block sb j) →
  wp (write_log_body (E := E) ROOT_DEV sb i blocks)
    (λ _ c', flushed c hs c' (body_writes i (view c) blocks)) c.
Proof.
  revert c i. induction blocks as [|br blocks IH]; intros c i Hi Hin Hroom Hne; simpl.
  - wp_steps. by apply preserves_flushed.
  - wp_step. eapply wp_mono; [apply (lock_wp c hs br Hi), Hin; left|].
    intros ? c1 (-> & P1 & Hs1). wp_step.
    eapply wp_mono; [apply (read_wp c1 (br :: hs) br); [apply P1|left|done]|].
    intros ? c2 (-> & P2 & L2).
    pose proof (preserves_trans _ _ _ _ _ _ P1 P2 (λ _ H, H)) as P12.
    apply (write_body_block_wp c2 hs br); [apply P2|apply Hin; left|done|by rw (pr_capacity _ _ _ _ P12)|].
    intros c3 F3. wp_step.
    eapply wp_mono; [apply (drop_wp c3 hs br); [apply F3|apply Hin; left]|].
    intros ? c4 P4.
    assert (flushed c hs c4 [(log_body_block sb i, view c (key br))]) as F4.
    { assert (view c2 (key br) = view c (key br)) as <- by (apply P12; tauto).
      apply (flushed_preserves _ (br :: hs) c3); [|done|set_solver].
      by apply (preserves_then_flushed _ (br :: hs) c2). }
    eapply wp_mono; [apply (IH c4 (i + 1))|].
    + apply F4.
    + set_solver.
    + by rw (fl_capacity _ _ _ _ F4).
    + intros br' j Hbr' Hj. apply Hne; [set_solver|]. simpl length. lia.
    + intros ? c5 F5. rw (body_writes_ext (i + 1) (view c4) (view c)) in F5.
      * intros br' Hbr'. rw (fl_view _ _ _ _ F4) apply_writes_notin //.
        rw /= list_elem_of_singleton. apply Hne; [set_solver|]. simpl length. lia.
      * apply (flushed_trans _ hs c4 _ _ _ _ F4 F5). set_solver.
Qed.

Lemma install_transaction_wp blocks c hs :
  cache_inv c (blocks ++ hs) → NoDup (key <$> blocks) →
  wp (install_transaction (E := E) blocks)
    (λ r c', r = [] ∧ flushed c hs c' ((λ br, (key br, view c (key br))) <$> blocks)) c.
Proof.
  revert c. induction blocks as [|br blocks IH]; intros c Hi Hnd; simpl.
  - wp_steps. split; [done|]. by apply preserves_flushed.
  - rw /= NoDup_cons in Hnd. destruct Hnd as [Hn Hnd].
    wp_step. eapply wp_mono; [apply (lock_wp c _ br Hi); left|].
    intros ? c1 (-> & P1 & Hs1). wp_step.
    eapply wp_mono; [apply (read_wp c1 (br :: br :: blocks ++ hs) br); [apply P1|left|done]|].
    intros ? c2 (-> & P2 & L2). pose proof (preserves_trans _ _ _ _ _ _ P1 P2 (λ _ H, H)) as P12.
    wp_step. eapply wp_mono; [apply (write_wp c2 (br :: br :: blocks ++ hs) br); [apply P12|left|done]|].
    intros ? c3 [F3 L3]. apply (drop_both_k c3 (blocks ++ hs) br); [apply F3|done| |].
    { rw (fl_dirty _ _ _ _ F3). rw bool_decide_true //. simpl. left. }
    intros c4 P4.
    assert (flushed c (blocks ++ hs) c4 [(key br, view c (key br))]) as F4.
    { assert (view c2 (key br) = view c (key br)) as <- by (apply P12; tauto).
      eapply (preserves_then_flushed _ _ c2); [exact P12| |].
      - apply (flushed_preserves _ _ c3 _ _ _ F3 P4). set_solver.
      - set_solver. }
    eapply wp_mono; [apply (IH c4); [apply F4|done]|].
    intros r c5 [-> F5]. split; [done|].
    apply (flushed_trans _ (blocks ++ hs) c4 _ _ [_] _ F4); [|set_solver].
    erewrite (list_fmap_ext _ _ blocks); [exact F5|]. intros j b' Hb'. simpl. f_equal.
    rw (fl_view _ _ _ _ F4) apply_writes_notin //. rw /= list_elem_of_singleton. intros Hk.
    apply Hn. rw -Hk. apply list_elem_of_fmap. exists b'. split; [done|].
    by apply list_elem_of_lookup_2 in Hb'.
Qed.

(** The header block that lists the blocks [bns]. *)
Definition log_header_of (bns : list Z) : DiskLogHeader :=
  {| lh_len := Z.of_nat (length bns);
     lh_block_indices := splice 0 bns (replicate (Z.to_nat MAX_LOG_COUNT) 0) |}.

Lemma set_indices_run (h : DiskLogHeader) i bns c :
  0 ≤ i → lh_len h = i + Z.of_nat (length bns) →
  lh_len h ≤ Z.of_nat (length (lh_block_indices h)) → Forall (λ bn, 0 ≤ bn < 2 ^ 32) bns →
  set_indices h i bns c =
    Ret {| lh_len := lh_len h; lh_block_indices := splice (Z.to_nat i) bns (lh_block_indices h) |} c.
Proof.
  revert h i. induction bns as [|bn bns IH]; intros h i Hi Hlen Hmax Hf; simpl.
  - destruct h as [n l]. rw /splice /= Nat.add_0_r take_drop. done.
  - apply Forall_cons in Hf as [Hbn Hf]. simpl length in Hlen.
    rw (bind_Ret _ _ _ bn c); [by rw /try_from (proj2 (Z.ltb_lt _ _)); [lia|]|].
    set (h' := {| lh_len := lh_len h; lh_block_indices := <[Z.to_nat i := bn]> (lh_block_indices h) |}).
    rw (bind_Ret _ _ _ h' c).
    { rw /block_indices_mut /block_indices. rw (proj2 (Z.leb_le _ _)) //.
      rw /assert_ /mbind /M_bind /=. rw (proj2 (Z.ltb_lt _ _)) //. len. }
    rw IH; [lia|rw /=; lia|rw /= length_insert; lia|done|]. simpl.
    rw Z2Nat.inj_add; [lia|lia|]. rw Nat.add_1_r splice_cons //. lia.
Qed.

Lemma log_header_wf bns :
  Forall (λ bn, 0 ≤ bn < 2 ^ 32) bns → (length bns ≤ Z.to_nat MAX_LOG_COUNT)%nat →
  pwf pod_log_header (log_header_of bns).
Proof.
  intros Hf Hl. split.
  - rw /= /uint_wf /log_header_of /=. change (2 ^ (8 * Z.of_nat 4)) with 4294967296.
    change (Z.to_nat MAX_LOG_COUNT) with 255%nat in Hl. lia.
  - split.
    + change (length (splice 0 bns (replicate (Z.to_nat MAX_LOG_COUNT) 0)) = Z.to_nat MAX_LOG_COUNT).
      rw splice_length; rw length_replicate //.
    + change (Forall (uint_wf 4) (bns ++ drop (length bns) (replicate (Z.to_nat MAX_LOG_COUNT) 0))).
      apply Forall_app. split; [done|]. apply Forall_drop. by apply Forall_replicate.
Qed.

Lemma zero_header : pof pod_log_header (zeroes BS) = log_header_of [].
Proof. vm_compute. done. Qed.

Lemma write_log_head_wp blocks c hs :
  cache_inv c hs → (size (hkeys hs) < capacity c)%nat →
  Forall (λ bn, 0 ≤ bn < 2 ^ 32) (key <$> blocks) → (length blocks ≤ Z.to_nat MAX_LOG_COUNT)%nat →
  wp (write_log_head (E := E) ROOT_DEV sb blocks) (λ _ c', flushed c hs c'
    [(log_header_block sb, pto pod_log_header (log_header_of (key <$> blocks)))]) c.
Proof.
  intros Hi Hroom Hf Hl. rw /write_log_head. wp_step.
  eapply wp_mono; [apply (get_wp c hs _ Hi), room_any, Hroom|].
  intros h c1 [Hk P1]. wp_step.
  eapply wp_mono; [apply (lock_wp c1 (h :: hs) h); [apply P1|left]|].
  intros ? c2 (-> & P2 & Hs2). wp_step.
  eapply wp_mono; [apply (guard_zeroed_wp c2 (h :: h :: hs) h); [apply P2|left|done]|].
  intros ? c3 (-> & P3 & M3). wp_step.
  eapply wp_mono; [apply (bytes_wp c3 (h :: h :: hs) h); [apply P3|left|apply M3]|].
  intros b ? [-> ->]. destruct M3 as (Hv3 & Hd3 & L3 & Hk3). rw Hv3 zero_header.
  set (n := Z.of_nat (length blocks)). set (N := Z.to_nat MAX_LOG_COUNT) in *.
  assert (0 ≤ n < 2 ^ 32) by (change N with 255%nat in Hl; rw /n; lia).
  wp_step. apply (wp_of_run _ _ _ {| lh_len := n; lh_block_indices := replicate N 0 |} c3).
  { rw /lh_set_len /try_from (proj2 (Z.ltb_lt _ _)); [lia|]. reflexivity. }
  wp_step. eapply (wp_of_run _ _ _ (log_header_of (key <$> blocks)) c3).
  { rw set_indices_run; [done|rw length_fmap; rw /n /=; lia| |done|].
    - cbn [lh_len lh_block_indices]. rw length_replicate /n. lia.
    - cbn [lh_len lh_block_indices]. by rw /log_header_of length_fmap. }
  wp_step. set (hd := pto pod_log_header (log_header_of (key <$> blocks))).
  eapply wp_mono; [apply (bytes_mut_wp c3 (h :: h :: hs) h (λ _, hd)); [apply P3|left|done|]|].
  { rw /hd pto_length //. apply log_header_wf; [done|]. by rw length_fmap. }
  intros ? c4 [P4 M4]. wp_step.
  eapply wp_mono; [apply (write_wp c4 (h :: h :: hs) h); [apply P4|left|apply M4]|].
  intros ? c5 [F5 L5].
  eapply wp_mono; [apply (drop_both_wp c5 hs h); [apply F5|done|]|].
  { rw (fl_dirty _ _ _ _ F5). rw bool_decide_true //. simpl. left. }
  intros ? c6 P6. rw -Hk.
  apply (preserves_then_flushed _ (h :: hs) c1); [done| |set_solver].
  apply (preserves_then_flushed _ (h :: h :: hs) c2); [done| |set_solver].
  apply (flushed_preserves _ (h :: h :: hs) c5); [|done|set_solver].
  apply (mutated_flushed c2 (h :: h :: hs) c4 _ _ h hd); [| |done|done].
  - apply (preserves_trans _ _ _ _ _ _ P3 P4). done.
  - destruct M4 as (Hv4 & Hd4 & L4 & Hk4). split_and!; [done..|]. intros k. by rw Hk4 Hk3.
Qed.

(** All that a commit writes, in order. *)
Definition commit_writes (v : Z → list byte) blocks : list (Z * list byte) :=
  body_writes 0 v blocks ++
  [(log_header_block sb, pto pod_log_header (log_header_of (key <$> blocks)))] ++
  ((λ br, (key br, v (key br))) <$> blocks) ++
  [(log_header_block sb, pto pod_log_header (log_header_of []))].

(** The blocks a transaction may log: outside the log area. *)
Definition loggable k : Prop := 0 ≤ k < 2 ^ 32 ∧ ¬ (logstart sb ≤ k < logstart sb + nlog sb).

Lemma body_block_eq j : log_geometry sb → 0 ≤ j < nlog sb → log_body_block sb j = logstart sb + j.
Proof. intros [? ? ?] ?. apply wrap_small. lia. Qed.

Lemma body_writes_keys i v blocks k :
  k ∈ (body_writes i v blocks).*1 → ∃ j, i ≤ j < i + Z.of_nat (length blocks) ∧ k = log_body_block sb j.
Proof.
  revert i. induction blocks as [|br blocks IH]; intros i; simpl; [set_solver|].
  intros [->|Hk]%elem_of_cons; [exists i; split; [lia|done]|].
  destruct (IH _ Hk) as (j & ? & ->). exists j. split; [lia|done].
Qed.

Lemma commit_wp blocks c hs :
  log_geometry sb → cache_inv c (blocks ++ hs) → NoDup (key <$> blocks) → blocks ≠ [] →
  Forall loggable (key <$> blocks) → Z.of_nat (length blocks) ≤ nlog sb →
  (size (hkeys (blocks ++ hs)) < capacity c)%nat →
  wp (commit (E := E) ROOT_DEV sb blocks)
    (λ r c', r = [] ∧ flushed c hs c' (commit_writes (view c) blocks)) c.
Proof.
  intros Hg Hi Hnd Hne Hlg Hlen Hroom. rw /commit bool_decide_false //.
  assert (∀ br j, br ∈ blocks → 0 ≤ j < nlog sb → key br ≠ log_body_block sb j) as Hout.
  { intros br j Hbr Hj. rw body_block_eq //. rw Forall_forall in Hlg.
    destruct (Hlg (key br)) as [_ Ho]; [apply list_elem_of_fmap; eauto|]. lia. }
  assert (Forall (λ bn, 0 ≤ bn < 2 ^ 32) (key <$> blocks)) as Hf.
  { eapply Forall_impl; [exact Hlg|]. by intros ? []. }
  assert (length blocks ≤ Z.to_nat MAX_LOG_COUNT)%nat as Hmax.
  { destruct Hg as [_ Hn _]. change LOG_SIZE with 30 in Hn. change MAX_LOG_COUNT with 255. lia. }
  wp_step. eapply wp_mono; [apply (write_log_body_wp blocks c (blocks ++ hs) 0 Hi); [set_solver|done|]|].
  { intros br j Hbr Hj. apply Hout; [done|lia]. }
  intros ? c1 F1. wp_step.
  eapply wp_mono; [apply (write_log_head_wp blocks c1 (blocks ++ hs)); [apply F1| |done|done]|].
  { by rw (fl_capacity _ _ _ _ F1). }
  intros ? c2 F2. pose proof (flushed_trans _ _ _ _ _ _ _ F1 F2 (λ _ H, H)) as F12. wp_step.
  eapply wp_mono; [apply (install_transaction_wp blocks c2 hs); [apply F2|done]|].
  intros r c3 [-> F3]. wp_step. apply wp_assert; [done|]. wp_step.
  pose proof (flushed_trans _ _ _ _ _ _ _ F12 F3) as F123.
  eapply wp_mono; [apply (write_log_head_wp [] c3 hs)|]; [apply F3| |done|simpl; lia|].
  { rw (fl_capacity _ _ _ _ F3) (fl_capacity _ _ _ _ F12).
    assert (hkeys hs ⊆ hkeys (blocks ++ hs)) as Hsub%subseteq_size; [|lia].
    intros k. rw !elem_of_hkeys. set_solver. }
  intros ? c4 F4. wp_steps. split; [done|].
  erewrite (list_fmap_ext _ (λ br, (key br, view c (key br))) blocks) in F123.
  - pose proof (flushed_trans _ _ _ _ _ _ _ (F123 ltac:(set_solver)) F4 (λ _ H, H)) as F.
    rw /commit_writes. by rw -!app_assoc in F.
  - intros j br Hbr. simpl. f_equal. rw (fl_view _ _ _ _ F12) apply_writes_notin //.
    apply list_elem_of_lookup_2 in Hbr. rw fmap_app elem_of_app. intros [Hk|Hk].
    + apply body_writes_keys in Hk as (i & Hi' & Hk). apply (Hout br i); [done|lia|done].
    + rw /= list_elem_of_singleton in Hk. apply (Hout br 0); [done|destruct Hg; lia|].
      rw body_block_eq //; [destruct Hg; lia|]. rw Hk /log_header_block. lia.
Qed.

(** *** Logging a block *)

Definition pushed blocks b : list (LruValue Z) :=
  if decide (key b ∈ key <$> blocks) then blocks else blocks ++ [b].

Lemma forallb_keys blocks k :
  forallb (λ h, negb (key h =? k)) blocks = bool_decide (k ∉ key <$> blocks).
Proof.
  induction blocks as [|h blocks IH]; [done|]. rw /= IH.
  case: Z.eqb_spec => [Hk|Hk] /=.
  - rw bool_decide_false //. rw elem_of_cons. naive_solver.
  - apply bool_decide_ext. rw elem_of_cons. naive_solver.
Qed.

Lemma push_wp blocks c hs b :
  log_geometry sb → cache_inv c (blocks ++ hs) → b ∈ hs → Z.of_nat (length blocks) < nlog sb →
  wp (push sb blocks b) (λ r c', r = pushed blocks b ∧ same c (pushed blocks b ++ hs) c') c.
Proof.
  intros [_ Hn _] Hi Hin Hlen. rw /push. wp_step.
  apply wp_assert; [apply Z.ltb_lt; rw /max_log_len; lia|]. rw forallb_keys /pushed.
  case_decide as Hk.
  - rw bool_decide_false; [tauto|]. wp_steps. split; [done|]. done.
  - rw bool_decide_true //. wp_step.
    eapply wp_mono; [apply (ref_clone_wp c (blocks ++ hs) b Hi); set_solver|].
    intros ? c' (-> & [HI HU HS HC HD] & _). wp_step. apply wp_assert; [apply Z.ltb_lt; lia|]. wp_steps.
    split; [done|]. assert ((blocks ++ [b]) ++ hs ≡ₚ b :: blocks ++ hs) as Hp.
    { by rw -app_assoc /= Permutation_middle. }
    split; [by rw Hp|done| |done|done]. apply (sync_mono_sub (b :: blocks ++ hs)); [|done].
    intros h. by rw Hp.
Qed.

Lemma pushed_keys blocks b k : k ∈ key <$> pushed blocks b ↔ k = key b ∨ k ∈ key <$> blocks.
Proof. rw /pushed. case_decide; [set_solver|]. rw fmap_app elem_of_app. set_solver. Qed.

Lemma pushed_nodup blocks b : NoDup (key <$> blocks) → NoDup (key <$> pushed blocks b).
Proof.
  rw /pushed. case_decide as Hk; [done|]. rw fmap_app NoDup_app. intros H. split_and!; [done| |].
  - intros x Hx. rw /= list_elem_of_singleton. by intros ->.
  - apply NoDup_singleton.
Qed.

Lemma pushed_length blocks b : (length (pushed blocks b) ≤ S (length blocks))%nat.
Proof. rw /pushed. case_decide; len. Qed.

Lemma pushed_elem blocks b h : h ∈ pushed blocks b → h ∈ blocks ∨ h = b.
Proof. rw /pushed. case_decide; [by left|]. rw elem_of_app list_elem_of_singleton. tauto. Qed.

(** *** The invariant of the log *)

(** [hs] are the handles outside the log; the log is not committing. *)
Record log_inv (s : Log) blocks hs : Prop := {
  li_header : header s = Some blocks;
  li_cache : cache_inv (io s) (blocks ++ hs);
  li_nodup : NoDup (key <$> blocks);
  li_loggable : Forall loggable (key <$> blocks);
  li_len : Z.of_nat (length blocks) ≤ nlog sb;
}.

(** Every dirty block is logged. *)
Definition all_logged (s : Log) blocks : Prop :=
  ∀ k, dirty_at (io s) k = true → k ∈ key <$> blocks.

Lemma wp_on_io {A} (m : M cache A) (Q : A → Log → Prop) s :
  wp m (λ a c', Q a {| io := c'; header := header s; outstanding := outstanding s |}) (io s) →
  wp (on_io m) Q s.
Proof. rw /wp /on_io /zoom. by destruct (m (io s)). Qed.

Lemma log_inv_same s blocks hs hs' c' :
  log_inv s blocks hs → same (io s) (blocks ++ hs') c' →
  log_inv {| io := c'; header := header s; outstanding := outstanding s |} blocks hs'.
Proof. intros [] HP. split; [done|apply HP|done..]. Qed.

Lemma log_write_wp s blocks hs g :
  log_geometry sb → log_inv s blocks hs → g ∈ hs → 0 < outstanding s → loggable (key g) →
  Z.of_nat (length blocks) < nlog sb →
  wp (log_write sb g) (λ _ s', log_inv s' (pushed blocks g) hs ∧ outstanding s' = outstanding s ∧
    same (io s) (pushed blocks g ++ hs) (io s')) s.
Proof.
  intros Hg [Hh Hc Hnd Hlg Hlen] Hin Ho Hlb Hlt. rw /log_write. wp_step. wp_step. rw Hh. wp_steps.
  apply wp_assert; [by apply Z.ltb_lt|]. wp_step. apply wp_on_io.
  eapply wp_mono; [apply (ref_clone_wp (io s) (blocks ++ hs) g Hc); set_solver|].
  intros ? c1 (-> & P1 & _). wp_step. apply wp_on_io. simpl.
  assert (g :: blocks ++ hs ≡ₚ blocks ++ g :: hs) as Hp1 by by rw Permutation_middle.
  eapply wp_mono; [apply (push_wp blocks c1 (g :: hs) g Hg); [|left|done]|].
  { rw -Hp1. apply P1. }
  intros r c2 [-> P2]. wp_step. apply wp_on_io. simpl.
  assert (pushed blocks g ++ g :: hs ≡ₚ g :: pushed blocks g ++ hs) as Hp2 by by rw -Permutation_middle.
  eapply wp_mono; [apply (drop_wp c2 (pushed blocks g ++ hs) g); [|set_solver]|].
  { rw -Hp2. apply P2. }
  intros ? c3 P3. rw /set_header. wp_step.
  split_and!; [split; simpl|done|simpl].
  - done.
  - apply P3.
  - by apply pushed_nodup.
  - apply Forall_forall. intros k Hk. apply pushed_keys in Hk as [->|Hk]; [done|].
    rw Forall_forall in Hlg. auto.
  - pose proof (pushed_length blocks g). lia.
  - assert (∀ h, h ∈ pushed blocks g ++ hs → h ∈ g :: blocks ++ hs) as Hsub.
    { intros h. rw !elem_of_app. intros [[?| ->]%pushed_elem|?]; set_solver. }
    apply (preserves_trans _ _ (g :: blocks ++ hs) c1 _ _ P1); [|done].
    apply (preserves_trans _ _ (pushed blocks g ++ g :: hs) c2 _ _ P2 P3). set_solver.
Qed.

(** *** The drop of a guard *)

Lemma log_write_k {A} s blocks hs g (m : M Log A) Q :
  log_geometry sb → log_inv s blocks hs → g ∈ hs → 0 < outstanding s → loggable (key g) →
  Z.of_nat (length blocks) < nlog sb →
  (∀ s', log_inv s' (pushed blocks g) hs → outstanding s' = outstanding s →
    same (io s) (pushed blocks g ++ hs) (io s') → wp m Q s') →
  wp (log_write sb g;; m) Q s.
Proof.
  intros Hg Hi Hin Ho Hl Hlt Hm. wp_step.
  eapply wp_mono; [by apply (log_write_wp s blocks hs g)|]. intros ? s' (? & ? & ?). auto.
Qed.

(** A handle to a logged block is the one the log holds. *)
Lemma handle_unique c hs h h' : cache_inv c hs → h ∈ hs → h' ∈ hs → key h = key h' → h = h'.
Proof.
  intros Hi H1 H2 Hk. pose proof (inv_handles_agree _ _ _ _ (ci_lru _ _ Hi) H1 H2) as [Hv _].
  destruct h, h'. simpl in *. rw Hk. f_equal. auto.
Qed.

Lemma logged_handle s blocks hs h :
  log_inv s blocks hs → h ∈ hs → key h ∈ key <$> blocks → h ∈ blocks.
Proof.
  intros Hi Hh (h' & Hk & Hin)%list_elem_of_fmap.
  rw (handle_unique (io s) (blocks ++ hs) h h') //; [apply Hi|set_solver|set_solver].
Qed.

Lemma tx_guard_drop_wp s blocks hs g :
  log_geometry sb → log_inv s blocks (g :: hs) → g ∈ hs → loaded (io s) g →
  0 < outstanding s → (dirty_at (io s) (key g) = true → loggable (key g)) → Z.of_nat (length blocks) < nlog sb →
  let blocks' := if dirty_at (io s) (key g) then pushed blocks g else blocks in
  wp (tx_guard_drop sb false g) (λ _ s', log_inv s' blocks' hs ∧ outstanding s' = outstanding s ∧
    same (io s) (blocks' ++ hs) (io s')) s.
Proof.
  intros Hg Hi Hin Hl Ho Hlg Hlt blocks'. pose proof (li_cache _ _ _ Hi) as Hc.
  destruct s as [c hd o]. set (s := {| io := c; header := hd; outstanding := o |}) in *.
  cbn [io header outstanding] in *.
  rw /tx_guard_drop. wp_step. apply wp_on_io. rw /is_dirty. wp_step.
  rw (loaded_dirty c (blocks ++ g :: hs) g Hc) //; [set_solver|].
  assert (∀ s1 bl, log_inv s1 bl (g :: hs) → outstanding s1 = o →
    same c (bl ++ g :: hs) (io s1) →
    wp (on_io (ref_drop g)) (λ _ s', log_inv s' bl hs ∧ outstanding s' = o ∧
      same c (bl ++ hs) (io s')) s1) as Hdrop.
  { intros s1 bl Hi1 Ho1 P1. apply wp_on_io.
    eapply wp_mono; [apply (drop_wp (io s1) (bl ++ hs) g); [|set_solver]|].
    - rw Permutation_middle. apply Hi1.
    - intros ? c' P2. split_and!; [by apply (log_inv_same s1 bl (g :: hs))|done|].
      apply (preserves_trans _ _ (bl ++ g :: hs) (io s1) _ _ P1 P2). set_solver. }
  assert (blocks' = if dirty_at c (key g) then pushed blocks g else blocks) as Hb by done.
  clearbody blocks'. wp_step. destruct (dirty_at c (key g)) eqn:Hdy; subst blocks'.
  - wp_step. apply wp_on_io. rw /try_validate. wp_step. wp_step. destruct Hl as [Hs Hv]. rw Hv. wp_step.
    eapply wp_mono; [apply (log_write_wp s blocks (g :: hs) g Hg Hi); [left|done|by apply Hlg|done]|].
    intros ? s' (Hi' & Ho' & P'). exact (Hdrop s' _ Hi' Ho' P').
  - wp_step. apply (Hdrop s blocks Hi); done.
Qed.
End correct.
