(* ===== verification/LogStore.v ===== *)
(** * Transactions on the log

    The log of [Log.v] as the block store of [Store.v]: inside a transaction
    with room for the blocks it touches, the life of each [TxBlockGuard] reads
    and writes the map of blocks, and logs what it changed.  Then the commit,
    the reservations of [begin_op], and the recovery after a crash. *)

From S2P Require Import Prelude Pod FsTypes Lru BlockIo Store Log.

Section log_store.
Context {D E : Type} `{!BlockDevice D E} `{!DiskDevice D E BS} (sb : SuperBlock).

#[local] Abbreviation cache := (@BlockIoCache D).
#[local] Abbreviation Log := (@Log D).
#[local] Abbreviation dirty_at := (dirty_at BS).
#[local] Abbreviation view := (view (E := E) (BLOCK_SIZE := BS)).
#[local] Abbreviation disk := (disk (E := E) (BLOCK_SIZE := BS)).
#[local] Abbreviation preserves := (preserves (E := E) (BLOCK_SIZE := BS)).
#[local] Abbreviation loaded := (loaded (BLOCK_SIZE := BS)).
#[local] Abbreviation synced := (synced (BLOCK_SIZE := BS)).
#[local] Abbreviation same := (preserves (λ _, False)).
#[local] Abbreviation log_inv := (log_inv (E := E) sb).
#[local] Abbreviation loggable := (loggable sb).
Implicit Types (s : Log) (hs blocks : list (LruValue Z)) (bs : gset Z).

(** The state of a transaction that may touch the blocks of [bs], while others
    hold the references [hs]. *)
Record tx_ok hs bs s blocks : Prop := {
  tx_inv : log_inv s blocks hs;
  tx_logged : all_logged s blocks;
  tx_outstanding : 0 < outstanding s;
  tx_loggable k : k ∈ bs → loggable k;
  tx_room : (size (bs ∪ hkeys (blocks ++ hs)) < capacity (io s))%nat;
  tx_space : Z.of_nat (size (bs ∪ hkeys blocks)) < nlog sb;
}.

Lemma tx_length hs bs s blocks : tx_ok hs bs s blocks → Z.of_nat (length blocks) < nlog sb.
Proof.
  intros H. assert (length blocks = size (hkeys blocks)) as ->.
  { rw /hkeys size_list_to_set ?length_fmap //. apply (tx_inv _ _ _ _ H). }
  pose proof (tx_space _ _ _ _ H).
  assert (hkeys blocks ⊆ bs ∪ hkeys blocks) as Hsub%subseteq_size by set_solver. lia.
Qed.

Lemma hkeys_app hs hs' : hkeys (hs ++ hs') = hkeys hs ∪ hkeys hs'.
Proof. rw /hkeys fmap_app. apply leibniz_equiv. by rw list_to_set_app. Qed.

Lemma hkeys_pushed blocks g : hkeys (pushed blocks g) = {[key g]} ∪ hkeys blocks.
Proof.
  apply leibniz_equiv. intros k. rw /hkeys elem_of_list_to_set pushed_keys. set_solver.
Qed.

(** The content after the guard of [k] was obtained and mutated. *)
Definition guard_content (zero : bool) (f : option (list byte → list byte)) (b : list byte) : list byte :=
  let b' := if zero then zero_block else b in
  match f with Some f => f b' | None => b' end.

(** Reading or zeroing a locked block. *)
Lemma obtain_wp c hs g (zero : bool) :
  cache_inv (E := E) c hs → g ∈ hs → synced c g →
  wp (if zero then guard_zeroed BS g else read_ (E := E) g)
    (λ g' c', g' = g ∧ preserves (λ j, j = key g) c hs c' ∧ loaded c' g ∧
      view c' (key g) = guard_content zero None (view c (key g)) ∧
      (zero = false → dirty_at c' (key g) = dirty_at c (key g))) c.
Proof.
  intros Hi Hin Hs. destruct zero.
  - eapply wp_mono; [exact (guard_zeroed_wp c hs g Hi Hin Hs)|].
    intros ? c' (-> & HP & HM). split_and!; [done|done|apply HM|apply HM|done].
  - eapply wp_mono; [exact (read_wp c hs g Hi Hin Hs)|]. intros ? c' (-> & HP & Hl).
    destruct (pr_unchanged _ _ _ _ HP (key g)) as (Hv & Hd & _); [tauto|].
    split_and!; [done|by apply (preserves_mono (λ _, False))|done|done|done].
Qed.

(** Dropping the guard and the reference: a dirty block is logged. *)
Lemma close_block_wp s blocks hs h :
  log_geometry sb → log_inv s blocks (h :: h :: hs) → loaded (io s) h →
  (dirty_at (io s) (key h) = true → loggable (key h)) →
  (∀ j, j ≠ key h → dirty_at (io s) j = true → j ∈ key <$> blocks) →
  0 < outstanding s → Z.of_nat (length blocks) < nlog sb →
  wp (b ← on_io (guard_bytes BS h); tx_guard_drop sb false h;; on_io (ref_drop h);; mret b)
    (λ b s', b = view (io s) (key h) ∧ outstanding s' = outstanding s ∧
      ∃ blocks', log_inv s' blocks' hs ∧ all_logged s' blocks' ∧
        same (io s) (blocks' ++ hs) (io s') ∧ (hkeys blocks' = hkeys blocks ∨
          dirty_at (io s) (key h) = true ∧ hkeys blocks' ⊆ {[key h]} ∪ hkeys blocks)) s.
Proof.
  intros Hg Hi Hl Hlg Hdirty Ho Hlt. pose proof (li_cache _ _ _ _ Hi) as Hc. wp_step. apply wp_on_io.
  eapply wp_mono; [apply (bytes_wp (io s) _ h Hc); [set_solver|done]|].
  intros b ? [-> ->]. wp_step. destruct s as [c hd o]. cbn [io header outstanding] in *.
  eapply wp_mono; [apply (tx_guard_drop_wp sb _ blocks (h :: hs) h Hg Hi); [left|done..]|].
  cbn [io]. intros ? s1 (Hi1 & Ho1 & P1). wp_step. apply wp_on_io.
  set (blocks' := if dirty_at c (key h) then pushed blocks h else blocks) in *.
  assert (blocks' ++ h :: hs ≡ₚ h :: blocks' ++ hs) as Hp by by rw -Permutation_middle.
  assert (wp (ref_drop h) (λ _ c', same (io s1) (blocks' ++ hs) c') (io s1)) as Hdrop.
  { destruct (dirty_at c (key h)) eqn:Hd.
    - apply drop_wp; [rw -Hp; apply Hi1|]. apply elem_of_app. left.
      apply (logged_handle sb s1 blocks' (h :: hs) h Hi1); [left|]. apply pushed_keys. by left.
    - apply drop_clean_wp; [rw -Hp; apply Hi1| |].
      + apply (pr_sync _ _ _ _ P1); [set_solver|done].
      + destruct (pr_unchanged _ _ _ _ P1 (key h)) as (_ & -> & _); [tauto|done]. }
  eapply wp_mono; [exact Hdrop|]. intros ? c2 P2. wp_steps. split_and!; [done|done|].
  exists blocks'.
  assert (same c (blocks' ++ hs) c2) as P12.
  { apply (preserves_trans _ _ (blocks' ++ h :: hs) (io s1) _ _ P1 P2). set_solver. }
  split_and!; [by apply (log_inv_same sb s1 blocks' (h :: hs))| |done|].
  - intros j Hj. destruct (pr_unchanged _ _ _ _ P12 j) as (_ & E2 & _); [tauto|].
    cbn [io] in Hj. rw E2 in Hj. rw /blocks'. destruct (decide (j = key h)) as [->|Hne].
    + rw Hj. apply pushed_keys. by left.
    + specialize (Hdirty j Hne Hj). destruct (dirty_at c (key h)); [|done]. apply pushed_keys. by right.
  - rw /blocks'. destruct (dirty_at c (key h)); [right|by left]. by rw hkeys_pushed.
Qed.

(** The state while the guard of [k] is held. *)
Definition opened s blocks hs h (b : list byte) s' : Prop :=
  log_inv s' blocks (h :: h :: hs) ∧ loaded (io s') h ∧ outstanding s' = outstanding s ∧
  preserves (λ j, j = key h) (io s) (blocks ++ h :: h :: hs) (io s') ∧ view (io s') (key h) = b.

Lemma opened_mk s blocks hs h b c' :
  log_inv s blocks hs → preserves (λ j, j = key h) (io s) (h :: h :: blocks ++ hs) c' →
  loaded c' h → view c' (key h) = b →
  opened s blocks hs h b {| io := c'; header := header s; outstanding := outstanding s |}.
Proof.
  intros Hi HP Hl Hv. apply (preserves_perm _ _ _ (blocks ++ h :: h :: hs)) in HP.
  - destruct Hi. split_and!; [split; [done|apply HP|done..]|done..].
  - by rw -!Permutation_middle.
Qed.

(** Closing the block restores the state of the transaction. *)
Lemma close_tx hs bs s blocks h b s1 blocks' s2 :
  tx_ok hs bs s blocks → opened s blocks hs h b s1 →
  outstanding s2 = outstanding s1 → log_inv s2 blocks' hs → all_logged s2 blocks' →
  same (io s1) (blocks' ++ hs) (io s2) → hkeys blocks' ⊆ bs ∪ hkeys blocks →
  tx_ok hs bs s2 blocks' ∧ ∀ j, view (io s2) j = upd (view (io s)) (key h) b j.
Proof.
  intros [Hi Hlogd Ho Hlb Hroom Hspace] (Hi1 & Hl & Ho1 & P1 & Hv) Ho2 Hi2 Hlg2 P2 Hsub.
  split; [split; [done|done|by rw Ho2 Ho1|done| |]|].
  - rw (pr_capacity _ _ _ _ P2) (pr_capacity _ _ _ _ P1).
    assert (bs ∪ hkeys (blocks' ++ hs) ⊆ bs ∪ hkeys (blocks ++ hs)) as Hs%subseteq_size; [|lia].
    rw !hkeys_app. revert Hsub. clear.
    generalize (hkeys blocks') (hkeys blocks) (hkeys hs). set_solver.
  - assert (bs ∪ hkeys blocks' ⊆ bs ∪ hkeys blocks) as Hs%subseteq_size; [|lia].
    revert Hsub. clear. generalize (hkeys blocks') (hkeys blocks). set_solver.
  - intros j. destruct (pr_unchanged _ _ _ _ P2 j) as (-> & _ & _); [tauto|]. rw /upd.
    case_decide as Hj; [by rw -Hj|]. apply P1. congruence.
Qed.

(** The whole life of a block reference. *)
Lemma with_block_wp hs bs s blocks k zero f :
  log_geometry sb → tx_ok hs bs s blocks → (k ∈ bs ∨ zero = false ∧ f = None) →
  is_block (guard_content zero f (view (io s) k)) →
  wp (with_block (E := E) ROOT_DEV sb false k zero f)
    (λ b s', b = guard_content zero f (view (io s) k) ∧
      (∃ blocks', tx_ok hs bs s' blocks') ∧
      ∀ j, view (io s') j = upd (view (io s)) k (guard_content zero f (view (io s) k)) j) s.
Proof.
  intros Hg Htx Hk Hb. pose proof (tx_inv _ _ _ _ Htx) as Hi. rw /with_block /get_block. wp_step.
  apply wp_on_io. eapply wp_mono; [apply (get_wp (io s) (blocks ++ hs) k (li_cache _ _ _ _ Hi))|].
  { apply room_any. pose proof (tx_room _ _ _ _ Htx).
    assert (hkeys (blocks ++ hs) ⊆ bs ∪ hkeys (blocks ++ hs)) as Hsub%subseteq_size; [|lia].
    clear. generalize (hkeys (blocks ++ hs)). set_solver. }
  intros h c1 [<- P1]. wp_step. rw /tx_lock. apply wp_on_io. cbn [io header outstanding].
  eapply wp_mono; [apply (lock_wp c1 (h :: blocks ++ hs) h); [apply P1|left]|].
  intros ? c2 (-> & P2 & S2).
  pose proof (preserves_trans _ _ _ _ _ _ P1 P2 ltac:(set_solver)) as P12. wp_step.
  assert ((if zero then tx_zeroed h else tx_read (E := E) h) =
          on_io (if zero then guard_zeroed BS h else read_ (E := E) h)) as -> by by destruct zero.
  apply wp_on_io. cbn [io header outstanding].
  eapply wp_mono; [apply (obtain_wp c2 (h :: h :: blocks ++ hs) h zero); [apply P12|left|done]|].
  intros ? c3 (-> & P3 & L3 & V3 & D3).
  assert (view c2 (key h) = view (io s) (key h)) as V2 by (apply P12; tauto). rw V2 in V3.
  assert (preserves (λ j, j = key h) (io s) (h :: h :: blocks ++ hs) c3) as P123.
  { apply (preserves_trans _ _ (h :: h :: blocks ++ hs) c2); [|done|done].
    by apply (preserves_mono (λ _, False)). }
  set (b := guard_content zero f (view (io s) (key h))) in *.
  set (m := λ g : BlockGuard, (b ← on_io (guard_bytes BS g); tx_guard_drop sb false g;;
                               on_io (ref_drop h);; mret b) : M Log (list byte)).
  assert (∀ s3, opened s blocks hs h b s3 →
    (zero = false → f = None → dirty_at (io s3) (key h) = dirty_at (io s) (key h)) → wp (m h) (λ b' s', b' = b ∧
      (∃ blocks', tx_ok hs bs s' blocks') ∧ ∀ j, view (io s') j = upd (view (io s)) (key h) b j) s3) as Hm.
  { intros s3 Ho3 Hro. pose proof Ho3 as (Hi3 & Hl3 & Eo3 & P3' & Hv3).
    assert (dirty_at (io s3) (key h) = true → key h ∈ bs ∨ key h ∈ key <$> blocks) as Hdk.
    { intros Hd. destruct Hk as [?|[Hz Hf]]; [by left|right].
      apply (tx_logged _ _ _ _ Htx). by rw -(Hro Hz Hf). }
    eapply wp_mono; [apply (close_block_wp s3 blocks hs h Hg Hi3 Hl3)|].
    - intros [?|?]%Hdk; [by apply (tx_loggable _ _ _ _ Htx)|].
      pose proof (li_loggable _ _ _ _ Hi) as Hlg. rw Forall_forall in Hlg. auto.
    - intros j Hj Hd. apply (tx_logged _ _ _ _ Htx).
      by destruct (pr_unchanged _ _ _ _ P3' j Hj) as (_ & <- & _).
    - rw Eo3. by apply (tx_outstanding _ _ _ _ Htx).
    - by apply (tx_length hs bs s).
    - intros ? s4 (-> & Ho4 & blocks' & Hi4 & Hlg4 & P4 & Hsub).
      destruct (close_tx hs bs s blocks h b s3 blocks' s4) as [Ht Hv]; [done..| |eauto].
      destruct Hsub as [->|[Hd Hsub]]; [clear; generalize (hkeys blocks); set_solver|].
      apply Hdk in Hd. rw -(elem_of_list_to_set (C := gset Z)) in Hd. fold (hkeys blocks) in Hd.
      revert Hd Hsub. clear. generalize (key h) (hkeys blocks') (hkeys blocks). set_solver. }
  wp_step. destruct f as [f|].
  - apply wp_on_io. cbn [io header outstanding].
    eapply wp_mono; [apply (bytes_mut_wp c3 (h :: h :: blocks ++ hs) h f); [apply P3|left|done|by rw V3]|].
    intros ? c4 [P4 M4]. apply Hm; [|done]. apply opened_mk; [done| |apply M4|].
    + by apply (preserves_trans _ _ (h :: h :: blocks ++ hs) c3 _ _ P123 P4).
    + destruct M4 as (-> & _). by rw V3.
  - wp_step. apply Hm; [by apply opened_mk|]. intros Hz _. rw (D3 Hz). apply P12. tauto.
Qed.

(** *** The instance *)

Section instance.
Context (hs : list (LruValue Z)) (Hg : log_geometry sb).

#[export] Instance log_store : TxStore Log := {
  st_read := block_read (E := E) ROOT_DEV sb;
  st_update := block_update (E := E) ROOT_DEV sb;
  st_zero := block_zero (E := E) ROOT_DEV sb;
}.

#[export] Program Instance log_store_laws : TxStoreLaws Log := {
  st_view s := view (io s);
  st_ok bs s := ∃ blocks, tx_ok hs bs s blocks;
}.
Next Obligation.
  intros bs s k [blocks Htx]. exact (view_length _ _ k (li_cache _ _ _ _ (tx_inv _ _ _ _ Htx))).
Qed.
Next Obligation.
  intros bs s k [blocks Htx]. simpl. rw /block_read.
  eapply wp_mono; [apply (with_block_wp hs bs s blocks k false None Hg Htx ltac:(by right))|].
  { exact (view_length _ _ k (li_cache _ _ _ _ (tx_inv _ _ _ _ Htx))). }
  intros b s' (-> & Hok & Hv). split_and!; [done|done|].
  intros j. rw Hv /upd /=. case_decide as Hj; [by rw Hj|done].
Qed.
Next Obligation.
  intros bs s k f [blocks Htx] Hk Hf. simpl. rw /block_update. wp_step.
  eapply wp_mono; [by apply (with_block_wp hs bs s blocks k false (Some f) Hg Htx ltac:(by left))|].
  intros b s' (-> & Hok & Hv). by wp_steps.
Qed.
Next Obligation.
  intros bs s k [blocks Htx] Hk. simpl. rw /block_zero. wp_step.
  eapply wp_mono; [apply (with_block_wp hs bs s blocks k true None Hg Htx ltac:(by left))|].
  { apply zero_block_is_block. }
  intros b s' (-> & Hok & Hv). by wp_steps.
Qed.
End instance.
End log_store.
