(* ===== verification/Recovery.v ===== *)
(** * Commit, reservation and recovery

    The theorems about the log of [Log.v] as a whole: what a commit leaves on
    the disk, that the reservations of [begin_op] keep the log within its
    bounds, and what [recover_from_log] does after a crash. *)

From S2P Require Import Prelude Pod FsTypes Mkfs Lru BlockIo Store Log LogStore.

Section recovery.
Context {D E : Type} `{!BlockDevice D E} `{!DiskDevice D E BS} (sb : SuperBlock).

#[local] Abbreviation cache := (@BlockIoCache D).
#[local] Abbreviation Log := (@Log D).
#[local] Abbreviation dirty_at := (dirty_at BS).
#[local] Abbreviation view := (view (E := E) (BLOCK_SIZE := BS)).
#[local] Abbreviation disk := (disk (E := E) (BLOCK_SIZE := BS)).
#[local] Abbreviation cache_inv := (cache_inv (E := E) (BLOCK_SIZE := BS)).
#[local] Abbreviation flushed := (flushed (E := E) (BLOCK_SIZE := BS)).
#[local] Abbreviation preserves := (preserves (E := E) (BLOCK_SIZE := BS)).
#[local] Abbreviation same := (preserves (λ _, False)).
#[local] Abbreviation log_inv := (log_inv (E := E) sb).
#[local] Abbreviation loggable := (loggable sb).
Implicit Types (s : Log) (c : cache) (hs blocks : list (LruValue Z)) (bs : gset Z) (k : Z).

(** ** Commit *)

(** The header on the disk, as recovery decodes it. *)
Definition disk_header (d : Z → list byte) : DiskLogHeader :=
  pof pod_log_header (d (log_header_block sb)).

Lemma loggable_not_body i v blocks k :
  log_geometry sb → loggable k → 0 ≤ i → i + Z.of_nat (length blocks) ≤ nlog sb →
  k ∉ (body_writes sb i v blocks).*1.
Proof.
  intros Hg [_ Hk] Hi Hl (j & Hj & ->)%body_writes_keys. apply Hk.
  rw body_block_eq //; [lia|]. lia.
Qed.

Lemma loggable_not_header k : log_geometry sb → loggable k → k ≠ log_header_block sb.
Proof. intros [? ? ?] [_ Hk] ->. apply Hk. rw /log_header_block. lia. Qed.

(** What [commit_writes] does to a map of blocks. *)
Lemma commit_writes_home v blocks (f : Z → list byte) k :
  log_geometry sb → Z.of_nat (length blocks) ≤ nlog sb → loggable k →
  apply_writes (commit_writes sb v blocks) f k = if decide (k ∈ key <$> blocks) then v k else f k.
Proof.
  intros Hg Hl Hk. rw /commit_writes !apply_writes_app.
  pose proof (loggable_not_header k Hg Hk) as Hh.
  rw (apply_writes_notin [(_, pto _ (log_header_of []))]); [set_solver|].
  assert (∀ (g : Z → list byte) bl, apply_writes ((λ br, (key br, v (key br))) <$> bl) g k =
    if decide (k ∈ key <$> bl) then v k else g k) as Hinst.
  { intros g bl. revert g. induction bl as [|b bl IH]; intros g; [done|]. simpl. rw IH /upd.
    repeat case_decide; set_solver. }
  rw Hinst. case_decide; [done|].
  rw apply_writes_notin; [set_solver|]. rw apply_writes_notin //. by apply loggable_not_body.
Qed.

Lemma commit_writes_header v blocks (f : Z → list byte) :
  apply_writes (commit_writes sb v blocks) f (log_header_block sb) = pto pod_log_header (log_header_of []).
Proof. rw /commit_writes !apply_writes_app /= /upd decide_True //. Qed.

(** C8: committing the logged blocks writes the log body, the header, the home
    blocks and the erased header, in that order.  Afterwards every logged block
    is on the disk at its home location with the content readers saw, every
    other block outside the log area is as it was, readers see no change, no
    logged block is dirty, and the header on the disk is empty.  The cache must
    have a buffer more than the blocks that are held, the logged ones among
    them: [full_log_commit_panics] shows what happens otherwise. *)
Theorem commit_installs blocks c hs :
  log_geometry sb → cache_inv c (blocks ++ hs) → NoDup (key <$> blocks) → blocks ≠ [] →
  Forall loggable (key <$> blocks) → Z.of_nat (length blocks) ≤ nlog sb →
  (size (hkeys (blocks ++ hs)) < capacity c)%nat →
  wp (commit (E := E) ROOT_DEV sb blocks) (λ r c', r = [] ∧ cache_inv c' hs ∧
    dev_writes (device c') = dev_writes (device c) ++ commit_writes sb (view c) blocks ∧
    lh_len (disk_header (disk c')) = 0 ∧
    ∀ k, loggable k →
      view c' k = view c k ∧
      disk c' k = (if decide (k ∈ key <$> blocks) then view c k else disk c k) ∧
      dirty_at c' k = (if decide (k ∈ key <$> blocks) then false else dirty_at c k)) c.
Proof.
  intros Hg Hi Hnd Hne Hlg Hlen Hroom. eapply wp_mono; [by apply (commit_wp sb blocks c hs)|].
  intros r c' [-> F]. split_and!; [done|apply F|apply F| |].
  - rw /disk_header (fl_disk _ _ _ _ F) commit_writes_header pof_pto //.
    apply log_header_wf; [done|simpl; lia].
  - intros k Hk. rw (fl_view _ _ _ _ F) (fl_disk _ _ _ _ F) (fl_dirty _ _ _ _ F).
    rw !commit_writes_home //. split_and!; [by case_decide|done|].
    pose proof (loggable_not_header k Hg Hk). pose proof (loggable_not_body 0 (view c) blocks k Hg Hk).
    assert (k ∈ (commit_writes sb (view c) blocks).*1 ↔ k ∈ key <$> blocks) as Hiff.
    { rw /commit_writes !fmap_app !elem_of_app -list_fmap_compose /=. set_solver by lia. }
    case_decide; [by rw bool_decide_true; [tauto|]|by rw bool_decide_false; [tauto|]].
Qed.

(** ** Recovery *)

(** [same] for the handles that were there, when new ones may appear. *)
Record pinned_same c hs hs' c' : Prop := {
  ps_inv : cache_inv c' hs';
  ps_unchanged : unchanged (E := E) (BLOCK_SIZE := BS) (λ _, False) c c';
  ps_sync : sync_mono (BLOCK_SIZE := BS) hs c c';
  ps_capacity : capacity c' = capacity c;
  ps_device : device c' = device c;
}.

(** One block of the header. *)
Lemma pin_block_wp {A} bn c blocks hs (m : list (LruValue Z) → M cache A) Q :
  log_geometry sb → cache_inv c (blocks ++ hs) → Z.of_nat (length blocks) < nlog sb →
  (size ({[bn]} ∪ hkeys (blocks ++ hs)) ≤ capacity c)%nat →
  (∀ h c', key h = bn → pinned_same c hs (pushed blocks h ++ hs) c' → wp (m (pushed blocks h)) Q c') →
  wp (br ← block_io_get ROOT_DEV bn; blocks' ← push sb blocks br; ref_drop br;; m blocks') Q c.
Proof.
  intros Hg Hi Hlen Hroom Hm. wp_step. eapply wp_mono; [by apply (get_wp c (blocks ++ hs) bn Hi)|].
  intros h c1 [<- P1]. wp_step.
  eapply wp_mono; [apply (push_wp sb blocks c1 (h :: hs) h Hg); [|left|done]|].
  { rw -Permutation_middle. apply P1. }
  intros ? c2 [-> P2]. wp_step.
  assert (h ∈ pushed blocks h) as Hh.
  { assert (key h ∈ key <$> pushed blocks h) as (h' & Hk & Hin)%list_elem_of_fmap
      by (apply pushed_keys; by left).
    assert (h = h') as Eh; [|by rw {1}Eh].
    apply (handle_unique c2 (pushed blocks h ++ h :: hs)); [apply P2|set_solver|set_solver|done]. }
  eapply wp_mono; [apply (drop_wp c2 (pushed blocks h ++ hs) h); [|set_solver]|].
  { rw Permutation_middle. apply P2. }
  intros ? c3 P3. apply Hm; [done|].
  assert (same c (pushed blocks h ++ hs) c3) as [HI HU HS HC HD].
  { apply (preserves_trans _ _ (h :: blocks ++ hs) c1 _ _ P1).
    - apply (preserves_trans _ _ (pushed blocks h ++ h :: hs) c2 _ _ P2 P3). set_solver.
    - intros x. rw !elem_of_app. intros [[?| ->]%pushed_elem|?]; set_solver. }
  split; try done. apply (sync_mono_sub (pushed blocks h ++ hs)); [set_solver|done].
Qed.

(** Pinning the blocks the header lists. *)
Lemma push_all_wp bns c blocks hs :
  log_geometry sb → cache_inv c (blocks ++ hs) → NoDup (key <$> blocks) →
  Z.of_nat (length blocks + length bns) ≤ nlog sb →
  (size ((list_to_set bns : gset Z) ∪ hkeys (blocks ++ hs)) ≤ capacity c)%nat →
  wp (push_all ROOT_DEV sb blocks bns) (λ blocks' c', NoDup (key <$> blocks') ∧
    pinned_same c hs (blocks' ++ hs) c' ∧
    ∀ k, k ∈ key <$> blocks' ↔ k ∈ bns ∨ k ∈ key <$> blocks) c.
Proof.
  intros Hg. revert c blocks. induction bns as [|bn bns IH]; intros c blocks Hi Hnd Hlen Hroom; simpl.
  - wp_steps. split_and!; [done|done|set_solver].
  - simpl length in Hlen. apply pin_block_wp with (hs := hs); [done|done|lia| |].
    { etrans; [apply subseteq_size|exact Hroom]. simpl. clear. generalize (hkeys (blocks ++ hs)). set_solver. }
    intros h c1 <- P1.
    eapply wp_mono; [apply (IH c1 (pushed blocks h)); [apply P1|by apply pushed_nodup| |]|].
    + pose proof (pushed_length blocks h). lia.
    + rw (ps_capacity _ _ _ _ P1). rw hkeys_app hkeys_pushed. rw hkeys_app in Hroom.
      etrans; [apply subseteq_size|exact Hroom]. simpl.
      clear. generalize (hkeys blocks) (hkeys hs). set_solver.
    + intros blocks' c2 (Hnd' & P2 & Hks). split_and!; [done| |].
      * destruct P1 as [_ U1 S1 C1 D1], P2 as [I2 U2 S2 C2 D2].
        split; [done|exact (unchanged_trans _ _ _ _ U1 U2)| |congruence|congruence].
        exact (sync_mono_trans _ _ _ _ S1 S2).
      * intros k. rw Hks pushed_keys elem_of_cons. tauto.
Qed.

(** A header recovery can work with. *)
Definition header_ok (h : DiskLogHeader) : Prop :=
  0 ≤ lh_len h ≤ nlog sb ∧ length (lh_block_indices h) = Z.to_nat MAX_LOG_COUNT.
Definition listed (h : DiskLogHeader) : list Z := take (Z.to_nat (lh_len h)) (lh_block_indices h).

Lemma header_read_wp c :
  log_geometry sb → cache_inv c [] → header_ok (disk_header (view c)) →
  dirty_at c (log_header_block sb) = false →
  (length (listed (disk_header (view c))) < capacity c)%nat →
  wp (header_read (E := E) ROOT_DEV sb []) (λ blocks c', NoDup (key <$> blocks) ∧
    pinned_same c [] blocks c' ∧
    ∀ k, k ∈ key <$> blocks ↔ k ∈ listed (disk_header (view c))) c.
Proof.
  intros Hg Hi [Hlen Hmax] Hcl Hroom. set (h0 := disk_header (view c)) in *. rw /header_read.
  assert (length (listed h0) ≤ Z.to_nat (nlog sb))%nat as Hll by (rw /listed length_take; lia).
  wp_step. apply wp_assert; [done|]. wp_step.
  eapply wp_mono; [apply (get_wp c [] _ Hi), room_any; change (size (hkeys [])) with 0%nat; lia|].
  intros h c1 [Hk P1]. wp_step.
  eapply wp_mono; [apply (lock_wp c1 [h] h); [apply P1|left]|]. intros ? c2 (-> & P2 & S2). wp_step.
  eapply wp_mono; [apply (read_wp c2 [h; h] h); [apply P2|left|done]|]. intros ? c3 (-> & P3 & L3).
  pose proof (preserves_trans _ _ _ _ _ _ P1 P2 ltac:(set_solver)) as P12.
  pose proof (preserves_trans _ _ _ _ _ _ P12 P3 (λ _ H, H)) as P123. wp_step.
  eapply wp_mono; [apply (bytes_wp c3 [h; h] h); [apply P3|left|done]|]. intros b ? [-> ->].
  destruct (pr_unchanged _ _ _ _ P123 (key h)) as (Hv & Hd & _); [tauto|].
  assert (pof pod_log_header (view c3 (key h)) = h0) as -> by by rw Hv Hk.
  wp_step. apply (wp_of_run _ _ _ (listed h0) c3).
  { rw /block_indices (proj2 (Z.leb_le _ _)) //.
    destruct Hg as [_ Hn _]. change LOG_SIZE with 30 in Hn. rw Hmax. change MAX_LOG_COUNT with 255. lia. }
  wp_step. eapply wp_mono; [apply (push_all_wp (listed h0) c3 [] [h; h] Hg)|].
  { apply P3. } { constructor. } { simpl. lia. }
  { rw (pr_capacity _ _ _ _ P123). rw app_nil_l hkeys_absorb; [left|].
    pose proof (size_union_alt (list_to_set (listed h0) : gset Z) (hkeys [h])) as Hs.
    pose proof (subseteq_size (hkeys [h] ∖ list_to_set (listed h0)) (hkeys [h]) ltac:(clear; set_solver)).
    assert (size (hkeys [h]) = 1%nat) 
      by (rw hkeys_cons; change (hkeys []) with (∅ : gset Z); by rw right_id_L size_singleton).
    pose proof (size_list_to_set_le (listed h0)). lia. }
  intros blocks c4 (Hnd & P4 & Hks).
  assert (h :: h :: blocks ≡ₚ blocks ++ [h; h]) as Hp by by rw Permutation_app_comm.
  destruct (pr_unchanged _ _ _ _ P12 (key h)) as (_ & Hd2 & _); [tauto|].
  destruct (ps_unchanged _ _ _ _ P4 (key h)) as (_ & Hd4 & _); [tauto|].
  apply (drop_both_k c4 blocks h).
  { rw Hp. apply P4. }
  { by apply (ps_sync _ _ _ _ P4); [left|]. }
  { by rw Hd4 Hd Hk. }
  intros c5 P5. wp_steps. split_and!; [done| |].
  - destruct P123 as [_ U1 S1 C1 D1], P4 as [I4 U4 S4 C4 D4], P5 as [I5 U5 S5 C5 D5].
    split; [done| |by intros ? ?%elem_of_nil|congruence|congruence].
    exact (unchanged_trans _ _ _ _ U1 (unchanged_trans _ _ _ _ U4 U5)).
  - intros k. rw Hks. set_solver.
Qed.

(** Writing back what is on the disk changes nothing. *)
Lemma apply_writes_same blocks (f : Z → list byte) k :
  apply_writes ((λ br : LruValue Z, (key br, f (key br))) <$> blocks) f k = f k.
Proof.
  assert (∀ g : Z → list byte, (∀ j, g j = f j) →
    apply_writes ((λ br : LruValue Z, (key br, f (key br))) <$> blocks) g k = f k) as H; [|by apply H].
  induction blocks as [|b blocks IH]; intros g Hg; simpl; [done|]. apply IH.
  intros j. rw /upd. case_decide as Hj; [by rw -Hj|done].
Qed.

Lemma log_new_wp c :
  log_geometry sb → cache_inv c [] → (∀ k, dirty_at c k = false) → (∀ k, view c k = disk c k) →
  header_ok (disk_header (disk c)) → (length (listed (disk_header (disk c))) < capacity c)%nat →
  wp (log_new (E := E) ROOT_DEV sb) (λ s c', c' = io s ∧ log_inv s [] [] ∧ outstanding s = 0 ∧
    lh_len (disk_header (disk (io s))) = 0 ∧
    ∀ k, k ≠ log_header_block sb → view (io s) k = disk c k ∧ disk (io s) k = disk c k) c.
Proof.
  intros Hg Hi Hcl Hvd Hh Hroom. rw /log_new /header_new. wp_step. wp_step.
  apply wp_assert; [apply Z.leb_le, Hg|]. wp_step. wp_step. rw /recover_from_log. wp_step.
  assert (disk_header (view c) = disk_header (disk c)) as Ehd by by rw /disk_header Hvd.
  eapply wp_mono; [apply (header_read_wp c Hg Hi); [by rw Ehd|done|by rw Ehd]|].
  intros blocks c1 (Hnd & P1 & _). wp_step.
  eapply wp_mono; [apply (install_transaction_wp blocks c1 []); [|done]|].
  { rw app_nil_r. apply P1. }
  intros ? c2 [-> F2]. wp_step.
  eapply wp_mono; [apply (write_log_head_wp sb [] c2 []); [apply F2| |constructor|simpl; lia]|].
  { rw (fl_capacity _ _ _ _ F2) (ps_capacity _ _ _ _ P1). change (size (hkeys [])) with 0%nat. lia. }
  intros ? c3 F3. wp_step. wp_step. wp_step. wp_step.
  pose proof (flushed_trans _ _ _ _ _ _ _ F2 F3 (λ _ H, H)) as F.
  assert (∀ k, view c1 k = disk c k ∧ disk c1 k = disk c k) as Hvd1.
  { intros k. destruct (ps_unchanged _ _ _ _ P1 k) as (-> & _ & ->); [tauto|].
    split; [apply Hvd|reflexivity]. }
  assert (∀ f k, (∀ j, f j = disk c j) → k ≠ log_header_block sb →
    apply_writes (((λ br, (key br, view c1 (key br))) <$> blocks) ++
      [(log_header_block sb, pto pod_log_header (log_header_of []))]) f k = disk c k) as Hap.
  { intros f k Hf Hk. rw apply_writes_app apply_writes_one. rw decide_False; [congruence|].
    rw (list_fmap_ext _ (λ br, (key br, disk c (key br))) blocks).
    - intros ? br _. by rw (proj1 (Hvd1 _)).
    - rw (apply_writes_ext _ f (disk c)); [exact Hf|]. apply apply_writes_same. }
  split_and!; [done|split; [done| |constructor|constructor|simpl]|done| |].
  - apply F.
  - destruct Hg; lia.
  - cbn [io]. rw /disk_header (fl_disk _ _ _ _ F) apply_writes_app apply_writes_one decide_True // pof_pto //.
  - intros k Hk. cbn [io]. rw (fl_view _ _ _ _ F) (fl_disk _ _ _ _ F).
    split; apply Hap; try done; intros j; apply Hvd1.
Qed.

(** Booting on a device: a new cache of [n] buffers and [Log::new]. *)
Definition boot (d : D) (n : nat) : option Log :=
  c ← cache_new_in d n;
  match log_new (E := E) ROOT_DEV sb c with
  | Ret s _ => Some s
  | Panic => None
  end.

Lemma boot_ok d n :
  log_geometry sb → header_ok (disk_header (dev_block d)) →
  (length (listed (disk_header (dev_block d))) < n)%nat →
  ∃ s, boot d n = Some s ∧ log_inv s [] [] ∧ outstanding s = 0 ∧
    lh_len (disk_header (disk (io s))) = 0 ∧
    ∀ k, k ≠ log_header_block sb → view (io s) k = dev_block d k ∧ disk (io s) k = dev_block d k.
Proof.
  intros Hg Hh Hl. rw /boot. destruct (cache_new_in d n) as [c|] eqn:Ec; last first.
  { rw /cache_new_in /new_in in Ec. destruct n; [lia|done]. }
  destruct (cache_new_in_inv d n c Ec) as (Hi & Hc & Hd & Hn).
  assert (disk_header (disk c) = disk_header (dev_block d)) as Eh by by rw /disk_header Hd.
  destruct (wp_run _ _ _ (log_new_wp c Hg Hi (λ k, ltac:(by rw /dirty_at Hc))
    (λ k, ltac:(by rw /view Hc)) ltac:(by rw Eh) ltac:(by rw Eh Hn))) as (s & c' & Er & _ & HI & Ho & Hz & Hk).
  exists s. simpl. rw Er. split_and!; [done..|]. intros k Hne. rw -Hd. by apply Hk.
Qed.

(** The state at the commit point: the body and the header are on the disk. *)
Lemma commit_point_wp blocks c hs :
  log_geometry sb → cache_inv c (blocks ++ hs) → blocks ≠ [] →
  Forall loggable (key <$> blocks) → Z.of_nat (length blocks) ≤ nlog sb →
  (size (hkeys (blocks ++ hs)) < capacity c)%nat →
  wp (write_log_body (E := E) ROOT_DEV sb 0 blocks;; write_log_head (E := E) ROOT_DEV sb blocks)
    (λ _ c', disk_header (disk c') = log_header_of (key <$> blocks) ∧
      ∀ k, loggable k → disk c' k = disk c k) c.
Proof.
  intros Hg Hi Hne Hlg Hlen Hroom.
  assert (Forall (λ bn, 0 ≤ bn < 2 ^ 32) (key <$> blocks)) as Hf.
  { eapply Forall_impl; [exact Hlg|]. by intros ? []. }
  assert (length blocks ≤ Z.to_nat MAX_LOG_COUNT)%nat as Hmax.
  { destruct Hg as [_ Hn _]. change LOG_SIZE with 30 in Hn. change MAX_LOG_COUNT with 255. lia. }
  wp_step. eapply wp_mono; [apply (write_log_body_wp sb blocks c (blocks ++ hs) 0 Hi); [set_solver|done|]|].
  { intros br j Hbr Hj. rw Forall_forall in Hlg. specialize (Hlg (key br) ltac:(apply list_elem_of_fmap; eauto)).
    intros Hk. pose proof (loggable_not_body j (view c) [br] (key br) Hg Hlg) as Hn. apply Hn; simpl; [lia|lia|].
    rw list_elem_of_singleton. done. }
  intros ? c1 F1.
  eapply wp_mono; [apply (write_log_head_wp sb blocks c1 (blocks ++ hs)); [apply F1| |done|done]|].
  { by rw (fl_capacity _ _ _ _ F1). }
  intros ? c2 F2. pose proof (flushed_trans _ _ _ _ _ _ _ F1 F2 (λ _ H, H)) as F. split.
  - rw /disk_header (fl_disk _ _ _ _ F) apply_writes_app apply_writes_one decide_True // pof_pto //.
    apply log_header_wf; [done|]. by rw length_fmap.
  - intros k Hk. rw (fl_disk _ _ _ _ F) apply_writes_app apply_writes_one.
    rw decide_False; [intros Hx; by apply (loggable_not_header k Hg Hk)|].
    rw apply_writes_notin //. apply loggable_not_body; [done..|lia].
Qed.

(** the system crashes right after the header was written, the documented
    point at which the transaction commits, and boots again with [n] buffers.
    Recovery succeeds and erases the header, but every block has the content it
    had on the disk before the commit: the transaction is lost.  The first
    logged block is not even in the log, its slot is the header block. *)
Theorem crash_after_commit_point blocks c hs n :
  log_geometry sb → cache_inv c (blocks ++ hs) → blocks ≠ [] →
  Forall loggable (key <$> blocks) → Z.of_nat (length blocks) ≤ nlog sb →
  (size (hkeys (blocks ++ hs)) < capacity c)%nat → (length blocks < n)%nat →
  log_body_block sb 0 = log_header_block sb ∧
  wp (write_log_body (E := E) ROOT_DEV sb 0 blocks;; write_log_head (E := E) ROOT_DEV sb blocks)
    (λ _ c', ∃ s, boot (device c') n = Some s ∧ lh_len (disk_header (disk (io s))) = 0 ∧
      ∀ k, loggable k → view (io s) k = disk c k) c.
Proof.
  intros Hg Hi Hne Hlg Hlen Hroom Hn. split; [rw body_block_eq //; [destruct Hg; lia|rw /log_header_block; lia]|].
  eapply wp_mono; [by apply (commit_point_wp blocks c hs)|]. intros ? c' [Hh Hd].
  assert (length blocks ≤ Z.to_nat MAX_LOG_COUNT)%nat as Hmax.
  { destruct Hg as [_ Hx _]. change LOG_SIZE with 30 in Hx. change MAX_LOG_COUNT with 255. lia. }
  destruct (boot_ok (device c') n Hg) as (s & Hb & _ & _ & Hz & Hk).
  - change (disk_header (dev_block (device c'))) with (disk_header (disk c')). rw Hh. split.
    + rw /= length_fmap. lia.
    + rw /log_header_of. cbn [lh_block_indices]. rw splice_length; rw length_replicate //. by rw length_fmap.
  - change (disk_header (dev_block (device c'))) with (disk_header (disk c')). rw Hh /listed /log_header_of.
    cbn [lh_len]. rw length_take length_fmap. lia.
  - exists s. split_and!; [done..|]. intros k Hlk. rw (proj1 (Hk k (loggable_not_header k Hg Hlk))).
    by apply Hd.
Qed.

(** ** Reservations *)

(** The file system operations in flight, by the blocks each has logged, and the header of a commit that runs without the lock. *)
Record sys := {
  lg : Log;
  used : list (gset Z);
  committing : option (list BlockRef);
}.

(** An operation may log the blocks of its budget as often as it likes. *)
Inductive tx_step : sys → sys → Prop :=
  | step_begin s us cm s' :
      begin_op s = Ret true s' → tx_step (Build_sys s us cm) (Build_sys s' (∅ :: us) cm)
  | step_write s us cm i (u : gset Z) g s' :
      us !! i = Some u → Z.of_nat (size ({[key g]} ∪ u)) ≤ MAX_OP_BLOCKS → log_write sb g s = Ret tt s' →
      tx_step (Build_sys s us cm) (Build_sys s' (<[i := {[key g]} ∪ u]> us) cm)
  | step_end s us cm i u s' :
      us !! i = Some u → end_op s = Ret None s' →
      tx_step (Build_sys s us cm) (Build_sys s' (delete i us) cm)
  | step_end_last s us cm i u s' blocks :
      us !! i = Some u → end_op s = Ret (Some blocks) s' →
      tx_step (Build_sys s us cm) (Build_sys s' (delete i us) (Some blocks))
  | step_commit s us blocks s' :
      (blocks' ← on_io (commit (E := E) ROOT_DEV sb blocks); finish_commit blocks') s = Ret tt s' →
      tx_step (Build_sys s us (Some blocks)) (Build_sys s' us None)
  (** What anyone does with the block cache in between. *)
  | step_cache s us cm c :
      tx_step (Build_sys s us cm) (Build_sys {| io := c; header := header s; outstanding := outstanding s |} us cm).

Definition remaining (us : list (gset Z)) : Z := foldr (λ u n, MAX_OP_BLOCKS - Z.of_nat (size u) + n) 0 us.
Definition within (u : gset Z) : Prop := Z.of_nat (size u) ≤ MAX_OP_BLOCKS.

Record res_inv (t : sys) : Prop := {
  ri_outstanding : outstanding (lg t) = Z.of_nat (length (used t));
  ri_used : Forall within (used t);
  ri_logged blocks : header (lg t) = Some blocks → Forall (λ u, ∀ k, k ∈ u → k ∈ key <$> blocks) (used t);
  ri_space blocks : header (lg t) = Some blocks → Z.of_nat (length blocks) + remaining (used t) ≤ LOG_SIZE;
  ri_none : header (lg t) = None → used t = [];
  ri_length : (length (used t) ≤ 3)%nat;
}.

Lemma remaining_nonneg us : Forall within us → 0 ≤ remaining us.
Proof. induction 1 as [|u us Hu _ IH]; simpl; [done|]. rw /within in Hu. lia. Qed.

Lemma remaining_bound us : Forall within us → remaining us ≤ MAX_OP_BLOCKS * Z.of_nat (length us).
Proof. induction 1; simpl; lia. Qed.

Lemma remaining_insert us i u v :
  us !! i = Some u → remaining (<[i := v]> us) = remaining us + Z.of_nat (size u) - Z.of_nat (size v).
Proof.
  revert i. induction us as [|w us IH]; intros [|i] Hu; simplify_eq/=; [lia|]. rw IH //. lia.
Qed.

Lemma remaining_delete us i u :
  us !! i = Some u → remaining us = MAX_OP_BLOCKS - Z.of_nat (size u) + remaining (delete i us).
Proof.
  revert i. induction us as [|w us IH]; intros [|i] Hu; simplify_eq/=; [done|].
  change (delete (S i) (w :: us)) with (w :: delete i us). simpl. rw (IH i) //. lia.
Qed.

Lemma ref_clone_key b c h c' : ref_clone b c = Ret h c' → key h = key b.
Proof. by intros [= <- _]. Qed.
(** A block that is logged for the first time is appended, one that is logged already changes nothing. *)
Lemma push_inv blocks b c r c' : push sb blocks b c = Ret r c' → ∃ h, key h = key b ∧ r = pushed blocks h.
Proof.
  rw /push forallb_keys. intros (? & ? & Ha & H)%bind_inv. case_bool_decide as Hk.
  - apply bind_inv in H as (h & ? & Hh & H). apply bind_inv in H as (? & ? & _ & H). apply ref_clone_key in Hh.
    injection H as <- <-. exists h. split; [done|]. by rw /pushed decide_False; [rw Hh|].
  - injection H as <- <-. exists b. split; [done|]. by rw /pushed decide_True; [apply dec_stable|].
Qed.

Lemma on_io_inv {A} (m : M cache A) s a s' :
  on_io m s = Ret a s' → ∃ c', m (io s) = Ret a c' ∧ header s' = header s ∧ outstanding s' = outstanding s.
Proof. rw /on_io /zoom. destruct (m (io s)); [|done]. intros [= <- <-]. eauto. Qed.

Lemma log_write_header g s s' :
  log_write sb g s = Ret tt s' →
  ∃ blocks h, header s = Some blocks ∧ key h = key g ∧ header s' = Some (pushed blocks h) ∧ outstanding s' = outstanding s.
Proof.
  rw /log_write. intros (h & s1 & [= <- <-] & H)%bind_inv. destruct (header s) as [blocks|] eqn:Hh; [|done].
  apply bind_inv in H as (? & ? & [= <- <-] & H). apply bind_inv in H as (? & ? & [= <- <-] & H).
  apply bind_inv in H as (? & s1 & Ha & H). assert (s1 = s) as ->.
  { rw /assert_ in Ha. destruct (0 <? outstanding s); [by injection Ha|done]. }
  apply bind_inv in H as (br & s2 & (? & Hbr & H2 & O2)%on_io_inv & H).
  apply bind_inv in H as (bl & s3 & (? & Hp & H3 & O3)%on_io_inv & H).
  apply bind_inv in H as (? & s4 & (? & _ & H4 & O4)%on_io_inv & H). apply ref_clone_key in Hbr. apply push_inv in Hp as (h & Hk & ->).
  injection H as <-. exists blocks, h. split_and!; [done|congruence|done|simpl; congruence].
Qed.

Lemma install_nil blocks c r c' : install_transaction (E := E) blocks c = Ret r c' → r = [].
Proof.
  revert c. induction blocks as [|b blocks IH]; intros c; simpl; [by intros [= <-]|].
  do 5 (intros (? & ? & _ & H)%bind_inv; revert H). apply IH.
Qed.

Lemma commit_nil blocks c r c' : commit (E := E) ROOT_DEV sb blocks c = Ret r c' → r = [].
Proof.
  rw /commit. case_bool_decide as Hb; [by intros [= <- _]|].
  do 2 (intros (? & ? & _ & H)%bind_inv; revert H). intros (r' & ? & Hi & H)%bind_inv.
  apply install_nil in Hi as ->. apply bind_inv in H as (? & ? & _ & H).
  apply bind_inv in H as (? & ? & _ & H). by injection H.
Qed.
Lemma begin_op_inv s us cm s' :
  res_inv (Build_sys s us cm) → begin_op s = Ret true s' → res_inv (Build_sys s' (∅ :: us) cm).
Proof.
  intros [Ho Hu Hlg Hsp Hn Hl]. simpl in *. rw /begin_op /mbind /M_bind /=.
  destruct (header s) as [blocks|] eqn:Hh; [|done]. specialize (Hsp blocks eq_refl).
  pose proof (remaining_nonneg us Hu). pose proof (remaining_bound us Hu).
  change LOG_SIZE with 30 in *. change MAX_OP_BLOCKS with 10 in *. rw Ho.
  rw (wrap_small 64 (Z.of_nat (length us) + 1)); [lia|]. rw (wrap_small 64 (_ * 10)); [lia|].
  rw wrap_small; [lia|]. destruct (Z.ltb_spec 30 (Z.of_nat (length blocks) + (Z.of_nat (length us) + 1) * 10)); [done|].
  intros [= <-]. split; simpl; [lia| | | |congruence|lia].
  - constructor; [done|done].
  - rw Hh. intros ? [= <-]. constructor; [set_solver|by apply Hlg].
  - rw Hh. intros ? [= <-]. change (Z.of_nat (size (∅ : gset Z))) with 0. change LOG_SIZE with 30. change MAX_OP_BLOCKS with 10. lia.
Qed.

Lemma end_op_inv s us cm i u r s' :
  res_inv (Build_sys s us cm) → us !! i = Some u → end_op s = Ret r s' →
  res_inv (Build_sys s' (delete i us) (match r with Some b => Some b | None => cm end)).
Proof.
  intros [Ho Hu Hlg Hsp Hn Hl] Hi. simpl in *. rw /end_op /mbind /M_bind /= /assert_.
  destruct (header s) as [blocks|] eqn:Hh; [|by rw Hn in Hi].
  rw bool_decide_true; [done|]. simpl. specialize (Hsp blocks eq_refl).
  pose proof (length_delete us i (mk_is_Some _ _ Hi)) as Hd.
  pose proof (remaining_delete us i u Hi) as Hr.
  pose proof (Forall_lookup_1 _ _ _ _ Hu Hi) as Hub. rw /within in Hub.
  pose proof (lookup_lt_Some _ _ _ Hi) as Hlt.
  rw Ho. rw wrap_small; [lia|].
  assert (Forall within (delete i us)) as Hu' by by apply Forall_delete.
  destruct (Z.eqb_spec (Z.of_nat (length us) - 1) 0) as [Hz|Hz]; intros [= <- <-]; split; simpl; try done; try lia.
  - intros _. apply length_zero_iff_nil. lia.
  - intros ? [= <-]. by apply Forall_delete, Hlg.
  - intros ? [= <-]. lia.
Qed.

Lemma log_write_inv s us cm i (u : gset Z) g s' :
  res_inv (Build_sys s us cm) → us !! i = Some u → within ({[key g]} ∪ u) → log_write sb g s = Ret tt s' →
  res_inv (Build_sys s' (<[i := {[key g]} ∪ u]> us) cm).
Proof.
  intros [Ho Hu Hlg Hsp Hn Hl] Hi Hw (blocks & h & H1 & Hk & H2 & Hout)%log_write_header. simpl in *.
  specialize (Hlg blocks H1). specialize (Hsp blocks H1). pose proof (Forall_lookup_1 _ _ _ _ Hlg Hi) as Hub. simpl in Hub. split; simpl.
  - rw length_insert. congruence.
  - by apply Forall_insert.
  - rw H2. intros ? [= <-]. apply Forall_insert.
    + eapply Forall_impl; [exact Hlg|]. intros v Hv k Hkv. apply pushed_keys. right. by apply Hv.
    + intros k [->%elem_of_singleton|Hku]%elem_of_union; apply pushed_keys; [by left|right; by apply Hub].
  - rw H2. intros ? [= <-]. rw (remaining_insert us i u _ Hi). rw /pushed. case_decide as Hin.
    + pose proof (subseteq_size u ({[key g]} ∪ u) ltac:(set_solver)). lia.
    + rw size_union; [apply disjoint_singleton_l; intros Hgu; apply Hin; rw Hk; by apply Hub|]. rw size_singleton length_app /=. lia.
  - congruence.
  - by rw length_insert.
Qed.

Lemma tx_step_inv t t' : tx_step t t' → res_inv t → res_inv t'.
Proof.
  intros Hs Ht. destruct Hs as [s us cm s' Hb|s us cm i u g s' Hu Hlt Hw|s us cm i u s' Hu He
    |s us cm i u s' blocks Hu He|s us blocks s' Hc|s us cm c].
  - by apply (begin_op_inv s).
  - by apply (log_write_inv s).
  - by apply (end_op_inv s us cm i u None).
  - by apply (end_op_inv s us cm i u (Some blocks)).
  - destruct Ht as [Ho Hu Hlg Hsp Hn Hl]. simpl in *.
    apply bind_inv in Hc as (r & s1 & (? & Hcm & H1 & O1)%on_io_inv & H). apply commit_nil in Hcm as ->.
    rw /finish_commit in H. apply bind_inv in H as (h & s2 & [= <- <-] & H).
    apply bind_inv in H as (? & s3 & Ha & H). rw /assert_ in Ha. case_bool_decide as Hz; [|done].
    injection Ha as <-. injection H as <-. rw H1 in Hz. specialize (Hn Hz). subst us.
    split; simpl in *; [congruence|done|done| |done|lia]. intros ? [= <-]. simpl. change LOG_SIZE with 30. lia.
  - destruct Ht as [Ho Hu Hlg Hsp Hn Hl]. by split.
Qed.

(** C25: as long as no operation logs more than [MAX_OP_BLOCKS] different blocks, each as often as it likes, the reservations of
    [begin_op] are sound in every reachable state: at most three operations are in flight, the header holds at most [LOG_SIZE] blocks,
    every block an operation in flight has logged is among them, and an operation with budget left finds room for one more. *)
Theorem reservation_sound c blocks t :
  rtc tx_step (Build_sys {| io := c; header := Some []; outstanding := 0 |} [] None) t →
  header (lg t) = Some blocks →
  (length (used t) ≤ 3)%nat ∧ Z.of_nat (length blocks) ≤ LOG_SIZE ∧
  ∀ i u, used t !! i = Some u → (∀ k, k ∈ u → k ∈ key <$> blocks) ∧
    (Z.of_nat (size u) < MAX_OP_BLOCKS → Z.of_nat (length blocks) < LOG_SIZE).
Proof.
  intros Hr Hh. assert (res_inv t) as [Ho Hu Hlg Hsp Hn Hl].
  { remember (Build_sys _ _ _) as t0 eqn:Et. assert (res_inv t0) as H0.
    { subst t0. split; simpl; try done; [|lia]. intros ? [= <-]. simpl. change LOG_SIZE with 30. lia. }
    clear Et Hh. induction Hr; [done|]. eauto using tx_step_inv. }
  specialize (Hsp blocks Hh). pose proof (remaining_nonneg _ Hu). split_and!; [done|lia|].
  intros i u Hi. split; [exact (Forall_lookup_1 _ _ _ _ (Hlg blocks Hh) Hi)|]. intros Hlt. rw (remaining_delete _ _ _ Hi) in Hsp.
  pose proof (remaining_nonneg (delete i (used t)) (Forall_delete _ _ _ Hu)). lia.
Qed.

(** When the log is full, the next block panics even when it is logged already. *)
Lemma push_full_panics blocks b c : Z.of_nat (length blocks) = nlog sb → push sb blocks b c = Panic.
Proof. intros Hl. rw /push. apply bind_Panic. rw /assert_ /max_log_len Hl Z.ltb_irrefl //. Qed.

(** ** A log as large as the cache *)

Lemma full_cache (m : LruMap Z) hs blocks :
  lru_inv m hs → NoDup (key <$> blocks) → (∀ h, h ∈ blocks → h ∈ hs) →
  length blocks = length (list_ m) →
  ∀ e, e ∈ list_ m → ∃ h, h ∈ blocks ∧ e = (Some (key h), value h).
Proof.
  intros Hi Hnd Hsub Hlen e He.
  set (f := λ h : LruValue Z, (Some (key h), value h)).
  assert (NoDup (f <$> blocks)) as Hn.
  { apply (NoDup_fmap_1 (λ e : option Z * nat, default 0 e.1)).
    rw -list_fmap_compose. done. }
  assert (f <$> blocks ⊆+ list_ m) as Hs.
  { apply NoDup_submseteq; [done|]. intros x (h & -> & Hh)%list_elem_of_fmap.
    apply (inv_handles _ _ Hi). auto. }
  assert (f <$> blocks ≡ₚ list_ m) as Hp.
  { apply submseteq_length_Permutation; [done|]. rw length_fmap. lia. }
  rw -Hp in He. apply list_elem_of_fmap in He as (h & -> & Hh). eauto.
Qed.

(** the cache has as many buffers as the log has slots ([NBUF] and
    [LOG_SIZE] are both 30).  A commit of a log that fills the cache panics: no
    buffer is left for the log body. *)
Theorem full_log_commit_panics blocks c hs :
  log_geometry sb → cache_inv c (blocks ++ hs) → NoDup (key <$> blocks) → blocks ≠ [] →
  Forall loggable (key <$> blocks) → length blocks = capacity c →
  commit (E := E) ROOT_DEV sb blocks c = Panic.
Proof.
  intros Hg Hi Hnd Hne Hlg Hlen. rw /commit bool_decide_false //. apply bind_Panic.
  destruct blocks as [|br blocks]; [done|]. simpl.
  destruct (wp_run _ _ _ (lock_wp c _ br Hi ltac:(left))) as (? & c1 & E1 & -> & P1 & S1).
  rw (bind_Ret _ _ _ _ _ E1).
  destruct (wp_run _ _ _ (read_wp c1 _ br (pr_inv _ _ _ _ P1) ltac:(left) S1)) as (? & c2 & E2 & -> & P2 & L2).
  rw (bind_Ret _ _ _ _ _ E2). apply bind_Panic.
  pose proof (full_cache (lru c2) _ (br :: blocks) (ci_lru _ _ (pr_inv _ _ _ _ P2)) Hnd ltac:(set_solver)) as Hfull.
  specialize (Hfull ltac:(rw Hlen -(pr_capacity _ _ _ _ P1) -(pr_capacity _ _ _ _ P2); done)).
  rw /block_io_get /= /cache_get. rw (bind_Ret _ _ _ None c2) //.
  rw /try_get. pose proof (lru_get_None (lru c2) _ (log_body_block sb 0) (ci_lru _ _ (pr_inv _ _ _ _ P2))) as [_ Hn].
  destruct (lru_get (log_body_block sb 0) (lru c2)) as [o m'] eqn:Eg.
  assert (o = None) as ->.
  { apply Hn. split.
    - intros (v & Hv)%elem_of_keys. apply Hfull in Hv as (h & Hh & [= Hk _]).
      rw Forall_forall in Hlg. destruct (Hlg (key h)) as [_ Ho]; [apply list_elem_of_fmap; eauto|]. apply Ho.
      rw -Hk body_block_eq //; destruct Hg; lia.
    - intros v ([k' v'] & -> & Hv)%list_elem_of_fmap. apply Hfull in Hv as (h & Hh & [= -> ->]).
      apply refs_elem. set_solver. }
  assert (m' = lru c2) as ->; [|by destruct c2].
  rw /lru_get in Eg. destruct (find_key _ _); [done|]. by destruct (recycle _ _ _) as [[]|]; simplify_eq.
Qed.
End recovery.

(** ** An execution *)

Module Example.
#[local] Instance dev : BlockDevice MemDisk.t Empty_set := MemDisk.device BS.
#[local] Instance disk_dev : DiskDevice MemDisk.t Empty_set BS := MemDisk.disk_device BS.

Lemma mkfs_geometry : log_geometry mkfs_sb.
Proof. split; vm_compute; intuition discriminate. Qed.

(** A new cache on a blank disk, and one block of it mutated and pinned. *)
Definition fresh (n : nat) : @BlockIoCache MemDisk.t :=
  default {| device := MemDisk.blank; lru := {| list_ := []; strong := ∅ |}; cells := ∅ |}
    (cache_new_in MemDisk.blank n).
Definition cache0 : @BlockIoCache MemDisk.t := fresh 4.
Definition pin_dirty (k : Z) : M (@BlockIoCache MemDisk.t) BlockRef :=
  h ← block_io_get ROOT_DEV k;
  g ← lock_ h;
  g ← set_data BS g (replicate BS Byte.x41);
  ref_drop g;;
  mret h.

Lemma pin_dirty_ok n k :
  ∃ h c, pin_dirty k (fresh (S n)) = Ret h c ∧ cache_inv (E := Empty_set) (BLOCK_SIZE := BS) c [h] ∧
    key h = k ∧ capacity c = S n.
Proof.
  destruct (cache_new_in_inv (E := Empty_set) (BLOCK_SIZE := BS) MemDisk.blank (S n) (fresh (S n)) eq_refl) as (HI & _ & _ & Hc).
  assert (wp (pin_dirty k) (λ h c, cache_inv (E := Empty_set) (BLOCK_SIZE := BS) c [h] ∧
    key h = k ∧ capacity c = S n) (fresh (S n))) as (h & c & ? & ? & ? & ?)%wp_run; [|by exists h, c].
  rw /pin_dirty. wp_step. eapply wp_mono; [apply (get_wp (fresh (S n)) [] k HI), room_any; rw Hc; change (size (hkeys [])) with 0%nat; lia|].
  intros h c1 [<- P1]. wp_step. eapply wp_mono; [apply (lock_wp c1 [h] h); [apply P1|left]|].
  intros ? c2 (-> & P2 & S2). wp_step.
  eapply wp_mono; [apply (set_data_wp c2 [h; h] h); [apply P2|left|done|apply length_replicate]|].
  intros ? c3 (-> & P3 & M3). wp_step.
  eapply wp_mono; [apply (drop_wp c3 [h] h); [apply P3|left]|]. intros ? c4 P4. wp_steps.
  split_and!; [apply P4|done|].
  by rw (pr_capacity _ _ _ _ P4) (pr_capacity _ _ _ _ P3) (pr_capacity _ _ _ _ P2) (pr_capacity _ _ _ _ P1).
Qed.

Lemma loggable_100 : loggable mkfs_sb 100.
Proof. split; vm_compute; intuition discriminate. Qed.

Lemma commit_installs_witness :
  ∃ h c, pin_dirty 100 cache0 = Ret h c ∧
    wp (commit (E := Empty_set) ROOT_DEV mkfs_sb [h]) (λ r c', r = [] ∧
      disk (E := Empty_set) (BLOCK_SIZE := BS) c' 100 = view (E := Empty_set) (BLOCK_SIZE := BS) c 100) c.
Proof.
  destruct (pin_dirty_ok 3 100) as (h & c & Hr & Hi & Hk & Hc). exists h, c. split; [done|].
  eapply wp_mono; [apply (commit_installs mkfs_sb [h] c [] mkfs_geometry)|].
  - by rw app_nil_r.
  - apply NoDup_singleton.
  - done.
  - apply Forall_singleton. rw Hk. apply loggable_100.
  - done.
  - rw app_nil_r Hc hkeys_cons; change (hkeys []) with (∅ : gset Z); rw right_id_L size_singleton. lia.
  - intros r c' (-> & _ & _ & _ & Hd). split; [done|].
    destruct (Hd 100 loggable_100) as (_ & -> & _). by rw decide_True; [rw /= Hk; left|].
Defined.

Lemma crash_after_commit_point_witness :
  ∃ h c, pin_dirty 100 cache0 = Ret h c ∧
    wp (write_log_body (E := Empty_set) ROOT_DEV mkfs_sb 0 [h];;
        write_log_head (E := Empty_set) ROOT_DEV mkfs_sb [h])
      (λ _ c', ∃ s, boot (E := Empty_set) mkfs_sb (device c') 4 = Some s ∧
        view (E := Empty_set) (BLOCK_SIZE := BS) (io s) 100 =
          disk (E := Empty_set) (BLOCK_SIZE := BS) c 100) c.
Proof.
  destruct (pin_dirty_ok 3 100) as (h & c & Hr & Hi & Hk & Hc). exists h, c. split; [done|].
  eapply wp_mono; [apply (crash_after_commit_point mkfs_sb [h] c [] 4 mkfs_geometry)|].
  - by rw app_nil_r.
  - done.
  - apply Forall_singleton. rw Hk. apply loggable_100.
  - done.
  - rw app_nil_r Hc hkeys_cons; change (hkeys []) with (∅ : gset Z); rw right_id_L size_singleton. lia.
  - simpl. lia.
  - intros ? c' (s & Hb & _ & Hd). exists s. split; [done|]. apply Hd, loggable_100.
Defined.

Lemma full_log_commit_panics_witness :
  ∃ h c, pin_dirty 100 (fresh 1) = Ret h c ∧ commit (E := Empty_set) ROOT_DEV mkfs_sb [h] c = Panic.
Proof.
  destruct (pin_dirty_ok 0 100) as (h & c & Hr & Hi & Hk & Hc). exists h, c. split; [done|].
  apply (full_log_commit_panics mkfs_sb [h] c [] mkfs_geometry).
  - by rw app_nil_r.
  - apply NoDup_singleton.
  - done.
  - apply Forall_singleton. rw Hk. apply loggable_100.
  - by rw Hc.
Defined.

(** One operation in flight. *)
Lemma reservation_sound_witness :
  let t := Build_sys {| io := cache0; header := Some []; outstanding := 1 |} [∅] None in
  (length (used t) ≤ 3)%nat ∧ Z.of_nat (length (@nil BlockRef)) ≤ LOG_SIZE ∧
  ∀ i (u : gset Z), used t !! i = Some u → (∀ k, k ∈ u → k ∈ key <$> (@nil BlockRef)) ∧
    (Z.of_nat (size u) < MAX_OP_BLOCKS → Z.of_nat (length (@nil BlockRef)) < LOG_SIZE).
Proof.
  intros t. apply (reservation_sound (E := Empty_set) mkfs_sb cache0 [] t); [|done].
  apply rtc_once. constructor. reflexivity.
Defined.
End Example.
