(* ===== verification/DataBlock.v ===== *)
(** * Data blocks

    Model of [crates/kernel/ov6_kernel/src/fs/data_block.rs]: the allocation and
    the release of disk blocks in the bitmap, over the block store.

    [used] is the bitmap as a predicate on block numbers and [free_list] the free
    blocks in order: [data_alloc] takes the head of that list, [data_free] puts a
    block back. *)

From S2P Require Import Prelude KError Pod FsTypes BlockIo Store.

Section data_block.
Context {S : Type} `{!TxStore S} (sb : SuperBlock).

(** The search of [alloc]: [(0..BITS_PER_BLOCK).take_while(..).find(..)]. *)
Fixpoint find_free (b : list byte) (bn0 : Z) (bnis : list Z) : M S (option Z) :=
  match bnis with
  | [] => mret None
  | bni :: bnis' =>
      if wrap 32 (bn0 + bni) <? sb_size sb then
        a ← is_allocated b bni;
        if (a : bool) then find_free b bn0 bnis' else mret (Some bni)
      else mret None
  end.

(** The loop of [alloc] over the blocks of the bitmap. *)
Fixpoint alloc_from (bn0s : list Z) : M S (result KernelError Z) :=
  match bn0s with
  | [] => mret (Err StorageOutOfBlocks)
  | bn0 :: bn0s' =>
      b ← st_read (bmap_block sb bn0);
      o ← find_free b bn0 (seqZ 0 BITS_PER_BLOCK);
      match o with
      | None => alloc_from bn0s'
      | Some bni =>
          b' ← bmap_allocate b bni;
          st_update (bmap_block sb bn0) (λ _, b');;
          let bn := wrap 32 (bn0 + bni) in
          st_zero bn;;
          mret (Ok bn)
      end
  end.

(** [data_block::alloc]. *)
Definition data_alloc : M S (result KernelError Z) :=
  alloc_from (step_by 0 (sb_size sb) BITS_PER_BLOCK).

(** [data_block::free]. *)
Definition data_free (bn : Z) : M S unit :=
  b ← st_read (bmap_block sb bn);
  a ← is_allocated b (bn mod BITS_PER_BLOCK);
  assert_ a;;
  b' ← bmap_free b (bn mod BITS_PER_BLOCK);
  st_update (bmap_block sb bn) (λ _, b').

(** ** The bitmap *)

Definition used (v : Z → list byte) (bn : Z) : bool :=
  bit_at (v (bmap_block sb bn)) (bn mod BITS_PER_BLOCK).

(** The free blocks, in the order [alloc] finds them. *)
Definition free_list (v : Z → list byte) : list Z :=
  filter (λ bn, used v bn = false) (seqZ 0 (sb_size sb)).

(** Every block of the metadata is in use. *)
Definition meta_reserved (v : Z → list byte) : Prop :=
  ∀ bn, 0 ≤ bn < sb_size sb → used v bn = false → data_start sb ≤ bn.

Lemma elem_of_free_list v bn :
  bn ∈ free_list v ↔ 0 ≤ bn < sb_size sb ∧ used v bn = false.
Proof. rw /free_list list_elem_of_filter elem_of_seqZ. naive_solver lia. Qed.

Lemma free_list_nodup v : NoDup (free_list v).
Proof. apply NoDup_filter, NoDup_seqZ. Qed.

(** ** What the operations do *)

Section correct.
Context `{!TxStoreLaws S}.
Hypothesis Hsb : sb_ok sb.
Implicit Types (v : Z → list byte) (s : S) (bs : gset Z) (bn : Z).

Lemma bmap_bn0 i bni :
  0 ≤ i → 0 ≤ bni < BITS_PER_BLOCK → i * BITS_PER_BLOCK < sb_size sb →
  i * BITS_PER_BLOCK + bni < sb_size sb →
  bmap_block sb (i * BITS_PER_BLOCK) = bmap_block sb (i * BITS_PER_BLOCK + bni) ∧
  (i * BITS_PER_BLOCK + bni) mod BITS_PER_BLOCK = bni.
Proof.
  intros Hi Hb H1 H2. change BITS_PER_BLOCK with 8192 in *.
  rw !bmap_block_eq //; [lia|lia|]. change BITS_PER_BLOCK with 8192.
  rw Z.div_mul // Z.div_add_l // (Z.div_small bni) //. split; [lia|].
  rw Z.add_comm Z.mod_add // Z.mod_small //.
Qed.

(** The search finds the first free block from [i] on. *)
Lemma find_free_run b bn0 i n s :
  is_block b → 0 ≤ bn0 < sb_size sb → 0 ≤ i → i + Z.of_nat n ≤ BITS_PER_BLOCK →
  ∃ o, find_free b bn0 (seqZ i (Z.of_nat n)) s = Ret o s ∧
    match o with
    | Some bni => i ≤ bni < i + Z.of_nat n ∧ bn0 + bni < sb_size sb ∧ bit_at b bni = false ∧
        ∀ j, i ≤ j < bni → bit_at b j = true
    | None => ∀ j, i ≤ j < i + Z.of_nat n → bn0 + j < sb_size sb → bit_at b j = true
    end.
Proof.
  intros Hb Hbn0. revert i. induction n as [|n IH]; intros i Hi Hn.
  - exists None. split; [done|]. intros. lia.
  - rw seqZ_cons; [lia|]. replace (Z.pred (Z.of_nat (Datatypes.S n))) with (Z.of_nat n) by lia. simpl.
    pose proof (sb_size_bound sb Hsb). rw wrap_small; [change BITS_PER_BLOCK with 8192 in *; lia|].
    destruct (Z.ltb_spec (bn0 + i) (sb_size sb)) as [Hlt|Hge]; last first.
    { exists None. split; [done|]. intros. lia. }
    rw (bind_Ret _ _ _ _ _ (is_allocated_run b i s Hb ltac:(lia))).
    destruct (bit_at b i) eqn:Hbit.
    + destruct (IH (Z.succ i)) as (o & Er & Ho); [lia|lia|]. exists o. split; [done|].
      destruct o as [bni|].
      * destruct Ho as (? & ? & ? & Hbelow). split_and!; [lia|lia|done|done|].
        intros j Hj. destruct (decide (j = i)) as [->|]; [done|]. apply Hbelow. lia.
      * intros j Hj Hs. destruct (decide (j = i)) as [->|]; [done|]. apply Ho; lia.
    + exists (Some i). split; [done|]. split_and!; [lia|lia|done|done|]. intros. lia.
Qed.

Lemma find_free_upto N b bn0 s :
  is_block b → 0 ≤ bn0 < sb_size sb → 0 ≤ N ≤ BITS_PER_BLOCK →
  ∃ o, find_free b bn0 (seqZ 0 N) s = Ret o s ∧
    match o with
    | Some bni => 0 ≤ bni < N ∧ bn0 + bni < sb_size sb ∧ bit_at b bni = false ∧
        ∀ j, 0 ≤ j < bni → bit_at b j = true
    | None => ∀ j, 0 ≤ j < N → bn0 + j < sb_size sb → bit_at b j = true
    end.
Proof.
  intros Hb Hbn0 HN. destruct (find_free_run b bn0 0 (Z.to_nat N) s) as (o & Er & Ho); [done..|lia|].
  rw Z2Nat.id in Er; [lia|]. exists o. split; [done|]. rw Z2Nat.id in Ho; [lia|]. done.
Qed.

(** [bn] is the free block with the smallest number. *)
Definition first_free v bn : Prop :=
  0 ≤ bn < sb_size sb ∧ used v bn = false ∧ ∀ j, 0 ≤ j < bn → used v j = true.

(** What allocating [bn] changes. *)
Definition allocated v bn v' : Prop :=
  v' bn = zero_block ∧
  (∀ k, k ≠ bn → k ≠ bmap_block sb bn → v' k = v k) ∧
  (∀ j, 0 ≤ j < sb_size sb → used v' j = if decide (bn = j) then true else used v j).

Lemma bmap_block_ne bn j :
  0 ≤ bn < sb_size sb → 0 ≤ j < sb_size sb → bmap_block sb bn = bmap_block sb j →
  bn ≠ j → bn mod BITS_PER_BLOCK ≠ j mod BITS_PER_BLOCK.
Proof.
  intros Hbn Hj Hb Hne Hm. apply Hne. rw !bmap_block_eq // in Hb.
  rw (Z.div_mod bn BITS_PER_BLOCK) // (Z.div_mod j BITS_PER_BLOCK) // Hm.
  assert (bn / BITS_PER_BLOCK = j / BITS_PER_BLOCK) as -> by lia. done.
Qed.

Lemma mod_bits bn : 0 ≤ bn mod BITS_PER_BLOCK < BITS_PER_BLOCK.
Proof. by apply Z.mod_pos_bound. Qed.

(** Rewriting one bit of the bitmap. *)
Lemma used_upd v bn b' w j :
  0 ≤ bn < sb_size sb → 0 ≤ j < sb_size sb →
  (∀ m, 0 ≤ m < BITS_PER_BLOCK →
    bit_at b' m = if decide (bn mod BITS_PER_BLOCK = m) then w else bit_at (v (bmap_block sb bn)) m) →
  used (upd v (bmap_block sb bn) b') j = if decide (bn = j) then w else used v j.
Proof.
  intros Hbn Hj Hb'. rw /used /upd. case_decide as Eb; last first.
  { rw decide_False //. by intros ->. }
  rw Hb'; [apply mod_bits|]. destruct (decide (bn = j)) as [->|Hne].
  - by rw decide_True.
  - rw decide_False; [by apply bmap_block_ne|]. by rw Eb.
Qed.

Lemma alloc_from_wp bs v s i n :
  stored bs v s → meta_reserved v → 0 ≤ i →
  i + Z.of_nat n = (sb_size sb + BITS_PER_BLOCK - 1) / BITS_PER_BLOCK →
  (∀ j, 0 ≤ j < i * BITS_PER_BLOCK → j < sb_size sb → used v j = true) →
  (∀ bn, first_free v bn → bn ∈ bs ∧ bmap_block sb bn ∈ bs) →
  wp (alloc_from ((λ i, 0 + i * BITS_PER_BLOCK) <$> seqZ i (Z.of_nat n)))
    (λ r s', match r with
     | Ok bn => first_free v bn ∧ ∃ v', stored bs v' s' ∧ allocated v bn v'
     | Err e => e = StorageOutOfBlocks ∧ stored bs v s' ∧ ∀ j, 0 ≤ j < sb_size sb → used v j = true
     end) s.
Proof.
  intros Hst Hres Hi Hn Hbelow Hbs. revert s i Hst Hi Hn Hbelow. induction n as [|n IH]; intros s i Hst Hi Hn Hbelow.
  - cbn [alloc_from]. wp_steps. split_and!; [done|done|]. intros j Hj. apply Hbelow; [|lia].
    change BITS_PER_BLOCK with 8192 in *.
    pose proof (Z.mul_succ_div_gt (sb_size sb + 8192 - 1) 8192 ltac:(lia)). lia.
  - rw seqZ_cons; [lia|]. replace (Z.pred (Z.of_nat (Datatypes.S n))) with (Z.of_nat n) by lia.
    rw fmap_cons. cbn [alloc_from]. rw Z.add_0_l.
    assert (i * BITS_PER_BLOCK < sb_size sb) as Hlt.
    { change BITS_PER_BLOCK with 8192 in *.
      pose proof (Z.mul_div_le (sb_size sb + 8192 - 1) 8192 ltac:(lia)). lia. }
    assert (0 ≤ i * BITS_PER_BLOCK) by (change BITS_PER_BLOCK with 8192; lia).
    wp_step. eapply wp_mono; [by apply (stored_read bs v)|]. intros b s1 [-> Hst1].
    destruct (find_free_upto BITS_PER_BLOCK (v (bmap_block sb (i * BITS_PER_BLOCK)))
      (i * BITS_PER_BLOCK) s1) as (o & Er & Ho); [by apply (stored_block bs v s1)|lia|done|].
    wp_step. apply (wp_of_run _ _ _ o s1 Er). destruct o as [bni|].
    + destruct Ho as (Hbni & Hs & Hfree & Hb). set (bn := i * BITS_PER_BLOCK + bni) in *.
      destruct (bmap_bn0 i bni) as [Eb Em]; [done..|]. fold bn in Eb, Em. rw Eb in Hfree Hb |- *.
      assert (first_free v bn) as Hff.
      { split_and!; [lia|done|by rw /used Em|]. intros j Hj.
        destruct (decide (j < i * BITS_PER_BLOCK)) as [Hjl|Hjl]; [apply Hbelow; lia|].
        destruct (bmap_bn0 i (j - i * BITS_PER_BLOCK)) as [Ej Emj]; [lia..|].
        replace (i * BITS_PER_BLOCK + (j - i * BITS_PER_BLOCK)) with j in * by lia.
        rw /used -Ej Emj Eb. apply Hb. lia. }
      destruct (Hbs bn Hff) as [Hin Hinb]. pose proof (Hres bn ltac:(lia) ltac:(apply Hff)) as Hnb.
      destruct (bmap_allocate_run (v (bmap_block sb bn)) bni s1) as (b' & Ea & Hb' & Hbits);
        [by apply (stored_block bs v s1)|done|].
      wp_step. apply (wp_of_run _ _ _ b' s1 Ea). wp_step.
      eapply wp_mono; [by apply (stored_update bs v)|]. intros ? s2 Hst2. wp_step.
      rw wrap_small; [pose proof (sb_size_bound sb Hsb); change BITS_PER_BLOCK with 8192 in *; lia|]. fold bn.
      eapply wp_mono; [exact (stored_zero bs _ s2 bn Hst2 Hin)|]. intros ? s3 Hst3. wp_steps. split; [done|].
      eexists. split; [exact Hst3|]. split_and!.
      * apply upd_eq.
      * intros k Hk1 Hk2. rw !upd_ne //; congruence.
      * intros j Hj. rw -(used_upd v bn b' true j); [lia|done|by rw Em|].
        rw /used upd_ne //. pose proof (bmap_block_meta sb j Hsb Hj). lia.
    + eapply wp_mono; [apply (IH s1 (Z.succ i)); [done|lia|lia|]|done].
      intros j Hj Hs. destruct (decide (j < i * BITS_PER_BLOCK)) as [Hjl|Hjl]; [apply Hbelow; lia|].
      destruct (bmap_bn0 i (j - i * BITS_PER_BLOCK)) as [Ej Emj]; [lia..|].
      replace (i * BITS_PER_BLOCK + (j - i * BITS_PER_BLOCK)) with j in * by lia.
      rw /used -Ej Emj. apply Ho; lia.
Qed.

(** *** The free list *)

Lemma size_nonneg : 0 ≤ sb_size sb.
Proof. destruct (sb_wf sb Hsb) as (_ & [] & _). done. Qed.

Lemma free_list_split v bn :
  first_free v bn → free_list v = bn :: filter (λ bn, used v bn = false) (seqZ (bn + 1) (sb_size sb - bn - 1)).
Proof.
  intros ([Hbn1 Hbn2] & Hu & Hb). rw /free_list.
  replace (sb_size sb) with (bn + (1 + (sb_size sb - bn - 1))) at 1 by lia.
  rw (seqZ_app 0 bn); [lia..|]. rw (seqZ_app _ 1); [lia..|]. rw !filter_app.
  rw filter_none; [|rw app_nil_l /= filter_cons_True //].
  intros j Hj%elem_of_seqZ. rw Hb; [lia|done].
Qed.

Lemma free_list_head v bn rest : free_list v = bn :: rest → first_free v bn.
Proof.
  intros E. assert (bn ∈ free_list v) as [Hbn Hu]%elem_of_free_list by (rw E; left).
  split_and!; [lia|lia|done|]. intros j Hj. destruct (used v j) eqn:Hj0; [done|].
  assert (j ∈ free_list v) as Hin by (apply elem_of_free_list; split; [lia|done]).
  exfalso. revert E Hin. rw /free_list.
  replace (sb_size sb) with (bn + (sb_size sb - bn)) by lia. rw seqZ_app; [lia..|]. rw filter_app.
  intros E _. assert (j ∈ filter (λ bn, used v bn = false) (seqZ 0 bn)) as Hin.
  { apply list_elem_of_filter. split; [done|]. apply elem_of_seqZ. lia. }
  destruct (filter (λ bn, used v bn = false) (seqZ 0 bn)) as [|x l] eqn:Ef; [set_solver|].
  injection E as -> _. assert (bn ∈ filter (λ bn, used v bn = false) (seqZ 0 bn)) as Hx by (rw Ef; left).
  apply list_elem_of_filter in Hx as [_ Hx%elem_of_seqZ]. lia.
Qed.

Lemma free_list_nil v : free_list v = [] ↔ ∀ j, 0 ≤ j < sb_size sb → used v j = true.
Proof.
  split.
  - intros E j Hj. destruct (used v j) eqn:Hu; [done|].
    assert (j ∈ free_list v) as Hin by by apply elem_of_free_list. rw E in Hin. set_solver.
  - intros H. apply filter_none. intros j Hj%elem_of_seqZ. rw H; [lia|done].
Qed.

Lemma tail_free_list v bn v' :
  first_free v bn →
  (∀ j, 0 ≤ j < sb_size sb → used v' j = if decide (bn = j) then true else used v j) →
  free_list v' = tail (free_list v).
Proof.
  intros Hff Hu. rw (free_list_split v bn Hff) /=. rw /free_list.
  destruct Hff as ([Hbn1 Hbn2] & Hf & Hb).
  replace (sb_size sb) with (bn + (1 + (sb_size sb - bn - 1))) at 1 by lia.
  rw (seqZ_app 0 bn); [lia..|]. rw (seqZ_app _ 1); [lia..|]. rw !filter_app.
  rw filter_none; [intros j Hj%elem_of_seqZ; rw Hu; [lia|]; case_decide; [done|]; rw Hb; [lia|done]|].
  rw filter_none; [intros j Hj%elem_of_seqZ; rw Hu; [lia|]; by rw decide_True; [lia|]|].
  apply filter_ext_in. intros j Hj%elem_of_seqZ. rw Hu; [lia|]. rw decide_False; [lia|done].
Qed.

Lemma allocated_reserved v bn v' : allocated v bn v' → meta_reserved v → meta_reserved v'.
Proof.
  intros (_ & _ & Hu) Hr j Hj Hf. rw Hu // in Hf. case_decide; [done|]. by apply Hr.
Qed.

Lemma allocated_free_list v bn v' :
  first_free v bn → allocated v bn v' → free_list v' = tail (free_list v).
Proof. intros Hff (_ & _ & Hu). by apply (tail_free_list v bn). Qed.

(** [alloc] takes the first free block. *)
Lemma data_alloc_wp bs v s :
  stored bs v s → meta_reserved v →
  (∀ bn, head (free_list v) = Some bn → bn ∈ bs ∧ bmap_block sb bn ∈ bs) →
  wp data_alloc (λ r s',
    match free_list v with
    | bn :: rest => r = Ok bn ∧ ∃ v', stored bs v' s' ∧ allocated v bn v' ∧
        free_list v' = rest ∧ meta_reserved v'
    | [] => r = Err StorageOutOfBlocks ∧ stored bs v s'
    end) s.
Proof.
  intros Hst Hres Hbs. rw /data_alloc /step_by. rw Z.sub_0_r. set (n := (_ + _ - 1) / _).
  assert (0 ≤ n).
  { apply Z.div_pos; [|done]. pose proof size_nonneg. change BITS_PER_BLOCK with 8192. lia. }
  rw -(Z2Nat.id n) //. eapply wp_mono; [apply (alloc_from_wp bs v s 0 (Z.to_nat n) Hst Hres)|].
  - done.
  - rw Z2Nat.id //.
  - intros. lia.
  - intros bn Hff. apply Hbs. by rw (free_list_split v bn Hff).
  - intros [bn|e] s'.
    + intros (Hff & v' & Hst' & Ha). pose proof (allocated_free_list v bn v' Hff Ha) as Ef.
      rw (free_list_split v bn Hff) /= in Ef. rw (free_list_split v bn Hff). split; [done|].
      exists v'. split_and!; [done..|]. by apply (allocated_reserved v bn).
    + intros (-> & Hst' & Hall). by rw (proj2 (free_list_nil v) Hall).
Qed.

(** [free] puts a block back. *)
Lemma data_free_wp bs v s bn :
  stored bs v s → 0 ≤ bn < sb_size sb → used v bn = true → bmap_block sb bn ∈ bs →
  wp (data_free bn) (λ _ s', ∃ v', stored bs v' s' ∧
    (∀ k, k ≠ bmap_block sb bn → v' k = v k) ∧
    ∀ j, 0 ≤ j < sb_size sb → used v' j = if decide (bn = j) then false else used v j) s.
Proof.
  intros Hst Hbn Hu Hin. rw /data_free. wp_step. eapply wp_mono; [by apply (stored_read bs v)|].
  intros b s1 [-> Hst1]. assert (is_block (v (bmap_block sb bn))) as Hb by by apply (stored_block bs v s1).
  wp_step. apply (wp_of_run _ _ _ _ _ (is_allocated_run _ _ s1 Hb (mod_bits bn))). wp_step.
  apply wp_assert; [done|]. wp_step.
  destruct (bmap_free_run _ _ s1 Hb (mod_bits bn)) as (b' & Ef & Hb' & Hbits).
  apply (wp_of_run _ _ _ _ _ Ef). eapply wp_mono; [by apply (stored_update bs v)|].
  intros ? s2 Hst2. eexists. split_and!; [exact Hst2| |].
  - intros k Hk. apply upd_ne. congruence.
  - intros j Hj. by apply used_upd.
Qed.

(** Freeing a free block panics. *)
Lemma data_free_panic bs v s bn :
  stored bs v s → 0 ≤ bn < sb_size sb → used v bn = false → data_free bn s = Panic.
Proof.
  intros Hst Hbn Hu. rw /data_free.
  destruct (wp_run _ _ _ (stored_read bs v s (bmap_block sb bn) Hst)) as (b & s1 & E & -> & Hst1).
  rw (bind_Ret _ _ _ _ _ E).
  assert (is_block (v (bmap_block sb bn))) as Hb by by apply (stored_block bs v s1).
  rw (bind_Ret _ _ _ _ _ (is_allocated_run _ _ s1 Hb (mod_bits bn))). rw /used in Hu. by rw Hu.
Qed.
End correct.
End data_block.
