(* ===== verification/Inode.v ===== *)
(** * Inodes and their content

    Model of [InodeData] and [alloc_ino] in
    [crates/kernel/ov6_kernel/src/fs/inode/mod.rs] and of
    [crates/kernel/ov6_kernel/src/fs/inode/content.rs].  A [LockedTxInode] is the
    inode number, the transaction and the data under the inode's lock: the state
    [Locked] of the operations here pairs the block store with that data.
    Destination and source buffers are the byte strings copied to and from them. *)

From S2P Require Import Prelude KError Pod FsTypes BlockIo Store DataBlock.

Record InodeData := {
  id_ty : Z;
  id_major : Z;
  id_minor : Z;
  id_nlink : Z;
  id_size : Z;
  id_addrs : list (option Z);
}.

(** [InodeData::from_repr]. *)
Definition from_repr (r : DiskInode) : InodeData :=
  {| id_ty := di_ty r;
     id_major := di_major r;
     id_minor := di_minor r;
     id_nlink := di_nlink r;
     id_size := di_size r;
     id_addrs := read_addrs (di_addrs r) |}.

(** [InodeData::write_repr]; [minor] keeps its value. *)
Definition write_repr {S} (d : InodeData) (r : DiskInode) : M S DiskInode :=
  major ← unwrap (try_from 16 (id_major d));
  addrs ← write_addrs (di_addrs r) (id_addrs d);
  mret {| di_ty := id_ty d;
          di_major := major;
          di_minor := di_minor r;
          di_nlink := id_nlink d;
          di_size := id_size d;
          di_addrs := addrs |}.

Definition set_addrs (a : list (option Z)) (d : InodeData) : InodeData :=
  {| id_ty := id_ty d; id_major := id_major d; id_minor := id_minor d; id_nlink := id_nlink d;
     id_size := id_size d; id_addrs := a |}.
Definition set_size (n : Z) (d : InodeData) : InodeData :=
  {| id_ty := id_ty d; id_major := id_major d; id_minor := id_minor d; id_nlink := id_nlink d;
     id_size := n; id_addrs := id_addrs d |}.
Definition set_ty (t : Z) (d : InodeData) : InodeData :=
  {| id_ty := t; id_major := id_major d; id_minor := id_minor d; id_nlink := id_nlink d;
     id_size := id_size d; id_addrs := id_addrs d |}.
Definition set_nlink (n : Z) (d : InodeData) : InodeData :=
  {| id_ty := id_ty d; id_major := id_major d; id_minor := id_minor d; id_nlink := n;
     id_size := id_size d; id_addrs := id_addrs d |}.
Definition set_dev (major minor : Z) (d : InodeData) : InodeData :=
  {| id_ty := id_ty d; id_major := major; id_minor := minor; id_nlink := id_nlink d;
     id_size := id_size d; id_addrs := id_addrs d |}.

Section inode.
Context {S : Type} `{!TxStore S} (sb : SuperBlock).

(** ** Allocation of an inode number *)

(** The loop of [alloc_ino]; [data_mut] counts as a mutation of the block. *)
Fixpoint alloc_ino_from (ty : Z) (inos : list Z) : M S (result KernelError Z) :=
  match inos with
  | [] => mret (Err StorageOutOfInodes)
  | ino :: inos' =>
      b ← st_read (inode_block sb ino);
      st_update (inode_block sb ino) id;;
      if is_free (block_inode b ino) then
        i ← inode_allocate (block_inode b ino) ty;
        st_update (inode_block sb ino) (λ b, block_inode_mut b ino i);;
        mret (Ok ino)
      else alloc_ino_from ty inos'
  end.
Definition alloc_ino (ty : Z) : M S (result KernelError Z) :=
  alloc_ino_from ty (seqZ 1 (ninodes sb - 1)).

(** ** The locked inode *)

Record Locked := {
  lk_store : S;
  lk_data : InodeData;
}.

Definition on_store {A} (m : M S A) : M Locked A :=
  zoom lk_store (λ s l, {| lk_store := s; lk_data := lk_data l |}) m.
Definition map_data (f : InodeData → InodeData) : M Locked unit :=
  modify (λ l, {| lk_store := lk_store l; lk_data := f (lk_data l) |}).

(** [self.data().addrs[i]]; the callers stay in range. *)
Definition addr (d : InodeData) (i : Z) : option Z := mjoin (id_addrs d !! Z.to_nat i).
Definition set_addr (i : Z) (bn : option Z) (d : InodeData) : InodeData :=
  set_addrs (<[Z.to_nat i := bn]> (id_addrs d)) d.

Section content.
Context (ino : Z) (read_only : bool).

Definition get_or_alloc_direct_data_block (i : Z) : M Locked (result KernelError (option Z)) :=
  assert_ (i <? NUM_DIRECT_REFS);;
  d ← gets lk_data;
  match addr d i with
  | Some bn => mret (Ok (Some bn))
  | None =>
      if read_only then mret (Ok None)
      else
        bn ←? on_store (data_alloc sb);
        map_data (set_addr i (Some bn));;
        mret (Ok (Some bn))
  end.

(** The indirect block, allocated if necessary; the flag says that it is new. *)
Definition get_or_alloc_indirect : M Locked (result KernelError (option (Z * bool))) :=
  d ← gets lk_data;
  match addr d NUM_DIRECT_REFS with
  | Some ind_bn => mret (Ok (Some (ind_bn, false)))
  | None =>
      if read_only then mret (Ok None)
      else
        ind_bn ←? on_store (data_alloc sb);
        map_data (set_addr NUM_DIRECT_REFS (Some ind_bn));;
        mret (Ok (Some (ind_bn, true)))
  end.

Definition get_or_alloc_indirect_data_block (i : Z) : M Locked (result KernelError (option Z)) :=
  o ←? get_or_alloc_indirect;
  match o with
  | None => mret (Ok None)
  | Some (ind_bn, fresh) =>
      found ← (if (fresh : bool) then mret None
               else b ← on_store (st_read ind_bn); indirect_get b i);
      match found with
      | Some bn => mret (Ok (Some bn))
      | None =>
          if read_only then mret (Ok None)
          else
            bn ←? on_store (data_alloc sb);
            b ← on_store (st_read ind_bn);
            b' ← indirect_set b i (Some bn);
            on_store (st_update ind_bn (λ _, b'));;
            mret (Ok (Some bn))
      end
  end.

Definition get_or_alloc_data_block (i : Z) : M Locked (result KernelError (option Z)) :=
  if i <? NUM_DIRECT_REFS then get_or_alloc_direct_data_block i
  else if i - NUM_DIRECT_REFS <? NUM_INDIRECT_REFS then
    get_or_alloc_indirect_data_block (i - NUM_DIRECT_REFS)
  else panic.

(** [LockedTxInode::update]. *)
Definition update : M Locked unit :=
  b ← on_store (st_read (inode_block sb ino));
  d ← gets lk_data;
  i ← write_repr d (block_inode b ino);
  on_store (st_update (inode_block sb ino) (λ _, block_inode_mut b ino i)).

(** The loop over the direct references in [truncate]. *)
Fixpoint truncate_direct (idxs : list Z) : M Locked unit :=
  match idxs with
  | [] => mret tt
  | i :: idxs' =>
      d ← gets lk_data;
      match addr d i with
      | Some bn => map_data (set_addr i None);; on_store (data_free sb bn)
      | None => mret tt
      end;;
      truncate_direct idxs'
  end.

(** [LockedTxInode::truncate]. *)
Definition truncate : M Locked unit :=
  truncate_direct (seqZ 0 NUM_DIRECT_REFS);;
  d ← gets lk_data;
  (match addr d NUM_DIRECT_REFS with
   | Some bn =>
       map_data (set_addr NUM_DIRECT_REFS None);;
       b ← on_store (st_read bn);
       let '(bns, b') := indirect_drain b in
       for_each (omap id bns) (λ bn, on_store (data_free sb bn));;
       on_store (st_update bn (λ _, b'));;
       on_store (data_free sb bn)
   | None => mret tt
   end);;
  map_data (set_size 0);;
  update.

(** [LockedTxInode::free] on the disk. *)
Definition inode_free : M Locked unit :=
  map_data (set_ty 0);;
  update.

(** The loop of [read]: [rest] is what is still to be read, [tot] what was. *)
Fixpoint read_loop (fuel : nat) (off rest tot : Z) (acc : list byte)
    : M Locked (result KernelError (list byte)) :=
  if rest <=? 0 then mret (Ok acc)
  else
    match fuel with
    | O => panic
    | Datatypes.S fuel' =>
        r ← get_or_alloc_data_block (off / FS_BLOCK_SIZE);
        match r with
        | Ok (Some bn) =>
            b ← on_store (st_read bn);
            let m := Z.min rest (FS_BLOCK_SIZE - off mod FS_BLOCK_SIZE) in
            read_loop fuel' (off + m) (rest - m) (tot + m)
              (acc ++ slice (Z.to_nat (off mod FS_BLOCK_SIZE)) (Z.to_nat m) b)
        | Ok None => mret (Ok acc)
        | Err e => if 0 <? tot then mret (Ok acc) else mret (Err e)
        end
    end.

(** [LockedTxInode::read] into a buffer of [len] bytes: the bytes read. *)
Definition read (len off : Z) : M Locked (result KernelError (list byte)) :=
  d ← gets lk_data;
  let size := id_size d in
  if (size <? off) || (match checked_add off len with None => true | Some _ => false end)
  then mret (Ok [])
  else
    let len := Z.min len (size - off) in
    read_loop (Z.to_nat len) off len 0 [].

(** The loop of [write]: the number of bytes written. *)
Fixpoint write_loop (fuel : nat) (off : Z) (src : list byte) (tot : Z)
    : M Locked (result KernelError Z) :=
  match src with
  | [] => mret (Ok tot)
  | _ =>
      match fuel with
      | O => panic
      | Datatypes.S fuel' =>
          r ← get_or_alloc_data_block (off / FS_BLOCK_SIZE);
          match r with
          | Ok (Some bn) =>
              let m := Z.min (Z.of_nat (length src)) (FS_BLOCK_SIZE - off mod FS_BLOCK_SIZE) in
              on_store (st_update bn
                (splice (Z.to_nat (off mod FS_BLOCK_SIZE)) (take (Z.to_nat m) src)));;
              write_loop fuel' (off + m) (drop (Z.to_nat m) src) (tot + m)
          | Ok None => panic
          | Err e => if 0 <? tot then mret (Ok tot) else mret (Err e)
          end
      end
  end.

(** [LockedTxInode::write]. *)
Definition write (src : list byte) (off : Z) : M Locked (result KernelError Z) :=
  if match checked_add off (Z.of_nat (length src)) with
     | None => true
     | Some e => MAX_FILE * FS_BLOCK_SIZE <? e
     end
  then mret (Err FileTooLarge)
  else
    d ← gets lk_data;
    let size := id_size d in
    if size <? off then mret (Err WriteOffsetTooLarge)
    else
      tot ←? write_loop (length src) off src 0;
      (if size <? off + tot then
         n ← unwrap (try_from 32 (off + tot)); map_data (set_size n)
       else mret tt);;
      update;;
      mret (Ok tot).

(** [read_as] and [write_data]. *)
Definition read_as {A} (p : pod A) (off : Z) : M Locked (result KernelError A) :=
  bytes ←? read (Z.of_nat (psize p)) off;
  assert_ (length bytes =? psize p)%nat;;
  mret (Ok (pof p bytes)).
Definition write_data {A} (p : pod A) (off : Z) (x : A) : M Locked (result KernelError unit) :=
  n ←? write (pto p x) off;
  assert_ (n =? Z.of_nat (psize p));;
  mret (Ok tt).
End content.
End inode.
