(* ===== verification/InodeSpec.v ===== *)
(** * What the inode operations do

    The blocks of an inode as a function of the file's block index ([block_of])
    and its content as a function of the byte offset ([byte_at]), on a map of
    blocks [v].  [inode_wf] is the well-formedness of an inode: its blocks are data
    blocks, marked in the bitmap, and no two of its references share a block. *)

From S2P Require Import Prelude KError Pod FsTypes BlockIo Store DataBlock Inode.

Section inode_spec.
Context (sb : SuperBlock).
Implicit Types (v : Z → list byte) (d : InodeData) (i k bn : Z).

Definition ind d : option Z := addr d NUM_DIRECT_REFS.
Definition block_of v d i : option Z :=
  if decide (i < NUM_DIRECT_REFS) then addr d i
  else match ind d with
       | Some k => mjoin (indirect_entries (v k) !! Z.to_nat (i - NUM_DIRECT_REFS))
       | None => None
       end.

(** A data block in use. *)
Definition good v k : Prop := data_start sb ≤ k < sb_size sb ∧ used sb v k = true.

Record inode_wf v d : Prop := {
  iw_len : length (id_addrs d) = Z.to_nat (NUM_DIRECT_REFS + 1);
  iw_block i k : 0 ≤ i < MAX_FILE → block_of v d i = Some k → good v k;
  iw_ind k : ind d = Some k → good v k;
  iw_inj i j k : 0 ≤ i < MAX_FILE → 0 ≤ j < MAX_FILE →
    block_of v d i = Some k → block_of v d j = Some k → i = j;
  iw_ne i k : 0 ≤ i < MAX_FILE → block_of v d i = Some k → ind d ≠ Some k;
  iw_size : 0 ≤ id_size d ≤ MAX_FILE * FS_BLOCK_SIZE;
  iw_meta : 0 ≤ id_ty d < 2 ^ 16 ∧ 0 ≤ id_major d < 2 ^ 16 ∧ 0 ≤ id_nlink d < 2 ^ 16;
}.

Definition owns v d k : Prop :=
  ind d = Some k ∨ ∃ i, 0 ≤ i < MAX_FILE ∧ block_of v d i = Some k.

(** Every block below the size is there: files have no holes. *)
Definition mapped v d (n : Z) : Prop :=
  ∀ i, 0 ≤ i → i * FS_BLOCK_SIZE < n → is_Some (block_of v d i).

(** The byte at offset [o]. *)
Definition byte_at v d (o : Z) : byte :=
  match block_of v d (o / FS_BLOCK_SIZE) with
  | Some k => default Byte.x00 (v k !! Z.to_nat (o mod FS_BLOCK_SIZE))
  | None => Byte.x00
  end.

(** The content of the file. *)
Definition file_content v d : list byte := byte_at v d <$> seqZ 0 (id_size d).

Lemma addr_set_addr d i j o :
  0 ≤ i → 0 ≤ j → i < Z.of_nat (length (id_addrs d)) →
  addr (set_addr i o d) j = if decide (i = j) then o else addr d j.
Proof.
  intros Hi Hj Hl. rw /addr /set_addr /=. case_decide as Hij.
  - subst j. rw list_lookup_insert_eq //. lia.
  - rw list_lookup_insert_ne //. lia.
Qed.

Lemma good_nonzero v k : sb_ok sb → good v k → 0 < k < 2 ^ 32.
Proof.
  intros Hsb [Hk _]. pose proof (sb_size_bound sb Hsb). pose proof (size_nonneg sb Hsb).
  assert (0 ≤ bmapstart sb) by (destruct (sb_wf sb Hsb) as (_&_&_&_&_&_&_&[]); done).
  rw /data_start in Hk. pose proof (Z.div_pos (sb_size sb) BITS_PER_BLOCK).
  change BITS_PER_BLOCK with 8192 in *. lia.
Qed.

Lemma good_range v k : sb_ok sb → good v k → 0 ≤ k < sb_size sb.
Proof. intros Hsb Hk. pose proof (good_nonzero v k Hsb Hk). destruct Hk. lia. Qed.

Lemma good_not_bmap v k bn : sb_ok sb → good v k → 0 ≤ bn < sb_size sb → k ≠ bmap_block sb bn.
Proof. intros Hsb [Hk _] Hbn. pose proof (bmap_block_meta sb bn Hsb Hbn). lia. Qed.

Lemma good_not_inode v k i : sb_ok sb → good v k → 0 ≤ i < ninodes sb → k ≠ inode_block sb i.
Proof. intros Hsb [Hk _] Hi. pose proof (inode_block_meta sb i Hsb Hi). lia. Qed.

(** ** The blocks in use survive an allocation *)

Section allocation.
Hypothesis Hsb : sb_ok sb.

Lemma allocated_good v bn v' k :
  first_free sb v bn → allocated sb v bn v' → good v k → v' k = v k ∧ good v' k ∧ k ≠ bn.
Proof.
  intros (Hbn & Hf & _) (Hz & Hfr & Hu) Hk. assert (k ≠ bn) as Hne.
  { intros ->. destruct Hk as [_ Hk]. congruence. }
  split_and!; [apply Hfr; [done|by apply (good_not_bmap v)]| |done].
  destruct Hk as [Hr Hk]. split; [done|]. rw Hu; [apply (good_range v); [done|by split]|]. by case_decide.
Qed.

Lemma allocated_self v bn v' :
  meta_reserved sb v → first_free sb v bn → allocated sb v bn v' → good v' bn.
Proof.
  intros Hr (Hbn & Hf & _) (_ & _ & Hu). split; [split; [by apply Hr|lia]|]. rw Hu //. by rw decide_True.
Qed.

Lemma ind_good_block_of v v' d i :
  (∀ k, ind d = Some k → v' k = v k) → block_of v' d i = block_of v d i.
Proof.
  intros H. rw /block_of. case_decide; [done|]. destruct (ind d) as [k|] eqn:Ek; [|done]. by rw H.
Qed.

Lemma allocated_block_of v bn v' d i :
  inode_wf v d → first_free sb v bn → allocated sb v bn v' → block_of v' d i = block_of v d i.
Proof.
  intros Hw Hf Ha. apply ind_good_block_of. intros k Hk.
  apply (allocated_good v bn v' k); [done..|]. by apply (iw_ind v d Hw).
Qed.

Lemma allocated_wf v bn v' d :
  inode_wf v d → first_free sb v bn → allocated sb v bn v' → inode_wf v' d.
Proof.
  intros Hw Hf Ha. pose proof (λ i, allocated_block_of v bn v' d i Hw Hf Ha) as Hb.
  destruct Hw as [H1 H2 H3 H4 H5 H6 H7]. split; [done| | | | |done|done].
  - intros i k Hi. rw Hb. intros Hk. by apply (allocated_good v bn v' k Hf Ha), (H2 i k).
  - intros k Hk. by apply (allocated_good v bn v' k Hf Ha), (H3 k).
  - intros i j k Hi Hj. rw !Hb. by apply H4.
  - intros i k Hi. rw Hb. by apply H5.
Qed.

(** What an operation on the references of an inode may do: it only adds blocks,
    the first [n] of the free list; the blocks of others keep their content. *)
Record grown (n : nat) v d v' d' : Prop := {
  gr_data : d' = set_addrs (id_addrs d') d;
  gr_wf : inode_wf v' d';
  gr_reserved : meta_reserved sb v';
  gr_block i k : 0 ≤ i < MAX_FILE → block_of v d i = Some k → block_of v' d' i = Some k;
  gr_ind k : ind d = Some k → ind d' = Some k;
  gr_free : free_list sb v' = drop n (free_list sb v);
  gr_owns k : owns v' d' k → owns v d k ∨ k ∈ take n (free_list sb v);
  gr_frame k : ¬ owns v' d' k → (∀ bn, 0 ≤ bn < sb_size sb → k ≠ bmap_block sb bn) → v' k = v k;
  gr_used k : 0 ≤ k < sb_size sb → ¬ owns v' d' k → used sb v' k = used sb v k;
}.

(** In addition the data blocks of the inode keep their content. *)
Record extends (n : nat) v d v' d' : Prop := {
  ex_grown : grown n v d v' d';
  ex_same i k : 0 ≤ i < MAX_FILE → block_of v d i = Some k → v' k = v k;
}.

Lemma grown_refl v d : inode_wf v d → meta_reserved sb v → grown 0 v d v d.
Proof. intros Hw Hr. split; try done; [by destruct d|by left]. Qed.

Lemma extends_refl v d : inode_wf v d → meta_reserved sb v → extends 0 v d v d.
Proof. intros Hw Hr. split; [by apply grown_refl|done]. Qed.

Lemma grown_owns n v d v' d' k : grown n v d v' d' → owns v d k → owns v' d' k.
Proof.
  intros He [Hk|(i & Hi & Hk)]; [left; by apply (gr_ind _ _ _ _ _ He)|right].
  exists i. split; [done|]. by apply (gr_block _ _ _ _ _ He).
Qed.

Lemma grown_trans n1 n2 v1 d1 v2 d2 v3 d3 :
  grown n1 v1 d1 v2 d2 → grown n2 v2 d2 v3 d3 → grown (n1 + n2) v1 d1 v3 d3.
Proof.
  intros H1 H2. pose proof (λ k, grown_owns _ _ _ _ _ k H2) as Ho.
  destruct H1 as [D1 _ _ B1 I1 F1 O1 R1 U1], H2 as [D2 W2 M2 B2 I2 F2 O2 R2 U2]. split; try done.
  - rw D2 D1. done.
  - auto.
  - auto.
  - by rw F2 F1 drop_drop.
  - intros k Hk. destruct (O2 k Hk) as [Hk2|Hk2].
    + destruct (O1 k Hk2) as [?|Hin]; [by left|right]. apply elem_of_take in Hin as (j & Hj & Hlt).
      apply elem_of_take. exists j. split; [done|lia].
    + right. rw F1 in Hk2. apply elem_of_take in Hk2 as (j & Hj & Hlt). rw lookup_drop in Hj.
      apply elem_of_take. exists (n1 + j)%nat. split; [done|lia].
  - intros k Hk Hb. rw R2 // R1 //. auto.
  - intros k Hr Hk. rw U2 // U1 //. auto.
Qed.

Lemma extends_trans n1 n2 v1 d1 v2 d2 v3 d3 :
  extends n1 v1 d1 v2 d2 → extends n2 v2 d2 v3 d3 → extends (n1 + n2) v1 d1 v3 d3.
Proof.
  intros [G1 S1] [G2 S2]. split; [by apply (grown_trans _ _ _ _ v2 d2)|].
  intros i k Hi Hk. rw (S2 i) //; [by apply (gr_block _ _ _ _ _ G1)|by apply (S1 i)].
Qed.

(** One fresh block was added to the references. *)
Lemma extends_new v d bn v' d' :
  inode_wf v d → meta_reserved sb v → first_free sb v bn →
  d' = set_addrs (id_addrs d') d → length (id_addrs d') = length (id_addrs d) →
  (∀ k, k ≠ bn → k ≠ bmap_block sb bn → ind d' ≠ Some k → v' k = v k) →
  (∀ j, 0 ≤ j < sb_size sb → used sb v' j = if decide (bn = j) then true else used sb v j) →
  (∀ j k, 0 ≤ j < MAX_FILE → block_of v d j = Some k → block_of v' d' j = Some k) →
  (∀ j k, 0 ≤ j < MAX_FILE → block_of v' d' j = Some k → block_of v d j = Some k ∨ k = bn) →
  (ind d' = ind d ∨ ind d = None ∧ ind d' = Some bn) →
  (∀ i j, 0 ≤ i < MAX_FILE → 0 ≤ j < MAX_FILE →
    block_of v' d' i = Some bn → block_of v' d' j = Some bn → i = j) →
  (∀ i, 0 ≤ i < MAX_FILE → block_of v' d' i = Some bn → ind d' ≠ Some bn) →
  owns v' d' bn → extends 1 v d v' d'.
Proof.
  intros Hw Hr Hf Hd Hlen Hfr Hu Hold Hnew Hind Hinj Hne Hown.
  assert (data_start sb ≤ bn < sb_size sb) as Hbn.
  { destruct Hf as (? & ? & _). split; [by apply Hr|lia]. }
  assert (∀ k, good v k → good v' k ∧ k ≠ bn) as Hgood.
  { intros k Hk. assert (k ≠ bn) by (intros ->; destruct Hk, Hf as (_ & ? & _); congruence).
    split; [|done]. destruct Hk as [Hr' Hk]. split; [done|]. rw Hu; [by apply (good_range v)|].
    rw decide_False; [congruence|done]. }
  assert (good v' bn) as Hgbn.
  { split; [done|]. rw Hu; [|by rw decide_True]. destruct Hf as (? & _). done. }
  assert (∀ k, ind d' = Some k → good v' k) as Hgi.
  { intros k Hk. destruct Hind as [E|[_ E]]; [|congruence]. rw E in Hk. by apply Hgood, (iw_ind v d Hw). }
  assert (∀ j k, 0 ≤ j < MAX_FILE → block_of v d j = Some k → k ≠ bn) as Hnbn.
  { intros j k Hj Hk. by apply Hgood, (iw_block v d Hw j k). }
  split; [split|].
  - done.
  - pose proof (iw_meta v d Hw). pose proof (iw_size v d Hw). split.
    + rw Hlen. apply Hw.
    + intros j k Hj Hk. destruct (Hnew j k Hj Hk) as [Hk0| ->]; [|done].
      by apply Hgood, (iw_block v d Hw j k).
    + done.
    + intros i j k Hi Hj Hki Hkj. destruct (Hnew i k Hi Hki) as [Hk0| ->]; [|exact (Hinj i j Hi Hj Hki Hkj)].
      destruct (Hnew j k Hj Hkj) as [Hk1| ->]; [|by destruct (Hnbn i bn Hi Hk0)]. by apply (iw_inj v d Hw i j k).
    + intros i k Hi Hk. destruct (Hnew i k Hi Hk) as [Hk0| ->]; [|by apply (Hne i)].
      destruct Hind as [->|[_ ->]]; [by apply (iw_ne v d Hw i)|]. intros [= ->]. by destruct (Hnbn i k Hi Hk0).
    + by rw Hd.
    + by rw Hd.
  - intros j Hj Hz. rw Hu // in Hz. case_decide; [done|]. by apply Hr.
  - done.
  - intros k Hk. destruct Hind as [->|[E _]]; [done|congruence].
  - by rw (tail_free_list sb v bn v' Hf Hu) (free_list_split sb v bn Hf).
  - rw (free_list_split sb v bn Hf). intros k [Hk|(j & Hj & Hk)].
    + destruct Hind as [E|[_ E]]; [left; left; congruence|right]. rw E in Hk. injection Hk as ->. simpl. left.
    + destruct (Hnew j k Hj Hk) as [Hk0| ->]; [left; right; eauto|right; simpl; left].
  - intros k Hk Hb. apply Hfr.
    + by intros ->.
    + apply Hb. destruct Hf as (? & _). done.
    + intros E. apply Hk. by left.
  - intros k Hk Ho. rw Hu //. rw decide_False //. by intros ->.
  - intros i k Hi Hk. pose proof (iw_block v d Hw i k Hi Hk) as Hg. apply Hfr; [by apply (Hnbn i)| |].
    + apply (good_not_bmap v); [done..|]. destruct Hf as (? & _). done.
    + destruct Hind as [->|[_ ->]]; [by apply (iw_ne v d Hw i)|]. intros [= ->]. by destruct (Hnbn i k Hi Hk).
Qed.

Lemma zero_entries n : mjoin (indirect_entries zero_block !! n) = None.
Proof.
  assert (indirect_entries zero_block = replicate (Z.to_nat NUM_INDIRECT_REFS) None) as ->
    by (vm_compute; done).
  destruct (replicate _ None !! n) as [o|] eqn:E; [|done].
  apply lookup_replicate in E as [-> _]. done.
Qed.

Lemma ind_set_addr d i o :
  length (id_addrs d) = Z.to_nat (NUM_DIRECT_REFS + 1) → 0 ≤ i ≤ NUM_DIRECT_REFS →
  ind (set_addr i o d) = if decide (i = NUM_DIRECT_REFS) then o else ind d.
Proof.
  intros Hl Hi. rw /ind addr_set_addr //; [lia|]. rw Hl. change NUM_DIRECT_REFS with 12 in *. lia.
Qed.

Lemma length_set_addr d i o : length (id_addrs (set_addr i o d)) = length (id_addrs d).
Proof. apply length_insert. Qed.

(** A fresh direct block. *)
Lemma extends_direct v d bn v' i :
  inode_wf v d → meta_reserved sb v → first_free sb v bn → allocated sb v bn v' →
  0 ≤ i < NUM_DIRECT_REFS → addr d i = None →
  let d' := set_addr i (Some bn) d in
  extends 1 v d v' d' ∧
  ∀ j, 0 ≤ j → block_of v' d' j = if decide (i = j) then Some bn else block_of v d j.
Proof.
  intros Hw Hr Hf Ha Hi Hn d'. pose proof (iw_len v d Hw) as Hl.
  assert (ind d' = ind d) as Ei.
  { rw /d' ind_set_addr //; [lia|]. rw decide_False //. lia. }
  assert (∀ j, 0 ≤ j → block_of v' d' j = if decide (i = j) then Some bn else block_of v d j) as Hb.
  { intros j Hj. rw -(allocated_block_of v bn v' d j) // /block_of Ei.
    destruct (decide (j < NUM_DIRECT_REFS)).
    - rw /d' addr_set_addr //; [lia|]. rw Hl. change NUM_DIRECT_REFS with 12 in *. lia.
    - rw decide_False //. lia. }
  assert (block_of v' d' i = Some bn) as Hbi by (rw Hb; [lia|by rw decide_True]).
  assert (block_of v d i = None) as Hbn by (rw /block_of decide_True //; lia).
  destruct Ha as (Hz & Hfr & Hu). split; [|done]. apply (extends_new v d bn); try done.
  - by rw length_set_addr.
  - intros k ? ? _. by apply Hfr.
  - intros j k Hj Hk. rw Hb; [lia|]. case_decide; [congruence|done].
  - intros j k Hj. rw Hb; [lia|]. case_decide; [intros [= ->]; by right|by left].
  - by left.
  - intros i' j' Hi' Hj'. rw !Hb; [lia..|].
    assert (∀ j, 0 ≤ j < MAX_FILE → block_of v d j ≠ Some bn) as Hno.
    { intros j Hj Hk. destruct (iw_block v d Hw j bn Hj Hk) as [_ Hx], Hf as (_ & Hy & _). congruence. }
    repeat case_decide; intros H1 H2; try congruence; exfalso;
      first [exact (Hno i' Hi' H1)|exact (Hno j' Hj' H2)].
  - intros j Hj _. rw Ei. intros Hk. destruct (iw_ind v d Hw bn Hk) as [_ Hx], Hf as (_ & Hy & _). congruence.
  - right. exists i. split; [|done]. change NUM_DIRECT_REFS with 12 in *. change MAX_FILE with 268. lia.
Qed.

(** A fresh indirect block. *)
Lemma extends_indirect v d bn v' :
  inode_wf v d → meta_reserved sb v → first_free sb v bn → allocated sb v bn v' → ind d = None →
  let d' := set_addr NUM_DIRECT_REFS (Some bn) d in
  extends 1 v d v' d' ∧ ind d' = Some bn ∧ (∀ j, 0 ≤ j → block_of v' d' j = block_of v d j) ∧
  v' bn = zero_block.
Proof.
  intros Hw Hr Hf Ha Hn d'. pose proof (iw_len v d Hw) as Hl.
  assert (ind d' = Some bn) as Ei by (rw /d' ind_set_addr //; by rw decide_True).
  assert (∀ j, 0 ≤ j → block_of v' d' j = block_of v d j) as Hb.
  { intros j Hj. rw /block_of Ei Hn. destruct (decide (j < NUM_DIRECT_REFS)).
    - rw /d' addr_set_addr //; [rw Hl; change NUM_DIRECT_REFS with 12 in *; lia|]. rw decide_False //. lia.
    - destruct Ha as (-> & _). apply zero_entries. }
  assert (∀ j, 0 ≤ j < MAX_FILE → block_of v d j ≠ Some bn) as Hno.
  { intros j Hj Hk. destruct (iw_block v d Hw j bn Hj Hk) as [_ Hx], Hf as (_ & Hy & _). congruence. }
  destruct Ha as (Hz & Hfr & Hu). split_and!; [|done..]. apply (extends_new v d bn); try done.
  - by rw length_set_addr.
  - intros k ? ? _. by apply Hfr.
  - intros j k Hj Hk. by rw Hb; [lia|].
  - intros j k Hj. rw Hb; [lia|]. by left.
  - by right.
  - intros i' j' Hi' Hj'. rw Hb; [lia|]. intros Hk. by destruct (Hno i').
  - intros i' Hi'. rw Hb; [lia|]. intros Hk. by destruct (Hno i').
  - by left.
Qed.

(** A fresh block behind the indirect block [q]. *)
Lemma extends_entry v d bn v1 q b' i :
  inode_wf v d → meta_reserved sb v → first_free sb v bn → allocated sb v bn v1 →
  ind d = Some q → 0 ≤ i < NUM_INDIRECT_REFS → block_of v d (NUM_DIRECT_REFS + i) = None →
  indirect_entries b' = <[Z.to_nat i := Some bn]> (indirect_entries (v1 q)) →
  let v' := upd v1 q b' in
  extends 1 v d v' d ∧
  ∀ j, 0 ≤ j → block_of v' d j = if decide (NUM_DIRECT_REFS + i = j) then Some bn else block_of v d j.
Proof.
  intros Hw Hr Hf Ha Hq Hi Hn He v'.
  pose proof (iw_ind v d Hw q Hq) as Hgq.
  destruct (allocated_good v bn v1 q Hf Ha Hgq) as (Eq & Hgq1 & Hqbn).
  assert (length (indirect_entries (v1 q)) = Z.to_nat NUM_INDIRECT_REFS) as Hel.
  { rw /indirect_entries /read_addrs length_fmap. apply indirect_length. }
  assert (∀ j, 0 ≤ j → block_of v' d j = if decide (NUM_DIRECT_REFS + i = j) then Some bn else block_of v d j) as Hb.
  { intros j Hj. rw /block_of Hq. destruct (decide (j < NUM_DIRECT_REFS)).
    - rw decide_False //. lia.
    - rw /v' upd_eq He Eq. case_decide as Hij.
      + rw -Hij. replace (NUM_DIRECT_REFS + i - NUM_DIRECT_REFS) with i by lia.
        rw list_lookup_insert_eq //. rw -Eq Hel. lia.
      + rw list_lookup_insert_ne //. lia. }
  assert (block_of v' d (NUM_DIRECT_REFS + i) = Some bn) as Hbi.
  { rw Hb; [change NUM_DIRECT_REFS with 12; lia|by rw decide_True]. }
  assert (∀ j, 0 ≤ j < MAX_FILE → block_of v d j ≠ Some bn) as Hno.
  { intros j Hj Hk. destruct (iw_block v d Hw j bn Hj Hk) as [_ Hx], Hf as (_ & Hy & _). congruence. }
  destruct Ha as (Hz & Hfr & Hu). split; [|done]. apply (extends_new v d bn); try done.
  - by destruct d.
  - intros k Hk1 Hk2 Hk3. rw /v' upd_ne; [congruence|]. by apply Hfr.
  - intros j Hj. rw -Hu //. rw /used /v' upd_ne //. by apply (good_not_bmap v1).
  - intros j k Hj Hk. rw Hb; [lia|]. case_decide; [congruence|done].
  - intros j k Hj. rw Hb; [lia|]. case_decide; [intros [= ->]; by right|by left].
  - by left.
  - intros i' j' Hi' Hj'. rw !Hb; [lia..|].
    repeat case_decide; intros H1 H2; try congruence; exfalso;
      first [exact (Hno i' Hi' H1)|exact (Hno j' Hj' H2)].
  - intros j Hj _. rw Hq. intros [= ->]. done.
  - right. exists (NUM_DIRECT_REFS + i). split; [|done].
    change NUM_DIRECT_REFS with 12 in *. change MAX_FILE with 268. change NUM_INDIRECT_REFS with 256 in *. lia.
Qed.
End allocation.

(** ** The operations on the references *)

Section operations.
Context {S : Type} `{!TxStore S} `{!TxStoreLaws S}.
Hypothesis Hsb : sb_ok sb.
#[local] Abbreviation Locked := (@Locked S).
Implicit Types (l : Locked) (bs : gset Z).

(** The state of a locked inode: the blocks and the data. *)
Definition locked bs v d l : Prop := stored bs v (lk_store l) ∧ lk_data l = d.

Lemma wp_on_store {A} (m : M S A) (Q : A → Locked → Prop) l :
  wp m (λ a s', Q a {| lk_store := s'; lk_data := lk_data l |}) (lk_store l) → wp (on_store m) Q l.
Proof. rw /wp /on_store /zoom. by destruct (m (lk_store l)). Qed.

(** The blocks that may change: the bitmap, the indirect block and the first [n]
    free blocks. *)
Record may_grow bs v d (n : nat) : Prop := {
  mg_bmap bn : 0 ≤ bn < sb_size sb → bmap_block sb bn ∈ bs;
  mg_ind k : ind d = Some k → k ∈ bs;
  mg_free k : k ∈ take n (free_list sb v) → k ∈ bs;
}.

Lemma may_grow_le bs v d n m : may_grow bs v d n → (m ≤ n)%nat → may_grow bs v d m.
Proof.
  intros [H1 H2 H3] Hle. split; [done..|]. intros k (j & Hj & Hlt)%elem_of_take.
  apply H3, elem_of_take. exists j. split; [done|lia].
Qed.

Lemma locked_alloc bs v d l n :
  locked bs v d l → meta_reserved sb v → may_grow bs v d (Datatypes.S n) →
  wp (on_store (data_alloc sb)) (λ r l',
    match free_list sb v with
    | bn :: rest => r = Ok bn ∧ first_free sb v bn ∧ bn ∈ bs ∧
        ∃ v', locked bs v' d l' ∧ allocated sb v bn v' ∧ free_list sb v' = rest
    | [] => r = Err StorageOutOfBlocks ∧ locked bs v d l'
    end) l.
Proof.
  intros [Hst Hd] Hr Hg. apply wp_on_store.
  assert (∀ bn, head (free_list sb v) = Some bn → bn ∈ bs ∧ bmap_block sb bn ∈ bs) as Hhd.
  { intros bn Hbn. destruct (free_list sb v) as [|bn' rest] eqn:Ef; [done|]. injection Hbn as ->. split.
    - apply (mg_free _ _ _ _ Hg). rw Ef. simpl. left.
    - apply (mg_bmap _ _ _ _ Hg). by apply free_list_head in Ef as [? _]. }
  eapply wp_mono; [exact (data_alloc_wp sb Hsb bs v (lk_store l) Hst Hr Hhd)|].
  intros r s'. destruct (free_list sb v) as [|bn rest] eqn:Ef.
  - intros [-> Hst']. done.
  - intros (-> & v' & Hst' & Ha & Ef' & Hr'). split_and!; [done|by apply free_list_head in Ef|by apply Hhd|].
    by exists v'.
Qed.

(** The new blocks of an inode are among those that may change. *)
Lemma grown_fresh n bs v d v' d' k :
  may_grow bs v d n → grown n v d v' d' → owns v' d' k → ¬ owns v d k → k ∈ bs.
Proof.
  intros Hg He Ho Hn. destruct (gr_owns _ _ _ _ _ He k Ho); [done|]. by apply (mg_free _ _ _ _ Hg).
Qed.

Lemma grown_ind n v d v' d' k : grown n v d v' d' → ind d' = Some k → owns v d k → ind d = Some k.
Proof.
  intros He Hk [Ho|(i & Hi & Ho)]; [done|]. apply (gr_block _ _ _ _ _ He) in Ho; [|done].
  by destruct (iw_ne _ _ (gr_wf _ _ _ _ _ He) i k Hi Ho).
Qed.

Lemma grown_block n v d v' d' i k :
  grown n v d v' d' → 0 ≤ i < MAX_FILE → block_of v' d' i = Some k → owns v d k → block_of v d i = Some k.
Proof.
  intros He Hi Hk [Ho|(j & Hj & Ho)]; pose proof (gr_wf _ _ _ _ _ He) as Hw.
  - apply (gr_ind _ _ _ _ _ He) in Ho. by destruct (iw_ne _ _ Hw i k Hi Hk).
  - pose proof (gr_block _ _ _ _ _ He j k Hj Ho) as Ho'. by rw (iw_inj _ _ Hw i j k Hi Hj Hk Ho').
Qed.

Lemma owns_dec v d k : Decision (owns v d k).
Proof.
  destruct (decide (ind d = Some k)) as [H|H]; [by left; left|].
  destruct (decide (Exists (λ i, block_of v d i = Some k) (seqZ 0 MAX_FILE))) as [E|E].
  - left. right. apply Exists_exists in E as (i & Hi & E). exists i. split; [|done]. by apply elem_of_seqZ in Hi.
  - right. intros [?|(i & Hi & Hk)]; [done|]. apply E, Exists_exists. exists i. split; [|done].
    apply elem_of_seqZ. lia.
Qed.

Lemma grown_may_grow bs v d v' d' n m :
  may_grow bs v d (n + m) → grown n v d v' d' → may_grow bs v' d' m.
Proof.
  intros Hg He. pose proof (may_grow_le _ _ _ _ n Hg ltac:(lia)) as Hgn. destruct Hg as [H1 H2 H3]. split; [done| |].
  - intros k Hk. destruct (owns_dec v d k) as [Ho|Ho]; [apply H2; by apply (grown_ind n v d v' d')|].
    apply (grown_fresh n bs v d v' d'); [done..|by left|done].
  - intros k Hk. apply H3. rw (gr_free _ _ _ _ _ He) in Hk. apply elem_of_take in Hk as (j & Hj & Hlt).
    rw lookup_drop in Hj. apply elem_of_take. exists (n + j)%nat. split; [done|lia].
Qed.

(** The number of blocks the indirect references still need. *)
Definition room d : nat := if decide (ind d = None) then 1%nat else 0%nat.

Lemma room_none d : ind d = None → room d = 1%nat.
Proof. rw /room. by case_decide. Qed.

Lemma room_some d k : ind d = Some k → room d = 0%nat.
Proof. rw /room. by case_decide; [congruence|]. Qed.

(** The result of looking up, allocating if necessary, block [i]. *)
Definition looked_up bs v d i (r : result KernelError (option Z)) l' : Prop :=
  ∃ n v' d', (n + room d' ≤ 1 + room d)%nat ∧ locked bs v' d' l' ∧ extends n v d v' d' ∧
    (∀ j, 0 ≤ j → j ≠ i → block_of v' d' j = block_of v d j) ∧
    match r with
    | Ok (Some k) => block_of v' d' i = Some k ∧ (block_of v d i = None → v' k = zero_block)
    | Ok None => False
    | Err e => e = StorageOutOfBlocks ∧ block_of v d i = None ∧ block_of v' d' i = None ∧
        free_list sb v' = []
    end.

Lemma wp_map_data f (Q : unit → Locked → Prop) l :
  Q tt {| lk_store := lk_store l; lk_data := f (lk_data l) |} → wp (map_data f) Q l.
Proof. intros H. rw /map_data. by wp_step. Qed.

Lemma looked_up_found bs v d i k l :
  locked bs v d l → inode_wf v d → meta_reserved sb v → block_of v d i = Some k →
  looked_up bs v d i (Ok (Some k)) l.
Proof.
  intros Hl Hw Hr Hk. exists 0%nat, v, d.
  split_and!; [lia|done|by apply extends_refl|done|done|congruence].
Qed.

Lemma looked_up_full bs v d i l :
  locked bs v d l → inode_wf v d → meta_reserved sb v → block_of v d i = None → free_list sb v = [] →
  looked_up bs v d i (Err StorageOutOfBlocks) l.
Proof.
  intros Hl Hw Hr Hk. exists 0%nat, v, d. split_and!; [lia|done|by apply extends_refl|done..].
Qed.

Lemma get_direct_wp bs v d l i :
  locked bs v d l → inode_wf v d → meta_reserved sb v → may_grow bs v d (1 + room d) → 0 ≤ i < NUM_DIRECT_REFS →
  wp (get_or_alloc_direct_data_block sb false i) (looked_up bs v d i) l.
Proof.
  intros Hl Hw Hr Hg Hi. rw /get_or_alloc_direct_data_block. wp_step.
  apply wp_assert; [apply Z.ltb_lt; lia|]. wp_step. wp_step. pose proof (proj2 Hl) as ->.
  assert (block_of v d i = addr d i) as Eb by (rw /block_of decide_True //; lia).
  destruct (addr d i) as [k|] eqn:Ek; [wp_step; by apply looked_up_found|].
  wp_step. eapply wp_mono; [apply (locked_alloc bs v d l (room d) Hl Hr Hg)|].
  intros r l'. destruct (free_list sb v) as [|bn rest] eqn:Ef.
  { intros [-> Hl']. by apply looked_up_full. }
  intros (-> & Hff & Hbs & v' & [Hst' Hd'] & Ha & Ef'). wp_step. apply wp_map_data. wp_step.
  destruct (extends_direct Hsb v d bn v' i Hw Hr Hff Ha Hi Ek) as [He Hb].
  exists 1%nat, v', (set_addr i (Some bn) d).
  split_and!; [|by rw Hd'|done| |rw Hb; [lia|by rw decide_True]|].
  - assert (ind (set_addr i (Some bn) d) = ind d) as Ei; [|by rw /room Ei].
    rw ind_set_addr; [apply Hw|lia|]. rw decide_False //. lia.
  - intros j Hj Hne. rw Hb // decide_False //. congruence.
  - intros _. apply Ha.
Qed.

(** A second allocation after a first one that did not change the blocks. *)
Lemma looked_up_trans n bs v d v' d' i r l :
  (n ≤ room d)%nat → ind d' ≠ None → extends n v d v' d' →
  (∀ j, 0 ≤ j → block_of v' d' j = block_of v d j) → 0 ≤ i →
  (∃ m v2 d2, (m ≤ 1)%nat ∧ locked bs v2 d2 l ∧ extends m v' d' v2 d2 ∧
    (∀ j, 0 ≤ j → j ≠ i → block_of v2 d2 j = block_of v' d' j) ∧
    match r with
    | Ok (Some k) => block_of v2 d2 i = Some k ∧ (block_of v' d' i = None → v2 k = zero_block)
    | Ok None => False
    | Err e => e = StorageOutOfBlocks ∧ block_of v' d' i = None ∧ block_of v2 d2 i = None ∧
        free_list sb v2 = []
    end) → looked_up bs v d i r l.
Proof.
  intros Hn Hd He Hb Hi (m & v2 & d2 & Hm & Hl & He2 & Hb2 & Hr). exists (n + m)%nat, v2, d2.
  assert (room d2 = 0%nat) as ->.
  { destruct (ind d') as [q|] eqn:Eq; [|done]. apply (gr_ind _ _ _ _ _ (ex_grown _ _ _ _ _ He2)) in Eq.
    by apply (room_some d2 q). }
  split_and!; [lia|done|by apply (extends_trans _ _ _ _ v' d')| |].
  - intros j Hj Hne. by rw Hb2 // Hb.
  - by rw -Hb.
Qed.

(** The entry of the indirect block [q]. *)
Lemma get_entry_wp bs v d l q i :
  locked bs v d l → inode_wf v d → meta_reserved sb v → may_grow bs v d 1 →
  0 ≤ i < NUM_INDIRECT_REFS → ind d = Some q → block_of v d (NUM_DIRECT_REFS + i) = None →
  wp (bn ←? on_store (data_alloc sb);
      b ← on_store (st_read q);
      b' ← indirect_set b i (Some bn);
      on_store (st_update q (λ _, b'));;
      mret (Ok (Some bn))) (λ r l', ∃ m v2 d2, (m ≤ 1)%nat ∧ locked bs v2 d2 l' ∧ extends m v d v2 d2 ∧
    (∀ j, 0 ≤ j → j ≠ NUM_DIRECT_REFS + i → block_of v2 d2 j = block_of v d j) ∧
    match r with
    | Ok (Some k) => block_of v2 d2 (NUM_DIRECT_REFS + i) = Some k ∧
        (block_of v d (NUM_DIRECT_REFS + i) = None → v2 k = zero_block)
    | Ok None => False
    | Err e => e = StorageOutOfBlocks ∧ block_of v d (NUM_DIRECT_REFS + i) = None ∧
        block_of v2 d2 (NUM_DIRECT_REFS + i) = None ∧ free_list sb v2 = []
    end) l.
Proof.
  intros Hl Hw Hr Hg Hi Hq Hn.
  wp_step. eapply wp_mono; [apply (locked_alloc bs v d l 0 Hl Hr Hg)|].
  intros r l'. destruct (free_list sb v) as [|bn rest] eqn:Ef.
  { intros [-> Hl']. exists 0%nat, v, d. split_and!; [lia|done|by apply extends_refl|done..]. }
  intros (-> & Hff & Hbs & v1 & [Hst1 Hd1] & Ha & Ef1). wp_step. apply wp_on_store.
  destruct (allocated_good Hsb v bn v1 q Hff Ha (iw_ind v d Hw q Hq)) as (Eq & Hgq & Hne).
  eapply wp_mono; [exact (stored_read bs v1 (lk_store l') q Hst1)|]. intros ? s1 [-> Hst2].
  assert (addr_ok (Some bn)) as Hok.
  { by apply (good_nonzero v1), (allocated_self v bn). }
  destruct (indirect_set_run (v1 q) i (Some bn) {| lk_store := s1; lk_data := lk_data l' |}) as (b' & E & Hb' & Ee);
    [apply (stored_block _ _ _ _ Hst2)|done|done|].
  wp_step. apply (wp_of_run _ _ _ _ _ E). wp_step. apply wp_on_store.
  eapply wp_mono; [exact (stored_update bs v1 s1 q (λ _, b') Hst2 (mg_ind _ _ _ _ Hg q Hq) Hb')|].
  intros ? s2 Hst3. wp_step.
  destruct (extends_entry Hsb v d bn v1 q b' i Hw Hr Hff Ha Hq Hi Hn Ee) as [He Hb].
  exists 1%nat, (upd v1 q b'), d. split_and!; [lia|done|done| | |].
  - intros j Hj Hne'. rw Hb // decide_False //. congruence.
  - rw Hb; [change NUM_DIRECT_REFS with 12; lia|by rw decide_True].
  - intros _. rw upd_ne; [congruence|]. apply Ha.
Qed.

Lemma get_indirect_block_wp bs v d l i :
  locked bs v d l → inode_wf v d → meta_reserved sb v → may_grow bs v d (1 + room d) → 0 ≤ i < NUM_INDIRECT_REFS →
  wp (get_or_alloc_indirect_data_block sb false i) (looked_up bs v d (NUM_DIRECT_REFS + i)) l.
Proof.
  intros Hl Hw Hr Hg Hi. rw /get_or_alloc_indirect_data_block /get_or_alloc_indirect.
  assert (0 ≤ NUM_DIRECT_REFS + i) as Hi0 by (change NUM_DIRECT_REFS with 12; lia).
  wp_step. wp_step. wp_step. pose proof (proj2 Hl) as ->. fold (ind d). destruct (ind d) as [q|] eqn:Eq.
  - wp_step. wp_step. wp_step. apply wp_on_store.
    eapply wp_mono; [exact (stored_read bs v (lk_store l) q (proj1 Hl))|]. intros ? s1 [-> Hst1].
    destruct (indirect_get_run (v q) i {| lk_store := s1; lk_data := lk_data l |} Hi) as (o & Ho & E).
    apply (wp_of_run _ _ _ _ _ E).
    assert (locked bs v d {| lk_store := s1; lk_data := lk_data l |}) as Hl1 by (split; [done|apply Hl]).
    assert (block_of v d (NUM_DIRECT_REFS + i) = o) as Eb.
    { rw /block_of Eq decide_False; [lia|].
      replace (NUM_DIRECT_REFS + i - NUM_DIRECT_REFS) with i by lia. by rw Ho. }
    destruct o as [k|]; [wp_step; by apply looked_up_found|].
    eapply wp_mono; [exact (get_entry_wp bs v d _ q i Hl1 Hw Hr (may_grow_le _ _ _ (1 + room d) 1 Hg ltac:(lia)) Hi Eq Eb)|].
    intros r l'. apply (looked_up_trans 0 _ _ _ v d); [lia|by rw Eq|by apply extends_refl|done..].
  - wp_step. eapply wp_mono; [apply (locked_alloc bs v d l (room d) Hl Hr Hg)|].
    intros r l'. destruct (free_list sb v) as [|bn rest] eqn:Ef.
    { intros [-> Hl']. apply looked_up_full; [done..| |done].
      rw /block_of Eq decide_False //. lia. }
    intros (-> & Hff & Hbs & v' & [Hst' Hd'] & Ha & Ef'). wp_step. apply wp_map_data. wp_step. wp_step. wp_step.
    destruct (extends_indirect Hsb v d bn v' Hw Hr Hff Ha Eq) as (He & Ei & Hb & Hz).
    eapply wp_mono; [apply (get_entry_wp bs v' (set_addr NUM_DIRECT_REFS (Some bn) d) _ bn i)|].
    + by rw Hd'.
    + apply He.
    + apply (ex_grown _ _ _ _ _ He).
    + apply (grown_may_grow bs v d v' _ 1 1); [|apply He].
      by rw (room_none d Eq) in Hg.
    + done.
    + done.
    + rw Hb // /block_of Eq decide_False //. lia.
    + intros r l''. apply (looked_up_trans 1 _ _ _ v' (set_addr NUM_DIRECT_REFS (Some bn) d)); [|by rw Ei|done..].
      by rw room_none.
Qed.

(** Any block of the file, allocated if necessary. *)
Lemma get_block_wp bs v d l i :
  locked bs v d l → inode_wf v d → meta_reserved sb v → may_grow bs v d (1 + room d) → 0 ≤ i < MAX_FILE →
  wp (get_or_alloc_data_block sb false i) (looked_up bs v d i) l.
Proof.
  intros Hl Hw Hr Hg Hi. rw /get_or_alloc_data_block. destruct (Z.ltb_spec i NUM_DIRECT_REFS).
  - apply get_direct_wp; [done..|lia].
  - change MAX_FILE with (NUM_DIRECT_REFS + NUM_INDIRECT_REFS) in Hi.
    rw (proj2 (Z.ltb_lt (i - NUM_DIRECT_REFS) NUM_INDIRECT_REFS)); [lia|].
    replace i with (NUM_DIRECT_REFS + (i - NUM_DIRECT_REFS)) at 2 by lia.
    apply get_indirect_block_wp; [done..|lia].
Qed.

(** A block that is there is found, whatever the transaction may do. *)
Lemma get_found_wp bs v d l ro i k :
  locked bs v d l → 0 ≤ i < MAX_FILE → block_of v d i = Some k →
  wp (get_or_alloc_data_block sb ro i) (λ r l', r = Ok (Some k) ∧ locked bs v d l') l.
Proof.
  intros [Hst Hd] Hi. rw /get_or_alloc_data_block /block_of. destruct (Z.ltb_spec i NUM_DIRECT_REFS) as [Hlt|Hge].
  - rw decide_True //. intros Hk. rw /get_or_alloc_direct_data_block. wp_step.
    apply wp_assert; [by apply Z.ltb_lt|]. wp_step. wp_step. rw Hd Hk. by wp_step.
  - rw decide_False; [lia|]. destruct (ind d) as [q|] eqn:Eq; [|done]. intros Hk.
    change MAX_FILE with (NUM_DIRECT_REFS + NUM_INDIRECT_REFS) in Hi.
    rw (proj2 (Z.ltb_lt (i - NUM_DIRECT_REFS) NUM_INDIRECT_REFS)); [lia|].
    rw /get_or_alloc_indirect_data_block /get_or_alloc_indirect.
    wp_step. wp_step. wp_step. rw Hd. fold (ind d). rw Eq. wp_step. wp_step. wp_step. apply wp_on_store.
    eapply wp_mono; [exact (stored_read bs v (lk_store l) q Hst)|]. intros ? s1 [-> Hst1].
    destruct (indirect_get_run (v q) (i - NUM_DIRECT_REFS) {| lk_store := s1; lk_data := lk_data l |})
      as (o & Ho & E); [lia|].
    apply (wp_of_run _ _ _ _ _ E). rw Ho in Hk. simpl in Hk. rw Hk. by wp_step.
Qed.

(** ** Reading *)

Lemma slice_bytes v d off m k :
  0 ≤ off → 0 ≤ m → off mod FS_BLOCK_SIZE + m ≤ FS_BLOCK_SIZE → is_block (v k) →
  block_of v d (off / FS_BLOCK_SIZE) = Some k →
  slice (Z.to_nat (off mod FS_BLOCK_SIZE)) (Z.to_nat m) (v k) = byte_at v d <$> seqZ off m.
Proof.
  intros Hoff Hm Hr Hb Hk. change FS_BLOCK_SIZE with 1024 in *.
  assert (length (v k) = 1024%nat) as Hlen by by rw Hb.
  pose proof (Z.mod_pos_bound off 1024). pose proof (Z.div_mod off 1024).
  apply list_eq_same_length with (n := Z.to_nat m); [len|apply slice_length; lia|].
  intros i x y Hi. rw /slice lookup_take_lt // lookup_drop list_lookup_fmap lookup_seqZ_lt; [lia|].
  simpl. intros Hx [= <-]. rw /byte_at. change FS_BLOCK_SIZE with 1024.
  replace ((off + Z.of_nat i) / 1024) with (off / 1024) by (apply (Z.div_unique _ _ _ (off mod 1024 + Z.of_nat i)); lia).
  replace ((off + Z.of_nat i) mod 1024) with (off mod 1024 + Z.of_nat i)
    by (apply (Z.mod_unique _ _ (off / 1024)); lia).
  rw Hk. replace (Z.to_nat (off mod 1024 + Z.of_nat i)) with (Z.to_nat (off mod 1024) + i)%nat by lia.
  by rw Hx.
Qed.

Lemma div_block_range off : 0 ≤ off < MAX_FILE * FS_BLOCK_SIZE → 0 ≤ off / FS_BLOCK_SIZE < MAX_FILE.
Proof.
  intros H. change FS_BLOCK_SIZE with 1024 in *. split; [apply Z.div_pos; lia|].
  apply Z.div_lt_upper_bound; lia.
Qed.

Lemma mapped_at v d n off :
  mapped v d n → 0 ≤ off < n → is_Some (block_of v d (off / FS_BLOCK_SIZE)).
Proof.
  intros Hm Hoff. change FS_BLOCK_SIZE with 1024 in *. apply Hm; [apply Z.div_pos; lia|].
  pose proof (Z.div_mod off 1024). pose proof (Z.mod_pos_bound off 1024).
  change FS_BLOCK_SIZE with 1024. lia.
Qed.

Lemma read_loop_wp bs v d ro fuel off rest tot acc l :
  locked bs v d l → inode_wf v d → mapped v d (id_size d) → 0 ≤ off → off + rest ≤ id_size d →
  rest ≤ Z.of_nat fuel →
  wp (read_loop sb ro fuel off rest tot acc)
    (λ r l', r = Ok (acc ++ (byte_at v d <$> seqZ off rest)) ∧ locked bs v d l') l.
Proof.
  intros Hl Hw Hm. revert off rest tot acc l Hl.
  induction fuel as [|fuel IH]; intros off rest tot acc l Hl Hoff Hsz Hf; cbn [read_loop].
  { rw (proj2 (Z.leb_le rest 0)); [lia|]. wp_step. by rw seqZ_nil ?app_nil_r; [lia|]. }
  destruct (Z.leb_spec rest 0).
  { wp_step. by rw seqZ_nil ?app_nil_r; [lia|]. }
  pose proof (iw_size v d Hw). destruct (mapped_at v d _ off Hm) as [k Hk]; [lia|].
  wp_step. eapply wp_mono; [apply (get_found_wp bs v d l ro _ k Hl); [apply div_block_range; lia|done]|].
  intros r l' [-> [Hst' Hd']]. wp_step. apply wp_on_store.
  eapply wp_mono; [exact (stored_read bs v (lk_store l') k Hst')|]. intros ? s1 [-> Hst1].
  set (m := Z.min rest (FS_BLOCK_SIZE - off mod FS_BLOCK_SIZE)).
  assert (0 < m ≤ rest ∧ off mod FS_BLOCK_SIZE + m ≤ FS_BLOCK_SIZE) as [Hm0 Hm1].
  { pose proof (Z.mod_pos_bound off FS_BLOCK_SIZE). change FS_BLOCK_SIZE with 1024 in *. lia. }
  rw (slice_bytes v d off m k) //; [lia|apply (stored_block _ _ _ _ Hst1)|].
  eapply wp_mono; [apply IH; [done|lia..]|]. intros r l'' [-> Hl'']. split; [|done].
  replace rest with (m + (rest - m)) at 2 by lia. rw (seqZ_app off m); [lia..|]. by rw fmap_app app_assoc.
Qed.

Lemma file_content_slice v d off len :
  0 ≤ off → 0 ≤ len →
  take (Z.to_nat len) (drop (Z.to_nat off) (file_content v d)) =
  byte_at v d <$> seqZ off (Z.min len (id_size d - off)).
Proof.
  intros Hoff Hlen. rw /file_content -fmap_drop -fmap_take. f_equal. apply list_eq. intros i.
  destruct (decide (Z.of_nat i < Z.min len (id_size d - off))).
  - rw lookup_take_lt; [lia|]. rw lookup_drop !lookup_seqZ_lt; [lia..|]. f_equal. lia.
  - rw (lookup_seqZ_ge off); [lia|]. apply lookup_ge_None. len.
Qed.
End operations.
End inode_spec.
