(* ===== verification/Content.v ===== *)
(** * The content of a file

    The theorems about [LockedTxInode::read], [write], [update] and [truncate] in
    [crates/kernel/ov6_kernel/src/fs/inode/content.rs], for every block store that
    satisfies [TxStoreLaws]: what they do to the bytes of the file, to the bitmap
    and to the other blocks. *)

From S2P Require Import Prelude KError Pod FsTypes BlockIo Store DataBlock Inode InodeSpec.

Section content_spec.
Context (sb : SuperBlock) (Hsb : sb_ok sb).
Context {S : Type} `{!TxStore S} `{!TxStoreLaws S}.
#[local] Abbreviation Locked := (@Locked S).
Implicit Types (v : Z → list byte) (d : InodeData) (i k bn : Z) (l : Locked) (bs : gset Z).

(** ** Writing the content *)

(** The number of blocks that hold the bytes [off, off + n). *)
Definition touched (off n : Z) : nat :=
  if decide (n ≤ 0) then 0%nat
  else Z.to_nat ((off + n - 1) / FS_BLOCK_SIZE - off / FS_BLOCK_SIZE + 1).

Lemma touched_step off n m :
  0 ≤ off → 0 < n → m = Z.min n (FS_BLOCK_SIZE - off mod FS_BLOCK_SIZE) →
  touched off n = Datatypes.S (touched (off + m) (n - m)).
Proof.
  intros Hoff Hn Hm. rw /touched decide_False; [lia|]. change FS_BLOCK_SIZE with 1024 in *.
  pose proof (Z.mod_pos_bound off 1024). pose proof (Z.div_mod off 1024). case_decide.
  - replace ((off + n - 1) / 1024) with (off / 1024); [lia|].
    apply (Z.div_unique _ _ _ (off mod 1024 + n - 1)); lia.
  - assert (m = 1024 - off mod 1024) as -> by lia.
    replace ((off + (1024 - off mod 1024)) / 1024) with (off / 1024 + 1)
      by (apply (Z.div_unique _ _ _ 0); lia).
    replace (off + (1024 - off mod 1024) + (n - (1024 - off mod 1024)) - 1) with (off + n - 1) by lia.
    assert (off / 1024 + 1 ≤ (off + n - 1) / 1024); [|lia].
    apply Z.div_le_lower_bound; lia.
Qed.

(** Changing the content of a data block of the inode. *)
Lemma grown_upd v d i k b :
  inode_wf sb v d → meta_reserved sb v → 0 ≤ i < MAX_FILE → block_of v d i = Some k →
  grown sb 0 v d (upd v k b) d ∧ (∀ j, block_of (upd v k b) d j = block_of v d j).
Proof.
  intros Hw Hr Hi Hk.
  assert (∀ j, block_of (upd v k b) d j = block_of v d j) as Hb.
  { intros j. apply ind_good_block_of. intros q Hq. rw upd_ne //. intros ->.
    by apply (iw_ne sb v d Hw i q). }
  assert (∀ j, 0 ≤ j < sb_size sb → used sb (upd v k b) j = used sb v j) as Hu.
  { intros j Hj. rw /used upd_ne //. apply (good_not_bmap sb v); [done| |done]. by apply (iw_block sb v d Hw i). }
  assert (∀ q, good sb v q → good sb (upd v k b) q) as Hg.
  { intros q Hq. pose proof (good_range sb v q Hsb Hq). destruct Hq. split; [done|]. by rw Hu. }
  split; [|done]. split.
  - by destruct d.
  - destruct Hw as [H1 H2 H3 H4 H5 H6 H7]. split; [done| | | | |done|done].
    + intros j q Hj. rw Hb. intros Hq. by apply Hg, (H2 j).
    + intros q Hq. by apply Hg, H3.
    + intros j1 j2 q ??. rw !Hb. by apply H4.
    + intros j q ?. rw Hb. by apply H5.
  - intros j Hj. rw Hu //. by apply Hr.
  - intros j q ?. by rw Hb.
  - done.
  - rw drop_0 /free_list. apply filter_ext_in. intros j Hj%elem_of_seqZ. rw Hu; [lia|done].
  - intros q [Hq|(j & Hj & Hq)]; left; [by left|right]. exists j. by rw Hb in Hq.
  - intros q Hq _. rw upd_ne //. intros ->. apply Hq. right. exists i. by rw Hb.
  - intros q Hq _. by apply Hu.
Qed.

(** The bytes after the content of one block was spliced. *)
Lemma byte_at_splice v d i k pos (x : list byte) o :
  inode_wf sb v d → 0 ≤ i < MAX_FILE → block_of v d i = Some k → is_block (v k) →
  0 ≤ pos → pos + Z.of_nat (length x) ≤ FS_BLOCK_SIZE → 0 ≤ o < MAX_FILE * FS_BLOCK_SIZE →
  (∀ j, block_of (upd v k (splice (Z.to_nat pos) x (v k))) d j = block_of v d j) →
  byte_at (upd v k (splice (Z.to_nat pos) x (v k))) d o =
  let s := i * FS_BLOCK_SIZE + pos in
  if decide (s ≤ o < s + Z.of_nat (length x)) then default Byte.x00 (x !! Z.to_nat (o - s)) else byte_at v d o.
Proof.
  intros Hw Hi Hk Hb Hp Hx Ho Hbo. rw /byte_at Hbo. pose proof (div_block_range o Ho) as Hq.
  pose proof (Z.mod_pos_bound o FS_BLOCK_SIZE ltac:(done)). pose proof (Z.div_mod o FS_BLOCK_SIZE ltac:(done)).
  assert (length (v k) = Z.to_nat FS_BLOCK_SIZE) as Hlen by by rw Hb.
  destruct (decide (o / FS_BLOCK_SIZE = i)) as [Ei|Ei].
  - rw Ei Hk upd_eq /splice. rw Ei in H0. simpl. case_decide.
    + f_equal. rw lookup_app_r; [len|]. rw lookup_app_l; [len|]. f_equal. len.
    + f_equal. destruct (decide (o mod FS_BLOCK_SIZE < pos)).
      * rw lookup_app_l; [len|]. rw lookup_take_lt //. lia.
      * rw lookup_app_r; [len|]. rw lookup_app_r; [len|]. rw lookup_drop. f_equal. len.
  - simpl. rw decide_False; [change FS_BLOCK_SIZE with 1024 in *; lia|].
    destruct (block_of v d (o / FS_BLOCK_SIZE)) as [q|] eqn:Eq; [|done]. rw upd_ne //.
    intros <-. apply Ei. by apply (iw_inj sb v d Hw _ _ k).
Qed.

(** A fresh block reads as zeroes, like the hole it fills. *)
Lemma looked_up_bytes bs v d i r l' :
  looked_up sb bs v d i r l' → 0 ≤ i < MAX_FILE →
  ∃ n v' d', (n + room d' ≤ 1 + room d)%nat ∧ locked bs v' d' l' ∧ grown sb n v d v' d' ∧
    (∀ j, 0 ≤ j → j ≠ i → block_of v' d' j = block_of v d j) ∧
    (∀ o, 0 ≤ o < MAX_FILE * FS_BLOCK_SIZE → byte_at v' d' o = byte_at v d o) ∧
    match r with
    | Ok (Some k) => block_of v' d' i = Some k
    | Ok None => False
    | Err e => e = StorageOutOfBlocks ∧ free_list sb v' = []
    end.
Proof.
  intros (n & v' & d' & Hn & Hl & [He Hs] & Hj & Hk) Hi. exists n, v', d'. split_and!; [done..| |].
  - intros o Ho. pose proof (div_block_range o Ho) as Hq. rw /byte_at.
    destruct (decide (o / FS_BLOCK_SIZE = i)) as [->|Hne].
    + destruct (block_of v d i) as [k'|] eqn:Ek; [by rw (gr_block _ _ _ _ _ _ He i k' Hi Ek) (Hs i)|].
      destruct r as [[k|]|e]; [|done|by destruct Hk as (_ & _ & -> & _)].
      destruct Hk as [-> Hz]. rw Hz // /zero_block. set (m := Z.to_nat (o mod FS_BLOCK_SIZE)).
      destruct (zeroes _ !! m) as [x|] eqn:Ex; [|done]. by apply lookup_replicate in Ex as [-> _].
    + rw Hj //; [lia|]. destruct (block_of v d (o / FS_BLOCK_SIZE)) as [q|] eqn:Eq; [|done]. by rw (Hs _ _ Hq Eq).
  - destruct r as [[k|]|e]; [apply Hk|done|]. by destruct Hk as (-> & _ & _ & ?).
Qed.

(** The first [w] bytes of [src] were written at [off]: all of them unless the disk
    is full, and then up to the end of a block. *)
Record wrote (n : nat) v d (off : Z) (src : list byte) (w : Z) v' d' : Prop := {
  wr_grown : grown sb n v d v' d';
  wr_count : (n + room d' ≤ touched off (Z.of_nat (length src)) + room d)%nat;
  wr_mapped : mapped v' d' (off + w);
  wr_bytes o : 0 ≤ o < MAX_FILE * FS_BLOCK_SIZE →
    byte_at v' d' o =
    if decide (off ≤ o < off + w) then default Byte.x00 (src !! Z.to_nat (o - off)) else byte_at v d o;
  wr_len : 0 ≤ w ≤ Z.of_nat (length src);
  wr_full : w = Z.of_nat (length src) ∨
    free_list sb v' = [] ∧ (w = 0 ∨ (off + w) mod FS_BLOCK_SIZE = 0);
}.

Lemma mapped_mono v d v' d' n n' :
  mapped v d n → (∀ i k, 0 ≤ i < MAX_FILE → block_of v d i = Some k → block_of v' d' i = Some k) →
  n ≤ MAX_FILE * FS_BLOCK_SIZE → n' ≤ n → mapped v' d' n'.
Proof.
  intros Hm Hb Hn Hn' i Hi Hlt. destruct (Hm i Hi) as [k Hk]; [lia|]. exists k. apply Hb; [|done].
  change FS_BLOCK_SIZE with 1024 in *. lia.
Qed.

Lemma mapped_step v d off m k :
  0 ≤ off → mapped v d off → off mod FS_BLOCK_SIZE + m ≤ FS_BLOCK_SIZE →
  block_of v d (off / FS_BLOCK_SIZE) = Some k → mapped v d (off + m).
Proof.
  intros Hoff Hm Hle Hk i Hi Hlt. pose proof (Z.div_mod off FS_BLOCK_SIZE ltac:(done)).
  change FS_BLOCK_SIZE with 1024 in *. destruct (decide (i * 1024 < off)); [by apply Hm|].
  assert (i = off / 1024) as ->; [|by rw Hk].
  apply Z.le_antisymm; [|apply Z.div_le_upper_bound; lia]. lia.
Qed.

(** One more block: [m] bytes, then the rest. *)
Lemma wrote_step n n1 v d off src w m v1 d1 v2 d2 :
  0 ≤ off → m = Z.min (Z.of_nat (length src)) (FS_BLOCK_SIZE - off mod FS_BLOCK_SIZE) → 0 < m →
  grown sb n1 v d v1 d1 → (n1 + room d1 ≤ 1 + room d)%nat →
  (∀ o, 0 ≤ o < MAX_FILE * FS_BLOCK_SIZE → byte_at v1 d1 o =
    if decide (off ≤ o < off + m) then default Byte.x00 (take (Z.to_nat m) src !! Z.to_nat (o - off))
    else byte_at v d o) →
  wrote n v1 d1 (off + m) (drop (Z.to_nat m) src) w v2 d2 →
  wrote (n1 + n) v d off src (m + w) v2 d2.
Proof.
  intros Hoff Hm Hm0 Hg Hn Hb [G C M B L F]. rw length_drop in C, L, F. split.
  - by apply (grown_trans sb _ _ _ _ v1 d1).
  - rw (touched_step off _ m Hoff _ Hm); [lia|].
    replace (Z.of_nat (length src) - m) with (Z.of_nat (length src - Z.to_nat m)) by lia. lia.
  - by rw Z.add_assoc.
  - intros o Ho. rw B //. repeat case_decide; try lia.
    + rw lookup_drop. do 2 f_equal. lia.
    + rw Hb // decide_True; [lia|]. rw lookup_take_lt //. lia.
    + rw Hb // decide_False //. lia.
  - lia.
  - destruct (decide (w = Z.of_nat (length src - Z.to_nat m))) as [->|Hne]; [left; lia|right].
    destruct F as [?|[F Hw]]; [done|]. split; [done|right].
    destruct Hw as [->|Hw]; [|by rw Z.add_assoc].
    assert (m = FS_BLOCK_SIZE - off mod FS_BLOCK_SIZE) as -> by lia.
    pose proof (Z.div_mod off FS_BLOCK_SIZE ltac:(done)).
    replace (off + _) with ((off / FS_BLOCK_SIZE + 1) * FS_BLOCK_SIZE) by lia. by apply Z.mod_mul.
Qed.

(** The blocks that hold the bytes [off, off + n) may change. *)
Definition may_write bs v d (off n : Z) : Prop :=
  ∀ o k, off ≤ o < off + n → block_of v d (o / FS_BLOCK_SIZE) = Some k → k ∈ bs.

Lemma wrote_nil v d off :
  inode_wf sb v d → meta_reserved sb v → mapped v d off → wrote 0 v d off [] 0 v d.
Proof.
  intros Hw Hr Hm. split; [by apply grown_refl|simpl; lia|by rw Z.add_0_r| |done|by left].
  intros o _. rw decide_False //. lia.
Qed.

(** The step of the loop, after the block was looked up. *)
Lemma write_block_wp bs v d off src m k l :
  locked bs v d l → inode_wf sb v d → meta_reserved sb v → 0 ≤ off →
  m = Z.min (Z.of_nat (length src)) (FS_BLOCK_SIZE - off mod FS_BLOCK_SIZE) →
  off < MAX_FILE * FS_BLOCK_SIZE → block_of v d (off / FS_BLOCK_SIZE) = Some k → k ∈ bs →
  wp (on_store (st_update k (splice (Z.to_nat (off mod FS_BLOCK_SIZE)) (take (Z.to_nat m) src))))
    (λ _ l', ∃ v', locked bs v' d l' ∧ grown sb 0 v d v' d ∧ (∀ j, block_of v' d j = block_of v d j) ∧
      ∀ o, 0 ≤ o < MAX_FILE * FS_BLOCK_SIZE → byte_at v' d o =
        if decide (off ≤ o < off + m) then default Byte.x00 (take (Z.to_nat m) src !! Z.to_nat (o - off))
        else byte_at v d o) l.
Proof.
  intros [Hst Hd] Hw Hr Hoff Hm Hlt Hk Hin. apply wp_on_store.
  pose proof (stored_block _ _ _ k Hst) as Hb. pose proof (div_block_range off ltac:(lia)) as Hi.
  pose proof (Z.mod_pos_bound off FS_BLOCK_SIZE ltac:(done)).
  pose proof (Z.div_mod off FS_BLOCK_SIZE ltac:(done)) as Hdm.
  assert (0 ≤ m) as Hm0 by lia.
  set (x := take (Z.to_nat m) src). assert (Z.of_nat (length x) = m) as Hx by (rw /x length_take; lia).
  set (pos := off mod FS_BLOCK_SIZE) in *.
  set (b := splice (Z.to_nat pos) x (v k)). assert (is_block b) as Hb'.
  { rw /is_block /b splice_length //. rw Hb. lia. }
  eapply wp_mono; [apply (stored_update bs v (lk_store l) k); [done..|exact Hb']|].
  intros ? s' Hst'. destruct (grown_upd v d _ k b Hw Hr Hi Hk) as [Hg Hbo].
  exists (upd v k b). split_and!; [done..|]. intros o Ho.
  rw (byte_at_splice v d (off / FS_BLOCK_SIZE)) //; [lia..|]. simpl.
  replace (off / FS_BLOCK_SIZE * FS_BLOCK_SIZE + pos) with off by lia. by rw Hx.
Qed.

Lemma write_loop_wp bs fuel v d off src tot l :
  locked bs v d l → inode_wf sb v d → meta_reserved sb v → mapped v d off → 0 ≤ off →
  off + Z.of_nat (length src) ≤ MAX_FILE * FS_BLOCK_SIZE → (length src ≤ fuel)%nat → 0 ≤ tot →
  may_grow sb bs v d (touched off (Z.of_nat (length src)) + room d) →
  may_write bs v d off (Z.of_nat (length src)) →
  wp (write_loop sb false fuel off src tot) (λ r l', ∃ n v' d' w,
    locked bs v' d' l' ∧ wrote n v d off src w v' d' ∧
    (r = Ok (tot + w) ∧ (src = [] ∨ 0 < tot + w) ∨
     r = Err StorageOutOfBlocks ∧ src ≠ [] ∧ tot + w = 0)) l.
Proof.
  revert v d off src tot l. induction fuel as [|fuel IH];
    intros v d off src tot l Hl Hw Hr Hm Hoff Hmax Hf Ht Hg Hmw; destruct src as [|x src']; cbn [write_loop].
  1,3: wp_step; exists 0%nat, v, d, 0; split_and!; [done|by apply wrote_nil|rw Z.add_0_r; by left; split; [|left]].
  { simpl in Hf. lia. }
  set (src := x :: src') in *. assert (0 < Z.of_nat (length src)) as Hlen by (simpl; lia).
  pose proof (div_block_range off ltac:(lia)) as Hi. set (i := off / FS_BLOCK_SIZE) in *.
  set (m := Z.min (Z.of_nat (length src)) (FS_BLOCK_SIZE - off mod FS_BLOCK_SIZE)).
  pose proof (Z.mod_pos_bound off FS_BLOCK_SIZE ltac:(done)). assert (0 < m) as Hm0 by lia.
  assert (may_grow sb bs v d (1 + room d)) as Hg1.
  { eapply may_grow_le; [exact Hg|]. rw (touched_step off _ m Hoff Hlen) //. lia. }
  wp_step. eapply wp_mono; [exact (get_block_wp sb Hsb bs v d l i Hl Hw Hr Hg1 Hi)|].
  intros r l1 Hlu. destruct (looked_up_bytes bs v d i r l1 Hlu Hi)
    as (n1 & v1 & d1 & Hn1 & Hl1 & Hg' & Hoth & Hby & Hk). destruct r as [[k|]|e]; [|done|].
  - assert (k ∈ bs) as Hkb.
    { destruct (owns_dec v d k) as [Ho|Ho].
      - apply (Hmw off k); [lia|]. by apply (grown_block sb n1 v d v1 d1).
      - apply (grown_fresh sb n1 bs v d v1 d1); [eapply may_grow_le; [exact Hg1|lia]|done| |done]. right. by exists i. }
    wp_step. eapply wp_mono; [apply (write_block_wp bs v1 d1 off src m k); try done; [apply Hg'|apply Hg'|lia]|].
    intros _ l2 (v2 & Hl2 & Hg2 & Hbo2 & Hby2).
    pose proof (grown_trans sb _ _ _ _ _ _ _ _ Hg' Hg2) as Hg12. rw Nat.add_0_r in Hg12.
    rw (touched_step off _ m Hoff Hlen) // in Hg.
    assert (Z.of_nat (length src) - m = Z.of_nat (length (drop (Z.to_nat m) src))) as Hdl by (rw length_drop; lia).
    eapply wp_mono; [apply (IH v2 d1 (off + m) (drop (Z.to_nat m) src) (tot + m))|]; [done|apply Hg12..| |lia|lia| |lia| | |].
    + apply (mapped_step v2 d1 off m k Hoff); [|lia|by rw Hbo2].
      apply (mapped_mono v d v2 d1 off off Hm); [apply Hg12|lia..].
    + simpl in *. rw length_drop. simpl. lia.
    + eapply (grown_may_grow sb bs v d v2 d1 n1); [|done]. eapply may_grow_le; [exact Hg|]. rw -Hdl. lia.
    + intros o q Ho. rw Hbo2 Hoth; [apply Z.div_pos; [lia|done]| |apply Hmw; lia].
      intros Eo. pose proof (Z.div_mod o FS_BLOCK_SIZE ltac:(done)). pose proof (Z.div_mod off FS_BLOCK_SIZE ltac:(done)).
      pose proof (Z.mod_pos_bound o FS_BLOCK_SIZE ltac:(done)). rw Eo in H0. fold i in H1. lia.
    + intros r l3 (n & v3 & d3 & w & Hl3 & Hwr & Hres). exists (n1 + n)%nat, v3, d3, (m + w).
      split_and!; [done| |].
      * apply (wrote_step n n1 v d off src w m v2 d1); try done.
        intros o Ho. rw Hby2 //. by rw Hby.
      * destruct Hwr as [_ _ _ _ [Hw0 _] _].
        destruct Hres as [[-> _]|(_ & _ & ?)]; [|lia]. left. rw Z.add_assoc. split; [done|right; lia].
  - destruct Hk as [-> Hfull].
    assert (wrote n1 v d off src 0 v1 d1) as Hwr.
    { split; [done| | | |lia|by right; split; [|left]].
      - rw (touched_step off _ m Hoff Hlen) //. lia.
      - rw Z.add_0_r. apply (mapped_mono v d v1 d1 off off Hm); [apply Hg'|lia..].
      - intros o Ho. rw Hby // decide_False //. lia. }
    destruct (Z.ltb_spec 0 tot); wp_step; exists n1, v1, d1, 0; (split_and!; [done..|]).
    + left. rw Z.add_0_r. split; [done|by right].
    + right. split_and!; [done..|lia].
Qed.

(** ** The inode on disk *)

(** The inode [ino] as the disk has it. *)
Definition disk_inode v (ino : Z) : InodeData := from_repr (block_inode (v (inode_block sb ino)) ino).

Lemma addrs_ok v d : inode_wf sb v d → Forall addr_ok (id_addrs d).
Proof.
  intros Hw. apply Forall_lookup. intros n [k|] Hn; [|done].
  pose proof (lookup_lt_Some _ _ _ Hn) as Hlt. rw (iw_len sb v d Hw) in Hlt.
  apply (good_nonzero sb v k Hsb). change NUM_DIRECT_REFS with 12 in *.
  assert (addr d (Z.of_nat n) = Some k) as Ha by by rw /addr Nat2Z.id Hn.
  destruct (decide (n = 12%nat)) as [->|]; [by apply (iw_ind sb v d Hw)|].
  apply (iw_block sb v d Hw (Z.of_nat n)); [change MAX_FILE with 268; lia|].
  rw /block_of decide_True //. change NUM_DIRECT_REFS with 12. lia.
Qed.

(** The representation [write_repr] builds, over a slot with the minor number [mi]. *)
Definition repr (d : InodeData) (mi : Z) : DiskInode :=
  {| di_ty := id_ty d; di_major := id_major d; di_minor := mi; di_nlink := id_nlink d;
     di_size := id_size d; di_addrs := repr_addr <$> id_addrs d |}.

Lemma write_repr_run {T} v d (r : DiskInode) (s : T) :
  inode_wf sb v d → pwf pod_inode r →
  write_repr d r s = Ret (repr d (di_minor r)) s ∧ pwf pod_inode (repr d (di_minor r)).
Proof.
  intros Hw Hr. pose proof (addrs_ok v d Hw) as Ha. pose proof (iw_meta sb v d Hw) as (? & ? & ?).
  pose proof (iw_size sb v d Hw). destruct Hr as (Hr1 & Hr2 & Hr3 & Hr4 & Hr5 & Hr6 & Hr7). simpl in *. split.
  - rw /write_repr (bind_Ret _ _ _ (id_major d) s).
    { rw /try_from (proj2 (Z.ltb_lt _ _)) //. lia. }
    rw (bind_Ret _ _ _ _ s (write_addrs_run (di_addrs r) (id_addrs d) s _ Ha)) //.
    by rw (iw_len sb v d Hw) -Hr6.
  - repeat split; simpl; try lia.
    + apply Hr3.
    + apply Hr3.
    + change (2 ^ (8 * Z.of_nat 4)) with (2 ^ 32). change MAX_FILE with 268 in *.
      change FS_BLOCK_SIZE with 1024 in *. lia.
    + by rw length_fmap (iw_len sb v d Hw).
    + by apply repr_addrs_wf.
Qed.

Lemma from_repr_repr v d : inode_wf sb v d → from_repr (repr d (id_minor d)) = d.
Proof.
  intros Hw. rw /from_repr /repr /=. rw read_addrs_repr; [by apply (addrs_ok v)|]. by destruct d.
Qed.

(** [update] writes the inode to its slot; the other slots keep their content. *)
Record updated v (ino : Z) d v' : Prop := {
  up_frame k : k ≠ inode_block sb ino → v' k = v k;
  up_disk : disk_inode v' ino = d;
  up_others j : 0 ≤ j < ninodes sb → j ≠ ino → disk_inode v' j = disk_inode v j;
}.

Lemma inode_block_inj i j :
  0 ≤ i < ninodes sb → 0 ≤ j < ninodes sb → inode_block sb i = inode_block sb j →
  i / INODE_PER_BLOCK = j / INODE_PER_BLOCK.
Proof. intros Hi Hj. rw !inode_block_eq //. lia. Qed.

Lemma update_wp bs v d ino l :
  locked bs v d l → inode_wf sb v d → 0 ≤ ino < ninodes sb → inode_block sb ino ∈ bs →
  id_minor (disk_inode v ino) = id_minor d →
  wp (update sb ino) (λ _ l', ∃ v', locked bs v' d l' ∧ updated v ino d v') l.
Proof.
  intros [Hst Hd] Hw Hi Hin Hmi. rw /update. wp_step. apply wp_on_store.
  set (ib := inode_block sb ino) in *. pose proof (stored_block _ _ _ ib Hst) as Hb.
  eapply wp_mono; [exact (stored_read bs v (lk_store l) ib Hst)|]. intros ? s1 [-> Hst1]. wp_step. wp_step.
  assert (pwf pod_inode (block_inode (v ib) ino)) as Hwf by (apply block_inode_wf; [done|lia]).
  rw Hd. destruct (write_repr_run v d _ {| lk_store := s1; lk_data := d |} Hw Hwf) as [E Hwf'].
  assert (di_minor (block_inode (v ib) ino) = id_minor d) as Em by done. rw Em in E, Hwf'.
  wp_step. apply (wp_of_run _ _ _ _ _ E). apply wp_on_store.
  set (b' := block_inode_mut (v ib) ino (repr d (id_minor d))).
  assert (is_block b') as Hb' by (apply block_inode_mut_is_block; [done|lia|done]).
  eapply wp_mono; [exact (stored_update bs v s1 ib (λ _, b') Hst1 Hin Hb')|]. intros ? s2 Hst2.
  exists (upd v ib b'). split; [done|]. split.
  - intros k Hk. rw upd_ne; [by apply not_eq_sym|done].
  - rw /disk_inode upd_eq block_inode_mut_eq; [done|lia|done|]. by apply (from_repr_repr v).
  - intros j Hj Hne. rw /disk_inode /upd. case_decide as Ej; [|done].
    rw -Ej /b' block_inode_mut_ne; [done|lia..|by apply inode_block_inj|done|done].
Qed.

(** Writing an inode changes neither the bitmap nor the data of a file. *)
Section frame.
Context v v' ino d0 (Hi : 0 ≤ ino < ninodes sb) (Hu : updated v ino d0 v').

Lemma updated_used j : 0 ≤ j < sb_size sb → used sb v' j = used sb v j.
Proof.
  intros Hj. rw /used (up_frame _ _ _ _ Hu) //. apply not_eq_sym. by apply inode_bmap_ne.
Qed.

Lemma updated_free_list : free_list sb v' = free_list sb v.
Proof. apply filter_ext_in. intros j Hj%elem_of_seqZ. rw updated_used; [lia|done]. Qed.

Lemma updated_reserved : meta_reserved sb v → meta_reserved sb v'.
Proof. intros Hr j Hj. rw updated_used //. by apply Hr. Qed.

Lemma updated_good k : good sb v k → v' k = v k ∧ good sb v' k.
Proof.
  intros Hk. split; [by apply (up_frame _ _ _ _ Hu), (good_not_inode sb v)|].
  pose proof (good_range sb v k Hsb Hk). destruct Hk. split; [done|]. by rw updated_used.
Qed.

End frame.

(** ** The contract of [write] *)

(** [w] bytes of [src] were written at [off] to the file of inode [ino]: its content,
    the invariants, the bitmap, the other files. *)
Record written v d (ino off : Z) (src : list byte) (w : Z) v' d' : Prop := {
  wt_content : file_content v' d' = splice (Z.to_nat off) (take (Z.to_nat w) src) (file_content v d);
  wt_attrs : d' = set_size (Z.max (id_size d) (off + w)) (set_addrs (id_addrs d') d);
  wt_wf : inode_wf sb v' d';
  wt_reserved : meta_reserved sb v';
  wt_mapped : mapped v' d' (id_size d');
  wt_disk : disk_inode v' ino = d';
  wt_others j : 0 ≤ j < ninodes sb → j ≠ ino → disk_inode v' j = disk_inode v j;
  wt_files d2 : inode_wf sb v d2 → (∀ k, owns v d2 k → ¬ owns v d k) →
    inode_wf sb v' d2 ∧ file_content v' d2 = file_content v d2 ∧ (∀ k, owns v' d2 k → ¬ owns v' d' k);
  wt_blocks : ∃ n, (n ≤ touched off (Z.of_nat (length src)) + room d)%nat ∧
    free_list sb v' = drop n (free_list sb v) ∧
    ∀ k, owns v' d' k ↔ owns v d k ∨ k ∈ take n (free_list sb v);
}.

Lemma free_list_used v k : good sb v k → k ∉ free_list sb v.
Proof. intros [_ Hu] Hk. apply elem_of_free_list in Hk as [_ Hk]. congruence. Qed.

(** The blocks an inode got are exactly those taken from the free list. *)
Lemma grown_owns_iff n v d v' d' k :
  grown sb n v d v' d' → owns v' d' k ↔ owns v d k ∨ k ∈ take n (free_list sb v).
Proof.
  intros Hg. split; [apply Hg|]. intros [Hk|Hk]; [by apply (grown_owns sb n v d)|].
  destruct (owns_dec v' d' k) as [|Hn]; [done|].
  pose proof (elem_of_take_in _ _ _ Hk) as Hf. apply elem_of_free_list in Hf as [Hr Hf].
  assert (k ∈ free_list sb v') as Hk'.
  { apply elem_of_free_list. split; [done|]. by rw (gr_used _ _ _ _ _ _ Hg). }
  rw (gr_free _ _ _ _ _ _ Hg) in Hk'. pose proof (free_list_nodup sb v) as Hnd.
  rw -(take_drop n (free_list sb v)) in Hnd. apply NoDup_app in Hnd as (_ & Hnd & _). by destruct (Hnd k Hk).
Qed.

(** A file whose blocks keep their content is not affected. *)
Lemma same_file v v' d :
  inode_wf sb v d → (∀ k, owns v d k → v' k = v k ∧ good sb v' k) →
  inode_wf sb v' d ∧ (∀ i, block_of v' d i = block_of v d i) ∧
  (∀ o, 0 ≤ o < MAX_FILE * FS_BLOCK_SIZE → byte_at v' d o = byte_at v d o) ∧
  (∀ k, owns v' d k ↔ owns v d k).
Proof.
  intros Hw Hsame. assert (∀ i, block_of v' d i = block_of v d i) as Hb.
  { intros i. apply ind_good_block_of. intros k Hk. by apply Hsame; left. }
  split_and!; [|done| |].
  - destruct Hw as [H1 H2 H3 H4 H5 H6 H7]. split; [done| | | | |done|done].
    + intros i k ?. rw Hb. intros Hk. apply Hsame. right. by exists i.
    + intros k Hk. apply Hsame. by left.
    + intros i j k ??. rw !Hb. by apply H4.
    + intros i k ?. rw Hb. by apply H5.
  - intros o Ho. rw /byte_at Hb. destruct (block_of v d _) as [k|] eqn:Ek; [|done].
    rw (proj1 (Hsame k _)) //. right. eexists. split; [|exact Ek]. by apply div_block_range.
  - intros k. rw /owns. split; (intros [?|(i & Hi & Hk)]; [by left|right; exists i]); [by rw -Hb|by rw Hb].
Qed.

Lemma owns_good v d k : inode_wf sb v d → owns v d k → good sb v k.
Proof. intros Hw [Hk|(i & Hi & Hk)]; [by apply (iw_ind sb v d Hw)|by apply (iw_block sb v d Hw i)]. Qed.

Lemma file_content_ext v v' d :
  inode_wf sb v d → (∀ o, 0 ≤ o < MAX_FILE * FS_BLOCK_SIZE → byte_at v' d o = byte_at v d o) →
  file_content v' d = file_content v d.
Proof.
  intros Hw Hb. apply list_fmap_ext. intros j o Ho. apply lookup_seqZ in Ho as [-> Ho].
  pose proof (iw_size _ _ _ Hw). apply Hb. lia.
Qed.

(** A file that shares no block with the inode is not affected. *)
Lemma grown_other n v d v' d' d2 :
  grown sb n v d v' d' → inode_wf sb v d2 → (∀ k, owns v d2 k → ¬ owns v d k) →
  ∀ k, owns v d2 k → v' k = v k ∧ good sb v' k ∧ ¬ owns v' d' k.
Proof.
  intros Hg Hw Hd k Hk. pose proof (owns_good v d2 k Hw Hk) as Hk'.
  assert (¬ owns v' d' k) as Hn.
  { intros Ho. destruct (gr_owns _ _ _ _ _ _ Hg k Ho) as [?|Hf]; [by apply (Hd k)|].
    by apply (free_list_used v k Hk'), (elem_of_take_in _ n). }
  split_and!; [|split; [apply Hk'|]|done].
  - apply (gr_frame _ _ _ _ _ _ Hg k Hn). intros. by apply (good_not_bmap sb v).
  - rw (gr_used _ _ _ _ _ _ Hg) //; [by apply (good_range sb v)|apply Hk'].
Qed.

Lemma set_size_wf v d n :
  inode_wf sb v d → 0 ≤ n ≤ MAX_FILE * FS_BLOCK_SIZE → inode_wf sb v (set_size n d).
Proof. by intros [] Hn. Qed.

Lemma set_addrs_wf_size n v d v' d' : grown sb n v d v' d' → id_size d' = id_size d.
Proof. intros Hg. by rw (gr_data _ _ _ _ _ _ Hg). Qed.

(** The content after the bytes [off, off + w) were replaced. *)
Lemma file_content_splice v d v' d' off src w :
  0 ≤ off ≤ id_size d → 0 ≤ w ≤ Z.of_nat (length src) →
  id_size d' = Z.max (id_size d) (off + w) → id_size d' ≤ MAX_FILE * FS_BLOCK_SIZE →
  (∀ o, 0 ≤ o < MAX_FILE * FS_BLOCK_SIZE → byte_at v' d' o =
    if decide (off ≤ o < off + w) then default Byte.x00 (src !! Z.to_nat (o - off)) else byte_at v d o) →
  file_content v' d' = splice (Z.to_nat off) (take (Z.to_nat w) src) (file_content v d).
Proof.
  intros Hoff Hw Hsz Hmax Hb. rw /file_content /splice.
  assert (length (take (Z.to_nat w) src) = Z.to_nat w) as Hl by (rw length_take; lia).
  apply list_eq_same_length with (n := Z.to_nat (id_size d')); [len|len|].
  intros i x y Hi. rw list_lookup_fmap lookup_seqZ_lt; [lia|]. intros [= <-]. rw Hb; [lia|]. case_decide.
  - rw lookup_app_r; [len|]. rw lookup_app_l; [len|]. rw lookup_take_lt; [len|]. len.
    replace (Z.to_nat (0 + Z.of_nat i - off)) with (i - Z.to_nat off `min` Z.to_nat (id_size d))%nat by lia.
    by intros ->.
  - destruct (decide (Z.of_nat i < off)).
    + rw lookup_app_l; [len|]. rw lookup_take_lt; [lia|]. rw list_lookup_fmap lookup_seqZ_lt; [lia|]. by intros [= <-].
    + rw lookup_app_r; [len|]. rw lookup_app_r; [len|]. rw lookup_drop list_lookup_fmap lookup_seqZ_lt; [len|].
      len. intros [= <-]. f_equal. lia.
Qed.

Lemma grown_disk_inode n v d v' d' j :
  grown sb n v d v' d' → 0 ≤ j < ninodes sb → disk_inode v' j = disk_inode v j.
Proof.
  intros Hg Hj. rw /disk_inode (gr_frame _ _ _ _ _ _ Hg) //.
  - pose proof (gr_wf _ _ _ _ _ _ Hg) as Hw. intros Ho.
    assert (good sb v' (inode_block sb j)) as Hgd.
    { destruct Ho as [Hk|(i & Hi & Hk)]; [by apply (iw_ind sb v' d' Hw)|by apply (iw_block sb v' d' Hw i)]. }
    by apply (good_not_inode sb v' _ j Hsb Hgd).
  - intros bn Hbn. by apply inode_bmap_ne.
Qed.

Lemma wrote_written n v d ino off src w v1 d1 v2 :
  wrote n v d off src w v1 d1 → 0 ≤ ino < ninodes sb → mapped v d (id_size d) →
  0 ≤ off ≤ id_size d → id_size d ≤ MAX_FILE * FS_BLOCK_SIZE → off + w ≤ MAX_FILE * FS_BLOCK_SIZE →
  let d2 := set_size (Z.max (id_size d) (off + w)) d1 in
  updated v1 ino d2 v2 → written v d ino off src w v2 d2.
Proof.
  intros [Hg Hc Hm Hb Hl Hf] Hi Hmap Hoff Hsz Hmax d2 Hu.
  pose proof (gr_wf _ _ _ _ _ _ Hg) as Hw1.
  assert (inode_wf sb v1 d2) as Hw2 by (apply set_size_wf; [done|lia]).
  destruct (same_file v1 v2 d2 Hw2) as (Hw2' & Hbo & Hby & Hown).
  { intros k Hk. apply (updated_good v1 v2 ino d2 Hi Hu), (owns_good v1 d2 k Hw2 Hk). }
  split.
  - apply file_content_splice; [done..|simpl; lia|].
    intros o Ho. rw Hby //. by rw -Hb.
  - by rw {1}/d2 (gr_data _ _ _ _ _ _ Hg).
  - done.
  - apply (updated_reserved v1 v2 ino d2); [done..|apply Hg].
  - intros i Hi0 Hlt. rw Hbo //. change (is_Some (block_of v1 d1 i)). simpl in Hlt.
    destruct (decide (i * FS_BLOCK_SIZE < off + w)); [by apply Hm|].
    apply (mapped_mono v d v1 d1 (id_size d) (id_size d) Hmap); [apply Hg|lia..].
  - apply Hu.
  - intros j Hj Hne. rw (up_others _ _ _ _ Hu j Hj Hne). exact (grown_disk_inode n v d v1 d1 j Hg Hj).
  - intros d3 Hw3 Hd3. pose proof (grown_other n v d v1 d1 d3 Hg Hw3 Hd3) as H3.
    assert (∀ k, owns v d3 k → v2 k = v k ∧ good sb v2 k) as H4.
    { intros k Hk. destruct (H3 k Hk) as (<- & Hk1 & _). by apply (updated_good v1 v2 ino d2). }
    destruct (same_file v v2 d3 Hw3 H4) as (Hw3' & _ & Hy3 & Ho3).
    split_and!; [done|by apply file_content_ext|]. intros k. rw Ho3 Hown. apply H3.
  - exists n. split_and!; [lia| |].
    + by rw (updated_free_list v1 v2 ino d2 Hi Hu) (gr_free _ _ _ _ _ _ Hg).
    + intros k. rw Hown. by apply (grown_owns_iff n v d v1 d1).
Qed.

(** What [write] needs: the invariants of the inode, that the disk has the inode as
    it is in memory, and that the blocks [write] changes may be changed. *)
Record writable bs v d (ino off n : Z) : Prop := {
  wb_wf : inode_wf sb v d;
  wb_reserved : meta_reserved sb v;
  wb_mapped : mapped v d (id_size d);
  wb_ino : 0 ≤ ino < ninodes sb;
  wb_disk : disk_inode v ino = d;
  wb_inode : inode_block sb ino ∈ bs;
  wb_grow : may_grow sb bs v d (touched off n + room d);
  wb_write : may_write bs v d off n;
}.

Lemma write_too_large bs v d ino off src l :
  locked bs v d l → 0 ≤ off → MAX_FILE * FS_BLOCK_SIZE < off + Z.of_nat (length src) →
  wp (write sb ino false src off) (λ r l', r = Err FileTooLarge ∧ l' = l) l.
Proof.
  intros Hl Hoff Hlt. rw /write.
  assert (match checked_add off (Z.of_nat (length src)) with
          | None => true | Some e => MAX_FILE * FS_BLOCK_SIZE <? e end = true) as ->; [|by wp_step].
  rw /checked_add. destruct (_ <=? U64_MAX); [by apply Z.ltb_lt|done].
Qed.

Lemma set_size_id d : set_size (id_size d) d = d.
Proof. by destruct d. Qed.

(** The tail of [write], after the loop. *)
Lemma write_finish_wp bs n v d ino off src w v1 d1 l1 :
  locked bs v1 d1 l1 → wrote n v d off src w v1 d1 → writable bs v d ino off (Z.of_nat (length src)) →
  0 ≤ off ≤ id_size d → off + Z.of_nat (length src) ≤ MAX_FILE * FS_BLOCK_SIZE →
  wp ((if id_size d <? off + w then
         n ← unwrap (try_from 32 (off + w)); map_data (set_size n)
       else mret tt);;
      update sb ino;; mret (Ok (A := Z) (E := KernelError) w))
    (λ r l', ∃ v2 d2, locked bs v2 d2 l' ∧ r = Ok w ∧ written v d ino off src w v2 d2 ∧
      free_list sb v2 = free_list sb v1) l1.
Proof.
  intros Hl Hwr Hwb Hoff Hmax. pose proof (wr_grown _ _ _ _ _ _ _ _ Hwr) as Hg.
  pose proof (wr_len _ _ _ _ _ _ _ _ Hwr) as Hw. pose proof (iw_size _ _ _ (wb_wf _ _ _ _ _ _ Hwb)) as Hsz.
  pose proof (set_addrs_wf_size _ _ _ _ _ Hg) as Hs1.
  set (d2 := set_size (Z.max (id_size d) (off + w)) d1). wp_step.
  eapply wp_mono with (Q := λ _ l2, locked bs v1 d2 l2).
  { destruct (Z.ltb_spec (id_size d) (off + w)).
    - wp_step. apply (wp_unwrap _ (off + w)).
      { rw /try_from (proj2 (Z.ltb_lt _ _)) //. change MAX_FILE with 268 in *. change FS_BLOCK_SIZE with 1024 in *. lia. }
      apply wp_map_data. destruct Hl as [Hst ->]. split; [done|]. rw /d2 Z.max_r //. lia.
    - wp_step. rw /d2 Z.max_l; [lia|]. by rw -Hs1 set_size_id. }
  intros ? l2 Hl2. wp_step.
  assert (inode_wf sb v1 d2) as Hw2 by (apply set_size_wf; [apply Hg|lia]).
  pose proof (grown_disk_inode n v d v1 d1 ino Hg (wb_ino _ _ _ _ _ _ Hwb)) as Hdi.
  eapply wp_mono; [apply (update_wp bs v1 d2 ino l2 Hl2 Hw2)|]; [apply Hwb..| |].
  { rw Hdi (wb_disk _ _ _ _ _ _ Hwb) /d2 (gr_data _ _ _ _ _ _ Hg). done. }
  intros ? l3 (v2 & Hl3 & Hu). wp_step. exists v2, d2. split_and!; [done..| |].
  - apply (wrote_written n v d ino off src w v1 d1 v2); [done|apply Hwb|apply Hwb|done|lia|lia|done].
  - by apply (updated_free_list v1 v2 ino d2); [apply Hwb|].
Qed.

Lemma inode_read_wp bs v d ro off len l :
  locked bs v d l → inode_wf sb v d → mapped v d (id_size d) → 0 ≤ off → 0 ≤ len → off + len ≤ U64_MAX →
  wp (read sb ro len off) (λ r l',
    r = Ok (take (Z.to_nat len) (drop (Z.to_nat off) (file_content v d))) ∧ locked bs v d l') l.
Proof.
  intros Hl Hw Hm Hoff Hlen Hmax. rw /read. wp_step. wp_step. pose proof (proj2 Hl) as ->.
  rw /checked_add (proj2 (Z.leb_le _ _) Hmax) orb_false_r file_content_slice //.
  destruct (Z.ltb_spec (id_size d) off).
  - wp_step. by rw seqZ_nil; [lia|].
  - eapply wp_mono; [apply (read_loop_wp sb bs v d ro); [done..|lia|lia]|]. by intros r l' [-> ?].
Qed.

(** C17: reading [len] bytes at [off] gives those bytes of the content that are there,
    and nothing past the end; it changes neither the blocks nor the inode, in
    read-only and in read-write transactions. *)
Theorem read_content bs v d ro off len l :
  locked bs v d l → inode_wf sb v d → mapped v d (id_size d) → 0 ≤ off → 0 ≤ len → off + len ≤ U64_MAX →
  wp (read sb ro len off) (λ r l',
    r = Ok (take (Z.to_nat len) (drop (Z.to_nat off) (file_content v d))) ∧ locked bs v d l') l.
Proof. exact (inode_read_wp bs v d ro off len l). Qed.

Lemma inode_write_wp bs v d ino off src l :
  locked bs v d l → writable bs v d ino off (Z.of_nat (length src)) → 0 ≤ off →
  wp (write sb ino false src off) (λ r l',
    if decide (MAX_FILE * FS_BLOCK_SIZE < off + Z.of_nat (length src)) then r = Err FileTooLarge ∧ l' = l
    else if decide (id_size d < off) then r = Err WriteOffsetTooLarge ∧ l' = l
    else ∃ v' d', locked bs v' d' l' ∧
      match r with
      | Ok w => written v d ino off src w v' d' ∧
          (w = Z.of_nat (length src) ∨
           0 < w < Z.of_nat (length src) ∧ (off + w) mod FS_BLOCK_SIZE = 0 ∧ free_list sb v' = [])
      | Err e => e = StorageOutOfBlocks ∧ src ≠ [] ∧ free_list sb v' = [] ∧
          inode_wf sb v' d' ∧ file_content v' d' = file_content v d
      end) l.
Proof.
  intros Hl Hwb Hoff. case_decide as Hmax; [by apply (write_too_large bs v d)|].
  rw /write. assert (match checked_add off (Z.of_nat (length src)) with
          | None => true | Some e => MAX_FILE * FS_BLOCK_SIZE <? e end = false) as ->.
  { rw /checked_add (proj2 (Z.leb_le _ _)); [change MAX_FILE with 268 in *; change FS_BLOCK_SIZE with 1024 in *; rw /U64_MAX; lia|].
    apply Z.ltb_ge. lia. }
  wp_step. wp_step. pose proof (proj2 Hl) as ->. case_decide as Hsz.
  { rw (proj2 (Z.ltb_lt _ _) Hsz). by wp_step. }
  rw (proj2 (Z.ltb_ge _ _)); [lia|]. wp_step.
  eapply wp_mono; [apply (write_loop_wp bs (length src) v d off src 0 l); [done|apply Hwb|apply Hwb| |done|lia|lia|lia|apply Hwb|apply Hwb]|].
  { apply (mapped_mono v d v d (id_size d)); [apply Hwb|done|apply (iw_size _ _ _ (wb_wf _ _ _ _ _ _ Hwb))|lia]. }
  intros r l1 (n & v1 & d1 & w & Hl1 & Hwr & [[-> Hpos]|(-> & Hne & Hz)]).
  - eapply wp_mono; [apply (write_finish_wp bs n v d ino off src w v1 d1 l1); [done..|lia|lia]|].
    intros r l2 (v2 & d2 & Hl2 & -> & Hwt & Hfl). exists v2, d2. split_and!; [done..|].
    rw Hfl. destruct (wr_full _ _ _ _ _ _ _ _ Hwr) as [?|[? Hend]]; [by left|].
    destruct (wr_len _ _ _ _ _ _ _ _ Hwr). destruct Hpos as [->|?]; [left; simpl in *; lia|].
    destruct (decide (w = Z.of_nat (length src))); [by left|right]. split_and!; [lia|lia| |done].
    destruct Hend; [lia|done].
  - assert (w = 0) as -> by lia. exists v1, d1. destruct Hwr as [Hg _ _ Hby _ Hfull]. split_and!; [done..| |apply Hg|].
    + destruct Hfull as [E|[? _]]; [|done]. destruct src; [done|discriminate].
    + rw /file_content (set_addrs_wf_size _ _ _ _ _ Hg). apply list_fmap_ext. intros j o Ho.
      apply lookup_seqZ in Ho as [-> Ho]. pose proof (iw_size _ _ _ (wb_wf _ _ _ _ _ _ Hwb)).
      rw Hby; [lia|]. rw decide_False //. lia.
Qed.

(** C13: writing [src] at [off].  A write past the largest file or starting past the end
    of the file is refused and changes nothing.  Otherwise the bytes written replace
    those of the file from [off] on, extending it when necessary: all of [src], or
    up to the end of a block when the disk is full; the inode on disk is the one in memory,
    the invariants hold again, the new blocks come from the free list, and no other
    inode and no other file is affected.  When not even one byte fits the write
    fails and the content is unchanged. *)
Theorem write_content bs v d ino off src l :
  locked bs v d l → writable bs v d ino off (Z.of_nat (length src)) → 0 ≤ off →
  wp (write sb ino false src off) (λ r l',
    if decide (MAX_FILE * FS_BLOCK_SIZE < off + Z.of_nat (length src)) then r = Err FileTooLarge ∧ l' = l
    else if decide (id_size d < off) then r = Err WriteOffsetTooLarge ∧ l' = l
    else ∃ v' d', locked bs v' d' l' ∧
      match r with
      | Ok w => written v d ino off src w v' d' ∧
          (w = Z.of_nat (length src) ∨
           0 < w < Z.of_nat (length src) ∧ (off + w) mod FS_BLOCK_SIZE = 0 ∧ free_list sb v' = [])
      | Err e => e = StorageOutOfBlocks ∧ src ≠ [] ∧ free_list sb v' = [] ∧
          inode_wf sb v' d' ∧ file_content v' d' = file_content v d
      end) l.
Proof. exact (inode_write_wp bs v d ino off src l). Qed.
End content_spec.

(** ** A small disk

    Fifty blocks, sixteen inodes: the root directory with the block 8 as inode 1, an
    empty file as inode 2, a file of five bytes with the block 7 as inode 3. *)
Module SmallDisk.
Import PlainDisk.
Definition small_sb : SuperBlock :=
  {| magic := FS_MAGIC; sb_size := 50; nblocks := 43; ninodes := 16; nlog := 2; logstart := 2;
     inodestart := 4; bmapstart := 6 |}.
Definition file_inode : DiskInode :=
  {| di_ty := 2; di_major := 0; di_minor := 0; di_nlink := 1; di_size := 0;
     di_addrs := di_addrs zeroed_inode |}.
Definition hello_inode : DiskInode :=
  {| di_ty := 2; di_major := 0; di_minor := 0; di_nlink := 1; di_size := 5;
     di_addrs := <[0%nat := 7]> (di_addrs zeroed_inode) |}.
Definition hello : list byte := [Byte.x68; Byte.x65; Byte.x6c; Byte.x6c; Byte.x6f].
Definition root_inode : DiskInode :=
  {| di_ty := 1; di_major := 0; di_minor := 0; di_nlink := 1; di_size := 48;
     di_addrs := <[0%nat := 8]> (di_addrs zeroed_inode) |}.
Definition root_entries : list byte :=
  pto pod_dirent {| de_ino := 1; de_name := Byte.x2e :: zeroes 13 |} ++
  pto pod_dirent {| de_ino := 1; de_name := Byte.x2e :: Byte.x2e :: zeroes 12 |} ++
  pto pod_dirent {| de_ino := 3; de_name := hello ++ zeroes 9 |}.
Definition disk0 : PlainDisk.t :=
  {[ 6 := Byte.xff :: Byte.x01 :: zeroes 1022;
     4 := block_inode_mut (block_inode_mut (block_inode_mut zero_block 2 file_inode) 3 hello_inode) 1 root_inode;
     7 := hello ++ zeroes 1019;
     8 := root_entries ++ zeroes 976 ]}.
Definition v0 : Z → list byte := PlainDisk.block disk0.
Definition d0 : InodeData := from_repr file_inode.
Definition l0 : @Locked PlainDisk.t := {| lk_store := disk0; lk_data := d0 |}.
Definition d3 : InodeData := from_repr hello_inode.
Definition l3 : @Locked PlainDisk.t := {| lk_store := disk0; lk_data := d3 |}.
Definition all_blocks : gset Z := list_to_set (seqZ 0 50).

Lemma small_sb_ok : sb_ok small_sb.
Proof. split; vm_compute; intuition discriminate. Qed.

Lemma locked0 : locked all_blocks v0 d0 l0.
Proof.
  split; [|done]. split; [|done]. intros k. rw /PlainDisk.block /disk0 !lookup_insert.
  repeat case_decide; [vm_compute; done..|]. rw lookup_empty. auto with ov6.
Qed.

Lemma block_of0 i : block_of v0 d0 i = None.
Proof.
  rw /block_of. change (ind d0) with (None (A := Z)). case_decide; [|done].
  rw /addr. change (id_addrs d0) with (replicate 13 (None (A := Z))).
  destruct (_ !! _) as [o|] eqn:E; [|done]. by apply lookup_replicate in E as [-> _].
Qed.

Lemma inode_wf0 : inode_wf small_sb v0 d0.
Proof.
  split; [done| | | | |vm_compute; intuition discriminate|vm_compute; intuition discriminate].
  - intros i k _. by rw block_of0.
  - done.
  - intros i j k _ _. by rw block_of0.
  - intros i k _. by rw block_of0.
Qed.

Lemma reserved0 : meta_reserved small_sb v0.
Proof.
  assert (forallb (λ j, used small_sb v0 j || (data_start small_sb <=? j)) (seqZ 0 50) = true) as H
    by (vm_compute; done).
  intros j Hj Hu. rw forallb_forall in H. specialize (H j). rw Hu in H. apply Z.leb_le, H.
  apply list_elem_of_In, elem_of_seqZ. exact Hj.
Qed.

Lemma writable0 off n : writable small_sb all_blocks v0 d0 2 off n.
Proof.
  split.
  - apply inode_wf0.
  - apply reserved0.
  - intros i Hi Hlt. change (id_size d0) with 0 in Hlt. change FS_BLOCK_SIZE with 1024 in Hlt. lia.
  - done.
  - vm_compute. done.
  - by apply elem_of_list_to_set, elem_of_seqZ.
  - split.
    + intros bn Hbn. rw (bmap_block_eq _ _ small_sb_ok Hbn). apply elem_of_list_to_set, elem_of_seqZ.
      simpl in *. rw Z.div_small; [change BITS_PER_BLOCK with 8192; lia|lia].
    + done.
    + intros k Hk%elem_of_take_in%elem_of_free_list. apply elem_of_list_to_set, elem_of_seqZ. apply Hk.
  - intros o k _. by rw block_of0.
Qed.

Lemma locked3 : locked all_blocks v0 d3 l3.
Proof. split; [apply locked0|done]. Qed.

(** Inodes with one block. *)
Lemma one_block v d k i :
  id_addrs d = Some k :: replicate 12 None → 0 ≤ i → block_of v d i = if decide (i = 0) then Some k else None.
Proof.
  intros Ha Hi. rw /block_of. assert (ind d = None) as -> by by rw /ind /addr Ha.
  case_decide as Hlt; [|rw decide_False //; intros ->; by apply Hlt].
  rw /addr Ha. case_decide as Hz; [by subst i|]. destruct (Z.to_nat i) as [|n] eqn:En; [lia|].
  change (mjoin (replicate 12 (None (A := Z)) !! n) = None).
  destruct (replicate 12 None !! n) as [o|] eqn:E; [|done]. by apply lookup_replicate in E as [-> _].
Qed.

Lemma one_block_wf v d k :
  id_addrs d = Some k :: replicate 12 None → good small_sb v k → 0 ≤ id_size d ≤ MAX_FILE * FS_BLOCK_SIZE →
  0 ≤ id_ty d < 2 ^ 16 ∧ 0 ≤ id_major d < 2 ^ 16 ∧ 0 ≤ id_nlink d < 2 ^ 16 → inode_wf small_sb v d.
Proof.
  intros Ha Hg Hs Hm. assert (ind d = None) as Hi by by rw /ind /addr Ha.
  split; [by rw Ha| | | | |done|done].
  - intros i k' Hi'. rw (one_block v d k i) //; [lia|]. case_decide; [|done]. by intros [= <-].
  - by rw Hi.
  - intros i j k' Hi' Hj. rw !(one_block v d k) //; [lia..|]. repeat case_decide; congruence.
  - intros i k' _ _. by rw Hi.
Qed.

Lemma one_block_mapped v d k :
  id_addrs d = Some k :: replicate 12 None → id_size d ≤ FS_BLOCK_SIZE → mapped v d (id_size d).
Proof.
  intros Ha Hs i Hi Hlt. rw (one_block v d k) //. rw decide_True //. change FS_BLOCK_SIZE with 1024 in *. lia.
Qed.

Lemma inode_wf3 : inode_wf small_sb v0 d3.
Proof. apply (one_block_wf v0 d3 7); [done|vm_compute; intuition discriminate..]. Qed.
End SmallDisk.

Module Example.
Import PlainDisk SmallDisk.

Lemma read_content_witness :
  wp (read small_sb true 10 0) (λ r l',
    r = Ok hello ∧ locked all_blocks v0 d3 l') l3.
Proof.
  change hello with (take (Z.to_nat 10) (drop (Z.to_nat 0) (file_content v0 d3))).
  apply (read_content small_sb all_blocks v0 d3 true 0 10 l3 locked3 inode_wf3); [|done..].
  by apply (one_block_mapped v0 d3 7).
Defined.

Lemma write_content_witness :
  wp (write small_sb 2 false [Byte.x68; Byte.x69] 0) (λ r l', ∃ v' d', locked all_blocks v' d' l' ∧
    match r with
    | Ok w => written small_sb v0 d0 2 0 [Byte.x68; Byte.x69] w v' d' ∧
        (w = 2 ∨ 0 < w < 2 ∧ (0 + w) mod FS_BLOCK_SIZE = 0 ∧ free_list small_sb v' = [])
    | Err e => e = StorageOutOfBlocks ∧ [Byte.x68; Byte.x69] ≠ [] ∧ free_list small_sb v' = [] ∧
        inode_wf small_sb v' d' ∧ file_content v' d' = file_content v0 d0
    end) l0.
Proof.
  exact (write_content small_sb small_sb_ok all_blocks v0 d0 2 0 [Byte.x68; Byte.x69] l0 locked0
    (writable0 0 2) ltac:(done)).
Defined.
End Example.
