(* ===== verification/Truncate.v ===== *)
(** * Truncation

    [LockedTxInode::truncate] and [free] of
    [crates/kernel/ov6_kernel/src/fs/inode/content.rs] release exactly the blocks of
    the file: none is leaked, none is freed twice and none of another file is
    touched. *)

From S2P Require Import Prelude KError Pod FsTypes BlockIo Store DataBlock Inode InodeSpec Content.

Section truncate_spec.
Context (sb : SuperBlock) (Hsb : sb_ok sb).
Context {S : Type} `{!TxStore S} `{!TxStoreLaws S}.
#[local] Abbreviation Locked := (@Locked S).
Implicit Types (v : Z → list byte) (d : InodeData) (i k bn q : Z) (l : Locked) (bs : gset Z).

(** The blocks [bns] were released. *)
Record freed (bns : list Z) v v' : Prop := {
  fr_frame k : (∀ bn, 0 ≤ bn < sb_size sb → k ≠ bmap_block sb bn) → v' k = v k;
  fr_used j : 0 ≤ j < sb_size sb → used sb v' j = if decide (j ∈ bns) then false else used sb v j;
}.

Lemma freed_nil v : freed [] v v.
Proof. split; [done|]. intros j _. case_decide; set_solver. Qed.

Lemma freed_trans b1 b2 v1 v2 v3 : freed b1 v1 v2 → freed b2 v2 v3 → freed (b1 ++ b2) v1 v3.
Proof.
  intros [F1 U1] [F2 U2]. split.
  - intros k Hk. by rw F2 // F1.
  - intros j Hj. rw U2 // U1 //. repeat case_decide; set_solver.
Qed.

(** The blocks in [bns] can be released: each once. *)
Definition freeable (bns : list Z) v : Prop :=
  NoDup bns ∧ ∀ k, k ∈ bns → 0 ≤ k < sb_size sb ∧ used sb v k = true.

Lemma freeable_app b1 b2 v v' :
  freeable (b1 ++ b2) v → freed b1 v v' → freeable b1 v ∧ freeable b2 v'.
Proof.
  intros [Hnd Hu] Hf. apply NoDup_app in Hnd as (H1 & H12 & H2). split; split; try done.
  - intros k Hk. apply Hu. set_solver.
  - intros k Hk. destruct (Hu k) as [Hr Hk']; [set_solver|]. split; [done|].
    rw (fr_used _ _ _ Hf) // decide_False //. intros Hk1. by apply (H12 k).
Qed.

Section steps.
Context bs (Hbm : ∀ bn, 0 ≤ bn < sb_size sb → bmap_block sb bn ∈ bs).

Lemma free_one_wp v d k l :
  locked bs v d l → freeable [k] v →
  wp (on_store (data_free sb k)) (λ _ l', ∃ v', locked bs v' d l' ∧ freed [k] v v') l.
Proof.
  intros [Hst Hd] [_ Hu]. destruct (Hu k) as [Hr Hk]; [left|]. apply wp_on_store.
  eapply wp_mono; [exact (data_free_wp sb Hsb bs v (lk_store l) k Hst Hr Hk (Hbm k Hr))|].
  intros ? s' (v' & Hst' & Hfr & Hus). exists v'. split; [done|]. split.
  - intros j Hj. by apply Hfr, Hj.
  - intros j Hj. rw Hus //. repeat case_decide; set_solver.
Qed.

Lemma free_blocks_wp bns v d l :
  locked bs v d l → freeable bns v →
  wp (for_each bns (λ bn, on_store (data_free sb bn))) (λ _ l', ∃ v', locked bs v' d l' ∧ freed bns v v') l.
Proof.
  revert v l. induction bns as [|k bns IH]; intros v l Hl Hf; cbn [for_each].
  { wp_step. exists v. split; [done|apply freed_nil]. }
  wp_step. eapply wp_mono; [apply (free_one_wp v d k l Hl)|].
  { split; [apply NoDup_singleton|]. intros j Hj. apply Hf. set_solver. }
  intros ? l1 (v1 & Hl1 & Hf1). destruct (freeable_app [k] bns v v1 Hf Hf1) as [_ Hf2].
  eapply wp_mono; [exact (IH v1 l1 Hl1 Hf2)|]. intros ? l2 (v2 & Hl2 & Hf3). exists v2.
  split; [done|]. exact (freed_trans [k] bns v v1 v2 Hf1 Hf3).
Qed.

(** The loop over the direct references. *)
Lemma truncate_direct_wp idxs v d l :
  locked bs v d l → length (id_addrs d) = Z.to_nat (NUM_DIRECT_REFS + 1) →
  (∀ i, i ∈ idxs → 0 ≤ i < NUM_DIRECT_REFS) → NoDup idxs → freeable (omap (addr d) idxs) v →
  wp (truncate_direct sb idxs) (λ _ l', ∃ v' d', locked bs v' d' l' ∧ freed (omap (addr d) idxs) v v' ∧
    d' = set_addrs (id_addrs d') d ∧ length (id_addrs d') = length (id_addrs d) ∧
    ∀ j, 0 ≤ j → addr d' j = if decide (j ∈ idxs) then None else addr d j) l.
Proof.
  revert v d l. induction idxs as [|i idxs IH]; intros v d l Hl Hlen Hr Hnd Hf; cbn [truncate_direct].
  { wp_step. exists v, d. split_and!; [done|apply freed_nil|by destruct d|done|].
    intros j _. case_decide; set_solver. }
  wp_step. wp_step. pose proof (proj2 Hl) as Hd. rw Hd. wp_step. apply NoDup_cons in Hnd as [Hi Hnd].
  assert (0 ≤ i < NUM_DIRECT_REFS) as Hir by (apply Hr; left).
  simpl in Hf. destruct (addr d i) as [k|] eqn:Ek.
  - wp_step. apply wp_map_data. rw Hd.
    set (d1 := set_addr i None d).
    assert (∀ j, 0 ≤ j → addr d1 j = if decide (i = j) then None else addr d j) as Ha.
    { intros j Hj. apply addr_set_addr; [lia..|]. rw Hlen. change NUM_DIRECT_REFS with 12 in *. lia. }
    assert (omap (addr d1) idxs = omap (addr d) idxs) as Eo.
    { apply list_omap_ext. apply Forall_Forall2_diag, Forall_forall. intros j Hj.
      rw Ha; [apply Hr; set_solver|]. rw decide_False //. congruence. }
    eapply wp_mono; [apply (free_one_wp v d1 k); [by destruct Hl|]|].
    { destruct Hf as [_ Hf]. split; [apply NoDup_singleton|]. intros j Hj. apply Hf. set_solver. }
    intros ? l1 (v1 & Hl1 & Hf1). destruct (freeable_app [k] _ v v1 Hf Hf1) as [_ Hf2].
    eapply wp_mono; [apply (IH v1 d1 l1 Hl1); [by rw length_set_addr|set_solver|done|by rw Eo]|].
    intros ? l2 (v2 & d2 & Hl2 & Hf3 & Ed & El & Ha2). exists v2, d2. split_and!; [done| | | |].
    + rw Eo in Hf3. simpl. rw Ek. exact (freed_trans [k] _ v v1 v2 Hf1 Hf3).
    + by rw Ed.
    + by rw El length_set_addr.
    + intros j Hj. rw Ha2 // Ha //. repeat case_decide; set_solver.
  - wp_step. eapply wp_mono; [apply (IH v d l Hl Hlen); [set_solver|done|done]|].
    intros ? l2 (v2 & d2 & Hl2 & Hf3 & Ed & El & Ha2). exists v2, d2. split_and!; [done| |done..|].
    + simpl. by rw Ek.
    + intros j Hj. rw Ha2 //. repeat case_decide; set_solver.
Qed.
End steps.

(** ** The blocks of an inode, in the order [truncate] releases them *)

Definition direct_blocks d : list Z := omap (addr d) (seqZ 0 NUM_DIRECT_REFS).
Definition indirect_blocks v d : list Z :=
  match ind d with Some q => omap id (indirect_entries (v q)) ++ [q] | None => [] end.

Lemma elem_of_direct_blocks d k :
  k ∈ direct_blocks d ↔ ∃ i, 0 ≤ i < NUM_DIRECT_REFS ∧ addr d i = Some k.
Proof.
  rw /direct_blocks list_elem_of_omap. split.
  - intros (i & Hi%elem_of_seqZ & Hk). exists i. split; [lia|done].
  - intros (i & Hi & Hk). exists i. split; [|done]. apply elem_of_seqZ. lia.
Qed.

Lemma elem_of_entries v d q k :
  ind d = Some q → k ∈ omap id (indirect_entries (v q)) ↔
  ∃ i, NUM_DIRECT_REFS ≤ i < MAX_FILE ∧ block_of v d i = Some k.
Proof.
  intros Hq. rw list_elem_of_omap.
  assert (length (indirect_entries (v q)) = Z.to_nat NUM_INDIRECT_REFS) as Hl.
  { rw /indirect_entries /read_addrs length_fmap. apply indirect_length. }
  change MAX_FILE with (NUM_DIRECT_REFS + NUM_INDIRECT_REFS). split.
  - intros (o & (n & Hn)%list_elem_of_lookup_1 & Ho). simpl in Ho. subst o.
    pose proof (lookup_lt_Some _ _ _ Hn). exists (NUM_DIRECT_REFS + Z.of_nat n). split; [lia|].
    rw /block_of Hq decide_False; [lia|].
    replace (Z.to_nat (NUM_DIRECT_REFS + Z.of_nat n - NUM_DIRECT_REFS)) with n by lia. by rw Hn.
  - intros (i & Hi & Hk). rw /block_of Hq decide_False in Hk; [lia|].
    destruct (_ !! _) as [o|] eqn:Eo; [|done]. simpl in Hk. subst o.
    exists (Some k). split; [|done]. by apply list_elem_of_lookup_2 in Eo.
Qed.

Lemma elem_of_owned v d k : k ∈ direct_blocks d ++ indirect_blocks v d ↔ owns v d k.
Proof.
  rw elem_of_app elem_of_direct_blocks /indirect_blocks /owns.
  assert (∀ i, i < NUM_DIRECT_REFS → block_of v d i = addr d i) as Hd.
  { intros i Hi. rw /block_of. by rw decide_True. }
  assert (NUM_DIRECT_REFS ≤ MAX_FILE) as Hle by done. split.
  - intros [(i & Hi & Hk)|Hk].
    + right. exists i. split; [lia|]. by rw Hd; [lia|].
    + destruct (ind d) as [q|] eqn:Eq; [|set_solver]. apply elem_of_app in Hk as [Hk|Hk]; [|left; apply list_elem_of_singleton in Hk; congruence].
      right. apply (elem_of_entries v d q k Eq) in Hk as (i & Hi & Hk). exists i. split; [|done].
      change NUM_DIRECT_REFS with 12 in *. lia.
  - intros [Hk|(i & Hi & Hk)]; [right; rw Hk; apply elem_of_app; right; left|].
    destruct (decide (i < NUM_DIRECT_REFS)); [left; exists i; split; [lia|by rw -Hd]|right].
    destruct (ind d) as [q|] eqn:Eq.
    + apply elem_of_app. left. apply (elem_of_entries v d q k Eq). exists i. split; [lia|done].
    + rw /block_of Eq decide_False // in Hk.
Qed.

Lemma owned_freeable v d : inode_wf sb v d → freeable (direct_blocks d ++ indirect_blocks v d) v.
Proof.
  intros Hw. assert (∀ i, i < NUM_DIRECT_REFS → block_of v d i = addr d i) as Hd.
  { intros i Hi. rw /block_of. by rw decide_True. }
  assert (NUM_DIRECT_REFS ≤ MAX_FILE) as Hle by done. split.
  - apply NoDup_app. split_and!.
    + apply NoDup_omap_inj; [apply NoDup_seqZ|]. intros i j k Hi%elem_of_seqZ Hj%elem_of_seqZ Hk Hk'.
      apply (iw_inj sb v d Hw i j k); [lia|lia|by rw Hd; [lia|]..].
    + intros k (i & Hi & Hk)%elem_of_direct_blocks. rw -Hd in Hk; [lia|]. rw /indirect_blocks.
      destruct (ind d) as [q|] eqn:Eq; [|set_solver]. rw elem_of_app. intros [Hk'|Hk'].
      * apply (elem_of_entries v d q k Eq) in Hk' as (j & Hj & Hk').
        assert (i = j) by (apply (iw_inj sb v d Hw i j k); [lia|change NUM_DIRECT_REFS with 12 in *; lia|done..]). lia.
      * apply list_elem_of_singleton in Hk' as ->. by apply (iw_ne sb v d Hw i q); [lia| |].
    + rw /indirect_blocks. destruct (ind d) as [q|] eqn:Eq; [|constructor]. apply NoDup_app. split_and!.
      * apply NoDup_omap_id. intros i j k Hi Hj.
        assert (∀ n, indirect_entries (v q) !! n = Some (Some k) →
          0 ≤ NUM_DIRECT_REFS + Z.of_nat n < MAX_FILE ∧ block_of v d (NUM_DIRECT_REFS + Z.of_nat n) = Some k) as Hb.
        { intros n Hn. pose proof (lookup_lt_Some _ _ _ Hn) as Hlt.
          rw /indirect_entries /read_addrs length_fmap indirect_length in Hlt.
          change NUM_DIRECT_REFS with 12 in *. change MAX_FILE with 268. change NUM_INDIRECT_REFS with 256 in *.
          split; [lia|]. rw /block_of Eq. change NUM_DIRECT_REFS with 12. rw decide_False; [lia|].
          replace (Z.to_nat (12 + Z.of_nat n - 12)) with n by lia. by rw Hn. }
        destruct (Hb i Hi) as [Hi1 Hi2], (Hb j Hj) as [Hj1 Hj2].
        pose proof (iw_inj sb v d Hw _ _ k Hi1 Hj1 Hi2 Hj2). lia.
      * intros k Hk Hk'. apply list_elem_of_singleton in Hk' as ->.
        apply (elem_of_entries v d q q Eq) in Hk as (j & Hj & Hk).
        by apply (iw_ne sb v d Hw j q); [change NUM_DIRECT_REFS with 12 in *; lia| |].
      * apply NoDup_singleton.
  - intros k Hk%elem_of_owned.
    assert (good sb v k) as Hg by (destruct Hk as [Hk|(i & Hi & Hk)]; [by apply (iw_ind sb v d Hw)|by apply (iw_block sb v d Hw i)]).
    split; [by apply (good_range sb v)|apply Hg].
Qed.

(** ** The contract of [truncate] *)

(** The blocks of [d] were released, nothing else. *)
Record released v d v' : Prop := {
  rl_frame k : ¬ owns v d k → (∀ bn, 0 ≤ bn < sb_size sb → k ≠ bmap_block sb bn) → v' k = v k;
  rl_owned k : owns v d k → used sb v' k = false;
  rl_used k : 0 ≤ k < sb_size sb → ¬ owns v d k → used sb v' k = used sb v k;
}.

Definition no_addrs : list (option Z) := replicate (Z.to_nat (NUM_DIRECT_REFS + 1)) None.

Lemma no_addrs_eq d :
  length (id_addrs d) = Z.to_nat (NUM_DIRECT_REFS + 1) →
  (∀ j, 0 ≤ j ≤ NUM_DIRECT_REFS → addr d j = None) → id_addrs d = no_addrs.
Proof.
  intros Hl Ha. apply list_eq_same_length with (n := Z.to_nat (NUM_DIRECT_REFS + 1)); [done..|].
  intros n x y Hn Hx Hy. apply lookup_replicate in Hy as [-> _]. change NUM_DIRECT_REFS with 12 in *.
  specialize (Ha (Z.of_nat n) ltac:(lia)). rw /addr Nat2Z.id Hx in Ha. done.
Qed.

Section body.
Context bs v d (Hw : inode_wf sb v d).
Context (Hbm : ∀ bn, 0 ≤ bn < sb_size sb → bmap_block sb bn ∈ bs).
Context (Hib : ∀ q, ind d = Some q → q ∈ bs).

Lemma good_frame k : good sb v k → ∀ bn, 0 ≤ bn < sb_size sb → k ≠ bmap_block sb bn.
Proof. intros Hk bn Hbn. by apply (good_not_bmap sb v). Qed.

Lemma freed_released v' :
  freed (direct_blocks d ++ indirect_blocks v d) v v' → released v d v'.
Proof.
  intros [Hf Hu]. split.
  - intros k _. apply Hf.
  - intros k Hk. rw Hu; [by apply (good_range sb v), (owns_good sb v d)|]. rw decide_True //. by apply elem_of_owned.
  - intros k Hr Hk. rw Hu // decide_False //. by intros ?%elem_of_owned.
Qed.

(** The part of [truncate] that handles the indirect references. *)
Lemma truncate_indirect_wp v1 d1 q l1 :
  locked bs v1 d1 l1 → ind d = Some q → freed (direct_blocks d) v v1 →
  wp (b ← on_store (st_read q);
      let '(bns, b') := indirect_drain b in
      for_each (omap id bns) (λ bn, on_store (data_free sb bn));;
      on_store (st_update q (λ _, b'));;
      on_store (data_free sb q))
    (λ _ l', ∃ v', locked bs v' d1 l' ∧ released v d v') l1.
Proof.
  intros Hl1 Hq Hf1. pose proof (owned_freeable v d Hw) as Hfr.
  pose proof (iw_ind sb v d Hw q Hq) as Hgq. pose proof (good_frame q Hgq) as Hnq.
  assert (indirect_blocks v d = omap id (indirect_entries (v q)) ++ [q]) as Ei by by rw /indirect_blocks Hq.
  destruct (freeable_app _ _ v v1 Hfr Hf1) as [_ Hfr1]. rw Ei in Hfr1.
  wp_step. apply wp_on_store. eapply wp_mono; [exact (stored_read bs v1 (lk_store l1) q (proj1 Hl1))|].
  intros ? s1 [-> Hst1]. rw (fr_frame _ _ _ Hf1 q Hnq) /indirect_drain. fold (indirect_entries (v q)).
  set (es := omap id (indirect_entries (v q))) in *. wp_step.
  assert (locked bs v1 d1 {| lk_store := s1; lk_data := lk_data l1 |}) as Hl1' by (split; [done|apply Hl1]).
  eapply wp_mono; [apply (free_blocks_wp bs Hbm es v1 d1 _ Hl1')|].
  { destruct Hfr1 as [Hnd Hu]. split; [by apply NoDup_app in Hnd as [? _]|]. intros k Hk. apply Hu.
    apply elem_of_app. by left. }
  intros ? l2 (v2 & [Hst2 Hd2] & Hf2). destruct (freeable_app _ _ v1 v2 Hfr1 Hf2) as [_ Hfr2].
  wp_step. apply wp_on_store. set (b' := pto pod_indirect _).
  assert (is_block b') as Hb'.
  { rw /is_block /b' pto_length //. split; [apply length_replicate|]. by apply Forall_replicate. }
  eapply wp_mono; [exact (stored_update bs v2 (lk_store l2) q (λ _, b') Hst2 (Hib q Hq) Hb')|].
  intros ? s3 Hst3. set (v3 := upd v2 q b').
  assert (∀ j, 0 ≤ j < sb_size sb → used sb v3 j = used sb v2 j) as Hu3.
  { intros j Hj. rw /used /v3 upd_ne //. by apply Hnq. }
  eapply wp_mono; [apply (free_one_wp bs Hbm v3 d1 q); [done|]|].
  { destruct Hfr2 as [? Hu]. split; [done|]. intros k Hk. destruct (Hu k Hk). split; [done|]. by rw Hu3. }
  intros ? l4 (v4 & Hl4 & Hf4). exists v4. split; [done|].
  pose proof (freed_trans _ _ _ _ _ Hf1 Hf2) as Hf12. split.
  - intros k Hk Hb. rw (fr_frame _ _ _ Hf4) // /v3 upd_ne; [intros ->; apply Hk; by left|]. by apply Hf12.
  - intros k Hk. pose proof (good_range sb v k Hsb (owns_good sb v d k Hw Hk)) as Hr.
    rw (fr_used _ _ _ Hf4) //. case_decide as Hkq; [done|]. rw Hu3 // (fr_used _ _ _ Hf12) // decide_True //.
    apply elem_of_owned in Hk. rw Ei app_assoc elem_of_app in Hk. destruct Hk; [done|contradiction].
  - intros k Hr Hk. assert (k ∉ direct_blocks d ++ es ++ [q]) as Hn by (rw -Ei; by intros ?%elem_of_owned).
    rw app_assoc not_elem_of_app in Hn. destruct Hn as [Hn1 Hn2].
    rw (fr_used _ _ _ Hf4) // decide_False // Hu3 // (fr_used _ _ _ Hf12) // decide_False //.
Qed.
End body.

Definition empty_of d : InodeData := set_size 0 (set_addrs no_addrs d).

Lemma empty_block_of v d i : block_of v (empty_of d) i = None.
Proof.
  assert (∀ j, addr (empty_of d) j = None) as Ha.
  { intros j. rw /addr /=. destruct (no_addrs !! _) as [o|] eqn:E; [|done]. by apply lookup_replicate in E as [-> _]. }
  rw /block_of /ind !Ha. by case_decide.
Qed.

Lemma empty_wf v d v' : inode_wf sb v d → inode_wf sb v' (empty_of d).
Proof.
  intros Hw. split; [done| | | | |simpl; done|apply Hw].
  - intros i k _. by rw empty_block_of.
  - done.
  - intros i j k _ _. by rw empty_block_of.
  - intros i k _. by rw empty_block_of.
Qed.

(** The file of inode [ino] is empty and its blocks are free. *)
Record truncated v d (ino : Z) v' : Prop := {
  tr_wf : inode_wf sb v' (empty_of d);
  tr_reserved : meta_reserved sb v';
  tr_disk : disk_inode sb v' ino = empty_of d;
  tr_free k : 0 ≤ k < sb_size sb → k ∈ free_list sb v' ↔ k ∈ free_list sb v ∨ owns v d k;
  tr_others j : 0 ≤ j < ninodes sb → j ≠ ino → disk_inode sb v' j = disk_inode sb v j;
  tr_files d2 : inode_wf sb v d2 → (∀ k, owns v d2 k → ¬ owns v d k) →
    inode_wf sb v' d2 ∧ file_content v' d2 = file_content v d2;
}.

Lemma released_disk_inode v d v' j :
  inode_wf sb v d → released v d v' → 0 ≤ j < ninodes sb → disk_inode sb v' j = disk_inode sb v j.
Proof.
  intros Hw Hr Hj. rw /disk_inode (rl_frame _ _ _ Hr) //.
  - intros Ho. by apply (good_not_inode sb v (inode_block sb j) j Hsb (owns_good sb v d _ Hw Ho)).
  - intros bn Hbn. by apply inode_bmap_ne.
Qed.

Lemma released_truncated v d ino v1 v2 :
  inode_wf sb v d → meta_reserved sb v → 0 ≤ ino < ninodes sb → released v d v1 →
  updated sb v1 ino (empty_of d) v2 → truncated v d ino v2.
Proof.
  intros Hw Hr Hi Hrl Hu. pose proof (updated_used sb Hsb v1 v2 ino _ Hi Hu) as Hus. split.
  - by apply (empty_wf v).
  - intros j Hj. rw Hus //. intros Hz. destruct (owns_dec v d j) as [Ho|Ho].
    + apply (owns_good sb v d j Hw Ho).
    + apply Hr; [done|]. by rw -(rl_used _ _ _ Hrl).
  - apply Hu.
  - intros k Hk. rw !elem_of_free_list Hus //. split.
    + intros [_ Hz]. destruct (owns_dec v d k) as [Ho|Ho]; [by right|left]. by rw -(rl_used _ _ _ Hrl).
    + intros [[_ Hz]|Ho]; (split; [done|]); [|by apply Hrl].
      rw (rl_used _ _ _ Hrl) //. intros Ho. destruct (owns_good sb v d k Hw Ho). congruence.
  - intros j Hj Hne. rw (up_others _ _ _ _ _ Hu j Hj Hne). exact (released_disk_inode v d v1 j Hw Hrl Hj).
  - intros d2 Hw2 Hd2. assert (∀ k, owns v d2 k → v2 k = v k ∧ good sb v2 k) as H4.
    { intros k Hk. pose proof (owns_good sb v d2 k Hw2 Hk) as Hg. pose proof (good_range sb v k Hsb Hg) as Hkr.
      assert (v1 k = v k) as <- by (apply (rl_frame _ _ _ Hrl); [by apply Hd2|by apply (good_frame v)]).
      apply (updated_good sb Hsb v1 v2 ino _ Hi Hu). destruct Hg. split; [done|].
      rw (rl_used _ _ _ Hrl) //. by apply Hd2. }
    destruct (same_file sb v v2 d2 Hw2 H4) as (? & _ & ? & _). split; [done|by apply (file_content_ext sb)].
Qed.

Lemma truncate_wp bs v d ino l :
  locked bs v d l → inode_wf sb v d → meta_reserved sb v → 0 ≤ ino < ninodes sb → disk_inode sb v ino = d →
  (∀ bn, 0 ≤ bn < sb_size sb → bmap_block sb bn ∈ bs) → (∀ q, ind d = Some q → q ∈ bs) →
  inode_block sb ino ∈ bs →
  wp (truncate sb ino) (λ _ l', ∃ v', locked bs v' (empty_of d) l' ∧ truncated v d ino v') l.
Proof.
  intros Hl Hw Hr Hi Hdk Hbm Hib Hin. rw /truncate. wp_step. pose proof (owned_freeable v d Hw) as Hfr.
  eapply wp_mono; [apply (truncate_direct_wp bs Hbm (seqZ 0 NUM_DIRECT_REFS) v d l Hl)|].
  { apply Hw. } { intros i Hx%elem_of_seqZ. lia. } { apply NoDup_seqZ. }
  { destruct Hfr as [Hnd Hu]. split; [by apply NoDup_app in Hnd as [? _]|]. intros k Hk. apply Hu.
    apply elem_of_app. by left. }
  intros ? l1 (v1 & d1 & Hl1 & Hf1 & Ed1 & El1 & Ha1). wp_step. wp_step. rw (proj2 Hl1).
  assert (addr d1 NUM_DIRECT_REFS = ind d) as Ei1.
  { by rw Ha1. }
  rw Ei1. wp_step.
  apply wp_mono with (Q := λ _ l2, ∃ v2 d2, locked bs v2 d2 l2 ∧ released v d v2 ∧ set_size 0 d2 = empty_of d).
  - destruct (ind d) as [q|] eqn:Eq.
    + wp_step. apply wp_map_data. rw (proj2 Hl1). set (d2 := set_addr NUM_DIRECT_REFS None d1).
      eapply wp_mono; [apply (truncate_indirect_wp bs v d Hw Hbm) with (v1 := v1) (d1 := d2); [by rw Eq|by destruct Hl1|done|done]|].
      intros ? l3 (v3 & Hl3 & Hrl). exists v3, d2. split_and!; [done..|].
      rw /empty_of -(no_addrs_eq d2); [by rw length_set_addr El1 (iw_len _ _ _ Hw)| |by rw {1}/d2 Ed1].
      intros j Hj. rw addr_set_addr; [done|lia|rw El1 (iw_len _ _ _ Hw); lia|]. case_decide; [done|].
      rw Ha1; [lia|]. rw decide_True //. apply elem_of_seqZ. lia.
    + wp_step. exists v1, d1. split_and!; [done| |].
      * apply freed_released; [done|]. rw /indirect_blocks Eq app_nil_r. exact Hf1.
      * rw /empty_of -(no_addrs_eq d1); [by rw El1 (iw_len _ _ _ Hw)| |by rw {1}Ed1].
        intros j Hj. rw Ha1; [lia|]. case_decide as Hjn; [done|].
        assert (j = NUM_DIRECT_REFS) as -> by (rw elem_of_seqZ in Hjn; lia). exact Eq.
  - intros ? l2 (v2 & d2 & [Hst2 Hd2] & Hrl & Ed2). wp_step. apply wp_map_data. rw Hd2 Ed2.
    eapply wp_mono; [apply (update_wp sb Hsb bs v2 (empty_of d) ino); [done|by apply (empty_wf v)|done..|]|].
    { rw (released_disk_inode v d v2 ino Hw Hrl Hi) Hdk. done. }
    intros ? l3 (v3 & Hl3 & Hu). exists v3. split; [done|]. by apply (released_truncated v d ino v2 v3).
Qed.

(** C37: [truncate] leaves an empty file on disk and in memory and releases exactly
    its blocks: afterwards the free blocks are those that were free and those of
    the file.  No other inode and no file without common blocks is affected. *)
Theorem truncate_frees bs v d ino l :
  locked bs v d l → inode_wf sb v d → meta_reserved sb v → 0 ≤ ino < ninodes sb → disk_inode sb v ino = d →
  (∀ bn, 0 ≤ bn < sb_size sb → bmap_block sb bn ∈ bs) → (∀ q, ind d = Some q → q ∈ bs) →
  inode_block sb ino ∈ bs →
  wp (truncate sb ino) (λ _ l', ∃ v', locked bs v' (empty_of d) l' ∧ truncated v d ino v') l.
Proof. exact (truncate_wp bs v d ino l). Qed.
End truncate_spec.

Module Example.
Import PlainDisk SmallDisk.

Lemma truncate_frees_witness :
  wp (truncate small_sb 3) (λ _ l', ∃ v',
    locked all_blocks v' (empty_of d3) l' ∧ truncated small_sb v0 d3 3 v') l3.
Proof.
  apply (truncate_frees small_sb small_sb_ok all_blocks v0 d3 3 l3 locked3 inode_wf3 reserved0);
    [done|vm_compute; done| |done|by apply elem_of_list_to_set, elem_of_seqZ].
  apply (mg_bmap _ _ _ _ _ (wb_grow _ _ _ _ _ _ _ (writable0 0 0))).
Defined.
End Example.
