(* ===== verification/Itable.v ===== *)
(** * The table of in-memory inodes

    Model of [crates/kernel/ov6_kernel/src/fs/inode/table.rs] and of
    [InodeDataArc]/[InodeDataWeak] in [fs/inode/alloc.rs].  The reference counted
    cells live in a slab of [NINODE] entries; the table holds weak references to
    them.  A cell is [SleepLock<Option<InodeData>>]: the lock bit and the data, if it
    was read from disk. *)

From S2P Require Import Prelude KError FsTypes Inode.

(** What an [Arc] points to, with its counters. *)
Record Arc := {
  a_strong : nat;
  a_weak : nat;
  a_data : option InodeData;
  a_locked : bool;
}.

Record Itable := {
  table : list (option (Z * Z * positive));
  arcs : gmap positive Arc;
}.

Definition set_arcs (f : gmap positive Arc → gmap positive Arc) (t : Itable) : Itable :=
  {| table := table t; arcs := f (arcs t) |}.
Definition set_entry (i : nat) (e : option (Z * Z * positive)) (t : Itable) : Itable :=
  {| table := <[i := e]> (table t); arcs := arcs t |}.

(** [InodeTable::new] and the empty slab. *)
Definition itable_new : Itable := {| table := replicate (Z.to_nat NINODE) None; arcs := ∅ |}.

(** ** Reference counts *)

(** A cell without references returns to the slab; its value is dropped with the
    last strong reference. *)
Definition put_arc (a : positive) (c : Arc) (m : gmap positive Arc) : gmap positive Arc :=
  if decide (a_strong c = 0%nat) then
    if decide (a_weak c = 0%nat) then delete a m
    else <[a := {| a_strong := 0; a_weak := a_weak c; a_data := None; a_locked := a_locked c |}]> m
  else <[a := c]> m.

Definition get_arc (a : positive) : M Itable Arc := t ← get; unwrap (arcs t !! a).
Definition with_strong (n : nat) (c : Arc) : Arc :=
  {| a_strong := n; a_weak := a_weak c; a_data := a_data c; a_locked := a_locked c |}.
Definition with_weak (n : nat) (c : Arc) : Arc :=
  {| a_strong := a_strong c; a_weak := n; a_data := a_data c; a_locked := a_locked c |}.

Definition arc_clone (a : positive) : M Itable unit :=
  c ← get_arc a;
  modify (set_arcs (put_arc a (with_strong (a_strong c + 1) c))).
Definition arc_drop (a : positive) : M Itable unit :=
  c ← get_arc a;
  modify (set_arcs (put_arc a (with_strong (a_strong c - 1) c))).
Definition strong_count (a : positive) : M Itable nat := c ← get_arc a; mret (a_strong c).

(** [InodeDataWeak::upgrade] and the drop of a weak reference. *)
Definition upgrade (a : positive) : M Itable bool :=
  c ← get_arc a;
  if decide (a_strong c = 0%nat) then mret false
  else modify (set_arcs (put_arc a (with_strong (a_strong c + 1) c)));; mret true.
Definition weak_drop (a : positive) : M Itable unit :=
  c ← get_arc a;
  modify (set_arcs (put_arc a (with_weak (a_weak c - 1) c))).

(** [InodeDataArc::try_new(SleepLock::new(None))] and the first downgrade. *)
Definition arc_try_new : M Itable (result KernelError positive) :=
  t ← get;
  if decide (size (arcs t) < Z.to_nat NINODE)%nat then
    let a := fresh (dom (arcs t)) in
    modify (set_arcs <[a := {| a_strong := 1; a_weak := 0; a_data := None; a_locked := false |}]>);;
    mret (Ok a)
  else mret (Err NoFreeInodeDataInMemoryTableEntry).
Definition arc_downgrade (a : positive) : M Itable unit :=
  c ← get_arc a;
  modify (set_arcs (put_arc a (with_weak (a_weak c + 1) c))).

(** ** The table *)

(** The loop of [get_or_insert]: the cell, if one was found, and the last empty
    slot seen. *)
Fixpoint table_scan (dev ino : Z) (idxs : list nat) (empty_idx : option nat)
    : M Itable (option positive * option nat) :=
  match idxs with
  | [] => mret (None, empty_idx)
  | i :: idxs' =>
      t ← get;
      e ← unwrap (table t !! i);
      match e with
      | None => table_scan dev ino idxs' (Some i)
      | Some (dev', ino', w) =>
          up ← upgrade w;
          if (up : bool) then
            if (dev' =? dev) && (ino' =? ino) then mret (Some w, empty_idx)
            else arc_drop w;; table_scan dev ino idxs' empty_idx
          else
            weak_drop w;;
            modify (set_entry i None);;
            table_scan dev ino idxs' (Some i)
      end
  end.

Definition get_or_insert (dev ino : Z) : M Itable (result KernelError positive) :=
  t ← get;
  r ← table_scan dev ino (seq 0 (length (table t))) None;
  match r with
  | (Some a, _) => mret (Ok a)
  | (None, None) => mret (Err NoFreeInodeInMemoryTableEntry)
  | (None, Some i) =>
      a ←? arc_try_new;
      arc_downgrade a;;
      modify (set_entry i (Some (dev, ino, a)));;
      mret (Ok a)
  end.

(** ** The invariant

    [hs] are the strong references held outside: each with the device, the inode
    number and the cell. *)
Abbreviation Handle := (Z * Z * positive)%type.
Implicit Types (t : Itable) (hs : list Handle) (h : Handle) (a : positive).

Definition refs a hs : nat := length (filter (λ h, h.2 = a) hs).

Record itable_inv t hs : Prop := {
  ii_length : length (table t) = Z.to_nat NINODE;
  ii_entry i k a : table t !! i = Some (Some (k, a)) →
    ∃ c, arcs t !! a = Some c ∧ a_weak c = 1%nat ∧ a_strong c = refs a hs;
  ii_key i j k a : table t !! i = Some (Some (k, a)) → (∃ a', table t !! j = Some (Some (k, a'))) → i = j;
  ii_arc i j k a : table t !! i = Some (Some (k, a)) → (∃ k', table t !! j = Some (Some (k', a))) → i = j;
  ii_dom a : is_Some (arcs t !! a) → ∃ i k, table t !! i = Some (Some (k, a));
  ii_held h : h ∈ hs → ∃ i, table t !! i = Some (Some h);
}.

(** The invariant does not depend on the order of the references. *)
#[export] Instance refs_proper a : Proper ((≡ₚ) ==> (=)) (refs a).
Proof. intros hs hs' E. apply Permutation_length. by rewrite E. Qed.

#[export] Instance itable_inv_proper t : Proper ((≡ₚ) ==> iff) (itable_inv t).
Proof.
  assert (∀ hs hs', hs ≡ₚ hs' → itable_inv t hs → itable_inv t hs') as H.
  { intros hs hs' E [H1 H2 H3 H4 H5 H6]. split; [done| |done..|].
    - intros i k a Hi. destruct (H2 i k a Hi) as (c & ? & ? & Hc). exists c. split_and!; [done..|]. by rewrite -E.
    - intros h. rewrite -E. apply H6. }
  intros hs hs' E. split; apply H; [done|by symmetry].
Qed.

Lemma arc_refs_cons a h hs : refs a (h :: hs) = ((if decide (h.2 = a) then 1 else 0) + refs a hs)%nat.
Proof. rw /refs filter_cons. by case_decide. Qed.

Lemma refs_pos a hs : (0 < refs a hs)%nat ↔ ∃ k, (k, a) ∈ hs.
Proof.
  induction hs as [|[k a'] hs IH]; [rw /refs /=; split; [lia|intros [k Hk]; set_solver]|].
  rw arc_refs_cons /=. case_decide as Ha.
  - subst a'. split; [intros _; exists k; left|lia].
  - rw Nat.add_0_l IH. split; intros [k' Hk]; exists k'; set_solver.
Qed.

(** The cells of the references held outside keep their content. *)
Definition cell t a : option (option InodeData * bool) := (λ c, (a_data c, a_locked c)) <$> arcs t !! a.
Definition kept hs t t' : Prop := ∀ h, h ∈ hs → cell t' h.2 = cell t h.2.

(** Changing the counter of a live cell. *)
Lemma inv_restrong t hs hs' i k a c n :
  itable_inv t hs → table t !! i = Some (Some (k, a)) → arcs t !! a = Some c → n = refs a hs' →
  (∀ b, b ≠ a → refs b hs' = refs b hs) → (∀ h, h ∈ hs' → h ∈ hs ∨ h = (k, a)) →
  itable_inv (set_arcs (put_arc a (with_strong n c)) t) hs'.
Proof.
  intros [H1 H2 H3 H4 H5 H6] Hi Hc -> Hb Hh. destruct (H2 i k a Hi) as (c' & Hc' & Hw & Hs).
  assert (c' = c) as -> by congruence.
  assert (∃ c', put_arc a (with_strong (refs a hs') c) (arcs t) = <[a := c']> (arcs t) ∧
    a_weak c' = 1%nat ∧ a_strong c' = refs a hs') as (c' & Ep & Hw' & Hs').
  { rw /put_arc /=. case_decide as Hz; [|by eexists]. rw decide_False; [lia|]. eexists. split; [done|].
    simpl. by rw Hz. }
  rw /set_arcs Ep. split; simpl; [done| |done|done| |].
  - intros j k' b Hj. destruct (decide (b = a)) as [->|Hne].
    + exists c'. by rw lookup_insert_eq.
    + rw lookup_insert_ne; [congruence|]. destruct (H2 j k' b Hj) as (c2 & ? & ? & ?). exists c2. by rw Hb.
  - intros b. destruct (decide (b = a)) as [->|Hne]; [by exists i, k|]. rw lookup_insert_ne; [congruence|]. apply H5.
  - intros h Hin. destruct (Hh h Hin) as [?| ->]; [by apply H6|by exists i].
Qed.

Lemma put_arc_cell t a c n :
  arcs t !! a = Some c → n ≠ 0%nat → ∀ b, cell (set_arcs (put_arc a (with_strong n c)) t) b = cell t b.
Proof.
  intros Hc Hn b. rw /cell /set_arcs /put_arc /=. rw decide_False //.
  destruct (decide (b = a)) as [->|]; [by rw lookup_insert_eq Hc|rw lookup_insert_ne //; congruence].
Qed.

(** A further reference to a live cell. *)
Lemma arc_clone_wp t hs k a :
  itable_inv t hs → (k, a) ∈ hs →
  wp (arc_clone a) (λ _ t', itable_inv t' ((k, a) :: hs) ∧ table t' = table t ∧ ∀ b, cell t' b = cell t b) t.
Proof.
  intros HI Hh. destruct (ii_held _ _ HI _ Hh) as [i Hi]. destruct (ii_entry _ _ HI i k a Hi) as (c & Hc & Hw & Hs).
  rw /arc_clone /get_arc. wp_step. wp_step. wp_step. apply (wp_unwrap _ c); [done|]. wp_step. split_and!.
  - apply (inv_restrong t hs _ i k a c); [done..| | |].
    + rw arc_refs_cons decide_True //. lia.
    + intros b Hb. rw arc_refs_cons decide_False //. simpl. congruence.
    + intros h Hin. apply elem_of_cons in Hin as [->|?]; [by right|by left].
  - done.
  - apply put_arc_cell; [done|lia].
Qed.

(** Dropping a reference. *)
Lemma arc_drop_wp t hs k a :
  itable_inv t ((k, a) :: hs) →
  wp (arc_drop a) (λ _ t', itable_inv t' hs ∧ table t' = table t ∧ kept hs t t') t.
Proof.
  intros HI. destruct (ii_held _ _ HI (k, a)) as [i Hi]; [left|].
  destruct (ii_entry _ _ HI i k a Hi) as (c & Hc & Hw & Hs). rw arc_refs_cons decide_True // in Hs.
  rw /arc_drop /get_arc. wp_step. wp_step. wp_step. apply (wp_unwrap _ c); [done|]. wp_step. split_and!.
  - apply (inv_restrong t ((k, a) :: hs) _ i k a c); [done..|lia| |].
    + intros b Hb. rw arc_refs_cons decide_False //. simpl. congruence.
    + intros h Hin. left. by right.
  - done.
  - intros [k' b] Hin. simpl. destruct (decide (b = a)) as [->|Hne].
    + assert (0 < refs a hs)%nat by (apply refs_pos; by exists k'). apply put_arc_cell; [done|lia].
    + rw /cell /=. rw /put_arc. repeat case_decide; rw ?lookup_insert_ne ?lookup_delete_ne //; congruence.
Qed.

(** [upgrade] on an entry of the table. *)
Lemma upgrade_wp t hs i k a :
  itable_inv t hs → table t !! i = Some (Some (k, a)) →
  wp (upgrade a) (λ b t',
    if (b : bool) then itable_inv t' ((k, a) :: hs) ∧ table t' = table t ∧ (∃ k', (k', a) ∈ hs) ∧
      ∀ b, cell t' b = cell t b
    else t' = t ∧ refs a hs = 0%nat) t.
Proof.
  intros HI Hi. destruct (ii_entry _ _ HI i k a Hi) as (c & Hc & Hw & Hs).
  rw /upgrade /get_arc. wp_step. wp_step. wp_step. apply (wp_unwrap _ c); [done|]. case_decide; wp_step.
  { split; [done|congruence]. }
  wp_step. wp_step. split_and!.
  - apply (inv_restrong t hs _ i k a c); [done..| | |].
    + rw arc_refs_cons decide_True //. lia.
    + intros b Hb. rw arc_refs_cons decide_False //. simpl. congruence.
    + intros h Hin. apply elem_of_cons in Hin as [->|?]; [by right|by left].
  - done.
  - apply refs_pos. lia.
  - apply put_arc_cell; [done|lia].
Qed.

Lemma set_entry_lookup t i e j :
  (i < length (table t))%nat → table (set_entry i e t) !! j = if decide (i = j) then Some e else table t !! j.
Proof. intros Hi. rw /set_entry /=. case_decide; [subst j; by apply list_lookup_insert_eq|by apply list_lookup_insert_ne]. Qed.

(** Clearing a dead entry. *)
Lemma clear_dead_wp {A} (m : M Itable A) Q t hs i k a :
  itable_inv t hs → table t !! i = Some (Some (k, a)) → refs a hs = 0%nat →
  (∀ t', itable_inv t' hs → kept hs t t' →
    (∀ j, table t' !! j = if decide (i = j) then Some None else table t !! j) → wp m Q t') →
  wp (weak_drop a;; modify (set_entry i None);; m) Q t.
Proof.
  intros HI Hi Hz Hm. pose proof (lookup_lt_Some _ _ _ Hi) as Hlt.
  destruct (ii_entry _ _ HI i k a Hi) as (c & Hc & Hw & Hs).
  rw /weak_drop /get_arc. wp_step. wp_step. wp_step. wp_step. apply (wp_unwrap _ c); [done|]. wp_step. wp_step. wp_step.
  assert (put_arc a (with_weak (a_weak c - 1) c) (arcs t) = delete a (arcs t)) as Ep.
  { rw /put_arc /with_weak /=. rw decide_True; [congruence|]. rw decide_True //. lia. }
  rw /set_arcs Ep. set (t' := set_entry _ _ _).
  assert (∀ j, table t' !! j = if decide (i = j) then Some None else table t !! j) as Ht.
  { intros j. by rw /t' set_entry_lookup. }
  assert (∀ h, h ∈ hs → h.2 ≠ a) as Hne.
  { intros [k' b] Hin; simpl; intros ->. assert (0 < refs a hs)%nat by (apply refs_pos; by exists k'). lia. }
  apply Hm; [|intros h Hin; rw /cell /= lookup_delete_ne //; by apply not_eq_sym, Hne|done].
  destruct HI as [H1 H2 H3 H4 H5 H6]. split.
  - by rw /= length_insert.
  - intros j k' b. rw Ht. case_decide as Hij; [done|]. intros Hj. destruct (H2 j k' b Hj) as (c' & ? & ? & ?).
    exists c'. split_and!; [|done..]. simpl. rw lookup_delete_ne //. intros <-. by apply Hij, (H4 i j k a); [|exists k'].
  - intros j1 j2 k' b. rw !Ht. repeat case_decide; [done..|by intros ? [? ?]|apply H3].
  - intros j1 j2 k' b. rw !Ht. repeat case_decide; [done..|by intros ? [? ?]|apply H4].
  - intros b [c' Hb]. simpl in Hb. apply lookup_delete_Some in Hb as [Hab Hb].
    destruct (H5 b (ex_intro _ c' Hb)) as (j & k' & Hj). exists j, k'. rw Ht. case_decide; [congruence|done].
  - intros h Hin. destruct (H6 h Hin) as [j Hj]. exists j. rw Ht. case_decide; [|done].
    destruct (Hne h Hin). subst j. rw Hi in Hj. by injection Hj as <-.
Qed.

(** The state after a scan that found nothing: the scanned entries are live and
    have other keys. *)
Definition scanned (key : Z * Z) t hs (idxs : list nat) : Prop :=
  ∀ i k a, i ∈ idxs → table t !! i = Some (Some (k, a)) → k ≠ key ∧ ∃ k', (k', a) ∈ hs.

Lemma table_scan_wp dev ino hs idxs empty t :
  itable_inv t hs → (∀ i, i ∈ idxs → (i < length (table t))%nat) → NoDup idxs →
  (∀ i, empty = Some i → table t !! i = Some None ∧ i ∉ idxs) →
  wp (table_scan dev ino idxs empty) (λ r t', kept hs t t' ∧
    match r.1 with
    | Some a => itable_inv t' ((dev, ino, a) :: hs) ∧ ∃ k, (k, a) ∈ hs
    | None => itable_inv t' hs ∧ scanned (dev, ino) t' hs idxs ∧
        (∀ j, j ∉ idxs → table t' !! j = table t !! j) ∧
        match r.2 with
        | Some i => table t' !! i = Some None
        | None => empty = None ∧ ∀ i, i ∈ idxs → table t' !! i ≠ Some None
        end
    end) t.
Proof.
  revert empty t. induction idxs as [|i idxs IH]; intros empty t HI Hlt Hnd He; cbn [table_scan].
  { wp_step. split; [done|]. simpl. split_and!; [done|by intros i k a Hi; set_solver|done|].
    destruct empty as [i|]; [by destruct (He i eq_refl)|]. split; [done|set_solver]. }
  apply NoDup_cons in Hnd as [Hi Hnd].
  destruct (lookup_lt_is_Some_2 (table t) i) as [e Hei]; [apply Hlt; left|].
  wp_step. wp_step. wp_step. apply (wp_unwrap _ e); [done|]. destruct e as [[[dev' ino'] a]|].
  - wp_step. eapply wp_mono; [exact (upgrade_wp t hs i (dev', ino') a HI Hei)|]. intros [] t1.
    + intros (HI1 & Ht1 & Hlive & Hc1). destruct ((dev' =? dev) && (ino' =? ino)) eqn:Ek.
      * apply andb_true_iff in Ek as [->%Z.eqb_eq ->%Z.eqb_eq]. wp_step. split; [by intros h _|by split].
      * wp_step. eapply wp_mono; [exact (arc_drop_wp t1 hs _ a HI1)|]. intros ? t2 (HI2 & Ht2 & Hk2).
        assert (table t2 = table t) as Ht by congruence.
        eapply wp_mono; [apply (IH empty t2 HI2); rw ?Ht; [intros j Hj; apply Hlt; by right|done|]|].
        { intros j ->. destruct (He j eq_refl). split; [done|]. set_solver. }
        intros [[b|] o] t3 [Hk3 Hr]; simpl in *; (split; [intros h Hh; rw Hk3 // Hk2 // Hc1 //|]); [done|].
        destruct Hr as (HI3 & Hs3 & Hf3 & Ho). assert (table t3 !! i = Some (Some (dev', ino', a))) as Hi3 by by rw Hf3 // Ht.
        split_and!; [done| | |].
        -- intros j k b [->|Hj]%elem_of_cons; [|by apply Hs3]. rw Hi3. intros [= <- <-]. split; [|done].
           intros [= -> ->]. by rw !Z.eqb_refl in Ek.
        -- intros j Hj. rw Hf3; [set_solver|]. by rw Ht.
        -- destruct o; [done|]. destruct Ho as [? Ho]. split; [done|]. intros j [->|Hj]%elem_of_cons; [by rw Hi3|by apply Ho].
    + intros [-> Hz]. apply (clear_dead_wp _ _ t hs i (dev', ino') a HI Hei Hz). intros t1 HI1 Hk1 Ht1.
      assert (table t1 !! i = Some None) as Hi1 by by rw Ht1 decide_True.
      assert (length (table t1) = length (table t)) as Hl by by rw (ii_length _ _ HI1) (ii_length _ _ HI).
      eapply wp_mono; [apply (IH (Some i) t1 HI1); [intros j Hj; rw Hl; apply Hlt; by right|done|by intros j [= <-]]|].
      intros [[b|] o] t3 [Hk3 Hr]; simpl in *; (split; [intros h Hh; rw Hk3 // Hk1 //|]); [done|].
      destruct Hr as (HI3 & Hs3 & Hf3 & Ho). split_and!; [done| | |].
      * intros j k b [->|Hj]%elem_of_cons; [|by apply Hs3]. by rw Hf3 // Hi1.
      * intros j Hj. rw Hf3; [set_solver|]. rw Ht1 decide_False //. set_solver.
      * destruct o; [done|]. by destruct Ho.
  - eapply wp_mono; [apply (IH (Some i) t HI); [intros j Hj; apply Hlt; by right|done|by intros j [= <-]]|].
    intros [[b|] o] t3 [Hk3 Hr]; simpl in *; (split; [done|]); [done|].
    destruct Hr as (HI3 & Hs3 & Hf3 & Ho). split_and!; [done| | |].
    + intros j k b [->|Hj]%elem_of_cons; [|by apply Hs3]. by rw Hf3 // Hei.
    + intros j Hj. apply Hf3. set_solver.
    + destruct o; [done|]. by destruct Ho.
Qed.

(** ** [get_or_insert] *)

(** The inodes that are in use. *)
Definition held hs : gset (Z * Z) := list_to_set hs.*1.

Definition keys t : list (Z * Z) := omap (fmap fst) (table t).

Lemma elem_of_table_keys t k : k ∈ keys t ↔ ∃ i a, table t !! i = Some (Some (k, a)).
Proof.
  rw /keys list_elem_of_omap. split.
  - intros ([[k' a]|] & (i & Hi)%list_elem_of_lookup_1 & [= <-]). by exists i, a.
  - intros (i & a & Hi). exists (Some (k, a)). split; [by apply list_elem_of_lookup_2 in Hi|done].
Qed.

Lemma keys_nodup t hs : itable_inv t hs → NoDup (keys t).
Proof.
  intros HI. apply NoDup_omap_lookup. intros i j [[k a]|] [[k' a']|] k0 Hi Hj [= <-] [= ->].
  apply (ii_key _ _ HI i j k a Hi). by exists a'.
Qed.

Lemma elem_of_held hs k : k ∈ held hs ↔ ∃ a, (k, a) ∈ hs.
Proof.
  rw /held elem_of_list_to_set list_elem_of_fmap. split.
  - intros ([k' a] & -> & Hh). by exists a.
  - intros [a Hh]. by exists (k, a).
Qed.

Lemma held_keys t hs : itable_inv t hs → held hs ⊆ list_to_set (keys t).
Proof.
  intros HI k [a Hh]%elem_of_held. apply elem_of_list_to_set, elem_of_table_keys.
  destruct (ii_held _ _ HI _ Hh) as [i Hi]. by exists i, a.
Qed.

(** At most [NINODE] inodes are in use. *)
Lemma held_bound t hs : itable_inv t hs → (size (held hs) ≤ Z.to_nat NINODE)%nat.
Proof.
  intros HI. transitivity (size (list_to_set (keys t) : gset (Z * Z))); [by apply subseteq_size, held_keys|].
  rw size_list_to_set; [by apply (keys_nodup t hs)|]. rw -(ii_length _ _ HI). apply omap_length_le.
Qed.

Lemma held_full t hs key :
  itable_inv t hs → scanned key t hs (seq 0 (length (table t))) →
  (∀ i, i ∈ seq 0 (length (table t)) → table t !! i ≠ Some None) →
  key ∉ held hs ∧ size (held hs) = Z.to_nat NINODE.
Proof.
  intros HI Hs He.
  assert (∀ i e, table t !! i = Some e → i ∈ seq 0 (length (table t))) as Hin.
  { intros i e Hi. apply lookup_lt_Some in Hi. apply elem_of_seq. lia. }
  assert (∀ k, k ∈ keys t → k ≠ key ∧ k ∈ held hs) as Hk.
  { intros k (i & a & Hi)%elem_of_table_keys. destruct (Hs i k a (Hin _ _ Hi) Hi) as [Hne [k' Hh]].
    split; [done|]. apply elem_of_held. exists a. destruct (ii_held _ _ HI _ Hh) as [j Hj].
    assert (i = j) as <- by (apply (ii_arc _ _ HI i j k a Hi); by exists k').
    rw Hi in Hj. by injection Hj as ->. }
  split.
  - intros Hh. apply (held_keys t hs HI), elem_of_list_to_set in Hh. by destruct (Hk key Hh).
  - assert (held hs ≡ list_to_set (keys t)) as ->.
    { split; [by apply (held_keys t hs HI)|]. intros Hx%elem_of_list_to_set. by apply Hk. }
    rw size_list_to_set; [by apply (keys_nodup t hs)|]. rw -(ii_length _ _ HI). apply omap_length_eq, Forall_lookup.
    intros i [[k a]|] Hi; [by eexists|]. by destruct (He i (Hin _ _ Hi)).
Qed.

(** The slab has room whenever the table has. *)
Lemma slab_room t hs i :
  itable_inv t hs → table t !! i = Some None → (size (arcs t) < Z.to_nat NINODE)%nat.
Proof.
  intros HI Hi. rw -(ii_length _ _ HI).
  eapply Nat.le_lt_trans; [|exact (omap_length_lt (fmap (M := option) snd) (table t) i None Hi eq_refl)].
  rw -(size_dom (D := gset positive)).
  etrans; [|apply size_list_to_set_le]. apply subseteq_size.
  intros a Ha%elem_of_dom. destruct (ii_dom _ _ HI a Ha) as (j & k & Hj).
  apply elem_of_list_to_set, list_elem_of_omap. exists (Some (k, a)). split; [by apply list_elem_of_lookup_2 in Hj|done].
Qed.

(** Inserting a new cell in an empty slot. *)
Lemma insert_inv t hs i key a :
  itable_inv t hs → scanned key t hs (seq 0 (length (table t))) → table t !! i = Some None → arcs t !! a = None →
  let c := {| a_strong := 1; a_weak := 1; a_data := None; a_locked := false |} in
  itable_inv (set_entry i (Some (key, a)) (set_arcs <[a := c]> t)) ((key, a) :: hs).
Proof.
  intros HI Hs Hi Ha c. set (t' := set_entry _ _ _).
  assert (∀ j, table t' !! j = if decide (i = j) then Some (Some (key, a)) else table t !! j) as Ht.
  { intros j. rw /t' set_entry_lookup //. simpl. exact (lookup_lt_Some _ _ _ Hi). }
  assert (∀ j k b, table t !! j = Some (Some (k, b)) → k ≠ key ∧ b ≠ a) as Hfr.
  { intros j k b Hj. split; [|intros ->; destruct (ii_entry _ _ HI j k a Hj) as (? & ? & _); congruence].
    apply (Hs j k b); [|done]. apply lookup_lt_Some in Hj. apply elem_of_seq. lia. }
  assert (refs a hs = 0%nat) as Hz.
  { destruct (decide (refs a hs = 0%nat)) as [|Hn]; [done|].
    assert (0 < refs a hs)%nat as [k Hh]%refs_pos by lia. destruct (ii_held _ _ HI _ Hh) as [j Hj].
    by destruct (Hfr j k a Hj). }
  destruct HI as [H1 H2 H3 H4 H5 H6]. split.
  - by rw /= length_insert.
  - intros j k b. rw Ht arc_refs_cons. case_decide.
    + intros [= <- <-]. exists c. simpl. rw lookup_insert_eq decide_True //. by rw Hz.
    + intros Hj. destruct (Hfr j k b Hj) as [_ Hb]. simpl. rw lookup_insert_ne; [congruence|]. rw decide_False; [congruence|]. apply (H2 j k b Hj).
  - intros j1 j2 k b. rw !Ht. repeat case_decide; [congruence| | |apply H3].
    + intros [= <- <-] [b' Hj]. by destruct (Hfr j2 key b' Hj).
    + intros Hj [b' [= <- <-]]. by destruct (Hfr j1 key b Hj).
  - intros j1 j2 k b. rw !Ht. repeat case_decide; [congruence| | |apply H4].
    + intros [= <- <-] [k' Hj]. by destruct (Hfr j2 k' a Hj).
    + intros Hj [k' [= <- <-]]. by destruct (Hfr j1 k a Hj).
  - intros b [c' Hb]. simpl in Hb. destruct (decide (b = a)) as [->|Hne]; [exists i, key; rw Ht decide_True //|].
    rw lookup_insert_ne in Hb; [congruence|]. destruct (H5 b (ex_intro _ c' Hb)) as (j & k & Hj). exists j, k.
    rw Ht decide_False //. congruence.
  - intros h [->|Hh]%elem_of_cons; [exists i; by rw Ht decide_True|]. destruct (H6 h Hh) as [j Hj]. exists j.
    rw Ht decide_False //. congruence.
Qed.

Lemma get_or_insert_wp dev ino hs t :
  itable_inv t hs →
  wp (get_or_insert dev ino) (λ r t', kept hs t t' ∧
    match r with
    | Ok a => itable_inv t' ((dev, ino, a) :: hs) ∧ ((∃ k, (k, a) ∈ hs) ∨ cell t' a = Some (None, false))
    | Err e => e = NoFreeInodeInMemoryTableEntry ∧ itable_inv t' hs ∧
        (dev, ino) ∉ held hs ∧ size (held hs) = Z.to_nat NINODE
    end) t.
Proof.
  intros HI. rw /get_or_insert. wp_step. wp_step. wp_step.
  eapply wp_mono; [apply (table_scan_wp dev ino hs _ None t HI)|].
  { intros i Hi%elem_of_seq. lia. } { apply NoDup_seq. } { done. }
  intros [[a|] o] t1 [Hk1 Hr]; simpl in Hr; [wp_step; destruct Hr; split_and!; [done..|by left]|]. destruct Hr as (HI1 & Hs & _ & Ho).
  assert (length (table t) = length (table t1)) as El by by rw (ii_length _ _ HI1) (ii_length _ _ HI).
  rw El in Hs, Ho. destruct o as [i|].
  - rw /arc_try_new. wp_step. wp_step. wp_step. rw decide_True; [exact (slab_room t1 hs i HI1 Ho)|]. wp_step. wp_step. wp_step.
    set (a := fresh (dom (arcs t1))).
    assert (arcs t1 !! a = None) as Ha.
    { apply not_elem_of_dom. apply is_fresh. }
    rw /arc_downgrade /get_arc. wp_step. wp_step. wp_step. wp_step.
    eapply wp_unwrap; [apply lookup_insert_eq|]. wp_step. wp_step. wp_step. wp_step.
    set (c0 := {| a_strong := 1; a_weak := 0; a_data := None; a_locked := false |}).
    assert (set_arcs (put_arc a (with_weak (a_weak c0 + 1) c0)) (set_arcs <[a := c0]> t1) =
      set_arcs <[a := with_weak 1 c0]> t1) as ->.
    { rw /set_arcs /put_arc /=. by rw insert_insert_eq. }
    split_and!; [|by apply (insert_inv t1 hs i (dev, ino) a)|right; by rw /cell /= lookup_insert_eq].
    intros h Hh. rw -Hk1 // /cell /=. rw lookup_insert_ne //. intros Eh. destruct (ii_held _ _ HI1 h Hh) as [j Hj].
    destruct h as [k b]. simpl in Eh. subst b. destruct (ii_entry _ _ HI1 j k a Hj) as (? & ? & _). congruence.
  - wp_step. split; [done|]. destruct Ho as [_ Ho]. destruct (held_full t1 hs (dev, ino) HI1 Hs Ho). done.
Qed.

Lemma itable_new_inv : itable_inv itable_new [].
Proof.
  assert (∀ i e, table itable_new !! i = Some e → e = None) as H.
  { intros i e He. by apply lookup_replicate in He as [-> _]. }
  split; [done|by intros i k a ?%H|by intros i j k a ?%H|by intros i j k a ?%H| |set_solver].
  intros a [c Hc]. by rw /= lookup_empty in Hc.
Qed.

(** ** Runs

    Any interleaving of [get], [clone] and [drop] by the holders of references. *)
Inductive istep : Itable * list Handle → Itable * list Handle → Prop :=
  | step_get dev ino a t t' hs :
      get_or_insert dev ino t = Ret (Ok a) t' → istep (t, hs) (t', (dev, ino, a) :: hs)
  | step_get_err dev ino e t t' hs :
      get_or_insert dev ino t = Ret (Err e) t' → istep (t, hs) (t', hs)
  | step_clone h t t' hs :
      h ∈ hs → arc_clone h.2 t = Ret tt t' → istep (t, hs) (t', h :: hs)
  | step_drop h t t' hs hs' :
      hs ≡ₚ h :: hs' → arc_drop h.2 t = Ret tt t' → istep (t, hs) (t', hs').

Definition ireachable : Itable * list Handle → Prop := rtc istep (itable_new, []).

Lemma ireachable_inv t hs : ireachable (t, hs) → itable_inv t hs.
Proof.
  apply (rtc_ind_r (λ p, itable_inv p.1 p.2) (itable_new, [])); [apply itable_new_inv|].
  intros p q _ Hs IH.
  destruct Hs as [dev ino a t0 t1 hs0 E|dev ino e t0 t1 hs0 E|[k a] t0 t1 hs0 Hh E|[k a] t0 t1 hs0 hs1 Hp E];
    simpl in *.
  - by apply (wp_ret_inv _ _ _ _ _ (get_or_insert_wp dev ino hs0 t0 IH)) in E as [_ [? _]].
  - by apply (wp_ret_inv _ _ _ _ _ (get_or_insert_wp dev ino hs0 t0 IH)) in E as (_ & _ & ? & _).
  - by apply (wp_ret_inv _ _ _ _ _ (arc_clone_wp t0 hs0 k a IH Hh)) in E as [? _].
  - rewrite Hp in IH. by apply (wp_ret_inv _ _ _ _ _ (arc_drop_wp t0 hs1 k a IH)) in E as [? _].
Qed.

(** C26: in every reachable state of the table, two references to the same inode of the
    same device share one cell, hence one lock and one copy of the data, and
    references to different inodes do not; the counter of a cell is the number of
    references; [get_or_insert] never panics, keeps the cells in use, and fails only
    when [NINODE] other inodes are in use: the slab behind the table is never the
    bottleneck. *)
Theorem itable_shares t hs dev ino :
  ireachable (t, hs) →
  (∀ h1 h2, h1 ∈ hs → h2 ∈ hs → h1.1 = h2.1 ↔ h1.2 = h2.2) ∧
  (∀ h, h ∈ hs → ∃ c, arcs t !! h.2 = Some c ∧ a_strong c = refs h.2 hs) ∧
  (∃ r t', get_or_insert dev ino t = Ret r t' ∧ kept hs t t' ∧
    match r with
    | Ok a => ∀ h, h ∈ hs → h.1 = (dev, ino) ↔ h.2 = a
    | Err e => e = NoFreeInodeInMemoryTableEntry ∧ (dev, ino) ∉ held hs ∧ size (held hs) = Z.to_nat NINODE
    end).
Proof.
  intros HI%ireachable_inv.
  assert (∀ t hs, itable_inv t hs → ∀ h1 h2, h1 ∈ hs → h2 ∈ hs → h1.1 = h2.1 ↔ h1.2 = h2.2) as Huniq.
  { clear. intros t hs HI [k1 a1] [k2 a2] H1 H2. simpl.
    destruct (ii_held _ _ HI _ H1) as [i Hi], (ii_held _ _ HI _ H2) as [j Hj]. split; intros <-.
    - assert (i = j) as <- by (apply (ii_key _ _ HI i j k1 a1 Hi); by exists a2). congruence.
    - assert (i = j) as <- by (apply (ii_arc _ _ HI i j k1 a1 Hi); by exists k2). congruence. }
  split_and!; [by apply (Huniq t)| |].
  - intros [k a] Hh. destruct (ii_held _ _ HI _ Hh) as [i Hi].
    destruct (ii_entry _ _ HI i k a Hi) as (c & ? & _ & ?). by exists c.
  - destruct (wp_run _ _ _ (get_or_insert_wp dev ino hs t HI)) as (r & t' & E & Hk & Hr).
    exists r, t'. split_and!; [done..|]. destruct r as [a|e]; [|by destruct Hr as (? & _ & ?)].
    destruct Hr as [Hr _]. intros h Hh. apply (Huniq t' _ Hr h (dev, ino, a)); [by right|left].
Qed.

Lemma itable_shares_witness :
  ∃ t hs, ireachable (t, hs) ∧ hs ≠ [] ∧ (∀ h1 h2, h1 ∈ hs → h2 ∈ hs → h1.1 = h2.1 ↔ h1.2 = h2.2).
Proof.
  destruct (wp_run _ _ _ (get_or_insert_wp 0 1 [] itable_new itable_new_inv)) as ([a|e] & t & E & _ & H).
  - exists t, [(0, 1, a)]. assert (ireachable (t, [(0, 1, a)])) as Hr.
    { apply rtc_once. by apply step_get. }
    split_and!; [done|done|]. apply (itable_shares t [(0, 1, a)] 0 1 Hr).
  - exfalso. destruct H as (_ & _ & _ & Hsz). by rewrite size_empty in Hsz.
Defined.
