(* ===== verification/Directory.v ===== *)
(** * Directories

    Model of [crates/kernel/ov6_kernel/src/fs/inode/directory.rs] on a locked
    directory inode.  The part of [lookup] that turns the inode number found into a
    [TxInode] is in the file system operations. *)

From S2P Require Import Prelude KError Pod FsTypes BlockIo Store DataBlock Inode InodeSpec Content.

Definition DE_SIZE : Z := 16.

Section directory.
Context {S : Type} `{!TxStore S} (sb : SuperBlock) (ino : Z) (read_only : bool).

(** [self.0.read_as::<DirEntry>(off).unwrap()]. *)
Definition read_dirent (off : Z) : M (@Locked S) DirEntry :=
  r ← read_as sb read_only pod_dirent off;
  unwrap_ok r.

(** The first of the entries at [offs] with [P]: the loop of [is_empty], [lookup] and
    [link]. *)
Fixpoint find_dirent (P : DirEntry → bool) (offs : list Z) : M (@Locked S) (option (DirEntry * Z)) :=
  match offs with
  | [] => mret None
  | off :: offs' =>
      de ← read_dirent off;
      if P de then mret (Some (de, off)) else find_dirent P offs'
  end.

Definition is_dir (d : InodeData) : bool := id_ty d =? T_DIR.

Definition in_use (de : DirEntry) : bool := match dirent_ino de with Some _ => true | None => false end.

(** [DirInode::is_empty]. *)
Definition dir_is_empty : M (@Locked S) bool :=
  d ← gets lk_data;
  r ← find_dirent in_use (step_by (2 * DE_SIZE) (id_size d) DE_SIZE);
  mret (match r with Some _ => false | None => true end).

(** The search of [DirInode::lookup]: the inode number and the offset. *)
Definition lookup_entry (name : list byte) : M (@Locked S) (option (Z * Z)) :=
  d ← gets lk_data;
  r ← find_dirent (λ de, in_use de && is_same_name de name) (step_by 0 (id_size d) DE_SIZE);
  match r with
  | Some (de, off) => i ← unwrap (dirent_ino de); mret (Some (i, off))
  | None => mret None
  end.

(** [DirInode::link] after the check that the name is not present. *)
Definition link_entry (name : list byte) (target : Z) : M (@Locked S) (result KernelError unit) :=
  d ← gets lk_data;
  let size := id_size d in
  assert_ (size mod DE_SIZE =? 0);;
  r ← find_dirent (λ de, negb (in_use de)) (step_by 0 size DE_SIZE);
  let '(de, off) := default (zeroed_dirent, size) r in
  de ← set_ino (set_name de name) (Some target);
  write_data sb ino read_only pod_dirent off de.
End directory.

(** ** Directories as lists of entries *)

Definition entries (c : list byte) : list DirEntry :=
  (λ n, pod_get pod_dirent (n * 16) c) <$> seq 0 (length c / 16).

(** What [lookup] searches. *)
Definition matches (name : list byte) (e : DirEntry) : bool := in_use e && is_same_name e name.

Definition dir_lookup (es : list DirEntry) (name : list byte) : option (Z * Z) :=
  (λ '(i, e), (de_ino e, Z.of_nat i * DE_SIZE)) <$> list_find (λ e, matches name e = true) es.

Lemma entries_lookup c n :
  entries c !! n = if decide (n < length c / 16)%nat then Some (pod_get pod_dirent (n * 16) c) else None.
Proof.
  rw /entries list_lookup_fmap. case_decide; [by rw lookup_seq_lt|]. by rw lookup_seq_ge; [lia|].
Qed.

Lemma entries_length c : length (entries c) = (length c / 16)%nat.
Proof. by rw /entries length_fmap length_seq. Qed.

Lemma step_by_entries a size :
  0 ≤ a → size mod DE_SIZE = 0 → 0 ≤ size →
  step_by (a * DE_SIZE) size DE_SIZE =
  (λ n, Z.of_nat n * DE_SIZE) <$> seq (Z.to_nat a) (Z.to_nat (size / DE_SIZE) - Z.to_nat a).
Proof.
  intros Ha Hm Hs. rw /step_by. change DE_SIZE with 16 in *.
  pose proof (Z.div_mod size 16 ltac:(done)). set (n := size / 16) in *.
  assert ((size - a * 16 + 16 - 1) / 16 = n - a) as -> by (symmetry; apply Z.div_unique with 15; lia).
  apply list_eq_same_length with (n := (Z.to_nat n - Z.to_nat a)%nat); [len|len|].
  intros i x y Hi. rw list_lookup_fmap lookup_seqZ_lt; [lia|]. rw list_lookup_fmap lookup_seq_lt //.
  intros [= <-] [= <-]. lia.
Qed.

(** Replacing an element that does not satisfy [Q]. *)
Lemma list_find_replace {A} (Q : A → Prop) `{!∀ x, Decision (Q x)} (es es' : list A) i e :
  (∀ j, es' !! j = if decide (j = i) then Some e else es !! j) → (∀ e0, es !! i = Some e0 → ¬ Q e0) →
  (¬ Q e → list_find Q es' = list_find Q es) ∧ (Q e → list_find Q es = None → list_find Q es' = Some (i, e)).
Proof.
  intros He Hi. split.
  - intros Hq. apply option_eq. intros [j x]. rw !list_find_Some. rewrite He.
    assert (∀ y k, es' !! k = Some y → Q y → es !! k = Some y) as H1.
    { intros y k. rw He. case_decide; [by intros [= <-]|done]. }
    split; intros (Hj & Hx & Hlt); (split_and!; [|done|]).
    + by case_decide; simplify_eq.
    + intros k y Hk Hkj Hy. apply (Hlt k y); [|done..]. rw He. destruct (decide (k = i)) as [->|]; [by destruct (Hi y Hk)|done].
    + case_decide; [subst j; by destruct (Hi x Hj)|done].
    + intros k y Hk Hkj Hy. apply (Hlt k y); [|done..]. by apply H1.
  - intros Hq Hn. apply list_find_Some. split_and!; [by rw He decide_True|done|].
    intros k y. rw He. case_decide; [lia|]. intros Hk _. apply list_find_None in Hn.
    rewrite Forall_lookup in Hn. exact (Hn k y Hk).
Qed.

(** The entry [link] writes. *)
Definition dirent_for (name : list byte) (target : Z) : DirEntry :=
  {| de_ino := target;
     de_name := take (Z.to_nat DIR_SIZE) name ++ zeroes (Z.to_nat DIR_SIZE - length name) |}.

(** Its position. *)
Definition free_slot (es : list DirEntry) : nat :=
  match list_find (λ e, negb (in_use e) = true) es with
  | Some (i, _) => i
  | None => length es
  end.

Lemma free_slot_le es : (free_slot es ≤ length es)%nat.
Proof.
  rw /free_slot. destruct (list_find _ _) as [[i e]|] eqn:E; [|done].
  apply list_find_Some in E as (Hi & _). apply lookup_lt_Some in Hi. lia.
Qed.

Lemma free_slot_unused es e : es !! free_slot es = Some e → in_use e = false.
Proof.
  rw /free_slot. destruct (list_find _ _) as [[i e']|] eqn:E.
  - apply list_find_Some in E as (Hi & He & _). rw Hi. intros [= <-]. by apply negb_true_iff.
  - by rw lookup_ge_None_2.
Qed.

Lemma entries_set c i e :
  pwf pod_dirent e → (length c mod 16 = 0)%nat → (i ≤ length c / 16)%nat →
  ∀ j, entries (splice (i * 16) (pto pod_dirent e) c) !! j = if decide (j = i) then Some e else entries c !! j.
Proof.
  intros He Hm Hi j. pose proof (Nat.div_mod (length c) 16 ltac:(done)) as Hd. rw Hm Nat.add_0_r in Hd.
  set (n := (length c / 16)%nat) in *.
  assert (length (pto pod_dirent e) = 16%nat) as Hle by by apply (pto_length pod_dirent).
  destruct (decide (i = n)) as [->|Hne].
  - assert (splice (n * 16) (pto pod_dirent e) c = c ++ pto pod_dirent e) as ->.
    { rw /splice take_ge; [lia|]. rw drop_ge; [lia|]. by rw app_nil_r. }
    rw !entries_lookup length_app Hle. fold n.
    assert ((length c + 16) / 16 = n + 1)%nat as -> by (symmetry; apply Nat.div_unique with 0%nat; lia).
    destruct (decide (j = n)) as [->|].
    + rw decide_True; [lia|]. f_equal. rw /pod_get /slice drop_app_length'; [lia|].
      rw take_ge; [change (psize pod_dirent) with 16%nat; lia|]. by apply pof_pto.
    + repeat case_decide; try lia; [|done]. f_equal. rw /pod_get /slice. change (psize pod_dirent) with 16%nat.
      rw drop_app_le; [lia|]. rw take_app_le //. rw length_drop. lia.
  - assert (length (splice (i * 16) (pto pod_dirent e) c) = length c) as Hl by (apply splice_length; lia).
    rw !entries_lookup Hl. fold n. change (splice (i * 16) (pto pod_dirent e) c) with (pod_set pod_dirent (i * 16) e c).
    destruct (decide (j = i)) as [->|].
    + rw decide_True; [lia|]. f_equal. apply pod_get_set; [done|]. change (psize pod_dirent) with 16%nat. lia.
    + case_decide; [|done]. f_equal. apply pod_get_set_ne; [done|change (psize pod_dirent) with 16%nat; lia..].
Qed.

Section directory_spec.
Context (sb : SuperBlock) (Hsb : sb_ok sb).
Context {S : Type} `{!TxStore S} `{!TxStoreLaws S}.
Implicit Types (v : Z → list byte) (d : InodeData) (bs : gset Z) (l : @Locked S) (name : list byte).

Record dir_wf v d : Prop := {
  dw_inode : inode_wf sb v d;
  dw_mapped : mapped v d (id_size d);
  dw_size : id_size d mod DE_SIZE = 0;
}.

Lemma file_content_length v d : inode_wf sb v d → length (file_content v d) = Z.to_nat (id_size d).
Proof. intros Hw. rw /file_content. len. Qed.

Lemma entries_count v d :
  dir_wf v d → (length (file_content v d) / 16)%nat = Z.to_nat (id_size d / DE_SIZE).
Proof.
  intros Hw. pose proof (iw_size _ _ _ (dw_inode _ _ Hw)). rw file_content_length; [apply Hw|].
  change DE_SIZE with 16. by rw Z2Nat.inj_div; [lia|lia|].
Qed.

Lemma read_dirent_wp bs v d ro l n :
  locked bs v d l → dir_wf v d → (n < length (file_content v d) / 16)%nat →
  wp (read_dirent sb ro (Z.of_nat n * DE_SIZE)) (λ e l',
    e = pod_get pod_dirent (n * 16) (file_content v d) ∧ locked bs v d l') l.
Proof.
  intros Hl Hw Hn. rw /read_dirent /read_as. pose proof (iw_size _ _ _ (dw_inode _ _ Hw)) as Hsz.
  pose proof (file_content_length v d (dw_inode _ _ Hw)) as Hlen.
  assert (n * 16 + 16 ≤ length (file_content v d))%nat as Hb.
  { pose proof (Nat.div_mod (length (file_content v d)) 16 ltac:(done)). nia. }
  change MAX_FILE with 268 in *. change FS_BLOCK_SIZE with 1024 in *. change DE_SIZE with 16.
  wp_step. wp_step. eapply wp_mono; [apply (inode_read_wp sb bs v d ro (Z.of_nat n * 16) 16 l Hl); [apply Hw|apply Hw|lia|lia|rw /U64_MAX; lia]|].
  intros ? l' [-> Hl']. replace (Z.to_nat (Z.of_nat n * 16)) with (n * 16)%nat by lia.
  assert (length (take (Z.to_nat 16) (drop (n * 16) (file_content v d))) = psize pod_dirent) as Hln.
  { rw length_take length_drop. change (psize pod_dirent) with 16%nat. lia. }
  wp_step. apply wp_assert; [by rw Hln Nat.eqb_refl|]. wp_step. by rw /unwrap_ok; wp_step.
Qed.

Lemma find_dirent_wp bs v d ro P a m l :
  locked bs v d l → dir_wf v d → (a + m = length (file_content v d) / 16)%nat →
  wp (find_dirent sb ro P ((λ n, Z.of_nat n * DE_SIZE) <$> seq a m)) (λ r l',
    r = (λ '(i, e), (e, Z.of_nat (a + i) * DE_SIZE)) <$>
        list_find (λ e, P e = true) (drop a (entries (file_content v d))) ∧ locked bs v d l') l.
Proof.
  intros Hl Hw. revert a l Hl. induction m as [|m IH]; intros a l Hl Ha; cbn [seq fmap list_fmap find_dirent].
  - wp_step. split; [|done]. rw drop_ge //. rw entries_length. lia.
  - wp_step. eapply wp_mono; [apply (read_dirent_wp bs v d ro l a Hl Hw); lia|]. intros e l1 [-> Hl1].
    assert (drop a (entries (file_content v d)) = pod_get pod_dirent (a * 16) (file_content v d) ::
      drop (Datatypes.S a) (entries (file_content v d))) as ->.
    { apply drop_S. rw entries_lookup decide_True //. lia. }
    set (e := pod_get pod_dirent _ _). cbn [list_find]. destruct (decide (P e = true)) as [EP|EP].
    + rw EP. wp_step. split; [|done]. simpl. by rw Nat.add_0_r.
    + rw (not_true_is_false _ EP). eapply wp_mono; [apply (IH (Datatypes.S a) l1 Hl1); lia|].
      intros r l2 [-> Hl2]. split; [|done]. destruct (list_find _ _) as [[i e']|]; simpl; [|done].
      do 3 f_equal. lia.
Qed.

Lemma lookup_entry_wp bs v d ro name l :
  locked bs v d l → dir_wf v d →
  wp (lookup_entry sb ro name) (λ r l',
    r = dir_lookup (entries (file_content v d)) name ∧ locked bs v d l') l.
Proof.
  intros Hl Hw. rw /lookup_entry. wp_step. wp_step. pose proof (proj2 Hl) as ->.
  pose proof (iw_size _ _ _ (dw_inode _ _ Hw)) as Hsz.
  change (step_by 0 (id_size d) DE_SIZE) with (step_by (0 * DE_SIZE) (id_size d) DE_SIZE).
  rw step_by_entries; [done|apply Hw|lia|]. rw Nat.sub_0_r -(entries_count v d Hw).
  wp_step. eapply wp_mono; [apply (find_dirent_wp bs v d ro _ 0 _ l Hl Hw); lia|].
  intros r l' [-> Hl']. rw drop_0 /dir_lookup /matches.
  destruct (list_find _ _) as [[i e]|] eqn:E; simpl; [|by wp_step].
  apply list_find_Some in E as (_ & Hu & _). apply andb_true_iff in Hu as [Hu _]. rw /in_use /dirent_ino in Hu.
  rw /dirent_ino. destruct (de_ino e =? 0); [done|]. wp_step. apply (wp_unwrap _ (de_ino e)); [done|]. by wp_step.
Qed.

Lemma dir_is_empty_wp bs v d ro l :
  locked bs v d l → dir_wf v d →
  wp (dir_is_empty sb ro) (λ r l',
    r = forallb (λ e, negb (in_use e)) (drop 2 (entries (file_content v d))) ∧ locked bs v d l') l.
Proof.
  intros Hl Hw. rw /dir_is_empty. wp_step. wp_step. pose proof (proj2 Hl) as ->.
  pose proof (iw_size _ _ _ (dw_inode _ _ Hw)) as Hsz. rw step_by_entries; [done|apply Hw|lia|].
  rw -(entries_count v d Hw). change (Z.to_nat 2) with 2%nat. wp_step.
  destruct (decide (2 ≤ length (file_content v d) / 16)%nat) as [H2|H2].
  - eapply wp_mono; [apply (find_dirent_wp bs v d ro _ 2 _ l Hl Hw); lia|]. intros r l' [-> Hl']. wp_step.
    split; [|done]. set (es := drop 2 _). destruct (list_find _ _) as [[i e]|] eqn:E; simpl; symmetry.
    + apply list_find_Some in E as (Hi & Hu & _). apply not_true_iff_false. rw forallb_forall. intros H.
      apply list_elem_of_lookup_2, list_elem_of_In, H in Hi. by rw Hu in Hi.
    + apply forallb_forall. intros e He%list_elem_of_In. apply list_find_None in E.
      rewrite Forall_forall in E. by apply negb_true_iff, not_true_iff_false, E.
  - replace (length (file_content v d) / 16 - 2)%nat with 0%nat by lia. simpl. wp_step. wp_step. split; [|done].
    rw drop_ge //. rw entries_length. lia.
Qed.

Lemma dirent_for_wf name target : 0 ≤ target < 2 ^ 16 → pwf pod_dirent (dirent_for name target).
Proof.
  intros Ht. split; [exact Ht|]. simpl. rw /zeroes length_app length_take length_replicate. lia.
Qed.

Lemma set_name_ino {T} e name target (s : T) :
  length (de_name e) = Z.to_nat DIR_SIZE → 0 < target < 2 ^ 16 →
  set_ino (set_name e name) (Some target) s = Ret (dirent_for name target) s.
Proof.
  intros Hl Ht. rw /set_ino. destruct (Z.eqb_spec target 0); [lia|]. simpl.
  rw /try_from (proj2 (Z.ltb_lt _ _)); [lia|]. rw /dirent_for /=. f_equal. f_equal. rw Hl.
  destruct (decide (length name ≤ Z.to_nat DIR_SIZE)%nat).
  - rw Nat.min_l // firstn_all take_ge //.
  - rw Nat.min_r; [lia|]. replace (Z.to_nat DIR_SIZE - length name)%nat with 0%nat by lia. by rw Nat.sub_diag.
Qed.

(** The entry for a name matches the names with the same first [DIR_SIZE] bytes. *)
Lemma dirent_for_matches name name' target :
  0 < target → Byte.x00 ∉ name →
  matches name' (dirent_for name target) = true ↔ take (Z.to_nat DIR_SIZE) name = take (Z.to_nat DIR_SIZE) name'.
Proof.
  intros Ht Hn. rw /matches /in_use /dirent_ino /=. destruct (Z.eqb_spec target 0); [lia|]. simpl.
  pose proof (is_same_name_set_name {| de_ino := target; de_name := zeroes (Z.to_nat DIR_SIZE) |} name name'
    (length_replicate _ _) Hn) as <-.
  assert (dirent_for name target = set_name {| de_ino := target; de_name := zeroes (Z.to_nat DIR_SIZE) |} name) as ->; [|done].
  rw /dirent_for /set_name. f_equal. cbn [de_name]. rw /zeroes length_replicate.
  destruct (decide (length name ≤ Z.to_nat DIR_SIZE)%nat).
  - rw Nat.min_l // firstn_all take_ge //.
  - rw Nat.min_r; [lia|]. replace (Z.to_nat DIR_SIZE - length name)%nat with 0%nat by lia. by rw Nat.sub_diag.
Qed.

(** What [link] did to the entries. *)
Record linked es name target es' : Prop := {
  ln_slot j : es' !! j = if decide (j = free_slot es) then Some (dirent_for name target) else es !! j;
  ln_new : dir_lookup es' name = Some (target, Z.of_nat (free_slot es) * DE_SIZE);
  ln_old name' : take (Z.to_nat DIR_SIZE) name' ≠ take (Z.to_nat DIR_SIZE) name →
    dir_lookup es' name' = dir_lookup es name';
}.

Lemma linked_intro es es' name target :
  0 < target → Byte.x00 ∉ name → dir_lookup es name = None →
  (∀ j, es' !! j = if decide (j = free_slot es) then Some (dirent_for name target) else es !! j) →
  linked es name target es'.
Proof.
  intros Ht Hn Hnone Hj. split; [done| |].
  - rw /dir_lookup in Hnone |- *. destruct (list_find_replace (λ e, matches name e = true) es es' _ _ Hj) as [_ H].
    + intros e0 He0%free_slot_unused. by rw /matches He0.
    + rw H //; [by apply dirent_for_matches|]. by destruct (list_find _ es).
  - intros name' Hne. rw /dir_lookup.
    destruct (list_find_replace (λ e, matches name' e = true) es es' _ _ Hj) as [H _].
    + intros e0 He0%free_slot_unused. by rw /matches He0.
    + rw H //. rw dirent_for_matches //. congruence.
Qed.

Lemma entries_name_length c e :
  e ∈ entries c → length (de_name e) = Z.to_nat DIR_SIZE.
Proof.
  intros (n & -> & Hn)%list_elem_of_fmap. apply elem_of_seq in Hn.
  assert (pwf pod_dirent (pod_get pod_dirent (n * 16) c)) as [_ H]; [|exact H].
  apply pod_get_wf. change (psize pod_dirent) with 16%nat.
  pose proof (Nat.div_mod (length c) 16 ltac:(done)). nia.
Qed.

(** A directory entry is written as a whole or not at all. *)
Lemma write_dirent_wp bs v d ino e i l :
  locked bs v d l → dir_wf v d → pwf pod_dirent e → (i ≤ length (entries (file_content v d)))%nat →
  writable sb bs v d ino (Z.of_nat i * DE_SIZE) DE_SIZE →
  wp (write_data sb ino false pod_dirent (Z.of_nat i * DE_SIZE) e) (λ r l',
    match r with
    | Ok _ => ∃ v' d', locked bs v' d' l' ∧
        written sb v d ino (Z.of_nat i * DE_SIZE) (pto pod_dirent e) DE_SIZE v' d' ∧ dir_wf v' d' ∧
        ∀ j, entries (file_content v' d') !! j = if decide (j = i) then Some e else entries (file_content v d) !! j
    | Err x => (x = StorageOutOfBlocks ∨ x = FileTooLarge) ∧ ∃ v' d', locked bs v' d' l' ∧
        file_content v' d' = file_content v d
    end) l.
Proof.
  intros Hl Hw He Hi Hwb. rw /write_data. wp_step.
  assert (length (pto pod_dirent e) = 16%nat) as Hle by by apply (pto_length pod_dirent).
  pose proof (file_content_length v d (dw_inode _ _ Hw)) as Hlen. pose proof (dw_size _ _ Hw) as Hm.
  pose proof (iw_size _ _ _ (dw_inode _ _ Hw)) as Hsz. change DE_SIZE with 16 in *. rw entries_length Hlen in Hi.
  assert (Z.of_nat i * 16 ≤ id_size d) as Hoff.
  { pose proof (Nat.div_mod (Z.to_nat (id_size d)) 16 ltac:(done)). nia. }
  eapply wp_mono; [apply (inode_write_wp sb Hsb bs v d ino (Z.of_nat i * 16) (pto pod_dirent e) l Hl); [by rw Hle|lia]|].
  intros r l1. rw Hle. change (Z.of_nat 16) with 16. case_decide as Hmax.
  { intros [-> ->]. split; [by right|]. by exists v, d. }
  rw decide_False; [lia|]. intros (v' & d' & Hl1 & Hr). destruct r as [w|x]; last first.
  { destruct Hr as (-> & _ & _ & _ & Hc). split; [by left|]. by exists v', d'. }
  destruct Hr as [Hwt Hend]. assert (w = 16) as ->.
  { destruct Hend as [?|(Hw0 & Hmod & _)]; [done|]. exfalso. change FS_BLOCK_SIZE with 1024 in Hmod.
    apply Z.mod_divide in Hmod as [q Hq]; [|done]. lia. }
  wp_step. apply wp_assert; [done|]. wp_step. exists v', d'.
  pose proof (wt_attrs _ _ _ _ _ _ _ _ _ Hwt) as Hat.
  assert (id_size d' = Z.max (id_size d) (Z.of_nat i * 16 + 16)) as Hs' by by rw Hat.
  assert (dir_wf v' d') as Hw'.
  { split; [apply Hwt|apply Hwt|]. change DE_SIZE with 16. rw Hs'. destruct (Z.max_spec (id_size d) (Z.of_nat i * 16 + 16)) as [[_ ->]|[_ ->]]; [|done].
    replace (Z.of_nat i * 16 + 16) with ((Z.of_nat i + 1) * 16) by lia. by apply Z.mod_mul. }
  split_and!; [done..|]. intros j. rw (wt_content _ _ _ _ _ _ _ _ _ Hwt) take_ge; [lia|].
  replace (Z.to_nat (Z.of_nat i * 16)) with (i * 16)%nat by lia. apply entries_set; [done| |by rw Hlen].
  rw Hlen. apply Nat2Z.inj. rw Nat2Z.inj_mod Z2Nat.id; [lia|done].
Qed.

Lemma link_entry_wp bs v d ino name target l :
  locked bs v d l → dir_wf v d → 0 < target < 2 ^ 16 → Byte.x00 ∉ name →
  dir_lookup (entries (file_content v d)) name = None →
  writable sb bs v d ino (Z.of_nat (free_slot (entries (file_content v d))) * DE_SIZE) DE_SIZE →
  wp (link_entry sb ino false name target) (λ r l',
    match r with
    | Ok _ => ∃ v' d', locked bs v' d' l' ∧
        written sb v d ino (Z.of_nat (free_slot (entries (file_content v d))) * DE_SIZE)
          (pto pod_dirent (dirent_for name target)) DE_SIZE v' d' ∧ dir_wf v' d' ∧
        linked (entries (file_content v d)) name target (entries (file_content v' d'))
    | Err x => (x = StorageOutOfBlocks ∨ x = FileTooLarge) ∧ ∃ v' d', locked bs v' d' l' ∧
        file_content v' d' = file_content v d
    end) l.
Proof.
  intros Hl Hw Ht Hn Hnone Hwb. rw /link_entry. wp_step. wp_step. pose proof (proj2 Hl) as ->.
  pose proof (iw_size _ _ _ (dw_inode _ _ Hw)) as Hsz. pose proof (dw_size _ _ Hw) as Hm.
  wp_step. apply wp_assert; [by apply Z.eqb_eq|].
  change (step_by 0 (id_size d) DE_SIZE) with (step_by (0 * DE_SIZE) (id_size d) DE_SIZE).
  rw step_by_entries; [done..|lia|]. rw Nat.sub_0_r -(entries_count v d Hw).
  wp_step. eapply wp_mono; [apply (find_dirent_wp bs v d false _ 0 _ l Hl Hw); lia|].
  intros r l1 [-> Hl1]. rw drop_0. set (es := entries (file_content v d)) in *.
  set (i := free_slot es) in *.
  assert (∃ e0, default (zeroed_dirent, id_size d)
      ((λ '(i, e), (e, Z.of_nat (0 + i) * DE_SIZE)) <$> list_find (λ e, negb (in_use e) = true) es) =
      (e0, Z.of_nat i * DE_SIZE) ∧ length (de_name e0) = Z.to_nat DIR_SIZE) as (e0 & -> & He0).
  { rw /i /free_slot. destruct (list_find _ es) as [[j e]|] eqn:E; simpl.
    - exists e. split; [done|]. apply list_find_Some in E as (Hj & _). apply list_elem_of_lookup_2 in Hj.
      by apply (entries_name_length (file_content v d)).
    - exists zeroed_dirent. split; [|done]. f_equal. rw /es entries_length (entries_count v d Hw) Z2Nat.id; [apply Z.div_pos; [lia|done]|].
      change DE_SIZE with 16 in *. pose proof (Z.div_mod (id_size d) 16 ltac:(done)). lia. }
  wp_step. apply (wp_of_run _ _ _ _ _ (set_name_ino e0 name target l1 He0 Ht)).
  eapply wp_mono; [apply (write_dirent_wp bs v d ino _ i l1 Hl1 Hw); [apply dirent_for_wf; lia|apply free_slot_le|done]|].
  intros [[]|x] l2; [|done]. intros (v' & d' & Hl2 & Hwt & Hw' & Hj). exists v', d'. split_and!; [done..|].
  apply linked_intro; [lia|done..].
Qed.
End directory_spec.
