(* ===== verification/Path.v ===== *)
(** * Paths

    Model of [crates/common/ov6_types/src/path/mod.rs]: paths are byte strings,
    [Components] walks over the parts of a path from both ends.

    The specification is the list of the non-empty segments between slashes, with
    [RootDir] in front when the path starts with a slash; [Components] refines the
    double ended queue over that list. *)

From S2P Require Import Prelude.

Definition SLASH : byte := Byte.x2f.
Definition DOT : byte := Byte.x2e.

Inductive Component :=
  | RootDir
  | CurDir
  | ParentDir
  | Normal (s : list byte).

#[export] Instance component_eq_dec : EqDecision Component.
Proof. solve_decision. Defined.

Definition as_os_str (c : Component) : list byte :=
  match c with
  | RootDir => [SLASH]
  | CurDir => [DOT]
  | ParentDir => [DOT; DOT]
  | Normal s => s
  end.

Record Components := {
  c_path : list byte;
  has_root_dir : bool;
}.

Definition as_path (c : Components) : list byte := c_path c.

Definition is_absolute (p : list byte) : bool :=
  match p with b :: _ => bool_decide (b = SLASH) | [] => false end.

(** [while let Some(rest) = path.strip_prefix(b"/")]. *)
Fixpoint strip_slashes (p : list byte) : list byte :=
  match p with
  | b :: p' => if decide (b = SLASH) then strip_slashes p' else p
  | [] => []
  end.
Definition trim_leading_slashes (c : Components) : Components :=
  if has_root_dir c then c
  else {| c_path := strip_slashes (c_path c); has_root_dir := false |}.

(** The loop of [trim_trailing_slashes] on the reversed path. *)
Fixpoint strip_trailing (root : bool) (rp : list byte) : list byte :=
  match rp with
  | b :: rp' =>
      if decide (b = SLASH ∧ (root = false ∨ (1 < length rp)%nat)) then strip_trailing root rp' else rp
  | [] => []
  end.
Definition trim_trailing_slashes (c : Components) : Components :=
  {| c_path := reverse (strip_trailing (has_root_dir c) (reverse (c_path c)));
     has_root_dir := has_root_dir c |}.

(** [Components::new]. *)
Definition components (p : list byte) : Components :=
  trim_trailing_slashes (trim_leading_slashes {| c_path := p; has_root_dir := is_absolute p |}).

(** [slice::split_once] at a slash. *)
Fixpoint split_once (p : list byte) : option (list byte * list byte) :=
  match p with
  | [] => None
  | b :: p' =>
      if decide (b = SLASH) then Some ([], p')
      else '(s, r) ← split_once p'; Some (b :: s, r)
  end.
(** [slice::rsplit_once] at a slash. *)
Definition rsplit_once (p : list byte) : option (list byte * list byte) :=
  '(s, r) ← split_once (reverse p); Some (reverse r, reverse s).

Definition component_of (s : list byte) : option Component :=
  if decide (s = [DOT; DOT]) then Some ParentDir
  else if decide (s = [DOT]) then Some CurDir
  else if decide (s = []) then None
  else Some (Normal s).

(** [Components::next]. *)
Definition next : M Components (option Component) :=
  c ← get;
  if decide (c_path c = []) then mret None
  else if has_root_dir c && is_absolute (c_path c) then
    put (trim_leading_slashes {| c_path := c_path c; has_root_dir := false |});;
    mret (Some RootDir)
  else
    let '(comp, rest) := default (c_path c, []) (split_once (c_path c)) in
    put (trim_leading_slashes {| c_path := rest; has_root_dir := has_root_dir c |});;
    mret (component_of comp).

(** [Components::next_back]. *)
Definition next_back : M Components (option Component) :=
  c ← get;
  if has_root_dir c && bool_decide (c_path c = [SLASH]) then
    put {| c_path := []; has_root_dir := false |};;
    mret (Some RootDir)
  else if decide (c_path c = []) then mret None
  else
    let '(rest, comp) := default ([], c_path c) (rsplit_once (c_path c)) in
    path ← (if decide (rest = [] ∧ has_root_dir c = true) then
              assert_ (is_absolute (c_path c));; mret (take 1 (c_path c))
            else mret rest);
    put (trim_trailing_slashes {| c_path := path; has_root_dir := has_root_dir c |});;
    mret (component_of comp).

(** A [for] loop over the components. *)
Fixpoint collect (fuel : nat) : M Components (list Component) :=
  match fuel with
  | O => panic
  | S fuel' =>
      o ← next;
      match o with
      | None => mret []
      | Some x => xs ← collect fuel'; mret (x :: xs)
      end
  end.

(** [Path::parent] and [Path::file_name]. *)
Definition eval_on {S A} (m : M S A) (s : S) : option (A * S) :=
  match m s with Ret a s' => Some (a, s') | Panic => None end.
Definition parent (p : list byte) : option (option (list byte)) :=
  match eval_on next_back (components p) with
  | None => None
  | Some (None, _) | Some (Some RootDir, _) => Some None
  | Some (Some _, c) => Some (Some (as_path c))
  end.
Definition file_name (p : list byte) : option (option (list byte)) :=
  match eval_on next_back (components p) with
  | None => None
  | Some (Some (Normal s), _) => Some (Some s)
  | Some _ => Some None
  end.

(** [iter_after], with [nx] as the [next] of the iterators: the rest of [iter] after
    the components of [prefix], if [prefix] is a prefix of it.  Outside [None] is a
    panic or the end of the fuel. *)
Fixpoint iter_after (nx : M Components (option Component)) (fuel : nat) (iter prefix : Components)
    : option (option Components) :=
  match fuel with
  | O => None
  | S fuel' =>
      match eval_on nx iter, eval_on nx prefix with
      | Some (x, iter'), Some (y, prefix') =>
          match x, y with
          | _, None => Some (Some iter)
          | Some x, Some y => if decide (x = y) then iter_after nx fuel' iter' prefix' else Some None
          | None, Some _ => Some None
          end
      | _, _ => None
      end
  end.

Definition strip_prefix (p base : list byte) : option (option (list byte)) :=
  match iter_after next (S (length base)) (components p) (components base) with
  | Some r => Some (as_path <$> r)
  | None => None
  end.
Definition starts_with (p base : list byte) : option bool :=
  match iter_after next (S (length base)) (components p) (components base) with
  | Some r => Some (bool_decide (is_Some r))
  | None => None
  end.
Definition ends_with (p child : list byte) : option bool :=
  match iter_after next_back (S (length child)) (components p) (components child) with
  | Some r => Some (bool_decide (is_Some r))
  | None => None
  end.

(** ** The specification *)

Fixpoint split_all (p : list byte) : list (list byte) :=
  match p with
  | [] => [[]]
  | b :: p' =>
      if decide (b = SLASH) then [] :: split_all p'
      else match split_all p' with
           | s :: r => (b :: s) :: r
           | [] => [[b]]
           end
  end.

(** The non-empty segments between the slashes. *)
Definition segments (p : list byte) : list (list byte) := filter (λ s, s ≠ []) (split_all p).

(** What a path means. *)
Definition path_components (p : list byte) : list Component :=
  (if is_absolute p then [RootDir] else []) ++ omap component_of (segments p).

Implicit Types (p q s r : list byte) (c : Components).

Lemma split_all_cons p : ∃ s (ss : list (list byte)), split_all p = s :: ss.
Proof. induction p as [|b p (s & r & IH)]; simpl; [by eexists _, _|]. case_decide; [by eexists _, _|]. rw IH. by eexists _, _. Qed.

Lemma split_all_app p q : split_all (p ++ SLASH :: q) = split_all p ++ split_all q.
Proof.
  induction p as [|b p IH]; simpl; [done|]. case_decide; [by rw IH|].
  rw IH. destruct (split_all_cons p) as (s & r & ->). done.
Qed.

Lemma segments_app p q : segments (p ++ SLASH :: q) = segments p ++ segments q.
Proof. by rw /segments split_all_app filter_app. Qed.

Lemma split_all_free s : SLASH ∉ s → split_all s = [s].
Proof.
  induction s as [|b s IH]; intros Hs; simpl; [done|]. apply not_elem_of_cons in Hs as [Hb Hs].
  rw decide_False; [congruence|]. by rw IH.
Qed.

Lemma segments_nil : segments [] = [].
Proof. done. Qed.

Lemma segments_free s : SLASH ∉ s → s ≠ [] → segments s = [s].
Proof. intros Hs Hn. rw /segments split_all_free // filter_cons_True //. Qed.

Lemma segments_slash p : segments (SLASH :: p) = segments p.
Proof. apply (segments_app []). Qed.

Lemma segments_snoc p : segments (p ++ [SLASH]) = segments p.
Proof. by rw segments_app app_nil_r. Qed.

Lemma segments_strip p : segments (strip_slashes p) = segments p.
Proof.
  induction p as [|b p IH]; simpl; [done|]. case_decide; [|done]. subst b. by rw segments_slash.
Qed.

Lemma segments_strip_trailing root rp : segments (reverse (strip_trailing root rp)) = segments (reverse rp).
Proof.
  induction rp as [|b rp IH]; cbn [strip_trailing]; [done|]. case_decide as H; [|done]. destruct H as [-> _].
  by rw IH reverse_cons segments_snoc.
Qed.

Lemma component_of_some s : s ≠ [] → is_Some (component_of s).
Proof. intros Hs. rw /component_of. repeat case_decide; try done; by eexists. Qed.

(** ** Splitting *)

Lemma split_once_Some p s r : split_once p = Some (s, r) ↔ p = s ++ SLASH :: r ∧ SLASH ∉ s.
Proof.
  revert s. induction p as [|b p IH]; intros s; simpl.
  { split; [done|]. intros [H _]. by destruct s. }
  case_decide as Hb.
  - subst b. split; [intros [= <- <-]; set_solver|]. intros [H Hs]. destruct s as [|b s]; simplify_eq/=; [done|]. set_solver.
  - destruct (split_once p) as [[s' r']|] eqn:E; simpl.
    + split.
      * intros [= <- <-]. destruct (proj1 (IH s') eq_refl) as [-> ?]. split; [done|]. set_solver.
      * intros [H Hs]. destruct s as [|b' s]; simplify_eq/=.
        assert (Some (s', r') = Some (s, r)) as [= -> ->]; [|done]. apply IH. split; [done|set_solver].
    + split; [done|]. intros [H Hs]. destruct s as [|b' s]; simplify_eq/=.
      assert (None = Some (s, r)) as [=]. apply IH. split; [done|set_solver].
Qed.

Lemma split_once_None p : split_once p = None ↔ SLASH ∉ p.
Proof.
  induction p as [|b p IH]; simpl; [split; [set_solver|done]|]. case_decide as Hb.
  - subst b. split; [done|]. intros H. exfalso. apply H. left.
  - destruct (split_once p) as [[s r]|] eqn:E; simpl; [split; [done|]|].
    + intros H. assert (Some (s, r) = None) as [=]. apply IH. set_solver.
    + split; [|done]. intros _. apply not_elem_of_cons. split; [congruence|]. by apply IH.
Qed.

Lemma rsplit_once_Some p r s : rsplit_once p = Some (r, s) ↔ p = r ++ SLASH :: s ∧ SLASH ∉ s.
Proof.
  rw /rsplit_once. destruct (split_once (reverse p)) as [[s' r']|] eqn:E; simpl.
  - apply split_once_Some in E as [E Hs]. apply (f_equal reverse) in E.
    rw reverse_involutive reverse_app reverse_cons -app_assoc in E. simpl in E. split.
    + intros [= <- <-]. split; [done|]. by rw elem_of_reverse.
    + intros [-> Hs']. assert (split_once (reverse (r ++ SLASH :: s)) = Some (reverse s, reverse r)) as H.
      { apply split_once_Some. rw reverse_app reverse_cons -app_assoc /=. split; [done|]. by rw elem_of_reverse. }
      assert (split_once (reverse (r ++ SLASH :: s)) = Some (s', r')) as H'.
      { apply split_once_Some. split; [|done]. rw E reverse_app reverse_cons !reverse_involutive -app_assoc. done. }
      rw H in H'. injection H' as <- <-. by rw !reverse_involutive.
  - split; [done|]. intros [-> _]. apply split_once_None in E. exfalso. apply E. rw elem_of_reverse. set_solver.
Qed.

Lemma rsplit_once_None p : rsplit_once p = None ↔ SLASH ∉ p.
Proof.
  rw /rsplit_once. destruct (split_once (reverse p)) as [[s r]|] eqn:E; simpl.
  - apply split_once_Some in E as [E _]. split; [done|]. intros H. exfalso. apply H. rw -elem_of_reverse E. set_solver.
  - apply split_once_None in E. by rw elem_of_reverse in E.
Qed.

(** ** The iterator refines a double ended queue *)

(** No slash in front, none at the end, except the slash of the root. *)
Record comps_inv c : Prop := {
  ci_front : is_absolute (c_path c) = has_root_dir c;
  ci_back : c_path c = [SLASH] ∧ has_root_dir c = true ∨ last (c_path c) ≠ Some SLASH;
}.

Definition queue c : list Component :=
  (if has_root_dir c then [RootDir] else []) ++ omap component_of (segments (c_path c)).

Lemma last_strip p : last p ≠ Some SLASH → last (strip_slashes p) ≠ Some SLASH.
Proof.
  induction p as [|b p IH]; simpl; [done|]. case_decide as Hb; [|done]. intros H. apply IH.
  by destruct p.
Qed.

Lemma absolute_strip p : is_absolute (strip_slashes p) = false.
Proof. induction p as [|b p IH]; simpl; [done|]. case_decide; [done|]. simpl. by apply bool_decide_eq_false. Qed.

Lemma absolute_inv p : is_absolute p = true → ∃ q, p = SLASH :: q.
Proof. destruct p as [|b q]; [done|]. intros ->%bool_decide_eq_true. by exists q. Qed.

(** Trimming keeps the front of the path. *)
Lemma strip_trailing_suffix root rp : ∃ rq, rp = rq ++ strip_trailing root rp.
Proof.
  induction rp as [|b rp [rq IH]]; cbn [strip_trailing]; [by exists []|]. case_decide; [|by exists []].
  exists (b :: rq). by rw {1}IH.
Qed.

Lemma strip_trailing_head root rp :
  (∃ b, strip_trailing root rp = [b] ∧ root = true) ∨ head (strip_trailing root rp) ≠ Some SLASH.
Proof.
  induction rp as [|b rp IH]; cbn [strip_trailing]; [by right|]. case_decide as H; [done|].
  destruct (decide (b = SLASH)) as [->|]; [|right; simpl; congruence]. left. exists SLASH.
  destruct root; [|destruct H; by split; [|left]]. split; [|done]. destruct rp; [done|]. destruct H. split; [done|right; simpl; lia].
Qed.

Lemma absolute_app p q : p ≠ [] → is_absolute (p ++ q) = is_absolute p.
Proof. by destruct p. Qed.

Lemma strip_trailing_nonempty root rp : root = true → rp ≠ [] → strip_trailing root rp ≠ [].
Proof.
  intros ->. induction rp as [|b rp IH]; cbn [strip_trailing]; [done|]. intros _. case_decide as H; [|done].
  apply IH. destruct H as [_ [?|H]]; [done|]. destruct rp; [simpl in H; lia|done].
Qed.

Lemma trim_trailing_inv c :
  is_absolute (c_path c) = has_root_dir c → comps_inv (trim_trailing_slashes c) ∧
  queue (trim_trailing_slashes c) = queue c.
Proof.
  intros Ha. split; [|by rw /queue /= segments_strip_trailing reverse_involutive].
  destruct c as [p root]. simpl in *. set (q := reverse (strip_trailing root (reverse p))).
  assert (∃ t, p = q ++ t) as [t Et].
  { destruct (strip_trailing_suffix root (reverse p)) as [rq E]. exists (reverse rq).
    apply (f_equal reverse) in E. by rw reverse_involutive reverse_app in E. }
  assert (is_absolute q = root) as Hq.
  { destruct (decide (q = [])) as [Eq|Hne]; [|by rw -Ha Et absolute_app].
    destruct root; [|by rw Eq]. exfalso. apply (strip_trailing_nonempty true (reverse p)); [done| |].
    - intros E. apply (f_equal reverse) in E. rw reverse_involutive in E. rw E in Ha. done.
    - unfold q in Eq. apply (f_equal reverse) in Eq. by rw reverse_involutive in Eq. }
  split; simpl; [done|]. fold q. destruct (strip_trailing_head root (reverse p)) as [(b & E & ->)|H].
  - left. unfold q in Hq |- *. rw E in Hq |- *. by apply absolute_inv in Hq as [? [= -> _]].
  - right. by rw last_reverse.
Qed.

Lemma components_inv p : comps_inv (components p) ∧ queue (components p) = path_components p.
Proof.
  rw /components. set (c0 := trim_leading_slashes _).
  assert (is_absolute (c_path c0) = has_root_dir c0 ∧ queue c0 = path_components p) as [Ha <-]; [|by apply trim_trailing_inv].
  rw /c0 /trim_leading_slashes /queue /path_components. destruct (is_absolute p) eqn:E; simpl; [done|].
  split; [apply absolute_strip|by rw segments_strip].
Qed.

(** The path of the rest denotes the rest. *)
Lemma components_as_path c : comps_inv c → components (as_path c) = c.
Proof.
  intros [Hf Hb]. destruct c as [p root]. simpl in *. rw /components /as_path /= Hf.
  assert (trim_leading_slashes {| c_path := p; has_root_dir := root |} = {| c_path := p; has_root_dir := root |}) as ->.
  { rw /trim_leading_slashes /=. destruct root; [done|]. f_equal. destruct p as [|b p]; [done|]. simpl in *.
    rw decide_False //. by apply bool_decide_eq_false in Hf. }
  rw /trim_trailing_slashes /=. f_equal. rw -{2}(reverse_involutive p). f_equal.
  destruct Hb as [[-> ->]|Hb]; [done|]. rw -head_reverse in Hb. destruct (reverse p) as [|b rp]; [done|].
  cbn [strip_trailing]. rw decide_False //. intros [-> _]. done.
Qed.

Lemma queue_segment s ss :
  s ≠ [] → ∃ x, component_of s = Some x ∧ omap component_of (s :: ss) = x :: omap component_of ss.
Proof. intros [x Hx]%component_of_some. exists x. simpl. by rw Hx. Qed.

Lemma next_spec c :
  comps_inv c →
  wp next (λ o c', comps_inv c' ∧
    match o with
    | Some x => queue c = x :: queue c'
    | None => queue c = [] ∧ c' = c
    end) c.
Proof.
  intros HI. destruct (HI) as [Hf Hb]. destruct c as [p root]. simpl in *. rw /next. wp_step. wp_step. simpl.
  case_decide as Hp. { subst p. simpl in Hf. subst root. wp_step. by split_and!. }
  rw Hf. destruct root; simpl.
  - wp_step. wp_step. wp_step. rw /queue /trim_leading_slashes /= segments_strip. split; [|done]. split; simpl.
    + apply absolute_strip.
    + right. destruct Hb as [[-> _]|Hb]; [done|]. by apply last_strip.
  - destruct Hb as [[_ ?]|Hb]; [done|]. destruct (split_once p) as [[s r]|] eqn:E; simpl.
    + apply split_once_Some in E as [-> Hs].
      assert (s ≠ []) as Hne by by intros ->.
      destruct (queue_segment s (segments r) Hne) as (x & Hx & Eo).
      wp_step. wp_step. wp_step. rw Hx /queue /trim_leading_slashes /= segments_strip segments_app segments_free // Eo.
      split; [|done]. split; simpl; [apply absolute_strip|right]. apply last_strip.
      rw last_app_cons in Hb. destruct r as [|b r]; [done|]. done.
    + apply split_once_None in E. destruct (queue_segment p [] Hp) as (x & Hx & Eo).
      wp_step. wp_step. wp_step. rw Hx /queue /trim_leading_slashes /= segments_free // Eo.
      split; [|done]. split; [done|by right].
Qed.

Lemma next_back_spec c :
  comps_inv c →
  wp next_back (λ o c', comps_inv c' ∧
    match o with
    | Some x => queue c = queue c' ++ [x]
    | None => queue c = [] ∧ c' = c
    end) c.
Proof.
  intros HI. destruct (HI) as [Hf Hb]. destruct c as [p root]. simpl in *. rw /next_back. wp_step. wp_step. simpl.
  destruct (root && bool_decide (p = [SLASH])) eqn:Er.
  { apply andb_true_iff in Er as [-> ->%bool_decide_eq_true]. wp_steps. split; [|done]. split; [done|by right]. }
  destruct (decide (p = [])) as [->|Hp]. { simpl in Hf. subst root. wp_step. by split_and!. }
  destruct Hb as [[-> ->]|Hb]; [done|].
  destruct (rsplit_once p) as [[r s]|] eqn:E; simpl.
  - apply rsplit_once_Some in E as [-> Hs].
    assert (s ≠ []) as Hne by (intros ->; apply Hb; by rw last_app_cons).
    destruct (queue_segment s [] Hne) as (x & Hx & Eo). rw Hx.
    assert (∀ q, is_absolute q = root → segments q = segments r →
      comps_inv (trim_trailing_slashes {| c_path := q; has_root_dir := root |}) ∧
      queue {| c_path := r ++ SLASH :: s; has_root_dir := root |} =
      queue (trim_trailing_slashes {| c_path := q; has_root_dir := root |}) ++ [x]) as Hq.
    { intros q Ha Hsq. destruct (trim_trailing_inv {| c_path := q; has_root_dir := root |} Ha) as [HI' ->].
      split; [done|]. rw /queue /= segments_app (segments_free s) // omap_app Eo Hsq /=. by rw app_assoc. }
    destruct (decide (r = [] ∧ root = true)) as [Hr|Hr].
    + destruct Hr as [-> ->]. wp_step. wp_step. apply wp_assert; [done|]. wp_steps. by apply Hq.
    + wp_steps. apply Hq; [|done]. rw -Hf. destruct r as [|b r]; [|done].
      simpl in *. destruct root; [|done]. destruct Hr. done.
  - apply rsplit_once_None in E. destruct (queue_segment p [] Hp) as (x & Hx & Eo). rw Hx.
    assert (root = false) as ->.
    { destruct root; [|done]. exfalso. apply absolute_inv in Hf as [q ->]. apply E. left. }
    destruct (decide ([] = [] ∧ false = true)) as [[_ ?]|_]; [done|]. wp_steps.
    split; [split; [done|by right]|]. by rw /queue /= segments_free // Eo.
Qed.

Lemma queue_as_path c : comps_inv c → path_components (as_path c) = queue c.
Proof. intros HI. destruct (components_inv (as_path c)) as [_ <-]. by rw components_as_path. Qed.

(** Taking components from both ends. *)
Inductive End := Front | Back.

Fixpoint drain (ops : list End) : M Components (list (option Component)) :=
  match ops with
  | [] => mret []
  | o :: ops' =>
      x ← match o with Front => next | Back => next_back end;
      xs ← drain ops';
      mret (x :: xs)
  end.

(** The double ended queue. *)
Fixpoint deque (ops : list End) (q : list Component) : list (option Component) * list Component :=
  match ops with
  | [] => ([], q)
  | o :: ops' =>
      let q' := match o with Front => drop 1 q | Back => take (length q - 1) q end in
      let '(xs, rest) := deque ops' q' in
      (match o with Front => head q | Back => last q end :: xs, rest)
  end.

Lemma drain_wp ops c :
  comps_inv c → wp (drain ops) (λ xs c', comps_inv c' ∧ deque ops (queue c) = (xs, queue c')) c.
Proof.
  revert c. induction ops as [|o ops IH]; intros c HI; cbn [drain deque]; [by wp_step|]. wp_step.
  assert (wp match o with Front => next | Back => next_back end (λ x c', comps_inv c' ∧
    x = match o with Front => head (queue c) | Back => last (queue c) end ∧
    queue c' = match o with Front => drop 1 (queue c) | Back => take (length (queue c) - 1) (queue c) end) c) as H.
  { destruct o.
    - eapply wp_mono; [exact (next_spec c HI)|]. intros [x|] c' [HI' Hq]; [by rw Hq /= drop_0|].
      destruct Hq as [Hq ->]. by rw Hq.
    - eapply wp_mono; [exact (next_back_spec c HI)|]. intros [x|] c' [HI' Hq].
      + rw Hq last_snoc length_app /= Nat.add_sub take_app_length. done.
      + destruct Hq as [Hq ->]. by rw Hq. }
  eapply wp_mono; [exact H|]. intros x c' (HI' & -> & Hq). wp_step. eapply wp_mono; [exact (IH c' HI')|].
  intros xs c2 [HI2 E]. wp_step. split; [done|]. by rw -Hq E.
Qed.

(** C38: the components of a path are [RootDir], if it starts with a slash, and the
    non-empty segments between slashes; taking them with [next] and [next_back] in any
    order never panics and behaves as taking elements from the two ends of that list,
    and [as_path] is at every point a path with the components that are left. *)
Theorem components_deque p ops :
  ∃ xs c', drain ops (components p) = Ret xs c' ∧
    deque ops (path_components p) = (xs, path_components (as_path c')).
Proof.
  destruct (components_inv p) as [HI Hq]. destruct (wp_run _ _ _ (drain_wp ops _ HI)) as (xs & c' & E & HI' & Hd).
  exists xs, c'. split; [done|]. by rw queue_as_path // -Hq.
Qed.

(** The number of components is at most the length of the path. *)
Lemma segments_length q : (length (segments q) ≤ length q)%nat.
Proof.
  rw /segments. induction q as [|b q IH]; simpl; [done|]. case_decide; [rw filter_cons_False; [by intros []|lia]|].
  destruct (split_all_cons q) as (s & ss & E). rw E in IH |- *. rw filter_cons_True //. rw filter_cons in IH.
  simpl. destruct (decide (s ≠ [])); simpl in IH; lia.
Qed.

Lemma path_components_length q : (length (path_components q) ≤ length q)%nat.
Proof.
  rw /path_components length_app. pose proof (segments_length q) as H.
  pose proof (omap_length_le component_of (segments q)) as H1.
  destruct (is_absolute q) eqn:E; simpl; [|lia]. apply absolute_inv in E as [q' ->].
  rw segments_slash in H1 |- *. pose proof (segments_length q'). simpl. lia.
Qed.

Lemma collect_wp fuel c :
  comps_inv c → (length (queue c) < fuel)%nat → wp (collect fuel) (λ xs _, xs = queue c) c.
Proof.
  revert c. induction fuel as [|fuel IH]; intros c HI Hf; [lia|]. cbn [collect]. wp_step.
  eapply wp_mono; [exact (next_spec c HI)|]. intros [x|] c' [HI' Hq].
  - wp_step. eapply wp_mono; [apply (IH c' HI'); rw Hq /= in Hf; lia|]. intros xs c2 ->. by wp_step.
  - wp_step. by destruct Hq as [-> _].
Qed.

Lemma collect_components p :
  ∃ c, eval_on (collect (S (length p))) (components p) = Some (path_components p, c).
Proof.
  destruct (components_inv p) as [HI Hq]. pose proof (path_components_length p) as Hl. rw -Hq in Hl |- *.
  destruct (wp_run _ _ _ (collect_wp (S (length p)) _ HI ltac:(lia))) as (xs & c & E & ->).
  exists c. by rw /eval_on E.
Qed.

(** What [iter_after] computes on an iterator [nx] that takes the elements of [Q]. *)
Section iter_after.
Context (nx : M Components (option Component)) (Q : Components → list Component).
Hypothesis nx_spec : ∀ c, comps_inv c →
  wp nx (λ o c', comps_inv c' ∧
    match o with Some x => Q c = x :: Q c' | None => Q c = [] ∧ c' = c end) c.

Lemma iter_after_spec fuel it pre :
  comps_inv it → comps_inv pre → (length (Q pre) < fuel)%nat →
  (∃ c, iter_after nx fuel it pre = Some (Some c) ∧ comps_inv c ∧ Q it = Q pre ++ Q c) ∨
  iter_after nx fuel it pre = Some None ∧ ¬ Q pre `prefix_of` Q it.
Proof.
  revert it pre. induction fuel as [|fuel IH]; intros it pre Hi Hp Hf; [lia|]. cbn [iter_after].
  destruct (wp_run _ _ _ (nx_spec it Hi)) as (x & it' & E1 & Hi' & Hx).
  destruct (wp_run _ _ _ (nx_spec pre Hp)) as (y & pre' & E2 & Hp' & Hy).
  rw /eval_on E1 E2. destruct y as [y|].
  - rw Hy in Hf |- *. simpl in Hf. destruct x as [x|].
    + rw Hx. case_decide as Hxy.
      * subst y. destruct (IH it' pre' Hi' Hp' ltac:(lia)) as [(c & E & Hc & Hq)|[E Hn]].
        -- left. exists c. by rw Hq.
        -- right. split; [done|]. intros H%prefix_cons_inv_2. done.
      * right. split; [done|]. intros H%prefix_cons_inv_1. congruence.
    + destruct Hx as [-> _]. right. split; [done|]. by intros H%prefix_nil_inv.
  - destruct Hy as [-> _]. left. exists it. by destruct x.
Qed.
End iter_after.

(** [strip_prefix] succeeds exactly when the components of [base] are a prefix of
    those of the path, and returns a path with the components behind it; it never
    panics and always returns. *)
Theorem strip_prefix_spec p base :
  (∃ q, strip_prefix p base = Some (Some q) ∧ path_components p = path_components base ++ path_components q) ∨
  strip_prefix p base = Some None ∧ ¬ path_components base `prefix_of` path_components p.
Proof.
  destruct (components_inv p) as [Hi Ep], (components_inv base) as [Hb Eb].
  pose proof (path_components_length base) as Hl. rw -Eb in Hl. rw /strip_prefix.
  destruct (iter_after_spec next queue next_spec (S (length base)) _ _ Hi Hb ltac:(lia)) as [(c & -> & Hc & E)|[-> E]].
  - left. exists (as_path c). split; [done|]. by rw queue_as_path // -Ep -Eb.
  - right. split; [done|]. by rw -Ep -Eb.
Qed.

(** [ends_with] decides whether the components of [child] are the last ones of the
    path. *)
Theorem ends_with_spec p child :
  ∃ b, ends_with p child = Some b ∧ (b = true ↔ path_components child `suffix_of` path_components p).
Proof.
  destruct (components_inv p) as [Hi Ep], (components_inv child) as [Hb Eb].
  pose proof (path_components_length child) as Hl. rw -Eb -length_reverse in Hl. rw /ends_with.
  assert (∀ c, comps_inv c → wp next_back (λ o c', comps_inv c' ∧
    match o with Some x => reverse (queue c) = x :: reverse (queue c') | None => reverse (queue c) = [] ∧ c' = c end) c) as Hn.
  { intros c Hc. eapply wp_mono; [exact (next_back_spec c Hc)|]. intros [x|] c' [Hc' Hq].
    - rw Hq reverse_snoc. done.
    - destruct Hq as [-> ->]. done. }
  rw -Ep -Eb.
  destruct (iter_after_spec next_back (λ c, reverse (queue c)) Hn (S (length child)) _ _ Hi Hb ltac:(lia)) as [(c & -> & Hc & E)|[-> E]].
  - eexists. split; [done|]. split; [intros _|by rw bool_decide_true]. exists (queue c).
    apply (f_equal reverse) in E. by rw reverse_app !reverse_involutive in E.
  - eexists. split; [done|]. split; [done|]. intros Hs. destruct E. by apply suffix_prefix_reverse.
Qed.
