(* ===== verification/FsOps.v ===== *)
(** * File system operations

    Model of [TxInode] and [LockedTxInode] in
    [crates/kernel/ov6_kernel/src/fs/inode/mod.rs], of the parts of
    [fs/inode/directory.rs] that use them, and of [fs/path.rs] and [fs/ops.rs].

    The state is the block store and the table of in-memory inodes.  The operations
    run in one read-write transaction; waiting for a lock that is held never
    returns, which is [panic] here.  Destructors are explicit: they run where Rust
    runs them. *)

From S2P Require Import Prelude KError Pod FsTypes BlockIo Store DataBlock Inode InodeSpec Content Truncate Itable.
From S2P Require Import Directory Path.

Section fs_ops.
Context {S : Type} `{!TxStore S} (sb : SuperBlock).

Record Fs := {
  fs_store : S;
  fs_table : Itable;
}.

Definition on_blocks {A} (m : M S A) : M Fs A :=
  zoom fs_store (λ s f, {| fs_store := s; fs_table := fs_table f |}) m.
Definition on_table {A} (m : M Itable A) : M Fs A :=
  zoom fs_table (λ t f, {| fs_store := fs_store f; fs_table := t |}) m.

Record TxInode := {
  ti_dev : Z;
  ti_ino : Z;
  ti_arc : positive;
}.

Definition with_data (o : option InodeData) (c : Arc) : Arc :=
  {| a_strong := a_strong c; a_weak := a_weak c; a_data := o; a_locked := a_locked c |}.
Definition with_locked (b : bool) (c : Arc) : Arc :=
  {| a_strong := a_strong c; a_weak := a_weak c; a_data := a_data c; a_locked := b |}.
Definition map_arc (a : positive) (f : Arc → Arc) : M Itable unit :=
  c ← get_arc a;
  modify (set_arcs <[a := f c]>).

(** [TxInode::get] and [TxInode::root]. *)
Definition inode_get (dev ino : Z) : M Fs TxInode :=
  r ← on_table (get_or_insert dev ino);
  a ← unwrap_ok r;
  mret {| ti_dev := dev; ti_ino := ino; ti_arc := a |}.
Definition inode_root : M Fs TxInode := inode_get ROOT_DEV ROOT_INO.

(** [Clone for TxInode]. *)
Definition inode_clone (ip : TxInode) : M Fs TxInode :=
  on_table (arc_clone (ti_arc ip));;
  mret ip.

(** [LockedTxInode::new]: reads the inode from disk if it is not in memory. *)
Definition locked_new (ip : TxInode) : M Fs unit :=
  c ← on_table (get_arc (ti_arc ip));
  match a_data c with
  | Some _ => mret tt
  | None =>
      b ← on_blocks (st_read (inode_block sb (ti_ino ip)));
      on_table (map_arc (ti_arc ip) (with_data (Some (from_repr (block_inode b (ti_ino ip))))))
  end.

(** [force_wait_lock]: takes the sleep lock and a reference for the guard. *)
Definition lock_inode (ip : TxInode) : M Fs unit :=
  c ← on_table (get_arc (ti_arc ip));
  assert_ (negb (a_locked c));;
  on_table (map_arc (ti_arc ip) (with_locked true));;
  on_table (arc_clone (ti_arc ip));;
  locked_new ip.

(** The destructor of [LockedTxInode]. *)
Definition unlock_inode (ip : TxInode) : M Fs unit :=
  on_table (arc_drop (ti_arc ip));;
  on_table (map_arc (ti_arc ip) (with_locked false)).

(** An operation on the locked inode. *)
Definition on_inode {A} (ip : TxInode) (m : M (@Locked S) A) : M Fs A :=
  c ← on_table (get_arc (ti_arc ip));
  d ← unwrap (a_data c);
  f ← get;
  match m {| lk_store := fs_store f; lk_data := d |} with
  | Panic => panic
  | Ret a l =>
      put {| fs_store := lk_store l; fs_table := fs_table f |};;
      on_table (map_arc (ti_arc ip) (with_data (Some (lk_data l))));;
      mret a
  end.

Definition inode_data (ip : TxInode) : M Fs InodeData := on_inode ip (gets lk_data).

(** [LockedTxInode::free]: the data is read from the disk again before it is used. *)
Definition free_inode (ip : TxInode) : M Fs unit :=
  on_inode ip (inode_free sb (ti_ino ip));;
  on_table (map_arc (ti_arc ip) (with_data None)).

(** The destructor of [TxInode]. *)
Definition inode_drop (ip : TxInode) : M Fs unit :=
  n ← on_table (strong_count (ti_arc ip));
  (if decide (1 < n)%nat then mret tt
   else
     lock_inode ip;;
     d ← inode_data ip;
     (if 0 <? id_nlink d then mret tt
      else on_inode ip (truncate sb (ti_ino ip));; free_inode ip);;
     unlock_inode ip);;
  on_table (arc_drop (ti_arc ip)).

(** A guard and then its [TxInode] leave their scope. *)
Definition release (ip : TxInode) : M Fs unit := unlock_inode ip;; inode_drop ip.

(** [TxInode::alloc]. *)
Definition inode_alloc (dev ty : Z) : M Fs (result KernelError TxInode) :=
  ino ←? on_blocks (alloc_ino sb ty);
  ip ← inode_get dev ino;
  mret (Ok ip).

(** ** Directories *)

(** [DirInode::lookup] on the locked directory [dp]. *)
Definition lookup_inode (dp : TxInode) (name : list byte) : M Fs (option (TxInode * Z)) :=
  r ← on_inode dp (lookup_entry sb false name);
  match r with
  | Some (ino, off) => ip ← inode_get (ti_dev dp) ino; mret (Some (ip, off))
  | None => mret None
  end.

(** [DirInode::link]. *)
Definition dir_link (dp : TxInode) (name : list byte) (ino : Z) : M Fs (result KernelError unit) :=
  r ← lookup_inode dp name;
  match r with
  | Some (ip, _) => inode_drop ip;; mret (Err LinkAlreadyExists)
  | None => on_inode dp (link_entry sb (ti_ino dp) false name ino)
  end.

(** ** Paths *)

(** [path::resolve]: the loop over the components that are left. *)
Fixpoint resolve_from (ip : TxInode) (comps : list Component) : M Fs (result KernelError TxInode) :=
  match comps with
  | [] => mret (Ok ip)
  | comp :: comps' =>
      lock_inode ip;;
      d ← inode_data ip;
      if is_dir d then
        r ← lookup_inode ip (as_os_str comp);
        match r with
        | Some (next, _) =>
            release ip;;
            resolve_from next comps'
        | None => release ip;; mret (Err FsEntryNotFound)
        end
      else release ip;; mret (Err NonDirectoryPathComponent)
  end.

Definition resolve (cwd : TxInode) (path : list byte) : M Fs (result KernelError TxInode) :=
  '(comps, _) ← unwrap (eval_on (collect (Datatypes.S (length path))) (components path));
  match comps with
  | RootDir :: comps' =>
      ip ← inode_root;
      r ← resolve_from ip comps';
      inode_drop cwd;;
      mret r
  | _ => resolve_from cwd comps
  end.

(** ** Operations on names *)

(** [split_path]. *)
Definition split_path (path : list byte) : M Fs (option (list byte * list byte)) :=
  '(o, c) ← unwrap (eval_on next_back (components path));
  mret match o with
       | None | Some RootDir => None
       | Some comp => Some (as_path c, as_os_str comp)
       end.

Definition modify_inode (ip : TxInode) (f : InodeData → InodeData) : M Fs unit := on_inode ip (map_data f).
Definition update_inode (ip : TxInode) : M Fs unit := on_inode ip (update sb (ti_ino ip)).

Definition dec_nlink (d : InodeData) : InodeData := set_nlink (wrap 16 (id_nlink d - 1)) d.
Definition inc_nlink (d : InodeData) : InodeData := set_nlink (wrap 16 (id_nlink d + 1)) d.

(** [unlink] with the directory and the file locked. *)
Definition unlink_locked (dir_ip file_ip : TxInode) (off : Z) : M Fs (result KernelError unit) :=
  d ← inode_data file_ip;
  assert_ (0 <? id_nlink d);;
  empty ← (if is_dir d then on_inode file_ip (dir_is_empty sb false) else mret true);
  if negb empty then release file_ip;; release dir_ip;; mret (Err DirectoryNotEmpty)
  else
    r ← on_inode dir_ip (write_data sb (ti_ino dir_ip) false pod_dirent off zeroed_dirent);
    unwrap_ok r;;
    (if is_dir d then modify_inode dir_ip dec_nlink;; update_inode dir_ip else mret tt);;
    release dir_ip;;
    modify_inode file_ip dec_nlink;;
    update_inode file_ip;;
    release file_ip;;
    mret (Ok tt).

Definition unlink (cwd : TxInode) (path : list byte) : M Fs (result KernelError unit) :=
  sp ← split_path path;
  match sp with
  | None => inode_drop cwd;; mret (Err UnlinkRootDir)
  | Some (dir_path, file_name) =>
      dir_ip ←? resolve cwd dir_path;
      if decide (file_name = [DOT; DOT] ∨ file_name = [DOT]) then inode_drop dir_ip;; mret (Err UnlinkDots)
      else
        lock_inode dir_ip;;
        d ← inode_data dir_ip;
        if is_dir d then
          r ← lookup_inode dir_ip file_name;
          match r with
          | None => release dir_ip;; mret (Err FsEntryNotFound)
          | Some (file_ip, off) => lock_inode file_ip;; unlink_locked dir_ip file_ip off
          end
        else release dir_ip;; mret (Err NonDirectoryPathComponent)
  end.

(** [create] after the name was found to be free: a new inode [file_ip], locked. *)
Definition create_locked (dir_ip file_ip : TxInode) (file_name : list byte) (major minor : Z)
    : M Fs (result KernelError TxInode) :=
  modify_inode file_ip (λ d, set_nlink 0 (set_dev major minor d));;
  update_inode file_ip;;
  d ← inode_data file_ip;
  r ← (if is_dir d then
         _ ←? dir_link file_ip [DOT] (ti_ino file_ip);
         dir_link file_ip [DOT; DOT] (ti_ino dir_ip)
       else mret (Ok tt));
  r ← match r with
      | Ok _ => dir_link dir_ip file_name (ti_ino file_ip)
      | Err e => mret (Err e)
      end;
  match r with
  | Err e => release file_ip;; release dir_ip;; mret (Err e)
  | Ok _ =>
      (if is_dir d then modify_inode dir_ip inc_nlink;; update_inode dir_ip else mret tt);;
      modify_inode file_ip (set_nlink 1);;
      update_inode file_ip;;
      unlock_inode file_ip;;
      release dir_ip;;
      mret (Ok file_ip)
  end.

Definition create (cwd : TxInode) (path : list byte) (ty major minor : Z)
    : M Fs (result KernelError TxInode) :=
  sp ← split_path path;
  match sp with
  | None => inode_drop cwd;; mret (Err CreateRootDir)
  | Some (dir_path, file_name) =>
      dir_ip ←? resolve cwd dir_path;
      lock_inode dir_ip;;
      d ← inode_data dir_ip;
      if is_dir d then
        r ← lookup_inode dir_ip file_name;
        match r with
        | Some (file_ip, _) =>
            lock_inode file_ip;;
            fd ← inode_data file_ip;
            if (ty =? T_FILE) && ((id_ty fd =? T_FILE) || (id_ty fd =? T_DEVICE)) then
              unlock_inode file_ip;; release dir_ip;; mret (Ok file_ip)
            else release file_ip;; release dir_ip;; mret (Err CreateAlreadyExists)
        | None =>
            a ← inode_alloc (ti_dev dir_ip) ty;
            match a with
            | Err e => release dir_ip;; mret (Err e)
            | Ok file_ip => lock_inode file_ip;; create_locked dir_ip file_ip file_name major minor
            end
        end
      else release dir_ip;; mret (Err NonDirectoryPathComponent)
  end.

Definition link (cwd : TxInode) (old_path new_path : list byte) : M Fs (result KernelError unit) :=
  sp ← split_path new_path;
  match sp with
  | None => inode_drop cwd;; mret (Err LinkRootDir)
  | Some (new_dir_path, new_file_name) =>
      cwd' ← inode_clone cwd;
      r ← resolve cwd' old_path;
      match r with
      | Err e => inode_drop cwd;; mret (Err e)
      | Ok old_ip =>
          lock_inode old_ip;;
          d ← inode_data old_ip;
          if is_dir d then
            release old_ip;; inode_drop cwd;; mret (Err NonDirectoryPathComponent)
          else
            unlock_inode old_ip;;
            r ← resolve cwd new_dir_path;
            match r with
            | Err e => inode_drop old_ip;; mret (Err e)
            | Ok new_dir_ip =>
                lock_inode new_dir_ip;;
                dd ← inode_data new_dir_ip;
                r ← (if negb (ti_dev new_dir_ip =? ti_dev old_ip) then mret (Err LinkCrossDevices)
                     else if is_dir dd then dir_link new_dir_ip new_file_name (ti_ino old_ip)
                     else mret (Err LinkToNonDirectory));
                match r with
                | Err e => release new_dir_ip;; inode_drop old_ip;; mret (Err e)
                | Ok _ =>
                    lock_inode old_ip;;
                    modify_inode old_ip inc_nlink;;
                    update_inode old_ip;;
                    unlock_inode old_ip;;
                    release new_dir_ip;;
                    inode_drop old_ip;;
                    mret (Ok tt)
                end
            end
      end
  end.
End fs_ops.
