(* ===== verification/FsSpec.v ===== *)
(** * Path resolution

    [fs_ok] is the state of the file system between operations: the blocks, the table
    of in-memory inodes with the references that are held, the cells in step with
    the disk.  [walk] is the meaning of a path on the disk; [resolve] computes it and
    neither leaks nor loses a reference. *)

From S2P Require Import Prelude KError Pod FsTypes BlockIo Store DataBlock Inode InodeSpec Content Itable Directory Path.
From S2P Require Import FsOps.

Section fs_spec.
Context (sb : SuperBlock) (Hsb : sb_ok sb).
Context {S : Type} `{!TxStore S} `{!TxStoreLaws S}.
Abbreviation Fs := (@Fs S).
Implicit Types (v : Z → list byte) (d : InodeData) (bs : gset Z) (f : Fs) (hs : list Handle) (L D : gset positive).

(** Changing the data or the lock of a cell. *)
Lemma map_arc_wp t hs a c (g : Arc → Arc) :
  itable_inv t hs → arcs t !! a = Some c → a_strong (g c) = a_strong c → a_weak (g c) = a_weak c →
  wp (map_arc a g) (λ _ t', itable_inv t' hs ∧ arcs t' !! a = Some (g c) ∧
    ∀ b, b ≠ a → cell t' b = cell t b) t.
Proof.
  intros [H1 H2 H3 H4 H5 H6] Hc Hs Hw. rw /map_arc /get_arc. wp_step. wp_step. wp_step.
  apply (wp_unwrap _ c); [done|]. wp_step. split_and!.
  - split; simpl; [done| |done|done| |done].
    + intros i k b Hi. destruct (H2 i k b Hi) as (c' & Hb & ? & ?). destruct (decide (b = a)) as [->|].
      * exists (g c). assert (c' = c) as -> by congruence. rw lookup_insert_eq. split_and!; [done|congruence..].
      * exists c'. by rw lookup_insert_ne; [congruence|].
    + intros b. destruct (decide (b = a)) as [->|]; [intros _; apply H5; by exists c|].
      rw lookup_insert_ne; [congruence|]. apply H5.
  - by rw /= lookup_insert_eq.
  - intros b Hb. rw /cell /= lookup_insert_ne //. congruence.
Qed.

(** ** The state of the file system *)

(** Directories on disk: well-formed, and their entries name inodes with links. *)
Record tree_ok v : Prop := {
  to_dir i : 0 < i < ninodes sb → id_ty (disk_inode sb v i) = T_DIR → dir_wf sb v (disk_inode sb v i);
  to_entry i e : 0 < i < ninodes sb → id_ty (disk_inode sb v i) = T_DIR →
    e ∈ entries (file_content v (disk_inode sb v i)) → in_use e = true →
    0 < de_ino e < ninodes sb ∧ 0 < id_nlink (disk_inode sb v (de_ino e));
  to_root : 0 < ROOT_INO < ninodes sb ∧ 0 < id_nlink (disk_inode sb v ROOT_INO);
}.

(** The cell of a reference: the lock and, if it is there, the data of the disk. *)
Definition cell_ok v L D (h : Handle) (t : Itable) : Prop :=
  ∃ o, cell t h.2 = Some (o, bool_decide (h.2 ∈ L)) ∧
    (o = Some (disk_inode sb v h.1.2) ∨ o = None ∧ h.2 ∉ D).

(** The references [hs] are held, the cells in [L] are locked, those in [D] have
    their data. *)
Record fs_ok bs v L D hs f : Prop := {
  fo_store : stored bs v (fs_store f);
  fo_table : itable_inv (fs_table f) hs;
  fo_cell h : h ∈ hs → cell_ok v L D h (fs_table f);
  fo_ino h : h ∈ hs → 0 < h.1.2 < ninodes sb ∧ 0 < id_nlink (disk_inode sb v h.1.2);
}.

#[export] Instance fs_ok_proper bs v L D : Proper ((≡ₚ) ==> (=) ==> iff) (fs_ok bs v L D).
Proof.
  assert (∀ hs hs' f, hs ≡ₚ hs' → fs_ok bs v L D hs f → fs_ok bs v L D hs' f) as H.
  { intros hs hs' f E [H1 H2 H3 H4]. split; [done| | |].
    - by rewrite -E.
    - intros h. rewrite -E. apply H3.
    - intros h. rewrite -E. apply H4. }
  intros hs hs' E f _ <-. split; apply H; [done|by symmetry].
Qed.

Definition handle (ip : TxInode) : Handle := (ti_dev ip, ti_ino ip, ti_arc ip).

Lemma wp_on_table {A} (m : M Itable A) (Q : A → Fs → Prop) f :
  wp m (λ a t', Q a {| fs_store := fs_store f; fs_table := t' |}) (fs_table f) → wp (on_table m) Q f.
Proof. rw /wp /on_table /zoom. by destruct (m (fs_table f)). Qed.

Lemma wp_on_blocks {A} (m : M S A) (Q : A → Fs → Prop) f :
  wp m (λ a s', Q a {| fs_store := s'; fs_table := fs_table f |}) (fs_store f) → wp (on_blocks m) Q f.
Proof. rw /wp /on_blocks /zoom. by destruct (m (fs_store f)). Qed.

(** The cell of a held reference. *)
Lemma held_cell bs v L D hs f h :
  fs_ok bs v L D hs f → h ∈ hs → ∃ c, arcs (fs_table f) !! h.2 = Some c ∧
    a_locked c = bool_decide (h.2 ∈ L) ∧
    (a_data c = Some (disk_inode sb v h.1.2) ∨ a_data c = None ∧ h.2 ∉ D) ∧ a_strong c = refs h.2 hs.
Proof.
  intros Hok Hh. destruct (fo_cell _ _ _ _ _ _ Hok h Hh) as (o & Hc & Ho). rw /cell in Hc.
  destruct h as [k a]. simpl in *. destruct (ii_held _ _ (fo_table _ _ _ _ _ _ Hok) _ Hh) as [i Hi].
  destruct (ii_entry _ _ (fo_table _ _ _ _ _ _ Hok) i k a Hi) as (c & Ec & _ & Es). exists c.
  rw Ec /= in Hc. injection Hc as <- <-. done.
Qed.

(** Two references to one cell name the same inode. *)
Lemma held_same bs v L D hs f h1 h2 :
  fs_ok bs v L D hs f → h1 ∈ hs → h2 ∈ hs → h1.2 = h2.2 → h1.1 = h2.1.
Proof.
  intros Hok H1 H2. destruct h1 as [k1 a], h2 as [k2 b]. simpl. intros <-.
  pose proof (fo_table _ _ _ _ _ _ Hok) as HI.
  destruct (ii_held _ _ HI _ H1) as [i Hi], (ii_held _ _ HI _ H2) as [j Hj].
  assert (i = j) as <- by (apply (ii_arc _ _ HI i j k1 a Hi); by exists k2). congruence.
Qed.

(** Changing the cell of a held reference. *)
Lemma map_arc_ok bs v L D L' D' hs f h g c (Q : unit → Fs → Prop) :
  fs_ok bs v L D hs f → h ∈ hs → arcs (fs_table f) !! h.2 = Some c →
  a_strong (g c) = a_strong c → a_weak (g c) = a_weak c →
  a_locked (g c) = bool_decide (h.2 ∈ L') → (∀ b, b ≠ h.2 → b ∈ L' ↔ b ∈ L) → (∀ b, b ≠ h.2 → b ∈ D' → b ∈ D) →
  (a_data (g c) = Some (disk_inode sb v h.1.2) ∨ a_data (g c) = None ∧ h.2 ∉ D') →
  (∀ f', fs_ok bs v L' D' hs f' → arcs (fs_table f') !! h.2 = Some (g c) → Q tt f') →
  wp (on_table (map_arc h.2 g)) Q f.
Proof.
  intros Hok Hh Hc Hs Hw Hlk HL HD Hd HQ. apply wp_on_table.
  eapply wp_mono; [exact (map_arc_wp _ hs h.2 c g (fo_table _ _ _ _ _ _ Hok) Hc Hs Hw)|].
  intros [] t' (HI & Ha & Hoth). apply HQ; [|done]. destruct (Hok) as [H1 H2 H3 H4]. split; [done..| |done].
  intros h' Hh'. rw /cell_ok /=. destruct (decide (h'.2 = h.2)) as [E|E].
  - exists (a_data (g c)). rw E /cell Ha /= Hlk. split; [done|]. by rw (held_same bs v L D hs f h' h).
  - destruct (H3 h' Hh') as (o & Hcell & Ho). exists o. rw Hoth // Hcell. split.
    + do 2 f_equal. apply bool_decide_ext. by rw HL.
    + destruct Ho as [?|[? ?]]; [by left|right]. split; [done|]. intros Hx. by apply HD in Hx.
Qed.

(** ** References and locks *)

Lemma fs_ok_table bs v L D hs hs' f t' :
  fs_ok bs v L D hs f → itable_inv t' hs' → (∀ h, h ∈ hs' → cell_ok v L D h t') →
  (∀ h, h ∈ hs' → 0 < h.1.2 < ninodes sb ∧ 0 < id_nlink (disk_inode sb v h.1.2)) →
  fs_ok bs v L D hs' {| fs_store := fs_store f; fs_table := t' |}.
Proof. by intros [H1 H2 H3 H4]. Qed.

Lemma clone_wp bs v L D hs f h :
  fs_ok bs v L D hs f → h ∈ hs → wp (on_table (arc_clone h.2)) (λ _, fs_ok bs v L D (h :: hs)) f.
Proof.
  intros Hok Hh. apply wp_on_table. destruct h as [k a].
  eapply wp_mono; [exact (arc_clone_wp _ hs k a (fo_table _ _ _ _ _ _ Hok) Hh)|].
  intros [] t' (HI & _ & Hc). apply (fs_ok_table bs v L D hs); [done..| |].
  - intros h Hin. rw /cell_ok Hc. apply (fo_cell _ _ _ _ _ _ Hok). by apply elem_of_cons in Hin as [->|?].
  - intros h Hin. apply (fo_ino _ _ _ _ _ _ Hok). by apply elem_of_cons in Hin as [->|?].
Qed.

Lemma arc_drop_ok bs v L D hs f h :
  fs_ok bs v L D (h :: hs) f → wp (on_table (arc_drop h.2)) (λ _, fs_ok bs v L D hs) f.
Proof.
  intros Hok. apply wp_on_table. destruct h as [k a].
  eapply wp_mono; [exact (arc_drop_wp _ hs k a (fo_table _ _ _ _ _ _ Hok))|].
  intros [] t' (HI & _ & Hc). apply (fs_ok_table bs v L D ((k, a) :: hs)); [done..| |].
  - intros h Hin. rw /cell_ok Hc //. apply (fo_cell _ _ _ _ _ _ Hok). by right.
  - intros h Hin. apply (fo_ino _ _ _ _ _ _ Hok). by right.
Qed.

Lemma locked_data bs v L D hs f h c :
  fs_ok bs v L D hs f → h ∈ hs → h.2 ∈ D → arcs (fs_table f) !! h.2 = Some c →
  a_data c = Some (disk_inode sb v h.1.2).
Proof.
  intros Hok Hh HL Hc. destruct (held_cell bs v L D hs f h Hok Hh) as (c' & Hc' & _ & [?|[_ ?]] & _); [|done].
  congruence.
Qed.

Lemma get_arc_ok bs v L D hs f h (Q : Arc → Fs → Prop) :
  fs_ok bs v L D hs f → h ∈ hs →
  (∀ c, arcs (fs_table f) !! h.2 = Some c → a_locked c = bool_decide (h.2 ∈ L) →
    (a_data c = Some (disk_inode sb v h.1.2) ∨ a_data c = None ∧ h.2 ∉ D) → a_strong c = refs h.2 hs → Q c f) →
  wp (on_table (get_arc h.2)) Q f.
Proof.
  intros Hok Hh HQ. destruct (held_cell bs v L D hs f h Hok Hh) as (c & Hc & Hlk & Hd & Hs).
  apply wp_on_table. rw /get_arc. wp_step. wp_step. apply (wp_unwrap _ c); [done|].
  destruct f as [s t]. by apply HQ.
Qed.

(** The data of a locked inode is read from disk when it is not there. *)
Lemma locked_new_wp bs v L D hs f ip :
  fs_ok bs v L D hs f → handle ip ∈ hs →
  wp (locked_new sb ip) (λ _, fs_ok bs v L ({[ti_arc ip]} ∪ D) hs) f.
Proof.
  intros Hok Hh. rw /locked_new. wp_step. apply (get_arc_ok bs v L D hs f (handle ip) _ Hok Hh).
  intros c Hc Hlk Hd _. simpl in *.
  assert (∀ f', fs_ok bs v L D hs f' → arcs (fs_table f') !! ti_arc ip = Some c →
    wp (on_table (map_arc (ti_arc ip) (with_data (Some (disk_inode sb v (ti_ino ip))))))
      (λ _, fs_ok bs v L ({[ti_arc ip]} ∪ D) hs) f') as Hset.
  { intros f' Hok' Hc'. apply (map_arc_ok bs v L D L ({[ti_arc ip]} ∪ D) hs f' (handle ip) _ c);
      [done..| |by left|by intros ? ? _]. simpl. set_solver. }
  destruct (a_data c) as [d|] eqn:Ed.
  - wp_step. destruct Hd as [[= ->]|[? _]]; [|done]. destruct Hok as [H1 H2 H3 H4]. split; [done..| |done].
    intros h Hin. destruct (H3 h Hin) as (o & Hcell & Ho). exists o. split; [done|].
    destruct (decide (h.2 = ti_arc ip)) as [E|]; [|destruct Ho as [?|[? ?]]; [by left|right; split; [done|set_solver]]].
    left. rw E /cell Hc /= Ed in Hcell. injection Hcell as <- _.
    by rw (held_same bs v L D hs f h (handle ip) (Build_fs_ok _ _ _ _ _ _ H1 H2 H3 H4) Hin Hh E).
  - wp_step. apply wp_on_blocks.
    eapply wp_mono; [exact (stored_read bs v (fs_store f) (inode_block sb (ti_ino ip)) (fo_store _ _ _ _ _ _ Hok))|].
    intros b s' [-> Hst']. apply Hset; [|done]. destruct Hok. by split.
Qed.

(** Taking the lock: one more reference, for the guard, and the data in memory. *)
Lemma lock_inode_wp bs v L D hs f ip :
  fs_ok bs v L D hs f → handle ip ∈ hs → ti_arc ip ∉ L →
  wp (lock_inode sb ip) (λ _, fs_ok bs v ({[ti_arc ip]} ∪ L) ({[ti_arc ip]} ∪ D) (handle ip :: hs)) f.
Proof.
  intros Hok Hh HL. rw /lock_inode. wp_step. apply (get_arc_ok bs v L D hs f (handle ip) _ Hok Hh).
  intros c Hc Hlk Hd _. simpl in *. wp_step. apply wp_assert; [by rw Hlk bool_decide_false|]. wp_step.
  apply (map_arc_ok bs v L D ({[ti_arc ip]} ∪ L) D hs f (handle ip) _ c); [done..| | |done|done|].
  { simpl. rw bool_decide_true //. set_solver. } { simpl. set_solver. }
  intros f1 Hok1 _. wp_step. eapply wp_mono; [exact (clone_wp bs v _ D hs f1 (handle ip) Hok1 Hh)|].
  intros ? f2 Hok2. apply locked_new_wp; [done|left].
Qed.

(** The guard goes away: the lock and its reference. *)
Lemma unlock_inode_wp bs v L D hs f ip :
  fs_ok bs v L D (handle ip :: hs) f → handle ip ∈ hs →
  wp (unlock_inode ip) (λ _, fs_ok bs v (L ∖ {[ti_arc ip]}) D hs) f.
Proof.
  intros Hok Hh. rw /unlock_inode. wp_step.
  eapply wp_mono; [exact (arc_drop_ok bs v L D hs f (handle ip) Hok)|]. intros ? f1 Hok1.
  destruct (held_cell bs v L D hs f1 (handle ip) Hok1 Hh) as (c & Hc & Hlk & Hd & _).
  apply (map_arc_ok bs v L D (L ∖ {[ti_arc ip]}) D hs f1 (handle ip) _ c); [done..| | |done|done|by intros ? ? _].
  - simpl. rw bool_decide_false //. set_solver.
  - simpl. set_solver.
Qed.

(** An operation that only reads the locked inode. *)
Lemma on_inode_read bs v L D hs f ip {A} (m : M (@Locked S) A) (Q : A → Prop) :
  fs_ok bs v L D hs f → handle ip ∈ hs → ti_arc ip ∈ D →
  (∀ l, locked bs v (disk_inode sb v (ti_ino ip)) l →
    wp m (λ a l', Q a ∧ locked bs v (disk_inode sb v (ti_ino ip)) l') l) →
  wp (on_inode ip m) (λ a f', Q a ∧ fs_ok bs v L D hs f') f.
Proof.
  intros Hok Hh HD Hm. rw /on_inode. wp_step. apply (get_arc_ok bs v L D hs f (handle ip) _ Hok Hh).
  intros c Hc Hlk Hd _. simpl in *. destruct Hd as [Hd|[_ ?]]; [|done].
  wp_step. apply (wp_unwrap _ (disk_inode sb v (ti_ino ip))); [done|]. wp_step. wp_step.
  destruct (wp_run _ _ _ (Hm {| lk_store := fs_store f; lk_data := disk_inode sb v (ti_ino ip) |}
    (conj (fo_store _ _ _ _ _ _ Hok) eq_refl))) as (a & [s' d'] & -> & HQ & [Hst' Hd']).
  simpl in Hst', Hd'. subst d'. wp_step. wp_step. wp_step.
  assert (fs_ok bs v L D hs {| fs_store := s'; fs_table := fs_table f |}) as Hok1 by by destruct Hok.
  apply (map_arc_ok bs v L D L D hs _ (handle ip) _ c); [done..|by left|].
  intros f' Hok' _. by wp_step.
Qed.

Lemma fs_ok_less bs v L D D' hs f : fs_ok bs v L D hs f → D' ⊆ D → fs_ok bs v L D' hs f.
Proof.
  intros [H1 H2 H3 H4] HD. split; [done..| |done]. intros h Hh. destruct (H3 h Hh) as (o & ? & Ho).
  exists o. split; [done|]. destruct Ho as [?|[? ?]]; [by left|right]. set_solver.
Qed.

(** The sets of locked cells only name cells in use. *)
Definition in_refs (L : gset positive) hs : Prop := ∀ a, a ∈ L → ∃ k, (k, a) ∈ hs.

Lemma in_refs_empty hs : in_refs ∅ hs.
Proof. intros a Ha. set_solver. Qed.

Lemma inode_get_wp bs v L D hs f dev ino :
  fs_ok bs v L D hs f → in_refs L hs → in_refs D hs →
  0 < ino < ninodes sb → 0 < id_nlink (disk_inode sb v ino) → (size (held hs) < Z.to_nat NINODE)%nat →
  wp (inode_get dev ino) (λ ip f', ti_dev ip = dev ∧ ti_ino ip = ino ∧ fs_ok bs v L D (handle ip :: hs) f') f.
Proof.
  intros Hok HL HD Hi Hn Hsz. rw /inode_get. wp_step. apply wp_on_table.
  eapply wp_mono; [exact (get_or_insert_wp dev ino hs _ (fo_table _ _ _ _ _ _ Hok))|].
  intros [a|e] t' [Hk Hr]; [|destruct Hr as (_ & _ & _ & ?); lia]. destruct Hr as [HI Hcell].
  wp_step. rw /unwrap_ok. wp_step. wp_step. split_and!; [done..|]. apply (fs_ok_table bs v L D hs); [done..| |].
  - assert (∀ h, h ∈ hs → cell_ok v L D h t') as Hold.
    { intros h Hh. rw /cell_ok Hk //. by apply (fo_cell _ _ _ _ _ _ Hok). }
    intros h [->|Hh]%elem_of_cons; [|by apply Hold].
    destruct (decide (0 < refs a hs)%nat) as [[k Hin]%refs_pos|Hno%(not_iff_compat (refs_pos a hs))].
    + assert (k = (dev, ino)) as ->; [|by apply Hold].
      destruct (ii_held _ _ HI (dev, ino, a)) as [i1 Hi1]; [left|]. destruct (ii_held _ _ HI (k, a)) as [i2 Hi2]; [by right|].
      assert (i1 = i2) as <- by (apply (ii_arc _ _ HI i1 i2 _ a Hi1); by exists k). congruence.
    + destruct Hcell as [?|Hcell]; [done|]. exists None. simpl. rw Hcell. split.
      * f_equal. f_equal. rw bool_decide_false //. by intros ?%HL.
      * right. split; [done|]. by intros ?%HD.
  - intros h [->|Hh]%elem_of_cons; [done|by apply (fo_ino _ _ _ _ _ _ Hok)].
Qed.

Lemma inode_data_wp bs v L D hs f ip :
  fs_ok bs v L D hs f → handle ip ∈ hs → ti_arc ip ∈ D →
  wp (inode_data ip) (λ d f', d = disk_inode sb v (ti_ino ip) ∧ fs_ok bs v L D hs f') f.
Proof.
  intros Hok Hh HD. apply (on_inode_read bs v L D hs f ip _ _ Hok Hh HD).
  intros l Hl. wp_step. split; [apply Hl|done].
Qed.

(** Dropping a reference to an inode with links changes nothing else. *)
Lemma inode_drop_wp bs v L D hs f ip :
  fs_ok bs v L D (handle ip :: hs) f → in_refs L hs → wp (inode_drop sb ip) (λ _, fs_ok bs v L D hs) f.
Proof.
  intros Hok HL. rw /inode_drop. wp_step. rw /strong_count.
  destruct (held_cell bs v L D _ f (handle ip) Hok) as (c & Hc & _ & _ & Hs); [left|].
  assert (wp (on_table (c ← get_arc (ti_arc ip); mret (a_strong c))) (λ n f', n = refs (ti_arc ip) (handle ip :: hs) ∧
    f' = f) f) as Hn.
  { apply wp_on_table. wp_step. rw /get_arc. wp_step. wp_step. apply (wp_unwrap _ c); [done|]. wp_step.
    split; [done|]. by destruct f. }
  eapply wp_mono; [exact Hn|]. intros n f' [-> ->]. wp_step.
  apply wp_mono with (Q := λ _, fs_ok bs v L D (handle ip :: hs));
    [|intros ? f2 Hok2; exact (arc_drop_ok bs v L D hs f2 (handle ip) Hok2)].
  case_decide as Hlt; [by wp_step|].
  assert (ti_arc ip ∉ L) as Hnl.
  { intros [k Hk]%HL. apply Hlt. rw arc_refs_cons decide_True //. assert (0 < refs (ti_arc ip) hs)%nat; [|lia].
    apply refs_pos. by exists k. }
  wp_step. eapply wp_mono; [apply (lock_inode_wp bs v L D _ f ip Hok); [left|done]|]. intros ? f1 Hok1.
  wp_step. eapply wp_mono; [apply (inode_data_wp _ _ _ _ _ f1 ip Hok1); [left|set_solver]|].
  intros d f2 [-> Hok2]. destruct (fo_ino _ _ _ _ _ _ Hok (handle ip)) as [_ Hnl']; [left|]. simpl in Hnl'.
  rw (proj2 (Z.ltb_lt _ _) Hnl'). wp_step. wp_step.
  eapply wp_mono; [apply (unlock_inode_wp _ _ _ _ _ f2 ip Hok2); left|]. intros ? f3 Hok3.
  apply (fs_ok_less _ _ _ ({[ti_arc ip]} ∪ D)); [|set_solver].
  by replace (({[ti_arc ip]} ∪ L) ∖ {[ti_arc ip]}) with L in Hok3 by set_solver.
Qed.

(** ** Path resolution *)

(** The inode a list of components denotes, from the inode [i]. *)
Fixpoint walk v (i : Z) (comps : list Component) : result KernelError Z :=
  match comps with
  | [] => Ok i
  | c :: comps' =>
      let d := disk_inode sb v i in
      if is_dir d then
        match dir_lookup (entries (file_content v d)) (as_os_str c) with
        | Some (j, _) => walk v j comps'
        | None => Err FsEntryNotFound
        end
      else Err NonDirectoryPathComponent
  end.

Lemma held_cons_size h hs : (size (held (h :: hs)) ≤ Datatypes.S (size (held hs)))%nat.
Proof.
  rw /held fmap_cons list_to_set_cons size_union_alt size_singleton.
  pose proof (subseteq_size (list_to_set hs.*1 ∖ {[h.1]} : gset (Z * Z)) (list_to_set hs.*1)). set_solver by lia.
Qed.

Lemma held_twice h hs : held (h :: h :: hs) = held (h :: hs).
Proof. rw /held !fmap_cons !list_to_set_cons. set_solver. Qed.

Lemma release_wp bs v hs f ip :
  fs_ok bs v ({[ti_arc ip]} ∪ ∅) ({[ti_arc ip]} ∪ ∅) (handle ip :: handle ip :: hs) f →
  wp (release sb ip) (λ _, fs_ok bs v ∅ ∅ hs) f.
Proof.
  intros Hok. rw /release. wp_step. eapply wp_mono; [apply (unlock_inode_wp _ _ _ _ _ f ip Hok); left|].
  intros ? f1 Hok1. replace (({[ti_arc ip]} ∪ ∅) ∖ {[ti_arc ip]}) with (∅ : gset positive) in Hok1 by set_solver.
  apply inode_drop_wp; [|apply in_refs_empty]. by apply (fs_ok_less _ _ _ ({[ti_arc ip]} ∪ ∅)).
Qed.

(** [lookup] on a locked directory. *)
Lemma lookup_inode_wp bs v hs f ip name :
  tree_ok v → fs_ok bs v ({[ti_arc ip]} ∪ ∅) ({[ti_arc ip]} ∪ ∅) (handle ip :: handle ip :: hs) f →
  is_dir (disk_inode sb v (ti_ino ip)) = true → (Datatypes.S (size (held hs)) < Z.to_nat NINODE)%nat →
  wp (lookup_inode sb ip name) (λ r f',
    match dir_lookup (entries (file_content v (disk_inode sb v (ti_ino ip)))) name with
    | Some (j, off) => ∃ next, r = Some (next, off) ∧ ti_ino next = j ∧ ti_dev next = ti_dev ip ∧
        fs_ok bs v ({[ti_arc ip]} ∪ ∅) ({[ti_arc ip]} ∪ ∅) (handle next :: handle ip :: handle ip :: hs) f'
    | None => r = None ∧ fs_ok bs v ({[ti_arc ip]} ∪ ∅) ({[ti_arc ip]} ∪ ∅) (handle ip :: handle ip :: hs) f'
    end) f.
Proof.
  intros Ht Hok Hdir Hsz. rw /lookup_inode. wp_step. set (d := disk_inode sb v (ti_ino ip)) in *.
  destruct (fo_ino _ _ _ _ _ _ Hok (handle ip)) as [Hi _]; [left|]. simpl in Hi.
  assert (id_ty d = T_DIR) as Hty by by apply Z.eqb_eq.
  eapply wp_mono; [apply (on_inode_read _ _ _ _ _ f ip _ (λ r, r = dir_lookup (entries (file_content v d)) name) Hok);
    [left|set_solver|]|].
  { intros l Hl. apply lookup_entry_wp; [done|]. by apply (to_dir _ Ht). }
  intros r f1 [-> Hok1]. destruct (dir_lookup _ name) as [[j off]|] eqn:E; [|by wp_step].
  rw /dir_lookup in E. destruct (list_find _ _) as [[n e]|] eqn:Ef; [|done]. simpl in E. injection E as <- <-.
  apply list_find_Some in Ef as (Hn & Hm & _). apply andb_true_iff in Hm as [Hu _].
  destruct (to_entry _ Ht (ti_ino ip) e Hi Hty) as [Hj Hnl]; [by apply list_elem_of_lookup_2 in Hn|done|].
  assert (in_refs ({[ti_arc ip]} ∪ ∅) (handle ip :: handle ip :: hs)) as Hr.
  { intros a Ha. assert (a = ti_arc ip) as -> by set_solver. exists (ti_dev ip, ti_ino ip). left. }
  wp_step. eapply wp_mono; [apply (inode_get_wp _ _ _ _ _ f1 (ti_dev ip) (de_ino e) Hok1 Hr Hr Hj Hnl)|].
  { rw held_twice. pose proof (held_cons_size (handle ip) hs). lia. }
  intros next f2 (Hd & Hn' & Hok2). wp_step. by exists next.
Qed.

Lemma resolve_from_wp bs v hs comps ip f :
  tree_ok v → fs_ok bs v ∅ ∅ (handle ip :: hs) f → (Datatypes.S (size (held hs)) < Z.to_nat NINODE)%nat →
  wp (resolve_from sb ip comps) (λ r f',
    match r with
    | Ok ip' => walk v (ti_ino ip) comps = Ok (ti_ino ip') ∧ ti_dev ip' = ti_dev ip ∧ fs_ok bs v ∅ ∅ (handle ip' :: hs) f'
    | Err e => walk v (ti_ino ip) comps = Err e ∧ fs_ok bs v ∅ ∅ hs f'
    end) f.
Proof.
  intros Ht Hok Hsz. revert ip f Hok. induction comps as [|c comps IH]; intros ip f Hok; cbn [resolve_from walk].
  { by wp_step. }
  wp_step. eapply wp_mono; [apply (lock_inode_wp _ _ _ _ _ f ip Hok); [left|set_solver]|]. intros ? f1 Hok1.
  wp_step. eapply wp_mono; [apply (inode_data_wp _ _ _ _ _ f1 ip Hok1); [left|set_solver]|]. intros d f2 [-> Hok2].
  destruct (is_dir (disk_inode sb v (ti_ino ip))) eqn:Hdir; last first.
  { wp_step. eapply wp_mono; [exact (release_wp bs v hs f2 ip Hok2)|]. intros ? f3 Hok3. by wp_step. }
  wp_step. eapply wp_mono; [exact (lookup_inode_wp bs v hs f2 ip (as_os_str c) Ht Hok2 Hdir Hsz)|].
  intros r f3. destruct (dir_lookup _ _) as [[j off]|].
  - intros (next & -> & <- & Hdev & Hok3). wp_step.
    eapply wp_mono; [apply (release_wp bs v (handle next :: hs) f3 ip)|].
    { assert (handle ip :: handle ip :: handle next :: hs ≡ₚ handle next :: handle ip :: handle ip :: hs) as Hp by solve_Permutation.
      by rewrite Hp. }
    intros ? f4 Hok4. eapply wp_mono; [exact (IH next f4 Hok4)|]. intros [ip'|e] f5; [|done]. by rw Hdev.
  - intros [-> Hok3]. wp_step. eapply wp_mono; [exact (release_wp bs v hs f3 ip Hok3)|]. intros ? f4 Hok4. by wp_step.
Qed.

(** Where a path starts and what follows. *)
Definition path_start (cwd : Z) (path : list byte) : Z := if is_absolute path then ROOT_INO else cwd.
Definition path_rest (path : list byte) : list Component := omap component_of (segments path).

Lemma path_rest_head path comps : path_rest path ≠ RootDir :: comps.
Proof.
  rw /path_rest. induction (segments path) as [|s ss IH]; simpl; [done|].
  rw {1}/component_of. repeat case_decide; done.
Qed.

(** C14: [resolve] finds the inode the path denotes on the disk, walking the directories
    from the root or the current directory, or reports the component that does not
    exist or is not a directory.  It does not change the disk, it takes over the
    reference to the current directory and returns one to the inode found, and every
    other reference, lock and cell is as before.  No inode is locked when it begins, the
    inodes that are held have a link, and the table of inodes has two free entries. *)
Theorem resolve_walk bs v hs cwd path f :
  tree_ok v → fs_ok bs v ∅ ∅ (handle cwd :: hs) f → (2 + size (held hs) < Z.to_nat NINODE)%nat →
  wp (resolve sb cwd path) (λ r f',
    match r with
    | Ok ip => walk v (path_start (ti_ino cwd) path) (path_rest path) = Ok (ti_ino ip) ∧
        fs_ok bs v ∅ ∅ (handle ip :: hs) f'
    | Err e => walk v (path_start (ti_ino cwd) path) (path_rest path) = Err e ∧ fs_ok bs v ∅ ∅ hs f'
    end) f.
Proof.
  intros Ht Hok Hsz. rw /resolve. destruct (collect_components path) as [c Ec].
  wp_step. apply (wp_unwrap _ (path_components path, c)); [done|]. rw /path_components /path_start. fold (path_rest path).
  destruct (is_absolute path); simpl.
  - pose proof (held_cons_size (handle cwd) hs). wp_step. rw /inode_root.
    destruct (to_root _ Ht) as [Hr1 Hr2].
    eapply wp_mono; [apply (inode_get_wp _ _ _ _ _ f ROOT_DEV ROOT_INO Hok (in_refs_empty _) (in_refs_empty _) Hr1 Hr2); lia|].
    intros ip f1 (_ & Hino & Hok1). wp_step.
    eapply wp_mono; [apply (resolve_from_wp bs v (handle cwd :: hs) (path_rest path) ip f1 Ht Hok1); lia|].
    rw Hino. intros [ip'|e] f2.
    + intros (Hw & _ & Hok2). wp_step.
      eapply wp_mono; [apply (inode_drop_wp bs v ∅ ∅ (handle ip' :: hs) f2 cwd); [|apply in_refs_empty]|].
      { assert (handle cwd :: handle ip' :: hs ≡ₚ handle ip' :: handle cwd :: hs) as Hp by solve_Permutation. by rewrite Hp. }
      intros ? f3 Hok3. by wp_step.
    + intros [Hw Hok2]. wp_step. eapply wp_mono; [exact (inode_drop_wp bs v ∅ ∅ hs f2 cwd Hok2 (in_refs_empty _))|].
      intros ? f3 Hok3. by wp_step.
  - assert (wp (resolve_from sb cwd (path_rest path)) (λ r f',
      match r with
      | Ok ip => walk v (ti_ino cwd) (path_rest path) = Ok (ti_ino ip) ∧ fs_ok bs v ∅ ∅ (handle ip :: hs) f'
      | Err e => walk v (ti_ino cwd) (path_rest path) = Err e ∧ fs_ok bs v ∅ ∅ hs f'
      end) f) as H.
    { eapply wp_mono; [apply (resolve_from_wp bs v hs (path_rest path) cwd f Ht Hok); lia|].
      intros [ip|e] f1; [by intros (? & _ & ?)|done]. }
    pose proof (path_rest_head path) as Hh. destruct (path_rest path) as [|[| | |s] comps]; try exact H. by destruct (Hh comps).
Qed.
End fs_spec.

Module Example.
Import PlainDisk SmallDisk.

Definition d1 : InodeData := from_repr root_inode.

Lemma root_dir_wf : dir_wf small_sb v0 d1.
Proof.
  split; [|by apply (one_block_mapped v0 d1 8)|done].
  apply (one_block_wf v0 d1 8); [done|vm_compute; intuition discriminate..].
Qed.

Lemma only_root_dir i : 0 < i < 16 → id_ty (disk_inode small_sb v0 i) = T_DIR → i = 1.
Proof.
  assert (forallb (λ i, (i =? 1) || negb (id_ty (disk_inode small_sb v0 i) =? T_DIR)) (seqZ 1 15) = true) as H
    by (vm_compute; done).
  intros Hi Ht. rw forallb_forall in H. specialize (H i). rw Ht Z.eqb_refl orb_false_r in H.
  apply Z.eqb_eq, H, list_elem_of_In, elem_of_seqZ. lia.
Qed.

Lemma tree0 : tree_ok small_sb v0.
Proof.
  assert (disk_inode small_sb v0 1 = d1) as E1 by (vm_compute; done). split.
  - intros i Hi ->%only_root_dir; [|done]. rw E1. apply root_dir_wf.
  - intros i e Hi ->%only_root_dir; [|done]. rw E1.
    assert (forallb (λ e, negb (in_use e) || ((0 <? de_ino e) && (de_ino e <? 16) &&
      (0 <? id_nlink (disk_inode small_sb v0 (de_ino e))))) (entries (file_content v0 d1)) = true) as H
      by (vm_compute; done).
    intros He Hu. rw forallb_forall in H. apply list_elem_of_In in He. specialize (H e He). rw Hu /= in H.
    apply andb_true_iff in H as [[H1%Z.ltb_lt H2%Z.ltb_lt]%andb_true_iff H3%Z.ltb_lt]. done.
  - rw E1. done.
Qed.

Definition fs0 : @Fs PlainDisk.t := {| fs_store := disk0; fs_table := itable_new |}.

Lemma fs0_ok : fs_ok small_sb all_blocks v0 ∅ ∅ [] fs0.
Proof. split; [apply locked0|apply itable_new_inv|set_solver..]. Qed.

Lemma resolve_walk_witness :
  ∃ cwd f, ti_ino cwd = 1 ∧ wp (resolve small_sb cwd (SLASH :: hello)) (λ r f',
    match r with
    | Ok ip => Ok 3 = Ok (E := KernelError) (ti_ino ip) ∧ fs_ok small_sb all_blocks v0 ∅ ∅ [handle ip] f'
    | Err e => Ok 3 = Err e ∧ fs_ok small_sb all_blocks v0 ∅ ∅ [] f'
    end) f.
Proof.
  destruct (to_root _ _ tree0) as [Hr1 Hr2].
  destruct (wp_run _ _ _ (inode_get_wp small_sb all_blocks v0 ∅ ∅ [] fs0 ROOT_DEV ROOT_INO fs0_ok
    (in_refs_empty _ small_sb_ok []) (in_refs_empty _ small_sb_ok []) Hr1 Hr2 ltac:(vm_compute; lia))) as (cwd & f & _ & Hd & Hi & Hok).
  exists cwd, f. split; [done|].
  assert (walk small_sb v0 (path_start (ti_ino cwd) (SLASH :: hello)) (path_rest (SLASH :: hello)) = Ok 3) as Hw
    by (rw Hi; vm_compute; done).
  rw -Hw. apply (resolve_walk small_sb small_sb_ok all_blocks v0 [] cwd (SLASH :: hello) f tree0 Hok). vm_compute. lia.
Defined.
End Example.
