(* ===== verification/Slab.v ===== *)
(** * The slab allocator

    Model of [crates/kernel/slab_allocator/src/lib.rs]: a free list that is threaded through the free slots themselves.
    Memory is what the slots hold as a [Run], the address of the next free slot; who has a slot may overwrite it. *)

From stdpp Require Import base gmap list ssreflect.
From S2P Require Import Prelude.

Section slab.
(** Size and alignment of the slots, as the compile-time assertions require them. *)
Context (size align : Z).

Record SlabAllocator : Type := {
  sb_start : Z;
  sb_end : Z;
  sb_free_list : option Z;
  sb_mem : gmap Z (option Z);
}.
Definition set_free (o : option Z) (s : SlabAllocator) : SlabAllocator :=
  {| sb_start := sb_start s; sb_end := sb_end s; sb_free_list := o; sb_mem := sb_mem s |}.
Definition write_run (p : Z) (next : option Z) (s : SlabAllocator) : SlabAllocator :=
  {| sb_start := sb_start s; sb_end := sb_end s; sb_free_list := sb_free_list s; sb_mem := <[p := next]> (sb_mem s) |}.

(** The loop of [new] over [n] slots, from the last one down. *)
Fixpoint thread_slots (n : nat) (p : Z) : M SlabAllocator unit :=
  match n with
  | O => mret tt
  | S n =>
      let p := p - size in
      assert_ (negb (p =? 0));;
      f ← gets sb_free_list;
      modify (write_run p f);;
      modify (set_free (Some p));;
      thread_slots n p
  end.
(** [SlabAllocator::new]. *)
Definition slab_new (start end_ : Z) : M SlabAllocator unit :=
  assert_ (start mod align =? 0);;
  assert_ (end_ mod align =? 0);;
  assert_ ((end_ - start) mod size =? 0);;
  put {| sb_start := start; sb_end := end_; sb_free_list := None; sb_mem := ∅ |};;
  thread_slots (Z.to_nat ((end_ - start) / size)) end_.
(** [SlabAllocator::allocate]; a slot of the free list holds a [Run]. *)
Definition slab_allocate : M SlabAllocator (option Z) :=
  f ← gets sb_free_list;
  match f with
  | None => mret None
  | Some ptr =>
      mem ← gets sb_mem;
      next ← unwrap (mem !! ptr);
      modify (set_free next);;
      mret (Some ptr)
  end.
(** [SlabAllocator::deallocate]. *)
Definition slab_deallocate (ptr : Z) : M SlabAllocator unit :=
  s ← get;
  assert_ ((sb_start s <=? ptr) && (ptr <? sb_end s));;
  assert_ (ptr mod align =? 0);;
  modify (write_run ptr (sb_free_list s));;
  modify (set_free (Some ptr)).

(** ** The free list *)

Fixpoint chain (mem : gmap Z (option Z)) (f : option Z) (l : list Z) : Prop :=
  match l with
  | [] => f = None
  | p :: l => f = Some p ∧ ∃ next, mem !! p = Some next ∧ chain mem next l
  end.
(** The slots of the slab, those that are [free] in order, and those that are [used]. *)
Definition slot (s : SlabAllocator) (p : Z) : Prop :=
  sb_start s ≤ p ∧ p + size ≤ sb_end s ∧ ∃ k, p = sb_start s + k * size.
Definition slab_ok (s : SlabAllocator) (free used : list Z) : Prop :=
  chain (sb_mem s) (sb_free_list s) free ∧ NoDup (free ++ used) ∧ (∀ p, p ∈ free ++ used ↔ slot s p).

Lemma chain_insert mem f l p next : p ∉ l → chain mem f l → chain (<[p := next]> mem) f l.
Proof.
  revert f. induction l as [|q l IH]; intros f; [done|]. intros [Hq Hl]%not_elem_of_cons [-> (n & Hn & Hc)]. split; [done|].
  exists n. by rewrite lookup_insert_ne //; auto.
Qed.

(** A slot that was allocated is none of those in use and was free; the allocation fails only when none is free. *)
Lemma slab_allocate_wp s free used :
  slab_ok s free used →
  wp slab_allocate (λ r s', match r with
    | Some p => ∃ free', free = p :: free' ∧ p ∉ used ∧ slot s p ∧ slab_ok s' free' (p :: used) ∧ sb_mem s' = sb_mem s
    | None => free = [] ∧ s' = s
    end) s.
Proof.
  intros (Hc & Hnd & Hs). rw /slab_allocate. apply wp_bind, wp_gets. destruct free as [|p free]; simpl in Hc; [by rewrite Hc; apply wp_ret|].
  destruct Hc as [-> (next & Hn & Hc)]. apply wp_bind, wp_gets, wp_bind, (wp_unwrap _ _ _ _ Hn), wp_bind, wp_modify, wp_ret.
  exists free. assert (p ∉ free ++ used) as [_ Hu]%not_elem_of_app by (by apply NoDup_cons in Hnd as [? _]).
  split; [done|]. split; [done|]. split; [by apply Hs; left|]. split; [|done]. split; [done|].
  assert (p :: free ++ used ≡ₚ free ++ p :: used) as Hperm by by rewrite Permutation_middle. split; [by rewrite -Hperm|].
  intros q. by rewrite -Hperm (Hs q).
Qed.
(** A slot in use can be given back, and is the next one to be allocated. *)
Lemma slab_deallocate_wp s free used p :
  0 < align → sb_start s mod align = 0 → size mod align = 0 → 0 < size → slab_ok s free used → p ∈ used →
  wp (slab_deallocate p) (λ _ s', slab_ok s' (p :: free) (filter (λ q, q ≠ p) used)) s.
Proof.
  intros Ha Hst Hsz Hsp (Hc & Hnd & Hs) Hp. assert (slot s p) as (H1 & H2 & k & Hk) by (apply Hs, elem_of_app; by right).
  rw /slab_deallocate. apply wp_bind, wp_get, wp_bind, wp_assert; [apply andb_true_iff; split; [by apply Z.leb_le|apply Z.ltb_lt; lia]|].
  apply wp_bind, wp_assert.
  { apply Z.eqb_eq, Z.mod_divide; [lia|]. rewrite Hk. apply Z.divide_add_r; [apply Z.mod_divide; [lia|done]|].
    apply Z.divide_mul_r, Z.mod_divide; [lia|done]. }
  apply wp_bind, wp_modify, wp_modify. apply NoDup_app in Hnd as (Hnf & Hdis & Hnu).
  assert (p ∉ free) as Hpf by (intros Hin; by apply (Hdis p Hin)). split; [|split]; simpl.
  - split; [done|]. exists (sb_free_list s). rewrite lookup_insert_eq. split; [done|]. by apply chain_insert.
  - constructor; [rewrite elem_of_app list_elem_of_filter; naive_solver|]. apply NoDup_app. split; [done|]. split; [|by apply NoDup_filter].
    intros q Hq [_ ?]%list_elem_of_filter. by apply (Hdis q).
  - intros q. change (slot _ q) with (slot s q). rewrite -Hs elem_of_cons !elem_of_app list_elem_of_filter. destruct (decide (q = p)); naive_solver.
Qed.

(** The slots from [start], in the order in which a new slab allocates them. *)
Definition slots (start : Z) (n : nat) : list Z := (λ i, start + Z.of_nat i * size) <$> seq 0 n.
Lemma thread_slots_wp n s p free :
  0 < size → 0 < p - Z.of_nat n * size → chain (sb_mem s) (sb_free_list s) free → (∀ q, q ∈ free → p ≤ q) →
  wp (thread_slots n p) (λ _ s', chain (sb_mem s') (sb_free_list s') (slots (p - Z.of_nat n * size) n ++ free) ∧
    sb_start s' = sb_start s ∧ sb_end s' = sb_end s) s.
Proof.
  intros Hsize. revert s p free. induction n as [|n IH]; intros s p free Hp Hc Hq; cbn [thread_slots].
  { apply wp_ret. done. }
  apply wp_bind, wp_assert; [apply negb_true_iff, Z.eqb_neq; lia|]. apply wp_bind, wp_gets, wp_bind, wp_modify, wp_bind, wp_modify.
  eapply wp_mono.
  - apply (IH _ _ ((p - size) :: free)); [lia| |].
    + simpl. split; [done|]. exists (sb_free_list s). rewrite lookup_insert_eq. split; [done|]. apply chain_insert; [|done]. intros Hin%Hq. lia.
    + intros q [->|Hin%Hq]%elem_of_cons; lia.
  - intros [] s' (Hc' & Hst & Hen). split; [|done]. simpl in Hst, Hen.
    replace (p - size - Z.of_nat n * size) with (p - Z.of_nat (S n) * size) in Hc' by lia.
    assert (slots (p - Z.of_nat (S n) * size) (S n) = slots (p - Z.of_nat (S n) * size) n ++ [p - size]) as ->; [|by rewrite -app_assoc].
    rewrite /slots seq_S fmap_app /=. do 2 f_equal. lia.
Qed.
(** A new slab: every slot is free. *)
Lemma slab_new_wp start end_ s0 :
  0 < size → 0 < start ≤ end_ → start mod align = 0 → end_ mod align = 0 → (end_ - start) mod size = 0 →
  wp (slab_new start end_) (λ _ s, slab_ok s (slots start (Z.to_nat ((end_ - start) / size))) []) s0.
Proof.
  intros Hsize Hse Hs He Hd. rw /slab_new. do 3 (apply wp_bind, wp_assert; [by apply Z.eqb_eq|]). apply wp_bind, wp_put.
  pose proof (Z_div_mod_eq_full (end_ - start) size) as Hq. rewrite Hd in Hq. set (n := Z.to_nat ((end_ - start) / size)).
  assert (0 ≤ (end_ - start) / size) as Hpos by (apply Z.div_pos; lia).
  assert (end_ - Z.of_nat n * size = start) as Hn by (rewrite /n Z2Nat.id //; lia).
  eapply wp_mono; [apply (thread_slots_wp n _ end_ []); [done|lia|done|by intros q ?%elem_of_nil]|].
  simpl. intros [] s (Hc & Hst & Hen). rewrite Hn app_nil_r in Hc. split; [done|]. rewrite app_nil_r. split.
  - apply NoDup_fmap_2_strong; [|apply NoDup_seq]. intros i j _ _ E. nia.
  - intros q. rewrite list_elem_of_fmap /slot Hst Hen. split.
    + intros (i & -> & Hi%elem_of_seq). split; [nia|]. split; [nia|]. by exists (Z.of_nat i).
    + intros (H1 & H2 & k & ->). exists (Z.to_nat k). rewrite elem_of_seq. assert (0 ≤ k) by nia. assert (k < Z.of_nat n) by nia. split; [lia|lia].
Qed.
End slab.
