(* ===== verification/Ring.v ===== *)
(** * Ring buffers

    The lemmas that the pipes, the console and the UART share: a byte array of a size that divides 2^64, read and written
    through 64-bit counters that are taken modulo the size and wrap around at 2^64. *)

From stdpp Require Import base list ssreflect.
From S2P Require Import Prelude.

(** The counters differ by [span r w]; the bytes between them start at [r]. *)
Definition span (r w : Z) : Z := wrap 64 (w - r).
Definition ring_at (size : Z) (data : list byte) (i : Z) : byte := default Byte.x00 (data !! Z.to_nat (i mod size)).
Definition ring (size : Z) (data : list byte) (r w : Z) : list byte := (λ i, ring_at size data (r + i)) <$> seqZ 0 (span r w).
Definition ring_write (size : Z) (data : list byte) (i : Z) (b : byte) : list byte := <[Z.to_nat (i mod size) := b]> data.

Lemma span_bound r w : 0 ≤ span r w < 2 ^ 64.
Proof. apply wrap_bound. lia. Qed.
Lemma wrap_cong x : ∃ m, wrap 64 x = x + m * 2 ^ 64.
Proof. exists (- (x / 2 ^ 64)). rewrite /wrap. pose proof (Z_div_mod_eq_full x (2 ^ 64)). lia. Qed.
(** [w] is [r] and the span, up to a multiple of 2^64. *)
Lemma span_cong r w : ∃ m, w = r + span r w + m * 2 ^ 64.
Proof. destruct (wrap_cong (w - r)) as [m Hm]. exists (- m). rewrite /span. lia. Qed.
Lemma span_of r w n m : 0 ≤ n < 2 ^ 64 → w = r + n + m * 2 ^ 64 → span r w = n.
Proof.
  intros Hn ->. rewrite /span /wrap. replace (r + n + m * 2 ^ 64 - r) with (n + m * 2 ^ 64) by lia.
  rewrite Z.mod_add; [by apply Z.mod_small|lia].
Qed.
Lemma span_zero r w : 0 ≤ r < 2 ^ 64 → 0 ≤ w < 2 ^ 64 → (r =? w) = bool_decide (span r w = 0).
Proof.
  intros Hr Hw. destruct (span_cong r w) as [m Hm]. destruct (Z.eqb_spec r w) as [E|E]; symmetry.
  - apply bool_decide_eq_true_2, (span_of r w 0 0); lia.
  - apply bool_decide_eq_false_2. intros H0. apply E. rewrite H0 in Hm. assert (m = 0); lia.
Qed.
Lemma span_full r w n :
  0 ≤ r < 2 ^ 64 → 0 ≤ w < 2 ^ 64 → 0 ≤ n < 2 ^ 64 → (w =? wrap 64 (r + n)) = bool_decide (span r w = n).
Proof.
  intros Hr Hw Hn. destruct (span_cong r w) as [m Hm], (wrap_cong (r + n)) as [m' Hm'].
  destruct (Z.eqb_spec w (wrap 64 (r + n))) as [E|E]; symmetry.
  - apply bool_decide_eq_true_2, (span_of r w n m'); lia.
  - apply bool_decide_eq_false_2. intros H0. apply E. pose proof (wrap_bound 64 (r + n)). rewrite H0 in Hm. nia.
Qed.
Lemma span_succ_r r w : span r w < 2 ^ 64 - 1 → span r (wrap 64 (w + 1)) = span r w + 1.
Proof.
  intros H. pose proof (span_bound r w). destruct (span_cong r w) as [m Hm], (wrap_cong (w + 1)) as [m' Hm'].
  apply (span_of _ _ _ (m + m')); lia.
Qed.
Lemma span_pred_r r w : 0 < span r w → span r (wrap 64 (w - 1)) = span r w - 1.
Proof.
  intros H. pose proof (span_bound r w). destruct (span_cong r w) as [m Hm], (wrap_cong (w - 1)) as [m' Hm'].
  apply (span_of _ _ _ (m + m')); lia.
Qed.
Lemma span_succ_l r w : 0 < span r w → span (wrap 64 (r + 1)) w = span r w - 1.
Proof.
  intros H. pose proof (span_bound r w). destruct (span_cong r w) as [m Hm], (wrap_cong (r + 1)) as [m' Hm'].
  apply (span_of _ _ _ (m - m')); lia.
Qed.
Lemma span_app r w e : span r w + span w e < 2 ^ 64 → span r e = span r w + span w e.
Proof.
  intros H. pose proof (span_bound r w). pose proof (span_bound w e). destruct (span_cong r w) as [m Hm], (span_cong w e) as [m' Hm'].
  apply (span_of _ _ _ (m + m')); lia.
Qed.
Lemma seqZ_snoc m n : 0 ≤ n → seqZ m (n + 1) = seqZ m n ++ [m + n].
Proof. intros Hn. rewrite seqZ_app; [|lia..]. done. Qed.

Section ring.
Context (size : Z) (Hsize : 0 < size < 2 ^ 64) (Hdiv : 2 ^ 64 mod size = 0).
Implicit Types (data : list byte) (r w : Z).
Notation ring := (ring size).

Lemma mod_shift a m : (a + m * 2 ^ 64) mod size = a mod size.
Proof.
  pose proof (Z_div_mod_eq_full (2 ^ 64) size) as H. rewrite Hdiv in H. rewrite H.
  replace (m * (size * (2 ^ 64 / size) + 0)) with (m * (2 ^ 64 / size) * size) by lia. apply Z.mod_add. lia.
Qed.
Lemma mod_range a : 0 ≤ a mod size < size.
Proof. apply Z.mod_pos_bound. lia. Qed.
Lemma ring_at_shift data a m : ring_at size data (a + m * 2 ^ 64) = ring_at size data a.
Proof. by rewrite /ring_at mod_shift. Qed.
Lemma ring_length data r w : length (ring data r w) = Z.to_nat (span r w).
Proof. by rewrite length_fmap length_seqZ. Qed.
Lemma ring_nil data r w : span r w = 0 ↔ ring data r w = [].
Proof.
  split; [by rewrite /ring => ->|]. intros H. apply (f_equal length) in H. rewrite ring_length in H. pose proof (span_bound r w). simpl in H. lia.
Qed.

Lemma ring_write_at data r w b i :
  length data = Z.to_nat size → 0 ≤ i ≤ span r w → span r w < size →
  ring_at size (ring_write size data w b) (r + i) = if bool_decide (i = span r w) then b else ring_at size data (r + i).
Proof.
  intros Hl Hi Hf. destruct (span_cong r w) as [m Hm]. rewrite /ring_at /ring_write.
  replace (w mod size) with ((r + span r w) mod size) by (by rewrite {2}Hm mod_shift).
  pose proof (mod_range (r + span r w)). pose proof (mod_range (r + i)). case_bool_decide as E.
  - subst i. rewrite list_lookup_insert_eq //. rewrite Hl. lia.
  - rewrite list_lookup_insert_ne //. intros Heq%Z2Nat.inj; [|lia..].
    pose proof (Z_div_mod_eq_full (r + span r w) size). pose proof (Z_div_mod_eq_full (r + i) size).
    assert (span r w - i = size * ((r + span r w) / size - (r + i) / size)) as Hd.
    { rewrite Z.mul_sub_distr_l. revert H1 H2. rewrite Heq. generalize (size * ((r + span r w) / size)) (size * ((r + i) / size)) ((r + i) mod size). lia. }
    revert Hd. generalize ((r + span r w) / size - (r + i) / size) as d. intros d Hd. 
    assert (0 < size * d < size) as [Hd1 Hd2] by lia. apply Z.lt_0_mul in Hd1 as [[_ Hd1]|[? _]]; [|lia].
    pose proof (Z.mul_le_mono_pos_l 1 d size). lia.
Qed.
Lemma ring_push data r w b :
  length data = Z.to_nat size → span r w < size → ring (ring_write size data w b) r (wrap 64 (w + 1)) = ring data r w ++ [b].
Proof.
  intros Hl Hf. pose proof (span_bound r w). rewrite /ring span_succ_r; [|lia]. rewrite seqZ_snoc; [|lia]. rewrite fmap_app /=. f_equal.
  - apply list_fmap_ext. intros j i Hj. apply list_elem_of_lookup_2, elem_of_seqZ in Hj. rewrite ring_write_at //; [|lia].
    rewrite bool_decide_eq_false_2 //. lia.
  - rewrite ring_write_at //; [|lia]. by rewrite bool_decide_eq_true_2.
Qed.
Lemma ring_pop data r w :
  length data = Z.to_nat size → 0 < span r w →
  data !! Z.to_nat (r mod size) = Some (ring_at size data r) ∧ ring data r w = ring_at size data r :: ring data (wrap 64 (r + 1)) w.
Proof.
  intros Hl Hpos. split.
  - rewrite /ring_at. destruct (lookup_lt_is_Some_2 data (Z.to_nat (r mod size))) as [b ->]; [|done]. rewrite Hl. pose proof (mod_range r). lia.
  - destruct (wrap_cong (r + 1)) as [m Hm]. rewrite {1}/ring seqZ_cons; [|lia]. rewrite fmap_cons Z.add_0_r. f_equal.
    rewrite /ring span_succ_l // /Z.pred /Z.succ Z.add_0_l. replace (span r w + -1) with (span r w - 1) by lia.
    rewrite -(fmap_add_seqZ 1 0). rewrite -list_fmap_compose. apply list_fmap_ext. intros j i Hj. rewrite /= Hm.
    replace (r + 1 + m * 2 ^ 64 + i) with (r + (1 + i) + m * 2 ^ 64) by lia. by rewrite ring_at_shift.
Qed.
(** Taking back the last byte. *)
Lemma ring_unpush data r w :
  0 < span r w → ring data r w = ring data r (wrap 64 (w - 1)) ++ [ring_at size data (wrap 64 (w - 1))].
Proof.
  intros Hpos. rewrite {1}/ring. replace (span r w) with (span r w - 1 + 1) by lia. rewrite seqZ_snoc; [|lia]. rewrite fmap_app /=.
  rewrite -span_pred_r //. f_equal. f_equal. destruct (span_cong r (wrap 64 (w - 1))) as [m Hm]. rewrite {2}Hm. by rewrite ring_at_shift.
Qed.
Lemma ring_app data r w e : span r w + span w e < 2 ^ 64 → ring data r e = ring data r w ++ ring data w e.
Proof.
  intros H. pose proof (span_bound r w). pose proof (span_bound w e). rewrite {1}/ring (span_app r w e) //. rewrite seqZ_app; [|lia..]. rewrite fmap_app. f_equal.
  replace (0 + span r w) with (span r w + 0) by lia. rewrite -fmap_add_seqZ -list_fmap_compose /ring. apply list_fmap_ext. intros j i Hj.
  destruct (span_cong r w) as [m Hm]. rewrite /= {2}Hm. replace (r + span r w + m * 2 ^ 64 + i) with (r + (span r w + i) + m * 2 ^ 64) by lia.
  by rewrite ring_at_shift.
Qed.
End ring.
