(* ===== verification/Monitor.v ===== *)
(** * Monitors: data under a lock, with condition variables

    Model of [SpinLockCondVar] of [crates/kernel/ov6_kernel/src/sync/spin_lock.rs] and of [sleep_common] and [wakeup] of
    [proc/ops.rs], as the components that wait for a condition use them: the code between taking the lock and
    releasing or waiting with it is a turn, which runs atomically; threads take turns in any order.

    The components are instances: they give their turns, say for each condition variable what its sleepers wait for,
    and show that a turn that ends this condition notifies the variable.  The theorem of this file is that then no thread
    sleeps without a reason: no wakeup is lost. *)

From stdpp Require Import base list ssreflect.
From S2P Require Import Prelude.

(** ** Turns *)

Section turns.
Context {D C Call R : Type}.

(** The data under the lock, and the condition variables notified so far in the turn. *)
Record Locked : Type := {
  lk_data : D;
  lk_notified : list C;
}.
Definition on_data {A} (m : M D A) : M Locked A := zoom lk_data (λ d l, {| lk_data := d; lk_notified := lk_notified l |}) m.
Definition notify (c : C) : M Locked unit := modify (λ l, {| lk_data := lk_data l; lk_notified := lk_notified l ++ [c] |}).

(** How a turn ends: the function returns, or waits on [c] to go on with [k].  [killed] is what the function returns when
    the thread is killed ([wait]); it is [None] where it goes on all the same ([force_wait]). *)
Inductive Turn : Type :=
  | Return (r : R)
  | Wait (c : C) (killed : option R) (k : Call).
End turns.
Arguments Locked : clear implicits.
Arguments Turn : clear implicits.

Lemma on_data_modify_wp {D C} (f : D → D) (Q : unit → Locked D C → Prop) (l : Locked D C) :
  Q tt {| lk_data := f (lk_data l); lk_notified := lk_notified l |} → wp (on_data (modify f)) Q l.
Proof. done. Qed.
Lemma turn_notify_wp {D C} (c : C) (Q : unit → Locked D C → Prop) (l : Locked D C) :
  Q tt {| lk_data := lk_data l; lk_notified := lk_notified l ++ [c] |} → wp (notify c) Q l.
Proof. done. Qed.

(** ** The system *)

Section system.
Context {D C Call R : Type} `{EqDecision C}.
Variable turn : Call → M (Locked D C) (Turn C Call R).

(** A sleeper keeps the counter it has loaded; [runnable] is set when its process is. *)
Inductive Pc : Type :=
  | Ready (k : Call)
  | Asleep (c : C) (killed : option R) (k : Call) (counter : Z) (runnable : bool)
  | Returned (r : R).
Record Thread : Type := {
  t_pc : Pc;
  t_killed : bool;
}.
Definition set_pc (pc : Pc) (t : Thread) : Thread := {| t_pc := pc; t_killed := t_killed t |}.

(** [m_total c] counts the notifications of [c]; the counter of the condition variable is its low 64 bits. *)
Record Sys : Type := {
  m_data : D;
  m_total : C → Z;
  m_threads : list Thread;
}.
Definition counter (s : Sys) (c : C) : Z := wrap 64 (m_total s c).

(** [wakeup]: the sleepers on [c] become runnable. *)
Definition wake (c : C) (t : Thread) : Thread :=
  match t_pc t with
  | Asleep c' killed k n _ => if bool_decide (c' = c) then set_pc (Asleep c' killed k n true) t else t
  | _ => t
  end.
(** [SpinLockCondVar::notify]. *)
Definition do_notify (s : Sys) (c : C) : Sys :=
  {| m_data := m_data s; m_total := λ c', if bool_decide (c' = c) then m_total s c' + 1 else m_total s c';
     m_threads := wake c <$> m_threads s |}.

Definition set_thread (i : nat) (pc : Pc) (s : Sys) : Sys :=
  {| m_data := m_data s; m_total := m_total s; m_threads := alter (set_pc pc) i (m_threads s) |}.
Definition with_data (d : D) (s : Sys) : Sys := {| m_data := d; m_total := m_total s; m_threads := m_threads s |}.

(** [sleep_common] before the switch: a killed thread does not sleep, unless it is forced to. *)
Definition go_to_sleep (i : nat) (t : Thread) (c : C) (killed : option R) (k : Call) (s : Sys) : Sys :=
  match t_killed t, killed with
  | true, Some r => set_thread i (Returned r) s
  | _, _ => set_thread i (Asleep c killed k (counter s c) false) s
  end.

(** The turn of a thread that holds the lock. *)
Definition run_turn (i : nat) (t : Thread) (k : Call) (s : Sys) : option Sys :=
  match turn k {| lk_data := m_data s; lk_notified := [] |} with
  | Ret o l =>
      let s := foldl do_notify (with_data (lk_data l) s) (lk_notified l) in
      Some (match o with
            | Return r => set_thread i (Returned r) s
            | Wait c killed k' => go_to_sleep i t c killed k' s
            end)
  | Panic => None
  end.
(** A sleeper that has become runnable: it returns when it was killed, sleeps on when the counter is the one it
    loaded, and takes its turn otherwise. *)
Definition resume (i : nat) (t : Thread) (c : C) (killed : option R) (k : Call) (n : Z) (s : Sys) : Sys :=
  match t_killed t, killed with
  | true, Some r => set_thread i (Returned r) s
  | _, _ => if bool_decide (n = counter s c) then set_thread i (Asleep c killed k n false) s else set_thread i (Ready k) s
  end.
(** [kill]: the thread becomes runnable. *)
Definition kill_thread (t : Thread) : Thread :=
  {| t_pc := match t_pc t with Asleep c killed k n _ => Asleep c killed k n true | pc => pc end; t_killed := true |}.

Variable call_ok : Call → Prop.

Inductive step : Sys → Sys → Prop :=
  | step_spawn s k b : call_ok k →
      step s {| m_data := m_data s; m_total := m_total s; m_threads := m_threads s ++ [{| t_pc := Ready k; t_killed := b |}] |}
  | step_call s i t r k : m_threads s !! i = Some t → t_pc t = Returned r → call_ok k → step s (set_thread i (Ready k) s)
  | step_turn s i t k s' : m_threads s !! i = Some t → t_pc t = Ready k → run_turn i t k s = Some s' → step s s'
  | step_resume s i t c killed k n : m_threads s !! i = Some t → t_pc t = Asleep c killed k n true → step s (resume i t c killed k n s)
  | step_kill s i : step s {| m_data := m_data s; m_total := m_total s; m_threads := alter kill_thread i (m_threads s) |}.

Definition initial (d : D) : Sys := {| m_data := d; m_total := λ _, 0; m_threads := [] |}.
Inductive reachable (d : D) : Sys → Prop :=
  | reachable_initial : reachable d (initial d)
  | reachable_step s s' : reachable d s → step s s' → reachable d s'.
End system.

(** ** The interface of a component *)

(** [blocked c d]: what the sleepers on [c] wait for is not there in [d].  A turn keeps the invariant, does not panic, waits
    only when it is blocked, and notifies the condition variables whose sleepers are not blocked any more. *)
Class Monitor {D C Call R : Type} (turn : Call → M (Locked D C) (Turn C Call R)) := {
  call_ok : Call → Prop;
  m_inv : D → Prop;
  blocked : C → D → Prop;
  turn_wp k d :
    call_ok k → m_inv d →
    wp (turn k) (λ o l,
      m_inv (lk_data l) ∧
      (∀ c, blocked c d → c ∈ lk_notified l ∨ blocked c (lk_data l)) ∧
      match o with
      | Return _ => True
      | Wait c _ k' => blocked c (lk_data l) ∧ call_ok k'
      end) {| lk_data := d; lk_notified := [] |};
}.

Section laws.
Context {D C Call R : Type} `{EqDecision C} (turn : Call → M (Locked D C) (Turn C Call R)) `{!Monitor turn}.
Implicit Types (s : @Sys D C Call R) (t : @Thread C Call R).

Definition thread_ok s t : Prop :=
  match t_pc t with
  | Ready k => call_ok k
  | Asleep c killed k n runnable =>
      call_ok k ∧ ∃ g, 0 ≤ g ≤ m_total s c ∧ n = wrap 64 g ∧ (g = m_total s c → blocked c (m_data s)) ∧
        (runnable = false → g = m_total s c ∧ (t_killed t = true → killed = None))
  | Returned _ => True
  end.
Definition sys_ok s : Prop := m_inv (m_data s) ∧ (∀ c, 0 ≤ m_total s c) ∧ Forall (thread_ok s) (m_threads s).

(** The notifications of a turn. *)
Lemma notify_data s ns : m_data (foldl do_notify s ns) = m_data s.
Proof. revert s. induction ns as [|c ns IH]; intros s; [done|]. simpl. by rewrite IH. Qed.
Lemma notify_threads s ns : m_threads (foldl do_notify s ns) = (λ t, foldl (λ t c, wake c t) t ns) <$> m_threads s.
Proof.
  revert s. induction ns as [|c ns IH]; intros s; simpl; [by rewrite list_fmap_id|]. rewrite IH /= -list_fmap_compose. done.
Qed.
Lemma notify_total s ns c : m_total s c ≤ m_total (foldl do_notify s ns) c ∧
  (c ∈ ns → m_total s c < m_total (foldl do_notify s ns) c) ∧ (c ∉ ns → m_total (foldl do_notify s ns) c = m_total s c).
Proof.
  revert s. induction ns as [|c' ns IH]; intros s; simpl; [split; [lia|split; [by intros ?%elem_of_nil|done]]|].
  destruct (IH (do_notify s c')) as (H1 & H2 & H3).
  simpl in H1, H2, H3. case_bool_decide as Hc.
  - split; [lia|]. split; [lia|]. by intros [? _]%not_elem_of_cons.
  - split; [done|]. split; [intros [|]%elem_of_cons; [done|auto]|]. intros [_ ?]%not_elem_of_cons. auto.
Qed.
Lemma wake_all_pc ns t : t_killed (foldl (λ t c, wake c t) t ns) = t_killed t ∧
  t_pc (foldl (λ t c, wake c t) t ns) = match t_pc t with
    | Asleep c killed k n runnable => Asleep c killed k n (runnable || bool_decide (c ∈ ns))
    | pc => pc
    end.
Proof.
  revert t. induction ns as [|c ns IH]; intros t; simpl.
  { split; [done|]. destruct (t_pc t) as [|? ? ? ? []|]; done. }
  destruct (IH (wake c t)) as [-> ->]. rewrite /wake. destruct (t_pc t) as [k|c' killed k n b|r] eqn:E; rewrite ?E //.
  case_bool_decide as Hc; simpl; rewrite ?E; (split; [done|f_equal]).
  - subst. assert (bool_decide (c ∈ c :: ns) = true) as -> by (apply bool_decide_eq_true_2, elem_of_cons; by left). by rewrite orb_true_r.
  - f_equal. apply bool_decide_ext. rewrite elem_of_cons. naive_solver.
Qed.
Lemma notify_ok s d ns :
  (∀ c, blocked c (m_data s) → c ∈ ns ∨ blocked c d) → m_inv d → sys_ok s → sys_ok (foldl do_notify (with_data d s) ns).
Proof.
  intros Hb Hd (_ & Htot & Hth). split; [by rewrite notify_data|].
  split; [intros c; pose proof (notify_total (with_data d s) ns c) as [? _]; specialize (Htot c); simpl in *; lia|].
  rewrite notify_threads. apply Forall_fmap. eapply Forall_impl; [exact Hth|]. intros t Ht. rewrite /thread_ok /=.
  destruct (wake_all_pc ns t) as [-> ->]. rewrite /thread_ok in Ht. destruct (t_pc t) as [k|c killed k n b|r]; [done| |done].
  destruct Ht as (Hk & g & Hg & -> & Hbl & Hrun). split; [done|]. exists g.
  destruct (notify_total (with_data d s) ns c) as (H1 & H2 & H3). simpl in H1, H2, H3. rewrite notify_data /=.
  split; [lia|]. split; [done|]. destruct (decide (c ∈ ns)) as [Hin|Hin].
  - specialize (H2 Hin). split; [lia|]. rewrite bool_decide_eq_true_2 // orb_true_r. done.
  - rewrite (H3 Hin) bool_decide_eq_false_2 // orb_false_r. split; [|done]. intros Hgt. by destruct (Hb c (Hbl Hgt)).
Qed.

Lemma set_thread_ok s i t pc :
  sys_ok s → m_threads s !! i = Some t → thread_ok s (set_pc pc t) → sys_ok (set_thread i pc s).
Proof.
  intros (Hd & Htot & Hth) Hi Hpc. split; [done|]. split; [done|]. apply Forall_lookup. intros j t' Hj. simpl in Hj.
  destruct (decide (i = j)) as [<-|Hij].
  - rewrite list_lookup_alter_eq Hi in Hj. by simplify_eq/=.
  - rewrite list_lookup_alter_ne // in Hj. by apply (Forall_lookup_1 _ _ j t' Hth).
Qed.
Lemma go_to_sleep_ok s i t t0 c killed k :
  sys_ok s → m_threads s !! i = Some t0 → t_killed t0 = t_killed t → call_ok k → blocked c (m_data s) → sys_ok (go_to_sleep i t c killed k s).
Proof.
  intros Hs Hi Hk Hcall Hb. pose proof Hs as (_ & Htot & _).
  assert ((t_killed t = true → killed = None) → sys_ok (set_thread i (Asleep c killed k (counter s c) false) s)) as Hsleep.
  { intros Hn. apply (set_thread_ok _ _ _ _ Hs Hi). split; [done|]. exists (m_total s c). specialize (Htot c). rewrite /= Hk. repeat split; auto; lia. }
  rewrite /go_to_sleep. destruct (t_killed t), killed; try by apply Hsleep. by apply (set_thread_ok _ _ _ _ Hs Hi).
Qed.

(** Notifications are only added. *)
Lemma total_mono s s' c : step turn call_ok s s' → m_total s c ≤ m_total s' c.
Proof.
  intros H. destruct H as [| |s i t k s' _ _ H| |]; try (simpl; lia).
  - rewrite /run_turn in H. destruct (turn k _) as [o l|]; [|done]. simplify_eq.
    pose proof (notify_total (with_data (lk_data l) s) (lk_notified l) c) as [Hle _]. simpl in Hle.
    destruct o as [|c' killed k']; [done|]. rewrite /go_to_sleep. by destruct (t_killed t), killed.
  - rewrite /resume. destruct (t_killed t), killed; repeat case_match; simpl; lia.
Qed.

Lemma run_turn_ok s i t k :
  sys_ok s → m_threads s !! i = Some t → call_ok k → ∃ s', run_turn turn i t k s = Some s' ∧ sys_ok s'.
Proof.
  intros Hs Hi Hk. pose proof Hs as (Hd & Htot & _). destruct (wp_run _ _ _ (turn_wp k (m_data s) Hk Hd)) as (o & l & E & Hd' & Hb & Ho).
  rewrite /run_turn E. eexists. split; [done|].
  pose proof (notify_ok s (lk_data l) (lk_notified l) Hb Hd' Hs) as Hs'.
  pose proof (notify_threads (with_data (lk_data l) s) (lk_notified l)) as Hth.
  assert (m_threads (foldl do_notify (with_data (lk_data l) s) (lk_notified l)) !! i = Some (foldl (λ t c, wake c t) t (lk_notified l))) as Hi'.
  { by rewrite Hth list_lookup_fmap /= Hi. }
  destruct o as [r|c killed k'].
  - by apply (set_thread_ok _ _ _ _ Hs' Hi').
  - destruct Ho as [Hbl Hcall]. apply (go_to_sleep_ok _ _ _ _ _ _ _ Hs' Hi'); [apply wake_all_pc|done|]. by rewrite notify_data.
Qed.

Lemma step_ok s s' : (∀ c, m_total s c < 2 ^ 64) → sys_ok s → step turn call_ok s s' → sys_ok s'.
Proof.
  intros Hbound Hs H. destruct H as [s k b Hk|s i t r k Hi Hpc Hk|s i t k s' Hi Hpc H|s i t c killed k n Hi Hpc|s i].
  - destruct Hs as (Hd & Htot & Hth). split; [done|]. split; [done|]. apply Forall_app. by split; [|repeat constructor].
  - by apply (set_thread_ok _ _ _ _ Hs Hi).
  - assert (call_ok k) as Hk. { destruct Hs as (_ & _ & Hth). pose proof (Forall_lookup_1 _ _ i t Hth Hi) as Ht. by rewrite /thread_ok Hpc in Ht. }
    destruct (run_turn_ok s i t k Hs Hi Hk) as (s2 & E & Hs2). by simplify_eq.
  - pose proof Hs as (_ & Htot & Hth). pose proof (Forall_lookup_1 _ _ i t Hth Hi) as Ht. rewrite /thread_ok Hpc in Ht.
    destruct Ht as (Hk & g & Hg & -> & Hbl & _). rewrite /resume.
    assert (∀ pc, thread_ok s (set_pc pc t) → sys_ok (set_thread i pc s)) as Hset by (intros pc; by apply set_thread_ok).
    assert ((t_killed t = true → killed = None) → sys_ok (if bool_decide (wrap 64 g = counter s c) then
      set_thread i (Asleep c killed k (wrap 64 g) false) s else set_thread i (Ready k) s)) as Hgo.
    { intros Hkilled. case_bool_decide as Hc; apply Hset; [|done]. split; [done|]. exists g. specialize (Hbound c).
      pose proof (wrap_small 64 g ltac:(lia)) as Hg1. pose proof (wrap_small 64 (m_total s c) ltac:(specialize (Htot c); lia)) as Hg2.
      assert (g = m_total s c) as -> by (rewrite /counter in Hc; lia). auto 10. }
    destruct (t_killed t), killed; try by apply Hgo. by apply Hset.
  - destruct Hs as (Hd & Htot & Hth). split; [done|]. split; [done|]. apply Forall_lookup. intros j t Hj. simpl in Hj.
    destruct (decide (i = j)) as [<-|Hij].
    + rewrite list_lookup_alter_eq in Hj. apply fmap_Some in Hj as (t0 & Hi & ->). pose proof (Forall_lookup_1 _ _ i t0 Hth Hi) as Ht.
      rewrite /thread_ok /= in Ht |- *. destruct (t_pc t0); [done| |done]. destruct Ht as (Hk & g & Hg & -> & Hbl & _). split; [done|].
      exists g. by split; [|split; [|split]].
    + rewrite list_lookup_alter_ne // in Hj. exact (Forall_lookup_1 _ _ j t Hth Hj).
Qed.

Lemma reachable_ok d s :
  m_inv d → reachable turn call_ok d s → (∀ c, m_total s c < 2 ^ 64) → sys_ok s.
Proof.
  intros Hd H. induction H as [|s s' _ IH Hstep]; intros Hbound; [by split|].
  assert (∀ c, m_total s c < 2 ^ 64) as Hb by (intros c; pose proof (total_mono s s' c Hstep); specialize (Hbound c); lia).
  by apply (step_ok s s' Hb (IH Hb)).
Qed.

(** The invariant of the data needs no bound on the notifications. *)
Definition call_of t : option Call :=
  match t_pc t with
  | Ready k | Asleep _ _ k _ _ => Some k
  | Returned _ => None
  end.
Definition calls_ok s : Prop := ∀ i t k, m_threads s !! i = Some t → call_of t = Some k → call_ok k.
Lemma set_thread_calls s i pc :
  calls_ok s → (∀ k, call_of {| t_pc := pc; t_killed := false |} = Some k → call_ok k) → calls_ok (set_thread i pc s).
Proof.
  intros Hs Hpc j t k Hj Hk. simpl in Hj. destruct (decide (i = j)) as [<-|Hij].
  - rewrite list_lookup_alter_eq in Hj. apply fmap_Some in Hj as (t0 & _ & ->). by apply Hpc.
  - rewrite list_lookup_alter_ne // in Hj. by apply (Hs j t).
Qed.
Lemma monitor_inv d s : m_inv d → reachable turn call_ok d s → m_inv (m_data s) ∧ calls_ok s.
Proof.
  intros Hd H. induction H as [|s s' _ [Hinv Hs] Hstep]; [by split|].
  destruct Hstep as [s k b Hk|s i t r k Hi Hpc Hk|s i t k s' Hi Hpc H|s i t c killed k n Hi Hpc|s i].
  - split; [done|]. intros j t k' Hj Hk'. apply lookup_snoc_Some in Hj as [[_ Hj]|[_ <-]]; [by apply (Hs j t)|]. by injection Hk' as <-.
  - split; [done|]. apply set_thread_calls; [done|]. by intros ? [= <-].
  - assert (call_ok k) as Hk by (apply (Hs i t); rewrite /call_of ?Hpc; done).
    destruct (wp_run _ _ _ (turn_wp k (m_data s) Hk Hinv)) as (o & l & E & Hd' & _ & Ho).
    rewrite /run_turn E in H. simplify_eq. set (s1 := foldl do_notify _ _).
    assert (m_inv (m_data s1)) as Hinv1 by by rewrite notify_data.
    assert (calls_ok s1) as Hs1.
    { intros j t' k' Hj Hk'. rewrite notify_threads list_lookup_fmap in Hj. apply fmap_Some in Hj as (t0 & Hj & ->).
      apply (Hs j t0); [done|]. rewrite -Hk' /call_of. destruct (wake_all_pc (lk_notified l) t0) as [_ ->]. by destruct (t_pc t0). }
    destruct o as [r|c killed k'].
    + split; [done|]. by apply set_thread_calls.
    + assert (calls_ok (go_to_sleep i t c killed k' s1) ∧ m_data (go_to_sleep i t c killed k' s1) = m_data s1) as [? ->]; [|done].
      rewrite /go_to_sleep. destruct (t_killed t), killed; (split; [|done]); apply set_thread_calls; try done; intros ? [= <-]; apply Ho.
  - assert (call_ok k) as Hk by (apply (Hs i t); rewrite /call_of ?Hpc; done). rewrite /resume.
    destruct (t_killed t), killed; try (split; [done|]; by apply set_thread_calls);
      case_bool_decide; (split; [done|]); apply set_thread_calls; try done; by intros ? [= <-].
  - split; [done|]. intros j t k Hj Hk. simpl in Hj. destruct (decide (i = j)) as [<-|Hij].
    + rewrite list_lookup_alter_eq in Hj. apply fmap_Some in Hj as (t0 & Hi & ->). apply (Hs i t0); [done|].
      rewrite -Hk /call_of /=. by destruct (t_pc t0).
    + rewrite list_lookup_alter_ne // in Hj. by apply (Hs j t).
Qed.

(** No wakeup is lost: a thread that sleeps and was not woken up waits for something that is not there, and was not
    killed when a kill ends its wait. *)
Lemma asleep_blocked d s i t c killed k n :
  m_inv d → reachable turn call_ok d s → (∀ c, m_total s c < 2 ^ 64) →
  m_threads s !! i = Some t → t_pc t = Asleep c killed k n false → blocked c (m_data s) ∧ (t_killed t = true → killed = None).
Proof.
  intros Hd Hr Hb Hi Hpc. destruct (reachable_ok d s Hd Hr Hb) as (_ & _ & Hth). pose proof (Forall_lookup_1 _ _ i t Hth Hi) as Ht.
  rewrite /thread_ok Hpc in Ht. destruct Ht as (_ & g & _ & _ & Hbl & Hrun). destruct (Hrun eq_refl) as [-> Hk]. auto.
Qed.
(** A thread that is ready can take its turn. *)
Lemma ready_runs d s i t k :
  m_inv d → reachable turn call_ok d s → (∀ c, m_total s c < 2 ^ 64) →
  m_threads s !! i = Some t → t_pc t = Ready k → ∃ s', run_turn turn i t k s = Some s'.
Proof.
  intros Hd Hr Hb Hi Hpc. pose proof (reachable_ok d s Hd Hr Hb) as Hs. pose proof Hs as (_ & _ & Hth).
  pose proof (Forall_lookup_1 _ _ i t Hth Hi) as Ht. rewrite /thread_ok Hpc in Ht.
  destruct (run_turn_ok s i t k Hs Hi Ht) as (s' & E & _). eauto.
Qed.
End laws.
