(* ===== verification/SpinLock.v ===== *)
(** * Spin locks

    Model of [SpinLock] of [crates/kernel/ov6_kernel/src/sync/spin_lock.rs] and of the interrupt nesting of
    [interrupt/mod.rs], at the granularity of the single accesses to the flag and the owner of a lock: any number of
    CPUs take and release any number of locks, and their accesses interleave in every order.

    A CPU that has a lock may drop its guards in any order.  Interrupt handlers run on their CPU with interrupts
    disabled; they are part of what the CPU does. *)

From stdpp Require Import base list ssreflect.
From S2P Require Import Prelude.

Definition NCPU : Z := 8.

(** [locked] and [cpuid] of a lock; [None] is [INVALID_CPUID]. *)
Record Lock : Type := {
  locked : bool;
  owner : option nat;
}.
(** Where a CPU is in [lock], [try_lock] or the drop of a guard. *)
Inductive LockPc : Type :=
  | Run
  | Spin (l : nat) (try : bool)   (* before [locked.swap(true)] *)
  | Got (l : nat)                 (* before [cpuid = id()] *)
  | Failed                        (* [try_lock] returns [Locked], drops the interrupt guard *)
  | Unowned (l : nat)             (* before [locked.store(false)] *)
  | Released.                     (* before [pop_disabled] *)
(** A CPU: [sstatus.SIE], its [CpuState], and the guards it has. *)
Record CpuState : Type := {
  sie : bool;
  push_depth : Z;
  int_enabled : bool;
  pc : LockPc;
  held : list nat;
}.
Record Machine : Type := {
  locks : nat → Lock;
  cpus : nat → CpuState;
}.

Definition upd {A} (f : nat → A) (i : nat) (a : A) : nat → A := λ j, if decide (j = i) then a else f j.
Definition set_lock (l : nat) (x : Lock) : M Machine unit := modify (λ m, {| locks := upd (locks m) l x; cpus := cpus m |}).
Definition get_lock (l : nat) : M Machine Lock := gets (λ m, locks m l).
Definition set_cpu (c : nat) (x : CpuState) : M Machine unit := modify (λ m, {| locks := locks m; cpus := upd (cpus m) c x |}).
Definition get_cpu (c : nat) : M Machine CpuState := gets (λ m, cpus m c).
Definition set_pc (c : nat) (p : LockPc) (h : list nat) : M Machine unit :=
  s ← get_cpu c;
  set_cpu c {| sie := sie s; push_depth := push_depth s; int_enabled := int_enabled s; pc := p; held := h |}.

(** [push_disabled]. *)
Definition push_disabled (c : nat) : M Machine unit :=
  s ← get_cpu c;
  assert_ (push_depth s <? NCPU);;
  set_cpu c {| sie := false; push_depth := wrap 64 (push_depth s + 1);
               int_enabled := if push_depth s =? 0 then sie s else int_enabled s; pc := pc s; held := held s |}.
(** [pop_disabled], the drop of the interrupt guard. *)
Definition pop_disabled (c : nat) : M Machine unit :=
  s ← get_cpu c;
  assert_ (negb (sie s));;
  assert_ (0 <? push_depth s);;
  set_cpu c {| sie := if push_depth s =? 1 then int_enabled s else sie s; push_depth := push_depth s - 1;
               int_enabled := int_enabled s; pc := pc s; held := held s |}.
(** [SpinLock::holding]. *)
Definition holding (c l : nat) : M Machine bool :=
  s ← get_cpu c;
  assert_ (negb (sie s));;
  x ← get_lock l;
  mret (locked x && bool_decide (owner x = Some c)).

(** [lock] and [try_lock] up to the swap, the swap, and what follows. *)
Definition lock_begin (c l : nat) (try : bool) : M Machine unit :=
  push_disabled c;;
  h ← holding c l;
  assert_ (negb h);;
  s ← get_cpu c;
  set_pc c (Spin l try) (held s).
Definition lock_swap (c l : nat) (try : bool) : M Machine unit :=
  x ← get_lock l;
  set_lock l {| locked := true; owner := owner x |};;
  s ← get_cpu c;
  set_pc c (if locked x then (if try then Failed else Spin l try) else Got l) (held s).
Definition lock_own (c l : nat) : M Machine unit :=
  x ← get_lock l;
  set_lock l {| locked := locked x; owner := Some c |};;
  s ← get_cpu c;
  set_pc c Run (l :: held s).
(** The drop of a guard. *)
Definition drop_begin (c l : nat) : M Machine unit :=
  h ← holding c l;
  assert_ h;;
  x ← get_lock l;
  set_lock l {| locked := locked x; owner := None |};;
  s ← get_cpu c;
  set_pc c (Unowned l) (filter (λ l', l' ≠ l) (held s)).
Definition drop_store (c l : nat) : M Machine unit :=
  x ← get_lock l;
  set_lock l {| locked := false; owner := owner x |};;
  s ← get_cpu c;
  set_pc c Released (held s).
Definition drop_pop (c : nat) : M Machine unit :=
  pop_disabled c;;
  s ← get_cpu c;
  set_pc c Run (held s).

(** What a CPU may do next: start to take a lock, drop a guard it has, or go on with what it has started; and with no guard
    it may enable and disable interrupts, as the entry and the exit of a handler do. *)
Inductive cpu_step (c : nat) (m : Machine) : M Machine unit → Prop :=
  | do_lock l try : pc (cpus m c) = Run → cpu_step c m (lock_begin c l try)
  | do_swap l try : pc (cpus m c) = Spin l try → cpu_step c m (lock_swap c l try)
  | do_own l : pc (cpus m c) = Got l → cpu_step c m (lock_own c l)
  | do_failed : pc (cpus m c) = Failed → cpu_step c m (drop_pop c)
  | do_drop l : pc (cpus m c) = Run → l ∈ held (cpus m c) → cpu_step c m (drop_begin c l)
  | do_store l : pc (cpus m c) = Unowned l → cpu_step c m (drop_store c l)
  | do_pop : pc (cpus m c) = Released → cpu_step c m (drop_pop c)
  | do_sie b : pc (cpus m c) = Run → push_depth (cpus m c) = 0 →
      cpu_step c m (set_cpu c {| sie := b; push_depth := 0; int_enabled := int_enabled (cpus m c); pc := Run; held := held (cpus m c) |})
  | do_force b : pc (cpus m c) = Run →
      cpu_step c m (set_cpu c {| sie := sie (cpus m c); push_depth := push_depth (cpus m c); int_enabled := b; pc := Run; held := held (cpus m c) |}).

Definition machine_new : Machine :=
  {| locks := λ _, {| locked := false; owner := None |};
     cpus := λ _, {| sie := false; push_depth := 0; int_enabled := false; pc := Run; held := [] |} |}.
Inductive machine_reachable : Machine → Prop :=
  | machine_initial : machine_reachable machine_new
  | machine_step c m a m' : machine_reachable m → cpu_step c m a → a m = Ret tt m' → machine_reachable m'.

(** ** Mutual exclusion *)

(** A CPU has a lock from its successful swap until the store that releases it. *)
Definition has (s : CpuState) (l : nat) : Prop := l ∈ held s ∨ pc s = Got l ∨ pc s = Unowned l.
Definition pending (p : LockPc) : Z := match p with Run => 0 | _ => 1 end.

Definition cpu_inv (s : CpuState) : Prop :=
  NoDup (held s) ∧ (∀ l, pc s = Got l ∨ pc s = Unowned l → l ∉ held s) ∧
  push_depth s = Z.of_nat (length (held s)) + pending (pc s) ∧ push_depth s ≤ NCPU ∧ (0 < push_depth s → sie s = false).
Definition lock_inv (m : Machine) (l : nat) : Prop :=
  (∀ c, owner (locks m l) = Some c ↔ l ∈ held (cpus m c)) ∧
  (∀ c c', has (cpus m c) l → has (cpus m c') l → c = c') ∧
  (locked (locks m l) = true ↔ ∃ c, has (cpus m c) l).
Definition machine_inv (m : Machine) : Prop := (∀ c, cpu_inv (cpus m c)) ∧ (∀ l, lock_inv m l).

Lemma slot_upd_eq {A} (f : nat → A) i a : upd f i a i = a.
Proof. rewrite /upd. by case_decide. Qed.
Lemma slot_upd_ne {A} (f : nat → A) i j a : j ≠ i → upd f i a j = f j.
Proof. intros H. rewrite /upd. by case_decide. Qed.
Lemma slot_upd_upd {A} (f : nat → A) i a b j : upd (upd f i a) i b j = upd f i b j.
Proof. rewrite /upd. by case_decide. Qed.

(** A step of the CPU [c] that touches the lock [l] only: what must be shown of the new state of both. *)
Lemma inv_step m m' c l :
  machine_inv m →
  (∀ c', c' ≠ c → cpus m' c' = cpus m c') → (∀ l', l' ≠ l → locks m' l' = locks m l') →
  cpu_inv (cpus m' c) → (∀ l', l' ≠ l → (l' ∈ held (cpus m' c) ↔ l' ∈ held (cpus m c)) ∧ (has (cpus m' c) l' ↔ has (cpus m c) l')) →
  lock_inv m' l → machine_inv m'.
Proof.
  intros [Hcpu Hlock] Hc Hl Hci Hother Hli. split.
  - intros c'. destruct (decide (c' = c)) as [->|Hne]; [done|]. rewrite Hc //.
  - intros l'. destruct (decide (l' = l)) as [->|Hne]; [done|].
    assert (∀ x, (l' ∈ held (cpus m' x) ↔ l' ∈ held (cpus m x)) ∧ (has (cpus m' x) l' ↔ has (cpus m x) l')) as Hx.
    { intros x. destruct (decide (x = c)) as [->|Hx]; [by apply Hother|]. by rewrite Hc. }
    destruct (Hlock l') as (H1 & H2 & H3). rewrite /lock_inv Hl //. split; [|split].
    + intros x. by rewrite H1 (proj1 (Hx x)).
    + intros x y Hxl Hyl. apply H2; by apply Hx.
    + rewrite H3. split; intros [x ?]; exists x; by apply Hx.
Qed.
Lemma inv_cpu m m' c :
  machine_inv m → (∀ c', c' ≠ c → cpus m' c' = cpus m c') → (∀ l, locks m' l = locks m l) →
  held (cpus m' c) = held (cpus m c) → (∀ l, has (cpus m' c) l ↔ has (cpus m c) l) → cpu_inv (cpus m' c) → machine_inv m'.
Proof.
  intros Hm Hc Hl Hh Hhas Hci. pose proof Hm as [_ Hlock].
  apply (inv_step m m' c 0 Hm Hc); [by intros l' _; apply Hl|done|by intros l' _; rewrite Hh|].
  assert (∀ x, (0%nat ∈ held (cpus m' x) ↔ 0%nat ∈ held (cpus m x)) ∧ (has (cpus m' x) 0 ↔ has (cpus m x) 0)) as Hx.
  { intros x. destruct (decide (x = c)) as [->|Hx]; [by rewrite Hh|]. by rewrite Hc. }
  destruct (Hlock 0%nat) as (H1 & H2 & H3). rewrite /lock_inv Hl. split; [|split].
  - intros x. by rewrite H1 (proj1 (Hx x)).
  - intros x y Hxl Hyl. apply H2; by apply Hx.
  - rewrite H3. split; intros [x ?]; exists x; by apply Hx.
Qed.

Lemma lock_begin_inv c l try m :
  machine_inv m → pc (cpus m c) = Run → wlp (lock_begin c l try) (λ _, machine_inv) m.
Proof.
  intros Hm Hpc. rw /lock_begin /push_disabled /holding /set_pc /get_cpu /get_lock /set_cpu. repeat wlp_step.
  simpl in *. rewrite !slot_upd_eq /=. apply (inv_cpu m _ c Hm); simpl.
  - intros c' Hne. by rewrite !slot_upd_ne.
  - done.
  - by rewrite slot_upd_eq.
  - rewrite slot_upd_eq /has /= Hpc. naive_solver.
  - rewrite slot_upd_eq. destruct Hm as [Hcpu _]. destruct (Hcpu c) as (Hnd & _ & Hd & Hle & Hsie). rewrite Hpc /= in Hd. apply Z.ltb_lt in H.
    split; [done|]. split; [naive_solver|]. rewrite /NCPU in H, Hle |- *. simpl. rewrite wrap_small; [|lia]. split; [lia|]. split; [lia|done].
Qed.
Lemma not_locked m l c : machine_inv m → locked (locks m l) = false → ¬ has (cpus m c) l.
Proof. intros [_ Hlock] E Hh. destruct (Hlock l) as (_ & _ & H3). assert (locked (locks m l) = true) by (apply H3; eauto). congruence. Qed.
Lemma lock_swap_inv c l try m :
  machine_inv m → pc (cpus m c) = Spin l try → wp (lock_swap c l try) (λ _, machine_inv) m.
Proof.
  intros Hm Hpc. rw /lock_swap /set_pc /get_cpu /get_lock /set_cpu /set_lock. repeat wp_step. cbn [locks cpus]. pose proof Hm as [Hcpu Hlock].
  destruct (Hcpu c) as (Hnd & Hgot & Hd & Hle & Hsie). rewrite Hpc /= in Hd. destruct (locked (locks m l)) eqn:E.
  - apply (inv_cpu m _ c Hm); cbn [locks cpus]; rewrite ?slot_upd_eq.
    + intros c' Hne. by rewrite slot_upd_ne.
    + intros l'. destruct (decide (l' = l)) as [->|Hne]; [|by rewrite slot_upd_ne]. rewrite slot_upd_eq. destruct (locks m l). simpl in *. by rewrite E.
    + done.
    + intros l'. rewrite /has /= Hpc. destruct try; naive_solver.
    + split; [done|]. split; [destruct try; naive_solver|]. simpl. destruct try; simpl; auto.
  - pose proof (λ x, not_locked m l x Hm E) as Hno. destruct (Hlock l) as (H1 & H2 & H3). apply (inv_step m _ c l Hm); cbn [locks cpus]; rewrite ?slot_upd_eq.
    + intros c' Hne. by rewrite slot_upd_ne.
    + intros l' Hne. by rewrite slot_upd_ne.
    + split; [done|]. split; [|done]. simpl. intros l' [[= <-]|[=]] Hin. apply (Hno c). by left.
    + intros l' Hne. split; [done|]. rewrite /has /= Hpc. naive_solver.
    + assert (∀ x, has (upd (cpus m) c {| sie := sie (cpus m c); push_depth := push_depth (cpus m c); int_enabled := int_enabled (cpus m c); pc := Got l; held := held (cpus m c) |} x) l ↔ x = c) as Hhas.
      { intros x. destruct (decide (x = c)) as [->|Hne]; [rewrite slot_upd_eq /has /=; naive_solver|]. rewrite slot_upd_ne //. split; [by intros ?%Hno|done]. }
      rewrite /lock_inv. cbn [locks cpus]. rewrite slot_upd_eq. cbn [locked owner]. split; [|split].
      * intros x. rewrite H1. destruct (decide (x = c)) as [->|Hne]; [by rewrite slot_upd_eq|by rewrite slot_upd_ne].
      * intros x y Hx%Hhas Hy%Hhas. congruence.
      * split; [|done]. intros _. exists c. by apply Hhas.
Qed.

(** The owner field names the CPU that has the guard. *)
Lemma owner_held m c l : machine_inv m → l ∈ held (cpus m c) → owner (locks m l) = Some c ∧ locked (locks m l) = true ∧ sie (cpus m c) = false.
Proof.
  intros [Hcpu Hlock] Hl. destruct (Hlock l) as (H1 & _ & H3). split; [by apply H1|]. split; [apply H3; exists c; by left|].
  destruct (Hcpu c) as (_ & _ & Hd & _ & Hsie). apply Hsie. rewrite Hd. assert (0 < length (held (cpus m c)))%nat by (destruct (held (cpus m c)); [by apply elem_of_nil in Hl|simpl; lia]).
  destruct (pc (cpus m c)); simpl; lia.
Qed.
Lemma lock_own_inv c l m : machine_inv m → pc (cpus m c) = Got l → wp (lock_own c l) (λ _, machine_inv) m.
Proof.
  intros Hm Hpc. rw /lock_own /set_pc /get_cpu /get_lock /set_cpu /set_lock. repeat wp_step. cbn [locks cpus]. pose proof Hm as [Hcpu Hlock].
  destruct (Hcpu c) as (Hnd & Hgot & Hd & Hle & Hsie). rewrite Hpc /= in Hd. destruct (Hlock l) as (H1 & H2 & H3).
  assert (has (cpus m c) l) as Hc by (right; by left). assert (l ∉ held (cpus m c)) as Hnin by (apply Hgot; by left).
  apply (inv_step m _ c l Hm); cbn [locks cpus]; rewrite ?slot_upd_eq.
  - intros c' Hne. by rewrite slot_upd_ne.
  - intros l' Hne. by rewrite slot_upd_ne.
  - split; [by constructor|]. simpl. split; [naive_solver|]. split; [lia|done].
  - intros l' Hne. rewrite /has /= Hpc elem_of_cons. naive_solver.
  - set (s' := {| sie := _ |}). assert (∀ x, has (upd (cpus m) c s' x) l ↔ has (cpus m x) l) as Hhas.
    { intros x. destruct (decide (x = c)) as [->|Hne]; [|by rewrite slot_upd_ne]. rewrite slot_upd_eq /has /= elem_of_cons. naive_solver. }
    rewrite /lock_inv. cbn [locks cpus]. rewrite slot_upd_eq. cbn [locked owner]. split; [|split].
    + intros x. destruct (decide (x = c)) as [->|Hne].
      * rewrite slot_upd_eq /= elem_of_cons. naive_solver.
      * rewrite slot_upd_ne //. split; [congruence|]. intros Hx. destruct Hne. apply H2; [by left|done].
    + intros x y Hx%Hhas Hy%Hhas. by apply H2.
    + rewrite H3. split; intros [x Hx]; exists x; by apply Hhas.
Qed.

Lemma filter_without (l : nat) (h : list nat) : l ∉ h → filter (λ l', l' ≠ l) h = h.
Proof.
  induction h as [|x h IH]; [done|]. intros [Hx Hh]%not_elem_of_cons. rewrite filter_cons. case_decide as Hd; [by rewrite IH|]. by destruct Hd.
Qed.
Lemma length_without (l : nat) (h : list nat) : NoDup h → l ∈ h → (length (filter (λ l', l' ≠ l) h) + 1 = length h)%nat.
Proof.
  induction h as [|x h IH]; [by intros _ ?%elem_of_nil|]. intros [Hx Hnd]%NoDup_cons Hl. rewrite filter_cons. case_decide as Hd.
  - apply elem_of_cons in Hl as [->|Hl]; [done|]. simpl. rewrite -(IH Hnd Hl). lia.
  - assert (x = l) as -> by (destruct (decide (x = l)); [done|by destruct Hd]). rewrite filter_without //=. lia.
Qed.
Lemma drop_begin_inv c l m : machine_inv m → pc (cpus m c) = Run → l ∈ held (cpus m c) → wp (drop_begin c l) (λ _, machine_inv) m.
Proof.
  intros Hm Hpc Hl. destruct (owner_held m c l Hm Hl) as (Ho & Hlk & Hsie0).
  rw /drop_begin /holding /set_pc /get_cpu /get_lock /set_cpu /set_lock. apply wp_bind, wp_bind, wp_gets, wp_bind, wp_assert; [by rewrite Hsie0|].
  apply wp_bind, wp_gets, wp_ret, wp_bind, wp_assert; [by rewrite Hlk Ho bool_decide_eq_true_2|]. repeat wp_step. cbn [locks cpus]. pose proof Hm as [Hcpu Hlock].
  destruct (Hcpu c) as (Hnd & Hgot & Hd & Hle & Hsie). rewrite Hpc /= in Hd. destruct (Hlock l) as (H1 & H2 & H3).
  assert (has (cpus m c) l) as Hc by by left. apply (inv_step m _ c l Hm); cbn [locks cpus]; rewrite ?slot_upd_eq.
  - intros c' Hne. by rewrite slot_upd_ne.
  - intros l' Hne. by rewrite slot_upd_ne.
  - split; [by apply NoDup_filter|]. simpl. split; [intros l' [[=]|[= <-]]; rewrite list_elem_of_filter; naive_solver|].
    pose proof (length_without l _ Hnd Hl). split; [lia|done].
  - intros l' Hne. rewrite /has /= Hpc list_elem_of_filter. naive_solver.
  - set (s' := {| sie := _ |}). assert (∀ x, has (upd (cpus m) c s' x) l ↔ has (cpus m x) l) as Hhas.
    { intros x. destruct (decide (x = c)) as [->|Hne]; [|by rewrite slot_upd_ne]. rewrite slot_upd_eq /has /=. naive_solver. }
    rewrite /lock_inv. cbn [locks cpus]. rewrite slot_upd_eq. cbn [locked owner]. split; [|split].
    + intros x. split; [done|]. destruct (decide (x = c)) as [->|Hne].
      * rewrite slot_upd_eq /= list_elem_of_filter. naive_solver.
      * rewrite slot_upd_ne //. intros Hx. destruct Hne. apply H2; [by left|done].
    + intros x y Hx%Hhas Hy%Hhas. by apply H2.
    + rewrite H3. split; intros [x Hx]; exists x; by apply Hhas.
Qed.
Lemma drop_store_inv c l m : machine_inv m → pc (cpus m c) = Unowned l → wp (drop_store c l) (λ _, machine_inv) m.
Proof.
  intros Hm Hpc. rw /drop_store /set_pc /get_cpu /get_lock /set_cpu /set_lock. repeat wp_step. cbn [locks cpus]. pose proof Hm as [Hcpu Hlock].
  destruct (Hcpu c) as (Hnd & Hgot & Hd & Hle & Hsie). rewrite Hpc /= in Hd. destruct (Hlock l) as (H1 & H2 & H3).
  assert (has (cpus m c) l) as Hc by (right; by right). assert (l ∉ held (cpus m c)) as Hnin by (apply Hgot; by right).
  apply (inv_step m _ c l Hm); cbn [locks cpus]; rewrite ?slot_upd_eq.
  - intros c' Hne. by rewrite slot_upd_ne.
  - intros l' Hne. by rewrite slot_upd_ne.
  - split; [done|]. simpl. split; [naive_solver|]. split; [lia|done].
  - intros l' Hne. rewrite /has /= Hpc. naive_solver.
  - set (s' := {| sie := _ |}). assert (∀ x, ¬ has (upd (cpus m) c s' x) l) as Hhas.
    { intros x. destruct (decide (x = c)) as [->|Hne]; [rewrite slot_upd_eq /has /=; naive_solver|]. rewrite slot_upd_ne //. intros Hx. destruct Hne. by apply H2. }
    rewrite /lock_inv. cbn [locks cpus]. rewrite slot_upd_eq. cbn [locked owner]. split; [|split].
    + intros x. rewrite H1. destruct (decide (x = c)) as [->|Hne]; [by rewrite slot_upd_eq|by rewrite slot_upd_ne].
    + intros x y Hx%Hhas. done.
    + split; [done|]. by intros [x ?%Hhas].
Qed.
Lemma drop_pop_inv c m :
  machine_inv m → pc (cpus m c) = Failed ∨ pc (cpus m c) = Released → wp (drop_pop c) (λ _, machine_inv) m.
Proof.
  intros Hm Hpc. pose proof Hm as [Hcpu Hlock]. destruct (Hcpu c) as (Hnd & Hgot & Hd & Hle & Hsie).
  assert (pending (pc (cpus m c)) = 1) as Hp by by destruct Hpc as [-> | ->]. rewrite Hp in Hd.
  rw /drop_pop /pop_disabled /set_pc /get_cpu /get_lock /set_cpu /set_lock.
  apply wp_bind, wp_bind, wp_gets, wp_bind, wp_assert; [rewrite Hsie //; lia|]. apply wp_bind, wp_assert; [apply Z.ltb_lt; lia|]. repeat wp_step. cbn [locks cpus].
  rewrite slot_upd_eq. cbn [sie push_depth int_enabled pc held].
  apply (inv_cpu m _ c Hm); cbn [locks cpus]; rewrite ?slot_upd_eq.
  - intros c' Hne. by rewrite !slot_upd_ne.
  - done.
  - done.
  - intros l. rewrite /has /=. destruct Hpc as [-> | ->]; naive_solver.
  - split; [done|]. simpl. split; [naive_solver|]. split; [lia|]. split; [lia|]. intros Hpos. rewrite (proj2 (Z.eqb_neq _ 1)); [apply Hsie|]; lia.
Qed.

Lemma toggle_inv c m s' :
  machine_inv m → pc (cpus m c) = Run → pc s' = Run → held s' = held (cpus m c) → push_depth s' = push_depth (cpus m c) →
  (0 < push_depth s' → sie s' = false) → wp (set_cpu c s') (λ _, machine_inv) m.
Proof.
  intros Hm Hpc Hpc' Hh Hd' Hs. rw /set_cpu. wp_step. pose proof Hm as [Hcpu _]. destruct (Hcpu c) as (Hnd & Hgot & Hd & Hle & Hsie).
  apply (inv_cpu m _ c Hm); cbn [locks cpus]; rewrite ?slot_upd_eq //.
  - intros c' Hne. by rewrite slot_upd_ne.
  - intros l. by rewrite /has Hh Hpc Hpc'.
  - split; [by rewrite Hh|]. rewrite Hpc' Hh Hd'. rewrite Hpc in Hd. split; [naive_solver|]. split; [done|]. split; [done|]. by rewrite -Hd'.
Qed.

Lemma cpu_step_inv c m a : machine_inv m → cpu_step c m a → wlp a (λ _, machine_inv) m.
Proof.
  intros Hm Ha. destruct Ha.
  - by apply lock_begin_inv.
  - by apply wlp_of_wp, lock_swap_inv.
  - by apply wlp_of_wp, lock_own_inv.
  - by apply wlp_of_wp, drop_pop_inv; [|left].
  - by apply wlp_of_wp, drop_begin_inv.
  - by apply wlp_of_wp, drop_store_inv.
  - by apply wlp_of_wp, drop_pop_inv; [|right].
  - apply wlp_of_wp, (toggle_inv c m _ Hm); try done; simpl; lia.
  - apply wlp_of_wp, (toggle_inv c m _ Hm); try done. simpl. destruct Hm as [Hcpu _]. by destruct (Hcpu c) as (_ & _ & _ & _ & ?).
Qed.
Lemma machine_new_inv : machine_inv machine_new.
Proof.
  split.
  - intros c. split; [constructor|]. simpl. split; [naive_solver|]. split; [done|]. split; [done|lia].
  - intros l. split; [|split]; simpl.
    + intros c. split; [done|]. by intros ?%elem_of_nil.
    + rewrite /has /=. intros c c' [?%elem_of_nil|[|]]; done.
    + split; [done|]. rewrite /has /=. by intros (c & [?%elem_of_nil|[|]]).
Qed.
Lemma machine_reachable_inv m : machine_reachable m → machine_inv m.
Proof. intros H. induction H as [|c m a m' _ IH Ha E]; [apply machine_new_inv|]. exact (wlp_ret_inv _ _ _ _ _ (cpu_step_inv c m a IH Ha) E). Qed.

(** C11: Spin locks exclude each other, in every interleaving of the accesses of the CPUs to their locks: at most one CPU has a lock;
    a CPU that has one has interrupts disabled; what [holding] returns on a CPU, with interrupts disabled, is whether it
    has the guard; and only taking a lock may panic, a drop of a guard never does. *)
Theorem spin_lock_safe m c l :
  machine_reachable m →
  (∀ c', l ∈ held (cpus m c) → l ∈ held (cpus m c') → c = c') ∧
  (l ∈ held (cpus m c) → sie (cpus m c) = false) ∧
  (sie (cpus m c) = false → holding c l m = Ret (bool_decide (l ∈ held (cpus m c))) m) ∧
  (∀ a, cpu_step c m a → a m = Panic → ∃ l' try, a = lock_begin c l' try).
Proof.
  intros Hr. pose proof (machine_reachable_inv m Hr) as Hm. pose proof Hm as [Hcpu Hlock]. destruct (Hlock l) as (H1 & H2 & H3). split; [|split; [|split]].
  - intros c' Hc Hc'. apply H2; by left.
  - intros Hl. by destruct (owner_held m c l Hm Hl) as (_ & _ & ?).
  - intros Hsie. rewrite /holding. change (get_cpu c) with (gets (λ m, cpus m c)). rewrite /gets /mbind /M_bind Hsie /=. f_equal.
    destruct (decide (l ∈ held (cpus m c))) as [Hl|Hl].
    + destruct (owner_held m c l Hm Hl) as (Ho & Hlk & _). by rewrite Hlk Ho !bool_decide_eq_true_2.
    + rewrite (bool_decide_eq_false_2 (l ∈ _)) // bool_decide_eq_false_2 ?andb_false_r //. by rewrite H1.
  - intros a Ha Hp. assert (∀ Q, wp a Q m → False) as Hno by (rewrite /wp Hp; done). destruct Ha as [l' try| | | | | | | |]; [eauto|..]; exfalso.
    + by eapply Hno, lock_swap_inv.
    + by eapply Hno, lock_own_inv.
    + by eapply Hno, drop_pop_inv; [|left].
    + by eapply Hno, drop_begin_inv.
    + by eapply Hno, drop_store_inv.
    + by eapply Hno, drop_pop_inv; [|right].
    + done.
    + done.
Qed.

(** The CPU 0 takes the lock 3. *)
Definition after_run (a : M Machine unit) (m : Machine) : Machine := match a m with Ret _ m' => m' | Panic => m end.
Definition begun : Machine := after_run (lock_begin 0 3 false) machine_new.
Definition swapped : Machine := after_run (lock_swap 0 3 false) begun.
Definition taken : Machine := after_run (lock_own 0 3) swapped.
Lemma spin_lock_safe_witness : sie (cpus taken 0) = false ∧ holding 0 3 taken = Ret true taken.
Proof.
  assert (machine_reachable taken) as Hr.
  { apply (machine_step 0 swapped (lock_own 0 3)); [|by apply do_own|done].
    apply (machine_step 0 begun (lock_swap 0 3 false)); [|by apply do_swap|done].
    apply (machine_step 0 machine_new (lock_begin 0 3 false)); [apply machine_initial|by apply do_lock|done]. }
  destruct (spin_lock_safe taken 0 3 Hr) as (_ & H2 & H3 & _). assert (3%nat ∈ held (cpus taken 0)) as Hin by by apply list_elem_of_singleton.
  split; [by apply H2|]. rewrite H3; [|by apply H2]. by rewrite bool_decide_eq_true_2.
Defined.
