(* ===== verification/SleepLock.v ===== *)
(** * Sleep locks

    Model of [crates/kernel/ov6_kernel/src/sync/sleep_lock.rs]: a flag under a spin lock and a condition variable, as a monitor.
    A guard is dropped only by the thread that has it. *)

From stdpp Require Import base list ssreflect.
From S2P Require Import Prelude.
From S2P Require Import Monitor.

(** [locked]: the flag and the process that has the lock. *)
Record SleepLockState : Type := {
  sl_locked : bool;
  sl_pid : option Z;
}.
Definition sleep_lock_new : SleepLockState := {| sl_locked := false; sl_pid := None |}.
(** The only condition variable, [unlocked]. *)
Inductive SleepCond : Type := Unlocked.
#[export] Instance sleepcond_eq_dec : EqDecision SleepCond.
Proof. solve_decision. Defined.

(** [wait_lock], [force_wait_lock], [try_lock] and the drop of a guard, by the process [pid]. *)
Inductive SleepCall : Type :=
  | WaitLock (pid : Z)
  | ForceWaitLock (pid : Z)
  | TryLock (pid : Z)
  | DropGuard.
Inductive SleepResult : Type := Acquired | LockingProcessAlreadyKilled | TryLockLocked | Dropped.
Notation SleepM := (M (Locked SleepLockState SleepCond)).
Notation SleepTurn := (Turn SleepCond SleepCall SleepResult).

Definition acquire (pid : Z) : SleepM SleepTurn :=
  on_data (modify (λ _, {| sl_locked := true; sl_pid := Some pid |}));;
  mret (Return Acquired).
Definition sleep_turn (k : SleepCall) : SleepM SleepTurn :=
  match k with
  | WaitLock pid =>
      s ← gets lk_data;
      if sl_locked s then mret (Wait Unlocked (Some LockingProcessAlreadyKilled) k) else acquire pid
  | ForceWaitLock pid =>
      s ← gets lk_data;
      if sl_locked s then mret (Wait Unlocked None k) else acquire pid
  | TryLock pid =>
      s ← gets lk_data;
      if sl_locked s then mret (Return TryLockLocked) else acquire pid
  | DropGuard =>
      on_data (modify (λ _, {| sl_locked := false; sl_pid := None |}));;
      notify Unlocked;;
      mret (Return Dropped)
  end.

(** The lock is acquired only when it is free, and the pid is recorded exactly while it is taken. *)
Definition sleep_inv (s : SleepLockState) : Prop := sl_locked s = true ↔ is_Some (sl_pid s).
Lemma sleep_turn_wp k s :
  sleep_inv s →
  wp (sleep_turn k) (λ o l,
    sleep_inv (lk_data l) ∧
    (∀ c : SleepCond, sl_locked s = true → c ∈ lk_notified l ∨ sl_locked (lk_data l) = true) ∧
    match o with
    | Return Acquired => sl_locked s = false ∧ sl_locked (lk_data l) = true
    | Return Dropped => sl_locked (lk_data l) = false
    | Return _ => lk_data l = s
    | Wait _ _ k' => lk_data l = s ∧ sl_locked s = true ∧ k' = k
    end) {| lk_data := s; lk_notified := [] |}.
Proof.
  intros Hs. destruct k as [pid|pid|pid|]; simpl sleep_turn.
  1-3: apply wp_bind, wp_gets; cbn [lk_data]; destruct (sl_locked s) eqn:E; [apply wp_ret; cbn [lk_data]; by auto|];
    apply wp_bind, on_data_modify_wp, wp_ret; cbn [lk_data lk_notified]; (split; [by split; [eauto|]|]); by split; [right|].
  apply wp_bind, on_data_modify_wp, wp_bind, turn_notify_wp, wp_ret. cbn [lk_data lk_notified]. split; [split; [done|by intros [? [=]]]|].
  split; [|done]. intros [] _. left. by apply list_elem_of_singleton.
Qed.
Lemma sleep_turn_laws k s :
  True → sleep_inv s →
  wp (sleep_turn k) (λ o l, sleep_inv (lk_data l) ∧
    (∀ c : SleepCond, sl_locked s = true → c ∈ lk_notified l ∨ sl_locked (lk_data l) = true) ∧
    match o with Return _ => True | Wait _ _ k' => sl_locked (lk_data l) = true ∧ True end) {| lk_data := s; lk_notified := [] |}.
Proof.
  intros _ Hs. eapply wp_mono; [exact (sleep_turn_wp k s Hs)|]. intros o l (H1 & H2 & H3). split; [done|]. split; [done|].
  destruct o as [|c killed k']; [done|]. destruct H3 as (-> & H3 & _). done.
Qed.
#[export] Instance sleep_monitor : Monitor sleep_turn := {|
  call_ok _ := True;
  m_inv := sleep_inv;
  blocked _ s := sl_locked s = true;
  turn_wp := sleep_turn_laws;
|}.

(** No thread sleeps on a lock that is free. *)
Theorem sleep_lock_sleepers s i t c killed k n :
  reachable sleep_turn (λ _, True) sleep_lock_new s → (∀ c, m_total s c < 2 ^ 64) →
  m_threads s !! i = Some t → t_pc t = Asleep c killed k n false → sl_locked (m_data s) = true.
Proof.
  intros Hr Hb Hi Hpc. pose proof (asleep_blocked sleep_turn sleep_lock_new s i t c killed k n) as H.
  assert (sleep_inv sleep_lock_new) as H0 by (split; [done|by intros [? [=]]]). apply (H H0 Hr Hb Hi Hpc).
Qed.
