(* ===== verification/Pipe.v ===== *)
(** * Pipes

    Model of [crates/kernel/ov6_kernel/src/file/pipe.rs]: a ring buffer of 512 bytes under a lock, with a condition variable for
    readers and one for writers.  [read], [write] and [close] are turns of a monitor: the code between two points where the lock is
    free.  The counters of bytes are 64-bit and wrap around.

    The bytes that [write] copies from user memory are an argument of the turn, and [read] returns the bytes it copies to
    user memory; copying itself is the subject of [VmCopy]. *)

From stdpp Require Import base list ssreflect.
From S2P Require Import Prelude KError.
From S2P Require Import Ring Monitor.

Definition PIPE_SIZE : Z := 512.

Record PipeDataLocked : Type := {
  p_data : list byte;
  p_nread : Z;
  p_nwrite : Z;
  p_read_open : bool;
  p_write_open : bool;
}.
(** The pipe of [new_file]. *)
Definition pipe_new : PipeDataLocked :=
  {| p_data := replicate (Z.to_nat PIPE_SIZE) Byte.x00; p_nread := 0; p_nwrite := 0; p_read_open := true; p_write_open := true |}.

Inductive PipeCond : Type := ReaderCond | WriterCond.
#[export] Instance pipecond_eq_dec : EqDecision PipeCond.
Proof. solve_decision. Defined.

(** A call, with the number of bytes a write has written so far. *)
Inductive PipeCall : Type :=
  | PipeWrite (src : list byte) (nwritten : Z)
  | PipeRead (len : Z)
  | PipeClose (writable : bool).
Inductive PipeResult : Type :=
  | Written (r : result KernelError Z)
  | BytesRead (r : result KernelError (list byte))
  | Closed.

Notation PipeM := (M (Locked PipeDataLocked PipeCond)).
Notation PipeTurn := (Turn PipeCond PipeCall PipeResult).

Definition push_byte (b : byte) (p : PipeDataLocked) : PipeDataLocked :=
  {| p_data := <[Z.to_nat (p_nwrite p mod PIPE_SIZE) := b]> (p_data p); p_nread := p_nread p; p_nwrite := wrap 64 (p_nwrite p + 1);
     p_read_open := p_read_open p; p_write_open := p_write_open p |}.
Definition pop_byte (p : PipeDataLocked) : PipeDataLocked :=
  {| p_data := p_data p; p_nread := wrap 64 (p_nread p + 1); p_nwrite := p_nwrite p;
     p_read_open := p_read_open p; p_write_open := p_write_open p |}.
Definition close_end (writable : bool) (p : PipeDataLocked) : PipeDataLocked :=
  {| p_data := p_data p; p_nread := p_nread p; p_nwrite := p_nwrite p;
     p_read_open := if writable then p_read_open p else false; p_write_open := if writable then false else p_write_open p |}.

(** Slices are shorter than the address space. *)
Definition SLICE_FUEL : positive := (2 ^ 64)%positive.

(** An iteration of the loop of [PipeFile::write]: it goes on, leaves the function or the loop. *)
Definition write_body (src : list byte) (nwritten : Z) : PipeM (Z + (PipeTurn + Z)) :=
  if nwritten <? Z.of_nat (length src) then
    pipe ← gets lk_data;
    if negb (p_read_open pipe) then
      if 0 <? nwritten then mret (inr (inr nwritten)) else mret (inr (inl (Return (Written (Err BrokenPipe)))))
    else if p_nwrite pipe =? wrap 64 (p_nread pipe + PIPE_SIZE) then
      notify ReaderCond;;
      mret (inr (inl (Wait WriterCond (Some (Written (Err CallerProcessAlreadyKilled))) (PipeWrite src nwritten))))
    else
      byte ← unwrap (src !! Z.to_nat nwritten);
      on_data (modify (push_byte byte));;
      mret (inl (nwritten + 1))
  else mret (inr (inr nwritten)).
Definition pipe_write (src : list byte) (nwritten : Z) : PipeM PipeTurn :=
  r ← while_ SLICE_FUEL (write_body src) nwritten;
  match r with
  | inl t => mret t
  | inr nwritten => notify ReaderCond;; mret (Return (Written (Ok nwritten)))
  end.

(** The loop of [PipeFile::read], with the bytes it has copied. *)
Definition read_body (len : Z) (dst : list byte) : PipeM (list byte + list byte) :=
  if Z.of_nat (length dst) <? len then
    pipe ← gets lk_data;
    if p_nread pipe =? p_nwrite pipe then mret (inr dst)
    else
      ch ← unwrap (p_data pipe !! Z.to_nat (p_nread pipe mod PIPE_SIZE));
      on_data (modify pop_byte);;
      mret (inl (dst ++ [ch]))
  else mret (inr dst).
Definition pipe_read (len : Z) : PipeM PipeTurn :=
  pipe ← gets lk_data;
  if (p_nread pipe =? p_nwrite pipe) && p_write_open pipe then
    mret (Wait ReaderCond (Some (BytesRead (Err CallerProcessAlreadyKilled))) (PipeRead len))
  else
    dst ← while_ SLICE_FUEL (read_body len) [];
    notify WriterCond;;
    mret (Return (BytesRead (Ok dst))).

(** [PipeFile::close]. *)
Definition pipe_close (writable : bool) : PipeM PipeTurn :=
  on_data (modify (close_end writable));;
  notify (if writable then ReaderCond else WriterCond);;
  mret (Return Closed).

Definition pipe_turn (k : PipeCall) : PipeM PipeTurn :=
  match k with
  | PipeWrite src nwritten => pipe_write src nwritten
  | PipeRead len => pipe_read len
  | PipeClose writable => pipe_close writable
  end.

(** ** The queue *)

(** The number of bytes in the pipe and the bytes. *)
Definition fill (p : PipeDataLocked) : Z := span (p_nread p) (p_nwrite p).
Definition queue (p : PipeDataLocked) : list byte := ring PIPE_SIZE (p_data p) (p_nread p) (p_nwrite p).
Definition pipe_ok (p : PipeDataLocked) : Prop :=
  length (p_data p) = Z.to_nat PIPE_SIZE ∧ 0 ≤ p_nread p < 2 ^ 64 ∧ 0 ≤ p_nwrite p < 2 ^ 64 ∧ fill p ≤ PIPE_SIZE.

Lemma pipe_size_ok : 0 < PIPE_SIZE < 2 ^ 64.
Proof. done. Qed.
Lemma pipe_size_div : 2 ^ 64 mod PIPE_SIZE = 0.
Proof. done. Qed.
Lemma fill_bound p : 0 ≤ fill p < 2 ^ 64.
Proof. apply span_bound. Qed.
Lemma queue_length p : length (queue p) = Z.to_nat (fill p).
Proof. apply ring_length. Qed.
Lemma empty_spec p : pipe_ok p → (p_nread p =? p_nwrite p) = bool_decide (queue p = []).
Proof. intros (_ & Hr & Hw & _). rewrite span_zero //. apply bool_decide_ext, ring_nil. Qed.
Lemma full_spec p : pipe_ok p → (p_nwrite p =? wrap 64 (p_nread p + PIPE_SIZE)) = bool_decide (Z.of_nat (length (queue p)) = PIPE_SIZE).
Proof.
  intros (_ & Hr & Hw & _). pose proof (fill_bound p). rewrite span_full //. apply bool_decide_ext. rewrite queue_length Z2Nat.id //. lia.
Qed.
Lemma push_spec b p :
  pipe_ok p → Z.of_nat (length (queue p)) < PIPE_SIZE → pipe_ok (push_byte b p) ∧ queue (push_byte b p) = queue p ++ [b].
Proof.
  intros (Hl & Hr & Hw & Hle) Hq. pose proof (fill_bound p) as Hf. rewrite queue_length Z2Nat.id in Hq; [|lia]. split.
  - split; [by rewrite length_insert|]. split; [done|]. split; [apply wrap_bound; lia|].
    rewrite /fill /= span_succ_r -/(fill p); rewrite /PIPE_SIZE in Hq |- *; lia.
  - by apply (ring_push PIPE_SIZE pipe_size_ok pipe_size_div).
Qed.
Lemma pop_spec p :
  pipe_ok p → queue p ≠ [] →
  ∃ b, pipe_ok (pop_byte p) ∧ p_data p !! Z.to_nat (p_nread p mod PIPE_SIZE) = Some b ∧ queue p = b :: queue (pop_byte p).
Proof.
  intros (Hl & Hr & Hw & Hle) Hq. pose proof (fill_bound p) as Hf.
  assert (0 < fill p) as Hpos. { destruct (Z.eq_dec (fill p) 0) as [E|]; [|lia]. by destruct Hq; apply ring_nil. }
  destruct (ring_pop PIPE_SIZE pipe_size_ok pipe_size_div (p_data p) (p_nread p) (p_nwrite p) Hl Hpos) as [Hb E].
  eexists. split; [|split; [exact Hb|exact E]].
  split; [done|]. split; [apply wrap_bound; lia|]. split; [done|]. rewrite /fill /= span_succ_l // -/(fill p). lia.
Qed.

(** ** Specification

    A pipe is a bounded queue of bytes with two ends that are open or closed. *)

Record Queue : Type := {
  q_bytes : list byte;
  q_read_open : bool;
  q_write_open : bool;
}.
Definition queue_of (p : PipeDataLocked) : Queue :=
  {| q_bytes := queue p; q_read_open := p_read_open p; q_write_open := p_write_open p |}.
Definition with_bytes (l : list byte) (q : Queue) : Queue :=
  {| q_bytes := l; q_read_open := q_read_open q; q_write_open := q_write_open q |}.

(** A turn on the queue: how it ends, the new queue and who is notified.  A write adds what fits, and waits when something
    remains; a read takes what it asks for and is there, and waits when nothing is there and something may come. *)
Definition queue_turn (k : PipeCall) (q : Queue) : PipeTurn * Queue * list PipeCond :=
  match k with
  | PipeWrite src n =>
      if Z.of_nat (length src) <=? n then (Return (Written (Ok n)), q, [ReaderCond])
      else if negb (q_read_open q) then
        if 0 <? n then (Return (Written (Ok n)), q, [ReaderCond]) else (Return (Written (Err BrokenPipe)), q, [])
      else
        let new := take (Z.to_nat PIPE_SIZE - length (q_bytes q)) (drop (Z.to_nat n) src) in
        let m := n + Z.of_nat (length new) in
        (if Z.of_nat (length src) <=? m then Return (Written (Ok m))
         else Wait WriterCond (Some (Written (Err CallerProcessAlreadyKilled))) (PipeWrite src m),
         with_bytes (q_bytes q ++ new) q, [ReaderCond])
  | PipeRead len =>
      if bool_decide (q_bytes q = []) && q_write_open q then
        (Wait ReaderCond (Some (BytesRead (Err CallerProcessAlreadyKilled))) (PipeRead len), q, [])
      else
        (Return (BytesRead (Ok (take (Z.to_nat len) (q_bytes q)))), with_bytes (drop (Z.to_nat len) (q_bytes q)) q, [WriterCond])
  | PipeClose writable =>
      (Return Closed,
       {| q_bytes := q_bytes q; q_read_open := if writable then q_read_open q else false;
          q_write_open := if writable then false else q_write_open q |},
       [if writable then ReaderCond else WriterCond])
  end.

(** What the callers pass: a slice is shorter than the address space, and a write has not written more than its slice. *)
Definition pipe_call_ok (k : PipeCall) : Prop :=
  match k with
  | PipeWrite src n => Z.of_nat (length src) < 2 ^ 64 - 1 ∧ 0 ≤ n ≤ Z.of_nat (length src)
  | PipeRead len => 0 ≤ len < 2 ^ 64 - 1
  | PipeClose _ => True
  end.

(** The loop of [write] from [n] has written up to [m]. *)
Definition wrote (src : list byte) (n : Z) (p : PipeDataLocked) (m : Z) (l : Locked PipeDataLocked PipeCond) : Prop :=
  n ≤ m ≤ Z.of_nat (length src) ∧ pipe_ok (lk_data l) ∧ (n < m → p_read_open p = true) ∧
  queue_of (lk_data l) = with_bytes (queue p ++ take (Z.to_nat (m - n)) (drop (Z.to_nat n) src)) (queue_of p).

Lemma pipe_write_loop_wp src n p :
  pipe_call_ok (PipeWrite src n) → pipe_ok p →
  wp (while_ SLICE_FUEL (write_body src) n) (λ r l, ∃ m, wrote src n p m l ∧
    match r with
    | inr m' => m' = m ∧ lk_notified l = [] ∧ (m = Z.of_nat (length src) ∨ p_read_open p = false ∧ 0 < m)
    | inl t =>
        m < Z.of_nat (length src) ∧
        (t = Wait WriterCond (Some (Written (Err CallerProcessAlreadyKilled))) (PipeWrite src m) ∧ lk_notified l = [ReaderCond] ∧
           p_read_open p = true ∧ Z.of_nat (length (queue (lk_data l))) = PIPE_SIZE ∨
         t = Return (Written (Err BrokenPipe)) ∧ lk_notified l = [] ∧ p_read_open p = false ∧ m = 0)
    end) {| lk_data := p; lk_notified := [] |}.
Proof.
  intros [Hlen Hn] Hp.
  apply (while_wp _ _ (λ m l, wrote src n p m l ∧ lk_notified l = []) (λ m _, Z.of_nat (length src) - m)).
  - intros m l [Hw Hno]. pose proof Hw as (Hm & Hok & Hopen & Hq). split; [lia|]. rw /write_body.
    destruct (Z.ltb_spec m (Z.of_nat (length src))) as [Hlt|Hge]; [|wp_steps; exists m; split; [done|]; split; [done|]; split; [done|]; left; lia].
    wp_steps. pose proof (f_equal q_read_open Hq) as Hro. simpl in Hro. rewrite Hro full_spec //.
    destruct (p_read_open p) eqn:Ero; simpl.
    + case_bool_decide as Hfull.
      * wp_steps. apply turn_notify_wp. wp_steps. exists m. split; [done|]. split; [done|]. left. by rewrite Hno.
      * destruct (lookup_lt_is_Some_2 src (Z.to_nat m)) as [b Hb]; [lia|].
        apply wp_bind. apply (wp_unwrap _ b); [done|]. apply wp_bind, on_data_modify_wp. wp_steps.
        destruct (push_spec b (lk_data l) Hok) as [Hok' Hq']; [destruct Hok as (_ & _ & _ & Hle); rewrite queue_length in Hfull |- *; pose proof (fill_bound (lk_data l)); lia|].
        split; [|lia]. split; [|done]. split; [lia|]. split; [done|]. split; [done|].
        rewrite /queue_of /= Hq'. pose proof (f_equal q_bytes Hq) as Hqb. simpl in Hqb. rewrite Hqb Hro.
        pose proof (f_equal q_write_open Hq) as Hwo. simpl in Hwo. rewrite Hwo /with_bytes /= Ero. f_equal. rewrite -app_assoc. f_equal.
        replace (Z.to_nat (m + 1 - n)) with (S (Z.to_nat (m - n))) by lia. symmetry. apply take_S_r. rewrite lookup_drop.
        replace (Z.to_nat n + Z.to_nat (m - n))%nat with (Z.to_nat m) by lia. done.
    + destruct (Z.ltb_spec 0 m); wp_steps; exists m; (split; [done|]); [by auto|]. split; [done|]. right. split; [done|]. split; [done|]. split; [done|lia].
  - rewrite /SLICE_FUEL. simpl. lia.
  - split; [|done]. split; [lia|]. split; [done|]. split; [lia|]. rewrite Z.sub_diag /= app_nil_r. done.
Qed.

Lemma pipe_read_loop_wp len p :
  0 ≤ len < 2 ^ 64 - 1 → pipe_ok p →
  wp (while_ SLICE_FUEL (read_body len) []) (λ dst l, dst = take (Z.to_nat len) (queue p) ∧ pipe_ok (lk_data l) ∧
    queue_of (lk_data l) = with_bytes (drop (Z.to_nat len) (queue p)) (queue_of p) ∧ lk_notified l = []) {| lk_data := p; lk_notified := [] |}.
Proof.
  intros Hlen Hp.
  apply (while_wp _ _ (λ dst l, Z.of_nat (length dst) ≤ len ∧ pipe_ok (lk_data l) ∧ lk_notified l = [] ∧
    queue p = dst ++ queue (lk_data l) ∧ queue_of (lk_data l) = with_bytes (queue (lk_data l)) (queue_of p)) (λ dst _, len - Z.of_nat (length dst))).
  - intros dst l (Hdst & Hok & Hno & Hq & Hqo). split; [lia|]. rw /read_body.
    destruct (Z.ltb_spec (Z.of_nat (length dst)) len) as [Hlt|Hge].
    + wp_steps. rewrite empty_spec //. case_bool_decide as He.
      * wp_steps. rewrite He app_nil_r in Hq. rewrite Hq take_ge; [|lia]. rewrite drop_ge; [|lia]. rewrite He in Hqo. done.
      * destruct (pop_spec (lk_data l) Hok He) as (ch & Hok' & Hch & Hq').
        apply wp_bind. apply (wp_unwrap _ _ _ _ Hch). apply wp_bind, on_data_modify_wp. wp_steps. rewrite length_app /=.
        split; [|lia]. split; [lia|]. split; [done|]. split; [done|]. split; [by rewrite Hq Hq' -app_assoc|].
        rewrite /queue_of /=. pose proof (f_equal q_read_open Hqo) as Hro. pose proof (f_equal q_write_open Hqo) as Hwo.
        simpl in Hro, Hwo. by rewrite Hro Hwo.
    + wp_steps. assert (Z.to_nat len = length dst) as -> by lia. rewrite Hq take_app_length drop_app_length. done.
  - rewrite /SLICE_FUEL. simpl. lia.
  - split; [simpl; lia|]. by split.
Qed.

(** The write turn of the queue, when the loop stops at [m]. *)
Lemma queue_write_stop src n p m l :
  pipe_call_ok (PipeWrite src n) → wrote src n p m l → (m = Z.of_nat (length src) ∨ p_read_open p = false ∧ 0 < m) →
  queue_turn (PipeWrite src n) (queue_of p) = (Return (Written (Ok m)), queue_of (lk_data l), [ReaderCond]).
Proof.
  intros [Hlen Hn] (Hm & (_ & _ & _ & Hle) & Hopen & Hq) Hstop. pose proof (f_equal (λ q, length (q_bytes q)) Hq) as Hl.
  pose proof (fill_bound (lk_data l)). rewrite /= queue_length length_app length_take length_drop in Hl. rewrite Hq /=.
  destruct (decide (n < m)) as [Hlt|Hge].
  - rewrite (Hopen Hlt) in Hstop |- *. destruct Hstop as [->|[[=] _]]. rewrite (proj2 (Z.leb_gt _ n)) //=.
    rewrite /PIPE_SIZE in Hle |- *. rewrite !(take_ge (drop _ _)); [|rewrite length_drop; lia..]. rewrite length_drop.
    replace (n + Z.of_nat (length src - Z.to_nat n)) with (Z.of_nat (length src)) by lia. by rewrite Z.leb_refl.
  - assert (m = n) as -> by lia. rewrite Z.sub_diag /= app_nil_r. change (with_bytes (queue p) (queue_of p)) with (queue_of p).
    destruct (Z.leb_spec (Z.of_nat (length src)) n); [done|]. destruct Hstop as [->|[-> Hpos]]; [lia|]. simpl.
    by rewrite (proj2 (Z.ltb_lt 0 n) Hpos).
Qed.
Lemma queue_write_full src n p m l :
  pipe_call_ok (PipeWrite src n) → wrote src n p m l → p_read_open p = true → m < Z.of_nat (length src) →
  Z.of_nat (length (queue (lk_data l))) = PIPE_SIZE →
  queue_turn (PipeWrite src n) (queue_of p) =
    (Wait WriterCond (Some (Written (Err CallerProcessAlreadyKilled))) (PipeWrite src m), queue_of (lk_data l), [ReaderCond]).
Proof.
  intros [Hlen Hn] (Hm & _ & _ & Hq) Hro Hlt Hfull. pose proof (f_equal (λ q, length (q_bytes q)) Hq) as Hl.
  rewrite /= length_app length_take length_drop in Hl. rewrite Hq /= Hro (proj2 (Z.leb_gt _ n)) /=; [|lia].
  rewrite /PIPE_SIZE in Hfull |- *. replace (Z.to_nat 512 - length (queue p))%nat with (Z.to_nat (m - n)) by lia.
  rewrite length_take length_drop. replace (n + Z.of_nat (Z.to_nat (m - n) `min` (length src - Z.to_nat n))) with m by lia.
  by rewrite (proj2 (Z.leb_gt _ m)).
Qed.

Lemma pipe_turn_wp k p :
  pipe_call_ok k → pipe_ok p →
  wp (pipe_turn k) (λ t l, pipe_ok (lk_data l) ∧ queue_turn k (queue_of p) = (t, queue_of (lk_data l), lk_notified l)) {| lk_data := p; lk_notified := [] |}.
Proof.
  intros Hk Hp. destruct k as [src n|len|writable]; simpl pipe_turn.
  - rw /pipe_write. apply wp_bind. eapply wp_mono; [exact (pipe_write_loop_wp src n p Hk Hp)|]. intros r l (m & Hw & Hr).
    pose proof Hw as (Hm & Hok & Hopen & Hq). destruct r as [t|m'].
    + wp_steps. split; [done|]. destruct Hr as [Hlt [(-> & -> & Hro & Hfull)|(-> & -> & Hro & ->)]]; [by apply queue_write_full|].
      destruct Hk as [Hlen Hn]. assert (n = 0) as -> by lia. rewrite /= Hro (proj2 (Z.leb_gt _ 0)) //= Hq /= app_nil_r. done.
    + destruct Hr as (-> & Hno & Hstop). apply wp_bind, turn_notify_wp. wp_steps. split; [done|]. rewrite Hno. by apply queue_write_stop.
  - rw /pipe_read. apply wp_bind, wp_gets. simpl. rewrite empty_spec //. destruct (bool_decide (queue p = []) && p_write_open p) eqn:E.
    + wp_steps. done.
    + apply wp_bind. eapply wp_mono; [exact (pipe_read_loop_wp len p Hk Hp)|]. intros dst l (-> & Hok & Hq & Hno). apply wp_bind, turn_notify_wp. wp_steps.
      by rewrite Hq Hno.
  - rw /pipe_close. apply wp_bind, on_data_modify_wp, wp_bind, turn_notify_wp. wp_steps. by destruct writable.
Qed.

(** ** Pipes as monitors *)

(** A reader waits for bytes while the write end is open, a writer for room while the read end is. *)
Definition pipe_blocked (c : PipeCond) (q : Queue) : Prop :=
  match c with
  | ReaderCond => q_bytes q = [] ∧ q_write_open q = true
  | WriterCond => Z.of_nat (length (q_bytes q)) = PIPE_SIZE ∧ q_read_open q = true
  end.
Lemma queue_write_blocked src n q :
  pipe_call_ok (PipeWrite src n) → Z.of_nat (length (q_bytes q)) ≤ PIPE_SIZE → q_read_open q = true →
  let new := take (Z.to_nat PIPE_SIZE - length (q_bytes q)) (drop (Z.to_nat n) src) in
  (pipe_blocked WriterCond q → pipe_blocked WriterCond (with_bytes (q_bytes q ++ new) q)) ∧
  (n + Z.of_nat (length new) < Z.of_nat (length src) →
   pipe_blocked WriterCond (with_bytes (q_bytes q ++ new) q) ∧ pipe_call_ok (PipeWrite src (n + Z.of_nat (length new)))).
Proof.
  intros [Hlen Hn] Hq Hro new. rewrite /pipe_blocked /= length_app Hro. subst new. rewrite !length_take !length_drop.
  rewrite /PIPE_SIZE in Hq |- *. split; [intros [? _]; split; [lia|done]|]. intros Hlt. split; [split; [lia|done]|]. lia.
Qed.
Lemma queue_turn_blocked k q :
  pipe_call_ok k → Z.of_nat (length (q_bytes q)) ≤ PIPE_SIZE →
  (∀ c, pipe_blocked c q → c ∈ (queue_turn k q).2 ∨ pipe_blocked c (queue_turn k q).1.2) ∧
  match (queue_turn k q).1.1 with Return _ => True | Wait c _ k' => pipe_blocked c (queue_turn k q).1.2 ∧ pipe_call_ok k' end.
Proof.
  intros Hk Hq. destruct k as [src n|len|writable]; simpl queue_turn.
  - case_match; [by split; [auto|]|]. destruct (q_read_open q) eqn:Hro; simpl; [|case_match; by split; [auto|]].
    destruct (queue_write_blocked src n q Hk Hq Hro) as [H1 H2]. split.
    + intros [] Hb; [left; by apply list_elem_of_singleton|right; by apply H1].
    + destruct (Z.leb_spec (Z.of_nat (length src)) (n + Z.of_nat (length (take (Z.to_nat PIPE_SIZE - length (q_bytes q)) (drop (Z.to_nat n) src))))); [done|].
      by apply H2.
  - destruct (bool_decide (q_bytes q = []) && q_write_open q) eqn:E; simpl.
    + apply andb_true_iff in E as [He%bool_decide_eq_true ?]. by split; [auto|].
    + split; [|done]. intros [] Hb; [|left; by apply list_elem_of_singleton]. destruct Hb as [He Hwo].
      by rewrite He Hwo bool_decide_eq_true_2 in E.
  - split; [|done]. intros [] [H1 H2]; destruct writable; simpl; try (left; by apply list_elem_of_singleton); by right.
Qed.

(** The history of a pipe: the bytes that were written and read, in this order. *)
Record History : Type := {
  h_sent : list byte;
  h_got : list byte;
}.
Definition record_turn (k : PipeCall) (t : PipeTurn) (h : History) : History :=
  match k, t with
  | PipeWrite src n, Return (Written (Ok m)) | PipeWrite src n, Wait _ _ (PipeWrite _ m) =>
      {| h_sent := h_sent h ++ slice (Z.to_nat n) (Z.to_nat (m - n)) src; h_got := h_got h |}
  | PipeRead _, Return (BytesRead (Ok dst)) => {| h_sent := h_sent h; h_got := h_got h ++ dst |}
  | _, _ => h
  end.
Definition recorded_turn (k : PipeCall) : M (Locked (PipeDataLocked * History) PipeCond) PipeTurn := λ l,
  match pipe_turn k {| lk_data := (lk_data l).1; lk_notified := lk_notified l |} with
  | Ret t l' => Ret t {| lk_data := (lk_data l', record_turn k t (lk_data l).2); lk_notified := lk_notified l' |}
  | Panic => Panic
  end.

(** The history and the queue fit. *)
Definition history_ok (d : PipeDataLocked * History) : Prop := pipe_ok d.1 ∧ h_sent d.2 = h_got d.2 ++ queue d.1.

Lemma record_turn_ok k q h :
  pipe_call_ok k → h_sent h = h_got h ++ q_bytes q →
  h_sent (record_turn k (queue_turn k q).1.1 h) = h_got (record_turn k (queue_turn k q).1.1 h) ++ q_bytes (queue_turn k q).1.2.
Proof.
  intros Hk Hh. destruct k as [src n|len|writable]; simpl queue_turn.
  - assert (∀ m, h_sent h ++ slice (Z.to_nat n) (Z.to_nat (m - m)) src = h_got h ++ q_bytes q) as Hnone.
    { intros m. by rewrite Z.sub_diag /slice /= app_nil_r. }
    destruct (Z.of_nat (length src) <=? n); [apply Hnone|].
    destruct (q_read_open q); cbn [negb]; [|destruct (0 <? n); [apply Hnone|done]]. cbn [fst snd].
    set (new := take _ _). assert (slice (Z.to_nat n) (Z.to_nat (n + Z.of_nat (length new) - n)) src = new) as Hnew.
    { replace (n + Z.of_nat (length new) - n) with (Z.of_nat (length new)) by lia. rewrite /slice Nat2Z.id /new length_take -take_take.
      by rewrite (take_ge (drop _ _)). }
    assert (h_sent h ++ slice (Z.to_nat n) (Z.to_nat (n + Z.of_nat (length new) - n)) src = h_got h ++ q_bytes q ++ new) as Hadd by by rewrite Hnew Hh app_assoc.
    by destruct (Z.of_nat (length src) <=? n + Z.of_nat (length new)).
  - destruct (bool_decide _ && _); simpl; [done|]. by rewrite Hh -app_assoc take_drop.
  - done.
Qed.

Lemma pipe_ok_length p : pipe_ok p → Z.of_nat (length (queue p)) ≤ PIPE_SIZE.
Proof. intros (_ & _ & _ & H). rewrite queue_length. pose proof (fill_bound p). lia. Qed.
Lemma pipe_new_ok : pipe_ok pipe_new ∧ queue pipe_new = [].
Proof. by vm_compute. Qed.

Lemma recorded_turn_wp k d :
  pipe_call_ok k → history_ok d →
  wp (recorded_turn k) (λ o l,
    history_ok (lk_data l) ∧
    (∀ c, pipe_blocked c (queue_of d.1) → c ∈ lk_notified l ∨ pipe_blocked c (queue_of (lk_data l).1)) ∧
    match o with
    | Return _ => True
    | Wait c _ k' => pipe_blocked c (queue_of (lk_data l).1) ∧ pipe_call_ok k'
    end) {| lk_data := d; lk_notified := [] |}.
Proof.
  destruct d as [p h]. intros Hk [Hp Hh]. simpl in Hp, Hh. destruct (wp_run _ _ _ (pipe_turn_wp k p Hk Hp)) as (t & [p' ns] & E & Hp' & Hq).
  rewrite /wp /recorded_turn /= E /=. simpl in Hp', Hq.
  destruct (queue_turn_blocked k (queue_of p) Hk (pipe_ok_length p Hp)) as [Hb Ht].
  pose proof (record_turn_ok k (queue_of p) h Hk Hh) as Hrec. rewrite Hq /= in Hb, Ht, Hrec. done.
Qed.
#[export] Instance pipe_monitor : Monitor recorded_turn := {|
  call_ok := pipe_call_ok;
  m_inv := history_ok;
  blocked c d := pipe_blocked c (queue_of d.1);
  turn_wp := recorded_turn_wp;
|}.

Definition empty_history : History := {| h_sent := []; h_got := [] |}.
Lemma history_new_ok : history_ok (pipe_new, empty_history).
Proof. by split; [apply pipe_new_ok|]. Qed.

(** ** Properties *)

(** C10: The ring buffer implements the bounded queue: every turn of [read], [write] and [close] on a well-formed pipe ends, does
    not panic, and is the turn of the queue: it returns or waits as the queue says, leaves the pipe well formed with the
    bytes of the queue, and notifies the same condition variables; also when the 64-bit counters wrap around. *)
Theorem pipe_refines_queue k p :
  pipe_call_ok k → pipe_ok p →
  ∃ t p' ns, pipe_turn k {| lk_data := p; lk_notified := [] |} = Ret t {| lk_data := p'; lk_notified := ns |} ∧
    pipe_ok p' ∧ queue_turn k (queue_of p) = (t, queue_of p', ns).
Proof.
  intros Hk Hp. destruct (wp_run _ _ _ (pipe_turn_wp k p Hk Hp)) as (t & [p' ns] & E & Hp' & Hq). eauto 10.
Qed.
(** A write across the end of the ring and the wrap-around of the counters. *)
Definition wrapping_pipe : PipeDataLocked :=
  {| p_data := replicate 512 Byte.x61; p_nread := 2 ^ 64 - 2; p_nwrite := 2 ^ 64 - 1; p_read_open := true; p_write_open := true |}.
Lemma pipe_refines_queue_witness :
  ∃ t p' ns, pipe_turn (PipeWrite [Byte.x62; Byte.x63] 0) {| lk_data := wrapping_pipe; lk_notified := [] |} = Ret t {| lk_data := p'; lk_notified := ns |} ∧
    pipe_ok p' ∧ queue_turn (PipeWrite [Byte.x62; Byte.x63] 0) (queue_of wrapping_pipe) = (t, queue_of p', ns).
Proof. apply (pipe_refines_queue (PipeWrite [Byte.x62; Byte.x63] 0) wrapping_pipe); by vm_compute. Defined.

(** C34: A pipe delivers what was written: whatever threads read, write and close a new pipe in whatever order, the bytes that
    were written are the bytes that were read followed by the at most 512 bytes in the pipe; nothing is lost, duplicated or
    reordered. *)
Theorem pipe_delivers s :
  reachable recorded_turn pipe_call_ok (pipe_new, empty_history) s →
  let '(p, h) := m_data s in h_sent h = h_got h ++ queue p ∧ Z.of_nat (length (queue p)) ≤ PIPE_SIZE.
Proof.
  intros Hr. pose proof (monitor_inv recorded_turn (pipe_new, empty_history) s) as H. destruct (H history_new_ok Hr) as [[Hp Hh] _]. destruct (m_data s) as [p h].
  by split; [|apply pipe_ok_length].
Qed.
Definition put_byte (b : byte) : PipeCall := PipeWrite [b] 0.
(** A thread that writes a byte, and what the system is then. *)
Definition writer : @Sys (PipeDataLocked * History) PipeCond PipeCall PipeResult :=
  {| m_data := (pipe_new, empty_history); m_total := λ _, 0; m_threads := [{| t_pc := Ready (put_byte Byte.x61); t_killed := false |}] |}.
Lemma pipe_delivers_witness :
  ∃ s', step recorded_turn pipe_call_ok writer s' ∧
    let '(p, h) := m_data s' in h_sent h = h_got h ++ queue p ∧ Z.of_nat (length (queue p)) ≤ PIPE_SIZE.
Proof.
  destruct (run_turn recorded_turn 0 {| t_pc := Ready (put_byte Byte.x61); t_killed := false |} (put_byte Byte.x61) writer) as [s'|] eqn:E.
  - assert (step recorded_turn pipe_call_ok writer s') as Hs by (eapply step_turn; [| |exact E]; done).
    exists s'. split; [exact Hs|]. apply (pipe_delivers s').
    refine (reachable_step _ _ _ writer s' _ Hs). refine (reachable_step _ _ _ (initial (pipe_new, empty_history)) writer _ _); [apply reachable_initial|].
    apply (step_spawn recorded_turn pipe_call_ok (initial (pipe_new, empty_history)) (put_byte Byte.x61) false). by vm_compute.
  - exfalso. revert E. rewrite /run_turn. destruct (recorded_turn _ _) eqn:E; [done|]. revert E. by vm_compute.
Defined.

(** C27: No thread sleeps on a pipe without a reason: in every reachable state in which a condition variable was notified less
    than 2^64 times, a reader that sleeps and was not woken up has nothing to read and the write end is open, a writer that
    sleeps has no room and the read end is open, and neither of them was killed. *)
Theorem pipe_sleepers s i t c killed k n :
  reachable recorded_turn pipe_call_ok (pipe_new, empty_history) s → (∀ c, m_total s c < 2 ^ 64) →
  m_threads s !! i = Some t → t_pc t = Asleep c killed k n false →
  pipe_blocked c (queue_of (m_data s).1) ∧ (t_killed t = true → killed = None).
Proof.
  intros Hr Hb Hi Hpc. pose proof (asleep_blocked recorded_turn (pipe_new, empty_history) s i t c killed k n) as H.
  exact (H history_new_ok Hr Hb Hi Hpc).
Qed.
Definition sleeper : @Thread PipeCond PipeCall PipeResult :=
  {| t_pc := Asleep ReaderCond (Some (BytesRead (Err CallerProcessAlreadyKilled))) (PipeRead 8) 0 false; t_killed := false |}.
Definition reader_sleeps : @Sys (PipeDataLocked * History) PipeCond PipeCall PipeResult :=
  {| m_data := (pipe_new, empty_history); m_total := λ _, 0; m_threads := [sleeper] |}.
Lemma pipe_sleepers_witness : pipe_blocked ReaderCond (queue_of (m_data reader_sleeps).1).
Proof.
  refine (proj1 (pipe_sleepers reader_sleeps 0 sleeper ReaderCond _ (PipeRead 8) 0 _ _ eq_refl eq_refl)); [|by intros c].
  refine (reachable_step _ _ _ {| m_data := (pipe_new, empty_history); m_total := λ _, 0; m_threads := [{| t_pc := Ready (PipeRead 8); t_killed := false |}] |} _ _ _).
  - refine (reachable_step _ _ _ (initial (pipe_new, empty_history)) _ _ _); [apply reachable_initial|].
    by apply (step_spawn recorded_turn pipe_call_ok (initial (pipe_new, empty_history)) (PipeRead 8) false).
  - by eapply (step_turn recorded_turn pipe_call_ok _ 0 {| t_pc := Ready (PipeRead 8); t_killed := false |} (PipeRead 8)).
Defined.
