(* ===== verification/File.v ===== *)
(** * Open files

    Model of [crates/kernel/ov6_kernel/src/file/mod.rs], [alloc.rs], [inode.rs], [device.rs] and of [new_file] of [pipe.rs]: the
    table of open files, reference-counted cells that name a pipe, an inode with an offset, or a device.  A pipe is itself
    reference counted and closes an end when the file of that end is dropped.

    What the files need of the inodes, of the devices and of the page allocator is the interface [InodeLayer]. *)

From stdpp Require Import base gmap list ssreflect.
From S2P Require Import Prelude KError.
From S2P Require Import Monitor Pipe Proc.

Definition NFILE : Z := 100.
(** [((MAX_OP_BLOCKS - 1 - 1 - 2) / 2) * FS_BLOCK_SIZE]: what [write] gives to a transaction. *)
Definition MAX_WRITE : Z := (10 - 1 - 1 - 2) / 2 * 1024.

(** ** Devices *)

Definition NDEV : Z := 10.
Record Device (E : Type) : Type := {
  dev_read : Z → M E (result KernelError (list byte));
  dev_write : list byte → M E (result KernelError Z);
}.
Arguments dev_read {E}.
Arguments dev_write {E}.
Definition DeviceTable (E : Type) : Type := list (option (Device E)).
Definition device_table_new (E : Type) : DeviceTable E := replicate (Z.to_nat NDEV) None.
(** [DeviceTable::register] panics for a number the table does not have; [get_device] does not find it. *)
Definition register {E} (no : Z) (dev : Device E) : M (DeviceTable E) unit :=
  devices ← get;
  assert_ (Z.to_nat no <? length devices)%nat;;
  put (<[Z.to_nat no := Some dev]> devices).
Definition get_device {E} (devices : DeviceTable E) (no : Z) : option (Device E) := devices !! Z.to_nat no ≫= id.

Lemma get_device_register {E} no no' (dev : Device E) devices devices' :
  0 ≤ no → 0 ≤ no' → register no dev devices = Ret tt devices' →
  get_device devices' no' = if decide (no' = no) then Some dev else get_device devices no'.
Proof.
  intros Hno Hno'. rewrite /register /mbind /M_bind /=. destruct (Nat.ltb_spec (Z.to_nat no) (length devices)) as [Hlt|]; [|done]. simpl. intros [= <-].
  rewrite /get_device. case_decide as Heq; [subst no'; by rewrite list_lookup_insert_eq|].
  rewrite list_lookup_insert_ne //. lia.
Qed.

(** ** Interface *)

Class InodeLayer (E : Type) := {
  Ip : Type;
  FileStat : Type;
  clone_inode : Ip → M E Ip;
  root_ip : M E Ip;
  close_inode : Ip → M E unit;
  stat_inode : Ip → M E (result KernelError FileStat);
  (** A read of up to the given number of bytes at the offset, and a write in one transaction. *)
  inode_read : Ip → Z → Z → M E (result KernelError (list byte));
  inode_write : Ip → Z → list byte → M E (result KernelError Z);
  (** The registered devices. *)
  devices : DeviceTable E;
  (** Whether [PageFrameAllocator] has a page. *)
  page_available : M E bool;
}.

Section file.
Context {E : Type} `{!InodeLayer E}.

(** ** Data *)

Inductive SpecificData : Type :=
  | PipeFile (p : positive)
  | InodeFile (ip : Ip) (off : Z)
  | DeviceFile (major : Z) (ip : Ip).
Record FileData : Type := {
  fd_readable : bool;
  fd_writable : bool;
  fd_data : SpecificData;
}.
(** The [ArcInner] of a file and of a pipe. *)
Record FileCell : Type := {
  fc_strong : Z;
  fc_file : FileData;
}.
Record PipeCell : Type := {
  pi_strong : Z;
  pi_pipe : PipeDataLocked;
}.
(** The table, with the free slots of its slab; the notifications of the pipes are recorded. *)
Record Files : Type := {
  f_free : list nat;
  f_cells : gmap nat FileCell;
  f_pipes : gmap positive PipeCell;
  f_notified : list (positive * PipeCond);
  f_env : E;
}.
Definition with_free (l : list nat) (s : Files) : Files :=
  {| f_free := l; f_cells := f_cells s; f_pipes := f_pipes s; f_notified := f_notified s; f_env := f_env s |}.
Definition with_cells (m : gmap nat FileCell) (s : Files) : Files :=
  {| f_free := f_free s; f_cells := m; f_pipes := f_pipes s; f_notified := f_notified s; f_env := f_env s |}.
Definition with_pipes (m : gmap positive PipeCell) (s : Files) : Files :=
  {| f_free := f_free s; f_cells := f_cells s; f_pipes := m; f_notified := f_notified s; f_env := f_env s |}.
Definition with_notified (l : list (positive * PipeCond)) (s : Files) : Files :=
  {| f_free := f_free s; f_cells := f_cells s; f_pipes := f_pipes s; f_notified := l; f_env := f_env s |}.
Definition with_env (e : E) (s : Files) : Files :=
  {| f_free := f_free s; f_cells := f_cells s; f_pipes := f_pipes s; f_notified := f_notified s; f_env := e |}.
Definition on_env {A} (m : M E A) : M Files A := zoom f_env with_env m.

Definition get_cell (f : nat) : M Files FileCell := s ← get; unwrap (f_cells s !! f).
Definition put_cell (f : nat) (c : FileCell) : M Files unit := modify (λ s, with_cells (<[f := c]> (f_cells s)) s).
Definition get_pipe (p : positive) : M Files PipeCell := s ← get; unwrap (f_pipes s !! p).
Definition put_pipe (p : positive) (c : PipeCell) : M Files unit := modify (λ s, with_pipes (<[p := c]> (f_pipes s)) s).

(** ** References *)

(** A turn on a pipe, under its lock. *)
Definition on_pipe (p : positive) (k : PipeCall) : M Files PipeTurn :=
  c ← get_pipe p;
  match pipe_turn k {| lk_data := pi_pipe c; lk_notified := [] |} with
  | Ret t l =>
      put_pipe p {| pi_strong := pi_strong c; pi_pipe := lk_data l |};;
      modify (λ s, with_notified (f_notified s ++ ((λ n, (p, n)) <$> lk_notified l)) s);;
      mret t
  | Panic => panic
  end.
(** The drop of an [Arc] of a pipe. *)
Definition pipe_unref (p : positive) : M Files unit :=
  c ← get_pipe p;
  if pi_strong c =? 1 then modify (λ s, with_pipes (delete p (f_pipes s)) s)
  else put_pipe p {| pi_strong := pi_strong c - 1; pi_pipe := pi_pipe c |}.
(** [FileData::drop]. *)
Definition drop_data (d : FileData) : M Files unit :=
  match fd_data d with
  | PipeFile p => on_pipe p (PipeClose (fd_writable d));; pipe_unref p
  | InodeFile ip _ => on_env (close_inode ip)
  | DeviceFile _ ip => on_env (close_inode ip)
  end.
(** [FileDataArc::try_new]: without a free slot the data is dropped. *)
Definition try_new (d : FileData) : M Files (result KernelError nat) :=
  s ← get;
  match f_free s with
  | [] => drop_data d;; mret (Err NoFreeFileTableEntry)
  | f :: free => modify (with_free free);; put_cell f {| fc_strong := 1; fc_file := d |};; mret (Ok f)
  end.
(** [File::dup] and [File::close]. *)
Definition file_dup (f : nat) : M Files nat :=
  c ← get_cell f;
  put_cell f {| fc_strong := fc_strong c + 1; fc_file := fc_file c |};;
  mret f.
Definition file_close (f : nat) : M Files unit :=
  c ← get_cell f;
  if fc_strong c =? 1 then
    drop_data (fc_file c);;
    modify (λ s, with_cells (delete f (f_cells s)) s);;
    modify (λ s, with_free (f :: f_free s) s)
  else put_cell f {| fc_strong := fc_strong c - 1; fc_file := fc_file c |}.

(** ** Opening *)

(** The two files of a new pipe; both hold a reference to it. *)
Definition pipe_end (p : positive) (w : bool) : FileData := {| fd_readable := negb w; fd_writable := w; fd_data := PipeFile p |}.
Definition pipe_files (p : positive) : M Files (result KernelError (nat * nat)) :=
  r0 ← try_new (pipe_end p false);
  match r0 with
  | Err e => pipe_unref p;; mret (Err e)
  | Ok f0 =>
      r1 ← try_new (pipe_end p true);
      match r1 with
      | Err e => file_close f0;; mret (Err e)
      | Ok f1 => mret (Ok (f0, f1))
      end
  end.
(** [File::new_pipe]; [Arc::new_in] panics when there is no page. *)
Definition new_pipe : M Files (result KernelError (nat * nat)) :=
  avail ← on_env page_available;
  assert_ avail;;
  s ← get;
  let p := fresh (dom (f_pipes s)) in
  put_pipe p {| pi_strong := 2; pi_pipe := pipe_new |};;
  pipe_files p.
Definition new_inode (ip : Ip) (readable writable : bool) : M Files (result KernelError nat) :=
  try_new {| fd_readable := readable; fd_writable := writable; fd_data := InodeFile ip 0 |}.
Definition new_device (major : Z) (ip : Ip) (readable writable : bool) : M Files (result KernelError nat) :=
  try_new {| fd_readable := readable; fd_writable := writable; fd_data := DeviceFile major ip |}.

(** ** Reading and writing *)

(** What a call gives: its result, or for a pipe how the turn ended. *)
Inductive FileOutcome (A : Type) : Type :=
  | Direct (r : result KernelError A)
  | OnPipe (p : positive) (t : PipeTurn).
#[global] Arguments Direct {A} r.
#[global] Arguments OnPipe {A} p t.

(** [off.fetch_add(n)]. *)
Definition advance_off (f : nat) (n : Z) : M Files unit :=
  c ← get_cell f;
  match fd_data (fc_file c) with
  | InodeFile ip off =>
      put_cell f {| fc_strong := fc_strong c; fc_file := {| fd_readable := fd_readable (fc_file c); fd_writable := fd_writable (fc_file c);
                                                            fd_data := InodeFile ip (wrap 64 (off + n)) |} |}
  | _ => mret tt
  end.
Definition load_off (f : nat) : M Files Z :=
  c ← get_cell f;
  mret (match fd_data (fc_file c) with InodeFile _ off => off | _ => 0 end).
(** [InodeFile::read] and an iteration of [InodeFile::write]. *)
Definition inode_file_read (f : nat) (ip : Ip) (len : Z) : M Files (result KernelError (list byte)) :=
  off ← load_off f;
  r ← on_env (inode_read ip off len);
  (match r with Ok b => advance_off f (Z.of_nat (length b)) | Err _ => mret tt end);;
  mret r.
Definition write_chunk_of (f : nat) (ip : Ip) (src : list byte) (i : Z) : M Files (Z + result KernelError Z) :=
  if i <? Z.of_nat (length src) then
    let chunk := take (Z.to_nat MAX_WRITE) (drop (Z.to_nat i) src) in
    off ← load_off f;
    r ← on_env (inode_write ip off chunk);
    (match r with Ok n => advance_off f n | Err _ => mret tt end);;
    match r with
    | Err e => mret (inr (Err e))
    | Ok n =>
        if n =? Z.of_nat (length chunk) then mret (inl (i + Z.of_nat (length chunk)))
        else mret (inr (Ok (Z.of_nat (length src))))
    end
  else mret (inr (Ok (Z.of_nat (length src)))).
Definition inode_file_write (f : nat) (ip : Ip) (src : list byte) : M Files (result KernelError Z) :=
  while_ SLICE_FUEL (write_chunk_of f ip src) 0.

(** [File::stat], [File::read] and [File::write]. *)
Definition file_stat (f : nat) : M Files (result KernelError FileStat) :=
  c ← get_cell f;
  match fd_data (fc_file c) with
  | InodeFile ip _ | DeviceFile _ ip => on_env (stat_inode ip)
  | PipeFile _ => mret (Err StatOnNonFsEntry)
  end.
Definition file_read (f : nat) (len : Z) : M Files (FileOutcome (list byte)) :=
  c ← get_cell f;
  if negb (fd_readable (fc_file c)) then mret (Direct (Err FileDescriptorNotReadable))
  else
    match fd_data (fc_file c) with
    | PipeFile p => t ← on_pipe p (PipeRead len); mret (OnPipe p t)
    | InodeFile ip _ => r ← inode_file_read f ip len; mret (Direct r)
    | DeviceFile major _ =>
        match get_device devices major with
        | Some dev => r ← on_env (dev_read dev len); mret (Direct r)
        | None => mret (Direct (Err (DeviceNotFound major)))
        end
    end.
Definition file_write (f : nat) (src : list byte) : M Files (FileOutcome Z) :=
  c ← get_cell f;
  if negb (fd_writable (fc_file c)) then mret (Direct (Err FileDescriptorNotWritable))
  else
    match fd_data (fc_file c) with
    | PipeFile p => t ← on_pipe p (PipeWrite src 0); mret (OnPipe p t)
    | InodeFile ip _ => r ← inode_file_write f ip src; mret (Direct r)
    | DeviceFile major _ =>
        match get_device devices major with
        | Some dev => r ← on_env (dev_write dev src); mret (Direct r)
        | None => mret (Direct (Err (DeviceNotFound major)))
        end
    end.

(** ** The invariant

    [H] are the references to files that the processes have. *)

Definition names_pipe (c : FileCell) (p : positive) (w : bool) : Prop := fd_data (fc_file c) = PipeFile p ∧ fd_writable (fc_file c) = w.
Definition end_open (x : PipeDataLocked) (w : bool) : bool := if w then p_write_open x else p_read_open x.
Definition refs (f : nat) (H : list nat) : Z := Z.of_nat (length (filter (λ g, g = f) H)).

Definition slots_ok (s : Files) : Prop :=
  NoDup (f_free s) ∧ ∀ i, i ∈ f_free s ↔ Z.of_nat i < NFILE ∧ f_cells s !! i = None.
Definition cells_ok (cells : gmap nat FileCell) (H : list nat) : Prop :=
  (∀ i c, cells !! i = Some c → fc_strong c = refs i H ∧ 0 < refs i H ∧ Z.of_nat i < NFILE) ∧ (∀ i, i ∈ H → is_Some (cells !! i)).
Definition pipe_cell_ok (cells : gmap nat FileCell) (p : positive) (x : PipeCell) : Prop :=
  pipe_ok (pi_pipe x) ∧ pi_strong x = Z.b2z (end_open (pi_pipe x) false) + Z.b2z (end_open (pi_pipe x) true) ∧ 0 < pi_strong x ∧
  ∀ w, end_open (pi_pipe x) w = true ↔ ∃ i c, cells !! i = Some c ∧ names_pipe c p w.
Definition pipes_ok (cells : gmap nat FileCell) (pipes : gmap positive PipeCell) : Prop :=
  (∀ p x, pipes !! p = Some x → pipe_cell_ok cells p x) ∧
  (∀ i c p w, cells !! i = Some c → names_pipe c p w → is_Some (pipes !! p)) ∧
  (∀ i j c c' p w, cells !! i = Some c → cells !! j = Some c' → names_pipe c p w → names_pipe c' p w → i = j).
Definition files_ok (s : Files) (H : list nat) : Prop :=
  slots_ok s ∧ cells_ok (f_cells s) H ∧ pipes_ok (f_cells s) (f_pipes s).

Lemma frefs_cons f g H : refs f (g :: H) = refs f H + (if decide (g = f) then 1 else 0).
Proof. rewrite /refs filter_cons. case_decide; simpl; lia. Qed.
Lemma refs_perm f H H' : H ≡ₚ H' → refs f H = refs f H'.
Proof. intros HH. rewrite /refs. by rewrite HH. Qed.
Lemma frefs_pos f H : f ∈ H → 0 < refs f H.
Proof.
  intros Hf. rewrite /refs. assert (f ∈ filter (λ g, g = f) H) as Hin by (apply list_elem_of_filter; done).
  destruct (filter (λ g, g = f) H); [by apply elem_of_nil in Hin|simpl; lia].
Qed.
Lemma refs_zero f H : refs f H = 0 → f ∉ H.
Proof. intros HE Hf%frefs_pos. lia. Qed.

(** Cells that name the same pipes are alike for the pipes. *)
Lemma pipes_ok_cells cells cells' pipes :
  (∀ i c', cells' !! i = Some c' → ∃ c, cells !! i = Some c ∧ ∀ p w, names_pipe c p w ↔ names_pipe c' p w) →
  (∀ i c, cells !! i = Some c → ∀ p w, names_pipe c p w → ∃ c', cells' !! i = Some c' ∧ names_pipe c' p w) →
  pipes_ok cells pipes → pipes_ok cells' pipes.
Proof.
  intros H1 H2 (Hp & Hn & Hu). split; [|split].
  - intros p x Hx. destruct (Hp p x Hx) as (Hok & Hs & Hpos & He). split; [done|]. split; [done|]. split; [done|]. intros w. rewrite He. split.
    + intros (i & c & Hi & Hc). destruct (H2 i c Hi p w Hc) as (c' & Hi' & Hc'). eauto.
    + intros (i & c' & Hi & Hc). destruct (H1 i c' Hi) as (c & Hi' & Hc'). exists i, c. by rewrite Hc'.
  - intros i c' p w Hi Hc. destruct (H1 i c' Hi) as (c & Hi' & Hc'). apply (Hn i c p w Hi'). by rewrite Hc'.
  - intros i j c c' p w Hi Hj Hc Hc'. destruct (H1 i c Hi) as (d & Hi' & Hd), (H1 j c' Hj) as (d' & Hj' & Hd').
    apply (Hu i j d d' p w); [done..|by apply Hd|by apply Hd'].
Qed.

(** A cell that keeps its file, with another count. *)
Lemma recount_ok s H H' f c n :
  files_ok s H → f_cells s !! f = Some c → (∀ i, i ≠ f → refs i H' = refs i H) → n = refs f H' → 0 < n → (∀ i, i ∈ H' → i ∈ H) →
  files_ok (with_cells (<[f := {| fc_strong := n; fc_file := fc_file c |}]> (f_cells s)) s) H'.
Proof.
  intros ((Hnd & Hfree) & (Hc1 & Hc2) & Hp) Hf Hr Hn Hpos Hin. split; [|split]; simpl.
  - split; [done|]. intros i. simpl. rewrite Hfree. destruct (decide (f = i)) as [<-|Hne]; [rewrite lookup_insert_eq; naive_solver|by rewrite lookup_insert_ne].
  - split.
    + intros i c' Hi. destruct (decide (f = i)) as [<-|Hne].
      * rewrite lookup_insert_eq in Hi. simplify_eq/=. split; [done|]. split; [done|]. by apply (Hc1 f c).
      * rewrite lookup_insert_ne // in Hi. rewrite Hr; [by apply Hc1|congruence].
    + intros i Hi. specialize (Hc2 i (Hin i Hi)). destruct (decide (f = i)) as [<-|Hne]; [rewrite lookup_insert_eq; eauto|by rewrite lookup_insert_ne].
  - eapply pipes_ok_cells; [| |exact Hp].
    + intros i c' Hi. destruct (decide (f = i)) as [<-|Hne]; [rewrite lookup_insert_eq in Hi; simplify_eq/=; eauto|].
      rewrite lookup_insert_ne // in Hi. eauto.
    + intros i d Hi p w Hd. destruct (decide (f = i)) as [<-|Hne]; [|by rewrite lookup_insert_ne; eauto].
      rewrite lookup_insert_eq. simplify_eq. eauto.
Qed.

Lemma file_dup_wlp f s H : files_ok s H → f ∈ H → wlp (file_dup f) (λ g s', g = f ∧ files_ok s' (f :: H)) s.
Proof.
  intros Hok Hf. pose proof Hok as (_ & (Hc1 & Hc2) & _). destruct (Hc2 f Hf) as [c Hc]. 
  rewrite /wlp /file_dup /get_cell /put_cell /mbind /M_bind /= Hc /=. split; [done|]. destruct (Hc1 f c Hc) as (Hs & Hpos & _).
  apply (recount_ok s H (f :: H) f c _ Hok Hc).
  - intros i Hne. rewrite frefs_cons decide_False; [lia|congruence].
  - rewrite frefs_cons decide_True //. lia.
  - lia.
  - intros i [->|]%elem_of_cons; done.
Qed.

(** ** Dropping a file *)

Definition closed_cell (x : PipeCell) (w : bool) : PipeCell := {| pi_strong := pi_strong x - 1; pi_pipe := close_end w (pi_pipe x) |}.
Definition close_pipe (p : positive) (x : PipeCell) (w : bool) (pipes : gmap positive PipeCell) : gmap positive PipeCell :=
  if pi_strong x =? 1 then delete p pipes else <[p := closed_cell x w]> pipes.
Lemma on_pipe_run p k s x t l :
  f_pipes s !! p = Some x → pipe_turn k {| lk_data := pi_pipe x; lk_notified := [] |} = Ret t l →
  on_pipe p k s = Ret t (with_notified (f_notified s ++ ((λ n, (p, n)) <$> lk_notified l))
    (with_pipes (<[p := {| pi_strong := pi_strong x; pi_pipe := lk_data l |}]> (f_pipes s)) s)).
Proof. intros Hx Ht. rewrite /on_pipe /get_pipe /put_pipe /mbind /M_bind /= Hx /= Ht. done. Qed.
Lemma pipe_unref_run p s x :
  f_pipes s !! p = Some x →
  pipe_unref p s = Ret tt (with_pipes (if pi_strong x =? 1 then delete p (f_pipes s)
    else <[p := {| pi_strong := pi_strong x - 1; pi_pipe := pi_pipe x |}]> (f_pipes s)) s).
Proof. intros Hx. rewrite /pipe_unref /get_pipe /put_pipe /mbind /M_bind /= Hx /=. by destruct (pi_strong x =? 1). Qed.
Lemma drop_pipe_run d p s x :
  fd_data d = PipeFile p → f_pipes s !! p = Some x →
  ∃ ns, drop_data d s = Ret tt (with_notified ns (with_pipes (close_pipe p x (fd_writable d) (f_pipes s)) s)).
Proof.
  intros Hd Hx. rewrite /drop_data Hd. rewrite (bind_Ret _ _ _ _ _ (on_pipe_run p (PipeClose (fd_writable d)) s x _ _ Hx eq_refl)).
  eexists. rewrite (pipe_unref_run p _ {| pi_strong := pi_strong x; pi_pipe := close_end (fd_writable d) (pi_pipe x) |}); [|apply lookup_insert_eq].
  rewrite /close_pipe. cbn [pi_strong pi_pipe]. destruct (pi_strong x =? 1); rewrite /with_pipes /with_notified; cbn [f_free f_cells f_pipes f_notified f_env].
  - by rewrite delete_insert_eq.
  - by rewrite insert_insert_eq.
Qed.

Lemma close_pipe_ok cells pipes f c p x w :
  pipes_ok cells pipes → cells !! f = Some c → names_pipe c p w → pipes !! p = Some x → pipes_ok (delete f cells) (close_pipe p x w pipes).
Proof.
  intros (Hp & Hn & Hu) Hf Hc Hx. destruct (Hp p x Hx) as (Hok & Hs & Hpos & He). pose proof (proj2 (He w) (ex_intro _ f (ex_intro _ c (conj Hf Hc)))) as Hw.
  assert (∀ i d q v, delete f cells !! i = Some d → names_pipe d q v → cells !! i = Some d ∧ (q = p → v = negb w)) as Hdel.
  { intros i d q v Hi Hd. apply lookup_delete_Some in Hi as [Hne Hi]. split; [done|]. intros ->. destruct (decide (v = w)) as [->|Hvw]; [|destruct v, w; (done || by destruct Hvw)].
    destruct Hne. by apply (Hu f i c d p w). }
  assert (∀ q v, (q = p → v = negb w) → (∃ i d, cells !! i = Some d ∧ names_pipe d q v) ↔ ∃ i d, delete f cells !! i = Some d ∧ names_pipe d q v) as Hex.
  { intros q v Hv. split; intros (i & d & Hi & Hd); [|by apply lookup_delete_Some in Hi as [_ Hi]; eauto]. exists i, d. split; [|done].
    apply lookup_delete_Some. split; [|done]. intros <-. simplify_eq. destruct Hc as [Hc1 Hc2], Hd as [Hd1 Hd2].
    assert (q = p) as Hq by congruence. specialize (Hv Hq). destruct v, w; simpl in Hv; congruence. }
  assert (∀ q y, q ≠ p → pipes !! q = Some y → pipe_cell_ok (delete f cells) q y) as Hother.
  { intros q y Hq Hy. destruct (Hp q y Hy) as (? & ? & ? & Heq). split; [done|]. split; [done|]. split; [done|]. intros v. rewrite Heq. apply Hex. naive_solver. }
  split; [|split].
  - intros q y. rewrite /close_pipe. destruct (Z.eqb_spec (pi_strong x) 1) as [H1|H1].
    + intros [Hne Hq]%lookup_delete_Some. apply Hother; [congruence|done].
    + destruct (decide (q = p)) as [->|Hne]; [rewrite lookup_insert_eq; intros [= <-]|rewrite lookup_insert_ne; [by apply Hother|congruence]].
      split; [exact Hok|]. split; [|split].
      * rewrite /= Hs. destruct w; simpl in Hw |- *; rewrite Hw; simpl; lia.
      * simpl. lia.
      * intros v. destruct (decide (v = negb w)) as [->|Hv].
        -- rewrite -Hex //. rewrite -(He (negb w)). by destruct w.
        -- assert (v = w) as -> by (destruct v, w; naive_solver). split.
           ++ by destruct w.
           ++ intros (i & d & Hi & Hd). destruct (Hdel i d p w Hi Hd) as [_ Hbad]. specialize (Hbad eq_refl). by destruct w.
  - intros i d q v Hi Hd. destruct (Hdel i d q v Hi Hd) as [Hi' Hv]. destruct (Hn i d q v Hi' Hd) as [y Hy]. rewrite /close_pipe.
    destruct (Z.eqb_spec (pi_strong x) 1) as [H1|H1].
    + destruct (decide (q = p)) as [->|Hne]; [|rewrite lookup_delete_ne; [eauto|congruence]].
      specialize (Hv eq_refl). subst v. pose proof (proj2 (He (negb w)) (ex_intro _ i (ex_intro _ d (conj Hi' Hd)))) as Hnw.
      exfalso. destruct w; simpl in Hw, Hnw, Hs; rewrite Hw Hnw /= in Hs; lia.
    + destruct (decide (q = p)) as [->|Hne]; [rewrite lookup_insert_eq; eauto|rewrite lookup_insert_ne; [eauto|congruence]].
  - intros i j d d' q v Hi Hj Hd Hd'. apply lookup_delete_Some in Hi as [_ Hi], Hj as [_ Hj]. by apply (Hu i j d d' q v).
Qed.

(** A cell that names no pipe does not matter to the pipes. *)
Lemma pipes_ok_delete cells pipes f c :
  pipes_ok cells pipes → cells !! f = Some c → (∀ p w, ¬ names_pipe c p w) → pipes_ok (delete f cells) pipes.
Proof.
  intros Hp Hf Hc. eapply pipes_ok_cells; [| |exact Hp].
  - intros i c' [_ Hi]%lookup_delete_Some. eauto.
  - intros i d Hi p w Hd. exists d. split; [|done]. apply lookup_delete_Some. split; [|done]. intros <-. simplify_eq. by apply (Hc p w).
Qed.
Lemma pipes_ok_insert cells pipes f c :
  pipes_ok cells pipes → cells !! f = None → (∀ p w, ¬ names_pipe c p w) → pipes_ok (<[f := c]> cells) pipes.
Proof.
  intros (Hp & Hn & Hu) Hf Hc. split; [|split].
  - intros p x Hx. destruct (Hp p x Hx) as (Hok & Hs & Hpos & He). split; [done|]. split; [done|]. split; [done|]. intros w. rewrite He. split.
    + intros (i & d & Hi & Hd). exists i, d. split; [|done]. rewrite lookup_insert_ne; [done|congruence].
    + intros (i & d & Hi & Hd). apply lookup_insert_Some in Hi as [[<- <-]|[Hne Hi]]; [by destruct (Hc p w)|eauto].
  - intros i d p w Hi Hd. apply lookup_insert_Some in Hi as [[<- <-]|[Hne Hi]]; [by destruct (Hc p w)|eauto].
  - intros i j d d' p w Hi Hj Hd Hd'. apply lookup_insert_Some in Hi as [[<- <-]|[_ Hi]]; [by destruct (Hc p w)|].
    apply lookup_insert_Some in Hj as [[<- <-]|[_ Hj]]; [by destruct (Hc p w)|]. by apply (Hu i j d d' p w).
Qed.
Lemma on_env_wlp {A} (m : M E A) (Q : A → Files → Prop) s : (∀ a e, Q a (with_env e s)) → wlp (on_env m) Q s.
Proof. apply wlp_zoom. Qed.

Definition same_table (s s' : Files) : Prop := f_free s' = f_free s ∧ f_cells s' = f_cells s.
Lemma drop_data_wlp f c s :
  pipes_ok (f_cells s) (f_pipes s) → f_cells s !! f = Some c →
  wlp (drop_data (fc_file c)) (λ _ s', same_table s s' ∧ pipes_ok (delete f (f_cells s)) (f_pipes s')) s.
Proof.
  intros Hp Hf. destruct (fd_data (fc_file c)) as [p|ip off|major ip] eqn:Hd.
  - assert (names_pipe c p (fd_writable (fc_file c))) as Hc by done. pose proof Hp as (_ & Hn & _). destruct (Hn f c p _ Hf Hc) as [x Hx].
    destruct (drop_pipe_run _ p s x Hd Hx) as [ns Hrun]. rewrite /wlp Hrun. split; [done|]. by apply (close_pipe_ok _ _ f c p x).
  - rewrite /drop_data Hd. apply on_env_wlp. intros _ e. split; [done|]. apply (pipes_ok_delete _ _ f c); [done..|]. intros p w [Hc _]. congruence.
  - rewrite /drop_data Hd. apply on_env_wlp. intros _ e. split; [done|]. apply (pipes_ok_delete _ _ f c); [done..|]. intros p w [Hc _]. congruence.
Qed.
Lemma get_cell_run f c s : f_cells s !! f = Some c → get_cell f s = Ret c s.
Proof. intros Hc. by rewrite /get_cell /mbind /M_bind /= Hc. Qed.
Lemma get_cell_wlp {A} f c (k : FileCell → M Files A) (Q : A → Files → Prop) s : f_cells s !! f = Some c → wlp (k c) Q s → wlp (get_cell f ≫= k) Q s.
Proof. intros Hc Hk. by rewrite /wlp /get_cell /mbind /M_bind /= Hc /=. Qed.

Lemma file_close_wlp f s H : files_ok s (f :: H) → wlp (file_close f) (λ _ s', files_ok s' H) s.
Proof.
  intros Hok. pose proof Hok as ((Hnd & Hfree) & (Hc1 & Hc2) & Hp). destruct (Hc2 f ltac:(by left)) as [c Hc].
  destruct (Hc1 f c Hc) as (Hs & Hpos & Hlt). rewrite frefs_cons decide_True // in Hs. apply (get_cell_wlp f c); [done|].
  assert (∀ i, i ≠ f → refs i H = refs i (f :: H)) as Hrefs. { intros i Hi. rewrite frefs_cons decide_False; [lia|congruence]. }
  destruct (Z.eqb_spec (fc_strong c) 1) as [H1|H1].
  - assert (f ∉ H) as HfH by (apply refs_zero; lia).
    apply wlp_bind. eapply wlp_mono; [by apply (drop_data_wlp f)|]. intros _ s' [[Hfr Hce] Hp'].
    apply wlp_bind, wlp_modify. apply wlp_modify. rewrite /files_ok /slots_ok /=. rewrite Hfr Hce. split; [|split].
    + split.
      * apply NoDup_cons. split; [|done]. rewrite Hfree. intros [_ ?]. congruence.
      * intros i. rewrite elem_of_cons Hfree. rewrite lookup_delete_None. naive_solver.
    + split.
      * intros i c' [Hne Hi]%lookup_delete_Some. rewrite Hrefs; [by apply Hc1|congruence].
      * intros i Hi. destruct (Hc2 i ltac:(by right)) as [c' Hc']. exists c'. apply lookup_delete_Some. split; [congruence|done].
    + done.
  - refine (wlp_modify _ _ _ _). apply (recount_ok s (f :: H) H f c); [done|done|done|lia| |by right].
    rewrite /refs in Hs |- *. lia.
Qed.

(** ** New files *)

Lemma take_slot s H f free c :
  slots_ok s → cells_ok (f_cells s) H → f_free s = f :: free → fc_strong c = 1 →
  slots_ok (with_cells (<[f := c]> (f_cells s)) (with_free free s)) ∧ cells_ok (<[f := c]> (f_cells s)) (f :: H) ∧ f_cells s !! f = None.
Proof.
  intros [Hnd Hfree] [Hc1 Hc2] Hf Hs. rewrite Hf in Hnd Hfree. apply NoDup_cons in Hnd as [Hnf Hnd].
  destruct (proj1 (Hfree f) ltac:(by left)) as [Hlt Hnone].
  assert (f ∉ H) as HfH by (intros [? ?]%Hc2; congruence). split; [|split; [split|done]].
  - split; [done|]. intros i. simpl. destruct (decide (f = i)) as [<-|Hne].
    + rewrite lookup_insert_eq. naive_solver.
    + rewrite lookup_insert_ne // -Hfree elem_of_cons. naive_solver.
  - intros i d Hi. rewrite frefs_cons. apply lookup_insert_Some in Hi as [[<- <-]|[Hne Hi]].
    + rewrite decide_True // Hs. assert (refs f H = 0) as -> by (rewrite /refs; destruct (filter _ H) as [|g l] eqn:Ef; [done|];
        assert (g ∈ filter (λ g, g = f) H) as [-> ?]%list_elem_of_filter by (rewrite Ef; by left); done). lia.
    + rewrite decide_False //. rewrite Z.add_0_r. by apply Hc1.
  - intros i [->|Hi]%elem_of_cons; [rewrite lookup_insert_eq; eauto|]. rewrite lookup_insert_is_Some'. right. by apply Hc2.
Qed.
Definition no_pipe (d : FileData) : Prop := ∀ p, fd_data d ≠ PipeFile p.
Lemma try_new_wlp d s H :
  files_ok s H → no_pipe d → wlp (try_new d) (λ r s', match r with Ok f => files_ok s' (f :: H) | Err e => e = NoFreeFileTableEntry ∧ files_ok s' H end) s.
Proof.
  intros Hok Hd. pose proof Hok as (Hsl & Hc & Hp). rewrite /wlp /try_new {1}/mbind /M_bind /=. destruct (f_free s) as [|f free] eqn:Hf.
  - assert (wlp (drop_data d) (λ _ s', files_ok s' H) s) as Hdrop.
    { rewrite /drop_data. destruct (fd_data d) as [p| |] eqn:Ed; [by destruct (Hd p)|by apply on_env_wlp..]. }
    rewrite /wlp in Hdrop. rewrite /mbind /M_bind /=. by destruct (drop_data d s).
  - rewrite /put_cell /mbind /M_bind /=. destruct (take_slot s H f free {| fc_strong := 1; fc_file := d |} Hsl Hc Hf eq_refl) as (? & ? & ?).
    split; [done|]. split; [done|]. simpl. apply pipes_ok_insert; [done..|]. intros p w [Hn _]. by apply (Hd p).
Qed.

Definition new_file_post (H : list nat) (r : result KernelError nat) (s' : Files) : Prop :=
  match r with Ok f => files_ok s' (f :: H) | Err e => e = NoFreeFileTableEntry ∧ files_ok s' H end.
Lemma new_inode_wlp ip readable writable s H : files_ok s H → wlp (new_inode ip readable writable) (new_file_post H) s.
Proof. intros Hok. by apply try_new_wlp. Qed.
Lemma new_device_wlp major ip readable writable s H : files_ok s H → wlp (new_device major ip readable writable) (new_file_post H) s.
Proof. intros Hok. by apply try_new_wlp. Qed.

Lemma pipes_ok_new cells pipes f0 f1 p :
  pipes_ok cells pipes → cells !! f0 = None → cells !! f1 = None → f0 ≠ f1 → pipes !! p = None →
  pipes_ok (<[f1 := {| fc_strong := 1; fc_file := pipe_end p true |}]> (<[f0 := {| fc_strong := 1; fc_file := pipe_end p false |}]> cells))
    (<[p := {| pi_strong := 2; pi_pipe := pipe_new |}]> pipes).
Proof.
  intros (Hp & Hn & Hu) Hf0 Hf1 Hne Hfresh.
  set (cells' := <[f1 := _]> _).
  assert (∀ i c q w, cells' !! i = Some c ∧ names_pipe c q w ↔
    (q = p ∧ i = (if w then f1 else f0) ∧ c = {| fc_strong := 1; fc_file := pipe_end p w |}) ∨ (q ≠ p ∧ cells !! i = Some c ∧ names_pipe c q w)) as Hcells.
  { intros i c q w. rewrite /cells' !lookup_insert_Some. split.
    - intros [[[<- <-]|[? [[<- <-]|[? Hi]]]] Hc].
      + destruct Hc as [[= ->] <-]. by left.
      + destruct Hc as [[= ->] <-]. by left.
      + right. split; [|done]. intros ->. destruct (Hn i c p w Hi Hc). congruence.
    - intros [(-> & -> & ->)|(Hq & Hi & Hc)].
      + split; [|done]. destruct w; [by left|right]. split; [congruence|by left].
      + split; [|done]. right. split; [congruence|right]. split; [congruence|done]. }
  split; [|split].
  - intros q x Hx. apply lookup_insert_Some in Hx as [[<- <-]|[Hqp Hx]].
    + destruct pipe_new_ok as [Hok _]. split; [done|]. split; [done|]. split; [done|]. intros w. split; [|by destruct w]. intros _.
      exists (if w then f1 else f0), {| fc_strong := 1; fc_file := pipe_end p w |}. apply Hcells. by left.
    + destruct (Hp q x Hx) as (? & ? & ? & He). split; [done|]. split; [done|]. split; [done|]. intros w. rewrite He. split.
      * intros (i & c & Hi). exists i, c. apply Hcells. right. split; [congruence|done].
      * intros (i & c & Hi). apply Hcells in Hi as [(-> & _)|(_ & Hi)]; [congruence|]. eauto.
  - intros i c q w Hi Hc. destruct (proj1 (Hcells i c q w) (conj Hi Hc)) as [(-> & _)|(Hq & Hi' & Hc')]; [rewrite lookup_insert_eq; eauto|].
    rewrite lookup_insert_ne; [eauto|congruence].
  - intros i j c c' q w Hi Hj Hc Hc'. destruct (proj1 (Hcells i c q w) (conj Hi Hc)) as [(Hq & -> & _)|(Hq & Hi' & _)],
      (proj1 (Hcells j c' q w) (conj Hj Hc')) as [(Hq' & -> & _)|(Hq' & Hj' & _)]; [done|congruence..|by apply (Hu i j c c' q w)].
Qed.
Lemma files_ok_ext s s' H : f_free s' = f_free s → f_cells s' = f_cells s → f_pipes s' = f_pipes s → files_ok s H → files_ok s' H.
Proof. intros Hf Hc Hp. by rewrite /files_ok /slots_ok Hf Hc Hp. Qed.
Lemma try_new_run d s f free :
  f_free s = f :: free → try_new d s = Ret (Ok f) (with_cells (<[f := {| fc_strong := 1; fc_file := d |}]> (f_cells s)) (with_free free s)).
Proof. intros Hf. by rewrite /try_new /put_cell /mbind /M_bind /= Hf. Qed.
Lemma try_new_full_run d s s' : f_free s = [] → drop_data d s = Ret tt s' → try_new d s = Ret (Err NoFreeFileTableEntry) s'.
Proof. intros Hf Hd. by rewrite /try_new /mbind /M_bind /= Hf /= Hd. Qed.
Lemma file_close_last_run f c s s' :
  f_cells s !! f = Some c → fc_strong c = 1 → drop_data (fc_file c) s = Ret tt s' →
  file_close f s = Ret tt (with_free (f :: f_free s') (with_cells (delete f (f_cells s')) s')).
Proof. intros Hc Hs Hd. by rewrite /file_close /get_cell /mbind /M_bind /= Hc /= Hs /= Hd. Qed.

(** Without two free slots the pipe is given back. *)
Lemma new_pipe_fails p s H :
  files_ok s H → f_pipes s !! p = None → (length (f_free s) < 2)%nat →
  wlp (pipe_files p)
    (λ r s', r = Err NoFreeFileTableEntry ∧ files_ok s' H)
    (with_pipes (<[p := {| pi_strong := 2; pi_pipe := pipe_new |}]> (f_pipes s)) s).
Proof.
  intros Hok Hp Hlen. set (s0 := with_pipes _ s). assert (f_pipes s0 !! p = Some {| pi_strong := 2; pi_pipe := pipe_new |}) as Hp0 by apply lookup_insert_eq.
  destruct (f_free s) as [|f0 [|??]] eqn:Hf; [| |simpl in Hlen; lia].
  - destruct (drop_pipe_run (pipe_end p false) p s0 _ eq_refl Hp0) as [ns Hd]. rewrite /wlp /pipe_files (bind_Ret _ _ _ _ _ (try_new_full_run _ s0 _ Hf Hd)).
    rewrite (bind_Ret _ _ _ _ _ (pipe_unref_run p _ (closed_cell {| pi_strong := 2; pi_pipe := pipe_new |} false) (lookup_insert_eq _ _ _))).
    split; [done|]. eapply files_ok_ext; [..|exact Hok]; [done..|]. rewrite /close_pipe /=. by rewrite !delete_insert_eq delete_id.
  - rewrite /wlp /pipe_files (bind_Ret _ _ _ _ _ (try_new_run _ s0 f0 [] Hf)). set (s1 := with_cells _ _).
    destruct (drop_pipe_run (pipe_end p true) p s1 _ eq_refl Hp0) as [ns Hd].
    rewrite (bind_Ret _ _ _ _ _ (try_new_full_run _ s1 _ eq_refl Hd)). set (s2 := with_notified _ _).
    assert (f_pipes s2 !! p = Some (closed_cell {| pi_strong := 2; pi_pipe := pipe_new |} true)) as Hp2 by apply lookup_insert_eq.
    destruct (drop_pipe_run (pipe_end p false) p s2 _ eq_refl Hp2) as [ns' Hd'].
    rewrite (bind_Ret _ _ _ _ _ (file_close_last_run f0 _ s2 _ (lookup_insert_eq _ _ _) eq_refl Hd')).
    split; [done|]. destruct Hok as (Hsl & Hc & Hpo). eapply (files_ok_ext s); [by rewrite /= Hf| | |done].
    + simpl. apply delete_insert_id. apply (proj2 Hsl f0). rewrite Hf. by left.
    + rewrite /close_pipe /=. by rewrite !delete_insert_eq delete_id.
Qed.
Lemma new_pipe_wlp s H :
  files_ok s H →
  wlp new_pipe (λ r s', match r with Ok (f0, f1) => files_ok s' (f1 :: f0 :: H) | Err e => e = NoFreeFileTableEntry ∧ files_ok s' H end) s.
Proof.
  intros Hok0. apply wlp_bind, on_env_wlp. intros avail e. apply wlp_bind, wlp_assert. intros _.
  assert (files_ok (with_env e s) H) as Hok by done. clear Hok0. revert Hok. generalize (with_env e s). clear s e avail. intros s Hok.
  rewrite /wlp {1}/mbind /M_bind /=. set (p := fresh _). assert (f_pipes s !! p = None) as Hp by (apply not_elem_of_dom, is_fresh).
  change (wlp (pipe_files p) (λ r s', match r with Ok (f0, f1) => files_ok s' (f1 :: f0 :: H) | Err e => e = NoFreeFileTableEntry ∧ files_ok s' H end)
    (with_pipes (<[p := {| pi_strong := 2; pi_pipe := pipe_new |}]> (f_pipes s)) s)).
  destruct (decide (length (f_free s) < 2)%nat) as [Hlen|Hlen].
  - eapply wlp_mono; [exact (new_pipe_fails p s H Hok Hp Hlen)|]. by intros r s' [-> Hok'].
  - destruct (f_free s) as [|f0 [|f1 free]] eqn:Hf; [simpl in Hlen; lia..|]. set (s0 := with_pipes _ s).
    rewrite /wlp /pipe_files (bind_Ret _ _ _ _ _ (try_new_run _ s0 f0 _ Hf)). set (s1 := with_cells _ _).
    rewrite (bind_Ret _ _ _ _ _ (try_new_run _ s1 f1 free eq_refl)). destruct Hok as (Hsl & Hc & Hpo).
    destruct (take_slot s0 H f0 (f1 :: free) {| fc_strong := 1; fc_file := pipe_end p false |} Hsl Hc Hf eq_refl) as (Hsl1 & Hc1 & Hn0).
    destruct (take_slot s1 (f0 :: H) f1 free {| fc_strong := 1; fc_file := pipe_end p true |} Hsl1 Hc1 eq_refl eq_refl) as (Hsl2 & Hc2 & Hn1).
    split; [done|]. split; [done|]. simpl in Hn1. apply lookup_insert_None in Hn1 as [Hn1 Hne]. by apply pipes_ok_new.
Qed.

(** ** Reading and writing *)

Definition pipe_io (k : PipeCall) : Prop := pipe_call_ok k ∧ match k with PipeClose _ => False | _ => True end.
Lemma queue_turn_open k q (w : bool) :
  pipe_io k → (if w then q_write_open (queue_turn k q).1.2 else q_read_open (queue_turn k q).1.2) = if w then q_write_open q else q_read_open q.
Proof. intros [_ Hk]. destruct k as [src n|len|]; simpl; [repeat case_match; simplify_eq/=; done|repeat case_match; simplify_eq/=; done|done]. Qed.
Lemma pipes_ok_update cells pipes p x y :
  pipes_ok cells pipes → pipes !! p = Some x → pi_strong y = pi_strong x → pipe_ok (pi_pipe y) → (∀ w, end_open (pi_pipe y) w = end_open (pi_pipe x) w) →
  pipes_ok cells (<[p := y]> pipes).
Proof.
  intros (Hp & Hn & Hu) Hx Hs Hy He. split; [|split; [|done]].
  - intros q z Hz. apply lookup_insert_Some in Hz as [[<- <-]|[Hne Hz]]; [|by apply Hp].
    destruct (Hp p x Hx) as (_ & Hs' & Hpos & Hw). split; [done|]. rewrite !He Hs. split; [done|]. split; [done|]. intros w. by rewrite He.
  - intros i c q w Hi Hc. rewrite lookup_insert_is_Some'. right. by apply (Hn i c q w).
Qed.
Lemma on_pipe_wp p k s H x :
  files_ok s H → f_pipes s !! p = Some x → pipe_io k →
  wp (on_pipe p k) (λ t s', files_ok s' H ∧ t = (queue_turn k (queue_of (pi_pipe x))).1.1) s.
Proof.
  intros (Hsl & Hc & Hpo) Hx Hk. pose proof Hpo as (Hpc & _). destruct (Hpc p x Hx) as (Hok & _).
  pose proof (pipe_turn_wp k (pi_pipe x) (proj1 Hk) Hok) as Ht. rewrite /wp in Ht. destruct (pipe_turn k _) as [t l|] eqn:Er; [|done].
  destruct Ht as [Hok' Hq]. rewrite /wp (on_pipe_run p k s x t l Hx Er) Hq. split; [|done]. split; [done|]. split; [done|]. simpl.
  apply (pipes_ok_update _ _ p x); [done..|]. intros w. pose proof (queue_turn_open k (queue_of (pi_pipe x)) w Hk) as Hw. rewrite Hq in Hw. by destruct w.
Qed.
Lemma load_off_wlp {A} f c (k : Z → M Files A) (Q : A → Files → Prop) s :
  f_cells s !! f = Some c → (∀ off, wlp (k off) Q s) → wlp (load_off f ≫= k) Q s.
Proof. intros Hc Hk. rewrite /wlp /load_off /get_cell /mbind /M_bind /= Hc /=. apply Hk. Qed.
Lemma advance_off_wlp f n s H : files_ok s H → f ∈ H → wlp (advance_off f n) (λ _ s', files_ok s' H) s.
Proof.
  intros Hok Hf. pose proof Hok as (_ & (Hc1 & Hc2) & _). destruct (Hc2 f Hf) as [c Hc]. apply (get_cell_wlp f c); [done|].
  destruct (fd_data (fc_file c)) as [p|ip off|major ip] eqn:Hd; [done| |done]. apply wlp_modify.
  pose proof Hok as ((Hnd & Hfree) & _ & Hp). split; [|split]; simpl.
  - split; [done|]. intros i. simpl. rewrite Hfree. destruct (decide (f = i)) as [<-|Hne]; [rewrite lookup_insert_eq; naive_solver|by rewrite lookup_insert_ne].
  - split.
    + intros i c' Hi. apply lookup_insert_Some in Hi as [[<- <-]|[Hne Hi]]; [by apply (Hc1 f c)|by apply Hc1].
    + intros i Hi. rewrite lookup_insert_is_Some'. right. by apply Hc2.
  - rewrite -insert_delete_eq. apply pipes_ok_insert; [|apply lookup_delete_eq|by intros q w [Hq _]].
    apply (pipes_ok_delete _ _ f c); [done..|]. intros q w [Hq _]. congruence.
Qed.
Lemma write_chunk_of_wlp f ip src i s H :
  files_ok s H → f ∈ H →
  wlp (write_chunk_of f ip src i) (λ r s', files_ok s' H ∧ match r with inr (Ok n) => n = Z.of_nat (length src) | _ => True end) s.
Proof.
  intros Hok Hf. pose proof Hok as (_ & (_ & Hc2) & _). destruct (Hc2 f Hf) as [c Hc]. rewrite /write_chunk_of.
  destruct (i <? _); [|done]. apply (load_off_wlp f c); [done|]. intros off. apply wlp_bind, on_env_wlp. intros [n|e'] e.
  - apply wlp_bind. eapply wlp_mono; [by apply (advance_off_wlp f n (with_env e s) H)|]. intros ? s' Hok'. by destruct (n =? _).
  - done.
Qed.
Lemma inode_file_write_wlp f ip src s H :
  files_ok s H → f ∈ H →
  wlp (inode_file_write f ip src) (λ r s', files_ok s' H ∧ match r with Ok n => n = Z.of_nat (length src) | Err _ => True end) s.
Proof.
  intros Hok Hf. apply (while_wlp _ _ (λ _ s, files_ok s H)); [|done]. intros i s' Hok'. eapply wlp_mono; [exact (write_chunk_of_wlp f ip src i s' H Hok' Hf)|].
  by intros [i'|[n|e]] s'' [??].
Qed.
Lemma inode_file_read_wlp f ip len s H : files_ok s H → f ∈ H → wlp (inode_file_read f ip len) (λ _ s', files_ok s' H) s.
Proof.
  intros Hok Hf. pose proof Hok as (_ & (_ & Hc2) & _). destruct (Hc2 f Hf) as [c Hc]. rewrite /inode_file_read.
  apply (load_off_wlp f c); [done|]. intros off. apply wlp_bind, on_env_wlp. intros [b|e'] e; [|done].
  apply wlp_bind. by apply (wlp_mono _ (λ _ s', files_ok s' H)); [apply (advance_off_wlp f _ (with_env e s) H)|].
Qed.
Lemma held_pipe s H f c p w : files_ok s H → f_cells s !! f = Some c → names_pipe c p w → is_Some (f_pipes s !! p).
Proof. intros (_ & _ & _ & Hn & _) Hc Hp. by apply (Hn f c p w). Qed.
Lemma on_pipe_wlp f c p k s H :
  files_ok s H → f_cells s !! f = Some c → fd_data (fc_file c) = PipeFile p → pipe_io k → wlp (on_pipe p k) (λ _ s', files_ok s' H) s.
Proof.
  intros Hok Hc Hd Hk. destruct (held_pipe s H f c p _ Hok Hc (conj Hd eq_refl)) as [x Hx].
  apply wlp_of_wp. eapply wp_mono; [by apply (on_pipe_wp p k s H x)|]. by intros t s' [??].
Qed.
Lemma file_read_wlp f len s H : files_ok s H → f ∈ H → 0 ≤ len < 2 ^ 64 - 1 → wlp (file_read f len) (λ _ s', files_ok s' H) s.
Proof.
  intros Hok Hf Hlen. pose proof Hok as (_ & (_ & Hc2) & _). destruct (Hc2 f Hf) as [c Hc]. apply (get_cell_wlp f c); [done|].
  destruct (negb _); [done|]. destruct (fd_data (fc_file c)) as [p|ip off|major ip] eqn:Hd.
  - apply wlp_bind. by apply (wlp_mono _ (λ _ s', files_ok s' H)); [apply (on_pipe_wlp f c)|].
  - apply wlp_bind. by apply (wlp_mono _ (λ _ s', files_ok s' H)); [apply inode_file_read_wlp|].
  - destruct (get_device devices major); [|done]. apply wlp_bind, on_env_wlp. by intros r e.
Qed.
Lemma file_write_wlp f src s H : files_ok s H → f ∈ H → Z.of_nat (length src) < 2 ^ 64 - 1 → wlp (file_write f src) (λ _ s', files_ok s' H) s.
Proof.
  intros Hok Hf Hlen. pose proof Hok as (_ & (_ & Hc2) & _). destruct (Hc2 f Hf) as [c Hc]. apply (get_cell_wlp f c); [done|].
  destruct (negb _); [done|]. destruct (fd_data (fc_file c)) as [p|ip off|major ip] eqn:Hd.
  - apply wlp_bind. apply (wlp_mono _ (λ _ s', files_ok s' H)); [apply (on_pipe_wlp f c); [done..|]; split; [split; [done|lia]|done]|done].
  - apply wlp_bind. eapply wlp_mono; [exact (inode_file_write_wlp f ip src s H Hok Hf)|]. by intros r s' [??].
  - destruct (get_device devices major); [|done]. apply wlp_bind, on_env_wlp. by intros r e.
Qed.

(** ** The file table and its users

    [H] are the references the processes hold; a process that sleeps in a pipe goes on with the call its turn left. *)

Inductive file_step : Files * list nat → Files * list nat → Prop :=
  | fstep_pipe s H f0 f1 s' : new_pipe s = Ret (Ok (f0, f1)) s' → file_step (s, H) (s', f1 :: f0 :: H)
  | fstep_pipe_fails s H e s' : new_pipe s = Ret (Err e) s' → file_step (s, H) (s', H)
  | fstep_inode s H ip readable writable f s' : new_inode ip readable writable s = Ret (Ok f) s' → file_step (s, H) (s', f :: H)
  | fstep_inode_fails s H ip readable writable e s' : new_inode ip readable writable s = Ret (Err e) s' → file_step (s, H) (s', H)
  | fstep_device s H major ip readable writable f s' : new_device major ip readable writable s = Ret (Ok f) s' → file_step (s, H) (s', f :: H)
  | fstep_device_fails s H major ip readable writable e s' : new_device major ip readable writable s = Ret (Err e) s' → file_step (s, H) (s', H)
  | fstep_dup s H f g s' : f ∈ H → file_dup f s = Ret g s' → file_step (s, H) (s', g :: H)
  | fstep_close s H f H' s' : H ≡ₚ f :: H' → file_close f s = Ret tt s' → file_step (s, H) (s', H')
  | fstep_read s H f len o s' : f ∈ H → 0 ≤ len < 2 ^ 64 - 1 → file_read f len s = Ret o s' → file_step (s, H) (s', H)
  | fstep_write s H f src o s' : f ∈ H → Z.of_nat (length src) < 2 ^ 64 - 1 → file_write f src s = Ret o s' → file_step (s, H) (s', H)
  | fstep_resume s H f c p k t s' : f ∈ H → f_cells s !! f = Some c → fd_data (fc_file c) = PipeFile p → pipe_io k →
      on_pipe p k s = Ret t s' → file_step (s, H) (s', H)
  | fstep_stat s H f r s' : f ∈ H → file_stat f s = Ret r s' → file_step (s, H) (s', H)
  | fstep_other s H e : file_step (s, H) (with_env e s, H).

(** [alloc::init]: every slot is free. *)
Definition files_init (e : E) : Files :=
  {| f_free := seq 0 (Z.to_nat NFILE); f_cells := ∅; f_pipes := ∅; f_notified := []; f_env := e |}.
Inductive files_reachable (e : E) : Files * list nat → Prop :=
  | files_reach_init : files_reachable e (files_init e, [])
  | files_reach_step t t' : files_reachable e t → file_step t t' → files_reachable e t'.

Lemma files_init_ok e : files_ok (files_init e) [].
Proof.
  split; [|split].
  - split; [apply NoDup_seq|]. intros i. rewrite elem_of_seq /NFILE /= lookup_empty. naive_solver lia.
  - split; [by intros i c Hc; rewrite lookup_empty in Hc|by intros i Hi%elem_of_nil].
  - split; [|split]; intros *; by rewrite lookup_empty.
Qed.
Lemma files_ok_perm s H H' : H ≡ₚ H' → files_ok s H → files_ok s H'.
Proof.
  intros HH (Hsl & (Hc1 & Hc2) & Hp). split; [done|]. split; [|done]. split.
  - intros i c Hi. rewrite -(refs_perm i H H' HH). by apply Hc1.
  - intros i Hi. apply Hc2. by rewrite HH.
Qed.
Lemma file_step_ok t t' : file_step t t' → files_ok t.1 t.2 → files_ok t'.1 t'.2.
Proof.
  intros Hst Hok. destruct Hst; simpl in Hok |- *.
  - exact (wlp_ret_inv _ _ _ _ _ (new_pipe_wlp s H Hok) H0).
  - exact (proj2 (wlp_ret_inv _ _ _ _ _ (new_pipe_wlp s H Hok) H0)).
  - exact (wlp_ret_inv _ _ _ _ _ (new_inode_wlp ip readable writable s H Hok) H0).
  - exact (proj2 (wlp_ret_inv _ _ _ _ _ (new_inode_wlp ip readable writable s H Hok) H0)).
  - exact (wlp_ret_inv _ _ _ _ _ (new_device_wlp major ip readable writable s H Hok) H0).
  - exact (proj2 (wlp_ret_inv _ _ _ _ _ (new_device_wlp major ip readable writable s H Hok) H0)).
  - destruct (wlp_ret_inv _ _ _ _ _ (file_dup_wlp f s H Hok H0) H1) as [-> ?]. done.
  - exact (wlp_ret_inv _ _ _ _ _ (file_close_wlp f s H' (files_ok_perm s H _ H0 Hok)) H1).
  - exact (wlp_ret_inv _ _ _ _ _ (file_read_wlp f len s H Hok H0 H1) H2).
  - exact (wlp_ret_inv _ _ _ _ _ (file_write_wlp f src s H Hok H0 H1) H2).
  - exact (wlp_ret_inv _ _ _ _ _ (on_pipe_wlp f c p k s H Hok H1 H2 H3) H4).
  - refine (wlp_ret_inv _ (λ _ s', files_ok s' H) _ _ _ _ H1). pose proof Hok as (_ & (_ & Hc2) & _). destruct (Hc2 f H0) as [c Hc].
    apply (get_cell_wlp f c); [done|]. destruct (fd_data (fc_file c)); [done|by apply on_env_wlp..].
  - done.
Qed.
Lemma files_reachable_ok e t : files_reachable e t → files_ok t.1 t.2.
Proof. induction 1 as [|t t' Hr IH Hst]; [apply files_init_ok|exact (file_step_ok t t' Hst IH)]. Qed.

(** What the file [f] is an end of. *)
Definition is_end (s : Files) (f : nat) (p : positive) (w : bool) : Prop := ∃ c, f_cells s !! f = Some c ∧ names_pipe c p w.

Lemma cell_held s H i c : files_ok s H → f_cells s !! i = Some c → i ∈ H.
Proof.
  intros (_ & (Hc1 & _) & _) Hi. destruct (Hc1 i c Hi) as (_ & Hpos & _). destruct (decide (i ∈ H)) as [|Hni]; [done|].
  rewrite /refs in Hpos. destruct (filter (λ g, g = i) H) as [|g l] eqn:Ef; [simpl in Hpos; lia|].
  assert (g ∈ filter (λ g, g = i) H) as [-> ?]%list_elem_of_filter by (rewrite Ef; by left). done.
Qed.
Lemma end_open_held s H p x w : files_ok s H → f_pipes s !! p = Some x → end_open (pi_pipe x) w = true ↔ ∃ f, f ∈ H ∧ is_end s f p w.
Proof.
  intros Hok Hx. pose proof Hok as (_ & _ & Hp & _). destruct (Hp p x Hx) as (_ & _ & _ & He). rewrite He. split.
  - intros (i & c & Hi & Hc). exists i. split; [by apply (cell_held s H i c)|by exists c].
  - intros (f & _ & c & Hf). eauto.
Qed.

(** C24: in every state that opening, duplicating, closing, reading and writing files in any order can reach: a slot of the
    file table is free exactly when no process holds a reference to it, and its count is the number of references; a
    pipe exists exactly as long as some process holds a file of it; an end of a pipe is open exactly as long as some
    process holds a file of that end. *)
Theorem pipe_ends (e : E) s H :
  files_reachable e (s, H) →
  (∀ i, Z.of_nat i < NFILE → (i ∈ f_free s ↔ i ∉ H)) ∧
  (∀ f c, f_cells s !! f = Some c → fc_strong c = Z.of_nat (length (filter (λ g, g = f) H))) ∧
  (∀ p, is_Some (f_pipes s !! p) ↔ ∃ f w, f ∈ H ∧ is_end s f p w) ∧
  (∀ p x w, f_pipes s !! p = Some x → end_open (pi_pipe x) w = true ↔ ∃ f, f ∈ H ∧ is_end s f p w).
Proof.
  intros Hr. pose proof (files_reachable_ok e _ Hr) as Hok. simpl in Hok. pose proof Hok as ([_ Hfree] & (Hc1 & Hc2) & Hp & Hn & _).
  split; [|split; [|split]].
  - intros i Hi. rewrite Hfree. split; [intros [_ Hnone] [c Hc]%Hc2; congruence|].
    intros Hni. split; [done|]. destruct (f_cells s !! i) as [c|] eqn:Hc; [|done]. by apply (cell_held s H) in Hc.
  - intros f c Hf. by apply Hc1.
  - intros p. split.
    + intros [x Hx]. destruct (Hp p x Hx) as (_ & Hs & Hpos & _). destruct (end_open (pi_pipe x) false) eqn:E0.
      * apply (end_open_held s H p x) in E0 as (f & ?); eauto.
      * destruct (end_open (pi_pipe x) true) eqn:E1; [|simpl in Hs; lia]. apply (end_open_held s H p x) in E1 as (f & ?); eauto.
    + intros (f & w & _ & c & Hf & Hc). by apply (Hn f c p w).
  - intros p x w Hx. by apply end_open_held.
Qed.

(** a read of a pipe never panics; it waits exactly when the pipe is empty and some process still holds a file of the
    write end, and returns what is there otherwise: the end of file comes with the last writer. *)
Theorem pipe_read_waits (e : E) s H f p x len :
  files_reachable e (s, H) → is_end s f p false → f_pipes s !! p = Some x → 0 ≤ len < 2 ^ 64 - 1 →
  (∀ c, f_cells s !! f = Some c → fd_readable (fc_file c) = true) →
  ∃ t s', file_read f len s = Ret (OnPipe p t) s' ∧
    ((queue (pi_pipe x) = [] ∧ (∃ g, g ∈ H ∧ is_end s g p true) ∧
      t = Wait ReaderCond (Some (BytesRead (Err CallerProcessAlreadyKilled))) (PipeRead len)) ∨
     (¬ (queue (pi_pipe x) = [] ∧ ∃ g, g ∈ H ∧ is_end s g p true) ∧
      t = Return (BytesRead (Ok (take (Z.to_nat len) (queue (pi_pipe x))))))).
Proof.
  intros Hr (c & Hc & Hd & _) Hx Hlen Hread. pose proof (files_reachable_ok e _ Hr) as Hok. simpl in Hok.
  pose proof (on_pipe_wp p (PipeRead len) s H x Hok Hx ltac:(done)) as Ht. rewrite /wp in Ht. destruct (on_pipe p _ s) as [t s'|] eqn:Er; [|done].
  destruct Ht as [_ ->]. eexists _, s'. split.
  - rewrite /file_read (bind_Ret _ _ _ _ _ (get_cell_run f c s Hc)) (Hread c Hc) /= Hd (bind_Ret _ _ _ _ _ Er). done.
  - rewrite -(end_open_held s H p x true Hok Hx) /=. destruct (bool_decide (queue (pi_pipe x) = [])) eqn:Eq.
    + apply bool_decide_eq_true in Eq. destruct (p_write_open (pi_pipe x)) eqn:Ew; simpl; [by left|right]. split; [naive_solver|done].
    + apply bool_decide_eq_false in Eq. right. split; [naive_solver|done].
Qed.
End file.

(** ** The files of a process

    The file table is the file layer of the process table: what [Proc] and its theorems say holds with these files. *)

#[export] Instance table_layer {E : Type} `{!InodeLayer E} : FileLayer (Files (E := E)) := {|
  Proc.File := nat;
  Proc.Inode := Ip;
  Proc.file_dup := file_dup;
  Proc.file_close := file_close;
  Proc.inode_clone ip := on_env (clone_inode ip);
  Proc.inode_put ip := on_env (close_inode ip);
  Proc.root_inode := on_env root_ip;
|}.

(** ** A run *)

Module Example.
#[local] Instance no_inodes : InodeLayer unit := {|
  Ip := unit; FileStat := unit; clone_inode := mret; root_ip := mret tt; close_inode _ := mret tt; stat_inode _ := mret (Ok tt);
  inode_read _ _ _ := mret (Ok []); inode_write _ _ src := mret (Ok (Z.of_nat (length src)));
  devices := device_table_new unit; page_available := mret true;
|}.

(** A pipe whose write end is duplicated, written to and closed once. *)
Definition exec {A} (m : M (Files (E := unit)) A) (s : Files) : Files := match m s with Ret _ s' => s' | Panic => s end.
Definition opened : Files := exec new_pipe (files_init tt).
Definition written : Files := exec (file_write 1 [Byte.x61; Byte.x62]) (exec (file_dup 1) opened).
Definition closed_once : Files := exec (file_close 1) written.
Definition drained : Files := exec (file_close 1) (exec (file_read 0 2) closed_once).

Lemma written_reachable : files_reachable tt (written, [1%nat; 1%nat; 0%nat]).
Proof.
  eapply files_reach_step; [eapply files_reach_step; [eapply files_reach_step; [apply files_reach_init|]|]|].
  - apply (fstep_pipe (files_init tt) [] 0%nat 1%nat opened). vm_compute. reflexivity.
  - apply (fstep_dup opened [1%nat; 0%nat] 1%nat 1%nat (exec (file_dup 1) opened)); [by left|]. vm_compute. reflexivity.
  - apply (fstep_write _ _ 1%nat [Byte.x61; Byte.x62] (OnPipe 1 (Return (Written (Ok 2)))) written); [by left|done|]. vm_compute. reflexivity.
Qed.
Lemma closed_once_reachable : files_reachable tt (closed_once, [1%nat; 0%nat]).
Proof.
  eapply files_reach_step; [exact written_reachable|]. apply (fstep_close _ _ 1%nat [1%nat; 0%nat] closed_once); [done|]. vm_compute. reflexivity.
Qed.
Lemma drained_reachable : files_reachable tt (drained, [0%nat]).
Proof.
  eapply files_reach_step; [eapply files_reach_step; [exact closed_once_reachable|]|].
  - apply (fstep_read _ _ 0%nat 2 (OnPipe 1 (Return (BytesRead (Ok [Byte.x61; Byte.x62])))) (exec (file_read 0 2) closed_once)); [by right; left|done|].
    vm_compute. reflexivity.
  - apply (fstep_close _ _ 1%nat [0%nat] drained); [done|]. vm_compute. reflexivity.
Qed.

(** The write end is still open after one of its two references is closed. *)
Lemma pipe_ends_witness : ∃ x, f_pipes closed_once !! 1%positive = Some x ∧ end_open (pi_pipe x) true = true.
Proof.
  destruct (pipe_ends tt closed_once [1%nat; 0%nat] closed_once_reachable) as (_ & _ & _ & Hopen).
  eexists. split; [vm_compute; reflexivity|]. apply (Hopen 1%positive _ true); [vm_compute; reflexivity|].
  exists 1%nat. split; [by left|]. eexists. split; [vm_compute; reflexivity|done].
Defined.
(** When the last writer is gone a read of the empty pipe returns nothing. *)
Lemma pipe_read_waits_witness : ∃ t s', file_read 0 10 drained = Ret (OnPipe 1 t) s' ∧ t = Return (BytesRead (Ok [])).
Proof.
  destruct (pipe_read_waits tt drained [0%nat] 0%nat 1%positive
    {| pi_strong := 1; pi_pipe := match f_pipes drained !! 1%positive with Some x => pi_pipe x | None => pipe_new end |} 10 drained_reachable)
    as (t & s' & Hrun & [(_ & (g & Hg & c & Hc & Hn & Hw) & _)|(_ & ->)]).
  - eexists. split; [vm_compute; reflexivity|done].
  - vm_compute. reflexivity.
  - done.
  - intros c Hc. vm_compute in Hc. by injection Hc as <-.
  - apply list_elem_of_singleton in Hg as ->. vm_compute in Hc. injection Hc as <-. discriminate Hw.
  - exists (Return (BytesRead (Ok []))), s'. split; [|done]. rewrite Hrun. vm_compute. reflexivity.
Defined.
End Example.
