(* ===== verification/Console.v ===== *)
(** * The console

    Model of the input side of [crates/kernel/ov6_kernel/src/console/mod.rs]: the interrupt handler that edits the line
    being typed and the [read] of the console device, as turns of a monitor over the ring buffer with its three counters.
    The characters that are echoed are recorded; [proc::ops::dump], which control-p calls, only prints and is left out. *)

From Stdlib Require Import Strings.Byte.
From stdpp Require Import base list ssreflect.
From S2P Require Import Prelude KError.
From S2P Require Import Ring Monitor.

Definition CONS_SIZE : Z := 128.
Definition CTRL_H : byte := Byte.x08.
Definition CTRL_U : byte := Byte.x15.
Definition CTRL_D : byte := Byte.x04.
Definition CTRL_P : byte := Byte.x10.
Definition DEL : byte := Byte.x7f.
Definition NEWLINE : byte := Byte.x0a.
Definition RETURN : byte := Byte.x0d.

(** The buffer, its read, write and edit index, and the characters sent to the UART. *)
Record Cons : Type := {
  c_buf : list byte;
  c_r : Z;
  c_w : Z;
  c_e : Z;
  c_echo : list byte;
}.
Definition cons_new : Cons :=
  {| c_buf := replicate (Z.to_nat CONS_SIZE) Byte.x00; c_r := 0; c_w := 0; c_e := 0; c_echo := [] |}.

Definition set_r (r : Z) (c : Cons) : Cons := {| c_buf := c_buf c; c_r := r; c_w := c_w c; c_e := c_e c; c_echo := c_echo c |}.
Definition set_w (w : Z) (c : Cons) : Cons := {| c_buf := c_buf c; c_r := c_r c; c_w := w; c_e := c_e c; c_echo := c_echo c |}.
(** [cons.e -= 1; put_backspace()]. *)
Definition backspace : list byte := [Byte.x08; Byte.x20; Byte.x08].
Definition erase (c : Cons) : Cons :=
  {| c_buf := c_buf c; c_r := c_r c; c_w := c_w c; c_e := wrap 64 (c_e c - 1); c_echo := c_echo c ++ backspace |}.
(** [put_char(c as char)]: [putc_sync] sends the UTF-8 encoding, which has two bytes from 0x80 on. *)
Definition byte_of (v : Z) : byte := default Byte.x00 (Byte.of_N (Z.to_N (wrap 8 v))).
Definition encode_utf8 (c : byte) : list byte :=
  let v := Z.of_N (Byte.to_N c) in
  if v <? 128 then [c] else [byte_of (Z.lor 192 (Z.shiftr v 6)); byte_of (Z.lor 128 (Z.land v 63))].
(** [put_char(c); cons.buf[cons.e % len] = c; cons.e += 1]. *)
Definition store (b : byte) (c : Cons) : Cons :=
  {| c_buf := <[Z.to_nat (c_e c mod CONS_SIZE) := b]> (c_buf c); c_r := c_r c; c_w := c_w c; c_e := wrap 64 (c_e c + 1);
     c_echo := c_echo c ++ encode_utf8 b |}.

(** A byte of a UTF-8 encoded character is not echoed as it came: [é], typed as [c3 a9], comes back as [c3 83 c2 a9]. *)
Lemma utf8_echo_differs : c_echo (store Byte.xa9 (store Byte.xc3 cons_new)) = [Byte.xc3; Byte.x83; Byte.xc2; Byte.xa9].
Proof. by vm_compute. Qed.

(** The only condition variable, [CONSOLE_BUFFER_WRITTEN]. *)
Inductive ConsCond : Type := BufferWritten.
#[export] Instance conscond_eq_dec : EqDecision ConsCond.
Proof. solve_decision. Defined.

(** A call; a read carries the bytes it has copied. *)
Inductive ConsCall : Type :=
  | ConsInput (c : byte)
  | ConsRead (len : Z) (dst : list byte).
Inductive ConsResult : Type :=
  | Handled
  | LineRead (r : result KernelError (list byte)).
Notation ConsM := (M (Locked Cons ConsCond)).
Notation ConsTurn := (Turn ConsCond ConsCall ConsResult).

(** The loop of control-u; at most the whole buffer is erased. *)
Definition kill_body (u : unit) : ConsM (unit + unit) :=
  c ← gets lk_data;
  if c_e c =? c_w c then mret (inr tt)
  else
    last ← unwrap (c_buf c !! Z.to_nat (wrap 64 (c_e c - 1) mod CONS_SIZE));
    if bool_decide (last = NEWLINE) then mret (inr tt)
    else on_data (modify erase);; mret (inl tt).

(** A character that is stored; it ends the line when it is a newline or an end of file, or fills the buffer. *)
Definition cons_store (c : byte) : ConsM unit :=
  on_data (modify (store c));;
  s ← gets lk_data;
  if bool_decide (c = NEWLINE) || bool_decide (c = CTRL_D) || (wrap 64 (c_e s - c_r s) =? CONS_SIZE) then
    on_data (modify (set_w (c_e s)));;
    notify BufferWritten
  else mret tt.
(** [console::handle_interrupt]. *)
Definition cons_handle (c : byte) : ConsM unit :=
  if bool_decide (c = CTRL_P) then mret tt
  else if bool_decide (c = CTRL_U) then while_ 129 kill_body tt
  else if bool_decide (c = CTRL_H) || bool_decide (c = DEL) then
    s ← gets lk_data;
    if c_e s =? c_w s then mret tt else on_data (modify erase)
  else
    s ← gets lk_data;
    if negb (bool_decide (c = Byte.x00)) && (wrap 64 (c_e s - c_r s) <? CONS_SIZE) then
      cons_store (if bool_decide (c = RETURN) then NEWLINE else c)
    else mret tt.

(** An iteration of [console::read]. *)
Definition cons_read_body (len : Z) (dst : list byte) : ConsM (list byte + ConsTurn) :=
  let break dst : ConsM (list byte + ConsTurn) := mret (inr (Return (LineRead (Ok dst)))) in
  if Z.of_nat (length dst) <? len then
    s ← gets lk_data;
    if c_r s =? c_w s then
      mret (inr (Wait BufferWritten (Some (LineRead (Err CallerProcessAlreadyKilled))) (ConsRead len dst)))
    else
      c ← unwrap (c_buf s !! Z.to_nat (c_r s mod CONS_SIZE));
      on_data (modify (set_r (wrap 64 (c_r s + 1))));;
      if bool_decide (c = CTRL_D) then
        if bool_decide (dst = []) then break dst
        else
          (if Z.of_nat (length dst) <? len
           then on_data (modify (λ s, set_r (wrap 64 (c_r s - 1)) s)) else mret tt);;
          break dst
      else
        let dst := dst ++ [c] in
        if bool_decide (c = NEWLINE) then break dst else mret (inl dst)
  else break dst.
(** At most the whole buffer is read in a turn. *)
Definition cons_read (len : Z) (dst : list byte) : ConsM ConsTurn := while_ 130 (cons_read_body len) dst.

Definition cons_turn (k : ConsCall) : ConsM ConsTurn :=
  match k with
  | ConsInput c => cons_handle c;; mret (Return Handled)
  | ConsRead len dst => cons_read len dst
  end.

(** ** Specification

    The console is a line editor: the characters that readers may have, and the line that is being typed. *)

Record Editor : Type := {
  e_ready : list byte;
  e_line : list byte;
  e_echo : list byte;
}.
Definition editor_store (c : byte) (s : Editor) : Editor * list ConsCond :=
  let line := e_line s ++ [c] in
  let echo := e_echo s ++ encode_utf8 c in
  if bool_decide (c = NEWLINE) || bool_decide (c = CTRL_D) || bool_decide (Z.of_nat (length (e_ready s ++ line)) = CONS_SIZE) then
    ({| e_ready := e_ready s ++ line; e_line := []; e_echo := echo |}, [BufferWritten])
  else ({| e_ready := e_ready s; e_line := line; e_echo := echo |}, []).
Definition editor_input (c : byte) (s : Editor) : Editor * list ConsCond :=
  if bool_decide (c = CTRL_P) then (s, [])
  else if bool_decide (c = CTRL_U) then
    ({| e_ready := e_ready s; e_line := []; e_echo := e_echo s ++ concat (replicate (length (e_line s)) backspace) |}, [])
  else if bool_decide (c = CTRL_H) || bool_decide (c = DEL) then
    if bool_decide (e_line s = []) then (s, [])
    else ({| e_ready := e_ready s; e_line := take (length (e_line s) - 1) (e_line s); e_echo := e_echo s ++ backspace |}, [])
  else if negb (bool_decide (c = Byte.x00)) && bool_decide (Z.of_nat (length (e_ready s ++ e_line s)) < CONS_SIZE) then
    editor_store (if bool_decide (c = RETURN) then NEWLINE else c) s
  else (s, []).

(** A read of up to [n] more characters: it ends after a newline and before an end-of-file character, which is only taken
    when it comes first, and waits when nothing is ready. *)
Fixpoint editor_read (len : Z) (n : nat) (dst ready : list byte) : ConsTurn * list byte :=
  match n with
  | O => (Return (LineRead (Ok dst)), ready)
  | S n =>
      match ready with
      | [] => (Wait BufferWritten (Some (LineRead (Err CallerProcessAlreadyKilled))) (ConsRead len dst), [])
      | c :: rest =>
          if bool_decide (c = CTRL_D) then (Return (LineRead (Ok dst)), if bool_decide (dst = []) then rest else ready)
          else if bool_decide (c = NEWLINE) then (Return (LineRead (Ok (dst ++ [c]))), rest)
          else editor_read len n (dst ++ [c]) rest
      end
  end.
Definition editor_turn (k : ConsCall) (s : Editor) : ConsTurn * Editor * list ConsCond :=
  match k with
  | ConsInput c => let '(s', ns) := editor_input c s in (Return Handled, s', ns)
  | ConsRead len dst =>
      let '(t, ready) := editor_read len (Z.to_nat (len - Z.of_nat (length dst))) dst (e_ready s) in
      (t, {| e_ready := ready; e_line := e_line s; e_echo := e_echo s |}, [])
  end.

(** ** The ring buffer and the editor *)

Definition editor_of (c : Cons) : Editor :=
  {| e_ready := ring CONS_SIZE (c_buf c) (c_r c) (c_w c); e_line := ring CONS_SIZE (c_buf c) (c_w c) (c_e c); e_echo := c_echo c |}.
Definition cons_ok (c : Cons) : Prop :=
  length (c_buf c) = Z.to_nat CONS_SIZE ∧ 0 ≤ c_r c < 2 ^ 64 ∧ 0 ≤ c_w c < 2 ^ 64 ∧ 0 ≤ c_e c < 2 ^ 64 ∧
  span (c_r c) (c_w c) + span (c_w c) (c_e c) ≤ CONS_SIZE ∧ NEWLINE ∉ e_line (editor_of c).

Lemma cons_size_ok : 0 < CONS_SIZE < 2 ^ 64.
Proof. done. Qed.
Lemma cons_size_div : 2 ^ 64 mod CONS_SIZE = 0.
Proof. done. Qed.
Lemma ready_length c : Z.of_nat (length (e_ready (editor_of c))) = span (c_r c) (c_w c).
Proof. rewrite ring_length. pose proof (span_bound (c_r c) (c_w c)). lia. Qed.
Lemma line_length c : Z.of_nat (length (e_line (editor_of c))) = span (c_w c) (c_e c).
Proof. rewrite ring_length. pose proof (span_bound (c_w c) (c_e c)). lia. Qed.
Lemma total_length c : cons_ok c → Z.of_nat (length (e_ready (editor_of c) ++ e_line (editor_of c))) = wrap 64 (c_e c - c_r c).
Proof.
  intros (_ & _ & _ & _ & Hle & _). rewrite length_app Nat2Z.inj_add ready_length line_length. symmetry. apply span_app.
  rewrite /CONS_SIZE in Hle. lia.
Qed.
Lemma ready_empty c : cons_ok c → (c_r c =? c_w c) = bool_decide (e_ready (editor_of c) = []).
Proof. intros (_ & Hr & Hw & _). rewrite span_zero //. apply bool_decide_ext, ring_nil. Qed.
Lemma line_empty c : cons_ok c → (c_e c =? c_w c) = bool_decide (e_line (editor_of c) = []).
Proof. intros (_ & Hr & Hw & He & _). rewrite Z.eqb_sym span_zero //. apply bool_decide_ext, ring_nil. Qed.

Lemma store_spec b c :
  cons_ok c → wrap 64 (c_e c - c_r c) < CONS_SIZE →
  editor_of (store b c) = {| e_ready := e_ready (editor_of c); e_line := e_line (editor_of c) ++ [b]; e_echo := c_echo c ++ encode_utf8 b |} ∧
  wrap 64 (c_e (store b c) - c_r c) = wrap 64 (c_e c - c_r c) + 1 ∧ span (c_w c) (c_e (store b c)) = span (c_w c) (c_e c) + 1.
Proof.
  intros (Hl & Hr & Hw & He & Hle & _) Hlt. rewrite /CONS_SIZE in Hle. pose proof (span_bound (c_r c) (c_w c)). pose proof (span_bound (c_w c) (c_e c)).
  assert (wrap 64 (c_e c - c_r c) = span (c_r c) (c_w c) + span (c_w c) (c_e c)) as Htot by (apply span_app; lia).
  assert (span (c_w c) (wrap 64 (c_e c + 1)) = span (c_w c) (c_e c) + 1) as Hs1 by (apply span_succ_r; lia).
  assert (span (c_r c) (wrap 64 (c_e c + 1)) = span (c_r c) (c_e c) + 1) as Hs2 by (apply span_succ_r; rewrite /span Htot; lia).
  split; [|split; [exact Hs2|exact Hs1]].
  pose proof (ring_push CONS_SIZE cons_size_ok cons_size_div (c_buf c) (c_r c) (c_e c) b Hl Hlt) as Hp.
  rewrite (ring_app CONS_SIZE cons_size_ok cons_size_div _ (c_r c) (c_w c) (wrap 64 (c_e c + 1))) in Hp; [|lia].
  rewrite (ring_app CONS_SIZE cons_size_ok cons_size_div _ (c_r c) (c_w c) (c_e c)) in Hp; [|lia].
  rewrite -app_assoc in Hp. apply app_inj_1 in Hp as [H1 H2]; [|by rewrite !ring_length].
  by rewrite /editor_of /= -H1 -H2.
Qed.
Lemma store_ok b c : cons_ok c → wrap 64 (c_e c - c_r c) < CONS_SIZE → b ≠ NEWLINE → cons_ok (store b c).
Proof.
  intros Hc Hlt Hb. destruct (store_spec b c Hc Hlt) as (He & H1 & H2). pose proof (total_length c Hc) as Htot.
  rewrite length_app Nat2Z.inj_add ready_length line_length in Htot. destruct Hc as (Hl & Hr & Hw & _ & Hle & Hno).
  split; [by rewrite length_insert|]. split; [done|]. split; [done|]. split; [apply wrap_bound; lia|]. split; [simpl in H2 |- *; lia|].
  rewrite He /= not_elem_of_app not_elem_of_cons. repeat split; [done|by intros <-|]. apply not_elem_of_nil.
Qed.
(** The line is handed to the readers. *)
Lemma commit_spec c :
  length (c_buf c) = Z.to_nat CONS_SIZE → 0 ≤ c_r c < 2 ^ 64 → 0 ≤ c_e c < 2 ^ 64 → span (c_r c) (c_w c) + span (c_w c) (c_e c) ≤ CONS_SIZE →
  cons_ok (set_w (c_e c) c) ∧ editor_of (set_w (c_e c) c) = {| e_ready := e_ready (editor_of c) ++ e_line (editor_of c); e_line := []; e_echo := c_echo c |}.
Proof.
  intros Hl Hr He Hle. rewrite /CONS_SIZE in Hle. assert (span (c_e c) (c_e c) = 0) as H0 by (apply (span_of _ _ 0 0); lia).
  assert (ring CONS_SIZE (c_buf c) (c_e c) (c_e c) = []) as Hnil by by apply ring_nil. split.
  - split; [done|]. split; [done|]. split; [done|]. split; [done|]. simpl. rewrite H0 (span_app _ (c_w c)); [|lia]. rewrite Hnil.
    split; [rewrite /CONS_SIZE; lia|]. apply not_elem_of_nil.
  - rewrite /editor_of /= Hnil. f_equal. apply (ring_app CONS_SIZE cons_size_ok cons_size_div). lia.
Qed.
Lemma erase_spec c :
  cons_ok c → e_line (editor_of c) ≠ [] →
  cons_ok (erase c) ∧
  (∃ b, c_buf c !! Z.to_nat (wrap 64 (c_e c - 1) mod CONS_SIZE) = Some b ∧ e_line (editor_of c) = e_line (editor_of (erase c)) ++ [b]) ∧
  e_ready (editor_of (erase c)) = e_ready (editor_of c) ∧ e_echo (editor_of (erase c)) = e_echo (editor_of c) ++ backspace.
Proof.
  intros (Hl & Hr & Hw & He & Hle & Hno) Hne. pose proof (span_bound (c_w c) (c_e c)).
  assert (0 < span (c_w c) (c_e c)) as Hpos. { destruct (Z.eq_dec (span (c_w c) (c_e c)) 0) as [E|]; [|lia]. by destruct Hne; apply ring_nil. }
  pose proof (ring_unpush CONS_SIZE cons_size_ok cons_size_div (c_buf c) (c_w c) (c_e c) Hpos) as Hu.
  pose proof (span_pred_r (c_w c) (c_e c) Hpos) as Hs. split; [|split; [|done]].
  - split; [done|]. split; [done|]. split; [done|]. split; [apply wrap_bound; lia|]. split; [simpl; lia|].
    intros Hin. apply Hno. simpl. rewrite Hu. apply elem_of_app. by left.
  - exists (ring_at CONS_SIZE (c_buf c) (wrap 64 (c_e c - 1))). split; [|exact Hu]. rewrite /ring_at.
    destruct (lookup_lt_is_Some_2 (c_buf c) (Z.to_nat (wrap 64 (c_e c - 1) mod CONS_SIZE))) as [b ->]; [|done]. rewrite Hl.
    pose proof (mod_range CONS_SIZE cons_size_ok (wrap 64 (c_e c - 1))). lia.
Qed.
Lemma take_spec c :
  cons_ok c → e_ready (editor_of c) ≠ [] →
  ∃ b, cons_ok (set_r (wrap 64 (c_r c + 1)) c) ∧ c_buf c !! Z.to_nat (c_r c mod CONS_SIZE) = Some b ∧
    e_ready (editor_of c) = b :: e_ready (editor_of (set_r (wrap 64 (c_r c + 1)) c)).
Proof.
  intros (Hl & Hr & Hw & He & Hle & Hno) Hne. pose proof (span_bound (c_r c) (c_w c)).
  assert (0 < span (c_r c) (c_w c)) as Hpos. { destruct (Z.eq_dec (span (c_r c) (c_w c)) 0) as [E|]; [|lia]. by destruct Hne; apply ring_nil. }
  destruct (ring_pop CONS_SIZE cons_size_ok cons_size_div (c_buf c) (c_r c) (c_w c) Hl Hpos) as [Hb Hp].
  pose proof (span_succ_l (c_r c) (c_w c) Hpos) as Hs. eexists. split; [|split; [exact Hb|exact Hp]].
  split; [done|]. split; [apply wrap_bound; lia|]. split; [done|]. split; [done|]. split; [simpl; lia|done].
Qed.

(** ** The turns *)

Lemma editor_eta s r l e : e_ready s = r → e_line s = l → e_echo s = e → s = {| e_ready := r; e_line := l; e_echo := e |}.
Proof. destruct s. simpl. by intros -> -> ->. Qed.

Lemma kill_loop_wp c :
  cons_ok c →
  wp (while_ 129 kill_body tt) (λ _ l, cons_ok (lk_data l) ∧ lk_notified l = [] ∧
    editor_of (lk_data l) = {| e_ready := e_ready (editor_of c); e_line := [];
      e_echo := c_echo c ++ concat (replicate (length (e_line (editor_of c))) backspace) |}) {| lk_data := c; lk_notified := [] |}.
Proof.
  intros Hc.
  apply (while_wp _ _ (λ _ l, cons_ok (lk_data l) ∧ lk_notified l = [] ∧ e_ready (editor_of (lk_data l)) = e_ready (editor_of c) ∧
    c_echo (lk_data l) ++ concat (replicate (length (e_line (editor_of (lk_data l)))) backspace) =
    c_echo c ++ concat (replicate (length (e_line (editor_of c))) backspace)) (λ _ l, Z.of_nat (length (e_line (editor_of (lk_data l)))))).
  - intros [] l (Hok & Hno & Hready & Hecho). split; [lia|]. rw /kill_body. apply wp_bind, wp_gets. rewrite line_empty //.
    case_bool_decide as Hl.
    + apply wp_ret. split; [done|]. split; [done|]. rewrite Hl /= app_nil_r in Hecho. by apply editor_eta.
    + destruct (erase_spec (lk_data l) Hok Hl) as (Hok' & (b & Hb & Hline) & Hready' & Hecho'). apply wp_bind, (wp_unwrap _ b); [done|].
      rewrite bool_decide_eq_false_2.
      * apply wp_bind, on_data_modify_wp, wp_ret. cbn [lk_data lk_notified]. split; [|rewrite Hline length_app /=; lia].
        split; [done|]. split; [done|]. split; [by rewrite -Hready|]. change (c_echo (erase (lk_data l))) with (c_echo (lk_data l) ++ backspace). rewrite -Hecho Hline length_app Nat.add_1_r. by rewrite -app_assoc.
      * intros ->. destruct Hok as (_ & _ & _ & _ & _ & Hnl). apply Hnl. rewrite Hline. apply elem_of_app. right. by apply list_elem_of_singleton.
  - pose proof (line_length c). destruct Hc as (_ & _ & _ & _ & Hle & _). pose proof (span_bound (c_r c) (c_w c)). rewrite /CONS_SIZE in Hle. simpl lk_data. lia.
  - done.
Qed.

Lemma Zltb_bool_decide a b : (a <? b) = bool_decide (a < b).
Proof. case_bool_decide; [by apply Z.ltb_lt|by apply Z.ltb_nlt]. Qed.

Lemma cons_store_wp b c :
  cons_ok c → wrap 64 (c_e c - c_r c) < CONS_SIZE →
  wp (cons_store b) (λ _ l, cons_ok (lk_data l) ∧ editor_store b (editor_of c) = (editor_of (lk_data l), lk_notified l)) {| lk_data := c; lk_notified := [] |}.
Proof.
  intros Hc Hlt. rw /cons_store. apply wp_bind, on_data_modify_wp, wp_bind, wp_gets. cbn [lk_data lk_notified].
  destruct (store_spec b c Hc Hlt) as (He & H1 & H2). rewrite /editor_store.
  assert ((wrap 64 (c_e (store b c) - c_r (store b c)) =? CONS_SIZE) =
    bool_decide (Z.of_nat (length (e_ready (editor_of c) ++ e_line (editor_of c) ++ [b])) = CONS_SIZE)) as ->.
  { change (c_r (store b c)) with (c_r c). rewrite H1 app_assoc length_app Nat2Z.inj_add total_length //.
    case_bool_decide; [by apply Z.eqb_eq|by apply Z.eqb_neq]. }
  destruct (_ || bool_decide (Z.of_nat _ = _)) eqn:E.
  - apply wp_bind, on_data_modify_wp, turn_notify_wp. cbn [lk_data lk_notified].
    pose proof (total_length c Hc) as Ht. rewrite length_app Nat2Z.inj_add ready_length line_length in Ht.
    destruct Hc as (Hl & Hr & Hw & _ & Hle & _). destruct (commit_spec (store b c)) as [Hok Hed].
    + by rewrite length_insert.
    + done.
    + apply wrap_bound. lia.
    + change (c_r (store b c)) with (c_r c). change (c_w (store b c)) with (c_w c). lia.
    + split; [done|]. by rewrite Hed He.
  - apply wp_ret. cbn [lk_data lk_notified]. rewrite !orb_false_iff in E. destruct E as [[E%bool_decide_eq_false _] _].
    split; [by apply store_ok|]. by rewrite He.
Qed.
Lemma cons_handle_wp b c :
  cons_ok c →
  wp (cons_handle b) (λ _ l, cons_ok (lk_data l) ∧ editor_input b (editor_of c) = (editor_of (lk_data l), lk_notified l))
    {| lk_data := c; lk_notified := [] |}.
Proof.
  intros Hc. rw /cons_handle /editor_input.
  case_bool_decide as H1; [done|]. case_bool_decide as H2.
  { eapply wp_mono; [exact (kill_loop_wp c Hc)|]. intros [] l (Hok & -> & ->). done. }
  destruct (bool_decide (b = CTRL_H) || bool_decide (b = DEL)) eqn:H3.
  { apply wp_bind, wp_gets. rewrite line_empty //. cbn [lk_data]. destruct (bool_decide (e_line (editor_of c) = [])) eqn:Hl; [done|]. apply bool_decide_eq_false in Hl. apply on_data_modify_wp.
    destruct (erase_spec c Hc Hl) as (Hok & (b' & _ & Hline) & Hready & Hecho). split; [done|]. cbn [lk_data lk_notified]. f_equal. symmetry.
    apply editor_eta; [done| |done]. rewrite Hline length_app /= Nat.add_sub. symmetry. apply take_app_length. }
  apply wp_bind, wp_gets. cbn [lk_data].
  assert ((wrap 64 (c_e c - c_r c) <? CONS_SIZE) =
    bool_decide (Z.of_nat (length (e_ready (editor_of c) ++ e_line (editor_of c))) < CONS_SIZE)) as ->.
  { rewrite -total_length //. apply Zltb_bool_decide. }
  destruct (negb _ && _) eqn:E; [|done]. apply andb_true_iff in E as [_ Hlt%bool_decide_eq_true]. rewrite total_length // in Hlt.
  by apply cons_store_wp.
Qed.

Lemma wrap_back r : 0 ≤ r < 2 ^ 64 → wrap 64 (wrap 64 (r + 1) - 1) = r.
Proof. intros Hr. destruct (wrap_cong (r + 1)) as [m Hm]. rewrite Hm /wrap. replace (r + 1 + m * 2 ^ 64 - 1) with (r + m * 2 ^ 64) by lia. rewrite Z.mod_add; [by apply Z.mod_small|lia]. Qed.

Lemma cons_read_wp len dst0 c :
  cons_ok c → Z.of_nat (length dst0) ≤ len →
  wp (cons_read len dst0) (λ t l,
    editor_read len (Z.to_nat (len - Z.of_nat (length dst0))) dst0 (e_ready (editor_of c)) = (t, e_ready (editor_of (lk_data l))) ∧
    cons_ok (lk_data l) ∧ lk_notified l = [] ∧ e_line (editor_of (lk_data l)) = e_line (editor_of c) ∧ c_echo (lk_data l) = c_echo c)
    {| lk_data := c; lk_notified := [] |}.
Proof.
  intros Hc Hdst.
  apply (while_wp _ _ (λ dst l, Z.of_nat (length dst) ≤ len ∧ cons_ok (lk_data l) ∧ lk_notified l = [] ∧
    e_line (editor_of (lk_data l)) = e_line (editor_of c) ∧ c_echo (lk_data l) = c_echo c ∧
    editor_read len (Z.to_nat (len - Z.of_nat (length dst0))) dst0 (e_ready (editor_of c)) =
    editor_read len (Z.to_nat (len - Z.of_nat (length dst))) dst (e_ready (editor_of (lk_data l))))
    (λ _ l, Z.of_nat (length (e_ready (editor_of (lk_data l)))))).
  - intros dst l (Hlen & Hok & Hno & Hline & Hecho & ->). split; [lia|]. rw /cons_read_body.
    destruct (Z.ltb_spec (Z.of_nat (length dst)) len) as [Hlt|Hge].
    2: { apply wp_ret. replace (Z.to_nat (len - Z.of_nat (length dst))) with 0%nat by lia. done. }
    replace (Z.to_nat (len - Z.of_nat (length dst))) with (S (Z.to_nat (len - Z.of_nat (length dst) - 1))) by lia. cbn [editor_read].
    apply wp_bind, wp_gets. rewrite ready_empty //. case_bool_decide as Hr; [apply wp_ret; by rewrite Hr|].
    destruct (take_spec (lk_data l) Hok Hr) as (b & Hok' & Hb & Hready). rewrite Hready.
    apply wp_bind, (wp_unwrap _ b); [done|]. apply wp_bind, on_data_modify_wp. cbn [lk_data lk_notified].
    destruct (decide (b = CTRL_D)) as [->|HD].
    + rewrite bool_decide_eq_true_2 //. destruct (decide (dst = [])) as [->|Hne].
      * rewrite bool_decide_eq_true_2 //.
      * rewrite bool_decide_eq_false_2 //. apply wp_bind, on_data_modify_wp, wp_ret. cbn [lk_data lk_notified].
        assert (set_r (wrap 64 (c_r (set_r (wrap 64 (c_r (lk_data l) + 1)) (lk_data l)) - 1)) (set_r (wrap 64 (c_r (lk_data l) + 1)) (lk_data l)) = lk_data l) as ->.
        { pose proof Hok as (_ & Hr0 & _). destruct (lk_data l) as [buf r w e echo]. rewrite /set_r /=. f_equal. by apply wrap_back. }
        by rewrite -Hready.
    + rewrite bool_decide_eq_false_2 //. case_bool_decide as HN; apply wp_ret; [done|]. cbn [lk_data lk_notified]. rewrite length_app /=.
      split; [|lia]. split; [lia|]. split; [done|]. split; [done|]. split; [done|]. split; [done|]. f_equal. lia.
  - pose proof (ready_length c). destruct Hc as (_ & _ & _ & _ & Hle & _). pose proof (span_bound (c_w c) (c_e c)). rewrite /CONS_SIZE in Hle. cbn [lk_data]. lia.
  - done.
Qed.

Definition cons_call_ok (k : ConsCall) : Prop :=
  match k with
  | ConsInput _ => True
  | ConsRead len dst => Z.of_nat (length dst) ≤ len
  end.
Lemma cons_turn_wp k c :
  cons_call_ok k → cons_ok c →
  wp (cons_turn k) (λ t l, cons_ok (lk_data l) ∧ editor_turn k (editor_of c) = (t, editor_of (lk_data l), lk_notified l)) {| lk_data := c; lk_notified := [] |}.
Proof.
  intros Hk Hc. destruct k as [b|len dst]; cbn [cons_turn editor_turn].
  - apply wp_bind. eapply wp_mono; [exact (cons_handle_wp b c Hc)|]. intros [] l [Hok ->]. by apply wp_ret.
  - eapply wp_mono; [exact (cons_read_wp len dst c Hc Hk)|]. intros t l (-> & Hok & Hno & Hline & Hecho). split; [done|]. rewrite Hno.
    do 2 f_equal. symmetry. by apply editor_eta.
Qed.

(** Readers wait for a line. *)
Lemma editor_read_wait len n dst ready :
  Z.of_nat (length dst) + Z.of_nat n ≤ len →
  (ready = [] → (editor_read len n dst ready).2 = []) ∧
  match (editor_read len n dst ready).1 with
  | Return _ => True
  | Wait c _ k' => (editor_read len n dst ready).2 = [] ∧ cons_call_ok k'
  end.
Proof.
  revert dst ready. induction n as [|n IH]; intros dst [|b ready] Hn; simpl; [done..| |].
  - split; [done|]. split; [done|lia].
  - split; [done|]. case_bool_decide; [done|]. case_bool_decide; [done|]. apply IH. rewrite length_app /=. lia.
Qed.
Lemma editor_turn_blocked k s :
  cons_call_ok k →
  (e_ready s = [] → BufferWritten ∈ (editor_turn k s).2 ∨ e_ready (editor_turn k s).1.2 = []) ∧
  match (editor_turn k s).1.1 with
  | Return _ => True
  | Wait c _ k' => e_ready (editor_turn k s).1.2 = [] ∧ cons_call_ok k'
  end.
Proof.
  intros Hk. destruct k as [b|len dst]; cbn [editor_turn].
  - destruct (editor_input b s) as [s' ns] eqn:E. simpl. split; [|done]. intros Hs. revert E. rewrite /editor_input /editor_store.
    repeat case_match; intros [= <- <-]; simpl; auto; left; by apply list_elem_of_singleton.
  - pose proof (editor_read_wait len (Z.to_nat (len - Z.of_nat (length dst))) dst (e_ready s)) as H. simpl in Hk.
    destruct (editor_read len _ dst (e_ready s)) as [t ready]. simpl in *. destruct H as [H1 H2]; [lia|]. auto.
Qed.

Lemma cons_turn_laws k c :
  cons_call_ok k → cons_ok c →
  wp (cons_turn k) (λ o l,
    cons_ok (lk_data l) ∧
    (∀ x : ConsCond, e_ready (editor_of c) = [] → x ∈ lk_notified l ∨ e_ready (editor_of (lk_data l)) = []) ∧
    match o with
    | Return _ => True
    | Wait _ _ k' => e_ready (editor_of (lk_data l)) = [] ∧ cons_call_ok k'
    end) {| lk_data := c; lk_notified := [] |}.
Proof.
  intros Hk Hc. eapply wp_mono; [exact (cons_turn_wp k c Hk Hc)|]. intros t l [Hok Hed].
  pose proof (editor_turn_blocked k (editor_of c) Hk) as H. rewrite Hed /= in H. destruct H as [H1 H2].
  split; [done|]. split; [|done]. by intros [].
Qed.
#[export] Instance cons_monitor : Monitor cons_turn := {|
  call_ok := cons_call_ok;
  m_inv := cons_ok;
  blocked _ c := e_ready (editor_of c) = [];
  turn_wp := cons_turn_laws;
|}.

Lemma cons_new_ok : cons_ok cons_new.
Proof. split; [done|]. do 4 (split; [done|]). apply not_elem_of_nil. Qed.

(** No reader sleeps while a line is ready. *)
Lemma console_sleepers s i t c killed k n :
  reachable cons_turn cons_call_ok cons_new s → (∀ c, m_total s c < 2 ^ 64) →
  m_threads s !! i = Some t → t_pc t = Asleep c killed k n false → e_ready (editor_of (m_data s)) = [].
Proof.
  intros Hr Hb Hi Hpc. pose proof (asleep_blocked cons_turn cons_new s i t c killed k n) as H.
  apply (H cons_new_ok Hr Hb Hi Hpc).
Qed.

(** C23: The console is a line editor: from the new console, whatever characters arrive and whoever reads, in whatever order, every
    turn of the interrupt handler and of [read] ends without a panic and is the turn of the editor: erasing takes back
    characters of the line being typed only, a line becomes ready as a whole, a read ends with a line or before an end of
    file, readers wait exactly when nothing is ready, and they are notified when a line is. *)
Theorem console_refines_editor s k :
  reachable cons_turn cons_call_ok cons_new s → cons_call_ok k →
  ∃ t c' ns, cons_turn k {| lk_data := m_data s; lk_notified := [] |} = Ret t {| lk_data := c'; lk_notified := ns |} ∧
    editor_turn k (editor_of (m_data s)) = (t, editor_of c', ns).
Proof.
  intros Hr Hk. pose proof (monitor_inv cons_turn cons_new s) as H. destruct (H cons_new_ok Hr) as [Hc _].
  destruct (wp_run _ _ _ (cons_turn_wp k (m_data s) Hk Hc)) as (t & [c' ns] & E & _ & Hed). eauto 10.
Qed.
Lemma console_refines_editor_witness :
  ∃ t c' ns, cons_turn (ConsInput NEWLINE) {| lk_data := cons_new; lk_notified := [] |} = Ret t {| lk_data := c'; lk_notified := ns |} ∧
    editor_turn (ConsInput NEWLINE) (editor_of cons_new) = (t, editor_of c', ns).
Proof. exact (console_refines_editor (initial cons_new) (ConsInput NEWLINE) (reachable_initial cons_turn cons_call_ok cons_new) I). Defined.
