(* ===== verification/Uart.v ===== *)
(** * The UART transmit buffer and writes to the console

    Model of the output side of [crates/kernel/ov6_kernel/src/console/uart.rs]: the ring
    buffer of 32 bytes between [putc] and the transmit register.  The device is what the driver reads from the line status
    register, an arbitrary sequence of answers, and the bytes written to the transmit register.

    The second part models [write] of [crates/kernel/ov6_kernel/src/console/mod.rs]: the sleep lock that one writer has at a time, and
    the loop that puts its bytes into the transmit buffer and stops when the process is killed. The bytes are those that
    [copy_x2k_bytes] delivers, one in each turn of the loop. *)

From stdpp Require Import base list ssreflect.
From S2P Require Import Prelude KError.
From S2P Require Import Ring Monitor SleepLock.

Definition TX_SIZE : Z := 32.

Record TxBuffer : Type := {
  tx_buf : list byte;
  tx_w : Z;
  tx_r : Z;
}.
Definition tx_new : TxBuffer := {| tx_buf := replicate (Z.to_nat TX_SIZE) Byte.x00; tx_w := 0; tx_r := 0 |}.
(** The buffer and the device: the answers of [LSR & LSR_TX_IDLE] to come, and what [THR] was given. *)
Record UartState : Type := {
  u_tx : TxBuffer;
  u_lsr : list bool;
  u_thr : list byte;
}.

(** [TxBuffer::is_full], [is_empty], [put] and [pop]. *)
Definition is_full (b : TxBuffer) : bool := tx_w b =? wrap 64 (tx_r b + TX_SIZE).
Definition is_empty (b : TxBuffer) : bool := tx_w b =? tx_r b.
Definition put_tx (c : byte) : M UartState unit :=
  b ← gets u_tx;
  assert_ (tx_w b <? wrap 64 (tx_r b + TX_SIZE));;
  modify (λ u, {| u_tx := {| tx_buf := <[Z.to_nat (tx_w b mod TX_SIZE) := c]> (tx_buf b); tx_w := wrap 64 (tx_w b + 1); tx_r := tx_r b |};
                  u_lsr := u_lsr u; u_thr := u_thr u |}).
Definition pop_tx : M UartState byte :=
  b ← gets u_tx;
  assert_ (tx_r b <? tx_w b);;
  c ← unwrap (tx_buf b !! Z.to_nat (tx_r b mod TX_SIZE));
  modify (λ u, {| u_tx := {| tx_buf := tx_buf b; tx_w := tx_w b; tx_r := wrap 64 (tx_r b + 1) |}; u_lsr := u_lsr u; u_thr := u_thr u |});;
  mret c.
(** [read_reg(LSR) & LSR_TX_IDLE != 0]. *)
Definition tx_idle : M UartState bool :=
  u ← get;
  put {| u_tx := u_tx u; u_lsr := tail (u_lsr u); u_thr := u_thr u |};;
  mret (default false (head (u_lsr u))).
Definition write_thr (c : byte) : M UartState unit :=
  modify (λ u, {| u_tx := u_tx u; u_lsr := u_lsr u; u_thr := u_thr u ++ [c] |}).

(** The only condition variable, [TX_BUFFER_SPACE_AVAILABLE]. *)
Inductive UartCond : Type := SpaceAvailable.
Notation UartM := (M (Locked UartState UartCond)).

(** [uart::start]; at most the whole buffer is sent. *)
Definition start_body (u : unit) : UartM (unit + unit) :=
  b ← on_data (gets u_tx);
  if is_empty b then mret (inr tt)
  else
    idle ← on_data tx_idle;
    if negb idle then mret (inr tt)
    else
      c ← on_data pop_tx;
      notify SpaceAvailable;;
      on_data (write_thr c);;
      mret (inl tt).
Definition start : UartM unit := while_ 33 start_body tt.

Inductive UartCall : Type := UartPutc (c : byte) | UartInterrupt.
Notation UartTurn := (Turn UartCond UartCall (result KernelError unit)).
(** [uart::putc] and the output part of [uart::handle_interrupt]. *)
Definition uart_turn (k : UartCall) : UartM UartTurn :=
  match k with
  | UartPutc c =>
      b ← on_data (gets u_tx);
      if is_full b then mret (Wait SpaceAvailable (Some (Err CallerProcessAlreadyKilled)) (UartPutc c))
      else on_data (put_tx c);; start;; mret (Return (Ok tt))
  | UartInterrupt => start;; mret (Return (Ok tt))
  end.

(** ** The bytes on their way *)

(** The buffer, its size and its counters; fewer than 2^64 bytes go through. *)
Definition tx_queue (b : TxBuffer) : list byte := ring TX_SIZE (tx_buf b) (tx_r b) (tx_w b).
Definition tx_ok (b : TxBuffer) : Prop :=
  length (tx_buf b) = Z.to_nat TX_SIZE ∧ 0 ≤ tx_r b ∧ tx_r b ≤ tx_w b ≤ tx_r b + TX_SIZE ∧ tx_w b + TX_SIZE < 2 ^ 64.

Lemma tx_size_ok : 0 < TX_SIZE < 2 ^ 64.
Proof. done. Qed.
Lemma tx_size_div : 2 ^ 64 mod TX_SIZE = 0.
Proof. done. Qed.
Lemma tx_span b : tx_ok b → span (tx_r b) (tx_w b) = tx_w b - tx_r b.
Proof. intros (_ & H1 & H2 & H3). apply (span_of _ _ _ 0); rewrite /TX_SIZE in H2, H3; lia. Qed.
Lemma tx_empty b : tx_ok b → is_empty b = bool_decide (tx_queue b = []).
Proof.
  intros Hb. rewrite /is_empty Z.eqb_sym span_zero; [|destruct Hb as (_ & H1 & H2 & H3); rewrite /TX_SIZE in H2, H3; lia..].
  apply bool_decide_ext, ring_nil.
Qed.

Lemma put_tx_wp c u :
  tx_ok (u_tx u) → is_full (u_tx u) = false → tx_w (u_tx u) + TX_SIZE + 1 < 2 ^ 64 →
  wp (put_tx c) (λ _ u', tx_ok (u_tx u') ∧ tx_queue (u_tx u') = tx_queue (u_tx u) ++ [c] ∧ u_thr u' = u_thr u ∧
    tx_w (u_tx u') = tx_w (u_tx u) + 1) u.
Proof.
  intros Hb Hf Hw. pose proof (tx_span _ Hb) as Hs. pose proof Hb as (Hl & H1 & H2 & H3). rewrite /is_full in Hf. rewrite /TX_SIZE in Hf, H2, H3, Hw.
  rewrite wrap_small in Hf; [|lia]. apply Z.eqb_neq in Hf.
  rw /put_tx. apply wp_bind, wp_gets, wp_bind, wp_assert; [rewrite wrap_small /TX_SIZE; [|lia]; apply Z.ltb_lt; lia|].
  apply wp_modify. cbn [u_tx u_thr]. assert (wrap 64 (tx_w (u_tx u) + 1) = tx_w (u_tx u) + 1) as Hw1 by (apply wrap_small; lia).
  split; [|split; [|split; [done|exact Hw1]]].
  - split; [by rewrite length_insert|]. split; [done|]. cbn [tx_r tx_w]. rewrite /TX_SIZE Hw1. lia.
  - apply (ring_push TX_SIZE tx_size_ok tx_size_div); [done|]. rewrite Hs /TX_SIZE. lia.
Qed.
Lemma pop_tx_wp u :
  tx_ok (u_tx u) → tx_queue (u_tx u) ≠ [] →
  wp pop_tx (λ c u', tx_ok (u_tx u') ∧ tx_queue (u_tx u) = c :: tx_queue (u_tx u') ∧ u_thr u' = u_thr u ∧ tx_w (u_tx u') = tx_w (u_tx u)) u.
Proof.
  intros Hb Hne. pose proof (tx_span _ Hb) as Hs. pose proof Hb as (Hl & H1 & H2 & H3). rewrite /TX_SIZE in H2, H3.
  assert (0 < span (tx_r (u_tx u)) (tx_w (u_tx u))) as Hpos.
  { destruct (Z.eq_dec (span (tx_r (u_tx u)) (tx_w (u_tx u))) 0) as [E|]; [|lia]. by destruct Hne; apply ring_nil. }
  destruct (ring_pop TX_SIZE tx_size_ok tx_size_div (tx_buf (u_tx u)) (tx_r (u_tx u)) (tx_w (u_tx u)) Hl Hpos) as [Hc Hq].
  rw /pop_tx. apply wp_bind, wp_gets, wp_bind, wp_assert; [apply Z.ltb_lt; lia|]. apply wp_bind, (wp_unwrap _ _ _ _ Hc), wp_bind, wp_modify, wp_ret.
  cbn [u_tx u_thr]. split; [|done]. split; [done|]. cbn [tx_r tx_w]. rewrite wrap_small /TX_SIZE; lia.
Qed.

Lemma on_data_wp {D C A} (m : M D A) (Q : A → Locked D C → Prop) (l : Locked D C) :
  wp m (λ a d, Q a {| lk_data := d; lk_notified := lk_notified l |}) (lk_data l) → wp (on_data m) Q l.
Proof. rw /wp /on_data /zoom. by destruct (m (lk_data l)). Qed.

(** [start] sends bytes from the front of the buffer, and says so; it stops when none is left or the device is busy. *)
Definition sent (u : UartState) (l : Locked UartState UartCond) : Prop :=
  tx_ok (u_tx (lk_data l)) ∧ u_thr (lk_data l) ++ tx_queue (u_tx (lk_data l)) = u_thr u ++ tx_queue (u_tx u) ∧
  tx_w (u_tx (lk_data l)) = tx_w (u_tx u) ∧
  (length (tx_queue (u_tx (lk_data l))) < length (tx_queue (u_tx u)) → SpaceAvailable ∈ lk_notified l)%nat.
Lemma start_wp u ns :
  tx_ok (u_tx u) → wp start (λ _ l, sent u l) {| lk_data := u; lk_notified := ns |}.
Proof.
  intros Hu. apply (while_wp _ _ (λ _ l, sent u l) (λ _ l, Z.of_nat (length (tx_queue (u_tx (lk_data l)))))).
  - intros [] l (Hok & Hq & Hw & Hno). split; [lia|]. rw /start_body. apply wp_bind, on_data_wp, wp_gets. rewrite tx_empty //.
    case_bool_decide as He; [by apply wp_ret|]. apply wp_bind, on_data_wp. apply wp_bind, wp_get, wp_bind, wp_put, wp_ret. cbn [lk_data lk_notified].
    destruct (default false (head (u_lsr (lk_data l)))); cbn [negb]; [|by apply wp_ret]. apply wp_bind, on_data_wp. cbn [lk_data].
    eapply wp_mono; [refine (pop_tx_wp {| u_tx := u_tx (lk_data l); u_lsr := _; u_thr := u_thr (lk_data l) |} Hok He)|].
    cbn [u_tx u_thr]. intros c u' (Hok' & Hq' & Hthr & Hw'). apply wp_bind, turn_notify_wp, wp_bind, on_data_wp, wp_modify, wp_ret. cbn [lk_data lk_notified u_tx u_thr].
    split; [|rewrite Hq' /=; lia]. split; [done|]. cbn [lk_data lk_notified u_tx u_thr]. split; [by rewrite Hthr -app_assoc -Hq Hq'|].
    split; [by rewrite Hw'|]. intros _. apply elem_of_app. right. by apply list_elem_of_singleton.
  - cbn [lk_data]. rewrite ring_length tx_span //. destruct Hu as (_ & _ & H2 & _). rewrite /TX_SIZE in H2. lia.
  - split; [done|]. cbn [lk_data]. split; [done|]. split; [done|lia].
Qed.

(** The transmit register gets the bytes in the order in which they were put: a turn of [putc] waits with the buffer full, or adds its byte
    behind what was sent and what is in the buffer; an interrupt only moves bytes; and the writers are notified of room. *)
Theorem uart_turn_wp k u :
  tx_ok (u_tx u) → tx_w (u_tx u) + TX_SIZE + 1 < 2 ^ 64 →
  wp (uart_turn k) (λ t l,
    tx_ok (u_tx (lk_data l)) ∧
    (Z.of_nat (length (tx_queue (u_tx u))) = TX_SIZE →
     (length (tx_queue (u_tx (lk_data l))) < length (tx_queue (u_tx u)))%nat → SpaceAvailable ∈ lk_notified l) ∧
    match k, t with
    | UartPutc c, Return (Ok _) => u_thr (lk_data l) ++ tx_queue (u_tx (lk_data l)) = u_thr u ++ tx_queue (u_tx u) ++ [c]
    | UartPutc c, Wait _ _ k' => k' = UartPutc c ∧ lk_data l = u ∧ Z.of_nat (length (tx_queue (u_tx u))) = TX_SIZE
    | UartInterrupt, Return (Ok _) => u_thr (lk_data l) ++ tx_queue (u_tx (lk_data l)) = u_thr u ++ tx_queue (u_tx u)
    | _, _ => False
    end) {| lk_data := u; lk_notified := [] |}.
Proof.
  intros Hu Hw. pose proof Hu as (_ & H1 & H2 & H3). rewrite /TX_SIZE in H2, H3.
  assert (Z.of_nat (length (tx_queue (u_tx u))) = tx_w (u_tx u) - tx_r (u_tx u)) as Hlen by (rewrite ring_length tx_span //; lia).
  destruct k as [c|]; cbn [uart_turn].
  - apply wp_bind, on_data_wp, wp_gets. cbn [lk_data]. destruct (is_full (u_tx u)) eqn:Hf.
    + apply wp_ret. split; [done|]. cbn [lk_data]. split; [lia|]. split; [done|]. split; [done|].
      rewrite /is_full /TX_SIZE wrap_small in Hf; [|lia]. apply Z.eqb_eq in Hf. rewrite /TX_SIZE. lia.
    + apply wp_bind, on_data_wp. cbn [lk_data]. eapply wp_mono; [exact (put_tx_wp c u Hu Hf Hw)|]. intros [] u1 (Hok1 & Hq1 & Ht1 & _). apply wp_bind.
      eapply wp_mono; [exact (start_wp u1 [] Hok1)|]. intros [] l (Hok & Hq & _ & Hno). apply wp_ret. split; [done|].
      split; [|by rewrite Hq Hq1 Ht1]. intros _ Hlt. apply Hno. rewrite Hq1 length_app /=. lia.
  - apply wp_bind. eapply wp_mono; [exact (start_wp u [] Hu)|]. intros [] l (Hok & Hq & _ & Hno). apply wp_ret. by split; [|split; [intros _|]].
Qed.

(** ** Writing to the console *)

(** [CONSOLE_WRITE_LOCK] and the UART. *)
Record ConsoleOut : Type := { co_lock : SleepLockState; co_uart : UartState }.
Definition on_lock {A} (m : SleepM A) : M ConsoleOut A := λ s,
  match m {| lk_data := co_lock s; lk_notified := [] |} with
  | Ret a l => Ret a {| co_lock := lk_data l; co_uart := co_uart s |}
  | Panic => Panic
  end.
Definition on_uart {A} (m : UartM A) : M ConsoleOut A := λ s,
  match m {| lk_data := co_uart s; lk_notified := [] |} with
  | Ret a l => Ret a {| co_lock := co_lock s; co_uart := lk_data l |}
  | Panic => Panic
  end.

(** Where a writer is: before it has the lock, about to put the byte [i], or about to drop the guard and return. *)
Inductive WriteCall : Type :=
  | WriteLock (pid : Z) (src : list byte)
  | WritePut (src : list byte) (i : nat)
  | WriteDrop (src : list byte) (r : result KernelError Z).
(** How a turn ends; a writer that waits goes on with [k], or with [killed] when its process has been killed. *)
Inductive WriteTurn : Type :=
  | WriteReturn (r : result KernelError Z)
  | WriteNext (k : WriteCall)
  | WriteWait (killed : WriteCall + result KernelError Z) (k : WriteCall).
Definition putc_failed (i : nat) (e : KernelError) : result KernelError Z :=
  if 0 <? Z.of_nat i then Ok (Z.of_nat i) else Err e.
Definition write_turn (k : WriteCall) : M ConsoleOut WriteTurn :=
  match k with
  | WriteLock pid src =>
      t ← on_lock (sleep_turn (WaitLock pid));
      match t with
      | Return Acquired => mret (WriteNext (WritePut src 0))
      | Return _ => mret (WriteReturn (Err CallerProcessAlreadyKilled))
      | Wait _ _ _ => mret (WriteWait (inr (Err CallerProcessAlreadyKilled)) k)
      end
  | WritePut src i =>
      match src !! i with
      | None => mret (WriteNext (WriteDrop src (Ok (Z.of_nat (length src)))))
      | Some c =>
          t ← on_uart (uart_turn (UartPutc c));
          match t with
          | Return (Ok _) => mret (WriteNext (WritePut src (S i)))
          | Return (Err e) => mret (WriteNext (WriteDrop src (putc_failed i e)))
          | Wait _ _ _ => mret (WriteWait (inl (WriteDrop src (putc_failed i CallerProcessAlreadyKilled))) k)
          end
      end
  | WriteDrop _ r =>
      on_lock (sleep_turn DropGuard);;
      mret (WriteReturn r)
  end.

(** *** Many writers *)

(** The writers, and the writes that have returned after they had the lock, with their results. *)
Record WriteSys : Type := {
  ws_out : ConsoleOut;
  ws_threads : list (option WriteCall);
  ws_log : list (list byte * result KernelError Z);
}.
Definition write_new (u : UartState) : WriteSys := {| ws_out := {| co_lock := sleep_lock_new; co_uart := u |}; ws_threads := []; ws_log := [] |}.
Definition log_of (k : WriteCall) : list (list byte * result KernelError Z) :=
  match k with WriteDrop src r => [(src, r)] | _ => [] end.
Definition with_thread (t : nat) (k : option WriteCall) (out : ConsoleOut) (log : list (list byte * result KernelError Z)) (s : WriteSys) : WriteSys :=
  {| ws_out := out; ws_threads := <[t := k]> (ws_threads s); ws_log := ws_log s ++ log |}.
(** The counters of the transmit buffer are far from their end. *)
Definition has_room (out : ConsoleOut) : Prop := tx_w (u_tx (co_uart out)) + TX_SIZE + 1 < 2 ^ 64.

Inductive write_step (s : WriteSys) : WriteSys → Prop :=
  | ws_spawn : write_step s {| ws_out := ws_out s; ws_threads := ws_threads s ++ [None]; ws_log := ws_log s |}
  | ws_call t pid src : ws_threads s !! t = Some None → write_step s (with_thread t (Some (WriteLock pid src)) (ws_out s) [] s)
  | ws_next t k k' out : ws_threads s !! t = Some (Some k) → has_room (ws_out s) →
      write_turn k (ws_out s) = Ret (WriteNext k') out → write_step s (with_thread t (Some k') out [] s)
  | ws_return t k r out : ws_threads s !! t = Some (Some k) → has_room (ws_out s) →
      write_turn k (ws_out s) = Ret (WriteReturn r) out → write_step s (with_thread t None out (log_of k) s)
  | ws_wait t k killed k' out : ws_threads s !! t = Some (Some k) → has_room (ws_out s) →
      write_turn k (ws_out s) = Ret (WriteWait killed k') out → write_step s (with_thread t (Some k') out [] s)
  | ws_killed t k killed k' out : ws_threads s !! t = Some (Some k) → has_room (ws_out s) →
      write_turn k (ws_out s) = Ret (WriteWait killed k') out →
      write_step s (with_thread t (match killed with inl k'' => Some k'' | inr _ => None end) out [] s)
  | ws_interrupt l : has_room (ws_out s) → uart_turn UartInterrupt {| lk_data := co_uart (ws_out s); lk_notified := [] |} = Ret (Return (Ok tt)) l →
      write_step s {| ws_out := {| co_lock := co_lock (ws_out s); co_uart := lk_data l |}; ws_threads := ws_threads s; ws_log := ws_log s |}.
Inductive write_reachable (u : UartState) : WriteSys → Prop :=
  | write_start : write_reachable u (write_new u)
  | write_next s s' : write_reachable u s → write_step s s' → write_reachable u s'.

(** *** The output *)

(** What has been sent or is in the buffer; what a result says has been written. *)
Definition stream (out : ConsoleOut) : list byte := u_thr (co_uart out) ++ tx_queue (u_tx (co_uart out)).
Definition accepted (r : result KernelError Z) : nat := match r with Ok n => Z.to_nat n | Err _ => 0 end.
Definition written (log : list (list byte * result KernelError Z)) : list byte := mjoin ((λ p, take (accepted p.2) p.1) <$> log).
(** What the writer that has the lock has put so far. *)
Definition put_so_far (k : WriteCall) : option (list byte) :=
  match k with
  | WriteLock _ _ => None
  | WritePut src i => Some (take i src)
  | WriteDrop src r => Some (take (accepted r) src)
  end.
Definition call_fits (k : WriteCall) : Prop := match k with WritePut src i => (i ≤ length src)%nat | _ => True end.

Lemma written_app l1 l2 : written (l1 ++ l2) = written l1 ++ written l2.
Proof. by rw /written fmap_app join_app. Qed.
Lemma putc_failed_accepted i e : accepted (putc_failed i e) = i.
Proof. rw /putc_failed. case: Z.ltb_spec => ?; simpl; lia. Qed.

(** One turn: nothing but the state of the lock and the stream matters. *)
Definition turn_spec (k : WriteCall) (out : ConsoleOut) (o : WriteTurn) (out' : ConsoleOut) : Prop :=
  let same := sl_locked (co_lock out') = sl_locked (co_lock out) ∧ stream out' = stream out in
  match k with
  | WriteLock pid src =>
      stream out' = stream out ∧
      (o = WriteNext (WritePut src 0) ∧ sl_locked (co_lock out) = false ∧ sl_locked (co_lock out') = true ∨
       o = WriteWait (inr (Err CallerProcessAlreadyKilled)) k ∧ same)
  | WritePut src i =>
      sl_locked (co_lock out') = sl_locked (co_lock out) ∧
      (o = WriteNext (WriteDrop src (Ok (Z.of_nat (length src)))) ∧ (length src ≤ i)%nat ∧ stream out' = stream out ∨
       (∃ c, o = WriteNext (WritePut src (S i)) ∧ src !! i = Some c ∧ stream out' = stream out ++ [c]) ∨
       o = WriteWait (inl (WriteDrop src (putc_failed i CallerProcessAlreadyKilled))) k ∧ stream out' = stream out)
  | WriteDrop src r => o = WriteReturn r ∧ sl_locked (co_lock out') = false ∧ stream out' = stream out
  end.
Lemma write_turn_wp k out :
  sleep_inv (co_lock out) → tx_ok (u_tx (co_uart out)) → has_room out →
  wp (write_turn k) (λ o out', sleep_inv (co_lock out') ∧ tx_ok (u_tx (co_uart out')) ∧ turn_spec k out o out') out.
Proof.
  intros Hl Hu Hr.
  assert (∀ {A} (m : SleepM A) Q, wp m (λ a l, Q a {| co_lock := lk_data l; co_uart := co_uart out |}) {| lk_data := co_lock out; lk_notified := [] |} → wp (on_lock m) Q out) as Hlock.
  { intros A m Q. rw /wp /on_lock. by destruct (m _). }
  assert (∀ {A} (m : UartM A) Q, wp m (λ a l, Q a {| co_lock := co_lock out; co_uart := lk_data l |}) {| lk_data := co_uart out; lk_notified := [] |} → wp (on_uart m) Q out) as Huart.
  { intros A m Q. rw /wp /on_uart. by destruct (m _). }
  destruct k as [pid src|src i|src r]; simpl write_turn.
  - apply wp_bind, Hlock. simpl sleep_turn. apply wp_bind, wp_gets. cbn [lk_data]. destruct (sl_locked (co_lock out)) eqn:El.
    + apply wp_ret, wp_ret. do 3 (split; [done|]). right. simpl. by rw El.
    + apply wp_bind, on_data_modify_wp, wp_ret, wp_ret. split; [by split; [eauto|]|]. do 2 (split; [done|]). by left.
  - destruct (src !! i) as [c|] eqn:Ec; [|apply wp_ret; do 3 (split; [done|]); left; by apply lookup_ge_None in Ec].
    apply wp_bind, Huart. eapply wp_mono; [exact (uart_turn_wp (UartPutc c) _ Hu Hr)|]. intros [[[]|e]|x killed k'] l (Hu' & _ & Ho); [|done|].
    + apply wp_ret. do 3 (split; [done|]). right; left. exists c. split; [done|]. split; [done|]. rw /stream /= Ho. by rewrite app_assoc.
    + destruct Ho as (_ & E & _). apply wp_ret. do 3 (split; [done|]). right; right. split; [done|]. rw /stream /= E. done.
  - apply wp_bind, Hlock. simpl sleep_turn. apply wp_bind, on_data_modify_wp, wp_bind, turn_notify_wp, wp_ret, wp_ret. split; [by split; [|intros [? [=]]]|]. by do 2 (split; [done|]).
Qed.

(** Either nobody has the lock and everything in the output was written by writes that have returned, or one writer has it and the
    output ends with what it has put so far. *)
Definition write_inv (s : WriteSys) : Prop :=
  sleep_inv (co_lock (ws_out s)) ∧ tx_ok (u_tx (co_uart (ws_out s))) ∧
  (∀ t k, ws_threads s !! t = Some (Some k) → call_fits k) ∧
  ((sl_locked (co_lock (ws_out s)) = false ∧ (∀ t k, ws_threads s !! t = Some (Some k) → put_so_far k = None) ∧ stream (ws_out s) = written (ws_log s)) ∨
   (sl_locked (co_lock (ws_out s)) = true ∧ ∃ t k b, ws_threads s !! t = Some (Some k) ∧ put_so_far k = Some b ∧
      (∀ t' k', ws_threads s !! t' = Some (Some k') → is_Some (put_so_far k') → t' = t) ∧ stream (ws_out s) = written (ws_log s) ++ b)).
Definition outside (k : option WriteCall) : Prop := match k with Some k => put_so_far k = None ∧ call_fits k | None => True end.

Section moves.
Context (s : WriteSys) (Hinv : write_inv s) (t : nat) (out : ConsoleOut) (Hl : sleep_inv (co_lock out)) (Hu : tx_ok (u_tx (co_uart out))).

Lemma inv_holder k b : ws_threads s !! t = Some (Some k) → put_so_far k = Some b →
  sl_locked (co_lock (ws_out s)) = true ∧ (∀ t' k', ws_threads s !! t' = Some (Some k') → is_Some (put_so_far k') → t' = t) ∧
  stream (ws_out s) = written (ws_log s) ++ b.
Proof.
  intros Ht Hb. destruct Hinv as (_ & _ & _ & [(_ & Hn & _)|(El & t0 & k0 & b0 & H0 & Hb0 & Hq & Es)]); [by rw (Hn _ _ Ht) in Hb|].
  assert (t = t0) as -> by (apply (Hq t k Ht); by rw Hb). by simplify_eq.
Qed.
Lemma fits_insert k : (match k with Some k => call_fits k | None => True end) →
  ∀ t' k', <[t := k]> (ws_threads s) !! t' = Some (Some k') → call_fits k'.
Proof. intros Hk t' k' [(_ & -> & _)|[_ H]]%list_lookup_insert_Some; [done|]. destruct Hinv as (_ & _ & Hf & _). by apply (Hf t'). Qed.
(** A writer that has not the lock moves and has it still not. *)
Lemma inv_outside k0 k : ws_threads s !! t = Some k0 → outside k0 → outside k →
  sl_locked (co_lock out) = sl_locked (co_lock (ws_out s)) → stream out = stream (ws_out s) → write_inv (with_thread t k out [] s).
Proof.
  intros Ht H0 Hk El Es. split; [done|]. split; [done|]. split; [apply fits_insert; by destruct k as [k|]; [destruct Hk|]|]. simpl. rw El Es app_nil_r.
  destruct Hinv as (_ & _ & _ & [(E & Hn & Hs)|(E & t1 & k1 & b1 & H1 & Hb1 & Hq & Hs)]); [left|right]; (split; [done|]).
  - split; [|done]. intros t' k' [(_ & -> & _)|[_ H]]%list_lookup_insert_Some; [by destruct Hk|by apply (Hn t')].
  - assert (t ≠ t1) as Hne by (intros ->; simplify_eq; destruct H0; congruence). exists t1, k1, b1. split; [by rewrite list_lookup_insert_ne|]. split; [done|]. split; [|done].
    intros t' k' [(_ & -> & _)|[_ H]]%list_lookup_insert_Some; [destruct Hk as [-> _]; by intros [? [=]]|by apply Hq].
Qed.
Lemma inv_acquire k k' : ws_threads s !! t = Some (Some k) → put_so_far k' = Some [] → call_fits k' →
  sl_locked (co_lock (ws_out s)) = false → sl_locked (co_lock out) = true → stream out = stream (ws_out s) → write_inv (with_thread t (Some k') out [] s).
Proof.
  intros Ht Hk Hf E0 El Es. split; [done|]. split; [done|]. split; [by apply fits_insert|]. right. split; [done|].
  destruct Hinv as (_ & _ & _ & [(_ & Hn & Hs)|(E & _)]); [|congruence]. exists t, k', []. simpl. rw !app_nil_r.
  split; [apply list_lookup_insert_eq, (lookup_lt_Some _ _ _ Ht)|]. split; [done|]. split; [|by rw Es].
  intros t' k1 [(-> & _)|[_ H]]%list_lookup_insert_Some; [done|]. rw (Hn _ _ H). by intros [? [=]].
Qed.
(** The writer that has the lock. *)
Lemma inv_inside k b k' b' : ws_threads s !! t = Some (Some k) → put_so_far k = Some b → put_so_far k' = Some b' → call_fits k' →
  sl_locked (co_lock out) = sl_locked (co_lock (ws_out s)) → stream out = written (ws_log s) ++ b' → write_inv (with_thread t (Some k') out [] s).
Proof.
  intros Ht Hb Hb' Hf El Es. destruct (inv_holder k b Ht Hb) as (E & Hq & _). split; [done|]. split; [done|]. split; [by apply fits_insert|]. right.
  split; [by rw El|]. exists t, k', b'. simpl. rw app_nil_r. split; [apply list_lookup_insert_eq, (lookup_lt_Some _ _ _ Ht)|]. split; [done|]. split; [|done].
  intros t' k1 [(-> & _)|[_ H]]%list_lookup_insert_Some; [done|by apply Hq].
Qed.
Lemma inv_release k b log : ws_threads s !! t = Some (Some k) → put_so_far k = Some b → sl_locked (co_lock out) = false →
  stream out = stream (ws_out s) → written log = b → write_inv (with_thread t None out log s).
Proof.
  intros Ht Hb El Es Hlog. destruct (inv_holder k b Ht Hb) as (E & Hq & Hs). split; [done|]. split; [done|]. split; [by apply fits_insert|]. left.
  split; [done|]. split; [|by rw /= written_app Es Hs Hlog].
  intros t' k1 [(_ & [=] & _)|[Hne H]]%list_lookup_insert_Some. destruct (put_so_far k1) eqn:E1; [|done]. destruct Hne. symmetry. apply (Hq t' k1 H). by rw E1.
Qed.
End moves.

(** What a thread does after a turn, whatever it decides. *)
Definition after_turn (o : WriteTurn) (k : option WriteCall) : Prop :=
  match o with
  | WriteNext k' => k = Some k'
  | WriteReturn _ => k = None
  | WriteWait killed k' => k = Some k' ∨ k = match killed with inl k'' => Some k'' | inr _ => None end
  end.
Lemma turn_inv s t k o out k' :
  write_inv s → ws_threads s !! t = Some (Some k) → has_room (ws_out s) → write_turn k (ws_out s) = Ret o out → after_turn o k' →
  write_inv (with_thread t k' out (match o with WriteReturn _ => log_of k | _ => [] end) s).
Proof.
  intros Hinv Ht Hr Hrun Hk. pose proof Hinv as (Hl & Hu & Hf & _). specialize (Hf _ _ Ht).
  destruct (wp_ret_inv _ _ _ _ _ (write_turn_wp k _ Hl Hu Hr) Hrun) as (Hl' & Hu' & Hspec).
  destruct k as [pid src|src i|src r]; simpl in Hspec.
  - destruct Hspec as (Es & [(-> & E0 & E1)|(-> & El & _)]); simpl in *; subst.
    + apply (inv_acquire s Hinv t out Hl' Hu' (WriteLock pid src)); first [done|simpl; lia].
    + apply (inv_outside s Hinv t out Hl' Hu' (Some (WriteLock pid src))); [done|done| |done|done]. by destruct Hk as [-> | ->].
  - destruct (inv_holder s Hinv t _ _ Ht eq_refl) as (_ & _ & Hs).
    destruct Hspec as (El & [(-> & Hi & Es)|[(c & -> & Hc & Es)|(-> & Es)]]); simpl in *; subst.
    + eapply (inv_inside s Hinv t out Hl' Hu' _ _ _ _ Ht eq_refl); [reflexivity|done..|]. rw Es Hs /= Nat2Z.id !take_ge //.
    + eapply (inv_inside s Hinv t out Hl' Hu' _ _ _ _ Ht eq_refl); [reflexivity| |done|]; [by apply lookup_lt_Some in Hc|]. rw Es Hs (take_S_r _ _ c) //. by rewrite app_assoc.
    + destruct Hk as [-> | ->]; (eapply (inv_inside s Hinv t out Hl' Hu' _ _ _ _ Ht eq_refl); [reflexivity|done..|]); rw Es Hs /= ?putc_failed_accepted //.
  - destruct Hspec as (-> & El & Es). simpl in *. subst. apply (inv_release s Hinv t out Hl' Hu' _ _ _ Ht eq_refl El Es). by rw /written /= app_nil_r.
Qed.
Lemma write_step_inv s s' : write_inv s → write_step s s' → write_inv s'.
Proof.
  intros Hinv Hstep. pose proof Hinv as (Hl & Hu & Hf & Hc).
  inversion Hstep as [|t pid src Ht|t k k' out Ht Hr Hrun|t k r out Ht Hr Hrun|t k kd k' out Ht Hr Hrun|t k kd k' out Ht Hr Hrun|l Hr Hrun]; subst; clear Hstep.
  - assert (∀ t k, (ws_threads s ++ [None]) !! t = Some (Some k) ↔ ws_threads s !! t = Some (Some k)) as Happ.
    { intros t k. rw lookup_app_Some list_lookup_singleton_Some. naive_solver. }
    split; [done|]. split; [done|]. split; [intros t k H%Happ; by apply (Hf t)|]. simpl. setoid_rewrite Happ. exact Hc.
  - by apply (inv_outside s Hinv t (ws_out s) Hl Hu None).
  - by apply (turn_inv s t k _ out (Some k') Hinv Ht Hr Hrun).
  - by apply (turn_inv s t k _ out None Hinv Ht Hr Hrun).
  - apply (turn_inv s t k _ out (Some k') Hinv Ht Hr Hrun). by left.
  - apply (turn_inv s t k _ out _ Hinv Ht Hr Hrun). by right.
  - destruct (wp_ret_inv _ _ _ _ _ (uart_turn_wp UartInterrupt _ Hu Hr) Hrun) as (Hu' & _ & Es).
    split; [done|]. split; [done|]. split; [done|]. assert (stream {| co_lock := co_lock (ws_out s); co_uart := lk_data l |} = stream (ws_out s)) as E by done.
    simpl in *. by rw E.
Qed.
Lemma write_reachable_inv u s : u_tx u = tx_new → u_thr u = [] → write_reachable u s → write_inv s.
Proof.
  intros Eu Et. induction 1 as [|s s' _ IH Hstep]; [|by apply (write_step_inv s)].
  split; [by split; [|intros [? [=]]]|]. split; [rw /= Eu; by vm_compute|]. split; [done|]. left. split; [done|]. split; [done|]. rw /stream /= Et Eu. by vm_compute.
Qed.

(** The output of the console is never interleaved: at any time it is the bytes of the writes that have returned, one write after the
    other, each as long as its result says, then the bytes of the one writer that has the lock; and no turn of a writer panics. *)
Theorem writes_are_not_interleaved u s :
  u_tx u = tx_new → u_thr u = [] → write_reachable u s →
  (∃ b, stream (ws_out s) = written (ws_log s) ++ b ∧
     (b = [] ∨ ∃ t k, ws_threads s !! t = Some (Some k) ∧ put_so_far k = Some b ∧
        ∀ t' k', ws_threads s !! t' = Some (Some k') → is_Some (put_so_far k') → t' = t)) ∧
  (∀ t k, ws_threads s !! t = Some (Some k) → has_room (ws_out s) → write_turn k (ws_out s) ≠ Panic).
Proof.
  intros Eu Et Hs. destruct (write_reachable_inv u s Eu Et Hs) as (Hl & Hu & _ & Hc). split.
  - destruct Hc as [(_ & _ & E)|(_ & t & k & b & H)]; [exists []; rw app_nil_r; auto|]. exists b. split; [apply H|]. right. exists t, k. tauto.
  - intros t k _ Hr Hp. pose proof (write_turn_wp k _ Hl Hu Hr) as H. by rw /wp Hp in H.
Qed.
