(* ===== verification/ShToken.v ===== *)
(** * Tokens of the shell

    Model of [crates/user/ov6_utilities/src/bin/sh/tokenizer.rs]: the tokenizer that splits a command line into words and
    punctuation.  Its state is the slice of bytes it has not read yet ([PeekableChars]); a word is the byte string that
    remains when quotes and escapes are removed. *)

From stdpp Require Import base list ssreflect.
From S2P Require Import Prelude.

(** ** Data *)

Definition SPACE : byte := Byte.x20.
Definition QUOTE : byte := Byte.x27.
Definition DQUOTE : byte := Byte.x22.
Definition BACKSLASH : byte := Byte.x5c.

(** [SYMBOLS], the bytes of ["<|>&;()"]. *)
Definition SYMBOLS : list byte := [Byte.x3c; Byte.x7c; Byte.x3e; Byte.x26; Byte.x3b; Byte.x28; Byte.x29].

(** [u8::is_ascii_whitespace]. *)
Definition is_ascii_whitespace (c : byte) : bool := bool_decide (c ∈ [Byte.x09; Byte.x0a; Byte.x0c; Byte.x0d; Byte.x20]).

Module Punct.
Inductive t : Type := Pipe | AndAnd | OrOr | LParen | RParen | Semicolon | And | Lt | Gt | GtGt.
#[export] Instance t_eq_dec : EqDecision t.
Proof. solve_decision. Defined.
(** [Punct::as_str]. *)
Definition as_str (p : t) : list byte :=
  match p with
  | Pipe => [Byte.x7c]
  | LParen => [Byte.x28]
  | RParen => [Byte.x29]
  | Semicolon => [Byte.x3b]
  | And => [Byte.x26]
  | AndAnd => [Byte.x26; Byte.x26]
  | OrOr => [Byte.x7c; Byte.x7c]
  | Lt => [Byte.x3c]
  | Gt => [Byte.x3e]
  | GtGt => [Byte.x3e; Byte.x3e]
  end.
End Punct.
#[export] Existing Instance Punct.t_eq_dec.

Inductive Token : Type := Str (s : list byte) | Pun (p : Punct.t).
#[export] Instance token_eq_dec : EqDecision Token.
Proof. solve_decision. Defined.

(** [Token::as_punct]. *)
Definition as_punct (t : Token) : option Punct.t :=
  match t with
  | Pun p => Some p
  | Str _ => None
  end.

Inductive TokenizeError : Type := IncompleteEscape | UnterminatedDoubleQuote | UnterminatedSingleQuote.

(** ** Characters *)

Definition Chars : Type := list byte.

Definition next_if (f : byte → bool) : M Chars (option byte) := λ cs,
  match cs with
  | c :: cs' => if f c then Ret (Some c) cs' else Ret None cs
  | [] => Ret None []
  end.
Definition next_if_eq (c : byte) : M Chars (option byte) := next_if (λ x, bool_decide (c = x)).

(** [while next_if(is_ascii_whitespace).is_some() {}]. *)
Fixpoint skip_whitespace (cs : Chars) : Chars :=
  match cs with
  | c :: cs' => if is_ascii_whitespace c then skip_whitespace cs' else cs
  | [] => []
  end.

(** ** Words *)

(** The variables of the loops of [next_str]. *)
Record Scan : Type := {
  in_double_quotes : bool;
  in_single_quotes : bool;
  escaped : bool;
  needs_allocation : bool;
}.
Definition scan_start : Scan :=
  {| in_double_quotes := false; in_single_quotes := false; escaped := false; needs_allocation := false |}.

(** The counting phase: the state at the end of the word and what follows it. *)
Fixpoint scan (st : Scan) (cs : Chars) : Scan * Chars :=
  match cs with
  | [] => (st, [])
  | c :: cs' =>
      let '{| in_double_quotes := dq; in_single_quotes := sq; escaped := esc |} := st in
      if esc then
        scan {| in_double_quotes := dq; in_single_quotes := sq; escaped := false; needs_allocation := true |} cs'
      else if negb sq && bool_decide (c = BACKSLASH) then
        scan {| in_double_quotes := dq; in_single_quotes := sq; escaped := true; needs_allocation := true |} cs'
      else if negb sq && bool_decide (c = DQUOTE) then
        scan {| in_double_quotes := negb dq; in_single_quotes := sq; escaped := false; needs_allocation := true |} cs'
      else if negb dq && bool_decide (c = QUOTE) then
        scan {| in_double_quotes := dq; in_single_quotes := negb sq; escaped := false; needs_allocation := true |} cs'
      else if dq || sq || (negb (is_ascii_whitespace c) && negb (bool_decide (c ∈ SYMBOLS))) then scan st cs'
      else (st, cs)
  end.

(** The construction of the string. *)
Fixpoint construct (dq sq esc : bool) (input : list byte) : list byte :=
  match input with
  | [] => []
  | ch :: input' =>
      if esc then ch :: construct dq sq false input'
      else if bool_decide (ch = BACKSLASH) && negb sq then construct dq sq true input'
      else if bool_decide (ch = DQUOTE) && negb sq then construct (negb dq) sq false input'
      else if bool_decide (ch = QUOTE) && negb dq then construct dq (negb sq) false input'
      else ch :: construct dq sq false input'
  end.

(** [Tokenizer::next_str]. *)
Definition next_str : M Chars (result TokenizeError (option (list byte))) :=
  start ← get;
  match start with
  | [] => mret (Ok None)
  | _ =>
      let '(st, rest) := scan scan_start start in
      put rest;;
      if escaped st then mret (Err IncompleteEscape)
      else if in_double_quotes st then mret (Err UnterminatedDoubleQuote)
      else if in_single_quotes st then mret (Err UnterminatedSingleQuote)
      else
        let input := take (length start - length rest) start in
        if needs_allocation st then mret (Ok (Some (construct (in_double_quotes st) (in_single_quotes st) false input)))
        else mret (Ok (Some input))
  end.

(** [Tokenizer::next_token]. *)
Definition next_token : M Chars (result TokenizeError (option Token)) :=
  let punct p : M Chars (result TokenizeError (option Token)) := mret (Ok (Some (Pun p))) in
  modify skip_whitespace;;
  c ← next_if_eq Byte.x7c;
  if c is Some _ then d ← next_if_eq Byte.x7c; (if d is Some _ then punct Punct.OrOr else punct Punct.Pipe) else
  c ← next_if_eq Byte.x28;
  if c is Some _ then punct Punct.LParen else
  c ← next_if_eq Byte.x29;
  if c is Some _ then punct Punct.RParen else
  c ← next_if_eq Byte.x3b;
  if c is Some _ then punct Punct.Semicolon else
  c ← next_if_eq Byte.x26;
  if c is Some _ then d ← next_if_eq Byte.x26; (if d is Some _ then punct Punct.AndAnd else punct Punct.And) else
  c ← next_if_eq Byte.x3c;
  if c is Some _ then punct Punct.Lt else
  c ← next_if_eq Byte.x3e;
  if c is Some _ then d ← next_if_eq Byte.x3e; (if d is Some _ then punct Punct.GtGt else punct Punct.Gt) else
  s ←? next_str; mret (Ok (Str <$> s)).

(** [Iterator::next], with [Result::transpose]. *)
Definition tokenizer_next : M Chars (option (result TokenizeError Token)) :=
  r ← next_token;
  mret (match r with
        | Ok (Some t) => Some (Ok t)
        | Ok None => None
        | Err e => Some (Err e)
        end).

(** ** The stream of tokens *)

(** What iterating the tokenizer yields; every token takes at least a byte, so the length of the line is enough fuel. *)
Fixpoint tokens_of (fuel : nat) (cs : Chars) : list (result TokenizeError Token) :=
  match fuel with
  | O => []
  | S fuel =>
      match tokenizer_next cs with
      | Ret (Some r) cs' => r :: tokens_of fuel cs'
      | _ => []
      end
  end.
Definition tokens (cs : Chars) : list (result TokenizeError Token) := tokens_of (S (length cs)) cs.

Lemma skip_whitespace_length cs : (length (skip_whitespace cs) ≤ length cs)%nat.
Proof. induction cs as [|c cs IH]; [done|]. simpl. case_match; simpl; lia. Qed.
Lemma skip_whitespace_head cs c r : skip_whitespace cs = c :: r → is_ascii_whitespace c = false.
Proof. induction cs as [|c' cs IH]; [done|]. simpl. case_match eqn:E; [done|]. by intros [= -> ->]. Qed.

(** A word ends only outside quotes, or with the line. *)
Lemma scan_end st cs st' rest :
  scan st cs = (st', rest) →
  (length rest ≤ length cs)%nat ∧
  (rest ≠ [] → escaped st' = false ∧ in_double_quotes st' = false ∧ in_single_quotes st' = false).
Proof.
  revert st. induction cs as [|c cs IH]; intros [dq sq esc al]; simpl.
  { intros [= <- <-]. split; [done|]. by intros. }
  assert (∀ st, scan st cs = (st', rest) → (length rest ≤ S (length cs))%nat ∧
    (rest ≠ [] → escaped st' = false ∧ in_double_quotes st' = false ∧ in_single_quotes st' = false)) as Hrec.
  { intros st H. destruct (IH st H). split; [lia|done]. }
  destruct esc; [apply Hrec|]. case_match; [apply Hrec|]. case_match; [apply Hrec|]. case_match; [apply Hrec|].
  case_match eqn:E; [apply Hrec|]. intros [= <- <-]. split; [done|]. intros _. by destruct dq, sq.
Qed.

Lemma next_str_wp cs c r :
  cs = c :: r → is_ascii_whitespace c = false → c ∉ SYMBOLS →
  wp next_str (λ res cs', match res with
    | Ok o => is_Some o ∧ (length cs' < length cs)%nat
    | Err _ => cs' = []
    end) cs.
Proof.
  intros -> Hws Hsym. rw /next_str. apply wp_bind, wp_get. cbv beta iota.
  destruct (scan scan_start (c :: r)) as [st rest] eqn:E. pose proof (scan_end _ _ _ _ E) as [_ Hend].
  assert (length rest ≤ length r)%nat as Hlen.
  { simpl in E. rewrite Hws (bool_decide_eq_false_2 (c ∈ SYMBOLS)) // in E. simpl in E.
    repeat case_match; by destruct (scan_end _ _ _ _ E). }
  wp_steps. assert (∀ b : bool, (rest ≠ [] → b = false) → b = true → rest = []) as Hnil.
  { intros b Hb ->. destruct rest; [done|]. by discriminate Hb. }
  repeat case_match; wp_steps; try (split; [eauto|lia]); eapply Hnil; try eassumption; naive_solver.
Qed.

Lemma next_if_eq_cons (a : byte) cs :
  next_if_eq a cs = match cs with
                    | c :: cs' => if bool_decide (a = c) then Ret (Some c) cs' else Ret None cs
                    | [] => Ret None []
                    end.
Proof. done. Qed.
Lemma next_if_eq_wp (a : byte) (Q : option byte → Chars → Prop) cs :
  (∀ cs', cs = a :: cs' → Q (Some a) cs') → ((∀ cs', cs ≠ a :: cs') → Q None cs) → wp (next_if_eq a) Q cs.
Proof.
  intros H1 H2. rw /wp next_if_eq_cons. destruct cs as [|c cs]; [by apply H2|]. case_bool_decide as Hc; [by subst; apply H1|].
  apply H2. naive_solver.
Qed.

Lemma tokenizer_next_wp cs :
  wp tokenizer_next (λ r cs', match r with
    | Some (Ok _) => (length cs' < length cs)%nat
    | Some (Err _) => cs' = [] ∧ (0 < length cs)%nat
    | None => cs' = []
    end) cs.
Proof.
  pose proof (skip_whitespace_length cs) as Hl. pose proof (skip_whitespace_head cs) as Hw.
  rw /tokenizer_next /next_token. wp_steps. revert Hl Hw. generalize (skip_whitespace cs) as ds. intros ds Hl Hw.
  repeat first
    [ progress wp_steps
    | match goal with |- wp (next_if_eq _) _ _ => apply next_if_eq_wp; [intros ? ->; simpl in *|intros ?] end
    | done | lia ].
  destruct ds as [|c r]; [done|]. eapply wp_mono.
  - eapply (next_str_wp (c :: r) c r eq_refl); [by eapply Hw|].
    intros Hin. rewrite /SYMBOLS in Hin. repeat (apply elem_of_cons in Hin as [->|Hin]; [naive_solver|]). by apply not_elem_of_nil in Hin.
  - intros [[s|]|e] cs' Hs; wp_steps; simpl in *; [lia|by destruct Hs as [[? [=]] _]|]. subst. split; [done|simpl; lia].
Qed.

Lemma tokens_of_fuel n m cs : (length cs < n)%nat → (length cs < m)%nat → tokens_of n cs = tokens_of m cs.
Proof.
  revert m cs. induction n as [|n IH]; intros [|m] cs Hn Hm; [lia..|]. simpl.
  destruct (wp_run _ _ _ (tokenizer_next_wp cs)) as ([[t|e]|] & cs' & -> & H); [|destruct H as [-> H]|done]; f_equal; apply IH; simpl; lia.
Qed.
(** The stream, token by token. *)
Lemma tokens_next cs :
  wp tokenizer_next (λ r cs', tokens cs = match r with Some r => r :: tokens cs' | None => [] end ∧
    (r = None → cs' = []) ∧ (∀ e, r = Some (Err e) → tokens cs' = [])) cs.
Proof.
  destruct (wp_run _ _ _ (tokenizer_next_wp cs)) as (r & cs' & E & H). apply (wp_of_run _ _ _ _ _ E).
  split; [|by destruct r as [[]|]; naive_solver].
  change (tokens cs) with (tokens_of (S (length cs)) cs). cbn [tokens_of]. rewrite E. destruct r as [[t|e]|]; [|destruct H as [-> H]|done];
    f_equal; apply tokens_of_fuel; simpl; lia.
Qed.
Lemma tokens_nil : tokens [] = [].
Proof. done. Qed.

(** ** Quoting *)

(** A word in single quotes; a single quote in it is written outside of them, after a backslash. *)
Definition quote_body (s : list byte) : list byte :=
  flat_map (λ c, if bool_decide (c = QUOTE) then [QUOTE; BACKSLASH; QUOTE; QUOTE] else [c]) s.
Definition quote (s : list byte) : list byte := QUOTE :: quote_body s ++ [QUOTE].
(** A token followed by a space. *)
Definition render (t : Token) : list byte :=
  match t with
  | Str s => quote s
  | Pun p => Punct.as_str p
  end ++ [SPACE].

Lemma scan_quote_body s r :
  scan {| in_double_quotes := false; in_single_quotes := true; escaped := false; needs_allocation := true |} (quote_body s ++ QUOTE :: r) =
  scan {| in_double_quotes := false; in_single_quotes := false; escaped := false; needs_allocation := true |} r.
Proof.
  induction s as [|c s IH]; [done|]. rewrite /quote_body /= -/(quote_body s). case_bool_decide as Hc; [exact IH|].
  simpl. by rewrite (bool_decide_eq_false_2 (c = QUOTE)).
Qed.
Lemma construct_quote_body s : construct false true false (quote_body s ++ [QUOTE]) = s.
Proof.
  induction s as [|c s IH]; [done|]. rewrite /quote_body /= -/(quote_body s). case_bool_decide as Hc; [by simpl; rewrite IH Hc|].
  simpl. rewrite (bool_decide_eq_false_2 (c = QUOTE)) // !andb_false_r /=. by rewrite IH.
Qed.

Lemma next_token_quote s r : tokenizer_next (quote s ++ SPACE :: r) = Ret (Some (Ok (Str s))) (SPACE :: r).
Proof.
  assert (scan scan_start (quote s ++ SPACE :: r) =
    ({| in_double_quotes := false; in_single_quotes := false; escaped := false; needs_allocation := true |}, SPACE :: r)) as E.
  { rewrite /quote -app_comm_cons -app_assoc. simpl. by rewrite scan_quote_body. }
  assert (next_str (quote s ++ SPACE :: r) = Ret (Ok (Some s)) (SPACE :: r)) as E1.
  { rewrite /next_str. rewrite (bind_Ret _ _ _ _ _ (eq_refl : get (quote s ++ SPACE :: r) = Ret _ _)). cbv beta iota.
    change (match quote s ++ SPACE :: r with [] => ?a | _ => ?b end) with b. rewrite E. cbn [escaped in_double_quotes in_single_quotes needs_allocation].
    assert (take (length (quote s ++ SPACE :: r) - length (SPACE :: r)) (quote s ++ SPACE :: r) = quote s) as ->.
    { rewrite length_app Nat.add_sub. by rewrite take_app_length. }
    rewrite /quote. simpl. by rewrite construct_quote_body. }
  change (tokenizer_next (quote s ++ SPACE :: r)) with ((r0 ← try_bind next_str (λ s, mret (Ok (Str <$> s))); mret (match r0 with Ok (Some t) => Some (Ok t) | Ok None => None | Err e => Some (Err e) end)) (quote s ++ SPACE :: r)).
  by rewrite /try_bind /mbind /M_bind E1.
Qed.
Lemma next_token_punct p r : tokenizer_next (Punct.as_str p ++ SPACE :: r) = Ret (Some (Ok (Pun p))) (SPACE :: r).
Proof. by destruct p. Qed.
Lemma tokens_space r : tokens (SPACE :: r) = tokens r.
Proof.
  assert (tokenizer_next (SPACE :: r) = tokenizer_next r) as E by done.
  pose proof (tokens_next (SPACE :: r)) as H1. pose proof (tokens_next r) as H2. revert H1 H2. rewrite /wp E.
  destruct (tokenizer_next r) as [o cs'|]; [|done]. by intros [-> _] [-> _].
Qed.
(** The tokenizer reads back what was rendered. *)
Lemma tokens_render ts : tokens (flat_map render ts) = Ok <$> ts.
Proof.
  induction ts as [|t ts IH]; [done|]. simpl. rewrite -app_assoc.
  assert (tokenizer_next (match t with Str s => quote s | Pun p => Punct.as_str p end ++ SPACE :: flat_map render ts) =
    Ret (Some (Ok t)) (SPACE :: flat_map render ts)) as E by (destruct t; [apply next_token_quote|apply next_token_punct]).
  pose proof (tokens_next (match t with Str s => quote s | Pun p => Punct.as_str p end ++ SPACE :: flat_map render ts)) as H.
  revert H. rewrite /wp E. intros [Heq _]. etrans; [exact Heq|]. by rewrite tokens_space IH.
Qed.
