(* ===== verification/ShParser.v ===== *)
(** * The parser of the shell

    Model of [crates/user/ov6_utilities/src/bin/sh/parser.rs] and of the syntax trees of [command.rs]: the recursive
    descent parser that turns a command line into a list of commands.  Its state is the peekable tokenizer.  The
    functions recurse on a fuel that [parse] takes from the length of the line; [parse_total] of the proofs shows that it
    is enough for every line. *)

From stdpp Require Import base list ssreflect.
From S2P Require Import Prelude.
From S2P Require Import ShToken.

(** ** Syntax trees *)

Notation word := (list byte) (only parsing).

Inductive OutputMode : Type := Truncate | Append.

Record Redirect : Type := {
  stdin : option word;
  stdout : option (word * OutputMode);
}.
Definition redirect_new : Redirect := {| stdin := None; stdout := None |}.

Inductive CommandKind : Type :=
  | Subshell (list : list Command) (redirect : Redirect)
  | Exec (argv : list word) (redirect : Redirect)
  | Pipe (left right : Command)
  | LogicalAnd (left right : Command)
  | LogicalOr (left right : Command)
with Command : Type :=
  | mk_command (kind : CommandKind) (background : bool).

(** [Command::new]. *)
Definition command_new (kind : CommandKind) : Command := mk_command kind false.
Definition set_background (c : Command) : Command :=
  match c with mk_command kind _ => mk_command kind true end.

Inductive ParseError : Type :=
  | Tokenize (e : TokenizeError)
  | Leftovers (t : Token)
  | MissingFile
  | MissingPunct (p : Punct.t)
  | UnexpectedPunct (p : Punct.t).

(** [EXEC_TERMINATOR]. *)
Definition EXEC_TERMINATOR : list Punct.t :=
  [Punct.Pipe; Punct.AndAnd; Punct.OrOr; Punct.RParen; Punct.And; Punct.Semicolon].

(** ** The peekable tokenizer

    [Peekable] keeps the item it has peeked at, which may be the end of the iteration. *)

Record PeekTokenizer : Type := {
  peeked : option (option (result TokenizeError Token));
  chars : Chars;
}.
Definition peek_new (input : Chars) : PeekTokenizer := {| peeked := None; chars := input |}.

Definition set_peeked (o : option (option (result TokenizeError Token))) (t : PeekTokenizer) : PeekTokenizer :=
  {| peeked := o; chars := chars t |}.
Definition on_chars {A} (m : M Chars A) : M PeekTokenizer A := zoom chars (λ cs t, {| peeked := peeked t; chars := cs |}) m.

(** [Peekable::next]. *)
Definition peekable_next : M PeekTokenizer (option (result TokenizeError Token)) :=
  p ← gets peeked;
  match p with
  | Some v => modify (set_peeked None);; mret v
  | None => on_chars tokenizer_next
  end.
(** [Peekable::next_if]. *)
Definition peekable_next_if (f : result TokenizeError Token → bool) : M PeekTokenizer (option (result TokenizeError Token)) :=
  o ← peekable_next;
  if (if o is Some r then f r else false) then mret o
  else modify (set_peeked (Some o));; mret None.

Definition transpose {A} (o : option (result TokenizeError A)) : result TokenizeError (option A) :=
  match o with
  | Some (Ok a) => Ok (Some a)
  | Some (Err e) => Err e
  | None => Ok None
  end.
(** [PeekTokenizer::next], [next_if] and [next_if_eq]; the errors are converted as [?] does in the parser. *)
Definition tokenize_error {A} (r : result TokenizeError A) : result ParseError A :=
  match r with
  | Ok a => Ok a
  | Err e => Err (Tokenize e)
  end.
Definition next : M PeekTokenizer (result ParseError (option Token)) :=
  o ← peekable_next; mret (tokenize_error (transpose o)).
Definition next_token_if (f : Token → bool) : M PeekTokenizer (result ParseError (option Token)) :=
  o ← peekable_next_if (λ r, match r with Ok t => f t | Err _ => true end); mret (tokenize_error (transpose o)).
Definition next_punct (p : Punct.t) : M PeekTokenizer (result ParseError (option Token)) :=
  next_token_if (λ t, match t with Pun q => bool_decide (q = p) | Str _ => false end).

(** [try_opt!]. *)
Definition try_opt {A B} (m : M PeekTokenizer (result ParseError (option A))) (k : A → M PeekTokenizer (result ParseError (option B)))
    : M PeekTokenizer (result ParseError (option B)) :=
  r ←? m;
  match r with
  | Some a => k a
  | None => mret (Ok None)
  end.

(** ** The parser *)

Inductive Redir : Type := Stdin | Stdout (mode : OutputMode).
Definition apply_redir (mode : Redir) (file : word) (r : Redirect) : Redirect :=
  match mode with
  | Stdin => {| stdin := Some file; stdout := stdout r |}
  | Stdout mode => {| stdin := stdin r; stdout := Some (file, mode) |}
  end.

(** The mode of the next redirection, if there is one. *)
Definition redir_mode : M PeekTokenizer (result ParseError (option Redir)) :=
  lt ←? next_punct Punct.Lt;
  if lt is Some _ then mret (Ok (Some Stdin)) else
  gt ←? next_punct Punct.Gt;
  if gt is Some _ then mret (Ok (Some (Stdout Truncate))) else
  gtgt ←? next_punct Punct.GtGt;
  if gtgt is Some _ then mret (Ok (Some (Stdout Append))) else mret (Ok None).

(** [Parser::parse_redirs]; the redirections are returned instead of updated in place. *)
Fixpoint parse_redirs (fuel : nat) (redirect : Redirect) : M PeekTokenizer (result ParseError Redirect) :=
  match fuel with
  | O => panic
  | S fuel =>
      mode ←? redir_mode;
      match mode with
      | None => mret (Ok redirect)
      | Some mode =>
          t ←? next;
          match t with
          | Some (Str file) => parse_redirs fuel (apply_redir mode file redirect)
          | _ => mret (Err MissingFile)
          end
      end
  end.

(** The loop of [Parser::parse_exec] over the arguments. *)
Fixpoint parse_args (fuel : nat) (argv : list word) (redirect : Redirect) : M PeekTokenizer (result ParseError (list word * Redirect)) :=
  match fuel with
  | O => panic
  | S fuel =>
      t ←? next_token_if (λ t, if as_punct t is Some p then negb (bool_decide (p ∈ EXEC_TERMINATOR)) else true);
      match t with
      | None => mret (Ok (argv, redirect))
      | Some (Str arg) =>
          redirect ←? parse_redirs fuel redirect;
          parse_args fuel (argv ++ [arg]) redirect
      | Some (Pun p) => mret (Err (UnexpectedPunct p))
      end
  end.

(** [Parser::parse_subshell], on the parser of the line in parentheses. *)
Definition parse_subshell (fuel : nat) (line : M PeekTokenizer (result ParseError (list Command))) : M PeekTokenizer (result ParseError (option Command)) :=
  cmd ←? line;
  rparen ←? next_punct Punct.RParen;
  if rparen is None then mret (Err (MissingPunct Punct.RParen)) else
  redirect ←? parse_redirs fuel redirect_new;
  mret (Ok (Some (command_new (Subshell cmd redirect)))).

(** [Parser::parse_exec], on the parser of a line. *)
Definition parse_simple (fuel : nat) : M PeekTokenizer (result ParseError (option Command)) :=
  redirect ←? parse_redirs fuel redirect_new;
  a ←? parse_args fuel [] redirect;
  match a with
  | ([], _) => mret (Ok None)
  | (argv, redirect) => mret (Ok (Some (command_new (Exec argv redirect))))
  end.
Definition parse_exec (fuel : nat) (line : M PeekTokenizer (result ParseError (list Command))) : M PeekTokenizer (result ParseError (option Command)) :=
  lparen ←? next_punct Punct.LParen;
  if lparen is Some _ then parse_subshell fuel line else parse_simple fuel.

(** [if next_if_eq(p)?.is_some() { cmd = build(cmd, try_opt!(rest)) }]. *)
Definition parse_operator (p : Punct.t) (build : Command → Command → CommandKind) (rest : M PeekTokenizer (result ParseError (option Command)))
    (cmd : Command) : M PeekTokenizer (result ParseError (option Command)) :=
  op ←? next_punct p;
  if op is Some _ then try_opt rest (λ right, mret (Ok (Some (command_new (build cmd right)))))
  else mret (Ok (Some cmd)).

(** [Parser::parse_line] (from the commands it has collected) and [Parser::parse_pipe]. *)
Fixpoint parse_line (fuel : nat) (cmds : list Command) : M PeekTokenizer (result ParseError (list Command)) :=
  match fuel with
  | O => panic
  | S fuel =>
      cmd ←? parse_pipe fuel;
      match cmd with
      | None => mret (Ok cmds)
      | Some cmd =>
          amp ←? next_punct Punct.And;
          let cmds := cmds ++ [if amp is Some _ then set_background cmd else cmd] in
          semicolon ←? next_punct Punct.Semicolon;
          if semicolon is Some _ then parse_line fuel cmds else mret (Ok cmds)
      end
  end
with parse_pipe (fuel : nat) : M PeekTokenizer (result ParseError (option Command)) :=
  match fuel with
  | O => panic
  | S fuel =>
      try_opt (match fuel with O => panic | S fuel => parse_exec fuel (parse_line fuel []) end) (λ cmd,
      try_opt (parse_operator Punct.Pipe Pipe (parse_pipe fuel) cmd) (λ cmd,
      try_opt (parse_operator Punct.AndAnd LogicalAnd (parse_pipe fuel) cmd) (λ cmd,
      parse_operator Punct.OrOr LogicalOr (parse_pipe fuel) cmd)))
  end.

(** [Parser::parse]. *)
Definition parse_fuel (input : Chars) : nat := 3 * length input + 5.
Definition parser_parse (fuel : nat) : M PeekTokenizer (result ParseError (list Command)) :=
  cmds ←? parse_line fuel [];
  t ←? next;
  match t with
  | Some t => mret (Err (Leftovers t))
  | None => mret (Ok cmds)
  end.
Definition parse (input : Chars) : outcome PeekTokenizer (result ParseError (list Command)) :=
  parser_parse (parse_fuel input) (peek_new input).
