(* ===== verification/ShGrammar.v ===== *)
(** * Correctness of the shell's parser

    The grammar of command lines as an inductive relation between token lists and syntax trees, and the proof that
    the parser decides it: it returns for every line, the trees it returns are derivable, and it finds every derivable
    tree. *)

From stdpp Require Import base list ssreflect.
From S2P Require Import Prelude.
From S2P Require Import ShToken ShParser.

(** ** The grammar *)

(** The elements of a simple command: words and redirections in any order, where the last redirection counts. *)
Inductive Element : Type := Word (w : list byte) | Redirection (mode : Redir) (file : list byte).
Definition redir_punct (mode : Redir) : Punct.t :=
  match mode with
  | Stdin => Punct.Lt
  | Stdout Truncate => Punct.Gt
  | Stdout Append => Punct.GtGt
  end.
Definition element_tokens (e : Element) : list Token :=
  match e with
  | Word w => [Str w]
  | Redirection mode file => [Pun (redir_punct mode); Str file]
  end.
Definition words (es : list Element) : list (list byte) := omap (λ e, if e is Word w then Some w else None) es.
Definition apply_element (r : Redirect) (e : Element) : Redirect :=
  match e with
  | Word _ => r
  | Redirection mode file => apply_redir mode file r
  end.
Definition redirects (r : Redirect) (es : list Element) : Redirect := foldl apply_element r es.

(** The binary operators: all three have the same precedence and associate to the right. *)
Inductive Operator : Type := OpPipe | OpAnd | OpOr.
Definition op_punct (op : Operator) : Punct.t :=
  match op with OpPipe => Punct.Pipe | OpAnd => Punct.AndAnd | OpOr => Punct.OrOr end.
Definition op_build (op : Operator) : Command → Command → CommandKind :=
  match op with OpPipe => Pipe | OpAnd => LogicalAnd | OpOr => LogicalOr end.

Definition amp (bg : bool) : list Token := if bg then [Pun Punct.And] else [].
Definition in_background (bg : bool) (c : Command) : Command := if bg then set_background c else c.

(** [nothing] is what the parser drops without an error: a command without words, alone or after an operator. *)
Inductive line : list Token → list Command → Prop :=
  | line_dropped ts : nothing ts → line ts []
  | line_last ts c bg : cmd ts c → line (ts ++ amp bg) [in_background bg c]
  | line_cons ts c bg ts' cs : cmd ts c → line ts' cs → line (ts ++ amp bg ++ Pun Punct.Semicolon :: ts') (in_background bg c :: cs)
with cmd : list Token → Command → Prop :=
  | cmd_atom ts c : atom ts c → cmd ts c
  | cmd_op op ts l ts' r : atom ts l → cmd ts' r → cmd (ts ++ Pun (op_punct op) :: ts') (command_new (op_build op l r))
with atom : list Token → Command → Prop :=
  | atom_exec es : words es ≠ [] → atom (flat_map element_tokens es) (command_new (Exec (words es) (redirects redirect_new es)))
  | atom_subshell ts cs rs : line ts cs → words rs = [] →
      atom (Pun Punct.LParen :: ts ++ Pun Punct.RParen :: flat_map element_tokens rs) (command_new (Subshell cs (redirects redirect_new rs)))
with nothing : list Token → Prop :=
  | nothing_redirs es : words es = [] → nothing (flat_map element_tokens es)
  | nothing_op op ts l ts' : atom ts l → nothing ts' → nothing (ts ++ Pun (op_punct op) :: ts').

(** ** The tokens that remain *)

Notation Stream := (list (result TokenizeError Token)).

(** The tokens still to be read in a state of the peekable tokenizer. *)
Definition remaining (s : PeekTokenizer) (ts : Stream) : Prop :=
  match peeked s with
  | None => ts = tokens (chars s)
  | Some None => ts = [] ∧ tokens (chars s) = []
  | Some (Some r) => ts = r :: tokens (chars s)
  end.

Lemma remaining_new input : remaining (peek_new input) (tokens input).
Proof. done. Qed.

Lemma wp_zoom {S T A} (view : S → T) (set : T → S → S) (m : M T A) (Q : A → S → Prop) s :
  wp m (λ a t, Q a (set t s)) (view s) → wp (zoom view set m) Q s.
Proof. rw /wp /zoom. by destruct (m (view s)). Qed.

Lemma peekable_next_wp s ts :
  remaining s ts → wp peekable_next (λ o s', o = head ts ∧ remaining s' (tail ts) ∧ peeked s' = None) s.
Proof.
  intros H. rw /peekable_next. wp_steps. revert H. rw /remaining. destruct (peeked s) as [[r|]|] eqn:E; simpl.
  - intros ->. by wp_steps.
  - intros [-> H]. by wp_steps.
  - intros ->. apply wp_zoom. eapply wp_mono; [apply tokens_next|]. intros o cs (-> & Hn & _). simpl. rewrite E.
    destruct o as [r|]; [done|]. by rewrite (Hn eq_refl).
Qed.

(** What a conditional read takes from the stream. *)
Definition take_if (f : Token → bool) (ts : Stream) : result ParseError (option Token) * Stream :=
  match ts with
  | Ok t :: ts' => if f t then (Ok (Some t), ts') else (Ok None, ts)
  | Err e :: ts' => (Err (Tokenize e), ts')
  | [] => (Ok None, [])
  end.
Lemma next_token_if_wp f s ts :
  remaining s ts → wp (next_token_if f) (λ r s', r = (take_if f ts).1 ∧ remaining s' (take_if f ts).2) s.
Proof.
  intros H. rw /next_token_if /peekable_next_if. wp_steps. eapply wp_mono; [exact (peekable_next_wp _ _ H)|].
  intros o s' (-> & Hr & Hp). rewrite /remaining Hp in Hr. destruct ts as [|[t|e] ts]; simpl in *.
  - wp_steps. split; [done|]. by rewrite /remaining /=.
  - destruct (f t); wp_steps; (split; [done|]); rewrite /remaining /= ?Hp //. by rewrite Hr.
  - wp_steps. split; [done|]. by rewrite /remaining Hp.
Qed.
Definition next_of (ts : Stream) : result ParseError (option Token) * Stream := take_if (λ _, true) ts.
Lemma next_wp s ts : remaining s ts → wp next (λ r s', r = (next_of ts).1 ∧ remaining s' (next_of ts).2) s.
Proof.
  intros H. rw /next. wp_steps. eapply wp_mono; [exact (peekable_next_wp _ _ H)|]. intros o s' (-> & Hr & _). wp_steps.
  destruct ts as [|[t|e] ts]; done.
Qed.

(** ** Redirections and simple commands *)

Definition redir_of (ts : Stream) : result ParseError (option Redir) * Stream :=
  match ts with
  | Ok (Pun Punct.Lt) :: ts' => (Ok (Some Stdin), ts')
  | Ok (Pun Punct.Gt) :: ts' => (Ok (Some (Stdout Truncate)), ts')
  | Ok (Pun Punct.GtGt) :: ts' => (Ok (Some (Stdout Append)), ts')
  | Err e :: ts' => (Err (Tokenize e), ts')
  | _ => (Ok None, ts)
  end.
(** The next token neither is an error nor starts a redirection. *)
Definition no_redir (ts : Stream) : Prop := (redir_of ts).1 = Ok None.
(** The line ends here, or goes on with one of the given tokens. *)
Definition follows (l : list Punct.t) (ts : Stream) : Prop :=
  match ts with
  | [] => True
  | Ok (Pun p) :: _ => p ∈ l
  | _ => False
  end.
(** What ends a simple command, a command and a line. *)
Notation stop := (follows EXEC_TERMINATOR).
Notation end_cmd := (follows [Punct.And; Punct.Semicolon; Punct.RParen]).
Notation end_line := (follows [Punct.RParen]).

(** Runs a conditional read of a stream whose first token is known. *)
Ltac read :=
  match goal with
  | H : remaining ?s _ |- wp (next_punct _) _ ?s => eapply wp_mono; [exact (next_token_if_wp _ _ _ H)|]; clear H
  | H : remaining ?s _ |- wp (next_token_if _) _ ?s => eapply wp_mono; [exact (next_token_if_wp _ _ _ H)|]; clear H
  | H : remaining ?s _ |- wp next _ ?s => eapply wp_mono; [exact (next_wp _ _ H)|]; clear H
  end; let Hr := fresh "Hr" in intros ? ? [-> Hr]; simpl in Hr |- *.

Lemma redir_mode_wp s ts : remaining s ts → wp redir_mode (λ r s', r = (redir_of ts).1 ∧ remaining s' (redir_of ts).2) s.
Proof.
  intros H. rw /redir_mode. destruct ts as [|[[w|p]|e] ts].
  - do 3 (wp_step; read). by wp_steps.
  - do 3 (wp_step; read). by wp_steps.
  - destruct p; repeat first [progress wp_steps|read|done].
  - wp_step; read. done.
Qed.

Lemma redir_of_inv ts m : (redir_of ts).1 = Ok (Some m) → ts = Ok (Pun (redir_punct m)) :: (redir_of ts).2.
Proof. by destruct ts as [|[[|[]]|] ts]; simpl; intros [= <-]. Qed.
Lemma redir_of_none ts : no_redir ts → (redir_of ts).2 = ts.
Proof. by destruct ts as [|[[|[]]|] ts]. Qed.
Lemma stop_no_redir ts : stop ts → no_redir ts.
Proof. destruct ts as [|[[|p]|] ts]; [done..| |done]. destruct p; simpl; try done; set_solver. Qed.

Lemma parse_redirs_sound n redirect s ts :
  remaining s ts → (length ts < n)%nat →
  wp (parse_redirs n redirect) (λ r s', match r with
    | Ok redirect' => ∃ rs rest, ts = (Ok <$> flat_map element_tokens rs) ++ rest ∧ words rs = [] ∧
        redirect' = redirects redirect rs ∧ remaining s' rest ∧ no_redir rest
    | Err _ => True
    end) s.
Proof.
  revert redirect s ts. induction n as [|n IH]; intros redirect s ts Hrem Hn; [lia|]. simpl. wp_step.
  eapply wp_mono; [exact (redir_mode_wp _ _ Hrem)|]. intros r s1 [-> Hr]. destruct (redir_of ts).1 as [[m|]|e] eqn:E; [| |done].
  - pose proof (redir_of_inv _ _ E) as Hts. destruct (redir_of ts) as [o [|[[file|p]|e] ts1]]; wp_step; read; wp_steps; try done.
    eapply wp_mono; [apply (IH _ _ _ Hr); rewrite Hts in Hn; simpl in Hn; lia|]. intros [redirect'|e] s2; [|done].
    intros (rs & rest & -> & Hw & -> & Hrest & Hno). by exists (Redirection m file :: rs), rest.
  - wp_steps. exists [], ts. rewrite redir_of_none in Hr; done.
Qed.
Lemma parse_redirs_complete n redirect s rs rest :
  words rs = [] → no_redir rest → remaining s ((Ok <$> flat_map element_tokens rs) ++ rest) → (length rs < n)%nat →
  wp (parse_redirs n redirect) (λ r s', r = Ok (redirects redirect rs) ∧ remaining s' rest) s.
Proof.
  intros Hw Hno. revert redirect s rs Hw. induction n as [|n IH]; intros redirect s rs Hw Hrem Hn; [lia|]. simpl. wp_step.
  eapply wp_mono; [exact (redir_mode_wp _ _ Hrem)|]. intros r s1 [-> Hr]. destruct rs as [|[w|m file] rs]; [|done|].
  - simpl in *. rewrite Hno. wp_steps. by rewrite redir_of_none in Hr.
  - destruct m as [|[]]; simpl in *; wp_step; read; (apply IH; [done..|lia]).
Qed.

(** The leading redirections of a simple command. *)
Lemma leading_redirs es : ∃ rs es', es = rs ++ es' ∧ words rs = [] ∧ (es' = [] ∨ ∃ w es'', es' = Word w :: es'').
Proof.
  induction es as [|[w|m f] es IH]; [by exists [], []; auto| |].
  { exists [], (Word w :: es). split; [done|]. split; [done|]. right. by exists w, es. }
  destruct IH as (rs & es' & -> & Hw & H). by exists (Redirection m f :: rs), es'.
Qed.
Lemma words_app es es' : words (es ++ es') = words es ++ words es'.
Proof. apply omap_app. Qed.
Lemma redirects_app r es es' : redirects r (es ++ es') = redirects (redirects r es) es'.
Proof. apply foldl_app. Qed.
Lemma flat_map_length_le es : (length es ≤ length (flat_map element_tokens es))%nat.
Proof. induction es as [|[] es IH]; simpl in *; lia. Qed.
Lemma stream_app (us us' : list Token) (rest : Stream) : (Ok <$> (us ++ us')) ++ rest = (Ok <$> us) ++ (Ok <$> us') ++ rest.
Proof. by rewrite fmap_app app_assoc. Qed.

Lemma parse_args_sound n argv redirect s ts :
  remaining s ts → (length ts < n)%nat →
  wp (parse_args n argv redirect) (λ r s', match r with
    | Ok (argv', redirect') => ∃ es rest, ts = (Ok <$> flat_map element_tokens es) ++ rest ∧ argv' = argv ++ words es ∧
        redirect' = redirects redirect es ∧ remaining s' rest ∧ (no_redir ts → stop rest)
    | Err _ => True
    end) s.
Proof.
  revert argv redirect s ts. induction n as [|n IH]; intros argv redirect s ts Hrem Hn; [lia|]. simpl. wp_step. read.
  destruct ts as [|[[w|p]|e] ts]; simpl in *; [| | |done].
  - wp_steps. exists [], []. by rewrite (app_nil_r argv).
  - wp_step. eapply wp_mono; [apply (parse_redirs_sound _ _ _ _ Hr); lia|]. intros [redirect1|e] s1; [|done].
    intros (rs & rest & -> & Hw & -> & Hrest & Hno). eapply wp_mono; [apply (IH _ _ _ _ Hrest); rewrite length_app in Hn; lia|].
    intros [[argv' redirect']|e] s2; [|done]. intros (es & rest' & -> & -> & -> & Hrest' & Hstop).
    exists (Word w :: rs ++ es), rest'. rewrite /= flat_map_app stream_app. repeat split; auto.
    + by rewrite -/(words (rs ++ es)) words_app Hw -app_assoc.
    + by rewrite -redirects_app.
  - case_bool_decide as Hp; wp_steps; [|done]. simpl in *. exists [], (Ok (Pun p) :: ts). by rewrite (app_nil_r argv).
Qed.
Lemma parse_args_complete n argv redirect s es rest :
  (es = [] ∨ ∃ w es', es = Word w :: es') → stop rest → remaining s ((Ok <$> flat_map element_tokens es) ++ rest) → (length es < n)%nat →
  wp (parse_args n argv redirect) (λ r s', r = Ok (argv ++ words es, redirects redirect es) ∧ remaining s' rest) s.
Proof.
  intros Hes Hstop. revert argv redirect s es Hes. induction n as [|n IH]; intros argv redirect s es Hes Hrem Hn; [lia|]. simpl. wp_step. read.
  destruct Hes as [->|(w & es' & ->)].
  - simpl in *. destruct rest as [|[[w|p]|e] rest]; simpl in *; [|done| |done]; [wp_steps; by rewrite app_nil_r|].
    rewrite bool_decide_eq_true_2 // in Hr |- *. simpl in *. wp_steps. by rewrite app_nil_r.
  - destruct (leading_redirs es') as (rs & es & -> & Hw & Hes). simpl in *. rewrite flat_map_app stream_app in Hr. wp_step. len.
    eapply wp_mono; [apply (parse_redirs_complete _ _ _ rs ((Ok <$> flat_map element_tokens es) ++ rest) Hw); [|exact Hr|lia]|].
    { destruct Hes as [->|(w' & es' & ->)]; [by apply stop_no_redir|done]. }
    intros r s1 [-> Hr1]. eapply wp_mono; [apply (IH _ _ _ es Hes Hr1); lia|]. intros r s2 [-> Hr2]. split; [|done].
    by rewrite -/(words (rs ++ es)) words_app Hw -app_assoc -redirects_app.
Qed.

(** ** Soundness *)

Definition starts_with (ts : Stream) (p : Punct.t) : Prop := head ts = Some (Ok (Pun p)).
Definition no_op (ts : Stream) : Prop := ∀ op, ¬ starts_with ts (op_punct op).

Definition line_sound (n : nat) (m : list Command → M PeekTokenizer (result ParseError (list Command))) : Prop :=
  ∀ cmds s ts, remaining s ts → (3 * length ts + 5 ≤ n)%nat →
    wp (m cmds) (λ r s', match r with
      | Ok cmds' => ∃ us rest cs, ts = (Ok <$> us) ++ rest ∧ remaining s' rest ∧ line us cs ∧ cmds' = cmds ++ cs
      | Err _ => True
      end) s.
Definition reads_command (P : list Token → Command → Stream → Prop) (s' : PeekTokenizer) (ts : Stream) (r : result ParseError (option Command)) : Prop :=
  match r with
  | Ok (Some c) => ∃ us rest, ts = (Ok <$> us) ++ rest ∧ remaining s' rest ∧ P us c rest
  | Ok None => ∃ us rest, ts = (Ok <$> us) ++ rest ∧ remaining s' rest ∧ nothing us
  | Err _ => True
  end.
Definition pipe_sound (n : nat) (m : M PeekTokenizer (result ParseError (option Command))) : Prop :=
  ∀ s ts, remaining s ts → (3 * length ts + 4 ≤ n)%nat →
    wp m (λ r s', reads_command (λ us c rest, cmd us c ∧ no_op rest) s' ts r) s.

Lemma stream_cons (us : list Token) p (us' : list Token) (rest : Stream) :
  (Ok <$> (us ++ Pun p :: us')) ++ rest = (Ok <$> us) ++ Ok (Pun p) :: (Ok <$> us') ++ rest.
Proof. by rewrite fmap_app -app_assoc. Qed.

Lemma parse_simple_sound n s ts :
  remaining s ts → (length ts < n)%nat → wp (parse_simple n) (λ r s', reads_command (λ us c _, atom us c) s' ts r) s.
Proof.
  intros Hrem Hn. rw /parse_simple. wp_step. eapply wp_mono; [exact (parse_redirs_sound _ _ _ _ Hrem Hn)|].
  intros [redirect|e] s1; [|done]. intros (rs & rest & -> & Hw & -> & Hrest & Hno). wp_step.
  eapply wp_mono; [apply (parse_args_sound _ _ _ _ _ Hrest); len|]. intros [[argv redirect]|e] s2; [|done].
  intros (es & rest' & -> & -> & -> & Hrest' & _). simpl.
  assert (words (rs ++ es) = words es) as Hwe by by rewrite words_app Hw.
  rewrite -redirects_app. destruct (words es) as [|w ws] eqn:E; wp_steps;
    (exists (flat_map element_tokens (rs ++ es)), rest'; split; [by rewrite flat_map_app stream_app|split; [done|]]).
  - by constructor.
  - rewrite -Hwe. constructor. by rewrite Hwe.
Qed.
Lemma parse_exec_sound n m s ts :
  line_sound n m → remaining s ts → (3 * length ts + 2 ≤ n)%nat →
  wp (parse_exec n (m [])) (λ r s', reads_command (λ us c _, atom us c) s' ts r) s.
Proof.
  intros Hline Hrem Hn. rw /parse_exec. wp_step. read. destruct ts as [|[[w|p]|e] ts]; simpl in *; [apply parse_simple_sound; simpl; lia || done..| |done].
  case_bool_decide as Hp; simpl in *; [|apply parse_simple_sound; simpl; [done|lia]]. subst p. rw /parse_subshell. wp_step.
  eapply wp_mono; [apply (Hline _ _ _ Hr); lia|]. intros [cmds|e] s1; [|done]. intros (us & rest & cs & -> & Hrest & Hcs & ->). wp_step. read.
  destruct rest as [|[[w|p]|e] rest]; simpl in *; try by wp_steps. case_bool_decide as Hp; simpl in *; [|by wp_steps]. subst p. wp_step.
  eapply wp_mono; [apply (parse_redirs_sound _ _ _ _ Hr0); len|]. intros [redirect|e] s2; [|done].
  intros (rs & rest' & -> & Hw & -> & Hrest' & _). wp_steps.
  exists (Pun Punct.LParen :: us ++ Pun Punct.RParen :: flat_map element_tokens rs), rest'. rewrite /= stream_cons.
  split; [done|]. split; [done|]. by constructor.
Qed.

Lemma words_nonempty es : words es ≠ [] → flat_map element_tokens es ≠ [].
Proof. by destruct es as [|[] es]. Qed.
Lemma atom_nonempty us c : atom us c → us ≠ [].
Proof. intros H. inversion H; [by apply words_nonempty|done]. Qed.
Lemma atom_length us c : atom us c → (0 < length us)%nat.
Proof. intros H%atom_nonempty. destruct us; simpl; [done|lia]. Qed.

Lemma parse_operator_sound n op m c s ts :
  pipe_sound n m → remaining s ts → (3 * length ts + 1 ≤ n)%nat →
  wp (parse_operator (op_punct op) (op_build op) m c) (λ r s', match r with
    | Ok (Some c') =>
        c' = c ∧ remaining s' ts ∧ ¬ starts_with ts (op_punct op) ∨
        ∃ us rest c2, ts = Ok (Pun (op_punct op)) :: (Ok <$> us) ++ rest ∧ remaining s' rest ∧ cmd us c2 ∧ no_op rest ∧
          c' = command_new (op_build op c c2)
    | Ok None => ∃ us rest, ts = Ok (Pun (op_punct op)) :: (Ok <$> us) ++ rest ∧ remaining s' rest ∧ nothing us
    | Err _ => True
    end) s.
Proof.
  intros Hpipe Hrem Hn. rw /parse_operator. wp_step. read.
  destruct ts as [|[[w|p]|e] ts]; simpl in *; [by wp_steps; left..| |done].
  case_bool_decide as Hp; simpl in *.
  - subst p. rw /try_opt. wp_step. eapply wp_mono; [apply (Hpipe _ _ Hr); lia|]. intros [[c2|]|e] s1; [| |done].
    + intros (us & rest & -> & Hrest & Hc & Hno). wp_steps. right. by exists us, rest, c2.
    + intros (us & rest & -> & Hrest & Hc). wp_steps. by exists us, rest.
  - wp_steps. left. split; [done|]. split; [done|]. rewrite /starts_with /=. congruence.
Qed.

Lemma cmd_length us c : cmd us c → (0 < length us)%nat.
Proof. intros H. inversion H as [ts c0 Ha|]; subst; [exact (atom_length _ _ Ha)|len]. Qed.

(** A command read with the operators tried so far: at most one of them is found. *)
Definition staged (us0 : list Token) (rest0 : Stream) (c0 : Command) (ops : list Operator) (s' : PeekTokenizer) (c : Command) : Prop :=
  c = c0 ∧ remaining s' rest0 ∧ (∀ op, op ∈ ops → ¬ starts_with rest0 (op_punct op)) ∨
  ∃ us rest, (Ok <$> us0) ++ rest0 = (Ok <$> us) ++ rest ∧ remaining s' rest ∧ cmd us c ∧ no_op rest.

Lemma staged_wp n op m us0 rest0 c0 ops c s :
  pipe_sound n m → atom us0 c0 → (3 * length ((Ok <$> us0) ++ rest0) ≤ n + 2)%nat → staged us0 rest0 c0 ops s c →
  wp (parse_operator (op_punct op) (op_build op) m c) (λ r s', match r with
    | Ok (Some c') => staged us0 rest0 c0 (op :: ops) s' c'
    | Ok None => ∃ us rest, (Ok <$> us0) ++ rest0 = (Ok <$> us) ++ rest ∧ remaining s' rest ∧ nothing us
    | Err _ => True
    end) s.
Proof.
  intros Hpipe Hatom Hn [(-> & Hrem & Hops)|(us & rest & E & Hrem & Hc & Hno)].
  - pose proof (atom_length _ _ Hatom). rewrite length_app length_fmap in Hn.
    eapply wp_mono; [apply (parse_operator_sound n op m c0 s rest0 Hpipe Hrem); lia|]. intros [[c'|]|e] s'; [| |done].
    + intros [(-> & Hr & Hno)|(us & rest & c2 & -> & Hr & Hc2 & Hno & ->)].
      * left. split; [done|]. split; [done|]. intros op' [->|]%elem_of_cons; auto.
      * right. exists (us0 ++ Pun (op_punct op) :: us), rest. rewrite stream_cons. split; [done|]. split; [done|].
        split; [by constructor|done].
    + intros (us & rest & -> & Hr & Hc2). exists (us0 ++ Pun (op_punct op) :: us), rest. rewrite stream_cons.
      split; [done|]. split; [done|]. exact (nothing_op op us0 c0 us Hatom Hc2).
  - pose proof (cmd_length _ _ Hc). rewrite E length_app length_fmap in Hn.
    eapply wp_mono; [apply (parse_operator_sound n op m c s rest Hpipe Hrem); lia|].
    assert (∀ us', rest ≠ Ok (Pun (op_punct op)) :: us') as Hne by (intros us' ->; by apply (Hno op)).
    intros [[c'|]|e] s'; [| |done].
    + intros [(-> & Hr & _)|(us' & rest' & c2 & -> & _)]; [|by destruct (Hne _ eq_refl)]. right. by exists us, rest.
    + intros (us' & rest' & -> & _). by destruct (Hne _ eq_refl).
Qed.

Lemma parse_pipe_sound n m :
  line_sound n m → pipe_sound (S n) (parse_pipe (S n)) →
  pipe_sound (S (S n)) (try_opt (parse_exec n (m [])) (λ c,
    try_opt (parse_operator Punct.Pipe Pipe (parse_pipe (S n)) c) (λ c,
    try_opt (parse_operator Punct.AndAnd LogicalAnd (parse_pipe (S n)) c) (λ c,
    parse_operator Punct.OrOr LogicalOr (parse_pipe (S n)) c)))).
Proof.
  intros Hline Hpipe s ts Hrem Hn. rw /try_opt. wp_step. eapply wp_mono; [apply (parse_exec_sound n m s ts Hline Hrem); lia|].
  intros [[c|]|e] s1; [| |done].
  2: { intros (us & rest & -> & Hrest & Hc). wp_steps. by exists us, rest. }
  intros (us0 & rest0 & -> & Hrest & Hc). assert (staged us0 rest0 c [] s1 c) as Hst by (left; set_solver).
  wp_step. eapply wp_mono; [apply (staged_wp _ OpPipe _ us0 rest0 c [] c s1 Hpipe Hc); [lia|done]|].
  intros [[c1|]|e] s2 H; [|by wp_steps|done]. wp_step.
  eapply wp_mono; [exact (staged_wp _ OpAnd _ us0 rest0 c _ c1 s2 Hpipe Hc ltac:(lia) H)|].
  intros [[c2|]|e] s3 H1; [|by wp_steps|done].
  eapply wp_mono; [exact (staged_wp _ OpOr _ us0 rest0 c _ c2 s3 Hpipe Hc ltac:(lia) H1)|].
  intros [[c3|]|e] s4; [|done..]. intros [(-> & Hr & Hno)|H4]; [|done]. exists us0, rest0. split; [done|]. split; [done|].
  split; [by constructor|]. intros op. apply Hno. destruct op; set_solver.
Qed.

Lemma next_punct_sound p s ts :
  remaining s ts → wp (next_punct p) (λ r s', match r with
    | Ok (Some _) => ∃ ts', ts = Ok (Pun p) :: ts' ∧ remaining s' ts'
    | Ok None => remaining s' ts
    | Err _ => True
    end) s.
Proof.
  intros Hrem. read. destruct ts as [|[[w|q]|e] ts]; simpl in *; [done..| |done]. case_bool_decide as Hp; simpl in *; [|done].
  subst. by exists ts.
Qed.

Lemma line_step_sound n cmds s ts us c :
  line_sound n (parse_line n) → remaining s ts → cmd us c → (3 * length ((Ok <$> us) ++ ts) + 4 ≤ n)%nat →
  wp (amp ←? next_punct Punct.And;
      let cmds := cmds ++ [if amp is Some _ then set_background c else c] in
      semicolon ←? next_punct Punct.Semicolon;
      if semicolon is Some _ then parse_line n cmds else mret (Ok cmds))
    (λ r s', match r with
      | Ok cmds' => ∃ us' rest cs, (Ok <$> us) ++ ts = (Ok <$> us') ++ rest ∧ remaining s' rest ∧ line us' cs ∧ cmds' = cmds ++ cs
      | Err _ => True
      end) s.
Proof.
  intros Hline Hrem Hc Hn. pose proof (cmd_length _ _ Hc) as Hus. rewrite length_app length_fmap in Hn. wp_step.
  eapply wp_mono; [exact (next_punct_sound _ _ _ Hrem)|]. intros [o|e] s1 Hr; [|done].
  assert (∃ bg ts1, ts = (Ok <$> amp bg) ++ ts1 ∧ remaining s1 ts1 ∧ (if o is Some _ then set_background c else c) = in_background bg c)
    as (bg & ts1 & -> & Hr1 & ->).
  { destruct o; [destruct Hr as (ts' & -> & Hr'); by exists true, ts'|by exists false, ts]. }
  cbv zeta. wp_step. eapply wp_mono; [exact (next_punct_sound _ _ _ Hr1)|]. intros [[t|]|e] s2 Hr2; [| |done].
  - destruct Hr2 as (ts2 & -> & Hr2). eapply wp_mono; [apply (Hline _ _ _ Hr2); len|]. intros [cmds'|e] s3; [|done].
    intros (us' & rest & cs & -> & Hrest & Hcs & ->). exists (us ++ amp bg ++ Pun Punct.Semicolon :: us'), rest, (in_background bg c :: cs).
    split; [by rewrite stream_app stream_cons|]. split; [done|]. split; [by constructor|]. by rewrite -app_assoc.
  - wp_steps. exists (us ++ amp bg), ts1, [in_background bg c]. rewrite stream_app. split; [done|]. split; [done|]. split; [by constructor|done].
Qed.

Lemma parser_sound n : line_sound n (parse_line n) ∧ pipe_sound n (parse_pipe n).
Proof.
  induction (lt_wf n) as [n _ IH]. split.
  - destruct n as [|n]; [intros ????; lia|]. destruct (IH n) as [Hline Hpipe]; [lia|]. intros cmds s ts Hrem Hn. simpl. wp_step.
    eapply wp_mono; [apply (Hpipe _ _ Hrem); lia|]. intros [[c|]|e] s1; [| |done].
    + intros (us & rest & -> & Hrest & Hc & _). apply (line_step_sound n cmds s1 rest us c Hline Hrest Hc). lia.
    + intros (us & rest & -> & Hrest & Hc). wp_steps. exists us, rest, []. rewrite app_nil_r. by repeat constructor.
  - destruct n as [|[|n]]; [intros ???; lia..|]. apply parse_pipe_sound; apply IH; lia.
Qed.

(** ** Completeness *)

Definition line_complete (n : nat) (m : list Command → M PeekTokenizer (result ParseError (list Command))) : Prop :=
  ∀ us cs rest cmds s, line us cs → end_line rest → remaining s ((Ok <$> us) ++ rest) → (3 * length us + 5 ≤ n)%nat →
    wp (m cmds) (λ r s', r = Ok (cmds ++ cs) ∧ remaining s' rest) s.
Definition pipe_complete (n : nat) (m : M PeekTokenizer (result ParseError (option Command))) : Prop :=
  ∀ us o rest s, (match o with Some c => cmd us c ∧ end_cmd rest | None => nothing us ∧ end_line rest end) →
    remaining s ((Ok <$> us) ++ rest) → (3 * length us + 4 ≤ n)%nat →
    wp m (λ r s', r = Ok o ∧ remaining s' rest) s.

Lemma follows_weaken l l' ts : l ⊆ l' → follows l ts → follows l' ts.
Proof. intros Hl. destruct ts as [|[[|p]|] ts]; [done..| |done]. apply Hl. Qed.
Lemma next_punct_skip p l s ts :
  remaining s ts → follows l ts → p ∉ l → wp (next_punct p) (λ r s', r = Ok None ∧ remaining s' ts) s.
Proof.
  intros Hrem Hl Hp. read. destruct ts as [|[[w|q]|e] ts]; simpl in *; [done..| |done]. case_bool_decide as Hq; [|done]. by subst.
Qed.
Lemma next_punct_take p s ts : remaining s (Ok (Pun p) :: ts) → wp (next_punct p) (λ r s', r = Ok (Some (Pun p)) ∧ remaining s' ts) s.
Proof. intros Hrem. read. by rewrite bool_decide_eq_true_2 in Hr |- *. Qed.

Lemma parse_operator_skip p b m c l s ts :
  remaining s ts → follows l ts → p ∉ l → wp (parse_operator p b m c) (λ r s', r = Ok (Some c) ∧ remaining s' ts) s.
Proof.
  intros Hrem Hl Hp. rw /parse_operator. wp_step. eapply wp_mono; [exact (next_punct_skip _ _ _ _ Hrem Hl Hp)|]. by intros r s' [-> Hr].
Qed.
Lemma parse_operator_take n op m c us o rest s :
  pipe_complete n m → (match o with Some c' => cmd us c' ∧ end_cmd rest | None => nothing us ∧ end_line rest end) →
  remaining s (Ok (Pun (op_punct op)) :: (Ok <$> us) ++ rest) → (3 * length us + 4 ≤ n)%nat →
  wp (parse_operator (op_punct op) (op_build op) m c) (λ r s', r = Ok ((λ c', command_new (op_build op c c')) <$> o) ∧ remaining s' rest) s.
Proof.
  intros Hpipe Ho Hrem Hn. rw /parse_operator. wp_step. eapply wp_mono; [exact (next_punct_take _ _ _ Hrem)|]. intros r s' [-> Hr]. rw /try_opt. wp_step.
  eapply wp_mono; [exact (Hpipe _ _ _ _ Ho Hr Hn)|]. intros r s2 [-> Hr2]. by destruct o; wp_steps.
Qed.

Lemma parse_simple_complete n es rest s :
  stop rest → remaining s ((Ok <$> flat_map element_tokens es) ++ rest) → (length es < n)%nat →
  wp (parse_simple n) (λ r s', r = Ok (match words es with [] => None | _ => Some (command_new (Exec (words es) (redirects redirect_new es))) end) ∧
    remaining s' rest) s.
Proof.
  intros Hstop Hrem Hn. destruct (leading_redirs es) as (rs & es' & -> & Hw & Hes). rewrite flat_map_app stream_app in Hrem.
  rewrite length_app in Hn. rw /parse_simple. wp_step.
  eapply wp_mono; [apply (parse_redirs_complete n redirect_new s rs ((Ok <$> flat_map element_tokens es') ++ rest) Hw); [|exact Hrem|lia]|].
  { destruct Hes as [->|(w' & es'' & ->)]; [by apply stop_no_redir|done]. }
  intros r s1 [-> Hr]. wp_step. eapply wp_mono; [apply (parse_args_complete n [] _ s1 es' rest Hes Hstop Hr); lia|].
  intros r s2 [-> Hr2]. simpl. rewrite words_app Hw -redirects_app /=. by destruct (words es'); wp_steps.
Qed.
Lemma parse_exec_elements n (m : list Command → M PeekTokenizer (result ParseError (list Command))) es rest s :
  stop rest → remaining s ((Ok <$> flat_map element_tokens es) ++ rest) → (length es < n)%nat →
  wp (parse_exec n (m [])) (λ r s', r = Ok (match words es with [] => None | _ => Some (command_new (Exec (words es) (redirects redirect_new es))) end) ∧
    remaining s' rest) s.
Proof.
  intros Hstop Hrem Hn. rw /parse_exec. wp_step.
  eapply (wp_mono _ (λ r s', r = Ok None ∧ remaining s' ((Ok <$> flat_map element_tokens es) ++ rest))).
  - destruct es as [|[w|m' file] es].
    + apply (next_punct_skip _ _ _ _ Hrem Hstop). rewrite /EXEC_TERMINATOR. set_solver.
    + by read.
    + destruct m' as [|[]]; by read.
  - intros r s1 [-> Hr]. by apply parse_simple_complete.
Qed.
Lemma parse_exec_complete n m us c rest s :
  line_complete n m → atom us c → stop rest → remaining s ((Ok <$> us) ++ rest) → (3 * length us + 2 ≤ n)%nat →
  wp (parse_exec n (m [])) (λ r s', r = Ok (Some c) ∧ remaining s' rest) s.
Proof.
  intros Hline Hatom Hstop Hrem Hn. inversion Hatom as [es Hw|ts cs rs Hl Hw]; subst.
  - pose proof (flat_map_length_le es). eapply wp_mono; [apply (parse_exec_elements n m es rest s Hstop Hrem); lia|].
    intros r s' [-> Hr]. by destruct (words es).
  - rw /parse_exec. rewrite /= stream_cons in Hrem. wp_step. eapply wp_mono; [exact (next_punct_take _ _ _ Hrem)|].
    pose proof (flat_map_length_le rs). simpl in Hn. rewrite length_app /= in Hn.
    intros r s1 [-> Hr]. rw /parse_subshell. wp_step. eapply wp_mono; [refine (Hline ts cs _ [] s1 Hl _ Hr _); [set_solver|lia]|].
    intros r s2 [-> Hr2]. wp_step. eapply wp_mono; [exact (next_punct_take _ _ _ Hr2)|]. intros r s3 [-> Hr3]. wp_step.
    eapply wp_mono; [refine (parse_redirs_complete _ _ _ _ rest Hw _ Hr3 _); [by apply stop_no_redir|lia]|].
    intros r s4 [-> Hr4]. by wp_steps.
Qed.

(** The operators after a simple command or a subshell. *)
Definition parse_operators (rest : M PeekTokenizer (result ParseError (option Command))) (c : Command) : M PeekTokenizer (result ParseError (option Command)) :=
  try_opt (parse_operator Punct.Pipe Pipe rest c) (λ c,
  try_opt (parse_operator Punct.AndAnd LogicalAnd rest c) (λ c,
  parse_operator Punct.OrOr LogicalOr rest c)).

Ltac skip_op l :=
  match goal with
  | H : remaining ?s ?ts |- wp (try_opt _ _) _ ?s =>
      apply wp_try_bind; eapply wp_mono; [apply (parse_operator_skip _ _ _ _ l _ _ H); [|set_solver]|intros ? ? [-> ?]]; clear H
  end.
Lemma parse_operators_skip m c s ts :
  remaining s ts → end_cmd ts → wp (parse_operators m c) (λ r s', r = Ok (Some c) ∧ remaining s' ts) s.
Proof.
  intros Hrem He. rw /parse_operators. do 2 (skip_op [Punct.And; Punct.Semicolon; Punct.RParen]; [done|]).
  by apply (parse_operator_skip _ _ _ _ [Punct.And; Punct.Semicolon; Punct.RParen]); [..|set_solver].
Qed.
Lemma parse_operators_take n op m c us o rest s :
  pipe_complete n m → (match o with Some c' => cmd us c' ∧ end_cmd rest | None => nothing us ∧ end_line rest end) →
  remaining s (Ok (Pun (op_punct op)) :: (Ok <$> us) ++ rest) → (3 * length us + 4 ≤ n)%nat →
  wp (parse_operators m c) (λ r s', r = Ok ((λ c', command_new (op_build op c c')) <$> o) ∧ remaining s' rest) s.
Proof.
  intros Hpipe Ho Hrem Hn. rw /parse_operators. destruct op.
  - apply wp_try_bind. eapply wp_mono; [exact (parse_operator_take n OpPipe m c us o rest s Hpipe Ho Hrem Hn)|].
    intros r s1 [-> Hr]. destruct o as [c'|]; simpl; [|by wp_steps]. destruct Ho as [_ He].
    skip_op [Punct.And; Punct.Semicolon; Punct.RParen]; [done|].
    by apply (parse_operator_skip _ _ _ _ [Punct.And; Punct.Semicolon; Punct.RParen]); [..|set_solver].
  - skip_op [Punct.AndAnd]; [set_solver|]. apply wp_try_bind.
    eapply wp_mono; [refine (parse_operator_take n OpAnd m c us o rest _ Hpipe Ho _ Hn); eassumption|].
    intros r s1 [-> Hr]. destruct o as [c'|]; simpl; [|by wp_steps]. destruct Ho as [_ He].
    by apply (parse_operator_skip _ _ _ _ [Punct.And; Punct.Semicolon; Punct.RParen]); [..|set_solver].
  - do 2 (skip_op [Punct.OrOr]; [set_solver|]). by eapply (parse_operator_take n OpOr m c us o rest _ Hpipe Ho).
Qed.

Lemma parse_pipe_op n m op us l us' o rest s :
  line_complete n m → pipe_complete (S n) (parse_pipe (S n)) → atom us l →
  (match o with Some c' => cmd us' c' ∧ end_cmd rest | None => nothing us' ∧ end_line rest end) →
  remaining s ((Ok <$> (us ++ Pun (op_punct op) :: us')) ++ rest) → (3 * length (us ++ Pun (op_punct op) :: us') + 4 ≤ S (S n))%nat →
  wp (try_opt (parse_exec n (m [])) (parse_operators (parse_pipe (S n))))
    (λ r s', r = Ok ((λ c', command_new (op_build op l c')) <$> o) ∧ remaining s' rest) s.
Proof.
  intros Hline Hpipe Hl Ho Hrem Hn. rewrite stream_cons in Hrem. rewrite length_app /= in Hn. pose proof (atom_length _ _ Hl).
  rw /try_opt. wp_step. eapply wp_mono; [refine (parse_exec_complete n m us l _ s Hline Hl _ Hrem _); [destruct op; simpl; set_solver|lia]|].
  intros r s1 [-> Hr]. refine (parse_operators_take _ op _ l us' o rest s1 Hpipe Ho Hr _). lia.
Qed.
Lemma parse_pipe_complete n m :
  line_complete n m → pipe_complete (S n) (parse_pipe (S n)) →
  pipe_complete (S (S n)) (try_opt (parse_exec n (m [])) (parse_operators (parse_pipe (S n)))).
Proof.
  intros Hline Hpipe us [c|] rest s [Hc He] Hrem Hn.
  - inversion Hc as [ts c' Hatom|op ts l ts' r Hatom Hc']; subst.
    + rw /try_opt. wp_step. eapply wp_mono; [refine (parse_exec_complete n m us c rest s Hline Hatom _ Hrem _)|].
      { refine (follows_weaken _ _ _ _ He). rewrite /EXEC_TERMINATOR. set_solver. }
      { lia. }
      intros r s1 [-> Hr]. by apply parse_operators_skip.
    + by refine (parse_pipe_op n m op ts l ts' (Some r) rest s Hline Hpipe Hatom _ Hrem Hn).
  - inversion Hc as [es Hw|op ts l ts' Hatom Hc']; subst.
    + rw /try_opt. wp_step. pose proof (flat_map_length_le es).
      eapply wp_mono; [refine (parse_exec_elements n m es rest s _ Hrem _)|].
      { refine (follows_weaken _ _ _ _ He). rewrite /EXEC_TERMINATOR. set_solver. }
      { lia. }
      intros r s1 [-> Hr]. rewrite Hw. by wp_steps.
    + by refine (parse_pipe_op n m op ts l ts' None rest s Hline Hpipe Hatom _ Hrem Hn).
Qed.

Lemma next_amp bg c s ts :
  remaining s ((Ok <$> amp bg) ++ ts) → follows [Punct.Semicolon; Punct.RParen] ts →
  wp (next_punct Punct.And) (λ r s', ∃ o, r = Ok o ∧ (if o is Some _ then set_background c else c) = in_background bg c ∧ remaining s' ts) s.
Proof.
  intros Hrem He. destruct bg.
  - eapply wp_mono; [exact (next_punct_take _ _ _ Hrem)|]. intros r s' [-> Hr]. eauto.
  - eapply wp_mono; [refine (next_punct_skip _ _ _ _ Hrem He _); set_solver|]. intros r s' [-> Hr]. eauto.
Qed.
Lemma follows_amp bg ts : follows [Punct.Semicolon; Punct.RParen] ts → end_cmd ((Ok <$> amp bg) ++ ts).
Proof. destruct bg; [set_solver|]. apply follows_weaken. set_solver. Qed.

Lemma parser_complete n : line_complete n (parse_line n) ∧ pipe_complete n (parse_pipe n).
Proof.
  induction (lt_wf n) as [n _ IH]. split.
  - destruct n as [|n]; [intros ?????????; lia|]. destruct (IH n) as [Hline Hpipe]; [lia|]. intros us cs rest cmds s Hl He Hrem Hn. simpl. wp_step.
    inversion Hl as [ts Hno|ts c bg Hc|ts c bg ts' cs' Hc Hl']; subst.
    + eapply wp_mono; [refine (Hpipe us None rest s _ Hrem _); [done|lia]|]. intros r s1 [-> Hr]. wp_steps. by rewrite app_nil_r.
    + rewrite stream_app in Hrem. rewrite length_app in Hn.
      assert (follows [Punct.Semicolon; Punct.RParen] rest) as He' by (apply (follows_weaken [Punct.RParen]); [set_solver|done]).
      eapply wp_mono; [refine (Hpipe ts (Some c) _ s _ Hrem _); [split; [done|by apply follows_amp]|lia]|].
      intros r s1 [-> Hr]. wp_step. eapply wp_mono; [exact (next_amp bg c s1 rest Hr He')|]. intros r s2 (o & -> & -> & Hr2). cbv zeta. wp_step.
      eapply wp_mono; [refine (next_punct_skip _ _ _ _ Hr2 He _); set_solver|]. intros r s3 [-> Hr3]. by wp_steps.
    + rewrite app_assoc stream_cons stream_app in Hrem. rewrite !length_app /= in Hn.
      eapply wp_mono; [refine (Hpipe ts (Some c) _ s _ Hrem _); [split; [done|by apply follows_amp; set_solver]|lia]|].
      intros r s1 [-> Hr]. wp_step. eapply wp_mono; [refine (next_amp bg c s1 _ Hr _); set_solver|]. intros r s2 (o & -> & -> & Hr2). cbv zeta. wp_step.
      eapply wp_mono; [exact (next_punct_take _ _ _ Hr2)|]. intros r s3 [-> Hr3].
      eapply wp_mono; [refine (Hline ts' cs' rest _ s3 Hl' He Hr3 _); lia|]. intros r s4 [-> Hr4]. by rewrite -app_assoc.
  - destruct n as [|[|n]]; [intros ???????; lia..|]. apply parse_pipe_complete; apply IH; lia.
Qed.
