(* ===== verification/ShClaims.v ===== *)
(** * Properties of the shell's parser

    The parser terminates on every line, decides the grammar of [ShGrammar], and reads back every tree that it can
    produce. *)

From stdpp Require Import base list ssreflect.
From S2P Require Import Prelude.
From S2P Require Import ShToken ShParser ShGrammar.

Lemma parser_parse_wp n s ts :
  remaining s ts → (3 * length ts + 5 ≤ n)%nat →
  wp (parser_parse n) (λ r _, match r with Ok cs => ∃ us, ts = Ok <$> us ∧ line us cs | Err _ => True end) s.
Proof.
  intros Hrem Hn. rw /parser_parse. wp_step. eapply wp_mono; [exact (proj1 (parser_sound n) [] s ts Hrem Hn)|]. intros [cs|e] s1; [|done].
  intros (us & rest & cs' & -> & Hr & Hl & ->). wp_step. read. destruct rest as [|[t|e] rest]; simpl in *; [|done..].
  exists us. by rewrite app_nil_r.
Qed.
Lemma parser_parse_complete n s us cs :
  remaining s (Ok <$> us) → line us cs → (3 * length us + 5 ≤ n)%nat → wp (parser_parse n) (λ r _, r = Ok cs) s.
Proof.
  intros Hrem Hl Hn. rw /parser_parse. wp_step. rewrite -(app_nil_r (Ok <$> us)) in Hrem.
  eapply wp_mono; [exact (proj1 (parser_complete n) us cs [] [] s Hl I Hrem Hn)|]. intros r s1 [-> Hr]. wp_step. by read.
Qed.

Lemma tokens_of_length n cs : (length cs < n)%nat → (length (tokens_of n cs) ≤ length cs)%nat.
Proof.
  revert cs. induction n as [|n IH]; intros cs Hn; [lia|]. simpl.
  destruct (wp_run _ _ _ (tokenizer_next_wp cs)) as ([[t|e]|] & cs' & -> & H); simpl; [|destruct H as [-> H]|lia];
    (etrans; [apply le_n_S, IH|]); simpl; lia.
Qed.
Lemma tokens_length cs : (length (tokens cs) ≤ length cs)%nat.
Proof. apply tokens_of_length. lia. Qed.

(** The parser terminates: on every line, a recursion of depth [parse_fuel], three times the length of the line and
    five more calls, is enough for [parse] to return a list of commands or an error, and so is every greater bound. *)
Theorem parse_terminates input n :
  (parse_fuel input ≤ n)%nat → ∃ r s, parser_parse n (peek_new input) = Ret r s.
Proof.
  intros Hn. pose proof (tokens_length input). rewrite /parse_fuel in Hn.
  destruct (wp_run _ _ _ (parser_parse_wp n _ _ (remaining_new input) ltac:(lia))) as (r & s & E & _). eauto.
Qed.
Lemma parse_terminates_witness :
  ∃ r s, parser_parse (parse_fuel [Byte.x28; Byte.x61; Byte.x29]) (peek_new [Byte.x28; Byte.x61; Byte.x29]) = Ret r s.
Proof. apply (parse_terminates [Byte.x28; Byte.x61; Byte.x29] (parse_fuel [Byte.x28; Byte.x61; Byte.x29])). lia. Defined.

(** C9: The parser decides the grammar: it returns a list of commands exactly when the tokenizer splits the line into
    tokens without an error and the grammar derives the list from them. *)
Theorem parse_correct input cs :
  (∃ s, parse input = Ret (Ok cs) s) ↔ ∃ us, tokens input = Ok <$> us ∧ line us cs.
Proof.
  pose proof (tokens_length input) as Hlen. split.
  - intros [s E]. exact (wp_ret_inv _ _ _ _ _ (parser_parse_wp (parse_fuel input) _ _ (remaining_new input) ltac:(rewrite /parse_fuel; lia)) E).
  - intros (us & Hus & Hl). pose proof (remaining_new input) as Hrem. rewrite Hus in Hrem, Hlen. rewrite length_fmap in Hlen.
    destruct (wp_run _ _ _ (parser_parse_complete (parse_fuel input) _ us cs Hrem Hl ltac:(rewrite /parse_fuel; lia))) as (r & s & E & ->).
    by exists s.
Qed.

(** ** Printing *)

Definition print_redirect (r : Redirect) : list Element :=
  match stdin r with Some f => [Redirection Stdin f] | None => [] end ++
  match stdout r with Some (f, mode) => [Redirection (Stdout mode) f] | None => [] end.
Definition separate (l : list (list Token)) : list Token :=
  match l with
  | [] => []
  | ts :: l => ts ++ flat_map (λ ts, Pun Punct.Semicolon :: ts) l
  end.
(** The tokens of a tree. *)
Fixpoint print_command (c : Command) : list Token :=
  match c with mk_command kind bg => print_kind kind ++ amp bg end
with print_kind (k : CommandKind) : list Token :=
  match k with
  | Subshell cs r => Pun Punct.LParen :: separate (map print_command cs) ++ Pun Punct.RParen :: flat_map element_tokens (print_redirect r)
  | Exec argv r => flat_map element_tokens (map Word argv ++ print_redirect r)
  | Pipe l r => print_command l ++ Pun Punct.Pipe :: print_command r
  | LogicalAnd l r => print_command l ++ Pun Punct.AndAnd :: print_command r
  | LogicalOr l r => print_command l ++ Pun Punct.OrOr :: print_command r
  end.
(** The line that is printed for a list of commands: every word is quoted. *)
Definition print_line (cs : list Command) : Chars := flat_map render (separate (map print_command cs)).

(** The trees the parser produces: a simple command has a word, only a whole command runs in the background, and the
    left operand of an operator is a simple command or a subshell. *)
Definition is_atom (c : Command) : bool :=
  match c with
  | mk_command (Subshell _ _) false | mk_command (Exec _ _) false => true
  | _ => false
  end.
Definition foreground (c : Command) : bool := match c with mk_command _ bg => negb bg end.
Fixpoint wf_command (c : Command) : bool :=
  match c with mk_command kind _ => wf_kind kind end
with wf_kind (k : CommandKind) : bool :=
  match k with
  | Subshell cs _ => forallb wf_command cs
  | Exec argv _ => negb (bool_decide (argv = []))
  | Pipe l r | LogicalAnd l r | LogicalOr l r => is_atom l && wf_command l && foreground r && wf_command r
  end.
Definition wf_line (cs : list Command) : bool := forallb wf_command cs.

Lemma print_redirect_words r : words (print_redirect r) = [].
Proof. by destruct r as [[] [[]|]]. Qed.
Lemma print_redirect_value r : redirects redirect_new (print_redirect r) = r.
Proof. by destruct r as [[] [[]|]]. Qed.
Lemma print_words argv r : words (map Word argv ++ print_redirect r) = argv.
Proof. rewrite words_app print_redirect_words app_nil_r. induction argv as [|w argv IH]; [done|]. simpl. f_equal. exact IH. Qed.
Lemma print_value argv r : redirects redirect_new (map Word argv ++ print_redirect r) = r.
Proof. rewrite redirects_app. induction argv as [|w argv IH]; [apply print_redirect_value|exact IH]. Qed.

Lemma line_separate cs :
  Forall (λ '(mk_command k bg), cmd (print_kind k) (command_new k)) cs → line (separate (map print_command cs)) cs.
Proof.
  induction cs as [|[k bg] cs IH]; intros Hcs; [apply line_dropped, (nothing_redirs [] eq_refl)|].
  apply Forall_cons in Hcs as [Hk Hcs]. assert (mk_command k bg = in_background bg (command_new k)) as -> by by destruct bg.
  assert (print_command (in_background bg (command_new k)) = print_kind k ++ amp bg) as E by by destruct bg; rewrite /= ?app_nil_r.
  destruct cs as [|c' cs]; simpl map; rewrite E /=.
  - rewrite app_nil_r. by apply line_last.
  - rewrite -app_assoc. by apply (line_cons _ _ bg _ (c' :: cs)); [|apply IH].
Qed.

Definition kind_derives (k : CommandKind) : Prop :=
  if is_atom (command_new k) then atom (print_kind k) (command_new k) else cmd (print_kind k) (command_new k).
Lemma kind_derives_cmd k : kind_derives k → cmd (print_kind k) (command_new k).
Proof. rewrite /kind_derives. case_match; [by constructor|done]. Qed.
Lemma op_derives op l r :
  is_atom l = true → foreground r = true → (let '(mk_command k _) := l in kind_derives k) → (let '(mk_command k _) := r in kind_derives k) →
  cmd (print_command l ++ Pun (op_punct op) :: print_command r) (command_new (op_build op l r)).
Proof.
  destruct l as [kl [|]], r as [kr [|]]; try done; [by destruct kl|]. intros Hl _ Hkl Hkr.
  rewrite /= !app_nil_r. apply cmd_op; [|by apply kind_derives_cmd]. rewrite /kind_derives in Hkl.
  change (is_atom (command_new kl)) with (is_atom (mk_command kl false)) in Hkl. by rewrite Hl in Hkl.
Qed.

Lemma op_derives_wf op l r :
  is_atom l && wf_command l && foreground r && wf_command r = true →
  (wf_command l = true → let '(mk_command k _) := l in kind_derives k) → (wf_command r = true → let '(mk_command k _) := r in kind_derives k) →
  kind_derives (op_build op l r).
Proof.
  rewrite !andb_true_iff. intros [[[Hl Hwl] Hr] Hwr] Hkl Hkr. pose proof (op_derives op l r Hl Hr (Hkl Hwl) (Hkr Hwr)) as H. by destruct op.
Qed.
Lemma print_derives : ∀ c : Command, wf_command c = true → let '(mk_command k _) := c in kind_derives k.
Proof.
  fix IH 1. intros [[cs r|argv r|l r|l r|l r] bg] Hwf; simpl in Hwf.
  - pose proof (atom_subshell (separate (map print_command cs)) cs (print_redirect r)) as H. rewrite print_redirect_value in H.
    apply H; [|apply print_redirect_words]. apply line_separate. clear bg r H. revert Hwf.
    induction cs as [|c cs IHcs]; [done|]. simpl. intros [Hc Hcs]%andb_true_iff. constructor; [|by apply IHcs].
    specialize (IH c Hc). destruct c. by apply kind_derives_cmd.
  - pose proof (atom_exec (map Word argv ++ print_redirect r)) as H. rewrite print_words print_value in H. apply H.
    by rewrite negb_true_iff bool_decide_eq_false in Hwf.
  - exact (op_derives_wf OpPipe l r Hwf (IH l) (IH r)).
  - exact (op_derives_wf OpAnd l r Hwf (IH l) (IH r)).
  - exact (op_derives_wf OpOr l r Hwf (IH l) (IH r)).
Qed.
Lemma print_line_derives cs : wf_line cs = true → line (separate (map print_command cs)) cs.
Proof.
  intros H. apply line_separate. induction cs as [|c cs IH]; [done|]. simpl in H. apply andb_true_iff in H as [Hc Hcs].
  constructor; [|by apply IH]. pose proof (print_derives c Hc) as Hk. destruct c. by apply kind_derives_cmd.
Qed.

Scheme line_mind := Induction for line Sort Prop
  with cmd_mind := Induction for cmd Sort Prop
  with atom_mind := Induction for atom Sort Prop
  with nothing_mind := Induction for nothing Sort Prop.
Lemma wf_background bg c : wf_command (in_background bg c) = wf_command c.
Proof. by destruct bg, c. Qed.
(** The trees of the grammar are those the printer is for. *)
Lemma line_wf us cs : line us cs → wf_line cs = true.
Proof.
  apply (line_mind (λ _ cs _, wf_line cs = true) (λ _ c _, wf_command c = true ∧ foreground c = true)
    (λ _ c _, wf_command c = true ∧ is_atom c = true) (λ _ _, True)); intros; simpl; try done.
  - rewrite wf_background. by destruct H as [-> _].
  - rewrite wf_background. destruct H as [-> _]. done.
  - destruct c as [[] []]; naive_solver.
  - destruct H as [Hl Ha], H0 as [Hr Hf]. split; [|done]. destruct op; by rewrite /= Ha Hl Hf Hr.
  - split; [|done]. by rewrite bool_decide_eq_false_2.
Qed.

(** C40: The parser and the printer fit: for exactly the well-formed lists of commands, parsing the line that is printed
    for the list gives the list back, whatever bytes their words consist of. *)
Theorem parse_print cs : wf_line cs = true ↔ ∃ s, parse (print_line cs) = Ret (Ok cs) s.
Proof.
  pose proof (tokens_render (separate (map print_command cs))) as Ht. pose proof (tokens_length (print_line cs)) as Hlen.
  rewrite /print_line Ht length_fmap in Hlen. pose proof (remaining_new (print_line cs)) as Hrem. rewrite /print_line Ht in Hrem. split.
  - intros Hwf. destruct (wp_run _ _ _ (parser_parse_complete (parse_fuel (print_line cs)) _ _ cs Hrem (print_line_derives cs Hwf)
      ltac:(rewrite /parse_fuel /print_line; lia))) as (r & s & E & ->). by exists s.
  - intros [s E]. pose proof (wp_ret_inv _ _ _ _ _ (parser_parse_wp (parse_fuel (print_line cs)) _ _ Hrem ltac:(rewrite length_fmap /parse_fuel /print_line; lia)) E)
      as (us & _ & Hl). exact (line_wf us cs Hl).
Qed.

Lemma cmd_then_nothing us c op : cmd us c → nothing (us ++ [Pun (op_punct op)]).
Proof.
  intros H. induction H as [us c Ha|op' us l us' r Ha Hr IH].
  - exact (nothing_op op us c [] Ha (nothing_redirs [] eq_refl)).
  - rewrite -app_assoc. exact (nothing_op op' us l _ Ha IH).
Qed.

(** An operator at the end of the line is not reported: the command before it is dropped with the operator, the line
    counts as parsed, and nothing of the command runs. *)
Theorem trailing_operator_drops_command input us c op :
  cmd us c → tokens input = Ok <$> (us ++ [Pun (op_punct op)]) → ∃ s, parse input = Ret (Ok []) s.
Proof.
  intros Hc Ht. pose proof (remaining_new input) as Hrem. pose proof (tokens_length input) as Hlen. rewrite Ht in Hrem, Hlen.
  rewrite length_fmap in Hlen.
  destruct (wp_run _ _ _ (parser_parse_complete (parse_fuel input) _ _ [] Hrem (line_dropped _ (cmd_then_nothing us c op Hc))
    ltac:(rewrite /parse_fuel; lia))) as (r & s & E & ->). by exists s.
Qed.
(** ["rm f &&"] *)
Lemma trailing_operator_drops_command_witness :
  ∃ s, parse [Byte.x72; Byte.x6d; Byte.x20; Byte.x66; Byte.x20; Byte.x26; Byte.x26] = Ret (Ok []) s.
Proof.
  apply (trailing_operator_drops_command _ [Str [Byte.x72; Byte.x6d]; Str [Byte.x66]]
    (command_new (Exec [[Byte.x72; Byte.x6d]; [Byte.x66]] redirect_new)) OpAnd); [|by vm_compute].
  apply cmd_atom. by apply (atom_exec [Word [Byte.x72; Byte.x6d]; Word [Byte.x66]]).
Defined.
