(* ===== verification/Slots.v ===== *)
(** * Rings of slots

    Rings whose positions are slot numbers below their size, as devices use them: the slots from one position up to another,
    and how they change when one of the positions moves. *)

From stdpp Require Import base list ssreflect.
From S2P Require Import Prelude.

Definition dist (n a b : Z) : Z := (b - a) mod n.
(** The contents of the slots from [a] up to [b]. *)
Definition slots {A} (n : Z) (f : Z → A) (a b : Z) : list A := (λ k, f ((a + k) mod n)) <$> seqZ 0 (dist n a b).

Section slots.
Context (n : Z) (Hn : 1 < n).

Lemma dist_range a b : 0 ≤ dist n a b < n.
Proof. apply Z.mod_pos_bound. lia. Qed.
Lemma dist_refl a : dist n a a = 0.
Proof. by rewrite /dist Z.sub_diag. Qed.
Lemma dist_zero a b : 0 ≤ a < n → 0 ≤ b < n → dist n a b = 0 → a = b.
Proof.
  intros Ha Hb H. rewrite /dist in H. apply Z.mod_divide in H as [m Hm]; [|lia]. assert (m = 0) by nia. lia.
Qed.
Lemma dist_mod a b m : dist n a ((b + m) mod n) = (dist n a b + m) mod n.
Proof. rewrite /dist Zminus_mod_idemp_l Zplus_mod_idemp_l. f_equal. lia. Qed.
Lemma dist_succ_r a b : dist n a b < n - 1 → dist n a ((b + 1) mod n) = dist n a b + 1.
Proof. intros H. pose proof (dist_range a b). rewrite dist_mod Z.mod_small; lia. Qed.
Lemma dist_succ_l a b : 0 < dist n a b → dist n ((a + 1) mod n) b = dist n a b - 1.
Proof.
  intros H. pose proof (dist_range a b). rewrite /dist Zminus_mod_idemp_r. replace (b - (a + 1)) with (b - a - 1) by lia.
  rewrite -Zminus_mod_idemp_l. apply Z.mod_small. rewrite /dist in H H0. lia.
Qed.
Lemma slot_at a b : 0 ≤ b < n → (a + dist n a b) mod n = b.
Proof. intros Hb. rewrite /dist Zplus_mod_idemp_r. replace (a + (b - a)) with b by lia. by apply Z.mod_small. Qed.
Lemma dist_slot a k : 0 ≤ k < n → dist n a ((a + k) mod n) = k.
Proof. intros Hk. rewrite dist_mod dist_refl. by apply Z.mod_small. Qed.
Lemma slot_inj a i j : 0 ≤ i < n → 0 ≤ j < n → (a + i) mod n = (a + j) mod n → i = j.
Proof. intros Hi Hj H. by rewrite -(dist_slot a i) // -(dist_slot a j) // H. Qed.

Context {A : Type}.
Implicit Types f g : Z → A.
Lemma slots_length f a b : length (slots n f a b) = Z.to_nat (dist n a b).
Proof. by rewrite /slots length_fmap length_seqZ. Qed.
Lemma slots_ext f g a b : (∀ k, 0 ≤ k < dist n a b → f ((a + k) mod n) = g ((a + k) mod n)) → slots n f a b = slots n g a b.
Proof. intros H. apply list_fmap_ext. intros i k Hk%lookup_seqZ. apply H. lia. Qed.
(** The position behind the slots moves on. *)
Lemma slots_push f a b :
  0 ≤ b < n → dist n a b < n - 1 → slots n f a ((b + 1) mod n) = slots n f a b ++ [f b].
Proof.
  intros Hb Hd. pose proof (dist_range a b). rewrite /slots dist_succ_r // seqZ_app; [|lia..]. rewrite fmap_app. f_equal. simpl.
  by rewrite slot_at.
Qed.
Lemma fmap_seqZ_cons (g : Z → A) d : 0 < d → g <$> seqZ 0 d = g 0 :: ((λ k, g (1 + k)) <$> seqZ 0 (d - 1)).
Proof.
  intros Hd. rewrite seqZ_cons //. cbn [fmap list_fmap]. f_equal. pose proof (fmap_add_seqZ 1 0 (d - 1)) as Hs.
  replace (seqZ (Z.succ 0) (Z.pred d)) with (Z.add 1 <$> seqZ 0 (d - 1)) by exact Hs. by rewrite -list_fmap_compose.
Qed.
(** The position before the slots moves on. *)
Lemma slots_pop f a b : 0 ≤ a < n → 0 < dist n a b → slots n f a b = f a :: slots n f ((a + 1) mod n) b.
Proof.
  intros Ha Hd. rewrite /slots dist_succ_l // (fmap_seqZ_cons (λ k, f ((a + k) mod n))) //. apply (f_equal2 cons); [by rewrite Z.add_0_r Z.mod_small|].
  apply list_fmap_ext. intros i k _. rewrite Zplus_mod_idemp_l. do 2 f_equal. lia.
Qed.
End slots.

Section moves.
Context (n : Z) (Hn : 1 < n).

Lemma dist_next a j : 0 ≤ a < n → 0 ≤ j < n → j ≠ a → dist n ((a + 1) mod n) j = dist n a j - 1.
Proof.
  intros Ha Hj Hne. apply dist_succ_l; [done|]. pose proof (dist_range n Hn a j). destruct (decide (dist n a j = 0)) as [H0%dist_zero|]; [congruence|done..|lia].
Qed.
Lemma dist_last a : 0 ≤ a < n → dist n ((a + 1) mod n) a = n - 1.
Proof.
  intros Ha. rewrite /dist Zminus_mod_idemp_r. replace (a - (a + 1)) with (n - 1 + (-1) * n) by lia. rewrite Z_mod_plus_full. apply Z.mod_small. lia.
Qed.
(** The slots behind a slot are other slots. *)
Lemma next_slot_ne a k : 0 ≤ a < n → 0 ≤ k → k < n - 1 → Z.to_nat a ≠ Z.to_nat (((a + 1) mod n + k) mod n).
Proof.
  intros Ha Hk Hkn He. pose proof (Z.mod_pos_bound ((a + 1) mod n + k) n ltac:(lia)) as Hm.
  assert (((a + 1) mod n + k) mod n = a) as Hx by lia. rewrite Zplus_mod_idemp_l -Z.add_assoc in Hx.
  pose proof (dist_slot n a (1 + k) ltac:(lia)) as Hy. rewrite Hx dist_refl in Hy. lia.
Qed.
End moves.
