(* ===== verification/E1000.v ===== *)
(** * The network card

    Model of [crates/kernel/ov6_kernel/src/device/e1000.rs]: the registers of the card, the descriptor rings with their
    buffers, their initialization, sending a packet and the interrupt handler that takes the received packets.  What the
    card does with the rings is a step relation that follows its manual. *)

From stdpp Require Import base gmap list ssreflect.
From S2P Require Import Prelude Slots.

Definition E_PAGE_SIZE : Z := 4096.
Definition TX_RING_SIZE : Z := 16.
Definition RX_RING_SIZE : Z := 16.

(** ** Registers *)

Inductive Register : Type :=
  | Ctl | Icr | Ims | Rctl | Tctl | Tipg | RdbaL | RdbaH | Rdtr | Radv | Rdh | Rdt | Rdlen | Rsprpd
  | TdbaL | TdbaH | Tdlen | Tdh | Tdt | Mta | Ra.
#[export] Instance register_eq_dec : EqDecision Register.
Proof. solve_decision. Defined.
Definition register_offset (r : Register) : Z :=
  match r with
  | Ctl => 0x00000 | Icr => 0x000C0 | Ims => 0x000D0 | Rctl => 0x00100 | Tctl => 0x00400 | Tipg => 0x00410
  | RdbaL => 0x02800 | RdbaH => 0x02804 | Rdtr => 0x02820 | Radv => 0x0282C | Rdh => 0x02810 | Rdt => 0x02818
  | Rdlen => 0x02808 | Rsprpd => 0x02C00 | TdbaL => 0x03800 | TdbaH => 0x03804 | Tdlen => 0x03808 | Tdh => 0x03810
  | Tdt => 0x03818 | Mta => 0x05200 | Ra => 0x05400
  end.

(** The flags the driver uses. *)
Definition CTL_RST : Z := 0x04000000.
Definition TCTL_EN : Z := 0x00000002.
Definition TCTL_PSP : Z := 0x00000008.
Definition TCTL_CT_SHIFT : Z := 4.
Definition TCTL_COLD_SHIFT : Z := 12.
Definition RCTL_EN : Z := 0x00000002.
Definition RCTL_BAM : Z := 0x00008000.
Definition RCTL_SZ_2048 : Z := 0x00000000.
Definition RCTL_SECRC : Z := 0x04000000.
Definition TXD_CMD_EOP : Z := 0x01.
Definition TXD_CMD_RS : Z := 0x08.
Definition TXD_STAT_DD : Z := 0x01.
Definition RXD_STAT_DD : Z := 0x01.
Definition RXD_STAT_EOP : Z := 0x02.
(** [Flags::contains]. *)
Definition contains (flags flag : Z) : bool := Z.land flags flag =? flag.

(** ** The driver *)

Record TxDesc : Type := {
  td_addr : Z;
  td_length : Z;
  td_cso : Z;
  td_cmd : Z;
  td_status : Z;
  td_css : Z;
  td_special : Z;
}.
Record RxDesc : Type := {
  rd_addr : Z;
  rd_length : Z;
  rd_csum : Z;
  rd_status : Z;
  rd_errors : Z;
  rd_special : Z;
}.
(** The registers are those the pointer [registers] points to, by word. *)
Record Driver : Type := {
  registers : gmap Z Z;
  rx_ring : list RxDesc;
  rx_bufs : list (option (list byte));
  tx_ring : list TxDesc;
  tx_bufs : list (list byte);
}.
Definition with_registers (m : gmap Z Z) (d : Driver) : Driver :=
  {| registers := m; rx_ring := rx_ring d; rx_bufs := rx_bufs d; tx_ring := tx_ring d; tx_bufs := tx_bufs d |}.
Definition with_rx (ring : list RxDesc) (bufs : list (option (list byte))) (d : Driver) : Driver :=
  {| registers := registers d; rx_ring := ring; rx_bufs := bufs; tx_ring := tx_ring d; tx_bufs := tx_bufs d |}.
Definition with_tx (ring : list TxDesc) (bufs : list (list byte)) (d : Driver) : Driver :=
  {| registers := registers d; rx_ring := rx_ring d; rx_bufs := rx_bufs d; tx_ring := ring; tx_bufs := bufs |}.
Notation DriverM := (M Driver).

Definition reg (d : Driver) (r : Register) : Z := default 0 (registers d !! (register_offset r / 4)).
Definition set_reg (r : Register) (v : Z) (d : Driver) : Driver := with_registers (<[register_offset r / 4 := v]> (registers d)) d.
Definition read_reg (r : Register) : DriverM Z := gets (λ d, reg d r).
Definition write_reg (r : Register) (v : Z) : DriverM unit := modify (set_reg r v).
Definition set_reg_array (r : Register) (i v : Z) (d : Driver) : Driver :=
  with_registers (<[register_offset r / 4 + i := v]> (registers d)) d.
Definition write_reg_array (r : Register) (i v : Z) : DriverM unit := modify (set_reg_array r i v).
Definition set_reg_flag (r : Register) (flags : Z) : DriverM unit := old ← read_reg r; write_reg r (Z.lor old flags).

(** ** Initialization

    The buffers are pages at the given addresses, the rings are at theirs. *)

Definition rx_desc_zeroed (addr : Z) : RxDesc :=
  {| rd_addr := addr; rd_length := 0; rd_csum := 0; rd_status := 0; rd_errors := 0; rd_special := 0 |}.
Definition tx_desc_done (addr : Z) : TxDesc :=
  {| td_addr := addr; td_length := 0; td_cso := 0; td_cmd := 0; td_status := TXD_STAT_DD; td_css := 0; td_special := 0 |}.
Definition driver_new (rx_addrs tx_addrs : list Z) : Driver :=
  {| registers := ∅;
     rx_ring := rx_desc_zeroed <$> rx_addrs; rx_bufs := (λ _, Some (zeroes (Z.to_nat E_PAGE_SIZE))) <$> rx_addrs;
     tx_ring := tx_desc_done <$> tx_addrs; tx_bufs := (λ _, zeroes (Z.to_nat E_PAGE_SIZE)) <$> tx_addrs |}.
(** The size of a descriptor is 16 bytes. *)
Definition init_tx (tx_ring_addr : Z) : DriverM unit :=
  assert_ (tx_ring_addr mod 16 =? 0);;
  write_reg TdbaL (Z.land tx_ring_addr 0xffffffff);;
  write_reg TdbaH (Z.shiftr tx_ring_addr 32);;
  assert_ (16 * TX_RING_SIZE mod 128 =? 0);;
  write_reg Tdlen (16 * TX_RING_SIZE);;
  write_reg Tdh 0;;
  write_reg Tdt 0.
Definition init_rx (rx_ring_addr : Z) : DriverM unit :=
  assert_ (rx_ring_addr mod 16 =? 0);;
  write_reg RdbaL (Z.land rx_ring_addr 0xffffffff);;
  write_reg RdbaH (Z.shiftr rx_ring_addr 32);;
  assert_ (16 * RX_RING_SIZE mod 128 =? 0);;
  write_reg Rdh 0;;
  write_reg Rdt (RX_RING_SIZE - 1);;
  write_reg Rdlen (16 * RX_RING_SIZE).
Definition e1000_init (tx_ring_addr rx_ring_addr : Z) : DriverM unit :=
  write_reg Ims 0;;
  set_reg_flag Ctl CTL_RST;;
  write_reg Ims 0;;
  init_tx tx_ring_addr;;
  init_rx rx_ring_addr;;
  write_reg_array Ra 0 0x12005452;;
  write_reg_array Ra 1 (Z.lor 0x5634 (Z.shiftl 1 31));;
  for_each (seqZ 0 (4096 / 32)) (λ i, write_reg_array Mta i 0);;
  write_reg Tctl (Z.lor (Z.lor TCTL_EN TCTL_PSP) (Z.lor (Z.shiftl 0x10 TCTL_CT_SHIFT) (Z.shiftl 0x40 TCTL_COLD_SHIFT)));;
  write_reg Tipg (Z.lor (Z.lor 10 (Z.shiftl 8 10)) (Z.shiftl 6 20));;
  write_reg Rctl (Z.lor (Z.lor (Z.lor RCTL_EN RCTL_BAM) RCTL_SZ_2048) RCTL_SECRC);;
  write_reg Rdtr 0;;
  write_reg Radv 0;;
  write_reg Ims (Z.shiftl 1 7).

(** ** Sending

    A [Transmitter] is the index of the descriptor it fills, with the lock of the driver held. *)

Definition set_length (n : Z) (t : TxDesc) : TxDesc :=
  {| td_addr := td_addr t; td_length := n; td_cso := td_cso t; td_cmd := td_cmd t; td_status := td_status t; td_css := td_css t;
     td_special := td_special t |}.
Definition set_cmd (c : Z) (t : TxDesc) : TxDesc :=
  {| td_addr := td_addr t; td_length := td_length t; td_cso := td_cso t; td_cmd := c; td_status := td_status t; td_css := td_css t;
     td_special := td_special t |}.
Definition set_tx_status (s : Z) (t : TxDesc) : TxDesc :=
  {| td_addr := td_addr t; td_length := td_length t; td_cso := td_cso t; td_cmd := td_cmd t; td_status := s; td_css := td_css t;
     td_special := td_special t |}.

Definition transmitter : DriverM (option nat) :=
  tail ← read_reg Tdt;
  let index := Z.to_nat tail in
  d ← get;
  desc ← unwrap (tx_ring d !! index);
  if negb (contains (td_status desc) TXD_STAT_DD) then mret None
  else
    assert_ (bool_decide (index < length (tx_bufs d))%nat);;
    modify (λ d, with_tx (<[index := set_length 0 desc]> (tx_ring d)) (<[index := zeroes (Z.to_nat E_PAGE_SIZE)]> (tx_bufs d)) d);;
    mret (Some index).
(** [Transmitter::buffer], read and written. *)
Definition tx_buffer (index : nat) : DriverM (list byte) := d ← get; unwrap (tx_bufs d !! index).
Definition set_tx_buffer (index : nat) (buf : list byte) : DriverM unit := modify (λ d, with_tx (tx_ring d) (<[index := buf]> (tx_bufs d)) d).
Definition set_len (index : nat) (len : Z) : DriverM unit :=
  len ← unwrap (try_from 16 len);
  modify (λ d, with_tx (alter (set_length len) index (tx_ring d)) (tx_bufs d) d).
Definition tx_send (index : nat) : DriverM unit :=
  d ← get;
  desc ← unwrap (tx_ring d !! index);
  assert_ (0 <? td_length desc);;
  modify (λ d, with_tx (<[index := set_cmd (Z.lor TXD_CMD_RS TXD_CMD_EOP) desc]> (tx_ring d)) (tx_bufs d) d);;
  write_reg Tdt ((Z.of_nat index + 1) mod TX_RING_SIZE).
(** The use of a transmitter: fill the buffer, set the length, send. *)
Definition transmit (packet : list byte) : DriverM bool :=
  t ← transmitter;
  match t with
  | None => mret false
  | Some index =>
      buf ← tx_buffer index;
      assert_ (bool_decide (length packet ≤ length buf)%nat);;
      set_tx_buffer index (packet ++ drop (length packet) buf);;
      set_len index (Z.of_nat (length packet));;
      tx_send index;;
      mret true
  end.

(** ** Receiving

    The two halves of an iteration of [receive], before and after [net::handle_receive], which runs without the lock. *)

Definition clear_status (r : RxDesc) : RxDesc :=
  {| rd_addr := rd_addr r; rd_length := rd_length r; rd_csum := rd_csum r; rd_status := 0; rd_errors := rd_errors r;
     rd_special := rd_special r |}.
Definition receive_take : DriverM (option (nat * list byte)) :=
  tail ← read_reg Rdt;
  let index := Z.to_nat ((tail + 1) mod RX_RING_SIZE) in
  d ← get;
  desc ← unwrap (rx_ring d !! index);
  if negb (contains (rd_status desc) RXD_STAT_DD) then mret None
  else
    buf ← unwrap (rx_bufs d !! index ≫= id);
    modify (λ d, with_rx (rx_ring d) (<[index := None]> (rx_bufs d)) d);;
    assert_ (rd_length desc <=? Z.of_nat (length buf));;
    mret (Some (index, take (Z.to_nat (rd_length desc)) buf)).
Definition receive_put (index : nat) : DriverM unit :=
  modify (λ d, with_rx (alter clear_status index (rx_ring d)) (<[index := Some (zeroes (Z.to_nat E_PAGE_SIZE))]> (rx_bufs d)) d);;
  write_reg Rdt (Z.of_nat index).
(** [handle_interrupt] up to the loop. *)
Definition interrupt_begin : DriverM unit := write_reg Icr (2 ^ 32 - 1).

(** ** The card

    What the manual says of the legacy descriptor rings: the card sends the packets of the descriptors from the head up to
    the tail and reports them as done; it stores received packets into the descriptors from the head up to the tail.  The
    buffer of a descriptor is the one at its index, since the buffers are pinned. *)

Definition card_transmit (d : Driver) : option (list byte * Driver) :=
  let head := reg d Tdh in
  if head =? reg d Tdt then None
  else
    match tx_ring d !! Z.to_nat head, tx_bufs d !! Z.to_nat head with
    | Some desc, Some buf =>
        let status := if contains (td_cmd desc) TXD_CMD_RS then Z.lor (td_status desc) TXD_STAT_DD else td_status desc in
        Some (take (Z.to_nat (td_length desc)) buf,
              set_reg Tdh ((head + 1) mod TX_RING_SIZE) (with_tx (<[Z.to_nat head := set_tx_status status desc]> (tx_ring d)) (tx_bufs d) d))
    | _, _ => None
    end.
Definition fill_desc (len : Z) (r : RxDesc) : RxDesc :=
  {| rd_addr := rd_addr r; rd_length := len; rd_csum := rd_csum r; rd_status := Z.lor (rd_status r) (Z.lor RXD_STAT_DD RXD_STAT_EOP);
     rd_errors := rd_errors r; rd_special := rd_special r |}.
Definition card_receive (packet : list byte) (d : Driver) : option Driver :=
  let head := reg d Rdh in
  if head =? reg d Rdt then None
  else
    match rx_ring d !! Z.to_nat head, rx_bufs d !! Z.to_nat head ≫= id with
    | Some desc, Some buf =>
        Some (set_reg Rdh ((head + 1) mod RX_RING_SIZE)
          (with_rx (<[Z.to_nat head := fill_desc (Z.of_nat (length packet)) desc]> (rx_ring d))
             (<[Z.to_nat head := Some (packet ++ drop (length packet) buf)]> (rx_bufs d)) d))
    | _, _ => None
    end.

(** ** Registers *)

Lemma register_index_inj r r' : register_offset r / 4 = register_offset r' / 4 → r = r'.
Proof. by destruct r, r'. Qed.
Lemma reg_set r v d r' : reg (set_reg r v d) r' = if decide (r' = r) then v else reg d r'.
Proof.
  rewrite /reg /set_reg /=. case_decide as Hr; [subst; by rewrite lookup_insert_eq|].
  rewrite lookup_insert_ne //. intros H%register_index_inj. congruence.
Qed.

(** ** Sending *)

Definition tx_packet (d : Driver) (i : Z) : list byte :=
  match tx_ring d !! Z.to_nat i, tx_bufs d !! Z.to_nat i with
  | Some desc, Some buf => take (Z.to_nat (td_length desc)) buf
  | _, _ => []
  end.
Definition tx_pending (d : Driver) : list (list byte) := slots TX_RING_SIZE (tx_packet d) (reg d Tdh) (reg d Tdt).
Definition tx_ok (d : Driver) : Prop :=
  0 ≤ reg d Tdh < TX_RING_SIZE ∧ 0 ≤ reg d Tdt < TX_RING_SIZE ∧ length (tx_ring d) = Z.to_nat TX_RING_SIZE ∧
  length (tx_bufs d) = Z.to_nat TX_RING_SIZE ∧ Forall (λ t, contains (td_status t) TXD_STAT_DD = true) (tx_ring d) ∧
  Forall (λ b, length b = Z.to_nat E_PAGE_SIZE) (tx_bufs d).
(** What the other half of the driver has to do with. *)
Definition same_rx (d d' : Driver) : Prop :=
  rx_ring d' = rx_ring d ∧ rx_bufs d' = rx_bufs d ∧ reg d' Rdt = reg d Rdt ∧ reg d' Rdh = reg d Rdh.
Definition same_tx (d d' : Driver) : Prop :=
  tx_ring d' = tx_ring d ∧ tx_bufs d' = tx_bufs d ∧ reg d' Tdt = reg d Tdt ∧ reg d' Tdh = reg d Tdh.

Definition packet_ok (packet : list byte) : Prop := 0 < Z.of_nat (length packet) ≤ E_PAGE_SIZE.
Lemma contains_done s f : contains s TXD_STAT_DD = true → contains (Z.lor s f) TXD_STAT_DD = true.
Proof.
  rewrite /contains !Z.eqb_eq. intros H. rewrite Z.land_lor_distr_l H. apply Z.bits_inj'. intros n Hn. rewrite Z.lor_spec Z.land_spec.
  destruct (Z.testbit f n), (Z.testbit TXD_STAT_DD n); done.
Qed.
Lemma alter_insert_same {A} (f : A → A) (i : nat) x (l : list A) : alter f i (<[i := x]> l) = <[i := f x]> l.
Proof. revert i. induction l as [|y l IH]; intros [|i]; [done..|]. simpl. f_equal. apply IH. Qed.
Lemma transmitter_run d :
  tx_ok d → let i := Z.to_nat (reg d Tdt) in
  ∃ desc, tx_ring d !! i = Some desc ∧ (i < length (tx_ring d))%nat ∧ (i < length (tx_bufs d))%nat ∧
    transmitter d = Ret (Some i) (with_tx (<[i := set_length 0 desc]> (tx_ring d)) (<[i := zeroes (Z.to_nat E_PAGE_SIZE)]> (tx_bufs d)) d) ∧
    tx_buffer i (with_tx (<[i := set_length 0 desc]> (tx_ring d)) (<[i := zeroes (Z.to_nat E_PAGE_SIZE)]> (tx_bufs d)) d) =
      Ret (zeroes (Z.to_nat E_PAGE_SIZE)) (with_tx (<[i := set_length 0 desc]> (tx_ring d)) (<[i := zeroes (Z.to_nat E_PAGE_SIZE)]> (tx_bufs d)) d).
Proof.
  intros (Hh & Ht & Hlr & Hlb & Hdd & Hbl) i. rewrite /TX_RING_SIZE in Hh, Ht, Hlr, Hlb.
  destruct (lookup_lt_is_Some_2 (tx_ring d) i ltac:(lia)) as [desc Hdesc]. exists desc. split; [done|]. split; [lia|]. split; [lia|].
  pose proof (Forall_lookup_1 _ _ _ _ Hdd Hdesc) as Hdone. simpl in Hdone. split.
  - rewrite /transmitter /read_reg /mbind /M_bind. cbn -[lookup insert]. fold i. rewrite Hdesc /= Hdone. cbn -[lookup insert zeroes].
    rewrite bool_decide_true; [done|lia].
  - rewrite /tx_buffer /mbind /M_bind. cbn -[lookup insert zeroes]. rewrite list_lookup_insert_eq; [done|lia].
Qed.
Lemma transmit_run d packet :
  tx_ok d → packet_ok packet →
  let i := Z.to_nat (reg d Tdt) in
  ∃ desc, tx_ring d !! i = Some desc ∧
    transmit packet d = Ret true (set_reg Tdt ((reg d Tdt + 1) mod TX_RING_SIZE)
      (with_tx (<[i := set_cmd (Z.lor TXD_CMD_RS TXD_CMD_EOP) (set_length (Z.of_nat (length packet)) desc)]> (tx_ring d))
         (<[i := packet ++ drop (length packet) (zeroes (Z.to_nat E_PAGE_SIZE))]> (tx_bufs d)) d)).
Proof.
  intros Hok [Hp1 Hp2] i. destruct (transmitter_run d Hok) as (desc & Hdesc & Hir & Hib & Htr & Hb). exists desc. split; [done|].
  pose proof Hok as (_ & Ht & _). rewrite /transmit (bind_Ret _ _ _ _ _ Htr) (bind_Ret _ _ _ _ _ Hb). fold i. set (d1 := with_tx _ _ d). fold i in Hir, Hib.
  rewrite zeroes_length bool_decide_true; [|rewrite /E_PAGE_SIZE in Hp2 |- *; lia].
  rewrite /set_len /try_from (proj2 (Z.ltb_lt (Z.of_nat (length packet)) (2 ^ 16))); [|rewrite /E_PAGE_SIZE in Hp2; lia].
  rewrite /tx_send /write_reg /set_tx_buffer /mbind /M_bind. cbn -[lookup insert alter zeroes drop app].
  rewrite list_lookup_alter_eq list_lookup_insert_eq //. cbn -[lookup insert alter zeroes drop app Z.ltb]. rewrite (proj2 (Z.ltb_lt 0 _) Hp1) /=.
  f_equal. rewrite /d1 /with_tx /set_reg. cbn -[lookup insert alter zeroes drop app]. f_equal.
  - f_equal. rewrite /i Z2Nat.id //. lia.
  - by rewrite alter_insert_same !list_insert_insert_eq.
Qed.
(** The steps of a sender that fills the buffer itself. *)
Lemma transmit_parts d packet :
  tx_ok d → packet_ok packet →
  ∃ i d1 d', transmitter d = Ret (Some i) d1 ∧ tx_buffer i d1 = Ret (zeroes (Z.to_nat E_PAGE_SIZE)) d1 ∧
    (set_tx_buffer i (packet ++ drop (length packet) (zeroes (Z.to_nat E_PAGE_SIZE)));; set_len i (Z.of_nat (length packet));; tx_send i) d1 = Ret tt d' ∧
    transmit packet d = Ret true d'.
Proof.
  intros Hok Hp. destruct (transmitter_run d Hok) as (desc & Hdesc & _ & _ & Htr & Hb), (transmit_run d packet Hok Hp) as (desc' & Hdesc' & Hrun).
  eexists _, _, _. split; [exact Htr|]. split; [exact Hb|]. split; [|exact Hrun].
  rewrite /transmit (bind_Ret _ _ _ _ _ Htr) (bind_Ret _ _ _ _ _ Hb) in Hrun. rewrite zeroes_length bool_decide_true in Hrun; [|destruct Hp as [_ Hp]; rewrite /E_PAGE_SIZE in Hp |- *; lia].
  apply bind_inv in Hrun as (? & d1 & [= <- <-] & Hrun). apply bind_inv in Hrun as ([] & d2 & H2 & Hrun). apply bind_inv in Hrun as ([] & d3 & H3 & Hrun).
  apply bind_inv in Hrun as ([] & d4 & H4 & [= <-]). by rewrite (bind_Ret _ _ _ _ _ H2) (bind_Ret _ _ _ _ _ H3) H4.
Qed.

Lemma transmit_wp d packet :
  tx_ok d → packet_ok packet →
  wp (transmit packet) (λ sent d', sent = true ∧ tx_ok d' ∧ same_rx d d' ∧
    (dist TX_RING_SIZE (reg d Tdh) (reg d Tdt) < TX_RING_SIZE - 1 → tx_pending d' = tx_pending d ++ [packet])) d.
Proof.
  intros Hok Hp. destruct (transmit_run d packet Hok Hp) as (desc & Hdesc & Hrun). rewrite /wp Hrun. clear Hrun.
  destruct Hok as (Hh & Ht & Hlr & Hlb & Hdd & Hbl). destruct Hp as [Hp1 Hp2]. set (i := Z.to_nat (reg d Tdt)). fold i in Hdesc. set (d' := set_reg _ _ _).
  assert (reg d' Tdh = reg d Tdh) as Eh by (by rewrite /d' reg_set). assert (reg d' Tdt = (reg d Tdt + 1) mod TX_RING_SIZE) as Et by (by rewrite /d' reg_set).
  split; [done|]. split; [|split].
  - rewrite /tx_ok Eh Et. split; [done|]. split; [by apply Z.mod_pos_bound|]. rewrite /= !length_insert. split; [done|]. split; [done|]. split.
    + apply Forall_insert; [done|]. exact (Forall_lookup_1 _ _ _ _ Hdd Hdesc).
    + apply Forall_insert; [done|]. rewrite length_app length_drop zeroes_length. rewrite /E_PAGE_SIZE in Hp2 |- *. lia.
  - split; [done|]. split; [done|]. by rewrite /d' !reg_set.
  - intros Hd. rewrite /tx_pending Eh Et slots_push //. f_equal.
    + apply slots_ext. intros k Hk. rewrite /tx_packet /=. pose proof (dist_range TX_RING_SIZE ltac:(done) (reg d Tdh) (reg d Tdt)) as Hr.
      pose proof (Z.mod_pos_bound (reg d Tdh + k) TX_RING_SIZE ltac:(done)) as Hm.
      assert (i ≠ Z.to_nat ((reg d Tdh + k) mod TX_RING_SIZE)) as Hne.
      { intros He. assert ((reg d Tdh + k) mod TX_RING_SIZE = reg d Tdt) as Hx by (rewrite /i in He; lia).
        rewrite -(slot_at TX_RING_SIZE (reg d Tdh) (reg d Tdt)) // in Hx. apply slot_inj in Hx; [lia|lia|done]. }
      by rewrite !list_lookup_insert_ne.
    + rewrite /tx_packet /=. fold i. rewrite /TX_RING_SIZE in Ht, Hlr, Hlb. rewrite !list_lookup_insert_eq; [|lia..]. simpl.
      by rewrite Nat2Z.id take_app_length.
Qed.
(** A packet the card sends is the first one that was to be sent. *)
Lemma card_transmit_ok d packet d' :
  tx_ok d → card_transmit d = Some (packet, d') → tx_ok d' ∧ same_rx d d' ∧ tx_pending d = packet :: tx_pending d'.
Proof.
  intros (Hh & Ht & Hlr & Hlb & Hdd & Hbl). rewrite /card_transmit. destruct (Z.eqb_spec (reg d Tdh) (reg d Tdt)) as [|Hne]; [done|].
  set (i := Z.to_nat (reg d Tdh)). destruct (tx_ring d !! i) as [desc|] eqn:Hdesc; [|done]. destruct (tx_bufs d !! i) as [buf|] eqn:Hbuf; [|done].
  intros [= <- <-]. set (d' := set_reg _ _ _).
  assert (reg d' Tdt = reg d Tdt) as Et by (by rewrite /d' reg_set). assert (reg d' Tdh = (reg d Tdh + 1) mod TX_RING_SIZE) as Eh by (by rewrite /d' reg_set).
  split; [|split].
  - rewrite /tx_ok Eh Et. split; [by apply Z.mod_pos_bound|]. split; [done|]. rewrite /= !length_insert. split; [done|]. split; [done|]. split; [|done].
    apply Forall_insert; [done|]. simpl. pose proof (Forall_lookup_1 _ _ _ _ Hdd Hdesc) as Hdone. simpl in Hdone.
    destruct (contains (td_cmd desc) TXD_CMD_RS); [by apply contains_done|done].
  - split; [done|]. split; [done|]. by rewrite /d' !reg_set.
  - rewrite /tx_pending Eh Et (slots_pop TX_RING_SIZE ltac:(done)) //.
    + apply (f_equal2 cons); [by rewrite /tx_packet; fold i; rewrite Hdesc Hbuf|]. apply slots_ext. intros k Hk. rewrite /tx_packet /=.
      destruct (decide (i = Z.to_nat (((reg d Tdh + 1) mod TX_RING_SIZE + k) mod TX_RING_SIZE))) as [<-|Hi]; [|by rewrite list_lookup_insert_ne].
      rewrite list_lookup_insert_eq; [by rewrite Hdesc|by apply lookup_lt_Some in Hdesc].
    + pose proof (dist_range TX_RING_SIZE ltac:(done) (reg d Tdh) (reg d Tdt)) as Hr.
      destruct (decide (dist TX_RING_SIZE (reg d Tdh) (reg d Tdt) = 0)) as [H0%dist_zero|]; [done|done..|lia].
Qed.

(** ** Receiving

    [busy] is the index of the packet that [net::handle_receive] works on. *)

Definition rx_first (d : Driver) : Z := (reg d Rdt + 1) mod RX_RING_SIZE.
Definition rx_count (d : Driver) : Z := dist RX_RING_SIZE (rx_first d) (reg d Rdh).
Definition rx_packet (d : Driver) (i : Z) : list byte :=
  match rx_ring d !! Z.to_nat i, rx_bufs d !! Z.to_nat i ≫= id with
  | Some desc, Some buf => take (Z.to_nat (rd_length desc)) buf
  | _, _ => []
  end.
Definition rx_queue (busy : option nat) (d : Driver) : list (list byte) :=
  slots RX_RING_SIZE (rx_packet d) (if busy is Some _ then (rx_first d + 1) mod RX_RING_SIZE else rx_first d) (reg d Rdh).

(** A descriptor is done exactly when the card has filled it and the handler has not given it back. *)
Definition rx_desc_ok (filled : bool) (desc : RxDesc) : Prop :=
  if filled then contains (rd_status desc) RXD_STAT_DD = true ∧ 0 ≤ rd_length desc ≤ E_PAGE_SIZE else rd_status desc = 0.
Definition rx_slot_ok (busy : option nat) (d : Driver) (j : Z) : Prop :=
  ∃ desc buf, rx_ring d !! Z.to_nat j = Some desc ∧ rx_bufs d !! Z.to_nat j = Some buf ∧
    rx_desc_ok (bool_decide (dist RX_RING_SIZE (rx_first d) j < rx_count d)) desc ∧
    if decide (busy = Some (Z.to_nat j)) then buf = None else ∃ b, buf = Some b ∧ length b = Z.to_nat E_PAGE_SIZE.
Definition rx_ok (busy : option nat) (d : Driver) : Prop :=
  0 ≤ reg d Rdh < RX_RING_SIZE ∧ 0 ≤ reg d Rdt < RX_RING_SIZE ∧
  (∀ i, busy = Some i → i = Z.to_nat (rx_first d) ∧ 0 < rx_count d) ∧
  ∀ j, 0 ≤ j < RX_RING_SIZE → rx_slot_ok busy d j.

Lemma rx_first_range d : 0 ≤ rx_first d < RX_RING_SIZE.
Proof. by apply Z.mod_pos_bound. Qed.
Lemma receive_take_wp d :
  rx_ok None d →
  wp receive_take (λ o d', match o with
    | None => d' = d ∧ rx_queue None d = []
    | Some (i, packet) => rx_ok (Some i) d' ∧ rx_queue None d = packet :: rx_queue (Some i) d' ∧ same_tx d d'
    end) d.
Proof.
  intros (Hh & Ht & Hb & Hs). pose proof (rx_first_range d) as Hf. destruct (Hs (rx_first d) Hf) as (desc & buf & Hdesc & Hbuf & Hd & Hbf).
  destruct (decide _) as [|_] in Hbf; [done|]. destruct Hbf as (b & -> & Hlb). rewrite dist_refl in Hd. pose proof (dist_range RX_RING_SIZE ltac:(done) (rx_first d) (reg d Rdh)) as Hr.
  rewrite /receive_take. apply wp_bind, wp_gets. apply wp_bind, wp_get. fold (rx_first d). apply wp_bind. rewrite Hdesc. apply wp_ret.
  destruct (decide (0 < rx_count d)) as [Hc|Hc]; last first.
  { rewrite bool_decide_false // /rx_desc_ok in Hd. rewrite Hd /=. apply wp_ret. split; [done|]. rewrite /rx_queue /slots. rewrite /rx_count in Hc.
    by replace (dist RX_RING_SIZE (rx_first d) (reg d Rdh)) with 0 by lia. }
  rewrite bool_decide_true // in Hd. destruct Hd as [-> Hlen]. simpl negb. cbv iota. apply wp_bind. rewrite Hbuf. apply wp_ret. apply wp_bind, wp_modify.
  apply wp_bind. rewrite (proj2 (Z.leb_le _ _)); [|rewrite Hlb; rewrite /E_PAGE_SIZE in Hlen |- *; lia]. do 2 apply wp_ret.
  set (d' := with_rx _ _ d). assert (rx_first d' = rx_first d) as Ef by done. assert (rx_count d' = rx_count d) as Ec by done. split; [|split; [|done]].
  - split; [done|]. split; [done|]. split; [by intros i [= <-]|]. intros j Hj. rewrite /rx_slot_ok Ef Ec.
    destruct (Hs j Hj) as (desc' & buf' & Hdesc' & Hbuf' & Hd' & Hbf'). destruct (decide _) as [|_] in Hbf'; [done|]. simpl.
    destruct (decide (Z.to_nat (rx_first d) = Z.to_nat j)) as [He|Hne].
    + exists desc', None. split; [done|]. rewrite -He list_lookup_insert_eq; [|by apply lookup_lt_Some in Hbuf]. split; [done|]. split; [done|].
      by rewrite decide_True.
    + exists desc', buf'. split; [done|]. rewrite list_lookup_insert_ne //. split; [done|]. split; [done|]. rewrite decide_False; [done|congruence].
  - rewrite /rx_queue Ef. change (reg d' Rdh) with (reg d Rdh). rewrite (slots_pop RX_RING_SIZE ltac:(done)) //.
    apply (f_equal2 cons); [by rewrite /rx_packet Hdesc Hbuf|]. apply slots_ext. intros k Hk. rewrite /rx_packet /=.
    rewrite dist_succ_l // in Hk. rewrite list_lookup_insert_ne //. apply next_slot_ne; [done|done|lia..].
Qed.
Lemma receive_put_wp i d :
  rx_ok (Some i) d → wp (receive_put i) (λ _ d', rx_ok None d' ∧ rx_queue None d' = rx_queue (Some i) d ∧ same_tx d d') d.
Proof.
  intros (Hh & Ht & Hb & Hs). destruct (Hb i eq_refl) as [-> Hc]. pose proof (rx_first_range d) as Hf.
  rewrite /receive_put. apply wp_bind, wp_modify, wp_modify. set (d' := set_reg _ _ _).
  assert (reg d' Rdh = reg d Rdh) as Eh by (by rewrite /d' reg_set). assert (reg d' Rdt = rx_first d) as Er by (rewrite /d' reg_set /=; lia).
  assert (rx_first d' = (rx_first d + 1) mod RX_RING_SIZE) as Ef by (by rewrite {1}/rx_first Er).
  assert (rx_count d' = rx_count d - 1) as Ec. { rewrite /rx_count Ef Eh. by apply dist_succ_l. }
  pose proof (dist_range RX_RING_SIZE ltac:(done) (rx_first d) (reg d Rdh)) as Hr. fold (rx_count d) in Hr.
  split; [|split].
  - split; [by rewrite Eh|]. split; [by rewrite Er|]. split; [done|]. intros j Hj. rewrite /rx_slot_ok Ef Ec.
    destruct (Hs j Hj) as (desc & buf & Hdesc & Hbuf & Hd & Hbf). simpl. destruct (decide (j = rx_first d)) as [->|Hne].
    + rewrite list_lookup_alter_eq Hdesc list_lookup_insert_eq; [|by apply lookup_lt_Some in Hbuf]. eexists _, _. split; [done|]. split; [done|].
      split; [|by eexists]. rewrite dist_last // bool_decide_false; [done|lia].
    + assert (Z.to_nat (rx_first d) ≠ Z.to_nat j) as Hne' by lia. rewrite list_lookup_alter_ne // list_lookup_insert_ne //. exists desc, buf. split; [done|]. split; [done|].
      rewrite decide_False in Hbf; [|congruence]. split; [|done]. rewrite dist_next //.
      by rewrite (bool_decide_ext _ (dist RX_RING_SIZE (rx_first d) j < rx_count d)); [|lia].
  - rewrite /rx_queue Ef Eh. apply slots_ext. intros k Hk. rewrite /rx_packet /=.
    assert (Z.to_nat (rx_first d) ≠ Z.to_nat (((rx_first d + 1) mod RX_RING_SIZE + k) mod RX_RING_SIZE)) as Hne; [|by rewrite list_lookup_alter_ne // list_lookup_insert_ne].
    rewrite dist_succ_l // in Hk. rewrite /rx_count in Hr. apply next_slot_ne; [done|done|lia..].
  - split; [done|]. split; [done|]. by rewrite /d' !reg_set.
Qed.

Lemma rx_count_full d : 0 ≤ reg d Rdh < RX_RING_SIZE → 0 ≤ reg d Rdt < RX_RING_SIZE → reg d Rdh ≠ reg d Rdt → rx_count d < RX_RING_SIZE - 1.
Proof.
  intros Hh Ht Hne. pose proof (dist_range RX_RING_SIZE ltac:(done) (rx_first d) (reg d Rdh)) as Hr. rewrite /rx_count.
  destruct (decide (dist RX_RING_SIZE (rx_first d) (reg d Rdh) = RX_RING_SIZE - 1)) as [He|]; [|lia]. destruct Hne.
  rewrite -(slot_at RX_RING_SIZE (rx_first d) (reg d Rdh)) // He /rx_first Zplus_mod_idemp_l.
  replace (reg d Rdt + 1 + (RX_RING_SIZE - 1)) with (reg d Rdt + 1 * RX_RING_SIZE) by lia. rewrite Z_mod_plus_full. by apply Z.mod_small.
Qed.
(** The card always finds the buffer of a descriptor it owns, and a packet it stores is the last of those to be handled. *)
Lemma card_receive_ok busy d packet :
  rx_ok busy d → reg d Rdh ≠ reg d Rdt → Z.of_nat (length packet) ≤ E_PAGE_SIZE →
  ∃ d', card_receive packet d = Some d' ∧ rx_ok busy d' ∧ rx_queue busy d' = rx_queue busy d ++ [packet] ∧ same_tx d d'.
Proof.
  intros (Hh & Ht & Hb & Hs) Hne Hlen. pose proof (rx_first_range d) as Hf. pose proof (rx_count_full d Hh Ht Hne) as Hc.
  pose proof (dist_range RX_RING_SIZE ltac:(done) (rx_first d) (reg d Rdh)) as Hr. fold (rx_count d) in Hr.
  destruct (Hs (reg d Rdh) Hh) as (desc & buf & Hdesc & Hbuf & Hd & Hbf).
  assert (busy ≠ Some (Z.to_nat (reg d Rdh))) as Hbusy.
  { intros He. destruct (Hb _ He) as [Hi Hpos]. assert (reg d Rdh = rx_first d) as Hx by lia. rewrite /rx_count Hx dist_refl in Hpos. lia. }
  rewrite decide_False // in Hbf. destruct Hbf as (b & -> & Hlb). fold (rx_count d) in Hd. rewrite bool_decide_false in Hd; [|lia].
  rewrite /card_receive (proj2 (Z.eqb_neq _ _) Hne) Hdesc Hbuf /=. eexists. split; [done|]. set (d' := set_reg _ _ _).
  assert (reg d' Rdt = reg d Rdt) as Er by (by rewrite /d' reg_set). assert (reg d' Rdh = (reg d Rdh + 1) mod RX_RING_SIZE) as Eh by (by rewrite /d' reg_set).
  assert (rx_first d' = rx_first d) as Ef by (by rewrite /rx_first Er).
  assert (rx_count d' = rx_count d + 1) as Ec. { rewrite /rx_count Ef Eh. by apply dist_succ_r. }
  assert (∀ j, 0 ≤ j < RX_RING_SIZE → dist RX_RING_SIZE (rx_first d) j < rx_count d → Z.to_nat (reg d Rdh) ≠ Z.to_nat j) as Hother.
  { intros j Hj Hdj He. assert (j = reg d Rdh) as -> by lia. rewrite /rx_count in Hdj. lia. }
  split; [|split].
  - split; [rewrite Eh; by apply Z.mod_pos_bound|]. split; [by rewrite Er|]. split; [intros i Hi; rewrite Ef Ec; destruct (Hb i Hi); lia|].
    intros j Hj. rewrite /rx_slot_ok Ef Ec. simpl. destruct (decide (j = reg d Rdh)) as [->|Hj'].
    + rewrite list_lookup_insert_eq; [|by apply lookup_lt_Some in Hdesc]. rewrite list_lookup_insert_eq; [|by apply lookup_lt_Some in Hbuf].
      eexists _, _. split; [done|]. split; [done|]. fold (rx_count d). rewrite bool_decide_true; [|lia]. rewrite decide_False //. split.
      * rewrite /rx_desc_ok /= in Hd. rewrite /rx_desc_ok /= Hd. split; [done|lia].
      * eexists. split; [done|]. rewrite length_app length_drop Hlb. rewrite /E_PAGE_SIZE in Hlen |- *. lia.
    + destruct (Hs j Hj) as (desc' & buf' & Hdesc' & Hbuf' & Hd' & Hbf').
      rewrite !list_lookup_insert_ne; [|lia..]. exists desc', buf'. split; [done|]. split; [done|]. split; [|done].
      assert (dist RX_RING_SIZE (rx_first d) j ≠ rx_count d) as Hdj.
      { intros He. apply Hj'. rewrite -(slot_at RX_RING_SIZE (rx_first d) j) // He. by apply slot_at. }
      by rewrite (bool_decide_ext _ (dist RX_RING_SIZE (rx_first d) j < rx_count d)); [|lia].
  - rewrite /rx_queue Ef Eh. set (a := if busy is Some _ then _ else _).
    assert (∀ k, 0 ≤ k < dist RX_RING_SIZE a (reg d Rdh) → Z.to_nat (reg d Rdh) ≠ Z.to_nat ((a + k) mod RX_RING_SIZE)) as Hk.
    { intros k Hk He. pose proof (Z.mod_pos_bound (a + k) RX_RING_SIZE ltac:(done)). assert ((a + k) mod RX_RING_SIZE = reg d Rdh) as Hx by lia.
      pose proof (dist_range RX_RING_SIZE ltac:(done) a (reg d Rdh)). pose proof (dist_slot RX_RING_SIZE a k ltac:(lia)) as Hy. rewrite Hx in Hy. lia. }
    rewrite slots_push //.
    + f_equal; [apply slots_ext; intros k Hk'; rewrite /rx_packet /=; by rewrite !list_lookup_insert_ne; [|by apply Hk..]|].
      rewrite /rx_packet /=. rewrite list_lookup_insert_eq; [|by apply lookup_lt_Some in Hdesc]. rewrite list_lookup_insert_eq; [|by apply lookup_lt_Some in Hbuf].
      by rewrite /= Nat2Z.id take_app_length.
    + rewrite /a. destruct busy as [i|]; [|by apply Hc]. destruct (Hb i eq_refl) as [_ Hpos]. rewrite dist_succ_l //. rewrite /rx_count in Hc. lia.
  - split; [done|]. split; [done|]. by rewrite /d' !reg_set.
Qed.

(** ** Driver and card together

    The packets given to [transmit], those the card has sent, those the card has received, and those that were handed to
    [net::handle_receive].  One interrupt of the card is handled at a time: the interrupt controller holds back the next one
    until the handler has completed the last. *)

Record Nic : Type := {
  nic_driver : Driver;
  nic_busy : option nat;
  nic_sent : list (list byte);
  nic_wire : list (list byte);
  nic_received : list (list byte);
  nic_handled : list (list byte);
}.
Inductive nic_step : Nic → Nic → Prop :=
  | nic_transmit d d' busy sent wire received handled packet :
      packet_ok packet → dist TX_RING_SIZE (reg d Tdh) (reg d Tdt) < TX_RING_SIZE - 1 → transmit packet d = Ret true d' →
      nic_step {| nic_driver := d; nic_busy := busy; nic_sent := sent; nic_wire := wire; nic_received := received; nic_handled := handled |}
        {| nic_driver := d'; nic_busy := busy; nic_sent := sent ++ [packet]; nic_wire := wire; nic_received := received; nic_handled := handled |}
  | nic_card_sends d d' busy sent wire received handled packet :
      card_transmit d = Some (packet, d') →
      nic_step {| nic_driver := d; nic_busy := busy; nic_sent := sent; nic_wire := wire; nic_received := received; nic_handled := handled |}
        {| nic_driver := d'; nic_busy := busy; nic_sent := sent; nic_wire := wire ++ [packet]; nic_received := received; nic_handled := handled |}
  | nic_card_receives d d' busy sent wire received handled packet :
      packet_ok packet → card_receive packet d = Some d' →
      nic_step {| nic_driver := d; nic_busy := busy; nic_sent := sent; nic_wire := wire; nic_received := received; nic_handled := handled |}
        {| nic_driver := d'; nic_busy := busy; nic_sent := sent; nic_wire := wire; nic_received := received ++ [packet]; nic_handled := handled |}
  | nic_interrupt d d' sent wire received handled :
      interrupt_begin d = Ret tt d' →
      nic_step {| nic_driver := d; nic_busy := None; nic_sent := sent; nic_wire := wire; nic_received := received; nic_handled := handled |}
        {| nic_driver := d'; nic_busy := None; nic_sent := sent; nic_wire := wire; nic_received := received; nic_handled := handled |}
  | nic_take d d' sent wire received handled i packet :
      receive_take d = Ret (Some (i, packet)) d' →
      nic_step {| nic_driver := d; nic_busy := None; nic_sent := sent; nic_wire := wire; nic_received := received; nic_handled := handled |}
        {| nic_driver := d'; nic_busy := Some i; nic_sent := sent; nic_wire := wire; nic_received := received; nic_handled := handled ++ [packet] |}
  | nic_put d d' i sent wire received handled :
      receive_put i d = Ret tt d' →
      nic_step {| nic_driver := d; nic_busy := Some i; nic_sent := sent; nic_wire := wire; nic_received := received; nic_handled := handled |}
        {| nic_driver := d'; nic_busy := None; nic_sent := sent; nic_wire := wire; nic_received := received; nic_handled := handled |}.

Definition nic_start (d : Driver) : Nic :=
  {| nic_driver := d; nic_busy := None; nic_sent := []; nic_wire := []; nic_received := []; nic_handled := [] |}.
(** [init] with pages for the buffers and aligned rings. *)
Definition initialized (d : Driver) : Prop :=
  ∃ rx_addrs tx_addrs tx_ring_addr rx_ring_addr,
    length rx_addrs = Z.to_nat RX_RING_SIZE ∧ length tx_addrs = Z.to_nat TX_RING_SIZE ∧
    e1000_init tx_ring_addr rx_ring_addr (driver_new rx_addrs tx_addrs) = Ret tt d.
Inductive nic_reachable : Nic → Prop :=
  | nic_reach_init d : initialized d → nic_reachable (nic_start d)
  | nic_reach_step s s' : nic_reachable s → nic_step s s' → nic_reachable s'.

Definition nic_ok (s : Nic) : Prop :=
  tx_ok (nic_driver s) ∧ rx_ok (nic_busy s) (nic_driver s) ∧
  nic_sent s = nic_wire s ++ tx_pending (nic_driver s) ∧ nic_received s = nic_handled s ++ rx_queue (nic_busy s) (nic_driver s).

(** The halves of the driver do not interfere. *)
Lemma tx_ok_same d d' : same_tx d d' → tx_ok d → tx_ok d' ∧ tx_pending d' = tx_pending d.
Proof. intros (Hr & Hb & Ht & Hh) Hok. rewrite /tx_ok /tx_pending /tx_packet Hr Hb Ht Hh. done. Qed.
Lemma rx_slot_same busy d d' j : same_rx d d' → rx_slot_ok busy d j → rx_slot_ok busy d' j.
Proof. intros (Hr & Hb & Ht & Hh). by rewrite /rx_slot_ok /rx_count /rx_first Hr Hb Ht Hh. Qed.
Lemma rx_ok_same busy d d' : same_rx d d' → rx_ok busy d → rx_ok busy d' ∧ rx_queue busy d' = rx_queue busy d.
Proof.
  intros Hsame (? & ? & Hb & Hs). pose proof Hsame as (Er & Eb & Et & Eh). split; [|by rewrite /rx_queue /rx_first /rx_packet Er Eb Et Eh].
  rewrite /rx_ok /rx_count /rx_first Et Eh. split; [done|]. split; [done|]. split; [done|]. intros j Hj. apply (rx_slot_same busy d); auto.
Qed.

Lemma nic_step_ok s s' : nic_step s s' → nic_ok s → nic_ok s'.
Proof.
  intros Hst (Htx & Hrx & Hsent & Hrec). destruct Hst as [d d' busy sent wire received handled packet Hp Hd Hrun|d d' busy sent wire received handled packet Hc
    |d d' busy sent wire received handled packet Hp Hc|d d' sent wire received handled Hrun|d d' sent wire received handled i packet Hrun|d d' i sent wire received handled Hrun];
    simpl in Htx, Hrx, Hsent, Hrec; rewrite /nic_ok /=.
  - destruct (wp_ret_inv _ _ _ _ _ (transmit_wp d packet Htx Hp) Hrun) as (_ & Htx' & Hsame & Hpend).
    destruct (rx_ok_same busy d d' Hsame Hrx) as [? ->]. by rewrite (Hpend Hd) Hsent -app_assoc.
  - destruct (card_transmit_ok d packet d' Htx Hc) as (Htx' & Hsame & Hpend). destruct (rx_ok_same busy d d' Hsame Hrx) as [? ->].
    by rewrite Hsent Hpend -app_assoc.
  - assert (reg d Rdh ≠ reg d Rdt) as Hne. { intros He. by rewrite /card_receive He Z.eqb_refl in Hc. }
    destruct (card_receive_ok busy d packet Hrx Hne (proj2 Hp)) as (d'' & Hc' & Hrx' & Hq & Hsame). rewrite Hc in Hc'. simplify_eq.
    destruct (tx_ok_same d d'' Hsame Htx) as [? ->]. by rewrite Hq -app_assoc.
  - injection Hrun as <-. destruct (tx_ok_same d (set_reg Icr (2 ^ 32 - 1) d)) as [? ->]; [by rewrite /same_tx !reg_set|done|].
    by destruct (rx_ok_same None d (set_reg Icr (2 ^ 32 - 1) d)) as [? ->]; [by rewrite /same_rx !reg_set|done|].
  - destruct (wp_ret_inv _ _ _ _ _ (receive_take_wp d Hrx) Hrun) as (Hrx' & Hq & Hsame). destruct (tx_ok_same d d' Hsame Htx) as [? ->].
    by rewrite Hrec Hq -app_assoc.
  - destruct (wp_ret_inv _ _ _ _ _ (receive_put_wp i d Hrx) Hrun) as (Hrx' & Hq & Hsame). destruct (tx_ok_same d d' Hsame Htx) as [? ->]. by rewrite Hq.
Qed.

(** ** Initialization *)

Definition is_array (r : Register) : bool := match r with Mta | Ra => true | _ => false end.
Lemma reg_set_array r i v d r' : is_array r = true → is_array r' = false → 0 ≤ i < 128 → reg (set_reg_array r i v d) r' = reg d r'.
Proof.
  intros Hr Hr' Hi. rewrite /reg /set_reg_array /=. rewrite lookup_insert_ne //.
  destruct r; try done; destruct r'; try done; intros H; vm_compute (register_offset _ / 4) in H; lia.
Qed.
Definition rings_at_start (d0 d : Driver) : Prop :=
  tx_ring d = tx_ring d0 ∧ tx_bufs d = tx_bufs d0 ∧ rx_ring d = rx_ring d0 ∧ rx_bufs d = rx_bufs d0 ∧
  reg d Tdh = 0 ∧ reg d Tdt = 0 ∧ reg d Rdh = 0 ∧ reg d Rdt = RX_RING_SIZE - 1.
Lemma rings_at_start_set d0 d r v : bool_decide (r ∈ [Tdh; Tdt; Rdh; Rdt]) = false → rings_at_start d0 d → rings_at_start d0 (set_reg r v d).
Proof. intros Hr%bool_decide_eq_false. rewrite !not_elem_of_cons in Hr. rewrite /rings_at_start !reg_set !decide_False; naive_solver. Qed.
Lemma rings_at_start_array d0 d r i v : is_array r = true → 0 ≤ i < 128 → rings_at_start d0 d → rings_at_start d0 (set_reg_array r i v d).
Proof. intros Hr Hi. by rewrite /rings_at_start !reg_set_array. Qed.
Lemma e1000_init_wlp a b d0 : wlp (e1000_init a b) (λ _ d, rings_at_start d0 d) d0.
Proof.
  rewrite /e1000_init /init_tx /init_rx /set_reg_flag /read_reg /write_reg /write_reg_array.
  repeat wlp_step. eapply (wlp_mono _ (λ _, rings_at_start d0)).
  - apply wlp_of_wp. eapply wp_mono; [apply (for_each_wp _ (λ l d, Forall (λ i, 0 ≤ i < 128) l ∧ rings_at_start d0 d))|by intros _ d []].
    + intros i l d [Hi Hd]. apply Forall_cons in Hi as [Hi Hl]. apply wp_modify. split; [done|]. by apply rings_at_start_array.
    + split; [apply Forall_forall; intros i Hi%elem_of_seqZ; change (4096 / 32) with 128 in Hi; lia|]. do 2 (apply rings_at_start_array; [done|lia|]). by rewrite /rings_at_start !reg_set.
  - intros _ d Hd. repeat wlp_step. do 6 (apply rings_at_start_set; [done|]). done.
Qed.
Lemma initialized_ok d : initialized d → nic_ok (nic_start d).
Proof.
  intros (rxs & txs & a & b & Hrx & Htx & Hrun). pose proof (wlp_ret_inv _ _ _ _ _ (e1000_init_wlp a b (driver_new rxs txs)) Hrun) as (Etr & Etb & Err & Erb & Eth & Ett & Erh & Ert).
  simpl in Etr, Etb, Err, Erb. split; [|split; [|split]]; simpl.
  - rewrite /tx_ok Etr Etb Eth Ett !length_fmap Htx. split; [done|]. split; [done|]. split; [done|]. split; [done|]. split.
    + apply Forall_fmap, Forall_true. done.
    + apply Forall_fmap, Forall_true. intros x. apply zeroes_length.
  - assert (rx_first d = 0) as Ef by (by rewrite /rx_first Ert). assert (rx_count d = 0) as Ec by (by rewrite /rx_count Ef Erh).
    split; [by rewrite Erh|]. split; [by rewrite Ert|]. split; [done|]. intros j Hj. rewrite /rx_slot_ok Ec Err Erb !list_lookup_fmap.
    destruct (lookup_lt_is_Some_2 rxs (Z.to_nat j)) as [addr ->]; [rewrite Hrx; lia|]. eexists _, _. split; [done|]. split; [done|].
    pose proof (dist_range RX_RING_SIZE ltac:(done) (rx_first d) j). rewrite bool_decide_false; [|lia]. split; [done|].
    eexists. split; [done|]. apply zeroes_length.
  - by rewrite /tx_pending /slots Eth Ett.
  - rewrite /rx_queue /slots /rx_first Ert Erh. done.
Qed.
Lemma nic_reachable_ok s : nic_reachable s → nic_ok s.
Proof. induction 1 as [d Hd|s s' Hr IH Hst]; [by apply initialized_ok|by apply (nic_step_ok s)]. Qed.

(** C31: as long as the card keeps up with the driver, so that the ring of packets to send is never full, every packet given to
    [transmit] reaches the wire, in order, and every packet the card has received is handed to the network stack, in
    order and once, whatever the interleaving of sending, interrupts and the card; neither sending nor the interrupt
    handler panics. *)
Theorem packets_in_order s :
  nic_reachable s →
  nic_sent s = nic_wire s ++ tx_pending (nic_driver s) ∧
  nic_received s = nic_handled s ++ rx_queue (nic_busy s) (nic_driver s) ∧
  (∀ packet, packet_ok packet → ∃ d', transmit packet (nic_driver s) = Ret true d') ∧
  (nic_busy s = None → ∃ o d', receive_take (nic_driver s) = Ret o d' ∧ (o = None → nic_received s = nic_handled s)).
Proof.
  intros Hr. destruct (nic_reachable_ok s Hr) as (Htx & Hrx & Hsent & Hrec). split; [done|]. split; [done|]. split.
  - intros packet Hp. destruct (wp_run _ _ _ (transmit_wp _ packet Htx Hp)) as (r & d' & Hrun & -> & _). eauto.
  - intros Hb. rewrite Hb in Hrx, Hrec |- *. destruct (wp_run _ _ _ (receive_take_wp _ Hrx)) as (o & d' & Hrun & Ho). exists o, d'. split; [done|].
    intros ->. destruct Ho as [_ Hq]. by rewrite Hrec Hq app_nil_r.
Qed.

(** The driver never clears the done bit of a descriptor, so that it never sees the ring full: after as many packets as there
    are descriptors, without the card sending one, the tail meets the head and all of them are lost. *)
Theorem full_ring_loses_packets s packets :
  nic_reachable s → tx_pending (nic_driver s) = [] → length packets = Z.to_nat TX_RING_SIZE → Forall packet_ok packets →
  wp (for_each packets (λ p, sent ← transmit p; assert_ sent)) (λ _ d, tx_pending d = []) (nic_driver s).
Proof.
  intros Hr Hp Hlen Hps. destruct (nic_reachable_ok s Hr) as (Htx & _). set (d := nic_driver s) in *. clearbody d. clear Hr s.
  assert (reg d Tdh = reg d Tdt) as He.
  { destruct Htx as (Hh & Ht & _). apply (dist_zero TX_RING_SIZE); [done..|]. pose proof (slots_length TX_RING_SIZE (tx_packet d) (reg d Tdh) (reg d Tdt)) as Hl.
    rewrite /tx_pending in Hp. rewrite Hp in Hl. pose proof (dist_range TX_RING_SIZE ltac:(done) (reg d Tdh) (reg d Tdt)). simpl in Hl. lia. }
  eapply wp_mono; [apply (for_each_wp _ (λ l d', tx_ok d' ∧ Forall packet_ok l ∧ reg d' Tdh = reg d Tdt ∧
    reg d' Tdt = (reg d Tdt + (TX_RING_SIZE - Z.of_nat (length l))) mod TX_RING_SIZE))|].
  - intros p l d' (Hok & Hl & Eh & Et). apply Forall_cons in Hl as [Hpk Hl]. apply wp_bind. destruct (transmit_run d' p Hok Hpk) as (desc & _ & Hrun).
    pose proof (transmit_wp d' p Hok Hpk) as Hw. rewrite /wp Hrun in Hw |- *. destruct Hw as (_ & Hok' & _). split; [done|]. split; [done|].
    split; [rewrite reg_set; exact Eh|]. transitivity ((reg d' Tdt + 1) mod TX_RING_SIZE); [by rewrite reg_set|]. rewrite Et Zplus_mod_idemp_l. f_equal. cbn [length]. lia.
  - split; [done|]. split; [done|]. split; [done|]. rewrite Hlen /= Z.add_0_r Z.mod_small //. by destruct Htx as (_ & ? & _).
  - intros _ d' (Hok & _ & Eh & Et). rewrite /tx_pending /slots Eh Et /= -Zplus_mod_idemp_r Z.mod_same //= Z.add_0_r Z.mod_small; [by rewrite dist_refl|].
    by destruct Htx as (_ & ? & _).
Qed.

(** ** A run *)

Module Example.
Definition packet : list byte := [Byte.x01; Byte.x02; Byte.x03].
Lemma can_initialize : ∃ d, initialized d.
Proof.
  eexists. exists ((λ i, 4096 * i) <$> seqZ 0 16), ((λ i, 4096 * i) <$> seqZ 16 16), 0x80001000, 0x80002000. split; [done|]. split; [done|]. reflexivity.
Qed.
(** The driver sends a packet and the card receives one. *)
Lemma can_send_and_receive :
  ∃ d, nic_reachable {| nic_driver := d; nic_busy := None; nic_sent := [packet]; nic_wire := []; nic_received := [packet]; nic_handled := [] |}.
Proof.
  destruct can_initialize as [d0 Hd0]. pose proof (nic_reach_init d0 Hd0) as Hr. destruct (nic_reachable_ok _ Hr) as (Htx & Hrx & _). simpl in Htx, Hrx.
  pose proof Hd0 as (rxs & txs & a & b & _ & _ & Hrun).
  pose proof (wlp_ret_inv _ _ _ _ _ (e1000_init_wlp a b (driver_new rxs txs)) Hrun) as (_ & _ & _ & _ & Eth & Ett & Erh & Ert).
  destruct (wp_run _ _ _ (transmit_wp d0 packet Htx ltac:(done))) as (r & d1 & Hrun1 & -> & Htx1 & Hsame & _).
  destruct (rx_ok_same None d0 d1 Hsame Hrx) as [Hrx1 _]. pose proof Hsame as (_ & _ & Et & Eh).
  destruct (card_receive_ok None d1 packet Hrx1) as (d2 & Hc & _); [by rewrite Et Eh Erh Ert|done|]. exists d2.
  eapply nic_reach_step; [eapply nic_reach_step; [exact Hr|]|].
  - apply (nic_transmit d0 d1 None [] [] [] [] packet); [done|by rewrite Eth Ett|done].
  - by apply (nic_card_receives d1 d2 None [packet] [] [] [] packet).
Qed.
Lemma packets_in_order_witness : ∃ d, [packet] = tx_pending d ∧ [packet] = rx_queue None d.
Proof.
  destruct can_send_and_receive as [d Hr]. exists d. destruct (packets_in_order _ Hr) as (Hs & Hq & _). exact (conj Hs Hq).
Defined.
End Example.
