(* ===== verification/Packet.v ===== *)
(** * Packets

    Model of the headers of [crates/kernel/ov6_kernel/src/net]: [ethernet.rs], [arp.rs], [ipv4.rs] with its checksum, and
    the header of [udp.rs].  A header is a record of byte arrays, as it lies in the packet; its numbers are
    big-endian. *)

From stdpp Require Import base list ssreflect.
From S2P Require Import Prelude.

(** ** Big-endian numbers *)

Definition to_be (n : nat) (x : Z) : list byte := rev (le_split n x).
Definition from_be (l : list byte) : Z := le_combine (rev l).

#[global] Arguments to_be : simpl never.
#[global] Arguments from_be : simpl never.
Lemma to_be_length n x : length (to_be n x) = n.
Proof. by rewrite length_rev length_le_split. Qed.
Lemma from_to_be n x : 0 ≤ x < 2 ^ (8 * Z.of_nat n) → from_be (to_be n x) = x.
Proof. intros Hx. rewrite /from_be /to_be rev_involutive le_combine_split Z.mul_comm. by apply Z.mod_small. Qed.
Lemma from_be_bound l : 0 ≤ from_be l < 2 ^ (8 * Z.of_nat (length l)).
Proof. rewrite -(length_rev l). apply le_combine_bound. Qed.
Lemma to_from_be n l : length l = n → to_be n (from_be l) = l.
Proof. intros Hl. rewrite /to_be /from_be split_le_combine'; [by rewrite rev_involutive|by rewrite length_rev]. Qed.

(** ** Ethernet *)

Definition ADDR_LEN : nat := 6.
Definition ETH_SIZE : nat := 14.
Record Eth : Type := {
  eth_dhost : list byte;
  eth_shost : list byte;
  eth_ty : list byte;
}.
Definition eth_of (l : list byte) : Eth := {| eth_dhost := slice 0 6 l; eth_shost := slice 6 6 l; eth_ty := slice 12 2 l |}.
Definition eth_to (e : Eth) : list byte := eth_dhost e ++ eth_shost e ++ eth_ty e.
Definition eth_wf (e : Eth) : Prop := length (eth_dhost e) = 6%nat ∧ length (eth_shost e) = 6%nat ∧ length (eth_ty e) = 2%nat.

Inductive EthType : Type := EthIpv4 | EthArp.
Definition ethtype_no (t : EthType) : Z := match t with EthIpv4 => 0x0800 | EthArp => 0x0806 end.
Definition ethtype_of (n : Z) : option EthType := if n =? 0x0800 then Some EthIpv4 else if n =? 0x0806 then Some EthArp else None.

Definition set_dhost (addr : list byte) (e : Eth) : Eth := {| eth_dhost := addr; eth_shost := eth_shost e; eth_ty := eth_ty e |}.
Definition set_shost (addr : list byte) (e : Eth) : Eth := {| eth_dhost := eth_dhost e; eth_shost := addr; eth_ty := eth_ty e |}.
Definition ty (e : Eth) : option EthType := ethtype_of (from_be (eth_ty e)).
Definition set_ty (t : EthType) (e : Eth) : Eth :=
  {| eth_dhost := eth_dhost e; eth_shost := eth_shost e; eth_ty := to_be 2 (ethtype_no t) |}.

(** ** ARP *)

Definition ARP_SIZE : nat := 28.
Record Arp : Type := {
  arp_htype : list byte;
  arp_ptype : list byte;
  arp_hlen : byte;
  arp_plen : byte;
  arp_opcode : list byte;
  arp_sender_haddr : list byte;
  arp_sender_paddr : list byte;
  arp_target_haddr : list byte;
  arp_target_paddr : list byte;
}.
Definition byte_at (i : nat) (l : list byte) : byte := default Byte.x00 (l !! i).
Definition arp_of (l : list byte) : Arp :=
  {| arp_htype := slice 0 2 l; arp_ptype := slice 2 2 l; arp_hlen := byte_at 4 l; arp_plen := byte_at 5 l; arp_opcode := slice 6 2 l;
     arp_sender_haddr := slice 8 6 l; arp_sender_paddr := slice 14 4 l; arp_target_haddr := slice 18 6 l; arp_target_paddr := slice 24 4 l |}.
Definition arp_to (a : Arp) : list byte :=
  arp_htype a ++ arp_ptype a ++ [arp_hlen a; arp_plen a] ++ arp_opcode a ++ arp_sender_haddr a ++ arp_sender_paddr a ++
  arp_target_haddr a ++ arp_target_paddr a.
Inductive ArpHardware : Type := ArpEthernet.
Definition arp_hardware_no (h : ArpHardware) : Z := match h with ArpEthernet => 1 end.
Inductive ArpOp : Type := ArpRequest | ArpReply.
Definition arp_op_no (o : ArpOp) : Z := match o with ArpRequest => 1 | ArpReply => 2 end.
(** The setters, all of which [arp::handle_receive] calls. *)
Definition sender_paddr (a : Arp) : Z := from_be (arp_sender_paddr a).
Definition arp_fill (htype : ArpHardware) (ptype : EthType) (hlen plen : Z) (opcode : ArpOp) (sender_haddr : list byte) (sender_paddr : Z)
    (target_haddr : list byte) (target_paddr : Z) (a : Arp) : Arp :=
  {| arp_htype := to_be 2 (arp_hardware_no htype); arp_ptype := to_be 2 (ethtype_no ptype); arp_hlen := z2b hlen; arp_plen := z2b plen;
     arp_opcode := to_be 2 (arp_op_no opcode); arp_sender_haddr := sender_haddr; arp_sender_paddr := to_be 4 sender_paddr;
     arp_target_haddr := target_haddr; arp_target_paddr := to_be 4 target_paddr |}.

(** ** IPv4 *)

Definition IPV4_SIZE : nat := 20.
Record Ipv4 : Type := {
  ip_vhl : byte;
  ip_tos : byte;
  ip_len : list byte;
  ip_id : list byte;
  ip_off : list byte;
  ip_ttl : byte;
  ip_protocol : byte;
  ip_sum : list byte;
  ip_src : list byte;
  ip_dst : list byte;
}.
Definition ipv4_of (l : list byte) : Ipv4 :=
  {| ip_vhl := byte_at 0 l; ip_tos := byte_at 1 l; ip_len := slice 2 2 l; ip_id := slice 4 2 l; ip_off := slice 6 2 l; ip_ttl := byte_at 8 l;
     ip_protocol := byte_at 9 l; ip_sum := slice 10 2 l; ip_src := slice 12 4 l; ip_dst := slice 16 4 l |}.
Definition ipv4_to (h : Ipv4) : list byte :=
  [ip_vhl h; ip_tos h] ++ ip_len h ++ ip_id h ++ ip_off h ++ [ip_ttl h; ip_protocol h] ++ ip_sum h ++ ip_src h ++ ip_dst h.
Inductive IpProtocol : Type := Icmp | Tcp | UdpProto.
Definition protocol_no (p : IpProtocol) : Z := match p with Icmp => 1 | Tcp => 6 | UdpProto => 17 end.
Definition protocol_of (n : Z) : option IpProtocol :=
  if n =? 1 then Some Icmp else if n =? 6 then Some Tcp else if n =? 17 then Some UdpProto else None.
Definition protocol (h : Ipv4) : option IpProtocol := protocol_of (b2z (ip_protocol h)).
Definition src (h : Ipv4) : Z := from_be (ip_src h).

(** [set_vhl] asserts that both parts have four bits. *)
Definition vhl {S} (ver hlen : Z) : M S byte :=
  assert_ (ver <=? 15);;
  assert_ (hlen <=? 15);;
  mret (z2b (Z.lor (wrap 8 (Z.shiftl ver 4)) hlen)).
(** The setters [udp::send] calls before [compute_sum]; the checksum stays. *)
Definition ipv4_fill (vhl : byte) (tos len id off ttl : Z) (p : IpProtocol) (src dst : Z) (h : Ipv4) : Ipv4 :=
  {| ip_vhl := vhl; ip_tos := z2b tos; ip_len := to_be 2 len; ip_id := to_be 2 id; ip_off := to_be 2 off; ip_ttl := z2b ttl;
     ip_protocol := z2b (protocol_no p); ip_sum := ip_sum h; ip_src := to_be 4 src; ip_dst := to_be 4 dst |}.
Definition set_sum (sum : Z) (h : Ipv4) : Ipv4 :=
  {| ip_vhl := ip_vhl h; ip_tos := ip_tos h; ip_len := ip_len h; ip_id := ip_id h; ip_off := ip_off h; ip_ttl := ip_ttl h;
     ip_protocol := ip_protocol h; ip_sum := to_be 2 sum; ip_src := ip_src h; ip_dst := ip_dst h |}.

(** [chunks(2)] as numbers; a last byte alone is the high half. *)
Fixpoint words (l : list byte) : list Z :=
  match l with
  | [] => []
  | [a] => [from_be [a; Byte.x00]]
  | a :: b :: l => from_be [a; b] :: words l
  end.
Definition checksum {S} (bytes : list byte) : M S Z :=
  let sum := foldl (λ s n, wrap 32 (s + n)) 0 (words bytes) in
  let sum := Z.land sum 0xffff + Z.shiftr sum 16 in
  let sum := wrap 32 (sum + Z.shiftr sum 16) in
  x ← unwrap (try_from 16 sum);
  mret (0xffff - x).
Definition compute_sum {S} (h : Ipv4) : M S Ipv4 := sum ← checksum (ipv4_to h); mret (set_sum sum h).

(** ** UDP *)

Definition UDP_SIZE : nat := 8.
Record Udp : Type := {
  udp_src_port : list byte;
  udp_dst_port : list byte;
  udp_len : list byte;
  udp_sum : list byte;
}.
Definition udp_of (l : list byte) : Udp :=
  {| udp_src_port := slice 0 2 l; udp_dst_port := slice 2 2 l; udp_len := slice 4 2 l; udp_sum := slice 6 2 l |}.
Definition udp_to (u : Udp) : list byte := udp_src_port u ++ udp_dst_port u ++ udp_len u ++ udp_sum u.
Definition src_port (u : Udp) : Z := from_be (udp_src_port u).
Definition dst_port (u : Udp) : Z := from_be (udp_dst_port u).
Definition udp_len_of (u : Udp) : Z := from_be (udp_len u).
Definition udp_fill (src_port dst_port len : Z) (u : Udp) : Udp :=
  {| udp_src_port := to_be 2 src_port; udp_dst_port := to_be 2 dst_port; udp_len := to_be 2 len; udp_sum := udp_sum u |}.

(** ** Encoding and decoding *)

Lemma eth_of_to e : eth_wf e → eth_of (eth_to e) = e.
Proof.
  destruct e as [d s t]. intros (Hd & Hs & Ht). simpl in Hd, Hs, Ht. rewrite /eth_of /eth_to /slice /=. f_equal.
  - by rewrite drop_0 take_app_length'.
  - by rewrite drop_app_length' // take_app_length'.
  - rewrite app_assoc drop_app_length'; [|rewrite length_app; lia]. by rewrite take_ge; [|lia].
Qed.
Lemma eth_to_length e : eth_wf e → length (eth_to e) = ETH_SIZE.
Proof. intros (Hd & Hs & Ht). by rewrite /eth_to !length_app Hd Hs Ht. Qed.
Lemma ethtype_of_no t : ethtype_of (ethtype_no t) = Some t.
Proof. by destruct t. Qed.

(** ** The checksum

    The sum of the words of a header with its checksum is zero in one's complement: a multiple of [0xffff]. *)

Definition sum_words (l : list byte) : Z := foldr Z.add 0 (words l).
Definition fold16 (s : Z) : Z := s mod 2 ^ 16 + s / 2 ^ 16.

Lemma words_bound l : Forall (λ w, 0 ≤ w < 2 ^ 16) (words l).
Proof.
  enough (∀ n l, (length l ≤ n)%nat → Forall (λ w, 0 ≤ w < 2 ^ 16) (words l)) as H by (by apply (H (length l))).
  intros n. induction n as [|n IH]; intros [|a [|b m]] Hl; simpl in Hl |- *; try lia; try done.
  - constructor; [|done]. apply (from_be_bound [a; Byte.x00]).
  - constructor; [apply (from_be_bound [a; b])|]. apply IH. lia.
Qed.
Lemma words_length l : Z.of_nat (length (words l)) ≤ Z.of_nat (length l).
Proof.
  enough (∀ n l, (length l ≤ n)%nat → (length (words l) ≤ length l)%nat) as H by (specialize (H (length l) l); lia).
  intros n. induction n as [|n IH]; intros [|a [|b m]] Hl; simpl in Hl |- *; try lia. specialize (IH m). lia.
Qed.
Lemma sum_bound ws n : Forall (λ w, 0 ≤ w < 2 ^ 16) ws → Z.of_nat (length ws) ≤ n → 0 ≤ foldr Z.add 0 ws ≤ n * (2 ^ 16 - 1).
Proof.
  intros Hws. revert n. induction Hws as [|w ws Hw Hws IH]; intros n Hn; simpl in Hn |- *; [lia|]. specialize (IH (n - 1)). lia.
Qed.
Lemma wrapping_sum ws s : Forall (λ w, 0 ≤ w) ws → 0 ≤ s → s + foldr Z.add 0 ws < 2 ^ 32 → foldl (λ s n, wrap 32 (s + n)) s ws = s + foldr Z.add 0 ws.
Proof.
  intros Hws. revert s. induction Hws as [|w ws Hw Hws IH]; intros s Hs Hb; simpl in Hb |- *; [lia|].
  assert (0 ≤ foldr Z.add 0 ws) by (clear -Hws; induction Hws; simpl; lia).
  rewrite wrap_small; [|lia]. rewrite IH; lia.
Qed.
Lemma sum_words_bound l : Z.of_nat (length l) ≤ 2 ^ 15 → 0 ≤ sum_words l < 2 ^ 31.
Proof. intros Hl. pose proof (sum_bound (words l) (2 ^ 15) (words_bound l)) as H. pose proof (words_length l). rewrite /sum_words. lia. Qed.

Lemma checksum_run {S} (l : list byte) (s : S) :
  Z.of_nat (length l) ≤ 2 ^ 15 →
  checksum l s = if fold16 (sum_words l) <? 2 ^ 16 then Ret (0xffff - fold16 (sum_words l)) s else Panic.
Proof.
  intros Hl. pose proof (sum_words_bound l Hl) as Hb. rewrite /checksum. cbv zeta. rewrite wrapping_sum.
  - rewrite Z.add_0_l. fold (sum_words l). set (S0 := sum_words l) in *. rewrite (Z.land_ones S0 16) // (Z.shiftr_div_pow2 S0 16) //. fold (fold16 S0).
    assert (0 ≤ fold16 S0 < 2 ^ 17) as Hf. { rewrite /fold16. pose proof (Z.mod_pos_bound S0 (2 ^ 16) ltac:(done)). assert (0 ≤ S0 / 2 ^ 16 < 2 ^ 15) by (split; [apply Z.div_pos; lia|apply Z.div_lt_upper_bound; lia]). lia. }
    rewrite Z.shiftr_div_pow2 //. destruct (Z.ltb_spec (fold16 S0) (2 ^ 16)) as [Hlt|Hge].
    + rewrite (Z.div_small (fold16 S0)); [|lia]. rewrite Z.add_0_r wrap_small; [|lia]. rewrite /try_from (proj2 (Z.ltb_lt _ _)) //.
    + assert (fold16 S0 / 2 ^ 16 = 1) as -> by (symmetry; apply (Z.div_unique _ _ _ (fold16 S0 - 2 ^ 16)); lia).
      rewrite wrap_small; [|lia]. rewrite /try_from (proj2 (Z.ltb_ge _ _)) //. lia.
  - eapply Forall_impl; [apply words_bound|]. simpl. lia.
  - done.
  - fold (sum_words l). lia.
Qed.
Lemma fold16_mod s : fold16 s mod 0xffff = s mod 0xffff.
Proof.
  rewrite /fold16. rewrite {3}(Z.div_mod s (2 ^ 16)) //. replace (2 ^ 16 * (s / 2 ^ 16) + s mod 2 ^ 16) with (s mod 2 ^ 16 + s / 2 ^ 16 + (s / 2 ^ 16) * 0xffff) by lia.
  by rewrite Z_mod_plus_full.
Qed.
Lemma packet_words_app l m : Nat.Even (length l) → words (l ++ m) = words l ++ words m.
Proof.
  enough (∀ n l, (length l ≤ n)%nat → Nat.Even (length l) → words (l ++ m) = words l ++ words m) as H by (by apply (H (length l))).
  intros n. induction n as [|n IH]; intros [|a [|b k]] Hl He; simpl in Hl |- *; try lia; [done|done|by destruct He as [z Hz]; simpl in Hz; lia|].
  f_equal. apply IH; [lia|]. destruct He as [z Hz]. simpl in Hz. exists (z - 1)%nat. lia.
Qed.
Lemma sum_app ws ws' : foldr Z.add 0 (ws ++ ws') = foldr Z.add 0 ws + foldr Z.add 0 ws'.
Proof. induction ws; simpl; lia. Qed.

Definition ipv4_wf (h : Ipv4) : Prop :=
  length (ip_len h) = 2%nat ∧ length (ip_id h) = 2%nat ∧ length (ip_off h) = 2%nat ∧ length (ip_sum h) = 2%nat ∧ length (ip_src h) = 4%nat ∧
  length (ip_dst h) = 4%nat.
Lemma ipv4_to_length h : ipv4_wf h → length (ipv4_to h) = IPV4_SIZE.
Proof. intros (H1 & H2 & H3 & H4 & H5 & H6). by rewrite /ipv4_to !length_app H1 H2 H3 H4 H5 H6. Qed.
(** The words before and behind the checksum. *)
Definition ipv4_before (h : Ipv4) : list byte := [ip_vhl h; ip_tos h] ++ ip_len h ++ ip_id h ++ ip_off h ++ [ip_ttl h; ip_protocol h].
Lemma ipv4_sum_words h : ipv4_wf h → sum_words (ipv4_to h) = sum_words (ipv4_before h) + from_be (ip_sum h) + sum_words (ip_src h ++ ip_dst h).
Proof.
  intros (H1 & H2 & H3 & H4 & H5 & H6). assert (ipv4_to h = ipv4_before h ++ ip_sum h ++ (ip_src h ++ ip_dst h)) as -> by (by rewrite /ipv4_to /ipv4_before -!app_assoc).
  rewrite /sum_words packet_words_app; [|rewrite /ipv4_before !length_app H1 H2 H3; by exists 5%nat].
  rewrite (packet_words_app (ip_sum h)); [|rewrite H4; by exists 1%nat].
  rewrite !sum_app. destruct (ip_sum h) as [|a [|b [|??]]]; [done..| |done]. cbn [words foldr]. lia.
Qed.
Lemma set_sum_wf c h : ipv4_wf h → ipv4_wf (set_sum c h).
Proof. intros (H1 & H2 & H3 & H4 & H5 & H6). rewrite /ipv4_wf. split_and!; [done..|apply to_be_length|done|done]. Qed.

(** The receiver accepts: the words of the header sum up to zero in one's complement. *)
Definition header_valid (h : Ipv4) : Prop := sum_words (ipv4_to h) mod 0xffff = 0.
(** [compute_sum] either makes the header valid, or panics, when adding the carries carries again. *)
Lemma compute_sum_wlp {S} h (s : S) :
  ipv4_wf h → from_be (ip_sum h) = 0 →
  match compute_sum h s with
  | Ret h' s' => s' = s ∧ header_valid h' ∧ h' = set_sum (0xffff - fold16 (sum_words (ipv4_to h))) h ∧ fold16 (sum_words (ipv4_to h)) < 2 ^ 16
  | Panic => 2 ^ 16 ≤ fold16 (sum_words (ipv4_to h))
  end.
Proof.
  intros Hwf H0. rewrite /compute_sum /mbind /M_bind checksum_run; [|by rewrite ipv4_to_length].
  destruct (Z.ltb_spec (fold16 (sum_words (ipv4_to h))) (2 ^ 16)) as [Hlt|]; [|done]. split; [done|]. split; [|done].
  assert (0 ≤ fold16 (sum_words (ipv4_to h))) as Hpos.
  { pose proof (sum_words_bound (ipv4_to h) ltac:(by rewrite ipv4_to_length)) as Hb. rewrite /fold16.
    pose proof (Z.mod_pos_bound (sum_words (ipv4_to h)) (2 ^ 16) ltac:(done)). pose proof (Z.div_pos (sum_words (ipv4_to h)) (2 ^ 16)). lia. }
  rewrite /header_valid ipv4_sum_words; [|by apply set_sum_wf]. change (ipv4_before (set_sum _ h)) with (ipv4_before h). simpl ip_sum. simpl ip_src. simpl ip_dst.
  rewrite from_to_be; [|change (2 ^ (8 * Z.of_nat 2)) with (2 ^ 16); lia]. pose proof (ipv4_sum_words h Hwf) as Hs. rewrite H0 in Hs.
  set (F := fold16 _) in *. set (a := sum_words (ipv4_before h)) in *. set (b := sum_words (ip_src h ++ ip_dst h)) in *.
  replace (a + (65535 - F) + b) with (sum_words (ipv4_to h) - F + 1 * 65535) by lia. rewrite Z_mod_plus_full Zminus_mod /F fold16_mod Z.sub_diag. done.
Qed.
