(* ===== verification/Net.v ===== *)
(** * The network stack

    Model of [crates/kernel/ov6_kernel/src/net]: [mod.rs], the handlers of received packets of [ethernet.rs], [arp.rs],
    [ipv4.rs] and [udp.rs], the ports of [udp.rs] and sending a datagram.

    A port is a monitor: its queue of datagrams under a lock, and a condition variable for the receivers. *)

From stdpp Require Import base gmap list ssreflect.
From S2P Require Import Prelude KError Monitor Slots E1000 Packet.

Definition LOCAL_MAC : list byte := [Byte.x52; Byte.x54; Byte.x00; Byte.x12; Byte.x34; Byte.x56].
Definition ipv4_addr (a b c d : Z) : Z := ((a * 256 + b) * 256 + c) * 256 + d.
Definition LOCAL_IP : Z := ipv4_addr 10 0 2 15.
Definition HOST_MAC : list byte := [Byte.x52; Byte.x55; Byte.x0a; Byte.x00; Byte.x02; Byte.x02].

(** [split_at_checked] and [split_at_mut]. *)
Definition split_at_checked {A} (n : nat) (l : list A) : option (list A * list A) :=
  if bool_decide (n ≤ length l)%nat then Some (take n l, drop n l) else None.
Definition split_at {S A} (n : nat) (l : list A) : M S (list A * list A) := unwrap (split_at_checked n l).

(** ** Sending *)

(** [udp::send]; [dst] is an address and a port. *)
Definition udp_send (src_port : Z) (dst : Z * Z) (bytes : list byte) : DriverM (result KernelError Z) :=
  let total_len := Z.of_nat (length bytes) + Z.of_nat ETH_SIZE + Z.of_nat IPV4_SIZE + Z.of_nat UDP_SIZE in
  if E_PAGE_SIZE <? total_len then mret (Err TooLargeUdpPacket)
  else
    tx ← transmitter;
    match tx with
    | None => mret (Err NoSendBuffer)
    | Some tx =>
        buf ← tx_buffer tx;
        '(eth, eth_body) ← split_at ETH_SIZE buf;
        let eth := set_ty EthIpv4 (set_shost LOCAL_MAC (set_dhost HOST_MAC (eth_of eth))) in
        '(ipv4, ipv4_body) ← split_at IPV4_SIZE eth_body;
        v ← vhl 4 5;
        ip_len ← unwrap (try_from 16 (total_len - Z.of_nat ETH_SIZE));
        ipv4 ← compute_sum (ipv4_fill v 0 ip_len 0 0 100 UdpProto LOCAL_IP dst.1 (ipv4_of ipv4));
        '(udp, udp_payload) ← split_at UDP_SIZE ipv4_body;
        udp_len ← unwrap (try_from 16 (Z.of_nat (length bytes) + Z.of_nat UDP_SIZE));
        let udp := udp_fill src_port dst.2 udp_len (udp_of udp) in
        '(_, rest) ← split_at (length bytes) udp_payload;
        set_tx_buffer tx (eth_to eth ++ ipv4_to ipv4 ++ udp_to udp ++ bytes ++ rest);;
        set_len tx total_len;;
        tx_send tx;;
        mret (Ok (Z.of_nat (length bytes)))
    end.

(** ** Ports *)

Definition MAX_BIND_PORT : nat := 16.
Definition MAX_PORT_MSGS : nat := 16.

Record Datagram : Type := {
  dg_src : Z * Z;
  dg_data : list byte;
}.
Record PortQueue : Type := {
  pq_bound : bool;
  pq_datagrams : list Datagram;
}.
Inductive PortCond : Type := Receive.
#[export] Instance portcond_eq_dec : EqDecision PortCond.
Proof. solve_decision. Defined.

(** The operations on a port that take the lock of its queue; the notification of [udp::handle_receive] comes after it. *)
Inductive PortCall : Type :=
  | PortReceive
  | PortPush (d : Datagram)
  | PortNotify
  | PortUnbind.
Inductive PortResult : Type :=
  | Received (r : result KernelError Datagram)
  | Pushed (accepted : bool)
  | Notified
  | Unbound.
Notation PortM := (M (Locked PortQueue PortCond)).
Notation PortTurn := (Turn PortCond PortCall PortResult).

Definition port_queue_new (bound : bool) : PortQueue := {| pq_bound := bound; pq_datagrams := [] |}.
(** [Port::wait_receive]. *)
Definition wait_receive : PortM PortTurn :=
  q ← gets lk_data;
  if pq_bound q then
    match pq_datagrams q with
    | d :: rest => on_data (put {| pq_bound := pq_bound q; pq_datagrams := rest |});; mret (Return (Received (Ok d)))
    | [] => mret (Wait Receive (Some (Received (Err CallerProcessAlreadyKilled))) PortReceive)
    end
  else mret (Return (Received (Err PortNotBound))).
(** [ArrayDeque::push_back] with [Saturating]: a full queue stays as it is. *)
Definition push_back (d : Datagram) : PortM PortTurn :=
  q ← gets lk_data;
  if bool_decide (length (pq_datagrams q) < MAX_PORT_MSGS)%nat then
    on_data (put {| pq_bound := pq_bound q; pq_datagrams := pq_datagrams q ++ [d] |});; mret (Return (Pushed true))
  else mret (Return (Pushed false)).
(** [Port::unbind]. *)
Definition port_unbind : PortM PortTurn :=
  on_data (modify (λ q, {| pq_bound := false; pq_datagrams := pq_datagrams q |}));;
  notify Receive;;
  mret (Return Unbound).
Definition port_turn (k : PortCall) : PortM PortTurn :=
  match k with
  | PortReceive => wait_receive
  | PortPush d => push_back d
  | PortNotify => notify Receive;; mret (Return Notified)
  | PortUnbind => port_unbind
  end.

(** ** The table of ports

    A [PortRef] is the slot of its [ArcInner] in the slab of the ports. *)

Record PortCell : Type := {
  pc_strong : Z;
  pc_queue : PortQueue;
}.
(** What the stack needs of the page allocator. *)
Class PageSource (E : Type) := {
  take_page : M E bool;
  give_page : M E unit;
  take_page_total e : ∃ b e', take_page e = Ret b e';
  give_page_total e : ∃ e', give_page e = Ret tt e';
}.
Section net.
Context {E : Type} `{!PageSource E}.

Record Net : Type := {
  n_arp_seen : bool;
  n_ports : list (option (Z * nat));
  n_free : list nat;
  n_cells : gmap nat PortCell;
  n_notified : list nat;
  n_driver : Driver;
  n_env : E;
}.
Definition with_arp (b : bool) (s : Net) : Net :=
  {| n_arp_seen := b; n_ports := n_ports s; n_free := n_free s; n_cells := n_cells s; n_notified := n_notified s; n_driver := n_driver s; n_env := n_env s |}.
Definition with_ports (l : list (option (Z * nat))) (s : Net) : Net :=
  {| n_arp_seen := n_arp_seen s; n_ports := l; n_free := n_free s; n_cells := n_cells s; n_notified := n_notified s; n_driver := n_driver s; n_env := n_env s |}.
Definition with_slab (l : list nat) (m : gmap nat PortCell) (s : Net) : Net :=
  {| n_arp_seen := n_arp_seen s; n_ports := n_ports s; n_free := l; n_cells := m; n_notified := n_notified s; n_driver := n_driver s; n_env := n_env s |}.
Definition with_port_notified (l : list nat) (s : Net) : Net :=
  {| n_arp_seen := n_arp_seen s; n_ports := n_ports s; n_free := n_free s; n_cells := n_cells s; n_notified := l; n_driver := n_driver s; n_env := n_env s |}.
Definition with_driver (d : Driver) (s : Net) : Net :=
  {| n_arp_seen := n_arp_seen s; n_ports := n_ports s; n_free := n_free s; n_cells := n_cells s; n_notified := n_notified s; n_driver := d; n_env := n_env s |}.
Definition with_pages (e : E) (s : Net) : Net :=
  {| n_arp_seen := n_arp_seen s; n_ports := n_ports s; n_free := n_free s; n_cells := n_cells s; n_notified := n_notified s; n_driver := n_driver s; n_env := e |}.
Definition on_driver {A} (m : DriverM A) : M Net A := zoom n_driver with_driver m.
Definition on_pages {A} (m : M E A) : M Net A := zoom n_env with_pages m.

Definition get_port (i : nat) : M Net PortCell := s ← get; unwrap (n_cells s !! i).
Definition put_port (i : nat) (c : PortCell) : M Net unit := modify (λ s, with_slab (n_free s) (<[i := c]> (n_cells s)) s).
(** A turn on a port, under the lock of its queue. *)
Definition on_port (i : nat) (k : PortCall) : M Net PortTurn :=
  c ← get_port i;
  match port_turn k {| lk_data := pc_queue c; lk_notified := [] |} with
  | Ret t l =>
      put_port i {| pc_strong := pc_strong c; pc_queue := lk_data l |};;
      modify (λ s, with_port_notified (n_notified s ++ ((λ _, i) <$> lk_notified l)) s);;
      mret t
  | Panic => panic
  end.
(** [Arc::new_in] panics when the slab is empty. *)
Definition port_new (bound : bool) : M Net nat :=
  s ← get;
  match n_free s with
  | [] => panic
  | i :: free => modify (with_slab free (<[i := {| pc_strong := 1; pc_queue := port_queue_new bound |}]> (n_cells s)));; mret i
  end.
Definition port_clone (i : nat) : M Net nat :=
  c ← get_port i;
  put_port i {| pc_strong := pc_strong c + 1; pc_queue := pc_queue c |};;
  mret i.
(** The last reference drops the datagrams with their pages. *)
Definition port_drop (i : nat) : M Net unit :=
  c ← get_port i;
  if pc_strong c =? 1 then
    for_each (pq_datagrams (pc_queue c)) (λ _, on_pages give_page);;
    modify (λ s, with_slab (i :: n_free s) (delete i (n_cells s)) s)
  else put_port i {| pc_strong := pc_strong c - 1; pc_queue := pc_queue c |}.

Definition find_port (port : Z) (ports : list (option (Z * nat))) : option (nat * nat) :=
  '(slot, p) ← list_find (λ p, fst <$> p = Some port) ports; q ← p; Some (slot, q.2).
Definition find_slot (ports : list (option (Z * nat))) : option nat := fst <$> list_find (λ p, p = None) ports.

Definition bind (port : Z) : M Net (result KernelError unit) :=
  s ← get;
  match find_port port (n_ports s) with
  | Some _ => mret (Err PortAlreadyBound)
  | None =>
      match find_slot (n_ports s) with
      | None => mret (Err NoFreePort)
      | Some slot => i ← port_new true; modify (λ s, with_ports (<[slot := Some (port, i)]> (n_ports s)) s);; mret (Ok tt)
      end
  end.
Definition unbind (port : Z) : M Net (result KernelError unit) :=
  s ← get;
  match find_port port (n_ports s) with
  | None => mret (Err PortNotBound)
  | Some (slot, i) => modify (λ s, with_ports (<[slot := None]> (n_ports s)) s);; on_port i PortUnbind;; port_drop i;; mret (Ok tt)
  end.
(** A reference to the port of a number, taken under the lock of the table. *)
Definition port_ref (port : Z) : M Net (option nat) :=
  s ← get;
  match find_port port (n_ports s) with
  | None => mret None
  | Some (_, i) => i ← port_clone i; mret (Some i)
  end.

(** ** Receiving *)

(** [udp::handle_receive]: the datagram of a packet, and its delivery.  The length wraps around when it is less than that of the
    header. *)
Definition udp_parse (src_ip : Z) (body : list byte) : option (Z * Datagram) :=
  '(udp, udp_body) ← split_at_checked UDP_SIZE body;
  let udp := udp_of udp in
  let len := wrap 64 (udp_len_of udp - Z.of_nat UDP_SIZE) in
  '(payload, _) ← split_at_checked (Z.to_nat len) udp_body;
  Some (dst_port udp, {| dg_src := (src_ip, src_port udp); dg_data := payload |}).
Definition udp_deliver (dst_port : Z) (d : Datagram) : M Net unit :=
  port ← port_ref dst_port;
  match port with
  | None => mret tt
  | Some i =>
      page ← on_pages take_page;
      (if page : bool then
         assert_ (bool_decide (Z.of_nat (length (dg_data d)) ≤ E_PAGE_SIZE));;
         t ← on_port i (PortPush d);
         (match t with Return (Pushed false) => on_pages give_page | _ => mret tt end);;
         on_port i PortNotify;;
         mret tt
       else mret tt);;
      port_drop i
  end.
Definition udp_handle_receive (ipv4 : Ipv4) (body : list byte) : M Net unit :=
  match udp_parse (src ipv4) body with
  | None => mret tt
  | Some (port, d) => udp_deliver port d
  end.
(** [ipv4::handle_receive]. *)
Definition ipv4_handle_receive (body : list byte) : M Net unit :=
  match split_at_checked IPV4_SIZE body with
  | None => mret tt
  | Some (ipv4, ipv4_body) =>
      let ipv4 := ipv4_of ipv4 in
      match protocol ipv4 with
      | Some UdpProto => udp_handle_receive ipv4 ipv4_body
      | _ => mret tt
      end
  end.
(** [arp::handle_receive] answers the first packet only. *)
Definition arp_reply (eth : Eth) (arp : Arp) : DriverM unit :=
  tx ← transmitter;
  tx ← unwrap tx;
  out ← tx_buffer tx;
  '(out_eth, out_body) ← split_at ETH_SIZE out;
  let out_eth := set_ty EthArp (set_shost LOCAL_MAC (set_dhost (eth_shost eth) (eth_of out_eth))) in
  '(out_arp, rest) ← split_at ARP_SIZE out_body;
  let out_arp := arp_fill ArpEthernet EthIpv4 (Z.of_nat ADDR_LEN) 4 ArpReply LOCAL_MAC LOCAL_IP (eth_shost eth) (sender_paddr arp) (arp_of out_arp) in
  set_tx_buffer tx (eth_to out_eth ++ arp_to out_arp ++ rest);;
  set_len tx (Z.of_nat (ETH_SIZE + ARP_SIZE));;
  tx_send tx.
Definition arp_handle_receive (eth : Eth) (body : list byte) : M Net unit :=
  match split_at_checked ARP_SIZE body with
  | None => mret tt
  | Some (arp, _) =>
      seen ← gets n_arp_seen;
      modify (with_arp true);;
      if seen : bool then mret tt else on_driver (arp_reply eth (arp_of arp))
  end.
(** [net::handle_receive]. *)
Definition handle_receive (bytes : list byte) : M Net unit :=
  match split_at_checked ETH_SIZE bytes with
  | None => mret tt
  | Some (eth, eth_body) =>
      let eth := eth_of eth in
      match ty eth with
      | None => mret tt
      | Some EthIpv4 => ipv4_handle_receive eth_body
      | Some EthArp => arp_handle_receive eth eth_body
      end
  end.

(** [udp::recv_from]: the reference, the turns of [wait_receive], and the copy of what fits. *)
Definition recv_begin (port : Z) : M Net (result KernelError nat) :=
  r ← port_ref port;
  mret (match r with Some i => Ok i | None => Err PortNotBound end).
Definition recv_turn (i : nat) : M Net PortTurn :=
  t ← on_port i PortReceive;
  (match t with
   | Return (Received (Ok d)) => on_pages give_page;; port_drop i
   | Return _ => port_drop i
   | Wait _ _ _ => mret tt
   end);;
  mret t.
Definition copy_out (d : Datagram) (len : Z) : list byte * (Z * Z) := (take (Z.to_nat (Z.min (Z.of_nat (length (dg_data d))) len)) (dg_data d), dg_src d).
End net.

(** ** The packets that are sent *)

Definition PACKET_HEADERS : nat := ETH_SIZE + IPV4_SIZE + UDP_SIZE.
Definition sent_eth : Eth := {| eth_dhost := HOST_MAC; eth_shost := LOCAL_MAC; eth_ty := to_be 2 (ethtype_no EthIpv4) |}.
(** The header before its checksum is set. *)
Definition sent_ipv4 (dst : Z) (n : nat) : Ipv4 :=
  {| ip_vhl := Byte.x45; ip_tos := Byte.x00; ip_len := to_be 2 (Z.of_nat (IPV4_SIZE + UDP_SIZE + n)); ip_id := to_be 2 0; ip_off := to_be 2 0;
     ip_ttl := Byte.x64; ip_protocol := Byte.x11; ip_sum := [Byte.x00; Byte.x00]; ip_src := to_be 4 LOCAL_IP; ip_dst := to_be 4 dst |}.
Definition sent_carry (dst : Z) (n : nat) : Z := fold16 (sum_words (ipv4_to (sent_ipv4 dst n))).
Definition sent_udp (src_port dst_port : Z) (n : nat) : Udp :=
  {| udp_src_port := to_be 2 src_port; udp_dst_port := to_be 2 dst_port; udp_len := to_be 2 (Z.of_nat (UDP_SIZE + n)); udp_sum := [Byte.x00; Byte.x00] |}.
Definition frame (src_port : Z) (dst : Z * Z) (bytes : list byte) : list byte :=
  eth_to sent_eth ++ ipv4_to (set_sum (0xffff - sent_carry dst.1 (length bytes)) (sent_ipv4 dst.1 (length bytes))) ++
  udp_to (sent_udp src_port dst.2 (length bytes)) ++ bytes.

Lemma split_at_run {S A} n (l : list A) (s : S) : (n ≤ length l)%nat → split_at n l s = Ret (take n l, drop n l) s.
Proof. intros H. by rewrite /split_at /split_at_checked bool_decide_true. Qed.
Lemma split_at_app {A} (l m : list A) n : n = length l → split_at_checked n (l ++ m) = Some (l, m).
Proof. intros ->. rewrite /split_at_checked bool_decide_true; [|rewrite length_app; lia]. by rewrite take_app_length drop_app_length. Qed.
Lemma split_zeroes {S} n m (s : S) : (n ≤ m)%nat → split_at n (zeroes m) s = Ret (zeroes n, zeroes (m - n)) s.
Proof. intros H. rewrite split_at_run; [|by rewrite zeroes_length]. rewrite /zeroes take_replicate drop_replicate. by rewrite Nat.min_l. Qed.
Lemma sent_ipv4_wf dst n : ipv4_wf (sent_ipv4 dst n).
Proof. split_and!; first [apply to_be_length|done]. Qed.
Lemma udp_to_length sp dp n : length (udp_to (sent_udp sp dp n)) = UDP_SIZE.
Proof. by rewrite /udp_to /sent_udp !length_app. Qed.
Lemma frame_length sp dst bytes : length (frame sp dst bytes) = (PACKET_HEADERS + length bytes)%nat.
Proof.
  rewrite /frame (length_app (eth_to _)) (length_app (ipv4_to _)) (length_app (udp_to _)) udp_to_length (ipv4_to_length (set_sum _ _)); [|apply set_sum_wf, sent_ipv4_wf].
  rewrite (eth_to_length sent_eth) //.
Qed.

Lemma udp_send_run sp dst bytes d :
  tx_ok d → Z.of_nat (PACKET_HEADERS + length bytes) ≤ E_PAGE_SIZE →
  if sent_carry dst.1 (length bytes) <? 2 ^ 16
  then ∃ d', transmit (frame sp dst bytes) d = Ret true d' ∧ udp_send sp dst bytes d = Ret (Ok (Z.of_nat (length bytes))) d'
  else udp_send sp dst bytes d = Panic.
Proof.
  intros Hok Hlen. set (n := length bytes) in *. assert (packet_ok (frame sp dst bytes)) as Hp by (rewrite /packet_ok frame_length; fold n; rewrite /PACKET_HEADERS in Hlen |- *; simpl in Hlen |- *; lia).
  destruct (transmit_parts d _ Hok Hp) as (i & d1 & d' & Htr & Hb & Hfin & Hrun).
  rewrite /PACKET_HEADERS /E_PAGE_SIZE in Hlen. cbn [ETH_SIZE IPV4_SIZE UDP_SIZE plus] in Hlen.
  assert (udp_send sp dst bytes d = (ipv4 ← compute_sum (sent_ipv4 dst.1 n);
    set_tx_buffer i (eth_to sent_eth ++ ipv4_to ipv4 ++ udp_to (sent_udp sp dst.2 n) ++ bytes ++ zeroes (Z.to_nat E_PAGE_SIZE - 42 - n));;
    set_len i (Z.of_nat (length (frame sp dst bytes)));; tx_send i;; mret (Ok (Z.of_nat n))) d1) as ->.
  { rewrite /udp_send. fold n. rewrite (proj2 (Z.ltb_ge _ _)); [|rewrite /E_PAGE_SIZE /ETH_SIZE /IPV4_SIZE /UDP_SIZE; lia].
    rewrite (bind_Ret _ _ _ _ _ Htr) (bind_Ret _ _ _ _ _ Hb).
    rewrite (bind_Ret _ _ _ _ _ (split_zeroes ETH_SIZE (Z.to_nat E_PAGE_SIZE) d1 ltac:(by apply Nat.leb_le))).
    rewrite (bind_Ret _ _ _ _ _ (split_zeroes IPV4_SIZE (Z.to_nat E_PAGE_SIZE - ETH_SIZE) d1 ltac:(by apply Nat.leb_le))).
    rewrite (bind_Ret (vhl 4 5) _ d1 Byte.x45 d1) //.
    rewrite (bind_Ret _ _ _ _ _ (try_from_run 16 _ d1 _)); [|rewrite /ETH_SIZE /IPV4_SIZE /UDP_SIZE; lia].
    replace (ipv4_fill _ _ _ _ _ _ _ _ _ _) with (sent_ipv4 dst.1 n); last first.
    { rewrite /sent_ipv4 /ipv4_fill. f_equal. rewrite /IPV4_SIZE /UDP_SIZE /ETH_SIZE. f_equal. lia. }
    rewrite /mbind /M_bind. pose proof (compute_sum_wlp (sent_ipv4 dst.1 n) d1 (sent_ipv4_wf _ _) eq_refl) as Hc.
    destruct (compute_sum (sent_ipv4 dst.1 n) d1) as [h d2|] eqn:Ec; [|done]. destruct Hc as (-> & _).
    change (zeroes (Z.to_nat E_PAGE_SIZE - ETH_SIZE - IPV4_SIZE)) with (zeroes 4062). rewrite split_zeroes; [|by apply Nat.leb_le].
    rewrite try_from_run; [|rewrite /UDP_SIZE; lia].
    change (4062 - UDP_SIZE)%nat with 4054%nat. rewrite split_zeroes; [|lia]. rewrite frame_length. fold n.
    replace (udp_fill _ _ _ _) with (sent_udp sp dst.2 n); [|rewrite /sent_udp /udp_fill; f_equal; rewrite /UDP_SIZE; f_equal; lia].
    change (Z.to_nat E_PAGE_SIZE - 42)%nat with 4054%nat. rewrite /PACKET_HEADERS /ETH_SIZE /IPV4_SIZE /UDP_SIZE.
    replace (Z.of_nat n + Z.of_nat 14 + Z.of_nat 20 + Z.of_nat 8) with (Z.of_nat (14 + 20 + 8 + n)) by lia. done. }
  pose proof (compute_sum_wlp (sent_ipv4 dst.1 n) d1 (sent_ipv4_wf _ _) eq_refl) as Hc. fold (sent_carry dst.1 n) in Hc.
  destruct (compute_sum (sent_ipv4 dst.1 n) d1) as [h d2|] eqn:Ec; last first.
  { rewrite (proj2 (Z.ltb_ge _ _) Hc). by apply bind_Panic. }
  destruct Hc as (-> & _ & -> & Hlt). rewrite (proj2 (Z.ltb_lt _ _) Hlt). exists d'. split; [done|]. rewrite (bind_Ret _ _ _ _ _ Ec).
  replace (eth_to sent_eth ++ _) with (frame sp dst bytes ++ drop (length (frame sp dst bytes)) (zeroes (Z.to_nat E_PAGE_SIZE))); last first.
  { rewrite {1}/frame -!app_assoc frame_length. fold n. do 4 f_equal. by rewrite /zeroes drop_replicate Nat.sub_add_distr. }
  apply bind_inv in Hfin as ([] & d2 & H2 & Hfin). apply bind_inv in Hfin as ([] & d3 & H3 & H4).
  by rewrite (bind_Ret _ _ _ _ _ H2) (bind_Ret _ _ _ _ _ H3) (bind_Ret _ _ _ _ _ H4).
Qed.

Lemma slice_app_l {A} (l m : list A) n : n = length l → slice 0 n (l ++ m) = l.
Proof. intros ->. by rewrite /slice drop_0 take_app_length. Qed.
Lemma slice_app_r {A} (l m : list A) k n : k = length l → slice k n (l ++ m) = slice 0 n m.
Proof. intros ->. by rewrite /slice drop_app_length drop_0. Qed.
Lemma udp_of_sent sp dp n : udp_of (udp_to (sent_udp sp dp n)) = sent_udp sp dp n.
Proof.
  rewrite /udp_of /udp_to /sent_udp. cbn [udp_src_port udp_dst_port udp_len udp_sum]. f_equal.
Qed.
Lemma handle_receive_frame {E} `{!PageSource E} sp dst bytes pad (s : Net (E := E)) :
  0 ≤ sp < 2 ^ 16 → 0 ≤ dst.2 < 2 ^ 16 → Z.of_nat (PACKET_HEADERS + length bytes) ≤ E_PAGE_SIZE →
  handle_receive (frame sp dst bytes ++ pad) s = udp_deliver dst.2 {| dg_src := (LOCAL_IP, sp); dg_data := bytes |} s.
Proof.
  intros Hsp Hdp Hlen. set (n := length bytes) in *. rewrite /PACKET_HEADERS /E_PAGE_SIZE in Hlen. cbn [ETH_SIZE IPV4_SIZE UDP_SIZE plus] in Hlen.
  rewrite /handle_receive /frame -!app_assoc (split_at_app (eth_to sent_eth)) //. rewrite (eth_of_to sent_eth) //.
  change (ty sent_eth) with (Some EthIpv4). cbv iota. set (ip := set_sum _ _). rewrite /ipv4_handle_receive (split_at_app (ipv4_to ip)); [|by rewrite ipv4_to_length; [|apply set_sum_wf, sent_ipv4_wf]].
  change (protocol (ipv4_of (ipv4_to ip))) with (Some UdpProto). cbv iota. change (src (ipv4_of (ipv4_to ip))) with LOCAL_IP.
  rewrite /udp_handle_receive /udp_parse. change (src _) with LOCAL_IP.
  rewrite (split_at_app (udp_to (sent_udp sp dst.2 n))); [|by rewrite udp_to_length]. cbn [mbind option_bind]. rewrite udp_of_sent.
  rewrite /udp_len_of /src_port /dst_port. cbn [udp_src_port udp_dst_port udp_len sent_udp]. rewrite !from_to_be //; [|rewrite /UDP_SIZE; change (8 * Z.of_nat 2) with 16; lia].
  replace (wrap 64 (Z.of_nat (UDP_SIZE + n) - Z.of_nat UDP_SIZE)) with (Z.of_nat n); last first.
  { rewrite wrap_small; [rewrite /UDP_SIZE; lia|]. rewrite /UDP_SIZE. lia. }
  rewrite Nat2Z.id (split_at_app bytes) //.
Qed.
