(* ===== verification/NetOk.v ===== *)
(** * The network stack is safe

    The invariant of the table of ports of [crates/kernel/ov6_kernel/src/net/udp.rs] and what follows: no packet from the
    network can make the kernel panic, what is sent arrives, and no receiver sleeps while a datagram waits for it. *)

From stdpp Require Import base gmap list ssreflect.
From S2P Require Import Prelude KError Monitor Slots E1000 Packet Net.

(** ** References to ports

    A port is held by the table, while it is bound, and by the operations in progress, [H]. *)

Definition holders (i : nat) (H : list nat) : Z := Z.of_nat (length (filter (λ j, j = i) H)).
Definition bound_refs (i : nat) (ports : list (option (Z * nat))) : Z := Z.of_nat (length (filter (λ p, snd <$> p = Some i) ports)).

Lemma filter_insert_length {A} (P : A → Prop) `{!∀ x, Decision (P x)} (l : list A) k o v :
  l !! k = Some o →
  Z.of_nat (length (filter P (<[k := v]> l))) + (if decide (P o) then 1 else 0) = Z.of_nat (length (filter P l)) + (if decide (P v) then 1 else 0).
Proof.
  revert k. induction l as [|x l IH]; intros [|k] Hk; simplify_eq/=; rewrite !filter_cons.
  - repeat case_decide; simpl; lia.
  - specialize (IH k Hk). destruct (decide (P x)); cbn [length]; lia.
Qed.
Lemma holders_cons i j H : holders i (j :: H) = holders i H + (if decide (j = i) then 1 else 0).
Proof. rewrite /holders filter_cons. case_decide; simpl; lia. Qed.
Lemma holders_pos i H : 0 ≤ holders i H.
Proof. rewrite /holders. lia. Qed.
Lemma holders_in i H : i ∈ H → 0 < holders i H.
Proof.
  intros Hi. rewrite /holders. assert (i ∈ filter (λ j, j = i) H) as Hin by (apply list_elem_of_filter; done).
  destruct (filter (λ j, j = i) H); [by apply elem_of_nil in Hin|simpl; lia].
Qed.
Lemma holders_perm i H H' : H ≡ₚ H' → holders i H = holders i H'.
Proof. intros HH. by rewrite /holders HH. Qed.
Lemma bound_refs_insert i ports k o v :
  ports !! k = Some o →
  bound_refs i (<[k := v]> ports) + (if decide (snd <$> o = Some i) then 1 else 0) = bound_refs i ports + (if decide (snd <$> v = Some i) then 1 else 0).
Proof. intros Hk. exact (filter_insert_length (λ p, snd <$> p = Some i) ports k o v Hk). Qed.
Lemma bound_refs_pos i ports k n : ports !! k = Some (Some (n, i)) → 0 < bound_refs i ports.
Proof.
  intros Hk. pose proof (bound_refs_insert i ports k _ None Hk) as H. simpl in H. rewrite decide_True // in H.
  rewrite /bound_refs in H |- *. lia.
Qed.

(** ** The invariant *)

Section net_ok.
Context {E : Type} `{!PageSource E}.
Implicit Types (s : Net (E := E)).

Definition cell_ok (ports : list (option (Z * nat))) (H : list nat) (i : nat) (o : option PortCell) : Prop :=
  match o with
  | Some c => pc_strong c = bound_refs i ports + holders i H ∧ 0 < pc_strong c ∧ (i < MAX_BIND_PORT)%nat ∧
      (0 < bound_refs i ports ↔ pq_bound (pc_queue c) = true) ∧ (length (pq_datagrams (pc_queue c)) ≤ MAX_PORT_MSGS)%nat
  | None => bound_refs i ports + holders i H = 0
  end.
Definition table_ok (ports : list (option (Z * nat))) : Prop :=
  length ports = MAX_BIND_PORT ∧
  (∀ k k' n i i', ports !! k = Some (Some (n, i)) → ports !! k' = Some (Some (n, i')) → k = k') ∧
  (∀ k k' n n' i, ports !! k = Some (Some (n, i)) → ports !! k' = Some (Some (n', i)) → k = k').
Definition net_ok (s : Net (E := E)) (H : list nat) : Prop :=
  table_ok (n_ports s) ∧
  NoDup (n_free s) ∧ (∀ i, i ∈ n_free s ↔ (i < MAX_BIND_PORT)%nat ∧ n_cells s !! i = None) ∧
  (∀ i, cell_ok (n_ports s) H i (n_cells s !! i)).

Lemma find_port_Some port ports k i : find_port port ports = Some (k, i) → ports !! k = Some (Some (port, i)).
Proof.
  rewrite /find_port. intros Hb. apply bind_Some in Hb as ([k' o] & Hf & Hq). apply list_find_Some in Hf as (Hk & Ho & _). destruct o as [[n j]|]; simplify_eq/=. done.
Qed.
Lemma find_port_None port ports : find_port port ports = None → ∀ k i, ports !! k ≠ Some (Some (port, i)).
Proof.
  rewrite /find_port. intros Hf k i Hk. destruct (list_find (λ p, fst <$> p = Some port) ports) as [[k' o]|] eqn:Hl.
  - apply list_find_Some in Hl as (_ & Ho & _). by destruct o.
  - apply list_find_None in Hl. by apply (Forall_lookup_1 _ _ _ _ Hl) in Hk.
Qed.
Lemma find_port_is ports port k i : table_ok ports → ports !! k = Some (Some (port, i)) → find_port port ports = Some (k, i).
Proof.
  intros (_ & Hn & _) Hk. destruct (find_port port ports) as [[k' i']|] eqn:Hf; [|by destruct (find_port_None _ _ Hf k i)].
  apply find_port_Some in Hf. assert (k' = k) as -> by (by apply (Hn k' k port i' i)). congruence.
Qed.

(** A cell that is held exists. *)
Lemma held_port s H i : net_ok s H → 0 < bound_refs i (n_ports s) + holders i H → ∃ c, n_cells s !! i = Some c ∧ cell_ok (n_ports s) H i (Some c).
Proof.
  intros (_ & _ & _ & Hc) Hpos. specialize (Hc i). destruct (n_cells s !! i) as [c|] eqn:Hi; [|simpl in Hc; lia]. eauto.
Qed.
(** A cell changes, and the references to it. *)
Lemma net_ok_update s H H' ports' i c c' :
  net_ok s H → n_cells s !! i = Some c → table_ok ports' → cell_ok ports' H' i (Some c') →
  (∀ j, j ≠ i → bound_refs j ports' = bound_refs j (n_ports s) ∧ holders j H' = holders j H) →
  net_ok (with_ports ports' (with_slab (n_free s) (<[i := c']> (n_cells s)) s)) H'.
Proof.
  intros (Ht & Hnd & Hfree & Hc) Hi Ht' Hc' Hother. split; [done|]. split; [done|]. simpl. split.
  - intros j. rewrite Hfree. destruct (decide (i = j)) as [<-|Hne]; [rewrite lookup_insert_eq; naive_solver|by rewrite lookup_insert_ne].
  - intros j. destruct (decide (i = j)) as [<-|Hne]; [by rewrite lookup_insert_eq|]. rewrite lookup_insert_ne //. specialize (Hc j).
    destruct (Hother j ltac:(congruence)) as [E1 E2]. destruct (n_cells s !! j); rewrite /cell_ok E1 E2; exact Hc.
Qed.
Lemma net_ok_ext s s' H : n_ports s' = n_ports s → n_free s' = n_free s → n_cells s' = n_cells s → net_ok s H → net_ok s' H.
Proof. intros Hp Hf Hc. by rewrite /net_ok Hp Hf Hc. Qed.
(** The ports stay, only references to one cell come or go. *)
Lemma net_ok_cell s H H' i c c' :
  net_ok s H → n_cells s !! i = Some c → cell_ok (n_ports s) H' i (Some c') → (∀ j, j ≠ i → holders j H' = holders j H) →
  net_ok (with_slab (n_free s) (<[i := c']> (n_cells s)) s) H'.
Proof. intros Hok Hi Hc' Hother. apply (net_ok_ext (with_ports (n_ports s) (with_slab (n_free s) (<[i := c']> (n_cells s)) s))); [done..|]. apply (net_ok_update s H H' _ i c); [done|done|apply Hok|done|auto]. Qed.

Lemma get_port_run i c s : n_cells s !! i = Some c → get_port i s = Ret c s.
Proof. intros Hc. by rewrite /get_port /mbind /M_bind /= Hc. Qed.

Lemma get_port_wp {A} i c (k : PortCell → M Net A) (Q : A → Net → Prop) s : n_cells s !! i = Some c → wp (k c) Q s → wp (get_port i ≫= k) Q s.
Proof. intros Hc Hk. by rewrite /wp (bind_Ret _ _ _ _ _ (get_port_run i c s Hc)). Qed.

(** ** Operations on a port *)

Lemma port_clone_run i c s :
  n_cells s !! i = Some c → port_clone i s = Ret i (with_slab (n_free s) (<[i := {| pc_strong := pc_strong c + 1; pc_queue := pc_queue c |}]> (n_cells s)) s).
Proof. intros Hc. by rewrite /port_clone (bind_Ret _ _ _ _ _ (get_port_run i c s Hc)). Qed.
Lemma port_clone_wp i s H :
  net_ok s H → 0 < bound_refs i (n_ports s) + holders i H → wp (port_clone i) (λ j s', j = i ∧ net_ok s' (i :: H) ∧ n_driver s' = n_driver s) s.
Proof.
  intros Hok Hpos. destruct (held_port s H i Hok Hpos) as (c & Hc & Hst & Hsp & Hlt & Hb & Hl). rewrite /wp (port_clone_run i c s Hc).
  split; [done|]. split; [|done]. apply (net_ok_cell s H (i :: H) i c); [done|done| |].
  - rewrite /cell_ok holders_cons decide_True //=. split; [lia|]. split; [lia|]. done.
  - intros j Hj. rewrite holders_cons decide_False; [lia|congruence].
Qed.
Lemma port_ref_wp port s H :
  net_ok s H →
  wp (port_ref port) (λ r s', n_driver s' = n_driver s ∧ match r with
    | Some i => net_ok s' (i :: H)
    | None => s' = s
    end) s.
Proof.
  intros Hok. rewrite /port_ref. apply wp_bind, wp_get. destruct (find_port port (n_ports s)) as [[k i]|] eqn:Hf; [|by apply wp_ret].
  apply find_port_Some, bound_refs_pos in Hf. apply wp_bind. eapply wp_mono; [apply (port_clone_wp i s H Hok)|].
  - pose proof (holders_pos i H). lia.
  - intros j s' (-> & Hok' & Hd). by apply wp_ret.
Qed.
Lemma on_pages_wp {A} (m : M E A) (Q : A → Net → Prop) s : (∃ a e, m (n_env s) = Ret a e) → (∀ a e, Q a (with_pages e s)) → wp (on_pages m) Q s.
Proof. intros (a & e & Hm) HQ. rewrite /wp /on_pages /zoom Hm. apply HQ. Qed.
Lemma give_page_wp (Q : unit → Net → Prop) s : (∀ e, Q tt (with_pages e s)) → wp (on_pages give_page) Q s.
Proof. intros HQ. destruct (give_page_total (n_env s)) as [e He]. apply on_pages_wp; [eauto|]. by intros []. Qed.
Lemma give_pages_wp (l : list Datagram) s : wp (for_each l (λ _, on_pages give_page)) (λ _ s', ∃ e, s' = with_pages e s) s.
Proof.
  eapply wp_mono; [apply (for_each_wp _ (λ _ s', ∃ e, s' = with_pages e s))|done].
  - intros d l' s' [e ->]. apply give_page_wp. intros e'. by exists e'.
  - exists (n_env s). by destruct s.
Qed.
(** The last reference gives the slot back. *)
Lemma port_drop_wp i s H : net_ok s (i :: H) → wp (port_drop i) (λ _ s', net_ok s' H ∧ n_driver s' = n_driver s ∧ n_ports s' = n_ports s) s.
Proof.
  intros Hok. pose proof (holders_pos i H) as Hp. destruct (held_port s (i :: H) i Hok) as (c & Hc & Hst & Hsp & Hlt & Hb & Hl).
  { rewrite holders_cons decide_True // /bound_refs. lia. }
  assert (∀ j, j ≠ i → holders j H = holders j (i :: H)) as Hother. { intros j Hj. rewrite holders_cons decide_False; [lia|congruence]. }
  rewrite holders_cons decide_True // in Hst. apply (get_port_wp i c); [done|].
  destruct (Z.eqb_spec (pc_strong c) 1) as [H1|H1].
  - apply wp_bind. eapply wp_mono; [apply give_pages_wp|]. intros _ s' [e ->]. apply wp_modify. split; [|done].
    destruct Hok as (Ht & Hnd & Hfree & Hcells). assert (bound_refs i (n_ports s) = 0 ∧ holders i H = 0) as [Hb0 Hh0] by (rewrite /bound_refs in Hst |- *; lia).
    split; [done|]. simpl. split; [|split].
    + apply NoDup_cons. split; [|done]. rewrite Hfree. intros [_ ?]. congruence.
    + intros j. rewrite elem_of_cons Hfree lookup_delete_None. naive_solver.
    + intros j. destruct (decide (i = j)) as [<-|Hne]; [rewrite lookup_delete_eq /=; lia|]. rewrite lookup_delete_ne //. specialize (Hcells j).
      destruct (n_cells s !! j); rewrite /cell_ok Hother //; congruence.
  - apply wp_modify. split; [|done]. apply (net_ok_cell s (i :: H) H i c); [done|done| |done]. split; [simpl; lia|]. split; [simpl; lia|]. done.
Qed.

(** A turn on a port: what the queue becomes, and that the reference stays. *)
Definition queue_step (k : PortCall) (q : PortQueue) : PortTurn * PortQueue :=
  match k with
  | PortReceive =>
      if pq_bound q then
        match pq_datagrams q with
        | d :: rest => (Return (Received (Ok d)), {| pq_bound := true; pq_datagrams := rest |})
        | [] => (Wait Receive (Some (Received (Err CallerProcessAlreadyKilled))) PortReceive, q)
        end
      else (Return (Received (Err PortNotBound)), q)
  | PortPush d =>
      if bool_decide (length (pq_datagrams q) < MAX_PORT_MSGS)%nat
      then (Return (Pushed true), {| pq_bound := pq_bound q; pq_datagrams := pq_datagrams q ++ [d] |})
      else (Return (Pushed false), q)
  | PortNotify => (Return Notified, q)
  | PortUnbind => (Return Unbound, {| pq_bound := false; pq_datagrams := pq_datagrams q |})
  end.
Lemma port_turn_run k q : ∃ ns, port_turn k {| lk_data := q; lk_notified := [] |} = Ret (queue_step k q).1 {| lk_data := (queue_step k q).2; lk_notified := ns |}.
Proof.
  destruct q as [b l], k as [|d| |]; simpl.
  - rewrite /wait_receive /mbind /M_bind /=. destruct b; [|by eexists]. destruct l; by eexists.
  - rewrite /push_back /mbind /M_bind /=. destruct (bool_decide _); by eexists.
  - by eexists.
  - by eexists.
Qed.
Lemma on_port_run i k c s :
  n_cells s !! i = Some c →
  ∃ ns, on_port i k s = Ret (queue_step k (pc_queue c)).1
    (with_port_notified ns (with_slab (n_free s) (<[i := {| pc_strong := pc_strong c; pc_queue := (queue_step k (pc_queue c)).2 |}]> (n_cells s)) s)).
Proof.
  intros Hc. destruct (port_turn_run k (pc_queue c)) as [ns Hrun]. eexists. rewrite /on_port (bind_Ret _ _ _ _ _ (get_port_run i c s Hc)) Hrun. reflexivity.
Qed.
(** Turns other than [unbind]. *)
Lemma queue_step_ok k q :
  k ≠ PortUnbind → (length (pq_datagrams q) ≤ MAX_PORT_MSGS)%nat →
  pq_bound (queue_step k q).2 = pq_bound q ∧ (length (pq_datagrams (queue_step k q).2) ≤ MAX_PORT_MSGS)%nat.
Proof.
  intros Hk Hl. destruct q as [b l], k as [|d| |]; simpl in Hl |- *; [|case_bool_decide; [rewrite /= length_app /=; split; [done|lia]|done]|done|done].
  destruct b; [|done]. destruct l; simpl in Hl |- *; split; [done|lia|done|lia].
Qed.
Lemma on_port_wp i k s H :
  net_ok s H → i ∈ H → k ≠ PortUnbind →
  wp (on_port i k) (λ t s', net_ok s' H ∧ n_driver s' = n_driver s ∧ n_ports s' = n_ports s ∧
    ∃ c, n_cells s !! i = Some c ∧ t = (queue_step k (pc_queue c)).1 ∧ n_cells s' = <[i := {| pc_strong := pc_strong c; pc_queue := (queue_step k (pc_queue c)).2 |}]> (n_cells s)) s.
Proof.
  intros Hok Hi Hk. pose proof (holders_in i H Hi). destruct (held_port s H i Hok) as (c & Hc & Hst & Hsp & Hlt & Hb & Hl). { rewrite /bound_refs. lia. }
  destruct (on_port_run i k c s Hc) as [ns Hrun]. rewrite /wp Hrun. destruct (queue_step_ok k (pc_queue c) Hk Hl) as [Eb Hl'].
  split; [|split; [done|split; [done|eauto]]]. apply (net_ok_ext (with_slab (n_free s) (<[i := {| pc_strong := pc_strong c; pc_queue := (queue_step k (pc_queue c)).2 |}]> (n_cells s)) s)); [done..|].
  apply (net_ok_cell s H H i c); [done|done| |done]. split; [done|]. split; [done|]. split; [done|]. rewrite /= Eb. done.
Qed.

(** ** Binding and unbinding *)

Lemma table_ok_free ports k port i :
  table_ok ports → ports !! k = Some None → (∀ k i, ports !! k ≠ Some (Some (port, i))) → bound_refs i ports = 0 → table_ok (<[k := Some (port, i)]> ports).
Proof.
  intros (Hl & Hn & Hu) Hk Hport Hi. assert (∀ k' n, ports !! k' ≠ Some (Some (n, i))) as Hni. { intros k' n Hk'. apply bound_refs_pos in Hk'. lia. }
  split; [by rewrite length_insert|]. pose proof (lookup_lt_Some _ _ _ Hk) as Hlt. split.
  - intros k1 k2 n i1 i2 H1 H2. apply list_lookup_insert_Some in H1 as [(<- & He1 & _)|[Hne1 H1]], H2 as [(<- & He2 & _)|[Hne2 H2]]; simplify_eq; try done.
    + by destruct (Hport k2 i2).
    + by destruct (Hport k1 i1).
    + by apply (Hn k1 k2 n i1 i2).
  - intros k1 k2 n1 n2 j H1 H2. apply list_lookup_insert_Some in H1 as [(<- & He1 & _)|[Hne1 H1]], H2 as [(<- & He2 & _)|[Hne2 H2]]; simplify_eq; try done.
    + by destruct (Hni k2 n2).
    + by destruct (Hni k1 n1).
    + by apply (Hu k1 k2 n1 n2 j).
Qed.
Lemma table_ok_clear ports k : table_ok ports → table_ok (<[k := None]> ports).
Proof.
  intros (Hl & Hn & Hu). split; [by rewrite length_insert|]. split.
  - intros k1 k2 n i1 i2 H1 H2. apply list_lookup_insert_Some in H1 as [(_ & [=] & _)|[_ H1]], H2 as [(_ & [=] & _)|[_ H2]]. by apply (Hn k1 k2 n i1 i2).
  - intros k1 k2 n1 n2 j H1 H2. apply list_lookup_insert_Some in H1 as [(_ & [=] & _)|[_ H1]], H2 as [(_ & [=] & _)|[_ H2]]. by apply (Hu k1 k2 n1 n2 j).
Qed.
Lemma bound_refs_clear ports k port i : table_ok ports → ports !! k = Some (Some (port, i)) → bound_refs i (<[k := None]> ports) = 0.
Proof.
  intros (_ & _ & Hu) Hk. rewrite /bound_refs. destruct (filter (λ p, snd <$> p = Some i) (<[k := None]> ports)) as [|o l] eqn:Ef; [done|].
  assert (o ∈ filter (λ p, snd <$> p = Some i) (<[k := None]> ports)) as [Ho Hin]%list_elem_of_filter by (rewrite Ef; by left).
  apply list_elem_of_lookup in Hin as [k' Hk']. apply list_lookup_insert_Some in Hk' as [(_ & <- & _)|[Hne Hk']]; [done|].
  destruct o as [[n j]|]; simplify_eq/=. destruct Hne. by apply (Hu k k' port n i).
Qed.
Lemma bind_wlp port s H :
  net_ok s H → wlp (bind port) (λ r s', net_ok s' H ∧ n_driver s' = n_driver s ∧ match r with
    | Ok _ => ∃ k i, n_ports s' !! k = Some (Some (port, i)) ∧ n_cells s' !! i = Some {| pc_strong := 1; pc_queue := port_queue_new true |}
    | Err e => s' = s ∧ (e = PortAlreadyBound ∨ e = NoFreePort)
    end) s.
Proof.
  intros Hok. rewrite /wlp /bind {1}/mbind /M_bind /=. destruct (find_port port (n_ports s)) eqn:Hf; [split_and!; auto|].
  destruct (find_slot (n_ports s)) as [k|] eqn:Hk; [|split_and!; auto].
  rewrite /find_slot in Hk. apply fmap_Some in Hk as ([k' o] & Hk & ->). apply list_find_Some in Hk as (Hk & -> & _). simpl.
  rewrite /port_new /mbind /M_bind /=. destruct Hok as (Ht & Hnd & Hfree & Hc). destruct (n_free s) as [|i free] eqn:Hfr; [done|]. simpl.
  apply NoDup_cons in Hnd as [Hnif Hnd]. destruct (proj1 (Hfree i) ltac:(by left)) as [Hlt Hi].
  pose proof (Hc i) as Hci. rewrite Hi /= in Hci. pose proof (holders_pos i H) as Hh. assert (bound_refs i (n_ports s) = 0 ∧ holders i H = 0) as [Hb0 Hh0] by (rewrite /bound_refs in Hci |- *; lia).
  pose proof (λ j, bound_refs_insert j (n_ports s) k' None (Some (port, i)) Hk) as Hbr. split.
  - split; [apply table_ok_free; [done|done|exact (find_port_None _ _ Hf)|done]|]. split; [done|]. simpl. split.
    + intros j. destruct (decide (i = j)) as [<-|Hne]; [rewrite lookup_insert_eq; naive_solver|]. rewrite lookup_insert_ne // -Hfree elem_of_cons. naive_solver.
    + intros j. specialize (Hbr j). simpl in Hbr. destruct (decide (i = j)) as [<-|Hne].
      * rewrite lookup_insert_eq. rewrite decide_True // in Hbr. split; [simpl; lia|]. split; [done|]. split; [done|]. simpl. split; [|lia]. split; [done|lia].
      * rewrite lookup_insert_ne //. rewrite decide_False in Hbr; [|congruence]. assert (bound_refs j (<[k' := Some (port, i)]> (n_ports s)) = bound_refs j (n_ports s)) as Ej by lia.
        specialize (Hc j). destruct (n_cells s !! j); rewrite /cell_ok Ej; exact Hc.
  - split; [done|]. exists k', i. simpl. rewrite list_lookup_insert_eq; [|by apply lookup_lt_Some in Hk]. by rewrite lookup_insert_eq.
Qed.
Lemma unbind_wp port s H :
  net_ok s H → wp (unbind port) (λ r s', net_ok s' H ∧ n_driver s' = n_driver s ∧ find_port port (n_ports s') = None) s.
Proof.
  intros Hok. rewrite /unbind. apply wp_bind, wp_get. destruct (find_port port (n_ports s)) as [[k i]|] eqn:Hf; [|by apply wp_ret].
  apply find_port_Some in Hf as Hk. apply wp_bind, wp_modify. pose proof (bound_refs_pos i _ _ _ Hk) as Hbp. pose proof (holders_pos i H) as Hh.
  destruct (held_port s H i Hok ltac:(lia)) as (c & Hc & Hst & Hsp & Hlt & Hb & Hl).
  assert (n_cells (with_ports (<[k := None]> (n_ports s)) s) !! i = Some c) as Hc' by done. destruct (on_port_run i PortUnbind c _ Hc') as [ns Hrun].
  apply wp_bind, (wp_of_run _ _ _ _ _ Hrun).
  pose proof Hok as (Ht & _). pose proof (λ j, bound_refs_insert j (n_ports s) k _ None Hk) as Hbr. simpl in Hbr.
  pose proof (bound_refs_clear _ k port i Ht Hk) as Hb0.
  assert (net_ok (with_port_notified ns (with_slab (n_free s) (<[i := {| pc_strong := pc_strong c; pc_queue := (queue_step PortUnbind (pc_queue c)).2 |}]> (n_cells s))
    (with_ports (<[k := None]> (n_ports s)) s))) (i :: H)) as Hok'.
  { apply (net_ok_ext (with_ports (<[k := None]> (n_ports s)) (with_slab (n_free s) (<[i := {| pc_strong := pc_strong c; pc_queue := (queue_step PortUnbind (pc_queue c)).2 |}]> (n_cells s)) s))); [done..|].
    apply (net_ok_update s H (i :: H) _ i c); [done|done|by apply table_ok_clear| |].
    - specialize (Hbr i). rewrite decide_True // in Hbr. rewrite /cell_ok holders_cons decide_True // Hb0 /=. split; [lia|]. split; [done|]. split; [done|]. split; [done|done].
    - intros j Hj. specialize (Hbr j). rewrite decide_False in Hbr; [|congruence]. rewrite holders_cons decide_False; [lia|congruence]. }
  apply wp_bind. eapply wp_mono; [exact (port_drop_wp i _ H Hok')|]. intros _ s' (Hok'' & Ed & Ep). apply wp_ret. split; [done|]. split; [done|]. rewrite Ep /=.
  destruct (find_port port (<[k := None]> (n_ports s))) as [[k' i']|] eqn:Hf'; [|done]. apply find_port_Some, list_lookup_insert_Some in Hf' as [(_ & [=] & _)|[Hne Hk']].
  destruct Ht as (_ & Hn & _). destruct Hne. by apply (Hn k k' port i i').
Qed.

(** ** Received packets *)

Lemma udp_deliver_wp port d s H :
  net_ok s H → Z.of_nat (length (dg_data d)) ≤ E_PAGE_SIZE → wp (udp_deliver port d) (λ _ s', net_ok s' H ∧ n_driver s' = n_driver s) s.
Proof.
  intros Hok Hlen. apply wp_bind. eapply wp_mono; [exact (port_ref_wp port s H Hok)|]. intros r s1 [Ed1 Hr]. destruct r as [i|]; [|apply wp_ret; by subst].
  apply wp_bind, on_pages_wp; [apply take_page_total|]. intros page e. apply wp_bind.
  apply (wp_mono _ (λ _ s', net_ok s' (i :: H) ∧ n_driver s' = n_driver s)); last first.
  { intros _ s2 [Hok2 Ed2]. eapply wp_mono; [exact (port_drop_wp i s2 H Hok2)|]. intros _ s3 (? & ? & _). split; [done|congruence]. }
  assert (net_ok (with_pages e s1) (i :: H)) as Hok1 by done. destruct page; [|by apply wp_ret]. apply wp_bind. rewrite bool_decide_true //. apply wp_ret.
  apply wp_bind. eapply wp_mono; [exact (on_port_wp i (PortPush d) _ (i :: H) Hok1 ltac:(by left) ltac:(done))|]. intros t s2 (Hok2 & Ed2 & _).
  apply wp_bind. apply (wp_mono _ (λ _ s', net_ok s' (i :: H) ∧ n_driver s' = n_driver s)); last first.
  { intros _ s3 [Hok3 Ed3]. apply wp_bind. eapply wp_mono; [exact (on_port_wp i PortNotify _ (i :: H) Hok3 ltac:(by left) ltac:(done))|].
    intros t' s4 (Hok4 & Ed4 & _). apply wp_ret. split; [done|congruence]. }
  assert (n_driver s2 = n_driver s) as Ed2' by (simpl in Ed2; congruence).
  destruct t as [[| [|] | |]|]; try (by apply wp_ret). apply give_page_wp. intros e'. done.
Qed.
Lemma transmit_own packet (k : nat → DriverM unit) d :
  tx_ok d → packet_ok packet →
  (∀ i d1, tx_buffer i d1 = Ret (zeroes (Z.to_nat E_PAGE_SIZE)) d1 →
    k i d1 = (set_tx_buffer i (packet ++ drop (length packet) (zeroes (Z.to_nat E_PAGE_SIZE)));; set_len i (Z.of_nat (length packet));; tx_send i) d1) →
  ∃ d', (tx ← transmitter; tx ← unwrap tx; k tx) d = Ret tt d' ∧ transmit packet d = Ret true d'.
Proof.
  intros Hok Hp Hk. destruct (transmit_parts d packet Hok Hp) as (i & d1 & d' & Htr & Hb & Hfin & Hrun). exists d'. split; [|done].
  rewrite (bind_Ret _ _ _ _ _ Htr) (bind_Ret (unwrap (Some i)) _ d1 i d1 eq_refl) Hk //.
Qed.
Definition reply (eth : Eth) (arp : Arp) : list byte :=
  eth_to {| eth_dhost := eth_shost eth; eth_shost := LOCAL_MAC; eth_ty := to_be 2 (ethtype_no EthArp) |} ++
  arp_to (arp_fill ArpEthernet EthIpv4 6 4 ArpReply LOCAL_MAC LOCAL_IP (eth_shost eth) (sender_paddr arp) arp).
Lemma arp_reply_run eth arp d :
  tx_ok d → length (eth_shost eth) = 6%nat → ∃ d', arp_reply eth arp d = Ret tt d' ∧ transmit (reply eth arp) d = Ret true d'.
Proof.
  intros Hok Hs. assert (length (reply eth arp) = 42%nat) as Hl. { rewrite /reply /eth_to /arp_to /arp_fill /=. by rewrite !length_app /= !length_app Hs. }
  apply (transmit_own (reply eth arp)); [done|by rewrite /packet_ok Hl|]. intros i d1 Hb. rewrite (bind_Ret _ _ _ _ _ Hb).
  rewrite (bind_Ret _ _ _ _ _ (split_zeroes ETH_SIZE (Z.to_nat E_PAGE_SIZE) d1 ltac:(by apply Nat.leb_le))). cbv beta iota zeta.
  rewrite (bind_Ret _ _ _ _ _ (split_zeroes ARP_SIZE (Z.to_nat E_PAGE_SIZE - ETH_SIZE) d1 ltac:(by apply Nat.leb_le))).
  rewrite Hl. by rewrite /reply -app_assoc /zeroes drop_replicate.
Qed.
Lemma split_checked_length {A} n (l a b : list A) : split_at_checked n l = Some (a, b) → length a = n ∧ (length a + length b = length l)%nat.
Proof. rewrite /split_at_checked. case_bool_decide; [|done]. intros [= <- <-]. rewrite length_take length_drop. lia. Qed.
Lemma udp_parse_length ip body port d : udp_parse ip body = Some (port, d) → (length (dg_data d) ≤ length body)%nat.
Proof.
  rewrite /udp_parse. intros Hp. apply bind_Some in Hp as ([udp rest] & H1 & Hp). apply bind_Some in Hp as ([payload rest'] & H2 & [= <- <-]).
  apply split_checked_length in H1, H2. simpl. lia.
Qed.
Definition stack_ok (s : Net (E := E)) (H : list nat) : Prop := net_ok s H ∧ tx_ok (n_driver s).
Lemma handle_receive_wp bytes s H :
  stack_ok s H → Z.of_nat (length bytes) ≤ E_PAGE_SIZE → wp (handle_receive bytes) (λ _ s', stack_ok s' H) s.
Proof.
  intros [Hok Htx] Hlen. rewrite /handle_receive. destruct (split_at_checked ETH_SIZE bytes) as [[eth body]|] eqn:H1; [|by apply wp_ret].
  apply split_checked_length in H1 as [Hle Hl1]. destruct (ty (eth_of eth)) as [[]|]; [| |by apply wp_ret].
  - rewrite /ipv4_handle_receive. destruct (split_at_checked IPV4_SIZE body) as [[ip body']|] eqn:H2; [|by apply wp_ret].
    apply split_checked_length in H2 as [_ Hl2]. destruct (protocol (ipv4_of ip)) as [[]|]; [by apply wp_ret..| |by apply wp_ret].
    rewrite /udp_handle_receive. destruct (udp_parse _ body') as [[port d]|] eqn:H3; [|by apply wp_ret]. apply udp_parse_length in H3.
    eapply wp_mono; [apply (udp_deliver_wp port d s H Hok); lia|]. intros _ s' [Hok' Ed]. split; [done|by rewrite Ed].
  - rewrite /arp_handle_receive. destruct (split_at_checked ARP_SIZE body) as [[arp rest]|]; [|by apply wp_ret].
    apply wp_bind, wp_gets. apply wp_bind, wp_modify. destruct (n_arp_seen s); [by apply wp_ret|].
    assert (length (eth_shost (eth_of eth)) = 6%nat) as Hs. { rewrite /eth_of /= slice_length; [done|]. rewrite Hle /ETH_SIZE. lia. }
    destruct (arp_reply_run (eth_of eth) (arp_of arp) (n_driver s) Htx Hs) as (d' & Hrun & Htr). rewrite /wp /on_driver /zoom. cbn [n_driver with_arp]. rewrite Hrun.
    split; [done|]. simpl. assert (packet_ok (reply (eth_of eth) (arp_of arp))) as Hp.
    { rewrite /packet_ok /reply /eth_to /arp_to /arp_fill /=. by rewrite !length_app /= !length_app Hs. }
    by destruct (wp_ret_inv _ _ _ _ _ (transmit_wp _ _ Htx Hp) Htr) as (_ & ? & _).
Qed.
(** A datagram for a bound port with room is queued there. *)
Lemma udp_deliver_accepts port d s H k i c e :
  net_ok s H → n_ports s !! k = Some (Some (port, i)) → n_cells s !! i = Some c → (length (pq_datagrams (pc_queue c)) < MAX_PORT_MSGS)%nat →
  Z.of_nat (length (dg_data d)) ≤ E_PAGE_SIZE → take_page (n_env s) = Ret true e →
  ∃ s', udp_deliver port d s = Ret tt s' ∧
    n_cells s' !! i = Some {| pc_strong := pc_strong c; pc_queue := {| pq_bound := pq_bound (pc_queue c); pq_datagrams := pq_datagrams (pc_queue c) ++ [d] |} |}.
Proof.
  intros Hok Hk Hi Hroom Hlen Hpage. pose proof Hok as (Ht & _ & _ & Hcells). specialize (Hcells i). rewrite Hi in Hcells. destruct Hcells as (_ & Hsp & _).
  set (c1 := {| pc_strong := pc_strong c + 1; pc_queue := pc_queue c |}). set (s1 := with_slab (n_free s) (<[i := c1]> (n_cells s)) s).
  assert (port_ref port s = Ret (Some i) s1) as Href.
  { by rewrite /port_ref (bind_Ret get _ s s s eq_refl) (find_port_is _ _ _ _ Ht Hk) (bind_Ret _ _ _ _ _ (port_clone_run i c s Hi)). }
  assert (n_cells (with_pages e s1) !! i = Some c1) as Hc1 by apply lookup_insert_eq.
  destruct (on_port_run i (PortPush d) c1 _ Hc1) as [ns Hpush]. cbn [queue_step pc_queue c1] in Hpush. rewrite bool_decide_true // in Hpush. cbn [fst snd] in Hpush.
  set (s2 := with_port_notified ns _) in Hpush. set (c2 := {| pc_strong := pc_strong c + 1; pc_queue := {| pq_bound := pq_bound (pc_queue c); pq_datagrams := pq_datagrams (pc_queue c) ++ [d] |} |}).
  assert (n_cells s2 !! i = Some c2) as Hc2 by apply lookup_insert_eq. destruct (on_port_run i PortNotify c2 s2 Hc2) as [ns' Hnot]. cbn [queue_step fst snd] in Hnot.
  set (s3 := with_port_notified ns' _) in Hnot. assert (n_cells s3 !! i = Some c2) as Hc3 by apply lookup_insert_eq.
  eexists. split.
  - rewrite /udp_deliver (bind_Ret _ _ _ _ _ Href). rewrite (bind_Ret (on_pages take_page) _ s1 true (with_pages e s1)); [|by rewrite /on_pages /zoom /= Hpage].
    rewrite bool_decide_true //. rewrite (bind_Ret _ _ (with_pages e s1) tt s3).
    + rewrite /port_drop (bind_Ret _ _ _ _ _ (get_port_run i c2 s3 Hc3)). rewrite (proj2 (Z.eqb_neq (pc_strong c2) 1)); [|rewrite /c2 /=; lia]. reflexivity.
    + rewrite (bind_Ret (assert_ true) _ _ tt (with_pages e s1)) // (bind_Ret _ _ _ _ _ Hpush) (bind_Ret (mret tt) _ s2 tt s2) // (bind_Ret _ _ _ _ _ Hnot). done.
  - simpl. rewrite lookup_insert_eq. do 2 f_equal. rewrite /c2 /=. lia.
Qed.
End net_ok.

(** ** Receivers

    [udp::handle_receive] notifies after it has released the queue: the pushes that were not yet followed by their notification
    are counted. *)

Definition counted_turn (k : PortCall) : M (Locked (PortQueue * nat) PortCond) PortTurn := λ l,
  match port_turn k {| lk_data := (lk_data l).1; lk_notified := lk_notified l |} with
  | Ret t l' =>
      Ret t {| lk_data := (lk_data l', match k with PortPush _ => S (lk_data l).2 | PortNotify => pred (lk_data l).2 | _ => (lk_data l).2 end);
               lk_notified := lk_notified l' |}
  | Panic => Panic
  end.
Definition port_blocked (c : PortCond) (d : PortQueue * nat) : Prop := pq_bound d.1 = true ∧ (pq_datagrams d.1 = [] ∨ d.2 ≠ 0%nat).
Lemma counted_turn_wp k d :
  wp (counted_turn k) (λ o l,
    True ∧ (∀ c, port_blocked c d → c ∈ lk_notified l ∨ port_blocked c (lk_data l)) ∧
    match o with
    | Return _ => True
    | Wait c _ _ => port_blocked c (lk_data l) ∧ True
    end) {| lk_data := d; lk_notified := [] |}.
Proof.
  destruct d as [[b l] n]. rewrite /wp /counted_turn. destruct k as [|d| |]; simpl.
  - rewrite /wait_receive /mbind /M_bind /=. destruct b; [|split; [done|]; split; [by intros c [? _]|done]].
    destruct l as [|d l]; (split; [done|]); (split; [|by repeat (split || left)]); intros c [_ Hb]; simpl in Hb; right; split; [done|left; done|done|by destruct Hb; [|right]].
  - rewrite /push_back /mbind /M_bind /=. destruct (bool_decide _); (split; [done|]); (split; [|done]); intros c [Hb _]; right; (split; [done|by right]).
  - split; [done|]. split; [|done]. intros [] _. left. by left.
  - split; [done|]. split; [|done]. intros [] _. left. by left.
Qed.
#[export] Instance port_monitor : Monitor counted_turn := {|
  call_ok _ := True;
  m_inv _ := True;
  blocked := port_blocked;
  turn_wp k d _ _ := counted_turn_wp k d;
|}.
(** A receiver sleeps only on a bound port without datagrams, once the deliveries in progress have notified it. *)
Theorem receivers_sleep s i t killed k n :
  reachable counted_turn (λ _, True) (port_queue_new true, 0%nat) s → (∀ c, m_total s c < 2 ^ 64) →
  m_threads s !! i = Some t → t_pc t = Asleep Receive killed k n false → (m_data s).2 = 0%nat →
  pq_bound (m_data s).1 = true ∧ pq_datagrams (m_data s).1 = [].
Proof.
  intros Hr Hb Hi Hpc Hz. pose proof (asleep_blocked counted_turn (port_queue_new true, 0%nat) s i t Receive killed k n) as Hs.
  destruct (Hs I Hr Hb Hi Hpc) as [[Hbound [Hempty|Hne]] _]; [done|congruence].
Qed.

(** ** The system *)

Section system.
Context {E : Type} `{!PageSource E}.

(** The operations of the stack between their locks: those of the table, the turns of an operation on a port it holds, and the
    packets the driver handles in between. *)
Inductive net_step : Net (E := E) * list nat → Net (E := E) * list nat → Prop :=
  | net_bind s H port r s' : bind port s = Ret r s' → net_step (s, H) (s', H)
  | net_unbind s H port r s' : unbind port s = Ret r s' → net_step (s, H) (s', H)
  | net_ref s H port i s' : port_ref port s = Ret (Some i) s' → net_step (s, H) (s', i :: H)
  | net_turn s H i k t s' : i ∈ H → k ≠ PortUnbind → on_port i k s = Ret t s' → net_step (s, H) (s', H)
  | net_drop s H i H' s' : H ≡ₚ i :: H' → port_drop i s = Ret tt s' → net_step (s, H) (s', H')
  | net_packet s H bytes s' : Z.of_nat (length bytes) ≤ E_PAGE_SIZE → handle_receive bytes s = Ret tt s' → net_step (s, H) (s', H)
  | net_send s H sp dst bytes r d' : udp_send sp dst bytes (n_driver s) = Ret r d' → net_step (s, H) (with_driver d' s, H)
  | net_card s H packet d' : card_transmit (n_driver s) = Some (packet, d') → net_step (s, H) (with_driver d' s, H)
  | net_pages s H e : net_step (s, H) (with_pages e s, H).
(** The stack after [init], with an initialized card. *)
Definition net_init (d : Driver) (e : E) : Net :=
  {| n_arp_seen := false; n_ports := replicate MAX_BIND_PORT None; n_free := seq 0 MAX_BIND_PORT; n_cells := ∅; n_notified := []; n_driver := d; n_env := e |}.
Inductive net_reachable : Net (E := E) * list nat → Prop :=
  | net_reach_init d e : initialized d → net_reachable (net_init d e, [])
  | net_reach_step t t' : net_reachable t → net_step t t' → net_reachable t'.

Lemma net_init_ok d e : initialized d → stack_ok (net_init d e) [].
Proof.
  intros Hd. split; [|by apply (initialized_ok d)]. split; [|split; [apply NoDup_seq|split]].
  - split; [apply length_replicate|]. split; intros * Hk; by apply lookup_replicate in Hk as [? _].
  - intros i. rewrite elem_of_seq /= lookup_empty. naive_solver lia.
  - intros i. rewrite /= lookup_empty. done.
Qed.
Lemma net_ok_perm (s : Net (E := E)) H H' : H ≡ₚ H' → net_ok s H → net_ok s H'.
Proof.
  intros HH (Ht & Hnd & Hf & Hc). split; [done|]. split; [done|]. split; [done|]. intros i. specialize (Hc i). rewrite /cell_ok in Hc |- *.
  by rewrite -(holders_perm i H H' HH).
Qed.
Lemma udp_send_ok sp dst bytes d r d' : tx_ok d → udp_send sp dst bytes d = Ret r d' → tx_ok d'.
Proof.
  intros Hok Hrun. destruct (decide (Z.of_nat (PACKET_HEADERS + length bytes) ≤ E_PAGE_SIZE)) as [Hl|Hl].
  - pose proof (udp_send_run sp dst bytes d Hok Hl) as Hs. destruct (_ <? _); [|congruence]. destruct Hs as (d1 & Htr & Hs). rewrite Hs in Hrun. simplify_eq.
    assert (packet_ok (frame sp dst bytes)) as Hp by (rewrite /packet_ok frame_length; rewrite /PACKET_HEADERS in Hl |- *; simpl in Hl |- *; lia).
    by destruct (wp_ret_inv _ _ _ _ _ (transmit_wp d _ Hok Hp) Htr) as (_ & ? & _).
  - rewrite /udp_send in Hrun. rewrite (proj2 (Z.ltb_lt _ _)) in Hrun; [by injection Hrun as _ <-|]. rewrite /PACKET_HEADERS /ETH_SIZE /IPV4_SIZE /UDP_SIZE in Hl |- *. lia.
Qed.
Lemma net_step_ok t t' : net_step t t' → stack_ok t.1 t.2 → stack_ok t'.1 t'.2.
Proof.
  intros Hst [Hok Htx]. destruct Hst as [s H port r s' Hrun|s H port r s' Hrun|s H port i s' Hrun|s H i k t s' Hi Hk Hrun|s H i H' s' HH Hrun|s H bytes s' Hl Hrun
    |s H sp dst bytes r d' Hrun|s H packet d' Hrun|s H e]; simpl in Hok, Htx |- *.
  - destruct (wlp_ret_inv _ _ _ _ _ (bind_wlp port s H Hok) Hrun) as (Hok' & Ed & _). split; [done|by rewrite Ed].
  - destruct (wp_ret_inv _ _ _ _ _ (unbind_wp port s H Hok) Hrun) as (Hok' & Ed & _). split; [done|by rewrite Ed].
  - destruct (wp_ret_inv _ _ _ _ _ (port_ref_wp port s H Hok) Hrun) as [Ed Hok']. split; [done|by rewrite Ed].
  - destruct (wp_ret_inv _ _ _ _ _ (on_port_wp i k s H Hok Hi Hk) Hrun) as (Hok' & Ed & _). split; [done|by rewrite Ed].
  - destruct (wp_ret_inv _ _ _ _ _ (port_drop_wp i s H' (net_ok_perm s H _ HH Hok)) Hrun) as (Hok' & Ed & _). split; [done|by rewrite Ed].
  - exact (wp_ret_inv _ _ _ _ _ (handle_receive_wp bytes s H (conj Hok Htx) Hl) Hrun).
  - split; [done|]. exact (udp_send_ok sp dst bytes _ r d' Htx Hrun).
  - split; [done|]. by destruct (card_transmit_ok _ packet d' Htx Hrun).
  - done.
Qed.
Lemma net_reachable_ok t : net_reachable t → stack_ok t.1 t.2.
Proof. induction 1 as [d e Hd|t t' Hr IH Hst]; [by apply net_init_ok|exact (net_step_ok t t' Hst IH)]. Qed.

(** C7: no packet can make the kernel panic: in every state that binding, unbinding, sending and receiving in any
    interleaving can reach, the handler of received packets returns, whatever the bytes of the packet are, and
    leaves a state in which every port number is bound at most once and every port is referenced as often as its count says. *)
Theorem received_packets_safe s H bytes :
  net_reachable (s, H) → Z.of_nat (length bytes) ≤ E_PAGE_SIZE →
  ∃ s', handle_receive bytes s = Ret tt s' ∧ net_reachable (s', H) ∧
    (∀ k k' port i i', n_ports s' !! k = Some (Some (port, i)) → n_ports s' !! k' = Some (Some (port, i')) → k = k') ∧
    (∀ i c, n_cells s' !! i = Some c → pc_strong c = bound_refs i (n_ports s') + holders i H).
Proof.
  intros Hr Hl. pose proof (net_reachable_ok _ Hr) as Hok. destruct (wp_run _ _ _ (handle_receive_wp bytes s H Hok Hl)) as ([] & s' & Hrun & Hok' & _).
  exists s'. split; [done|]. split; [by eapply net_reach_step; [exact Hr|apply (net_packet s H bytes)]|]. destruct Hok' as ((_ & Hn & _) & _ & _ & Hc). split; [done|].
  intros i c Hi. specialize (Hc i). rewrite Hi in Hc. apply Hc.
Qed.

(** C30: what is sent arrives: when [send] succeeds, the card gets one packet more, with a valid IPv4 checksum, and a stack
    that receives this packet, with any padding, and has the port bound with room in its queue puts a datagram there with the
    bytes that were sent and the sender's address and port. *)
Theorem udp_roundtrip sp dst bytes d d' n :
  tx_ok d → dist TX_RING_SIZE (reg d Tdh) (reg d Tdt) < TX_RING_SIZE - 1 → 0 ≤ sp < 2 ^ 16 → 0 ≤ dst.2 < 2 ^ 16 →
  udp_send sp dst bytes d = Ret (Ok n) d' →
  n = Z.of_nat (length bytes) ∧
  ∃ packet, tx_pending d' = tx_pending d ++ [packet] ∧ sum_words (slice ETH_SIZE IPV4_SIZE packet) mod 0xffff = 0 ∧
    ∀ pad (s : Net (E := E)) H k i c e,
      net_ok s H → n_ports s !! k = Some (Some (dst.2, i)) → n_cells s !! i = Some c → (length (pq_datagrams (pc_queue c)) < MAX_PORT_MSGS)%nat →
      take_page (n_env s) = Ret true e →
      ∃ s' c', handle_receive (packet ++ pad) s = Ret tt s' ∧ n_cells s' !! i = Some c' ∧
        pq_datagrams (pc_queue c') = pq_datagrams (pc_queue c) ++ [{| dg_src := (LOCAL_IP, sp); dg_data := bytes |}].
Proof.
  intros Hok Hroom Hsp Hdp Hrun. destruct (decide (Z.of_nat (PACKET_HEADERS + length bytes) ≤ E_PAGE_SIZE)) as [Hl|Hl]; last first.
  { rewrite /udp_send in Hrun. rewrite (proj2 (Z.ltb_lt _ _)) in Hrun; [done|]. rewrite /PACKET_HEADERS /ETH_SIZE /IPV4_SIZE /UDP_SIZE in Hl |- *. lia. }
  pose proof (udp_send_run sp dst bytes d Hok Hl) as Hs. destruct (Z.ltb_spec (sent_carry dst.1 (length bytes)) (2 ^ 16)) as [Hc|Hc]; [|congruence].
  destruct Hs as (d1 & Htr & Hs). rewrite Hs in Hrun. injection Hrun as <- <-. split; [done|]. exists (frame sp dst bytes).
  assert (packet_ok (frame sp dst bytes)) as Hp by (rewrite /packet_ok frame_length; rewrite /PACKET_HEADERS in Hl |- *; simpl in Hl |- *; lia).
  destruct (wp_ret_inv _ _ _ _ _ (transmit_wp d _ Hok Hp) Htr) as (_ & _ & _ & Hpend). split; [by apply Hpend|]. split.
  - rewrite /frame (slice_app_r (eth_to sent_eth)) // slice_app_l; [|by rewrite ipv4_to_length; [|apply set_sum_wf, sent_ipv4_wf]].
    pose proof (compute_sum_wlp (sent_ipv4 dst.1 (length bytes)) tt (sent_ipv4_wf _ _) eq_refl) as Hv.
    destruct (compute_sum _ tt) as [h []|]; [|rewrite /sent_carry in Hc; lia]. by destruct Hv as (_ & Hv & -> & _).
  - intros pad s H k i c e Hnet Hk Hi Hq Hpage. rewrite handle_receive_frame //.
    destruct (udp_deliver_accepts dst.2 {| dg_src := (LOCAL_IP, sp); dg_data := bytes |} s H k i c e Hnet Hk Hi Hq) as (s' & Hrun & Hc'); [simpl; lia|done|].
    eexists s', _. split; [exact Hrun|]. split; [exact Hc'|done].
Qed.

(** [send] panics exactly for destinations where adding the carries of the header sum carries once more. *)
Theorem send_panics sp dst bytes d :
  tx_ok d → Z.of_nat (PACKET_HEADERS + length bytes) ≤ E_PAGE_SIZE → udp_send sp dst bytes d = Panic ↔ 2 ^ 16 ≤ sent_carry dst.1 (length bytes).
Proof.
  intros Hok Hl. pose proof (udp_send_run sp dst bytes d Hok Hl) as Hs. destruct (Z.ltb_spec (sent_carry dst.1 (length bytes)) (2 ^ 16)) as [Hc|Hc].
  - destruct Hs as (d1 & _ & ->). split; [done|lia].
  - done.
Qed.
(** For example an empty datagram to 255.255.74.196. *)
Lemma bad_destination : 2 ^ 16 ≤ sent_carry (ipv4_addr 255 255 74 196) 0.
Proof. by vm_compute. Qed.
End system.

(** ** Runs *)

Module Example.
#[local] Instance endless_pages : PageSource unit.
Proof. refine {| take_page := mret true; give_page := mret tt |}; eauto. Defined.

(** A port that was unbound while a receiver sleeps keeps its slot: with all ports in use, the next [bind] panics instead of
    failing. *)
Theorem bind_panics_while_receiver_sleeps d :
  (for_each (seqZ 1 16) (λ p, bind p;; mret tt);; port_ref 1;; unbind 1;; bind 17) (net_init d tt) = Panic.
Proof. vm_compute. reflexivity. Qed.

Lemma bound_reachable d : initialized d → net_reachable (match bind 7 (net_init d tt) with Ret _ s => s | Panic => net_init d tt end, []).
Proof. intros Hd. eapply net_reach_step; [by apply (net_reach_init d tt)|]. apply (net_bind _ _ 7 (Ok tt)). reflexivity. Qed.
Lemma received_packets_safe_witness :
  ∃ d s', initialized d ∧ handle_receive (frame 9 (LOCAL_IP, 7) [Byte.x68; Byte.x69]) (match bind 7 (net_init d tt) with Ret _ s => s | Panic => net_init d tt end) = Ret tt s'.
Proof.
  destruct E1000.Example.can_initialize as [d Hd]. exists d.
  destruct (received_packets_safe _ [] (frame 9 (LOCAL_IP, 7) [Byte.x68; Byte.x69]) (bound_reachable d Hd) ltac:(done)) as (s' & Hrun & _). exists s'. exact (conj Hd Hrun).
Defined.
Lemma udp_roundtrip_witness :
  ∃ d d' packet, udp_send 9 (LOCAL_IP, 7) [Byte.x68; Byte.x69] d = Ret (Ok 2) d' ∧ tx_pending d' = tx_pending d ++ [packet].
Proof.
  destruct E1000.Example.can_initialize as [d Hd]. destruct (initialized_ok d Hd) as (Htx & _). simpl in Htx.
  pose proof Hd as (rxs & txs & a & b & _ & _ & Hinit). pose proof (wlp_ret_inv _ _ _ _ _ (e1000_init_wlp a b (driver_new rxs txs)) Hinit) as (_ & _ & _ & _ & Eth & Ett & _).
  pose proof (udp_send_run 9 (LOCAL_IP, 7) [Byte.x68; Byte.x69] d Htx ltac:(done)) as Hs.
  assert (sent_carry (LOCAL_IP, 7).1 (length [Byte.x68; Byte.x69]) <? 2 ^ 16 = true) as Hc by (vm_compute; reflexivity). rewrite Hc in Hs.
  destruct Hs as (d' & _ & Hs). exists d, d'.
  destruct (udp_roundtrip (E := unit) 9 (LOCAL_IP, 7) [Byte.x68; Byte.x69] d d' 2 Htx ltac:(rewrite Eth Ett; reflexivity) ltac:(split; [discriminate|reflexivity])
    ltac:(split; [discriminate|reflexivity]) Hs) as (_ & packet & Hp & _).
  exists packet. exact (conj Hs Hp).
Defined.
End Example.
