(* ===== verification/BufIo.v ===== *)
(** * Buffered output

    Model of [crates/user/ov6_user_lib/src/error.rs] and of the writing half of [io]: the trait [Write] of [mod.rs] with its provided
    method, [BufWriter], [LineWriter] with its shim, and the writers of [stdio.rs]. *)

From stdpp Require Import base list ssreflect.
From S2P Require Import Prelude KError.

(** ** Errors *)

Inductive Ov6Error : Type :=
  | NotPermitted | OvFsEntryNotFound | OvProcessNotFound | Io | OvDeviceNotFound | OvArgumentListTooLong | ExecFormat | BadFileDescriptor
  | NoChildProcess | ResourceTempolaryUnavailable | OutOfMemory | PermissionDenied | BadAddress | ResourceBusy | AlreadyExists
  | CrossesDevices | NoSuchDevice | NotADirectory | IsADirectory | InvalidInput | TooManyOpenFilesSystem | TooManyOpenFiles
  | ExecutableFileBusy | OvFileTooLarge | StorageFull | NotSeekable | ReadOnlyFilesystem | TooManyLinks | OvBrokenPipe | InvalidFilename
  | DirectoryNotEmpty | MessageTooLong | AddrInUse
  | InvalidUtf8 | ReadExactEof | WriteAllEof | WriteZero | OvUnknown.
Definition is_interrupted (e : Ov6Error) : bool := false.
(** [From<SyscallError>]. *)
Definition ov6_error_of (e : SyscallError) : Ov6Error :=
  match e with
  | SysNotPermitted => NotPermitted | SysFsEntryNotFound => OvFsEntryNotFound | SysProcessNotFound => OvProcessNotFound | SysIo => Io
  | SysDeviceNotFound => OvDeviceNotFound | SysArgumentListTooLong => OvArgumentListTooLong | SysExecFormat => ExecFormat
  | SysBadFileDescriptor => BadFileDescriptor | SysNoChildProcess => NoChildProcess
  | SysResourceTempolaryUnavailable => ResourceTempolaryUnavailable | SysOutOfMemory => OutOfMemory | SysPermissionDenied => PermissionDenied
  | SysBadAddress => BadAddress | SysResourceBusy => ResourceBusy | SysAlreadyExists => AlreadyExists | SysCrossesDevices => CrossesDevices
  | SysNoSuchDevice => NoSuchDevice | SysNotADirectory => NotADirectory | SysIsADirectory => IsADirectory | SysInvalidInput => InvalidInput
  | SysTooManyOpenFilesSystem => TooManyOpenFilesSystem | SysTooManyOpenFiles => TooManyOpenFiles
  | SysExecutableFileBusy => ExecutableFileBusy | SysFileTooLarge => OvFileTooLarge | SysStorageFull => StorageFull
  | SysNotSeekable => NotSeekable | SysReadOnlyFilesystem => ReadOnlyFilesystem | SysTooManyLinks => TooManyLinks
  | SysBrokenPipe => OvBrokenPipe | SysInvalidFilename => InvalidFilename | SysDirectoryNotEmpty => DirectoryNotEmpty
  | SysMessageTooLong => MessageTooLong | SysAddrInUse => AddrInUse | SysUnknown => OvUnknown
  end.

Notation IoResult := (result Ov6Error).
Definition DEFAULT_BUF_SIZE : nat := 1024.
(** Slices are shorter than the address space. *)
Definition IO_FUEL : positive := (2 ^ 64)%positive.
(** [&buf[n..]]. *)
Definition slice_from {S} (n : Z) (l : list byte) : M S (list byte) :=
  assert_ (n <=? Z.of_nat (length l));;
  mret (drop (Z.to_nat n) l).
Definition memchr (b : byte) (l : list byte) : option nat := fst <$> list_find (λ x, x = b) l.
Definition NEWLINE : byte := Byte.x0a.

(** ** Writers *)

(** The trait [Write]. *)
Class Writer (W : Type) := {
  w_write : list byte → M W (IoResult Z);
  w_flush : M W (IoResult unit);
}.
Section writer.
Context {W : Type} `{!Writer W}.

(** The provided [write_all]. *)
Definition write_all_body (buf : list byte) : M W (list byte + IoResult unit) :=
  match buf with
  | [] => mret (inr (Ok tt))
  | _ =>
      r ← w_write buf;
      match r with
      | Ok n => if n =? 0 then mret (inr (Err WriteAllEof)) else buf ← slice_from n buf; mret (inl buf)
      | Err e => if is_interrupted e then mret (inl buf) else mret (inr (Err e))
      end
  end.
Definition w_write_all (buf : list byte) : M W (IoResult unit) := while_ IO_FUEL write_all_body buf.

Record BufWriter : Type := {
  bw_buf : list byte;
  bw_capacity : nat;
  bw_panicked : bool;
  bw_inner : W;
}.
Definition with_buf (l : list byte) (s : BufWriter) : BufWriter :=
  {| bw_buf := l; bw_capacity := bw_capacity s; bw_panicked := bw_panicked s; bw_inner := bw_inner s |}.
Definition with_panicked (b : bool) (s : BufWriter) : BufWriter :=
  {| bw_buf := bw_buf s; bw_capacity := bw_capacity s; bw_panicked := b; bw_inner := bw_inner s |}.
Definition with_inner (w : W) (s : BufWriter) : BufWriter :=
  {| bw_buf := bw_buf s; bw_capacity := bw_capacity s; bw_panicked := bw_panicked s; bw_inner := w |}.
Definition bw_new (capacity : nat) (inner : W) : BufWriter :=
  {| bw_buf := []; bw_capacity := capacity; bw_panicked := false; bw_inner := inner |}.

(** The inner writer, with and without the mark that it runs. *)
Definition direct {A} (m : M W A) : M BufWriter A := zoom bw_inner with_inner m.
Definition guarded {A} (m : M W A) : M BufWriter A :=
  modify (with_panicked true);;
  r ← direct m;
  modify (with_panicked false);;
  mret r.
Definition spare_capacity (s : BufWriter) : nat := bw_capacity s - length (bw_buf s).

(** The loop of [flush_buf], with what the guard has written. *)
Definition flush_body (written : Z) : M BufWriter (Z + IoResult unit * Z) :=
  s ← get;
  if Z.of_nat (length (bw_buf s)) <=? written then mret (inr (Ok tt, written))
  else
    r ← guarded (w_write (drop (Z.to_nat written) (bw_buf s)));
    match r with
    | Ok n => if n =? 0 then mret (inr (Err WriteZero, written)) else mret (inl (written + n))
    | Err e => if is_interrupted e then mret (inl written) else mret (inr (Err e, written))
    end.
(** The drop of the guard. *)
Definition drain (written : Z) : M BufWriter unit :=
  if 0 <? written then
    s ← get;
    buf ← slice_from written (bw_buf s);
    modify (with_buf buf)
  else mret tt.
Definition flush_buf : M BufWriter (IoResult unit) :=
  '(r, written) ← while_ IO_FUEL flush_body 0;
  drain written;;
  mret r.
(** Writing behind the capacity would be undefined behaviour. *)
Definition write_to_buffer_unchecked (buf : list byte) : M BufWriter unit :=
  s ← get;
  assert_ (bool_decide (length buf ≤ spare_capacity s)%nat);;
  modify (with_buf (bw_buf s ++ buf)).
Definition write_to_buf (buf : list byte) : M BufWriter Z :=
  s ← get;
  let amt := (spare_capacity s `min` length buf)%nat in
  write_to_buffer_unchecked (take amt buf);;
  mret (Z.of_nat amt).
Definition write_cold (buf : list byte) : M BufWriter (IoResult Z) :=
  s ← get;
  _ ←? (if bool_decide (spare_capacity s < length buf)%nat then flush_buf else mret (Ok tt));
  if bool_decide (bw_capacity s ≤ length buf)%nat then guarded (w_write buf)
  else write_to_buffer_unchecked buf;; mret (Ok (Z.of_nat (length buf))).
Definition write_all_cold (buf : list byte) : M BufWriter (IoResult unit) :=
  s ← get;
  _ ←? (if bool_decide (spare_capacity s < length buf)%nat then flush_buf else mret (Ok tt));
  if bool_decide (bw_capacity s ≤ length buf)%nat then guarded (w_write_all buf)
  else write_to_buffer_unchecked buf;; mret (Ok tt).
Definition bw_write (buf : list byte) : M BufWriter (IoResult Z) :=
  s ← get;
  if bool_decide (length buf < spare_capacity s)%nat then write_to_buffer_unchecked buf;; mret (Ok (Z.of_nat (length buf)))
  else write_cold buf.
Definition bw_write_all (buf : list byte) : M BufWriter (IoResult unit) :=
  s ← get;
  if bool_decide (length buf < spare_capacity s)%nat then write_to_buffer_unchecked buf;; mret (Ok tt)
  else write_all_cold buf.
Definition bw_flush : M BufWriter (IoResult unit) := _ ←? flush_buf; direct w_flush.
Definition bw_drop : M BufWriter unit :=
  s ← get;
  if bw_panicked s then mret tt else flush_buf;; mret tt.

(** ** Lines *)

Definition flush_if_completed_line : M BufWriter (IoResult unit) :=
  s ← get;
  if decide (last (bw_buf s) = Some NEWLINE) then flush_buf else mret (Ok tt).
(** What [LineWriterShim::write] keeps of the rest of [buf] when the inner writer took [flushed] bytes of the first line; [None] is
    the early return. *)
Definition line_tail (newline_idx : nat) (flushed : Z) (buf : list byte) : M BufWriter (option (list byte)) :=
  s ← get;
  if Z.of_nat newline_idx <=? flushed then
    tail ← slice_from flushed buf;
    mret (if bool_decide (bw_capacity s ≤ length tail)%nat then None else Some tail)
  else
    let rest := drop (Z.to_nat flushed) buf in
    let left := (newline_idx - Z.to_nat flushed)%nat in
    if bool_decide (left ≤ bw_capacity s)%nat then mret (Some (take left rest))
    else
      let scan_area := take (bw_capacity s) rest in
      mret (Some (match memchr NEWLINE scan_area with
                  | Some i => take (i + 1) scan_area
                  | None => scan_area
                  end)).
Definition line_write (buf : list byte) : M BufWriter (IoResult Z) :=
  match memchr NEWLINE buf with
  | None => _ ←? flush_if_completed_line; bw_write buf
  | Some i =>
      let newline_idx := (i + 1)%nat in
      _ ←? flush_buf;
      flushed ←? direct (w_write (take newline_idx buf));
      if flushed =? 0 then mret (Ok 0)
      else
        tail ← line_tail newline_idx flushed buf;
        match tail with
        | None => mret (Ok flushed)
        | Some tail => buffered ← write_to_buf tail; mret (Ok (flushed + buffered))
        end
  end.
Definition line_write_all (buf : list byte) : M BufWriter (IoResult unit) :=
  match memchr NEWLINE buf with
  | None => _ ←? flush_if_completed_line; bw_write_all buf
  | Some i =>
      s ← get;
      _ ←? (match bw_buf s with
            | [] => direct (w_write_all (take (i + 1) buf))
            | _ => _ ←? bw_write_all (take (i + 1) buf); flush_buf
            end);
      bw_write_all (drop (i + 1) buf)
  end.

(** ** Standard output

    A [Stdout] flushes after each call when it is a terminal; [write_str] is what the formatting macros call. *)

Definition flush_if (b : bool) : M BufWriter (IoResult unit) := if b then bw_flush else mret (Ok tt).
Definition stdout_write (is_terminal : bool) (buf : list byte) : M BufWriter (IoResult Z) :=
  n ←? line_write buf;
  _ ←? flush_if is_terminal;
  mret (Ok n).
Definition stdout_write_all (is_terminal : bool) (buf : list byte) : M BufWriter (IoResult unit) :=
  _ ←? line_write_all buf;
  flush_if is_terminal.
Definition write_str (is_terminal : bool) (s : list byte) : M BufWriter bool :=
  r ← stdout_write is_terminal s;
  mret (match r with Ok _ => true | Err _ => false end).
(** The end of the program drops the writer, unless a thread holds it. *)
Definition cleanup (initialized unlocked : bool) : M BufWriter unit :=
  if initialized && unlocked then
    bw_drop;;
    s ← get;
    put (bw_new 0 (bw_inner s))
  else mret tt.
(** [Stderr] always flushes. *)
Definition stderr_write (buf : list byte) : M BufWriter (IoResult Z) := n ←? bw_write buf; _ ←? bw_flush; mret (Ok n).
Definition stderr_write_all (buf : list byte) : M BufWriter (IoResult unit) := _ ←? bw_write_all buf; bw_flush.
End writer.
Arguments BufWriter : clear implicits.

(** ** What the writers promise

    [w_out] is everything the inner writer has taken. A call takes a prefix of its argument or fails and takes nothing. *)
Class WriterOk (W : Type) `{!Writer W} := {
  w_out : W → list byte;
  w_write_wp w buf : wp (w_write buf) (λ r w', match r with
    | Ok n => 0 ≤ n ≤ Z.of_nat (length buf) ∧ w_out w' = w_out w ++ take (Z.to_nat n) buf
    | Err _ => w_out w' = w_out w
    end) w;
  w_flush_wp w : wp w_flush (λ _ w', w_out w' = w_out w) w;
}.

Definition USIZE_LIMIT : Z := 2 ^ 64.
Lemma memchr_Some b l i : memchr b l = Some i → l !! i = Some b ∧ b ∉ take i l.
Proof.
  rw /memchr fmap_Some. intros ([j x] & (Hj & -> & Hlt)%list_find_Some & ->); simpl in *. split; [done|].
  intros (k & [Hk Hki]%lookup_take_Some)%list_elem_of_lookup. by apply (Hlt k b Hk Hki).
Qed.
Lemma memchr_None b l : memchr b l = None → b ∉ l.
Proof. rw /memchr fmap_None list_find_None Forall_forall => H Hin. by apply (H b Hin). Qed.
Lemma slice_from_wp {S} n l (Q : list byte → S → Prop) s :
  n ≤ Z.of_nat (length l) → Q (drop (Z.to_nat n) l) s → wp (slice_from n l) Q s.
Proof. intros Hn HQ. apply wp_bind, wp_assert; [by apply Z.leb_le|done]. Qed.

Section writer_ok.
Context {W : Type} `{!Writer W, !WriterOk W}.
Implicit Types (s : BufWriter W) (buf : list byte).

(** Every byte handed over: taken by the inner writer or in the buffer. *)
Definition stream s : list byte := w_out (bw_inner s) ++ bw_buf s.
Definition bw_ok s : Prop :=
  (length (bw_buf s) ≤ bw_capacity s)%nat ∧ Z.of_nat (bw_capacity s) < USIZE_LIMIT ∧ bw_panicked s = false.
(** [s'] continues [s], with [data] handed over in between. *)
Definition continues s s' (data : list byte) : Prop :=
  bw_ok s' ∧ bw_capacity s' = bw_capacity s ∧ w_out (bw_inner s) `prefix_of` w_out (bw_inner s') ∧ stream s' = stream s ++ data.

Lemma continues_refl s : bw_ok s → continues s s [].
Proof. rw /continues app_nil_r. naive_solver. Qed.
Lemma continues_trans s1 s2 s3 d1 d2 : continues s1 s2 d1 → continues s2 s3 d2 → continues s1 s3 (d1 ++ d2).
Proof. intros (?&E1&P1&S1) (?&E2&P2&S2). split_and!; [done|congruence|by transitivity (w_out (bw_inner s2))|]. by rw S2 S1 app_assoc. Qed.
Lemma continues_after s1 s2 s3 d : continues s1 s2 [] → continues s2 s3 d → continues s1 s3 d.
Proof. intros H1 H2. exact (continues_trans _ _ _ [] d H1 H2). Qed.

Lemma w_write_all_wp w buf : Z.of_nat (length buf) < USIZE_LIMIT →
  wp (w_write_all buf) (λ r w', match r with
    | Ok _ => w_out w' = w_out w ++ buf
    | Err _ => ∃ k, w_out w' = w_out w ++ take k buf
    end) w.
Proof.
  intros Hlen.
  apply (while_wp _ _ (λ b w', ∃ k, b = drop k buf ∧ w_out w' = w_out w ++ take k buf) (λ b _, Z.of_nat (length b))); [|done|].
  - intros b w' (k & -> & Hout). split; [lia|]. destruct (drop k buf) as [|x l] eqn:Hd; simpl.
    { wp_steps. by rw Hout -{2}(take_drop k buf) Hd app_nil_r. }
    apply wp_bind. eapply wp_mono; [apply w_write_wp|]. intros [n|e] w2; simpl.
    + intros [Hn Hw]. case_match.
      { assert (n = 0) as -> by lia. apply wp_ret. exists k. by rw Hw Hout app_nil_r. }
      apply wp_bind, slice_from_wp; [simpl; lia|]. apply wp_ret. rw -Hd drop_drop. split.
      * exists (k + Z.to_nat n)%nat. split; [done|]. by rw Hw Hout -app_assoc -Hd -take_take_drop.
      * rw -drop_drop Hd length_drop /=. lia.
    + intros Hw. apply wp_ret. exists k. by rw Hw.
  - exists 0%nat. by rw take_0 app_nil_r drop_0.
Qed.
Lemma direct_wp {A} (m : M W A) (Q : A → BufWriter W → Prop) s :
  wp m (λ a w, Q a (with_inner w s)) (bw_inner s) → wp (direct m) Q s.
Proof. rw /wp /direct /zoom. by destruct (m (bw_inner s)). Qed.
Lemma guarded_wp {A} (m : M W A) (Q : A → BufWriter W → Prop) s :
  wp m (λ a w, Q a (with_panicked false (with_inner w s))) (bw_inner s) → wp (guarded m) Q s.
Proof. intros H. rw /guarded. wp_steps. apply direct_wp. eapply wp_mono; [exact H|]. intros a w HQ. by wp_steps. Qed.

(** After the guard wrote [k] bytes of the buffer. *)
Definition flushed s (k : Z) s' : Prop :=
  0 ≤ k ≤ Z.of_nat (length (bw_buf s)) ∧ s' = with_inner (bw_inner s') s ∧
  w_out (bw_inner s') = w_out (bw_inner s) ++ take (Z.to_nat k) (bw_buf s).
Lemma bw_drain_wp s k s' : bw_ok s → flushed s k s' →
  wp (drain k) (λ _ s2, continues s s2 [] ∧ (k = Z.of_nat (length (bw_buf s)) → bw_buf s2 = [])) s'.
Proof.
  intros (Hlen & Hcap & Hp) (Hk & Hs & Hout). assert (bw_buf s' = bw_buf s) as Hb by by rw Hs. rw /drain. case_match.
  - wp_steps. rw Hb. apply slice_from_wp; [lia|]. wp_steps. rw /continues /bw_ok /stream Hs /= length_drop Hout app_nil_r.
    split_and!; try done; [lia|by eexists| |intros ->; by rw Nat2Z.id drop_all]. by rw -app_assoc take_drop.
  - wp_steps. assert (k = 0) as -> by lia. rw take_0 app_nil_r in Hout.
    rw /continues /bw_ok /stream Hs /= Hout app_nil_r. split_and!; try done. intros He. apply nil_length_inv. lia.
Qed.
(** Flushing hands the buffer over in order, keeps what was not taken, and ends. *)
Lemma flush_buf_wp s : bw_ok s →
  wp flush_buf (λ r s', continues s s' [] ∧ (r = Ok tt → bw_buf s' = [])) s.
Proof.
  intros Hok. pose proof Hok as (Hlen & Hcap & Hp). apply wp_bind.
  eapply (wp_mono _ (λ r s', flushed s r.2 s' ∧ (r.1 = Ok tt → r.2 = Z.of_nat (length (bw_buf s))))).
  - apply (while_wp _ _ (λ k, flushed s k) (λ k _, Z.of_nat (length (bw_buf s)) - k)); [|change (Z.pos IO_FUEL) with USIZE_LIMIT; lia|].
    + intros k s' Hf. pose proof Hf as (Hk & Hs & Hout). split; [lia|]. rw /flush_body. do 2 wp_step.
      replace (bw_buf s') with (bw_buf s) by by rw Hs. case_match; [by wp_steps; split; [|lia]|].
      wp_step. apply guarded_wp. eapply wp_mono; [apply w_write_wp|]. intros [n|e] w.
      * rw length_drop. intros [Hn Hw]. assert (flushed s (k + n) (with_panicked false (with_inner w s'))) as Hf'.
        { split_and!; [lia|lia|rw Hs; destruct s; simpl in *; by subst|].
          by rw /= Hw Hout Z2Nat.inj_add; [|lia|lia]; rw -app_assoc take_take_drop. }
        destruct (Z.eqb_spec n 0) as [->|Hz]; cbv beta iota; wp_step; [|split; [done|lia]]. by rw Z.add_0_r in Hf'.
      * intros Hw. cbv beta iota delta [is_interrupted]. wp_step. split; [|done]. simpl. split_and!; [lia|lia|rw Hs; destruct s; simpl in *; by subst|by rw /= Hw].
    + split_and!; [lia|lia|by destruct s|by rw app_nil_r].
  - intros [r k] s' [Hf Hr]. wp_step. eapply wp_mono; [exact (bw_drain_wp s k s' Hok Hf)|]. intros _ s2 [Hc He]. wp_step. split; [done|]. intros ->. by apply He, Hr.
Qed.
Lemma unchecked_wp s buf : bw_ok s → (length buf ≤ spare_capacity s)%nat →
  wp (write_to_buffer_unchecked buf) (λ _ s', continues s s' buf ∧ bw_inner s' = bw_inner s) s.
Proof.
  intros (Hlen & Hcap & Hp) Hb. rw /write_to_buffer_unchecked. wp_steps. apply wp_assert; [by apply bool_decide_eq_true|]. wp_steps.
  rw /continues /bw_ok /stream /= length_app app_assoc. rw /spare_capacity in Hb. split_and!; try done. lia.
Qed.
Lemma write_to_buf_wp s buf : bw_ok s →
  wp (write_to_buf buf) (λ n s', 0 ≤ n ≤ Z.of_nat (length buf) ∧ continues s s' (take (Z.to_nat n) buf) ∧ bw_inner s' = bw_inner s) s.
Proof.
  intros Hok. rw /write_to_buf. do 3 wp_step. eapply wp_mono; [apply unchecked_wp; [done|rw length_take; lia]|].
  intros _ s' [Hc Hi]. wp_step. rw Nat2Z.id. split_and!; [lia|lia|done|done].
Qed.
(** The flush that makes room. *)
Lemma make_room_wp s buf : bw_ok s →
  wp (if bool_decide (spare_capacity s < length buf)%nat then flush_buf else mret (Ok tt))
    (λ r s', continues s s' [] ∧ (r = Ok tt → (length buf ≤ spare_capacity s')%nat ∨ bw_buf s' = [])) s.
Proof.
  intros Hok. case_bool_decide.
  - eapply wp_mono; [by apply flush_buf_wp|]. naive_solver.
  - wp_step. split; [by apply continues_refl|]. intros _. left. lia.
Qed.
(** What every [write] and [write_all] guarantees. *)
Definition wrote buf s (r : IoResult Z) s' : Prop :=
  match r with
  | Ok n => 0 ≤ n ≤ Z.of_nat (length buf) ∧ continues s s' (take (Z.to_nat n) buf)
  | Err _ => continues s s' []
  end.
Definition wrote_all buf s (r : IoResult unit) s' : Prop :=
  match r with
  | Ok _ => continues s s' buf
  | Err _ => ∃ k, continues s s' (take k buf)
  end.
Lemma wrote_after s1 s2 s3 buf r : continues s1 s2 [] → wrote buf s2 r s3 → wrote buf s1 r s3.
Proof. intros H1. destruct r; simpl; [intros [? H2]; split; [done|]|intros H2]; exact (continues_after _ _ _ _ H1 H2). Qed.
Lemma wrote_all_after s1 s2 s3 buf r : continues s1 s2 [] → wrote_all buf s2 r s3 → wrote_all buf s1 r s3.
Proof. intros H1. destruct r; simpl; [intros H2|intros [k H2]; exists k]; exact (continues_after _ _ _ _ H1 H2). Qed.
Lemma wrote_all_none s s' buf e : continues s s' [] → wrote_all buf s (Err e) s'.
Proof. by exists 0%nat. Qed.
Lemma take_all_Z {A} (l : list A) : take (Z.to_nat (Z.of_nat (length l))) l = l.
Proof. by rw Nat2Z.id firstn_all. Qed.
(** An empty buffer is bypassed. *)
Lemma continues_inner s w b data : bw_ok s → bw_buf s = [] → w_out w = w_out (bw_inner s) ++ data → (b = false) →
  continues s (with_panicked b (with_inner w s)) data.
Proof. intros (Hlen & Hcap & Hp) Hb Hw ->. rw /continues /bw_ok /stream /= Hb Hw !app_nil_r. rw Hb in Hlen. split_and!; try done. by eexists. Qed.
Lemma with_inner_ok s w : bw_ok s → with_inner w s = with_panicked false (with_inner w s).
Proof. intros (_ & _ & Hp). destruct s; simpl in *. by subst. Qed.
Lemma inner_write_wp s buf : bw_ok s → bw_buf s = [] →
  wp (guarded (w_write buf)) (λ r s', wrote buf s r s' ∧ bw_buf s' = []) s.
Proof.
  intros Hok Hb. apply guarded_wp. eapply wp_mono; [apply w_write_wp|]. intros [n|e] w; simpl; rw Hb.
  - intros [Hn Hw]. split_and!; try lia; [|done]. by apply continues_inner.
  - intros Hw. split; [|done]. apply continues_inner; [done..| |done]. by rw app_nil_r.
Qed.
Lemma inner_write_all_wp s buf : bw_ok s → bw_buf s = [] → Z.of_nat (length buf) < USIZE_LIMIT →
  wp (guarded (w_write_all buf)) (λ r s', wrote_all buf s r s' ∧ bw_buf s' = []) s.
Proof.
  intros Hok Hb Hlen. apply guarded_wp. eapply wp_mono; [by apply w_write_all_wp|]. intros [n|e] w; simpl; rw Hb.
  - intros Hw. split; [|done]. by apply continues_inner.
  - intros [k Hw]. split; [exists k|done]. by apply continues_inner.
Qed.
(** With a buffer as long as the capacity of the writer a long argument meets an empty buffer. *)
Lemma room_or_empty s buf : bw_ok s → (length buf ≤ spare_capacity s)%nat ∨ bw_buf s = [] →
  (bw_capacity s ≤ length buf)%nat → bw_buf s = [].
Proof. intros (Hlen & _) [H|H]; [|done]. rw /spare_capacity in H. intros Hc. apply nil_length_inv. lia. Qed.
Lemma room_or_small s buf : bw_ok s → (length buf ≤ spare_capacity s)%nat ∨ bw_buf s = [] →
  ¬ (bw_capacity s ≤ length buf)%nat → (length buf ≤ spare_capacity s)%nat.
Proof. intros (Hlen & _) [H|H]; [done|]. rw /spare_capacity H /=. lia. Qed.

Lemma bw_write_wp s buf : bw_ok s → wp (bw_write buf) (wrote buf s) s.
Proof.
  intros Hok. rw /bw_write. do 2 wp_step. case_bool_decide.
  - wp_step. eapply wp_mono; [apply unchecked_wp; [done|lia]|]. intros _ s' [Hc _]. wp_step. split; [lia|]. by rw take_all_Z.
  - rw /write_cold. do 3 wp_step. eapply wp_mono; [by apply make_room_wp|].
    intros [u|e] s1; intros [Hc Hr]; [destruct u|exact Hc]. specialize (Hr eq_refl). pose proof Hc as (Hok1 & Hcap & _ & _).
    rw -Hcap. case_bool_decide as Hd.
    + eapply wp_mono; [apply inner_write_wp; [done|exact (room_or_empty s1 buf Hok1 Hr Hd)]|]. intros r s2 [Hw _]. exact (wrote_after _ _ _ _ _ Hc Hw).
    + wp_step. eapply wp_mono; [apply unchecked_wp; [done|exact (room_or_small s1 buf Hok1 Hr Hd)]|]. intros _ s2 [Hc2 _]. wp_step.
      split; [lia|]. rw take_all_Z. exact (continues_after _ _ _ _ Hc Hc2).
Qed.
Lemma bw_write_all_wp s buf : bw_ok s → Z.of_nat (length buf) < USIZE_LIMIT → wp (bw_write_all buf) (wrote_all buf s) s.
Proof.
  intros Hok Hlen. rw /bw_write_all. do 2 wp_step. case_bool_decide.
  - wp_step. eapply wp_mono; [apply unchecked_wp; [done|lia]|]. intros _ s' [Hc _]. by wp_step.
  - rw /write_all_cold. do 3 wp_step. eapply wp_mono; [by apply make_room_wp|].
    intros [u|e] s1; intros [Hc Hr]; [destruct u|by apply wrote_all_none]. specialize (Hr eq_refl). pose proof Hc as (Hok1 & Hcap & _ & _).
    rw -Hcap. case_bool_decide as Hd.
    + eapply wp_mono; [apply inner_write_all_wp; [done|exact (room_or_empty s1 buf Hok1 Hr Hd)|done]|]. intros r s2 [Hw _]. exact (wrote_all_after _ _ _ _ _ Hc Hw).
    + wp_step. eapply wp_mono; [apply unchecked_wp; [done|exact (room_or_small s1 buf Hok1 Hr Hd)]|]. intros _ s2 [Hc2 _]. wp_step.
      exact (continues_after _ _ _ _ Hc Hc2).
Qed.
Lemma bw_flush_wp s : bw_ok s → wp bw_flush (λ r s', continues s s' [] ∧ (r = Ok tt → bw_buf s' = [])) s.
Proof.
  intros Hok. rw /bw_flush. wp_step. eapply wp_mono; [by apply flush_buf_wp|]. intros [[]|e] s1 [Hc Hb]; [|by split].
  specialize (Hb eq_refl). apply direct_wp. eapply wp_mono; [apply w_flush_wp|]. intros r w Hw. split; [|done].
  pose proof Hc as (Hok1 & _). rw (with_inner_ok _ w Hok1).
  refine (continues_after _ _ _ _ Hc (continues_inner _ _ _ _ Hok1 Hb _ eq_refl)). by rw app_nil_r.
Qed.
Lemma bw_drop_wp s : bw_ok s → wp bw_drop (λ _ s', continues s s' []) s.
Proof.
  intros Hok. pose proof Hok as (_ & _ & Hp). rw /bw_drop. do 2 wp_step. rw Hp. wp_step.
  eapply wp_mono; [by apply flush_buf_wp|]. intros r s' [Hc _]. by wp_step.
Qed.

(** The line writer. *)
Lemma direct_guarded {A} (m : M W A) (Q : A → BufWriter W → Prop) s : bw_ok s → wp (guarded m) Q s → wp (direct m) Q s.
Proof.
  intros Hok H. apply direct_wp. revert H. rw /wp /guarded /direct /zoom /modify /mbind /M_bind /=.
  destruct (m (bw_inner s)) as [a w|]; [|done]. by rw /= (with_inner_ok s w Hok).
Qed.
Lemma completed_line_wp s : bw_ok s → wp flush_if_completed_line (λ _ s', continues s s' []) s.
Proof.
  intros Hok. rw /flush_if_completed_line. do 2 wp_step. case_decide.
  - eapply wp_mono; [by apply flush_buf_wp|]. by intros r s' [Hc _].
  - wp_step. by apply continues_refl.
Qed.
Lemma prefix_take_drop {A} n k (l : list A) : take k (drop n l) `prefix_of` drop n l.
Proof. exists (drop k (drop n l)). by rw take_drop. Qed.
Lemma line_tail_wp s i n buf : 0 ≤ n ≤ Z.of_nat (length buf) →
  wp (line_tail i n buf) (λ t s', s' = s ∧ ∀ tail, t = Some tail → tail `prefix_of` drop (Z.to_nat n) buf) s.
Proof.
  intros Hn. rw /line_tail. do 2 wp_step. case_match.
  - wp_step. apply slice_from_wp; [lia|]. wp_step. split; [done|]. intros tail. case_bool_decide; by intros [= <-].
  - case_bool_decide; wp_step; (split; [done|]); intros tail [= <-]; [by apply prefix_take_drop|].
    case_match; [rw take_take|]; by apply prefix_take_drop.
Qed.
Lemma wrote_more s1 s2 s3 n m tail buf : 0 ≤ n ≤ Z.of_nat (length buf) → 0 ≤ m ≤ Z.of_nat (length tail) →
  tail `prefix_of` drop (Z.to_nat n) buf →
  continues s1 s2 (take (Z.to_nat n) buf) → continues s2 s3 (take (Z.to_nat m) tail) → wrote buf s1 (Ok (n + m)) s3.
Proof.
  intros Hn Hm [rest Hp] H1 H2. pose proof (f_equal length Hp) as Hl. rw length_drop length_app in Hl. split; [lia|].
  rw Z2Nat.inj_add; [|lia|lia]. rw -(take_take_drop buf) Hp take_app_le; [|lia]. exact (continues_trans _ _ _ _ _ H1 H2).
Qed.
Lemma line_write_wp s buf : bw_ok s → wp (line_write buf) (wrote buf s) s.
Proof.
  intros Hok. rw /line_write. destruct (memchr NEWLINE buf) as [i|] eqn:Hi.
  - apply memchr_Some in Hi as [Hi%lookup_lt_Some _]. wp_step. eapply wp_mono; [by apply flush_buf_wp|].
    intros [[]|e] s1 [Hc Hb]; [|exact Hc]. specialize (Hb eq_refl). pose proof Hc as (Hok1 & _). wp_step. apply direct_guarded; [done|].
    eapply wp_mono; [by apply inner_write_wp|]. intros [n|e] s2 [Hw _]; [|exact (continues_after _ _ _ _ Hc Hw)].
    destruct Hw as [Hn Hw]. rw length_take in Hn. rw take_take Nat.min_l in Hw; [|lia].
    apply (continues_after _ _ _ _ Hc) in Hw. destruct (Z.eqb_spec n 0) as [->|Hz]; [wp_step; split; [lia|done]|].
    wp_step. eapply wp_mono; [apply line_tail_wp; lia|]. intros t s3 [-> Ht]. destruct t as [tail|]; [|wp_step; split; [lia|done]].
    wp_step. eapply wp_mono; [apply write_to_buf_wp; by destruct Hw|]. intros m s4 (Hm & Hc4 & _). wp_step.
    refine (wrote_more _ _ _ _ _ tail _ _ Hm (Ht _ eq_refl) Hw Hc4). lia.
  - wp_step. eapply wp_mono; [by apply completed_line_wp|]. intros [u|e] s1 Hc; [|exact Hc].
    eapply wp_mono; [apply bw_write_wp; by destruct Hc|]. intros r s2 Hw. exact (wrote_after _ _ _ _ _ Hc Hw).
Qed.
(** The first line of the argument has left with everything before it. *)
Definition line_out buf s s' : Prop :=
  ∀ i, memchr NEWLINE buf = Some i → stream s ++ take (i + 1) buf `prefix_of` w_out (bw_inner s').
Lemma first_line_wp s line : bw_ok s → Z.of_nat (length line) < USIZE_LIMIT →
  wp (match bw_buf s with [] => direct (w_write_all line) | _ => _ ←? bw_write_all line; flush_buf end)
    (λ r s', match r with Ok _ => continues s s' line ∧ bw_buf s' = [] | Err _ => ∃ k, continues s s' (take k line) end) s.
Proof.
  intros Hok Hlen. destruct (bw_buf s) eqn:Hb.
  - apply direct_guarded; [done|]. eapply wp_mono; [by apply inner_write_all_wp|]. by intros [u|e] s' [Hw He].
  - wp_step. eapply wp_mono; [by apply bw_write_all_wp|]. intros [u|e] s1 Hw; [|exact Hw].
    eapply wp_mono; [apply flush_buf_wp; by destruct Hw|]. intros r s2 [Hc He]. pose proof (continues_trans _ _ _ _ _ Hw Hc) as H.
    rw app_nil_r in H. destruct r as [[]|e]; [by split; [|apply He]|]. exists (length line). by rw firstn_all.
Qed.
Lemma line_write_all_wp s buf : bw_ok s → Z.of_nat (length buf) < USIZE_LIMIT →
  wp (line_write_all buf) (λ r s', wrote_all buf s r s' ∧ (r = Ok tt → line_out buf s s')) s.
Proof.
  intros Hok Hlen. rw /line_write_all /line_out. destruct (memchr NEWLINE buf) as [i|] eqn:Hi.
  - do 3 wp_step. eapply wp_mono; [apply first_line_wp; [done|rw length_take; lia]|].
    intros [u|e] s1; [intros [Hc He]|intros [k Hc]; split; [exists (k `min` (i + 1))%nat; by rw -take_take|done]].
    eapply wp_mono; [apply bw_write_all_wp; [by destruct Hc|rw length_drop; lia]|]. intros r s2 Hw. split.
    + destruct r as [u'|e]; [rw -{1}(take_drop (i + 1) buf); exact (continues_trans _ _ _ _ _ Hc Hw)|].
      destruct Hw as [k Hw]. exists (i + 1 + k)%nat. rw -(take_take_drop buf). exact (continues_trans _ _ _ _ _ Hc Hw).
    + intros -> j [= <-]. destruct Hw as (_ & _ & Hp & _), Hc as (_ & _ & _ & Hs). by rw -Hs /stream He app_nil_r.
  - wp_step. eapply wp_mono; [by apply completed_line_wp|]. intros [u|e] s1 Hc; [|split; [by apply wrote_all_none|done]].
    eapply wp_mono; [apply bw_write_all_wp; [by destruct Hc|done]|]. intros r s2 Hw. split; [|done]. exact (wrote_all_after _ _ _ _ _ Hc Hw).
Qed.
Lemma flush_if_wp b s : bw_ok s → wp (flush_if b) (λ r s', continues s s' [] ∧ (r = Ok tt → b = true → bw_buf s' = [])) s.
Proof.
  intros Hok. destruct b; simpl; [|wp_step; split; [by apply continues_refl|done]].
  eapply wp_mono; [by apply bw_flush_wp|]. naive_solver.
Qed.
Lemma stdout_write_all_wp b s buf : bw_ok s → Z.of_nat (length buf) < USIZE_LIMIT →
  wp (stdout_write_all b buf) (λ r s', wrote_all buf s r s' ∧ (r = Ok tt → line_out buf s s' ∧ (b = true → bw_buf s' = []))) s.
Proof.
  intros Hok Hlen. rw /stdout_write_all. wp_step. eapply wp_mono; [by apply line_write_all_wp|].
  intros [[]|e] s1 [Hw Hl]; [|by split]. specialize (Hl eq_refl). eapply wp_mono; [apply flush_if_wp; by destruct Hw|].
  intros r s2 [Hc Hb]. pose proof (continues_trans _ _ _ _ _ Hw Hc) as H. rw app_nil_r in H. split.
  - destruct r as [u|e]; [done|]. exists (length buf). by rw firstn_all.
  - intros ->. split; [|by apply Hb]. intros i Hi. destruct Hc as (_ & _ & Hp & _). etrans; [by apply Hl|done].
Qed.
End writer_ok.

(** A program that writes [bufs] one after the other and flushes. *)
Fixpoint print_all {W} `{!Writer W} (is_terminal : bool) (bufs : list (list byte)) : M (BufWriter W) (IoResult unit) :=
  match bufs with
  | [] => bw_flush
  | buf :: bufs => _ ←? stdout_write_all is_terminal buf; print_all is_terminal bufs
  end.

Section claims.
Context {W : Type} `{!Writer W, !WriterOk W}.
Implicit Types (s : BufWriter W).

Lemma bw_new_ok capacity (w : W) : Z.of_nat capacity < USIZE_LIMIT → bw_ok (bw_new capacity w).
Proof. intros H. split_and!; [simpl; lia|done|done]. Qed.
Lemma print_all_wp t bufs s : bw_ok s → Forall (λ b, Z.of_nat (length b) < USIZE_LIMIT) bufs →
  wp (print_all t bufs) (λ r s', wrote_all (concat bufs) s r s' ∧ (r = Ok tt → bw_buf s' = [])) s.
Proof.
  revert s. induction bufs as [|b bufs IH]; intros s Hok Hlen; simpl.
  - eapply wp_mono; [by apply bw_flush_wp|]. intros [u|e] s' [Hc Hb]; [by split|]. split; [by exists 0%nat|done].
  - inversion_clear Hlen. wp_step. eapply wp_mono; [by apply stdout_write_all_wp|]. intros [u|e] s1 [Hw _].
    + eapply wp_mono; [apply IH; [by destruct Hw|done]|]. intros r s2 [Hw2 Hb]. split; [|done].
      destruct r as [u'|e]; [exact (continues_trans _ _ _ _ _ Hw Hw2)|]. destruct Hw2 as [k Hw2]. exists (length b + k)%nat.
      rw take_app_add. exact (continues_trans _ _ _ _ _ Hw Hw2).
    + destruct Hw as [k Hw]. split; [|done]. exists (k `min` length b)%nat. rw take_app_le; [|lia]. by rw -take_take firstn_all.
Qed.

(** C22: Standard output loses, repeats and reorders nothing. Whatever sequence of texts a program writes with [write_all] on a fresh
    line writer of any capacity, and however few bytes the system call takes at a time, the calls end. If they and the final flush
    succeed, the bytes delivered are the texts in order; if one fails, the bytes delivered are a prefix of them. *)
Theorem stdout_delivers (t : bool) (capacity : nat) (w : W) (bufs : list (list byte))
    (Hcap : Z.of_nat capacity < USIZE_LIMIT) (Hlen : Forall (λ b, Z.of_nat (length b) < USIZE_LIMIT) bufs) :
  ∃ r s', print_all t bufs (bw_new capacity w) = Ret r s' ∧
    match r with
    | Ok _ => w_out (bw_inner s') = w_out w ++ concat bufs
    | Err _ => ∃ k, w_out (bw_inner s') `prefix_of` w_out w ++ take k (concat bufs)
    end.
Proof.
  destruct (wp_run _ _ _ (print_all_wp t bufs _ (bw_new_ok capacity w Hcap) Hlen)) as (r & s' & Hrun & Hw & Hb).
  exists r, s'. split; [done|]. destruct r as [[]|e].
  - destruct Hw as (_ & _ & _ & Hs). rw /stream (Hb eq_refl) !app_nil_r in Hs. exact Hs.
  - destruct Hw as [k (_ & _ & _ & Hs)]. exists k. rw /stream /= app_nil_r in Hs. rw -Hs. by eexists.
Qed.

(** A line is out when [write_all] returns. After a successful call everything handed over before it and the argument up to its
    first newline have reached the system call, in order, and on a terminal the whole argument has. *)
Theorem stdout_line_out (t : bool) (s : BufWriter W) (buf : list byte) (Hok : bw_ok s) (Hlen : Z.of_nat (length buf) < USIZE_LIMIT) :
  ∃ r s', stdout_write_all t buf s = Ret r s' ∧ bw_ok s' ∧
    (r = Ok tt → line_out buf s s' ∧ (t = true → w_out (bw_inner s') = stream s ++ buf)).
Proof.
  destruct (wp_run _ _ _ (stdout_write_all_wp t s buf Hok Hlen)) as (r & s' & Hrun & Hw & Hl). exists r, s'. split_and!; [done| |].
  - destruct r as [u|e]; [by destruct Hw|]. by destruct Hw as [k [Hok' _]].
  - intros ->. destruct (Hl eq_refl) as [Hline Ht]. split; [done|]. intros E. destruct Hw as (_ & _ & _ & Hs).
    by rw -Hs /stream (Ht E) app_nil_r.
Qed.
End claims.

Module Example.
(** A system call that takes at most [sk_max] bytes. *)
Record sink : Type := { sk_out : list byte; sk_max : nat }.
#[export] Instance sink_writer : Writer sink := {
  w_write buf w := Ret (Ok (Z.of_nat (sk_max w `min` length buf))) {| sk_out := sk_out w ++ take (sk_max w) buf; sk_max := sk_max w |};
  w_flush := mret (Ok tt);
}.
#[export] Program Instance sink_writer_ok : WriterOk sink := {| w_out := sk_out |}.
Next Obligation.
  intros w buf. rw /wp /=. split; [lia|]. f_equal. by rw Nat2Z.id -take_take firstn_all.
Qed.
Next Obligation. done. Qed.
Definition letters : list byte := [Byte.x68; Byte.x69; NEWLINE; Byte.x68].
Lemma stdout_delivers_witness : ∃ s', print_all false [letters; letters] (bw_new 4 {| sk_out := []; sk_max := 3 |}) = Ret (Ok tt) s' ∧
  sk_out (bw_inner s') = letters ++ letters.
Proof.
  destruct (stdout_delivers false 4 {| sk_out := []; sk_max := 3 |} [letters; letters] ltac:(done) ltac:(repeat constructor))
    as (r & s' & Hrun & Hr).
  assert (r = Ok tt) as -> by (vm_compute in Hrun; congruence). exists s'. exact (conj Hrun Hr).
Defined.
Lemma stdout_line_out_witness : ∃ s', stdout_write_all false letters (bw_new 4 {| sk_out := []; sk_max := 3 |}) = Ret (Ok tt) s' ∧
  take 3 letters `prefix_of` sk_out (bw_inner s').
Proof.
  destruct (stdout_line_out false (bw_new 4 {| sk_out := []; sk_max := 3 |}) letters ltac:(apply bw_new_ok; done) ltac:(done))
    as (r & s' & Hrun & _ & Hr).
  assert (r = Ok tt) as -> by (vm_compute in Hrun; congruence). exists s'. split; [exact Hrun|].
  exact (proj1 (Hr eq_refl) 2%nat ltac:(vm_compute; reflexivity)).
Defined.

(** [write_str] calls [write] and drops the count: a text whose first line is followed by a buffer's worth or more is cut after
    that line, and the call reports success. *)
Lemma print_loses_output t tail : (DEFAULT_BUF_SIZE ≤ length tail)%nat →
  ∃ s', write_str t (NEWLINE :: tail) (bw_new DEFAULT_BUF_SIZE {| sk_out := []; sk_max := 4096 |}) = Ret true s' ∧ stream s' = [NEWLINE].
Proof.
  intros Hlen. set (s0 := bw_new _ _). set (s1 := with_inner {| sk_out := [NEWLINE]; sk_max := 4096 |} s0).
  assert (bw_ok s1) as Hok by (split_and!; [simpl; lia|done|done]).
  assert (line_write (NEWLINE :: tail) s0 = Ret (Ok 1) s1) as Hw.
  { rw /line_write. assert (memchr NEWLINE (NEWLINE :: tail) = Some 0%nat) as -> by done.
    rw /try_bind. rewrite (bind_Ret _ _ _ (Ok tt) s0); [|vm_compute; reflexivity].
    rewrite (bind_Ret _ _ _ (Ok 1) s1); [|reflexivity]. cbv beta iota. change (1 =? 0) with false. cbv iota.
    rewrite (bind_Ret _ _ _ None s1); [done|]. rw /line_tail. rewrite (bind_Ret _ _ _ s1 s1); [|done].
    change (Z.of_nat (0 + 1) <=? 1) with true. cbv iota. rewrite (bind_Ret _ _ _ tail s1).
    - by rewrite bool_decide_eq_true_2.
    - rw /slice_from. rewrite (bind_Ret _ _ _ tt s1); [done|]. rewrite (proj2 (Z.leb_le _ _)); [done|]. rw length_cons. lia. }
  assert (wp (write_str t (NEWLINE :: tail)) (λ b s', b = true ∧ stream s' = [NEWLINE]) s0) as H.
  { rw /write_str /stdout_write. do 2 wp_step. eapply wp_of_run; [exact Hw|]. destruct t; simpl; [|done].
    wp_step. eapply (wp_of_run _ _ _ (Ok tt) s1); [vm_compute; reflexivity|]. done. }
  destruct (wp_run _ _ _ H) as (b & s' & Hrun & -> & Hs). by exists s'.
Qed.
End Example.
