(* ===== verification/BufReader.v ===== *)
(** * Buffered input

    Model of the reading half of [crates/user/ov6_user_lib/src/io]: [Read] and [BufRead] of [mod.rs] with their provided methods,
    and [BufReader] with its [Buffer]. *)

From stdpp Require Import base list ssreflect.
From S2P Require Import Prelude BufIo.

(** ** UTF-8

    [str::from_utf8] of the standard library, by the table of well-formed sequences it documents. *)

Definition between (lo hi : Z) (b : byte) : bool := let z := Z.of_N (Byte.to_N b) in (lo <=? z) && (z <=? hi).
Definition continuation : byte → bool := between 0x80 0xbf.
Definition second_of_three (b : byte) : byte → bool :=
  if between 0xe0 0xe0 b then between 0xa0 0xbf else if between 0xed 0xed b then between 0x80 0x9f else continuation.
Definition second_of_four (b : byte) : byte → bool :=
  if between 0xf0 0xf0 b then between 0x90 0xbf else if between 0xf4 0xf4 b then between 0x80 0x8f else continuation.
Fixpoint is_utf8 (l : list byte) : bool :=
  match l with
  | [] => true
  | b :: l1 =>
      if between 0x00 0x7f b then is_utf8 l1
      else match l1 with
      | c :: l2 =>
          if between 0xc2 0xdf b then continuation c && is_utf8 l2
          else match l2 with
          | d :: l3 =>
              if between 0xe0 0xef b then second_of_three b c && continuation d && is_utf8 l3
              else match l3 with
              | e :: l4 => between 0xf0 0xf4 b && second_of_four b c && continuation d && continuation e && is_utf8 l4
              | [] => false
              end
          | [] => false
          end
      | [] => false
      end
  end.

(** ** [Read]

    [r_read n] reads into a slice of [n] bytes and returns what it put there. *)
Class Reader (R : Type) := { r_read : nat → M R (IoResult (list byte)) }.
(** A reading call that appends to a vector: the vector, and what it returns. *)
Notation Appended A := (list byte * IoResult A)%type.

Section reader.
Context {R : Type} `{!Reader R}.

Definition read_to_end_body (buf : list byte) : M R (list byte + Appended unit) :=
  r ← r_read 256;
  match r with
  | Ok [] => mret (inr (buf, Ok tt))
  | Ok bs => mret (inl (buf ++ bs))
  | Err e => if is_interrupted e then mret (inl buf) else mret (inr (buf, Err e))
  end.
Definition read_to_end (buf : list byte) : M R (Appended Z) :=
  '(buf', r) ← while_ IO_FUEL read_to_end_body buf;
  mret (buf', match r with Ok _ => Ok (Z.of_nat (length buf') - Z.of_nat (length buf)) | Err e => Err e end).
(** [read_exact] of [n] bytes; the part that is filled is returned also when it fails. *)
Definition read_exact_body (n : nat) (got : list byte) : M R (list byte + Appended unit) :=
  if bool_decide (n ≤ length got)%nat then mret (inr (got, Ok tt))
  else
    r ← r_read (n - length got);
    match r with
    | Ok [] => mret (inr (got, Err ReadExactEof))
    | Ok bs => mret (inl (got ++ bs))
    | Err e => if is_interrupted e then mret (inl got) else mret (inr (got, Err e))
    end.
Definition read_exact (n : nat) : M R (Appended unit) := while_ IO_FUEL (read_exact_body n) [].
End reader.
(** A string keeps what was appended only when that is UTF-8. *)
Definition append_to_string {R} (buf : list byte) (f : list byte → M R (Appended Z)) : M R (Appended Z) :=
  '(buf', ret) ← f buf;
  if is_utf8 (drop (length buf) buf') then mret (buf', ret)
  else mret (buf, match ret with Ok _ => Err InvalidUtf8 | Err e => Err e end).
Definition read_to_string {R} `{!Reader R} (buf : list byte) : M R (Appended Z) := append_to_string buf read_to_end.

(** ** [BufRead] *)

Class BufRead (R : Type) := {
  fill_buf : M R (IoResult (list byte));
  consume : nat → M R unit;
}.
Section bufread.
Context {R : Type} `{!BufRead R}.

Definition has_data_left : M R (IoResult bool) :=
  b ←? fill_buf;
  mret (Ok (match b with [] => false | _ => true end)).
(** How much of [available] belongs to the line, and whether that ends it. *)
Definition scan_until (b : byte) (available : list byte) : bool * nat :=
  match memchr b available with
  | Some i => (true, (i + 1)%nat)
  | None => (false, length available)
  end.
Definition read_until_body (b : byte) (st : list byte * Z) : M R (list byte * Z + Appended Z) :=
  let '(buf, read) := st in
  r ← fill_buf;
  match r with
  | Err e => if is_interrupted e then mret (inl (buf, read)) else mret (inr (buf, Err e))
  | Ok available =>
      let '(done, used) := scan_until b available in
      consume used;;
      let buf := buf ++ take used available in
      let read := read + Z.of_nat used in
      if done || bool_decide (used = 0%nat) then mret (inr (buf, Ok read)) else mret (inl (buf, read))
  end.
Definition read_until (b : byte) (buf : list byte) : M R (Appended Z) := while_ IO_FUEL (read_until_body b) (buf, 0).
Definition skip_until_body (b : byte) (read : Z) : M R (Z + IoResult Z) :=
  r ← fill_buf;
  match r with
  | Err e => if is_interrupted e then mret (inl read) else mret (inr (Err e))
  | Ok available =>
      let '(done, used) := scan_until b available in
      consume used;;
      let read := read + Z.of_nat used in
      if done || bool_decide (used = 0%nat) then mret (inr (Ok read)) else mret (inl read)
  end.
Definition skip_until (b : byte) : M R (IoResult Z) := while_ IO_FUEL (skip_until_body b) 0.
Definition read_line (buf : list byte) : M R (Appended Z) := append_to_string buf (read_until NEWLINE).
End bufread.

(** ** [BufReader]

    [br_buf] is the whole buffer, of the capacity; [br_filled] bytes of it hold data and the first [br_pos] of these are consumed. *)
Record BufReader (R : Type) : Type := {
  br_buf : list byte;
  br_pos : nat;
  br_filled : nat;
  br_initialized : nat;
  br_inner : R;
}.
Arguments Build_BufReader {R}. Arguments br_buf {R}. Arguments br_pos {R}. Arguments br_filled {R}. Arguments br_initialized {R}. Arguments br_inner {R}.
Section bufreader.
Context {R : Type} `{!Reader R}.

(** Box contents before initialization: any bytes of the length. *)
Definition br_with_capacity (memory : list byte) (inner : R) : BufReader R :=
  {| br_buf := memory; br_pos := 0; br_filled := 0; br_initialized := 0; br_inner := inner |}.
Definition br_capacity (s : BufReader R) : nat := length (br_buf s).
Definition buffer (s : BufReader R) : list byte := slice (br_pos s) (br_filled s - br_pos s) (br_buf s).
Definition discard_buffer : M (BufReader R) unit :=
  modify (λ s, {| br_buf := br_buf s; br_pos := 0; br_filled := 0; br_initialized := br_initialized s; br_inner := br_inner s |}).
Definition inner_read (n : nat) : M (BufReader R) (IoResult (list byte)) :=
  zoom br_inner (λ w s, {| br_buf := br_buf s; br_pos := br_pos s; br_filled := br_filled s;
                           br_initialized := br_initialized s; br_inner := w |}) (r_read n).
(** [read_buf] on the whole buffer: [ensure_init] zeroes the part that is not initialized. *)
Definition ensure_init (s : BufReader R) : list byte := take (br_initialized s) (br_buf s) ++ zeroes (br_capacity s - br_initialized s).
Definition br_fill_buf : M (BufReader R) (IoResult (list byte)) :=
  s ← get;
  _ ←? (if bool_decide (br_filled s ≤ br_pos s)%nat then
          r ← inner_read (br_capacity s);
          let bs := match r with Ok bs => bs | Err _ => [] end in
          modify (λ s', {| br_buf := splice 0 bs (ensure_init s); br_pos := 0; br_filled := length bs;
                           br_initialized := br_capacity s; br_inner := br_inner s' |});;
          mret (match r with Ok _ => Ok tt | Err e => Err e end)
        else mret (Ok tt));
  s ← get;
  mret (Ok (buffer s)).
Definition br_consume (amt : nat) : M (BufReader R) unit :=
  modify (λ s, {| br_buf := br_buf s; br_pos := (br_pos s + amt) `min` br_filled s; br_filled := br_filled s;
                  br_initialized := br_initialized s; br_inner := br_inner s |}).
Definition br_read (n : nat) : M (BufReader R) (IoResult (list byte)) :=
  s ← get;
  if bool_decide (br_pos s = br_filled s) && bool_decide (br_capacity s ≤ n)%nat then
    discard_buffer;;
    inner_read n
  else
    rem ←? br_fill_buf;
    br_consume (length (take n rem));;
    mret (Ok (take n rem)).
#[export] Instance bufreader_bufread : BufRead (BufReader R) := {| fill_buf := br_fill_buf; consume := br_consume |}.
#[export] Instance bufreader_reader : Reader (BufReader R) := {| r_read := br_read |}.
End bufreader.
(** [impl Read for &[u8]]. *)
#[export] Instance bytes_reader : Reader (list byte) := {| r_read n l := Ret (Ok (take n l)) (drop n l) |}.

(** ** What readers promise

    [r_rest] is what the reader has left to deliver. A call delivers a prefix of it, nothing only when there is nothing left or the
    slice is empty, and a failing call delivers nothing. *)
Class ReaderOk (R : Type) `{!Reader R} := {
  r_inv : R → Prop;
  r_rest : R → list byte;
  r_read_wp w n : r_inv w → wp (r_read n) (λ r w', r_inv w' ∧ match r with
    | Ok bs => (length bs ≤ n)%nat ∧ r_rest w = bs ++ r_rest w' ∧ (bs = [] → n = 0%nat ∨ r_rest w = [])
    | Err _ => r_rest w' = r_rest w
    end) w;
}.
(** The same for [fill_buf] and [consume]. *)
Class BufReadOk (R : Type) `{!BufRead R} := {
  b_inv : R → Prop;
  b_rest : R → list byte;
  b_avail : R → list byte;
  fill_buf_wp s : b_inv s → wp fill_buf (λ r s', b_inv s' ∧ b_rest s' = b_rest s ∧
    ∀ a, r = Ok a → a = b_avail s' ∧ a `prefix_of` b_rest s' ∧ (a = [] → b_rest s' = [])) s;
  consume_wp s n : b_inv s → (n ≤ length (b_avail s))%nat → wp (consume n) (λ _ s', b_inv s' ∧ b_rest s' = drop n (b_rest s)) s;
}.

Section read_ok.
Context {R : Type} `{!Reader R, !ReaderOk R}.
Implicit Types (w : R).

Lemma read_to_end_wp w buf : r_inv w → Z.of_nat (length (r_rest w)) < USIZE_LIMIT →
  wp (read_to_end buf) (λ '(buf', r) w', r_inv w' ∧ ∃ got, buf' = buf ++ got ∧ r_rest w = got ++ r_rest w' ∧
    ∀ n, r = Ok n → n = Z.of_nat (length got) ∧ r_rest w' = []) w.
Proof.
  intros Hw Hlen. apply wp_bind.
  eapply (wp_mono _ (λ '(buf', r) w', r_inv w' ∧ ∃ got, buf' = buf ++ got ∧ r_rest w = got ++ r_rest w' ∧ (r = Ok tt → r_rest w' = []))).
  - apply (while_wp _ _ (λ b w', r_inv w' ∧ ∃ got, b = buf ++ got ∧ r_rest w = got ++ r_rest w') (λ _ w', Z.of_nat (length (r_rest w'))));
      [|done|split; [done|by exists []; rw app_nil_r]].
    intros b w1 (H1 & got & -> & Hr). split; [lia|]. rw /read_to_end_body. wp_step. eapply wp_mono; [by apply r_read_wp|].
    intros [bs|e] w2; [intros (H2 & _ & E & Hnil)|intros (H2 & E)]; simpl.
    + destruct bs as [|x bs]; wp_step.
      * split; [done|]. exists got. rw Hr E. split_and!; [done..|]. intros _. destruct (Hnil eq_refl) as [|Hn]; [done|]. by rw E in Hn.
      * split; [split; [done|]|rw E length_app length_cons; lia]. exists (got ++ x :: bs). by rw Hr E !app_assoc.
    + wp_step. split; [done|]. exists got. by rw E.
  - intros [buf' r] w' (Hi & got & -> & Hr & He). wp_step. split; [done|]. exists got. split_and!; [done..|]. intros n Hn. destruct r as [[]|e]; [|done].
    injection Hn as <-. split; [rw length_app; lia|by apply He].
Qed.
Lemma read_exact_wp w n : r_inv w → Z.of_nat n < USIZE_LIMIT →
  wp (read_exact n) (λ '(got, r) w', r_inv w' ∧ r_rest w = got ++ r_rest w' ∧
    match r with
    | Ok _ => length got = n
    | Err ReadExactEof => True
    | Err _ => (length got < n)%nat
    end) w.
Proof.
  intros Hw Hlen.
  apply (while_wp _ _ (λ got w', r_inv w' ∧ r_rest w = got ++ r_rest w' ∧ (length got ≤ n)%nat) (λ got _, Z.of_nat (n - length got)));
    [|simpl; change (Z.pos IO_FUEL) with USIZE_LIMIT; lia|split_and!; [done..|simpl; lia]].
  intros got w1 (H1 & Hr & Hle). split; [lia|]. rw /read_exact_body. case_bool_decide; [wp_step; split_and!; [done..|lia]|].
  wp_step. eapply wp_mono; [by apply r_read_wp|]. intros [bs|e] w2; [intros (H2 & Hl & E & _)|intros (H2 & E)]; simpl.
  - destruct bs as [|x bs]; wp_step; [by split_and!; [done|rw Hr E|]|].
    rw !length_app. split; [split_and!; [done|by rw Hr E app_assoc|lia]|simpl; lia].
  - wp_step. split_and!; [done|by rw Hr E|]. destruct e; try done; lia.
Qed.
End read_ok.

(** The next line of [l]: up to its first [b], that included, or all of it. *)
Definition until (b : byte) (l : list byte) : list byte := take (scan_until b l).2 l.
Lemma scan_bound b l : ((scan_until b l).2 ≤ length l)%nat.
Proof. rw /scan_until. destruct (memchr b l) as [i|] eqn:E; simpl; [|done]. apply memchr_Some in E as [?%lookup_lt_Some _]. lia. Qed.
Lemma memchr_app b l1 l2 : memchr b (l1 ++ l2) = match memchr b l1 with Some i => Some i | None => (λ i, (length l1 + i)%nat) <$> memchr b l2 end.
Proof.
  rw /memchr. destruct (list_find (λ x, x = b) l1) as [[i x]|] eqn:E; simpl.
  - by rewrite (list_find_app_l _ _ _ _ _ E).
  - rewrite list_find_app_r; [|done]. destruct (list_find _ l2) as [[j y]|]; [|done]. by rw /= Nat.add_comm.
Qed.
Lemma until_app_done b l1 l2 : (scan_until b l1).1 = true → until b (l1 ++ l2) = take (scan_until b l1).2 l1.
Proof.
  intros H. pose proof (scan_bound b l1) as Hb. revert H Hb. rw /until /scan_until memchr_app. destruct (memchr b l1) as [i|]; [|done]. simpl. intros _ Hb.
  by rw take_app_le.
Qed.
Lemma until_app_more b l1 l2 : (scan_until b l1).1 = false → until b (l1 ++ l2) = l1 ++ until b l2.
Proof.
  rw /until /scan_until memchr_app. destruct (memchr b l1) as [i|]; [done|]. intros _. destruct (memchr b l2) as [j|]; simpl.
  - by rw -Nat.add_assoc take_app_add.
  - by rw !firstn_all.
Qed.

Section bufread_ok.
Context {R : Type} `{!BufRead R, !BufReadOk R}.
Implicit Types (s : R).

(** One round of a line: the whole line is taken, or all there is without its end. *)
Lemma scan_wp {A} b s (k : M R A) a (Q : A → R → Prop) : b_inv s → a = b_avail s → a `prefix_of` b_rest s →
  (∀ s', b_inv s' → b_rest s = take (scan_until b a).2 a ++ b_rest s' → (scan_until b a).1 = true → take (scan_until b a).2 a = until b (b_rest s) → wp k Q s') →
  (∀ s', b_inv s' → b_rest s = a ++ b_rest s' → (scan_until b a).1 = false → (scan_until b a).2 = length a → until b (b_rest s) = a ++ until b (b_rest s') → wp k Q s') →
  wp (consume (scan_until b a).2;; k) Q s.
Proof.
  intros Hs Ha [rest Hp] Hdone Hmore. wp_step. pose proof (scan_bound b a) as Hb. eapply wp_mono; [apply consume_wp; [done|by rw -Ha]|].
  intros _ s' [Hs' Hr]. rw Hp drop_app_le in Hr; [|done]. destruct (scan_until b a).1 eqn:E.
  - apply Hdone; try done; [by rw Hp Hr app_assoc take_drop|]. by rw Hp until_app_done.
  - assert ((scan_until b a).2 = length a) as El by (revert E; rw /scan_until; by destruct (memchr b a)).
    rw El drop_all /= in Hr. apply Hmore; try done; [by rw Hr|]. by rw Hp Hr until_app_more.
Qed.
Lemma until_nil b : until b [] = [].
Proof. done. Qed.
Lemma used_zero b a : (scan_until b a).1 = false → (scan_until b a).2 = length a → bool_decide ((scan_until b a).2 = 0%nat) = bool_decide (a = []).
Proof. intros _ ->. apply bool_decide_ext. by destruct a. Qed.
Lemma read_until_wp b s buf : b_inv s → Z.of_nat (length (b_rest s)) < USIZE_LIMIT →
  wp (read_until b buf) (λ '(buf', r) s', b_inv s' ∧ ∃ got, buf' = buf ++ got ∧ b_rest s = got ++ b_rest s' ∧
    ∀ n, r = Ok n → got = until b (b_rest s) ∧ n = Z.of_nat (length got)) s.
Proof.
  intros Hs Hlen.
  apply (while_wp _ _ (λ st s', b_inv s' ∧ ∃ got, st = (buf ++ got, Z.of_nat (length got)) ∧ b_rest s = got ++ b_rest s' ∧
    until b (b_rest s) = got ++ until b (b_rest s')) (λ _ s', Z.of_nat (length (b_rest s')))); [|done|split; [done|by exists []; rw app_nil_r]].
  intros st s1 (H1 & got & -> & Hr & Hu). split; [lia|]. rw /read_until_body. wp_step. eapply wp_mono; [by apply fill_buf_wp|].
  intros [a|e] s2 (H2 & E2 & Ha); simpl; [|wp_step; split; [done|exists got; by rw E2]].
  destruct (Ha a eq_refl) as (Hav & Hp & Hnil). rw -E2 in Hr, Hu |- *. rewrite (surjective_pairing (scan_until b a)).
  apply scan_wp; [done..| |].
  - intros s' Hs' Hrest -> Hline. cbn [orb]. wp_step. split; [done|]. exists (got ++ take (scan_until b a).2 a).
    split_and!; [by rw -app_assoc|by rw Hr Hrest app_assoc|]. intros n [= <-].
    split; [by rw Hu Hline|]. rw length_app length_take. pose proof (scan_bound b a). lia.
  - intros s' Hs' Hrest E Hl Hline. rw E (used_zero _ _ E Hl) Hl firstn_all. cbn [orb]. case_bool_decide as Hd; wp_step.
    + split; [done|]. exists got. rw Hd app_nil_r. rw Hd in Hrest. split_and!; [done|by rw Hr Hrest|]. intros n [= <-].
      rw Hu (Hnil Hd) until_nil app_nil_r. split; [done|]. simpl. lia.
    + split; [split; [done|]|].
      * exists (got ++ a). split_and!; [rw length_app Nat2Z.inj_add; by rw app_assoc|by rw Hr Hrest app_assoc|by rw Hu Hline app_assoc].
      * rw Hrest length_app. destruct a; [done|simpl; lia].
Qed.
Lemma skip_until_wp b s : b_inv s → Z.of_nat (length (b_rest s)) < USIZE_LIMIT →
  wp (skip_until b) (λ r s', b_inv s' ∧ ∃ got, b_rest s = got ++ b_rest s' ∧
    ∀ n, r = Ok n → got = until b (b_rest s) ∧ n = Z.of_nat (length got)) s.
Proof.
  intros Hs Hlen.
  apply (while_wp _ _ (λ n s', b_inv s' ∧ ∃ got, n = Z.of_nat (length got) ∧ b_rest s = got ++ b_rest s' ∧
    until b (b_rest s) = got ++ until b (b_rest s')) (λ _ s', Z.of_nat (length (b_rest s')))); [|done|split; [done|by exists []]].
  intros n s1 (H1 & got & -> & Hr & Hu). split; [lia|]. rw /skip_until_body. wp_step. eapply wp_mono; [by apply fill_buf_wp|].
  intros [a|e] s2 (H2 & E2 & Ha); simpl; [|wp_step; split; [done|exists got; by rw E2]].
  destruct (Ha a eq_refl) as (Hav & Hp & Hnil). rw -E2 in Hr, Hu |- *. rewrite (surjective_pairing (scan_until b a)).
  apply scan_wp; [done..| |].
  - intros s' Hs' Hrest -> Hline. cbn [orb]. wp_step. split; [done|]. exists (got ++ take (scan_until b a).2 a).
    split; [by rw Hr Hrest app_assoc|]. intros n [= <-].
    split; [by rw Hu Hline|]. rw length_app length_take. pose proof (scan_bound b a). lia.
  - intros s' Hs' Hrest E Hl Hline. rw E (used_zero _ _ E Hl) Hl. cbn [orb]. case_bool_decide as Hd; wp_step.
    + split; [done|]. exists got. rw Hd in Hrest. split; [by rw Hr Hrest|]. intros n [= <-].
      rw Hu (Hnil Hd) until_nil app_nil_r Hd. split; [done|]. simpl. lia.
    + split; [split; [done|]|].
      * exists (got ++ a). split_and!; [rw length_app; lia|by rw Hr Hrest app_assoc|by rw Hu Hline app_assoc].
      * rw Hrest length_app. destruct a; [done|simpl; lia].
Qed.
(** A line that is not UTF-8 is consumed, and the string keeps its contents. *)
Lemma append_to_string_wp s buf (f : list byte → M R (Appended Z)) (Q : list byte → IoResult Z → R → Prop) :
  wp (f buf) (λ '(buf', r) s', ∃ got, buf' = buf ++ got ∧ Q got r s') s →
  wp (append_to_string buf f) (λ '(buf', r) s', ∃ got r', Q got r' s' ∧
    if is_utf8 got then buf' = buf ++ got ∧ r = r' else buf' = buf ∧ r = match r' with Ok _ => Err InvalidUtf8 | Err e => Err e end) s.
Proof.
  intros H. rw /append_to_string. wp_step. eapply wp_mono; [exact H|]. intros [buf' r] s' (got & -> & HQ). rw drop_app_length.
  destruct (is_utf8 got) eqn:E; wp_step; exists got, r; by rw E.
Qed.
End bufread_ok.

(** ** [BufReader] keeps the promise *)

Section bufreader_ok.
Context {R : Type} `{!Reader R, !ReaderOk R}.
Implicit Types (s : BufReader R).

Definition br_inv s : Prop :=
  r_inv (br_inner s) ∧ (br_pos s ≤ br_filled s ≤ br_capacity s)%nat ∧ (br_initialized s ≤ br_capacity s)%nat ∧ (0 < br_capacity s)%nat.
Definition br_rest s : list byte := buffer s ++ r_rest (br_inner s).
Lemma inner_read_wp s n (Q : IoResult (list byte) → BufReader R → Prop) :
  wp (r_read n) (λ r w, Q r {| br_buf := br_buf s; br_pos := br_pos s; br_filled := br_filled s; br_initialized := br_initialized s; br_inner := w |}) (br_inner s) →
  wp (inner_read n) Q s.
Proof. rw /wp /inner_read /zoom. by destruct (r_read n (br_inner s)). Qed.
Lemma ensure_init_length s : (br_initialized s ≤ br_capacity s)%nat → length (ensure_init s) = br_capacity s.
Proof. intros H. rw /ensure_init length_app length_take zeroes_length. rw /br_capacity in H |- *. lia. Qed.
Lemma buffer_length s : br_inv s → length (buffer s) = (br_filled s - br_pos s)%nat.
Proof. intros (_ & ? & _ & _). rw /buffer /slice length_take length_drop. rw /br_capacity in H. lia. Qed.
Lemma buffer_empty s : (br_filled s ≤ br_pos s)%nat → buffer s = [].
Proof. intros H. rw /buffer /slice. by replace (br_filled s - br_pos s)%nat with 0%nat by lia. Qed.

Lemma br_fill_buf_wp s : br_inv s → wp br_fill_buf (λ r s', br_inv s' ∧ br_rest s' = br_rest s ∧
  ∀ a, r = Ok a → a = buffer s' ∧ a `prefix_of` br_rest s' ∧ (a = [] → br_rest s' = [])) s.
Proof.
  intros Hi. pose proof Hi as (Hr & Hpos & Hinit & Hcap). rw /br_fill_buf. do 3 wp_step. case_bool_decide as Hd.
  - wp_step. apply inner_read_wp. eapply wp_mono; [by apply r_read_wp|]. intros r w [Hw H]. do 3 wp_step. simpl.
    set (bs := match r with Ok bs => bs | Err _ => [] end). set (s' := Build_BufReader _ _ _ _ _).
    assert (length bs ≤ br_capacity s)%nat as Hl by (destruct r; simpl; [by destruct H|lia]).
    assert (r_rest (br_inner s) = bs ++ r_rest w) as Hrest by (destruct r; simpl; [by destruct H as (_ & H & _)|done]).
    assert (br_capacity s' = br_capacity s) as Hc' by (rewrite {1}/br_capacity /= splice_length ensure_init_length; done).
    assert (buffer s' = bs) as Hb.
    { rw /buffer /= Nat.sub_0_r. apply slice_splice. by rw ensure_init_length. }
    assert (br_inv s') as Hi' by (split_and!; [done|simpl; lia|rw Hc' /=; lia|simpl; lia|by rw Hc']).
    assert (br_rest s' = br_rest s) as Hs' by by rw /br_rest Hb /= Hrest (buffer_empty s).
    destruct r as [a|e]; [|by split_and!]. simpl. do 3 wp_step. split_and!; [done..|]. intros ? [= <-]. rw Hb /br_rest Hb. split_and!; [done|by eexists|].
    intros Ea. destruct H as (_ & H & Hnil). destruct (Hnil Ea) as [|Hn]; [lia|]. by rw /= -Hrest.
  - do 4 wp_step. split_and!; [done..|]. intros ? [= <-]. split_and!; [done|by eexists|]. intros E. apply (f_equal length) in E.
    rw buffer_length in E; [|done]. simpl in E. lia.
Qed.
Lemma br_consume_wp s n : br_inv s → (n ≤ length (buffer s))%nat → wp (br_consume n) (λ _ s', br_inv s' ∧ br_rest s' = drop n (br_rest s)) s.
Proof.
  intros Hi Hn. rw (buffer_length s Hi) in Hn. pose proof Hi as (Hr & Hpos & Hinit & Hcap). rw /br_consume. wp_step.
  split; [split_and!; [done|simpl; lia|apply Hpos|done|done]|]. rw /br_rest drop_app_le; [|by rw buffer_length].
  f_equal. rw /buffer /slice /= Nat.min_l; [|lia]. rw skipn_firstn_comm drop_drop. f_equal. lia.
Qed.
#[export] Program Instance bufreader_bufread_ok : BufReadOk (BufReader R) := {| b_inv := br_inv; b_rest := br_rest; b_avail := buffer |}.
Next Obligation. exact br_fill_buf_wp. Qed.
Next Obligation. exact br_consume_wp. Qed.

Lemma br_read_wp s n : br_inv s → wp (br_read n) (λ r s', br_inv s' ∧ match r with
  | Ok bs => (length bs ≤ n)%nat ∧ br_rest s = bs ++ br_rest s' ∧ (bs = [] → n = 0%nat ∨ br_rest s = [])
  | Err _ => br_rest s' = br_rest s
  end) s.
Proof.
  intros Hi. pose proof Hi as (Hr & Hpos & Hinit & Hcap). rw /br_read. do 2 wp_step. case_match eqn:Hd.
  - apply andb_true_iff in Hd as [Hp%bool_decide_eq_true Hn%bool_decide_eq_true]. rw /discard_buffer. wp_step. wp_step. apply inner_read_wp. simpl.
    eapply wp_mono; [by apply r_read_wp|]. intros r w [Hw H]. split; [split_and!; [done|simpl; lia|simpl; lia|done|done]|].
    rw /br_rest (buffer_empty s); [exact H|lia].
  - wp_step. eapply wp_mono; [by apply br_fill_buf_wp|]. intros [a|e] s1 (H1 & E1 & Ha); [|done].
    destruct (Ha a eq_refl) as (-> & _ & Hnil). do 1 wp_step. eapply wp_mono; [apply br_consume_wp; [done|rw length_take; lia]|].
    intros _ s2 [H2 E2]. wp_step. split; [done|]. rw length_take. split_and!; [lia| |].
    + rw -E1 E2 -{1}(take_drop (length (take n (buffer s1))) (br_rest s1)). f_equal. rw /br_rest take_app_le; [|rw length_take; lia].
      by rw length_take -take_take firstn_all.
    + intros E. destruct n; [by left|]. right. rw -E1. apply Hnil. by destruct (buffer s1).
Qed.
#[export] Program Instance bufreader_reader_ok : ReaderOk (BufReader R) := {| r_inv := br_inv; r_rest := br_rest |}.
Next Obligation. exact br_read_wp. Qed.

(** C39: [read_line] of a [BufReader] returns the next line. Whatever the capacity of the buffer and however the reader splits its
    data, the call ends; a success appends exactly the data up to the first newline, that included, or all of it, and leaves the rest
    to be read. A line that is not UTF-8 is dropped, and the string is what it was. *)
Theorem read_line_correct (s : BufReader R) (buf : list byte) (Hs : br_inv s) (Hlen : Z.of_nat (length (br_rest s)) < USIZE_LIMIT) :
  ∃ buf' r s' got, read_line buf s = Ret (buf', r) s' ∧ br_inv s' ∧ br_rest s = got ++ br_rest s' ∧
    buf' = (if is_utf8 got then buf ++ got else buf) ∧
    (∀ n, r = Ok n → got = until NEWLINE (br_rest s) ∧ is_utf8 got = true ∧ n = Z.of_nat (length got)).
Proof.
  assert (wp (read_until NEWLINE buf) (λ '(buf', r) s', ∃ got, buf' = buf ++ got ∧ br_inv s' ∧ br_rest s = got ++ br_rest s' ∧
    ∀ n, r = Ok n → got = until NEWLINE (br_rest s) ∧ n = Z.of_nat (length got)) s) as H.
  { eapply wp_mono; [by apply read_until_wp|]. intros [buf' r] s' (Hi & got & Hb & Hr & Hn). by exists got. }
  destruct (wp_run _ _ _ (append_to_string_wp s buf _ (λ got r s', br_inv s' ∧ br_rest s = got ++ br_rest s' ∧
    ∀ n, r = Ok n → got = until NEWLINE (br_rest s) ∧ n = Z.of_nat (length got)) H)) as ([buf' r] & s' & Hrun & got & r' & (Hi & Hr & Hn) & Hu).
  exists buf', r, s', got. destruct (is_utf8 got); destruct Hu as [-> ->]; (split_and!; [done..|]).
  - intros n Hok. by destruct (Hn n Hok).
  - by destruct r'.
Qed.
End bufreader_ok.
#[export] Program Instance bytes_reader_ok : ReaderOk (list byte) := {| r_inv _ := True; r_rest l := l |}.
Next Obligation.
  intros w n _. rw /wp /=. split_and!; [done|rw length_take; lia|by rw take_drop|]. destruct n, w; naive_solver.
Qed.

Module Example.
Definition text : list byte := [Byte.x68; Byte.xc3; Byte.xa9; Byte.x6c; Byte.x6c; NEWLINE; Byte.x6f].
Lemma read_line_correct_witness : ∃ s', read_line [Byte.x3e] (br_with_capacity (zeroes 4) text) = Ret (Byte.x3e :: take 6 text, Ok 6) s' ∧
  br_rest s' = [Byte.x6f].
Proof.
  destruct (read_line_correct (br_with_capacity (zeroes 4) text) [Byte.x3e]) as (buf' & r & s' & got & Hrun & _ & Hrest & Hbuf & Hr).
  - split_and!; try done; vm_compute; lia.
  - done.
  - assert (r = Ok 6) as -> by (vm_compute in Hrun; congruence). destruct (Hr 6 eq_refl) as (-> & Hu & _).
    exists s'. rewrite Hu in Hbuf. subst buf'. split; [exact Hrun|]. apply (app_inv_head (take 6 text)). symmetry. exact Hrest.
Defined.
End Example.
