(* ===== verification/Malloc.v ===== *)
(** * The allocator of user programs

    Model of [crates/user/ov6_user_lib/src/alloc.rs]: a circular list of free blocks in address order, from which [malloc] takes the
    first block that fits and into which [free] joins neighbours. *)

From stdpp Require Import base list gmap sorting ssreflect.
From S2P Require Import Prelude BufIo.

Definition HEADER_SIZE : Z := 16.
Record Header : Type := { h_next : Z; h_size : Z }.
#[export] Instance Header_eq_dec : EqDecision Header.
Proof. solve_decision. Defined.
(** The program break, of which the allocator asks [sbrk]. *)
Class Break (B : Type) := { sys_sbrk : Z → M B (IoResult Z) }.
(** [process::grow_break]. *)
Definition grow_break {B} `{!Break B} (size : Z) : M B (IoResult Z) :=
  size ← unwrap (try_from 63 size);
  sys_sbrk size.

(** The headers in memory, by address, and the variable [FREE_LIST]. An access to an address without a header is an access outside of
    the allocator's memory, and a panic of the model. *)
Record Heap (B : Type) : Type := {
  hp_mem : gmap Z Header;
  hp_free_list : Z;
  hp_break : B;
}.
Arguments Build_Heap {B}. Arguments hp_mem {B}. Arguments hp_free_list {B}. Arguments hp_break {B}.

Section malloc.
Context {B : Type} `{!Break B}.

Definition with_mem (m : gmap Z Header) (h : Heap B) : Heap B :=
  {| hp_mem := m; hp_free_list := hp_free_list h; hp_break := hp_break h |}.
Definition header (p : Z) : M (Heap B) Header := h ← get; unwrap (hp_mem h !! p).
Definition next (p : Z) : M (Heap B) Z := h ← header p; mret (h_next h).
Definition size (p : Z) : M (Heap B) Z := h ← header p; mret (h_size h).
Definition set_next (p next : Z) : M (Heap B) unit :=
  x ← header p;
  modify (λ h, with_mem (<[p := {| h_next := next; h_size := h_size x |}]> (hp_mem h)) h).
Definition set_size (p size : Z) : M (Heap B) unit :=
  x ← header p;
  modify (λ h, with_mem (<[p := {| h_next := h_next x; h_size := size |}]> (hp_mem h)) h).
(** Memory of a block in which no header was yet: its [next] is whatever is there. *)
Definition init_size (p size : Z) : M (Heap B) unit :=
  modify (λ h, with_mem (<[p := {| h_next := match hp_mem h !! p with Some x => h_next x | None => 0 end; h_size := size |}]> (hp_mem h)) h).
Definition set_free_list (p : Z) : M (Heap B) unit :=
  modify (λ h, {| hp_mem := hp_mem h; hp_free_list := p; hp_break := hp_break h |}).
(** [p.add(n)]. *)
Definition add (p n : Z) : Z := p + HEADER_SIZE * n.

(** The place of [bp] in the list. *)
Definition free_body (bp p : Z) : M (Heap B) (Z + Z) :=
  n ← next p;
  if (p <? bp) && (bp <? n) then mret (inr p)
  else if (n <=? p) && ((p <? bp) || (bp <? n)) then mret (inr p)
  else mret (inl n).
(** Putting the block [bp] after [p]. *)
Definition join_upper (bp p : Z) : M (Heap B) unit :=
  s ← size bp;
  n ← next p;
  if add bp s =? n then
    sn ← size n;
    set_size bp (wrap 64 (s + sn));;
    nn ← next n;
    set_next bp nn
  else set_next bp n.
Definition join_lower (bp p : Z) : M (Heap B) unit :=
  s ← size p;
  if add p s =? bp then
    sb ← size bp;
    set_size p (wrap 64 (s + sb));;
    n ← next bp;
    set_next p n
  else set_next p bp.
Definition free (ap : Z) : M (Heap B) unit :=
  assert_ (ap mod HEADER_SIZE =? 0);;
  let bp := add ap (-1) in
  h ← get;
  p ← while_ IO_FUEL (free_body bp) (hp_free_list h);
  join_upper bp p;;
  join_lower bp p;;
  set_free_list p.

Definition expand_heap (nunits : Z) : M (Heap B) (IoResult Z) :=
  let nunits := if nunits <? 4096 then 4096 else nunits in
  p ←? zoom hp_break (λ b h, {| hp_mem := hp_mem h; hp_free_list := hp_free_list h; hp_break := b |}) (grow_break (wrap 64 (nunits * HEADER_SIZE)));
  assert_ (p mod HEADER_SIZE =? 0);;
  init_size p nunits;;
  free (add p 1);;
  h ← get;
  mret (Ok (hp_free_list h)).

(** One block of the search; the state is [prevp] and [p]. *)
Definition malloc_body (nunits : Z) (st : Z * Z) : M (Heap B) (Z * Z + IoResult Z) :=
  let '(prevp, p) := st in
  s ← size p;
  if nunits <=? s then
    p ← (if s =? nunits then
           n ← next p;
           set_next prevp n;;
           mret p
         else
           set_size p (s - nunits);;
           let p := add p (s - nunits) in
           init_size p nunits;;
           mret p);
    set_free_list prevp;;
    mret (inr (Ok (add p 1)))
  else
    h ← get;
    r ← (if p =? hp_free_list h then expand_heap nunits else mret (Ok p));
    match r with
    | Err e => mret (inr (Err e))
    | Ok p => n ← next p; mret (inl (p, n))
    end.
Definition units (nbytes : Z) : Z := wrap 64 ((nbytes + HEADER_SIZE - 1) / HEADER_SIZE + 1).
Definition malloc (nbytes : Z) : M (Heap B) (IoResult Z) :=
  h ← get;
  let prevp := hp_free_list h in
  p ← next prevp;
  while_ IO_FUEL (malloc_body (units nbytes)) (prevp, p).

(** The methods of [GlobalAlloc]. *)
Definition alloc (align size : Z) : M (Heap B) Z :=
  assert_ (HEADER_SIZE mod align =? 0);;
  r ← malloc size;
  mret (match r with Ok p => p | Err _ => 0 end).
Definition dealloc (ptr : Z) : M (Heap B) unit := free ptr.
(** [BASE] in a program that starts. *)
Definition heap_new (base : Z) (b : B) : Heap B :=
  {| hp_mem := {[ base := {| h_next := base; h_size := 0 |} ]}; hp_free_list := base; hp_break := b |}.
End malloc.

(** ** Blocks

    A block is the address of its header and its size in units, the header included. *)
Notation Block := (Z * Z)%type.
Definition block_end (b : Block) : Z := add b.1 b.2.
(** Address order, with at least one unit that is not free between two blocks. *)
Definition before (b1 b2 : Block) : Prop := block_end b1 < b2.1.
(** How many of the blocks contain the address [u]. *)
Definition covers (u : Z) (b : Block) : Z := if decide (b.1 ≤ u < block_end b) then 1 else 0.
Fixpoint cover (u : Z) (l : list Block) : Z := match l with [] => 0 | b :: l => covers u b + cover u l end.
Definition hd_addr (z : Z) (l : list Block) : Z := match l with [] => z | b :: _ => b.1 end.
(** [l] is linked in memory, and its last block is linked to [z]. *)
Fixpoint chain (m : gmap Z Header) (l : list Block) (z : Z) : Prop :=
  match l with
  | [] => True
  | b :: l => m !! b.1 = Some {| h_next := hd_addr z l; h_size := b.2 |} ∧ chain m l z
  end.

Ltac unfold_blocks := unfold before, block_end, add, HEADER_SIZE in *; simpl in *.

Lemma covers_bound u b : 0 ≤ covers u b ≤ 1.
Proof. rw /covers. case_decide; lia. Qed.
Lemma cover_nonneg u l : 0 ≤ cover u l.
Proof. induction l as [|b l IH]; simpl; [done|]. pose proof (covers_bound u b). lia. Qed.
Lemma cover_app u l1 l2 : cover u (l1 ++ l2) = cover u l1 + cover u l2.
Proof. induction l1 as [|b l IH]; simpl; lia. Qed.
Lemma covers_in u b : b.1 ≤ u < block_end b → covers u b = 1.
Proof. intros H. rw /covers. by rewrite decide_True. Qed.
Lemma covers_empty u a : covers u (a, 0) = 0.
Proof. rw /covers. rewrite decide_False; [done|]. unfold_blocks. lia. Qed.
Lemma covers_join u a s s' : 0 ≤ s → 0 ≤ s' → covers u (a, s) + covers u (add a s, s') = covers u (a, s + s').
Proof. intros Hs Hs'. rw /covers. unfold_blocks. repeat case_decide; lia. Qed.
Lemma cover_elem u l b : b ∈ l → b.1 ≤ u < block_end b → 1 ≤ cover u l.
Proof.
  intros (l1 & l2 & ->)%list_elem_of_split Hu. rw cover_app /= (covers_in _ _ Hu). pose proof (cover_nonneg u l1). pose proof (cover_nonneg u l2). lia.
Qed.
Lemma chain_app m l1 l2 z : chain m (l1 ++ l2) z ↔ chain m l1 (hd_addr z l2) ∧ chain m l2 z.
Proof.
  induction l1 as [|b l1 IH]; simpl; [naive_solver|]. rw IH. by destruct l1; naive_solver.
Qed.
Lemma chain_ext m m' l z : (∀ a, a ∈ l.*1 → m' !! a = m !! a) → chain m l z → chain m' l z.
Proof.
  induction l as [|b l IH]; simpl; [done|]. intros H [Hb Hc]. split; [rw H; [done|by left]|]. apply IH; [|done]. intros a Ha. apply H. by right.
Qed.
Lemma chain_insert_ne m l z a h : a ∉ l.*1 → chain m l z → chain (<[a := h]> m) l z.
Proof. intros Ha. apply chain_ext. intros x Hx. apply lookup_insert_ne. by intros ->. Qed.
Lemma chain_lookup m l z i b : chain m l z → l !! i = Some b →
  m !! b.1 = Some {| h_next := hd_addr z (drop (S i) l); h_size := b.2 |}.
Proof.
  intros Hc Hi. rewrite -(take_drop_middle l i b Hi) in Hc. apply chain_app in Hc as [_ [H _]]. exact H.
Qed.
Lemma hd_addr_drop z l i b : l !! i = Some b → hd_addr z (drop i l) = b.1.
Proof. intros Hi. by rewrite (drop_S l b i Hi). Qed.

(** Blocks in order have different addresses. *)
Lemma before_lt b1 b2 : 0 ≤ b1.2 → before b1 b2 → b1.1 < b2.1.
Proof. unfold_blocks. lia. Qed.
Lemma sorted_index l i j b1 b2 : StronglySorted before l → l !! i = Some b1 → l !! j = Some b2 → (i < j)%nat → before b1 b2.
Proof.
  intros Hs Hi Hj Hlt. rewrite -(take_drop (S i) l) in Hs. apply (StronglySorted_app_1_elem_of _ _ _ _ _ Hs).
  - rewrite (take_S_r l i b1 Hi). apply elem_of_app. right. by left.
  - apply list_elem_of_lookup. exists (j - S i)%nat. rw lookup_drop. by replace (S i + (j - S i))%nat with j by lia.
Qed.
Lemma sorted_addr_inj l i j b1 b2 : StronglySorted before l → Forall (λ b, 0 ≤ b.2) l →
  l !! i = Some b1 → l !! j = Some b2 → b1.1 = b2.1 → i = j.
Proof.
  intros Hs Hf Hi Hj E. destruct (decide (i = j)) as [|Hne]; [done|]. pose proof (Forall_lookup_1 _ _ _ _ Hf Hi). pose proof (Forall_lookup_1 _ _ _ _ Hf Hj).
  assert (i < j ∨ j < i)%nat as [Hlt|Hlt] by lia.
  - pose proof (before_lt _ _ H (sorted_index _ _ _ _ _ Hs Hi Hj Hlt)). lia.
  - pose proof (before_lt _ _ H0 (sorted_index _ _ _ _ _ Hs Hj Hi Hlt)). lia.
Qed.
Lemma sorted_length lo hi l : StronglySorted before l → Forall (λ b, lo ≤ b.1 ∧ 1 ≤ b.2 ∧ block_end b ≤ hi) l → lo ≤ hi →
  HEADER_SIZE * Z.of_nat (length l) ≤ hi - lo.
Proof.
  revert lo. induction l as [|b l IH]; intros lo Hs Hf Hle; [simpl; lia|]. apply StronglySorted_inv in Hs as [Hs Hb].
  apply Forall_cons in Hf as [(H1 & H2 & H3) Hf]. assert (HEADER_SIZE * Z.of_nat (length l) ≤ hi - block_end b).
  - apply IH; [done| |done]. apply Forall_forall. intros x Hx. rewrite Forall_forall in Hb. rewrite Forall_forall in Hf.
    specialize (Hb x Hx). specialize (Hf x Hx) as (?&?&?). rw /before in Hb. split_and!; lia.
  - rw length_cons Nat2Z.inj_succ. unfold_blocks. lia.
Qed.

(** ** The invariant *)

Definition ADDR_LIMIT : Z := 2 ^ 62.
(** What [sbrk] promises: the old break, and the heap grown by the increment. *)
Class BreakOk (B : Type) `{!Break B} := {
  brk : B → Z;
  sys_sbrk_wp b n : 0 ≤ n → wp (sys_sbrk n) (λ r b', match r with
    | Ok p => p = brk b ∧ brk b' = brk b + n ∧ brk b' < ADDR_LIMIT
    | Err _ => brk b' = brk b
    end) b;
}.

Section heap_ok.
Context {B : Type} `{!Break B, !BreakOk B} (base start : Z).
Implicit Types (h : Heap B) (l fl al : list Block) (b : Block).

(** The block is allocated: its header is intact. *)
Definition live h b : Prop := 1 ≤ b.2 ∧ ∃ n, hp_mem h !! b.1 = Some {| h_next := n; h_size := b.2 |}.
Definition in_heap h (u : Z) : Z := if decide (start ≤ u < brk (hp_break h)) then 1 else 0.
(** [fl] are the free blocks in the order of the list, after [BASE]; [al] the allocated ones. Free and allocated blocks tile the heap:
    every address of it is in exactly one of them. *)
Record heap_ok h fl al : Prop := {
  ok_chain : chain (hp_mem h) ((base, 0) :: fl) base;
  ok_sorted : StronglySorted before ((base, 0) :: fl);
  ok_sizes : Forall (λ b, 1 ≤ b.2) fl;
  ok_cover u : cover u (fl ++ al) = in_heap h u;
  ok_live : Forall (live h) al;
  ok_aligned : Forall (λ b, b.1 mod HEADER_SIZE = 0) (fl ++ al);
  ok_free_list : hp_free_list h ∈ ((base, 0) :: fl).*1;
  ok_range : 0 ≤ base < start ∧ start ≤ brk (hp_break h) < ADDR_LIMIT ∧ brk (hp_break h) mod HEADER_SIZE = 0;
}.

Lemma ok_nonneg h fl al : heap_ok h fl al → Forall (λ b, 0 ≤ b.2) ((base, 0) :: fl).
Proof. intros H. constructor; [done|]. eapply Forall_impl; [apply (ok_sizes _ _ _ H)|]. simpl. lia. Qed.
Lemma ok_size h fl al b : heap_ok h fl al → b ∈ fl ++ al → 1 ≤ b.2.
Proof.
  intros H [Hb|Hb]%elem_of_app.
  - exact (proj1 (Forall_forall _ _) (ok_sizes _ _ _ H) b Hb).
  - exact (proj1 (proj1 (Forall_forall _ _) (ok_live _ _ _ H) b Hb)).
Qed.
(** Blocks are inside of the heap. *)
Lemma ok_bounds h fl al b : heap_ok h fl al → b ∈ fl ++ al → start ≤ b.1 ∧ 1 ≤ b.2 ∧ block_end b ≤ brk (hp_break h).
Proof.
  intros H Hb. pose proof (ok_size _ _ _ _ H Hb) as Hs.
  assert (∀ u, b.1 ≤ u < block_end b → start ≤ u < brk (hp_break h)) as Hin.
  { intros u Hu. pose proof (cover_elem u _ _ Hb Hu) as Hc. rw (ok_cover _ _ _ H) /in_heap in Hc. case_decide; [done|lia]. }
  pose proof (Hin b.1 ltac:(unfold_blocks; lia)). pose proof (Hin (block_end b - 1) ltac:(unfold_blocks; lia)). split_and!; lia.
Qed.
Lemma ok_length h fl al : heap_ok h fl al → 2 * Z.of_nat (length fl) + 8 < USIZE_LIMIT.
Proof.
  intros H. pose proof (ok_range _ _ _ H) as (Hb & Hr & _). assert (HEADER_SIZE * Z.of_nat (length fl) ≤ brk (hp_break h) - start).
  - apply sorted_length; [exact (proj1 (StronglySorted_inv (ok_sorted _ _ _ H)))| |lia].
    apply Forall_forall. intros b Hbl. apply (ok_bounds _ _ _ _ H). apply elem_of_app. by left.
  - rw /HEADER_SIZE /ADDR_LIMIT /USIZE_LIMIT in H0 Hr |- *. lia.
Qed.
(** Two blocks do not overlap. *)
Definition apart b1 b2 : Prop := block_end b1 ≤ b2.1 ∨ block_end b2 ≤ b1.1.
Lemma cover_perm u l l' : l ≡ₚ l' → cover u l = cover u l'.
Proof. induction 1; simpl; lia. Qed.
Lemma ok_apart h fl al b1 b2 l : heap_ok h fl al → fl ++ al ≡ₚ b1 :: b2 :: l → apart b1 b2.
Proof.
  intros H Hp. assert (b1 ∈ fl ++ al) as Hb1 by (rw Hp; set_solver). assert (b2 ∈ fl ++ al) as Hb2 by (rw Hp; set_solver).
  pose proof (ok_size _ _ _ _ H Hb1). pose proof (ok_size _ _ _ _ H Hb2). rw /apart.
  assert (∀ u, b1.1 ≤ u < block_end b1 → b2.1 ≤ u < block_end b2 → False) as Hno.
  { intros u Hu1 Hu2. pose proof (cover_perm u _ _ Hp) as E. rw (ok_cover _ _ _ H) /in_heap /= (covers_in u b1) // (covers_in u b2) // in E.
    pose proof (cover_nonneg u l). case_decide; lia. }
  pose proof (Hno b1.1). pose proof (Hno b2.1). unfold_blocks. lia.
Qed.
Lemma ok_free_apart h fl al b1 b2 : heap_ok h fl al → b1 ∈ fl → b2 ∈ al → apart b1 b2.
Proof.
  intros H (l1 & l2 & ->)%list_elem_of_split (l3 & l4 & ->)%list_elem_of_split.
  eapply (ok_apart _ _ _ b1 b2 (l1 ++ l2 ++ l3 ++ l4)); [exact H|]. by solve_Permutation.
Qed.

(** *** The place of a block in the list *)
Lemma place bp b0 l : StronglySorted before (b0 :: l) → Forall (λ b, 0 ≤ b.2) (b0 :: l) → b0.1 < bp → bp ∉ l.*1 →
  ∃ l1 b l2, b0 :: l = l1 ++ b :: l2 ∧ Forall (λ x, x.1 < bp) (l1 ++ [b]) ∧ Forall (λ x, bp < x.1) l2.
Proof.
  revert b0. induction l as [|b1 l IH]; intros b0 Hs Hf Hlt Hn.
  { exists [], b0, []. split_and!; [done|by constructor|done]. }
  apply StronglySorted_inv in Hs as [Hs _]. apply Forall_cons in Hf as [_ Hf]. rewrite fmap_cons not_elem_of_cons in Hn. destruct Hn as [Hne Hn].
  destruct (decide (b1.1 < bp)) as [Hlt1|Hge].
  - destruct (IH b1 Hs Hf Hlt1 Hn) as (l1 & b & l2 & E & H1 & H2). exists (b0 :: l1), b, l2. rw E. split_and!; [done|by constructor|done].
  - exists [], b0, (b1 :: l). split_and!; [done|by constructor|]. constructor; [lia|]. apply StronglySorted_inv in Hs as [_ Hb]. apply Forall_cons in Hf as [Hf1 _].
    eapply Forall_impl; [exact Hb|]. intros x Hx%before_lt; [lia|done].
Qed.
(** The steps from index [i] to index [k] around a list of [n] blocks. *)
Definition around (n i k : nat) : Z := if decide (i ≤ k)%nat then Z.of_nat (k - i) else Z.of_nat (k + n - i).
Definition next_index (n i : nat) : nat := if decide (S i < n)%nat then S i else 0%nat.
Lemma around_next n i k : (i < n)%nat → (k < n)%nat → i ≠ k → around n (next_index n i) k = around n i k - 1.
Proof. rw /around /next_index. intros. repeat case_decide; lia. Qed.
Lemma around_bound n i k : (i < n)%nat → (k < n)%nat → 0 ≤ around n i k < Z.of_nat n.
Proof. rw /around. intros. case_decide; lia. Qed.
Lemma next_index_bound n i : (0 < n)%nat → (next_index n i < n)%nat.
Proof. rw /next_index. intros. case_decide; lia. Qed.

Lemma header_wp h p x (Q : Header → Heap B → Prop) : hp_mem h !! p = Some x → Q x h → wp (header p) Q h.
Proof. intros Hx HQ. rw /header. do 2 wp_step. by rw Hx. Qed.
Lemma header_next_wp h p x (Q : Z → Heap B → Prop) : hp_mem h !! p = Some x → Q (h_next x) h → wp (next p) Q h.
Proof. intros Hx HQ. rw /next. wp_step. eapply header_wp; [exact Hx|]. by wp_step. Qed.
Lemma size_wp h p x (Q : Z → Heap B → Prop) : hp_mem h !! p = Some x → Q (h_size x) h → wp (size p) Q h.
Proof. intros Hx HQ. rw /size. wp_step. eapply header_wp; [exact Hx|]. by wp_step. Qed.
Lemma set_next_wp h p x n (Q : unit → Heap B → Prop) :
  hp_mem h !! p = Some x → Q tt (with_mem (<[p := {| h_next := n; h_size := h_size x |}]> (hp_mem h)) h) → wp (set_next p n) Q h.
Proof. intros Hx HQ. rw /set_next. wp_step. eapply header_wp; [exact Hx|]. by wp_step. Qed.
Lemma set_size_wp h p x n (Q : unit → Heap B → Prop) :
  hp_mem h !! p = Some x → Q tt (with_mem (<[p := {| h_next := h_next x; h_size := n |}]> (hp_mem h)) h) → wp (set_size p n) Q h.
Proof. intros Hx HQ. rw /set_size. wp_step. eapply header_wp; [exact Hx|]. by wp_step. Qed.

(** The list as the code sees it. *)
Definition ring fl : list Block := (base, 0) :: fl.
Lemma ring_next h fl al i b : heap_ok h fl al → ring fl !! i = Some b →
  ∃ b', ring fl !! next_index (length (ring fl)) i = Some b' ∧ hp_mem h !! b.1 = Some {| h_next := b'.1; h_size := b.2 |}.
Proof.
  intros H Hi. pose proof (chain_lookup _ _ _ _ _ (ok_chain _ _ _ H) Hi) as Hm. rw /next_index. case_decide as Hd.
  - destruct (lookup_lt_is_Some_2 _ _ Hd) as [b' Hb']. exists b'. split; [done|]. by rewrite (hd_addr_drop _ _ _ _ Hb') in Hm.
  - exists (base, 0). split; [done|]. rewrite drop_ge in Hm; [done|]. apply lookup_lt_Some in Hi. rw /ring in Hd. lia.
Qed.
Lemma ring_base h fl al i b : heap_ok h fl al → ring fl !! i = Some b → base ≤ b.1.
Proof.
  intros H Hi. destruct i as [|i]; [injection Hi as <-; simpl; lia|].
  pose proof (sorted_index _ 0 (S i) (base, 0) b (ok_sorted _ _ _ H) eq_refl Hi ltac:(lia)) as Hb. apply before_lt in Hb; [simpl in Hb; lia|done].
Qed.
(** [free] finds the place of the block. *)
Lemma find_place_wp h fl al bp l1 b l2 : heap_ok h fl al → base < bp → ring fl = l1 ++ b :: l2 →
  Forall (λ x, x.1 < bp) (l1 ++ [b]) → Forall (λ x, bp < x.1) l2 →
  wp (while_ IO_FUEL (free_body bp) (hp_free_list h)) (λ p h', p = b.1 ∧ h' = h) h.
Proof.
  intros H Hbase Hring Hlow Hhigh. set (k := length l1). set (n := length (ring fl)).
  assert (k < n)%nat as Hk by (rw /n /k Hring length_app /=; lia).
  assert (∀ j x, ring fl !! j = Some x → (j ≤ k)%nat → x.1 < bp) as Hl.
  { intros j x Hj Hjk. rw Hring cons_middle app_assoc lookup_app_l in Hj; [|rw length_app /=; lia]. exact (Forall_lookup_1 _ _ _ _ Hlow Hj). }
  assert (∀ j x, ring fl !! j = Some x → (k < j)%nat → bp < x.1) as Hh.
  { intros j x Hj Hjk. rw Hring cons_middle app_assoc lookup_app_r in Hj; [|rw length_app /=; lia]. exact (Forall_lookup_1 _ _ _ _ Hhigh Hj). }
  assert (ring fl !! k = Some b) as Hkb by (rw Hring; by apply list_lookup_middle).
  pose proof (ok_free_list _ _ _ H) as (b0 & E0 & (i0 & Hi0)%list_elem_of_lookup)%list_elem_of_fmap. pose proof (ok_length _ _ _ H) as Hlen.
  apply (while_wp_rank _ _ (λ r p h', h' = h ∧ ∃ i x, ring fl !! i = Some x ∧ p = x.1 ∧ r = around n i k) _ (around n i0 k)).
  - intros r p h' (-> & i & x & Hi & -> & ->). pose proof (lookup_lt_Some _ _ _ Hi) as Hin. split; [by apply around_bound|].
    destruct (ring_next _ _ _ _ _ H Hi) as (y & Hy & Hm). rw /free_body. wp_step. eapply header_next_wp; [exact Hm|]. simpl.
    pose proof (sorted_index _ i (S i) x y (ok_sorted _ _ _ H) Hi) as Hxy. pose proof (Forall_lookup_1 _ _ _ _ (ok_nonneg _ _ _ H) Hi) as Hx0.
    pose proof (ring_base _ _ _ _ _ H Hi) as Hbx.
    destruct (decide (i = k)) as [->|Hne].
    + assert (x = b) as -> by congruence. assert ((b.1 <? bp) && (bp <? y.1) || (y.1 <=? b.1) && ((b.1 <? bp) || (bp <? y.1)) = true) as Hc.
      { pose proof (Hl k b Hkb ltac:(lia)). revert Hy. rw /next_index. case_decide as Hd; intros Hy.
        - pose proof (Hh (S k) y Hy ltac:(lia)). lia.
        - injection Hy as <-. simpl. lia. }
      destruct ((b.1 <? bp) && (bp <? y.1)); [by wp_step|]. simpl in Hc. rw Hc. by wp_step.
    + assert ((x.1 <? bp) && (bp <? y.1) = false ∧ (y.1 <=? x.1) && ((x.1 <? bp) || (bp <? y.1)) = false) as [-> ->].
      { revert Hy Hxy. rw /next_index. case_decide as Hd; intros Hy Hxy.
        - specialize (Hxy Hy ltac:(lia)). apply before_lt in Hxy; [|done]. assert (i < k ∨ k < i)%nat as [Hik|Hik] by lia.
          + pose proof (Hl i x Hi ltac:(lia)). pose proof (Hl (S i) y Hy ltac:(lia)). lia.
          + pose proof (Hh i x Hi ltac:(lia)). lia.
        - injection Hy as <-. simpl. pose proof (Hh i x Hi ltac:(lia)). lia. }
      wp_step. exists (around n (next_index n i) k). split; [rw around_next; [lia|done|done|done]|]. split; [done|]. by exists (next_index n i), y.
  - pose proof (around_bound n i0 k (lookup_lt_Some _ _ _ Hi0) Hk). change (Z.pos IO_FUEL) with USIZE_LIMIT.
    assert (Z.of_nat n = Z.of_nat (length fl) + 1) by (rw /n /ring length_cons; lia). lia.
  - split; [done|]. by exists i0, b0.
Qed.

(** *** Joining neighbours

    The block [(bp, sz)] in front of [l2], and behind [b]. *)
Definition join_up (bp sz : Z) l2 : Z * list Block :=
  match l2 with
  | b2 :: l => if add bp sz =? b2.1 then (sz + b2.2, l) else (sz, l2)
  | [] => (sz, [])
  end.
Definition join_down b nb l2 : list Block := if block_end b =? nb.1 then (b.1, b.2 + nb.2) :: l2 else b :: nb :: l2.

Lemma join_upper_wp h bp p sz nbp s l2 : hp_mem h !! bp = Some {| h_next := nbp; h_size := sz |} →
  hp_mem h !! p = Some {| h_next := hd_addr base l2; h_size := s |} → chain (hp_mem h) l2 base →
  p ≠ bp → bp ∉ l2.*1 → add bp sz ≠ base → 0 ≤ (join_up bp sz l2).1 < 2 ^ 64 →
  wp (join_upper bp p) (λ _ h', h' = with_mem (<[bp := {| h_next := hd_addr base (join_up bp sz l2).2; h_size := (join_up bp sz l2).1 |}]> (hp_mem h)) h) h.
Proof.
  intros Hbp Hp Hc Hne Hn Hbase Hw. rw /join_upper. wp_step. eapply size_wp; [exact Hbp|]. wp_step. eapply header_next_wp; [exact Hp|]. simpl.
  destruct l2 as [|b2 l2]; simpl in *.
  - rewrite (proj2 (Z.eqb_neq _ _) Hbase). eapply set_next_wp; [exact Hbp|done].
  - destruct Hc as [H2 Hc]. rewrite not_elem_of_cons in Hn. destruct Hn as [Hn2 Hn]. destruct (add bp sz =? b2.1).
    + wp_step. eapply size_wp; [exact H2|]. wp_step. eapply set_size_wp; [exact Hbp|]. simpl. wp_step.
      eapply header_next_wp; [simpl; rewrite lookup_insert_ne; [eassumption|done]|]. eapply set_next_wp; [simpl; apply lookup_insert_eq|].
      rw /with_mem /= insert_insert_eq wrap_small; [done|exact Hw].
    + eapply set_next_wp; [exact Hbp|done].
Qed.
Lemma join_lower_wp h b nb n1 n2 : hp_mem h !! b.1 = Some {| h_next := n1; h_size := b.2 |} →
  hp_mem h !! nb.1 = Some {| h_next := n2; h_size := nb.2 |} → b.1 ≠ nb.1 → 0 ≤ b.2 + nb.2 < 2 ^ 64 →
  wp (join_lower nb.1 b.1) (λ _ h', h' = with_mem (<[b.1 := if block_end b =? nb.1 then {| h_next := n2; h_size := b.2 + nb.2 |}
    else {| h_next := nb.1; h_size := b.2 |}]> (hp_mem h)) h) h.
Proof.
  intros Hb Hnb Hne Hw. rw /join_lower. wp_step. eapply size_wp; [exact Hb|]. simpl. rw -/(block_end b). destruct (block_end b =? nb.1).
  - wp_step. eapply size_wp; [exact Hnb|]. wp_step. eapply set_size_wp; [exact Hb|]. simpl. wp_step.
    eapply header_next_wp; [simpl; rewrite lookup_insert_ne; [eassumption|done]|]. eapply set_next_wp; [simpl; apply lookup_insert_eq|].
    rw /with_mem /= insert_insert_eq wrap_small; [done|exact Hw].
  - eapply set_next_wp; [exact Hb|done].
Qed.

(** What joining does to the blocks. *)
Lemma join_up_cover u bp sz l2 : 0 ≤ sz → Forall (λ x, 1 ≤ x.2) l2 →
  covers u (bp, (join_up bp sz l2).1) + cover u (join_up bp sz l2).2 = covers u (bp, sz) + cover u l2.
Proof.
  intros Hs Hf. destruct l2 as [|[a2 s2] l2]; simpl; [done|]. destruct (Z.eqb_spec (add bp sz) a2) as [E|]; simpl; [|done].
  apply Forall_cons in Hf as [Hf _]. simpl in Hf. pose proof (covers_join u bp sz s2 Hs ltac:(lia)). rw E in H. lia.
Qed.
Lemma join_down_cover u b nb l2 : 0 ≤ b.2 → 0 ≤ nb.2 → cover u (join_down b nb l2) = covers u b + covers u nb + cover u l2.
Proof.
  intros Hb Hnb. rw /join_down. destruct b as [a s], nb as [bp sz]; simpl in *. destruct (Z.eqb_spec (block_end (a, s)) bp) as [E|]; simpl; [|lia].
  pose proof (covers_join u a s sz Hb Hnb). rw -E /block_end /=. lia.
Qed.
Lemma join_up_sub bp sz l2 x : x ∈ (join_up bp sz l2).2 → x ∈ l2.
Proof. destruct l2 as [|b2 l2]; simpl; [done|]. case_match; simpl; [by right|done]. Qed.
Lemma join_up_size bp sz l2 : Forall (λ x, 1 ≤ x.2) l2 → sz ≤ (join_up bp sz l2).1.
Proof. destruct l2 as [|b2 l2]; simpl; [lia|]. intros [Hf _]%Forall_cons. case_match; simpl; lia. Qed.
Lemma join_up_sorted bp sz l2 : StronglySorted before l2 → Forall (λ x, 1 ≤ x.2) l2 → Forall (λ x, block_end (bp, sz) ≤ x.1) l2 →
  StronglySorted before ((bp, (join_up bp sz l2).1) :: (join_up bp sz l2).2).
Proof.
  intros Hs Hf Hle. destruct l2 as [|b2 l2]; simpl; [by repeat constructor|]. pose proof (StronglySorted_inv Hs) as [Hs2 Hb2].
  apply Forall_cons in Hf as [Hf2 Hf]. apply Forall_cons in Hle as [Hle2 Hle]. destruct (Z.eqb_spec (add bp sz) b2.1) as [E|Hne]; simpl.
  - constructor; [done|]. eapply Forall_impl; [exact Hb2|]. intros x. unfold_blocks. lia.
  - constructor; [done|]. constructor; [unfold_blocks; lia|]. eapply Forall_impl; [exact Hb2|]. intros x. unfold_blocks. lia.
Qed.
Lemma join_up_chain m bp sz l2 z : chain m l2 z → chain m (join_up bp sz l2).2 z.
Proof. destruct l2 as [|b2 l2]; simpl; [done|]. intros [? ?]. by case_match. Qed.
Lemma join_down_sorted b nb l2 : 0 ≤ b.2 → 0 ≤ nb.2 → block_end b ≤ nb.1 → StronglySorted before (nb :: l2) → StronglySorted before (join_down b nb l2).
Proof.
  intros Hb Hnb Hle Hs. pose proof (StronglySorted_inv Hs) as [Hs2 Hb2]. rw /join_down. destruct (Z.eqb_spec (block_end b) nb.1) as [E|Hne].
  - constructor; [done|]. eapply Forall_impl; [exact Hb2|]. intros x. unfold_blocks. lia.
  - constructor; [done|]. constructor; [unfold_blocks; lia|]. eapply Forall_impl; [exact Hb2|]. intros x. unfold_blocks. lia.
Qed.
Lemma join_down_hd z b nb l2 : hd_addr z (join_down b nb l2) = b.1.
Proof. rw /join_down. by case_match. Qed.
Lemma join_down_elem b nb l2 x : x ∈ join_down b nb l2 → x = b ∨ x = (b.1, b.2 + nb.2) ∨ x = nb ∨ x ∈ l2.
Proof. rw /join_down. case_match; rewrite !elem_of_cons; naive_solver. Qed.

Lemma apart_ne b1 b2 : 1 ≤ b1.2 → 1 ≤ b2.2 → apart b1 b2 → b1.1 ≠ b2.1.
Proof. rw /apart. unfold_blocks. lia. Qed.
Lemma ring_cases fl b : b ∈ ring fl → b = (base, 0) ∨ b ∈ fl.
Proof. intros [->|Hx]%elem_of_cons; [by left|by right]. Qed.
(** Headers of free and of allocated blocks are at different addresses. *)
Lemma ring_live_ne h fl al b x : heap_ok h fl al → b ∈ ring fl → x ∈ al → b.1 ≠ x.1.
Proof.
  intros H [->|Hb]%ring_cases Hx.
  - pose proof (ok_bounds _ _ _ x H ltac:(apply elem_of_app; by right)) as (?&_). pose proof (ok_range _ _ _ H) as (?&_). simpl. lia.
  - apply apart_ne; [apply (ok_size _ _ _ _ H); apply elem_of_app; by left|apply (ok_size _ _ _ _ H); apply elem_of_app; by right|].
    exact (ok_free_apart _ _ _ _ _ H Hb Hx).
Qed.

(** *** Freeing *)
Section freed.
Context (h : Heap B) (fl al : list Block) (bp sz : Z) (Hok : heap_ok h fl ((bp, sz) :: al)).
Context (l1 : list Block) (b : Block) (l2 : list Block) (Hring : ring fl = l1 ++ b :: l2).
Context (Hlow : Forall (λ x, x.1 < bp) (l1 ++ [b])) (Hhigh : Forall (λ x, bp < x.1) l2).
Local Notation sz' := (join_up bp sz l2).1.
Local Notation l2e := (join_up bp sz l2).2.

Lemma freed_bounds : start ≤ bp ∧ 1 ≤ sz ∧ block_end (bp, sz) ≤ brk (hp_break h).
Proof. apply (ok_bounds _ _ _ (bp, sz) Hok). apply elem_of_app. right. by left. Qed.
Lemma freed_ring x : x ∈ ring fl → 0 ≤ x.2 ∧ block_end x ≤ brk (hp_break h) ∧ (x.1 < bp → block_end x ≤ bp) ∧ (bp < x.1 → block_end (bp, sz) ≤ x.1 ∧ x ∈ fl).
Proof.
  pose proof (ok_range _ _ _ Hok) as (Hb & Hr & _). pose proof freed_bounds as (H1 & H2 & _). intros [->|Hx]%ring_cases.
  - unfold_blocks. lia.
  - pose proof (ok_free_apart _ _ _ x (bp, sz) Hok Hx ltac:(by left)) as Ha. pose proof (ok_bounds _ _ _ x Hok ltac:(apply elem_of_app; by left)) as (?&?&?).
    rw /apart in Ha. unfold_blocks. split_and!; try lia. intros Hlt. split; [lia|done].
Qed.
Lemma ring_l1 x : x ∈ l1 → x ∈ ring fl ∧ x.1 < bp.
Proof.
  intros Hx. split; [rw Hring; apply elem_of_app; by left|]. apply (proj1 (Forall_forall _ _) Hlow). apply elem_of_app. by left.
Qed.
Lemma ring_b : b ∈ ring fl ∧ b.1 < bp.
Proof. split; [rw Hring; apply elem_of_app; right; by left|]. apply (proj1 (Forall_forall _ _) Hlow). apply elem_of_app. right. by left. Qed.
Lemma ring_l2 x : x ∈ l2 → x ∈ ring fl ∧ bp < x.1 ∧ x ∈ fl.
Proof.
  intros Hx. assert (x ∈ ring fl) as Hr by (rw Hring; apply elem_of_app; right; by right).
  assert (bp < x.1) as Hlt by exact (proj1 (Forall_forall _ _) Hhigh x Hx). split_and!; [done..|]. by apply freed_ring.
Qed.
Lemma l2_sizes : Forall (λ x, 1 ≤ x.2) l2.
Proof. apply Forall_forall. intros x (_ & _ & Hx)%ring_l2. exact (proj1 (Forall_forall _ _) (ok_sizes _ _ _ Hok) x Hx). Qed.
Lemma ring_sorted : StronglySorted before (l1 ++ b :: l2).
Proof. rw -Hring. exact (ok_sorted _ _ _ Hok). Qed.
Lemma b_notin : b.1 ∉ l1.*1 ∧ b.1 ∉ l2.*1.
Proof.
  pose proof ring_sorted as (Hl & _ & [_ Hb]%StronglySorted_inv)%StronglySorted_app. split.
  - intros (x & E & Hx)%list_elem_of_fmap. pose proof (Hl x b Hx ltac:(by left)) as Hlt. apply before_lt in Hlt; [lia|]. by apply freed_ring, ring_l1.
  - intros (x & E & Hx)%list_elem_of_fmap. pose proof (proj1 (Forall_forall _ _) Hb x Hx) as Hlt. apply before_lt in Hlt; [lia|]. apply freed_ring, ring_b.
Qed.
Lemma bp_notin : bp ∉ l1.*1 ∧ bp ∉ l2.*1 ∧ b.1 ≠ bp.
Proof.
  split_and!; [intros (x & E & [_ Hx]%ring_l1)%list_elem_of_fmap; lia|intros (x & E & (_ & Hx & _)%ring_l2)%list_elem_of_fmap; lia|].
  pose proof ring_b as [_ ?]. lia.
Qed.
Lemma freed_end : block_end (bp, sz') ≤ brk (hp_break h).
Proof.
  pose proof freed_bounds as (_ & _ & Hb). pose proof (λ x Hx, freed_ring x (proj1 (ring_l2 x Hx))) as Hl2. destruct l2 as [|b2 l]; simpl; [done|].
  destruct (Z.eqb_spec (add bp sz) b2.1) as [E2|]; simpl; [|done]. destruct (Hl2 b2 ltac:(by left)) as (_ & Hf & _). unfold_blocks. lia.
Qed.
Definition freed_heap : Heap B :=
  {| hp_mem := <[b.1 := if block_end b =? bp then {| h_next := hd_addr base l2e; h_size := b.2 + sz' |} else {| h_next := bp; h_size := b.2 |}]>
       (<[bp := {| h_next := hd_addr base l2e; h_size := sz' |}]> (hp_mem h));
     hp_free_list := b.1; hp_break := hp_break h |}.
Lemma freed_chain : chain (hp_mem freed_heap) (l1 ++ join_down b (bp, sz') l2e) base.
Proof.
  pose proof (ok_chain _ _ _ Hok) as Hc. change ((base, 0) :: fl) with (ring fl) in Hc. rw Hring in Hc. apply chain_app in Hc as [Hc1 [Hcb Hc2]].
  pose proof b_notin as [Hb1 Hb2]. pose proof bp_notin as (Hp1 & Hp2 & Hne).
  assert (∀ x, x ∈ l2e.*1 → x ∈ l2.*1) as Hsub by (intros x (y & -> & Hy%join_up_sub)%list_elem_of_fmap; by apply list_elem_of_fmap_2).
  apply chain_app. rw join_down_hd. split; [by do 2 (apply chain_insert_ne; [done|])|].
  assert (chain (hp_mem freed_heap) l2e base) as Hce.
  { apply chain_insert_ne; [by intros ?%Hsub|]. apply chain_insert_ne; [by intros ?%Hsub|]. by apply join_up_chain. }
  rw /join_down. change (bp, sz').1 with bp. destruct (block_end b =? bp) eqn:E.
  - split; [|exact Hce]. by rw /freed_heap /= lookup_insert_eq E.
  - split; [by rw /freed_heap /= lookup_insert_eq E|]. split; [|exact Hce]. rw /freed_heap /=. rewrite lookup_insert_ne; [|done]. by rw lookup_insert_eq.
Qed.
Lemma freed_sorted : StronglySorted before (l1 ++ join_down b (bp, sz') l2e).
Proof.
  pose proof ring_sorted as (Hl & Hs1 & [Hs2 Hb]%StronglySorted_inv)%StronglySorted_app. pose proof ring_b as [Hbr Hblt].
  pose proof (freed_ring b Hbr) as (Hb0 & _ & Hend & _). pose proof freed_bounds as (_ & Hsz & _). pose proof (join_up_size bp sz l2 l2_sizes) as Hsz'.
  apply StronglySorted_app. split_and!; [|done|].
  - intros x y Hx [->|[->|[->|Hy%join_up_sub]]]%join_down_elem.
    + by apply Hl; [|left].
    + pose proof (Hl x b Hx ltac:(by left)). unfold_blocks. lia.
    + pose proof (Hl x b Hx ltac:(by left)). unfold_blocks. lia.
    + apply Hl; [done|by right].
  - apply join_down_sorted; [done|simpl; lia|by apply Hend|]. apply join_up_sorted; [done|exact l2_sizes|].
    apply Forall_forall. intros x (Hx & Hlt & _)%ring_l2. by apply freed_ring.
Qed.
(** The blocks of the list afterwards. *)
Lemma freed_elem x : x ∈ l1 ++ join_down b (bp, sz') l2e → base < x.1 → 1 ≤ x.2 ∧ x.1 mod HEADER_SIZE = 0.
Proof.
  pose proof (ok_aligned _ _ _ Hok) as Hal. rewrite Forall_forall in Hal.
  assert (∀ y, y ∈ ring fl → base < y.1 → 1 ≤ y.2 ∧ y.1 mod HEADER_SIZE = 0) as Hy.
  { intros y [->|Hy]%ring_cases Hlt; [simpl in Hlt; lia|]. split; [apply (ok_size _ _ _ _ Hok)|apply Hal]; apply elem_of_app; by left. }
  pose proof freed_bounds as (_ & Hsz & _). pose proof (join_up_size bp sz l2 l2_sizes) as Hsz'.
  intros [Hx|[->|[->|[->|Hx%join_up_sub]]]%join_down_elem]%elem_of_app Hlt; simpl in *.
  - apply Hy; [|done]. by apply ring_l1.
  - apply Hy; [|done]. apply ring_b.
  - destruct (Hy b (proj1 ring_b) Hlt). split; [lia|done].
  - split; [lia|]. apply (Hal (bp, sz)). apply elem_of_app. right. by left.
  - apply Hy; [|done]. by apply ring_l2.
Qed.
Lemma freed_cover u : cover u (l1 ++ join_down b (bp, sz') l2e) = cover u fl + covers u (bp, sz).
Proof.
  pose proof freed_bounds as (_ & Hsz & _). pose proof (join_up_size bp sz l2 l2_sizes) as Hsz'.
  assert (cover u (ring fl) = cover u fl) as <- by (simpl; rw covers_empty; lia). rw Hring !cover_app /= join_down_cover /=; [|apply freed_ring, ring_b|lia].
  pose proof (join_up_cover u bp sz l2 ltac:(lia) l2_sizes). lia.
Qed.
Lemma freed_live : Forall (live freed_heap) al.
Proof.
  pose proof (ok_live _ _ _ Hok) as [_ Hl]%Forall_cons. pose proof freed_bounds as (_ & Hsz & _). pose proof (ok_range _ _ _ Hok) as (Hb & _).
  apply Forall_forall. intros x Hx. pose proof (proj1 (Forall_forall _ _) Hl x Hx) as [Hx1 [n Hn]]. split; [done|]. exists n. simpl.
  assert (bp ≠ x.1) as Hne.
  { apply (apart_ne (bp, sz) x); [done..|]. apply list_elem_of_split in Hx as (l3 & l4 & ->). apply (ok_apart _ _ _ _ _ (fl ++ l3 ++ l4) Hok). by solve_Permutation. }
  pose proof (ring_live_ne _ _ _ b x Hok (proj1 ring_b) ltac:(by right)) as Hnb.
  by rewrite !lookup_insert_ne.
Qed.
Lemma freed_ok : ∃ fl', ring fl' = l1 ++ join_down b (bp, sz') l2e ∧ heap_ok freed_heap fl' al.
Proof.
  pose proof (ok_range _ _ _ Hok) as (Hb & Hr). pose proof freed_bounds as (Hst & _).
  assert (∃ fl', ring fl' = l1 ++ join_down b (bp, sz') l2e) as [fl' Hring'].
  { destruct l1 as [|b0 l1']; injection Hring as <- _; [|by eexists]. exists ((bp, sz') :: l2e). rw /ring /= /join_down /=.
    rewrite (proj2 (Z.eqb_neq _ _)); [done|]. unfold_blocks. lia. }
  exists fl'. split; [done|]. pose proof freed_sorted as Hs. rw -Hring' in Hs. pose proof (StronglySorted_inv Hs) as [_ Hgt].
  assert (∀ x, x ∈ fl' → 1 ≤ x.2 ∧ x.1 mod HEADER_SIZE = 0) as Hel.
  { intros x Hx. apply freed_elem; [rw -Hring'; by right|]. pose proof (proj1 (Forall_forall _ _) Hgt x Hx) as Hlt. by apply before_lt in Hlt. }
  pose proof (ok_aligned _ _ _ Hok) as [_ [_ Hal]%Forall_cons]%Forall_app.
  split; [rw -/(ring fl') Hring'; exact freed_chain|exact Hs|apply Forall_forall; intros x Hx; by apply Hel| |exact freed_live| | |done].
  - intros u. assert (cover u fl' = cover u (ring fl')) as E by (simpl; rw covers_empty; lia). rw cover_app E Hring' freed_cover.
    change (in_heap freed_heap u) with (in_heap h u). rw -(ok_cover _ _ _ Hok) cover_app /=. lia.
  - apply Forall_app. split; [|done]. apply Forall_forall. intros x Hx. by apply Hel.
  - rw -/(ring fl') Hring' /= fmap_app. apply elem_of_app. right. rw /join_down. case_match; by left.
Qed.
Lemma freed_length fl' : ring fl' = l1 ++ join_down b (bp, sz') l2e → (length fl' ≤ S (length fl))%nat.
Proof.
  intros E%(f_equal length). pose proof (f_equal length Hring) as E2. rw !length_app /= in E, E2. revert E. rw /join_down.
  assert (length l2e ≤ length l2)%nat by (destruct l2; simpl; [done|]; case_match; simpl; lia). case_match; simpl; lia.
Qed.
Lemma freed_big fl' : ring fl' = l1 ++ join_down b (bp, sz') l2e → ∃ x, x ∈ ring fl' ∧ sz ≤ x.2.
Proof.
  intros ->. pose proof (join_up_size bp sz l2 l2_sizes) as Hsz'. pose proof (freed_ring b (proj1 ring_b)) as (Hb0 & _).
  rw /join_down. case_match; [exists (b.1, b.2 + sz')|exists (bp, sz')]; (split; [apply elem_of_app; right; set_solver|simpl; lia]).
Qed.
End freed.

Lemma heap_free_wp h fl al bp sz : heap_ok h fl ((bp, sz) :: al) →
  wp (free (add bp 1)) (λ _ h', ∃ fl', heap_ok h' fl' al ∧ hp_break h' = hp_break h ∧ (length fl' ≤ S (length fl))%nat ∧ ∃ x, x ∈ ring fl' ∧ sz ≤ x.2) h.
Proof.
  intros H. pose proof (freed_bounds _ _ _ _ _ H) as (Hst & Hsz & Hend). pose proof (ok_range _ _ _ H) as (Hb & Hr & _).
  pose proof (ok_live _ _ _ H) as [[_ [nbp Hbp]] _]%Forall_cons. simpl in Hbp.
  pose proof (ok_aligned _ _ _ H) as [_ [Hal _]%Forall_cons]%Forall_app. simpl in Hal.
  assert (bp ∉ fl.*1) as Hnin.
  { intros (x & -> & Hx)%list_elem_of_fmap. pose proof (ok_free_apart _ _ _ x (x.1, sz) H Hx ltac:(by left)) as Ha.
    pose proof (ok_size _ _ _ x H ltac:(apply elem_of_app; by left)). rw /apart in Ha. unfold_blocks. lia. }
  destruct (place bp (base, 0) fl (ok_sorted _ _ _ H) (ok_nonneg _ _ _ H) ltac:(simpl; lia) Hnin) as (l1 & b & l2 & Hring & Hlow & Hhigh). change (ring fl = l1 ++ b :: l2) in Hring.
  pose proof (ring_b _ _ _ _ _ Hring Hlow) as [Hbr Hblt]. pose proof (bp_notin _ _ _ _ _ H _ _ _ Hring Hlow Hhigh) as (_ & Hn2 & Hnb).
  pose proof (freed_end _ _ _ _ _ H _ _ _ Hring Hhigh) as He. pose proof (join_up_size bp sz l2 (l2_sizes _ _ _ _ _ H _ _ _ Hring Hhigh)) as Hsz'.
  pose proof (freed_ring _ _ _ _ _ H b Hbr) as (Hb0 & Hbe & Hble & _). specialize (Hble Hblt).
  assert (base ≤ b.1) as Hbb by (apply list_elem_of_lookup in Hbr as [i Hi]; exact (ring_base _ _ _ _ _ H Hi)).
  pose proof (ok_chain _ _ _ H) as Hc. change ((base, 0) :: fl) with (ring fl) in Hc. rw Hring in Hc. apply chain_app in Hc as [_ [Hcb Hc2]].
  rw /free. wp_step. apply wp_assert; [rw /add /HEADER_SIZE in Hal |- *; apply Z.eqb_eq; rewrite Zplus_mod Hal; reflexivity|].
  replace (add (add bp 1) (-1)) with bp by (rw /add; lia). do 3 wp_step.
  eapply wp_mono; [exact (find_place_wp _ _ _ _ _ _ _ H (Z.lt_le_trans _ _ _ (proj2 Hb) Hst) Hring Hlow Hhigh)|]. intros p h' [-> ->].
  assert (start + HEADER_SIZE ≤ ADDR_LIMIT ∧ 0 ≤ start) as Hlim by (unfold_blocks; lia).
  wp_step. eapply wp_mono; [apply (join_upper_wp _ _ _ _ _ _ l2 Hbp Hcb Hc2); [done|done|unfold_blocks; lia|unfold_blocks; rw /ADDR_LIMIT in Hr; lia]|].
  intros _ h' ->. wp_step.
  eapply wp_mono; [apply (join_lower_wp _ b (bp, (join_up bp sz l2).1) (hd_addr base l2) (hd_addr base (join_up bp sz l2).2));
    [simpl; rewrite lookup_insert_ne; [exact Hcb|by apply not_eq_sym]|by rewrite /= lookup_insert_eq|done|unfold_blocks; rw /ADDR_LIMIT in Hr; lia]|].
  intros _ h' ->. rw /set_free_list. wp_step.
  destruct (freed_ok _ _ _ _ _ H _ _ _ Hring Hlow Hhigh) as (fl' & Hring' & Hok'). exists fl'. split; [exact Hok'|].
  split_and!; [done|exact (freed_length _ _ _ _ _ _ Hring Hhigh _ Hring')|exact (freed_big _ _ _ _ _ H _ _ _ Hring Hlow Hhigh _ Hring')].
Qed.

(** *** Growing the heap *)
Lemma heap_ok_break h (b : B) fl al : heap_ok h fl al → brk b = brk (hp_break h) →
  heap_ok {| hp_mem := hp_mem h; hp_free_list := hp_free_list h; hp_break := b |} fl al.
Proof.
  intros H Hb. destruct H. split; simpl; try done; [|by rw Hb]. intros u. rw /in_heap /= Hb. apply ok_cover0.
Qed.
Lemma heap_grown h (b : B) fl al n x : heap_ok h fl al → 1 ≤ n → brk b = brk (hp_break h) + n * HEADER_SIZE → brk b < ADDR_LIMIT →
  heap_ok {| hp_mem := <[brk (hp_break h) := {| h_next := x; h_size := n |}]> (hp_mem h); hp_free_list := hp_free_list h; hp_break := b |}
    fl ((brk (hp_break h), n) :: al).
Proof.
  intros H Hn Hb Hlim. pose proof (ok_range _ _ _ H) as (Hbase & Hr & Ha).
  assert (∀ y, y ∈ fl ++ al → brk (hp_break h) ≠ y.1) as Hne.
  { intros y Hy. pose proof (ok_bounds _ _ _ y H Hy) as (?&?&?). unfold_blocks. lia. }
  split; cbn [hp_mem hp_free_list hp_break].
  - apply chain_insert_ne; [|apply (ok_chain _ _ _ H)]. intros [E|(y & E & Hy)%list_elem_of_fmap]%elem_of_cons; [simpl in E; lia|].
    apply (Hne y); [apply elem_of_app; by left|done].
  - apply (ok_sorted _ _ _ H).
  - apply (ok_sizes _ _ _ H).
  - intros u. pose proof (ok_cover _ _ _ H u) as Hc. rw cover_app in Hc. rw cover_app /=. revert Hc. rw /in_heap /covers. unfold_blocks.
    repeat case_decide; lia.
  - constructor; [split; [done|]; exists x; by rw /= lookup_insert_eq|]. apply Forall_forall. intros y Hy.
    pose proof (proj1 (Forall_forall _ _) (ok_live _ _ _ H) y Hy) as [Hy1 [z Hz]]. split; [done|]. exists z. simpl.
    rewrite lookup_insert_ne; [done|]. apply Hne. apply elem_of_app. by right.
  - pose proof (ok_aligned _ _ _ H) as [H1 H2]%Forall_app. apply Forall_app. split; [done|]. by constructor.
  - apply (ok_free_list _ _ _ H).
  - split_and!; try lia; [unfold_blocks; lia|]. rw Hb Z_mod_plus_full. done.
Qed.
Lemma expand_heap_wp h fl al nunits : heap_ok h fl al → 1 ≤ nunits → nunits * HEADER_SIZE < 2 ^ 63 →
  wp (expand_heap nunits) (λ r h', match r with
    | Ok p => ∃ fl', heap_ok h' fl' al ∧ p = hp_free_list h' ∧ (length fl' ≤ S (length fl))%nat ∧ ∃ x, x ∈ ring fl' ∧ nunits ≤ x.2
    | Err _ => heap_ok h' fl al
    end) h.
Proof.
  intros H Hn Hlim. rw /expand_heap. set (n := if nunits <? 4096 then 4096 else nunits).
  assert (1 ≤ n ∧ nunits ≤ n ∧ n * HEADER_SIZE < 2 ^ 63) as (Hn1 & Hnn & Hnl) by (rw /n; case_match; rw /HEADER_SIZE in Hlim |- *; lia).
  rw wrap_small; [|rw /HEADER_SIZE in Hnl |- *; lia]. wp_step.
  assert (wp (grow_break (n * HEADER_SIZE)) (λ r (b' : B), match r with
    | Ok p => p = brk (hp_break h) ∧ brk b' = brk (hp_break h) + n * HEADER_SIZE ∧ brk b' < ADDR_LIMIT
    | Err _ => brk b' = brk (hp_break h)
    end) (hp_break h)) as Hg.
  { rw /grow_break. wp_step. eapply wp_of_run; [by apply try_from_run|]. apply sys_sbrk_wp. rw /HEADER_SIZE. lia. }
  destruct (wp_run _ _ _ Hg) as (r & b' & Hrun & Hr). eapply wp_of_run; [by rw /zoom Hrun|].
  destruct r as [p|e]; [|by apply heap_ok_break]. destruct Hr as (-> & Hb & Hbl).
  pose proof (ok_range _ _ _ H) as (_ & _ & Hal). wp_step. apply wp_assert; [by apply Z.eqb_eq|]. wp_step. rw /init_size. wp_step. simpl. wp_step.
  eapply wp_mono; [apply heap_free_wp, (heap_grown h b' fl al n _ H Hn1 Hb Hbl)|].
  intros _ h' (fl' & Hok & _ & Hl & x & Hx & Hxs). do 3 wp_step. exists fl'. split_and!; [done..|]. exists x. split; [done|lia].
Qed.

(** *** Taking a block *)
Lemma sorted_NoDup l : StronglySorted before l → Forall (λ b, 0 ≤ b.2) l → NoDup l.*1.
Proof.
  intros Hs Hf. apply NoDup_alt. intros i j a (x & -> & Hx)%list_lookup_fmap_Some_1 (y & E & Hy)%list_lookup_fmap_Some_1.
  exact (sorted_addr_inj _ _ _ _ _ Hs Hf Hx Hy E).
Qed.
Section taken.
Context (h : Heap B) (fl al : list Block) (Hok : heap_ok h fl al).
Context (l1 : list Block) (pb b : Block) (l2 : list Block) (Hring : ring fl = l1 ++ pb :: b :: l2).

Lemma taken_facts : b ∈ fl ∧ b.1 ∉ l1.*1 ∧ b.1 ∉ l2.*1 ∧ pb.1 ≠ b.1 ∧ pb.1 ∉ l1.*1 ∧ pb.1 ∉ l2.*1.
Proof.
  pose proof (sorted_NoDup _ (ok_sorted _ _ _ Hok) (ok_nonneg _ _ _ Hok)) as Hn. change ((base, 0) :: fl) with (ring fl) in Hn.
  rewrite Hring fmap_app !fmap_cons in Hn. apply NoDup_app in Hn as (_ & H12 & Hn). apply NoDup_cons in Hn as [Hp [Hb _]%NoDup_cons].
  assert (b ∈ fl) by (destruct l1; injection Hring as _ ->; [by left|]; apply elem_of_app; right; right; by left).
  split_and!; [done|..]; set_solver.
Qed.
Lemma taken_chain : chain (hp_mem h) l1 pb.1 ∧ hp_mem h !! b.1 = Some {| h_next := hd_addr base l2; h_size := b.2 |} ∧ chain (hp_mem h) l2 base.
Proof.
  pose proof (ok_chain _ _ _ Hok) as Hc. change ((base, 0) :: fl) with (ring fl) in Hc. rw Hring in Hc. by apply chain_app in Hc as (Hc1 & _ & Hb & Hc2).
Qed.
Lemma taken_list l' : ∃ fl', ring fl' = l1 ++ pb :: l' ∧ (∀ x, x ∈ fl' → x ∈ fl ∨ x ∈ l').
Proof.
  pose proof Hring as Hr. destruct l1 as [|b0 l]; injection Hr as <- ->.
  - exists l'. split; [done|]. by right.
  - exists (l ++ pb :: l'). split; [done|]. intros x [Hx|[->|Hx]%elem_of_cons]%elem_of_app; [left; set_solver..|by right].
Qed.
Lemma taken_sorted l' : StronglySorted before l' → (∀ x, x ∈ l' → x ∈ l2 ∨ x.1 = b.1) → StronglySorted before (l1 ++ pb :: l').
Proof.
  intros Hs' Hl'. pose proof (ok_sorted _ _ _ Hok) as Hs. change ((base, 0) :: fl) with (ring fl) in Hs. rw Hring in Hs.
  apply StronglySorted_app in Hs as (Hx & Hs1 & [Hs2 Hp]%StronglySorted_inv). apply Forall_cons in Hp as [Hpb Hp].
  assert (∀ x y, before x b → (∀ z, z ∈ l2 → before x z) → y ∈ l' → before x y) as Hbe.
  { intros x y Hxb Hz [Hy|Hy]%Hl'; [by apply Hz|]. rw /before Hy. exact Hxb. }
  apply StronglySorted_app. split_and!; [|done|].
  - intros x y Hx1 [->|Hy]%elem_of_cons; [by apply Hx; [|left]|]. apply Hbe; [apply Hx; [done|right; by left]|intros z Hz; apply Hx; [done|right; by right]|done].
  - constructor; [done|]. apply Forall_forall. intros y Hy. apply Hbe; [done|by apply Forall_forall|done].
Qed.
Lemma taken_ok m' l' nb x : StronglySorted before l' → (∀ y, y ∈ l' → (y ∈ l2 ∨ y.1 = b.1) ∧ 1 ≤ y.2) → chain m' (l1 ++ pb :: l') base →
  (∀ u, cover u l' + covers u nb = covers u b + cover u l2) → 1 ≤ nb.2 → nb.1 mod HEADER_SIZE = 0 → m' !! nb.1 = Some {| h_next := x; h_size := nb.2 |} →
  (∀ y, y ∈ al → m' !! y.1 = hp_mem h !! y.1) →
  ∃ fl', heap_ok {| hp_mem := m'; hp_free_list := pb.1; hp_break := hp_break h |} fl' (nb :: al).
Proof.
  intros Hs' Hl' Hc Hcov Hn Ha Hm Hsame. destruct (taken_list l') as (fl' & Hring' & Hel). exists fl'. pose proof taken_facts as [Hbf _].
  pose proof (ok_aligned _ _ _ Hok) as [Hal1 Hal2]%Forall_app. rewrite Forall_forall in Hal1. pose proof (ok_sizes _ _ _ Hok) as Hsz. rewrite Forall_forall in Hsz.
  assert (∀ y, y ∈ l2 → y ∈ fl) as Hl2 by (destruct l1; injection Hring as _ ->; set_solver).
  split; cbn [hp_mem hp_free_list hp_break].
  - rw -/(ring fl') Hring'. exact Hc.
  - rw -/(ring fl') Hring'. apply taken_sorted; [done|]. intros y Hy. by apply Hl'.
  - apply Forall_forall. intros y [Hy|Hy]%Hel; [by apply Hsz|by apply Hl'].
  - intros u. change (in_heap _ u) with (in_heap h u). rw -(ok_cover _ _ _ Hok u) !cover_app /=.
    assert (cover u fl = cover u (ring fl)) as -> by (simpl; rw covers_empty; lia).
    assert (cover u fl' = cover u (ring fl')) as -> by (simpl; rw covers_empty; lia). rw Hring Hring' !cover_app /=. specialize (Hcov u). lia.
  - constructor; [split; [done|]; by exists x|]. apply Forall_forall. intros y Hy.
    pose proof (proj1 (Forall_forall _ _) (ok_live _ _ _ Hok) y Hy) as [Hy1 [z Hz]]. split; [done|]. exists z. by rw /= Hsame.
  - apply Forall_app. split; [|by constructor]. apply Forall_forall. intros y [Hy|Hy]%Hel; [by apply Hal1|].
    destruct (Hl' y Hy) as [[Hy2| ->] _]; apply Hal1; [by apply Hl2|done].
  - rw -/(ring fl') Hring' fmap_app. apply elem_of_app. right. by left.
  - apply (ok_range _ _ _ Hok).
Qed.
Lemma taken_exact : ∃ fl', heap_ok {| hp_mem := <[pb.1 := {| h_next := hd_addr base l2; h_size := pb.2 |}]> (hp_mem h);
  hp_free_list := pb.1; hp_break := hp_break h |} fl' (b :: al).
Proof.
  pose proof taken_facts as (Hbf & Hb1 & Hb2 & Hne & Hp1 & Hp2). pose proof taken_chain as (Hc1 & Hcb & Hc2).
  pose proof (ok_sizes _ _ _ Hok) as Hsz. rewrite Forall_forall in Hsz. pose proof (ok_aligned _ _ _ Hok) as Hal. rewrite Forall_forall in Hal.
  assert (∀ y, y ∈ l2 → y ∈ fl) as Hl2 by (destruct l1; injection Hring as _ ->; set_solver).
  apply (taken_ok _ l2 b (hd_addr base l2)).
  - pose proof (ok_sorted _ _ _ Hok) as Hs. change ((base, 0) :: fl) with (ring fl) in Hs. rw Hring in Hs.
    by apply StronglySorted_app in Hs as (_ & _ & [[Hs _]%StronglySorted_inv _]%StronglySorted_inv).
  - intros y Hy. split; [by left|]. by apply Hsz, Hl2.
  - apply chain_app. split; [by apply chain_insert_ne|]. split; [by rw lookup_insert_eq|by apply chain_insert_ne].
  - intros u. lia.
  - by apply Hsz.
  - apply Hal, elem_of_app. by left.
  - by rewrite lookup_insert_ne.
  - intros y Hy. rewrite lookup_insert_ne; [done|]. apply (ring_live_ne _ _ _ _ _ Hok); [|done]. rw Hring. set_solver.
Qed.
Lemma taken_split n x : 1 ≤ n < b.2 → ∃ fl', heap_ok {| hp_mem := <[add b.1 (b.2 - n) := {| h_next := x; h_size := n |}]>
    (<[b.1 := {| h_next := hd_addr base l2; h_size := b.2 - n |}]> (hp_mem h));
  hp_free_list := pb.1; hp_break := hp_break h |} fl' ((add b.1 (b.2 - n), n) :: al).
Proof.
  intros Hn. pose proof taken_facts as (Hbf & Hb1 & Hb2 & Hne & Hp1 & Hp2). pose proof (ok_chain _ _ _ Hok) as Hc.
  pose proof (ok_sizes _ _ _ Hok) as Hsz. rewrite Forall_forall in Hsz. pose proof (ok_aligned _ _ _ Hok) as Hal. rewrite Forall_forall in Hal.
  assert (∀ y, y ∈ l2 → y ∈ fl) as Hl2 by (destruct l1; injection Hring as _ ->; set_solver).
  pose proof (ok_sorted _ _ _ Hok) as Hs. change ((base, 0) :: fl) with (ring fl) in Hs, Hc. rw Hring in Hs, Hc.
  apply StronglySorted_app in Hs as (Hlow & _ & [[Hs2 Hb]%StronglySorted_inv [Hpb _]%Forall_cons]%StronglySorted_inv).
  apply chain_app in Hc as (Hc1 & Hcp & Hcb & Hc2). rewrite Forall_forall in Hb.
  assert (∀ y, y ∈ ring fl → 0 ≤ y.2) as Hnn by (apply Forall_forall; exact (ok_nonneg _ _ _ Hok)).
  set (q := add b.1 (b.2 - n)). assert (b.1 < q < block_end b) as Hq by (rw /q; unfold_blocks; lia).
  assert (q ∉ l1.*1) as Hq1.
  { intros (y & E & Hy)%list_elem_of_fmap. pose proof (Hlow y b Hy ltac:(right; by left)) as Hlt. apply before_lt in Hlt; [lia|]. apply Hnn. rw Hring. set_solver. }
  assert (q ∉ l2.*1) as Hq2 by (intros (y & E & Hy)%list_elem_of_fmap; specialize (Hb y Hy); unfold_blocks; lia).
  assert (pb.1 < b.1) as Hpq by (apply before_lt in Hpb; [done|]; apply Hnn; rw Hring; set_solver).
  apply (taken_ok _ ((b.1, b.2 - n) :: l2) (q, n) x).
  - constructor; [done|]. apply Forall_forall. intros y Hy. specialize (Hb y Hy). unfold_blocks. lia.
  - intros y [->|Hy]%elem_of_cons; [split; [by right|simpl; lia]|]. split; [by left|]. by apply Hsz, Hl2.
  - apply chain_app. split; [by do 2 (apply chain_insert_ne; [done|])|]. split; [|split].
    + rewrite !lookup_insert_ne; [exact Hcp|lia|lia].
    + simpl. rewrite lookup_insert_ne; [|lia]. by rw lookup_insert_eq.
    + by do 2 (apply chain_insert_ne; [done|]).
  - intros u. pose proof (covers_join u b.1 (b.2 - n) n ltac:(lia) ltac:(lia)) as E. rw -/q in E. replace (b.2 - n + n) with b.2 in E by lia.
    rewrite -surjective_pairing in E. simpl. lia.
  - simpl. lia.
  - simpl. rw /q /add Z.mul_comm Z_mod_plus_full. apply Hal, elem_of_app. by left.
  - by rw /= lookup_insert_eq.
  - intros y Hy. pose proof (ok_free_apart _ _ _ _ _ Hok Hbf Hy) as Ha. pose proof (ok_size _ _ _ y Hok ltac:(apply elem_of_app; by right)).
    rewrite !lookup_insert_ne; [done| |]; rw /apart in Ha; unfold_blocks; lia.
Qed.
End taken.

(** *** The search

    [prevp] and [p] are neighbours in the list. Until the heap has grown the search goes around to the start of the list; afterwards
    there is a block that fits, at index [t], and the search meets it before it is back at the start. *)
Definition fits_at fl (nunits : Z) (t : nat) : Prop := ∃ x, ring fl !! t = Some x ∧ nunits ≤ x.2.
Definition searching (nunits : Z) al (rank : Z) (st : Z * Z) h : Prop :=
  ∃ fl i j pb b, heap_ok h fl al ∧ ring fl !! i = Some pb ∧ ring fl !! next_index (length (ring fl)) i = Some b ∧ st = (pb.1, b.1) ∧
    (ring fl).*1 !! j = Some (hp_free_list h) ∧
    let n := length (ring fl) in let i' := next_index n i in
    (rank = around n i' j + Z.of_nat n + 2 ∨
     ∃ t, fits_at fl nunits t ∧ around n i' t ≤ around n i' j ∧ rank = around n i' t).
Definition allocated (nunits : Z) al (r : IoResult Z) h : Prop :=
  match r with
  | Ok p => ∃ fl, heap_ok h fl ((add p (-1), nunits) :: al)
  | Err _ => ∃ fl, heap_ok h fl al
  end.
Lemma around_before n j : (j < n)%nat → around n (next_index n j) j = Z.of_nat n - 1.
Proof. rw /around /next_index. intros. repeat case_decide; lia. Qed.
Lemma around_zero n i k : (i < n)%nat → (k < n)%nat → around n i k = 0 → i = k.
Proof. rw /around. intros. case_decide; lia. Qed.
Lemma ring_index h fl al i j b : heap_ok h fl al → ring fl !! i = Some b → (ring fl).*1 !! j = Some b.1 → i = j.
Proof.
  intros H Hi (x & E & Hj)%list_lookup_fmap_Some_1. exact (sorted_addr_inj _ _ _ _ _ (ok_sorted _ _ _ H) (ok_nonneg _ _ _ H) Hi Hj E).
Qed.
(** Taking the block that fits. *)
Lemma take_wp h fl al i pb b nunits : heap_ok h fl al → ring fl !! i = Some pb → ring fl !! next_index (length (ring fl)) i = Some b → 1 ≤ nunits ≤ b.2 →
  wp (malloc_body nunits (pb.1, b.1)) (λ r h', match r with inl _ => False | inr r => allocated nunits al r h' end) h.
Proof.
  intros H Hi Hb Hn. pose proof (ring_next _ _ _ _ _ H Hi) as (b' & Hb' & Hm). assert (b' = b) as -> by congruence.
  rw /next_index in Hb. case_decide as Hd; [|injection Hb as <-; simpl in Hn; lia].
  assert (ring fl = take i (ring fl) ++ pb :: b :: drop (S (S i)) (ring fl)) as Hring by (rewrite -(drop_S _ _ _ Hb); by rewrite take_drop_middle).
  pose proof (taken_facts _ _ _ H _ _ _ _ Hring) as (_ & _ & _ & Hne & _). pose proof (taken_chain _ _ _ H _ _ _ _ Hring) as (_ & Hbm & _).
  rw /malloc_body. wp_step. eapply size_wp; [exact Hbm|]. simpl. rewrite (proj2 (Z.leb_le _ _)); [|lia]. wp_step.
  destruct (Z.eqb_spec b.2 nunits) as [E|Hlt].
  - wp_step. eapply header_next_wp; [exact Hbm|]. wp_step. eapply set_next_wp; [exact Hm|]. rw /set_free_list. wp_steps.
    replace (add (add b.1 1) (-1)) with b.1 by (rw /add /HEADER_SIZE; lia). rw -E -surjective_pairing. exact (taken_exact _ _ _ H _ _ _ _ Hring).
  - wp_step. eapply set_size_wp; [exact Hbm|]. rw /init_size /set_free_list. wp_steps.
    replace (add (add (add b.1 (b.2 - nunits)) 1) (-1)) with (add b.1 (b.2 - nunits)) by (rw /add /HEADER_SIZE; lia).
    apply (taken_split _ _ _ H _ _ _ _ Hring). lia.
Qed.
Lemma search_wp nunits al rank st h : 1 ≤ nunits → nunits * HEADER_SIZE < 2 ^ 63 → searching nunits al rank st h →
  0 ≤ rank ∧ wp (malloc_body nunits st) (λ r h', match r with
    | inl st' => ∃ rank', rank' < rank ∧ searching nunits al rank' st' h'
    | inr r => allocated nunits al r h'
    end) h.
Proof.
  intros Hn Hlim (fl & i & j & pb & b & H & Hi & Hb & -> & Hj & Hrank). cbv zeta in Hrank.
  pose proof (lookup_lt_Some _ _ _ Hb) as Hbl. pose proof (lookup_lt_Some _ _ _ Hj) as Hjl. rewrite length_fmap in Hjl. set (n := length (ring fl)) in *. set (i' := next_index n i) in *.
  split.
  { destruct Hrank as [->|(t & (x & Ht & _) & _ & ->)]; [pose proof (around_bound n i' j Hbl Hjl); lia|]. by apply around_bound; [|apply lookup_lt_Some in Ht]. }
  destruct (decide (nunits ≤ b.2)) as [Hfit|Hfit].
  { eapply wp_mono; [exact (take_wp _ _ _ _ _ _ _ H Hi Hb (conj Hn Hfit))|]. by intros [st|r] h'. }
  pose proof (ring_next _ _ _ _ _ H Hb) as (c & Hc & Hm). rw /malloc_body. wp_step. eapply size_wp; [exact Hm|]. simpl.
  rewrite (proj2 (Z.leb_gt _ _)); [|lia]. do 3 wp_step. destruct (Z.eqb_spec b.1 (hp_free_list h)) as [E|Hne].
  - rw -E in Hj. pose proof (ring_index _ _ _ _ _ _ H Hb Hj) as <-. eapply wp_mono; [exact (expand_heap_wp _ _ _ _ H Hn Hlim)|].
    intros [p|e] h' Hr; [|wp_step; by exists fl]. destruct Hr as (fl' & Hok' & -> & Hlen & x & (t & Ht)%list_elem_of_lookup & Hx).
    pose proof (ok_free_list _ _ _ Hok') as (j' & Hj')%list_elem_of_lookup. pose proof Hj' as (pb' & E' & Hpb')%list_lookup_fmap_Some_1.
    destruct (ring_next _ _ _ _ _ Hok' Hpb') as (b' & Hb' & Hm'). wp_step. rw E'. eapply header_next_wp; [exact Hm'|]. wp_step.
    assert (Z.of_nat (length (ring fl')) ≤ Z.of_nat n + 1) as Hn' by (rw /n /ring !length_cons; lia).
    pose proof (lookup_lt_Some _ _ _ Ht) as Htl. pose proof (lookup_lt_Some _ _ _ Hb') as Hbl'. pose proof (lookup_lt_Some _ _ _ Hpb') as Hpl'.
    pose proof (around_bound _ _ _ Hbl' Htl) as Ha. exists (around (length (ring fl')) (next_index (length (ring fl')) j') t). split.
    + destruct Hrank as [->|(t0 & (x0 & Ht0 & Hx0) & Hle & ->)]; [pose proof (around_bound n i' i' Hbl Hbl); lia|].
      assert (around n i' t0 = 0) as Hz by (pose proof (around_bound n i' t0 Hbl (lookup_lt_Some _ _ _ Ht0)); assert (around n i' i' = 0) by (rw /around; case_decide; lia); lia).
      apply around_zero in Hz; [|done|by apply lookup_lt_Some in Ht0]. subst t0. assert (x0 = b) as -> by congruence. lia.
    + exists fl', j', j', pb', b'. split_and!; [done..|]. right. exists t. split_and!; [by exists x| |done]. rw around_before; [lia|done].
  - wp_step. wp_step. eapply header_next_wp; [exact Hm|]. wp_step.
    assert (i' ≠ j) as Hij by (intros <-; apply Hne; apply list_lookup_fmap_Some_1 in Hj as (x & -> & Hx); congruence).
    exists (rank - 1). split; [lia|]. exists fl, i', j, b, c. split_and!; [done..|]. cbv zeta. fold n. rewrite (around_next n i' j Hbl Hjl Hij).
    destruct Hrank as [->|(t & (x & Ht & Hx) & Hle & ->)]; [left; lia|]. right. exists t.
    rewrite (around_next n i' t Hbl (lookup_lt_Some _ _ _ Ht)); [split_and!; [by exists x|lia|done]|].
    intros <-. assert (x = b) as -> by congruence. lia.
Qed.
Definition MAX_ALLOC : Z := 2 ^ 62.
Lemma units_bounds nbytes : 0 ≤ nbytes < MAX_ALLOC → 1 ≤ units nbytes ∧ units nbytes * HEADER_SIZE < 2 ^ 63 ∧ nbytes ≤ HEADER_SIZE * (units nbytes - 1).
Proof.
  rw /MAX_ALLOC /units /HEADER_SIZE => H. rewrite wrap_small; [|split; [|eapply Z.le_lt_trans; [apply Z.add_le_mono_r, Z.div_le_mono with (b := 2 ^ 62 + 16); lia|done]]].
  - pose proof (Z.div_mod (nbytes + 16 - 1) 16 ltac:(lia)). pose proof (Z.mod_pos_bound (nbytes + 16 - 1) 16 ltac:(lia)). lia.
  - apply Z.add_nonneg_nonneg; [apply Z.div_pos; lia|lia].
Qed.
Lemma malloc_wp h fl al nbytes : heap_ok h fl al → 0 ≤ nbytes < MAX_ALLOC → wp (malloc nbytes) (allocated (units nbytes) al) h.
Proof.
  intros H (Hu1 & Hu2 & _)%units_bounds. pose proof (ok_free_list _ _ _ H) as (j & Hj)%list_elem_of_lookup.
  pose proof Hj as (pb & E & Hpb)%list_lookup_fmap_Some_1. destruct (ring_next _ _ _ _ _ H Hpb) as (b & Hb & Hm). rw /malloc. do 3 wp_step.
  rw E. eapply header_next_wp; [exact Hm|]. set (n := length (ring fl)) in *. pose proof (lookup_lt_Some _ _ _ Hpb) as Hjl.
  apply (while_wp_rank _ _ (searching (units nbytes) al) _ (around n (next_index n j) j + Z.of_nat n + 2)).
  - intros rank st h'. by apply search_wp.
  - rw around_before; [|done]. pose proof (ok_length _ _ _ H) as Hl. change (Z.pos IO_FUEL) with USIZE_LIMIT.
    assert (Z.of_nat n = Z.of_nat (length fl) + 1) by (rw /n /ring length_cons; lia). lia.
  - exists fl, j, j, pb, b. split_and!; [done..|]. by left.
Qed.
(** Stores of the program into its blocks leave the headers alone. *)
Lemma stores_ok h fl al m : heap_ok h fl al → (∀ a, m !! a ≠ hp_mem h !! a → ∃ b, b ∈ al ∧ b.1 < a < block_end b) → heap_ok (with_mem m h) fl al.
Proof.
  intros H Hm. assert (∀ y, y ∈ fl ++ al → m !! y.1 = hp_mem h !! y.1) as Hsame.
  { intros y Hy. destruct (decide (m !! y.1 = hp_mem h !! y.1)) as [|Hne]; [done|]. exfalso. apply Hm in Hne as (b & Hb & Hin).
    assert (y ≠ b) as Hyb by (intros ->; lia). assert (∃ l, fl ++ al ≡ₚ y :: b :: l) as [l Hl].
    { apply elem_of_Permutation in Hy as [l1 Hl1]. assert (b ∈ y :: l1) as [?|Hb1]%elem_of_cons by (rw -Hl1; apply elem_of_app; by right); [congruence|].
      apply elem_of_Permutation in Hb1 as [l2 Hl2]. exists l2. by rw Hl1 Hl2. }
    pose proof (ok_apart _ _ _ _ _ _ H Hl) as Ha. pose proof (ok_size _ _ _ y H ltac:(rw Hl; by left)). rw /apart in Ha. unfold_blocks. lia. }
  assert (m !! base = hp_mem h !! base) as Hbase.
  { destruct (decide (m !! base = hp_mem h !! base)) as [|Hne]; [done|]. exfalso. apply Hm in Hne as (b & Hb & Hin).
    pose proof (ok_bounds _ _ _ b H ltac:(apply elem_of_app; by right)) as (?&_). pose proof (ok_range _ _ _ H) as (?&_). lia. }
  destruct H. split; simpl; try done.
  - destruct ok_chain0 as [H1 H2]. split; [by rw Hbase|]. eapply chain_ext; [|exact H2]. intros a (y & -> & Hy)%list_elem_of_fmap. apply Hsame, elem_of_app. by left.
  - apply Forall_forall. intros y Hy. pose proof (proj1 (Forall_forall _ _) ok_live0 y Hy) as [Hy1 [x Hx]]. split; [done|]. exists x.
    rw /= Hsame; [done|apply elem_of_app; by right].
Qed.
Lemma ok_perm h fl al al' : heap_ok h fl al → al ≡ₚ al' → heap_ok h fl al'.
Proof.
  intros H Hp. destruct H. split; try done; [|by rewrite -Hp|by rewrite -Hp]. intros u. rw -ok_cover0 !cover_app. by rw (cover_perm u _ _ Hp).
Qed.
Lemma cover_none u l : (∀ b, b ∈ l → ¬ b.1 ≤ u < block_end b) → cover u l = 0.
Proof.
  induction l as [|b l IH]; intros Hn; simpl; [done|]. rw IH; [|intros x Hx; apply Hn; by right]. rw /covers decide_False; [done|]. apply Hn. by left.
Qed.
(** With nothing allocated, one free block is all of the heap. *)
Lemma ok_coalesced h fl : heap_ok h fl [] → start < brk (hp_break h) → fl = [(start, (brk (hp_break h) - start) / HEADER_SIZE)].
Proof.
  intros H Hlt. pose proof (ok_cover _ _ _ H) as Hc. rw app_nil_r in Hc.
  assert (∀ u, start ≤ u < brk (hp_break h) → ∃ x, x ∈ fl ∧ x.1 ≤ u < block_end x) as Hin.
  { intros u Hu. destruct (decide (Exists (λ x, x.1 ≤ u < block_end x) fl)) as [(x & ? & ?)%Exists_exists|Hn]; [by exists x|]. exfalso.
    specialize (Hc u). rw cover_none /in_heap in Hc; [|intros x Hx Hxu; apply Hn, Exists_exists; by exists x]. case_decide; lia. }
  assert (∀ x, x ∈ fl → start ≤ x.1 ∧ 1 ≤ x.2 ∧ block_end x ≤ brk (hp_break h)) as Hbd by (intros x Hx; apply (ok_bounds _ _ _ x H), elem_of_app; by left).
  pose proof (StronglySorted_inv (ok_sorted _ _ _ H)) as [Hs _]. destruct fl as [|b l]; [destruct (Hin start ltac:(lia)) as (x & Hx & _); by apply elem_of_nil in Hx|].
  apply StronglySorted_inv in Hs as [_ Hb]. rewrite Forall_forall in Hb. pose proof (Hbd b ltac:(by left)) as (Hb1 & Hb2 & Hb3).
  assert (b.1 = start) as Hst.
  { destruct (Hin start ltac:(lia)) as (x & [->|Hx]%elem_of_cons & Hxs); [lia|]. pose proof (before_lt b x ltac:(lia) (Hb x Hx)). lia. }
  assert (l = []) as ->.
  { destruct l as [|c l]; [done|]. exfalso. pose proof (Hb c ltac:(by left)) as Hbc. pose proof (Hbd c ltac:(right; by left)) as (_ & Hc2 & Hc3).
    destruct (Hin (block_end b)) as (x & Hx & Hxu); [unfold_blocks; lia|]. apply elem_of_cons in Hx as [->|Hx]; [lia|]. specialize (Hb x Hx). rw /before in Hb. lia. }
  destruct (Hin (brk (hp_break h) - 1)) as (x & ->%list_elem_of_singleton & Hxu); [lia|]. f_equal. destruct b as [a n]; simpl in *. f_equal; [done|].
  subst a. unfold_blocks. apply Z.div_unique_exact; lia.
Qed.
End heap_ok.

(** ** Programs that allocate

    The states a program reaches with its live blocks: it allocates, frees what is live, and stores into the data of its blocks. *)
Section program.
Context {B : Type} `{!Break B, !BreakOk B} (base : Z) (b0 : B).

Inductive heap_reachable : Heap B → list Block → Prop :=
  | reach_start : heap_reachable (heap_new base b0) []
  | reach_malloc h al nbytes r h' : heap_reachable h al → 0 ≤ nbytes < MAX_ALLOC → malloc nbytes h = Ret r h' →
      heap_reachable h' (match r with Ok p => (add p (-1), units nbytes) :: al | Err _ => al end)
  | reach_free h al p n al' h' : heap_reachable h al → al ≡ₚ (add p (-1), n) :: al' → free p h = Ret tt h' → heap_reachable h' al'
  | reach_store h al m : heap_reachable h al → (∀ a, m !! a ≠ hp_mem h !! a → ∃ b, b ∈ al ∧ b.1 < a < block_end b) →
      heap_reachable (with_mem m h) al.
(** [BASE] is below the heap, and the heap starts at an aligned address. *)
Definition layout_ok : Prop := 0 ≤ base < brk b0 ∧ brk b0 < ADDR_LIMIT ∧ brk b0 mod HEADER_SIZE = 0.

Lemma add_back p : add (add p (-1)) 1 = p.
Proof. rw /add /HEADER_SIZE. lia. Qed.
Lemma reachable_heap_ok h al : layout_ok → heap_reachable h al → ∃ fl, heap_ok base (brk b0) h fl al.
Proof.
  intros (Hb & Hl & Ha). induction 1 as [|h al nbytes r h' _ [fl IH] Hn Hrun|h al p n al' h' _ [fl IH] Hp Hrun|h al m _ [fl IH] Hm].
  - exists []. split; simpl.
    + split; [|done]. by rw lookup_singleton_eq.
    + constructor; constructor.
    + constructor.
    + intros u. rw /in_heap /=. case_decide; lia.
    + constructor.
    + constructor.
    + by left.
    + split_and!; try done; lia.
  - pose proof (wp_ret_inv _ _ _ _ _ (malloc_wp _ _ _ _ _ _ IH Hn) Hrun) as H. by destruct r.
  - pose proof (heap_free_wp _ _ _ _ _ _ _ (ok_perm _ _ _ _ _ _ IH Hp)) as H. rw add_back in H.
    destruct (wp_ret_inv _ _ _ _ _ H Hrun) as (fl' & Hok & _). by exists fl'.
  - exists fl. by apply stores_ok.
Qed.

(** C6: The allocator hands out memory nobody else has. In every state a program reaches, [malloc] ends without touching memory
    that is not the allocator's, and a success gives an aligned block of the size asked for, inside of the heap, that overlaps no
    live block; and [free] of a live block ends as well. *)
Theorem malloc_exclusive (h : Heap B) (al : list Block) (nbytes : Z)
    (Hlayout : layout_ok) (Hreach : heap_reachable h al) (Hn : 0 ≤ nbytes < MAX_ALLOC) :
  (∃ r h', malloc nbytes h = Ret r h' ∧ ∀ p, r = Ok p →
    p mod HEADER_SIZE = 0 ∧ brk b0 < p ∧ p + nbytes ≤ brk (hp_break h') ∧ ∀ b, b ∈ al → p + nbytes ≤ b.1 ∨ block_end b < p) ∧
  (∀ p n, (add p (-1), n) ∈ al → ∃ h', free p h = Ret tt h').
Proof.
  destruct (reachable_heap_ok h al Hlayout Hreach) as [fl Hok]. split.
  - destruct (wp_run _ _ _ (malloc_wp _ _ _ _ _ _ Hok Hn)) as (r & h' & Hrun & Hr). exists r, h'. split; [done|]. intros p ->.
    destruct Hr as [fl' Hok']. pose proof (units_bounds nbytes Hn) as (Hu & _ & Hub).
    pose proof (ok_bounds _ _ _ _ _ (add p (-1), units nbytes) Hok' ltac:(set_solver)) as (Hb1 & _ & Hb2).
    pose proof (proj1 (Forall_forall _ _) (ok_aligned _ _ _ _ _ Hok') (add p (-1), units nbytes) ltac:(set_solver)) as Ha. simpl in Ha.
    split_and!; [|unfold_blocks; lia|unfold_blocks; lia|].
    + rw -(add_back p) /add. by rw Z.mul_1_r Z.add_mod // Z_mod_same_full Z.add_0_r Z.mod_mod.
    + intros b (l1 & l2 & ->)%list_elem_of_split.
      pose proof (ok_apart _ _ _ _ _ (add p (-1), units nbytes) b (fl' ++ l1 ++ l2) Hok' ltac:(solve_Permutation)) as Hap.
      rw /apart in Hap. unfold_blocks. lia.
  - intros p n (al' & Hp)%elem_of_Permutation. pose proof (heap_free_wp _ _ _ _ _ _ _ (ok_perm _ _ _ _ _ _ Hok Hp)) as H. rw add_back in H.
    destruct (wp_run _ _ _ H) as ([] & h' & Hrun & _). by exists h'.
Qed.

(** C29: Freed memory comes back whole. When a program has freed all of its blocks, in whatever order, the free list is [BASE] and one
    block that is the whole heap: nothing is lost and no neighbours are left apart. *)
Theorem free_coalesces (h : Heap B) (Hlayout : layout_ok) (Hreach : heap_reachable h []) (Hgrown : brk b0 < brk (hp_break h)) :
  hp_mem h !! base = Some {| h_next := brk b0; h_size := 0 |} ∧
  hp_mem h !! brk b0 = Some {| h_next := base; h_size := (brk (hp_break h) - brk b0) / HEADER_SIZE |}.
Proof.
  destruct (reachable_heap_ok h [] Hlayout Hreach) as [fl Hok]. pose proof (ok_coalesced _ _ _ _ Hok Hgrown) as ->.
  pose proof (ok_chain _ _ _ _ _ Hok) as (H1 & H2 & _). done.
Qed.
End program.

Module Example.
(** A break with a limit. *)
Definition LIMIT : Z := 2 ^ 30.
#[export] Instance limited_break : Break Z := {| sys_sbrk n b := if b + n <? LIMIT then Ret (Ok b) (b + n) else Ret (Err OutOfMemory) b |}.
#[export] Program Instance limited_break_ok : BreakOk Z := {| brk b := b |}.
Next Obligation.
  intros b n Hn. rw /wp /=. destruct (b + n <? LIMIT) eqn:E; [|done]. split_and!; [done..|]. rw /LIMIT /ADDR_LIMIT in E |- *. lia.
Qed.
Definition start : Heap Z := heap_new 0x2000 0x4000.
Definition after {S A} (m : M S A) (s : S) : S := match m s with Ret _ s' => s' | Panic => s end.
(** Two blocks of 40 and 100 bytes. *)
Definition heap2 : Heap Z := after (malloc 100) (after (malloc 40) start).
Lemma heap2_reachable : heap_reachable 0x2000 0x4000 heap2 [(0x13f40, 8); (0x13fc0, 4)].
Proof.
  apply (reach_malloc _ _ (after (malloc 40) start) [(0x13fc0, 4)] 100 (Ok 0x13f50)); [|done|vm_compute; reflexivity].
  apply (reach_malloc _ _ start [] 40 (Ok 0x13fd0)); [constructor|done|vm_compute; reflexivity].
Qed.
Lemma malloc_exclusive_witness : ∃ h', free 0x13fd0 heap2 = Ret tt h'.
Proof.
  assert ((add 0x13fd0 (-1), 4) ∈ [(0x13f40, 8); (0x13fc0, 4)]) as Hin by (change (add 0x13fd0 (-1)) with 0x13fc0; set_solver).
  assert (layout_ok 0x2000 0x4000) as Hl by (split_and!; vm_compute; done).
  assert (0 ≤ 0 < MAX_ALLOC) as Hn by (split; vm_compute; done).
  exact (proj2 (malloc_exclusive 0x2000 0x4000 heap2 [(0x13f40, 8); (0x13fc0, 4)] 0 Hl heap2_reachable Hn) 0x13fd0 4 Hin).
Defined.
Definition heap0 : Heap Z := after (free 0x13f50) (after (free 0x13fd0) heap2).
Lemma heap0_reachable : heap_reachable 0x2000 0x4000 heap0 [].
Proof.
  assert ([(0x13f40, 8)] ≡ₚ (add 0x13f50 (-1), 8) :: []) as Hp1 by (change (add 0x13f50 (-1)) with 0x13f40; reflexivity).
  assert ([(0x13f40, 8); (0x13fc0, 4)] ≡ₚ (add 0x13fd0 (-1), 4) :: [(0x13f40, 8)]) as Hp2 by (change (add 0x13fd0 (-1)) with 0x13fc0; apply perm_swap).
  refine (reach_free _ _ (after (free 0x13fd0) heap2) [(0x13f40, 8)] 0x13f50 8 [] heap0 _ Hp1 _); [|vm_compute; reflexivity].
  refine (reach_free _ _ heap2 _ 0x13fd0 4 _ _ heap2_reachable Hp2 _). vm_compute. reflexivity.
Qed.
Lemma free_coalesces_witness : hp_break heap0 = 0x14000 ∧
  hp_mem heap0 !! brk 0x4000 = Some {| h_next := 0x2000; h_size := (brk (hp_break heap0) - brk 0x4000) / HEADER_SIZE |}.
Proof.
  assert (layout_ok 0x2000 0x4000) as Hl by (split_and!; vm_compute; done).
  assert (brk 0x4000 < brk (hp_break heap0)) as Hg by (apply Z.ltb_lt; vm_compute; reflexivity).
  split; [vm_compute; reflexivity|exact (proj2 (free_coalesces 0x2000 0x4000 heap0 Hl heap0_reachable Hg))].
Defined.
End Example.
