(* ===== verification/Virtio.v ===== *)
(** * The disk driver

    Model of [crates/kernel/ov6_kernel/src/fs/virtio_disk.rs] and of the structures of [virtio.rs]: the descriptors, the ring of
    requests and the ring of completions that driver and device share, sending a request and waiting for it, and the interrupt
    handler. The code under the lock of the disk is a turn, which ends with a return or with a wait on a condition variable; the
    device runs between the turns.

    That a turn is atomic for the device too is no restriction: of what a turn writes the device looks only at what is in front of
    the index of the request ring, which [send_request] moves last, and a completion that arrives during the interrupt handler is
    one that arrived before it. *)

From stdpp Require Import base list ssreflect.
From S2P Require Import Prelude Monitor.

(** ** Registers *)

Inductive MmioRegister : Type :=
  | MagicValue | Version | DeviceId | VendorId | DeviceFeatures | DriverFeatures | QueueSel | QueueNumMax | QueueNum | QueueReady
  | QueueNotify | InterruptStatus | InterruptAck | Status | QueueDescLow | QueueDescHigh | DriverDescLow | DriverDescHigh
  | DeviceDescLow | DeviceDescHigh.
Definition mmio_offset (r : MmioRegister) : Z :=
  match r with
  | MagicValue => 0x000 | Version => 0x004 | DeviceId => 0x008 | VendorId => 0x00c | DeviceFeatures => 0x010 | DriverFeatures => 0x020
  | QueueSel => 0x030 | QueueNumMax => 0x034 | QueueNum => 0x038 | QueueReady => 0x044 | QueueNotify => 0x050
  | InterruptStatus => 0x060 | InterruptAck => 0x064 | Status => 0x070 | QueueDescLow => 0x080 | QueueDescHigh => 0x084
  | DriverDescLow => 0x090 | DriverDescHigh => 0x094 | DeviceDescLow => 0x0a0 | DeviceDescHigh => 0x0a4
  end.
Definition ACKNOWLEDGE : Z := 1.
Definition DRIVER : Z := 2.
Definition DRIVER_OK : Z := 4.
Definition FEATURES_OK : Z := 8.
Definition BLK_RO : Z := 2 ^ 5.
Definition BLK_SCSI : Z := 2 ^ 7.
Definition BLK_CONFIG_WCE : Z := 2 ^ 11.
Definition BLK_MQ : Z := 2 ^ 12.
Definition ANY_LAYOUT : Z := 2 ^ 27.
Definition RING_INDIRECT_DESC : Z := 2 ^ 28.
Definition RING_EVENT_IDX : Z := 2 ^ 29.

(** The features that are left when those the driver does not have are removed. *)
Definition negotiated (features : Z) : Z :=
  foldl Z.ldiff features [BLK_RO; BLK_SCSI; BLK_CONFIG_WCE; BLK_MQ; ANY_LAYOUT; RING_EVENT_IDX; RING_INDIRECT_DESC].

Definition NUM : Z := 8.
Definition BLK_SECTOR_SIZE : Z := 512.
Definition FS_BLOCK_SIZE : nat := 1024.

(** The device as the registers show it. *)
Class Mmio (R : Type) := {
  read_reg : MmioRegister → M R Z;
  write_reg : MmioRegister → Z → M R unit;
}.
Section init.
Context {R : Type} `{!Mmio R}.
Definition assert_reg (r : MmioRegister) (v : Z) : M R unit := x ← read_reg r; assert_ (x =? v).
Definition write_addr (low high : MmioRegister) (addr : Z) : M R unit :=
  write_reg low (Z.land addr 0xffffffff);;
  write_reg high (Z.land (Z.shiftr addr 32) 0xffffffff).
(** [Disk::init], with the addresses of the descriptors and of the two rings. *)
Definition disk_init (desc avail used : Z) : M R unit :=
  assert_reg MagicValue 0x74726976;;
  assert_reg Version 2;;
  assert_reg DeviceId 2;;
  assert_reg VendorId 0x554d4551;;
  write_reg Status 0;;
  write_reg Status ACKNOWLEDGE;;
  let status := Z.lor ACKNOWLEDGE DRIVER in
  write_reg Status status;;
  features ← read_reg DeviceFeatures;
  write_reg DriverFeatures (negotiated features);;
  let status := Z.lor status FEATURES_OK in
  write_reg Status status;;
  status ← read_reg Status;
  assert_ (Z.land status FEATURES_OK =? FEATURES_OK);;
  write_reg QueueSel 0;;
  assert_reg QueueReady 0;;
  max ← read_reg QueueNumMax;
  assert_ (negb (max =? 0));;
  assert_ (NUM <=? max);;
  write_reg QueueNum NUM;;
  write_addr QueueDescLow QueueDescHigh desc;;
  write_addr DriverDescLow DriverDescHigh avail;;
  write_addr DeviceDescLow DeviceDescHigh used;;
  write_reg QueueReady 1;;
  write_reg Status (Z.lor status DRIVER_OK).
End init.

(** A device that offers [features] and queues of [max] entries, accepts what is negotiated, and records what is written. *)
Record Regs : Type := { rg_features : Z; rg_max : Z; rg_status : Z; rg_log : list (MmioRegister * Z) }.
Definition regs_read (r : MmioRegister) (g : Regs) : Z :=
  match r with
  | MagicValue => 0x74726976 | Version | DeviceId => 2 | VendorId => 0x554d4551 | DeviceFeatures => rg_features g
  | QueueNumMax => rg_max g | Status => rg_status g | _ => 0
  end.
Definition regs_write (r : MmioRegister) (v : Z) (g : Regs) : Regs :=
  {| rg_features := rg_features g; rg_max := rg_max g; rg_status := match r with Status => v | _ => rg_status g end; rg_log := rg_log g ++ [(r, v)] |}.
#[export] Instance regs_mmio : Mmio Regs := {| read_reg r := gets (regs_read r); write_reg r v := modify (regs_write r v) |}.
Lemma read_reg_wp r (Q : Z → Regs → Prop) g : Q (regs_read r g) g → wp (read_reg r) Q g.
Proof. done. Qed.
Lemma write_reg_wp r v (Q : unit → Regs → Prop) g : Q tt (regs_write r v g) → wp (write_reg r v) Q g.
Proof. done. Qed.
(** Initialization writes the steps of the protocol in its order, and accepts none of the features the driver does not have. *)
Lemma disk_init_protocol features max desc avail used : NUM ≤ max →
  wp (disk_init desc avail used) (λ _ g, g =
    {| rg_features := features; rg_max := max; rg_status := 15;
       rg_log := [(Status, 0); (Status, 1); (Status, 3); (DriverFeatures, negotiated features); (Status, 11); (QueueSel, 0); (QueueNum, NUM);
         (QueueDescLow, Z.land desc 0xffffffff); (QueueDescHigh, Z.land (Z.shiftr desc 32) 0xffffffff);
         (DriverDescLow, Z.land avail 0xffffffff); (DriverDescHigh, Z.land (Z.shiftr avail 32) 0xffffffff);
         (DeviceDescLow, Z.land used 0xffffffff); (DeviceDescHigh, Z.land (Z.shiftr used 32) 0xffffffff); (QueueReady, 1); (Status, 15)] |})
    {| rg_features := features; rg_max := max; rg_status := 0; rg_log := [] |} ∧
  Forall (λ b, Z.testbit (negotiated features) b = false) [5; 7; 11; 12; 27; 28; 29].
Proof.
  intros Hm. rw /NUM in Hm. split.
  - assert (negb (max =? 0) = true) as H1 by lia. assert ((NUM <=? max) = true) as H2 by (rw /NUM; lia).
    rw /disk_init /assert_reg /write_addr.
    repeat match goal with
    | |- wp (read_reg _) _ _ => apply read_reg_wp; cbn [regs_read rg_features rg_max rg_status]
    | |- wp (write_reg _ _) _ _ => apply write_reg_wp; cbn [regs_write rg_features rg_max rg_status rg_log app]
    | |- wp (assert_ _) _ _ => apply wp_assert; [first [exact H1|exact H2|reflexivity]|]
    | _ => wp_step
    end. reflexivity.
  - rw /negotiated /=. repeat constructor; rewrite !Z.ldiff_spec; by rewrite ?andb_false_r.
Qed.

(** ** Shared structures

    A pointer that the driver gives to the device is the object it points to: the header of a request in [ops], the buffer of a
    thread, or the status byte in [info]. *)
Inductive DmaAddr : Type := NullAddr | OpAddr (i : Z) | BufAddr (t : nat) | StatusAddr (i : Z).
Definition FLAG_NEXT : Z := 1.
Definition FLAG_WRITE : Z := 2.
Record VirtqDesc : Type := { d_addr : DmaAddr; d_len : Z; d_flags : Z; d_next : Z }.
Definition desc_zero : VirtqDesc := {| d_addr := NullAddr; d_len := 0; d_flags := 0; d_next := 0 |}.
Inductive VirtioBlkReqType : Type := In | Out.
Record VirtioBlkReq : Type := { req_ty : VirtioBlkReqType; req_sector : Z }.

(** Arrays are functions; the bounds check of an access is [in_range]. *)
Definition upd {A} (f : Z → A) (i : Z) (a : A) : Z → A := λ j, if decide (j = i) then a else f j.
Record Disk : Type := {
  desc : Z → VirtqDesc;
  avail_idx : Z;
  avail_ring : Z → Z;
  used_ring_idx : Z;
  used_ring : Z → Z;
  free : Z → bool;
  used_idx : Z;
  status : Z → Z;
  in_progress : Z → bool;
  ops : Z → VirtioBlkReq;
}.
Definition disk_new : Disk :=
  {| desc _ := desc_zero; avail_idx := 0; avail_ring _ := 0; used_ring_idx := 0; used_ring _ := 0; free _ := true; used_idx := 0;
     status _ := 0; in_progress _ := false; ops _ := {| req_ty := In; req_sector := 0 |} |}.
Definition set_desc (i : Z) (x : VirtqDesc) (d : Disk) : Disk :=
  {| desc := upd (desc d) i x; avail_idx := avail_idx d; avail_ring := avail_ring d; used_ring_idx := used_ring_idx d; used_ring := used_ring d;
     free := free d; used_idx := used_idx d; status := status d; in_progress := in_progress d; ops := ops d |}.
Definition set_free (i : Z) (x : bool) (d : Disk) : Disk :=
  {| desc := desc d; avail_idx := avail_idx d; avail_ring := avail_ring d; used_ring_idx := used_ring_idx d; used_ring := used_ring d;
     free := upd (free d) i x; used_idx := used_idx d; status := status d; in_progress := in_progress d; ops := ops d |}.
Definition set_op (i : Z) (x : VirtioBlkReq) (d : Disk) : Disk :=
  {| desc := desc d; avail_idx := avail_idx d; avail_ring := avail_ring d; used_ring_idx := used_ring_idx d; used_ring := used_ring d;
     free := free d; used_idx := used_idx d; status := status d; in_progress := in_progress d; ops := upd (ops d) i x |}.
Definition set_status (i s : Z) (d : Disk) : Disk :=
  {| desc := desc d; avail_idx := avail_idx d; avail_ring := avail_ring d; used_ring_idx := used_ring_idx d; used_ring := used_ring d;
     free := free d; used_idx := used_idx d; status := upd (status d) i s; in_progress := in_progress d; ops := ops d |}.
Definition set_progress (i : Z) (p : bool) (d : Disk) : Disk :=
  {| desc := desc d; avail_idx := avail_idx d; avail_ring := avail_ring d; used_ring_idx := used_ring_idx d; used_ring := used_ring d;
     free := free d; used_idx := used_idx d; status := status d; in_progress := upd (in_progress d) i p; ops := ops d |}.
Definition push_avail (i : Z) (d : Disk) : Disk :=
  {| desc := desc d; avail_idx := wrap 16 (avail_idx d + 1); avail_ring := upd (avail_ring d) (avail_idx d mod NUM) i;
     used_ring_idx := used_ring_idx d; used_ring := used_ring d; free := free d; used_idx := used_idx d; status := status d;
     in_progress := in_progress d; ops := ops d |}.
Definition push_used (i : Z) (d : Disk) : Disk :=
  {| desc := desc d; avail_idx := avail_idx d; avail_ring := avail_ring d; used_ring_idx := wrap 16 (used_ring_idx d + 1);
     used_ring := upd (used_ring d) (used_ring_idx d mod NUM) i; free := free d; used_idx := used_idx d; status := status d;
     in_progress := in_progress d; ops := ops d |}.
Definition set_used_idx (i : Z) (d : Disk) : Disk :=
  {| desc := desc d; avail_idx := avail_idx d; avail_ring := avail_ring d; used_ring_idx := used_ring_idx d; used_ring := used_ring d;
     free := free d; used_idx := i; status := status d; in_progress := in_progress d; ops := ops d |}.

(** ** The driver *)

(** The condition variables [desc_freed] and [completed] of each descriptor. *)
Inductive DiskCond : Type := DescFreed | Completed (i : Z).
#[export] Instance diskcond_eq_dec : EqDecision DiskCond.
Proof. solve_decision. Defined.
Notation DiskM := (M (Locked Disk DiskCond)).
Definition in_range (i : Z) : DiskM unit := assert_ ((0 <=? i) && (i <? NUM)).
Definition descriptors : list Z := seqZ 0 NUM.

Definition alloc_desc : DiskM (option Z) :=
  d ← gets lk_data;
  match list_find (λ i, free d i = true) descriptors with
  | Some (_, i) => on_data (modify (set_free i false));; mret (Some i)
  | None => mret None
  end.
Definition free_desc (i : Z) : DiskM unit :=
  in_range i;;
  d ← gets lk_data;
  assert_ (negb (free d i));;
  on_data (modify (set_desc i desc_zero));;
  on_data (modify (set_free i true));;
  notify DescFreed.
Definition free_chain_body (i : Z) : DiskM (Z + unit) :=
  in_range i;;
  d ← gets lk_data;
  free_desc i;;
  if Z.testbit (d_flags (desc d i)) 0 then mret (inl (d_next (desc d i))) else mret (inr tt).
Definition free_chain (i : Z) : DiskM unit := while_ 256 free_chain_body i.
(** [alloc3_desc] with [n] descriptors to go. *)
Fixpoint alloc_descs (n : nat) (idx : list Z) : DiskM (option (list Z)) :=
  match n with
  | O => mret (Some idx)
  | S n =>
      x ← alloc_desc;
      match x with
      | Some x => alloc_descs n (idx ++ [x])
      | None => for_each idx free_desc;; mret None
      end
  end.
Definition alloc3_desc : DiskM (option (Z * Z * Z)) :=
  r ← alloc_descs 3 [];
  mret (match r with Some [a; b; c] => Some (a, b, c) | _ => None end).

(** A request of the thread [t], with the length of its buffer. *)
Record Request : Type := { rq_ty : VirtioBlkReqType; rq_offset : Z; rq_len : nat }.
(** The write of [QueueNotify] at the end of [send_request] only makes the device look at the ring. *)
Definition req_flag (ty : VirtioBlkReqType) : Z := match ty with In => FLAG_WRITE | Out => 0 end.
Definition send_request (t : nat) (r : Request) (idx : Z * Z * Z) : DiskM unit :=
  let '(a, b, c) := idx in
  assert_ (rq_offset r mod BLK_SECTOR_SIZE =? 0);;
  assert_ (bool_decide (rq_len r = FS_BLOCK_SIZE));;
  in_range a;;
  on_data (modify (set_op a {| req_ty := rq_ty r; req_sector := rq_offset r / BLK_SECTOR_SIZE |}));;
  on_data (modify (set_desc a {| d_addr := OpAddr a; d_len := 16; d_flags := FLAG_NEXT; d_next := b |}));;
  in_range b;;
  on_data (modify (set_desc b {| d_addr := BufAddr t; d_len := Z.of_nat FS_BLOCK_SIZE; d_flags := Z.lor (req_flag (rq_ty r)) FLAG_NEXT; d_next := c |}));;
  on_data (modify (set_status a 0xff));;
  in_range c;;
  on_data (modify (set_desc c {| d_addr := StatusAddr a; d_len := 1; d_flags := FLAG_WRITE; d_next := 0 |}));;
  on_data (modify (set_progress a true));;
  on_data (modify (push_avail a)).

(** [read_or_write] up to the first wait or the end, and from a wait for the completion on. *)
Inductive RwCall : Type := RwStart (r : Request) | RwSent (r : Request) (idx : Z * Z * Z).
Inductive RwResult : Type := RwDone.
Notation RwTurn := (Turn DiskCond RwCall RwResult).
Definition rw_wait (r : Request) (idx : Z * Z * Z) : DiskM RwTurn :=
  let a := idx.1.1 in
  in_range a;;
  d ← gets lk_data;
  if in_progress d a then mret (Wait (Completed a) None (RwSent r idx))
  else free_chain a;; mret (Return RwDone).
Definition rw_turn (t : nat) (k : RwCall) : DiskM RwTurn :=
  match k with
  | RwStart r =>
      idx ← alloc3_desc;
      match idx with
      | None => mret (Wait DescFreed None k)
      | Some idx => send_request t r idx;; rw_wait r idx
      end
  | RwSent r idx => rw_wait r idx
  end.
(** [handle_interrupt]; the acknowledgement changes nothing that the driver reads. *)
Definition interrupt_body (_ : unit) : DiskM (unit + unit) :=
  d ← gets lk_data;
  if used_idx d =? used_ring_idx d then mret (inr tt)
  else
    let id := used_ring d (used_idx d mod NUM) in
    in_range id;;
    assert_ (status d id =? 0);;
    on_data (modify (set_progress id false));;
    notify (Completed id);;
    on_data (modify (set_used_idx (wrap 16 (used_idx d + 1))));;
    mret (inl tt).
Definition handle_interrupt : DiskM unit := while_ (2 ^ 17) interrupt_body tt.
