(* ===== verification/VirtioOk.v ===== *)
(** * The disk driver is an atomic disk

    Threads that read and write, the interrupt handler and the device of [Virtio.v] together: in every interleaving the assertions of
    the driver hold, the device finds a well-formed chain behind every request, no thread sleeps that could go on, and what the
    threads see is a disk that performs each request at one moment between its call and its return. *)

From stdpp Require Import base list ssreflect.
From S2P Require Import Prelude Monitor Virtio.

Lemma arr_upd_eq {A} (f : Z → A) i x : upd f i x i = x.
Proof. rw /upd. by rewrite decide_True. Qed.
Lemma arr_upd_ne {A} (f : Z → A) i j x : i ≠ j → upd f j x i = f i.
Proof. intros H. rw /upd. by rewrite decide_False. Qed.

(** ** Queues in rings

    [q] are the entries of the ring from the index [i] up to the index [j]; indices are 16-bit counters. *)
Definition vring_queue (f : Z → Z) (i : Z) (q : list Z) (j : Z) : Prop :=
  0 ≤ i < 2 ^ 16 ∧ (length q ≤ 8)%nat ∧ j = wrap 16 (i + Z.of_nat (length q)) ∧
  ∀ k x, q !! k = Some x → f ((i + Z.of_nat k) mod NUM) = x.

Lemma wrap16_mod x : wrap 16 x mod NUM = x mod NUM.
Proof. rw /wrap /NUM. apply Z.mod_mod_divide. by exists 8192. Qed.
Lemma wrap16_add x y : wrap 16 (wrap 16 x + y) = wrap 16 (x + y).
Proof. rw /wrap. by rewrite Zplus_mod_idemp_l. Qed.
Lemma vring_nil f i q j g : vring_queue f i q j → vring_queue g j [] j.
Proof.
  intros (Hi & Hl & -> & _). assert (0 ≤ wrap 16 (i + Z.of_nat (length q)) < 2 ^ 16) by by apply wrap_bound.
  split_and!; [lia|lia|simpl; lia| |by intros k x]. by rewrite /= Z.add_0_r (wrap_small 16 (wrap _ _)).
Qed.
Lemma vring_new f : vring_queue f 0 [] 0.
Proof. split_and!; [done|done|simpl; lia|done|by intros k x]. Qed.
Lemma vring_push f i q j x : vring_queue f i q j → (length q < 8)%nat → vring_queue (upd f (j mod NUM) x) i (q ++ [x]) (wrap 16 (j + 1)).
Proof.
  intros (Hi & Hl & -> & Hq) Hlt. split_and!; [lia|lia|rw length_app /=; lia|rw length_app wrap16_add /=; f_equal; lia|].
  intros k y Hk. rw /upd wrap16_mod. apply lookup_app_Some in Hk as [Hk|[Hge Hk]].
  - rewrite decide_False; [by apply Hq|]. apply lookup_lt_Some in Hk. intros E. rw /NUM in E.
    assert ((i + Z.of_nat (length q) - (i + Z.of_nat k)) mod 8 = 0) as Hm by (rewrite Zminus_mod E Z.sub_diag; done).
    replace (i + Z.of_nat (length q) - (i + Z.of_nat k)) with (Z.of_nat (length q) - Z.of_nat k) in Hm by lia. rewrite Z.mod_small in Hm; lia.
  - apply list_lookup_singleton_Some in Hk as [Hk <-]. assert (k = length q) as -> by lia. by rewrite decide_True.
Qed.
Lemma vring_pop f i x q j : vring_queue f i (x :: q) j → f (i mod NUM) = x ∧ vring_queue f (wrap 16 (i + 1)) q j.
Proof.
  intros (Hi & Hl & -> & Hq). split; [rewrite -(Hq 0%nat x eq_refl); f_equal; f_equal; lia|]. simpl in Hl.
  split_and!; [apply wrap_bound; lia|apply wrap_bound; lia|lia|rw wrap16_add /=; f_equal; lia|].
  intros k y Hk. rewrite -(Hq (S k) y Hk). f_equal. rewrite -(Zplus_mod_idemp_l (wrap 16 (i + 1))) wrap16_mod Zplus_mod_idemp_l. f_equal. lia.
Qed.
Lemma vring_empty f i q j : vring_queue f i q j → i = j ↔ q = [].
Proof.
  intros (Hi & Hl & -> & _). split; [|intros ->; rw /= Z.add_0_r wrap_small; lia]. intros E. apply nil_length_inv.
  rw /wrap in E. destruct (decide (i + Z.of_nat (length q) < 2 ^ 16)) as [Hlt|Hge]; [rewrite Z.mod_small in E; lia|].
  replace (i + Z.of_nat (length q)) with (i + Z.of_nat (length q) - 2 ^ 16 + 1 * 2 ^ 16) in E by lia.
  rewrite Z_mod_plus_full Z.mod_small in E; lia.
Qed.

(** ** The system *)

Record Device : Type := {
  dv_sectors : Z → list byte;
  dv_last : Z;
  dv_pending : list Z;
}.
Inductive RwPc : Type := PcIdle | PcReady (k : RwCall) | PcAsleep (c : DiskCond) (k : RwCall) (woken : bool).
Record Sys : Type := {
  sy_disk : Disk;
  sy_dev : Device;
  sy_bufs : nat → list byte;
  sy_threads : list RwPc;
}.
Definition upd_buf (f : nat → list byte) (t : nat) (x : list byte) : nat → list byte := λ t', if decide (t' = t) then x else f t'.
Definition wake (ns : list DiskCond) (pc : RwPc) : RwPc :=
  match pc with
  | PcAsleep c k w => PcAsleep c k (w || bool_decide (c ∈ ns))
  | pc => pc
  end.
(** What the device does to the sectors and to the buffer. *)
Definition transfer (ty : VirtioBlkReqType) (sector : Z) (sectors : Z → list byte) (buf : list byte) : (Z → list byte) * list byte :=
  match ty with
  | In => (sectors, sectors sector ++ sectors (sector + 1))
  | Out => (upd (upd sectors sector (take 512 buf)) (sector + 1) (drop 512 buf), buf)
  end.
Definition request_ok (r : Request) : Prop := rq_offset r mod BLK_SECTOR_SIZE = 0 ∧ rq_len r = FS_BLOCK_SIZE.
(** The chain the device finds behind the descriptor [h]. *)
Definition chain_at (d : Disk) (h o : Z) (t : nat) (s : Z) : Prop :=
  d_addr (desc d h) = OpAddr o ∧ Z.testbit (d_flags (desc d h)) 0 = true ∧
  let b := d_next (desc d h) in
  d_addr (desc d b) = BufAddr t ∧ d_len (desc d b) = 1024 ∧ Z.testbit (d_flags (desc d b)) 0 = true ∧
  Z.testbit (d_flags (desc d b)) 1 = (match req_ty (ops d o) with In => true | Out => false end) ∧
  let c := d_next (desc d b) in
  d_addr (desc d c) = StatusAddr s ∧ d_len (desc d c) = 1 ∧ d_flags (desc d c) = FLAG_WRITE.
(** The thread [t] after its turn. *)
Definition end_turn (t : nat) (o : RwTurn) (l : Locked Disk DiskCond) (s : Sys) : Sys :=
  {| sy_disk := lk_data l; sy_dev := sy_dev s; sy_bufs := sy_bufs s;
     sy_threads := <[t := match o with Return _ => PcIdle | Wait c _ k => PcAsleep c k false end]> (wake (lk_notified l) <$> sy_threads s) |}.
Definition lock (d : Disk) : Locked Disk DiskCond := {| lk_data := d; lk_notified := [] |}.

Inductive sys_step (s : Sys) : Sys → Prop :=
  | sys_spawn : sys_step s {| sy_disk := sy_disk s; sy_dev := sy_dev s; sy_bufs := sy_bufs s; sy_threads := sy_threads s ++ [PcIdle] |}
  | sys_call t r buf : sy_threads s !! t = Some PcIdle → request_ok r → length buf = FS_BLOCK_SIZE →
      sys_step s {| sy_disk := sy_disk s; sy_dev := sy_dev s; sy_bufs := upd_buf (sy_bufs s) t buf; sy_threads := <[t := PcReady (RwStart r)]> (sy_threads s) |}
  | sys_turn t k o l : sy_threads s !! t = Some (PcReady k) → rw_turn t k (lock (sy_disk s)) = Ret o l → sys_step s (end_turn t o l s)
  | sys_resume t c k : sy_threads s !! t = Some (PcAsleep c k true) →
      sys_step s {| sy_disk := sy_disk s; sy_dev := sy_dev s; sy_bufs := sy_bufs s; sy_threads := <[t := PcReady k]> (sy_threads s) |}
  | sys_interrupt l : handle_interrupt (lock (sy_disk s)) = Ret tt l →
      sys_step s {| sy_disk := lk_data l; sy_dev := sy_dev s; sy_bufs := sy_bufs s; sy_threads := wake (lk_notified l) <$> sy_threads s |}
  (** The device takes a request from the ring, and completes the requests it has taken in any order. *)
  | sys_take : dv_last (sy_dev s) ≠ avail_idx (sy_disk s) →
      sys_step s {| sy_disk := sy_disk s;
        sy_dev := {| dv_sectors := dv_sectors (sy_dev s); dv_last := wrap 16 (dv_last (sy_dev s) + 1);
                     dv_pending := dv_pending (sy_dev s) ++ [avail_ring (sy_disk s) (dv_last (sy_dev s) mod NUM)] |};
        sy_bufs := sy_bufs s; sy_threads := sy_threads s |}
  | sys_finish p1 h p2 o t st sectors buf : dv_pending (sy_dev s) = p1 ++ h :: p2 → chain_at (sy_disk s) h o t st →
      transfer (req_ty (ops (sy_disk s) o)) (req_sector (ops (sy_disk s) o)) (dv_sectors (sy_dev s)) (sy_bufs s t) = (sectors, buf) →
      sys_step s {| sy_disk := push_used h (set_status st 0 (sy_disk s));
        sy_dev := {| dv_sectors := sectors; dv_last := dv_last (sy_dev s); dv_pending := p1 ++ p2 |};
        sy_bufs := upd_buf (sy_bufs s) t buf; sy_threads := sy_threads s |}.
Definition sys_new (sectors : Z → list byte) : Sys :=
  {| sy_disk := disk_new; sy_dev := {| dv_sectors := sectors; dv_last := 0; dv_pending := [] |}; sy_bufs _ := []; sy_threads := [] |}.
Inductive sys_reachable (sectors : Z → list byte) : Sys → Prop :=
  | sys_start : sys_reachable sectors (sys_new sectors)
  | sys_next s s' : sys_reachable sectors s → sys_step s s' → sys_reachable sectors s'.

(** ** The specification: an atomic disk *)

Inductive AbsPc : Type := AIdle | APending (r : Request) | ADone (r : Request).
Record Abs : Type := { ab_sectors : Z → list byte; ab_bufs : nat → list byte; ab_threads : list AbsPc }.
Inductive abs_step (s : Abs) : Abs → Prop :=
  | abs_spawn : abs_step s {| ab_sectors := ab_sectors s; ab_bufs := ab_bufs s; ab_threads := ab_threads s ++ [AIdle] |}
  | abs_call t r buf : ab_threads s !! t = Some AIdle →
      abs_step s {| ab_sectors := ab_sectors s; ab_bufs := upd_buf (ab_bufs s) t buf; ab_threads := <[t := APending r]> (ab_threads s) |}
  | abs_perform t r sectors buf : ab_threads s !! t = Some (APending r) →
      transfer (rq_ty r) (rq_offset r / BLK_SECTOR_SIZE) (ab_sectors s) (ab_bufs s t) = (sectors, buf) →
      abs_step s {| ab_sectors := sectors; ab_bufs := upd_buf (ab_bufs s) t buf; ab_threads := <[t := ADone r]> (ab_threads s) |}
  | abs_return t r : ab_threads s !! t = Some (ADone r) →
      abs_step s {| ab_sectors := ab_sectors s; ab_bufs := ab_bufs s; ab_threads := <[t := AIdle]> (ab_threads s) |}.
Definition call_of (pc : RwPc) : option RwCall := match pc with PcIdle => None | PcReady k | PcAsleep _ k _ => Some k end.
(** A request has been performed when the device has cleared its status. *)
Definition abs_pc (d : Disk) (pc : RwPc) : AbsPc :=
  match call_of pc with
  | None => AIdle
  | Some (RwStart r) => APending r
  | Some (RwSent r idx) => if status d idx.1.1 =? 0 then ADone r else APending r
  end.
Definition abs (s : Sys) : Abs :=
  {| ab_sectors := dv_sectors (sy_dev s); ab_bufs := sy_bufs s; ab_threads := abs_pc (sy_disk s) <$> sy_threads s |}.

(** ** The operations of the driver *)

Definition idx_ok (i : Z) : Prop := 0 ≤ i < NUM.
Definition same_rest (d d' : Disk) : Prop :=
  avail_idx d' = avail_idx d ∧ avail_ring d' = avail_ring d ∧ used_ring_idx d' = used_ring_idx d ∧ used_ring d' = used_ring d ∧
  used_idx d' = used_idx d ∧ status d' = status d ∧ in_progress d' = in_progress d ∧ ops d' = ops d.
Lemma same_rest_trans d1 d2 d3 : same_rest d1 d2 → same_rest d2 d3 → same_rest d1 d3.
Proof. rw /same_rest. intros H1 H2. destruct_and!. split_and!; congruence. Qed.
(** [idx] were free and have been taken. *)
Definition taken (idx : list Z) (d d' : Disk) : Prop :=
  same_rest d d' ∧ desc d' = desc d ∧ (∀ i, free d' i = free d i && negb (bool_decide (i ∈ idx))) ∧
  NoDup idx ∧ Forall (λ i, idx_ok i ∧ free d i = true) idx.
(** [idx] have been given back. *)
Definition released (idx : list Z) (d d' : Disk) : Prop :=
  same_rest d d' ∧ (∀ i, i ∉ idx → desc d' i = desc d i) ∧ (∀ i, free d' i = free d i || bool_decide (i ∈ idx)).
Definition nfree (d : Disk) : nat := length (filter (λ i, free d i = true) descriptors).

Lemma in_range_wp i (Q : unit → Locked Disk DiskCond → Prop) l : idx_ok i → Q tt l → wp (in_range i) Q l.
Proof. intros Hi HQ. apply wp_assert; [rw /idx_ok in Hi; lia|done]. Qed.
Lemma elem_of_descriptors i : i ∈ descriptors ↔ idx_ok i.
Proof. rw /descriptors elem_of_seqZ /idx_ok. lia. Qed.
Lemma alloc_desc_wp l : wp alloc_desc (λ r l', match r with
  | Some i => idx_ok i ∧ free (lk_data l) i = true ∧ l' = {| lk_data := set_free i false (lk_data l); lk_notified := lk_notified l |}
  | None => l' = l ∧ ∀ i, idx_ok i → free (lk_data l) i = false
  end) l.
Proof.
  rw /alloc_desc. wp_step. wp_step. destruct (list_find _ descriptors) as [[k i]|] eqn:E.
  - apply list_find_Some in E as (Hk & Hf & _). wp_step. apply on_data_modify_wp. wp_step. split_and!; [|done|done].
    by apply elem_of_descriptors, (list_elem_of_lookup_2 _ k).
  - apply list_find_None in E. wp_step. split; [done|]. intros i Hi. rewrite Forall_forall in E. specialize (E i (proj2 (elem_of_descriptors i) Hi)).
    by destruct (free (lk_data l) i).
Qed.
Lemma free_desc_wp i l : idx_ok i → free (lk_data l) i = false →
  wp (free_desc i) (λ _ l', l' = {| lk_data := set_free i true (set_desc i desc_zero (lk_data l)); lk_notified := lk_notified l ++ [DescFreed] |}) l.
Proof.
  intros Hi Hf. rw /free_desc. wp_step. apply in_range_wp; [done|]. do 2 wp_step. wp_step. apply wp_assert; [by rw Hf|].
  wp_step. apply on_data_modify_wp. wp_step. apply on_data_modify_wp. by apply turn_notify_wp.
Qed.
Lemma released_one i d : released [i] d (set_free i true (set_desc i desc_zero d)).
Proof.
  split_and!; [by repeat split| |].
  - intros j Hj. simpl. rw /upd decide_False; [done|]. set_solver.
  - intros j. simpl. rw /upd. case_decide as E; [subst; rewrite bool_decide_eq_true_2; [by rewrite orb_true_r|by left]|].
    rewrite bool_decide_eq_false_2; [by rewrite orb_false_r|set_solver].
Qed.
Lemma released_trans l1 l2 d1 d2 d3 : released l1 d1 d2 → released l2 d2 d3 → released (l1 ++ l2) d1 d3.
Proof.
  intros (R1 & D1 & F1) (R2 & D2 & F2). split_and!; [exact (same_rest_trans _ _ _ R1 R2)| |].
  - intros i [H1 H2]%not_elem_of_app. by rw D2 // D1.
  - intros i. rw F2 F1 -orb_assoc. f_equal. repeat case_bool_decide; set_solver.
Qed.
Lemma free_descs_wp idx l : NoDup idx → Forall (λ i, idx_ok i ∧ free (lk_data l) i = false) idx →
  wp (for_each idx free_desc) (λ _ l', released idx (lk_data l) (lk_data l') ∧ lk_notified l' = lk_notified l ++ replicate (length idx) DescFreed) l.
Proof.
  revert l. induction idx as [|i idx IH]; intros l Hn Hf; simpl.
  { wp_step. split; [split_and!; [by repeat split|done|intros i; by rewrite orb_false_r]|by rewrite app_nil_r]. }
  apply NoDup_cons in Hn as [Hi Hn]. apply Forall_cons in Hf as [[Hr Hfi] Hf]. wp_step. eapply wp_mono; [by apply free_desc_wp|]. intros _ l' ->.
  eapply wp_mono; [apply IH; [done|]|].
  - apply Forall_forall. intros j Hj. rewrite Forall_forall in Hf. destruct (Hf j Hj). split; [done|]. simpl. rw /upd decide_False; [done|]. intros ->. done.
  - intros _ l' [Hrel Hns]. simpl in *. split; [exact (released_trans [i] idx _ _ _ (released_one i _) Hrel)|]. by rw Hns -app_assoc.
Qed.
Lemma taken_nil d : taken [] d d.
Proof. split_and!; [by repeat split|done|intros i; by rewrite andb_true_r|constructor|constructor]. Qed.
Lemma taken_snoc idx d d' i : taken idx d d' → idx_ok i → free d' i = true → taken (idx ++ [i]) d (set_free i false d').
Proof.
  intros (R & D & F & N & A) Hi Hf. pose proof Hf as Hf'. rw F in Hf'. apply andb_true_iff in Hf' as [Hfd Hn]. apply negb_true_iff, bool_decide_eq_false in Hn.
  split_and!; [exact R|exact D| | |].
  - intros j. simpl. rw /upd. case_decide as E; [subst; rewrite bool_decide_eq_true_2; [by rewrite andb_false_r|set_solver]|].
    rw F. f_equal. f_equal. apply bool_decide_ext. set_solver.
  - apply NoDup_app. split_and!; [done|intros x Hx; set_solver|apply NoDup_singleton].
  - apply Forall_app. split; [done|]. by constructor.
Qed.
(** The descriptors that are given back when there are not enough leave everything as it was. *)
Definition untouched (d d' : Disk) : Prop :=
  same_rest d d' ∧ (∀ i, free d' i = free d i) ∧ (∀ i, free d i = false → desc d' i = desc d i).
Lemma taken_released idx d d1 d2 : taken idx d d1 → released idx d1 d2 → untouched d d2.
Proof.
  intros (R1 & D1 & F1 & N & A) (R2 & D2 & F2). rewrite Forall_forall in A. split_and!; [exact (same_rest_trans _ _ _ R1 R2)| |].
  - intros i. rw F2 F1. case_bool_decide as E; [destruct (A i E) as [_ ->]; done|]. by rewrite andb_true_r orb_false_r.
  - intros i Hi. rw D2; [by rw D1|]. intros E. destruct (A i E). congruence.
Qed.
Lemma alloc_descs_wp n idx d l : taken idx d (lk_data l) →
  wp (alloc_descs n idx) (λ r l', match r with
    | Some idx' => taken idx' d (lk_data l') ∧ length idx' = (length idx + n)%nat ∧ lk_notified l' = lk_notified l
    | None => untouched d (lk_data l') ∧ (nfree d < length idx + n)%nat
    end) l.
Proof.
  revert idx l. induction n as [|n IH]; intros idx l Ht; simpl.
  { wp_step. split_and!; [done|lia|done]. }
  wp_step. eapply wp_mono; [apply alloc_desc_wp|]. intros [i|] l'.
  - intros (Hi & Hf & ->). eapply wp_mono; [by apply IH, taken_snoc|]. intros [idx'|] l2; simpl; rw length_app /=; [intros (H1 & H2 & H3)|intros (H1 & H2)]; split_and!; try done; lia.
  - intros [-> Hall]. pose proof Ht as (_ & _ & F & N & A). wp_step. eapply wp_mono; [apply free_descs_wp; [done|]|].
    + eapply Forall_impl; [exact A|]. intros i [Hi _]. split; [done|]. by apply Hall.
    + intros _ l2 [Hr _]. wp_step. split; [exact (taken_released _ _ _ _ Ht Hr)|]. assert (nfree d ≤ length idx)%nat; [|lia].
      apply submseteq_length, NoDup_submseteq; [apply NoDup_filter, NoDup_seqZ|]. intros i [Hf Hi%elem_of_descriptors]%list_elem_of_filter.
      specialize (Hall i Hi). rw F Hf in Hall. by case_bool_decide.
Qed.
Lemma alloc3_desc_wp l :
  wp alloc3_desc (λ r l', match r with
    | Some (a, b, c) => taken [a; b; c] (lk_data l) (lk_data l') ∧ lk_notified l' = lk_notified l
    | None => untouched (lk_data l) (lk_data l') ∧ (nfree (lk_data l) < 3)%nat
    end) l.
Proof.
  rw /alloc3_desc. wp_step. eapply wp_mono; [apply (alloc_descs_wp 3 []), taken_nil|]. intros [idx|] l'; [intros (Ht & Hl & Hn)|done].
  wp_step. do 4 (destruct idx as [|? idx]; try done).
Qed.

(** The three descriptors of a request as [send_request] writes them. *)
Definition chain_of (t : nat) (r : Request) (idx : Z * Z * Z) (d : Disk) : Prop :=
  let '(a, b, c) := idx in
  desc d a = {| d_addr := OpAddr a; d_len := 16; d_flags := FLAG_NEXT; d_next := b |} ∧
  desc d b = {| d_addr := BufAddr t; d_len := Z.of_nat FS_BLOCK_SIZE; d_flags := Z.lor (req_flag (rq_ty r)) FLAG_NEXT; d_next := c |} ∧
  desc d c = {| d_addr := StatusAddr a; d_len := 1; d_flags := FLAG_WRITE; d_next := 0 |}.
Definition op_of (r : Request) : VirtioBlkReq := {| req_ty := rq_ty r; req_sector := rq_offset r / BLK_SECTOR_SIZE |}.
(** The disk after a request: what [send_request] changes, and nothing else. *)
Definition sent (t : nat) (r : Request) (idx : Z * Z * Z) (d d' : Disk) : Prop :=
  chain_of t r idx d' ∧ (∀ i, i ∉ [idx.1.1; idx.1.2; idx.2] → desc d' i = desc d i) ∧
  avail_idx d' = wrap 16 (avail_idx d + 1) ∧ avail_ring d' = upd (avail_ring d) (avail_idx d mod NUM) idx.1.1 ∧
  used_ring_idx d' = used_ring_idx d ∧ used_ring d' = used_ring d ∧ used_idx d' = used_idx d ∧ free d' = free d ∧
  status d' = upd (status d) idx.1.1 0xff ∧ in_progress d' = upd (in_progress d) idx.1.1 true ∧ ops d' = upd (ops d) idx.1.1 (op_of r).
Lemma send_request_wp t r a b c l : request_ok r → Forall idx_ok [a; b; c] → NoDup [a; b; c] →
  wp (send_request t r (a, b, c)) (λ _ l', sent t r (a, b, c) (lk_data l) (lk_data l') ∧ lk_notified l' = lk_notified l) l.
Proof.
  intros [Ho Hl] Hi Hn. rewrite !Forall_cons in Hi. destruct Hi as (Ha & Hb & Hc & _).
  apply NoDup_cons in Hn as [Hna Hn]. apply NoDup_cons in Hn as [Hnb _]. rw /send_request.
  wp_step. apply wp_assert; [by rw Ho|]. wp_step. apply wp_assert; [by rewrite bool_decide_eq_true_2|].
  wp_step. apply in_range_wp; [done|]. do 2 (wp_step; apply on_data_modify_wp). wp_step. apply in_range_wp; [done|].
  do 2 (wp_step; apply on_data_modify_wp). wp_step. apply in_range_wp; [done|]. do 2 (wp_step; apply on_data_modify_wp). apply on_data_modify_wp.
  split; [|done]. assert (a ≠ b ∧ a ≠ c ∧ b ≠ c) as (Hab & Hac & Hbc) by (split_and!; intros ->; [apply Hna|apply Hna|apply Hnb]; repeat constructor).
  split; [|split; [|done]].
  - rw /chain_of /=. split_and!; [by rewrite arr_upd_ne // arr_upd_ne // arr_upd_eq|by rewrite arr_upd_ne // arr_upd_eq|by rewrite arr_upd_eq].
  - simpl. intros i Hx. rewrite !not_elem_of_cons in Hx. destruct Hx as (? & ? & ? & _). by rewrite !(arr_upd_ne _ i).
Qed.

Lemma free_desc_released i l : idx_ok i → free (lk_data l) i = false →
  wp (free_desc i) (λ _ l', released [i] (lk_data l) (lk_data l') ∧ lk_notified l' = lk_notified l ++ [DescFreed]) l.
Proof. intros Hi Hf. eapply wp_mono; [by apply free_desc_wp|]. intros _ l' ->. split; [apply released_one|done]. Qed.
(** A chain through the descriptors [i :: rest]. *)
Fixpoint linked (d : Disk) (i : Z) (rest : list Z) : Prop :=
  match rest with
  | [] => Z.testbit (d_flags (desc d i)) 0 = false
  | j :: rest => Z.testbit (d_flags (desc d i)) 0 = true ∧ d_next (desc d i) = j ∧ linked d j rest
  end.
Lemma linked_ext d d' i rest : (∀ j, j ∈ i :: rest → desc d' j = desc d j) → linked d i rest → linked d' i rest.
Proof.
  revert i. induction rest as [|j rest IH]; intros i H; simpl; (rw H; [|by left]); [done|].
  intros (H1 & H2 & H3). split_and!; [done|done|]. apply IH; [|done]. intros k Hk. apply H. by right.
Qed.
Definition busy (d : Disk) (idx : list Z) : Prop := NoDup idx ∧ Forall (λ i, idx_ok i ∧ free d i = false) idx.
Lemma busy_released done idx d d' : released done d d' → NoDup (done ++ idx) → busy d idx → busy d' idx.
Proof.
  intros (_ & _ & F) (_ & Hx & _)%NoDup_app [Hn Hf]. split; [done|]. apply Forall_forall. intros i Hi. rewrite Forall_forall in Hf.
  destruct (Hf i Hi) as [Hr Hfi]. split; [done|]. rw F Hfi /=. apply bool_decide_eq_false_2. intros Hd. exact (Hx i Hd Hi).
Qed.
Lemma free_chain_wp i rest l : linked (lk_data l) i rest → busy (lk_data l) (i :: rest) → (length rest < 8)%nat →
  wp (free_chain i) (λ _ l', released (i :: rest) (lk_data l) (lk_data l') ∧
    lk_notified l' = lk_notified l ++ replicate (S (length rest)) DescFreed) l.
Proof.
  intros Hl Hb Hlen. set (idx := i :: rest). apply (while_wp_rank 256 _ (λ n j l', ∃ done rest', n = Z.of_nat (length rest') ∧
    done ++ j :: rest' = idx ∧ linked (lk_data l') j rest' ∧ released done (lk_data l) (lk_data l') ∧
    lk_notified l' = lk_notified l ++ replicate (length done) DescFreed) _ (Z.of_nat (length rest))); [|lia|].
  2: { exists [], rest. split_and!; [done|done|done| |by rewrite app_nil_r]. split_and!; [by repeat split|done|intros j; by rewrite orb_false_r]. }
  intros n j l1 (done & rest' & -> & Hidx & Hl1 & Hr1 & Hn1). split; [lia|]. pose proof (proj1 Hb) as Hnd. fold idx in Hnd. rewrite -Hidx in Hnd.
  assert (busy (lk_data l1) (j :: rest')) as [Hnd' Hf'].
  { eapply (busy_released done); [exact Hr1|done|]. destruct Hb as [_ Hb]. fold idx in Hb. rewrite -Hidx in Hb. apply NoDup_app in Hnd as (_ & _ & Hnd). by apply Forall_app in Hb as [_ Hb]. }
  apply Forall_cons in Hf' as [[Hj Hfj] _]. apply NoDup_cons in Hnd' as [Hj' _].
  rw /free_chain_body. wp_step. apply in_range_wp; [done|]. wp_step. wp_step. wp_step.
  eapply wp_mono; [by apply free_desc_released|]. intros _ l2 [Hr2 Hn2].
  pose proof (released_trans _ _ _ _ _ Hr1 Hr2) as Hr. rw Hn1 -app_assoc in Hn2.
  assert (replicate (length done) DescFreed ++ [DescFreed] = replicate (length (done ++ [j])) DescFreed) as E by by rewrite length_app replicate_add.
  rw E in Hn2. destruct rest' as [|k rest']; cbn [linked] in Hl1.
  - rw Hl1. wp_step. rewrite Hidx in Hr Hn2. split; [done|]. by rw Hn2.
  - destruct Hl1 as (H1 & H2 & H3). rw H1 H2. wp_step. exists (Z.of_nat (length rest')). split; [simpl; lia|].
    exists (done ++ [j]), rest'. split_and!; [done|by rewrite -app_assoc| |done|done].
    eapply linked_ext; [|exact H3]. intros x Hx. destruct Hr2 as (_ & D2 & _). apply D2. intros ->%list_elem_of_singleton. done.
Qed.
Lemma chain_linked t r a b c d : chain_of t r (a, b, c) d → linked d a [b; c].
Proof. intros (Ha & Hb & Hc). simpl. rw Ha Hb Hc /=. split_and!; try done. by destruct (rq_ty r). Qed.

(** What the interrupt handler does with the completions [q]. *)
Definition drained (q : list Z) (d d' : Disk) : Prop :=
  desc d' = desc d ∧ avail_idx d' = avail_idx d ∧ avail_ring d' = avail_ring d ∧ used_ring_idx d' = used_ring_idx d ∧
  used_ring d' = used_ring d ∧ free d' = free d ∧ used_idx d' = used_ring_idx d ∧ status d' = status d ∧ ops d' = ops d ∧
  ∀ i, in_progress d' i = in_progress d i && negb (bool_decide (i ∈ q)).
Lemma drained_nil d : used_idx d = used_ring_idx d → drained [] d d.
Proof. intros E. split_and!; try done. intros i. by rewrite andb_true_r. Qed.
Lemma drained_cons x q d d' :
  drained q (set_used_idx (wrap 16 (used_idx d + 1)) (set_progress x false d)) d' → drained (x :: q) d d'.
Proof.
  rw /drained /=. intros (? & ? & ? & ? & ? & ? & ? & ? & ? & Hp). split_and!; try done. intros i. rewrite Hp. rw /upd. case_decide as E.
  - subst. rewrite (bool_decide_eq_true_2 (x ∈ x :: q)); [by rewrite andb_false_r|by left].
  - f_equal. f_equal. apply bool_decide_ext. set_solver.
Qed.
Lemma handle_interrupt_wp q l : vring_queue (used_ring (lk_data l)) (used_idx (lk_data l)) q (used_ring_idx (lk_data l)) →
  Forall (λ i, idx_ok i ∧ status (lk_data l) i = 0) q →
  wp handle_interrupt (λ _ l', drained q (lk_data l) (lk_data l') ∧ lk_notified l' = lk_notified l ++ (Completed <$> q)) l.
Proof.
  intros Hq Hs. apply (while_wp_rank _ _ (λ n _ l1, ∃ q1, n = Z.of_nat (length q1) ∧
    vring_queue (used_ring (lk_data l1)) (used_idx (lk_data l1)) q1 (used_ring_idx (lk_data l1)) ∧
    Forall (λ i, idx_ok i ∧ status (lk_data l1) i = 0) q1 ∧
    (∀ l2, drained q1 (lk_data l1) (lk_data l2) → lk_notified l2 = lk_notified l1 ++ (Completed <$> q1) →
      drained q (lk_data l) (lk_data l2) ∧ lk_notified l2 = lk_notified l ++ (Completed <$> q))) _ (Z.of_nat (length q))).
  - intros n [] l1 (q1 & -> & Hq1 & Hs1 & Hk). split; [lia|]. rw /interrupt_body. wp_step. wp_step. pose proof (vring_empty _ _ _ _ Hq1) as He.
    destruct (Z.eqb_spec (used_idx (lk_data l1)) (used_ring_idx (lk_data l1))) as [E|E].
    + wp_step. apply He in E as E'. subst q1. apply Hk; [by apply drained_nil|by rewrite app_nil_r].
    + destruct q1 as [|x q1]; [by destruct E; apply He|]. apply vring_pop in Hq1 as [Hx Hq1]. apply Forall_cons in Hs1 as [[Hxo Hx0] Hs1]. rw Hx.
      wp_step. apply in_range_wp; [done|]. wp_step. apply wp_assert; [by rw Hx0|]. wp_step. apply on_data_modify_wp. wp_step. apply turn_notify_wp.
      wp_step. apply on_data_modify_wp. wp_step. exists (Z.of_nat (length q1)). split; [simpl; lia|]. exists q1. split_and!; [done|done|done|].
      intros l2 Hd Hn. apply Hk; [by apply drained_cons|]. rw Hn -app_assoc. done.
  - destruct Hq as (_ & Hl & _). lia.
  - by exists q.
Qed.

(** ** The invariant *)

Definition holds (cs : list (option RwCall)) (t : nat) (r : Request) (idx : Z * Z * Z) : Prop := cs !! t = Some (Some (RwSent r idx)).
Definition idx_list (idx : Z * Z * Z) : list Z := [idx.1.1; idx.1.2; idx.2].
(** The state of the disk and of the device for the calls [cs] of the threads: [qa] are the requests the device has not taken, [qp]
    those it works on, [qu] the completions the interrupt handler has not seen. *)
Record core (d : Disk) (last : Z) (qa qp qu : list Z) (cs : list (option RwCall)) : Prop := {
  co_avail : vring_queue (avail_ring d) last qa (avail_idx d);
  co_used : vring_queue (used_ring d) (used_idx d) qu (used_ring_idx d);
  co_nodup : NoDup (qa ++ qp ++ qu);
  co_progress i : i ∈ qa ++ qp ++ qu ↔ in_progress d i = true;
  co_owner i : in_progress d i = true → ∃ t r b c, holds cs t r (i, b, c);
  co_holds t r idx : holds cs t r idx → busy d (idx_list idx) ∧ chain_of t r idx d ∧ ops d idx.1.1 = op_of r;
  co_disjoint t1 r1 i1 t2 r2 i2 x : holds cs t1 r1 i1 → holds cs t2 r2 i2 → x ∈ idx_list i1 → x ∈ idx_list i2 → t1 = t2;
  co_busy i : idx_ok i → free d i = false → ∃ t r idx, holds cs t r idx ∧ i ∈ idx_list idx;
  co_waiting i : i ∈ qa ++ qp → status d i = 0xff;
  co_done t r idx : holds cs t r idx → idx.1.1 ∉ qa ++ qp → status d idx.1.1 = 0;
}.
Lemma core_ext d last qa qp qu cs cs' : (∀ t r idx, holds cs' t r idx ↔ holds cs t r idx) → core d last qa qp qu cs → core d last qa qp qu cs'.
Proof.
  intros H []. split; try done.
  - intros i Hi. destruct (co_owner0 i Hi) as (t & r & b & c & Ho). exists t, r, b, c. by apply H.
  - intros t r idx Ho%H. by apply (co_holds0 t r idx).
  - intros t1 r1 i1 t2 r2 i2 x H1%H H2%H. by apply (co_disjoint0 t1 r1 i1 t2 r2 i2).
  - intros i Hi Hf. destruct (co_busy0 i Hi Hf) as (t & r & idx & Ho & Hx). exists t, r, idx. split; [by apply H|done].
  - intros t r idx Ho%H. by apply (co_done0 t r idx).
Qed.
Lemma core_new : core disk_new 0 [] [] [] [].
Proof. split; try done; [apply vring_new|apply vring_new|constructor|intros i; split; [by intros []%not_elem_of_nil|done]|by intros i ?%elem_of_nil]. Qed.

(** A chain that is in use stays as it is when only other descriptors change. *)
Lemma chain_of_ext t r idx d d' : (∀ i, i ∈ idx_list idx → desc d' i = desc d i) → chain_of t r idx d → chain_of t r idx d'.
Proof. destruct idx as [[a b] c]. intros H. rw /chain_of /=. by rewrite !H; [|set_solver..]. Qed.
Lemma busy_ext d d' idx : (∀ i, i ∈ idx → free d' i = free d i) → busy d idx → busy d' idx.
Proof. intros H [Hn Hf]. split; [done|]. apply Forall_forall. intros i Hi. rewrite Forall_forall in Hf. rw H //. by apply Hf. Qed.
Lemma busy_free d idx i : busy d idx → i ∈ idx → idx_ok i ∧ free d i = false.
Proof. intros [_ Hf] Hi. rewrite Forall_forall in Hf. by apply Hf. Qed.
Lemma head_idx idx : idx.1.1 ∈ idx_list idx.
Proof. by left. Qed.
Lemma core_untouched d d' last qa qp qu cs : untouched d d' → core d last qa qp qu cs → core d' last qa qp qu cs.
Proof.
  intros ((E1 & E2 & E3 & E4 & E5 & E6 & E7 & E8) & F & D) []. split; rw ?E1 ?E2 ?E3 ?E4 ?E5 ?E6 ?E7 ?E8; try done.
  - intros t r idx Ho. destruct (co_holds0 _ _ _ Ho) as (Hb & Hc & Hop). split_and!; [by eapply busy_ext, Hb; intros|..|done].
    eapply chain_of_ext, Hc. intros i Hi. apply D. by destruct (busy_free _ _ _ Hb Hi).
  - intros i Hi. rw F. by apply co_busy0.
Qed.
Lemma core_take d last x qa qp qu cs : core d last (x :: qa) qp qu cs →
  avail_ring d (last mod NUM) = x ∧ core d (wrap 16 (last + 1)) qa (qp ++ [x]) qu cs.
Proof.
  intros []. destruct (vring_pop _ _ _ _ _ co_avail0) as [Hx Hq]. split; [done|].
  assert (qa ++ (qp ++ [x]) ++ qu ≡ₚ (x :: qa) ++ qp ++ qu) as HP by solve_Permutation.
  assert (qa ++ qp ++ [x] ≡ₚ (x :: qa) ++ qp) as HP' by solve_Permutation.
  split; try done.
  - by rewrite HP.
  - intros i. rewrite HP. apply co_progress0.
  - intros i. rewrite HP'. apply co_waiting0.
  - intros t r idx. rewrite HP'. apply co_done0.
Qed.
Lemma core_drained d d' last qa qp qu cs : drained qu d d' → core d last qa qp qu cs → core d' last qa qp [] cs.
Proof.
  intros (E1 & E2 & E3 & E4 & E5 & E6 & E7 & E8 & E9 & P) []. rewrite app_assoc in co_nodup0. apply NoDup_app in co_nodup0 as (N1 & Nx & _).
  split; rw ?E1 ?E2 ?E3 ?E4 ?E5 ?E8 ?E9; try done.
  - rw E7. exact (vring_nil _ _ _ _ _ co_used0).
  - by rewrite app_nil_r.
  - intros i. rewrite app_nil_r P andb_true_iff negb_true_iff bool_decide_eq_false -co_progress0 app_assoc (elem_of_app (qa ++ qp)). split; [|by intros [[?|?] ?]].
    intros Hi. split; [by left|]. by apply Nx.
  - intros i. rewrite P andb_true_iff. intros [Hi _]. by apply co_owner0.
  - intros t r idx Ho. destruct (co_holds0 _ _ _ Ho) as (Hb & Hc & Hop). split_and!; [by eapply busy_ext, Hb; intros; rw E6|..|done].
    eapply chain_of_ext, Hc. intros. by rw E1.
  - rw E6. done.
Qed.
Lemma core_nodup_length q : NoDup q → Forall idx_ok q → (length q ≤ 8)%nat.
Proof.
  intros Hn Hf. change 8%nat with (length descriptors). apply submseteq_length, NoDup_submseteq; [done|].
  intros i Hi. apply elem_of_descriptors. rewrite Forall_forall in Hf. by apply Hf.
Qed.
Lemma core_queued_ok d last qa qp qu cs i : core d last qa qp qu cs → i ∈ qa ++ qp ++ qu → idx_ok i ∧ free d i = false.
Proof.
  intros [] Hi%co_progress0. destruct (co_owner0 i Hi) as (t & r & b & c & Ho). destruct (co_holds0 _ _ _ Ho) as (Hb & _).
  by apply (busy_free _ _ _ Hb), (head_idx (i, b, c)).
Qed.
Lemma core_finish d last qa p1 h p2 qu cs : core d last qa (p1 ++ h :: p2) qu cs →
  core (push_used h (set_status h 0 d)) last qa (p1 ++ p2) (qu ++ [h]) cs.
Proof.
  intros Hcore. pose proof Hcore as [].
  assert (qa ++ (p1 ++ p2) ++ qu ++ [h] ≡ₚ qa ++ (p1 ++ h :: p2) ++ qu) as HP by solve_Permutation.
  assert (qa ++ p1 ++ h :: p2 ≡ₚ h :: qa ++ p1 ++ p2) as HP' by solve_Permutation.
  assert (length qu < 8)%nat as Hlt.
  { assert (length (qa ++ (p1 ++ h :: p2) ++ qu) ≤ 8)%nat as H; [|rewrite !length_app /= in H; lia].
    apply core_nodup_length; [done|]. apply Forall_forall. intros i Hi. by destruct (core_queued_ok _ _ _ _ _ _ _ Hcore Hi). }
  assert (NoDup (h :: qa ++ p1 ++ p2)) as [Hh _]%NoDup_cons.
  { rewrite -HP'. rewrite app_assoc in co_nodup0. by apply NoDup_app in co_nodup0 as [? _]. }
  split; try done.
  - by apply vring_push.
  - by rewrite HP.
  - intros i. rewrite HP. apply co_progress0.
  - intros i Hi. simpl. rewrite arr_upd_ne; [|by intros ->]. apply co_waiting0. rewrite HP'. by right.
  - intros t r idx Ho Hn. simpl. destruct (decide (idx.1.1 = h)) as [->|Hne]; [by rewrite arr_upd_eq|]. rewrite arr_upd_ne; [|done]. apply (co_done0 _ _ _ Ho).
    rewrite HP' elem_of_cons. by intros [?|?].
Qed.
Lemma holds_insert cs t k t' r idx : (t < length cs)%nat →
  holds (<[t := k]> cs) t' r idx ↔ (t' = t ∧ k = Some (RwSent r idx)) ∨ (t' ≠ t ∧ holds cs t' r idx).
Proof.
  intros Hlt. rw /holds. destruct (decide (t' = t)) as [->|Hne].
  - rewrite list_lookup_insert_eq; [|done]. split; [by intros [= ->]; left|]. by intros [[_ ->]|[? _]].
  - rewrite list_lookup_insert_ne; [|by apply not_eq_sym]. split; [by right|]. by intros [[? _]|[_ ?]].
Qed.
Lemma holds_fun cs t r idx r' idx' : holds cs t r idx → holds cs t r' idx' → r' = r ∧ idx' = idx.
Proof. rw /holds. intros -> [= -> ->]. done. Qed.
Lemma holds_lt cs t r idx : holds cs t r idx → (t < length cs)%nat.
Proof. apply lookup_lt_Some. Qed.
Lemma core_released d d' last qa qp qu cs t r idx : core d last qa qp qu cs → holds cs t r idx → in_progress d idx.1.1 = false →
  released (idx_list idx) d d' → core d' last qa qp qu (<[t := None]> cs).
Proof.
  intros [] Ho Hp ((E1 & E2 & E3 & E4 & E5 & E6 & E7 & E8) & D & F). pose proof (holds_lt _ _ _ _ Ho) as Hlt.
  assert (∀ t' r' idx', holds (<[t := None]> cs) t' r' idx' → holds cs t' r' idx' ∧ ∀ i, i ∈ idx_list idx' → i ∉ idx_list idx) as Hother.
  { intros t' r' idx' [[_ [=]]|[Hne Ho']]%holds_insert; [|done]. split; [done|]. intros i Hi Hi'. apply Hne. exact (co_disjoint0 _ _ _ _ _ _ _ Ho' Ho Hi Hi'). }
  split; rw ?E1 ?E2 ?E3 ?E4 ?E5 ?E6 ?E7 ?E8; try done.
  - intros i Hi. destruct (co_owner0 i Hi) as (t' & r' & b & c & Ho'). exists t', r', b, c. apply holds_insert; [done|]. right. split; [|done].
    intros ->. destruct (holds_fun _ _ _ _ _ _ Ho Ho') as [-> <-]. simpl in Hp. congruence.
  - intros t' r' idx' [Ho' Hx]%Hother. destruct (co_holds0 _ _ _ Ho') as (Hb & Hc & Hop). split_and!; [..|done].
    + eapply busy_ext, Hb. intros i Hi. rw F bool_decide_eq_false_2; [by rewrite orb_false_r|by apply Hx].
    + eapply chain_of_ext, Hc. intros i Hi. by apply D, Hx.
  - intros t1 r1 i1 t2 r2 i2 x [H1 _]%Hother [H2 _]%Hother. by apply (co_disjoint0 t1 r1 i1 t2 r2 i2).
  - intros i Hi. rw F. intros [Hf Hx%bool_decide_eq_false]%orb_false_iff. destruct (co_busy0 i Hi Hf) as (t' & r' & idx' & Ho' & Hi').
    exists t', r', idx'. split; [|done]. apply holds_insert; [done|]. right. split; [|done].
    intros ->. destruct (holds_fun _ _ _ _ _ _ Ho Ho') as [-> ->]. done.
  - intros t' r' idx' [Ho' _]%Hother. by apply (co_done0 t' r').
Qed.
(** Free descriptors are in no chain and in no queue. *)
Lemma fresh_idx d last qa qp qu cs (idx : list Z) : core d last qa qp qu cs → (∀ i, i ∈ idx → free d i = true) →
  (∀ t r idx' i, holds cs t r idx' → i ∈ idx_list idx' → i ∉ idx) ∧ (∀ i, i ∈ idx → i ∉ qa ++ qp ++ qu).
Proof.
  intros Hcore Hf. split.
  - intros t r idx' i Ho Hi Hi'. destruct (co_holds _ _ _ _ _ _ Hcore _ _ _ Ho) as (Hb & _). destruct (busy_free _ _ _ Hb Hi). specialize (Hf i Hi'). congruence.
  - intros i Hi Hq. destruct (core_queued_ok _ _ _ _ _ _ _ Hcore Hq). specialize (Hf i Hi). congruence.
Qed.
Lemma core_sent d d1 d2 last qa qp qu cs t r k a b c : core d last qa qp qu cs → cs !! t = Some (Some (RwStart k)) →
  taken [a; b; c] d d1 → sent t r (a, b, c) d1 d2 → core d2 last (qa ++ [a]) qp qu (<[t := Some (RwSent r (a, b, c))]> cs).
Proof.
  intros Hcore Ht ((E1 & E2 & E3 & E4 & E5 & E6 & E7 & E8) & D1 & F & N & A) (C & D & G1 & G2 & G3 & G4 & G5 & G6 & G7 & G8 & G9).
  pose proof Hcore as []. pose proof (lookup_lt_Some _ _ _ Ht) as Hlt. simpl in *. rewrite Forall_forall in A.
  assert (∀ t' r' idx', holds cs t' r' idx' → t' ≠ t) as Hne by (rw /holds; intros t' r' idx' H ->; congruence).
  assert (a ∈ [a; b; c]) as Hin by by left. destruct (fresh_idx _ _ _ _ _ _ [a; b; c] Hcore (λ i Hi, proj2 (A i Hi))) as [Hx Hq]. pose proof (Hq a Hin) as Ha.
  assert ((qa ++ [a]) ++ qp ++ qu ≡ₚ a :: qa ++ qp ++ qu) as HP by solve_Permutation.
  assert ((qa ++ [a]) ++ qp ≡ₚ a :: qa ++ qp) as HP' by solve_Permutation.
  assert (NoDup (a :: qa ++ qp ++ qu)) as Hnd by by constructor.
  assert (busy d2 [a; b; c]) as Hbusy.
  { split; [done|]. apply Forall_forall. intros i Hi. destruct (A i Hi) as [? Hf]. split; [done|]. rw G6 F Hf. by rewrite bool_decide_eq_true_2. }
  split; rw ?G1 ?G2 ?G3 ?G4 ?G5 ?G7 ?G8 ?G9 ?E1 ?E2 ?E3 ?E4 ?E5 ?E6 ?E7 ?E8.
  - apply vring_push; [done|]. assert (length (a :: qa ++ qp ++ qu) ≤ 8)%nat as H; [|rewrite /= !length_app in H; lia].
    apply core_nodup_length; [done|]. constructor; [apply A; by left|]. apply Forall_forall. intros i Hi. by destruct (core_queued_ok _ _ _ _ _ _ _ Hcore Hi).
  - done.
  - by rewrite HP.
  - intros i. rewrite HP elem_of_cons. destruct (decide (i = a)) as [->|Hia]; [rewrite arr_upd_eq; tauto|]. rewrite arr_upd_ne // -co_progress0. tauto.
  - intros i Hi. destruct (decide (i = a)) as [->|Hia]; [exists t, r, b, c; apply holds_insert; [done|by left]|]. rewrite arr_upd_ne // in Hi.
    destruct (co_owner0 i Hi) as (t' & r' & b' & c' & Ho). exists t', r', b', c'. apply holds_insert; [done|]. right. split; [exact (Hne _ _ _ Ho)|done].
  - intros t' r' idx' [[-> [= <- <-]]|[_ Ho]]%holds_insert; [split_and!; [done|done|by rewrite arr_upd_eq]| |done].
    destruct (co_holds0 _ _ _ Ho) as (Hb & Hc & Hop). split_and!.
    + eapply busy_ext, Hb. intros i Hi. rw G6 F bool_decide_eq_false_2; [by rewrite andb_true_r|exact (Hx _ _ _ _ Ho Hi)].
    + eapply chain_of_ext, Hc. intros i Hi. rw D; [by rw D1|exact (Hx _ _ _ _ Ho Hi)].
    + rewrite arr_upd_ne // => E. apply (Hx _ _ _ _ Ho (head_idx _)). rewrite E. by left.
  - intros t1 r1 i1 t2 r2 i2 x [[-> [= <- <-]]|[_ H1]]%holds_insert [[-> [= <- <-]]|[_ H2]]%holds_insert X1 X2; try done.
    + by destruct (Hx _ _ _ _ H2 X2).
    + by destruct (Hx _ _ _ _ H1 X1).
    + exact (co_disjoint0 _ _ _ _ _ _ _ H1 H2 X1 X2).
  - intros i Hi. rw G6 F. destruct (decide (i ∈ [a; b; c])) as [Hi3|Hi3].
    + intros _. exists t, r, (a, b, c). split; [apply holds_insert; [done|by left]|done].
    + rewrite bool_decide_eq_false_2 // andb_true_r. intros Hf. destruct (co_busy0 i Hi Hf) as (t' & r' & idx' & Ho & Hi').
      exists t', r', idx'. split; [|done]. apply holds_insert; [done|]. right. split; [exact (Hne _ _ _ Ho)|done].
  - intros i. rewrite HP' elem_of_cons. destruct (decide (i = a)) as [->|Hia]; [by rewrite arr_upd_eq|]. rewrite arr_upd_ne //. intros [?|?]; [done|]. by apply co_waiting0.
  - intros t' r' idx' [[-> [= <- <-]]|[_ Ho]]%holds_insert; [|..|done]; rewrite HP' elem_of_cons /=; [by intros []; left|].
    intros Hn. rewrite arr_upd_ne; [by apply (co_done0 _ _ _ Ho); intros ?; apply Hn; right|]. intros E. apply Hn. by left.
Qed.

(** ** Turns *)

(** The end of a turn: a request waits for descriptors, has been sent, waits for its completion, or is over. *)
Inductive turn_end (t : nat) (d : Disk) (l' : Locked Disk DiskCond) : RwCall → RwTurn → Prop :=
  | end_full r : untouched d (lk_data l') → (nfree d < 3)%nat → turn_end t d l' (RwStart r) (Wait DescFreed None (RwStart r))
  | end_sent r a b c d1 : taken [a; b; c] d d1 → sent t r (a, b, c) d1 (lk_data l') →
      turn_end t d l' (RwStart r) (Wait (Completed a) None (RwSent r (a, b, c)))
  | end_waits r idx : in_progress d idx.1.1 = true → lk_data l' = d →
      turn_end t d l' (RwSent r idx) (Wait (Completed idx.1.1) None (RwSent r idx))
  | end_returns r idx : in_progress d idx.1.1 = false → released (idx_list idx) d (lk_data l') → DescFreed ∈ lk_notified l' →
      turn_end t d l' (RwSent r idx) (Return RwDone).
Definition start_ok (k : RwCall) : Prop := match k with RwStart r => request_ok r | RwSent _ _ => True end.
Lemma rw_turn_wp t k d last qa qp qu cs : core d last qa qp qu cs → cs !! t = Some (Some k) → start_ok k →
  wp (rw_turn t k) (λ o l', turn_end t d l' k o) (lock d).
Proof.
  intros [] Ht Hk. destruct k as [r|r [[a b] c]]; simpl.
  - wp_step. eapply wp_mono; [apply alloc3_desc_wp|]. intros [[[a b] c]|] l1; [intros [Hta Hns]|intros [Hu Hf]; wp_step; by apply end_full].
    pose proof Hta as (_ & _ & _ & Hnd & Ha). assert (Forall idx_ok [a; b; c]) as Hok by (eapply Forall_impl; [exact Ha|by intros i [? _]]).
    wp_step. eapply wp_mono; [by apply send_request_wp|]. intros _ l2 [Hs Hn2]. rw /rw_wait /=. wp_step.
    apply in_range_wp; [by apply Forall_cons in Hok as [? _]|]. wp_step. wp_step. pose proof Hs as (_ & _ & _ & _ & _ & _ & _ & _ & _ & Hp & _).
    rw Hp /= arr_upd_eq. wp_step. exact (end_sent t d l2 r a b c _ Hta Hs).
  - destruct (co_holds0 _ _ _ Ht) as (Hb & Hc & _). rw /rw_wait /=. wp_step. apply in_range_wp; [by destruct (busy_free _ _ _ Hb (head_idx _))|].
    wp_step. wp_step. simpl. destruct (in_progress d a) eqn:Hp; [wp_step; by apply (end_waits t d _ r (a, b, c))|].
    wp_step. eapply wp_mono; [apply (free_chain_wp a [b; c]); [exact (chain_linked _ _ _ _ _ _ Hc)|done|simpl; lia]|]. intros _ l2 [Hr Hn]. wp_step.
    apply end_returns; [done|done|]. rw Hn. by left.
Qed.
Lemma core_turn t k d l' o last qa qp qu cs : core d last qa qp qu cs → cs !! t = Some (Some k) → turn_end t d l' k o →
  ∃ qa', core (lk_data l') last qa' qp qu (<[t := match o with Return _ => None | Wait _ _ k' => Some k' end]> cs).
Proof.
  intros Hcore Ht Hend. destruct Hend as [r Hu Hf|r a b c d1 Hta Hs|r idx Hp ->|r idx Hp Hr Hn].
  - exists qa. rewrite list_insert_id //. exact (core_untouched _ _ _ _ _ _ _ Hu Hcore).
  - exists (qa ++ [a]). exact (core_sent _ _ _ _ _ _ _ _ _ _ _ _ _ _ Hcore Ht Hta Hs).
  - exists qa. by rewrite list_insert_id.
  - exists qa. exact (core_released _ _ _ _ _ _ _ _ _ _ Hcore Ht Hp Hr).
Qed.

(** ** The system *)

(** A thread that sleeps and has not been woken has a reason to. *)
Definition pc_ok (d : Disk) (pc : RwPc) : Prop :=
  match pc with
  | PcIdle => True
  | PcReady k => start_ok k
  | PcAsleep c (RwStart r) w => request_ok r ∧ c = DescFreed ∧ (w = false → (nfree d < 3)%nat)
  | PcAsleep c (RwSent r idx) w => c = Completed idx.1.1 ∧ (w = false → in_progress d idx.1.1 = true)
  end.
Definition calls (s : Sys) : list (option RwCall) := call_of <$> sy_threads s.
Definition sys_inv (s : Sys) : Prop :=
  (∃ qa qu, core (sy_disk s) (dv_last (sy_dev s)) qa (dv_pending (sy_dev s)) qu (calls s)) ∧ Forall (pc_ok (sy_disk s)) (sy_threads s).
Lemma call_of_wake ns pc : call_of (wake ns pc) = call_of pc.
Proof. by destruct pc. Qed.
Lemma calls_wake ns (pcs : list RwPc) : call_of <$> (wake ns <$> pcs) = call_of <$> pcs.
Proof. rewrite -list_fmap_compose. apply list_fmap_ext. intros i pc _. apply call_of_wake. Qed.
Lemma pc_ok_wake d d' ns pc : ((nfree d < 3)%nat → DescFreed ∈ ns ∨ (nfree d' < 3)%nat) →
  (∀ i, in_progress d i = true → Completed i ∈ ns ∨ in_progress d' i = true) → pc_ok d pc → pc_ok d' (wake ns pc).
Proof.
  intros H1 H2. destruct pc as [|k|c [r|r idx] w]; try done; simpl.
  - intros (Hr & -> & Hw). split_and!; [done|done|]. intros [Hw0 Hn%bool_decide_eq_false]%orb_false_iff. by destruct (H1 (Hw Hw0)).
  - intros (-> & Hw). split; [done|]. intros [Hw0 Hn%bool_decide_eq_false]%orb_false_iff. by destruct (H2 _ (Hw Hw0)).
Qed.
Lemma nfree_mono d d' : (∀ i, free d' i = true → free d i = true) → (nfree d' ≤ nfree d)%nat.
Proof.
  intros H. apply submseteq_length, NoDup_submseteq; [apply NoDup_filter, NoDup_seqZ|]. intros i [Hf Hi]%list_elem_of_filter.
  apply list_elem_of_filter. split; [by apply H|done].
Qed.
Lemma turn_end_wakes t d l' k o : turn_end t d l' k o →
  ((nfree d < 3)%nat → DescFreed ∈ lk_notified l' ∨ (nfree (lk_data l') < 3)%nat) ∧
  (∀ i, in_progress d i = true → Completed i ∈ lk_notified l' ∨ in_progress (lk_data l') i = true).
Proof.
  intros [r (R & F & _) Hf|r a b c d1 (R & _ & F & _) Hs|r idx Hp ->|r idx Hp (R & _) Hn].
  - destruct R as (_ & _ & _ & _ & _ & _ & -> & _). split; [|by right]. intros _. right. eapply Nat.le_lt_trans; [|exact Hf]. apply nfree_mono. intros i. by rw F.
  - destruct R as (_ & _ & _ & _ & _ & _ & E & _), Hs as (_ & _ & _ & _ & _ & _ & _ & E2 & _ & -> & _). rw E /=. split.
    + intros Hf. right. eapply Nat.le_lt_trans; [|exact Hf]. apply nfree_mono. intros i. rw E2 F. by intros [? _]%andb_true_iff.
    + intros i Hi. right. rw /upd. by case_decide.
  - split; by right.
  - destruct R as (_ & _ & _ & _ & _ & _ & -> & _). split; [by left|by right].
Qed.
Lemma turn_end_pc t d l' k o : turn_end t d l' k o → start_ok k →
  pc_ok (lk_data l') (match o with Return _ => PcIdle | Wait c _ k => PcAsleep c k false end).
Proof.
  intros He. destruct He as [r (_ & F & _) Hf|r a b c d1 _ Hs|r idx Hp ->|r idx Hp Hr Hn]; simpl; [|..|done].
  - intros Hr. split_and!; [done|done|]. intros _. eapply Nat.le_lt_trans; [|exact Hf]. apply nfree_mono. intros i. by rw F.
  - intros _. split; [done|]. intros _. destruct Hs as (_ & _ & _ & _ & _ & _ & _ & _ & _ & -> & _). by rw arr_upd_eq.
  - done.
Qed.
Lemma core_completed d last qa qp qu cs : core d last qa qp qu cs → Forall (λ i, idx_ok i ∧ status d i = 0) qu.
Proof.
  intros Hcore. apply Forall_forall. intros i Hi. assert (i ∈ qa ++ qp ++ qu) as Hq by (rewrite !elem_of_app; tauto).
  split; [by destruct (core_queued_ok _ _ _ _ _ _ _ Hcore Hq)|]. destruct Hcore. apply co_progress0, co_owner0 in Hq as (t & r & b & c & Ho).
  apply (co_done0 _ _ _ Ho). simpl. rewrite app_assoc in co_nodup0. apply NoDup_app in co_nodup0 as (_ & Hx & _). intros Hi'. exact (Hx i Hi' Hi).
Qed.
Lemma calls_insert s t pc : (call_of <$> <[t := pc]> (sy_threads s)) = <[t := call_of pc]> (calls s).
Proof. apply list_fmap_insert. Qed.
Lemma calls_lookup s t pc : sy_threads s !! t = Some pc → calls s !! t = Some (call_of pc).
Proof. intros H. rw /calls list_lookup_fmap H. done. Qed.

Lemma sys_inv_turn t k o l s : sys_inv s → sy_threads s !! t = Some (PcReady k) → rw_turn t k (lock (sy_disk s)) = Ret o l →
  turn_end t (sy_disk s) l k o ∧ sys_inv (end_turn t o l s).
Proof.
  intros [(qa & qu & Hcore) Hpcs] Ht Hrun. pose proof (calls_lookup _ _ _ Ht) as Hk. simpl in Hk.
  assert (start_ok k) as Hok by (rewrite Forall_lookup in Hpcs; exact (Hpcs t _ Ht)).
  pose proof (wp_ret_inv _ _ _ _ _ (rw_turn_wp t k _ _ _ _ _ _ Hcore Hk Hok) Hrun) as Hend. split; [done|]. split.
  - destruct (core_turn _ _ _ _ _ _ _ _ _ _ Hcore Hk Hend) as [qa' Hc]. exists qa', qu. rw /calls /= list_fmap_insert calls_wake.
    by destruct o.
  - destruct (turn_end_wakes _ _ _ _ _ Hend) as [W1 W2]. apply Forall_insert; [|exact (turn_end_pc _ _ _ _ _ Hend Hok)].
    apply Forall_fmap. eapply Forall_impl; [exact Hpcs|]. intros pc. by apply pc_ok_wake.
Qed.
Lemma sys_inv_interrupt l s : sys_inv s → handle_interrupt (lock (sy_disk s)) = Ret tt l →
  status (lk_data l) = status (sy_disk s) ∧
  sys_inv {| sy_disk := lk_data l; sy_dev := sy_dev s; sy_bufs := sy_bufs s; sy_threads := wake (lk_notified l) <$> sy_threads s |}.
Proof.
  intros [(qa & qu & Hcore) Hpcs] Hrun. pose proof (wp_ret_inv _ _ _ _ _ (handle_interrupt_wp qu (lock (sy_disk s)) (co_used _ _ _ _ _ _ Hcore) (core_completed _ _ _ _ _ _ Hcore)) Hrun) as [Hd Hn].
  simpl in Hd, Hn. split; [by destruct Hd as (_ & _ & _ & _ & _ & _ & _ & ? & _)|]. split.
  - exists qa, []. rw /calls /= calls_wake. exact (core_drained _ _ _ _ _ _ _ Hd Hcore).
  - apply Forall_fmap. eapply Forall_impl; [exact Hpcs|]. intros pc. destruct Hd as (_ & _ & _ & _ & _ & Ef & _ & _ & _ & P). apply pc_ok_wake.
    + intros H. right. eapply Nat.le_lt_trans; [|exact H]. apply nfree_mono. by rw Ef.
    + intros i Hi. rw Hn P Hi. case_bool_decide as E; [left; apply list_elem_of_fmap; by exists i|by right].
Qed.
Lemma abs_pc_ext d d' pc pc' : call_of pc' = call_of pc → (∀ r idx, call_of pc = Some (RwSent r idx) → status d' idx.1.1 = status d idx.1.1) →
  abs_pc d' pc' = abs_pc d pc.
Proof. rw /abs_pc. intros -> H. destruct (call_of pc) as [[r|r idx]|]; [done| |done]. by rw (H r idx). Qed.
(** What the others see of the turn of a thread. *)
Lemma abs_pcs d d' ns pcs t pc :
  (∀ t' r idx, t' ≠ t → holds (call_of <$> pcs) t' r idx → status d' idx.1.1 = status d idx.1.1) →
  abs_pc d' <$> <[t := pc]> (wake ns <$> pcs) = <[t := abs_pc d' pc]> (abs_pc d <$> pcs).
Proof.
  intros H. rewrite list_fmap_insert. apply list_eq. intros t'. destruct (decide (t' = t)) as [->|Hne].
  - destruct (decide (t < length pcs)%nat) as [Hlt|Hge].
    + by rewrite !list_lookup_insert_eq // !length_fmap.
    + rewrite !list_insert_ge ?length_fmap; [|lia..]. by rewrite !lookup_ge_None_2 // !length_fmap; lia.
  - rewrite !list_lookup_insert_ne; [|by apply not_eq_sym..]. rewrite !list_lookup_fmap. destruct (pcs !! t') as [pc'|] eqn:E; [|done]. simpl. f_equal.
    apply abs_pc_ext; [apply call_of_wake|]. intros r idx Hc. apply (H t' r idx Hne). by rw /holds list_lookup_fmap E /= Hc.
Qed.
Lemma abs_pcs_id d (pcs : list RwPc) (t : nat) pc pc' : pcs !! t = Some pc → abs_pc d pc = pc' → <[t := pc']> (abs_pc d <$> pcs) = abs_pc d <$> pcs.
Proof. intros H <-. apply list_insert_id. by rw list_lookup_fmap H. Qed.
Lemma abs_turn t k o l s qa qu : core (sy_disk s) (dv_last (sy_dev s)) qa (dv_pending (sy_dev s)) qu (calls s) →
  sy_threads s !! t = Some (PcReady k) → turn_end t (sy_disk s) l k o →
  abs (end_turn t o l s) = abs s ∨ abs_step (abs s) (abs (end_turn t o l s)).
Proof.
  intros Hcore Ht Hend. rw /abs /=. destruct Hend as [r (R & _) Hf|r a b c d1 (R & _ & _ & _ & A) Hs|r idx Hp ->|r idx Hp (R & _) Hn].
  - destruct R as (_ & _ & _ & _ & _ & E & _). left. rewrite (abs_pcs (sy_disk s)); [|by rw E]. by rewrite (abs_pcs_id _ _ _ _ _ Ht).
  - destruct R as (_ & _ & _ & _ & _ & E & _), Hs as (_ & _ & _ & _ & _ & _ & _ & _ & Es & _). left. rewrite (abs_pcs (sy_disk s)).
    + rewrite (abs_pcs_id _ _ _ _ _ Ht) //. by rw /abs_pc /= Es arr_upd_eq.
    + intros t' r' idx' _ Ho. rw Es E /= arr_upd_ne //. intros Ea. destruct (co_holds _ _ _ _ _ _ Hcore _ _ _ Ho) as (Hb & _).
      destruct (busy_free _ _ _ Hb (head_idx idx')) as [_ Hf]. rw Ea in Hf. apply Forall_cons in A as [[_ Ha] _]. congruence.
  - left. rewrite (abs_pcs (sy_disk s)) //. by rewrite (abs_pcs_id _ _ _ _ _ Ht).
  - destruct R as (_ & _ & _ & _ & _ & E & _). right. rewrite (abs_pcs (sy_disk s)); [|by rw E]. apply (abs_return (abs s) t r).
    rw /= list_lookup_fmap Ht /= /abs_pc /=. pose proof (calls_lookup _ _ _ Ht) as Ho. destruct Hcore. rewrite (co_done0 t r idx Ho); [done|].
    intros Hi. assert (in_progress (sy_disk s) idx.1.1 = true) as Hp'; [|congruence]. apply co_progress0. rewrite app_assoc. apply elem_of_app. by left.
Qed.
(** Behind every request the device has taken there is the chain of its thread. *)
Lemma pending_chain d last qa qp qu cs h : core d last qa qp qu cs → h ∈ qp →
  ∃ t r b c, holds cs t r (h, b, c) ∧ chain_at d h h t h ∧ ops d h = op_of r ∧ status d h = 0xff ∧
    ∀ o t' st, chain_at d h o t' st → o = h ∧ t' = t ∧ st = h.
Proof.
  intros [] Hh. assert (in_progress d h = true) as Hp by (apply co_progress0; rewrite !elem_of_app; tauto).
  destruct (co_owner0 h Hp) as (t & r & b & c & Ho). destruct (co_holds0 _ _ _ Ho) as (_ & (Ha & Hb & Hc) & Hop). exists t, r, b, c.
  split; [done|]. split; [|split; [done|split]].
  - rw /chain_at Ha /= Hb /= Hc Hop /=. split_and!; try done; by destruct (rq_ty r).
  - apply co_waiting0. rewrite elem_of_app. by right.
  - intros o t' st. rw /chain_at Ha /= Hb /= Hc /=. intros H. destruct_and!. split_and!; congruence.
Qed.
Lemma wake_nil (pcs : list RwPc) : wake [] <$> pcs = pcs.
Proof. rewrite -{2}(list_fmap_id pcs). apply list_fmap_ext. intros i [| |c k w] _; [done|done|]. simpl. by rewrite orb_false_r. Qed.
Lemma abs_finish d h t r b c (pcs : list RwPc) : (∀ t1 r1 i1 t2 r2 i2 x, holds (call_of <$> pcs) t1 r1 i1 → holds (call_of <$> pcs) t2 r2 i2 →
    x ∈ idx_list i1 → x ∈ idx_list i2 → t1 = t2) → holds (call_of <$> pcs) t r (h, b, c) →
  abs_pc (push_used h (set_status h 0 d)) <$> pcs = <[t := ADone r]> (abs_pc d <$> pcs).
Proof.
  intros Hdis Ho. apply list_lookup_fmap_Some_1 in Ho as Hpc. destruct Hpc as (pc & Hc & Hpc).
  rewrite -{1}(wake_nil pcs) -(list_insert_id (wake [] <$> pcs) t (wake [] pc)); [|by rewrite list_lookup_fmap Hpc]. rewrite (abs_pcs d).
  - f_equal. by rw /abs_pc call_of_wake -Hc /= arr_upd_eq.
  - intros t' r' idx' Hne Ho'. simpl. rewrite arr_upd_ne //. intros E. apply Hne, (Hdis _ _ _ _ _ _ h Ho' Ho); [rewrite -E; apply head_idx|by left].
Qed.
Lemma sys_inv_finish s p1 h p2 o t st sectors buf : sys_inv s → dv_pending (sy_dev s) = p1 ++ h :: p2 → chain_at (sy_disk s) h o t st →
  transfer (req_ty (ops (sy_disk s) o)) (req_sector (ops (sy_disk s) o)) (dv_sectors (sy_dev s)) (sy_bufs s t) = (sectors, buf) →
  let s' := {| sy_disk := push_used h (set_status st 0 (sy_disk s));
    sy_dev := {| dv_sectors := sectors; dv_last := dv_last (sy_dev s); dv_pending := p1 ++ p2 |};
    sy_bufs := upd_buf (sy_bufs s) t buf; sy_threads := sy_threads s |} in
  sys_inv s' ∧ (abs s' = abs s ∨ abs_step (abs s) (abs s')).
Proof.
  intros [(qa & qu & Hcore) Hpcs] Hp Hch Htr. rewrite Hp in Hcore.
  destruct (pending_chain _ _ _ _ _ _ h Hcore) as (t0 & r & b & c & Ho & _ & Hop & Hst & Huniq); [rewrite elem_of_app; right; by left|].
  destruct (Huniq _ _ _ Hch) as (-> & -> & ->). split; [split|].
  + exists qa, (qu ++ [h]). exact (core_finish _ _ _ _ _ _ _ _ Hcore).
  + eapply Forall_impl; [exact Hpcs|]. intros pc. by destruct pc as [|[]|c' [] w].
  + right. rw /abs /=. rewrite (abs_finish _ _ _ _ _ _ _ (co_disjoint _ _ _ _ _ _ Hcore) Ho). apply (abs_perform (abs s) t0 r).
    * rw /holds /calls in Ho. apply list_lookup_fmap_Some_1 in Ho as (pc & Hc & Hpc). by rw /= list_lookup_fmap Hpc /= /abs_pc -Hc /= Hst.
    * by rewrite Hop in Htr.
Qed.
Lemma sys_step_ok s s' : sys_inv s → sys_step s s' → sys_inv s' ∧ (abs s' = abs s ∨ abs_step (abs s) (abs s')).
Proof.
  intros Hinv Hstep. pose proof Hinv as [(qa & qu & Hcore) Hpcs]. destruct Hstep as [|t r buf Ht Hr Hl|t k o l Ht Hrun|t c k Ht|l Hrun|Hne|p1 h p2 o t st sectors buf Hp Hch Htr].
  - split; [split|].
    + exists qa, qu. eapply core_ext, Hcore. intros t r idx. rw /holds /calls /= fmap_app lookup_app. simpl.
      destruct ((call_of <$> sy_threads s) !! t); [done|]. by destruct (_ - _)%nat as [|[]].
    + apply Forall_app. split; [done|]. by constructor.
    + right. rw /abs /= fmap_app. apply (abs_spawn (abs s)).
  - split; [split|].
    + exists qa, qu. eapply core_ext, Hcore. intros t' r' idx. rw /calls /= list_fmap_insert holds_insert; [|rewrite length_fmap; exact (lookup_lt_Some _ _ _ Ht)].
      rw /holds. pose proof (calls_lookup _ _ _ Ht) as Hk. rw /calls /= in Hk. split; [by intros [[_ [=]]|[_ ?]]|]. intros H. right. split; [|done]. intros ->. congruence.
    + by apply Forall_insert.
    + right. rw /abs /= list_fmap_insert. apply (abs_call (abs s) t r buf). by rw /= list_lookup_fmap Ht.
  - destruct (sys_inv_turn _ _ _ _ _ Hinv Ht Hrun) as [Hend Hinv']. split; [done|]. exact (abs_turn _ _ _ _ _ _ _ Hcore Ht Hend).
  - assert ((call_of <$> <[t := PcReady k]> (sy_threads s)) = calls s) as E.
    { rw list_fmap_insert. apply list_insert_id. by rw list_lookup_fmap Ht. }
    split; [split|].
    + exists qa, qu. by rw /calls E.
    + apply Forall_insert; [done|]. rewrite Forall_lookup in Hpcs. specialize (Hpcs t _ Ht). by destruct k; [destruct Hpcs|].
    + left. rw /abs /=. f_equal. rewrite list_fmap_insert. by rewrite (abs_pcs_id _ _ _ _ _ Ht).
  - destruct (sys_inv_interrupt _ _ Hinv Hrun) as [Es Hinv']. split; [done|]. left. rw /abs /=. f_equal. rewrite -list_fmap_compose.
    apply list_fmap_ext. intros t pc _. apply abs_pc_ext; [apply call_of_wake|]. by rw Es.
  - destruct qa as [|x qa]; [by destruct Hne; apply (vring_empty _ _ _ _ (co_avail _ _ _ _ _ _ Hcore))|].
    apply core_take in Hcore as [Hx Hcore]. split; [split|by left]; [|done]. exists qa, qu. by rw /= Hx.
  - exact (sys_inv_finish _ _ _ _ _ _ _ _ _ Hinv Hp Hch Htr).
Qed.
Lemma nfree_busy d : (nfree d < 3)%nat → ∃ i, idx_ok i ∧ free d i = false.
Proof.
  intros Hf. destruct (decide (Forall (λ i, free d i = true) descriptors)) as [Hall|Hex].
  - assert (8 ≤ nfree d)%nat; [|lia]. change 8%nat with (length descriptors). apply submseteq_length, NoDup_submseteq; [apply NoDup_seqZ|].
    intros i Hi. rewrite Forall_forall in Hall. apply list_elem_of_filter. split; [by apply Hall|done].
  - apply not_Forall_Exists, Exists_exists in Hex as (i & Hi & Hfi); [|intros i; apply _]. exists i. split; [by apply elem_of_descriptors|].
    by apply not_true_iff_false.
Qed.
Lemma sys_inv_reachable sectors s : sys_reachable sectors s → sys_inv s.
Proof.
  induction 1 as [|s s' _ IH Hstep]; [|by apply (sys_step_ok s s')]. split; [exists [], []; exact core_new|constructor].
Qed.

(** ** Theorems *)

(** C5: In every interleaving of threads that read and write, of the interrupt handler and of a device that completes the requests in
    any order, each step is invisible or a step of a disk that performs a request at once: the transfer between buffer and sectors
    happens exactly once for each call, after the call and before its return. *)
Theorem disk_refines_atomic sectors s s' : sys_reachable sectors s → sys_step s s' → abs s' = abs s ∨ abs_step (abs s) (abs s').
Proof. intros H%sys_inv_reachable Hstep. by apply (sys_step_ok s s'). Qed.

(** C21: No turn of a reader or writer and no run of the interrupt handler panics, whatever the order in which they and the device run:
    descriptors are never freed twice, the completions the handler finds have status zero, and all loops end. Behind every request
    that the device has taken there is a well-formed chain of three descriptors. *)
Theorem disk_safe sectors s : sys_reachable sectors s →
  (∀ t k, sy_threads s !! t = Some (PcReady k) → ∃ o l, rw_turn t k (lock (sy_disk s)) = Ret o l) ∧
  (∃ l, handle_interrupt (lock (sy_disk s)) = Ret tt l) ∧
  (∀ h, h ∈ dv_pending (sy_dev s) → ∃ t, chain_at (sy_disk s) h h t h).
Proof.
  intros [(qa & qu & Hcore) Hpcs]%sys_inv_reachable. split_and!.
  - intros t k Ht. rewrite Forall_lookup in Hpcs. pose proof (rw_turn_wp t k _ _ _ _ _ _ Hcore (calls_lookup _ _ _ Ht) (Hpcs t _ Ht)) as H.
    apply wp_run in H as (o & l & Hrun & _). by exists o, l.
  - pose proof (handle_interrupt_wp qu (lock (sy_disk s)) (co_used _ _ _ _ _ _ Hcore) (core_completed _ _ _ _ _ _ Hcore)) as H.
    apply wp_run in H as ([] & l & Hrun & _). by exists l.
  - intros h Hh. destruct (pending_chain _ _ _ _ _ _ h Hcore Hh) as (t & r & b & c & _ & Hch & _). by exists t.
Qed.

(** C28: No wakeup is lost. A thread that sleeps for descriptors and has not been woken sleeps because another thread has descriptors.
    The interrupt handler, whenever it runs, wakes every thread that sleeps for a request the device has completed, whatever else the
    device still has to do. *)
Theorem disk_wakes_sleepers sectors s : sys_reachable sectors s →
  (∀ t k, sy_threads s !! t = Some (PcAsleep DescFreed k false) → ∃ t' r idx, t' ≠ t ∧ calls s !! t' = Some (Some (RwSent r idx))) ∧
  ∃ l, handle_interrupt (lock (sy_disk s)) = Ret tt l ∧
    ∀ t a k w, sy_threads s !! t = Some (PcAsleep (Completed a) k w) → status (sy_disk s) a = 0 →
      wake (lk_notified l) (PcAsleep (Completed a) k w) = PcAsleep (Completed a) k true.
Proof.
  intros [(qa & qu & Hcore) Hpcs]%sys_inv_reachable. rewrite Forall_lookup in Hpcs. split.
  - intros t k Ht. pose proof (Hpcs t _ Ht) as Hpc. destruct k as [r|r idx]; simpl in Hpc; [|by destruct Hpc].
    destruct Hpc as (_ & _ & Hf). specialize (Hf eq_refl).
    destruct (nfree_busy _ Hf) as (i & Hi & Hfi).
    destruct (co_busy _ _ _ _ _ _ Hcore i Hi Hfi) as (t' & r' & idx & Ho & _). exists t', r', idx. split; [|done]. intros ->.
    pose proof (calls_lookup _ _ _ Ht) as Hk. rw /holds in Ho. simpl in Hk. congruence.
  - pose proof (handle_interrupt_wp qu (lock (sy_disk s)) (co_used _ _ _ _ _ _ Hcore) (core_completed _ _ _ _ _ _ Hcore)) as H.
    apply wp_run in H as ([] & l & Hrun & Hd & Hn). exists l. split; [done|]. intros t a k w Ht Hst. specialize (Hpcs t _ Ht). simpl in *.
    f_equal. destruct w; [done|]. apply bool_decide_eq_true. rw Hn. apply list_elem_of_fmap. exists a. split; [done|].
    destruct k as [r|r idx]; [by destruct Hpcs as (_ & ? & _)|]. destruct Hpcs as [[= ->] Hpr].
    assert (idx.1.1 ∈ qa ++ dv_pending (sy_dev s) ++ qu) as Hin by by apply (co_progress _ _ _ _ _ _ Hcore), Hpr.
    rewrite app_assoc in Hin. apply elem_of_app in Hin as [Hin|Hin]; [|done]. pose proof (co_waiting _ _ _ _ _ _ Hcore _ Hin). congruence.
Qed.

(** ** A run

    One thread writes a block: the call, the turn that sends the request, the device that takes and completes it. *)
Module Example.
Definition sectors0 : Z → list byte := λ _, replicate 512 Byte.x00.
Definition req : Request := {| rq_ty := Out; rq_offset := 2048; rq_len := FS_BLOCK_SIZE |}.
Definition block : list byte := replicate 1024 Byte.x2a.
Definition spawned : Sys :=
  {| sy_disk := disk_new; sy_dev := {| dv_sectors := sectors0; dv_last := 0; dv_pending := [] |}; sy_bufs _ := []; sy_threads := [PcIdle] |}.
Definition called : Sys :=
  {| sy_disk := disk_new; sy_dev := {| dv_sectors := sectors0; dv_last := 0; dv_pending := [] |}; sy_bufs := upd_buf (λ _, []) 0 block;
     sy_threads := [PcReady (RwStart req)] |}.
Definition sent : Sys :=
  match rw_turn 0 (RwStart req) (lock disk_new) with Ret o l => end_turn 0 o l called | Panic => called end.
Definition taken : Sys :=
  {| sy_disk := sy_disk sent; sy_dev := {| dv_sectors := sectors0; dv_last := 1; dv_pending := [0] |}; sy_bufs := sy_bufs sent; sy_threads := sy_threads sent |}.
Definition finished : Sys :=
  {| sy_disk := push_used 0 (set_status 0 0 (sy_disk taken));
     sy_dev := {| dv_sectors := (transfer Out 4 sectors0 block).1; dv_last := 1; dv_pending := [] |};
     sy_bufs := upd_buf (sy_bufs taken) 0 block; sy_threads := sy_threads taken |}.
Lemma called_reachable : sys_reachable sectors0 called.
Proof.
  apply (sys_next _ spawned); [exact (sys_next _ _ _ (sys_start _) (sys_spawn _))|]. exact (sys_call spawned 0 req block eq_refl (conj eq_refl eq_refl) eq_refl).
Qed.
Lemma taken_reachable : sys_reachable sectors0 taken.
Proof.
  apply (sys_next _ sent); [apply (sys_next _ called); [exact called_reachable|]|].
  - exact (sys_turn called 0 (RwStart req) (Wait (Completed 0) None (RwSent req (0, 1, 2))) {| lk_data := sy_disk sent; lk_notified := [] |} eq_refl eq_refl).
  - by apply (sys_take sent).
Qed.
Lemma finish_step : sys_step taken finished.
Proof.
  apply (sys_finish taken [] 0 [] 0 0 0); [done| |done]. rw /chain_at. split_and!; vm_compute; reflexivity.
Qed.
End Example.
Lemma disk_refines_atomic_witness :
  abs Example.finished = abs Example.taken ∨ abs_step (abs Example.taken) (abs Example.finished).
Proof. exact (disk_refines_atomic Example.sectors0 _ _ Example.taken_reachable Example.finish_step). Defined.
Lemma disk_safe_witness :
  (∃ o l, rw_turn 0 (RwStart Example.req) (lock (sy_disk Example.called)) = Ret o l) ∧ ∃ t, chain_at (sy_disk Example.taken) 0 0 t 0.
Proof.
  split.
  - apply (proj1 (disk_safe Example.sectors0 _ Example.called_reachable)). reflexivity.
  - apply (proj2 (proj2 (disk_safe Example.sectors0 _ Example.taken_reachable))). by left.
Defined.
Lemma disk_wakes_sleepers_witness : ∃ l, handle_interrupt (lock (sy_disk Example.finished)) = Ret tt l ∧
  wake (lk_notified l) (PcAsleep (Completed 0) (RwSent Example.req (0, 1, 2)) false) = PcAsleep (Completed 0) (RwSent Example.req (0, 1, 2)) true.
Proof.
  destruct (proj2 (disk_wakes_sleepers Example.sectors0 Example.finished (sys_next _ _ _ Example.taken_reachable Example.finish_step))) as (l & H & Hw).
  exists l. split; [exact H|]. exact (Hw 0%nat 0 (RwSent Example.req (0, 1, 2)) false eq_refl eq_refl).
Defined.
